(* ===== verification/_CoqProject ===== *)
-Q . S2P
Prelude.v
Types.v
Double.v
Json.v
Text.v
JsonParser.v
JsonProofs.v
JsonRoundTrip.v
GraphSpec.v
GraphSpecProofs.v
CapabilityTypes.v
Packet.v
PacketProofs.v
EdgeChannel.v
EdgeRefinement.v
EdgeTraces.v
EdgeProtocol.v
InputBinding.v
InputFlow.v
InputBindingProofs.v
InputRebind.v
NodeRuntime.v
NodeRuntimeProofs.v
NodeProtocol.v
ResourceLedger.v
ResourceLedgerProofs.v
JsonReader.v
GraphJson.v
GraphJsonProofs.v
CapabilityJson.v
CapabilityJsonProofs.v
Negotiation.v
NegotiationProofs.v
GraphValidator.v
ValidatorProofs.v
ValidatorContracts.v
MutationApplier.v
MutationProofs.v
GraphDiff.v
GraphDiffProofs.v
RuntimeTopology.v
TopologyProofs.v
TopologyHistory.v
Operations.v
OperationsProofs.v
Coordinator.v
CoordinatorProofs.v
VersionHistory.v
Scheduler.v
SchedulerInvoke.v
SchedulerSamples.v
SchedulerProofs.v
SchedulerTurns.v
SchedulerReports.v
SchedulerOrder.v
SessionTypes.v
SessionProtocol.v
Session.v
SessionProofs.v
AsyncRuntime.v
AsyncProofs.v
AsyncHost.v
AsyncSamples.v
AsyncAccounts.v
AsyncProgress.v
AsyncBatches.v
AuditLog.v
AuditProofs.v
EventBus.v
EventBusProofs.v
GraphTemplate.v
GraphTemplateProofs.v
FlowLimiter.v
FlowLimiterProofs.v
PluginManifest.v
PluginManifestProofs.v
