(* ===== verification/Prelude.v ===== *)
(** * Verification of the graph execution engine

    The program (src/) runs dataflow graphs of operators. A client describes a
    graph as a [GraphSpec], in code or in JSON; the validator resolves the
    operators, checks the graph, orders it and negotiates a contract for every
    connection; the resource ledger admits it; at run time every connection is
    a bounded queue (edge channel), every node has an input binding that forms
    batches from its queues and a runtime object that serialises invocations,
    draining and parameter updates. A running graph is changed by a mutation
    patch: the applier computes a candidate graph, the diff decides what is
    reused, and bindings are re-wired while packets are in flight.

    This library models these parts as executable definitions, one file per
    component, and proves what each promises. The files below are in dependency
    order; a file named ...Proofs, ...RoundTrip and the like holds the theorems
    about the model before it.

    ** Foundations

    - Prelude (this file): machine integers as [Z] with explicit wrap-around
      ([Word.u32], [Word.i64], ...), byte-ordered strings, [std::map] as a
      sorted association list ([SMap]), decimal printing, counting in lists.
    - Types (ge_abi.h, types.h): status codes, [Status], [Result] with the
      sequencing notation [let? x := r in k], operator keys. The error branch of
      [Result] never holds an OK status, as in the constructor of the class.
    - Double: binary64 as [spec_float] with the conversions, [==], ["%.17g"]
      printing and [strtod] reading the JSON layer uses, on exact rationals
      rounded to nearest even.
    - Json, JsonParser, JsonProofs, JsonRoundTrip (json.h, json.cpp): values,
      the serializer and the recursive-descent parser with its nesting limit.
      The parser's fuel is twice the length of the text plus two;
      [ParseJson_total] shows it is enough. The parser returns only well-formed
      values and inverts the serializer on them.
    - Text: searching in texts as [std::string_view] does, for redaction and
      templates.

    ** Specifications

    - GraphSpec, GraphSpecProofs (graph_spec.h, graph_spec.cpp): the tables of
      nodes and edges with their edits, the builder, port references and the
      patch. Every edit preserves the table invariant [wf] and a refused edit
      changes nothing.
    - JsonReader (json_reader.h), GraphJson, GraphJsonProofs
      (graph_spec_json.cpp): the field-by-field reader as a reader monad, the
      parsers and writers of graphs and patches, and their round trips.
    - CapabilityTypes, CapabilityJson, CapabilityJsonProofs (capability.h,
      capability_json.cpp, capability_internal.h): descriptors and contracts,
      and their JSON round trip.
    - PluginManifest, PluginManifestProofs (plugin_manifest.h,
      plugin_manifest.cpp): the manifest of a plugin and the rule for its paths.
      What was read is within its types, its paths stay in the directory they
      are looked up from, and it survives being written.
    - Negotiation, NegotiationProofs (capability.cpp): the intersection of port
      constraints, the deterministic choice, the cache and fan-out. A contract
      is returned exactly when one exists that every port accepts, but that a
      shape stated by one side is passed on unread; the order of the consumers
      and the cache do not matter.
    - GraphValidator, ValidatorProofs, ValidatorContracts
      (graph_validator.cpp): the whole of [Validate] with its issues. Its
      topological order is one, a cycle is reported exactly when there is one,
      every edge of a validated graph has a contract its ports accept, and the
      linear-chain check is exact. The fuel of Kahn's loop is the number of
      nodes and edges plus one; every round takes a node out of the ready set,
      and a node enters it once.
    - MutationApplier, MutationProofs (mutation_applier.cpp): every action of a
      patch. The candidate stays consistent and the lists of added, removed and
      touched elements are exact. The search of a branch has fuel for every
      stacked node and every edge, which is shown to be enough.
    - GraphDiff, GraphDiffProofs (graph_diff.cpp): the classification of nodes
      and edges is exact, a node is kept exactly when it can be where every port
      takes one edge, and the diff agrees with the books of the patch.

    - GraphTemplate, GraphTemplateProofs (graph_template.h,
      graph_template.cpp): graphs with placeholders in their options. A template
      that was created can be instantiated with its parameters, and validating
      its skeleton is validating every instance. Placeholders are replaced with
      fuel for every character of the text.

    ** Run time

    - Packet, PacketProofs (packet.h, packet.cpp): metadata, type tags and the
      host buffer pool with its accounting.
    - EdgeChannel, EdgeRefinement, EdgeTraces (edge_channel.h, edge_channel.cpp):
      the ring with its drop policies, metrics and life cycle; it refines an
      abstract bounded queue, delivers in order and loses only what the policy
      allows.
    - EdgeProtocol (edge_channel.cpp, scheduler_backpressure.cpp,
      scheduler_invoke.cpp, scheduler_internal.h, scheduler.cpp): the tasks of a
      source, its parked packets and the turns of the consumer of its block edge
      as interleaved accesses, with pause and resume. No wake-up is lost for a
      source with one slot that emits one packet a call and is not paused; one
      is lost in runs with several packets a call and with a pause.
    - InputBinding, InputFlow, InputBindingProofs, InputRebind (input_binding.h,
      input_binding.cpp): batches under the three synchronisation policies over
      an interface of the consumer's side of an edge ([ConsumerEdge], a class
      that EdgeChannel implements). Acquisition accounts for every packet, the
      aligned policy serves the heads within the window of its reference,
      re-wiring keeps the stream of every port with one edge and the cheap
      readiness check misses no batch. The bounds of the window wrap around at
      64 bits. Loops are measured by the packets queued.
    - NodeRuntime, NodeRuntimeProofs, NodeProtocol (node_runtime.h,
      node_runtime.cpp, scheduler_invoke.cpp, scheduler_retire.cpp): parameters,
      the latency histogram, and the life cycle as a step relation over the
      atomic accesses of any number of tasks: draining excludes invocations and
      holding a node quiesces it.
    - ResourceLedger, ResourceLedgerProofs (resource_ledger.h,
      resource_ledger.cpp): accounts, leases and estimates. What is reserved is
      what the live leases hold; refusals change nothing.

    - RuntimeTopology, TopologyProofs, TopologyHistory (runtime_topology.h,
      runtime_topology.cpp): a version of the running graph over a heap of
      shared nodes, channels and input bindings. [Build] makes one from a
      validated graph and what it reuses of the version before; routing stamps
      packets and pushes them on every route. A built version is wired as its
      graph says, from scratch and from any version that was.
    - Operations, OperationsProofs (operation.h, operation.cpp): the registry of
      long-running operations. Each ends at most once, is reported when it does
      and is remembered as long as the retention says.
    - Coordinator, CoordinatorProofs, VersionHistory (session.cpp,
      mutation_coordinator.h, scheduler.cpp): merging queued mutations, applying
      and migrating, admission against the session's lease, opening the new
      nodes, giving up. Preparing a mutation ends, leaves everything that runs
      untouched and on failure returns what it took; every version a session
      ever runs is wired as its graph says.
    - Scheduler, SchedulerInvoke (scheduler.h, scheduler.cpp,
      scheduler_backpressure.cpp, scheduler_retire.cpp, scheduler_invoke.cpp,
      scheduler_internal.h, executor_pool.cpp, format_event.cpp): the state of
      the scheduler over the same heap, and every operation on it: marking
      nodes ready, a turn of a source, of a synchronous and of an asynchronous
      node, parked output, the end of streams, publishing a version and
      retiring the one before, start, pause, resume and stop. An operator is a
      script of what it emits, publishes and returns, which may depend on every
      status it gets and on a world of its own. Callbacks of the session are
      entries of a log, but for the one that calls back: the failure of a node
      stops the graph at once when the session fails with its nodes
      ([node_failed]).
    - SchedulerSamples: pipelines that run, and the witnesses built on them.
    - SchedulerProofs, SchedulerTurns, SchedulerReports, SchedulerOrder: the
      theorems. Each invariant is a preorder on states; the record [moves] says
      that a preorder contains the small changes, and the functions of the
      scheduler are shown once to be made of them. Looking after retired
      versions ends; no slot of a node is lost or handed out twice, whatever
      the operators and the callers do; every replaced version is reported
      once; and on a blocking edge back-pressure loses and reorders nothing.
      The depth of [Tick] is the number of live nodes plus one, since it calls
      itself only after detaching one; its loop has a measure, [work_left]; a
      batch is acquired with fuel for every packet its edges can hold.
    - SessionTypes, Session, SessionProofs (session.h, session.cpp): a session
      with its scheduler, its mutation queue, its lease and the registry, on one
      thread: creation, the control requests, the execution of a batch with
      every failure path, and the callbacks of the scheduler, taken from its
      log, the failure of the session with a node among them. Every operation a
      session accepted has ended, or is held by exactly one of the queue, a
      version still retiring and the list of stops.
    - SessionProtocol (session.cpp): start, pause, resume, stop, the failure of
      a node and the closing of the graph as interleaved atomic accesses. No
      stop operation is lost or ended twice, and every one ends once the graph
      closed unless one of four races happens; the races are runs of the model.

    - AsyncRuntime (async_runtime.h, async_runtime.cpp): the runtime the sessions
      share for operators that complete later: sinks and the completion queue,
      the batcher, the table of requests in flight, the reorder buffer of every
      node and version, parked output, deadlines and gaps. It reaches a session
      only through the class [Host], the hooks of the source; AsyncHost gives
      the hooks of a scheduler, AsyncSamples runs pipelines with it.
    - AsyncProofs, AsyncAccounts, AsyncProgress, AsyncBatches: the theorems,
      against any host that keeps the laws [HostLaws] (its hooks do not touch
      the count of pending requests) and [HostReturns] (they return). The
      operations are made of six small changes, [move]; [operates] is any
      sequence of calls of sessions, operators and the consumer. What a node
      counts as pending is what is in flight; the results of a node come in the
      order of submission; a request waits in a batch until it is submitted,
      once; and a round of the consumer ends and leaves nothing that was ready.
      Delivery has fuel for every request in flight, since each is taken once.

    - AuditLog, AuditProofs (audit_log.h, audit_log.cpp): the redaction of
      documents, the ring of records and its queries. What redaction hides does
      not reach the log, the ring holds the last records with consecutive ids,
      and reading page by page misses none.
    - EventBus, EventBusProofs (event_bus.h, event_bus.cpp): subscriptions with
      bounded queues served by observer threads, as a step relation over the
      critical sections of publishers, callers and observers. A handler sees a
      subsequence of what matched, in order, one at a time, without the dropped
      ones; after a cancellation that waited it is not called; a flush waits for
      all.
    - FlowLimiter, FlowLimiterProofs (infer/flow_limiter.cpp): the operator that
      limits the frames in flight, as a script over its sink. Every frame is
      emitted, held or dropped and counted, in order, and what is in flight
      stays within the limit.

    ** Conventions

    Integers are kept at their width wherever the source computes on them; the
    hypotheses of a theorem name the bound it needs. Methods that hold a mutex
    are single operations; lock-free accesses are separate steps of a relation
    (EdgeProtocol, NodeProtocol, SessionProtocol), sequentially consistent. What
    comes from outside the sources is an argument: the operator resolver, the
    order in which an unordered map is walked, clocks, physical memory. Texts of errors
    are modelled in full, since they are part of statuses and JSON.

    ** Not modelled

    Codecs, containers and inference (src/media, src/infer) call FFmpeg and
    ONNX Runtime. Plugins are loaded as shared libraries behind function
    pointers, and the C interface wraps the engine in handles. The scheduler is
    modelled with the inline executor, one task at a time: the interleavings of
    worker threads that matter to a component are in EdgeProtocol,
    NodeProtocol and SessionProtocol. Latency and throughput metrics of nodes
    are left out, as are waiting with a timeout, snapshots and destruction. Of
    the consumer thread of the asynchronous runtime only the wake flag and the
    time it waits for are modelled. The session manager, the engine facade and
    the batch runner on top of it are not modelled, nor are the metrics export
    and the registry of plugins. Of the event bus the timeout of a flush and the
    end of its threads are left out, of the flow limiter its registration. *)

From stdpp Require Import base numbers list strings gmap sorting.
From Stdlib Require Import ZArith Lia Ascii String.

Declare Scope ge_scope.
Delimit Scope ge_scope with ge.

Create HintDb ge.

(** [has_value()] of a [std::optional]; a pointer that is not null. *)
Definition has {A} (o : option A) : bool := match o with Some _ => true | None => false end.

(** * Machine-width integers

    A [uintN_t] is a [Z] in [0, 2^N); every operation of the code that can
    wrap is written with the reduction in place.  Casts between widths are
    these reductions too. *)

Module Word.
Local Open Scope Z_scope.

Definition u32 (z : Z) : Z := z mod 2 ^ 32.
Definition u64 (z : Z) : Z := z mod 2 ^ 64.
Definition i32 (z : Z) : Z := (z + 2 ^ 31) mod 2 ^ 32 - 2 ^ 31.
Definition i64 (z : Z) : Z := (z + 2 ^ 63) mod 2 ^ 64 - 2 ^ 63.

Definition is_u32 (z : Z) : Prop := 0 <= z < 2 ^ 32.
Definition is_u64 (z : Z) : Prop := 0 <= z < 2 ^ 64.
Definition is_i32 (z : Z) : Prop := - 2 ^ 31 <= z < 2 ^ 31.
Definition is_i64 (z : Z) : Prop := - 2 ^ 63 <= z < 2 ^ 63.

Lemma u32_small z : is_u32 z -> u32 z = z.
Proof. intros ?. by apply Z.mod_small. Qed.
Lemma u64_small z : is_u64 z -> u64 z = z.
Proof. intros ?. by apply Z.mod_small. Qed.
Lemma i32_small z : is_i32 z -> i32 z = z.
Proof. unfold i32, is_i32. intros ?. rewrite Z.mod_small; lia. Qed.
Lemma i64_small z : is_i64 z -> i64 z = z.
Proof. unfold i64, is_i64. intros ?. rewrite Z.mod_small; lia. Qed.
Lemma u32_range z : is_u32 (u32 z).
Proof. apply Z.mod_pos_bound. lia. Qed.
Lemma u64_range z : is_u64 (u64 z).
Proof. apply Z.mod_pos_bound. lia. Qed.
Lemma u64_plus a b : u64 (u64 a + b) = u64 (a + b).
Proof. apply Zplus_mod_idemp_l. Qed.
Lemma u32_plus a b : u32 (u32 a + b) = u32 (a + b).
Proof. apply Zplus_mod_idemp_l. Qed.
Lemma i32_range z : is_i32 (i32 z).
Proof. unfold i32, is_i32. pose proof (Z.mod_pos_bound (z + 2 ^ 31) (2 ^ 32)). lia. Qed.
Lemma i64_range z : is_i64 (i64 z).
Proof. unfold i64, is_i64. pose proof (Z.mod_pos_bound (z + 2 ^ 63) (2 ^ 64)). lia. Qed.

End Word.

#[export] Hint Resolve Word.u32_range Word.u64_range Word.i32_range Word.i64_range : ge.

(** * Byte strings

    [std::string] is compared byte by byte, bytes as unsigned. *)

Module Str.

Fixpoint ltb (s t : string) : bool :=
  match s, t with
  | EmptyString, EmptyString => false
  | EmptyString, String _ _ => true
  | String _ _, EmptyString => false
  | String a s', String b t' =>
      if (N_of_ascii a <? N_of_ascii b)%N then true
      else if (N_of_ascii b <? N_of_ascii a)%N then false
      else ltb s' t'
  end.

Lemma ltb_irrefl s : ltb s s = false.
Proof. induction s as [|a s IH]; [done|]. simpl. by rewrite !N.ltb_irrefl. Qed.

Lemma ltb_trans s t u : ltb s t = true -> ltb t u = true -> ltb s u = true.
Proof.
  revert t u. induction s as [|a s IH]; intros [|b t] [|c u]; try done.
  simpl.
  destruct (N.ltb_spec (N_of_ascii a) (N_of_ascii b));
    destruct (N.ltb_spec (N_of_ascii b) (N_of_ascii c));
    destruct (N.ltb_spec (N_of_ascii a) (N_of_ascii c));
    destruct (N.ltb_spec (N_of_ascii b) (N_of_ascii a));
    destruct (N.ltb_spec (N_of_ascii c) (N_of_ascii b));
    destruct (N.ltb_spec (N_of_ascii c) (N_of_ascii a)); try done; try lia.
  eauto.
Qed.

Lemma ltb_total s t : ltb s t = false -> ltb t s = false -> s = t.
Proof.
  revert t. induction s as [|a s IH]; intros [|b t]; try done.
  simpl.
  destruct (N.ltb_spec (N_of_ascii a) (N_of_ascii b));
    destruct (N.ltb_spec (N_of_ascii b) (N_of_ascii a)); try done.
  intros Hst Hts. f_equal; [|by apply IH].
  rewrite <- (ascii_N_embedding a), <- (ascii_N_embedding b). f_equal. lia.
Qed.

Lemma app_cons a s t : (String a s ++ t = String a (s ++ t))%string.
Proof. done. Qed.

Lemma app_nil_l s : ("" ++ s = s)%string.
Proof. done. Qed.

Lemma app_nil_r s : (s ++ "")%string = s.
Proof. induction s as [|a s IH]; [done|]. by rewrite app_cons, IH. Qed.

Lemma app_assoc s t u : ((s ++ t) ++ u = s ++ (t ++ u))%string.
Proof. induction s as [|a s IH]; [done|]. by rewrite !app_cons, IH. Qed.

(** [s.empty()] *)
Definition empty (s : string) : bool := match s with EmptyString => true | _ => false end.

End Str.

(** * Ordered maps

    [std::map<K, V>] and [std::set<K>] iterate in key order, and the order
    is observable (serialized JSON, reports), so a map is the list of its
    entries in increasing key order. *)

Class KeyLt (K : Type) := key_ltb : K -> K -> bool.
Class KeyOrder (K : Type) `{!KeyLt K} := {
  key_ltb_irrefl (a : K) : key_ltb a a = false;
  key_ltb_trans (a b c : K) : key_ltb a b = true -> key_ltb b c = true -> key_ltb a c = true;
  key_ltb_total (a b : K) : key_ltb a b = false -> key_ltb b a = false -> a = b;
}.

#[export] Instance string_key_lt : KeyLt string := Str.ltb.
#[export] Instance string_key_order : KeyOrder string.
Proof. split; [apply Str.ltb_irrefl | apply Str.ltb_trans | apply Str.ltb_total]. Qed.

#[export] Instance Z_key_lt : KeyLt Z := Z.ltb.
#[export] Instance Z_key_order : KeyOrder Z.
Proof. split; unfold key_ltb, Z_key_lt; intros; lia. Qed.

(** Lexicographic order of a pair, as a defaulted [operator<=>]. *)
#[export] Instance prod_key_lt {A B} `{!KeyLt A} `{!KeyLt B} : KeyLt (A * B) :=
  fun p q => if key_ltb p.1 q.1 then true
             else if key_ltb q.1 p.1 then false else key_ltb p.2 q.2.
Lemma prod_key_ltb {A B} `{!KeyLt A} `{!KeyLt B} (a1 a2 : A) (b1 b2 : B) :
  key_ltb (a1, b1) (a2, b2) =
    (if key_ltb a1 a2 then true else if key_ltb a2 a1 then false else key_ltb b1 b2).
Proof. reflexivity. Qed.

#[export] Instance prod_key_order {A B} `{KeyOrder A} `{KeyOrder B} : KeyOrder (A * B).
Proof.
  split.
  - intros [a b]. by rewrite prod_key_ltb, !key_ltb_irrefl.
  - intros [a1 b1] [a2 b2] [a3 b3]. rewrite !prod_key_ltb.
    destruct (key_ltb a1 a2) eqn:E12; intros Hl.
    + intros Hr. destruct (key_ltb a2 a3) eqn:E23; [by erewrite key_ltb_trans|].
      destruct (key_ltb a3 a2) eqn:E32; [done|].
      by rewrite <- (key_ltb_total a2 a3), E12.
    + destruct (key_ltb a2 a1) eqn:E21; [done|].
      rewrite <- (key_ltb_total a1 a2) by done.
      destruct (key_ltb a1 a3), (key_ltb a3 a1); try done. eauto using key_ltb_trans.
  - intros [a1 b1] [a2 b2]. rewrite !prod_key_ltb.
    destruct (key_ltb a1 a2) eqn:E12, (key_ltb a2 a1) eqn:E21; try done.
    intros ??. f_equal; eauto using key_ltb_total.
Qed.

Module SMap.
Section smap.
Context {K V : Type} `{!EqDecision K} `{!KeyLt K}.

(** [m.find(k)] *)
Fixpoint find (k : K) (m : list (K * V)) : option V :=
  match m with
  | [] => None
  | (k', v) :: m' => if decide (k = k') then Some v else find k m'
  end.

(** [m.contains(k)] *)
Definition contains (k : K) (m : list (K * V)) : bool :=
  match find k m with Some _ => true | None => false end.

(** [m[k] = v] *)
Fixpoint set (k : K) (v : V) (m : list (K * V)) : list (K * V) :=
  match m with
  | [] => [(k, v)]
  | (k', v') :: m' =>
      if decide (k = k') then (k, v) :: m'
      else if key_ltb k k' then (k, v) :: (k', v') :: m'
      else (k', v') :: set k v m'
  end.

(** [m.emplace(k, v)]: an entry already there stays; the flag is [.second]. *)
Definition emplace (k : K) (v : V) (m : list (K * V)) : list (K * V) * bool :=
  match find k m with Some _ => (m, false) | None => (set k v m, true) end.

(** [m.erase(k)] *)
Definition erase (k : K) (m : list (K * V)) : list (K * V) :=
  List.filter (fun kv => negb (bool_decide (kv.1 = k))) m.

Definition sorted (m : list (K * V)) : Prop :=
  StronglySorted (fun a b => key_ltb a b = true) (m.*1).

Lemma find_set_eq k v m : find k (set k v m) = Some v.
Proof.
  induction m as [|[k' v'] m IH]; simpl; [by rewrite decide_True by done|].
  case_decide as E; simpl; [by rewrite decide_True by done|].
  destruct (key_ltb k k'); simpl; [by rewrite decide_True by done|].
  by rewrite decide_False by done.
Qed.

Lemma find_set_ne k k' v m : k <> k' -> find k' (set k v m) = find k' m.
Proof.
  intros Hne. induction m as [|[k2 v2] m IH]; simpl; [by rewrite decide_False by congruence|].
  case_decide as E; simpl.
  - subst. by rewrite !decide_False by congruence.
  - destruct (key_ltb k k2); simpl; [by rewrite (decide_False (P := k' = k)) by congruence|].
    by rewrite IH.
Qed.

Lemma find_set k k' v m : find k' (set k v m) = if decide (k = k') then Some v else find k' m.
Proof. case_decide; subst; auto using find_set_eq, find_set_ne. Qed.

Lemma find_erase_eq k m : find k (erase k m) = None.
Proof.
  induction m as [|[k' v'] m IH]; simpl; [done|].
  case_bool_decide; simpl; [done|]. by rewrite decide_False by congruence.
Qed.

Lemma find_erase_ne k k' m : k <> k' -> find k' (erase k m) = find k' m.
Proof.
  intros Hne. induction m as [|[k2 v2] m IH]; simpl; [done|].
  case_bool_decide; simpl; [subst; by rewrite decide_False by congruence|].
  by rewrite IH.
Qed.

Lemma find_In k v m : find k m = Some v -> In (k, v) m.
Proof.
  induction m as [|[k' v'] m IH]; simpl; [done|].
  case_decide; [intros [= ->]; subst; by left | auto].
Qed.

Lemma find_None k m : find k m = None <-> ~ In k (m.*1).
Proof.
  induction m as [|[k' v'] m IH]; simpl; [naive_solver|].
  case_decide; naive_solver.
Qed.

Lemma set_fst_In k v m x : In x ((set k v m).*1) <-> x = k \/ In x (m.*1).
Proof.
  induction m as [|[k' v'] m IH]; simpl; [naive_solver|].
  case_decide; simpl; [naive_solver|].
  destruct (key_ltb k k'); simpl; naive_solver.
Qed.

Context `{!KeyOrder K}.

Lemma set_sorted k v m : sorted m -> sorted (set k v m).
Proof.
  unfold sorted. induction m as [|[k' v'] m IH]; simpl.
  - intros _. repeat constructor.
  - intros [Hs Hf]%StronglySorted_inv. case_decide; [subst; by constructor|].
    destruct (key_ltb k k') eqn:E; simpl.
    + constructor; [by constructor|]. constructor; [done|].
      eapply Forall_impl; [exact Hf|]. simpl. intros x ?. by eapply key_ltb_trans.
    + constructor; [by apply IH|]. apply List.Forall_forall.
      intros x [->|Hx]%set_fst_In.
      * destruct (key_ltb k' k) eqn:E'; [done|]. by destruct (key_ltb_total k k').
      * rewrite List.Forall_forall in Hf. by apply Hf.
Qed.

Lemma erase_sorted k m : sorted m -> sorted (erase k m).
Proof.
  unfold sorted. induction m as [|[k' v'] m IH]; simpl; [done|].
  intros [Hs Hf]%StronglySorted_inv. case_bool_decide; simpl; [by apply IH|].
  constructor; [by apply IH|]. rewrite List.Forall_forall in *.
  intros x Hx. apply Hf. apply in_map_iff in Hx as [[k2 v2] [<- [Hin _]%filter_In]].
  apply in_map_iff. by exists (k2, v2).
Qed.

Lemma emplace_sorted k v m : sorted m -> sorted (emplace k v m).1.
Proof. unfold emplace. intros ?. destruct (find k m); [done|]. by apply set_sorted. Qed.

Lemma sorted_In_find k v m : sorted m -> In (k, v) m -> find k m = Some v.
Proof.
  unfold sorted. induction m as [|[k' v'] m IH]; simpl; [done|].
  intros [Hs Hf]%StronglySorted_inv [[= -> ->]|Hin]; [by rewrite decide_True by done|].
  rewrite decide_False; [by apply IH|]. intros ->.
  rewrite List.Forall_forall in Hf. specialize (Hf k').
  rewrite key_ltb_irrefl in Hf. discriminate Hf.
  apply in_map_iff. by exists (k', v).
Qed.

Lemma sorted_keys_NoDup m : sorted m -> NoDup m.*1.
Proof.
  unfold sorted. induction (m.*1) as [|k l IH]; [constructor|]. intros [Hs Hf]%StronglySorted_inv. apply NoDup_cons. split; [|by apply IH].
  intros Hin. rewrite Forall_forall in Hf. specialize (Hf k Hin). by rewrite key_ltb_irrefl in Hf.
Qed.

Lemma sorted_app_below acc kv m :
  sorted (acc ++ kv :: m) -> Forall (fun kv' => key_ltb kv'.1 kv.1 = true) acc.
Proof.
  unfold sorted. rewrite fmap_app. induction acc as [|kv' acc IH]; [done|].
  simpl. intros [Hs Hf]%StronglySorted_inv. constructor; [|by apply IH].
  apply Forall_app in Hf as [_ [Hf _]%Forall_cons]. done.
Qed.

(** Appending an entry whose key exceeds all others is [set]. *)
Lemma set_snoc k v m :
  Forall (fun kv => key_ltb kv.1 k = true) m -> set k v m = m ++ [(k, v)].
Proof.
  induction m as [|[k' v'] m IH]; simpl; [done|].
  intros [Hk Hm]%Forall_cons. simpl in Hk.
  rewrite decide_False by (intros ->; by rewrite key_ltb_irrefl in Hk).
  destruct (key_ltb k k') eqn:E.
  - pose proof (key_ltb_trans _ _ _ Hk E) as HF. by rewrite key_ltb_irrefl in HF.
  - by rewrite IH.
Qed.

End smap.
End SMap.

#[export] Hint Resolve SMap.set_sorted SMap.erase_sorted SMap.emplace_sorted : ge.

(** * Counting

    How many of the threads of a step relation stand at given points. *)

Section count.
Context {A : Type}.
Implicit Types (f : A -> bool) (l : list A).

Fixpoint count (f : A -> bool) (l : list A) : nat :=
  match l with [] => 0 | x :: l' => Nat.b2n (f x) + count f l' end.

Lemma count_insert f l i x y :
  l !! i = Some x -> count f (<[i := y]> l) + Nat.b2n (f x) = count f l + Nat.b2n (f y).
Proof.
  revert i. induction l as [|z l IH]; intros [|i] Hl; simpl in *; try done.
  - injection Hl as ->. lia.
  - specialize (IH i Hl). lia.
Qed.

Lemma count_snoc f l x : count f (l ++ [x]) = count f l + Nat.b2n (f x).
Proof. induction l as [|z l IH]; simpl; lia. Qed.

Lemma count_lookup f l i x : l !! i = Some x -> f x = true -> 0 < count f l.
Proof.
  revert i. induction l as [|z l IH]; intros [|i] Hl Hf; simpl in *; try done.
  - injection Hl as ->. rewrite Hf. simpl. lia.
  - specialize (IH i Hl Hf). lia.
Qed.

Lemma count_zero f l : Forall (fun x => f x = false) l -> count f l = 0.
Proof. induction 1 as [|x l Hx _ IH]; simpl; [done|]. by rewrite Hx, IH. Qed.

Lemma count_pos f l : 0 < count f l -> exists i x, l !! i = Some x /\ f x = true.
Proof.
  induction l as [|z l IH]; simpl; [lia|]. destruct (f z) eqn:E; [by exists 0, z|].
  simpl. intros (i & x & Hi & Hx)%IH. by exists (S i), x.
Qed.

Lemma count_length f l : count f l <= List.length l.
Proof. induction l as [|x l IH]; simpl; [lia|]. destruct (f x); simpl; lia. Qed.

Lemma count_le f g l : (forall x, f x = true -> g x = true) -> count f l <= count g l.
Proof.
  intros Hfg. induction l as [|x l IH]; simpl; [lia|].
  specialize (Hfg x). destruct (f x), (g x); simpl; lia || (specialize (Hfg eq_refl); done).
Qed.

End count.
