(* ===== verification/Types.v ===== *)
(** Status codes, results and operator keys (include/ge/c/ge_abi.h and
    include/ge/cpp/types.h): the error values every component returns, the
    [Result] type with its sequencing notation, and [OperatorKey] with its
    textual form. *)

From stdpp Require Import base numbers list strings.
From Stdlib Require Import ZArith Lia Ascii String.
From S2P Require Import Prelude.

Local Open Scope string_scope.

(** ge_abi.h: [ge_status_code] *)
Inductive ge_status_code : Type :=
| GE_STATUS_OK
| GE_STATUS_INVALID_ARGUMENT
| GE_STATUS_NOT_FOUND
| GE_STATUS_ALREADY_EXISTS
| GE_STATUS_VERSION_CONFLICT
| GE_STATUS_GRAPH_INVALID
| GE_STATUS_CAPABILITY_CONFLICT
| GE_STATUS_SHARED_DEPENDENCY
| GE_STATUS_RESOURCE_EXHAUSTED
| GE_STATUS_NODE_WARMUP_FAILED
| GE_STATUS_PARAMETER_UNSUPPORTED
| GE_STATUS_PARAMETER_APPLY_FAILED
| GE_STATUS_PLUGIN_ABI_MISMATCH
| GE_STATUS_PLUGIN_MANIFEST_INVALID
| GE_STATUS_PLUGIN_RETIRED
| GE_STATUS_PLUGIN_PHYSICAL_UNLOAD_UNSAFE
| GE_STATUS_WOULD_BLOCK
| GE_STATUS_CANCELLED
| GE_STATUS_INTERNAL.

#[export] Instance ge_status_code_eq_dec : EqDecision ge_status_code.
Proof. solve_decision. Defined.

(** [static_cast<std::int64_t>(code)] *)
Definition status_code_value (c : ge_status_code) : Z :=
  match c with
  | GE_STATUS_OK => 0 | GE_STATUS_INVALID_ARGUMENT => 1 | GE_STATUS_NOT_FOUND => 2
  | GE_STATUS_ALREADY_EXISTS => 3 | GE_STATUS_VERSION_CONFLICT => 4
  | GE_STATUS_GRAPH_INVALID => 5 | GE_STATUS_CAPABILITY_CONFLICT => 6
  | GE_STATUS_SHARED_DEPENDENCY => 7 | GE_STATUS_RESOURCE_EXHAUSTED => 8
  | GE_STATUS_NODE_WARMUP_FAILED => 9 | GE_STATUS_PARAMETER_UNSUPPORTED => 10
  | GE_STATUS_PARAMETER_APPLY_FAILED => 11 | GE_STATUS_PLUGIN_ABI_MISMATCH => 12
  | GE_STATUS_PLUGIN_MANIFEST_INVALID => 13 | GE_STATUS_PLUGIN_RETIRED => 14
  | GE_STATUS_PLUGIN_PHYSICAL_UNLOAD_UNSAFE => 15 | GE_STATUS_WOULD_BLOCK => 16
  | GE_STATUS_CANCELLED => 17 | GE_STATUS_INTERNAL => 18
  end%Z.

Inductive Severity : Type := kDebug | kInfo | kWarning | kError.

#[export] Instance Severity_eq_dec : EqDecision Severity.
Proof. solve_decision. Defined.

(** types.h: [ErrorDetail], the state of a [Status]. *)
Record Status : Type := MkStatus {
  code : ge_status_code;
  severity : Severity;
  retryable : bool;
  message : string;
  context_json : string;
}.

#[export] Instance Status_eq_dec : EqDecision Status.
Proof. solve_decision. Defined.

Module StatusOps.

(** [Status(code, message, retryable, context_json)] *)
Definition make (c : ge_status_code) (m : string) (retry : bool) (ctx : string) : Status :=
  MkStatus c kError retry m ctx.

Definition Ok : Status := MkStatus GE_STATUS_OK kError false "" "".
Definition ok (s : Status) : bool := bool_decide (code s = GE_STATUS_OK).

Definition InvalidArgument (m : string) : Status := make GE_STATUS_INVALID_ARGUMENT m false "".
Definition NotFound (m : string) : Status := make GE_STATUS_NOT_FOUND m false "".
Definition AlreadyExists (m : string) : Status := make GE_STATUS_ALREADY_EXISTS m false "".
Definition VersionConflict (m : string) : Status := make GE_STATUS_VERSION_CONFLICT m true "".
Definition GraphInvalid (m : string) : Status := make GE_STATUS_GRAPH_INVALID m false "".
Definition CapabilityConflict (m ctx : string) : Status :=
  make GE_STATUS_CAPABILITY_CONFLICT m false ctx.
Definition SharedDependency (m ctx : string) : Status :=
  make GE_STATUS_SHARED_DEPENDENCY m false ctx.
Definition ResourceExhausted (m ctx : string) : Status :=
  make GE_STATUS_RESOURCE_EXHAUSTED m true ctx.
Definition NodeWarmupFailed (m : string) : Status := make GE_STATUS_NODE_WARMUP_FAILED m false "".
Definition ParameterUnsupported (m : string) : Status :=
  make GE_STATUS_PARAMETER_UNSUPPORTED m false "".
Definition PluginManifestInvalid (m : string) : Status :=
  make GE_STATUS_PLUGIN_MANIFEST_INVALID m false "".
Definition WouldBlock : Status := make GE_STATUS_WOULD_BLOCK "would block" true "".
Definition Cancelled (m : string) : Status := make GE_STATUS_CANCELLED m false "".
Definition Internal (m : string) : Status := make GE_STATUS_INTERNAL m false "".

(** [Status::CodeName] *)
Definition CodeName (c : ge_status_code) : string :=
  match c with
  | GE_STATUS_OK => "OK"
  | GE_STATUS_INVALID_ARGUMENT => "INVALID_ARGUMENT"
  | GE_STATUS_NOT_FOUND => "NOT_FOUND"
  | GE_STATUS_ALREADY_EXISTS => "ALREADY_EXISTS"
  | GE_STATUS_VERSION_CONFLICT => "VERSION_CONFLICT"
  | GE_STATUS_GRAPH_INVALID => "GRAPH_INVALID"
  | GE_STATUS_CAPABILITY_CONFLICT => "CAPABILITY_CONFLICT"
  | GE_STATUS_SHARED_DEPENDENCY => "SHARED_DEPENDENCY"
  | GE_STATUS_RESOURCE_EXHAUSTED => "RESOURCE_EXHAUSTED"
  | GE_STATUS_NODE_WARMUP_FAILED => "NODE_WARMUP_FAILED"
  | GE_STATUS_PARAMETER_UNSUPPORTED => "PARAMETER_UNSUPPORTED"
  | GE_STATUS_PARAMETER_APPLY_FAILED => "PARAMETER_APPLY_FAILED"
  | GE_STATUS_PLUGIN_ABI_MISMATCH => "PLUGIN_ABI_MISMATCH"
  | GE_STATUS_PLUGIN_MANIFEST_INVALID => "PLUGIN_MANIFEST_INVALID"
  | GE_STATUS_PLUGIN_RETIRED => "PLUGIN_RETIRED"
  | GE_STATUS_PLUGIN_PHYSICAL_UNLOAD_UNSAFE => "PLUGIN_PHYSICAL_UNLOAD_UNSAFE"
  | GE_STATUS_WOULD_BLOCK => "WOULD_BLOCK"
  | GE_STATUS_CANCELLED => "CANCELLED"
  | GE_STATUS_INTERNAL => "INTERNAL"
  end.

(** [Status::ToString] *)
Definition ToString (s : Status) : string :=
  CodeName (code s) ++ (if Str.empty (message s) then "" else ": " ++ message s).

End StatusOps.

(** types.h: [Result<T>].  [Result(Status)] with an OK status is turned into
    an internal error by the constructor, so the error branch never holds OK. *)
Inductive Result (A : Type) : Type :=
| Value (a : A)
| Error (s : Status).
Arguments Value {A} a.
Arguments Error {A} s.

Module ResultOps.

(** [Result(Status status)] *)
Definition of_status {A} (s : Status) : Result A :=
  if StatusOps.ok s
  then Error (StatusOps.Internal "Result constructed from OK status without value")
  else Error s.

Definition is_ok {A} (r : Result A) : bool := match r with Value _ => true | Error _ => false end.

Definition bind {A B} (r : Result A) (f : A -> Result B) : Result B :=
  match r with Value a => f a | Error s => Error s end.

End ResultOps.

Notation "'let?' x := r 'in' k" := (ResultOps.bind r (fun x => k))
  (at level 10, x pattern, r at level 100, k at level 200) : ge_scope.

(** ** Operator keys *)

Record OperatorKey : Type := MkOperatorKey { type_name : string; semantic_version : string }.

#[export] Instance OperatorKey_eq_dec : EqDecision OperatorKey.
Proof. solve_decision. Defined.

(** [text.find(c)]: splits around the first occurrence of [c]. *)
Fixpoint split_first (c : ascii) (text : string) : option (string * string) :=
  match text with
  | EmptyString => None
  | String a rest =>
      if decide (a = c) then Some (EmptyString, rest)
      else match split_first c rest with
           | None => None
           | Some (l, r) => Some (String a l, r)
           end
  end.

Module OperatorKeyOps.

(** [OperatorKey::ToString] *)
Definition ToString (k : OperatorKey) : string := type_name k ++ "@" ++ semantic_version k.

(** [OperatorKey::Parse]: both halves around the first ['@'] must be
    non-empty. *)
Definition Parse (text : string) : option OperatorKey :=
  match split_first "@" text with
  | None => None
  | Some (ty, ver) =>
      if Str.empty ty || Str.empty ver then None else Some (MkOperatorKey ty ver)
  end.

(** The keys [Parse] accepts: no ['@'] in the type name, both parts present. *)
Definition wf (k : OperatorKey) : bool :=
  negb (Str.empty (type_name k)) && negb (Str.empty (semantic_version k))
  && match split_first "@" (type_name k) with None => true | Some _ => false end.

End OperatorKeyOps.

Lemma split_first_app c l r :
  split_first c l = None -> split_first c (l ++ String c r) = Some (l, r).
Proof.
  induction l as [|a l IH]; simpl; [by rewrite decide_True by done|].
  case_decide; [done|]. destruct (split_first c l) as [[??]|] eqn:E; [done|].
  intros _. by rewrite IH.
Qed.

Lemma split_first_Some c s l r :
  split_first c s = Some (l, r) -> s = l ++ String c r /\ split_first c l = None.
Proof.
  revert l r. induction s as [|a s IH]; simpl; [done|]. intros l r.
  case_decide as E; [intros [= <- <-]; by subst|].
  destruct (split_first c s) as [[l' r']|] eqn:Es; [|done].
  intros [= <- <-]. destruct (IH l' r' eq_refl) as [-> Hn]. simpl.
  by rewrite decide_False, Hn by done.
Qed.

(** Operator keys round trip exactly: [Parse] accepts a text and returns
    [k] when, and only when, [k] is a well-formed key (both parts non-empty, no
    ['@'] in the type name) and the text is [ToString k]. *)
Theorem OperatorKey_Parse_iff text k :
  OperatorKeyOps.Parse text = Some k <->
  OperatorKeyOps.wf k = true /\ text = OperatorKeyOps.ToString k.
Proof.
  unfold OperatorKeyOps.Parse, OperatorKeyOps.wf, OperatorKeyOps.ToString. split.
  - destruct (split_first _ text) as [[ty ver]|] eqn:E; [|done].
    apply split_first_Some in E as [-> E].
    destruct (Str.empty ty) eqn:Et, (Str.empty ver) eqn:Ev; try done.
    intros [= <-]. cbn. by rewrite Et, Ev, E.
  - destruct k as [ty ver]. cbn [type_name semantic_version]. intros [Hwf ->].
    destruct (Str.empty ty) eqn:Et, (Str.empty ver) eqn:Ev,
      (split_first "@" ty) as [?|] eqn:E; try done.
    rewrite Str.app_cons, Str.app_nil_l, split_first_app by done. by rewrite Et, Ev.
Qed.
