(* ===== verification/Double.v ===== *)
(** Binary64 numbers as the JSON layer uses them: the conversions
    [static_cast<double>(int64)] and [static_cast<int64>(double)], [==],
    [printf("%.17g")] and [strtod].  A [double] is a [spec_float] with
    precision 53 and maximal exponent 1024; the printer and the reader work
    on the exact rational value and round to nearest, ties to even. *)

From stdpp Require Import base numbers list strings.
From Stdlib Require Import ZArith Lia Ascii String SpecFloat.
From S2P Require Import Prelude.

Local Open Scope string_scope.
Local Open Scope Z_scope.

Definition double : Type := spec_float.

#[export] Instance double_eq_dec : EqDecision double.
Proof. solve_decision. Defined.

(** ** Decimal digits *)

Module Dec.

Definition digit (d : Z) : ascii := ascii_of_N (Z.to_N (48 + d)).

(** The digits of [z >= 0], most significant first, prepended to [acc];
    [fuel] bounds their number. *)
Fixpoint digits_acc (fuel : nat) (z : Z) (acc : string) : string :=
  match fuel with
  | O => acc
  | S f => let acc' := String (digit (z mod 10)) acc in
           if z / 10 =? 0 then acc' else digits_acc f (z / 10) acc'
  end.

(** [z < 2 ^ S (log2 z)] has at most [S (log2 z)] decimal digits. *)
Definition of_nonneg (z : Z) : string := digits_acc (S (Z.to_nat (Z.log2 z))) z "".

(** [std::to_string] of a signed integer. *)
Definition to_string (z : Z) : string :=
  if z <? 0 then String "-" (of_nonneg (- z)) else of_nonneg z.

Definition is_digit (c : ascii) : bool :=
  ((48 <=? Z.of_N (N_of_ascii c)) && (Z.of_N (N_of_ascii c) <=? 57)).
Definition digit_val (c : ascii) : Z := Z.of_N (N_of_ascii c) - 48.

(** Reads the longest prefix of digits: value, count, rest. *)
Fixpoint read (s : string) (acc : Z) (n : nat) : Z * nat * string :=
  match s with
  | String c s' => if is_digit c then read s' (10 * acc + digit_val c) (S n) else (acc, n, s)
  | EmptyString => (acc, n, s)
  end.

End Dec.

Module Double.

Definition prec : Z := 53.
Definition emax : Z := 1024.

(** [static_cast<double>(std::int64_t)] *)
Definition of_Z (z : Z) : double := binary_normalize prec emax z 0 false.

(** [static_cast<std::int64_t>(double)]: truncation towards zero.  The cast of
    a NaN, an infinity or a value out of range is undefined in C++; the
    x86-64 conversion instruction returns the minimal integer for it. *)
Definition to_Z (d : double) : Z :=
  let clamp z := if (- 2 ^ 63 <=? z) && (z <? 2 ^ 63) then z else - 2 ^ 63 in
  match d with
  | S754_zero _ => 0
  | S754_infinity _ | S754_nan => - 2 ^ 63
  | S754_finite s m e =>
      let a := if 0 <=? e then Zpos m * 2 ^ e else Zpos m / 2 ^ (- e) in
      clamp (if s then - a else a)
  end.

(** [static_cast<std::uint64_t>(double)] for values in range. *)
Definition to_u64 (d : double) : Z :=
  match d with
  | S754_finite false m e => if 0 <=? e then Zpos m * 2 ^ e else Zpos m / 2 ^ (- e)
  | _ => 0
  end.

(** [a * b] *)
Definition mul (a b : double) : double := SFmul prec emax a b.

(** [a == b], [a < b] on doubles *)
Definition eqb (a b : double) : bool := SFeqb a b.
Definition ltb (a b : double) : bool := SFltb a b.

(** *** printf("%.17g") *)

Fixpoint repeat_char (c : ascii) (n : nat) : string :=
  match n with O => "" | S k => String c (repeat_char c k) end.

(** The number of decimal digits of [z >= 1]. *)
Definition ndigits (z : Z) : Z := Z.of_nat (String.length (Dec.of_nonneg z)).

(** Least [k >= 0] with [num * 10 ^ k >= den], for [0 < num < den]. *)
Fixpoint scale_up (fuel : nat) (num den k : Z) : Z :=
  match fuel with
  | O => k
  | S f => if den <=? num * 10 ^ k then k else scale_up f num den (k + 1)
  end.

(** [floor (log10 (num / den))]; 400 exceeds the 324 decimal orders of
    magnitude below 1 that a binary64 number has. *)
Definition exponent10 (num den : Z) : Z :=
  if den <=? num then ndigits (num / den) - 1 else - scale_up 400 num den 0.

Definition div_half_even (a b : Z) : Z :=
  let q := a / b in
  let r := 2 * (a mod b) in
  if r <? b then q else if b <? r then q + 1 else if Z.even q then q else q + 1.

Fixpoint strip_trailing_zeros (s : string) : string :=
  match s with
  | EmptyString => EmptyString
  | String c s' =>
      match strip_trailing_zeros s' with
      | EmptyString => if decide (c = "0"%char) then EmptyString else String c EmptyString
      | t => String c t
      end
  end.

Definition with_fraction (int frac : string) : string :=
  let f := strip_trailing_zeros frac in
  if Str.empty f then int else int ++ "." ++ f.

(** 17 significant digits [n] (as an integer) with decimal exponent [x]. *)
Definition layout (n x : Z) : string :=
  let ds := Dec.of_nonneg n in
  if (x <? -4) || (17 <=? x) then
    let e := Dec.of_nonneg (Z.abs x) in
    with_fraction (substring 0 1 ds) (substring 1 16 ds)
    ++ "e" ++ (if x <? 0 then "-" else "+") ++ (if (Z.abs x <? 10) then "0" ++ e else e)
  else if x <? 0 then
    with_fraction "0" (repeat_char "0" (Z.to_nat (- x - 1)) ++ ds)
  else
    with_fraction (substring 0 (Z.to_nat (x + 1)) ds) (substring (Z.to_nat (x + 1)) 16 ds).

Definition fmt_17g (d : double) : string :=
  match d with
  | S754_zero false => "0"
  | S754_zero true => "-0"
  | S754_infinity false => "inf"
  | S754_infinity true => "-inf"
  | S754_nan => "nan"
  | S754_finite s m e =>
      let num := if 0 <=? e then Zpos m * 2 ^ e else Zpos m in
      let den := if 0 <=? e then 1 else 2 ^ (- e) in
      let x := exponent10 num den in
      let n := if 16 <=? x then div_half_even num (den * 10 ^ (x - 16))
               else div_half_even (num * 10 ^ (16 - x)) den in
      let body := if n =? 10 ^ 17 then layout (10 ^ 16) (x + 1) else layout n x in
      if s then String "-" body else body
  end.

(** *** strtod *)

(** The binary64 number nearest to [(-1)^s * num / den]: the quotient is
    computed with at least 64 bits, and the remainder becomes a sticky bit. *)
Definition of_ratio (s : bool) (num den : Z) : double :=
  if num =? 0 then S754_zero s else
  let k := Z.max 0 (64 + Z.log2 den - Z.log2 num) in
  let q := (num * 2 ^ k) / den in
  let sticky := if (num * 2 ^ k) mod den =? 0 then 0 else 1 in
  let m := 2 * q + sticky in
  binary_normalize prec emax (if s then - m else m) (- k - 1) s.

Definition scale10 (s : bool) (m e : Z) : double :=
  if m =? 0 then S754_zero s
  else if 0 <=? e then of_ratio s (m * 10 ^ e) 1 else of_ratio s m (10 ^ (- e)).

Definition read_sign (s : string) : bool * string :=
  match s with
  | String "-" r => (true, r)
  | String "+" r => (false, r)
  | _ => (false, s)
  end.

(** The optional exponent part; without a digit after it the ['e'] is not
    consumed. *)
Definition read_exponent (s : string) : Z * string :=
  match s with
  | String c r =>
      if bool_decide (c = "e"%char) || bool_decide (c = "E"%char) then
        let '(neg, r') := read_sign r in
        let '(v, n, r'') := Dec.read r' 0 0 in
        match n with O => (0, s) | _ => (if neg then - v else v, r'') end
      else (0, s)
  | EmptyString => (0, s)
  end.

(** [strtod] on a token of digits, signs, ['.'] and ['e']/['E'] (the only
    bytes the JSON reader passes): the value and the unread rest; [None] when
    no conversion is performed. *)
Definition strtod (s : string) : option (double * string) :=
  let '(neg, r0) := read_sign s in
  let '(ip, n1, r1) := Dec.read r0 0 0 in
  let '(m, n2, r2) :=
    match r1 with
    | String "." r => Dec.read r ip 0
    | _ => (ip, O, r1)
    end in
  if (n1 + n2 =? 0)%nat then None
  else let '(e, r3) := read_exponent r2 in
       Some (scale10 neg m (e - Z.of_nat n2), r3).

End Double.

Example fmt_third : Double.fmt_17g (Double.of_ratio false 1 3) = "0.33333333333333331".
Proof. vm_compute. reflexivity. Qed.
Example fmt_1e17 : Double.fmt_17g (Double.of_Z (10 ^ 17)) = "1e+17".
Proof. vm_compute. reflexivity. Qed.
Example fmt_fps : option_map (fun r => Double.fmt_17g r.1) (Double.strtod "-29.97") = Some "-29.969999999999999".
Proof. vm_compute. reflexivity. Qed.
Example fmt_small : option_map (fun r => Double.fmt_17g r.1) (Double.strtod "5e-324") = Some "4.9406564584124654e-324".
Proof. vm_compute. reflexivity. Qed.
Example fmt_max : option_map (fun r => Double.fmt_17g r.1) (Double.strtod "1.7976931348623157e308") = Some "1.7976931348623157e+308".
Proof. vm_compute. reflexivity. Qed.
Example strtod_2p53 : Double.strtod "9007199254740993" = Some (Double.of_Z (2 ^ 53), "").
Proof. vm_compute. reflexivity. Qed.
