(* ===== verification/Json.v ===== *)
(** JSON values (include/ge/cpp/json.h): the value type, its accessors,
    [operator==] and the compact serializer. *)

From stdpp Require Import base numbers list strings.
From Stdlib Require Import ZArith Lia Ascii String.
From S2P Require Import Prelude Types Double.

Local Open Scope string_scope.
Local Open Scope Z_scope.

(** The alternatives of [JsonValue::data_], in the order of
    [JsonValue::Type].  An object is a [std::map], kept in key order. *)
Inductive json : Type :=
| JNull
| JBool (b : bool)
| JInteger (z : Z)
| JNumber (d : double)
| JString (s : string)
| JArray (items : list json)
| JObject (members : list (string * json)).

(** Induction over the nested occurrences. *)
Section json_ind.
Variable P : json -> Prop.
Hypothesis Hnull : P JNull.
Hypothesis Hbool : forall b, P (JBool b).
Hypothesis Hint : forall z, P (JInteger z).
Hypothesis Hnum : forall d, P (JNumber d).
Hypothesis Hstr : forall s, P (JString s).
Hypothesis Harr : forall l, Forall P l -> P (JArray l).
Hypothesis Hobj : forall m, Forall (fun kv => P kv.2) m -> P (JObject m).

Fixpoint json_ind' (v : json) : P v :=
  match v with
  | JNull => Hnull
  | JBool b => Hbool b
  | JInteger z => Hint z
  | JNumber d => Hnum d
  | JString s => Hstr s
  | JArray l =>
      Harr l ((fix go l : Forall P l :=
                 match l with
                 | [] => List.Forall_nil _
                 | x :: l' => List.Forall_cons _ x l' (json_ind' x) (go l')
                 end) l)
  | JObject m =>
      Hobj m ((fix go m : Forall (fun kv => P kv.2) m :=
                 match m with
                 | [] => List.Forall_nil _
                 | (k, x) :: m' => List.Forall_cons _ (k, x) m' (json_ind' x) (go m')
                 end) m)
  end.
End json_ind.

Module Json.

Definition is_null (v : json) : bool := match v with JNull => true | _ => false end.
Definition is_bool (v : json) : bool := match v with JBool _ => true | _ => false end.
Definition is_integer (v : json) : bool := match v with JInteger _ => true | _ => false end.
Definition is_number (v : json) : bool :=
  match v with JInteger _ | JNumber _ => true | _ => false end.
Definition is_string (v : json) : bool := match v with JString _ => true | _ => false end.
Definition is_array (v : json) : bool := match v with JArray _ => true | _ => false end.
Definition is_object (v : json) : bool := match v with JObject _ => true | _ => false end.

(** [as_integer] / [as_number]; [None] is [std::bad_variant_access]. *)
Definition as_integer (v : json) : option Z :=
  match v with JNumber d => Some (Double.to_Z d) | JInteger z => Some z | _ => None end.
Definition as_number (v : json) : option double :=
  match v with JInteger z => Some (Double.of_Z z) | JNumber d => Some d | _ => None end.

(** [Find]: nullptr on a value that is not an object. *)
Definition Find (key : string) (v : json) : option json :=
  match v with JObject m => SMap.find key m | _ => None end.

Definition GetString (key : string) (v : json) : option string :=
  match Find key v with Some (JString s) => Some s | _ => None end.
Definition GetInteger (key : string) (v : json) : option Z :=
  match Find key v with
  | Some v' => if is_number v' then as_integer v' else None
  | None => None
  end.
Definition GetBool (key : string) (v : json) : option bool :=
  match Find key v with Some (JBool b) => Some b | _ => None end.

(** [operator==]: an integer and a floating value compare as doubles; arrays
    and objects compare element by element. *)
Fixpoint eqb (a b : json) : bool :=
  match a, b with
  | JNull, JNull => true
  | JBool x, JBool y => Bool.eqb x y
  | JInteger x, JInteger y => x =? y
  | JNumber x, JNumber y => Double.eqb x y
  | JInteger x, JNumber y => Double.eqb (Double.of_Z x) y
  | JNumber x, JInteger y => Double.eqb x (Double.of_Z y)
  | JString x, JString y => bool_decide (x = y)
  | JArray x, JArray y =>
      (fix go (x y : list json) : bool :=
         match x, y with
         | [], [] => true
         | v :: x', w :: y' => eqb v w && go x' y'
         | _, _ => false
         end) x y
  | JObject x, JObject y =>
      (fix go (x y : list (string * json)) : bool :=
         match x, y with
         | [], [] => true
         | (k, v) :: x', (l, w) :: y' => bool_decide (k = l) && eqb v w && go x' y'
         | _, _ => false
         end) x y
  | _, _ => false
  end.

(** [JsonValue(std::uint64_t)] stores the value reinterpreted as signed. *)
Definition of_u64 (z : Z) : json := JInteger (Word.i64 z).

(** ** Serialization *)

Definition dquote : ascii := "034"%char.
Definition backslash : ascii := "\"%char.

Definition hex_digit (n : N) : ascii :=
  if (n <? 10)%N then ascii_of_N (48 + n) else ascii_of_N (87 + n).

(** One byte of [AppendQuoted]; ["\u%04x"] prints the low byte only since
    the argument is below 0x20. *)
Definition quote_char (c : ascii) : string :=
  let n := N_of_ascii c in
  if decide (c = dquote) then String backslash (String dquote "")
  else if decide (c = backslash) then String backslash (String backslash "")
  else if (n =? 8)%N then String backslash "b"
  else if (n =? 12)%N then String backslash "f"
  else if (n =? 10)%N then String backslash "n"
  else if (n =? 13)%N then String backslash "r"
  else if (n =? 9)%N then String backslash "t"
  else if (n <? 32)%N then
    String backslash
      ("u00" ++ String (hex_digit (n / 16)) (String (hex_digit (n mod 16)) ""))
  else String c "".

Fixpoint quote_body (s : string) : string :=
  match s with EmptyString => "" | String c s' => quote_char c ++ quote_body s' end.

(** [AppendQuoted] *)
Definition quoted (s : string) : string :=
  String dquote (quote_body s ++ String dquote "").

(** [Serialize]: object members in key order, no white space. *)
Fixpoint Serialize (v : json) : string :=
  match v with
  | JNull => "null"
  | JBool true => "true"
  | JBool false => "false"
  | JInteger z => Dec.to_string z
  | JNumber d => Double.fmt_17g d
  | JString s => quoted s
  | JArray l =>
      "[" ++ (fix go (first : bool) (l : list json) : string :=
                match l with
                | [] => ""
                | x :: l' => (if first then "" else ",") ++ Serialize x ++ go false l'
                end) true l ++ "]"
  | JObject m =>
      "{" ++ (fix go (first : bool) (m : list (string * json)) : string :=
                match m with
                | [] => ""
                | (k, x) :: m' =>
                    (if first then "" else ",") ++ quoted k ++ ":" ++ Serialize x ++ go false m'
                end) true m ++ "}"
  end.

(** [JsonObject o; o.emplace(k, v)...; JsonValue(std::move(o))] *)
Definition obj (l : list (string * json)) : json :=
  JObject (fold_left (fun m kv => (SMap.emplace kv.1 kv.2 m).1) l []).

End Json.
