(* ===== verification/Text.v ===== *)
(** Searching in texts: [find], [find_first_of] and [rfind] of
    [std::string_view], as the parts around what is found. *)

From stdpp Require Import base list strings.
From Stdlib Require Import Ascii String Lia.
From S2P Require Import Prelude Types.

Local Open Scope string_scope.

(** [starts_with], with what follows. *)
Fixpoint strip (p s : string) : option string :=
  match p, s with
  | EmptyString, _ => Some s
  | String a p', String b s' => if Ascii.eqb a b then strip p' s' else None
  | String _ _, EmptyString => None
  end.
(** [find(sub)] *)
Fixpoint split_sub (sub text : string) : option (string * string) :=
  match strip sub text with
  | Some rest => Some ("", rest)
  | None => match text with
            | EmptyString => None
            | String c t => match split_sub sub t with Some (a, b) => Some (String c a, b) | None => None end
            end
  end.
Definition mentions (sub text : string) : bool := has (split_sub sub text).
(** [find_first_of]: the found character stays with what follows. *)
Fixpoint split_any (f : ascii -> bool) (text : string) : string * string :=
  match text with
  | EmptyString => ("", "")
  | String c t => if f c then ("", text) else let '(a, b) := split_any f t in (String c a, b)
  end.
(** [rfind(c)] *)
Fixpoint split_last (c : ascii) (text : string) : option (string * string) :=
  match text with
  | EmptyString => None
  | String a t => match split_last c t with
                  | Some (l, r) => Some (String a l, r)
                  | None => if Ascii.eqb a c then Some ("", t) else None
                  end
  end.
Fixpoint all (f : ascii -> bool) (s : string) : bool :=
  match s with EmptyString => true | String c t => f c && all f t end.
Fixpoint map_text (f : ascii -> ascii) (s : string) : string :=
  match s with EmptyString => "" | String c t => String (f c) (map_text f t) end.
(** [substr(0, n)] *)
Fixpoint prefix_of (n : nat) (s : string) : string :=
  match n, s with
  | S n, String c t => String c (prefix_of n t)
  | _, _ => ""
  end.

Lemma text_length s t : String.length (s ++ t) = (String.length s + String.length t)%nat.
Proof. induction s as [|c s IH]; simpl; [done|]. by rewrite IH. Qed.
Lemma all_app f s t : all f (s ++ t) = all f s && all f t.
Proof. induction s as [|c s IH]; simpl; [done|]. rewrite IH. apply andb_assoc. Qed.
Lemma all_impl (f g : ascii -> bool) s : (forall c, f c = true -> g c = true) -> all f s = true -> all g s = true.
Proof. intros H. induction s as [|c s IH]; simpl; [done|]. intros [H1 H2]%andb_true_iff. by rewrite (H _ H1), IH. Qed.

Lemma strip_app p s : strip p (p ++ s) = Some s.
Proof. induction p as [|a p IH]; simpl; [done|]. by rewrite Ascii.eqb_refl. Qed.
Lemma strip_Some p s r : strip p s = Some r -> s = p ++ r.
Proof.
  revert s. induction p as [|a p IH]; intros [|b s]; simpl; try done; try (by intros [= <-]).
  destruct (Ascii.eqb_spec a b) as [->|]; [|done]. intros H. by rewrite (IH _ H).
Qed.
Lemma split_sub_Some sub text a b : split_sub sub text = Some (a, b) -> text = a ++ sub ++ b.
Proof.
  revert a b. induction text as [|c t IH]; intros a b; cbn [split_sub].
  - destruct (strip sub "") eqn:E; [|done]. intros [= <- <-]. by apply strip_Some in E.
  - destruct (strip sub (String c t)) eqn:E; [intros [= <- <-]; by apply strip_Some in E|].
    destruct (split_sub sub t) as [[a' b']|]; [|done]. intros [= <- <-]. by rewrite (IH a' b').
Qed.
(** What is found first begins where no earlier character can. *)
Lemma split_sub_app c sub a b : all (fun x => negb (Ascii.eqb x c)) a = true -> split_sub (String c sub) (a ++ String c sub ++ b) = Some (a, b).
Proof.
  induction a as [|x a IH]; cbn [all]; intros H.
  - change ("" ++ String c sub ++ b) with (String c (sub ++ b)). cbn [split_sub strip]. by rewrite Ascii.eqb_refl, strip_app.
  - apply andb_true_iff in H as [H1 H2]. change (String x a ++ String c sub ++ b) with (String x (a ++ String c sub ++ b)). cbn [split_sub strip].
    apply negb_true_iff in H1. rewrite Ascii.eqb_sym, H1. by rewrite IH.
Qed.
Lemma split_any_app f a b : all (fun x => negb (f x)) a = true -> (forall c t, b = String c t -> f c = true) -> split_any f (a ++ b) = (a, b).
Proof.
  intros H Hb. induction a as [|x a IH]; cbn [all] in H.
  - destruct b as [|c t]; simpl; [done|]. by rewrite (Hb c t).
  - apply andb_true_iff in H as [H1%negb_true_iff H2]. simpl. by rewrite H1, IH.
Qed.
Lemma split_any_Some f text a b : split_any f text = (a, b) -> text = a ++ b /\ all (fun x => negb (f x)) a = true.
Proof.
  revert a b. induction text as [|c t IH]; intros a b; simpl; [by intros [= <- <-]|]. destruct (f c) eqn:E; [by intros [= <- <-]|].
  destruct (split_any f t) as [a' b']. intros [= <- <-]. destruct (IH a' b' eq_refl) as [-> Ha]. simpl. by rewrite E, Ha.
Qed.
Lemma split_last_None c s : all (fun x => negb (Ascii.eqb x c)) s = true -> split_last c s = None.
Proof. induction s as [|x s IH]; simpl; [done|]. intros [H1%negb_true_iff H2]%andb_true_iff. by rewrite IH, H1. Qed.
Lemma split_last_app c a b : all (fun x => negb (Ascii.eqb x c)) b = true -> split_last c (a ++ String c b) = Some (a, b).
Proof.
  intros H. induction a as [|x a IH]; [|simpl; by rewrite IH]. change ("" ++ String c b) with (String c b). cbn [split_last]. by rewrite split_last_None, Ascii.eqb_refl.
Qed.
