(* ===== verification/JsonParser.v ===== *)
(** The JSON reader (src/json.cpp): a recursive-descent parser with a nesting
    limit, first-error reporting and rejection of duplicate keys. *)

From stdpp Require Import base numbers list strings.
From Stdlib Require Import ZArith Lia Ascii String.
From S2P Require Import Prelude Types Double Json.

Local Open Scope string_scope.
Local Open Scope Z_scope.

Module Parser.

(** [Parser]'s members; [rest] is [text_] from [position_] on. *)
Record state : Type := MkState {
  rest : string;
  position : Z;
  error_ : string;
  depth : Z;
}.

Definition kMaxDepth : Z := 256.

(** A member function returns [std::optional<A>] and updates the parser. *)
Definition result (A : Type) : Type := option A * state.

(** [Fail]: only the first error is kept. *)
Definition Fail {A} (m : string) (st : state) : result A :=
  (None,
   if Str.empty (error_ st)
   then MkState (rest st) (position st) (m ++ " at offset " ++ Dec.to_string (position st)) (depth st)
   else st).

Definition move_to (r : string) (n : Z) (st : state) : state :=
  MkState r (position st + n) (error_ st) (depth st).

Definition is_space (c : ascii) : bool :=
  bool_decide (c = " "%char) || bool_decide (c = "010"%char)
  || bool_decide (c = "013"%char) || bool_decide (c = "009"%char).

Fixpoint skip_spaces (s : string) : Z * string :=
  match s with
  | String c s' => if is_space c then let '(n, r) := skip_spaces s' in (1 + n, r) else (0, s)
  | EmptyString => (0, s)
  end.

Definition SkipWhitespace (st : state) : state :=
  let '(n, r) := skip_spaces (rest st) in move_to r n st.

(** The text after the literal when the text starts with it. *)
Fixpoint strip_prefix (lit s : string) : option string :=
  match lit, s with
  | EmptyString, _ => Some s
  | String a lit', String b s' => if decide (a = b) then strip_prefix lit' s' else None
  | _, _ => None
  end.

Definition Consume (lit : string) (st : state) : result unit :=
  match strip_prefix lit (rest st) with
  | Some r => (Some tt, move_to r (Z.of_nat (String.length lit)) st)
  | None => Fail "unexpected token" st
  end.

(** *** Numbers *)

(** The loop of [ParseNumber]: the token, whether it holds only digits, and
    the rest. *)
Fixpoint number_token (s : string) : string * bool * string :=
  match s with
  | EmptyString => ("", true, "")
  | String c s' =>
      if Dec.is_digit c then
        let '(t, i, r) := number_token s' in (String c t, i, r)
      else if bool_decide (c = "."%char) || bool_decide (c = "e"%char) || bool_decide (c = "E"%char)
              || bool_decide (c = "+"%char) || bool_decide (c = "-"%char) then
        let '(t, _, r) := number_token s' in (String c t, false, r)
      else ("", true, s)
  end.

Definition scan_number (s : string) : string * bool * string :=
  match s with
  | String "-" s' => let '(t, i, r) := number_token s' in (String "-" t, i, r)
  | _ => number_token s
  end.

(** [std::strtoll(s, &end, 10)] on an optional ['-'] and digits: saturates at
    the range of [long long]; [None] when there is no digit. *)
Definition strtoll (s : string) : option (Z * string) :=
  let '(neg, r) := match s with String "-" r => (true, r) | _ => (false, s) end in
  let '(v, n, r') := Dec.read r 0 0 in
  match n with
  | O => None
  | _ => Some (Z.max (- 2 ^ 63) (Z.min (2 ^ 63 - 1) (if neg then - v else v)), r')
  end.

(** The token's value: an integer when the whole token is one, else a double. *)
Definition number_value (token : string) (integer : bool) : option json :=
  match (if integer then strtoll token else None) with
  | Some (z, EmptyString) => Some (JInteger z)
  | _ => match Double.strtod token with
         | Some (d, EmptyString) => Some (JNumber d)
         | _ => None
         end
  end.

Definition ParseNumber (st : state) : result json :=
  let '(token, integer, r) := scan_number (rest st) in
  let st' := move_to r (Z.of_nat (String.length token)) st in
  if Str.empty token then Fail "invalid number" st
  else match number_value token integer with
       | Some v => (Some v, st')
       | None => Fail "invalid number" st'
       end.

(** *** Strings *)

(** [c_str()] of a [std::string]: reading stops at the first NUL. *)
Fixpoint c_str (s : string) : string :=
  match s with
  | EmptyString => ""
  | String c s' => if decide (c = "000"%char) then "" else String c (c_str s')
  end.

Definition hex_val (c : ascii) : option Z :=
  let n := Z.of_N (N_of_ascii c) in
  if (48 <=? n) && (n <=? 57) then Some (n - 48)
  else if (65 <=? n) && (n <=? 70) then Some (n - 55)
  else if (97 <=? n) && (n <=? 102) then Some (n - 87)
  else None.

Fixpoint read_hex (s : string) (acc : Z) (n : nat) : Z * nat * string :=
  match s with
  | String c s' => match hex_val c with
                   | Some d => read_hex s' (16 * acc + d) (S n)
                   | None => (acc, n, s)
                   end
  | EmptyString => (acc, n, s)
  end.

(** [isspace] in the C locale *)
Fixpoint skip_isspace (s : string) : string :=
  match s with
  | String c s' =>
      let n := Z.of_N (N_of_ascii c) in
      if ((9 <=? n) && (n <=? 13)) || (n =? 32) then skip_isspace s' else s
  | EmptyString => s
  end.

(** ["0x"] / ["0X"] counts as a prefix when a hexadecimal digit follows. *)
Definition skip_0x (s : string) : string :=
  match s with
  | String "0" (String x (String h r)) =>
      if (bool_decide (x = "x"%char) || bool_decide (x = "X"%char))
         && match hex_val h with Some _ => true | None => false end
      then String h r else s
  | _ => s
  end.

(** [std::strtoul(s, &end, 16)]: value and unread rest; without a digit the
    value is 0 and nothing is read. *)
Definition strtoul16 (s : string) : Z * string :=
  let '(neg, r) := Double.read_sign (skip_isspace s) in
  let '(v, n, r') := read_hex (skip_0x r) 0 0 in
  match n with
  | O => (0, s)
  | _ => (Word.u64 (if neg then - v else v), r')
  end.

Definition byte_chr (z : Z) : ascii := ascii_of_N (Z.to_N (z mod 256)).

Definition AppendUtf8 (code : Z) : string :=
  if code <? 0x80 then String (byte_chr code) ""
  else if code <? 0x800 then
    String (byte_chr (Z.lor 0xC0 (Z.shiftr code 6)))
      (String (byte_chr (Z.lor 0x80 (Z.land code 0x3F))) "")
  else
    String (byte_chr (Z.lor 0xE0 (Z.shiftr code 12)))
      (String (byte_chr (Z.lor 0x80 (Z.land (Z.shiftr code 6) 0x3F)))
         (String (byte_chr (Z.lor 0x80 (Z.land code 0x3F))) "")).

Definition simple_escape (c : ascii) : option ascii :=
  if decide (c = Json.dquote) then Some Json.dquote
  else if decide (c = Json.backslash) then Some Json.backslash
  else if decide (c = "/"%char) then Some "/"%char
  else if decide (c = "b"%char) then Some "008"%char
  else if decide (c = "f"%char) then Some "012"%char
  else if decide (c = "n"%char) then Some "010"%char
  else if decide (c = "r"%char) then Some "013"%char
  else if decide (c = "t"%char) then Some "009"%char
  else None.

(** What the loop of [ParseString] ends with: the text and the rest after the
    closing quote, or an error; [n] counts the bytes read. *)
Inductive str_result : Type :=
| StrOk (out r : string) (n : Z)
| StrErr (m : string) (n : Z).

Definition str_step (pre : string) (k : Z) (x : str_result) : str_result :=
  match x with
  | StrOk out r n => StrOk (pre ++ out) r (k + n)
  | StrErr m n => StrErr m (k + n)
  end.

Fixpoint string_body (s : string) : str_result :=
  match s with
  | EmptyString => StrErr "unterminated string" 0
  | String c r =>
      if decide (c = Json.dquote) then StrOk "" r 1
      else if decide (c = Json.backslash) then
        match r with
        | EmptyString => StrErr "unterminated string" 1
        | String e r2 =>
            match simple_escape e with
            | Some ch => str_step (String ch "") 2 (string_body r2)
            | None =>
                if decide (e = "u"%char) then
                  match r2 with
                  | String h1 (String h2 (String h3 (String h4 r3))) =>
                      let hex := String h1 (String h2 (String h3 (String h4 ""))) in
                      match strtoul16 (c_str hex) with
                      | (code, EmptyString) =>
                          str_step (AppendUtf8 (Word.u32 code)) 6 (string_body r3)
                      | _ => StrErr "invalid unicode escape" 6
                      end
                  | _ => StrErr "invalid unicode escape" 2
                  end
                else StrErr "invalid escape" 2
            end
        end
      else str_step (String c "") 1 (string_body r)
  end.

Definition ParseString (st : state) : result string :=
  match Consume (String Json.dquote "") st with
  | (None, st') => (None, st')
  | (Some _, st') =>
      match string_body (rest st') with
      | StrOk out r n => (Some out, move_to r n st')
      | StrErr m n => Fail m (move_to "" n st')
      end
  end.

(** *** Values

    [fuel] bounds the recursion; the outer [None] is "out of fuel" and never
    happens from [ParseJson] (theorem [ParseJson_total]). *)

Definition Literal (lit : string) (v : json) (st : state) : result json :=
  match Consume lit st with
  | (Some _, st') => (Some v, st')
  | (None, st') => (None, st')
  end.

Definition leave (r : result json) : result json :=
  (r.1, MkState (rest r.2) (position r.2) (error_ r.2) (depth r.2 - 1)).

Definition enter (st : state) : state :=
  MkState (rest st) (position st) (error_ st) (depth st + 1).

Definition head (st : state) : option ascii :=
  match rest st with String c _ => Some c | EmptyString => None end.

Definition next (st : state) : state :=
  match rest st with String _ r => move_to r 1 st | EmptyString => st end.

Definition ParseObject (loop : state -> option (result json)) (st : state) : option (result json) :=
  match Consume "{" st with
  | (None, st) => Some (None, st)
  | (Some _, st) =>
      let st := SkipWhitespace st in
      if decide (head st = Some "}"%char) then Some (Some (JObject []), next st) else loop st
  end.

Definition ParseArray (loop : state -> option (result json)) (st : state) : option (result json) :=
  match Consume "[" st with
  | (None, st) => Some (None, st)
  | (Some _, st) =>
      let st := SkipWhitespace st in
      if decide (head st = Some "]"%char) then Some (Some (JArray []), next st) else loop st
  end.

Definition StringValue (st : state) : result json :=
  match ParseString st with
  | (Some s, st') => (Some (JString s), st')
  | (None, st') => (None, st')
  end.

Definition ParseValueInner (object_loop array_loop : state -> option (result json)) (st : state)
    : option (result json) :=
  let st := SkipWhitespace st in
  match head st with
  | None => Some (Fail "unexpected end of input" st)
  | Some c =>
      if decide (c = "{"%char) then ParseObject object_loop st
      else if decide (c = "["%char) then ParseArray array_loop st
      else if decide (c = Json.dquote) then Some (StringValue st)
      else if decide (c = "t"%char) then Some (Literal "true" (JBool true) st)
      else if decide (c = "f"%char) then Some (Literal "false" (JBool false) st)
      else if decide (c = "n"%char) then Some (Literal "null" JNull st)
      else Some (ParseNumber st)
  end.

Fixpoint ParseValue (fuel : nat) (st : state) : option (result json) :=
  match fuel with
  | O => None
  | S f =>
      let st := enter st in
      if kMaxDepth <? depth st then Some (Fail "nesting too deep" st)
      else option_map leave (ParseValueInner (ParseMembers f []) (ParseItems f []) st)
  end
(** The loop of [ParseArray], [items] in reverse order. *)
with ParseItems (fuel : nat) (items : list json) (st : state) : option (result json) :=
  match fuel with
  | O => None
  | S f =>
      match ParseValue f st with
      | None => None
      | Some (None, st) => Some (None, st)
      | Some (Some item, st) =>
          let items := item :: items in
          let st := SkipWhitespace st in
          match head st with
          | None => Some (Fail "unterminated array" st)
          | Some c =>
              if decide (c = ","%char) then ParseItems f items (next st)
              else if decide (c = "]"%char) then Some (Some (JArray (reverse items)), next st)
              else Some (Fail "expected ',' or ']'" st)
          end
      end
  end
(** The loop of [ParseObject]. *)
with ParseMembers (fuel : nat) (members : list (string * json)) (st : state)
    : option (result json) :=
  match fuel with
  | O => None
  | S f =>
      let st := SkipWhitespace st in
      if negb (bool_decide (head st = Some Json.dquote)) then Some (Fail "expected string key" st)
      else
      match ParseString st with
      | (None, st) => Some (None, st)
      | (Some key, st) =>
          match Consume ":" (SkipWhitespace st) with
          | (None, st) => Some (None, st)
          | (Some _, st) =>
              match ParseValue f st with
              | None => None
              | Some (None, st) => Some (None, st)
              | Some (Some value, st) =>
                  match SMap.emplace key value members with
                  | (_, false) => Some (Fail "duplicate key" st)
                  | (members, true) =>
                      let st := SkipWhitespace st in
                      match head st with
                      | None => Some (Fail "unterminated object" st)
                      | Some c =>
                          if decide (c = ","%char) then ParseMembers f members (next st)
                          else if decide (c = "}"%char) then Some (Some (JObject members), next st)
                          else Some (Fail "expected ',' or '}'" st)
                      end
                  end
              end
          end
      end
  end.

(** Every recursive call either consumes a byte or is followed by one that
    does, hence this bound. *)
Definition fuel_for (s : string) : nat := S (S (2 * String.length s)).

Definition start (text : string) : state := MkState text 0 "" 0.

(** [Run]: the value of [JsonParseResult], or its error text. *)
Definition Run (text : string) : option (json + string) :=
  match ParseValue (fuel_for text) (start text) with
  | None => None
  | Some (None, st) => Some (inr (if Str.empty (error_ st) then "invalid json" else error_ st))
  | Some (Some v, st) =>
      let st := SkipWhitespace st in
      if Str.empty (rest st) then Some (inl v)
      else Some (inr ("trailing characters at offset " ++ Dec.to_string (position st)))
  end.

End Parser.

(** [ParseJson]; the text of the exhausted case is unreachable. *)
Definition ParseJson (text : string) : json + string :=
  match Parser.Run text with Some r => r | None => inr "out of fuel" end.

Definition q (s : string) : string := Json.quoted s.

Example parse_ex1 :
  ParseJson (" {" ++ q "a" ++ ": [1, -2.5e1, true,null], " ++ q "b" ++ ":{}}") =
  inl (JObject [("a", JArray [JInteger 1; JNumber (Double.of_Z (-25)); JBool true; JNull]);
                ("b", JObject [])]).
Proof. vm_compute. reflexivity. Qed.
Example parse_ex2 : ParseJson ("{" ++ q "a" ++ ":1," ++ q "a" ++ ":2}") = inr "duplicate key at offset 12".
Proof. vm_compute. reflexivity. Qed.
Example parse_ex3 : ParseJson "[1,2" = inr "unterminated array at offset 4".
Proof. vm_compute. reflexivity. Qed.
