(* ===== verification/JsonProofs.v ===== *)
(** Lemmas on the JSON reader: every step of the parser consumes text, so its
    fuel is enough and more fuel does not change the result; and integers read
    back from their decimal text. *)

From stdpp Require Import base numbers list strings.
From Stdlib Require Import ZArith Lia Ascii String.
From S2P Require Import Prelude Types Double Json JsonParser.

Local Open Scope string_scope.
Local Open Scope nat_scope.

Import Parser.

(** * Progress *)

Definition len (st : state) : nat := String.length (rest st).

Lemma skip_spaces_len s : String.length (skip_spaces s).2 <= String.length s.
Proof.
  induction s as [|c s IH]; simpl; [lia|].
  destruct (is_space c); simpl; [|lia].
  destruct (skip_spaces s) as [n r]; simpl in *; lia.
Qed.

Lemma SkipWhitespace_len st : len (SkipWhitespace st) <= len st.
Proof.
  unfold SkipWhitespace, len. pose proof (skip_spaces_len (rest st)).
  by destruct (skip_spaces (rest st)).
Qed.

Lemma next_len st : head st <> None -> len (next st) < len st.
Proof. unfold head, next, len. destruct (rest st); simpl; [done|lia]. Qed.

Lemma strip_prefix_len lit s r :
  strip_prefix lit s = Some r -> String.length s = String.length lit + String.length r.
Proof.
  revert s. induction lit as [|a lit IH]; intros [|b s]; simpl; try (by intros [= <-]); try done.
  case_decide; [|done]. intros ?. by rewrite (IH s).
Qed.

Lemma Consume_len lit st u st' :
  Consume lit st = (Some u, st') -> len st = String.length lit + len st'.
Proof.
  unfold Consume. destruct (strip_prefix lit (rest st)) eqn:E; [|done].
  intros [= <- <-]. by apply strip_prefix_len.
Qed.

Lemma number_token_len s t i r :
  number_token s = (t, i, r) -> String.length s = String.length t + String.length r.
Proof.
  revert t i r. induction s as [|c s IH]; simpl; intros t i r; [by intros [= <- <- <-]|].
  destruct (Dec.is_digit c); [|destruct (_ || _)%bool]; [| |by intros [= <- <- <-]];
    destruct (number_token s) as [[t' i'] r'] eqn:E; intros [= <- <- <-]; simpl;
    by rewrite (IH t' i' r').
Qed.

Lemma scan_number_len s t i r :
  scan_number s = (t, i, r) -> String.length s = String.length t + String.length r.
Proof.
  unfold scan_number.
  repeat case_match; try (intros Hn; exact (number_token_len _ _ _ _ Hn)).
  intros [= <- <- <-]. simpl. f_equal. by eapply number_token_len.
Qed.

Lemma ParseNumber_len st v st' : ParseNumber st = (Some v, st') -> len st' < len st.
Proof.
  unfold ParseNumber. destruct (scan_number (rest st)) as [[t i] r] eqn:E.
  apply scan_number_len in E. unfold len.
  destruct t as [|c t]; simpl; [done|]. destruct (number_value _ _); [|done].
  intros [= <- <-]. simpl in *. lia.
Qed.

Lemma string_body_len s out r n :
  string_body s = StrOk out r n -> String.length r < String.length s.
Proof.
  revert out r n. induction s as [s IH] using (induction_ltof1 _ String.length).
  unfold ltof in IH. intros out r n. destruct s as [|c s]; simpl; [done|].
  case_decide; [intros [= <- <- <-]; lia|].
  assert (Hstep : forall pre k s', String.length s' < S (String.length s) ->
    str_step pre k (string_body s') = StrOk out r n -> String.length r < S (String.length s)).
  { intros pre k s' Hs'. destruct (string_body s') as [o r' n'|] eqn:E; [|done].
    intros [= <- <- <-]. apply IH in E; simpl; lia. }
  case_decide; [|intros Hs; eapply Hstep, Hs; lia].
  destruct s as [|e r2]; [done|]. destruct (simple_escape e).
  { intros Hs; eapply Hstep, Hs; simpl; lia. }
  case_decide; [|done]. destruct r2 as [|h1 [|h2 [|h3 [|h4 r3]]]]; try done.
  destruct (strtoul16 _) as [code []]; [|done].
  intros Hs; eapply Hstep, Hs; simpl; lia.
Qed.

Lemma ParseString_len st s st' : ParseString st = (Some s, st') -> len st' < len st.
Proof.
  unfold ParseString. destruct (Consume _ st) as [[u|] st1] eqn:E; [|done].
  apply Consume_len in E. destruct (string_body (rest st1)) eqn:Eb; [|done].
  intros [= <- <-]. apply string_body_len in Eb. unfold len in *. simpl in *. lia.
Qed.

Lemma Literal_len lit v st v' st' :
  lit <> "" -> Literal lit v st = (Some v', st') -> len st' < len st.
Proof.
  unfold Literal. destruct (Consume lit st) as [[u|] st1] eqn:E; [|done].
  intros Hl [= <- <-]. apply Consume_len in E. destruct lit; [done|]. simpl in E. lia.
Qed.

(** A parser call from [st] that terminates and, when it succeeds, leaves
    strictly less input. *)
Definition progresses (st : state) (r : option (result json)) : Prop :=
  exists o st', r = Some (o, st') /\ (o <> None -> len st' < len st).

Lemma progresses_fail st m st' : progresses st (Some (Fail m st')).
Proof. eexists _, _. split; [done|]. done. Qed.

Lemma progresses_weaken st st0 r : len st <= len st0 -> progresses st r -> progresses st0 r.
Proof. intros ? (o & st' & -> & Hp). exists o, st'. split; [done|]. intros ?. specialize (Hp H0). lia. Qed.

Lemma progresses_leave st r : progresses st r -> progresses st (option_map leave r).
Proof. intros (o & st' & -> & Hp). by eexists _, _. Qed.

#[local] Hint Resolve progresses_fail : ge.

Lemma StringValue_len st v st' : StringValue st = (Some v, st') -> len st' < len st.
Proof.
  unfold StringValue. destruct (ParseString st) as [[s|] st1] eqn:E; [|done].
  intros [= <- <-]. by eapply ParseString_len.
Qed.

Lemma progresses_some st r :
  (forall v st', r = (Some v, st') -> len st' < len st) -> progresses st (Some r).
Proof. intros Hr. destruct r as [[v|] st']; eexists _, _; (split; [done|]); [eauto|done]. Qed.

(** The common shape of [ParseObject] and [ParseArray]. *)
Lemma bracket_progress op cl v loop st st1 :
  len st1 <= len st ->
  (forall st2, len st2 < len st1 -> progresses st2 (loop st2)) ->
  progresses st
    (match Consume (String op "") st1 with
     | (None, st) => Some (None, st)
     | (Some _, st) =>
         let st := SkipWhitespace st in
         if decide (head st = Some cl) then Some (Some v, next st) else loop st
     end).
Proof.
  intros Hl Hloop. destruct (Consume _ st1) as [[u|] st2] eqn:E; [|by eexists _, _].
  apply Consume_len in E. simpl in E. pose proof (SkipWhitespace_len st2). cbv zeta.
  case_decide as Eh.
  - eexists _, _. split; [done|]. intros _.
    pose proof (next_len (SkipWhitespace st2)). rewrite Eh in H0. specialize (H0 ltac:(done)). lia.
  - eapply progresses_weaken; [|apply Hloop]; lia.
Qed.

Lemma ParseValueInner_progress obj arr st :
  (forall st1, len st1 < len st -> progresses st1 (obj st1)) ->
  (forall st1, len st1 < len st -> progresses st1 (arr st1)) ->
  progresses st (ParseValueInner obj arr st).
Proof.
  intros Hobj Harr. unfold ParseValueInner. set (st1 := SkipWhitespace st).
  assert (Hl1 : len st1 <= len st) by apply SkipWhitespace_len.
  destruct (head st1) as [c|] eqn:Eh; [|eauto with ge].
  repeat case_decide.
  - apply bracket_progress; [done|]. intros; apply Hobj; lia.
  - apply bracket_progress; [done|]. intros; apply Harr; lia.
  - apply progresses_some. intros v st' Hs%StringValue_len. lia.
  - apply progresses_some. intros v st' Hs%Literal_len; [lia|done].
  - apply progresses_some. intros v st' Hs%Literal_len; [lia|done].
  - apply progresses_some. intros v st' Hs%Literal_len; [lia|done].
  - apply progresses_some. intros v st' Hs%ParseNumber_len. lia.
Qed.

Lemma parse_progress fuel :
  (forall st, 2 * len st + 2 <= fuel -> progresses st (ParseValue fuel st)) /\
  (forall items st, 2 * len st + 3 <= fuel -> progresses st (ParseItems fuel items st)) /\
  (forall ms st, 2 * len st + 3 <= fuel -> progresses st (ParseMembers fuel ms st)).
Proof.
  induction fuel as [|f (IHv & IHi & IHm)]; [split_and!; intros; lia|].
  split_and!.
  - intros st Hf. cbn -[decide bool_decide]. destruct (_ <? _)%Z; [eauto with ge|].
    apply progresses_leave. change (len st) with (len (enter st)) in Hf.
    apply (progresses_weaken (enter st)); [done|].
    apply ParseValueInner_progress; intros; [apply IHm|apply IHi]; lia.
  - intros items st Hf. cbn -[decide bool_decide].
    destruct (IHv st ltac:(lia)) as (o & st1 & -> & Hp).
    destruct o as [item|]; [|by eexists _, _]. specialize (Hp ltac:(done)).
    pose proof (SkipWhitespace_len st1). set (st2 := SkipWhitespace st1) in *.
    destruct (head st2) eqn:Eh; [|eauto with ge].
    assert (len (next st2) < len st2) by (apply next_len; congruence).
    repeat case_decide; [| |eauto with ge].
    + eapply progresses_weaken; [|apply IHi]; lia.
    + eexists _, _. split; [done|]. lia.
  - intros ms st Hf. cbn -[decide bool_decide].
    pose proof (SkipWhitespace_len st). set (st1 := SkipWhitespace st) in *.
    destruct (negb _); [eauto with ge|].
    destruct (ParseString st1) as [[key|] st2] eqn:Es; [|by eexists _, _].
    apply ParseString_len in Es. pose proof (SkipWhitespace_len st2).
    destruct (Consume ":" (SkipWhitespace st2)) as [[u|] st3] eqn:Ec; [|by eexists _, _].
    apply Consume_len in Ec. simpl in Ec.
    destruct (IHv st3 ltac:(lia)) as (o & st4 & -> & Hp).
    destruct o as [value|]; [|by eexists _, _]. specialize (Hp ltac:(done)).
    destruct (SMap.emplace key value ms) as [ms' []]; [|eauto with ge].
    pose proof (SkipWhitespace_len st4). set (st5 := SkipWhitespace st4) in *.
    destruct (head st5) eqn:Eh; [|eauto with ge].
    assert (len (next st5) < len st5) by (apply next_len; congruence).
    repeat case_decide; [| |eauto with ge].
    + eapply progresses_weaken; [|apply IHm]; lia.
    + eexists _, _. split; [done|]. lia.
Qed.

(** * Fuel *)

Lemma ParseValueInner_mono obj arr obj' arr' st r :
  (forall st r, obj st = Some r -> obj' st = Some r) ->
  (forall st r, arr st = Some r -> arr' st = Some r) ->
  ParseValueInner obj arr st = Some r -> ParseValueInner obj' arr' st = Some r.
Proof.
  intros Ho Ha. unfold ParseValueInner, ParseObject, ParseArray.
  destruct (head _); [|done]. repeat case_decide; try done.
  all: destruct (Consume _ _) as [[u|] st2]; [|done].
  all: case_decide; eauto.
Qed.

Lemma parse_mono f :
  (forall st r, ParseValue f st = Some r -> ParseValue (S f) st = Some r) /\
  (forall items st r, ParseItems f items st = Some r -> ParseItems (S f) items st = Some r) /\
  (forall ms st r, ParseMembers f ms st = Some r -> ParseMembers (S f) ms st = Some r).
Proof.
  induction f as [|f (IHv & IHi & IHm)]; [done|]. split_and!.
  - intros st r. remember (S f) as f' eqn:Ef.
    rewrite Ef at 1. cbn -[decide bool_decide].
    destruct (_ <? _)%Z; [done|]. subst f'.
    destruct (ParseValueInner (ParseMembers f []) _ _) as [r'|] eqn:E; [|done].
    rewrite (ParseValueInner_mono (ParseMembers f []) (ParseItems f []) _ _ _ r'); eauto.
  - intros items st r. remember (S f) as f' eqn:Ef.
    rewrite Ef at 1. cbn -[decide bool_decide].
    destruct (ParseValue f st) as [[[v|] st1]|] eqn:E; [| |done];
      subst f'; rewrite (IHv _ _ E); [|done].
    destruct (head _); [|done]. repeat case_decide; try done. apply IHi.
  - intros ms st r. remember (S f) as f' eqn:Ef.
    rewrite Ef at 1. cbn -[decide bool_decide].
    destruct (negb _); [done|].
    destruct (ParseString _) as [[key|] st1]; [|done].
    destruct (Consume _ _) as [[u|] st2]; [|done].
    destruct (ParseValue f st2) as [[[v|] st3]|] eqn:E; [| |done];
      subst f'; rewrite (IHv _ _ E); [|done].
    destruct (SMap.emplace _ _ _) as [ms' []]; [|done].
    destruct (head _); [|done]. repeat case_decide; try done. apply IHm.
Qed.

Lemma ParseValue_le f f' st r : ParseValue f st = Some r -> f <= f' -> ParseValue f' st = Some r.
Proof. intros Hf. induction 1; [done|]. by apply (parse_mono m). Qed.
Lemma ParseItems_le f f' l st r :
  ParseItems f l st = Some r -> f <= f' -> ParseItems f' l st = Some r.
Proof. intros Hf. induction 1; [done|]. by apply (parse_mono m). Qed.
Lemma ParseMembers_le f f' l st r :
  ParseMembers f l st = Some r -> f <= f' -> ParseMembers f' l st = Some r.
Proof. intros Hf. induction 1; [done|]. by apply (parse_mono m). Qed.

(** * Decimal numbers *)

Local Open Scope Z_scope.

Lemma N_of_digit d : 0 <= d < 10 -> Z.of_N (N_of_ascii (Dec.digit d)) = 48 + d.
Proof. intros ?. unfold Dec.digit. rewrite N_ascii_embedding; lia. Qed.

Lemma is_digit_digit d : 0 <= d < 10 -> Dec.is_digit (Dec.digit d) = true.
Proof. intros ?. unfold Dec.is_digit. rewrite N_of_digit by done. lia. Qed.

Lemma read_digit d s a n :
  0 <= d < 10 -> Dec.read (String (Dec.digit d) s) a n = Dec.read s (10 * a + d) (S n).
Proof.
  intros ?. simpl. rewrite is_digit_digit by done. unfold Dec.digit_val.
  rewrite N_of_digit by done. do 2 f_equal. lia.
Qed.

Inductive all_digits : string -> Prop :=
| all_digits_nil : all_digits ""
| all_digits_cons c s : Dec.is_digit c = true -> all_digits s -> all_digits (String c s).

Lemma digits_acc_spec fuel z acc :
  0 <= z < 10 ^ Z.of_nat (S fuel) ->
  exists c k, 0 <= c < 10 /\
    (all_digits acc -> exists s, Dec.digits_acc (S fuel) z acc = String (Dec.digit c) s /\ all_digits s) /\
    (forall a n, Dec.read (Dec.digits_acc (S fuel) z acc) a n =
       Dec.read acc (a * 10 ^ Z.of_nat (S k) + z) (n + S k)%nat).
Proof.
  revert z acc. induction fuel as [|fuel IH]; intros z acc Hz.
  - exists (z mod 10), 0%nat. pose proof (Z.mod_pos_bound z 10). split; [lia|].
    assert (z / 10 = 0) as Hq by (apply Z.div_small; lia).
    assert (z mod 10 = z) as Hm by (apply Z.mod_small; lia).
    cbn [Dec.digits_acc]. rewrite Hq. change (0 =? 0) with true. cbn iota. split; [eauto|].
    intros a n. rewrite read_digit by lia. rewrite Hm. f_equal; lia.
  - rewrite Nat2Z.inj_succ, Z.pow_succ_r in Hz by lia.
    remember (S fuel) as f1 eqn:Ef. cbn [Dec.digits_acc].
    pose proof (Z.mod_pos_bound z 10). pose proof (Z.div_mod z 10).
    destruct (Z.eqb_spec (z / 10) 0) as [Hq|Hq].
    + exists (z mod 10), 0%nat. split; [lia|]. split; [eauto|].
      intros a n. rewrite read_digit by lia. f_equal; lia.
    + destruct (IH (z / 10) (String (Dec.digit (z mod 10)) acc)) as (c & k & Hc & Hd & Hr).
      { pose proof (Z.div_pos z 10). split; [lia|]. apply Z.div_lt_upper_bound; lia. }
      exists c, (S k). split; [lia|]. split.
      * intros Ha. apply Hd. constructor; [apply is_digit_digit; lia|done].
      * intros a n. rewrite Hr, read_digit by lia. f_equal; [|lia].
        rewrite !Nat2Z.inj_succ, !Z.pow_succ_r by lia. nia.
Qed.

Lemma of_nonneg_spec z : 0 <= z ->
  exists c s n, Dec.of_nonneg z = String (Dec.digit c) s /\ 0 <= c < 10 /\ all_digits s /\
    Dec.read (Dec.of_nonneg z) 0 0 = (z, S n, "").
Proof.
  intros Hz. unfold Dec.of_nonneg.
  destruct (digits_acc_spec (Z.to_nat (Z.log2 z)) z "") as (c & k & Hc & Hd & Hr).
  { split; [done|]. rewrite Nat2Z.inj_succ, Z2Nat.id by apply Z.log2_nonneg.
    destruct (decide (z = 0)) as [->|]; [done|].
    pose proof (Z.log2_spec z ltac:(lia)) as [_ Hlt].
    eapply Z.lt_le_trans; [exact Hlt|]. apply Z.pow_le_mono_l. lia. }
  destruct (Hd all_digits_nil) as (s & Hs & Has).
  exists c, s, k. split; [done|]. split; [done|]. split; [done|]. rewrite Hr. simpl. f_equal.
Qed.

(** A text that cannot continue a number token. *)
Definition stops (t : string) : Prop := number_token t = ("", true, t).

Lemma number_token_digits s t : all_digits s -> stops t -> number_token (s ++ t) = (s, true, t).
Proof. intros Hs Ht. induction Hs as [|c s Hc Hs IH]; [done|]. simpl. by rewrite Hc, IH. Qed.

Lemma number_token_app s i t :
  number_token s = (s, i, "") -> stops t -> number_token (s ++ t) = (s, i, t).
Proof.
  revert i. induction s as [|c s IH]; simpl; intros i Hs Ht.
  { injection Hs as <-. exact Ht. }
  destruct (number_token s) as [[s' i'] r'] eqn:E.
  assert (s' = s /\ r' = "") as [-> ->].
  { destruct (Dec.is_digit c); [by simplify_eq|].
    destruct (_ || _)%bool; by simplify_eq. }
  rewrite (IH i') by done.
  destruct (Dec.is_digit c); [by simplify_eq|].
  destruct (_ || _)%bool; by simplify_eq.
Qed.

Lemma scan_number_minus s :
  scan_number (String "-" s) = (let '(t, i, r) := number_token s in (String "-" t, i, r)).
Proof. reflexivity. Qed.

Lemma scan_number_other c s : c <> "-"%char -> scan_number (String c s) = number_token (String c s).
Proof. intros Hc. by destruct c as [[] [] [] [] [] [] [] []]. Qed.

Lemma is_digit_not_minus c : Dec.is_digit c = true -> c <> "-"%char.
Proof. by intros ? ->. Qed.

Lemma scan_number_app s i t :
  scan_number s = (s, i, "") -> s <> "" -> stops t -> scan_number (s ++ t) = (s, i, t).
Proof.
  intros Hs Hne Ht. destruct s as [|c s]; [done|].
  rewrite Str.app_cons.
  destruct (decide (c = "-"%char)) as [->|Hc].
  - rewrite scan_number_minus in *.
    destruct (number_token s) as [[s' i'] r'] eqn:E. simplify_eq.
    by rewrite (number_token_app _ _ _ E Ht).
  - rewrite scan_number_other in * by done.
    by rewrite <- (number_token_app (String c s) i t).
Qed.

Lemma to_string_scan z : scan_number (Dec.to_string z) = (Dec.to_string z, true, "").
Proof.
  assert (Hd : forall y, 0 <= y -> all_digits (Dec.of_nonneg y)).
  { intros y Hy. destruct (of_nonneg_spec y Hy) as (c & s & n & -> & Hc & Hs & _).
    constructor; [by apply is_digit_digit|done]. }
  unfold Dec.to_string. destruct (Z.ltb_spec z 0) as [Hz|Hz].
  - rewrite scan_number_minus, <- (Str.app_nil_r (Dec.of_nonneg (- z))) at 1.
    rewrite number_token_digits; [done|apply Hd; lia|done].
  - specialize (Hd z Hz). destruct Hd as [|c s Hc Hs]; [done|].
    rewrite scan_number_other by by apply is_digit_not_minus.
    rewrite <- (Str.app_nil_r (String c s)) at 1. apply number_token_digits; [by constructor|done].
Qed.

Lemma to_string_strtoll z : Word.is_i64 z -> strtoll (Dec.to_string z) = Some (z, "").
Proof.
  unfold Word.is_i64, Dec.to_string, strtoll. intros Hz. destruct (Z.ltb_spec z 0) as [Hn|Hn].
  - destruct (of_nonneg_spec (- z) ltac:(lia)) as (c & s & n & Heq & Hc & Hs & Hr).
    rewrite Hr. do 2 f_equal. lia.
  - destruct (of_nonneg_spec z ltac:(lia)) as (c & s & n & Heq & Hc & Hs & Hr).
    rewrite Heq in *. assert (Hd : Dec.is_digit (Dec.digit c) = true) by by apply is_digit_digit.
    revert Hd Hr. generalize (Dec.digit c). intros c' Hd Hr.
    transitivity (let '(v, n, r') := Dec.read (String c' s) 0 0 in
      match n with O => None
      | _ => Some (Z.max (- 2 ^ 63) (Z.min (2 ^ 63 - 1) v), r') end).
    { by destruct c' as [[] [] [] [] [] [] [] []]. }
    rewrite Hr. do 2 f_equal. lia.
Qed.
