(* ===== verification/JsonRoundTrip.v ===== *)
(** Printing and reading JSON: the reader always returns, and it inverts the
    serializer. *)

From stdpp Require Import base numbers list strings sorting.
From Stdlib Require Import ZArith Lia Ascii String.
From S2P Require Import Prelude Types Double Json JsonParser JsonProofs.

Import Parser.
Local Open Scope string_scope.
Local Open Scope Z_scope.

(** * Strings *)

Lemma string_body_quote c t :
  string_body (Json.quote_char c ++ t) =
    str_step (String c "") (Z.of_nat (String.length (Json.quote_char c))) (string_body t).
Proof. destruct c as [[] [] [] [] [] [] [] []]; reflexivity. Qed.

Lemma string_body_quoted s t :
  exists n, string_body (Json.quote_body s ++ String Json.dquote t) = StrOk s t n.
Proof.
  induction s as [|c s [n IH]]; [by exists 1|]. cbn [Json.quote_body].
  rewrite Str.app_assoc, string_body_quote, IH. by eexists.
Qed.

Lemma ParseString_quoted s t p d :
  exists p', ParseString (MkState (Json.quoted s ++ t) p "" d) = (Some s, MkState t p' "" d).
Proof.
  unfold Json.quoted. rewrite Str.app_cons, Str.app_assoc.
  destruct (string_body_quoted s t) as [n Hn].
  exists (p + 1 + n). unfold ParseString, Consume. cbn [rest strip_prefix].
  rewrite decide_True by done. cbn -[string_body]. rewrite Str.app_cons, Str.app_nil_l, Hn. done.
Qed.

(** * Printable values *)

(** A text the number scanner reads back as [v]. *)
Definition reads_number (s : string) (v : json) : Prop :=
  s <> "" /\ exists i, scan_number s = (s, i, "") /\ number_value s i = Some v.

(** Well-formed values: integers in range, keys in order, doubles satisfying
    [num], and at most [n] levels of nesting. *)
Inductive json_wf (num : double -> Prop) : nat -> json -> Prop :=
| wf_null n : json_wf num (S n) JNull
| wf_bool n b : json_wf num (S n) (JBool b)
| wf_integer n z : Word.is_i64 z -> json_wf num (S n) (JInteger z)
| wf_number n d : num d -> json_wf num (S n) (JNumber d)
| wf_string n s : json_wf num (S n) (JString s)
| wf_array n l : Forall (json_wf num n) l -> json_wf num (S n) (JArray l)
| wf_object n m :
    SMap.sorted m -> Forall (fun kv => json_wf num n kv.2) m -> json_wf num (S n) (JObject m).

(** A double whose 17 digits are not an integer text and read back. *)
Definition num_reads (d : double) : Prop := reads_number (Double.fmt_17g d) (JNumber d).

Definition printable : nat -> json -> Prop := json_wf num_reads.

Lemma reads_integer z : Word.is_i64 z -> reads_number (Dec.to_string z) (JInteger z).
Proof.
  intros Hz. split.
  - unfold Dec.to_string. destruct (z <? 0) eqn:E; [done|].
    destruct (of_nonneg_spec z ltac:(lia)) as (c & s & n & -> & _). done.
  - exists true. split; [apply to_string_scan|].
    unfold number_value. by rewrite to_string_strtoll.
Qed.

Definition number_start (c : ascii) : bool :=
  Dec.is_digit c || bool_decide (c = "."%char) || bool_decide (c = "e"%char)
  || bool_decide (c = "E"%char) || bool_decide (c = "+"%char) || bool_decide (c = "-"%char).

Lemma scan_number_start c s i r : scan_number (String c s) = (String c s, i, r) -> number_start c = true.
Proof.
  destruct (decide (c = "-"%char)) as [->|Hc]; [done|]. rewrite scan_number_other by done.
  simpl. unfold number_start. destruct (Dec.is_digit c); [done|].
  destruct (_ || _)%bool; done.
Qed.

(** * One value *)

Lemma SkipWhitespace_id c s p e d :
  is_space c = false -> SkipWhitespace (MkState (String c s) p e d) = MkState (String c s) p e d.
Proof.
  intros Hc. unfold SkipWhitespace. cbn [rest skip_spaces]. rewrite Hc.
  unfold move_to. cbn. by rewrite Z.add_0_r.
Qed.

(** The heads of printed values: none is a space or closes a bracket. *)
Definition value_start (c : ascii) : bool :=
  negb (is_space c) && negb (bool_decide (c = "]"%char)) && negb (bool_decide (c = "}"%char)).

Lemma number_start_value c : number_start c = true -> value_start c = true.
Proof. by destruct c as [[] [] [] [] [] [] [] []]. Qed.

Lemma number_start_dispatch c : number_start c = true ->
  is_space c = false /\ c <> "{"%char /\ c <> "["%char /\ c <> Json.dquote /\ c <> "t"%char /\
  c <> "f"%char /\ c <> "n"%char.
Proof. by destruct c as [[] [] [] [] [] [] [] []]. Qed.

Lemma value_start_space c : value_start c = true -> is_space c = false.
Proof. unfold value_start. by destruct (is_space c). Qed.

Lemma ParseNumber_reads s v t p d :
  reads_number s v -> stops t ->
  exists p', ParseNumber (MkState (s ++ t) p "" d) = (Some v, MkState t p' "" d).
Proof.
  intros (Hne & i & Hs & Hv) Ht. unfold ParseNumber. cbn [rest].
  rewrite (scan_number_app _ _ _ Hs Hne Ht), Hv.
  destruct s; [done|]. by eexists.
Qed.

Lemma ParseValue_enter f st :
  depth st < 256 ->
  ParseValue (S f) st =
    option_map leave (ParseValueInner (ParseMembers f []) (ParseItems f []) (enter st)).
Proof.
  intros Hd. cbn -[decide bool_decide kMaxDepth]. unfold kMaxDepth.
  by destruct (Z.ltb_spec 256 (depth st + 1)); [lia|].
Qed.

Lemma leave_eq v t p d :
  leave (Some v, MkState t p "" (d + 1)) = (Some v, MkState t p "" d).
Proof. unfold leave. cbn. by rewrite Z.add_simpl_r. Qed.

Lemma ParseValue_number f s v t p d :
  reads_number s v -> stops t -> d < 256 ->
  exists p', ParseValue (S f) (MkState (s ++ t) p "" d) = Some (Some v, MkState t p' "" d).
Proof.
  intros Hr Ht Hd. rewrite ParseValue_enter by done.
  destruct (ParseNumber_reads s v t p (d + 1) Hr Ht) as [p' Hp].
  exists p'. destruct Hr as (Hne & i & Hs & _). destruct s as [|c s]; [done|].
  destruct (number_start_dispatch c) as (Hsp & H1 & H2 & H3 & H4 & H5 & H6).
  { by eapply scan_number_start. }
  unfold ParseValueInner, enter. cbn [rest position error_ depth].
  rewrite Str.app_cons in *. rewrite SkipWhitespace_id by done. cbn [head rest].
  rewrite !decide_False by done. rewrite Hp. cbn [option_map]. by rewrite leave_eq.
Qed.

Lemma ParseValue_string f s t p d :
  d < 256 ->
  exists p', ParseValue (S f) (MkState (Json.quoted s ++ t) p "" d)
             = Some (Some (JString s), MkState t p' "" d).
Proof.
  intros Hd. rewrite ParseValue_enter by done.
  destruct (ParseString_quoted s t p (d + 1)) as [p' Hp]. exists p'.
  unfold ParseValueInner, enter. cbn [rest position error_ depth].
  unfold Json.quoted in *. rewrite Str.app_cons in *. rewrite SkipWhitespace_id by done.
  cbn [head rest]. rewrite !(decide_False (P := Json.dquote = _)), decide_True by done.
  unfold StringValue. rewrite Hp. cbn [option_map]. by rewrite leave_eq.
Qed.

Lemma ParseValue_literal f v t p d :
  v = JNull \/ v = JBool true \/ v = JBool false -> d < 256 ->
  exists p', ParseValue (S f) (MkState (Json.Serialize v ++ t) p "" d)
             = Some (Some v, MkState t p' "" d).
Proof.
  intros Hv Hd. rewrite ParseValue_enter by done.
  exists (p + 0 + Z.of_nat (String.length (Json.Serialize v))).
  rewrite <- leave_eq. destruct Hv as [->|[->| ->]]; reflexivity.
Qed.

(** * Arrays and objects *)

(** What the serializer writes after the first item or member. *)
Fixpoint items_tail (l : list json) : string :=
  match l with [] => "" | x :: l' => "," ++ Json.Serialize x ++ items_tail l' end.

Definition member (kv : string * json) : string :=
  Json.quoted kv.1 ++ ":" ++ Json.Serialize kv.2.

Fixpoint members_tail (m : list (string * json)) : string :=
  match m with [] => "" | kv :: m' => "," ++ member kv ++ members_tail m' end.

Lemma Serialize_array x l :
  Json.Serialize (JArray (x :: l)) = "[" ++ Json.Serialize x ++ items_tail l ++ "]".
Proof.
  cbn [Json.Serialize]. rewrite Str.app_nil_l, Str.app_assoc. do 3 f_equal.
  induction l as [|y l IH]; [done|]. cbn [items_tail]. by rewrite <- IH.
Qed.

Lemma Serialize_object kv m :
  Json.Serialize (JObject (kv :: m)) = "{" ++ member kv ++ members_tail m ++ "}".
Proof.
  destruct kv as [k x]. unfold member. cbn [Json.Serialize fst snd].
  rewrite Str.app_nil_l, !Str.app_assoc. do 5 f_equal.
  induction m as [|[k' y] m IH]; [done|]. cbn [members_tail]. unfold member. cbn [fst snd].
  by rewrite <- IH, !Str.app_assoc.
Qed.

Lemma Serialize_start n v : printable n v ->
  exists c s, Json.Serialize v = String c s /\ value_start c = true.
Proof.
  destruct 1 as [n|n b|n z Hz|n d Hd|n s|n l Hl|n m Hs Hm]; try by eexists _, _.
  - by destruct b; eexists _, _.
  - destruct (reads_integer z Hz) as (Hne & i & Hs & _). simpl.
    destruct (Dec.to_string z) as [|c s]; [done|]. exists c, s. split; [done|].
    by eapply number_start_value, scan_number_start.
  - destruct Hd as (Hne & i & Hs & _). simpl.
    destruct (Double.fmt_17g d) as [|c s]; [done|]. exists c, s. split; [done|].
    by eapply number_start_value, scan_number_start.
Qed.

(** One branch on the byte at the head of a concrete state. *)
Ltac step_char :=
  rewrite SkipWhitespace_id by done; cbn [head rest];
  repeat (first [rewrite decide_True by done | rewrite decide_False by done]);
  unfold next, move_to; cbn [rest position error_ depth].

Definition inverted (d : Z) (v : json) : Prop :=
  forall p t, stops t ->
  exists f p', ParseValue f (MkState (Json.Serialize v ++ t) p "" d)
               = Some (Some v, MkState t p' "" d).

Lemma stops_tail l c t : (c = "]"%char \/ c = "}"%char) -> stops (items_tail l ++ String c t).
Proof. destruct l; [by intros [->| ->]|done]. Qed.

Lemma stops_members_tail m c t :
  (c = "]"%char \/ c = "}"%char) -> stops (members_tail m ++ String c t).
Proof. destruct m; [by intros [->| ->]|done]. Qed.

Lemma ParseItems_inverted d x l acc p t :
  inverted d x -> Forall (inverted d) l ->
  exists f p',
    ParseItems f acc (MkState (Json.Serialize x ++ items_tail l ++ String "]" t) p "" d)
    = Some (Some (JArray (reverse acc ++ x :: l)%list), MkState t p' "" d).
Proof.
  revert x acc p. induction l as [|y l IH]; intros x acc p Hx Hl.
  - destruct (Hx p (String "]" t)) as (f & p1 & Hf); [done|].
    exists (S f), (p1 + 1). cbn [ParseItems items_tail]. rewrite Str.app_nil_l, Hf.
    step_char. by rewrite reverse_cons.
  - apply Forall_cons in Hl as [Hy Hl].
    destruct (Hx p (items_tail (y :: l) ++ String "]" t)) as (f & p1 & Hf);
      [by apply stops_tail; left|].
    destruct (IH y (x :: acc) (p1 + 1) Hy Hl) as (f' & p' & Hf').
    exists (S (f `max` f')), p'. cbn [ParseItems].
    rewrite (ParseValue_le _ (f `max` f') _ _ Hf) by lia.
    cbn [items_tail]. rewrite !Str.app_assoc, Str.app_cons, Str.app_nil_l.
    step_char. rewrite (ParseItems_le _ (f `max` f') _ _ _ Hf') by lia.
    by rewrite reverse_cons, <- app_assoc.
Qed.

Definition below (m : list (string * json)) (kv : string * json) : Prop :=
  Forall (fun kv' => key_ltb kv'.1 kv.1 = true) m.

Lemma emplace_snoc m kv : below m kv -> SMap.emplace kv.1 kv.2 m = ((m ++ [kv])%list, true).
Proof.
  intros Hb. destruct kv as [k v]. unfold SMap.emplace. cbn [fst snd].
  destruct (SMap.find k m) as [v'|] eqn:E; [|by rewrite SMap.set_snoc].
  apply SMap.find_In in E. unfold below in Hb. rewrite List.Forall_forall in Hb.
  specialize (Hb _ E). cbn in Hb. by rewrite key_ltb_irrefl in Hb.
Qed.

Lemma sorted_below acc kv (m : list (string * json)) : SMap.sorted (acc ++ kv :: m)%list -> below acc kv.
Proof. apply SMap.sorted_app_below. Qed.

Lemma ParseMembers_head acc k s p d :
  exists p', forall f, ParseMembers (S f) acc (MkState (Json.quoted k ++ String ":" s) p "" d) =
    match ParseValue f (MkState s p' "" d) with
    | None => None
    | Some (None, st) => Some (None, st)
    | Some (Some value, st) =>
        match SMap.emplace k value acc with
        | (_, false) => Some (Fail "duplicate key" st)
        | (members, true) =>
            let st := SkipWhitespace st in
            match head st with
            | None => Some (Fail "unterminated object" st)
            | Some c =>
                if decide (c = ","%char) then ParseMembers f members (next st)
                else if decide (c = "}"%char) then Some (Some (JObject members), next st)
                else Some (Fail "expected ',' or '}'" st)
            end
        end
    end.
Proof.
  destruct (ParseString_quoted k (String ":" s) p d) as [p1 Hp]. exists (p1 + 1). intros f.
  unfold Json.quoted in *. rewrite Str.app_cons in *.
  cbn [ParseMembers]. rewrite SkipWhitespace_id by done.
  rewrite bool_decide_true by done. cbn [negb]. rewrite Hp, SkipWhitespace_id by done.
  unfold Consume. cbn [rest strip_prefix]. rewrite decide_True by done.
  unfold move_to. cbn [position error_ depth]. done.
Qed.

Lemma ParseMembers_inverted d kv m acc p t :
  inverted d kv.2 -> Forall (fun kv => inverted d kv.2) m ->
  SMap.sorted (acc ++ kv :: m)%list ->
  exists f p',
    ParseMembers f acc (MkState (member kv ++ members_tail m ++ String "}" t) p "" d)
    = Some (Some (JObject (acc ++ kv :: m)%list), MkState t p' "" d).
Proof.
  revert kv acc p. induction m as [|kv' m IH]; intros kv acc p Hx Hm Hs.
  all: assert (Hb : below acc kv) by by eapply sorted_below.
  all: unfold member; rewrite !Str.app_assoc, Str.app_cons, Str.app_nil_l.
  all: edestruct (ParseMembers_head acc kv.1) as [p1 Hh].
  - destruct (Hx p1 (String "}" t)) as (f & p2 & Hf); [done|].
    exists (S f), (p2 + 1). rewrite Hh. cbn [members_tail]. rewrite Str.app_nil_l, Hf.
    rewrite (emplace_snoc _ _ Hb). cbv zeta. step_char. done.
  - apply Forall_cons in Hm as [Hy Hm].
    destruct (Hx p1 (members_tail (kv' :: m) ++ String "}" t)) as (f & p2 & Hf);
      [by apply stops_members_tail; right|].
    destruct (IH kv' (acc ++ [kv])%list (p2 + 1) Hy Hm) as (f' & p' & Hf');
      [by rewrite <- app_assoc|].
    exists (S (f `max` f')), p'. rewrite Hh.
    rewrite (ParseValue_le _ (f `max` f') _ _ Hf) by lia.
    rewrite (emplace_snoc _ _ Hb). cbv zeta. cbn [members_tail].
    rewrite !Str.app_assoc, Str.app_cons, Str.app_nil_l. step_char.
    rewrite (ParseMembers_le _ (f `max` f') _ _ _ Hf') by lia.
    by rewrite <- app_assoc.
Qed.

Lemma ParseArray_inverted d l :
  Forall (inverted (d + 1)) l ->
  (forall x, In x l -> exists c s, Json.Serialize x = String c s /\ value_start c = true) ->
  d < 256 -> inverted d (JArray l).
Proof.
  intros Hl Hst Hd p t Ht. destruct l as [|x l].
  { exists 1%nat, (p + 0 + 1 + 0 + 1). rewrite ParseValue_enter, <- leave_eq by done. reflexivity. }
  rewrite Serialize_array, !Str.app_assoc, Str.app_cons, Str.app_nil_l, Str.app_cons, Str.app_nil_l.
  apply Forall_cons in Hl as [Hx Hl].
  destruct (ParseItems_inverted (d + 1) x l [] (p + 1) t Hx Hl) as (f & p' & Hf).
  exists (S f), p'. rewrite ParseValue_enter, <- leave_eq by done.
  unfold ParseValueInner, enter. cbn [rest position error_ depth]. step_char.
  unfold ParseArray, Consume. cbn [rest strip_prefix]. rewrite decide_True by done.
  unfold move_to. cbn [rest position error_ depth].
  destruct (Hst x) as (c & s & Hs & Hc); [by left|]. rewrite Hs, Str.app_cons in *.
  rewrite SkipWhitespace_id by by apply value_start_space. cbn [head rest].
  rewrite decide_False by (intros [= ->]; done).
  change (Z.of_nat (String.length "[")) with 1. by rewrite Hf.
Qed.

Lemma ParseObject_inverted d m :
  Forall (fun kv => inverted (d + 1) kv.2) m -> SMap.sorted m ->
  d < 256 -> inverted d (JObject m).
Proof.
  intros Hm Hs Hd p t Ht. destruct m as [|kv m].
  { exists 1%nat, (p + 0 + 1 + 0 + 1). rewrite ParseValue_enter, <- leave_eq by done. reflexivity. }
  rewrite Serialize_object, !Str.app_assoc, Str.app_cons, Str.app_nil_l, Str.app_cons, Str.app_nil_l.
  apply Forall_cons in Hm as [Hx Hm].
  destruct (ParseMembers_inverted (d + 1) kv m [] (p + 1) t Hx Hm Hs) as (f & p' & Hf).
  exists (S f), p'. rewrite ParseValue_enter, <- leave_eq by done.
  unfold ParseValueInner, enter. cbn [rest position error_ depth]. step_char.
  unfold ParseObject, Consume. cbn [rest strip_prefix]. rewrite decide_True by done.
  unfold move_to. cbn [rest position error_ depth].
  unfold member, Json.quoted in *. rewrite !Str.app_cons in *.
  rewrite SkipWhitespace_id by done. cbn [head rest]. rewrite decide_False by done.
  change (Z.of_nat (String.length "{")) with 1. by rewrite Hf.
Qed.

Lemma printable_inverted v : forall n d, printable n v -> d + Z.of_nat n <= 256 -> inverted d v.
Proof.
  induction v as [| b | z | x | s | l IH | m IH] using json_ind'; intros n d Hv Hd;
    inversion Hv as [| |? ? Hz|? ? Hr| |? ? Hl|? ? Hs Hl]; subst; rewrite Nat2Z.inj_succ in Hd.
  - intros p t Ht. exists 1%nat. apply ParseValue_literal; [by left|lia].
  - intros p t Ht. exists 1%nat. apply ParseValue_literal; [|lia]. destruct b; auto.
  - intros p t Ht. exists 1%nat. apply ParseValue_number; [by apply reads_integer|done|lia].
  - intros p t Ht. exists 1%nat. apply ParseValue_number; [done|done|lia].
  - intros p t Ht. exists 1%nat. apply ParseValue_string. lia.
  - apply ParseArray_inverted; [|intros x Hx; eapply Serialize_start|lia].
    + rewrite List.Forall_forall in *. intros x Hx. eapply IH; [done|by apply Hl|lia].
    + rewrite List.Forall_forall in Hl. by apply Hl.
  - apply ParseObject_inverted; [|done|lia].
    rewrite List.Forall_forall in *. intros kv Hx. eapply (IH kv Hx); [by apply Hl|lia].
Qed.

(** * What the reader returns *)

Lemma SkipWhitespace_depth st : depth (SkipWhitespace st) = depth st.
Proof. unfold SkipWhitespace. by destruct (skip_spaces _). Qed.
Lemma next_depth st : depth (next st) = depth st.
Proof. unfold next. by destruct (rest st). Qed.
Lemma Consume_depth lit st u st' : Consume lit st = (Some u, st') -> depth st' = depth st.
Proof. unfold Consume. destruct (strip_prefix _ _); intros; by simplify_eq/=. Qed.
Lemma ParseString_depth st s st' : ParseString st = (Some s, st') -> depth st' = depth st.
Proof.
  unfold ParseString. destruct (Consume _ st) as [[u|] st1] eqn:E; [|done].
  apply Consume_depth in E. destruct (string_body _); intros; by simplify_eq/=.
Qed.
Lemma strtoll_range s z r : strtoll s = Some (z, r) -> Word.is_i64 z.
Proof.
  unfold strtoll, Word.is_i64. destruct (match s with String "-" _ => _ | _ => _ end) as [neg r0].
  destruct (Dec.read r0 0 0) as [[v n] r']. destruct n; [done|]. intros [= <- _]. lia.
Qed.

Definition any_num (d : double) : Prop := True.

(** A value parsed at depth [e], which has [256 - e] levels below it. *)
Definition inner_ok (st : state) (r : option (result json)) : Prop :=
  forall v st', r = Some (Some v, st') ->
  depth st' = depth st /\ json_wf any_num (S (Z.to_nat (256 - depth st))) v.

Definition value_ok (st : state) (r : option (result json)) : Prop :=
  forall v st', r = Some (Some v, st') ->
  depth st' = depth st /\ json_wf any_num (Z.to_nat (256 - depth st)) v.

Lemma inner_ok_weaken st st1 r : depth st1 = depth st -> inner_ok st1 r -> inner_ok st r.
Proof. unfold inner_ok. by intros ->. Qed.

Lemma StringValue_ok st : inner_ok st (Some (StringValue st)).
Proof.
  intros v st'. unfold StringValue.
  destruct (ParseString st) as [[s|] st1] eqn:E; [|done].
  intros [= <- <-]. split; [by eapply ParseString_depth|constructor].
Qed.

Lemma ParseNumber_ok st : inner_ok st (Some (ParseNumber st)).
Proof.
  intros v st'. unfold ParseNumber. destruct (scan_number _) as [[token i] r].
  destruct (Str.empty token); [done|]. unfold number_value.
  destruct (if i then _ else _) as [[z [|c rr]]|] eqn:E.
  - intros [= <- <-]. split; [done|]. constructor.
    destruct i; [|done]. by eapply strtoll_range.
  - destruct (Double.strtod token) as [[x [|? ?]]|]; intros [= <- <-]; by repeat constructor.
  - destruct (Double.strtod token) as [[x [|? ?]]|]; intros [= <- <-]; by repeat constructor.
Qed.

Lemma Literal_ok lit v st :
  json_wf any_num (S (Z.to_nat (256 - depth st))) v -> inner_ok st (Some (Literal lit v st)).
Proof.
  intros Hv w st'. unfold Literal. destruct (Consume lit st) as [[u|] st1] eqn:E; [|done].
  intros [= <- <-]. split; [by eapply Consume_depth|done].
Qed.

Lemma bracket_ok op cl v loop st :
  json_wf any_num (S (Z.to_nat (256 - depth st))) v ->
  (forall st1, depth st1 = depth st -> inner_ok st1 (loop st1)) ->
  inner_ok st
    (match Consume (String op "") st with
     | (None, st) => Some (None, st)
     | (Some _, st) =>
         let st := SkipWhitespace st in
         if decide (head st = Some cl) then Some (Some v, next st) else loop st
     end).
Proof.
  intros Hv Hl. destruct (Consume _ st) as [[u|] st1] eqn:E; [|done].
  apply Consume_depth in E. cbv zeta. case_decide.
  - intros w st' [= <- <-]. by rewrite next_depth, SkipWhitespace_depth.
  - apply (inner_ok_weaken _ (SkipWhitespace st1)); [by rewrite SkipWhitespace_depth|].
    apply Hl. by rewrite SkipWhitespace_depth.
Qed.

Lemma ParseValueInner_ok obj arr st :
  (forall st1, inner_ok st1 (obj st1)) -> (forall st1, inner_ok st1 (arr st1)) ->
  inner_ok st (ParseValueInner obj arr st).
Proof.
  intros Ho Ha. apply (inner_ok_weaken _ (SkipWhitespace st)); [apply SkipWhitespace_depth|].
  unfold ParseValueInner. destruct (head _); [|done]. repeat case_decide.
  - apply bracket_ok; [repeat constructor|auto].
  - apply bracket_ok; [repeat constructor|auto].
  - apply StringValue_ok.
  - apply Literal_ok. constructor.
  - apply Literal_ok. constructor.
  - apply Literal_ok. constructor.
  - apply ParseNumber_ok.
Qed.

Lemma emplace_wf n (k : string) v m m' :
  SMap.emplace k v m = (m', true) -> SMap.sorted m -> json_wf any_num n v ->
  Forall (fun kv => json_wf any_num n kv.2) m ->
  SMap.sorted m' /\ Forall (fun kv => json_wf any_num n kv.2) m'.
Proof.
  intros He Hs Hv Hm. pose proof (SMap.emplace_sorted k v m Hs) as Hs'. rewrite He in Hs'.
  split; [done|]. unfold SMap.emplace in He. destruct (SMap.find k m); [done|].
  injection He as <-. clear Hs Hs'.
  induction Hm as [|[k' v'] m Hx Hm IH]; simpl; [by repeat constructor|].
  case_decide; [by constructor|]. destruct (key_ltb k k'); by repeat constructor.
Qed.

Lemma parse_wf fuel :
  (forall st, value_ok st (ParseValue fuel st)) /\
  (forall items st, Forall (json_wf any_num (Z.to_nat (256 - depth st))) items ->
     inner_ok st (ParseItems fuel items st)) /\
  (forall ms st, SMap.sorted ms ->
     Forall (fun kv => json_wf any_num (Z.to_nat (256 - depth st)) kv.2) ms ->
     inner_ok st (ParseMembers fuel ms st)).
Proof.
  induction fuel as [|f (IHv & IHi & IHm)]; [done|]. split_and!.
  - intros st v st'. cbn -[decide bool_decide kMaxDepth]. unfold kMaxDepth.
    destruct (Z.ltb_spec 256 (depth st + 1)); [done|].
    destruct (ParseValueInner _ _ _) as [[o st1]|] eqn:E; [|done].
    destruct o as [w|]; [|done]. intros [= <- <-].
    apply ParseValueInner_ok in E as [Hd Hw].
    + cbn in *. rewrite Hd. split; [lia|].
      by replace (Z.to_nat (256 - depth st)) with (S (Z.to_nat (256 - (depth st + 1)))) by lia.
    + intros st2. apply IHm; [constructor|done].
    + intros st2. by apply IHi.
  - intros items st Hitems v st'. cbn [ParseItems].
    destruct (ParseValue f st) as [[[w|] st1]|] eqn:E; try done.
    apply IHv in E as [Hd Hw]. pose proof (SkipWhitespace_depth st1) as Hs.
    destruct (head _); [|done]. case_decide; [|case_decide; [|done]].
    + intros Hr. apply IHi in Hr as [Hd' Hv]; rewrite next_depth, Hs, Hd in *; [done|].
      by constructor.
    + intros [= <- <-]. rewrite next_depth, Hs, Hd. split; [done|].
      constructor. apply Forall_reverse. by constructor.
  - intros ms st Hs Hms v st'. cbn -[decide bool_decide SMap.emplace Json.dquote].
    destruct (negb _); [done|].
    destruct (ParseString _) as [[key|] st1] eqn:Ek; [|done]. apply ParseString_depth in Ek.
    destruct (Consume _ _) as [[u|] st2] eqn:Ec; [|done]. apply Consume_depth in Ec.
    rewrite SkipWhitespace_depth in *.
    destruct (ParseValue f st2) as [[[w|] st3]|] eqn:E; try done.
    apply IHv in E as [Hd Hw]. rewrite Ec, Ek in *.
    destruct (SMap.emplace key w ms) as [ms' []] eqn:Ee; [|done].
    apply (emplace_wf _ _ _ _ _ Ee Hs Hw) in Hms as [Hs' Hms'].
    pose proof (SkipWhitespace_depth st3) as Hsk.
    destruct (head _); [|done]. case_decide; [|case_decide; [|done]].
    + intros Hr. apply IHm in Hr as [Hd' Hv]; rewrite ?next_depth, ?Hsk, ?Hd in *; done.
    + intros [= <- <-]. rewrite next_depth, Hsk, Hd. split; [done|]. by constructor.
Qed.

(** * The reader as a whole *)

Lemma Run_total text : Run text <> None.
Proof.
  destruct (parse_progress (fuel_for text)) as [Hv _].
  destruct (Hv (start text)) as (o & st & Heq & _).
  { unfold fuel_for, len, start. simpl. lia. }
  unfold Run. rewrite Heq. destruct o; [|done]. by destruct (Str.empty _).
Qed.

(** C40: The reader always returns: for every text, [Run] gives a value or an
    error within its fuel, and that is what [ParseJson] returns. *)
Theorem ParseJson_total text : Run text = Some (ParseJson text).
Proof. unfold ParseJson. pose proof (Run_total text). by destruct (Run text). Qed.

(** Every value the reader returns is well formed: its integers are 64-bit
    integers, its object keys are strictly increasing (so distinct), and it
    has at most 256 levels. *)
Theorem ParseJson_wf text v : ParseJson text = inl v -> json_wf any_num 256 v.
Proof.
  unfold ParseJson, Run. destruct (ParseValue _ _) as [[[w|] st]|] eqn:E; try done.
  apply parse_wf in E as [_ Hw]. destruct (Str.empty _); [|done]. by intros [= <-].
Qed.

Lemma ParseJson_wf_witness :
  json_wf any_num 256 (JObject [("a", JArray [JInteger 7; JNull]); ("b", JInteger (2 ^ 63 - 1))]).
Proof.
  apply (ParseJson_wf
    ("{" ++ q "b" ++ ":9223372036854775808," ++ q "a" ++ ": [7,null ] }")).
  vm_compute. reflexivity.
Defined.

Lemma parse_serialized v : printable 256 v -> ParseJson (Json.Serialize v) = inl v.
Proof.
  intros Hv. pose proof (Run_total (Json.Serialize v)) as Ht.
  destruct (printable_inverted v 256 0 Hv ltac:(done) 0 "") as (f & p & Hf); [done|].
  rewrite Str.app_nil_r in Hf. unfold ParseJson, Run in *.
  destruct (ParseValue (fuel_for _) _) as [r|] eqn:E; [|done].
  pose proof (ParseValue_le _ (f `max` fuel_for (Json.Serialize v)) _ _ Hf ltac:(lia)) as H1.
  pose proof (ParseValue_le _ (f `max` fuel_for (Json.Serialize v)) _ _ E ltac:(lia)) as H2.
  unfold start in *. rewrite H1 in H2. injection H2 as <-. reflexivity.
Qed.

(** C36: Reading inverts writing: the text [Serialize] produces for a value with
    64-bit integers, ordered keys, at most 256 levels and doubles that survive
    their 17 digits is read back as the same value, byte-exact strings with
    every control character, quote and backslash included. *)
Theorem ParseJson_Serialize v : printable 256 v -> ParseJson (Json.Serialize v) = inl v.
Proof. exact (parse_serialized v). Qed.

Definition sample_value : json :=
  JObject [("a", JArray [JInteger (- 2 ^ 63); JNumber (Double.of_ratio false 5 2); JNull]);
           ("b", JString (String "001" (String Json.dquote (String Json.backslash "x"))))].

Lemma ParseJson_Serialize_witness : ParseJson (Json.Serialize sample_value) = inl sample_value.
Proof.
  apply ParseJson_Serialize. unfold sample_value, printable.
  constructor; [repeat constructor|]. constructor; [|constructor; [constructor|constructor]].
  constructor. constructor; [by constructor|]. constructor; [|by repeat constructor].
  constructor. split; [vm_compute; discriminate|]. exists false. split; vm_compute; reflexivity.
Defined.

(** ** Departures *)

(** An integer text beyond 64 bits is read as the nearest 64-bit integer, not
    as a number ([strtoll] saturates and [errno] is not looked at). *)
Example integer_overflow_saturates :
  ParseJson "9223372036854775808" = inl (JInteger 9223372036854775807).
Proof. vm_compute. reflexivity. Qed.

(** The hexadecimal escape is read with [strtoul], which also takes spaces
    and signs. *)
Example unicode_escape_sign :
  ParseJson (String Json.dquote (String Json.backslash ("u  +A" ++ String Json.dquote "")))
  = inl (JString (String "010" "")).
Proof. vm_compute. reflexivity. Qed.

(** Equal values with different texts. *)
Example equal_values_different_text :
  Json.eqb (JInteger (2 ^ 53 + 1)) (JNumber (Double.of_Z (2 ^ 53))) = true /\
  Json.Serialize (JInteger (2 ^ 53 + 1)) <> Json.Serialize (JNumber (Double.of_Z (2 ^ 53))).
Proof. split; vm_compute; [reflexivity|discriminate]. Qed.
