(* ===== verification/GraphSpec.v ===== *)
(** Graph specifications (include/ge/cpp/graph_spec.h, src/graph_spec.cpp): the
    enumerations and their texts, stable ids, port references, the node and
    edge tables with their editing operations, the builder and the mutation
    patch. *)

From stdpp Require Import base numbers list strings sorting.
From Stdlib Require Import ZArith Lia Ascii String.
From S2P Require Import Prelude Types Double Json.

Local Open Scope string_scope.
Local Open Scope Z_scope.

Inductive ExecutorKind : Type := kAuto | kExecCpu | kExecGpu.
Inductive DropPolicy : Type := kBlock | kDropOldest | kDropNewest.
Inductive SyncPolicy : Type := kAligned | kLatest | kAny.
Inductive RemovePolicy : Type := kDrain | kFast.
Inductive RemoveMode : Type := kDisconnect | kBypass.

#[export] Instance ExecutorKind_eq_dec : EqDecision ExecutorKind.
Proof. solve_decision. Defined.
#[export] Instance DropPolicy_eq_dec : EqDecision DropPolicy.
Proof. solve_decision. Defined.
#[export] Instance SyncPolicy_eq_dec : EqDecision SyncPolicy.
Proof. solve_decision. Defined.
#[export] Instance RemovePolicy_eq_dec : EqDecision RemovePolicy.
Proof. solve_decision. Defined.
#[export] Instance RemoveMode_eq_dec : EqDecision RemoveMode.
Proof. solve_decision. Defined.

(** ** Texts of the enumerations *)

Definition ExecutorKind_ToString (k : ExecutorKind) : string :=
  match k with kAuto => "auto" | kExecCpu => "cpu" | kExecGpu => "gpu" end.
Definition DropPolicy_ToString (p : DropPolicy) : string :=
  match p with kBlock => "block" | kDropOldest => "drop_oldest" | kDropNewest => "drop_newest" end.
Definition SyncPolicy_ToString (p : SyncPolicy) : string :=
  match p with kAligned => "aligned" | kLatest => "latest" | kAny => "any" end.
Definition RemovePolicy_ToString (p : RemovePolicy) : string :=
  if decide (p = kFast) then "fast" else "drain".
Definition RemoveMode_ToString (m : RemoveMode) : string :=
  if decide (m = kBypass) then "bypass" else "disconnect".

Definition ParseExecutorKind (s : string) : option ExecutorKind :=
  if decide (s = "auto") then Some kAuto
  else if decide (s = "cpu") then Some kExecCpu
  else if decide (s = "gpu") then Some kExecGpu else None.
Definition ParseDropPolicy (s : string) : option DropPolicy :=
  if decide (s = "block") then Some kBlock
  else if decide (s = "drop_oldest") then Some kDropOldest
  else if decide (s = "drop_newest") then Some kDropNewest else None.
Definition ParseSyncPolicy (s : string) : option SyncPolicy :=
  if decide (s = "aligned") then Some kAligned
  else if decide (s = "latest") then Some kLatest
  else if decide (s = "any") then Some kAny else None.
Definition ParseRemovePolicy (s : string) : option RemovePolicy :=
  if decide (s = "drain") then Some kDrain
  else if decide (s = "fast") then Some kFast else None.
Definition ParseRemoveMode (s : string) : option RemoveMode :=
  if decide (s = "disconnect") then Some kDisconnect
  else if decide (s = "bypass") then Some kBypass else None.

(** ** Stable ids and port references *)

Definition alpha (c : ascii) : bool :=
  let n := Z.of_N (N_of_ascii c) in
  ((65 <=? n) && (n <=? 90)) || ((97 <=? n) && (n <=? 122)).

Definition id_char (c : ascii) : bool :=
  alpha c || Dec.is_digit c || bool_decide (c = "_"%char) || bool_decide (c = "."%char)
  || bool_decide (c = "-"%char).

Fixpoint all_chars (p : ascii -> bool) (s : string) : bool :=
  match s with EmptyString => true | String c s' => p c && all_chars p s' end.

(** [^[A-Za-z][A-Za-z0-9_.-]{0,127}$] *)
Definition IsValidStableId (id : string) : bool :=
  match id with
  | EmptyString => false
  | String c rest =>
      (Z.of_nat (String.length id) <=? 128) && alpha c && all_chars id_char rest
  end.

Record PortRef : Type := MkPortRef { node_id : string; port : string }.

#[export] Instance PortRef_eq_dec : EqDecision PortRef.
Proof. solve_decision. Defined.

(** [operator<=>] of [PortRef] *)
#[export] Instance PortRef_key_lt : KeyLt PortRef :=
  fun a b => key_ltb (node_id a, port a) (node_id b, port b).
#[export] Instance PortRef_key_order : KeyOrder PortRef.
Proof.
  split.
  - intros a. apply (key_ltb_irrefl (node_id a, port a)).
  - intros a b c. apply (key_ltb_trans (node_id a, port a)).
  - intros [a1 a2] [b1 b2] H1 H2.
    pose proof (key_ltb_total (a1, a2) (b1, b2) H1 H2). congruence.
Qed.

Definition PortRef_ToString (r : PortRef) : string := node_id r ++ "." ++ port r.

(** [PortRef::Parse]: splits at the first dot. *)
Definition PortRef_Parse (text : string) : option PortRef :=
  match split_first "." text with
  | None => None
  | Some (n, p) =>
      if Str.empty n || Str.empty p then None
      else if negb (IsValidStableId n) || Str.empty p then None
      else Some (MkPortRef n p)
  end.

(** ** Nodes, edges and the graph *)

Record ExecutorSpec : Type := MkExecutorSpec { ex_kind : ExecutorKind; ex_device_id : option Z }.

#[export] Instance ExecutorSpec_eq_dec : EqDecision ExecutorSpec.
Proof. solve_decision. Defined.

Record NodeSpec : Type := MkNodeSpec {
  ns_id : string;
  ns_op : OperatorKey;
  ns_executor : ExecutorSpec;
  ns_parallelism : Z;
  ns_options : json;
  ns_labels : list (string * string);
}.

Record QueueSpec : Type := MkQueueSpec {
  q_capacity : Z;
  q_policy : DropPolicy;
  q_max_packet_bytes : option Z;
}.

#[export] Instance QueueSpec_eq_dec : EqDecision QueueSpec.
Proof. solve_decision. Defined.

Record EdgeSpec : Type := MkEdgeSpec {
  es_id : string;
  es_from : PortRef;
  es_to : PortRef;
  es_queue : QueueSpec;
  es_sync : option SyncPolicy;
  es_feedback : bool;
}.

#[export] Instance EdgeSpec_eq_dec : EqDecision EdgeSpec.
Proof. solve_decision. Defined.

Record GraphOptions : Type := MkGraphOptions {
  go_default_device_id : option Z;
  go_allow_default_operator_version : bool;
  go_extra : json;
}.

Record GraphSpec : Type := MkGraphSpec {
  name_ : string;
  description_ : string;
  options_ : GraphOptions;
  allow_unknown_fields_ : bool;
  nodes_ : list NodeSpec;
  edges_ : list EdgeSpec;
}.

Definition default_executor : ExecutorSpec := MkExecutorSpec kAuto None.
Definition default_queue : QueueSpec := MkQueueSpec 64 kBlock None.
Definition default_options : GraphOptions := MkGraphOptions None false (JObject []).

Module GraphOps.

(** [GraphSpec(std::string name)] *)
Definition make (name : string) : GraphSpec := MkGraphSpec name "" default_options false [] [].

Definition with_nodes (ns : list NodeSpec) (g : GraphSpec) : GraphSpec :=
  MkGraphSpec (name_ g) (description_ g) (options_ g) (allow_unknown_fields_ g) ns (edges_ g).
Definition with_edges (es : list EdgeSpec) (g : GraphSpec) : GraphSpec :=
  MkGraphSpec (name_ g) (description_ g) (options_ g) (allow_unknown_fields_ g) (nodes_ g) es.
Definition with_id (i : string) (e : EdgeSpec) : EdgeSpec :=
  MkEdgeSpec i (es_from e) (es_to e) (es_queue e) (es_sync e) (es_feedback e).

Definition FindNode (id : string) (g : GraphSpec) : option NodeSpec :=
  List.find (fun n => bool_decide (ns_id n = id)) (nodes_ g).
Definition FindEdge (id : string) (g : GraphSpec) : option EdgeSpec :=
  List.find (fun e => bool_decide (es_id e = id)) (edges_ g).

Definition DeriveEdgeId (from to : PortRef) : string :=
  node_id from ++ "." ++ port from ++ "->" ++ node_id to ++ "." ++ port to.

Definition AddNode (node : NodeSpec) (g : GraphSpec) : Status * GraphSpec :=
  if negb (IsValidStableId (ns_id node)) then
    (StatusOps.GraphInvalid ("invalid node id '" ++ ns_id node ++ "'"), g)
  else if has (FindNode (ns_id node) g) then
    (StatusOps.AlreadyExists ("duplicate node id '" ++ ns_id node ++ "'"), g)
  else if Str.empty (type_name (ns_op node)) then
    (StatusOps.GraphInvalid ("node '" ++ ns_id node ++ "' has empty operator"), g)
  else if ns_parallelism node =? 0 then
    (StatusOps.GraphInvalid ("node '" ++ ns_id node ++ "' parallelism must be >= 1"), g)
  else if bool_decide (ex_kind (ns_executor node) <> kExecGpu)
          && has (ex_device_id (ns_executor node)) then
    (StatusOps.GraphInvalid
       ("node '" ++ ns_id node ++ "' device_id only allowed for gpu executor"), g)
  else (StatusOps.Ok, with_nodes (nodes_ g ++ [node])%list g).

(** An empty edge id is derived from the ends. *)
Definition resolve_id (e : EdgeSpec) : EdgeSpec :=
  if Str.empty (es_id e) then with_id (DeriveEdgeId (es_from e) (es_to e)) e else e.

Definition AddEdge (edge : EdgeSpec) (g : GraphSpec) : Status * GraphSpec :=
  let edge := resolve_id edge in
  if negb (IsValidStableId (es_id edge))
     && negb (bool_decide (es_id edge = DeriveEdgeId (es_from edge) (es_to edge))) then
    (StatusOps.GraphInvalid ("invalid edge id '" ++ es_id edge ++ "'"), g)
  else if has (FindEdge (es_id edge) g) then
    (StatusOps.AlreadyExists ("duplicate edge id '" ++ es_id edge ++ "'"), g)
  else match FindNode (node_id (es_from edge)) g, FindNode (node_id (es_to edge)) g with
  | None, _ =>
      (StatusOps.GraphInvalid
         ("edge '" ++ es_id edge ++ "' from unknown node '" ++ node_id (es_from edge) ++ "'"), g)
  | Some _, None =>
      (StatusOps.GraphInvalid
         ("edge '" ++ es_id edge ++ "' to unknown node '" ++ node_id (es_to edge) ++ "'"), g)
  | Some _, Some _ =>
      if Str.empty (port (es_from edge)) || Str.empty (port (es_to edge)) then
        (StatusOps.GraphInvalid ("edge '" ++ es_id edge ++ "' has empty port"), g)
      else if q_capacity (es_queue edge) =? 0 then
        (StatusOps.GraphInvalid ("edge '" ++ es_id edge ++ "' capacity must be >= 1"), g)
      else if bool_decide (q_max_packet_bytes (es_queue edge) = Some 0) then
        (StatusOps.GraphInvalid ("edge '" ++ es_id edge ++ "' max_packet_bytes must be > 0"), g)
      else if existsb (fun e => bool_decide (es_from e = es_from edge)
                                && bool_decide (es_to e = es_to edge)) (edges_ g) then
        (StatusOps.AlreadyExists
           ("edge " ++ PortRef_ToString (es_from edge) ++ "->"
            ++ PortRef_ToString (es_to edge) ++ " already exists"), g)
      else (StatusOps.Ok, with_edges (edges_ g ++ [edge])%list g)
  end.

(** [std::find_if] followed by [erase]: the first match only. *)
Fixpoint erase_first {A} (p : A -> bool) (l : list A) : list A :=
  match l with [] => [] | x :: l' => if p x then l' else x :: erase_first p l' end.

Definition touches (id : string) (e : EdgeSpec) : bool :=
  bool_decide (node_id (es_from e) = id) || bool_decide (node_id (es_to e) = id).

Definition RemoveNode (id : string) (g : GraphSpec) : Status * GraphSpec :=
  match FindNode id g with
  | None => (StatusOps.NotFound ("node '" ++ id ++ "' not found"), g)
  | Some _ =>
      (StatusOps.Ok,
       with_edges (List.filter (fun e => negb (touches id e)) (edges_ g))
         (with_nodes (erase_first (fun n => bool_decide (ns_id n = id)) (nodes_ g)) g))
  end.

Definition RemoveEdge (id : string) (g : GraphSpec) : Status * GraphSpec :=
  match FindEdge id g with
  | None => (StatusOps.NotFound ("edge '" ++ id ++ "' not found"), g)
  | Some _ =>
      (StatusOps.Ok, with_edges (erase_first (fun e => bool_decide (es_id e = id)) (edges_ g)) g)
  end.

Definition EdgesFrom (id : string) (g : GraphSpec) : list EdgeSpec :=
  List.filter (fun e => bool_decide (node_id (es_from e) = id)) (edges_ g).
Definition EdgesTo (id : string) (g : GraphSpec) : list EdgeSpec :=
  List.filter (fun e => bool_decide (node_id (es_to e) = id)) (edges_ g).
Definition EdgesFromPort (p : PortRef) (g : GraphSpec) : list EdgeSpec :=
  List.filter (fun e => bool_decide (es_from e = p)) (edges_ g).
Definition EdgesToPort (p : PortRef) (g : GraphSpec) : list EdgeSpec :=
  List.filter (fun e => bool_decide (es_to e = p)) (edges_ g).

End GraphOps.

(** ** Mutation patches *)

Record ChainPorts : Type := MkChainPorts {
  chain_input : option string;
  chain_output : option string;
}.

Record PortMapping : Type := MkPortMapping {
  pm_inputs : list (string * string);
  pm_outputs : list (string * string);
}.

(** [MutationAction]: the variant's alternatives in order, each with the
    fields of its struct. *)
Inductive MutationAction : Type :=
| AddNodeAction (node : NodeSpec)
| RemoveNodeAction (node : string) (mode : RemoveMode) (remove_policy : option RemovePolicy)
| InsertChainAction (edge : string) (nodes : list NodeSpec) (ports : ChainPorts)
| RemoveChainAction (nodes : list string) (mode : RemoveMode) (remove_policy : option RemovePolicy)
| ReplaceNodeAction (node : string) (replacement_op : OperatorKey) (replacement_options : json)
    (port_mapping : option PortMapping) (remove_policy : option RemovePolicy)
| RemoveBranchAction (entry_edge : string) (nodes : list string)
    (remove_policy : option RemovePolicy) (entry_edges : list string)
| AddEdgeAction (edge : EdgeSpec)
| RemoveEdgeAction (edge : string)
| SetNodeOptionsAction (node : string) (parameters : json).

Definition ActionTypeName (a : MutationAction) : string :=
  match a with
  | AddNodeAction _ => "add_node"
  | RemoveNodeAction _ _ _ => "remove_node"
  | InsertChainAction _ _ _ => "insert_chain"
  | RemoveChainAction _ _ _ => "remove_chain"
  | ReplaceNodeAction _ _ _ _ _ => "replace_node"
  | RemoveBranchAction _ _ _ _ => "remove_branch"
  | AddEdgeAction _ => "add_edge"
  | RemoveEdgeAction _ => "remove_edge"
  | SetNodeOptionsAction _ _ => "set_node_options"
  end.

(** [RemoveBranchAction::EntryEdges] *)
Definition EntryEdges (entry_edge : string) (entry_edges : list string) : list string :=
  match entry_edges with [] => [entry_edge] | _ => entry_edges end.

Record MutationPatch : Type := MkMutationPatch {
  mp_base_topology_version : option Z;
  mp_remove_policy : RemovePolicy;
  mp_actions : list MutationAction;
  mp_allow_unknown_fields : bool;
}.

Record EdgeOptions : Type := MkEdgeOptions {
  eo_id : option string;
  eo_queue : QueueSpec;
  eo_sync : option SyncPolicy;
  eo_feedback : bool;
}.

(** The [EdgeSpec] that [Connect] and [Mutation::AddEdge] fill in. *)
Definition edge_of_options (from to : PortRef) (o : EdgeOptions) : EdgeSpec :=
  MkEdgeSpec (default "" (eo_id o)) from to (eo_queue o) (eo_sync o) (eo_feedback o).

(** [class Mutation]: a patch under construction. *)
Module Mutation.

Definition make : MutationPatch := MkMutationPatch None kDrain [] false.

Definition SetBaseVersion (v : Z) (p : MutationPatch) : MutationPatch :=
  MkMutationPatch (Some v) (mp_remove_policy p) (mp_actions p) (mp_allow_unknown_fields p).
Definition SetRemovePolicy (r : RemovePolicy) (p : MutationPatch) : MutationPatch :=
  MkMutationPatch (mp_base_topology_version p) r (mp_actions p) (mp_allow_unknown_fields p).
Definition push (a : MutationAction) (p : MutationPatch) : MutationPatch :=
  MkMutationPatch (mp_base_topology_version p) (mp_remove_policy p)
    (mp_actions p ++ [a])%list (mp_allow_unknown_fields p).

Definition AddNode (n : NodeSpec) : MutationPatch -> MutationPatch := push (AddNodeAction n).
Definition InsertChain (edge : string) (chain : list NodeSpec) (ports : ChainPorts)
    : MutationPatch -> MutationPatch := push (InsertChainAction edge chain ports).
Definition RemoveNode (node : string) (r : option RemovePolicy)
    : MutationPatch -> MutationPatch := push (RemoveNodeAction node kDisconnect r).
Definition RemoveChain (chain : list string) (bypass : bool) (r : option RemovePolicy)
    : MutationPatch -> MutationPatch :=
  push (RemoveChainAction chain (if bypass then kBypass else kDisconnect) r).
Definition ReplaceNode (old : string) (op : OperatorKey) (options : json)
    (mapping : option PortMapping) (r : option RemovePolicy) : MutationPatch -> MutationPatch :=
  push (ReplaceNodeAction old op options mapping r).
Definition RemoveBranch1 (entry_edge : string) (selection : list string)
    (r : option RemovePolicy) : MutationPatch -> MutationPatch :=
  push (RemoveBranchAction entry_edge selection r []).
Definition RemoveBranch (entry_edges : list string) (selection : list string)
    (r : option RemovePolicy) : MutationPatch -> MutationPatch :=
  push (RemoveBranchAction (hd "" entry_edges) selection r entry_edges).
Definition AddEdge (from to : PortRef) (o : EdgeOptions) : MutationPatch -> MutationPatch :=
  push (AddEdgeAction (edge_of_options from to o)).
Definition RemoveEdge (edge : string) : MutationPatch -> MutationPatch :=
  push (RemoveEdgeAction edge).
Definition SetNodeOptions (node : string) (parameters : json) : MutationPatch -> MutationPatch :=
  push (SetNodeOptionsAction node parameters).

End Mutation.

(** ** The builder *)

Record GraphBuilder : Type := MkGraphBuilder { gb_spec : GraphSpec; gb_errors : list Status }.

Module Builder.

Definition make (name : string) : GraphBuilder := MkGraphBuilder (GraphOps.make name) [].

(** A failing edit is remembered and leaves the graph as the edit left it. *)
Definition record (r : Status * GraphSpec) (b : GraphBuilder) : GraphBuilder :=
  MkGraphBuilder r.2
    (if StatusOps.ok r.1 then gb_errors b else gb_errors b ++ [r.1])%list.

Definition AddNode (n : NodeSpec) (b : GraphBuilder) : GraphBuilder :=
  record (GraphOps.AddNode n (gb_spec b)) b.
Definition AddOperator (key : OperatorKey) (id : string) (options : json) : GraphBuilder -> GraphBuilder :=
  AddNode (MkNodeSpec id key default_executor 1 options []).
Definition Connect (from to : PortRef) (o : EdgeOptions) (b : GraphBuilder) : GraphBuilder :=
  record (GraphOps.AddEdge (edge_of_options from to o) (gb_spec b)) b.
Definition SetDescription (d : string) (b : GraphBuilder) : GraphBuilder :=
  let g := gb_spec b in
  MkGraphBuilder (MkGraphSpec (name_ g) d (options_ g) (allow_unknown_fields_ g) (nodes_ g) (edges_ g))
    (gb_errors b).
Definition SetOptions (o : GraphOptions) (b : GraphBuilder) : GraphBuilder :=
  let g := gb_spec b in
  MkGraphBuilder (MkGraphSpec (name_ g) (description_ g) o (allow_unknown_fields_ g) (nodes_ g) (edges_ g))
    (gb_errors b).

Definition Build (b : GraphBuilder) : Result GraphSpec :=
  match gb_errors b with
  | e :: _ => ResultOps.of_status e
  | [] =>
      match nodes_ (gb_spec b) with
      | [] => ResultOps.of_status
                (StatusOps.GraphInvalid ("graph '" ++ name_ (gb_spec b) ++ "' has no nodes"))
      | _ => Value (gb_spec b)
      end
  end.

End Builder.
