(* ===== verification/GraphSpecProofs.v ===== *)
(** The graph tables: the invariant every edit preserves, atomicity of failing
    edits, inverses, and the port-reference text. *)

From stdpp Require Import base numbers list strings sorting sets.
From Stdlib Require Import ZArith Lia Ascii String.
From S2P Require Import Prelude Types Double Json GraphSpec.

Local Open Scope list_scope.
Local Open Scope Z_scope.

Import GraphOps.

(** ** The invariant *)

Definition wf_node (n : NodeSpec) : Prop :=
  IsValidStableId (ns_id n) = true /\ type_name (ns_op n) <> EmptyString /\ ns_parallelism n <> 0 /\
  (ex_device_id (ns_executor n) <> None -> ex_kind (ns_executor n) = kExecGpu).

Definition wf_edge (ns : list NodeSpec) (e : EdgeSpec) : Prop :=
  (IsValidStableId (es_id e) = true \/ es_id e = DeriveEdgeId (es_from e) (es_to e)) /\
  node_id (es_from e) ∈ ns_id <$> ns /\ node_id (es_to e) ∈ ns_id <$> ns /\
  port (es_from e) <> EmptyString /\ port (es_to e) <> EmptyString /\
  q_capacity (es_queue e) <> 0 /\ q_max_packet_bytes (es_queue e) <> Some 0.

Definition ends (e : EdgeSpec) : PortRef * PortRef := (es_from e, es_to e).

Record wf (g : GraphSpec) : Prop := {
  wf_node_ids : NoDup (ns_id <$> nodes_ g);
  wf_nodes : Forall wf_node (nodes_ g);
  wf_edge_ids : NoDup (es_id <$> edges_ g);
  wf_edge_ends : NoDup (ends <$> edges_ g);
  wf_edges : Forall (wf_edge (nodes_ g)) (edges_ g);
}.

(** ** Lookups *)

Section tables.
Context {A : Type} (key : A -> string).
Implicit Types (l : list A).

Local Abbreviation lookup i l := (List.find (fun x => bool_decide (key x = i)) l).

Lemma lookup_None i l : lookup i l = None <-> i ∉ key <$> l.
Proof.
  induction l as [|x l IH]; simpl; [set_solver|]. case_bool_decide; set_solver.
Qed.

Lemma lookup_Some i l x : lookup i l = Some x -> x ∈ l /\ key x = i.
Proof.
  intros [Hin Hk]%List.find_some. rewrite list_elem_of_In.
  by rewrite bool_decide_eq_true in Hk.
Qed.

Lemma lookup_snoc_new x l : key x ∉ key <$> l -> lookup (key x) (l ++ [x]) = Some x.
Proof.
  induction l as [|y l IH]; simpl; [by rewrite bool_decide_true|].
  intros ?. rewrite bool_decide_false by set_solver. apply IH. set_solver.
Qed.

Lemma erase_first_none (p : A -> bool) l : Forall (fun x => p x = false) l -> erase_first p l = l.
Proof. induction 1 as [|x l Hx _ IH]; simpl; [done|]. by rewrite Hx, IH. Qed.

(** With distinct keys the first match is the only one. *)
Lemma erase_first_filter i l :
  NoDup (key <$> l) ->
  erase_first (fun x => bool_decide (key x = i)) l
  = List.filter (fun x => negb (bool_decide (key x = i))) l.
Proof.
  induction l as [|x l IH]; simpl; [done|]. intros [Hx Hl]%NoDup_cons.
  case_bool_decide as E; simpl; [|by rewrite IH]. subst i.
  clear IH Hl. induction l as [|y l IH]; simpl; [done|].
  rewrite bool_decide_false by set_solver. simpl. rewrite <- IH; [done|set_solver].
Qed.

End tables.

Section lists.
Context {A : Type}.
Implicit Types (l : list A).

Lemma elem_of_filter (p : A -> bool) l x : x ∈ List.filter p l <-> x ∈ l /\ p x = true.
Proof. rewrite !list_elem_of_In. apply filter_In. Qed.

Lemma NoDup_filter_fmap {B} (f : A -> B) (p : A -> bool) l :
  NoDup (f <$> l) -> NoDup (f <$> List.filter p l).
Proof.
  induction l as [|x l IH]; simpl; [done|]. intros [Hx Hl]%NoDup_cons.
  destruct (p x); simpl; [|by apply IH]. apply NoDup_cons. split; [|by apply IH].
  intros (y & Hfy & Hy)%list_elem_of_fmap. apply elem_of_filter in Hy as [Hy _]. apply Hx.
  rewrite Hfy. by apply list_elem_of_fmap_2.
Qed.

Lemma filter_filter (p q : A -> bool) l : List.filter p (List.filter q l) = List.filter (fun x => q x && p x) l.
Proof. induction l as [|x l IH]; simpl; [done|]. destruct (q x); simpl; [destruct (p x); by rewrite IH|done]. Qed.
Lemma filter_true (p : A -> bool) l : (forall x, p x = true) -> List.filter p l = l.
Proof. intros Hp. induction l as [|x l IH]; simpl; [done|]. by rewrite Hp, IH. Qed.

(** Distinct keys identify their entries. *)
Lemma NoDup_fmap_key {B} (f : A -> B) l x y : NoDup (f <$> l) -> x ∈ l -> y ∈ l -> f x = f y -> x = y.
Proof.
  intros Hl Hx Hy E. apply list_elem_of_lookup in Hx as [i Hi], Hy as [j Hj].
  assert (Hij : i = j) by (eapply NoDup_lookup; [exact Hl|rewrite list_lookup_fmap, Hi; done|rewrite list_lookup_fmap, Hj; simpl; by rewrite E]).
  congruence.
Qed.

Lemma NoDup_snoc_fmap {B} (f : A -> B) l x :
  NoDup (f <$> l) -> f x ∉ f <$> l -> NoDup (f <$> (l ++ [x])).
Proof.
  intros Hl Hx. rewrite fmap_app. apply NoDup_app. split; [done|]. simpl.
  split; [set_solver|apply NoDup_singleton].
Qed.

Lemma Forall_filter_mono (P Q : A -> Prop) (p : A -> bool) l :
  Forall P l -> (forall x, p x = true -> P x -> Q x) -> Forall Q (List.filter p l).
Proof.
  intros HP HQ. induction HP as [|x l Hx _ IH]; simpl; [done|].
  destruct (p x) eqn:E; [constructor; auto|done].
Qed.

End lists.

(** ** Edits *)

Lemma wf_make name : wf (make name).
Proof. split; simpl; auto using NoDup_nil_2. Qed.

Lemma wf_edge_mono ns ns' e :
  (forall i, i ∈ ns_id <$> ns -> i ∈ ns_id <$> ns') -> wf_edge ns e -> wf_edge ns' e.
Proof. unfold wf_edge. naive_solver. Qed.

(** What a successful [AddNode] checked. *)
Lemma AddNode_cases n g :
  (StatusOps.ok (AddNode n g).1 = false /\ (AddNode n g).2 = g) \/
  (AddNode n g = (StatusOps.Ok, with_nodes (nodes_ g ++ [n]) g) /\ wf_node n /\
   ns_id n ∉ ns_id <$> nodes_ g).
Proof.
  unfold AddNode. destruct (IsValidStableId (ns_id n)) eqn:Ev; [|by left]. simpl.
  destruct (FindNode (ns_id n) g) eqn:Ef; [by left|]. apply lookup_None in Ef. simpl.
  destruct (Str.empty (type_name (ns_op n))) eqn:Et; [by left|].
  destruct (Z.eqb_spec (ns_parallelism n) 0); [by left|].
  destruct (_ && _) eqn:Ed; [by left|]. right. split; [done|]. split; [|done].
  split; [done|]. split; [by destruct (type_name (ns_op n))|]. split; [done|].
  destruct (ex_device_id (ns_executor n)); [|done]. intros _.
  destruct (decide (ex_kind (ns_executor n) = kExecGpu)); [done|].
  by rewrite bool_decide_true in Ed.
Qed.

Lemma AddEdge_cases e g :
  (StatusOps.ok (AddEdge e g).1 = false /\ (AddEdge e g).2 = g) \/
  (AddEdge e g = (StatusOps.Ok, with_edges (edges_ g ++ [resolve_id e]) g) /\
   wf_edge (nodes_ g) (resolve_id e) /\
   (es_id (resolve_id e) ∉ (es_id <$> edges_ g)) /\ (ends (resolve_id e) ∉ (ends <$> edges_ g))).
Proof.
  unfold AddEdge. generalize (resolve_id e). intros e'. cbv zeta.
  destruct (_ && _) eqn:Ev; [by left|].
  destruct (FindEdge (es_id e') g) eqn:Ef; [by left|]. apply lookup_None in Ef. simpl.
  destruct (FindNode (node_id (es_from e')) g) as [nf|] eqn:Enf; [|by left].
  destruct (FindNode (node_id (es_to e')) g) as [nt|] eqn:Ent; [|by left].
  destruct (_ || _) eqn:Ep; [by left|].
  destruct (Z.eqb_spec (q_capacity (es_queue e')) 0); [by left|].
  destruct (bool_decide (q_max_packet_bytes _ = _)) eqn:Em; [by left|].
  apply bool_decide_eq_false in Em.
  destruct (existsb _ _) eqn:Ex; [by left|]. right.
  split; [done|]. apply lookup_Some in Enf as [Hnf Ehf], Ent as [Hnt Eht].
  split; [|split; [done|]].
  - apply orb_false_elim in Ep as [Ep1 Ep2]. split_and!; try done.
    + apply andb_false_iff in Ev as [Ev|Ev]; [left|right].
      * by destruct (IsValidStableId (es_id e')).
      * apply negb_false_iff in Ev. by apply bool_decide_eq_true in Ev.
    + rewrite <- Ehf. by apply list_elem_of_fmap_2.
    + rewrite <- Eht. by apply list_elem_of_fmap_2.
    + by destruct (port (es_from e')).
    + by destruct (port (es_to e')).
  - intros (x & Hx & Hin)%list_elem_of_fmap. apply not_true_iff_false in Ex. apply Ex.
    apply existsb_exists. exists x. rewrite <- list_elem_of_In. split; [done|].
    unfold ends in Hx. injection Hx as <- <-. by rewrite !bool_decide_true.
Qed.

(** The editing operations of the class as data. *)
Inductive edit : Type :=
| EAddNode (n : NodeSpec)
| EAddEdge (e : EdgeSpec)
| ERemoveNode (id : string)
| ERemoveEdge (id : string).

Definition run_edit (e : edit) (g : GraphSpec) : Status * GraphSpec :=
  match e with
  | EAddNode n => AddNode n g
  | EAddEdge e => AddEdge e g
  | ERemoveNode id => RemoveNode id g
  | ERemoveEdge id => RemoveEdge id g
  end.

(** Statuses are ignored, as a caller may do: a failing edit changes nothing. *)
Definition run_edits (es : list edit) (g : GraphSpec) : GraphSpec :=
  fold_left (fun g e => (run_edit e g).2) es g.

Lemma AddNode_wf n g : wf g -> wf (AddNode n g).2.
Proof.
  intros [Hi Hn Hei Hee He]. destruct (AddNode_cases n g) as [[_ ->]|(-> & Hwn & Hnew)]; [by split|].
  split; simpl; try done.
  - by apply NoDup_snoc_fmap.
  - apply Forall_app. split; [done|]. by constructor.
  - eapply Forall_impl; [exact He|]. intros e. apply wf_edge_mono. intros i.
    rewrite fmap_app, elem_of_app. by left.
Qed.

Lemma AddEdge_wf e g : wf g -> wf (AddEdge e g).2.
Proof.
  intros [Hi Hn Hei Hee He].
  destruct (AddEdge_cases e g) as [[_ ->]|(-> & Hwe & Hid & Hends)]; [by split|].
  split; simpl; try done; try by apply NoDup_snoc_fmap.
  apply Forall_app. split; [done|]. by constructor.
Qed.

Lemma RemoveNode_wf id g : wf g -> wf (RemoveNode id g).2.
Proof.
  intros [Hi Hn Hei Hee He]. unfold RemoveNode. destruct (FindNode id g); [|by split].
  split; simpl; rewrite ?(erase_first_filter ns_id) by done; try by apply NoDup_filter_fmap.
  - eapply Forall_filter_mono; [exact Hn|done].
  - eapply Forall_filter_mono; [exact He|]. intros e Ht (Hv & Hf & Hto & Hrest).
    unfold touches in Ht. apply negb_true_iff, orb_false_elim in Ht as [Hnf Hnt].
    rewrite !bool_decide_eq_false in *.
    split; [done|]. split_and!; try by apply Hrest.
    + apply list_elem_of_fmap in Hf as (n' & Hn1 & Hn2). rewrite Hn1 in *.
      apply list_elem_of_fmap_2, elem_of_filter. by rewrite bool_decide_false.
    + apply list_elem_of_fmap in Hto as (n' & Hn1 & Hn2). rewrite Hn1 in *.
      apply list_elem_of_fmap_2, elem_of_filter. by rewrite bool_decide_false.
Qed.

Lemma RemoveEdge_wf id g : wf g -> wf (RemoveEdge id g).2.
Proof.
  intros [Hi Hn Hei Hee He]. unfold RemoveEdge. destruct (FindEdge id g); [|by split].
  split; simpl; rewrite ?(erase_first_filter es_id) by done; try done;
    try by apply NoDup_filter_fmap.
  by eapply Forall_filter_mono.
Qed.

#[export] Hint Resolve wf_make AddNode_wf AddEdge_wf RemoveNode_wf RemoveEdge_wf : ge.

Lemma run_edits_wf es g : wf g -> wf (run_edits es g).
Proof.
  revert g. induction es as [|e es IH]; intros g Hg; simpl; [done|].
  apply IH. destruct e; simpl; auto with ge.
Qed.

(** Whatever sequence of [AddNode], [AddEdge], [RemoveNode] and [RemoveEdge]
    calls is made on a new graph, the tables stay consistent: node ids are
    valid and distinct, edge ids are distinct and valid or derived, no two
    edges join the same ports, every edge's two nodes exist, ports are named
    and capacities are not zero. *)
Theorem graph_edits_wf name es : wf (run_edits es (make name)).
Proof. apply run_edits_wf, wf_make. Qed.

(** Edits are atomic: an edit that reports an error leaves the graph exactly
    as it was. *)
Theorem graph_edit_error_unchanged e g :
  StatusOps.ok (run_edit e g).1 = false -> (run_edit e g).2 = g.
Proof.
  destruct e as [n|e|id|id]; simpl.
  - destruct (AddNode_cases n g) as [[_ ?]|(-> & _)]; [done|done].
  - destruct (AddEdge_cases e g) as [[_ ?]|(-> & _)]; [done|done].
  - unfold RemoveNode. by destruct (FindNode id g).
  - unfold RemoveEdge. by destruct (FindEdge id g).
Qed.

Definition sample_node (i : string) : NodeSpec :=
  MkNodeSpec i (MkOperatorKey "ge.Pass" "1.0.0") default_executor 1 (JObject []) [].
Definition sample_graph : GraphSpec :=
  run_edits [EAddNode (sample_node "a"); EAddNode (sample_node "b");
             EAddEdge (MkEdgeSpec "" (MkPortRef "a" "out") (MkPortRef "b" "in")
                         default_queue None false)] (make "g").

Lemma graph_edit_error_unchanged_witness :
  (run_edit (EAddNode (sample_node "a")) sample_graph).2 = sample_graph.
Proof. apply graph_edit_error_unchanged. vm_compute. reflexivity. Defined.

Lemma filter_id {A} (p : A -> bool) l : Forall (fun x => p x = true) l -> List.filter p l = l.
Proof. induction 1 as [|x l Hx _ IH]; simpl; [done|]. by rewrite Hx, IH. Qed.

Lemma filter_snoc_fresh {A} (key : A -> string) l x :
  key x ∉ key <$> l ->
  List.filter (fun y => negb (bool_decide (key y = key x))) (l ++ [x]) = l.
Proof.
  intros Hx. rewrite List.filter_app. simpl. rewrite bool_decide_true by done. simpl.
  rewrite app_nil_r. apply filter_id. rewrite Forall_forall. intros y Hy.
  rewrite bool_decide_false; [done|]. intros Heq. apply Hx. rewrite <- Heq.
  by apply list_elem_of_fmap_2.
Qed.

(** Removing a node that was just added restores the graph: on a consistent
    graph no other node or edge is touched. *)
Theorem RemoveNode_AddNode n g :
  wf g -> StatusOps.ok (AddNode n g).1 = true ->
  RemoveNode (ns_id n) (AddNode n g).2 = (StatusOps.Ok, g).
Proof.
  intros Hg Hok. pose proof (AddNode_wf n g Hg) as Hg'.
  destruct (AddNode_cases n g) as [[Hf _]|(Heq & Hn & Hnew)]; [congruence|].
  rewrite Heq in *. cbn [snd] in *. unfold RemoveNode, FindNode.
  cbn [nodes_ with_nodes]. rewrite (lookup_snoc_new ns_id) by done. f_equal.
  rewrite (erase_first_filter ns_id) by apply Hg'. rewrite (filter_snoc_fresh ns_id) by done.
  rewrite filter_id; [by destruct g|].
  apply (Forall_impl _ _ _ (wf_edges g Hg)). intros e (_ & Hfrom & Hto & _). unfold touches.
  rewrite !bool_decide_false; [done| |]; intros Heq'; apply Hnew; congruence.
Qed.

Lemma RemoveNode_AddNode_witness :
  RemoveNode "c" (AddNode (sample_node "c") sample_graph).2 = (StatusOps.Ok, sample_graph).
Proof.
  apply (RemoveNode_AddNode (sample_node "c")); [apply run_edits_wf, wf_make|vm_compute; reflexivity].
Defined.

(** Removing an edge that was just added, by the id it was given or derived,
    restores the graph. *)
Theorem RemoveEdge_AddEdge e g :
  wf g -> StatusOps.ok (AddEdge e g).1 = true ->
  RemoveEdge (es_id (resolve_id e)) (AddEdge e g).2 = (StatusOps.Ok, g).
Proof.
  intros Hg Hok. pose proof (AddEdge_wf e g Hg) as Hg'.
  destruct (AddEdge_cases e g) as [[Hf _]|(Heq & He & Hnew & Hends)]; [congruence|].
  rewrite Heq in *. cbn [snd] in *. unfold RemoveEdge, FindEdge.
  cbn [edges_ with_edges]. rewrite (lookup_snoc_new es_id) by done. f_equal.
  rewrite (erase_first_filter es_id) by apply Hg'. rewrite (filter_snoc_fresh es_id) by done.
  by destruct g.
Qed.

Lemma RemoveEdge_AddEdge_witness :
  let e := MkEdgeSpec "" (MkPortRef "a" "out") (MkPortRef "b" "in2") default_queue None true in
  RemoveEdge "a.out->b.in2" (AddEdge e sample_graph).2 = (StatusOps.Ok, sample_graph).
Proof.
  intros e. apply (RemoveEdge_AddEdge e); [apply run_edits_wf, wf_make|vm_compute; reflexivity].
Defined.

(** ** The builder *)

Inductive build_step : Type :=
| BAddNode (n : NodeSpec)
| BConnect (from to : PortRef) (o : EdgeOptions)
| BSetDescription (d : string)
| BSetOptions (o : GraphOptions).

Definition run_build_step (s : build_step) : GraphBuilder -> GraphBuilder :=
  match s with
  | BAddNode n => Builder.AddNode n
  | BConnect from to o => Builder.Connect from to o
  | BSetDescription d => Builder.SetDescription d
  | BSetOptions o => Builder.SetOptions o
  end.

Definition run_build (name : string) (l : list build_step) : GraphBuilder :=
  fold_left (fun b s => run_build_step s b) l (Builder.make name).

Lemma run_build_step_wf s b : wf (gb_spec b) -> wf (gb_spec (run_build_step s b)).
Proof. destruct s; simpl; auto with ge; intros [? ? ? ? ?]; by split. Qed.

(** A graph that [GraphBuilder::Build] returns is consistent and has a node,
    whatever calls built it; and it returns one only when no call failed. *)
Theorem Build_consistent name l g :
  Builder.Build (run_build name l) = Value g ->
  wf g /\ nodes_ g <> [] /\ gb_errors (run_build name l) = [].
Proof.
  assert (Hwf : forall b, wf (gb_spec b) -> wf (gb_spec (fold_left (fun b s => run_build_step s b) l b))).
  { induction l as [|s l IH]; simpl; [done|]. eauto using run_build_step_wf. }
  specialize (Hwf (Builder.make name) (wf_make name)). unfold Builder.Build, ResultOps.of_status.
  fold (run_build name l) in Hwf. destruct (gb_errors _); [|by destruct (StatusOps.ok _)].
  destruct (nodes_ _) eqn:En; [done|]. intros [= <-]. by rewrite En.
Qed.

Lemma Build_consistent_witness :
  let g := MkGraphSpec "g" "" default_options false [sample_node "a"] [] in
  wf g /\ nodes_ g <> [] /\ gb_errors (run_build "g" [BAddNode (sample_node "a")]) = [].
Proof. apply Build_consistent. vm_compute. reflexivity. Defined.

(** ** Port references *)

(** Port references round trip exactly on node ids without a dot: [Parse]
    returns [r] for a text when, and only when, the text is [ToString r], the
    node id is a valid stable id without a dot, and the port is not empty. *)
Theorem PortRef_Parse_iff text r :
  PortRef_Parse text = Some r <->
  text = PortRef_ToString r /\ IsValidStableId (node_id r) = true /\
  split_first "." (node_id r) = None /\ port r <> EmptyString.
Proof.
  unfold PortRef_Parse, PortRef_ToString. split.
  - destruct (split_first _ text) as [[n p]|] eqn:E; [|done].
    apply split_first_Some in E as [-> E].
    destruct (Str.empty n) eqn:En; [done|]. destruct (Str.empty p) eqn:Ep; [done|].
    simpl. destruct (IsValidStableId n) eqn:Ev; [|done]. intros [= <-]. simpl.
    split_and!; try done. by intros ->.
  - destruct r as [n p]. cbn [node_id port]. intros (-> & Hv & Hs & Hp).
    rewrite Str.app_cons, Str.app_nil_l, split_first_app by done.
    destruct p as [|c p]; [done|]. rewrite Hv. by destruct n.
Qed.

(** A node id with a dot is valid, but a reference to it reads back as a port
    of another node. *)
Example PortRef_dotted_id :
  IsValidStableId "a.b" = true /\
  PortRef_Parse (PortRef_ToString (MkPortRef "a.b" "out")) = Some (MkPortRef "a" "b.out").
Proof. by split; vm_compute. Qed.
