(* ===== verification/CapabilityTypes.v ===== *)
(** Capability descriptors and connection contracts: the data of
    include/ge/cpp/capability.h. *)

From stdpp Require Import base numbers list strings sorting.
From Stdlib Require Import ZArith Lia Ascii String SpecFloat.
From S2P Require Import Prelude Types Double Json GraphSpec.

Local Open Scope string_scope.
Local Open Scope Z_scope.

Inductive PortDirection : Type := kInput | kOutput.
Inductive PortCardinality : Type := kSingle | kMulti.
Inductive MemoryKind : Type := kHost | kPinned | kCudaDevice | kDmaBuf.
Inductive DeviceKind : Type := kDevCpu | kDevGpu.

#[export] Instance PortDirection_eq_dec : EqDecision PortDirection.
Proof. solve_decision. Defined.
#[export] Instance PortCardinality_eq_dec : EqDecision PortCardinality.
Proof. solve_decision. Defined.
#[export] Instance MemoryKind_eq_dec : EqDecision MemoryKind.
Proof. solve_decision. Defined.
#[export] Instance DeviceKind_eq_dec : EqDecision DeviceKind.
Proof. solve_decision. Defined.
#[export] Instance double_eq_dec : EqDecision double.
Proof. unfold double. solve_decision. Defined.

(** [Range<T>] *)
Record Range (T : Type) : Type := MkRange { rmin : T; rmax : T }.
Arguments MkRange {T} _ _.
Arguments rmin {T} _.
Arguments rmax {T} _.

#[export] Instance Range_eq_dec {T} `{EqDecision T} : EqDecision (Range T).
Proof. solve_decision. Defined.

Definition IntRange : Type := Range Z.
Definition RationalRange : Type := Range double.
Definition FormatSet : Type := list string.

#[export] Instance IntRange_eq_dec : EqDecision IntRange := Range_eq_dec.
#[export] Instance RationalRange_eq_dec : EqDecision RationalRange := Range_eq_dec.

Module IntRangeOps.
Definition Contains (r : IntRange) (v : Z) : bool := (rmin r <=? v) && (v <=? rmax r).
Definition Empty (r : IntRange) : bool := rmax r <? rmin r.
Definition Intersect (r o : IntRange) : IntRange :=
  MkRange (if rmin r >? rmin o then rmin r else rmin o)
          (if rmax r <? rmax o then rmax r else rmax o).
End IntRangeOps.

Module RationalRangeOps.
Definition Empty (r : RationalRange) : bool := Double.ltb (rmax r) (rmin r).
Definition Intersect (r o : RationalRange) : RationalRange :=
  MkRange (if Double.ltb (rmin o) (rmin r) then rmin r else rmin o)
          (if Double.ltb (rmax r) (rmax o) then rmax r else rmax o).
End RationalRangeOps.

Record VideoConstraints : Type := MkVideoConstraints {
  vc_pixel_formats : option FormatSet;
  vc_width : option IntRange;
  vc_height : option IntRange;
  vc_fps : option RationalRange;
  vc_color_spaces : option FormatSet;
  vc_color_ranges : option FormatSet;
  vc_hdr_modes : option FormatSet;
}.

Record AudioConstraints : Type := MkAudioConstraints {
  ac_sample_formats : option FormatSet;
  ac_sample_rate : option IntRange;
  ac_channel_layouts : option FormatSet;
}.

Record TensorConstraints : Type := MkTensorConstraints {
  tc_dtypes : option FormatSet;
  tc_layouts : option FormatSet;
  tc_shape : list IntRange;
}.

Record MemoryConstraints : Type := MkMemoryConstraints {
  mc_kinds : option (list MemoryKind);
  mc_device_ids : option (list Z);
  mc_zero_copy_required : bool;
}.

Record PortCapability : Type := MkPortCapability {
  pc_name : string;
  pc_direction : PortDirection;
  pc_type_tag : string;
  pc_required : bool;
  pc_cardinality : PortCardinality;
  pc_dynamic_consumers : bool;
  pc_video : option VideoConstraints;
  pc_audio : option AudioConstraints;
  pc_tensor : option TensorConstraints;
  pc_memory : MemoryConstraints;
  pc_sync : option (list SyncPolicy);
}.

Record ExecutionCapability : Type := MkExecutionCapability {
  xc_devices : list DeviceKind;
  xc_stateful : bool;
  xc_async : bool;
  xc_max_parallelism : Z;
  xc_zero_copy : bool;
  xc_max_inference_ms : option Z;
}.

Record ParameterCapability : Type := MkParameterCapability {
  par_hot_updatable : list string;
  par_migratable : list string;
  par_schema : json;
}.

(** [ResourceEstimate::amounts] *)
Definition ResourceEstimate : Type := list (string * Z).

Record EventCapability : Type := MkEventCapability {
  ev_emits : list string;
  ev_accepts : list string;
}.

Record CapabilityDescriptor : Type := MkCapabilityDescriptor {
  cd_op : OperatorKey;
  cd_description : string;
  cd_inputs : list PortCapability;
  cd_outputs : list PortCapability;
  cd_execution : ExecutionCapability;
  cd_parameters : ParameterCapability;
  cd_resources : ResourceEstimate;
  cd_events : EventCapability;
}.

Module Descriptor.
Definition FindInput (name : string) (d : CapabilityDescriptor) : option PortCapability :=
  List.find (fun p => bool_decide (pc_name p = name)) (cd_inputs d).
Definition FindOutput (name : string) (d : CapabilityDescriptor) : option PortCapability :=
  List.find (fun p => bool_decide (pc_name p = name)) (cd_outputs d).
End Descriptor.

(** ** Contracts *)

Record SelectedVideoFormat : Type := MkSelectedVideoFormat {
  sv_pixel_format : string;
  sv_width : option IntRange;
  sv_height : option IntRange;
  sv_fps : option RationalRange;
  sv_color_space : option string;
  sv_color_range : option string;
  sv_hdr_mode : option string;
}.
Record SelectedAudioFormat : Type := MkSelectedAudioFormat {
  sa_sample_format : string;
  sa_sample_rate : option IntRange;
  sa_channel_layout : option string;
}.
Record SelectedTensorFormat : Type := MkSelectedTensorFormat {
  st_dtype : string;
  st_layout : option string;
  st_shape : list IntRange;
}.

#[export] Instance SelectedVideoFormat_eq_dec : EqDecision SelectedVideoFormat.
Proof. solve_decision. Defined.
#[export] Instance SelectedAudioFormat_eq_dec : EqDecision SelectedAudioFormat.
Proof. solve_decision. Defined.
#[export] Instance SelectedTensorFormat_eq_dec : EqDecision SelectedTensorFormat.
Proof. solve_decision. Defined.

Record ConnectionContract : Type := MkConnectionContract {
  logical_type : string;
  cc_video : option SelectedVideoFormat;
  cc_audio : option SelectedAudioFormat;
  cc_tensor : option SelectedTensorFormat;
  memory_kind : MemoryKind;
  device_id : Z;
  sync_policy : SyncPolicy;
  source_capability : Z;
  target_capability : Z;
}.

#[export] Instance ConnectionContract_eq_dec : EqDecision ConnectionContract.
Proof. solve_decision. Defined.

Definition default_contract : ConnectionContract :=
  MkConnectionContract "" None None None kHost (-1) kAny 0 0.
