(* ===== verification/Packet.v ===== *)
(** Packets, metadata, type tags and the host buffer pool
    (include/ge/cpp/packet.h, src/packet.cpp). *)

From stdpp Require Import base numbers list strings sorting sets.
From Stdlib Require Import ZArith Lia Ascii String.
From S2P Require Import Prelude Types Double Json JsonParser JsonProofs JsonRoundTrip.

Local Open Scope string_scope.
Local Open Scope Z_scope.

(** ** Packets *)

Definition GE_PACKET_FLAG_KEYFRAME : Z := 0x1.
Definition GE_PACKET_FLAG_EOS : Z := 0x2.
Definition GE_PACKET_FLAG_EVENT : Z := 0x4.
Definition GE_PACKET_FLAG_DROPPED : Z := 0x8.

Record PacketHeader : Type := MkPacketHeader {
  seq : Z;
  pts_ns : Z;
  dts_ns : Z;
  flags : Z;
  topology_version : Z;
  parameter_version : Z;
  type_tag : Z;
}.

(** [entries_], in key order. *)
Definition Metadata : Type := list (string * string).

(** [metadata] is a shared pointer to immutable entries (null is [None]);
    [payload] is the address of the buffer it refers to. *)
Record Packet : Type := MkPacket {
  header : PacketHeader;
  metadata : option Metadata;
  payload : option Z;
  ingress_ns : Z;
}.

#[export] Instance PacketHeader_eq_dec : EqDecision PacketHeader.
Proof. solve_decision. Defined.
#[export] Instance Packet_eq_dec : EqDecision Packet.
Proof. solve_decision. Defined.

(** [std::shared_ptr<const Packet>] *)
Definition PacketRef : Type := option Packet.

Module PacketOps.

Definition is_eos (p : Packet) : bool := negb (Z.land (flags (header p)) GE_PACKET_FLAG_EOS =? 0).
Definition is_event (p : Packet) : bool := negb (Z.land (flags (header p)) GE_PACKET_FLAG_EVENT =? 0).
Definition is_dropped (p : Packet) : bool :=
  negb (Z.land (flags (header p)) GE_PACKET_FLAG_DROPPED =? 0).

Definition meta (p : Packet) : Metadata := default [] (metadata p).

Definition Eos (tag tv pv sq : Z) : Packet :=
  MkPacket (MkPacketHeader sq 0 0 GE_PACKET_FLAG_EOS tv pv tag) None None 0.

End PacketOps.

(** ** Metadata *)

Module MetadataOps.

(** [std::lower_bound] on the key: the entries below it and the rest. *)
Fixpoint lower_bound (key : string) (l : Metadata) : Metadata * Metadata :=
  match l with
  | [] => ([], [])
  | e :: l' =>
      if Str.ltb e.1 key then let '(a, b) := lower_bound key l' in (e :: a, b) else ([], l)
  end.

Definition Set_ (key value : string) (m : Metadata) : Metadata :=
  match lower_bound key m with
  | (below, e :: above) =>
      if decide (e.1 = key) then (below ++ (e.1, value) :: above)%list
      else (below ++ (key, value) :: e :: above)%list
  | (below, []) => (below ++ [(key, value)])%list
  end.

Definition Get (key : string) (m : Metadata) : option string :=
  match lower_bound key m with
  | (_, e :: _) => if decide (e.1 = key) then Some e.2 else None
  | (_, []) => None
  end.

Definition Has (key : string) (m : Metadata) : bool := has (Get key m).

Definition ToJson (m : Metadata) : string :=
  Json.Serialize (Json.obj (map (fun kv => (kv.1, JString kv.2)) m)).

Definition FromJson (text : string) : Result Metadata :=
  if Str.empty text then Value []
  else match ParseJson text with
  | inr e => Error (StatusOps.InvalidArgument ("invalid metadata JSON: " ++ e))
  | inl v =>
      match v with
      | JObject o =>
          Value (fold_left
                   (fun m kv => Set_ kv.1 (match kv.2 with JString s => s | w => Json.Serialize w end) m)
                   o [])
      | _ => Error (StatusOps.InvalidArgument "metadata must be a JSON object")
      end
  end.

End MetadataOps.

(** ** Type tags *)

Definition kInvalidTypeTag : Z := 0.

(** [names_] (index 0 is reserved) and [builtin_count_]. *)
Record TypeTagRegistry : Type := MkTypeTagRegistry { names_ : list string; builtin_count_ : Z }.

Module TypeTags.

Definition make : TypeTagRegistry :=
  let names := [""; "VideoFrame"; "AudioFrame"; "Tensor"; "Bytes"; "Json"; "EncodedVideo";
                "EncodedAudio"] in
  MkTypeTagRegistry names (Z.of_nat (List.length names)).

(** The index loop of [Intern] and [Find], from 1. *)
Fixpoint index_of (tag : string) (l : list string) (i : nat) : option nat :=
  match l with
  | [] => None
  | n :: l' => if decide (n = tag) then Some i else index_of tag l' (S i)
  end.

Definition Intern (tag : string) (r : TypeTagRegistry) : Z * TypeTagRegistry :=
  if Str.empty tag then (kInvalidTypeTag, r)
  else match index_of tag (tail (names_ r)) 1 with
       | Some i => (Word.u32 (Z.of_nat i), r)
       | None =>
           (Word.u32 (Z.of_nat (List.length (names_ r ++ [tag])) - 1),
            MkTypeTagRegistry (names_ r ++ [tag])%list (builtin_count_ r))
       end.

Definition Find (tag : string) (r : TypeTagRegistry) : Z :=
  match index_of tag (tail (names_ r)) 1 with
  | Some i => Word.u32 (Z.of_nat i)
  | None => kInvalidTypeTag
  end.

Definition Name (id : Z) (r : TypeTagRegistry) : string := default "" (names_ r !! Z.to_nat id).

Definition IsBuiltin (id : Z) (r : TypeTagRegistry) : bool :=
  negb (id =? kInvalidTypeTag) && (id <? builtin_count_ r).

End TypeTags.

(** ** Host buffer pool *)

(** A [PooledBuffer]: [pb_data] is its address; kind and device are constant. *)
Record PooledBuffer : Type := MkPooledBuffer {
  pb_data : Z;
  pb_size : Z;
  pb_capacity : Z;
  pb_size_class : nat;
}.

Record HostBufferPool : Type := MkHostBufferPool {
  max_cached_bytes : Z;
  free_lists : list (list PooledBuffer);
  cached_bytes : Z;
  allocations : Z;
  pool_hits : Z;
  live : Z;
  closed : bool;
}.

Module Pool.

Definition kMinClass : Z := 256.
Definition kClassCount : nat := 24.

Definition make (max_cached : Z) : HostBufferPool :=
  MkHostBufferPool max_cached (replicate kClassCount []) 0 0 0 0 false.

(** The loop of [SizeClass], at most [kClassCount - 1] rounds. *)
Fixpoint size_class_loop (rounds : nat) (cls : nat) (cap size : Z) : nat :=
  match rounds with
  | O => cls
  | S r => if cap <? size then size_class_loop r (S cls) (Z.shiftl cap 1) size else cls
  end.

Definition SizeClass (size : Z) : nat := size_class_loop (kClassCount - 1) 0 kMinClass size.

Definition class_bytes (cls : nat) : Z := Z.shiftl kMinClass (Z.of_nat cls).

(** [Allocate]; [mem] is what [std::aligned_alloc] returns if it is called. *)
Definition Allocate (mem : option Z) (size : Z) (p : HostBufferPool)
    : option PooledBuffer * HostBufferPool :=
  let cls := SizeClass size in
  let cap := class_bytes cls in
  if cap <? size then (None, p)
  else
    match rev (default [] (free_lists p !! cls)) with
    | b :: rest =>
        (Some (MkPooledBuffer (pb_data b) size (pb_capacity b) (pb_size_class b)),
         MkHostBufferPool (max_cached_bytes p) (<[cls := rev rest]> (free_lists p))
           (Word.u64 (cached_bytes p - cap)) (Word.u64 (allocations p + 1))
           (Word.u64 (pool_hits p + 1)) (Word.u64 (live p + 1)) (closed p))
    | [] =>
        let p1 l := MkHostBufferPool (max_cached_bytes p) (free_lists p) (cached_bytes p)
                      (Word.u64 (allocations p + 1)) (pool_hits p) l (closed p) in
        match mem with
        | None => (None, p1 (live p))
        | Some a => (Some (MkPooledBuffer a size cap cls), p1 (Word.u64 (live p + 1)))
        end
    end.

(** [Recycle]; the flag tells that the memory was freed. *)
Definition Recycle (b : PooledBuffer) (p : HostBufferPool) : bool * HostBufferPool :=
  let cap := class_bytes (pb_size_class b) in
  let live' := Word.u64 (live p - 1) in
  if negb (closed p) && (Word.u64 (cached_bytes p + cap) <=? max_cached_bytes p) then
    (false,
     MkHostBufferPool (max_cached_bytes p)
       (alter (fun l => l ++ [b])%list (pb_size_class b) (free_lists p))
       (Word.u64 (cached_bytes p + cap)) (allocations p) (pool_hits p) live' (closed p))
  else
    (true,
     MkHostBufferPool (max_cached_bytes p) (free_lists p) (cached_bytes p) (allocations p)
       (pool_hits p) live' (closed p)).

End Pool.
