(* ===== verification/PacketProofs.v ===== *)
(** Packets: metadata as a map and its JSON round trip, stability of interned
    type tags, and the accounting of the host buffer pool. *)

From stdpp Require Import base numbers list strings sorting sets relations.
From Stdlib Require Import ZArith Lia Ascii String.
From S2P Require Import Prelude Types Double Json JsonParser JsonProofs JsonRoundTrip Packet.

Local Open Scope Z_scope.
Local Open Scope list_scope.

(** ** Metadata *)

Lemma lower_bound_app key m below above :
  MetadataOps.lower_bound key m = (below, above) ->
  m = below ++ above /\ Forall (fun e => Str.ltb e.1 key = true) below /\
  match above with [] => True | e :: _ => Str.ltb e.1 key = false end.
Proof.
  revert below above. induction m as [|e m IH]; simpl; intros below above.
  { by intros [= <- <-]. }
  destruct (Str.ltb e.1 key) eqn:E; [|intros [= <- <-]; split_and!; done].
  destruct (MetadataOps.lower_bound key m) as [a b]. intros [= <- <-].
  destruct (IH a b eq_refl) as (-> & Ha & Hb). split_and!; [done|by constructor|done].
Qed.

(** [Set] and [Get] are the operations of an ordered map. *)
Lemma Set_is_set key value m :
  SMap.sorted m -> MetadataOps.Set_ key value m = SMap.set key value m.
Proof.
  unfold MetadataOps.Set_, SMap.sorted. induction m as [|[k v] m IH]; intros Hs; [done|].
  apply StronglySorted_inv in Hs as [Hs Hf]. specialize (IH Hs). simpl.
  change (key_ltb key k) with (Str.ltb key k) in *.
  destruct (Str.ltb k key) eqn:E.
  - rewrite decide_False by (intros ->; by rewrite Str.ltb_irrefl in E).
    destruct (Str.ltb key k) eqn:E'.
    { pose proof (Str.ltb_trans _ _ _ E E') as HF. by rewrite Str.ltb_irrefl in HF. }
    rewrite <- IH. destruct (MetadataOps.lower_bound key m) as [a [|e b]]; [done|].
    by case_decide.
  - simpl. destruct (decide (key = k)) as [->|Hne]; [by rewrite decide_True|].
    rewrite decide_False by congruence.
    destruct (Str.ltb key k) eqn:E'; [done|]. by destruct (Str.ltb_total key k).
Qed.

Lemma Get_is_find key m : SMap.sorted m -> MetadataOps.Get key m = SMap.find key m.
Proof.
  unfold MetadataOps.Get, SMap.sorted. induction m as [|[k v] m IH]; intros Hs; [done|].
  apply StronglySorted_inv in Hs as [Hs Hf]. specialize (IH Hs). simpl.
  destruct (Str.ltb k key) eqn:E.
  - rewrite decide_False by (intros ->; by rewrite Str.ltb_irrefl in E).
    rewrite <- IH. by destruct (MetadataOps.lower_bound key m) as [a [|e b]].
  - destruct (decide (key = k)) as [->|Hne]; simpl; [by rewrite decide_True|].
    rewrite decide_False by congruence.
    assert (Hlt : Str.ltb key k = true).
    { destruct (Str.ltb key k) eqn:E'; [done|]. by destruct (Str.ltb_total key k). }
    symmetry. apply SMap.find_None. intros Hin. rewrite List.Forall_forall in Hf.
    pose proof (Str.ltb_trans _ _ _ Hlt (Hf key Hin)) as HF. by rewrite Str.ltb_irrefl in HF.
Qed.

(** Writing entries in order appends them. *)
Lemma fold_set_sorted {V} (l acc : list (string * V)) :
  SMap.sorted (acc ++ l) ->
  fold_left (fun m kv => SMap.set kv.1 kv.2 m) l acc = acc ++ l.
Proof.
  revert acc. induction l as [|[k v] l IH]; intros acc Hs; simpl; [by rewrite app_nil_r|].
  rewrite SMap.set_snoc.
  - rewrite IH, <- app_assoc; [done|]. by rewrite <- app_assoc.
  - unfold SMap.sorted in Hs. rewrite fmap_app in Hs. clear IH.
    induction acc as [|[k' v'] acc IH]; [done|]. simpl in Hs.
    apply StronglySorted_inv in Hs as [Hs Hf]. constructor; [|by apply IH].
    apply Forall_app in Hf as [_ [Hf _]%Forall_cons]. done.
Qed.

Lemma fold_ext {A B} (f g : A -> B -> A) (P : A -> Prop) l a :
  P a -> (forall a b, P a -> f a b = g a b /\ P (g a b)) ->
  fold_left f l a = fold_left g l a.
Proof.
  intros Ha Hfg. revert a Ha. induction l as [|b l IH]; intros a Ha; simpl; [done|].
  destruct (Hfg a b Ha) as [-> HP]. by apply IH.
Qed.

Lemma sorted_map_snd {V W} (f : V -> W) (l : list (string * V)) :
  SMap.sorted (map (fun kv => (kv.1, f kv.2)) l) <-> SMap.sorted l.
Proof.
  unfold SMap.sorted. replace (_ <$> map _ l) with (l.*1); [done|].
  induction l as [|[k v] l IH]; simpl; [done|]. f_equal; exact IH.
Qed.

(** [Json.obj] of entries already in key order keeps them. *)
Lemma obj_sorted l : SMap.sorted l -> Json.obj l = JObject l.
Proof.
  intros Hs. unfold Json.obj. f_equal. change l with ([] ++ l) at 2.
  assert (Hg : forall acc, SMap.sorted (acc ++ l) ->
    fold_left (fun m kv => (SMap.emplace kv.1 kv.2 m).1) l acc = acc ++ l); [|by apply Hg].
  clear Hs. induction l as [|kv l IH]; intros acc Hs; simpl; [by rewrite app_nil_r|].
  rewrite emplace_snoc by by eapply sorted_below.
  cbn [fst]. rewrite IH, <- app_assoc; [done|]. by rewrite <- app_assoc.
Qed.

(** Packet metadata survives its JSON form: reading back what [ToJson] wrote
    gives the same entries, for every key and value (any bytes). *)
Theorem Metadata_FromJson_ToJson m :
  SMap.sorted m -> MetadataOps.FromJson (MetadataOps.ToJson m) = Value m.
Proof.
  intros Hs. unfold MetadataOps.FromJson, MetadataOps.ToJson.
  pose (o := map (fun kv : string * string => (kv.1, JString kv.2)) m).
  assert (Hso : SMap.sorted o) by by apply (sorted_map_snd JString).
  change (map _ m) with o. rewrite obj_sorted by done.
  rewrite parse_serialized.
  - replace (Str.empty _) with false by done. f_equal.
    transitivity (fold_left (fun m kv => SMap.set kv.1 kv.2 m) m []); [|by apply fold_set_sorted].
    unfold o. clear. rewrite <- (fold_ext
      (fun a kv => MetadataOps.Set_ kv.1 kv.2 a) _ SMap.sorted m []); [|constructor|].
    + generalize (@nil (string * string)). induction m as [|[k v] m IH]; intros a; simpl; [done|].
      apply IH.
    + intros a b Ha. split; [by apply Set_is_set|by apply SMap.set_sorted].
  - constructor; [done|]. unfold o. clear. induction m; by repeat constructor.
Qed.

Definition sample_meta : Metadata := [("error", "a"); ("format", String "010" (String Json.dquote ""))]%string.

Lemma Metadata_FromJson_ToJson_witness :
  MetadataOps.FromJson (MetadataOps.ToJson sample_meta) = Value sample_meta.
Proof. apply Metadata_FromJson_ToJson. repeat constructor. Defined.

(** ** Type tags *)

(** Index 0 holds the empty name; the other names are distinct and not empty. *)
Definition registry_wf (r : TypeTagRegistry) : Prop :=
  exists t, names_ r = EmptyString :: t /\ NoDup (EmptyString :: t).

Lemma index_of_Some tag l i j :
  TypeTags.index_of tag l i = Some j -> (i <= j)%nat /\ l !! (j - i)%nat = Some tag.
Proof.
  revert i. induction l as [|n l IH]; intros i; simpl; [done|].
  case_decide; [intros [= <-]; subst; split; [lia|by rewrite Nat.sub_diag]|].
  intros [Hle Hl]%IH. split; [lia|]. by replace (j - i)%nat with (S (j - S i)) by lia.
Qed.

Lemma index_of_None tag l i : TypeTags.index_of tag l i = None <-> tag ∉ l.
Proof.
  revert i. induction l as [|n l IH]; intros i; simpl; [set_solver|].
  case_decide; [set_solver|]. rewrite IH. set_solver.
Qed.

Lemma index_of_lookup tag l i k :
  NoDup l -> l !! k = Some tag -> TypeTags.index_of tag l i = Some (i + k)%nat.
Proof.
  revert i k. induction l as [|n l IH]; intros i k; [done|]. intros [Hn Hl]%NoDup_cons Hk. simpl.
  destruct k as [|k]; simpl in Hk.
  - rewrite decide_True by congruence. f_equal. lia.
  - rewrite decide_False by (intros ->; apply Hn; by eapply list_elem_of_lookup_2).
    rewrite (IH (S i) k) by done. f_equal. lia.
Qed.

Lemma Name_lookup i r n : 0 <= i -> names_ r !! Z.to_nat i = Some n -> TypeTags.Name i r = n.
Proof. intros ? Hn. unfold TypeTags.Name. by rewrite Hn. Qed.

(** Interning is stable: the id [Intern] returns names the tag, is found
    again by [Find], is not the invalid id, and every id handed out before
    keeps its name; the registry stays duplicate-free. *)
Theorem TypeTags_Intern_stable tag r id r' :
  registry_wf r -> Z.of_nat (List.length (names_ r)) < 2 ^ 32 -> tag <> EmptyString ->
  TypeTags.Intern tag r = (id, r') ->
  TypeTags.Name id r' = tag /\ TypeTags.Find tag r' = id /\ 0 < id /\ registry_wf r' /\
  (forall i, TypeTags.Name i r <> EmptyString -> TypeTags.Name i r' = TypeTags.Name i r).
Proof.
  intros (t & Hn & Hd) Hlen Htag. unfold TypeTags.Intern, TypeTags.Find.
  replace (Str.empty tag) with false by by destruct tag.
  rewrite Hn in *. cbn [tail List.length] in *. apply NoDup_cons in Hd as [Hne Hd].
  destruct (TypeTags.index_of tag t 1) as [j|] eqn:E; intros [= <- <-].
  - pose proof E as [Hj Hl]%index_of_Some. rewrite Hn. cbn [tail]. rewrite E.
    assert (j - 1 < List.length t)%nat by by eapply lookup_lt_Some.
    rewrite Word.u32_small by (unfold Word.is_u32; lia).
    split_and!; [|done|lia|by exists t; rewrite NoDup_cons|done].
    apply Name_lookup; [lia|]. rewrite Hn, Nat2Z.id.
    by replace j with (S (j - 1)) by lia.
  - cbn [names_ app]. apply index_of_None in E.
    assert (Hd' : NoDup (t ++ [tag])).
    { apply NoDup_app. split_and!; [done|set_solver|apply NoDup_singleton]. }
    cbn [List.length]. rewrite length_app. cbn [List.length].
    replace (Z.of_nat (S (List.length t + 1)) - 1) with (Z.of_nat (S (List.length t))) by lia.
    rewrite Word.u32_small by (unfold Word.is_u32; lia).
    cbn [tail]. rewrite (index_of_lookup tag _ 1 (List.length t)) by
      (done || by rewrite lookup_app_r, Nat.sub_diag).
    split_and!; [|rewrite Word.u32_small; [done|unfold Word.is_u32; lia]|lia| |].
    + apply Name_lookup; [lia|]. cbn [names_]. rewrite Nat2Z.id. simpl.
      by rewrite lookup_app_r, Nat.sub_diag.
    + exists (t ++ [tag]). split; [done|]. apply NoDup_cons. split; [set_solver|done].
    + intros i. unfold TypeTags.Name. rewrite Hn. cbn [names_].
      intros Hi. change (EmptyString :: t ++ [tag]) with ((EmptyString :: t) ++ [tag]).
      rewrite lookup_app. destruct ((EmptyString :: t) !! Z.to_nat i); [done|]. done.
Qed.

Lemma TypeTags_Intern_stable_witness :
  let '(id, r') := TypeTags.Intern "my.Tag" TypeTags.make in
  TypeTags.Name id r' = "my.Tag"%string /\ TypeTags.Find "my.Tag" r' = id /\ 0 < id /\
  registry_wf r' /\
  (forall i, TypeTags.Name i TypeTags.make <> EmptyString ->
             TypeTags.Name i r' = TypeTags.Name i TypeTags.make).
Proof.
  apply (TypeTags_Intern_stable "my.Tag" TypeTags.make); [|done|done|done].
  eexists. split; [reflexivity|]. by apply (bool_decide_unpack _).
Defined.

(** ** The buffer pool *)

Lemma class_bytes_pos c : 0 < Pool.class_bytes c.
Proof. unfold Pool.class_bytes, Pool.kMinClass. rewrite Z.shiftl_mul_pow2 by lia. lia. Qed.

Lemma class_bytes_S c : Pool.class_bytes (S c) = 2 * Pool.class_bytes c.
Proof.
  unfold Pool.class_bytes. rewrite !Z.shiftl_mul_pow2, Nat2Z.inj_succ, Z.pow_succ_r by lia. lia.
Qed.

Lemma size_class_loop_spec rounds cls size :
  let c := Pool.size_class_loop rounds cls (Pool.class_bytes cls) size in
  (cls <= c <= cls + rounds)%nat /\
  ((c < cls + rounds)%nat -> size <= Pool.class_bytes c) /\
  (forall c', (cls <= c' < c)%nat -> Pool.class_bytes c' < size).
Proof.
  revert cls. induction rounds as [|r IH]; intros cls; simpl; [split_and!; lia|].
  destruct (Z.ltb_spec (Pool.class_bytes cls) size) as [Hlt|Hge].
  - replace (Z.shiftl (Pool.class_bytes cls) 1) with (Pool.class_bytes (S cls))
      by (rewrite class_bytes_S, Z.shiftl_mul_pow2 by lia; lia).
    destruct (IH (S cls)) as (H1 & H2 & H3). split_and!; [lia|lia|intros; apply H2; lia|].
    intros c' Hc'. destruct (decide (c' = cls)) as [->|]; [done|]. apply H3. lia.
  - split_and!; [lia|lia|done|lia].
Qed.

(** [SizeClass] picks the smallest class that holds the request: no smaller
    class does, and the class it picks does whenever one of the 24 classes
    (256 bytes to 2 GiB) can. *)
Theorem SizeClass_smallest size :
  (Pool.SizeClass size < Pool.kClassCount)%nat /\
  (size <= 2 ^ 31 -> size <= Pool.class_bytes (Pool.SizeClass size)) /\
  (forall c, (c < Pool.SizeClass size)%nat -> Pool.class_bytes c < size).
Proof.
  unfold Pool.SizeClass. change Pool.kMinClass with (Pool.class_bytes 0).
  destruct (size_class_loop_spec (Pool.kClassCount - 1) 0 size) as (H1 & H2 & H3).
  unfold Pool.kClassCount in *. split_and!; [lia| |intros c Hc; apply H3; lia].
  intros Hs. set (c := Pool.size_class_loop _ _ _ _) in *.
  destruct (decide (c = 23%nat)) as [->|]; [exact Hs|]. apply H2. lia.
Qed.

(** The pool with the buffers its clients hold.  A buffer is recycled when the
    last reference to it drops, so only a held buffer is.  [aligned_alloc]
    returns memory that is not in use. *)
Record pool_world : Type := MkPoolWorld { pw_pool : HostBufferPool; pw_held : list PooledBuffer }.

Definition addresses (w : pool_world) : list Z :=
  pb_data <$> (List.concat (free_lists (pw_pool w)) ++ pw_held w).

Inductive pool_step : pool_world -> pool_world -> Prop :=
| pool_alloc p held mem size b p' :
    (forall a, mem = Some a -> a ∉ addresses (MkPoolWorld p held)) ->
    Pool.Allocate mem size p = (Some b, p') ->
    pool_step (MkPoolWorld p held) (MkPoolWorld p' (b :: held))
| pool_alloc_fail p held mem size p' :
    Pool.Allocate mem size p = (None, p') ->
    pool_step (MkPoolWorld p held) (MkPoolWorld p' held)
| pool_recycle p held held' b freed p' :
    held ≡ₚ b :: held' ->
    Pool.Recycle b p = (freed, p') ->
    pool_step (MkPoolWorld p held) (MkPoolWorld p' held').

Definition buffer_ok (b : PooledBuffer) : Prop :=
  (pb_size_class b < Pool.kClassCount)%nat /\
  pb_capacity b = Pool.class_bytes (pb_size_class b).

Definition buffer_bytes (l : list PooledBuffer) : Z :=
  foldr (fun b s => Pool.class_bytes (pb_size_class b) + s) 0 l.

Record pool_ok (max : Z) (w : pool_world) : Prop := {
  ok_max : max_cached_bytes (pw_pool w) = max;
  ok_lists : List.length (free_lists (pw_pool w)) = Pool.kClassCount;
  ok_classes : forall c l, free_lists (pw_pool w) !! c = Some l ->
    Forall (fun b => buffer_ok b /\ pb_size_class b = c) l;
  ok_cached : cached_bytes (pw_pool w) = buffer_bytes (List.concat (free_lists (pw_pool w)));
  ok_bound : cached_bytes (pw_pool w) <= max;
  ok_live : live (pw_pool w) = Word.u64 (Z.of_nat (List.length (pw_held w)));
  ok_addresses : NoDup (addresses w);
  ok_held : Forall (fun b => buffer_ok b /\ pb_size b <= pb_capacity b) (pw_held w);
}.

#[global] Instance buffer_bytes_perm : Proper ((≡ₚ) ==> eq) buffer_bytes.
Proof. intros l l'. induction 1; simpl; lia. Qed.

Lemma buffer_bytes_nonneg l : 0 <= buffer_bytes l.
Proof.
  induction l as [|b l IH]; simpl; [lia|]. pose proof (class_bytes_pos (pb_size_class b)). lia.
Qed.

Lemma concat_insert {A} (ls : list (list A)) c l l' x :
  ls !! c = Some l -> l ≡ₚ x :: l' -> List.concat ls ≡ₚ x :: List.concat (<[c := l']> ls).
Proof.
  intros Hl Hp. pose proof (lookup_lt_Some _ _ _ Hl) as Hlt.
  rewrite <- (take_drop_middle ls c l Hl) at 1.
  rewrite insert_take_drop by done. rewrite !List.concat_app. simpl.
  rewrite Hp. simpl. by rewrite <- Permutation_middle.
Qed.

Lemma concat_alter {A} (ls : list (list A)) c x :
  (c < List.length ls)%nat -> List.concat (alter (fun l => l ++ [x]) c ls) ≡ₚ x :: List.concat ls.
Proof.
  intros [l Hl]%lookup_lt_is_Some_2.
  rewrite (concat_insert (alter (fun l => l ++ [x]) c ls) c (l ++ [x]) l x).
  - constructor. replace (<[c:=l]> (alter _ c ls)) with ls; [done|].
    apply list_eq. intros i. destruct (decide (i = c)) as [->|Hne].
    + rewrite list_lookup_insert_eq; [done|]. rewrite length_alter. by eapply lookup_lt_Some.
    + by rewrite list_lookup_insert_ne, list_lookup_alter_ne.
  - by rewrite list_lookup_alter_eq, Hl.
  - symmetry. apply Permutation_cons_append.
Qed.

Lemma u64_succ n : Word.u64 (Word.u64 (Z.of_nat n) + 1) = Word.u64 (Z.of_nat (S n)).
Proof. unfold Word.u64. rewrite Zplus_mod_idemp_l. f_equal. lia. Qed.

Lemma u64_pred n : Word.u64 (Word.u64 (Z.of_nat (S n)) - 1) = Word.u64 (Z.of_nat n).
Proof. unfold Word.u64. rewrite Zminus_mod_idemp_l. f_equal. lia. Qed.

Lemma rev_cons_perm {A} (l : list A) x r : rev l = x :: r -> l ≡ₚ x :: rev r.
Proof.
  intros Hl. rewrite <- (rev_involutive l), Hl. simpl. apply Permutation_app_comm.
Qed.

Lemma SizeClass_lt size : (Pool.SizeClass size < Pool.kClassCount)%nat.
Proof.
  unfold Pool.SizeClass. change Pool.kMinClass with (Pool.class_bytes 0).
  destruct (size_class_loop_spec (Pool.kClassCount - 1) 0 size) as (H1 & _).
  unfold Pool.kClassCount in *. lia.
Qed.

Lemma pool_ok_make max : 0 <= max -> pool_ok max (MkPoolWorld (Pool.make max) []).
Proof.
  intros Hm. split; try done.
  - intros c l. simpl. unfold Pool.kClassCount.
    intros [-> _]%(lookup_replicate_1 24). done.
  - by apply (bool_decide_unpack _).
Qed.

Lemma pool_ok_hit max p held cls b rest size :
  0 <= max < 2 ^ 63 -> pool_ok max (MkPoolWorld p held) ->
  size <= Pool.class_bytes cls ->
  rev (default [] (free_lists p !! cls)) = b :: rest ->
  pool_ok max (MkPoolWorld
    (MkHostBufferPool (max_cached_bytes p) (<[cls := rev rest]> (free_lists p))
       (Word.u64 (cached_bytes p - Pool.class_bytes cls)) (Word.u64 (allocations p + 1))
       (Word.u64 (pool_hits p + 1)) (Word.u64 (live p + 1)) (closed p))
    (MkPooledBuffer (pb_data b) size (pb_capacity b) (pb_size_class b) :: held)).
Proof.
  intros Hmax [Hm Hls Hcl Hca Hbd Hlv Had Hhe] Hsize Hrev. simpl in *.
  destruct (free_lists p !! cls) as [l|] eqn:El; [|done]. simpl in Hrev.
  apply rev_cons_perm in Hrev.
  pose proof (Hcl _ _ El) as Hbl. rewrite Hrev in Hbl.
  apply Forall_cons in Hbl as [[Hb Hbc] Hbr].
  pose proof (concat_insert _ _ _ _ _ El Hrev) as Hperm.
  pose proof (buffer_bytes_nonneg (List.concat (<[cls:=rev rest]> (free_lists p)))).
  rewrite Hperm in Hca. simpl in Hca. rewrite Hbc in Hca.
  assert (Word.u64 (cached_bytes p - Pool.class_bytes cls)
          = buffer_bytes (List.concat (<[cls:=rev rest]> (free_lists p)))) as Hu.
  { rewrite Word.u64_small; [lia|]. pose proof (class_bytes_pos cls). unfold Word.is_u64. lia. }
  pose proof (class_bytes_pos cls).
  split; simpl; try done.
  - by rewrite length_insert.
  - intros c l' Hl'. destruct (decide (c = cls)) as [->|Hne].
    + rewrite list_lookup_insert_eq in Hl' by by eapply lookup_lt_Some. by simplify_eq.
    + rewrite list_lookup_insert_ne in Hl' by done. by apply Hcl.
  - lia.
  - by rewrite Hlv, u64_succ.
  - revert Had. unfold addresses. simpl. rewrite Hperm. simpl. rewrite !fmap_app. simpl.
    by rewrite Permutation_middle.
  - constructor; [|done]. split; [done|]. simpl. destruct Hb as [_ ->]. by rewrite Hbc.
Qed.

Lemma pool_ok_alloc max p held mem size b p' :
  0 <= max < 2 ^ 63 -> pool_ok max (MkPoolWorld p held) ->
  (forall a, mem = Some a -> a ∉ addresses (MkPoolWorld p held)) ->
  Pool.Allocate mem size p = (Some b, p') -> pool_ok max (MkPoolWorld p' (b :: held)).
Proof.
  intros Hmax Hok Hfresh. unfold Pool.Allocate. pose proof (SizeClass_lt size) as Hc.
  set (cls := Pool.SizeClass size) in *.
  destruct (Z.ltb_spec (Pool.class_bytes cls) size) as [|Hsize]; [done|].
  destruct (rev _) as [|b0 rest] eqn:Erev; [|intros [= <- <-]; by apply pool_ok_hit].
  destruct mem as [a|]; [|done]. intros [= <- <-].
  specialize (Hfresh a eq_refl). destruct Hok. split; simpl in *; try done.
  - by rewrite ok_live0, u64_succ.
  - unfold addresses in *. simpl in *. rewrite fmap_app in *. simpl.
    rewrite <- Permutation_middle. by constructor.
  - by constructor.
Qed.

Lemma pool_ok_alloc_fail max p held mem size p' :
  pool_ok max (MkPoolWorld p held) ->
  Pool.Allocate mem size p = (None, p') -> pool_ok max (MkPoolWorld p' held).
Proof.
  intros Hok. unfold Pool.Allocate. destruct (_ <? _); [by intros [= <-]|].
  destruct (rev _); [|done]. destruct mem; [done|]. intros [= <-]. by destruct Hok.
Qed.

Lemma pool_ok_recycle max p held held' b freed p' :
  0 <= max < 2 ^ 63 -> pool_ok max (MkPoolWorld p held) -> held ≡ₚ b :: held' ->
  Pool.Recycle b p = (freed, p') -> pool_ok max (MkPoolWorld p' held').
Proof.
  intros Hmax [Hm Hls Hcl Hca Hbd Hlv Had Hhe] Hperm. simpl in *.
  rewrite Hperm in Hlv, Hhe. simpl in Hlv. apply Forall_cons in Hhe as [[Hb Hbs] Hhe].
  assert (Hd : NoDup (pb_data <$> (b :: List.concat (free_lists p) ++ held'))).
  { revert Had. unfold addresses. simpl. rewrite Hperm. by rewrite <- Permutation_middle. }
  unfold Pool.Recycle. set (cls := pb_size_class b) in *.
  assert (0 <= Pool.class_bytes cls <= 2 ^ 31) as Hcb.
  { pose proof (class_bytes_pos cls). split; [lia|]. destruct Hb as [Hb _].
    unfold Pool.class_bytes, Pool.kMinClass, Pool.kClassCount in *.
    rewrite Z.shiftl_mul_pow2 by lia. change (2 ^ 31) with (256 * 2 ^ 23).
    apply Z.mul_le_mono_nonneg_l; [lia|]. apply Z.pow_le_mono_r; lia. }
  pose proof (buffer_bytes_nonneg (List.concat (free_lists p))).
  assert (Hlive : Word.u64 (live p - 1) = Word.u64 (Z.of_nat (List.length held')))
    by (rewrite Hlv; apply u64_pred).
  rewrite Word.u64_small in * by (unfold Word.is_u64; lia).
  destruct (_ && _) eqn:E; intros [= <- <-]; split; simpl; try done.
  - by rewrite length_alter.
  - intros c l. destruct (decide (c = cls)) as [->|Hne].
    + rewrite list_lookup_alter_eq. destruct (free_lists p !! cls) eqn:El; [|done].
      intros [= <-]. apply Forall_app. split; [by apply Hcl|]. by constructor.
    + rewrite list_lookup_alter_ne by done. apply Hcl.
  - rewrite concat_alter by (rewrite Hls; apply Hb). simpl. fold cls. lia.
  - lia.
  - unfold addresses. simpl. rewrite concat_alter by (rewrite Hls; apply Hb). done.
  - by apply NoDup_cons in Hd as [_ Hd].
Qed.

Definition pool_reachable (max : Z) : pool_world -> Prop :=
  rtc pool_step (MkPoolWorld (Pool.make max) []).

(** The pool's accounting holds in every state its clients can bring it to:
    no address is cached or held twice, a held buffer is large enough for its
    request, the cached bytes are those of the cached buffers and never exceed
    the limit, and [live_buffers] counts the held ones (modulo 2^64). *)
Theorem pool_accounting max w :
  0 <= max < 2 ^ 63 -> pool_reachable max w -> pool_ok max w.
Proof.
  unfold pool_reachable. intros Hmax Hr. remember (MkPoolWorld (Pool.make max) []) as w0 eqn:E0.
  assert (H0 : pool_ok max w0) by (subst; apply pool_ok_make; lia). clear E0.
  induction Hr as [|w1 w2 w3 Hs _ IH]; [done|]. apply IH.
  destruct Hs as [p held mem size b p' Hf Ha|p held mem size p' Ha|p held held' b fr p' Hp Hrec].
  - by eapply pool_ok_alloc.
  - by eapply pool_ok_alloc_fail.
  - by eapply pool_ok_recycle.
Qed.

Lemma pool_accounting_witness :
  let b := MkPooledBuffer 4096 300 512 1 in
  pool_ok 1024 (MkPoolWorld (Pool.Recycle b (Pool.Allocate (Some 4096) 300 (Pool.make 1024)).2).2 []).
Proof.
  intros b. apply pool_accounting; [lia|].
  eapply rtc_l; [eapply (pool_alloc _ _ (Some 4096) 300); [|reflexivity]|].
  - intros a [= <-]. vm_compute. intros Hin. inversion Hin.
  - eapply rtc_l; [by eapply pool_recycle|]. apply rtc_refl.
Defined.
