(* ===== verification/EdgeChannel.v ===== *)
(** The bounded edge queue (include/ge/cpp/edge_channel.h,
    src/edge_channel.cpp): a ring of packet references with drop policies, EOS
    markers that are never dropped, and the edge's state machine.

    Every method that takes [mutex_] is one atomic operation here; the races of
    the lock-free reads are in EdgeProtocol. *)

From stdpp Require Import base numbers list strings.
From Stdlib Require Import ZArith Lia Ascii String.
From S2P Require Import Prelude Types Double Json GraphSpec CapabilityTypes Packet.

Local Open Scope Z_scope.

Inductive EdgeState : Type := kActive | kBackpressured | kDraining | kRetired.
#[export] Instance EdgeState_eq_dec : EqDecision EdgeState.
Proof. solve_decision. Defined.

Definition EdgeState_ToString (s : EdgeState) : string :=
  match s with
  | kActive => "active"
  | kBackpressured => "backpressured"
  | kDraining => "draining"
  | kRetired => "retired"
  end.

Record EdgeConfig : Type := MkEdgeConfig {
  capacity : Z;
  policy : DropPolicy;
  cfg_sync_policy : SyncPolicy;
}.

Record EdgeMetrics : Type := MkEdgeMetrics {
  queue_depth : Z;
  max_depth : Z;
  pushed : Z;
  popped : Z;
  drop_count : Z;
  would_block_count : Z;
  cancelled_count : Z;
}.

Inductive PushOutcome : Type :=
| kAccepted
| kAcceptedDroppedOldest
| kDroppedNewest
| kWouldBlock
| kCancelled.
#[export] Instance PushOutcome_eq_dec : EqDecision PushOutcome.
Proof. solve_decision. Defined.

(** The object without [producer_] and [consumer_] (weak references used by
    the scheduler only). *)
Record EdgeChannel : Type := MkEdgeChannel {
  id_ : Z;
  external_id_ : string;
  contract_ : ConnectionContract;
  config_ : EdgeConfig;
  from_ : PortRef;
  to_ : PortRef;
  state_ : EdgeState;
  metrics_ : EdgeMetrics;
  ring_ : list PacketRef;
  head_ : Z;
  size_ : Z;
}.

Module Metrics.
Definition zero : EdgeMetrics := MkEdgeMetrics 0 0 0 0 0 0 0.
Definition set_depth (d : Z) (m : EdgeMetrics) : EdgeMetrics :=
  MkEdgeMetrics d (max_depth m) (pushed m) (popped m) (drop_count m) (would_block_count m)
    (cancelled_count m).
(** [BumpDepth] *)
Definition bump_depth (d : Z) (m : EdgeMetrics) : EdgeMetrics :=
  MkEdgeMetrics d (if d >? max_depth m then d else max_depth m) (pushed m) (popped m)
    (drop_count m) (would_block_count m) (cancelled_count m).
Definition add_pushed (m : EdgeMetrics) : EdgeMetrics :=
  MkEdgeMetrics (queue_depth m) (max_depth m) (Word.u64 (pushed m + 1)) (popped m) (drop_count m)
    (would_block_count m) (cancelled_count m).
Definition add_popped (m : EdgeMetrics) : EdgeMetrics :=
  MkEdgeMetrics (queue_depth m) (max_depth m) (pushed m) (Word.u64 (popped m + 1)) (drop_count m)
    (would_block_count m) (cancelled_count m).
Definition add_drop (m : EdgeMetrics) : EdgeMetrics :=
  MkEdgeMetrics (queue_depth m) (max_depth m) (pushed m) (popped m) (Word.u64 (drop_count m + 1))
    (would_block_count m) (cancelled_count m).
Definition add_would_block (m : EdgeMetrics) : EdgeMetrics :=
  MkEdgeMetrics (queue_depth m) (max_depth m) (pushed m) (popped m) (drop_count m)
    (Word.u64 (would_block_count m + 1)) (cancelled_count m).
Definition add_cancelled (m : EdgeMetrics) : EdgeMetrics :=
  MkEdgeMetrics (queue_depth m) (max_depth m) (pushed m) (popped m) (drop_count m)
    (would_block_count m) (Word.u64 (cancelled_count m + 1)).
End Metrics.

Module Edge.

Definition set_state (s : EdgeState) (c : EdgeChannel) : EdgeChannel :=
  MkEdgeChannel (id_ c) (external_id_ c) (contract_ c) (config_ c) (from_ c) (to_ c) s
    (metrics_ c) (ring_ c) (head_ c) (size_ c).
Definition on_metrics (f : EdgeMetrics -> EdgeMetrics) (c : EdgeChannel) : EdgeChannel :=
  MkEdgeChannel (id_ c) (external_id_ c) (contract_ c) (config_ c) (from_ c) (to_ c) (state_ c)
    (f (metrics_ c)) (ring_ c) (head_ c) (size_ c).
Definition set_ring (r : list PacketRef) (h n : Z) (c : EdgeChannel) : EdgeChannel :=
  MkEdgeChannel (id_ c) (external_id_ c) (contract_ c) (config_ c) (from_ c) (to_ c) (state_ c)
    (metrics_ c) r h n.

Definition ring_size (c : EdgeChannel) : Z := Z.of_nat (List.length (ring_ c)).

(** The constructor *)
Definition make (id : Z) (external_id : string) (contract : ConnectionContract)
    (config : EdgeConfig) (from to : PortRef) : EdgeChannel :=
  let n := Z.max (capacity config) 1 in
  MkEdgeChannel id external_id contract
    (MkEdgeConfig (Word.u32 n) (policy config) (cfg_sync_policy config)) from to kActive
    Metrics.zero (replicate (Z.to_nat n) None) 0 0.

Definition depth (c : EdgeChannel) : Z := queue_depth (metrics_ c).
Definition empty (c : EdgeChannel) : bool := depth c =? 0.
Definition full (c : EdgeChannel) : bool := depth c >=? capacity (config_ c).

Definition is_eos_ref (p : PacketRef) : bool :=
  match p with Some p => PacketOps.is_eos p | None => false end.

(** [ring_[i]]; indices are in range (invariant [chan_wf]). *)
Definition get (r : list PacketRef) (i : nat) : PacketRef :=
  match r !! i with Some p => p | None => None end.
Definition slot (r : list PacketRef) (i : Z) : PacketRef := get r (Z.to_nat i).
Definition put (i : Z) (p : PacketRef) (r : list PacketRef) : list PacketRef :=
  <[Z.to_nat i := p]> r.

(** [x % ring_.size()] of a [uint32_t] sum *)
Definition wrap (c : EdgeChannel) (x : Z) : Z := Word.u32 x mod ring_size c.

Definition MarkDraining (c : EdgeChannel) : EdgeChannel :=
  match state_ c with
  | kActive | kBackpressured => set_state kDraining c
  | _ => c
  end.

Definition MarkRetired (fast : bool) (c : EdgeChannel) : EdgeChannel :=
  if negb fast then set_state kRetired c
  else
    on_metrics (Metrics.set_depth 0)
      (set_ring (map (fun _ => None) (ring_ c)) 0 0 (set_state kRetired c)).

Definition TailHasEos (c : EdgeChannel) : bool :=
  if size_ c =? 0 then false
  else is_eos_ref (slot (ring_ c) (wrap c (head_ c + size_ c - 1))).

Definition PushLocked (packet : PacketRef) (c : EdgeChannel) : EdgeChannel :=
  let n := Word.u32 (size_ c + 1) in
  on_metrics (fun m => Metrics.bump_depth n (Metrics.add_pushed m))
    (set_ring (put (wrap c (head_ c + size_ c)) packet (ring_ c)) (head_ c) n c).

(** The scan of [drop_oldest] for the first packet that is not an EOS marker:
    its position and how many markers precede it. *)
Fixpoint scan_victim (rounds : nat) (c : EdgeChannel) (victim scanned : Z) : Z * Z :=
  match rounds with
  | O => (victim, scanned)
  | S k =>
      if (scanned <? size_ c) && is_eos_ref (slot (ring_ c) victim)
      then scan_victim k c (wrap c (victim + 1)) (scanned + 1)
      else (victim, scanned)
  end.

(** The loop that moves the packets behind the victim one slot left; a moved
    reference is null. *)
Fixpoint shift_left (rounds : nat) (c : EdgeChannel) (i last : Z) (r : list PacketRef)
    : list PacketRef :=
  match rounds with
  | O => r
  | S k =>
      if i =? last then r
      else let j := wrap c (i + 1) in
           shift_left k c j last (put j None (put i (slot r j) r))
  end.

Definition block (c : EdgeChannel) : PushOutcome * EdgeChannel :=
  let c := on_metrics Metrics.add_would_block c in
  (kWouldBlock, if decide (state_ c = kActive) then set_state kBackpressured c else c).

Definition evict_oldest (packet : PacketRef) (c : EdgeChannel) : PushOutcome * EdgeChannel :=
  let '(victim, scanned) := scan_victim (Z.to_nat (size_ c)) c (head_ c) 0 in
  if scanned =? size_ c then (kDroppedNewest, on_metrics Metrics.add_drop c)
  else
    let n := Word.u32 (size_ c - 1) in
    let c1 :=
      if victim =? head_ c then
        set_ring (put (head_ c) None (ring_ c)) (wrap c (head_ c + 1)) n c
      else
        let last := wrap c (head_ c + size_ c - 1) in
        set_ring (put last None (shift_left (List.length (ring_ c)) c victim last (ring_ c))) (head_ c) n c in
    (kAcceptedDroppedOldest, PushLocked packet (on_metrics Metrics.add_drop c1)).

Definition is_closing (s : EdgeState) : bool :=
  match s with kDraining | kRetired => true | _ => false end.

Definition Push (packet : PacketRef) (c : EdgeChannel) : PushOutcome * EdgeChannel :=
  if is_closing (state_ c) then (kCancelled, on_metrics Metrics.add_cancelled c)
  else
    let eos := is_eos_ref packet in
    if eos && TailHasEos c then (kAccepted, c)
    else if size_ c <? ring_size c then (kAccepted, PushLocked packet c)
    else if eos then block c
    else match policy (config_ c) with
         | kDropNewest => (kDroppedNewest, on_metrics Metrics.add_drop c)
         | kDropOldest => evict_oldest packet c
         | kBlock => block c
         end.

Definition InjectEos (eos : PacketRef) (c : EdgeChannel) : PushOutcome * EdgeChannel :=
  if decide (state_ c = kRetired) then (kCancelled, c)
  else if TailHasEos c then (kAccepted, c)
  else if size_ c >=? ring_size c then (kWouldBlock, c)
  else (kAccepted, PushLocked eos c).

Definition Pop (c : EdgeChannel) : option PacketRef * EdgeChannel :=
  if size_ c =? 0 then (None, c)
  else
    let n := Word.u32 (size_ c - 1) in
    (Some (slot (ring_ c) (head_ c)),
     on_metrics (fun m => Metrics.set_depth n (Metrics.add_popped m))
       (set_ring (put (head_ c) None (ring_ c)) (wrap c (head_ c + 1)) n c)).

Definition Peek (c : EdgeChannel) : PacketRef :=
  if size_ c =? 0 then None else slot (ring_ c) (head_ c).

Definition ClearBackpressure (c : EdgeChannel) : bool * EdgeChannel :=
  if full c then (false, c)
  else if decide (state_ c = kBackpressured) then (true, set_state kActive c)
  else (false, c).

Definition MarkBackpressured (c : EdgeChannel) : bool * EdgeChannel :=
  match state_ c with
  | kActive =>
      let c := set_state kBackpressured (on_metrics Metrics.add_would_block c) in
      if full c then (true, c) else (false, (ClearBackpressure c).2)
  | kBackpressured => if full c then (true, c) else (false, (ClearBackpressure c).2)
  | _ => (false, c)
  end.

End Edge.
