(* ===== verification/EdgeRefinement.v ===== *)
(** The ring of an edge implements a bounded first-in first-out queue: the
    abstract queue, the representation relation and the simulation of every
    method. *)

From stdpp Require Import base numbers list strings.
From Stdlib Require Import ZArith Lia Ascii String.
From S2P Require Import Prelude Types Double Json GraphSpec CapabilityTypes Packet EdgeChannel.

Local Open Scope nat_scope.
Local Open Scope list_scope.

(** ** The abstract queue *)

Record fifo : Type := MkFifo {
  f_state : EdgeState;
  f_policy : DropPolicy;
  f_capacity : nat;
  f_metrics : EdgeMetrics;
  f_queue : list PacketRef;
}.

Module Fifo.

Definition set_state (s : EdgeState) (f : fifo) : fifo :=
  MkFifo s (f_policy f) (f_capacity f) (f_metrics f) (f_queue f).
Definition on_metrics (g : EdgeMetrics -> EdgeMetrics) (f : fifo) : fifo :=
  MkFifo (f_state f) (f_policy f) (f_capacity f) (g (f_metrics f)) (f_queue f).
Definition set_queue (q : list PacketRef) (f : fifo) : fifo :=
  MkFifo (f_state f) (f_policy f) (f_capacity f) (f_metrics f) q.

Definition tail_eos (q : list PacketRef) : bool :=
  match last q with Some p => Edge.is_eos_ref p | None => false end.

(** The queue without its first packet that is not an EOS marker. *)
Fixpoint drop_oldest (q : list PacketRef) : option (list PacketRef) :=
  match q with
  | [] => None
  | p :: q' => if Edge.is_eos_ref p then option_map (cons p) (drop_oldest q') else Some q'
  end.

Definition enqueue (p : PacketRef) (f : fifo) : fifo :=
  let q := f_queue f ++ [p] in
  on_metrics (fun m => Metrics.bump_depth (Z.of_nat (List.length q)) (Metrics.add_pushed m)) (set_queue q f).

Definition block (f : fifo) : PushOutcome * fifo :=
  let f := on_metrics Metrics.add_would_block f in
  (kWouldBlock, if decide (f_state f = kActive) then set_state kBackpressured f else f).

Definition push (p : PacketRef) (f : fifo) : PushOutcome * fifo :=
  if Edge.is_closing (f_state f) then (kCancelled, on_metrics Metrics.add_cancelled f)
  else if Edge.is_eos_ref p && tail_eos (f_queue f) then (kAccepted, f)
  else if List.length (f_queue f) <? f_capacity f then (kAccepted, enqueue p f)
  else if Edge.is_eos_ref p then block f
  else match f_policy f with
       | kDropNewest => (kDroppedNewest, on_metrics Metrics.add_drop f)
       | kDropOldest =>
           match drop_oldest (f_queue f) with
           | None => (kDroppedNewest, on_metrics Metrics.add_drop f)
           | Some q => (kAcceptedDroppedOldest, enqueue p (on_metrics Metrics.add_drop (set_queue q f)))
           end
       | kBlock => block f
       end.

Definition inject_eos (p : PacketRef) (f : fifo) : PushOutcome * fifo :=
  if decide (f_state f = kRetired) then (kCancelled, f)
  else if tail_eos (f_queue f) then (kAccepted, f)
  else if f_capacity f <=? List.length (f_queue f) then (kWouldBlock, f)
  else (kAccepted, enqueue p f).

Definition pop (f : fifo) : option PacketRef * fifo :=
  match f_queue f with
  | [] => (None, f)
  | p :: q =>
      (Some p,
       on_metrics (fun m => Metrics.set_depth (Z.of_nat (List.length q)) (Metrics.add_popped m)) (set_queue q f))
  end.

Definition peek (f : fifo) : PacketRef := match f_queue f with [] => None | p :: _ => p end.

Definition full (f : fifo) : bool := f_capacity f <=? List.length (f_queue f).

Definition mark_draining (f : fifo) : fifo :=
  if Edge.is_closing (f_state f) then f else set_state kDraining f.

Definition mark_retired (fast : bool) (f : fifo) : fifo :=
  if fast then on_metrics (Metrics.set_depth 0) (set_queue [] (set_state kRetired f))
  else set_state kRetired f.

Definition clear_backpressure (f : fifo) : bool * fifo :=
  if full f then (false, f)
  else if decide (f_state f = kBackpressured) then (true, set_state kActive f)
  else (false, f).

Definition mark_backpressured (f : fifo) : bool * fifo :=
  match f_state f with
  | kActive =>
      let f := set_state kBackpressured (on_metrics Metrics.add_would_block f) in
      if full f then (true, f) else (false, (clear_backpressure f).2)
  | kBackpressured => if full f then (true, f) else (false, (clear_backpressure f).2)
  | _ => (false, f)
  end.

End Fifo.

(** ** Reading a ring from a position *)

Definition rot {A} (h : nat) (r : list A) : list A := drop h r ++ take h r.

Definition wrap_nat (n h k : nat) : nat := if h + k <? n then h + k else h + k - n.

Section rot.
Context {A : Type}.
Implicit Types (r : list A) (h k : nat).

Lemma length_rot h r : List.length (rot h r) = List.length r.
Proof. unfold rot. rewrite length_app, length_drop, length_take. lia. Qed.

Lemma rot_lookup h r k :
  h < List.length r -> k < List.length r ->
  rot h r !! k = r !! wrap_nat (List.length r) h k.
Proof.
  intros Hh Hk. unfold rot, wrap_nat. destruct (Nat.ltb_spec (h + k) (List.length r)).
  - rewrite lookup_app_l by (rewrite length_drop; lia). by rewrite lookup_drop.
  - rewrite lookup_app_r by (rewrite length_drop; lia). rewrite length_drop.
    rewrite lookup_take_lt by lia. f_equal. lia.
Qed.

Lemma rot_insert h r k x :
  h < List.length r -> k < List.length r ->
  rot h (<[wrap_nat (List.length r) h k := x]> r) = <[k := x]> (rot h r).
Proof.
  intros Hh Hk. unfold rot, wrap_nat. destruct (Nat.ltb_spec (h + k) (List.length r)).
  - rewrite take_insert_ge by lia. rewrite insert_app_l by (rewrite length_drop; lia).
    f_equal. rewrite drop_insert_ge by lia. f_equal. lia.
  - rewrite drop_insert_lt by lia. rewrite insert_app_r_alt by (rewrite length_drop; lia).
    f_equal. rewrite length_drop, take_insert_lt by lia. f_equal. lia.
Qed.

Lemma rot_succ h r x l :
  h < List.length r -> rot h r = x :: l -> rot (wrap_nat (List.length r) h 1) r = l ++ [x].
Proof.
  intros Hh Hr. destruct (lookup_lt_is_Some_2 r h Hh) as [y Hy].
  unfold rot in Hr. rewrite (drop_S r y h Hy) in Hr. injection Hr as <- <-.
  unfold rot, wrap_nat. destruct (Nat.ltb_spec (h + 1) (List.length r)).
  - replace (h + 1) with (S h) by lia. by rewrite (take_S_r r h y Hy), app_assoc.
  - replace (h + 1 - List.length r) with 0 by lia. rewrite drop_0, take_0, app_nil_r.
    rewrite (drop_ge r (S h)) by lia. rewrite app_nil_l, <- (take_S_r r h y Hy).
    by rewrite take_ge by lia.
Qed.

Lemma rot_0 r : rot 0 r = r.
Proof. unfold rot. by rewrite drop_0, take_0, app_nil_r. Qed.

End rot.

(** ** The representation relation *)

(** The ring read from [head_] is the queue followed by null slots.  The bound
    on the capacity keeps [head_ + size_] below 2^32. *)
Record rep_core (c : EdgeChannel) (f : fifo) : Prop := {
  rep_state : state_ c = f_state f;
  rep_policy : policy (config_ c) = f_policy f;
  rep_metrics : metrics_ c = f_metrics f;
  rep_length : List.length (ring_ c) = f_capacity f;
  rep_config : capacity (config_ c) = Z.of_nat (f_capacity f);
  rep_bound : 1 <= f_capacity f /\ (Z.of_nat (f_capacity f) <= 2 ^ 31)%Z;
  rep_size : size_ c = Z.of_nat (List.length (f_queue f));
  rep_fits : List.length (f_queue f) <= f_capacity f;
  rep_ring : exists h, head_ c = Z.of_nat h /\ h < f_capacity f /\
    rot h (ring_ c) = f_queue f ++ replicate (f_capacity f - List.length (f_queue f)) None;
}.

(** Outside the methods the published depth is the queue's length. *)
Definition represents (c : EdgeChannel) (f : fifo) : Prop :=
  rep_core c f /\ queue_depth (f_metrics f) = Z.of_nat (List.length (f_queue f)).

Lemma wrap_spec c n h k :
  List.length (ring_ c) = n -> (Z.of_nat n <= 2 ^ 31)%Z -> h < n -> k <= n ->
  Edge.wrap c (Z.of_nat h + Z.of_nat k) = Z.of_nat (wrap_nat n h k).
Proof.
  intros Hn Hb Hh Hk. unfold Edge.wrap, Edge.ring_size, wrap_nat. rewrite Hn.
  rewrite Word.u32_small by (unfold Word.is_u32; lia).
  destruct (Nat.ltb_spec (h + k) n).
  - rewrite Z.mod_small; lia.
  - replace (Z.of_nat h + Z.of_nat k)%Z with (Z.of_nat (h + k - n) + 1 * Z.of_nat n)%Z by lia.
    rewrite Z_mod_plus_full, Z.mod_small; lia.
Qed.

Lemma wrap_nat_lt n h k : h < n -> k <= n -> wrap_nat n h k < n.
Proof. intros. unfold wrap_nat. destruct (Nat.ltb_spec (h + k) n); lia. Qed.

Lemma wrap_nat_inj n h k k' : h < n -> k < n -> k' < n -> wrap_nat n h k = wrap_nat n h k' -> k = k'.
Proof.
  intros ???. unfold wrap_nat.
  destruct (Nat.ltb_spec (h + k) n), (Nat.ltb_spec (h + k') n); lia.
Qed.

Lemma wrap_nat_S n h k : h < n -> k < n -> wrap_nat n (wrap_nat n h k) 1 = wrap_nat n h (S k).
Proof.
  intros ??. unfold wrap_nat.
  repeat match goal with |- context [?a <? ?b] => destruct (Nat.ltb_spec a b) end; lia.
Qed.

Lemma wrap_nat_0 n h : h < n -> wrap_nat n h 0 = h.
Proof. intros. unfold wrap_nat. destruct (Nat.ltb_spec (h + 0) n); lia. Qed.

Lemma slot_nat r i : Edge.slot r (Z.of_nat i) = Edge.get r i.
Proof. unfold Edge.slot. by rewrite Nat2Z.id. Qed.

Lemma put_nat r i p : Edge.put (Z.of_nat i) p r = <[i := p]> r.
Proof. unfold Edge.put. by rewrite Nat2Z.id. Qed.

(** Reading and writing at an offset from the head. *)
Lemma slot_rot r n h k :
  List.length r = n -> h < n -> k < n ->
  Edge.slot r (Z.of_nat (wrap_nat n h k)) = Edge.get (rot h r) k.
Proof. intros <- Hh Hk. rewrite slot_nat. unfold Edge.get. by rewrite (rot_lookup h r k). Qed.

Lemma put_rot r n h k p :
  List.length r = n -> h < n -> k < n ->
  rot h (Edge.put (Z.of_nat (wrap_nat n h k)) p r) = <[k := p]> (rot h r).
Proof. intros <- Hh Hk. rewrite put_nat. by apply rot_insert. Qed.

Lemma length_put i p r : List.length (Edge.put i p r) = List.length r.
Proof. apply length_insert. Qed.

Lemma tail_eos_rep c f : rep_core c f -> Edge.TailHasEos c = Fifo.tail_eos (f_queue f).
Proof.
  intros [? ? ? Hl ? [Hb1 Hb2] Hs Hf (h & Hh & Hlt & Hr)]. unfold Edge.TailHasEos, Fifo.tail_eos.
  rewrite Hs, Hh. destruct (f_queue f) as [|p q] eqn:Eq; [done|].
  destruct (Z.eqb_spec (Z.of_nat (List.length (p :: q))) 0); [simpl in *; lia|].
  rewrite last_lookup. cbn [List.length pred] in *.
  replace (Z.of_nat h + Z.of_nat (S (List.length q)) - 1)%Z
    with (Z.of_nat h + Z.of_nat (List.length q))%Z by lia.
  rewrite (wrap_spec _ (f_capacity f)) by lia.
  rewrite (slot_rot _ (f_capacity f)), Hr by lia.
  unfold Edge.get. rewrite lookup_app_l by (simpl; lia).
  by destruct ((p :: q) !! List.length q).
Qed.

(** ** Enqueue *)

Lemma enqueue_rep c f p :
  rep_core c f -> List.length (f_queue f) < f_capacity f ->
  represents (Edge.PushLocked p c) (Fifo.enqueue p f).
Proof.
  intros [Hst Hp Hm Hl Hcf [Hb1 Hb2] Hs Hf (h & Hh & Hlt & Hr)] Hroom.
  assert (Hn : Word.u32 (size_ c + 1) = Z.of_nat (List.length (f_queue f ++ [p]))).
  { rewrite length_app, Hs. simpl. rewrite Word.u32_small; [lia|]. unfold Word.is_u32. lia. }
  unfold Edge.PushLocked, Fifo.enqueue. rewrite Hn. split; [|done]. split; simpl; try done.
  - by rewrite Hm.
  - by rewrite length_put.
  - rewrite length_app. simpl. lia.
  - exists h. split; [done|]. split; [done|].
    rewrite Hh, Hs, (wrap_spec _ (f_capacity f)) by lia.
    rewrite (put_rot _ (f_capacity f)) by lia. rewrite Hr.
    rewrite insert_app_r_alt by lia. rewrite Nat.sub_diag, length_app. simpl.
    replace (f_capacity f - List.length (f_queue f))
      with (S (f_capacity f - (List.length (f_queue f) + 1))) by lia.
    simpl. by rewrite <- app_assoc.
Qed.

(** ** Dequeue and eviction *)

(** Clearing the head slot and advancing [head_] removes the first packet. *)
Lemma drop_head_rep c f p q :
  rep_core c f -> f_queue f = p :: q ->
  Edge.slot (ring_ c) (head_ c) = p /\
  forall g, rep_core
    (Edge.on_metrics g (Edge.set_ring (Edge.put (head_ c) None (ring_ c))
       (Edge.wrap c (head_ c + 1)) (Word.u32 (size_ c - 1)) c))
    (Fifo.on_metrics g (Fifo.set_queue q f)).
Proof.
  intros [Hst Hp Hm Hl Hcf [Hb1 Hb2] Hs Hf (h & Hh & Hlt & Hr)] Eq.
  rewrite Eq in *. simpl in *.
  assert (Hslot : forall x, rot h (<[h := x]> (ring_ c)) = x :: q ++ replicate (f_capacity f - S (List.length q)) None).
  { intros x. pose proof (rot_insert h (ring_ c) 0 x) as Hi. rewrite wrap_nat_0, Hr in Hi by lia.
    apply Hi; lia. }
  split.
  - rewrite Hh, slot_nat. unfold Edge.get. pose proof (rot_lookup h (ring_ c) 0) as H0.
    rewrite wrap_nat_0, Hr in H0 by lia. by rewrite <- H0 by lia.
  - intros g. split; simpl; try done.
    + by rewrite Hm.
    + by rewrite length_put.
    + rewrite Hs, Word.u32_small; [lia|]. unfold Word.is_u32. lia.
    + lia.
    + exists (wrap_nat (f_capacity f) h 1). split_and!.
      * rewrite Hh. change 1%Z with (Z.of_nat 1). by apply wrap_spec.
      * apply wrap_nat_lt; lia.
      * rewrite Hh, put_nat. pose proof (length_insert (ring_ c) h (None : PacketRef)) as Hlen.
        rewrite Hl in Hlen. rewrite <- Hlen at 1.
        erewrite rot_succ by (apply Hslot || (rewrite Hlen; lia)). rewrite <- app_assoc. f_equal.
        change [None] with (replicate 1 (None : PacketRef)). rewrite <- replicate_add.
        f_equal. lia.
Qed.

(** Leading EOS markers. *)
Fixpoint eos_prefix (q : list PacketRef) : nat :=
  match q with [] => 0 | p :: q' => if Edge.is_eos_ref p then S (eos_prefix q') else 0 end.

Lemma scan_victim_spec c n h q rest k rounds :
  List.length (ring_ c) = n -> (Z.of_nat n <= 2 ^ 31)%Z -> h < n ->
  rot h (ring_ c) = q ++ rest -> size_ c = Z.of_nat (List.length q) ->
  k + rounds = List.length q ->
  Edge.scan_victim rounds c (Z.of_nat (wrap_nat n h k)) (Z.of_nat k) =
    (Z.of_nat (wrap_nat n h (k + eos_prefix (drop k q))), Z.of_nat (k + eos_prefix (drop k q))).
Proof.
  intros Hn Hb Hh Hr Hs.
  assert (Hq : List.length q <= n).
  { rewrite <- Hn, <- (length_rot h (ring_ c)), Hr, length_app. lia. }
  revert k. induction rounds as [|r IH]; intros k Hk; simpl.
  - rewrite drop_ge by lia. simpl. by rewrite Nat.add_0_r.
  - destruct (lookup_lt_is_Some_2 q k) as [p Hp]; [lia|].
    rewrite (drop_S q p k Hp). simpl. rewrite Hs.
    destruct (Z.ltb_spec (Z.of_nat k) (Z.of_nat (List.length q))); [|lia]. simpl.
    rewrite (slot_rot _ n), Hr by lia. unfold Edge.get. rewrite lookup_app_l, Hp by lia.
    destruct (Edge.is_eos_ref p); [|by rewrite Nat.add_0_r].
    change 1%Z with (Z.of_nat 1). rewrite (wrap_spec _ n) by (done || lia || (apply wrap_nat_lt; lia)).
    rewrite wrap_nat_S by lia. rewrite <- Nat2Z.inj_add, Nat.add_1_r, IH by lia.
    by rewrite Nat.add_succ_r.
Qed.

Lemma eos_prefix_all q : eos_prefix q = List.length q <-> Fifo.drop_oldest q = None.
Proof.
  induction q as [|p q IH]; simpl; [done|]. destruct (Edge.is_eos_ref p); [|done].
  destruct (Fifo.drop_oldest q); simpl in *; split; try done; intros; lia || (f_equal; by apply IH) || idtac.
  exfalso. assert (eos_prefix q = List.length q) as Hq by lia. by apply IH in Hq.
Qed.

Lemma drop_oldest_split q q' :
  Fifo.drop_oldest q = Some q' ->
  exists x, q = take (eos_prefix q) q ++ x :: drop (S (eos_prefix q)) q /\
            q' = take (eos_prefix q) q ++ drop (S (eos_prefix q)) q /\
            eos_prefix q < List.length q.
Proof.
  revert q'. induction q as [|p q IH]; simpl; [done|]. intros q'.
  destruct (Edge.is_eos_ref p).
  - destruct (Fifo.drop_oldest q) as [q1|]; [|done]. intros [= <-].
    destruct (IH q1 eq_refl) as (x & Hq & Hq1 & Hlt). exists x. simpl.
    split_and!; [by f_equal|by f_equal|lia].
  - intros [= <-]. exists p. simpl. rewrite drop_0. split_and!; [done|done|lia].
Qed.

Lemma shift_left_spec c n h l : forall pre x rest r rounds,
  List.length (ring_ c) = n -> (Z.of_nat n <= 2 ^ 31)%Z -> h < n -> List.length r = n ->
  rot h r = pre ++ x :: l ++ rest -> List.length l < rounds ->
  let last := Z.of_nat (wrap_nat n h (List.length pre + List.length l)) in
  let r' := Edge.put last None
    (Edge.shift_left rounds c (Z.of_nat (wrap_nat n h (List.length pre))) last r) in
  rot h r' = pre ++ l ++ None :: rest /\ List.length r' = n.
Proof.
  induction l as [|y l IH]; intros pre x rest r rounds Hn Hb Hh Hr Hrot Hrounds last r'.
  all: assert (Hlen : List.length (rot h r) = n) by by rewrite length_rot.
  all: rewrite Hrot, length_app in Hlen; simpl in Hlen; rewrite ?length_app in Hlen.
  all: destruct rounds as [|rounds]; [simpl in *; lia|]; simpl in *.
  - subst r' last. rewrite Nat.add_0_r. rewrite Z.eqb_refl. split; [|by rewrite length_put].
    rewrite (put_rot _ n), Hrot by lia. rewrite insert_app_r_alt by lia. by rewrite Nat.sub_diag.
  - subst r'. assert (Hne : (Z.of_nat (wrap_nat n h (List.length pre)) =? last)%Z = false).
    { apply Z.eqb_neq. subst last. intros E%Nat2Z.inj%wrap_nat_inj; lia. }
    rewrite Hne. change 1%Z with (Z.of_nat 1).
    rewrite (wrap_spec _ n) by (done || lia || (apply wrap_nat_lt; lia)).
    rewrite wrap_nat_S by lia.
    assert (Hslot : Edge.slot r (Z.of_nat (wrap_nat n h (S (List.length pre)))) = y).
    { rewrite (slot_rot _ n), Hrot by lia. unfold Edge.get.
      rewrite lookup_app_r by lia. by replace (S (List.length pre) - List.length pre) with 1 by lia. }
    rewrite Hslot. subst last.
    replace (List.length pre + S (List.length l)) with (List.length (pre ++ [y]) + List.length l)
      by (rewrite length_app; simpl; lia).
    replace (S (List.length pre)) with (List.length (pre ++ [y])) by (rewrite length_app; simpl; lia).
    match goal with |- context [Edge.shift_left rounds c _ _ ?r1] => set (r' := r1) end.
    assert (Hr1 : rot h r' = (pre ++ [y]) ++ None :: l ++ rest).
    { subst r'. rewrite length_app. simpl. rewrite (put_rot _ n), (put_rot _ n), Hrot by
        (rewrite ?length_put; lia).
      rewrite insert_app_r_alt, Nat.sub_diag by lia. simpl.
      rewrite insert_app_r_alt by lia.
      replace (List.length pre + 1 - List.length pre) with 1 by lia. simpl.
      by rewrite <- app_assoc. }
    destruct (IH (pre ++ [y]) None rest r' rounds) as [H1 H2]; try done; try lia.
    + subst r'. by rewrite !length_put.
    + split; [|exact H2]. rewrite H1, <- app_assoc. done.
Qed.

Lemma scan_rep c f h :
  rep_core c f -> head_ c = Z.of_nat h -> h < f_capacity f ->
  rot h (ring_ c) = f_queue f ++ replicate (f_capacity f - List.length (f_queue f)) None ->
  Edge.scan_victim (Z.to_nat (size_ c)) c (head_ c) 0 =
    (Z.of_nat (wrap_nat (f_capacity f) h (eos_prefix (f_queue f))), Z.of_nat (eos_prefix (f_queue f))).
Proof.
  intros [Hst Hp Hm Hl Hcf [Hb1 Hb2] Hs Hf _] Hh Hlt Hr.
  pose proof (scan_victim_spec c (f_capacity f) h (f_queue f) _ 0 (List.length (f_queue f)) Hl Hb2 Hlt Hr Hs)
    as Hsc. rewrite wrap_nat_0, drop_0 in Hsc by done. rewrite Hs, Nat2Z.id, Hh. by apply Hsc.
Qed.

Lemma evict_none_rep c f p :
  rep_core c f -> Fifo.drop_oldest (f_queue f) = None ->
  Edge.evict_oldest p c = (kDroppedNewest, Edge.on_metrics Metrics.add_drop c).
Proof.
  intros Hrep Ed. pose proof Hrep as [_ _ _ _ _ _ Hs _ (h & Hh & Hlt & Hr)].
  unfold Edge.evict_oldest. rewrite (scan_rep c f h), Hs by done.
  apply eos_prefix_all in Ed. by rewrite Ed, Z.eqb_refl.
Qed.

Lemma evict_some_rep c f p q :
  rep_core c f -> Fifo.drop_oldest (f_queue f) = Some q ->
  exists c', Edge.evict_oldest p c = (kAcceptedDroppedOldest, c') /\
    represents c' (Fifo.enqueue p (Fifo.on_metrics Metrics.add_drop (Fifo.set_queue q f))).
Proof.
  intros Hrep Ed. pose proof Hrep as [Hst Hp Hm Hl Hcf [Hb1 Hb2] Hs Hf (h & Hh & Hlt & Hr)].
  unfold Edge.evict_oldest. rewrite (scan_rep c f h), Hs by done.
  apply drop_oldest_split in Ed as (x & Hq & Hq' & Hlen).
  destruct (Z.eqb_spec (Z.of_nat (eos_prefix (f_queue f))) (Z.of_nat (List.length (f_queue f))));
    [lia|].
  set (k := eos_prefix (f_queue f)) in *. set (pre := take k (f_queue f)) in *.
  set (l := drop (S k) (f_queue f)) in *.
  assert (Hpre : List.length pre = k) by (subst pre; rewrite length_take; lia).
  assert (Hlq : List.length (f_queue f) = k + S (List.length l)).
  { rewrite Hq, length_app, Hpre. done. }
  assert (Hn : Word.u32 (Z.of_nat (List.length (f_queue f)) - 1) = Z.of_nat (List.length q)).
  { subst q. rewrite Hlq, length_app, Hpre. rewrite Word.u32_small; [lia|]. unfold Word.is_u32. lia. }
  eexists. split; [reflexivity|]. apply enqueue_rep; [|simpl; subst q; rewrite length_app; lia].
  destruct (Z.eqb_spec (Z.of_nat (wrap_nat (f_capacity f) h k)) (head_ c)) as [Ev|Ev].
  - assert (k = 0) as Hk.
    { rewrite Hh in Ev. apply Nat2Z.inj in Ev. rewrite <- (wrap_nat_0 (f_capacity f) h) in Ev at 2 by done.
      by apply wrap_nat_inj in Ev; try lia. }
    assert (f_queue f = x :: l) as Hxl by (rewrite Hq; subst pre; by rewrite Hk, take_0).
    destruct (drop_head_rep c f x l Hrep Hxl) as [_ Hpop].
    assert (q = l) as -> by (subst q pre; by rewrite Hk, take_0).
    rewrite <- Hs. apply Hpop.
  - assert (Hlast : Edge.wrap c (head_ c + Z.of_nat (List.length (f_queue f)) - 1)
      = Z.of_nat (wrap_nat (f_capacity f) h (List.length pre + List.length l))).
    { rewrite Hh, Hlq, Hpre. rewrite <- (wrap_spec c) by lia. f_equal. lia. }
    rewrite Hlast.
    destruct (shift_left_spec c (f_capacity f) h l pre x
      (replicate (f_capacity f - List.length (f_queue f)) None) (ring_ c) (List.length (ring_ c)))
      as [Hrot Hlen']; try done; try lia.
    { by rewrite Hr, Hq, <- app_assoc at 1. }
    rewrite Hpre in Hrot, Hlen'. rewrite Hpre.
    split; simpl; try done.
    + by rewrite Hm.
    + subst q. rewrite length_app. lia.
    + exists h. split; [done|]. split; [done|]. rewrite Hrot. subst q. rewrite length_app, <- app_assoc, Hpre.
      do 2 f_equal. replace (f_capacity f - (k + List.length l))
        with (S (f_capacity f - List.length (f_queue f))) by lia. done.
Qed.

(** ** Simulation *)

Ltac rep_same :=
  match goal with
  | H : represents _ _ |- represents _ _ =>
      let Hc := fresh in destruct H as [Hc ?]; split; [destruct Hc; split; simpl; congruence || done|done]
  end.

Lemma metrics_rep c f g :
  (forall m, queue_depth (g m) = queue_depth m) ->
  represents c f -> represents (Edge.on_metrics g c) (Fifo.on_metrics g f).
Proof.
  intros Hg [[] Hd]. split; [split; simpl; try done; congruence|]. simpl. by rewrite Hg.
Qed.

Lemma state_rep c f s : represents c f -> represents (Edge.set_state s c) (Fifo.set_state s f).
Proof. intros [[] Hd]. by split. Qed.

Lemma block_rep c f :
  represents c f ->
  (Edge.block c).1 = (Fifo.block f).1 /\ represents (Edge.block c).2 (Fifo.block f).2.
Proof.
  intros Hrep. assert (Hm : represents (Edge.on_metrics Metrics.add_would_block c)
    (Fifo.on_metrics Metrics.add_would_block f)) by by apply metrics_rep.
  unfold Edge.block, Fifo.block. split; [done|]. simpl. rewrite (rep_state _ _ (proj1 Hrep)).
  case_decide; [|done]. by apply state_rep.
Qed.

Lemma push_rep c f p :
  represents c f ->
  (Edge.Push p c).1 = (Fifo.push p f).1 /\ represents (Edge.Push p c).2 (Fifo.push p f).2.
Proof.
  intros Hrep. pose proof Hrep as [Hcore Hd].
  unfold Edge.Push, Fifo.push. rewrite (rep_state _ _ Hcore), (tail_eos_rep _ _ Hcore).
  rewrite (rep_policy _ _ Hcore). unfold Edge.ring_size.
  rewrite (rep_size _ _ Hcore), (rep_length _ _ Hcore).
  replace (Z.of_nat (List.length (f_queue f)) <? Z.of_nat (f_capacity f))%Z
    with (List.length (f_queue f) <? f_capacity f)
    by (destruct (Nat.ltb_spec (List.length (f_queue f)) (f_capacity f)); lia).
  destruct (Edge.is_closing _); [split; [done|by apply metrics_rep]|].
  destruct (_ && _); [done|].
  destruct (Nat.ltb_spec (List.length (f_queue f)) (f_capacity f)); [split; [done|by apply enqueue_rep]|].
  destruct (Edge.is_eos_ref p); [by apply block_rep|].
  destruct (f_policy f); [by apply block_rep| |split; [done|by apply metrics_rep]].
  destruct (Fifo.drop_oldest (f_queue f)) as [q|] eqn:Ed.
  - destruct (evict_some_rep c f p q Hcore Ed) as (c' & -> & Hc'). done.
  - rewrite (evict_none_rep c f p Hcore Ed). split; [done|by apply metrics_rep].
Qed.

Lemma inject_eos_rep c f p :
  represents c f ->
  (Edge.InjectEos p c).1 = (Fifo.inject_eos p f).1 /\
  represents (Edge.InjectEos p c).2 (Fifo.inject_eos p f).2.
Proof.
  intros Hrep. pose proof Hrep as [Hcore Hd].
  unfold Edge.InjectEos, Fifo.inject_eos. rewrite (rep_state _ _ Hcore), (tail_eos_rep _ _ Hcore).
  unfold Edge.ring_size. rewrite (rep_size _ _ Hcore), (rep_length _ _ Hcore).
  case_decide; [done|]. destruct (Fifo.tail_eos _); [done|].
  destruct (Nat.leb_spec (f_capacity f) (List.length (f_queue f))) as [Hle|Hlt].
  - by replace (_ >=? _)%Z with true by lia.
  - replace (_ >=? _)%Z with false by lia. split; [done|]. by apply enqueue_rep.
Qed.

Lemma pop_rep c f :
  represents c f ->
  (Edge.Pop c).1 = (Fifo.pop f).1 /\ represents (Edge.Pop c).2 (Fifo.pop f).2.
Proof.
  intros Hrep. pose proof Hrep as [Hcore Hd]. unfold Edge.Pop, Fifo.pop.
  rewrite (rep_size _ _ Hcore). destruct (f_queue f) as [|p q] eqn:Eq; [done|].
  destruct (Z.eqb_spec (Z.of_nat (List.length (p :: q))) 0); [simpl in *; lia|].
  destruct (drop_head_rep c f p q Hcore Eq) as [Hp Hpop]. simpl. rewrite Hp. split; [done|].
  assert (Hu : Word.u32 (Z.of_nat (S (List.length q)) - 1) = Z.of_nat (List.length q)).
  { destruct (rep_bound _ _ Hcore). pose proof (rep_fits _ _ Hcore) as Hfit. rewrite Eq in Hfit.
    simpl in Hfit. rewrite Word.u32_small; [lia|]. unfold Word.is_u32. lia. }
  split; [|done].
  specialize (Hpop (fun m => Metrics.set_depth (Z.of_nat (List.length q)) (Metrics.add_popped m))).
  rewrite (rep_size _ _ Hcore), Eq in Hpop. simpl in Hpop. by rewrite Hu in *.
Qed.

Lemma full_rep c f : represents c f -> Edge.full c = Fifo.full f.
Proof.
  intros [Hcore Hd]. unfold Edge.full, Edge.depth, Fifo.full.
  rewrite (rep_metrics _ _ Hcore), Hd, (rep_config _ _ Hcore).
  destruct (Nat.leb_spec (f_capacity f) (List.length (f_queue f))); lia.
Qed.

Lemma clear_rep c f :
  represents c f ->
  (Edge.ClearBackpressure c).1 = (Fifo.clear_backpressure f).1 /\
  represents (Edge.ClearBackpressure c).2 (Fifo.clear_backpressure f).2.
Proof.
  intros Hrep. unfold Edge.ClearBackpressure, Fifo.clear_backpressure.
  rewrite (full_rep _ _ Hrep), (rep_state _ _ (proj1 Hrep)).
  destruct (Fifo.full f); [done|]. case_decide; [|done]. split; [done|by apply state_rep].
Qed.

Lemma mark_backpressured_rep c f :
  represents c f ->
  (Edge.MarkBackpressured c).1 = (Fifo.mark_backpressured f).1 /\
  represents (Edge.MarkBackpressured c).2 (Fifo.mark_backpressured f).2.
Proof.
  intros Hrep. unfold Edge.MarkBackpressured, Fifo.mark_backpressured.
  rewrite (rep_state _ _ (proj1 Hrep)).
  assert (Hm : represents (Edge.set_state kBackpressured (Edge.on_metrics Metrics.add_would_block c))
    (Fifo.set_state kBackpressured (Fifo.on_metrics Metrics.add_would_block f)))
    by by apply state_rep, metrics_rep.
  destruct (f_state f); try done; cbv zeta.
  - rewrite (full_rep _ _ Hm). destruct (Fifo.full _); [done|].
    split; [done|]. by apply clear_rep.
  - rewrite (full_rep _ _ Hrep). destruct (Fifo.full _); [done|].
    split; [done|]. by apply clear_rep.
Qed.

Lemma mark_draining_rep c f :
  represents c f -> represents (Edge.MarkDraining c) (Fifo.mark_draining f).
Proof.
  intros Hrep. unfold Edge.MarkDraining, Fifo.mark_draining. rewrite (rep_state _ _ (proj1 Hrep)).
  destruct (f_state f); simpl; auto using state_rep.
Qed.

Lemma map_const_replicate {A B} (x : B) (l : list A) :
  map (fun _ => x) l = replicate (List.length l) x.
Proof. induction l as [|y l IH]; simpl; [done|]. f_equal. exact IH. Qed.

Lemma mark_retired_rep fast c f :
  represents c f -> represents (Edge.MarkRetired fast c) (Fifo.mark_retired fast f).
Proof.
  intros Hrep. unfold Edge.MarkRetired, Fifo.mark_retired.
  destruct fast; simpl; [|by apply state_rep].
  destruct Hrep as [[? ? Hm Hl ? [Hb1 Hb2] ? ? ?] _]. split; [|done]. split; simpl; try done.
  - by rewrite Hm.
  - by rewrite length_map.
  - lia.
  - exists 0. split; [done|]. split; [lia|]. rewrite rot_0, Nat.sub_0_r, <- Hl.
    apply map_const_replicate.
Qed.

(** ** Method calls in sequence *)

Inductive edge_op : Type :=
| OPush (p : PacketRef)
| OInjectEos (p : PacketRef)
| OPop
| OPeek
| OMarkDraining
| OMarkRetired (fast : bool)
| OClearBackpressure
| OMarkBackpressured
| OFull.

Inductive edge_result : Type :=
| ROutcome (o : PushOutcome)
| RPopped (p : option PacketRef)
| RHead (p : PacketRef)
| RFlag (b : bool)
| RNone.

Definition edge_call (op : edge_op) (c : EdgeChannel) : edge_result * EdgeChannel :=
  match op with
  | OPush p => let '(o, c) := Edge.Push p c in (ROutcome o, c)
  | OInjectEos p => let '(o, c) := Edge.InjectEos p c in (ROutcome o, c)
  | OPop => let '(p, c) := Edge.Pop c in (RPopped p, c)
  | OPeek => (RHead (Edge.Peek c), c)
  | OMarkDraining => (RNone, Edge.MarkDraining c)
  | OMarkRetired fast => (RNone, Edge.MarkRetired fast c)
  | OClearBackpressure => let '(b, c) := Edge.ClearBackpressure c in (RFlag b, c)
  | OMarkBackpressured => let '(b, c) := Edge.MarkBackpressured c in (RFlag b, c)
  | OFull => (RFlag (Edge.full c), c)
  end.

Definition fifo_call (op : edge_op) (f : fifo) : edge_result * fifo :=
  match op with
  | OPush p => let '(o, f) := Fifo.push p f in (ROutcome o, f)
  | OInjectEos p => let '(o, f) := Fifo.inject_eos p f in (ROutcome o, f)
  | OPop => let '(p, f) := Fifo.pop f in (RPopped p, f)
  | OPeek => (RHead (Fifo.peek f), f)
  | OMarkDraining => (RNone, Fifo.mark_draining f)
  | OMarkRetired fast => (RNone, Fifo.mark_retired fast f)
  | OClearBackpressure => let '(b, f) := Fifo.clear_backpressure f in (RFlag b, f)
  | OMarkBackpressured => let '(b, f) := Fifo.mark_backpressured f in (RFlag b, f)
  | OFull => (RFlag (Fifo.full f), f)
  end.

Fixpoint calls {S} (call : edge_op -> S -> edge_result * S) (ops : list edge_op) (s : S)
    : list edge_result * S :=
  match ops with
  | [] => ([], s)
  | op :: ops' =>
      let '(r, s1) := call op s in
      let '(rs, s2) := calls call ops' s1 in (r :: rs, s2)
  end.

Definition fifo_make (config : EdgeConfig) : fifo :=
  MkFifo kActive (policy config) (Z.to_nat (Z.max (capacity config) 1)) Metrics.zero [].

Lemma make_rep id ext contract config from to :
  (0 <= capacity config <= 2 ^ 31)%Z ->
  represents (Edge.make id ext contract config from to) (fifo_make config).
Proof.
  intros Hc. unfold Edge.make, fifo_make. split; [|done]. split; simpl; try done.
  - by rewrite length_replicate.
  - rewrite Word.u32_small; [lia|]. unfold Word.is_u32. lia.
  - lia.
  - lia.
  - exists 0. split; [done|]. split; [lia|]. by rewrite rot_0, Nat.sub_0_r.
Qed.

Lemma call_rep op c f :
  represents c f ->
  (edge_call op c).1 = (fifo_call op f).1 /\ represents (edge_call op c).2 (fifo_call op f).2.
Proof.
  intros Hrep. destruct op; simpl.
  - destruct (push_rep c f p Hrep). destruct (Edge.Push p c), (Fifo.push p f); simpl in *. by subst.
  - destruct (inject_eos_rep c f p Hrep).
    destruct (Edge.InjectEos p c), (Fifo.inject_eos p f); simpl in *. by subst.
  - destruct (pop_rep c f Hrep). destruct (Edge.Pop c), (Fifo.pop f); simpl in *. by subst.
  - split; [|done]. unfold Edge.Peek, Fifo.peek. destruct Hrep as [Hcore _].
    rewrite (rep_size _ _ Hcore). destruct (f_queue f) as [|p q] eqn:Eq; [done|].
    by destruct (drop_head_rep c f p q Hcore Eq) as [-> _].
  - auto using mark_draining_rep.
  - auto using mark_retired_rep.
  - destruct (clear_rep c f Hrep).
    destruct (Edge.ClearBackpressure c), (Fifo.clear_backpressure f); simpl in *. by subst.
  - destruct (mark_backpressured_rep c f Hrep).
    destruct (Edge.MarkBackpressured c), (Fifo.mark_backpressured f); simpl in *. by subst.
  - by rewrite (full_rep _ _ Hrep).
Qed.

Lemma calls_rep ops c f :
  represents c f ->
  (calls edge_call ops c).1 = (calls fifo_call ops f).1 /\
  represents (calls edge_call ops c).2 (calls fifo_call ops f).2.
Proof.
  revert c f. induction ops as [|op ops IH]; intros c f Hrep; simpl; [done|].
  destruct (call_rep op c f Hrep) as [H1 H2].
  destruct (edge_call op c) as [r c1], (fifo_call op f) as [r' f1]. simpl in *. subst r'.
  destruct (IH c1 f1 H2) as [H3 H4].
  destruct (calls edge_call ops c1), (calls fifo_call ops f1). simpl in *. by subst.
Qed.

(** C1: The ring implements the bounded queue: for every sequence of method
    calls on a new edge of capacity at most 2^31, every call returns what the
    abstract first-in first-out queue returns, and the final ring represents
    the final queue (wrap-around, eviction from the middle and clearing
    included). *)
Theorem edge_refines_fifo id ext contract config from to ops :
  (0 <= capacity config <= 2 ^ 31)%Z ->
  let c := Edge.make id ext contract config from to in
  (calls edge_call ops c).1 = (calls fifo_call ops (fifo_make config)).1 /\
  represents (calls edge_call ops c).2 (calls fifo_call ops (fifo_make config)).2.
Proof. intros Hc c. by apply calls_rep, make_rep. Qed.

Definition sample_packet (sq fl : Z) : PacketRef :=
  Some (MkPacket (MkPacketHeader sq 0 0 fl 1 1 1) None None 0).
Definition sample_config : EdgeConfig := MkEdgeConfig 2 kDropOldest kAny.
Definition sample_edge : EdgeChannel :=
  Edge.make 1 "e" default_contract sample_config (MkPortRef "a" "out") (MkPortRef "b" "in").
Definition sample_ops : list edge_op :=
  [OPush (sample_packet 1 2); OPush (sample_packet 2 0); OPush (sample_packet 3 0); OPop; OPop; OPop].

Lemma edge_refines_fifo_witness :
  (calls edge_call sample_ops sample_edge).1 = (calls fifo_call sample_ops (fifo_make sample_config)).1 /\
  represents (calls edge_call sample_ops sample_edge).2
    (calls fifo_call sample_ops (fifo_make sample_config)).2.
Proof. apply edge_refines_fifo. vm_compute. by split. Defined.

(** With a larger capacity the 32-bit sum [head_ + size_] wraps: the next slot
    is computed from the wrapped sum and an occupied slot is overwritten. *)
Lemma wrap_overflow c :
  Edge.ring_size c = (2 ^ 31 + 2)%Z -> head_ c = (2 ^ 31 + 1)%Z -> size_ c = (2 ^ 31 - 1)%Z ->
  Edge.wrap c (head_ c + size_ c) = 0%Z /\
  ((head_ c + size_ c) mod Edge.ring_size c)%Z = (2 ^ 31 - 2)%Z.
Proof. intros H1 H2 H3. unfold Edge.wrap. rewrite H1, H2, H3. by vm_compute. Qed.
