(* ===== verification/EdgeTraces.v ===== *)
(** What an edge delivers: order, losses and end-of-stream markers over whole
    call sequences, and the edge's state machine. *)

From stdpp Require Import base numbers list strings.
From Stdlib Require Import ZArith Lia Ascii String.
From S2P Require Import Prelude Types Double Json GraphSpec CapabilityTypes Packet EdgeChannel EdgeRefinement.

Local Open Scope nat_scope.
Local Open Scope list_scope.

(** The packet a call adds to the queue.  An EOS marker behind another one is
    accepted without being queued again. *)
Definition enters (op : edge_op) (c : EdgeChannel) : list PacketRef :=
  match op with
  | OPush p =>
      match (Edge.Push p c).1 with
      | kAccepted => if Edge.is_eos_ref p && Edge.TailHasEos c then [] else [p]
      | kAcceptedDroppedOldest => [p]
      | _ => []
      end
  | OInjectEos p =>
      match (Edge.InjectEos p c).1 with
      | kAccepted => if Edge.TailHasEos c then [] else [p]
      | _ => []
      end
  | _ => []
  end.

(** The packet a call hands to the consumer. *)
Definition leaves (op : edge_op) (c : EdgeChannel) : list PacketRef :=
  match op with
  | OPop => match (Edge.Pop c).1 with Some p => [p] | None => [] end
  | _ => []
  end.

Fixpoint entered (ops : list edge_op) (c : EdgeChannel) : list PacketRef :=
  match ops with [] => [] | op :: ops' => enters op c ++ entered ops' (edge_call op c).2 end.
Fixpoint left_ (ops : list edge_op) (c : EdgeChannel) : list PacketRef :=
  match ops with [] => [] | op :: ops' => leaves op c ++ left_ ops' (edge_call op c).2 end.

(** The queued packets, from the head. *)
Definition contents (c : EdgeChannel) : list PacketRef :=
  take (Z.to_nat (size_ c)) (rot (Z.to_nat (head_ c)) (ring_ c)).

Definition is_fast_retire (op : edge_op) : bool :=
  match op with OMarkRetired true => true | _ => false end.

Lemma contents_rep c f : represents c f -> contents c = f_queue f.
Proof.
  intros [[? ? ? ? ? ? Hs ? (h & Hh & ? & Hr)] _]. unfold contents.
  rewrite Hs, Hh, !Nat2Z.id, Hr. by rewrite take_app_length.
Qed.

Definition eos_of (q : list PacketRef) : list PacketRef := List.filter Edge.is_eos_ref q.

Lemma drop_oldest_sublist q q' :
  Fifo.drop_oldest q = Some q' -> sublist q' q /\ eos_of q' = eos_of q.
Proof.
  revert q'. induction q as [|p q IH]; simpl; [done|]. intros q'.
  destruct (Edge.is_eos_ref p) eqn:E.
  - destruct (Fifo.drop_oldest q) as [q1|]; [|done]. intros [= <-].
    destruct (IH q1 eq_refl) as [Hs He]. split; [by constructor|]. unfold eos_of in *.
    cbn [List.filter]. by rewrite E, He.
  - intros [= <-]. split; [by constructor|done].
Qed.

(** One call: what leaves and what stays is what was there and what enters,
    minus at most evicted data. *)
Definition keeps (lossless : bool) (before after : list PacketRef) : Prop :=
  sublist after before /\ eos_of after = eos_of before /\ (lossless = true -> after = before).

Lemma keeps_refl b l : keeps b l l.
Proof. by split_and!. Qed.

Lemma eos_of_app l1 l2 : eos_of (l1 ++ l2) = eos_of l1 ++ eos_of l2.
Proof. apply List.filter_app. Qed.

Lemma keeps_app b l l' m m' : keeps b l l' -> keeps b m m' -> keeps b (l ++ m) (l' ++ m').
Proof.
  intros (Hs1 & He1 & Hl1) (Hs2 & He2 & Hl2). split_and!.
  - by apply sublist_app.
  - by rewrite !eos_of_app, He1, He2.
  - intros Hb. by rewrite Hl1, Hl2.
Qed.

Lemma keeps_trans b l1 l2 l3 : keeps b l1 l2 -> keeps b l2 l3 -> keeps b l1 l3.
Proof.
  intros (Hs1 & He1 & Hl1) (Hs2 & He2 & Hl2). split_and!; [by etrans|by rewrite He2|].
  intros Hb. by rewrite Hl2, Hl1.
Qed.

Definition lossless_policy (p : DropPolicy) : bool :=
  match p with kDropOldest => false | _ => true end.

Lemma push_keeps c f p :
  represents c f ->
  keeps (lossless_policy (f_policy f)) (f_queue f ++ enters (OPush p) c) (f_queue (Fifo.push p f).2).
Proof.
  intros Hrep. unfold enters. destruct (push_rep c f p Hrep) as [-> _].
  rewrite (tail_eos_rep _ _ (proj1 Hrep)). unfold Fifo.push.
  destruct (Edge.is_closing _); [rewrite app_nil_r; apply keeps_refl|].
  destruct (_ && _) eqn:Et; simpl; [rewrite app_nil_r; apply keeps_refl|].
  destruct (_ <? _); simpl; [apply keeps_refl|].
  assert (Hblock : keeps (lossless_policy (f_policy f)) (f_queue f ++ []) (f_queue (Fifo.block f).2)).
  { rewrite app_nil_r. unfold Fifo.block. simpl. case_decide; apply keeps_refl. }
  destruct (Edge.is_eos_ref p); [exact Hblock|].
  destruct (f_policy f); [exact Hblock| |rewrite app_nil_r; apply keeps_refl].
  destruct (Fifo.drop_oldest (f_queue f)) as [q|] eqn:Ed; simpl; [|rewrite app_nil_r; apply keeps_refl].
  apply drop_oldest_sublist in Ed as [Hs He]. apply keeps_app; [by split_and!|apply keeps_refl].
Qed.

Lemma call_keeps op c f :
  represents c f -> is_fast_retire op = false ->
  keeps (lossless_policy (f_policy f)) (f_queue f ++ enters op c)
    (leaves op c ++ f_queue (fifo_call op f).2).
Proof.
  intros Hrep Hfast. destruct op; simpl; rewrite ?app_nil_r; try apply keeps_refl.
  - pose proof (push_keeps c f p Hrep) as Hk. simpl in Hk. by destruct (Fifo.push p f).
  - destruct (inject_eos_rep c f p Hrep) as [-> _]. rewrite (tail_eos_rep _ _ (proj1 Hrep)).
    unfold Fifo.inject_eos. case_decide; [rewrite app_nil_r; apply keeps_refl|].
    destruct (Fifo.tail_eos _) eqn:Et; simpl; [rewrite app_nil_r; apply keeps_refl|].
    destruct (_ <=? _); [rewrite app_nil_r; apply keeps_refl|apply keeps_refl].
  - destruct (pop_rep c f Hrep) as [-> _]. unfold Fifo.pop.
    destruct (f_queue f) eqn:Eq; simpl; [rewrite Eq|]; apply keeps_refl.
  - unfold Fifo.mark_draining. destruct (Edge.is_closing _); apply keeps_refl.
  - destruct fast; [done|]. apply keeps_refl.
  - unfold Fifo.clear_backpressure. destruct (Fifo.full f); [apply keeps_refl|].
    case_decide; apply keeps_refl.
  - unfold Fifo.mark_backpressured, Fifo.clear_backpressure. destruct (f_state f); simpl;
      repeat (destruct (Fifo.full _) || case_decide); apply keeps_refl.
Qed.

Lemma fifo_policy op f : f_policy (fifo_call op f).2 = f_policy f.
Proof.
  destruct op; simpl; unfold Fifo.push, Fifo.inject_eos, Fifo.pop, Fifo.mark_draining,
    Fifo.mark_retired, Fifo.mark_backpressured, Fifo.clear_backpressure, Fifo.block; try done;
    repeat (case_decide || case_match; simplify_eq/=; try done).
Qed.

Lemma run_keeps ops c f :
  represents c f -> Forall (fun op => is_fast_retire op = false) ops ->
  keeps (lossless_policy (f_policy f)) (f_queue f ++ entered ops c)
    (left_ ops c ++ contents (calls edge_call ops c).2).
Proof.
  revert c f. induction ops as [|op ops IH]; intros c f Hrep Hops; simpl.
  { rewrite app_nil_r, (contents_rep c f Hrep). apply keeps_refl. }
  apply Forall_cons in Hops as [Hop Hops].
  pose proof (call_keeps op c f Hrep Hop) as Hk.
  destruct (call_rep op c f Hrep) as [_ Hrep'].
  specialize (IH _ _ Hrep' Hops). rewrite fifo_policy in IH.
  destruct (edge_call op c) as [r c1]. simpl in *.
  destruct (calls edge_call ops c1) as [rs c2]. simpl in *.
  rewrite app_assoc. eapply keeps_trans; [apply keeps_app; [exact Hk|apply keeps_refl]|].
  rewrite <- !app_assoc. apply keeps_app; [apply keeps_refl|done].
Qed.

(** Delivery over any sequence of calls without a fast retirement: the
    packets handed out followed by those still queued are the packets that
    entered, in order, with none lost unless the policy is [drop_oldest]; and
    even then no end-of-stream marker is lost. *)
Theorem edge_delivery id ext contract config from to ops :
  (0 <= capacity config <= 2 ^ 31)%Z ->
  Forall (fun op => is_fast_retire op = false) ops ->
  let c := Edge.make id ext contract config from to in
  keeps (lossless_policy (policy config)) (entered ops c)
    (left_ ops c ++ contents (calls edge_call ops c).2).
Proof.
  intros Hc Hops c. by apply (run_keeps ops c (fifo_make config)); [apply make_rep|].
Qed.

Lemma edge_delivery_witness :
  keeps false (entered sample_ops sample_edge)
    (left_ sample_ops sample_edge ++ contents (calls edge_call sample_ops sample_edge).2).
Proof. apply edge_delivery; [vm_compute; by split|by repeat constructor]. Defined.

(** ** The state machine *)

(** Progress of an edge: open, draining, retired. *)
Definition stage (s : EdgeState) : nat :=
  match s with kActive | kBackpressured => 0 | kDraining => 1 | kRetired => 2 end.

Lemma block_state c :
  state_ (Edge.block c).2 = state_ c \/ (state_ c = kActive /\ state_ (Edge.block c).2 = kBackpressured).
Proof. unfold Edge.block. simpl. case_decide; [right|left]; done. Qed.

Lemma push_state p c :
  state_ (Edge.Push p c).2 = state_ c \/ (state_ c = kActive /\ state_ (Edge.Push p c).2 = kBackpressured).
Proof.
  unfold Edge.Push. destruct (Edge.is_closing _); [by left|]. cbv zeta. destruct (_ && _); [by left|].
  destruct (_ <? _)%Z; [by left|]. destruct (Edge.is_eos_ref p); [apply block_state|].
  destruct (policy _); [apply block_state| |by left]. left. unfold Edge.evict_oldest.
  destruct (Edge.scan_victim _ _ _ _) as [v n]. destruct (n =? _)%Z; [done|]. simpl.
  by destruct (v =? _)%Z.
Qed.

Lemma clear_state c :
  state_ (Edge.ClearBackpressure c).2 = state_ c \/
  (state_ c = kBackpressured /\ state_ (Edge.ClearBackpressure c).2 = kActive).
Proof. unfold Edge.ClearBackpressure. destruct (Edge.full c); [by left|]. case_decide; [right|left]; done. Qed.

(** An edge never goes back: no call leads from draining to open or from
    retired to draining, and once the edge is draining or retired every [Push]
    is cancelled and changes nothing but the counter of cancelled pushes. *)
Theorem edge_stage_monotone op c :
  stage (state_ c) <= stage (state_ (edge_call op c).2) /\
  (1 <= stage (state_ c) -> forall p,
     Edge.Push p c = (kCancelled, Edge.on_metrics Metrics.add_cancelled c)).
Proof.
  split.
  - destruct op; simpl.
    + destruct (push_state p c) as [H|[H1 H2]]; destruct (Edge.Push p c); simpl in *;
        [by rewrite H|rewrite H1; simpl; lia].
    + unfold Edge.InjectEos. case_decide; [done|]. destruct (Edge.TailHasEos c); [done|].
      by destruct (_ >=? _)%Z.
    + unfold Edge.Pop. by destruct (_ =? _)%Z.
    + done.
    + unfold Edge.MarkDraining. destruct (state_ c) eqn:E; simpl; rewrite ?E; simpl; lia.
    + unfold Edge.MarkRetired. destruct fast, (state_ c); simpl; lia.
    + destruct (clear_state c) as [H|[H1 H2]]; destruct (Edge.ClearBackpressure c); simpl in *;
        [by rewrite H|rewrite H1; simpl; lia].
    + unfold Edge.MarkBackpressured, Edge.ClearBackpressure. destruct (state_ c) eqn:E; simpl;
        repeat (destruct (Edge.full _) || case_decide); simpl; rewrite ?E; simpl; lia.
    + done.
  - intros Hs p. unfold Edge.Push. destruct (state_ c); simpl in *; try lia; done.
Qed.
