(* ===== verification/EdgeProtocol.v ===== *)
(** Backpressure between a source and the consumer of its one block edge, with
    their threads.  The tasks of the source and the turns of the consumer
    interleave at every access to the edge, the slots and the parked packets:
    a turn of a source (InvokeBody and RunSource, src/scheduler_invoke.cpp), its
    emits (Sink::PushOnRoutes, src/scheduler_internal.h), the parked packets and
    OutputsBlocked (src/scheduler_backpressure.cpp), the state of the edge
    (src/edge_channel.cpp), and AcquireBatch, Pause and Resume.  Accesses are
    sequentially consistent here.  The source is not cancelled, held, retired or
    stopped, and neither ends nor fails. *)

From stdpp Require Import base numbers list relations.
From Stdlib Require Import Lia.
From S2P Require Import Prelude Types GraphSpec EdgeChannel.

Local Open Scope nat_scope.
Local Open Scope list_scope.

(** Where a thread stands in [OutputsBlocked] and [MarkBackpressured]. *)
Inductive check_pc : Type :=
| KFull                      (* OutputsBlocked: full() *)
| KMark                      (* MarkBackpressured: the exchange active -> backpressured *)
| KMarkFull                  (* MarkBackpressured: full() *)
| KClearFull                 (* ClearBackpressure: full() *)
| KClear.                    (* ClearBackpressure: the exchange backpressured -> active *)

(** Where a thread stands in [RetryParked]. *)
Inductive retry_pc : Type :=
| PLock                      (* park_retry_mutex_ and the snapshot *)
| PPush (left sent : nat)    (* the next packet of the snapshot *)
| PStore (sent : nat).       (* what was sent leaves the store *)

(** Where a task stands in [PushOnRoutes]. *)
Inductive emit_pc : Type := EParked | EPush | EPark.

(** Where a task of the source stands. *)
Inductive task_pc : Type :=
| TStart                     (* InvokeBody: HasParked *)
| TRetry (p : retry_pc)
| TCancelParked              (* still parked: CancelSchedule *)
| TGuardParked               (* HasParked again, without the slot *)
| TCheck (k : check_pc)
| TCancel                    (* blocked: CancelSchedule *)
| TSource                    (* RunSource: paused_ *)
| TSkip                      (* paused: CancelSchedule *)
| TRun (left : nat)          (* Process, which may still emit [left] packets *)
| TEmit (p : emit_pc) (left : nat)
| TGuard (k : check_pc)      (* OutputsBlocked without the slot *)
| TRemark                    (* not blocked: MarkReady *)
| TDone.

(** Where the consumer stands in [AcquireBatch]. *)
Inductive consumer_pc : Type :=
| CIdle
| CPop                       (* TryAcquire pops *)
| CClearFull                 (* ClearBackpressure: full() *)
| CClear                     (* ClearBackpressure: the exchange *)
| CHasParked                 (* the producer's HasParked *)
| CRetry (p : retry_pc)
| CMarkReady.

Record world : Type := MkWorld {
  w_state : EdgeState;
  w_depth : nat;             (* of the edge *)
  w_parked : nat;            (* packets the source has parked *)
  w_locked : bool;           (* park_retry_mutex_ *)
  w_slots : nat;             (* available_slots_ *)
  w_tasks : list task_pc;
  w_consumer : consumer_pc;
  w_paused : bool;
  w_resuming : bool;         (* Resume is about to mark the sources *)
}.

Definition set_edge (x : EdgeState) (w : world) : world := MkWorld x (w_depth w) (w_parked w) (w_locked w) (w_slots w) (w_tasks w) (w_consumer w) (w_paused w) (w_resuming w).
Definition set_depth (x : nat) (w : world) : world := MkWorld (w_state w) x (w_parked w) (w_locked w) (w_slots w) (w_tasks w) (w_consumer w) (w_paused w) (w_resuming w).
Definition set_parked (x : nat) (w : world) : world := MkWorld (w_state w) (w_depth w) x (w_locked w) (w_slots w) (w_tasks w) (w_consumer w) (w_paused w) (w_resuming w).
Definition set_locked (x : bool) (w : world) : world := MkWorld (w_state w) (w_depth w) (w_parked w) x (w_slots w) (w_tasks w) (w_consumer w) (w_paused w) (w_resuming w).
Definition set_slots (x : nat) (w : world) : world := MkWorld (w_state w) (w_depth w) (w_parked w) (w_locked w) x (w_tasks w) (w_consumer w) (w_paused w) (w_resuming w).
Definition set_tasks (x : list task_pc) (w : world) : world := MkWorld (w_state w) (w_depth w) (w_parked w) (w_locked w) (w_slots w) x (w_consumer w) (w_paused w) (w_resuming w).
Definition set_consumer (x : consumer_pc) (w : world) : world := MkWorld (w_state w) (w_depth w) (w_parked w) (w_locked w) (w_slots w) (w_tasks w) x (w_paused w) (w_resuming w).
Definition set_pause (x y : bool) (w : world) : world := MkWorld (w_state w) (w_depth w) (w_parked w) (w_locked w) (w_slots w) (w_tasks w) (w_consumer w) x y.

(** What may happen next: a task goes on, [Process] of a task returns, the
    consumer goes on or pops, the session pauses or resumes. *)
Inductive action : Type := ATask (i : nat) | AReturn (i : nat) | AConsumer | APop | APause | AResume | AResumeMark.

Section protocol.
(** The edge's capacity, the source's parallelism, how many packets one call
    of [Process] emits at most, and whether sessions pause. *)
Variables (cap max burst : nat) (pauses : bool).

Definition full (w : world) : bool := cap <=? w_depth w.
Definition has_parked (w : world) : bool := 0 <? w_parked w.

(** The exchange of [MarkBackpressured] and of a [Push] that would block. *)
Definition mark (w : world) : world := match w_state w with kActive => set_edge kBackpressured w | _ => w end.
(** The exchange of [ClearBackpressure] and whether it happened. *)
Definition clear (w : world) : bool * world := match w_state w with kBackpressured => (true, set_edge kActive w) | _ => (false, w) end.
(** [CancelSchedule] and [EndInvoke]: the slot is back. *)
Definition free (w : world) : world := set_slots (S (w_slots w)) w.
(** [MarkReady]: a new task when [TrySchedule] finds a slot. *)
Definition schedule (w : world) : world :=
  match w_slots w with O => w | S n => set_tasks (w_tasks w ++ [TStart]) (set_slots n w) end.

(** [OutputsBlocked]: where it goes on, or whether the edge blocks. *)
Definition blocked_step (k : check_pc) (w : world) : (check_pc + bool) * world :=
  match k with
  | KFull => (if full w then inl KMark else inr false, w)
  | KMark => (inl KMarkFull, mark w)
  | KMarkFull => (if full w then inr true else inl KClearFull, w)
  | KClearFull => (if full w then inr false else inl KClear, w)
  | KClear => (inr false, (clear w).2)
  end.
(** [RetryParked]: [None] waits for the lock; it goes on or has returned. *)
Definition retry_step (p : retry_pc) (w : world) : option (option retry_pc * world) :=
  match p with
  | PLock => if w_locked w then None
             else if has_parked w then Some (Some (PPush (w_parked w) 0), set_locked true w) else Some (None, w)
  | PPush (S n) d => if full w then Some (Some (PStore d), mark w) else Some (Some (PPush n (S d)), set_depth (S (w_depth w)) w)
  | PPush O d => Some (Some (PStore d), w)
  | PStore d => Some (None, set_locked false (set_parked (w_parked w - d) w))
  end.
(** [PushOnRoutes]. *)
Definition emit_step (p : emit_pc) (w : world) : option emit_pc * world :=
  match p with
  | EParked => (Some (if has_parked w then EPark else EPush), w)
  | EPush => if full w then (Some EPark, mark w) else (None, set_depth (S (w_depth w)) w)
  | EPark => (None, set_parked (S (w_parked w)) w)
  end.

(** [InvokeBody] and [RunSource]. *)
Definition task_step (i : nat) (t : task_pc) (w : world) : option world :=
  let go t w := Some (set_tasks (<[i := t]> (w_tasks w)) w) in
  match t with
  | TStart => go (if has_parked w then TRetry PLock else TCheck KFull) w
  | TRetry p => match retry_step p w with
                | None => None
                | Some (Some p, w) => go (TRetry p) w
                | Some (None, w) => go (if has_parked w then TCancelParked else TCheck KFull) w
                end
  | TCancelParked => go TGuardParked (free w)
  | TGuardParked => go (if has_parked w then TDone else TRemark) w
  | TCheck k => match blocked_step k w with
                | (inl k, w) => go (TCheck k) w
                | (inr blocked, w) => go (if blocked then TCancel else TSource) w
                end
  | TCancel => go (TGuard KFull) (free w)
  | TSource => go (if w_paused w then TSkip else TRun burst) w
  | TSkip => go TDone (free w)
  | TRun (S n) => go (TEmit EParked n) w
  | TRun O => None
  | TEmit p n => match emit_step p w with
                 | (Some p, w) => go (TEmit p n) w
                 | (None, w) => go (TRun n) w
                 end
  | TGuard k => match blocked_step k w with
                | (inl k, w) => go (TGuard k) w
                | (inr blocked, w) => go (if blocked then TDone else TRemark) w
                end
  | TRemark => schedule <$> go TDone w
  | TDone => None
  end.

(** [AcquireBatch]. *)
Definition consumer_step (w : world) : option world :=
  let go c w := Some (set_consumer c w) in
  match w_consumer w with
  | CIdle => go CPop w
  | CPop => go CClearFull w
  | CClearFull => go (if full w then CIdle else CClear) w
  | CClear => let '(cleared, w) := clear w in go (if cleared then CHasParked else CIdle) w
  | CHasParked => go (if has_parked w then CRetry PLock else CMarkReady) w
  | CRetry p => match retry_step p w with
                | None => None
                | Some (Some p, w) => go (CRetry p) w
                | Some (None, w) => go CMarkReady w
                end
  | CMarkReady => go CIdle (schedule w)
  end.

Definition act (a : action) (w : world) : option world :=
  match a with
  | ATask i => match w_tasks w !! i with Some t => task_step i t w | None => None end
  | AReturn i => match w_tasks w !! i with
                 | Some (TRun _) => Some (set_tasks (<[i := TGuard KFull]> (w_tasks w)) (free w))
                 | _ => None
                 end
  | AConsumer => consumer_step w
  | APop => match w_consumer w, w_depth w with CPop, S d => Some (set_depth d w) | _, _ => None end
  | APause => if pauses then Some (set_pause true (w_resuming w) w) else None
  | AResume => if pauses then Some (set_pause false true w) else None
  | AResumeMark => if w_resuming w then Some (schedule (set_pause (w_paused w) false w)) else None
  end.

Definition step : relation world := fun w w' => exists a, act a w = Some w'.

(** [Start] has marked the source. *)
Definition initial : world := MkWorld kActive 0 0 false (max - 1) [TStart] CIdle false false.
Definition reachable (w : world) : Prop := rtc step initial w.

(** A sequence of actions. *)
Fixpoint acts (l : list action) (w : world) : option world :=
  match l with [] => Some w | a :: l => match act a w with Some w => acts l w | None => None end end.
Lemma acts_steps l : forall w w', acts l w = Some w' -> rtc step w w'.
Proof.
  induction l as [|a l IH]; intros w w'; simpl; [by intros [= <-]|]. destruct (act a w) as [w1|] eqn:E; [|done]. intros H.
  eapply rtc_l; [by exists a|by apply IH].
Qed.

End protocol.

(** Every task has returned and the consumer is between two turns. *)
Definition resting (w : world) : Prop := Forall (eq TDone) (w_tasks w) /\ w_consumer w = CIdle.

(** ** One packet a call *)

(** A source with one slot whose calls emit at most one packet: nothing is ever
    parked, because the slot was taken when the edge was seen with room. *)
Section single.
Variable (cap : nat).

(** Tasks that hold the slot. *)
Definition holds (t : task_pc) : bool := match t with TGuardParked | TGuard _ | TRemark | TDone => false | _ => true end.
(** Tasks that will still look at the edge or mark the node. *)
Definition alert (t : task_pc) : bool := match t with TGuard KMarkFull | TDone => false | _ => true end.
(** Tasks about to look whether the edge they marked is still full. *)
Definition looking (t : task_pc) : bool := match t with TGuard KMarkFull => true | _ => false end.
(** Tasks that saw room for the packet they have yet to emit. *)
Definition fresh (t : task_pc) : bool :=
  match t with TCheck KClearFull | TCheck KClear | TSource | TRun (S _) | TEmit _ _ => true | _ => false end.
(** The places a task gets to. *)
Definition unparked (t : task_pc) : bool :=
  match t with
  | TRetry _ | TCancelParked | TGuardParked | TSkip | TEmit EPark _ => false
  | TRun n => n <=? 1
  | TEmit _ n => n =? 0
  | _ => true
  end.
Definition in_turn (c : consumer_pc) : bool := match c with CPop | CClearFull | CClear => true | _ => false end.
Definition wakes (c : consumer_pc) : bool := match c with CHasParked | CMarkReady => true | _ => false end.
Definition plain (c : consumer_pc) : bool := match c with CRetry _ => false | _ => true end.

Record inv (w : world) : Prop := {
  inv_slots : w_slots w + count holds (w_tasks w) = 1;
  inv_depth : w_depth w <= cap;
  inv_state : w_state w = kActive \/ w_state w = kBackpressured;
  inv_parked : w_parked w = 0;
  inv_paused : w_paused w = false /\ w_resuming w = false;
  inv_tasks : Forall (fun t => unparked t = true) (w_tasks w);
  inv_fresh : 0 < count fresh (w_tasks w) -> w_depth w < cap;
  inv_plain : plain (w_consumer w) = true;
  inv_active : w_state w = kActive -> 0 < count alert (w_tasks w) \/ wakes (w_consumer w) = true;
  inv_blocked : w_state w = kBackpressured ->
    w_depth w = cap \/ 0 < count alert (w_tasks w) \/ 0 < count looking (w_tasks w) \/ in_turn (w_consumer w) = true;
}.

Lemma holds_alert l : count holds l <= count alert l.
Proof. apply count_le. by intros [| | | |[]| | | | | |[]| |]. Qed.
Lemma fresh_holds l : count fresh l <= count holds l.
Proof. apply count_le. by intros [| | | |[]| | | |[]| |[]| |]. Qed.
Lemma full_spec w : full cap w = true <-> cap <= w_depth w.
Proof. apply Nat.leb_le. Qed.
Lemma room_spec w : full cap w = false <-> w_depth w < cap.
Proof. apply Nat.leb_gt. Qed.
Lemma inv_initial : inv (initial 1).
Proof. split; simpl; auto; lia. Qed.

(** A task goes on and stays alert. *)
Lemma inv_move w i t t' s n d : inv w -> w_tasks w !! i = Some t -> alert t' = true -> unparked t' = true ->
  s = kActive \/ s = kBackpressured -> n + Nat.b2n (holds t') = w_slots w + Nat.b2n (holds t) ->
  d <= cap -> (fresh t' = true -> d < cap) -> d = w_depth w \/ fresh t = true ->
  inv (set_tasks (<[i := t']> (w_tasks w)) (set_edge s (set_slots n (set_depth d w)))).
Proof.
  intros [Hs Hd Hst Hp Hz Ht Hf Hc Ha Hb] Hi Hal Hu Hst' Hn Hdc Hfr Hdd.
  pose proof (count_insert holds _ _ _ t' Hi). pose proof (count_insert alert _ _ _ t' Hi) as Ea. pose proof (count_insert fresh _ _ _ t' Hi) as Ef.
  rewrite Hal in Ea. pose proof (count_lookup alert (w_tasks w) i t Hi) as La. pose proof (fresh_holds (w_tasks w)). pose proof (holds_alert (w_tasks w)).
  assert (La' : 0 < count alert (<[i := t']> (w_tasks w))) by (destruct (alert t); simpl in *; lia).
  split; simpl; auto; [lia|by apply Forall_insert|]. intros Hpos. destruct (fresh t') eqn:E; [by apply Hfr|]. simpl in Ef.
  destruct Hdd as [->|E2]; [apply Hf; lia|]. rewrite E2 in Ef. simpl in Ef. lia.
Qed.

Lemma world_eta w : set_edge (w_state w) (set_slots (w_slots w) (set_depth (w_depth w) w)) = w.
Proof. by destruct w. Qed.
Lemma mark_eq w : inv w -> mark w = set_edge kBackpressured (set_slots (w_slots w) (set_depth (w_depth w) w)).
Proof. intros H. unfold mark. destruct (inv_state w H) as [E|E]; rewrite E; destruct w; simpl in *; by subst. Qed.
Lemma clear_eq w : inv w -> (clear w).2 = set_edge kActive (set_slots (w_slots w) (set_depth (w_depth w) w)).
Proof. intros H. unfold clear. destruct (inv_state w H) as [E|E]; rewrite E; destruct w; simpl in *; by subst. Qed.
Lemma free_eq w : free w = set_edge (w_state w) (set_slots (S (w_slots w)) (set_depth (w_depth w) w)).
Proof. by destruct w. Qed.

(** The steps that change nothing but the task, mark or clear the edge. *)
Lemma inv_read w i t t' : inv w -> w_tasks w !! i = Some t -> alert t' = true -> unparked t' = true -> holds t = holds t' ->
  (fresh t' = true -> w_depth w < cap) -> inv (set_tasks (<[i := t']> (w_tasks w)) w).
Proof.
  intros H Hi Ha Hu Hh Hf. rewrite <- (world_eta w) at 2. eapply inv_move; try done; [apply H|by rewrite Hh|apply H|by left].
Qed.
Lemma inv_mark w i t t' : inv w -> w_tasks w !! i = Some t -> alert t' = true -> unparked t' = true -> holds t = holds t' -> fresh t' = false ->
  inv (set_tasks (<[i := t']> (w_tasks (mark w))) (mark w)).
Proof.
  intros H Hi Ha Hu Hh Hf. rewrite (mark_eq w H). simpl. eapply inv_move; try done; [by right|by rewrite Hh|apply H|by rewrite Hf|by left].
Qed.
Lemma inv_clear w i t t' : inv w -> w_tasks w !! i = Some t -> alert t' = true -> unparked t' = true -> holds t = holds t' ->
  (fresh t' = true -> fresh t = true) -> inv (set_tasks (<[i := t']> (w_tasks (clear w).2)) (clear w).2).
Proof.
  intros H Hi Ha Hu Hh Hf. rewrite (clear_eq w H). simpl. eapply inv_move; try done; [by left|by rewrite Hh|apply H| |by left].
  intros E. apply (inv_fresh w H). apply (count_lookup _ _ _ _ Hi). auto.
Qed.
Lemma inv_free w i t : inv w -> w_tasks w !! i = Some t -> holds t = true -> inv (set_tasks (<[i := TGuard KFull]> (w_tasks w)) (free w)).
Proof. intros H Hi Hh. rewrite (free_eq w). eapply inv_move; try done; [apply H|rewrite Hh; simpl; lia|apply H|by left]. Qed.
Lemma inv_push w i : inv w -> w_tasks w !! i = Some (TEmit EPush 0) -> inv (set_tasks (<[i := TRun 0]> (w_tasks w)) (set_depth (S (w_depth w)) w)).
Proof.
  intros H Hi. pose proof (inv_fresh w H (count_lookup fresh _ _ _ Hi eq_refl)).
  assert (E : set_depth (S (w_depth w)) w = set_edge (w_state w) (set_slots (w_slots w) (set_depth (S (w_depth w)) w))) by (by destruct w). rewrite E. simpl.
  eapply inv_move; try done; [apply H|by right].
Qed.

(** The steps after which a task is no longer alert. *)
Lemma inv_guard_mark w i : inv w -> w_tasks w !! i = Some (TGuard KMark) -> inv (set_tasks (<[i := TGuard KMarkFull]> (w_tasks (mark w))) (mark w)).
Proof.
  intros H Hi. rewrite (mark_eq w H). destruct H as [Hs Hd Hst Hp Hz Ht Hf Hc Ha Hb]. simpl.
  pose proof (count_insert holds _ _ _ (TGuard KMarkFull) Hi). pose proof (count_insert looking _ _ _ (TGuard KMarkFull) Hi). pose proof (count_insert fresh _ _ _ (TGuard KMarkFull) Hi).
  simpl in *. split; simpl; auto; [lia|by apply Forall_insert|intros; apply Hf; lia|done|]. intros _. right; right; left. lia.
Qed.
Lemma inv_guard_full w i : inv w -> w_tasks w !! i = Some (TGuard KMarkFull) -> full cap w = true -> inv (set_tasks (<[i := TDone]> (w_tasks w)) w).
Proof.
  intros [Hs Hd Hst Hp Hz Ht Hf Hc Ha Hb] Hi Hfull%full_spec. simpl.
  pose proof (count_insert holds _ _ _ TDone Hi). pose proof (count_insert alert _ _ _ TDone Hi). pose proof (count_insert fresh _ _ _ TDone Hi).
  simpl in *. split; simpl; auto; [lia|by apply Forall_insert|intros; apply Hf; lia|intros E; destruct (Ha E); [left; lia|by right]|]. intros _. left. lia.
Qed.
Lemma inv_schedule w : w_slots w + count holds (w_tasks w) = 1 -> w_depth w <= cap -> (w_state w = kActive \/ w_state w = kBackpressured) -> w_parked w = 0 ->
  (w_paused w = false /\ w_resuming w = false) -> Forall (fun t => unparked t = true) (w_tasks w) -> (0 < count fresh (w_tasks w) -> w_depth w < cap) ->
  plain (w_consumer w) = true -> inv (schedule w).
Proof.
  intros. unfold schedule. pose proof (holds_alert (w_tasks w)). destruct (w_slots w) as [|n] eqn:E.
  - split; auto; [lia|left; lia|right; left; lia].
  - split; simpl; rewrite ?count_snoc; simpl; auto; [lia|by apply Forall_app; split; [|repeat constructor]|rewrite Nat.add_0_r; auto|left; lia|right; left; lia].
Qed.

Lemma inv_task_step i t w w' : inv w -> w_tasks w !! i = Some t -> task_step cap 1 i t w = Some w' -> inv w'.
Proof.
  intros H Hi. pose proof (inv_tasks w H) as Ht. rewrite Forall_forall in Ht. specialize (Ht t (list_elem_of_lookup_2 _ _ _ Hi)).
  pose proof (inv_fresh w H) as Hf. pose proof (fun E => Hf (count_lookup fresh _ _ _ Hi E)) as Hroom.
  assert (Hp : has_parked w = false) by (unfold has_parked; by rewrite (inv_parked w H)). destruct (inv_paused w H) as [Hz _].
  destruct t as [|?| | |[]| | | |[|[|n]]|[] n|[]| |]; simpl in Ht; try done; simpl; rewrite ?Hp, ?Hz;
    try (apply Nat.eqb_eq in Ht as ->); lazymatch goal with |- context [full cap w] => destruct (full cap w) eqn:Ef | _ => idtac end; intros [= <-].
  all: try (by eapply inv_read; eauto; intros; apply room_spec).
  all: try (by eapply inv_mark; eauto).
  all: try (by eapply inv_clear; eauto).
  all: try (by eapply inv_free; eauto).
  - apply full_spec in Ef. specialize (Hroom eq_refl). lia.
  - by apply inv_push.
  - by apply inv_guard_mark.
  - by apply inv_guard_full.
  - destruct H as [Hs Hd Hst Hp' Hz' Ht' Hf' Hc Ha Hb]. pose proof (count_insert holds _ _ _ TDone Hi). pose proof (count_insert fresh _ _ _ TDone Hi). simpl in *.
    apply inv_schedule; simpl; auto; [lia|by apply Forall_insert|intros; apply Hf; lia].
Qed.

Lemma inv_consumer w w' : inv w -> consumer_step cap w = Some w' -> inv w'.
Proof.
  intros H. assert (Hp : has_parked w = false) by (unfold has_parked; by rewrite (inv_parked w H)). pose proof (clear_eq w H) as Hclear.
  destruct H as [Hs Hd Hst Hp' Hz Ht Hf Hc Ha Hb]. unfold consumer_step. destruct (w_consumer w) eqn:Ec; simpl in Hc; try done; simpl in *.
  - intros [= <-]. by split; simpl; auto.
  - intros [= <-]. by split; simpl; auto.
  - intros [= <-]. destruct (full cap w) eqn:Ef; split; simpl; auto; intros E; try (destruct (Ha E); [by left|done]). left. apply full_spec in Ef. lia.
  - unfold clear in *. destruct (w_state w) eqn:Es; simpl in *; intros [= <-]; try (by destruct Hst).
    + by split; simpl; rewrite ?Es; auto.
    + by split; simpl; auto.
  - rewrite Hp. intros [= <-]. by split; simpl; auto.
  - intros [= <-]. unfold schedule. pose proof (holds_alert (w_tasks w)).
    assert (Hi : inv (schedule (set_consumer CIdle w))) by (by apply inv_schedule). unfold schedule in Hi. simpl in Hi. by destruct (w_slots w).
Qed.

Lemma inv_step w w' : inv w -> step cap 1 false w w' -> inv w'.
Proof.
  intros H [[i|i| | | | |] E]; simpl in E.
  - destruct (w_tasks w !! i) as [t|] eqn:Hi; [|done]. by eapply inv_task_step.
  - destruct (w_tasks w !! i) as [[]|] eqn:Hi; try done. injection E as <-. by eapply inv_free.
  - by eapply inv_consumer.
  - destruct (w_consumer w) eqn:Ec; try done. destruct (w_depth w) as [|d] eqn:Ed; [done|]. injection E as <-.
    destruct H as [Hs Hd Hst Hp Hz Ht Hf Hc Ha Hb]. split; simpl; auto; [lia|intros; specialize (Hf ltac:(done)); lia|].
    rewrite Ec. auto.
  - done.
  - done.
  - destruct (inv_paused w H) as [_ Hr]. by rewrite Hr in E.
Qed.
Lemma inv_reachable w : reachable cap 1 1 false w -> inv w.
Proof.
  intros R. pose proof inv_initial as H0. unfold reachable in R. induction R as [|w1 w2 w3 Hs _ IH]; [done|]. eauto using inv_step.
Qed.

(** *** A turn that takes a packet *)

(** From [w] on, as long as no task is added, the consumer is before the point
    where it looks whether the edge has room, or it will mark the source. *)
Definition awaits (n : nat) (w : world) : Prop :=
  n < List.length (w_tasks w) \/
  Forall (eq TDone) (w_tasks w) /\ List.length (w_tasks w) = n /\ w_slots w = 1 /\ w_resuming w = false /\ plain (w_consumer w) = true /\ w_parked w = 0 /\
  (wakes (w_consumer w) = true \/ w_state w = kBackpressured /\ w_depth w <= cap /\ (w_consumer w = CIdle -> w_depth w = cap) /\ (w_consumer w = CClear -> w_depth w < cap)).
Lemma done_count l : Forall (eq TDone) l -> count holds l = 0 /\ count alert l = 0 /\ count looking l = 0.
Proof. intros H. split_and!; apply count_zero; (eapply Forall_impl; [exact H|]); by intros ? <-. Qed.
Lemma retry_tasks p w r : retry_step cap p w = Some r -> w_tasks r.2 = w_tasks w.
Proof. destruct p as [|[|n] d|d]; simpl; unfold mark; repeat case_match; by intros [= <-]. Qed.
Lemma blocked_tasks k w : w_tasks (blocked_step cap k w).2 = w_tasks w.
Proof. destruct k; simpl; unfold mark, clear; by destruct (w_state w). Qed.
Lemma emit_tasks p w : w_tasks (emit_step cap p w).2 = w_tasks w.
Proof. destruct p; simpl; [done| |done]. unfold mark. destruct (full cap w); [|done]. by destruct (w_state w). Qed.
Lemma schedule_length w : List.length (w_tasks w) <= List.length (w_tasks (schedule w)).
Proof. unfold schedule. destruct (w_slots w); simpl; rewrite ?length_app; lia. Qed.
Lemma task_length i t w w' : task_step cap 1 i t w = Some w' -> List.length (w_tasks w) <= List.length (w_tasks w').
Proof.
  destruct t as [|p| | |k| | | |[|n]|p n|k| |]; simpl; try (intros [= <-]; simpl; by rewrite length_insert); try done.
  - destruct (retry_step cap p w) as [[[p'|] w1]|] eqn:E; [| |done]; apply retry_tasks in E; simpl in E; intros [= <-]; simpl; by rewrite length_insert, E.
  - pose proof (blocked_tasks k w) as E. destruct (blocked_step cap k w) as [[k'|b] w1]; simpl in E; intros [= <-]; simpl; by rewrite length_insert, E.
  - pose proof (emit_tasks p w) as E. destruct (emit_step cap p w) as [[p'|] w1]; simpl in E; intros [= <-]; simpl; by rewrite length_insert, E.
  - pose proof (blocked_tasks k w) as E. destruct (blocked_step cap k w) as [[k'|b] w1]; simpl in E; intros [= <-]; simpl; by rewrite length_insert, E.
  - intros [= <-]. etransitivity; [|apply schedule_length]. simpl. by rewrite length_insert.
Qed.
Lemma step_length w w' : step cap 1 false w w' -> List.length (w_tasks w) <= List.length (w_tasks w').
Proof.
  intros [[i|i| | | | |] E]; simpl in E.
  - destruct (w_tasks w !! i); [|done]. by eapply task_length.
  - destruct (w_tasks w !! i) as [[]|]; try done. injection E as <-. simpl. by rewrite length_insert.
  - unfold consumer_step, clear in E. destruct (w_consumer w); try (by simplify_eq).
    + by destruct (w_state w); simplify_eq.
    + destruct (retry_step cap p w) as [[[p'|] w1]|] eqn:Er; [| |done]; apply retry_tasks in Er; simpl in Er; simplify_eq; simpl; by rewrite Er.
    + simplify_eq. apply schedule_length.
  - repeat case_match; by simplify_eq.
  - done.
  - done.
  - destruct (w_resuming w); [|done]. injection E as <-. etransitivity; [|apply schedule_length]. done.
Qed.
Lemma awaits_step n w w' : awaits n w -> step cap 1 false w w' -> awaits n w'.
Proof.
  intros [Hl|(Ht & Hn & Hs & Hr & Hc & Hp & Hw)] S; [left; apply step_length in S; lia|].
  assert (Hd : forall i t, w_tasks w !! i = Some t -> t = TDone) by (intros i t Hi; by rewrite (Forall_lookup_1 _ _ _ _ Ht Hi)).
  destruct S as [[i|i| | | | |] E]; simpl in E; [| | | |done|done|by rewrite Hr in E].
  - destruct (w_tasks w !! i) as [t|] eqn:Hi; [|done]. by rewrite (Hd i t Hi) in E.
  - destruct (w_tasks w !! i) as [t|] eqn:Hi; [|done]. by rewrite (Hd i t Hi) in E.
  - unfold consumer_step in E. destruct (w_consumer w) eqn:Ec; simpl in Hc; try done; simpl in *.
    + injection E as <-. right. destruct Hw as [|(H1 & H2 & H3 & H4)]; [done|]. split_and!; simpl; auto. right. by split_and!.
    + injection E as <-. right. destruct Hw as [|(H1 & H2 & H3 & H4)]; [done|]. split_and!; simpl; auto. right. by split_and!.
    + injection E as <-. right. destruct Hw as [|(H1 & H2 & H3 & H4)]; [done|]. destruct (full cap w) eqn:Ef; split_and!; simpl; auto; right; split_and!; try done.
      * intros _. apply full_spec in Ef. lia.
      * intros _. by apply room_spec.
    + destruct Hw as [|(H1 & H2 & H3 & H4)]; [done|]. unfold clear in E. rewrite H1 in E. injection E as <-. right. by split_and!; simpl; auto.
    + unfold has_parked in E. rewrite Hp in E. injection E as <-. right. by split_and!; simpl; auto.
    + injection E as <-. left. unfold schedule. rewrite Hs. simpl. rewrite length_app. simpl. lia.
  - destruct (w_consumer w) eqn:Ec; try done. destruct (w_depth w) as [|d] eqn:Ed; [done|]. injection E as <-. right.
    destruct Hw as [|(H1 & H2 & H3 & H4)]; [done|]. split_and!; simpl; rewrite ?Ec; auto. right. split_and!; [done|lia|done|done].
Qed.
Lemma awaits_steps n w w' : awaits n w -> rtc (step cap 1 false) w w' -> awaits n w'.
Proof. intros H R. induction R as [|w1 w2 w3 S _ IH]; [done|]. apply IH. by eapply awaits_step. Qed.

Lemma resting_full w : inv w -> resting w -> w_state w = kBackpressured /\ w_depth w = cap /\ w_slots w = 1.
Proof.
  intros [Hs Hd Hst Hp Hz Ht Hf Hc Ha Hb] [Hdone Ec]. destruct (done_count _ Hdone) as (C1 & C2 & C3). rewrite Ec in *. simpl in *.
  destruct Hst as [E|E]; [destruct (Ha E); [lia|done]|]. split; [done|]. split; [|lia]. destruct (Hb E) as [?|[?|[?|?]]]; [done|lia|lia|done].
Qed.
Lemma resting_awaits w : inv w -> resting w -> awaits (List.length (w_tasks w)) w.
Proof.
  intros H R. destruct (resting_full w H R) as (E1 & E2 & E3). destruct R as [R1 R2]. right. rewrite R2. split_and!; auto; [apply (inv_paused w H)|apply H|].
  right. split_and!; auto; [lia|done].
Qed.
End single.

(** C35: no wake-up is lost between a source and the consumer of its block edge,
    for a source with one slot that emits at most one packet a call and is not
    paused: whatever the interleaving, no packet is ever parked, and when every
    task of the source has returned and the consumer is between two turns the
    edge is marked backpressured and full. From there a turn of the consumer
    schedules the source again, and no turn ends with a packet taken and the
    source not scheduled. (The two assumptions are needed: see [wake_up_lost]
    and [resume_lost].) *)
Theorem producer_not_stuck cap w : 0 < cap -> reachable cap 1 1 false w ->
  w_parked w = 0 /\
  (resting w -> w_state w = kBackpressured /\ w_depth w = cap /\
    (exists w', rtc (step cap 1 false) w w' /\ TStart ∈ w_tasks w') /\
    (forall w', rtc (step cap 1 false) w w' -> w_tasks w' = w_tasks w -> w_consumer w' = CIdle -> w_depth w' = cap)).
Proof.
  intros Hcap Hr. pose proof (inv_reachable cap w Hr) as H. split; [apply H|]. intros Hw.
  destruct (resting_full cap w H Hw) as (E1 & E2 & E3). split; [done|]. split; [done|]. split.
  - assert (Hp : w_parked w = 0) by apply H. destruct Hw as [_ Hc]. destruct w as [s d p k n ts c z u]. simpl in *. subst.
    exists (MkWorld kActive (cap - 1) 0 k 0 (ts ++ [TStart]) CIdle z u). split; [|apply elem_of_app; right; by apply list_elem_of_singleton].
    apply (acts_steps _ _ _ [AConsumer; APop; AConsumer; AConsumer; AConsumer; AConsumer; AConsumer]). 
    destruct cap as [|d]; [lia|]. assert (Hd : (S d <=? d) = false) by (apply Nat.leb_gt; lia). cbn -[Nat.leb]. unfold full. cbn -[Nat.leb]. rewrite Hd. cbn. by rewrite Nat.sub_0_r.
  - intros w' R Et Ec. destruct (awaits_steps cap _ _ _ (resting_awaits cap w H Hw) R) as [Hl|(_ & _ & _ & _ & _ & _ & [Hk|(_ & _ & Hd & _)])].
    + rewrite Et in Hl. lia.
    + by rewrite Ec in Hk.
    + by apply Hd.
Qed.

(** A source that filled an edge of capacity 1. *)
Definition filled : world := MkWorld kBackpressured 1 0 false 1 [TDone] CIdle false false.
Lemma filled_run : acts 1 1 false [ATask 0; ATask 0; ATask 0; ATask 0; ATask 0; ATask 0; AReturn 0; ATask 0; ATask 0; ATask 0] (initial 1) = Some filled.
Proof. vm_compute. reflexivity. Qed.
Lemma producer_not_stuck_witness :
  w_state filled = kBackpressured /\ w_depth filled = 1 /\
  (exists w', rtc (step 1 1 false) filled w' /\ TStart ∈ w_tasks w') /\
  (forall w', rtc (step 1 1 false) filled w' -> w_tasks w' = w_tasks filled -> w_consumer w' = CIdle -> w_depth w' = 1).
Proof.
  apply (producer_not_stuck 1 filled); [lia|exact (acts_steps _ _ _ _ _ _ filled_run)|]. split; [by repeat constructor|done].
Defined.

(** ** What is lost *)

Definition repeat_task (n i : nat) : list action := repeat (ATask i) n.
Definition turns (n : nat) : list action := repeat AConsumer n.

(** Three packets a call: a task whose slot is back has seen room and is about
    to clear the mark; meanwhile the source parks two packets, the consumer
    delivers one of them and schedules the source, whose retry marks the full
    edge; then the first task clears that mark and finds no slot to mark the node
    with. The retry's own guard only looks whether packets are parked. *)
Definition lost_run : list action :=
  [ATask 0; ATask 0; ATask 0; ATask 0; ATask 0; ATask 0; AReturn 0; ATask 0; ATask 0] ++
  [AConsumer; APop; ATask 0; ATask 0] ++ turns 5 ++
  repeat_task 13 1 ++ [AReturn 1; ATask 1; ATask 1; ATask 1] ++
  [AConsumer; APop] ++ turns 9 ++
  repeat_task 4 2 ++ [ATask 0; ATask 0] ++ [ATask 2; ATask 2].
Definition lost : world := MkWorld kActive 1 1 false 1 [TDone; TDone; TDone] CIdle false false.
Example lost_run_reaches : acts 1 3 false lost_run (initial 1) = Some lost.
Proof. vm_compute. reflexivity. Qed.

(** Nothing wakes the source any more: the consumer takes what the edge holds,
    what is parked stays and no task is ever added, unless the session is paused
    and resumed. *)
Definition forgotten (w0 w : world) : Prop :=
  w_state w = kActive /\ Forall (eq TDone) (w_tasks w) /\ w_resuming w = false /\ (w_consumer w = CIdle \/ in_turn (w_consumer w) = true) /\
  w_tasks w = w_tasks w0 /\ w_parked w = w_parked w0.
Lemma forgotten_step cap burst w0 w w' : forgotten w0 w -> step cap burst false w w' -> forgotten w0 w'.
Proof.
  intros (Hs & Hd & Hr & Hc & Ht & Hp) [[i|i| | | | |] E]; simpl in E; [| | | |done|done|by rewrite Hr in E].
  - destruct (w_tasks w !! i) as [t|] eqn:Hi; [|done]. by rewrite <- (Forall_lookup_1 _ _ _ _ Hd Hi) in E.
  - destruct (w_tasks w !! i) as [t|] eqn:Hi; [|done]. by rewrite <- (Forall_lookup_1 _ _ _ _ Hd Hi) in E.
  - unfold consumer_step, clear in E. rewrite Hs in E. destruct Hc as [Hc|Hc]; destruct (w_consumer w); try done; injection E as <-; split_and!; auto; simpl; auto.
    destruct (full cap w); auto.
  - destruct (w_consumer w) eqn:Ec; try done. destruct (w_depth w); [done|]. injection E as <-. split_and!; auto. by rewrite <- Ec in Hc.
Qed.
Lemma forgotten_for_good cap burst w0 w : forgotten w0 w0 -> rtc (step cap burst false) w0 w -> w_tasks w = w_tasks w0 /\ w_parked w = w_parked w0.
Proof.
  intros H0 R. assert (H : forgotten w0 w) by (revert R; apply (rtc_ind_r (forgotten w0)); [exact H0|]; intros w1 w2 _ S H; by eapply forgotten_step). apply H.
Qed.
Example wake_up_lost : reachable 1 1 3 false lost /\ resting lost /\
  forall w, rtc (step 1 3 false) lost w -> w_tasks w = w_tasks lost /\ w_parked w = 1.
Proof.
  split; [exact (acts_steps _ _ _ _ _ _ lost_run_reaches)|]. split; [split; [by repeat constructor|done]|]. intros w.
  apply forgotten_for_good. split_and!; auto. by repeat constructor.
Qed.

(** A source that reads the pause before the resume, and gives its slot back
    after it, is not scheduled again: nothing is parked, the edge is empty and
    the session runs. *)
Definition resumed : world := MkWorld kActive 0 0 false 1 [TDone] CIdle false false.
Example resume_lost : reachable 1 1 1 true resumed /\ resting resumed /\ forall w, rtc (step 1 1 false) resumed w -> w_tasks w = w_tasks resumed.
Proof.
  split; [apply (acts_steps _ _ _ [ATask 0; ATask 0; APause; ATask 0; AResume; AResumeMark; ATask 0]); by vm_compute|].
  split; [split; [by repeat constructor|done]|]. intros w R. eapply forgotten_for_good; [|exact R]. split_and!; auto. by repeat constructor.
Qed.
