(* ===== verification/InputBinding.v ===== *)
(** The input side of a node (include/ge/cpp/input_binding.h,
    src/input_binding.cpp): which edge feeds a port while it is being
    re-wired, and how a batch is acquired under the three synchronisation
    policies.

    The binding only uses the consumer's side of an edge, which is an
    interface here ([ConsumerEdge]); EdgeChannel implements it
    (InputBindingProofs).  An edge is a reference into a store shared by all
    ports.  [mutex_] serialises the consumers; the producers' pushes between
    two edge operations of one acquisition are not interleaved. *)

From stdpp Require Import base numbers list strings gmap sets.
From Stdlib Require Import ZArith Lia Ascii String.
From S2P Require Import Prelude Types Double Json GraphSpec CapabilityTypes Packet EdgeChannel.

Local Open Scope Z_scope.

(** ** The consumer's side of an edge *)

Class ConsumerEdge (E : Type) : Type := {
  e_state : E -> EdgeState;
  e_empty : E -> bool;
  e_peek : E -> PacketRef;
  e_pop : E -> option PacketRef * E;
  e_retire : bool -> E -> E;
}.

#[export] Instance EdgeChannel_ConsumerEdge : ConsumerEdge EdgeChannel := {
  e_state := state_;
  e_empty := Edge.empty;
  e_peek := Edge.Peek;
  e_pop := Edge.Pop;
  e_retire := Edge.MarkRetired;
}.

(** ** Data *)

(** An [EdgeChannelRef]: where the edge lives in the store. *)
Definition edge_ref : Type := nat.

Record InputPortBinding : Type := MkInputPortBinding {
  port : string;
  edge : option edge_ref;
  required : bool;
  predecessors : list edge_ref;
}.

Record InputBatch : Type := MkInputBatch {
  ports : list string;
  packets : list Packet;
  events : list Packet;
  event_ports : list string;
}.

Definition empty_batch : InputBatch := MkInputBatch [] [] [] [].

Record AlignedOptions : Type := MkAlignedOptions {
  window_ns : Z;
  reference_port : option string;
}.

Definition default_AlignedOptions : AlignedOptions := MkAlignedOptions 40000000 None.

Record InputBinding : Type := MkInputBinding {
  ports_ : list InputPortBinding;
  policy_ : SyncPolicy;
  aligned_ : AlignedOptions;
  eos_ports_ : gset string;
  late_dropped_ : Z;
  stale_dropped_ : Z;
}.

Definition make_binding (ps : list InputPortBinding) (p : SyncPolicy) (a : AlignedOptions) : InputBinding :=
  MkInputBinding ps p a ∅ 0 0.

Definition set_predecessors (l : list edge_ref) (b : InputPortBinding) : InputPortBinding :=
  MkInputPortBinding (port b) (edge b) (required b) l.

Module Bind.

Definition set_ports (l : list InputPortBinding) (b : InputBinding) : InputBinding :=
  MkInputBinding l (policy_ b) (aligned_ b) (eos_ports_ b) (late_dropped_ b) (stale_dropped_ b).
Definition set_eos (e : gset string) (b : InputBinding) : InputBinding :=
  MkInputBinding (ports_ b) (policy_ b) (aligned_ b) e (late_dropped_ b) (stale_dropped_ b).
Definition add_late (b : InputBinding) : InputBinding :=
  MkInputBinding (ports_ b) (policy_ b) (aligned_ b) (eos_ports_ b) (Word.u64 (late_dropped_ b + 1))
    (stale_dropped_ b).
Definition add_stale (b : InputBinding) : InputBinding :=
  MkInputBinding (ports_ b) (policy_ b) (aligned_ b) (eos_ports_ b) (late_dropped_ b)
    (Word.u64 (stale_dropped_ b + 1)).

Definition IsEos (p : string) (b : InputBinding) : bool := bool_decide (p ∈ eos_ports_ b).

Definition Find (p : string) (b : InputBinding) : option InputPortBinding :=
  List.find (fun x => bool_decide (port x = p)) (ports_ b).

Definition Edges (b : InputBinding) : list edge_ref :=
  List.concat (map (fun x => match edge x with Some e => [e] | None => [] end ++ predecessors x)%list (ports_ b)).

(** [InputEndedLocked] *)
Definition InputEnded (b : InputBinding) : bool :=
  if existsb required (ports_ b)
  then forallb (fun x => negb (required x) || IsEos (port x) b) (ports_ b)
  else forallb (fun x => IsEos (port x) b) (ports_ b) && negb (bool_decide (ports_ b = [])).

Definition ForgetPredecessor (e : edge_ref) (b : InputBinding) : InputBinding :=
  set_ports (map (fun x => set_predecessors (filter (fun p => p <> e) (predecessors x)) x) (ports_ b)) b.

End Bind.

(** ** Acquiring *)

Section acquire.
Context {E : Type} `{ConsumerEdge E}.

(** The binding, the edges and the batch being filled. *)
Record acq : Type := MkAcq {
  binding : InputBinding;
  edges : edge_ref -> E;
  batch : InputBatch;
}.

Definition on_binding (f : InputBinding -> InputBinding) (s : acq) : acq :=
  MkAcq (f (binding s)) (edges s) (batch s).
Definition set_edge (e : edge_ref) (x : E) (s : acq) : acq :=
  MkAcq (binding s) (fun e' => if decide (e' = e) then x else edges s e') (batch s).
Definition on_batch (f : InputBatch -> InputBatch) (s : acq) : acq :=
  MkAcq (binding s) (edges s) (f (batch s)).

Definition push_event (name : string) (p : Packet) (b : InputBatch) : InputBatch :=
  MkInputBatch (ports b) (packets b) (events b ++ [p])%list (event_ports b ++ [name])%list.
Definition push_data (name : string) (p : Packet) (b : InputBatch) : InputBatch :=
  MkInputBatch (ports b ++ [name])%list (packets b ++ [p])%list (events b) (event_ports b).

(** The [i]-th port; loops only visit indices in range. *)
Definition no_port : InputPortBinding := MkInputPortBinding EmptyString None false [].
Definition port_at (s : acq) (i : nat) : InputPortBinding := default no_port (ports_ (binding s) !! i).
Definition indices (s : acq) : list nat := List.seq 0 (List.length (ports_ (binding s))).

Fixpoint first_live (ed : edge_ref -> E) (l : list edge_ref) : option edge_ref :=
  match l with
  | [] => None
  | p :: l' =>
      if negb (e_empty (ed p)) then Some p
      else if decide (e_state (ed p) = kRetired) then first_live ed l'
      else Some p
  end.

Definition Active (ed : edge_ref -> E) (b : InputPortBinding) : option edge_ref :=
  match first_live ed (predecessors b) with Some p => Some p | None => edge b end.

Definition MayBeReady (ed : edge_ref -> E) (b : InputBinding) : bool :=
  existsb (fun x => match Active ed x with Some e => negb (e_empty (ed e)) | None => false end) (ports_ b).

Definition pop_edge (e : edge_ref) (s : acq) : acq := set_edge e (e_pop (edges s e)).2 s.

Definition Take (i : nat) (s : acq) : PacketRef * acq :=
  match Active (edges s) (port_at s i) with
  | None => (None, s)
  | Some e => (default None (e_pop (edges s e)).1, pop_edge e s)
  end.

(** [std::erase_if] on the predecessors of port [i] *)
Definition erase_predecessor (i : nat) (e : edge_ref) (s : acq) : acq :=
  on_binding (fun b => Bind.set_ports
    (<[i := set_predecessors (filter (fun p => p <> e) (predecessors (port_at s i))) (port_at s i)]> (ports_ b)) b) s.

Inductive skim_result : Type := Head (p : Packet) | NoHead | Again.

(** One round of the loop of [SkimHead]. *)
Definition skim_round (i : nat) (s : acq) : skim_result * acq :=
  let b := port_at s i in
  match Active (edges s) b with
  | None => (NoHead, s)
  | Some e =>
      let predecessor := negb (bool_decide (edge b = Some e)) in
      match e_peek (edges s e) with
      | None =>
          if predecessor && bool_decide (e_state (edges s e) = kRetired)
          then (Again, erase_predecessor i e s)
          else (NoHead, s)
      | Some head =>
          if PacketOps.is_eos head then
            let s := pop_edge e s in
            if predecessor
            then (Again, erase_predecessor i e (set_edge e (e_retire false (edges s e)) s))
            else (Again, on_binding (fun x => Bind.set_eos ({[port b]} ∪ eos_ports_ x) x) s)
          else if PacketOps.is_event head then
            match Take i s with
            | (Some ev, s) => (Again, on_batch (push_event (port b) ev) s)
            | (None, s) => (Again, s)
            end
          else if negb predecessor && Bind.IsEos (port b) (binding s)
          then (Again, on_binding Bind.add_stale (pop_edge e s))
          else (Head head, s)
      end
  end.

(** The loops of the acquisition run on fuel: [None] is running out of it. *)
Definition M (A : Type) : Type := acq -> option (A * acq).

Definition retM {A} (a : A) : M A := fun s => Some (a, s).
Definition bindM {A B} (m : M A) (k : A -> M B) : M B :=
  fun s => match m s with Some (a, s') => k a s' | None => None end.
Definition getM : M acq := fun s => Some (s, s).
Definition modifyM (f : acq -> acq) : M unit := fun s => Some (tt, f s).
Definition takeM (i : nat) : M PacketRef := fun s => Some (Take i s).

Notation "'let*' x ':=' m 'in' k" := (bindM m (fun x => k)) (at level 10, x pattern, m at level 100, k at level 200).
Notation "m ;;; k" := (bindM m (fun _ => k)) (at level 60, right associativity).

Fixpoint SkimHead (fuel : nat) (i : nat) (s : acq) : option (PacketRef * acq) :=
  match fuel with
  | O => None
  | S k =>
      match skim_round i s with
      | (Head p, s) => Some (Some p, s)
      | (NoHead, s) => Some (None, s)
      | (Again, s) => SkimHead k i s
      end
  end.

(** [if (!batch.events.empty()) return batch; return std::nullopt;] *)
Definition finish : M (option InputBatch) :=
  let* s := getM in
  retM (if decide (events (batch s) = []) then None else Some (batch s)).

Definition deliver (i : nat) (p : Packet) : M unit :=
  modifyM (fun s => on_batch (push_data (port (port_at s i)) p) s).

(** *** any *)

Fixpoint skim_all (fuel : nat) (l : list nat) : M (list (nat * bool)) :=
  match l with
  | [] => retM []
  | i :: l' =>
      let* h := SkimHead fuel i in
      let* r := skim_all fuel l' in
      retM ((i, has h) :: r)
  end.

Definition choose (s : acq) (required_pass : bool) (l : list (nat * bool)) : option nat :=
  fst <$> List.find (fun x => Bool.eqb (required (port_at s x.1)) required_pass && x.2) l.

Definition AcquireAny (fuel : nat) : M (option InputBatch) :=
  let* s := getM in
  let* has_data := skim_all fuel (indices s) in
  let* s := getM in
  let chosen := match choose s true has_data with Some i => Some i | None => choose s false has_data end in
  match chosen with
  | None => finish
  | Some i =>
      let* p := takeM i in
      match p with
      | None => finish
      | Some p => deliver i p ;;; let* s := getM in retM (Some (batch s))
      end
  end.

(** *** latest *)

Fixpoint find_trigger (fuel : nat) (l : list nat) : M (option nat) :=
  match l with
  | [] => retM None
  | i :: l' =>
      let* s := getM in
      if required (port_at s i) then
        let* h := SkimHead fuel i in
        if has h then retM (Some i) else find_trigger fuel l'
      else find_trigger fuel l'
  end.

Definition is_data (p : PacketRef) : bool :=
  match p with Some p => negb (PacketOps.is_eos p) && negb (PacketOps.is_event p) | None => false end.

(** The head [Take] would pop. *)
Definition head_at (s : acq) (i : nat) : PacketRef :=
  match Active (edges s) (port_at s i) with Some e => e_peek (edges s e) | None => None end.

Fixpoint newest (fuel : nat) (i : nat) (latest : PacketRef) : M PacketRef :=
  match fuel with
  | O => fun _ => None
  | S k =>
      let* s := getM in
      if negb (is_data (head_at s i)) then retM latest
      else
        let* taken := takeM i in
        match taken with
        | None => retM latest
        | Some p =>
            modifyM (if has latest then on_binding Bind.add_stale else id) ;;;
            newest k i (Some p)
        end
  end.

Fixpoint supply (fuel : nat) (trigger : nat) (l : list nat) : M unit :=
  match l with
  | [] => retM tt
  | i :: l' =>
      if decide (i = trigger) then supply fuel trigger l'
      else
        let* h := SkimHead fuel i in
        if has h then
          let* latest := newest fuel i None in
          match latest with
          | Some p => deliver i p ;;; supply fuel trigger l'
          | None => supply fuel trigger l'
          end
        else supply fuel trigger l'
  end.

Definition AcquireLatest (fuel : nat) : M (option InputBatch) :=
  let* s := getM in
  let* trigger := find_trigger fuel (indices s) in
  match trigger with
  | None => finish
  | Some i =>
      let* p := takeM i in
      match p with
      | None => finish
      | Some p =>
          deliver i p ;;; supply fuel i (indices s) ;;;
          let* s := getM in retM (Some (batch s))
      end
  end.

(** *** aligned *)

(** The last port of that name, as the loop leaves it. *)
Definition fixed_reference (b : InputBinding) : option nat :=
  match reference_port (aligned_ b) with
  | None => None
  | Some r =>
      fold_left (fun acc i => match ports_ b !! i with
                              | Some x => if decide (port x = r) then Some i else acc
                              | None => acc
                              end) (List.seq 0 (List.length (ports_ b))) None
  end.

(** The end of the reference: what a port still holds is dropped and the port
    is ended. *)
Fixpoint drop_leftovers (fuel : nat) (rounds : nat) (i : nat) : M unit :=
  match rounds with
  | O => fun _ => None
  | S k =>
      let* s := getM in
      if has (edge (port_at s i)) then
        let* h := SkimHead fuel i in
        if has h then
          let* p := takeM i in
          if has p then modifyM (on_binding Bind.add_late) ;;; drop_leftovers fuel k i else retM tt
        else retM tt
      else retM tt
  end.

Fixpoint end_all (fuel : nat) (l : list nat) : M unit :=
  match l with
  | [] => retM tt
  | i :: l' =>
      drop_leftovers fuel fuel i ;;;
      modifyM (fun s => on_binding (fun b => Bind.set_eos ({[port (port_at s i)]} ∪ eos_ports_ b) b) s) ;;;
      end_all fuel l'
  end.

(** The required port with the earliest head. *)
Fixpoint earliest (fuel : nat) (l : list nat) (best : option (nat * Z)) : M (option (nat * Z)) :=
  match l with
  | [] => retM best
  | i :: l' =>
      let* s := getM in
      if required (port_at s i) then
        let* h := SkimHead fuel i in
        match h with
        | None => earliest fuel l' best
        | Some p =>
            let t := pts_ns (header p) in
            match best with
            | Some (_, t') => earliest fuel l' (if t <? t' then Some (i, t) else best)
            | None => earliest fuel l' (Some (i, t))
            end
        end
      else earliest fuel l' best
  end.

(** Drops the heads of port [i] older than [low]. *)
Fixpoint drop_late (fuel rounds : nat) (i : nat) (low : Z) (head : PacketRef) : M PacketRef :=
  match rounds with
  | O => fun _ => None
  | S k =>
      match head with
      | None => retM None
      | Some p =>
          if pts_ns (header p) <? low then
            let* taken := takeM i in
            if has taken then
              modifyM (on_binding Bind.add_late) ;;;
              let* h := SkimHead fuel i in
              drop_late fuel k i low h
            else retM head
          else retM head
      end
  end.

(** The bounds of the window around the target. The source adds 64-bit signed
    integers, whose overflow C++ leaves undefined; the sums wrap around here, as
    they do on the machines the code is compiled for. *)
Definition window_low (target w : Z) : Z := Word.i64 (target - w).
Definition window_high (target w : Z) : Z := Word.i64 (target + w).

Record verdict : Type := MkVerdict { matched : list nat; wait : bool; ref_is_late : bool }.

(** Every port but the reference, against the target. *)
Fixpoint classify (fuel : nat) (ref : nat) (target : Z) (l : list nat) (v : verdict) : M verdict :=
  match l with
  | [] => retM v
  | i :: l' =>
      if decide (i = ref) then classify fuel ref target l' v
      else
        let* s := getM in
        let w := window_ns (aligned_ (binding s)) in
        let* h := SkimHead fuel i in
        let* h := drop_late fuel fuel i (window_low target w) h in
        let* s := getM in
        let b := port_at s i in
        classify fuel ref target l'
          match h with
          | None =>
              MkVerdict (matched v) (wait v || (required b && negb (Bind.IsEos (port b) (binding s))))
                (ref_is_late v)
          | Some p =>
              if pts_ns (header p) <=? window_high target w then MkVerdict (matched v ++ [i])%list (wait v) (ref_is_late v)
              else MkVerdict (matched v) (wait v) (ref_is_late v || required b)
          end
  end.

(** The reference and the matched ports, in declaration order. *)
Fixpoint serve (ref : nat) (m : list nat) (l : list nat) : M unit :=
  match l with
  | [] => retM tt
  | i :: l' =>
      if decide (i = ref \/ i ∈ m) then
        let* p := takeM i in
        match p with
        | None => serve ref m l'
        | Some p => deliver i p ;;; serve ref m l'
        end
      else serve ref m l'
  end.

(** The reference of a round and its timestamp. *)
Definition pick_reference (fuel : nat) (fixed : option nat) : M (option (nat * Z)) :=
  let* s := getM in
  match fixed with
  | Some r =>
      let* h := SkimHead fuel r in
      match h with
      | Some p => retM (Some (r, pts_ns (header p)))
      | None =>
          let* s := getM in
          (if Bind.IsEos (port (port_at s r)) (binding s) then end_all fuel (indices s) else retM tt) ;;;
          retM None
      end
  | None => earliest fuel (indices s) None
  end.

Fixpoint align (fuel rounds : nat) (fixed : option nat) : M (option InputBatch) :=
  match rounds with
  | O => fun _ => None
  | S k =>
      let* s := getM in
      let* r := pick_reference fuel fixed in
      match r with
      | None => finish
      | Some (ref, target) =>
          let* v := classify fuel ref target (indices s) (MkVerdict [] false false) in
          if ref_is_late v && negb (has fixed) then
            let* p := takeM ref in
            if has p then modifyM (on_binding Bind.add_late) ;;; align fuel k fixed else finish
          else if wait v then finish
          else
            serve ref (matched v) (indices s) ;;;
            let* s := getM in
            if decide (packets (batch s) = []) then finish else retM (Some (batch s))
      end
  end.

Definition AcquireAligned (fuel : nat) : M (option InputBatch) :=
  let* s := getM in align fuel fuel (fixed_reference (binding s)).

Definition acquire (fuel : nat) : M (option InputBatch) :=
  let* s := getM in
  match policy_ (binding s) with
  | kAny => AcquireAny fuel
  | kLatest => AcquireLatest fuel
  | kAligned => AcquireAligned fuel
  end.

(** [TryAcquire]: the batch, the binding and the edges after it. *)
Definition TryAcquire (fuel : nat) (b : InputBinding) (ed : edge_ref -> E)
    : option (option InputBatch * InputBinding * (edge_ref -> E)) :=
  match acquire fuel (MkAcq b ed empty_batch) with
  | Some (r, s) => Some (r, binding s, edges s)
  | None => None
  end.

(** ** Re-wiring *)

(** What [Rebind] works on: the old ports (their predecessors are moved out),
    the ended ports and the edges. *)
Record rebind : Type := MkRebind {
  rb_old : list InputPortBinding;
  rb_eos : gset string;
  rb_edges : edge_ref -> E;
}.

Definition retire_edge (fast : bool) (e : edge_ref) (ed : edge_ref -> E) : edge_ref -> E :=
  fun e' => if decide (e' = e) then e_retire fast (ed e) else ed e'.

(** The first loop of [Rebind], for one new port. *)
Definition rebind_port (n : InputPortBinding) (r : rebind) : InputPortBinding * rebind :=
  match list_find (fun o => port o = port n) (rb_old r) with
  | None => (n, r)
  | Some (j, old) =>
      let moved := <[j := set_predecessors [] old]> (rb_old r) in
      if decide (edge old = edge n) then
        (set_predecessors (predecessors old) n, MkRebind moved (rb_eos r) (rb_edges r))
      else
        match edge old with
        | None =>
            (set_predecessors (predecessors old) n,
             MkRebind moved (rb_eos r ∖ {[port n]}) (rb_edges r))
        | Some e =>
            let ended := bool_decide (port n ∈ rb_eos r) && e_empty (rb_edges r e) in
            (set_predecessors (predecessors old ++ (if ended then [] else [e]))%list n,
             MkRebind moved (rb_eos r ∖ {[port n]})
               (if ended then retire_edge false e (rb_edges r) else rb_edges r))
        end
  end.

Fixpoint rebind_ports (l : list InputPortBinding) (r : rebind) : list InputPortBinding * rebind :=
  match l with
  | [] => ([], r)
  | n :: l' =>
      let '(n', r') := rebind_port n r in
      let '(l'', r'') := rebind_ports l' r' in
      (n' :: l'', r'')
  end.

Definition bound (l : list InputPortBinding) (name : string) : bool :=
  existsb (fun b => bool_decide (port b = name)) l.

Definition retire_all (l : list edge_ref) (ed : edge_ref -> E) : edge_ref -> E :=
  fold_left (fun ed e => retire_edge true e ed) l ed.

Definition Rebind (new : list InputPortBinding) (p : SyncPolicy) (a : AlignedOptions)
    (b : InputBinding) (ed : edge_ref -> E) : InputBinding * (edge_ref -> E) :=
  let '(new, r) := rebind_ports new (MkRebind (ports_ b) (eos_ports_ b) ed) in
  let vanished := List.filter (fun o => negb (bound new (port o))) (rb_old r) in
  let ed := fold_left (fun ed o => retire_all (match edge o with Some e => [e] | None => [] end ++ predecessors o)%list ed)
              vanished (rb_edges r) in
  (MkInputBinding new p a (filter (fun name => bound new name = true) (rb_eos r))
     (late_dropped_ b) (stale_dropped_ b), ed).

End acquire.
