(* ===== verification/InputFlow.v ===== *)
(** What an acquisition does to the streams of packets that feed the ports:
    the laws of the consumer's side of an edge (discharged by EdgeChannel),
    total-correctness triples for the loops, and the ledger in which every
    packet an acquisition consumes has exactly one fate. *)

From stdpp Require Import base numbers list strings gmap sets.
From Stdlib Require Import ZArith Lia Ascii String.
From S2P Require Import Prelude Types Double Json GraphSpec CapabilityTypes Packet EdgeChannel EdgeRefinement InputBinding.

Local Open Scope nat_scope.
Local Open Scope list_scope.

(** ** The laws of an edge, towards its consumer *)

Class ConsumerEdgeLaws (E : Type) `{ConsumerEdge E} : Type := {
  e_ok : E -> Prop;
  e_queue : E -> list Packet;
  e_empty_spec x : e_ok x -> e_empty x = bool_decide (e_queue x = []);
  e_peek_spec x : e_ok x -> e_peek x = head (e_queue x);
  e_pop_value x : e_ok x -> (e_pop x).1 = Some <$> head (e_queue x);
  e_pop_queue x : e_ok x -> e_queue (e_pop x).2 = tail (e_queue x);
  e_pop_state x : e_ok x -> e_state (e_pop x).2 = e_state x;
  e_pop_ok x : e_ok x -> e_ok (e_pop x).2;
  e_retire_queue fast x : e_ok x -> e_queue (e_retire fast x) = if fast then [] else e_queue x;
  e_retire_state fast x : e_ok x -> e_state (e_retire fast x) = kRetired;
  e_retire_ok fast x : e_ok x -> e_ok (e_retire fast x);
}.

(** *** EdgeChannel obeys them, while no null reference is queued *)

Definition contents (c : EdgeChannel) : list PacketRef :=
  take (Z.to_nat (size_ c)) (rot (Z.to_nat (head_ c)) (ring_ c)).

Lemma channel_contents c f : represents c f -> contents c = f_queue f.
Proof.
  intros [[? ? ? ? ? ? Hs ? (h & Hh & Hlt & Hr)] _]. unfold contents.
  rewrite Hs, Hh, !Nat2Z.id, Hr. by rewrite take_app_length.
Qed.

Definition channel_ok (c : EdgeChannel) : Prop :=
  exists f q, represents c f /\ f_queue f = map Some q.
Definition channel_queue (c : EdgeChannel) : list Packet := omap id (contents c).

Lemma omap_map_Some {A} (q : list A) : omap id (map Some q) = q.
Proof. induction q; simpl; by f_equal. Qed.

Lemma channel_queue_rep c f q :
  represents c f -> f_queue f = map Some q -> channel_queue c = q.
Proof. intros Hr Hq. unfold channel_queue. by rewrite (channel_contents c f), Hq, omap_map_Some. Qed.

Lemma channel_pop c f q :
  represents c f -> f_queue f = map Some q ->
  (Edge.Pop c).1 = Some <$> head q /\
  represents (Edge.Pop c).2 (Fifo.pop f).2 /\ f_queue (Fifo.pop f).2 = map Some (tail q) /\
  f_state (Fifo.pop f).2 = f_state f.
Proof.
  intros Hr Hq. destruct (pop_rep c f Hr) as [H1 H2]. unfold Fifo.pop in *. rewrite Hq in *.
  destruct q; simpl in *; repeat split; try done; apply H2.
Qed.

#[export] Instance EdgeChannel_laws : ConsumerEdgeLaws EdgeChannel.
Proof.
  refine {| e_ok := channel_ok; e_queue := channel_queue |};
    [intros x|intros x|intros x|intros x|intros x|intros x|intros fast x|intros fast x|intros fast x];
    intros (f & q & Hr & Hq); rewrite ?(channel_queue_rep x f q) by done; cbn [e_empty e_peek e_pop e_state e_retire EdgeChannel_ConsumerEdge].
  - unfold Edge.empty, Edge.depth. destruct Hr as [[? ? Hm ? ? ? ? ? ?] Hd].
    rewrite Hm, Hd, Hq, length_map. by destruct q.
  - unfold Edge.Peek. destruct Hr as [[? ? ? ? ? ? Hs ? (h & Hh & Hlt & Hr)] _].
    rewrite Hs, Hh, Hq, length_map, slot_nat in *. destruct q as [|p q]; [done|]. simpl.
    replace h with (wrap_nat (f_capacity f) h 0) by by rewrite wrap_nat_0.
    rewrite <- slot_nat, (slot_rot _ (f_capacity f)) by lia.
    by rewrite Hr.
  - by apply (channel_pop x f).
  - destruct (channel_pop x f q) as (_ & ? & ? & _); try done. by eapply channel_queue_rep.
  - destruct (channel_pop x f q) as (_ & [[-> _ _ _ _ _ _ _ _] _] & _ & ->); try done.
    by destruct Hr as [[] _].
  - destruct (channel_pop x f q) as (_ & ? & ? & _); try done. by exists (Fifo.pop f).2, (tail q).
  - pose proof (mark_retired_rep fast x f Hr). destruct fast.
    + by apply (channel_queue_rep _ (Fifo.mark_retired true f)).
    + by apply (channel_queue_rep _ (Fifo.mark_retired false f)).
  - by destruct fast.
  - pose proof (mark_retired_rep fast x f Hr).
    exists (Fifo.mark_retired fast f), (if fast then [] else q). by destruct fast.
Defined.

(** ** The fate of a consumed packet *)

Inductive fate : Type :=
| FEos        (* an end-of-stream marker *)
| FEvent      (* handed on beside the data *)
| FData       (* handed on as data *)
| FLate       (* dropped, outside the window *)
| FStale      (* dropped, superseded or behind the marker of a live edge *)
| FAbandoned  (* behind the marker of a retired predecessor *).
#[export] Instance fate_eq_dec : EqDecision fate.
Proof. solve_decision. Defined.

(** ** Total correctness *)

Section flow.
Context {E : Type} `{ConsumerEdgeLaws E}.
Implicit Types (s : acq (E := E)) (e : edge_ref) (i j : nat).

(** [m] runs from [s] without running out of fuel and ends in [Q]. *)
Definition wp {A} (m : M A) s (Q : A -> acq -> Prop) : Prop :=
  match m s with Some (a, s') => Q a s' | None => False end.

Lemma wp_bind {A B} (m : M A) (k : A -> M B) s Q :
  wp m s (fun a s' => wp (k a) s' Q) -> wp (bindM m k) s Q.
Proof. unfold wp, bindM. by destruct (m s) as [[a s']|]. Qed.

Lemma wp_mono {A} (m : M A) s (Q R : A -> acq -> Prop) :
  wp m s Q -> (forall a s', Q a s' -> R a s') -> wp m s R.
Proof. unfold wp. destruct (m s) as [[a s']|]; eauto. Qed.

(** ** Streams *)

Definition feeding (b : InputPortBinding) : list edge_ref :=
  predecessors b ++ match edge b with Some e => [e] | None => [] end.

(** The packets still to come on port [i], in the order they are consumed. *)
Definition queue_of s e : list Packet := e_queue (edges s e).
Definition stream s i : list Packet := List.concat (map (queue_of s) (feeding (port_at s i))).

(** The edges are in order, and each feeds one port once. *)
Record wf s : Prop := {
  wf_ok : forall i e, e ∈ feeding (port_at s i) -> e_ok (edges s e);
  wf_nodup : forall i, NoDup (feeding (port_at s i));
  wf_apart : forall i j e, e ∈ feeding (port_at s i) -> e ∈ feeding (port_at s j) -> i = j;
}.

(** An edge is drained to its first end-of-stream marker. *)
Definition marker_last (q : list Packet) : Prop :=
  forall q1 p q2, q = q1 ++ p :: q2 -> PacketOps.is_eos p = true -> q2 = [].
Definition markers_last s : Prop :=
  forall i e, e ∈ predecessors (port_at s i) -> marker_last (queue_of s e).

(** ** The ledger *)

Record entry : Type := MkEntry { en_port : nat; en_name : string; en_packet : Packet; en_fate : fate }.

Definition at_port i (log : list entry) : list Packet :=
  map en_packet (List.filter (fun a => bool_decide (en_port a = i)) log).
Definition with_fate (f : fate) (log : list entry) : list entry :=
  List.filter (fun a => bool_decide (en_fate a = f)) log.
Definition met (f : fate) (log : list entry) : Z := Z.of_nat (List.length (with_fate f log)).

Definition fits (p : Packet) (f : fate) : Prop :=
  match f with
  | FEos => PacketOps.is_eos p = true
  | FEvent => PacketOps.is_eos p = false /\ PacketOps.is_event p = true
  | FData | FLate | FStale => is_data (Some p) = true
  | FAbandoned => True
  end.

Record flow (T : list nat) (log : list entry) s s' : Prop := {
  fl_wf : wf s';
  fl_length : List.length (ports_ (binding s')) = List.length (ports_ (binding s));
  fl_config : policy_ (binding s') = policy_ (binding s) /\ aligned_ (binding s') = aligned_ (binding s);
  fl_shape : forall i, port (port_at s' i) = port (port_at s i) /\
    edge (port_at s' i) = edge (port_at s i) /\ required (port_at s' i) = required (port_at s i);
  fl_preds : forall i, predecessors (port_at s' i) ⊆ predecessors (port_at s i);
  fl_suffix : forall i e, e ∈ feeding (port_at s' i) -> queue_of s' e `suffix_of` queue_of s e;
  fl_stream : forall i, stream s i = at_port i log ++ stream s' i;
  fl_frame : forall i, i ∉ T -> port_at s' i = port_at s i /\
    forall e, e ∈ feeding (port_at s i) -> edges s' e = edges s e;
  fl_eos : eos_ports_ (binding s) ⊆ eos_ports_ (binding s');
  fl_entries : Forall (fun a => en_name a = port (port_at s (en_port a)) /\ fits (en_packet a) (en_fate a)) log;
}.

(** What the batch holds after the packets of the log. *)
Definition tally (log : list entry) (b : InputBatch) : InputBatch :=
  MkInputBatch (ports b ++ map en_name (with_fate FData log))
    (packets b ++ map en_packet (with_fate FData log))
    (events b ++ map en_packet (with_fate FEvent log))
    (event_ports b ++ map en_name (with_fate FEvent log)).

Record moves (T : list nat) (log : list entry) s s' : Prop := {
  mv_flow : flow T log s s';
  mv_abandoned : markers_last s -> Forall (fun a => en_fate a <> FAbandoned) log;
  mv_batch : batch s' = tally log (batch s);
  mv_late : Word.u64 (late_dropped_ (binding s')) = Word.u64 (late_dropped_ (binding s) + met FLate log);
  mv_stale : Word.u64 (stale_dropped_ (binding s')) = Word.u64 (stale_dropped_ (binding s) + met FStale log);
}.

Lemma at_port_app i l1 l2 : at_port i (l1 ++ l2) = at_port i l1 ++ at_port i l2.
Proof. unfold at_port. by rewrite List.filter_app, map_app. Qed.

Lemma with_fate_app f l1 l2 : with_fate f (l1 ++ l2) = with_fate f l1 ++ with_fate f l2.
Proof. apply List.filter_app. Qed.

Lemma met_app f l1 l2 : (met f (l1 ++ l2) = met f l1 + met f l2)%Z.
Proof. unfold met. rewrite with_fate_app, length_app. lia. Qed.

Lemma feeding_sub s s' T log i e :
  flow T log s s' -> e ∈ feeding (port_at s' i) -> e ∈ feeding (port_at s i).
Proof.
  intros F. unfold feeding. destruct (fl_shape _ _ _ _ F i) as (_ & -> & _).
  rewrite !elem_of_app. intros [?|?]; [left|by right]. by apply (fl_preds _ _ _ _ F i).
Qed.

Lemma marker_last_suffix q q' : q' `suffix_of` q -> marker_last q -> marker_last q'.
Proof.
  intros [k ->] Hm q1 p q2 -> He. apply (Hm (k ++ q1) p q2); [by rewrite <- app_assoc|done].
Qed.

Lemma markers_last_flow T log s s' : flow T log s s' -> markers_last s -> markers_last s'.
Proof.
  intros F Hm i e He. pose proof (fl_preds _ _ _ _ F i e He) as He'.
  eapply marker_last_suffix; [apply (fl_suffix _ _ _ _ F i)|by eapply Hm].
  unfold feeding. set_solver.
Qed.

Lemma flow_trans T1 T2 l1 l2 s1 s2 s3 :
  flow T1 l1 s1 s2 -> flow T2 l2 s2 s3 -> flow (T1 ++ T2) (l1 ++ l2) s1 s3.
Proof.
  intros F1 F2. split.
  - apply (fl_wf _ _ _ _ F2).
  - rewrite (fl_length _ _ _ _ F2). apply (fl_length _ _ _ _ F1).
  - destruct (fl_config _ _ _ _ F2) as [-> ->]. apply (fl_config _ _ _ _ F1).
  - intros i. destruct (fl_shape _ _ _ _ F2 i) as (-> & -> & ->). apply (fl_shape _ _ _ _ F1).
  - intros i. etrans; [apply (fl_preds _ _ _ _ F2)|apply (fl_preds _ _ _ _ F1)].
  - intros i e He. etrans; [by eapply (fl_suffix _ _ _ _ F2)|].
    eapply (fl_suffix _ _ _ _ F1). by eapply feeding_sub.
  - intros i. by rewrite (fl_stream _ _ _ _ F1), (fl_stream _ _ _ _ F2), at_port_app, app_assoc.
  - intros i Hi. apply not_elem_of_app in Hi as [Hi1 Hi2].
    destruct (fl_frame _ _ _ _ F1 i Hi1) as [E1 Hed1], (fl_frame _ _ _ _ F2 i Hi2) as [E2 Hed2].
    split; [congruence|]. intros e He. rewrite <- Hed1 by done. apply Hed2. by rewrite E1.
  - etrans; [apply (fl_eos _ _ _ _ F1)|apply (fl_eos _ _ _ _ F2)].
  - apply Forall_app. split; [apply (fl_entries _ _ _ _ F1)|].
    eapply Forall_impl; [apply (fl_entries _ _ _ _ F2)|]. simpl. intros a [-> ?]. split; [|done].
    apply (fl_shape _ _ _ _ F1).
Qed.

Lemma moves_trans T1 T2 l1 l2 s1 s2 s3 :
  moves T1 l1 s1 s2 -> moves T2 l2 s2 s3 -> moves (T1 ++ T2) (l1 ++ l2) s1 s3.
Proof.
  intros [F1 A1 B1 L1 S1] [F2 A2 B2 L2 S2]. split.
  - by eapply flow_trans.
  - intros Hm. apply Forall_app. split; [by apply A1|]. apply A2. by eapply markers_last_flow.
  - rewrite B2, B1. unfold tally. simpl. by rewrite !with_fate_app, !map_app, !app_assoc.
  - rewrite L2, met_app. unfold Word.u64 in *. rewrite <- Zplus_mod_idemp_l, L1, Zplus_mod_idemp_l. f_equal. lia.
  - rewrite S2, met_app. unfold Word.u64 in *. rewrite <- Zplus_mod_idemp_l, S1, Zplus_mod_idemp_l. f_equal. lia.
Qed.

(** ** The primitive steps *)

Lemma wf_same s s' :
  ports_ (binding s') = ports_ (binding s) -> (forall e, edges s' e = edges s e) -> wf s -> wf s'.
Proof.
  intros Hp He [Hok Hnd Hap]. unfold port_at in *.
  split; unfold port_at; rewrite Hp; try done. intros i e. rewrite He. apply Hok.
Qed.

Lemma flow_same s s' :
  wf s -> ports_ (binding s') = ports_ (binding s) -> policy_ (binding s') = policy_ (binding s) ->
  aligned_ (binding s') = aligned_ (binding s) -> (forall e, edges s' e = edges s e) ->
  eos_ports_ (binding s) ⊆ eos_ports_ (binding s') -> flow [] [] s s'.
Proof.
  intros Hwf Hp Hpo Hal He Hs.
  assert (Hat : forall i, port_at s' i = port_at s i) by (intros i; unfold port_at; by rewrite Hp).
  split; try done.
  - by eapply wf_same.
  - by rewrite Hp.
  - intros i. by rewrite Hat.
  - intros i. by rewrite Hat.
  - intros i e _. unfold queue_of. by rewrite He.
  - intros i. unfold stream. rewrite Hat. simpl. f_equal. apply map_ext. intros e. unfold queue_of. by rewrite He.
Qed.

(** The queues in front of the active edge of a port are empty. *)
Lemma Active_split s i e :
  wf s -> Active (edges s) (port_at s i) = Some e ->
  exists l1 l2, feeding (port_at s i) = l1 ++ e :: l2 /\ Forall (fun x => queue_of s x = []) l1 /\
    (edge (port_at s i) <> Some e -> exists k, predecessors (port_at s i) = l1 ++ e :: k).
Proof.
  intros Hwf. unfold Active, feeding.
  assert (Hok : forall x, x ∈ predecessors (port_at s i) -> e_ok (edges s x)).
  { intros x Hx. apply (wf_ok s Hwf i). unfold feeding. set_solver. }
  induction (predecessors (port_at s i)) as [|p l IH]; simpl.
  - intros ->. by exists [], [].
  - rewrite e_empty_spec by (apply Hok; set_solver).
    case_bool_decide as Hq; simpl.
    + destruct (decide (e_state (edges s p) = kRetired)).
      * intros Ha. destruct IH as (l1 & l2 & Hl & Hf & Hin); [set_solver|done|].
        exists (p :: l1), l2. simpl. rewrite Hl. split; [done|]. split; [by constructor|].
        intros Hne. destruct (Hin Hne) as [k ->]. by exists k.
      * intros [= ->]. exists [], (l ++ match edge (port_at s i) with Some e => [e] | None => [] end).
        repeat split; [by constructor|]. intros _. by exists l.
    + intros [= ->]. exists [], (l ++ match edge (port_at s i) with Some e => [e] | None => [] end).
      repeat split; [by constructor|]. intros _. by exists l.
Qed.

Lemma concat_empty {A B} (f : A -> list B) l :
  Forall (fun x => f x = []) l -> List.concat (map f l) = [].
Proof. induction 1 as [|x l Hx _ IH]; simpl; [done|]. by rewrite Hx. Qed.

Lemma stream_split s i e l1 l2 :
  feeding (port_at s i) = l1 ++ e :: l2 -> Forall (fun x => queue_of s x = []) l1 ->
  stream s i = queue_of s e ++ List.concat (map (queue_of s) l2).
Proof. intros Hf Hl. unfold stream. by rewrite Hf, map_app, concat_app, (concat_empty _ l1). Qed.

(** *** One edge changes *)

Lemma edges_set s e x e' : edges (set_edge e x s) e' = if decide (e' = e) then x else edges s e'.
Proof. done. Qed.

Lemma queue_set_ne s e x l :
  e ∉ l -> map (queue_of (set_edge e x s)) l = map (queue_of s) l.
Proof.
  intros Hl. apply map_ext_in. intros e' He'%list_elem_of_In. unfold queue_of.
  rewrite edges_set, decide_False; [done|]. intros ->. done.
Qed.

Definition named i s (f : fate) (p : Packet) : entry := MkEntry i (port (port_at s i)) p f.

Lemma at_port_named i j s f l :
  at_port j (map (named i s f) l) = if decide (i = j) then l else [].
Proof.
  unfold at_port. destruct (decide (i = j)) as [->|Hne].
  - induction l; simpl; [done|]. rewrite bool_decide_true by done. simpl. by f_equal.
  - induction l; simpl; [done|]. by rewrite bool_decide_false.
Qed.

Lemma flow_edge s i e x f l :
  wf s -> e ∈ feeding (port_at s i) -> e_ok x -> e_queue x `suffix_of` queue_of s e ->
  stream s i = l ++ stream (set_edge e x s) i -> Forall (fun p => fits p f) l ->
  flow [i] (map (named i s f) l) s (set_edge e x s).
Proof.
  intros Hwf He Hx Hq Hst Hfit. assert (Hwf' := Hwf). destruct Hwf' as [Hok Hnd Hap].
  assert (Hother : forall j, j <> i -> e ∉ feeding (port_at s j)) by (intros j Hj Hin; by apply Hj, (Hap j i e)).
  split; try done.
  - split; try done. intros j e' He'. rewrite edges_set. case_decide; [done|by eapply Hok].
  - intros j e' _. unfold queue_of. rewrite edges_set. case_decide; [|done]. by subst.
  - intros j. rewrite at_port_named. destruct (decide (i = j)) as [->|Hne]; [done|].
    unfold stream at 2. rewrite queue_set_ne; [done|]. by apply Hother.
  - intros j Hj. split; [done|]. intros e' He'. rewrite edges_set, decide_False; [done|].
    intros ->. apply Hj. apply list_elem_of_singleton. by eapply Hap.
  - apply Forall_map. eapply Forall_impl; [done|]. done.
Qed.

Lemma pop_edge_eq s e : pop_edge e s = set_edge e (e_pop (edges s e)).2 s.
Proof. done. Qed.

Lemma head_at_active s i p :
  wf s -> head_at s i = Some p ->
  exists e q, Active (edges s) (port_at s i) = Some e /\ e ∈ feeding (port_at s i) /\ queue_of s e = p :: q.
Proof.
  intros Hwf. unfold head_at. destruct (Active _ _) as [e|] eqn:Ha; [|done].
  destruct (Active_split s i e Hwf Ha) as (l1 & l2 & Hl & _ & _).
  assert (He : e ∈ feeding (port_at s i)) by (rewrite Hl; set_solver).
  rewrite e_peek_spec by by eapply wf_ok.
  destruct (e_queue (edges s e)) as [|p' q] eqn:Hq; [done|]. intros [= ->]. by exists e, q.
Qed.

(** Popping the head of the active edge. *)
Lemma flow_pop s i e p q f :
  wf s -> Active (edges s) (port_at s i) = Some e -> queue_of s e = p :: q -> fits p f ->
  flow [i] [named i s f p] s (pop_edge e s).
Proof.
  intros Hwf Ha Hq Hfit. destruct (Active_split s i e Hwf Ha) as (l1 & l2 & Hl & Hempty & _).
  assert (He : e ∈ feeding (port_at s i)) by (rewrite Hl; set_solver).
  assert (Hok : e_ok (edges s e)) by by eapply wf_ok.
  assert (Hpop : e_queue (e_pop (edges s e)).2 = q) by (rewrite e_pop_queue by done; unfold queue_of in Hq; by rewrite Hq).
  pose proof (wf_nodup s Hwf i) as Hnd. rewrite Hl in Hnd.
  apply NoDup_app in Hnd as (_ & Hd & [He2 _]%NoDup_cons).
  apply (flow_edge s i e _ f [p]); try done.
  - by apply e_pop_ok.
  - rewrite Hpop, Hq. by exists [p].
  - rewrite (stream_split s i e l1 l2) by done. rewrite Hq.
    rewrite (stream_split (set_edge e _ s) i e l1 l2); [|done|].
    + unfold queue_of at 2. rewrite edges_set, decide_True, Hpop by done. by rewrite queue_set_ne.
    + eapply Forall_impl; [apply Forall_and; split; [exact Hempty|]|].
      * apply Forall_forall. exact Hd.
      * simpl. intros x [Hx Hni]. unfold queue_of in *. rewrite edges_set, decide_False; [done|].
        intros ->. apply Hni. left.
  - by constructor.
Qed.

Lemma flow_weaken T T' log s s' : T ⊆ T' -> flow T log s s' -> flow T' log s s'.
Proof.
  intros HT F. destruct F as [? ? ? ? ? ? ? Hfr]. split; try done.
  intros i Hi. apply Hfr. set_solver.
Qed.

Lemma flow_join T l1 l2 s1 s2 s3 : flow T l1 s1 s2 -> flow T l2 s2 s3 -> flow T (l1 ++ l2) s1 s3.
Proof. intros F1 F2. eapply flow_weaken; [|by eapply flow_trans]. set_solver. Qed.

Lemma moves_weaken T T' log s s' : T ⊆ T' -> moves T log s s' -> moves T' log s s'.
Proof. intros HT [F ? ? ? ?]. split; try done. by eapply flow_weaken. Qed.

Lemma moves_join T l1 l2 s1 s2 s3 : moves T l1 s1 s2 -> moves T l2 s2 s3 -> moves T (l1 ++ l2) s1 s3.
Proof. intros F1 F2. eapply moves_weaken; [|by eapply moves_trans]. set_solver. Qed.

Lemma moves_refl T s : wf s -> moves T [] s s.
Proof.
  intros Hwf. apply (moves_weaken []); [set_solver|]. split.
  - by apply flow_same.
  - done.
  - unfold tally. simpl. rewrite !app_nil_r. by destruct (batch s).
  - unfold met. simpl. by rewrite Z.add_0_r.
  - unfold met. simpl. by rewrite Z.add_0_r.
Qed.

(** *** A predecessor is retired and forgotten *)

Lemma flow_retire s i e :
  wf s -> e ∈ feeding (port_at s i) -> flow [i] [] s (set_edge e (e_retire false (edges s e)) s).
Proof.
  intros Hwf He. assert (Hok : e_ok (edges s e)) by by eapply wf_ok.
  apply (flow_edge s i e _ FEos []); try done.
  - by apply e_retire_ok.
  - rewrite e_retire_queue by done. done.
  - unfold stream. simpl. f_equal. apply map_ext. intros e'. unfold queue_of. rewrite edges_set.
    case_decide; [subst; by rewrite e_retire_queue|done].
Qed.

Lemma port_at_erase s i e j :
  e ∈ predecessors (port_at s i) ->
  port_at (erase_predecessor i e s) j =
    if decide (i = j) then set_predecessors (filter (fun p => p <> e) (predecessors (port_at s i))) (port_at s i)
    else port_at s j.
Proof.
  intros He. assert (Hi : i < List.length (ports_ (binding s))).
  { destruct (decide (i < List.length (ports_ (binding s)))) as [?|Hge]; [done|]. exfalso. revert He.
    unfold port_at. rewrite lookup_ge_None_2 by lia. simpl. set_solver. }
  unfold erase_predecessor, port_at. simpl. destruct (decide (i = j)) as [->|Hne].
  - by rewrite list_lookup_insert_eq.
  - by rewrite list_lookup_insert_ne.
Qed.

Lemma filter_ne_id (l : list edge_ref) e : e ∉ l -> filter (fun p => p <> e) l = l.
Proof.
  induction l as [|x l IH]; intros Hl; [done|]. rewrite filter_cons_True by set_solver.
  f_equal. apply IH. set_solver.
Qed.

(** The packets left in a forgotten predecessor are abandoned. *)
Lemma flow_erase s i e l1 l2 :
  wf s -> predecessors (port_at s i) = l1 ++ e :: l2 -> Forall (fun x => queue_of s x = []) l1 ->
  flow [i] (map (named i s FAbandoned) (queue_of s e)) s (erase_predecessor i e s).
Proof.
  intros Hwf Hp Hl1. assert (Hin : e ∈ predecessors (port_at s i)) by (rewrite Hp; set_solver).
  pose proof (wf_nodup s Hwf i) as Hnd. unfold feeding in Hnd. rewrite Hp in Hnd.
  assert (Hfil : filter (fun p => p <> e) (predecessors (port_at s i)) = l1 ++ l2).
  { apply NoDup_app in Hnd as (Hnd & _ & _). apply NoDup_app in Hnd as (_ & Hd & [Hn2 _]%NoDup_cons).
    rewrite Hp, filter_app, filter_cons_False by (intros Hc; by apply Hc).
    rewrite !filter_ne_id; [done|done|]. intros Hc. apply (Hd e Hc). left. }
  assert (Hsub : forall j x, x ∈ feeding (port_at (erase_predecessor i e s) j) -> x ∈ feeding (port_at s j)).
  { intros j x. rewrite port_at_erase by done. case_decide; [subst|done]. unfold feeding, set_predecessors. simpl.
    rewrite Hfil, Hp. set_solver. }
  split; try done.
  - destruct Hwf as [Hok Hnd' Hap]. split.
    + intros j x Hx. apply (Hok j). by apply Hsub.
    + intros j. rewrite port_at_erase by done. case_decide; [subst|done].
      unfold feeding, set_predecessors. simpl. rewrite Hfil.
      eapply sublist_NoDup; [exact Hnd|]. apply sublist_app; [|done].
      apply sublist_app; [done|]. by apply sublist_cons.
    + intros j k x Hj Hk. by eapply Hap; apply Hsub.
  - unfold erase_predecessor. simpl. by rewrite length_insert.
  - intros j. rewrite port_at_erase by done. by case_decide; subst.
  - intros j. rewrite port_at_erase by done. case_decide; [subst|done]. simpl. rewrite Hfil, Hp. set_solver.
  - intros j. rewrite at_port_named. unfold stream at 2. rewrite port_at_erase by done.
    case_decide; [subst|done]. unfold feeding, set_predecessors. simpl. rewrite Hfil.
    rewrite (stream_split s j e l1 (l2 ++ match edge (port_at s j) with Some e => [e] | None => [] end)); [|..|done].
    + f_equal. change (queue_of (erase_predecessor j e s)) with (queue_of s).
      by rewrite <- app_assoc, (map_app _ l1), concat_app, (concat_empty _ l1).
    + unfold feeding. by rewrite Hp, <- app_assoc.
  - intros j Hj. rewrite port_at_erase by done. rewrite decide_False; [done|]. set_solver.
  - apply Forall_map, Forall_true. done.
Qed.

(** *** One round of SkimHead *)

Definition is_control (a : entry) : Prop := en_fate a <> FData /\ en_fate a <> FLate.

Definition is_live s i (p : Packet) : Prop :=
  head_at s i = Some p /\ is_data (Some p) = true.

Lemma flow_on_binding s g :
  wf s -> ports_ (g (binding s)) = ports_ (binding s) -> policy_ (g (binding s)) = policy_ (binding s) ->
  aligned_ (g (binding s)) = aligned_ (binding s) -> eos_ports_ (binding s) ⊆ eos_ports_ (g (binding s)) ->
  flow [] [] s (on_binding g s).
Proof. intros. by apply flow_same. Qed.

Lemma flow_then T log s s' s'' : flow T log s s' -> (wf s' -> flow [] [] s' s'') -> flow T log s s''.
Proof.
  intros F F'. rewrite <- (app_nil_r log). eapply flow_join; [done|].
  eapply flow_weaken; [|apply F', (fl_wf _ _ _ _ F)]. set_solver.
Qed.

(** The marker of a predecessor: popped, the edge retired and forgotten. *)
Lemma flow_marker s i e p q :
  wf s -> Active (edges s) (port_at s i) = Some e -> edge (port_at s i) <> Some e ->
  queue_of s e = p :: q -> PacketOps.is_eos p = true ->
  exists log, flow [i] (named i s FEos p :: log) s
    (erase_predecessor i e (set_edge e (e_retire false (edges (pop_edge e s) e)) (pop_edge e s))) /\
    Forall (fun a => en_fate a = FAbandoned) log /\
    (markers_last s -> log = []).
Proof.
  intros Hwf Ha Hne Hq Heos. destruct (Active_split s i e Hwf Ha) as (l1 & l2 & Hl & Hl1 & Hin).
  destruct (Hin Hne) as [k Hk]. pose proof (flow_pop s i e p q FEos Hwf Ha Hq Heos) as F1.
  assert (He : e ∈ feeding (port_at s i)) by (rewrite Hl; set_solver).
  pose proof (flow_retire (pop_edge e s) i e (fl_wf _ _ _ _ F1) He) as F2. set (s2 := set_edge _ _ (pop_edge e s)) in *.
  assert (Hok : e_ok (edges s e)) by by eapply wf_ok.
  assert (Hq2 : queue_of s2 e = q).
  { unfold queue_of, s2. rewrite edges_set, decide_True by done. rewrite pop_edge_eq, edges_set, decide_True by done.
    rewrite e_retire_queue, e_pop_queue by (try apply e_pop_ok; done). unfold queue_of in Hq. by rewrite Hq. }
  exists (map (named i s2 FAbandoned) q). split; [|split].
  - change (named i s FEos p :: ?x) with ([named i s FEos p] ++ x). eapply flow_join; [exact F1|].
    change (map ?f ?x) with ([] ++ map f x). eapply flow_join; [exact F2|]. rewrite <- Hq2.
    apply (flow_erase s2 i e l1 k); [apply (fl_wf _ _ _ _ F2)|done|].
    pose proof (wf_nodup s Hwf i) as Hnd. rewrite Hl in Hnd. apply NoDup_app in Hnd as (_ & Hd & _).
    eapply Forall_impl; [apply Forall_and; split; [exact Hl1|apply Forall_forall; exact Hd]|].
    simpl. intros x [Hx Hni]. assert (x <> e) by (intros ->; apply Hni; left).
    unfold queue_of, s2. rewrite edges_set, decide_False, pop_edge_eq, edges_set, decide_False by done. done.
  - apply Forall_map, Forall_true. done.
  - intros Hm. rewrite (Hm i e ltac:(rewrite Hk; set_solver) [] p q Hq Heos). constructor.
Qed.

(** A predecessor is only active while it is not both retired and empty. *)
Lemma Active_predecessor s i e :
  wf s -> Active (edges s) (port_at s i) = Some e -> edge (port_at s i) <> Some e ->
  queue_of s e = [] -> e_state (edges s e) <> kRetired.
Proof.
  intros Hwf. unfold Active.
  assert (Hok : forall x, x ∈ predecessors (port_at s i) -> e_ok (edges s x)).
  { intros x Hx. apply (wf_ok s Hwf i). unfold feeding. set_solver. }
  induction (predecessors (port_at s i)) as [|p l IH]; simpl; [congruence|].
  rewrite e_empty_spec by (apply Hok; set_solver).
  case_bool_decide as Hq; simpl; [|intros [= ->]; done].
  destruct (decide (e_state (edges s p) = kRetired)); [|intros [= ->]; done].
  apply IH. intros; apply Hok; set_solver.
Qed.

Lemma moves_log_one T log s s' s'' :
  flow T log s s' -> (wf s' -> flow [] [] s' s'') ->
  (markers_last s -> Forall (fun a => en_fate a <> FAbandoned) log) ->
  batch s'' = tally log (batch s) ->
  Word.u64 (late_dropped_ (binding s'')) = Word.u64 (late_dropped_ (binding s) + met FLate log) ->
  Word.u64 (stale_dropped_ (binding s'')) = Word.u64 (stale_dropped_ (binding s) + met FStale log) ->
  moves T log s s''.
Proof. intros. split; try done. by eapply flow_then. Qed.

Lemma tally_none log b :
  Forall (fun a => en_fate a <> FData /\ en_fate a <> FEvent) log -> tally log b = b.
Proof.
  intros Hl. assert (Hd : with_fate FData log = [] /\ with_fate FEvent log = []).
  { induction Hl as [|a l [? ?] _ [IH1 IH2]]; [done|]. unfold with_fate in *. simpl.
    by rewrite !bool_decide_false. }
  unfold tally. rewrite (proj1 Hd), (proj2 Hd). simpl. rewrite !app_nil_r. by destruct b.
Qed.

Lemma met_none f log : Forall (fun a => en_fate a <> f) log -> met f log = 0%Z.
Proof.
  intros Hl. unfold met, with_fate. induction Hl as [|a l Ha _ IH]; [done|]. simpl.
  by rewrite bool_decide_false.
Qed.

Lemma u64_idem x : Word.u64 (Word.u64 x) = Word.u64 x.
Proof. unfold Word.u64. by rewrite Zmod_mod. Qed.

Lemma Take_head s i p :
  wf s -> head_at s i = Some p -> exists e q,
    Active (edges s) (port_at s i) = Some e /\ queue_of s e = p :: q /\ Take i s = (Some p, pop_edge e s).
Proof.
  intros Hwf Hh. destruct (head_at_active s i p Hwf Hh) as (e & q & Ha & He & Hq).
  exists e, q. split; [done|]. split; [done|]. unfold Take. rewrite Ha.
  rewrite e_pop_value by by eapply wf_ok. unfold queue_of in Hq. by rewrite Hq.
Qed.

(** One packet is popped and entered with its fate. *)
Lemma moves_pop s i e p q f s' :
  wf s -> Active (edges s) (port_at s i) = Some e -> queue_of s e = p :: q -> fits p f -> f <> FAbandoned ->
  (wf (pop_edge e s) -> flow [] [] (pop_edge e s) s') ->
  batch s' = tally [named i s f p] (batch s) ->
  late_dropped_ (binding s') = (if decide (f = FLate) then Word.u64 (late_dropped_ (binding s) + 1) else late_dropped_ (binding s)) ->
  stale_dropped_ (binding s') = (if decide (f = FStale) then Word.u64 (stale_dropped_ (binding s) + 1) else stale_dropped_ (binding s)) ->
  moves [i] [named i s f p] s s'.
Proof.
  intros Hwf Ha Hq Hfit Hf Hs Hb Hl Hst.
  apply (moves_log_one _ _ s (pop_edge e s)); [by eapply flow_pop|done|by repeat constructor|done|..].
  - rewrite Hl. destruct (decide (f = FLate)) as [->|]; [by rewrite u64_idem|].
    by rewrite met_none, Z.add_0_r by by repeat constructor.
  - rewrite Hst. destruct (decide (f = FStale)) as [->|]; [by rewrite u64_idem|].
    by rewrite met_none, Z.add_0_r by by repeat constructor.
Qed.

Definition skimmed s i s' : Prop :=
  exists log, moves [i] log s s' /\ Forall is_control log /\ at_port i log <> [].

Lemma skimmed_one s i p f s' :
  f <> FData -> f <> FLate -> moves [i] [named i s f p] s s' -> skimmed s i s'.
Proof.
  intros Hd Hl Hm. exists [named i s f p]. split; [done|]. split; [by repeat constructor|].
  unfold at_port. simpl. by rewrite bool_decide_true.
Qed.

Lemma skimmed_marker s i e p q :
  wf s -> Active (edges s) (port_at s i) = Some e -> edge (port_at s i) <> Some e ->
  queue_of s e = p :: q -> PacketOps.is_eos p = true ->
  skimmed s i (erase_predecessor i e (set_edge e (e_retire false (edges (pop_edge e s) e)) (pop_edge e s))).
Proof.
  intros Hwf Ha Hne Hq Heos. destruct (flow_marker s i e p q Hwf Ha Hne Hq Heos) as (log & F & Hab & Hnone).
  assert (Hcons : forall P : entry -> Prop, P (named i s FEos p) -> (forall a, en_fate a = FAbandoned -> P a) ->
    Forall P (named i s FEos p :: log)).
  { intros P Hp HP. constructor; [done|]. by eapply Forall_impl. }
  exists (named i s FEos p :: log). split; [split; [done|..]|split].
  - intros Hm. rewrite Hnone by done. by repeat constructor.
  - rewrite tally_none; [done|]. apply Hcons; [done|]. by intros a ->.
  - rewrite met_none, Z.add_0_r; [done|]. apply Hcons; [done|]. by intros a ->.
  - rewrite met_none, Z.add_0_r; [done|]. apply Hcons; [done|]. by intros a ->.
  - apply Hcons; unfold is_control; [done|]. by intros a ->.
  - unfold at_port. simpl. by rewrite bool_decide_true.
Qed.

Lemma skim_round_spec s i :
  wf s ->
  match skim_round i s with
  | (Again, s') => skimmed s i s'
  | (NoHead, s') => s' = s /\ head_at s i = None
  | (Head p, s') => s' = s /\ is_live s i p
  end.
Proof.
  intros Hwf. unfold skim_round, is_live.
  assert (Hd : head_at s i = match Active (edges s) (port_at s i) with Some e => e_peek (edges s e) | None => None end) by done.
  destruct (Active (edges s) (port_at s i)) as [e|] eqn:Ha; [|done]. cbn zeta.
  destruct (e_peek (edges s e)) as [p|] eqn:Hp.
  - destruct (Take_head s i p Hwf Hd) as (e' & q & Ha' & Hq & Ht).
    rewrite Ha in Ha'. injection Ha' as <-. rewrite Ht.
    destruct (PacketOps.is_eos p) eqn:Heos; [|destruct (PacketOps.is_event p) eqn:Hev].
    + case_bool_decide as Hpred; [|by eapply skimmed_marker].
      eapply (skimmed_one _ _ p FEos), moves_pop; try done.
      * intros. apply flow_on_binding; try done. set_solver.
      * by rewrite tally_none by by repeat constructor.
    + eapply (skimmed_one _ _ p FEvent), moves_pop; try done.
      * intros. by apply flow_same.
      * unfold tally. simpl. by rewrite !app_nil_r.
    + assert (Hdata : is_data (Some p) = true) by (simpl; by rewrite Heos, Hev).
      destruct (_ && _); [|done]. eapply (skimmed_one _ _ p FStale), moves_pop; try done.
      * intros. by apply flow_on_binding.
      * by rewrite tally_none by by repeat constructor.
  - case_bool_decide as Hpred; [done|]. case_bool_decide as Hret; [|done]. exfalso.
    eapply Active_predecessor; [done|done|done| |done].
    destruct (Active_split s i e Hwf Ha) as (l1 & l2 & Hl & _ & _).
    rewrite e_peek_spec in Hp by (apply (wf_ok s Hwf i); rewrite Hl; set_solver).
    unfold queue_of. by destruct (e_queue (edges s e)).
Qed.

(** *** The loops *)

Lemma stream_shrinks T log s s' i :
  flow T log s s' -> List.length (stream s i) = List.length (at_port i log) + List.length (stream s' i).
Proof. intros F. by rewrite (fl_stream _ _ _ _ F i), length_app. Qed.

Lemma SkimHead_wp fuel i s :
  wf s -> List.length (stream s i) < fuel ->
  wp (SkimHead fuel i) s (fun r s' =>
    (exists log, moves [i] log s s' /\ Forall is_control log) /\
    match r with Some p => is_live s' i p | None => head_at s' i = None end).
Proof.
  revert s. induction fuel as [|k IH]; intros s Hwf Hf; [lia|]. unfold wp. simpl.
  pose proof (skim_round_spec s i Hwf) as Hr. destruct (skim_round i s) as [[p| |] s'].
  - destruct Hr as [-> Hl]. split; [|done]. exists []. split; [by apply moves_refl|constructor].
  - destruct Hr as [-> Hl]. split; [|done]. exists []. split; [by apply moves_refl|constructor].
  - destruct Hr as (log & Hm & Hc & Hne). pose proof (mv_flow _ _ _ _ Hm) as F.
    pose proof (stream_shrinks _ _ _ _ i F). destruct (at_port i log); [done|]. simpl in *.
    eapply (wp_mono (SkimHead k i)); [apply IH; [apply (fl_wf _ _ _ _ F)|lia]|].
    intros r s'' [(log' & Hm' & Hc') Hp]. split; [|done]. exists (log ++ log').
    split; [by eapply moves_join|by apply Forall_app].
Qed.

End flow.
