(* ===== verification/InputBindingProofs.v ===== *)
(** Acquiring a batch: it terminates, accounts for every packet it consumes,
    and synchronises the ports as the policy says. *)

From stdpp Require Import base numbers list strings gmap sets.
From Stdlib Require Import ZArith Lia Ascii String.
From S2P Require Import Prelude Types Double Json GraphSpec CapabilityTypes Packet EdgeChannel EdgeRefinement InputBinding InputFlow.

Local Open Scope nat_scope.
Local Open Scope list_scope.

Section acquiring.
Context {E : Type} `{ConsumerEdgeLaws E}.
Implicit Types (s : acq (E := E)) (e : edge_ref) (i j : nat).

(** ** Heads and loads *)

Lemma first_live_frame (ed ed' : edge_ref -> E) l :
  (forall e, e ∈ l -> ed' e = ed e) -> first_live ed' l = first_live ed l.
Proof.
  induction l as [|p l IH]; intros Hl; simpl; [done|]. rewrite (Hl p) by left.
  rewrite IH; [done|]. intros e He. apply Hl. by right.
Qed.

Lemma head_frame T log s s' i : wf s -> flow T log s s' -> i ∉ T -> head_at s' i = head_at s i.
Proof.
  intros Hwf F Hi. destruct (fl_frame _ _ _ _ F i Hi) as [Hp He]. unfold head_at, Active. rewrite Hp.
  rewrite (first_live_frame (edges s)) by (intros e ?; apply He; unfold feeding; set_solver).
  destruct (match first_live _ _ with Some _ => _ | None => _ end) as [e|] eqn:Ha; [|done].
  rewrite He; [done|]. destruct (Active_split s i e Hwf Ha) as (l1 & l2 & -> & _). set_solver.
Qed.

Lemma live_frame T log s s' i p : wf s -> flow T log s s' -> i ∉ T -> is_live s i p -> is_live s' i p.
Proof. intros ? F ? [? ?]. split; [|done]. by erewrite head_frame. Qed.

Definition load s : nat := sum_list_with (fun i => List.length (stream s i)) (indices s).

Lemma stream_out s i : List.length (ports_ (binding s)) <= i -> stream s i = [].
Proof. intros Hi. unfold stream, port_at. by rewrite lookup_ge_None_2. Qed.

Lemma sum_list_with_elem {A} (f : A -> nat) l x : x ∈ l -> f x <= sum_list_with f l.
Proof. induction 1; simpl; lia. Qed.

Lemma sum_list_with_le {A} (f g : A -> nat) l :
  (forall x, x ∈ l -> f x <= g x) -> sum_list_with f l <= sum_list_with g l.
Proof.
  induction l as [|x l IH]; intros Hl; simpl; [lia|].
  pose proof (Hl x ltac:(left)). pose proof (IH ltac:(intros; apply Hl; by right)). lia.
Qed.

Lemma sum_list_with_lt {A} (f g : A -> nat) l x :
  (forall x, x ∈ l -> f x <= g x) -> x ∈ l -> f x < g x -> sum_list_with f l < sum_list_with g l.
Proof.
  intros Hl Hx. revert Hl. induction Hx as [|x y l Hx IH]; intros Hl Hlt; simpl.
  - pose proof (sum_list_with_le f g l ltac:(intros; apply Hl; by right)). lia.
  - pose proof (Hl y ltac:(left)). pose proof (IH ltac:(intros; apply Hl; by right) Hlt). lia.
Qed.

Lemma elem_of_indices s i : i ∈ indices s <-> i < List.length (ports_ (binding s)).
Proof. unfold indices. rewrite elem_of_seq. lia. Qed.

Lemma NoDup_indices s : NoDup (indices s).
Proof. apply NoDup_seq. Qed.

Lemma stream_load s i : List.length (stream s i) <= load s.
Proof.
  destruct (decide (i < List.length (ports_ (binding s)))).
  - apply (sum_list_with_elem (fun i => List.length (stream s i))). by apply elem_of_indices.
  - rewrite stream_out by lia. simpl. lia.
Qed.

Lemma indices_flow T log s s' : flow T log s s' -> indices s' = indices s.
Proof. intros F. unfold indices. by rewrite (fl_length _ _ _ _ F). Qed.

Lemma load_flow T log s s' : flow T log s s' -> load s' <= load s.
Proof.
  intros F. unfold load. rewrite (indices_flow _ _ _ _ F). apply sum_list_with_le.
  intros i _. rewrite (stream_shrinks _ _ _ _ i F). lia.
Qed.

Lemma load_flow_lt T log s s' i : flow T log s s' -> at_port i log <> [] -> load s' < load s.
Proof.
  intros F Hne. pose proof (stream_shrinks _ _ _ _ i F) as Hi.
  destruct (at_port i log) eqn:Hl; [done|]. simpl in Hi.
  unfold load. rewrite (indices_flow _ _ _ _ F). apply (sum_list_with_lt _ _ _ i).
  - intros j _. rewrite (stream_shrinks _ _ _ _ j F). lia.
  - apply elem_of_indices. destruct (decide (i < List.length (ports_ (binding s)))); [done|].
    rewrite (stream_out s i) in Hi by lia. simpl in Hi. lia.
  - lia.
Qed.

(** ** Taking one packet *)

Lemma wp_get {A} (k : acq -> M A) s Q : wp (k s) s Q -> wp (bindM getM k) s Q.
Proof. done. Qed.

Lemma live_pop s i p :
  wf s -> is_live s i p -> exists e q, Active (edges s) (port_at s i) = Some e /\ queue_of s e = p :: q /\
    Take i s = (Some p, pop_edge e s) /\ fits p FData.
Proof. intros Hwf [Hh Hd]. destruct (Take_head s i p Hwf Hh) as (e & q & ? & ? & ?). by exists e, q. Qed.

(** Take and deliver the live head of a port. *)
Lemma wp_serve {A} s i p (k n : M A) Q :
  wf s -> is_live s i p ->
  (forall s', moves [i] [named i s FData p] s s' -> wp k s' Q) ->
  wp (bindM (takeM i) (fun r => match r with None => n | Some p => bindM (deliver i p) (fun _ => k) end)) s Q.
Proof.
  intros Hwf Hl Hk. destruct (live_pop s i p Hwf Hl) as (e & q & Ha & Hq & Ht & Hfit).
  unfold wp, bindM, takeM. rewrite Ht. simpl. apply Hk. apply (moves_pop s i e p q); try done.
  - intros. by apply flow_same.
  - unfold tally. simpl. by rewrite !app_nil_r.
Qed.

(** Take the live head of a port and count it as late. *)
Lemma wp_drop {A} s i p (k n : M A) Q :
  wf s -> is_live s i p ->
  (forall s', moves [i] [named i s FLate p] s s' -> wp k s' Q) ->
  wp (bindM (takeM i) (fun r => if has r then bindM (modifyM (on_binding Bind.add_late)) (fun _ => k) else n)) s Q.
Proof.
  intros Hwf Hl Hk. destruct (live_pop s i p Hwf Hl) as (e & q & Ha & Hq & Ht & Hfit).
  unfold wp, bindM, takeM. rewrite Ht. simpl. apply Hk. apply (moves_pop s i e p q); try done.
  - intros. by apply flow_on_binding.
  - unfold tally. simpl. rewrite !app_nil_r. by destruct (batch s).
Qed.

(** What the acquisition does to the state, by packets whose fates satisfy [P]. *)
Definition advances (P : fate -> Prop) (T : list nat) s s' : Prop :=
  exists log, moves T log s s' /\ Forall (fun a => P (en_fate a)) log.

Definition control (f : fate) : Prop := f <> FData /\ f <> FLate.
Definition undelivered (f : fate) : Prop := f <> FData.
Definition any_fate (f : fate) : Prop := True.

Lemma advances_refl P T s : wf s -> advances P T s s.
Proof. exists []. split; [by apply moves_refl|constructor]. Qed.

Lemma advances_join P T s1 s2 s3 : advances P T s1 s2 -> advances P T s2 s3 -> advances P T s1 s3.
Proof.
  intros (l1 & ? & ?) (l2 & ? & ?). exists (l1 ++ l2).
  split; [by eapply moves_join|by apply Forall_app].
Qed.

Lemma advances_weaken (P P' : fate -> Prop) T T' s s' :
  T ⊆ T' -> (forall f, P f -> P' f) -> advances P T s s' -> advances P' T' s s'.
Proof.
  intros ? HP (l & ? & Hl). exists l. split; [by eapply moves_weaken|].
  eapply Forall_impl; [done|]. simpl. eauto.
Qed.

Lemma advances_touch P T T' s s' : T ⊆ T' -> advances P T s s' -> advances P T' s s'.
Proof. intros ?. by apply advances_weaken. Qed.

Lemma advances_cons P i l s1 s2 s3 :
  advances P [i] s1 s2 -> advances P l s2 s3 -> advances P (i :: l) s1 s3.
Proof.
  intros H1 H2. eapply advances_join; (eapply advances_touch; [|done]); set_solver.
Qed.

Lemma advances_wf P T s s' : advances P T s s' -> wf s'.
Proof. intros (l & Hm & _). apply (fl_wf _ _ _ _ (mv_flow _ _ _ _ Hm)). Qed.

Lemma advances_load P T s s' : advances P T s s' -> load s' <= load s.
Proof. intros (l & Hm & _). apply (load_flow _ _ _ _ (mv_flow _ _ _ _ Hm)). Qed.

Lemma advances_live P T s s' i p :
  wf s -> advances P T s s' -> i ∉ T -> is_live s i p -> is_live s' i p.
Proof. intros ? (l & Hm & _). apply (live_frame _ l); [done|apply (mv_flow _ _ _ _ Hm)]. Qed.

Lemma advances_indices P T s s' : advances P T s s' -> indices s' = indices s.
Proof. intros (l & Hm & _). apply (indices_flow _ _ _ _ (mv_flow _ _ _ _ Hm)). Qed.

Lemma advances_packets P T s s' :
  (forall f, P f -> f <> FData) -> advances P T s s' -> packets (batch s') = packets (batch s).
Proof.
  intros HP (log & Hm & Hl). rewrite (mv_batch _ _ _ _ Hm). unfold tally, with_fate. simpl.
  replace (List.filter _ log) with (@nil entry); [by rewrite app_nil_r|].
  clear Hm. induction Hl as [|a l Ha _ IH]; simpl; [done|]. rewrite bool_decide_false by by apply HP. done.
Qed.

Lemma moves_advances (P : fate -> Prop) T log s s' :
  moves T log s s' -> Forall (fun a => P (en_fate a)) log -> advances P T s s'.
Proof. intros. by exists log. Qed.

(** [SkimHead], with the bound on its rounds taken from the load. *)
Lemma wp_skim fuel i s :
  wf s -> load s < fuel ->
  wp (SkimHead fuel i) s (fun r s' => advances control [i] s s' /\
    match r with Some p => is_live s' i p | None => head_at s' i = None end).
Proof.
  intros Hwf Hf. eapply wp_mono; [apply SkimHead_wp; [done|]; pose proof (stream_load s i); lia|].
  intros r s' [(log & ? & ?) ?]. split; [by exists log|done].
Qed.

(** ** any *)

Lemma skim_all_wp fuel l : forall s,
  wf s -> load s < fuel -> NoDup l ->
  wp (skim_all fuel l) s (fun r s' => advances control l s s' /\
    forall i, (i, true) ∈ r -> i ∈ l /\ exists p, is_live s' i p).
Proof.
  induction l as [|i l IH]; intros s Hwf Hf Hnd.
  - split; [by apply advances_refl|]. set_solver.
  - apply NoDup_cons in Hnd as [Hi Hnd]. simpl. apply wp_bind.
    eapply wp_mono; [by apply wp_skim|]. intros h s1 [Ha Hh].
    pose proof (advances_wf _ _ _ _ Ha). pose proof (advances_load _ _ _ _ Ha). apply wp_bind.
    eapply wp_mono; [apply IH; [done|lia|done]|].
    intros r s2 [Ha2 Hr]. unfold wp, retM. split.
    + exact (advances_cons _ _ _ _ _ _ Ha Ha2).
    + intros j [Hj|Hj]%elem_of_cons; [|destruct (Hr j Hj); set_solver]. injection Hj as -> Hhas.
      split; [set_solver|]. destruct h as [p|]; [|done]. exists p. by eapply advances_live.
Qed.

Lemma choose_spec s b l i : choose s b l = Some i -> (i, true) ∈ l /\ required (port_at s i) = b.
Proof.
  unfold choose. destruct (List.find _ l) as [[j d]|] eqn:Hf; [|done]. intros [= <-].
  apply List.find_some in Hf as [Hin Hp]. apply andb_prop in Hp as [Hb Hd]. simpl in *. subst.
  split; [by apply list_elem_of_In|]. by apply Bool.eqb_prop.
Qed.

(** How an acquisition ends: it returns what it collected, if anything. *)
Definition returns (r : option InputBatch) (b : InputBatch) : Prop :=
  match r with Some b' => b' = b | None => packets b = [] /\ events b = [] end.

Definition ledger s (r : option InputBatch) s' : Prop :=
  advances any_fate (indices s) s s' /\ returns r (batch s').

Lemma finish_wp P s0 s :
  advances P (indices s0) s0 s -> packets (batch s) = [] -> wp finish s (ledger s0).
Proof.
  intros Ha Hp. unfold wp, finish, getM, retM, bindM, ledger, returns.
  split; [by eapply advances_weaken|]. by case_decide.
Qed.

Lemma AcquireAny_wp fuel s :
  wf s -> load s < fuel -> packets (batch s) = [] -> wp (AcquireAny fuel) s (ledger s).
Proof.
  intros Hwf Hf Hb. unfold AcquireAny. apply wp_get, wp_bind.
  eapply wp_mono; [apply skim_all_wp; try done; apply NoDup_indices|]. intros hd s1 [Ha Hl].
  assert (Hb1 : packets (batch s1) = []) by (rewrite <- Hb; eapply advances_packets; [|done]; by intros ? []).
  apply wp_get. destruct (match choose s1 true hd with Some _ => _ | None => _ end) as [i|] eqn:Hc;
    [|by eapply finish_wp].
  assert (Hi : (i, true) ∈ hd).
  { destruct (choose s1 true hd) eqn:Hc1; [simplify_eq; apply (choose_spec _ _ _ _ Hc1)|apply (choose_spec _ _ _ _ Hc)]. }
  destruct (Hl i Hi) as [Hin [p Hp]].
  eapply wp_serve; [by eapply advances_wf|done|]. intros s2 Hm. apply wp_get.
  unfold wp, retM, ledger. split; [|done]. eapply advances_join; [by eapply advances_weaken|].
  exists [named i s1 FData p]. split; [|by repeat constructor]. eapply moves_weaken; [|done]. set_solver.
Qed.

(** ** latest *)

Lemma find_trigger_wp fuel l : forall s,
  wf s -> load s < fuel ->
  wp (find_trigger fuel l) s (fun r s' => advances control l s s' /\
    match r with Some i => i ∈ l /\ exists p, is_live s' i p | None => True end).
Proof.
  induction l as [|i l IH]; intros s Hwf Hf.
  - split; [by apply advances_refl|done].
  - assert (Hrest : forall s1, advances control [i] s s1 -> wp (find_trigger fuel l) s1 (fun r s' =>
      advances control (i :: l) s s' /\ match r with Some j => j ∈ i :: l /\ exists p, is_live s' j p | None => True end)).
    { intros s1 Ha. pose proof (advances_load _ _ _ _ Ha).
      eapply wp_mono; [apply IH; [by eapply advances_wf|lia]|]. intros r s2 [Ha2 Hr]. split.
      - exact (advances_cons _ _ _ _ _ _ Ha Ha2).
      - destruct r; [|done]. destruct Hr. split; [by right|done]. }
    simpl. apply wp_get. destruct (required (port_at s i)); [|apply Hrest; by apply advances_refl].
    apply wp_bind. eapply wp_mono; [by apply wp_skim|]. intros h s1 [Ha Hh].
    destruct h as [p|]; simpl; [|by apply Hrest]. unfold wp, retM. split.
    + eapply advances_weaken; [|done|done]. set_solver.
    + split; [left|by exists p].
Qed.

(** While [newest] runs: the packets [old] were taken and superseded, [p] is in hand. *)
Record holding s0 i (old : list Packet) (p : Packet) s : Prop := {
  hd_flow : flow [i] (map (named i s0 FStale) old ++ [named i s0 FData p]) s0 s;
  hd_batch : batch s = batch s0;
  hd_late : late_dropped_ (binding s) = late_dropped_ (binding s0);
  hd_stale : Word.u64 (stale_dropped_ (binding s)) =
             Word.u64 (stale_dropped_ (binding s0) + Z.of_nat (List.length old));
}.

Lemma with_fate_named f g i s l :
  with_fate f (map (named i s g) l) = if decide (g = f) then map (named i s g) l else [].
Proof.
  unfold with_fate. destruct (decide (g = f)); induction l as [|p l IH]; simpl; try done.
  - rewrite bool_decide_true by done. by f_equal.
  - by rewrite bool_decide_false.
Qed.

Lemma named_flow T log s0 s i f p : flow T log s0 s -> named i s f p = named i s0 f p.
Proof. intros F. unfold named. by destruct (fl_shape _ _ _ _ F i) as (-> & _). Qed.

Lemma holding_deliver s0 i old p s :
  holding s0 i old p s ->
  moves [i] (map (named i s0 FStale) old ++ [named i s0 FData p]) s0
    (on_batch (push_data (port (port_at s i)) p) s).
Proof.
  intros [F Hb Hl Hst]. apply (moves_log_one _ _ s0 s); [done|intros; by apply flow_same|..].
  - intros _. apply Forall_app. split; [apply Forall_map, Forall_true; done|by repeat constructor].
  - simpl. rewrite Hb. unfold tally, push_data. rewrite !with_fate_app, !with_fate_named. simpl.
    rewrite !app_nil_r. destruct (fl_shape _ _ _ _ F i) as (-> & _). done.
  - simpl. unfold met. rewrite with_fate_app, with_fate_named, Hl. simpl. by rewrite Z.add_0_r.
  - simpl. unfold met. rewrite with_fate_app, with_fate_named, Hst. simpl. by rewrite app_nil_r, length_map.
Qed.

Lemma holding_next s0 i old p s p' s' :
  wf s0 -> holding s0 i old p s -> flow [i] [named i s FData p'] s s' ->
  batch s' = batch s -> late_dropped_ (binding s') = late_dropped_ (binding s) ->
  stale_dropped_ (binding s') = stale_dropped_ (binding s) ->
  holding s0 i (old ++ [p]) p' (on_binding Bind.add_stale s').
Proof.
  intros Hwf [F Hb Hl Hst] F' Hb' Hl' Hst'. rewrite (named_flow _ _ _ _ _ _ _ F) in F'.
  split; [|simpl; congruence|simpl; congruence|simpl].
  - eapply flow_then; [|intros; by apply flow_on_binding].
    pose proof (flow_join _ _ _ _ _ _ F F') as FF. rewrite map_app, <- !app_assoc in *. simpl.
    destruct FF as [? ? ? ? ? ? Hs ? ? He]. split; try done.
    + intros j. rewrite (Hs j), !at_port_app. rewrite <- !app_assoc. f_equal.
      unfold at_port. simpl. by repeat case_bool_decide.
    + apply Forall_app in He as [? He]. apply Forall_app. split; [done|].
      apply Forall_cons in He as [? [? _]%Forall_cons]. constructor; [done|]. by constructor.
  - rewrite Hst', length_app, u64_idem. simpl. unfold Word.u64 in *.
    rewrite <- Zplus_mod_idemp_l, Hst, Zplus_mod_idemp_l. f_equal. lia.
Qed.

Lemma newest_wp fuel i s0 old p : forall s,
  wf s0 -> holding s0 i old p s -> List.length (stream s i) < fuel ->
  wp (newest fuel i (Some p)) s (fun r s' => exists old' p', r = Some p' /\ holding s0 i old' p' s').
Proof.
  revert old p. induction fuel as [|k IH]; intros old p s Hwf Hh Hf; [lia|].
  pose proof (fl_wf _ _ _ _ (hd_flow _ _ _ _ _ Hh)) as Hwf'. simpl. apply wp_get.
  destruct (is_data (head_at s i)) eqn:Hd; simpl; [|by exists old, p].
  destruct (head_at s i) as [p'|] eqn:Hp'; [|done].
  destruct (live_pop s i p' Hwf' (conj Hp' Hd)) as (e & q & Ha & Hq & Ht & Hfit).
  unfold wp, bindM, takeM. rewrite Ht. simpl.
  pose proof (flow_pop s i e p' q FData Hwf' Ha Hq Hfit) as F.
  apply (IH (old ++ [p]) p' (on_binding Bind.add_stale (pop_edge e s))); [done|by eapply holding_next|].
  pose proof (stream_shrinks _ _ _ _ i F) as Hs. unfold at_port in Hs. simpl in Hs.
  rewrite bool_decide_true in Hs by done. simpl in Hs. unfold lt in *. etrans; [|apply le_S_n, Hf].
  rewrite Hs. done.
Qed.

Lemma newest_start fuel i s p :
  wf s -> is_live s i p -> load s < fuel ->
  wp (newest fuel i None) s (fun r s' => exists old p', r = Some p' /\ holding s i old p' s').
Proof.
  intros Hwf [Hh Hd] Hf. destruct fuel as [|k]; [lia|]. simpl. apply wp_get. rewrite Hh, Hd. simpl.
  destruct (live_pop s i p Hwf (conj Hh Hd)) as (e & q & Ha & Hq & Ht & Hfit).
  unfold wp, bindM, takeM. rewrite Ht. simpl.
  pose proof (flow_pop s i e p q FData Hwf Ha Hq Hfit) as F.
  apply (newest_wp k i s [] p); [done| |].
  - split; [done|done|done|]. simpl. by rewrite Z.add_0_r.
  - pose proof (stream_load s i). pose proof (stream_shrinks _ _ _ _ i F) as Hs. unfold at_port in Hs. simpl in Hs.
    rewrite bool_decide_true in Hs by done. simpl in Hs. unfold id. lia.
Qed.

Lemma supply_wp fuel trigger l : forall s,
  wf s -> load s < fuel -> wp (supply fuel trigger l) s (fun _ s' => advances any_fate l s s').
Proof.
  induction l as [|i l IH]; intros s Hwf Hf; [by apply advances_refl|]. simpl.
  assert (Hrest : forall s1, advances any_fate [i] s s1 ->
    wp (supply fuel trigger l) s1 (fun _ s' => advances any_fate (i :: l) s s')).
  { intros s1 Ha. pose proof (advances_load _ _ _ _ Ha).
    eapply wp_mono; [apply IH; [by eapply advances_wf|lia]|]. intros ? s2 Ha2.
    exact (advances_cons _ _ _ _ _ _ Ha Ha2). }
  case_decide; [apply Hrest; by apply advances_refl|].
  apply wp_bind. eapply wp_mono; [by apply wp_skim|]. intros h s1 [Ha Hh].
  assert (Ha1 : advances any_fate [i] s s1) by (eapply advances_weaken; [done|done|exact Ha]).
  destruct h as [p|]; simpl; [|by apply Hrest].
  pose proof (advances_wf _ _ _ _ Ha). pose proof (advances_load _ _ _ _ Ha).
  apply wp_bind. eapply wp_mono; [apply (newest_start _ _ _ p); [done|done|lia]|].
  intros r s2 (old & p' & -> & Hho). unfold wp at 1, bindM, deliver, modifyM. apply Hrest.
  eapply advances_join; [exact Ha1|]. exists (map (named i s1 FStale) old ++ [named i s1 FData p']).
  split; [by apply holding_deliver|]. by apply Forall_true.
Qed.

Lemma AcquireLatest_wp fuel s :
  wf s -> load s < fuel -> packets (batch s) = [] -> wp (AcquireLatest fuel) s (ledger s).
Proof.
  intros Hwf Hf Hb. unfold AcquireLatest. apply wp_get, wp_bind.
  eapply wp_mono; [by apply find_trigger_wp|]. intros r s1 [Ha Hl].
  assert (Hb1 : packets (batch s1) = []) by (rewrite <- Hb; eapply advances_packets; [|done]; by intros ? []).
  destruct r as [i|]; [|by eapply finish_wp]. destruct Hl as [Hin [p Hp]].
  pose proof (advances_wf _ _ _ _ Ha). pose proof (advances_load _ _ _ _ Ha).
  eapply wp_serve; [done|done|]. intros s2 Hm. apply wp_bind.
  assert (Ha2 : advances any_fate (indices s) s1 s2).
  { exists [named i s1 FData p]. split; [|by repeat constructor]. eapply moves_weaken; [|done]. set_solver. }
  pose proof (advances_wf _ _ _ _ Ha2). pose proof (advances_load _ _ _ _ Ha2).
  eapply wp_mono; [apply supply_wp; [done|lia]|]. intros ? s3 Ha3. apply wp_get.
  unfold wp, retM, ledger. split; [|done].
  eapply advances_join; [by eapply advances_weaken|]. by eapply advances_join.
Qed.

(** ** aligned *)

Lemma load_late i p s s' : moves [i] [named i s FLate p] s s' -> load s' < load s.
Proof.
  intros Hm. apply (load_flow_lt _ _ _ _ i (mv_flow _ _ _ _ Hm)).
  unfold at_port. simpl. by rewrite bool_decide_true.
Qed.

Lemma moves_late i p s s' : moves [i] [named i s FLate p] s s' -> advances undelivered [i] s s'.
Proof. intros Hm. exists [named i s FLate p]. split; [done|]. by repeat constructor. Qed.

Lemma control_undelivered T s s' : advances control T s s' -> advances undelivered T s s'.
Proof. apply advances_weaken; [done|]. by intros ? []. Qed.

Lemma drop_leftovers_wp fuel i : forall rounds s,
  wf s -> load s < fuel -> load s < rounds ->
  wp (drop_leftovers fuel rounds i) s (fun _ s' => advances undelivered [i] s s').
Proof.
  induction rounds as [|k IH]; intros s Hwf Hf Hr; [lia|]. simpl. apply wp_get.
  destruct (has (edge (port_at s i))); [|by apply advances_refl].
  apply wp_bind. eapply wp_mono; [by apply wp_skim|]. intros h s1 [Ha%control_undelivered Hh].
  destruct h as [p|]; simpl; [|done]. pose proof (advances_load _ _ _ _ Ha).
  eapply wp_drop; [by eapply advances_wf|done|]. intros s2 Hm. pose proof (load_late _ _ _ _ Hm).
  apply moves_late in Hm. eapply wp_mono; [apply IH; [by eapply advances_wf|lia|lia]|].
  intros ? s3 Ha3. eapply advances_join; [done|]. by eapply advances_join.
Qed.

Lemma advances_eos T s names :
  wf s -> advances undelivered T s (on_binding (fun b => Bind.set_eos (names ∪ eos_ports_ b) b) s).
Proof.
  intros Hwf. exists []. split; [|constructor]. apply (moves_log_one _ _ s s).
  - apply (mv_flow _ _ _ _ (moves_refl T s Hwf)).
  - intros _. apply flow_on_binding; try done. simpl. set_solver.
  - constructor.
  - unfold tally. simpl. rewrite !app_nil_r. by destruct (batch s).
  - simpl. unfold met. simpl. by rewrite Z.add_0_r.
  - simpl. unfold met. simpl. by rewrite Z.add_0_r.
Qed.

Lemma end_all_wp fuel l : forall s,
  wf s -> load s < fuel -> wp (end_all fuel l) s (fun _ s' => advances undelivered l s s').
Proof.
  induction l as [|i l IH]; intros s Hwf Hf; [by apply advances_refl|]. simpl.
  apply wp_bind. eapply wp_mono; [by apply drop_leftovers_wp|]. intros ? s1 Ha. apply wp_bind.
  unfold wp at 1, modifyM. set (s2 := on_binding _ s1).
  assert (Ha2 : advances undelivered [i] s s2).
  { eapply advances_join; [exact Ha|]. apply advances_eos, (advances_wf _ _ _ _ Ha). }
  pose proof (advances_load _ _ _ _ Ha2).
  eapply wp_mono; [apply IH; [by eapply advances_wf|lia]|]. intros ? s3 Ha3.
  exact (advances_cons _ _ _ _ _ _ Ha2 Ha3).
Qed.

(** Shapes do not change. *)
Lemma advances_shape P T s s' i : advances P T s s' ->
  port (port_at s' i) = port (port_at s i) /\ required (port_at s' i) = required (port_at s i).
Proof. intros (l & Hm & _). destruct (fl_shape _ _ _ _ (mv_flow _ _ _ _ Hm) i) as (? & _ & ?). done. Qed.

Lemma advances_head P T s s' i : wf s -> advances P T s s' -> i ∉ T -> head_at s' i = head_at s i.
Proof. intros ? (l & Hm & _). apply (head_frame _ l); [done|apply (mv_flow _ _ _ _ Hm)]. Qed.

Definition pts (p : Packet) : Z := pts_ns (header p).

(** The earliest required head, over the ports seen so far. *)
Definition is_earliest s (l : list nat) (best : option (nat * Z)) : Prop :=
  (forall i p, i ∈ l -> required (port_at s i) = true -> head_at s i = Some p ->
     exists j t, best = Some (j, t) /\ (t <= pts p)%Z) /\
  match best with
  | Some (j, t) => j ∈ l /\ required (port_at s j) = true /\ exists p, is_live s j p /\ pts p = t
  | None => True
  end.

Lemma is_earliest_frame P s s' i l best :
  wf s -> advances P [i] s s' -> i ∉ l -> is_earliest s l best -> is_earliest s' l best.
Proof.
  intros Hwf Ha Hi [H1 H2]. split.
  - intros j p Hj. destruct (advances_shape _ _ _ _ j Ha) as [_ ->].
    rewrite (advances_head _ _ _ _ j Hwf Ha) by set_solver. by apply H1.
  - destruct best as [[j t]|]; [|done]. destruct H2 as (Hj & Hr & p & Hp & Ht).
    destruct (advances_shape _ _ _ _ j Ha) as [_ ->]. split; [done|]. split; [done|].
    exists p. split; [|done]. eapply advances_live; [done|done|set_solver|done].
Qed.

(** One more port joins. *)
Lemma is_earliest_skip s i l best :
  is_earliest s l best -> (required (port_at s i) = true -> head_at s i = None) ->
  is_earliest s (l ++ [i]) best.
Proof.
  intros [H1 H2] Hi. split.
  - intros j p [Hj| ->%list_elem_of_singleton]%elem_of_app Hr Hp; [by eapply H1|].
    rewrite Hi in Hp by done. done.
  - destruct best as [[j t]|]; [|done]. destruct H2 as (Hj & ?). split; [set_solver|done].
Qed.

Lemma is_earliest_join s i l best p :
  is_earliest s l best -> required (port_at s i) = true -> is_live s i p ->
  is_earliest s (l ++ [i])
    match best with
    | Some (_, t') => if (pts p <? t')%Z then Some (i, pts p) else best
    | None => Some (i, pts p)
    end.
Proof.
  intros [H1 H2] Hr Hl.
  assert (Hnew : forall t, t = pts p -> i ∈ l ++ [i] /\ required (port_at s i) = true /\
    exists p, is_live s i p /\ pts p = t) by (intros; split; [set_solver|]; split; [done|by exists p]).
  split.
  - intros j p' [Hj| ->%list_elem_of_singleton]%elem_of_app Hr' Hp'.
    + destruct (H1 j p' Hj Hr' Hp') as (k & t & -> & Ht). destruct (Z.ltb_spec (pts p) t).
      * exists i, (pts p). split; [done|lia].
      * exists k, t. split; [done|lia].
    + destruct Hl as [Hl _]. rewrite Hl in Hp'. injection Hp' as <-.
      destruct best as [[k t]|]; [destruct (Z.ltb_spec (pts p) t)|].
      * exists i, (pts p). split; [done|lia].
      * exists k, t. split; [done|lia].
      * exists i, (pts p). split; [done|lia].
  - destruct best as [[k t]|]; [destruct (pts p <? t)%Z|]; [by apply Hnew| |by apply Hnew].
    destruct H2 as (Hk & ?). split; [set_solver|done].
Qed.

Lemma earliest_wp fuel l : forall seen best s,
  wf s -> load s < fuel -> NoDup (seen ++ l) -> is_earliest s seen best ->
  wp (earliest fuel l best) s (fun r s' => advances control l s s' /\ is_earliest s' (seen ++ l) r).
Proof.
  induction l as [|i l IH]; intros seen best s Hwf Hf Hnd He.
  - simpl. rewrite app_nil_r. split; [by apply advances_refl|done].
  - assert (Hi : i ∉ seen) by (apply NoDup_app in Hnd as (_ & Hd & _); intros Hc; apply (Hd i Hc); left).
    assert (Hrest : forall s1 best1, advances control [i] s s1 -> is_earliest s1 (seen ++ [i]) best1 ->
      wp (earliest fuel l best1) s1 (fun r s' => advances control (i :: l) s s' /\ is_earliest s' (seen ++ i :: l) r)).
    { intros s1 best1 Ha He1. pose proof (advances_load _ _ _ _ Ha).
      replace (seen ++ i :: l) with ((seen ++ [i]) ++ l) in * by by rewrite <- app_assoc.
      eapply wp_mono; [apply IH; [by eapply advances_wf|lia|done|done]|]. intros r s2 [Ha2 Hr]. split; [|done].
      exact (advances_cons _ _ _ _ _ _ Ha Ha2). }
    simpl. apply wp_get. destruct (required (port_at s i)) eqn:Hreq.
    + apply wp_bind. eapply wp_mono; [by apply wp_skim|]. intros h s1 [Ha Hh].
      assert (He1 : is_earliest s1 seen best) by by eapply is_earliest_frame.
      destruct (advances_shape _ _ _ _ i Ha) as [_ Hreq1]. rewrite Hreq in Hreq1.
      destruct h as [p|]; [|apply Hrest; [done|by apply is_earliest_skip]].
      pose proof (is_earliest_join s1 i seen best p He1 Hreq1 Hh) as Hj. unfold pts in Hj.
      destruct best as [[k t]|]; by apply Hrest.
    + apply Hrest; [by apply advances_refl|]. apply is_earliest_skip; [done|]. congruence.
Qed.

Definition head_is s i (h : PacketRef) : Prop :=
  match h with Some p => is_live s i p | None => head_at s i = None end.

Lemma drop_late_wp fuel i low : forall rounds h s,
  wf s -> load s < fuel -> load s < rounds -> head_is s i h ->
  wp (drop_late fuel rounds i low h) s (fun r s' => advances undelivered [i] s s' /\ head_is s' i r /\
    match r with Some p => (low <= pts p)%Z | None => True end).
Proof.
  induction rounds as [|k IH]; intros h s Hwf Hf Hr Hh; [lia|]. simpl.
  destruct h as [p|]; [|split; [by apply advances_refl|done]].
  destruct (Z.ltb_spec (pts_ns (header p)) low); [|split; [by apply advances_refl|done]].
  eapply wp_drop; [done|done|]. intros s1 Hm. pose proof (load_late _ _ _ _ Hm). apply moves_late in Hm.
  apply wp_bind. eapply wp_mono; [apply wp_skim; [by eapply advances_wf|lia]|].
  intros h s2 [Ha%control_undelivered Hh2]. pose proof (advances_load _ _ _ _ Ha).
  eapply wp_mono; [apply (IH h s2); [by eapply advances_wf|lia|lia|by destruct h]|].
  intros r s3 [Ha3 ?]. split; [|done]. eapply advances_join; [done|]. by eapply advances_join.
Qed.

(** The verdict on the ports [l]: the matched ones have a head in the window;
    a required one that is not matched is waited for, ended, or ahead. *)
Record judged s (ref : nat) (target w : Z) (l : list nat) (v : verdict) : Prop := {
  jd_matched : forall i, i ∈ matched v -> i ∈ l /\ exists p, is_live s i p /\ (window_low target w <= pts p <= window_high target w)%Z;
  jd_required : forall i, i ∈ l -> i <> ref -> required (port_at s i) = true ->
    i ∈ matched v \/ wait v = true \/ port (port_at s i) ∈ eos_ports_ (binding s) \/
    (ref_is_late v = true /\ exists p, is_live s i p /\ (window_high target w < pts p)%Z);
}.

Lemma advances_ended P T s s' : advances P T s s' -> eos_ports_ (binding s) ⊆ eos_ports_ (binding s').
Proof. intros (l & Hm & _). apply (fl_eos _ _ _ _ (mv_flow _ _ _ _ Hm)). Qed.

Lemma judged_frame P T s s' ref target w l v :
  wf s -> advances P T s s' -> (forall i, i ∈ l -> i ∉ T) -> judged s ref target w l v -> judged s' ref target w l v.
Proof.
  intros Hwf Ha Hd [H1 H2]. split.
  - intros i Hi. destruct (H1 i Hi) as (Hl & p & ? & ?). split; [done|]. exists p.
    split; [|done]. eapply advances_live; eauto.
  - intros i Hi Hne. destruct (advances_shape _ _ _ _ i Ha) as [-> ->]. intros Hr.
    destruct (H2 i Hi Hne Hr) as [?|[?|[?|(? & p & ? & ?)]]]; [by left|right; by left|..].
    + do 2 right. left. by apply (advances_ended _ _ _ _ Ha).
    + do 3 right. split; [done|]. exists p. split; [|done]. eapply advances_live; eauto.
Qed.

(** The verdict after one more port, whose head is [h]. *)
Definition judge s (i : nat) (target w : Z) (h : PacketRef) (v : verdict) : verdict :=
  match h with
  | None =>
      MkVerdict (matched v)
        (wait v || (required (port_at s i) && negb (Bind.IsEos (port (port_at s i)) (binding s)))) (ref_is_late v)
  | Some p =>
      if (pts_ns (header p) <=? window_high target w)%Z then MkVerdict (matched v ++ [i]) (wait v) (ref_is_late v)
      else MkVerdict (matched v) (wait v) (ref_is_late v || required (port_at s i))
  end.

Lemma judge_mono s i target w h v :
  (forall j, j ∈ matched v -> j ∈ matched (judge s i target w h v)) /\
  (wait v = true -> wait (judge s i target w h v) = true) /\
  (ref_is_late v = true -> ref_is_late (judge s i target w h v) = true).
Proof.
  unfold judge. destruct h as [p|]; [case_match|]; simpl; repeat split; try done; try (intros ->; done).
  set_solver.
Qed.

Lemma judge_spec s i ref target w l h v :
  judged s ref target w l v -> head_is s i h ->
  match h with Some p => (window_low target w <= pts p)%Z | None => True end ->
  judged s ref target w (l ++ [i]) (judge s i target w h v).
Proof.
  intros [H1 H2] Hh Hlow. destruct (judge_mono s i target w h v) as (Hm & Hw & Hl). split.
  - intros j Hj.
    assert (j ∈ matched v \/ j = i /\ exists p, h = Some p /\ (pts p <= window_high target w)%Z) as [Hin|(-> & p & -> & Hp)].
    { unfold judge in Hj. destruct h as [p|]; simpl in Hj; [|by left].
      destruct (Z.leb_spec (pts_ns (header p)) (window_high target w)); simpl in Hj; [|by left].
      apply elem_of_app in Hj as [?| ->%list_elem_of_singleton]; [by left|]. right. split; [done|]. by exists p. }
    + destruct (H1 j Hin) as [? ?]. split; [set_solver|done].
    + split; [set_solver|]. exists p. split; [done|]. unfold pts in *. lia.
  - intros j [Hj| ->%list_elem_of_singleton]%elem_of_app Hne Hr.
    + destruct (H2 j Hj Hne Hr) as [?|[?|[?|(? & ?)]]]; [left; by apply Hm|right; left; by apply Hw|..].
      * do 2 right. by left.
      * do 3 right. split; [by apply Hl|done].
    + unfold judge. destruct h as [p|]; simpl in *.
      * destruct (Z.leb_spec (pts_ns (header p)) (window_high target w)); simpl; [left; set_solver|].
        do 3 right. rewrite Hr, orb_true_r. split; [done|]. by exists p.
      * unfold Bind.IsEos. rewrite Hr. case_bool_decide; [do 2 right; by left|].
        right. left. by rewrite orb_true_r.
Qed.

Lemma advances_window P T s s' : advances P T s s' -> aligned_ (binding s') = aligned_ (binding s).
Proof. intros (l & Hm & _). apply (fl_config _ _ _ _ (mv_flow _ _ _ _ Hm)). Qed.

(** *** Settled ports *)

(** The port's head has been skimmed: another [SkimHead] changes nothing. *)
Definition settled s i : Prop := (skim_round i s).1 <> Again.

Lemma settled_skim fuel i s : wf s -> 0 < fuel -> settled s i -> SkimHead fuel i s = Some (head_at s i, s).
Proof.
  intros Hwf Hf Hs. destruct fuel as [|k]; [lia|]. unfold settled in Hs. simpl. pose proof (skim_round_spec s i Hwf) as Hr.
  destruct (skim_round i s) as [[p| |] s']; [..|done]; destruct Hr as [-> Hh]; [by destruct Hh as [-> _]|by rewrite Hh].
Qed.

Lemma skim_settles fuel i : forall s, wp (SkimHead fuel i) s (fun _ s' => settled s' i) \/ SkimHead fuel i s = None.
Proof.
  induction fuel as [|k IH]; intros s; [by right|]. unfold wp. simpl. destruct (skim_round i s) as [[p| |] s'] eqn:Er.
  - left. unfold settled. assert (s' = s) as -> by (revert Er; unfold skim_round; repeat case_match; congruence). by rewrite Er.
  - left. unfold settled. assert (s' = s) as -> by (revert Er; unfold skim_round; repeat case_match; congruence). by rewrite Er.
  - apply IH.
Qed.

(** Only the name of port [i] may be added to the ended ones. *)
Definition ends_only i s s' : Prop :=
  (forall j, port (port_at s' j) = port (port_at s j)) /\ eos_ports_ (binding s') ⊆ {[port (port_at s i)]} ∪ eos_ports_ (binding s).

Lemma ends_only_refl i s : ends_only i s s.
Proof. split; [done|set_solver]. Qed.
Lemma ends_only_trans i s1 s2 s3 : ends_only i s1 s2 -> ends_only i s2 s3 -> ends_only i s1 s3.
Proof. intros [A1 A2] [B1 B2]. split; [intros j; by rewrite B1|]. rewrite A1 in B2. set_solver. Qed.
Lemma ends_only_binding i s s' : binding s' = binding s -> ends_only i s s'.
Proof. intros Hb. split; [intros j; unfold port_at; by rewrite Hb|rewrite Hb; set_solver]. Qed.
Lemma ends_only_mark i s : ends_only i s (on_binding (fun x => Bind.set_eos ({[port (port_at s i)]} ∪ eos_ports_ x) x) s).
Proof. by split. Qed.
Lemma ends_only_count i f s : ports_ (f (binding s)) = ports_ (binding s) -> eos_ports_ (f (binding s)) = eos_ports_ (binding s) -> ends_only i s (on_binding f s).
Proof. intros E1 E2. split; [intros j; unfold port_at; simpl; by rewrite E1|simpl; rewrite E2; set_solver]. Qed.
Lemma ends_only_erase i k e s : ends_only i s (erase_predecessor k e s).
Proof.
  split; [|simpl; set_solver]. intros j. unfold port_at, erase_predecessor. simpl. destruct (decide (k = j)) as [->|Hne]; [|by rewrite list_lookup_insert_ne].
  destruct (decide (j < List.length (ports_ (binding s)))) as [Hl|Hl]; [by rewrite list_lookup_insert_eq|].
  rewrite list_insert_ge; [done|lia].
Qed.

Lemma take_binding i s : binding (Take i s).2 = binding s.
Proof. unfold Take. by destruct (Active _ _). Qed.

Lemma skim_round_ends i s : ends_only i s (skim_round i s).2.
Proof.
  unfold skim_round. destruct (Active _ _) as [e|]; [|apply ends_only_refl]. destruct (e_peek _) as [p|].
  2:{ destruct (_ && _); [apply ends_only_erase|apply ends_only_refl]. }
  destruct (PacketOps.is_eos p).
  { destruct (negb _); (eapply ends_only_trans; [apply (ends_only_binding i s (pop_edge e s)); reflexivity|]); [|apply ends_only_mark].
    eapply ends_only_trans; [|apply ends_only_erase]. by apply ends_only_binding. }
  destruct (PacketOps.is_event p).
  { pose proof (take_binding i s) as Hb. destruct (Take i s) as [[ev|] s']; by apply ends_only_binding. }
  destruct (_ && _); [|apply ends_only_refl]. eapply ends_only_trans; [by apply (ends_only_binding i s (pop_edge e s))|].
  by apply ends_only_count.
Qed.

Lemma SkimHead_ends fuel i : forall s r s', SkimHead fuel i s = Some (r, s') -> ends_only i s s'.
Proof.
  induction fuel as [|k IH]; intros s r s'; [done|]. simpl. pose proof (skim_round_ends i s) as Hr. destruct (skim_round i s) as [[p| |] s1].
  - by intros [= _ <-].
  - by intros [= _ <-].
  - intros Hk. eapply ends_only_trans; [exact Hr|by eapply IH].
Qed.

Lemma drop_late_ends fuel i low : forall rounds h s r s', drop_late fuel rounds i low h s = Some (r, s') -> ends_only i s s'.
Proof.
  induction rounds as [|k IH]; intros h s r s'; [done|]. simpl. destruct h as [p|]; [|intros [= _ <-]; apply ends_only_refl].
  destruct (_ <? _)%Z; [|intros [= _ <-]; apply ends_only_refl]. unfold bindM at 1, takeM. pose proof (take_binding i s) as Hb.
  destruct (Take i s) as [taken s1]. destruct (has taken); [|intros [= _ <-]; by apply ends_only_binding].
  unfold bindM, modifyM. destruct (SkimHead fuel i _) as [[h s2]|] eqn:Es; [|done]. intros Hk.
  eapply ends_only_trans; [by apply (ends_only_binding i s s1)|]. eapply ends_only_trans; [by apply (ends_only_count i Bind.add_late)|].
  eapply ends_only_trans; [by eapply SkimHead_ends|by eapply IH].
Qed.

(** Port names occur once: no port is fed by several edges. *)
Definition names_once s : Prop :=
  forall i j, i ∈ indices s -> j ∈ indices s -> port (port_at s i) = port (port_at s j) -> i = j.

Lemma settled_frame P s s' i j :
  wf s -> advances P [j] s s' -> ends_only j s s' -> port (port_at s i) <> port (port_at s j) -> settled s i -> settled s' i.
Proof.
  intros Hwf Ha [_ He] Hn. assert (Hij : i ∉ [j]) by (intros ->%list_elem_of_singleton; done).
  pose proof (advances_ended _ _ _ _ Ha) as Hsub. destruct Ha as (log & Hm & _). pose proof (mv_flow _ _ _ _ Hm) as F.
  destruct (fl_frame _ _ _ _ F i Hij) as [Hp Hed].
  assert (Hact : Active (edges s') (port_at s' i) = Active (edges s) (port_at s i)).
  { unfold Active. rewrite Hp, (first_live_frame (edges s)); [done|]. intros e He'. apply Hed. unfold feeding. set_solver. }
  assert (Heos : Bind.IsEos (port (port_at s i)) (binding s') = Bind.IsEos (port (port_at s i)) (binding s)).
  { unfold Bind.IsEos. apply bool_decide_ext. set_solver. }
  unfold settled, skim_round. rewrite Hact, Hp, Heos. destruct (Active (edges s) (port_at s i)) as [e|] eqn:Ea; [|done].
  rewrite Hed by (destruct (Active_split s i e Hwf Ea) as (l1 & l2 & -> & _); set_solver).
  destruct (e_peek (edges s e)); [|by destruct (_ && _)]. destruct (PacketOps.is_eos _); [by destruct (negb _)|].
  destruct (PacketOps.is_event _); [by destruct (Take i s) as [[]]|]. by destruct (_ && _).
Qed.

Definition others (ref : nat) (l : list nat) : list nat := filter (fun i => i <> ref) l.

Lemma classify_wp fuel ref target w l : forall seen v s,
  wf s -> load s < fuel -> NoDup (seen ++ l) -> window_ns (aligned_ (binding s)) = w ->
  judged s ref target w seen v ->
  wp (classify fuel ref target l v) s (fun v' s' =>
    advances undelivered (others ref l) s s' /\ judged s' ref target w (seen ++ l) v').
Proof.
  induction l as [|i l IH]; intros seen v s Hwf Hf Hnd Hw Hj.
  - rewrite app_nil_r. split; [by apply advances_refl|done].
  - assert (Hi : i ∉ seen) by (apply NoDup_app in Hnd as (_ & Hd & _); intros Hc; apply (Hd i Hc); left).
    replace (seen ++ i :: l) with ((seen ++ [i]) ++ l) in * by by rewrite <- app_assoc.
    unfold others. simpl. case_decide as Hir.
    + rewrite filter_cons_False by (intros Hc; by apply Hc). apply IH; try done.
      destruct Hj as [H1 H2]. split.
      * intros j Hj. destruct (H1 j Hj). split; [set_solver|done].
      * intros j [Hj| ->%list_elem_of_singleton]%elem_of_app Hne; [by apply H2|done].
    + rewrite filter_cons_True by done. apply wp_get, wp_bind.
      eapply wp_mono; [by apply wp_skim|]. intros h s1 [Ha1%control_undelivered Hh].
      pose proof (advances_load _ _ _ _ Ha1). apply wp_bind.
      eapply wp_mono; [apply drop_late_wp; [by eapply advances_wf|lia|lia|by destruct h]|].
      intros h' s2 (Ha2 & Hh' & Hlow). pose proof (advances_join _ _ _ _ _ Ha1 Ha2) as Ha.
      pose proof (advances_load _ _ _ _ Ha). rewrite Hw in *. apply wp_get.
      change (match h' with None => _ | Some p => _ end) with (judge s2 i target w h' v).
      eapply wp_mono; [apply IH; [by eapply advances_wf|lia|done|by rewrite (advances_window _ _ _ _ Ha)|]|].
      * apply judge_spec; [|done|done]. eapply judged_frame; [done|exact Ha| |done]. intros j ? ?. set_solver.
      * intros v' s3 [Ha3 Hj3]. split; [|done]. exact (advances_cons _ _ _ _ _ _ Ha Ha3).
Qed.

(** *** The earliest required head stays the earliest *)

(** Every required port among [l] is settled. *)
Definition settled_all s (l : list nat) : Prop := forall i, i ∈ l -> required (port_at s i) = true -> settled s i.

Lemma settled_all_frame P s s' j l :
  wf s -> advances P [j] s s' -> ends_only j s s' -> names_once s -> j ∈ indices s -> l ⊆ indices s -> j ∉ l -> settled_all s l -> settled_all s' l.
Proof.
  intros Hwf Ha He Hn Hj Hl Hjl Hs i Hi. destruct (advances_shape _ _ _ _ i Ha) as [_ ->]. intros Hr.
  eapply settled_frame; [done|exact Ha|done| |by apply Hs]. intros Hc. apply Hjl. by rewrite <- (Hn i j (Hl i Hi) Hj Hc).
Qed.

Lemma names_once_advances P T s s' : advances P T s s' -> names_once s -> names_once s'.
Proof.
  intros Ha Hn i j. rewrite (advances_indices _ _ _ _ Ha). destruct (advances_shape _ _ _ _ i Ha) as [-> _], (advances_shape _ _ _ _ j Ha) as [-> _]. apply Hn.
Qed.

Lemma earliest_settles fuel l : forall seen best s,
  wf s -> load s < fuel -> NoDup (seen ++ l) -> (seen ++ l) ⊆ indices s -> names_once s -> settled_all s seen ->
  wp (earliest fuel l best) s (fun _ s' => settled_all s' (seen ++ l)).
Proof.
  induction l as [|i l IH]; intros seen best s Hwf Hf Hnd Hsub Hn Hs; [simpl; by rewrite app_nil_r|].
  assert (Hi : i ∉ seen) by (apply NoDup_app in Hnd as (_ & Hd & _); intros Hc; apply (Hd i Hc); left).
  assert (Hix : i ∈ indices s) by (apply Hsub; set_solver). assert (Hss : seen ⊆ indices s) by set_solver.
  replace (seen ++ i :: l) with ((seen ++ [i]) ++ l) in * by by rewrite <- app_assoc. simpl. apply wp_get.
  destruct (required (port_at s i)) eqn:Hreq.
  - apply wp_bind. pose proof (wp_skim fuel i s Hwf Hf) as Hw. destruct (skim_settles fuel i s) as [Hset|Hnone]; [|unfold wp in Hw; by rewrite Hnone in Hw].
    unfold wp in *. destruct (SkimHead fuel i s) as [[h s1]|] eqn:Es; [|done]. destruct Hw as [Ha _]. pose proof (advances_load _ _ _ _ Ha).
    assert (Hnext : settled_all s1 (seen ++ [i])).
    { pose proof (settled_all_frame _ _ _ i seen Hwf Ha (SkimHead_ends _ _ _ _ _ Es) Hn Hix Hss Hi Hs) as Hold.
      intros j [Hj|Hj%list_elem_of_singleton]%elem_of_app Hr; [by apply Hold|by subst j]. }
    assert (Hgo : forall best1, wp (earliest fuel l best1) s1 (fun _ s' => settled_all s' ((seen ++ [i]) ++ l))).
    { intros best1. apply IH; [by eapply advances_wf|lia|done|by rewrite (advances_indices _ _ _ _ Ha)|by eapply names_once_advances|done]. }
    destruct h as [p|]; [destruct best as [[k t]|]|]; apply Hgo.
  - apply IH; try done. intros j [Hj|Hj%list_elem_of_singleton]%elem_of_app Hr; [by apply Hs|congruence].
Qed.

(** Every required port is settled, at a packet that is not before the target. *)
Definition poised s (target : Z) : Prop :=
  settled_all s (indices s) /\ forall i p, i ∈ indices s -> required (port_at s i) = true -> head_at s i = Some p -> (target <= pts p)%Z.

Lemma poised_frame P s s' j target :
  wf s -> advances P [j] s s' -> ends_only j s s' -> names_once s -> j ∈ indices s -> required (port_at s j) = false -> poised s target -> poised s' target.
Proof.
  intros Hwf Ha He Hn Hj Hreq [H1 H2]. pose proof (advances_indices _ _ _ _ Ha) as Hix. split; rewrite Hix.
  - intros i Hi. destruct (advances_shape _ _ _ _ i Ha) as [_ ->]. intros Hr. eapply settled_frame; [done|exact Ha|done| |by apply H1].
    intros Hc. apply (Hn i j Hi Hj) in Hc. congruence.
  - intros i p Hi. destruct (advances_shape _ _ _ _ i Ha) as [_ ->]. intros Hr.
    rewrite (advances_head _ _ _ _ i Hwf Ha); [by apply H2|]. intros ->%list_elem_of_singleton. congruence.
Qed.

Lemma drop_late_early fuel i low rounds h s :
  0 < rounds -> match h with Some p => (low <= pts p)%Z | None => True end -> drop_late fuel rounds i low h s = Some (h, s).
Proof.
  intros Hr Hh. destruct rounds as [|k]; [lia|]. simpl. destruct h as [p|]; [|done].
  destruct (Z.ltb_spec (pts_ns (header p)) low); [unfold pts in Hh; lia|done].
Qed.

Lemma classify_poised fuel ref target w l : forall v s,
  wf s -> load s < fuel -> l ⊆ indices s -> window_ns (aligned_ (binding s)) = w -> names_once s -> (window_low target w <= target)%Z -> poised s target ->
  wp (classify fuel ref target l v) s (fun _ s' => poised s' target).
Proof.
  induction l as [|i l IH]; intros v s Hwf Hf Hsub Hw Hn Hlow Hp; [done|]. simpl. case_decide as Hir; [apply IH; set_solver|].
  assert (Hix : i ∈ indices s) by (apply Hsub; left). apply wp_get, wp_bind. rewrite Hw. destruct (required (port_at s i)) eqn:Hreq.
  - unfold wp. rewrite settled_skim by (lia || done || by apply (proj1 Hp)). unfold bindM at 1.
    rewrite drop_late_early; [|lia|destruct (head_at s i) as [p|] eqn:Eh; [|done]; pose proof (proj2 Hp i p Hix Hreq Eh); lia].
    unfold bindM, getM. apply IH; set_solver.
  - pose proof (wp_skim fuel i s Hwf Hf) as Hsk. unfold wp at 1 in Hsk; unfold wp at 1. destruct (SkimHead fuel i s) as [[h s1]|] eqn:Es; [|done].
    destruct Hsk as [Ha1%control_undelivered Hh]. pose proof (advances_load _ _ _ _ Ha1). apply SkimHead_ends in Es. apply wp_bind.
    pose proof (drop_late_wp fuel i (window_low target w) fuel h s1) as Hd. unfold wp at 1 in Hd; unfold wp at 1.
    destruct (drop_late fuel fuel i (window_low target w) h s1) as [[h' s2]|] eqn:Ed.
    2:{ apply Hd; [by eapply advances_wf|lia|lia|by destruct h]. }
    destruct Hd as [Ha2 _]; [by eapply advances_wf|lia|lia|by destruct h|]. apply drop_late_ends in Ed.
    pose proof (advances_join _ _ _ _ _ Ha1 Ha2) as Ha. pose proof (advances_load _ _ _ _ Ha). apply wp_get.
    apply IH; [by eapply advances_wf|lia|rewrite (advances_indices _ _ _ _ Ha); set_solver|by rewrite (advances_window _ _ _ _ Ha)|
      by eapply names_once_advances|done|]. eapply poised_frame; [done|exact Ha|by eapply ends_only_trans|done..].
Qed.

Lemma wp_both {A} (m : M A) s (P Q : A -> acq -> Prop) : wp m s P -> wp m s Q -> wp m s (fun a s' => P a s' /\ Q a s').
Proof. unfold wp. by destruct (m s) as [[a s']|]. Qed.

(** *** Serving the batch *)

Definition served (ref : nat) (m l : list nat) : list nat := filter (fun i => i = ref \/ i ∈ m) l.

Lemma serve_wp ref m (heads : nat -> Packet) l : forall s,
  wf s -> NoDup l -> (forall i, i ∈ l -> i = ref \/ i ∈ m -> is_live s i (heads i)) ->
  wp (serve ref m l) s (fun _ s' =>
    moves (served ref m l) (map (fun i => named i s FData (heads i)) (served ref m l)) s s').
Proof.
  induction l as [|i l IH]; intros s Hwf Hnd Hl; [by apply moves_refl|].
  apply NoDup_cons in Hnd as [Hi Hnd]. simpl. unfold served. case_decide as Hd.
  - rewrite filter_cons_True by done. eapply wp_serve; [done|apply Hl; [left|done]|]. intros s1 Hm.
    pose proof (mv_flow _ _ _ _ Hm) as F. pose proof (fl_wf _ _ _ _ F).
    eapply wp_mono; [apply IH; [done|done|]|].
    + intros j Hj Hs. eapply live_frame; [exact Hwf|exact F|set_solver|]. apply Hl; [by right|done].
    + intros ? s2 Hm2. simpl.
      rewrite (map_ext (fun i => named i s FData (heads i)) (fun i => named i s1 FData (heads i)))
        by (intros; symmetry; by eapply named_flow).
      change (?a :: ?b) with ([a] ++ b).
      eapply moves_join; [eapply moves_weaken; [|exact Hm]|eapply moves_weaken; [|exact Hm2]]; unfold served; set_solver.
  - rewrite filter_cons_False by done. eapply wp_mono; [apply IH; [done|done|]|].
    + intros j Hj. apply Hl. by right.
    + done.
Qed.

Lemma pick_reference_wp fuel fixed s :
  wf s -> load s < fuel -> (forall r, fixed = Some r -> r ∈ indices s) ->
  wp (pick_reference fuel fixed) s (fun r s' => advances undelivered (indices s) s s' /\
    match r with
    | Some (ref, t) => ref ∈ indices s /\ (exists p, is_live s' ref p /\ pts p = t) /\ (forall r, fixed = Some r -> ref = r) /\
        (fixed = None -> required (port_at s' ref) = true /\ (names_once s -> poised s' t))
    | None => True
    end).
Proof.
  intros Hwf Hf Hfix. unfold pick_reference. apply wp_get. destruct fixed as [r|].
  - specialize (Hfix r eq_refl). apply wp_bind. eapply wp_mono; [by apply wp_skim|].
    intros h s1 [Ha%control_undelivered Hh].
    assert (Ha1 : advances undelivered (indices s) s s1) by (eapply advances_touch; [|exact Ha]; set_solver).
    destruct h as [p|].
    + split; [done|]. split; [done|]. split; [by exists p|]. split; [by intros r' [= <-]|done].
    + apply wp_get, wp_bind. destruct (Bind.IsEos _ _); [|done].
      pose proof (advances_load _ _ _ _ Ha1).
      eapply wp_mono; [apply end_all_wp; [by eapply advances_wf|lia]|]. intros ? s2 Ha2. split; [|done].
      rewrite (advances_indices _ _ _ _ Ha1) in Ha2. by eapply advances_join.
  - assert (He : wp (earliest fuel (indices s) None) s (fun r s' => advances control (indices s) s s' /\ is_earliest s' (indices s) r)).
    { apply (earliest_wp fuel (indices s) [] None s); try done; [apply NoDup_indices|]. split; [|done]. set_solver. }
    assert (Hse : wp (earliest fuel (indices s) None) s (fun _ s' => names_once s -> settled_all s' (indices s))).
    { unfold wp in *. destruct (earliest _ _ _ _) as [[r s1]|] eqn:Ee; [|done]. intros Hn.
      pose proof (earliest_settles fuel (indices s) [] None s Hwf Hf (NoDup_indices s) ltac:(done) Hn ltac:(intros i []%not_elem_of_nil)) as Hw.
      unfold wp in Hw. by rewrite Ee in Hw. }
    eapply wp_mono; [exact (wp_both _ _ _ _ He Hse)|]. intros r s1 [[Ha%control_undelivered [H1 H2]] Hs]. split; [done|].
    destruct r as [[ref t]|]; [|done]. destruct H2 as (Hin & Hreq & Hp). split; [done|]. split; [done|]. split; [done|]. intros _. split; [done|].
    intros Hn. split; rewrite (advances_indices _ _ _ _ Ha); [by apply Hs|]. intros i p Hi Hr Hh.
    destruct (H1 i p Hi Hr Hh) as (j & t' & [= <- <-] & Ht). done.
Qed.

(** A batch of data under [aligned]: the ports [l] contribute [f], in declaration
    order. The reference is the configured port or, without one, a required
    port; as long as no port name occurs twice and the lower bound did not wrap,
    it is the one whose packet is earliest among the required contributions.
    Every other contribution lies in the window around the packet of the
    reference, and a required port that contributes nothing has ended or, with
    a fixed reference, is ahead of the window. *)
Record synced_at (w : Z) (fixed : option nat) (b : InputBatch) s (ref : nat) (l : list nat) (f : nat -> Packet) : Prop := {
  sy_order : l `sublist_of` indices s;
  sy_ports : ports b = map (fun i => port (port_at s i)) l;
  sy_packets : packets b = map f l;
  sy_reference : ref ∈ l;
  sy_fixed : forall r, fixed = Some r -> ref = r;
  sy_required_ref : fixed = None -> required (port_at s ref) = true;
  sy_earliest : fixed = None -> names_once s -> (window_low (pts (f ref)) w <= pts (f ref))%Z ->
    forall i, i ∈ l -> required (port_at s i) = true -> (pts (f ref) <= pts (f i))%Z;
  sy_window : forall i, i ∈ l -> i <> ref ->
    (window_low (pts (f ref)) w <= pts (f i) <= window_high (pts (f ref)) w)%Z;
  sy_required : forall i, i ∈ indices s -> required (port_at s i) = true ->
    i ∈ l \/ port (port_at s i) ∈ eos_ports_ (binding s) \/
    (fixed <> None /\ exists p, is_live s i p /\ (window_high (pts (f ref)) w < pts p)%Z);
}.
Definition synced (w : Z) (fixed : option nat) (b : InputBatch) s : Prop := exists ref l f, synced_at w fixed b s ref l f.

(** What the choice of the reference promises. *)
Record chosen (w : Z) (fixed : option nat) (ref : nat) (target : Z) s : Prop := {
  ch_fixed : forall r, fixed = Some r -> ref = r;
  ch_required : fixed = None -> required (port_at s ref) = true;
  ch_poised : fixed = None -> names_once s -> (window_low target w <= target)%Z -> poised s target;
}.

Lemma with_fate_data (f : nat -> Packet) s l :
  with_fate FData (map (fun i => named i s FData (f i)) l) = map (fun i => named i s FData (f i)) l.
Proof. unfold with_fate. induction l; simpl; by f_equal. Qed.

Lemma served_ref ref m l : ref ∈ l -> ref ∈ served ref m l.
Proof. intros. apply list_elem_of_filter. split; [by left|done]. Qed.

(** What serving the reference and the matched ports leaves. *)
Lemma served_synced w fixed ref target v (heads : nat -> Packet) s1 s2 :
  wf s1 -> ref ∈ indices s1 -> chosen w fixed ref target s1 -> is_live s1 ref (heads ref) -> pts (heads ref) = target ->
  (forall i, i ∈ matched v -> is_live s1 i (heads i)) ->
  judged s1 ref target w (indices s1) v -> wait v = false -> (ref_is_late v = true -> fixed <> None) ->
  ports (batch s1) = [] -> packets (batch s1) = [] ->
  moves (served ref (matched v) (indices s1))
    (map (fun i => named i s1 FData (heads i)) (served ref (matched v) (indices s1))) s1 s2 ->
  synced_at w fixed (batch s2) s2 ref (served ref (matched v) (indices s1)) heads.
Proof.
  intros Hwf Href [Hc1 Hc2 Hc3] Hlr <- Hlm [J1 J2] Hwait Hlate Hpo Hpa Hm. set (l := served _ _ _) in *.
  pose proof (mv_flow _ _ _ _ Hm) as F.
  assert (Hshape : forall i, port (port_at s2 i) = port (port_at s1 i) /\ required (port_at s2 i) = required (port_at s1 i))
    by (intros i; by destruct (fl_shape _ _ _ _ F i) as (? & _ & ?)).
  assert (Hlive : forall i, i ∈ l -> is_live s1 i (heads i)) by (intros i [[->|Hi] _]%list_elem_of_filter; [done|by apply Hlm]).
  split.
  - rewrite (indices_flow _ _ _ _ F). apply sublist_filter.
  - rewrite (mv_batch _ _ _ _ Hm). unfold tally. simpl. rewrite Hpo, with_fate_data, map_map. simpl.
    apply map_ext. intros i. by destruct (Hshape i) as [-> _].
  - rewrite (mv_batch _ _ _ _ Hm). unfold tally. simpl. by rewrite Hpa, with_fate_data, map_map.
  - by apply served_ref.
  - done.
  - destruct (Hshape ref) as [_ ->]. done.
  - intros Hf Hn Hlow i Hi. destruct (Hshape i) as [_ ->]. intros Hr. assert (Hn1 : names_once s1).
    { intros j k Hj Hk Hjk. apply Hn; [by rewrite (indices_flow _ _ _ _ F)..|]. destruct (Hshape j) as [-> _], (Hshape k) as [-> _]. done. }
    apply (proj2 (Hc3 Hf Hn1 Hlow) i); [|done|by apply Hlive]. by apply list_elem_of_filter in Hi as [_ ?].
  - intros i Hi Hne. apply list_elem_of_filter in Hi as [[->|Hi] _]; [done|].
    destruct (J1 i Hi) as (_ & p & [Hp _] & Hr). destruct (Hlm i Hi) as [Hp' _]. congruence.
  - intros i Hi. rewrite (indices_flow _ _ _ _ F) in Hi. destruct (Hshape i) as [Hn ->]. rewrite Hn. intros Hreq.
    destruct (decide (i ∈ l)) as [|Hni]; [by left|]. assert (Hne : i <> ref) by (intros ->; apply Hni; by apply served_ref).
    destruct (J2 i Hi Hne Hreq) as [Hma|[?|[He|(Hl & p & Hp & Hgt)]]].
    + exfalso. apply Hni. apply list_elem_of_filter. split; [by right|done].
    + congruence.
    + right. left. by apply (fl_eos _ _ _ _ F).
    + do 2 right. split; [by apply Hlate|]. exists p. split; [|done]. by eapply live_frame.
Qed.

Lemma advances_ports P T s s' :
  (forall f, P f -> f <> FData) -> advances P T s s' -> ports (batch s') = ports (batch s).
Proof.
  intros HP (log & Hm & Hl). rewrite (mv_batch _ _ _ _ Hm). unfold tally, with_fate. simpl.
  replace (List.filter _ log) with (@nil entry); [by rewrite app_nil_r|].
  clear Hm. induction Hl as [|a l Ha _ IH]; simpl; [done|]. rewrite bool_decide_false by by apply HP. done.
Qed.

Definition aligned_result (w : Z) (fixed : option nat) s (r : option InputBatch) s' : Prop :=
  ledger s r s' /\ (forall b, r = Some b -> packets b <> [] -> synced w fixed b s').

Lemma finish_aligned P w fixed s0 s :
  advances P (indices s0) s0 s -> packets (batch s) = [] -> wp finish s (aligned_result w fixed s0).
Proof.
  intros Ha Hp. pose proof (finish_wp P s0 s Ha Hp) as Hw.
  unfold wp, finish, getM, retM, bindM in *. split; [done|]. case_decide; [done|]. by intros b [= <-].
Qed.

(** Where the loop of [AcquireAligned] stands: nothing is delivered yet. *)
Record aligning (w : Z) s0 s : Prop := {
  al_advances : advances undelivered (indices s0) s0 s;
  al_window : window_ns (aligned_ (binding s)) = w;
  al_ports : ports (batch s) = [];
  al_packets : packets (batch s) = [];
}.

Lemma aligning_next w s0 s s' T :
  T ⊆ indices s0 -> aligning w s0 s -> advances undelivered T s s' -> aligning w s0 s'.
Proof.
  intros HT [Ha Hw Hpo Hpa] Ha'. split.
  - eapply advances_join; [done|]. by eapply advances_touch.
  - by rewrite (advances_window _ _ _ _ Ha').
  - by rewrite (advances_ports undelivered _ _ _ ltac:(done) Ha').
  - by rewrite (advances_packets undelivered _ _ _ ltac:(done) Ha').
Qed.

(** The last step of a round: the batch is served. *)
Lemma serve_aligned w fixed ref target v s0 s :
  aligning w s0 s -> ref ∈ indices s0 -> chosen w fixed ref target s -> (exists p, is_live s ref p /\ pts p = target) ->
  judged s ref target w (indices s0) v -> wait v = false -> (ref_is_late v = true -> fixed <> None) ->
  wp (serve ref (matched v) (indices s0)) s (fun _ s' => forall k,
    wp (bindM getM (fun s => if decide (packets (batch s) = []) then k else retM (Some (batch s)))) s'
      (aligned_result w fixed s0)).
Proof.
  intros Hal Href Hch (p & Hp & Ht) Hj Hwait Hlate. pose proof (al_advances _ _ _ Hal) as Ha.
  pose proof (advances_indices _ _ _ _ Ha) as Hix. pose proof (advances_wf _ _ _ _ Ha) as Hwf.
  set (heads i := default p (head_at s i)).
  assert (Hheads : forall i q, is_live s i q -> heads i = q) by (intros i q [Hq _]; unfold heads; by rewrite Hq).
  assert (Hlr : is_live s ref (heads ref)) by by rewrite (Hheads ref p).
  assert (Hlm : forall i, i ∈ matched v -> is_live s i (heads i)).
  { intros i Hi. destruct (jd_matched _ _ _ _ _ _ Hj i Hi) as (_ & q & Hq & _). by rewrite (Hheads i q). }
  eapply wp_mono; [apply (serve_wp ref (matched v) heads (indices s0) s Hwf)|].
  - apply NoDup_indices.
  - intros i _ [->|Hi]; [done|by apply Hlm].
  - intros ? s' Hm k. cbn beta in Hm. rewrite <- Hix in *.
    assert (Hsync : synced w fixed (batch s') s').
    { eexists ref, _, heads. eapply (served_synced w fixed ref target v heads s s'); try done; [by rewrite (Hheads ref p)|..];
        [apply (al_ports _ _ _ Hal)|apply (al_packets _ _ _ Hal)]. }
    apply wp_get. case_decide as Hb.
    { destruct Hsync as (r & l & f & Hs). pose proof (sy_reference _ _ _ _ _ _ _ Hs) as Hin. pose proof (sy_packets _ _ _ _ _ _ _ Hs) as Hpk.
      rewrite Hb in Hpk. destruct l; [by apply not_elem_of_nil in Hin|done]. }
    unfold wp, retM. split; [split; [|done]|by intros b [= <-]].
    rewrite <- Hix. eapply advances_join; [eapply advances_weaken; [|done|exact Ha]; done|].
    exists (map (fun i => named i s FData (heads i)) (served ref (matched v) (indices s))).
    split; [|by apply Forall_true]. eapply moves_weaken; [|exact Hm]. intros i [_ ?]%list_elem_of_filter. done.
Qed.

(** The verdict and the choice of the reference, together. *)
Lemma classify_chosen fuel ref target w fixed l s :
  wf s -> load s < fuel -> NoDup l -> l ⊆ indices s -> window_ns (aligned_ (binding s)) = w -> (forall r, fixed = Some r -> ref = r) ->
  (fixed = None -> required (port_at s ref) = true /\ (names_once s -> poised s target)) ->
  wp (classify fuel ref target l (MkVerdict [] false false)) s (fun v' s' =>
    advances undelivered (others ref l) s s' /\ judged s' ref target w l v' /\ chosen w fixed ref target s').
Proof.
  intros Hwf Hf Hnd Hsub Hw Hfix Hnone.
  assert (H1 : wp (classify fuel ref target l (MkVerdict [] false false)) s (fun v' s' => advances undelivered (others ref l) s s' /\ judged s' ref target w ([] ++ l) v')).
  { apply classify_wp; [done|lia|done|done|split; set_solver]. }
  assert (H2 : wp (classify fuel ref target l (MkVerdict [] false false)) s (fun _ s' =>
    fixed = None -> names_once s -> (window_low target w <= target)%Z -> poised s' target)).
  { unfold wp in *. destruct (classify _ _ _ _ _ _) as [[v s']|] eqn:Ec; [|done]. intros Hfn Hn Hlow. destruct (Hnone Hfn) as [_ Hp].
    pose proof (classify_poised fuel ref target w l (MkVerdict [] false false) s Hwf Hf Hsub Hw Hn Hlow (Hp Hn)) as Hc. unfold wp in Hc. by rewrite Ec in Hc. }
  eapply wp_mono; [exact (wp_both _ _ _ _ H1 H2)|]. intros v s' [[Ha Hj] Hpo]. split; [done|]. split; [done|]. split; [done| |].
  - intros Hfn. destruct (advances_shape _ _ _ _ ref Ha) as [_ ->]. by apply Hnone.
  - intros Hfn Hn. apply Hpo; [done|]. intros i j. rewrite <- (advances_indices _ _ _ _ Ha).
    destruct (advances_shape _ _ _ _ i Ha) as [<- _], (advances_shape _ _ _ _ j Ha) as [<- _]. apply Hn.
Qed.

Lemma align_wp fuel fixed w s0 :
  (forall r, fixed = Some r -> r ∈ indices s0) -> forall rounds s,
  aligning w s0 s -> load s < fuel -> load s < rounds ->
  wp (align fuel rounds fixed) s (aligned_result w fixed s0).
Proof.
  intros Hfix. induction rounds as [|k IH]; intros s Hal Hf Hr; [lia|].
  pose proof (al_advances _ _ _ Hal) as Ha. pose proof (advances_indices _ _ _ _ Ha) as Hix.
  cbn [align]. apply wp_get, wp_bind. rewrite Hix.
  eapply wp_mono; [apply pick_reference_wp; [by eapply advances_wf|done|by rewrite Hix]|].
  rewrite Hix. intros r s1 [Ha1 Hr1]. pose proof (aligning_next _ _ _ _ _ ltac:(done) Hal Ha1) as Hal1.
  pose proof (advances_wf _ _ _ _ Ha1) as Hwf1.
  pose proof (advances_load _ _ _ _ Ha1). destruct r as [[ref target]|];
    [|by eapply finish_aligned; [apply (al_advances _ _ _ Hal1)|apply (al_packets _ _ _ Hal1)]].
  destruct Hr1 as (Href & (p & Hp & Ht) & Hfx & Hea). apply wp_bind.
  eapply wp_mono; [apply (classify_chosen fuel ref target w fixed (indices s0)); [done|lia|apply NoDup_indices|
    by rewrite (advances_indices _ _ _ _ (al_advances _ _ _ Hal1))|apply (al_window _ _ _ Hal1)|done|]|].
  { intros Hfn. destruct (Hea Hfn) as [? Hpo]. split; [done|]. intros Hn. apply Hpo. intros i j. rewrite <- (advances_indices _ _ _ _ Ha1).
    destruct (advances_shape _ _ _ _ i Ha1) as [<- _], (advances_shape _ _ _ _ j Ha1) as [<- _]. apply Hn. }
  intros v s2 (Ha2 & Hj & Hch). assert (Hsub : others ref (indices s0) ⊆ indices s0) by (intros i [_ ?]%list_elem_of_filter; done).
  pose proof (aligning_next _ _ _ _ _ Hsub Hal1 Ha2) as Hal2. pose proof (advances_wf _ _ _ _ Ha2) as Hwf2.
  pose proof (advances_load _ _ _ _ Ha2).
  assert (Hp2 : is_live s2 ref p).
  { eapply advances_live; [exact Hwf1|exact Ha2| |done]. intros [Hc _]%list_elem_of_filter. by apply Hc. }
  assert (Hfin : wp finish s2 (aligned_result w fixed s0))
    by (eapply finish_aligned; [apply (al_advances _ _ _ Hal2)|apply (al_packets _ _ _ Hal2)]).
  destruct (ref_is_late v && negb (has fixed)) eqn:Hlate.
  - eapply wp_drop; [done|done|]. intros s3 Hm. pose proof (load_late _ _ _ _ Hm). apply moves_late in Hm.
    apply IH; [|lia|lia]. eapply aligning_next; [|done|exact Hm]. set_solver.
  - destruct (wait v) eqn:Hwait; [done|]. apply wp_bind.
    eapply wp_mono; [apply (serve_aligned w fixed ref target v s0 s2); try done; [by exists p|]|].
    + intros Hl. rewrite Hl in Hlate. by destruct fixed.
    + intros ? s3 Hk. apply Hk.
Qed.

Lemma fixed_reference_spec b r : fixed_reference b = Some r -> r < List.length (ports_ b).
Proof.
  unfold fixed_reference. destruct (reference_port (aligned_ b)) as [name|]; [|done].
  assert (Hgen : forall l acc, (forall i, i ∈ l -> i < List.length (ports_ b)) ->
    (forall i, acc = Some i -> i < List.length (ports_ b)) ->
    forall i, fold_left (fun acc i => match ports_ b !! i with
      | Some x => if decide (port x = name) then Some i else acc | None => acc end) l acc = Some i ->
    i < List.length (ports_ b)).
  { induction l as [|j l IH]; intros acc Hl Hacc i; simpl; [apply Hacc|].
    apply IH; [intros; apply Hl; by right|]. intros k. pose proof (Hl j ltac:(left)).
    destruct (ports_ b !! j); [|apply Hacc]. case_decide; [by intros [= <-]|apply Hacc]. }
  intros Hr. refine (Hgen _ None _ _ r Hr); [|done]. intros i [_ ?]%elem_of_seq. done.
Qed.

(** The state an acquisition starts from. *)
Definition start (b : InputBinding) (ed : edge_ref -> E) : acq := MkAcq b ed empty_batch.

Definition window (b : InputBinding) : Z := window_ns (aligned_ b).

Lemma acquire_wp fuel b ed :
  wf (start b ed) -> load (start b ed) < fuel ->
  wp (acquire fuel) (start b ed) (fun r s' => ledger (start b ed) r s' /\
    (policy_ b = kAligned -> forall x, r = Some x -> packets x <> [] -> synced (window b) (fixed_reference b) x s')).
Proof.
  intros Hwf Hf. unfold acquire. apply wp_get. simpl. destruct (policy_ b).
  - unfold AcquireAligned. apply wp_get. simpl.
    eapply wp_mono; [apply (align_wp fuel _ (window b) (start b ed)); [|split; try done; by apply advances_refl|done|done]|].
    + intros r Hr. apply elem_of_indices. by apply fixed_reference_spec.
    + intros r s' [? ?]. by split.
  - eapply wp_mono; [by apply AcquireLatest_wp|]. intros r s' ?. by split.
  - eapply wp_mono; [by apply AcquireAny_wp|]. intros r s' ?. by split.
Qed.

Lemma ledger_batch b ed r s' log :
  moves (indices (start b ed)) log (start b ed) s' -> returns r (batch s') -> default empty_batch r = tally log empty_batch.
Proof.
  intros Hm Hr. pose proof (mv_batch _ _ _ _ Hm) as Hb. simpl in Hb. rewrite <- Hb.
  destruct r as [x|]; simpl in *; [done|]. destruct Hr as [Hp He]. rewrite Hb in *. unfold tally in *. simpl in *.
  apply map_eq_nil in Hp, He. by rewrite Hp, He.
Qed.

End acquiring.

(** ** Well-formed bindings, from their list of edges *)

Lemma concat_lookup_elem {A B} (f : A -> list B) l i x y :
  l !! i = Some x -> y ∈ f x -> y ∈ List.concat (map f l).
Proof.
  revert i. induction l as [|z l IH]; intros [|i] Hi Hy; simpl in *; try done; apply elem_of_app.
  - simplify_eq. by left.
  - right. by eapply IH.
Qed.

Lemma NoDup_concat_lookup {A B} (f : A -> list B) l i x :
  NoDup (List.concat (map f l)) -> l !! i = Some x -> NoDup (f x).
Proof.
  revert i. induction l as [|z l IH]; intros [|i] Hnd Hi; simpl in *; try done;
    apply NoDup_app in Hnd as (? & ? & ?); [by simplify_eq|by eapply IH].
Qed.

Lemma NoDup_concat_apart {A B} (f : A -> list B) l i j x y z :
  NoDup (List.concat (map f l)) -> l !! i = Some x -> l !! j = Some y -> z ∈ f x -> z ∈ f y -> i = j.
Proof.
  revert i j. induction l as [|w l IH]; intros [|i] [|j] Hnd Hi Hj Hx Hy; simpl in *; try done;
    apply NoDup_app in Hnd as (_ & Hd & Hnd); simplify_eq.
  - exfalso. apply (Hd z Hx). by eapply concat_lookup_elem.
  - exfalso. apply (Hd z Hy). by eapply concat_lookup_elem.
  - f_equal. by eapply IH.
Qed.

Section start.
Context {E : Type} `{ConsumerEdgeLaws E}.
Implicit Types (ed : edge_ref -> E) (b : InputBinding).

Definition all_feeding (l : list InputPortBinding) : list edge_ref := List.concat (map feeding l).

Lemma port_at_some b ed i e :
  e ∈ feeding (port_at (start b ed) i) -> exists x, ports_ b !! i = Some x /\ e ∈ feeding x.
Proof.
  unfold port_at. simpl. destruct (ports_ b !! i) as [x|]; simpl; [by exists x|]. set_solver.
Qed.

Lemma wf_start b ed :
  NoDup (all_feeding (ports_ b)) -> (forall e, e ∈ all_feeding (ports_ b) -> e_ok (ed e)) -> wf (start b ed).
Proof.
  intros Hnd Hok. split.
  - intros i e He. destruct (port_at_some b ed i e He) as (x & Hx & Hin). apply Hok. by eapply concat_lookup_elem.
  - intros i. unfold port_at. simpl. destruct (ports_ b !! i) as [x|] eqn:Hx; [by eapply NoDup_concat_lookup|constructor].
  - intros i j e Hi Hj. destruct (port_at_some b ed i e Hi) as (x & Hx & ?).
    destruct (port_at_some b ed j e Hj) as (y & Hy & ?). by eapply NoDup_concat_apart.
Qed.

End start.

(** What a binding with its edges still has to hand on, port by port. *)
Definition pending {E} `{ConsumerEdgeLaws E} (b : InputBinding) (ed : edge_ref -> E) (i : nat) : list Packet :=
  stream (start b ed) i.

(** C2: An acquisition terminates and accounts for every packet, under each
    policy and for every implementation of the edge interface: there is a log
    in which each packet taken off a port has one fate, the log of a port is
    exactly the front of the port's stream (old edges before new ones, each in
    order), the returned batch holds exactly the packets with fates data and
    event in that order, the counters grew by the late and the stale ones, and
    nothing is abandoned while no packet follows an end-of-stream marker on a
    retired edge. *)
Theorem TryAcquire_accounts {E} `{ConsumerEdgeLaws E} fuel b (ed : edge_ref -> E) :
  wf (start b ed) -> load (start b ed) < fuel ->
  exists r b' ed' log, TryAcquire fuel b ed = Some (r, b', ed') /\
    (forall i, pending b ed i = at_port i log ++ pending b' ed' i) /\
    default empty_batch r = tally log empty_batch /\
    Forall (fun a => en_name a = port (port_at (start b ed) (en_port a)) /\ fits (en_packet a) (en_fate a)) log /\
    Word.u64 (late_dropped_ b') = Word.u64 (late_dropped_ b + met FLate log) /\
    Word.u64 (stale_dropped_ b') = Word.u64 (stale_dropped_ b + met FStale log) /\
    (markers_last (start b ed) -> Forall (fun a => en_fate a <> FAbandoned) log) /\
    wf (start b' ed').
Proof.
  intros Hwf Hf. pose proof (acquire_wp fuel b ed Hwf Hf) as Hacq. unfold wp in Hacq. unfold TryAcquire.
  change (MkAcq b ed empty_batch) with (start b ed). destruct (acquire fuel (start b ed)) as [[r s']|]; [|done].
  destruct Hacq as [[(log & Hm & _) Hr] _]. pose proof (mv_flow _ _ _ _ Hm) as F.
  exists r, (binding s'), (edges s'), log. split; [done|]. split; [apply (fl_stream _ _ _ _ F)|].
  split; [by eapply ledger_batch|]. split; [apply (fl_entries _ _ _ _ F)|].
  split; [apply (mv_late _ _ _ _ Hm)|]. split; [apply (mv_stale _ _ _ _ Hm)|].
  split; [apply (mv_abandoned _ _ _ _ Hm)|]. by apply (wf_same s'), (fl_wf _ _ _ _ F).
Qed.

(** C39: Aligned batches are aligned. In a batch with data acquired under the
    [aligned] policy the contributions come from distinct entries in declaration
    order, one packet each, and one of them is the reference's: the configured
    reference port or, when none is configured, a required port whose packet is
    the earliest of the required ones (as long as no port name occurs twice).
    Every other packet lies between the 64-bit bounds around the reference's
    timestamp, so within the window's distance of it when those bounds do not
    overflow, and every required port contributes, has ended or, only with a
    configured reference, is ahead of the window. The packet taken from a port
    is the first one in the window, not the one closest to the reference
    ([first_not_closest]). *)
Theorem AcquireAligned_synced {E} `{ConsumerEdgeLaws E} fuel b (ed : edge_ref -> E) x b' ed' :
  wf (start b ed) -> load (start b ed) < fuel -> policy_ b = kAligned ->
  TryAcquire fuel b ed = Some (Some x, b', ed') -> packets x <> [] ->
  exists ref l f, synced_at (window b) (fixed_reference b) x (start b' ed') ref l f /\
    ((0 <= window b)%Z -> Word.is_i64 (pts (f ref) - window b) -> Word.is_i64 (pts (f ref) + window b) ->
     Forall (fun p => (Z.abs (pts p - pts (f ref)) <= window b)%Z) (packets x)).
Proof.
  intros Hwf Hf Hp Hacq Hne. pose proof (acquire_wp fuel b ed Hwf Hf) as Hwp.
  unfold wp in Hwp. unfold TryAcquire in Hacq. change (MkAcq b ed empty_batch) with (start b ed) in Hacq.
  destruct (acquire fuel (start b ed)) as [[r s']|]; [|done]. injection Hacq as -> <- <-.
  destruct Hwp as [_ Hs]. destruct (Hs Hp x eq_refl Hne) as (ref & l & f & Hsy). exists ref, l, f. split; [by destruct Hsy|].
  intros Hw Hlo Hhi. rewrite (sy_packets _ _ _ _ _ _ _ Hsy). apply Forall_map, Forall_forall. intros i Hi.
  destruct (decide (i = ref)) as [->|Hir]; [simpl; lia|]. pose proof (sy_window _ _ _ _ _ _ _ Hsy i Hi Hir) as Hwin.
  unfold window_low, window_high in Hwin. rewrite !Word.i64_small in Hwin by done. simpl. lia.
Qed.

(** ** A run on EdgeChannel *)

Definition stamped (sq ts fl : Z) : Packet := MkPacket (MkPacketHeader sq ts 0 fl 1 1 1) None None 0.
Definition filled_edge (ps : list Packet) : EdgeChannel :=
  (calls edge_call (map (fun p => OPush (Some p)) ps)
     (Edge.make 1 "e" default_contract (MkEdgeConfig 8 kBlock kAligned) (MkPortRef "a" "out") (MkPortRef "b" "in"))).2.

Lemma filled_edge_ok ps :
  f_queue (calls fifo_call (map (fun p => OPush (Some p)) ps) (fifo_make (MkEdgeConfig 8 kBlock kAligned))).2 = map Some ps ->
  channel_ok (filled_edge ps).
Proof. intros Hq. eexists _, ps. split; [|exact Hq]. by apply calls_rep, make_rep. Qed.

(** Port video is being re-wired from edge 2 to edge 0; audio reads edge 1. *)
Definition sample_table : list InputPortBinding :=
  [MkInputPortBinding "video" (Some 0) true [2]; MkInputPortBinding "audio" (Some 1) true []].
Definition sample_binding (p : SyncPolicy) : InputBinding :=
  make_binding sample_table p (MkAlignedOptions 40 None).
Definition sample_store (e : edge_ref) : EdgeChannel :=
  match e with
  | 0 => filled_edge [stamped 2 100 0]
  | 1 => filled_edge [stamped 1 10 0; stamped 2 70 0]
  | _ => filled_edge [stamped 1 60 0; stamped 9 0 2]
  end.

Lemma sample_wf p : wf (start (sample_binding p) sample_store).
Proof.
  apply wf_start.
  - simpl. repeat constructor; set_solver.
  - intros e _. destruct e as [|[|e]]; apply filled_edge_ok; vm_compute; reflexivity.
Qed.

Lemma sample_load p : load (start (sample_binding p) sample_store) < 10.
Proof. apply Nat.ltb_lt. vm_compute. reflexivity. Qed.

Lemma TryAcquire_accounts_witness :
  exists r b' ed' log, TryAcquire 10 (sample_binding kAny) sample_store = Some (r, b', ed') /\
    (forall i, pending (sample_binding kAny) sample_store i = at_port i log ++ pending b' ed' i) /\
    default empty_batch r = tally log empty_batch.
Proof.
  destruct (TryAcquire_accounts 10 (sample_binding kAny) sample_store (sample_wf kAny) (sample_load kAny))
    as (r & b' & ed' & log & H1 & H2 & H3 & _).
  exact (ex_intro _ r (ex_intro _ b' (ex_intro _ ed' (ex_intro _ log (conj H1 (conj H2 H3)))))).
Defined.

Lemma sample_aligned :
  option_map (fun r => option_map (fun x => map pts (packets x)) r.1.1)
    (TryAcquire 10 (sample_binding kAligned) sample_store) = Some (Some [60; 70]%Z).
Proof. vm_compute. reflexivity. Qed.

(** The first port is the reference of the batch, being earliest, and the second
    lies 10 after it. *)
Lemma AcquireAligned_synced_witness :
  exists x b' ed' ref l f, TryAcquire 10 (sample_binding kAligned) sample_store = Some (Some x, b', ed') /\
    map pts (packets x) = [60; 70]%Z /\ synced_at 40 None x (start b' ed') ref l f /\
    (Word.is_i64 (pts (f ref) - 40) -> Word.is_i64 (pts (f ref) + 40) -> Forall (fun p => (Z.abs (pts p - pts (f ref)) <= 40)%Z) (packets x)).
Proof.
  pose proof sample_aligned as Hs.
  destruct (TryAcquire 10 (sample_binding kAligned) sample_store) as [[[[x|] b'] ed']|] eqn:Hacq; [|discriminate..].
  cbn [option_map fst] in Hs. injection Hs as Hs.
  destruct (AcquireAligned_synced 10 (sample_binding kAligned) sample_store x b' ed'
    (sample_wf kAligned) (sample_load kAligned)) as (ref & l & f & Hsy & Hwin); [reflexivity|exact Hacq| |].
  { intros Hn. rewrite Hn in Hs. discriminate. }
  exists x, b', ed', ref, l, f. split; [exact eq_refl|]. split; [exact Hs|]. split; [exact Hsy|]. apply Hwin. discriminate.
Defined.

(** Two ports with one edge each. *)
Definition pair_table : list InputPortBinding :=
  [MkInputPortBinding "video" (Some 0) true []; MkInputPortBinding "audio" (Some 1) true []].
Definition pair_acquire (reference : option string) (video audio : list Packet) : option (option (list Z) * Z) :=
  option_map (fun r => (option_map (fun x => map pts (packets x)) r.1.1, late_dropped_ r.1.2))
    (TryAcquire 10 (make_binding pair_table kAligned (MkAlignedOptions 40 reference))
       (fun e => filled_edge match e with 0 => video | _ => audio end)).

(** With a reference at 60 and a window of 40, the packet at 30 is taken though
    the one behind it, at 58, is closer. *)
Example first_not_closest :
  pair_acquire (Some "video"%string) [stamped 1 60 0] [stamped 1 30 0; stamped 2 58 0] = Some (Some [60; 30]%Z, 0%Z).
Proof. vm_compute. reflexivity. Qed.

(** A packet without a timestamp carries the least 64-bit integer. As a reference
    it puts the lower bound beyond the range: with the sum wrapping around, every
    packet of the other port is dropped as late and nothing is delivered. *)
Example unstamped_drops_all :
  pair_acquire None [stamped 1 (- 2 ^ 63) 0] [stamped 1 10 0; stamped 2 20 0] = Some (None, 2%Z).
Proof. vm_compute. reflexivity. Qed.
