(* ===== verification/InputRebind.v ===== *)
(** Readiness and re-wiring of an input binding: the cheap readiness check
    never misses a batch, and [Rebind] keeps every port's stream, the old
    edge's packets before the new edge's.  Closed runs on EdgeChannel. *)

From stdpp Require Import base numbers list strings gmap sets.
From Stdlib Require Import ZArith Lia Ascii String.
From S2P Require Import Prelude Types Double Json GraphSpec CapabilityTypes Packet EdgeChannel EdgeRefinement InputBinding InputFlow InputBindingProofs.

Local Open Scope nat_scope.
Local Open Scope list_scope.

Section rewire.
Context {E : Type} `{ConsumerEdgeLaws E}.
Implicit Types (ed : edge_ref -> E) (b : InputBinding).

(** ** Readiness *)

Definition idle (s : acq (E := E)) : Prop := forall i, head_at s i = None.

Lemma idle_round s i : wf s -> idle s -> skim_round i s = (NoHead, s).
Proof.
  intros Hwf Hid. specialize (Hid i). unfold skim_round, head_at in *.
  destruct (Active (edges s) (port_at s i)) as [e|] eqn:Ha; [|done]. rewrite Hid.
  case_bool_decide as Hpred; [done|]. case_bool_decide as Hret; [|done]. exfalso.
  eapply Active_predecessor; [exact Hwf|exact Ha|done| |done].
  destruct (Active_split s i e Hwf Ha) as (l1 & l2 & Hl & _ & _).
  rewrite e_peek_spec in Hid by (apply (wf_ok s Hwf i); rewrite Hl; set_solver).
  unfold queue_of. by destruct (e_queue (edges s e)).
Qed.

Lemma idle_skim k i s : wf s -> idle s -> SkimHead (S k) i s = Some (None, s).
Proof. intros. simpl. by rewrite idle_round. Qed.

Lemma idle_skim_all k l s : wf s -> idle s -> skim_all (S k) l s = Some (map (fun i => (i, false)) l, s).
Proof.
  intros Hwf Hid. induction l as [|i l IH]; [done|]. cbn [skim_all]. unfold bindM at 1.
  rewrite idle_skim by done. unfold bindM. by rewrite IH.
Qed.

Lemma choose_none (s : acq (E := E)) (pass : bool) l : choose s pass (map (fun i => (i, false)) l) = None.
Proof.
  unfold choose. induction l as [|i l IH]; [done|]. simpl. by rewrite andb_false_r.
Qed.

Lemma idle_trigger k l s : wf s -> idle s -> find_trigger (S k) l s = Some (None, s).
Proof.
  intros Hwf Hid. induction l as [|i l IH]; [done|]. cbn [find_trigger]. unfold bindM, getM.
  destruct (required (port_at s i)); [|done]. by rewrite idle_skim.
Qed.

Lemma idle_earliest k l s : wf s -> idle s -> earliest (S k) l None s = Some (None, s).
Proof.
  intros Hwf Hid. induction l as [|i l IH]; [done|]. cbn [earliest]. unfold bindM, getM.
  destruct (required (port_at s i)); [|done]. by rewrite idle_skim.
Qed.

Lemma idle_drop k i s : wf s -> idle s -> drop_leftovers (S k) (S k) i s = Some (tt, s).
Proof.
  intros Hwf Hid. cbn [drop_leftovers]. unfold bindM, getM.
  destruct (has (edge (port_at s i))); [|done]. by rewrite idle_skim.
Qed.

(** Nothing but the ended ports differs. *)
Definition same_but_ended (s s' : acq (E := E)) : Prop :=
  edges s' = edges s /\ batch s' = batch s /\ ports_ (binding s') = ports_ (binding s).

Lemma idle_end_all k l : forall s, wf s -> idle s ->
  exists s', end_all (S k) l s = Some (tt, s') /\ same_but_ended s s'.
Proof.
  induction l as [|i l IH]; intros s Hwf Hid; [by exists s|]. cbn [end_all]. unfold bindM at 1.
  rewrite idle_drop by done. unfold bindM, modifyM. set (s1 := on_binding _ s).
  destruct (IH s1) as (s' & Hs & He & Hb & Hp); [by apply (wf_same s)|exact Hid|].
  exists s'. split; [exact Hs|]. by repeat split.
Qed.

Lemma idle_align k fixed s :
  wf s -> idle s -> events (batch s) = [] ->
  exists s', align (S k) (S k) fixed s = Some (None, s') /\ same_but_ended s s'.
Proof.
  intros Hwf Hid Hev.
  assert (Hfin : forall s', same_but_ended s s' -> finish s' = Some (None, s')).
  { intros s' (_ & Hb & _). unfold finish, bindM, getM, retM. by rewrite Hb, Hev, decide_True. }
  assert (Hpick : exists s', pick_reference (S k) fixed s = Some (None, s') /\ same_but_ended s s').
  { unfold pick_reference, bindM, getM. destruct fixed as [r|].
    - rewrite idle_skim by done. destruct (Bind.IsEos _ _); [|by exists s].
      destruct (idle_end_all k (indices s) s Hwf Hid) as (s' & Hs & ?). rewrite Hs. by exists s'.
    - rewrite idle_earliest by done. by exists s. }
  destruct Hpick as (s' & Hp & Hsame). exists s'. split; [|done]. cbn [align]. unfold bindM, getM.
  rewrite Hp. by apply Hfin.
Qed.

Lemma not_ready_idle b ed : wf (start b ed) -> MayBeReady ed b = false -> idle (start b ed).
Proof.
  intros Hwf Hr i. unfold head_at. destruct (Active _ _) as [e|] eqn:Ha; [|done].
  destruct (Active_split (start b ed) i e Hwf Ha) as (l1 & l2 & Hl & _ & _).
  assert (He : e ∈ feeding (port_at (start b ed) i)) by (rewrite Hl; set_solver).
  pose proof (wf_ok _ Hwf i e He) as Hok. rewrite e_peek_spec by done. simpl in *.
  destruct (port_at_some b ed i e He) as (x & Hx & _).
  assert (Hport : port_at (start b ed) i = x) by (unfold port_at; simpl; by rewrite Hx). rewrite Hport in Ha.
  unfold MayBeReady in Hr. destruct (e_queue (ed e)) as [|p q] eqn:Hq; [done|]. exfalso.
  assert (Ht : existsb (fun x => match Active ed x with Some e => negb (e_empty (ed e)) | None => false end) (ports_ b) = true);
    [|congruence].
  apply existsb_exists. exists x. split; [by eapply list_elem_of_In, list_elem_of_lookup_2|].
  rewrite Ha, e_empty_spec, Hq by done. done.
Qed.

End rewire.

(** The readiness check never misses a batch: when [MayBeReady] is false,
    [TryAcquire] returns nothing, under each policy, and leaves the edges and
    the port table untouched. *)
Theorem not_ready_no_batch {E} `{ConsumerEdgeLaws E} fuel b (ed : edge_ref -> E) :
  wf (start b ed) -> 0 < fuel -> MayBeReady ed b = false ->
  exists b', TryAcquire fuel b ed = Some (None, b', ed) /\ ports_ b' = ports_ b.
Proof.
  intros Hwf Hf Hr. pose proof (not_ready_idle b ed Hwf Hr) as Hid. destruct fuel as [|k]; [lia|].
  unfold TryAcquire, acquire. change (MkAcq b ed empty_batch) with (start b ed). unfold bindM at 1, getM.
  simpl (policy_ _). destruct (policy_ b).
  - unfold AcquireAligned. unfold bindM, getM.
    destruct (idle_align k (fixed_reference (binding (start b ed))) (start b ed) Hwf Hid eq_refl)
      as (s' & Hs & He & _ & Hp). rewrite Hs, He. by exists (binding s').
  - unfold AcquireLatest, bindM, getM. rewrite idle_trigger by done. by exists b.
  - unfold AcquireAny, bindM, getM. rewrite idle_skim_all by done. rewrite !choose_none. by exists b.
Qed.

(** ** Re-wiring *)

Section rebinding.
Context {E : Type} `{ConsumerEdgeLaws E}.
Implicit Types (ed : edge_ref -> E) (b : InputBinding) (o n : InputPortBinding).

Definition queues ed (l : list edge_ref) : list Packet := List.concat (map (fun e => e_queue (ed e)) l).

Definition old_port (old : list InputPortBinding) n : option InputPortBinding :=
  snd <$> list_find (fun o => port o = port n) old.

Definition old_ports (old : list InputPortBinding) n : list InputPortBinding :=
  List.filter (fun o => bool_decide (port o = port n)) old.

(** What a port of the new table has to hand on: what the entries of that name
    had, then what a newly attached edge holds. *)
Definition carried (old : list InputPortBinding) ed n : list Packet :=
  queues ed (all_feeding (old_ports old n)) ++
  (if decide (edge n ∈ map edge (old_ports old n)) then [] else queues ed (option_list (edge n))).

(** The same, of the first entry. *)
Definition carried_first (old : list InputPortBinding) ed n : list Packet :=
  match old_port old n with
  | Some o => queues ed (feeding o) ++ (if decide (edge o = edge n) then [] else queues ed (option_list (edge n)))
  | None => queues ed (option_list (edge n))
  end.

Lemma old_port_head old n : old_port old n = head (old_ports old n).
Proof.
  unfold old_port, old_ports. induction old as [|o old IH]; [done|]. simpl. case_decide as Hd; [by rewrite bool_decide_true|].
  rewrite bool_decide_false by done. rewrite <- IH. by destruct (list_find _ old) as [[]|].
Qed.

Lemma carried_once old ed n : List.length (old_ports old n) <= 1 -> carried old ed n = carried_first old ed n.
Proof.
  intros Hl. unfold carried, carried_first. rewrite old_port_head. destruct (old_ports old n) as [|o [|o2 l]]; simpl in *; [done| |lia].
  unfold all_feeding. simpl. rewrite app_nil_r. f_equal. destruct (decide (edge o = edge n)) as [<-|Hne]; [by rewrite decide_True by left|].
  rewrite decide_False; [done|]. rewrite list_elem_of_singleton. congruence.
Qed.

(** A binding of the new table against the one it was made from. *)
Record rewired (old : list InputPortBinding) ed n n' : Prop := {
  rw_port : port n' = port n;
  rw_edge : edge n' = edge n;
  rw_required : required n' = required n;
  rw_stream : queues ed (feeding n') = carried_first old ed n;
  rw_feeding : forall e, e ∈ feeding n' ->
    edge n = Some e \/ exists o, old_port old n = Some o /\ e ∈ feeding o;
}.

Lemma queues_app ed l1 l2 : queues ed (l1 ++ l2) = queues ed l1 ++ queues ed l2.
Proof. unfold queues. by rewrite map_app, concat_app. Qed.

Lemma feeding_eq o : feeding o = predecessors o ++ option_list (edge o).
Proof. unfold feeding, option_list. by destruct (edge o). Qed.

(** Retiring without clearing keeps what is queued. *)
Definition same_queues ed ed' : Prop :=
  forall e, e_ok (ed e) -> e_ok (ed' e) /\ e_queue (ed' e) = e_queue (ed e).

Lemma same_queues_refl ed : same_queues ed ed.
Proof. done. Qed.

Lemma same_queues_retire ed0 ed e :
  same_queues ed0 ed -> same_queues ed0 (retire_edge false e ed).
Proof.
  intros Hs e' He'. destruct (Hs e' He') as [Hok Hq]. unfold retire_edge. case_decide; [subst|done].
  split; [by apply e_retire_ok|]. by rewrite e_retire_queue.
Qed.

(** The old table while the new ports of the names [seen] have been treated. *)
Record midway (old : list InputPortBinding) ed (seen : list string) (r : rebind (E := E)) : Prop := {
  mw_edges : same_queues ed (rb_edges r);
  mw_old : forall n, port n ∉ seen -> old_port (rb_old r) n = old_port old n;
  mw_sub : Forall2 (fun o' o => port o' = port o /\ edge o' = edge o /\
    (predecessors o' = predecessors o \/ predecessors o' = [])) (rb_old r) old;
}.

Lemma old_port_insert l j o n name :
  list_find (fun x => port x = name) l = Some (j, o) -> port n <> name ->
  old_port (<[j := set_predecessors [] o]> l) n = old_port l n.
Proof.
  unfold old_port. revert j. induction l as [|x l IH]; intros j Hf Hn; simpl in *; [done|].
  destruct (decide (port x = name)) as [Hx|Hx].
  - injection Hf as <- <-. simpl. rewrite !decide_False by congruence. by destruct (list_find _ l).
  - destruct (list_find (fun x => port x = name) l) as [[k y]|] eqn:Hk; [|done]. injection Hf as <- <-. simpl.
    case_decide; [done|]. specialize (IH k eq_refl Hn).
    destruct (list_find (fun x => port x = port n) (<[k := set_predecessors [] y]> l)) as [[? ?]|],
      (list_find (fun x => port x = port n) l) as [[? ?]|]; simpl in *; congruence.
Qed.

Lemma elem_of_edge n e : e ∈ option_list (edge n) <-> edge n = Some e.
Proof. destruct (edge n) as [x|]; simpl; [rewrite list_elem_of_singleton|]; split; set_solver. Qed.

Lemma queues_same ed ed' l :
  same_queues ed ed' -> (forall e, e ∈ l -> e_ok (ed e)) -> queues ed' l = queues ed l.
Proof.
  intros Hs Hl. unfold queues. f_equal. apply map_ext_in. intros e He%list_elem_of_In. by apply Hs, Hl.
Qed.

(** The new binding: the old predecessors, then [mid], then the new edge. *)
Lemma rewired_intro old ed n o mid :
  old_port old n = Some o -> (forall e, e ∈ mid -> edge o = Some e) ->
  (edge o = edge n -> mid = []) -> (edge o <> edge n -> queues ed mid = queues ed (option_list (edge o))) ->
  rewired old ed n (set_predecessors (predecessors o ++ mid) n).
Proof.
  intros Ho Hmid Hsame Hdiff. split; try done.
  - unfold carried_first. rewrite Ho, !feeding_eq. simpl. rewrite !queues_app. case_decide as Hd.
    + rewrite (Hsame Hd), Hd. simpl. by rewrite !app_nil_r.
    + by rewrite (Hdiff Hd).
  - intros e. rewrite feeding_eq. simpl. rewrite !elem_of_app, elem_of_edge. intros [[He|He]|He]; [right|right|by left].
    + exists o. split; [done|]. rewrite feeding_eq. set_solver.
    + exists o. split; [done|]. rewrite feeding_eq, elem_of_app, elem_of_edge. right. by apply Hmid.
Qed.

Lemma midway_next old ed seen r n j o eos' ed' :
  midway old ed seen r -> list_find (fun x => port x = port n) (rb_old r) = Some (j, o) ->
  same_queues ed ed' ->
  midway old ed (port n :: seen) (MkRebind (<[j := set_predecessors [] o]> (rb_old r)) eos' ed').
Proof.
  intros [Hq Ho Hs] Hf Hq'. split; simpl; [done|..].
  - intros m Hm. rewrite (old_port_insert _ _ _ _ (port n)); [apply Ho|done|]; set_solver.
  - apply list_find_Some in Hf as (Hj & _). destruct (Forall2_lookup_l _ _ _ _ _ Hs Hj) as (o2 & Hj2 & H1 & H2 & H3).
    rewrite <- (list_insert_id old j o2) by done. apply Forall2_insert; [done|]. by repeat split; try right.
Qed.

(** Any new port, whatever its name, leaves the old table midway. *)
Lemma rebind_port_midway old ed seen r n :
  midway old ed seen r -> midway old ed (port n :: seen) (rebind_port n r).2 /\ port (rebind_port n r).1 = port n.
Proof.
  intros Hmw. pose proof Hmw as [Hq Ho Hs]. unfold rebind_port. destruct (list_find (fun o => port o = port n) (rb_old r)) as [[j o]|] eqn:Hf.
  - case_decide; [|destruct (edge o) as [e|]]; (split; [|done]); (eapply midway_next; [done|done|]); simpl; try done.
    destruct (_ && _); [by apply same_queues_retire|done].
  - split; [|done]. split; [done| |done]. intros m Hm. apply Ho. set_solver.
Qed.

Lemma rebind_ports_midway old ed l : forall seen r, midway old ed seen r ->
  let '(l', r') := rebind_ports l r in
  map port l' = map port l /\ exists seen', midway old ed seen' r' /\ (forall x, x ∈ seen' -> x ∈ seen \/ x ∈ map port l).
Proof.
  induction l as [|n l IH]; intros seen r Hm; cbn [rebind_ports]; [split; [done|]; exists seen; split; [done|by left]|].
  pose proof (rebind_port_midway old ed seen r n Hm) as H1. destruct (rebind_port n r) as [n' r1]. destruct H1 as [Hm1 Hp]. simpl in Hm1, Hp.
  specialize (IH _ _ Hm1). destruct (rebind_ports l r1) as [l' r2]. destruct IH as (Hl & seen' & Hm2 & Hin). simpl in *.
  split; [by rewrite Hp, Hl|]. exists seen'. split; [done|]. intros x Hx. rewrite elem_of_cons. destruct (Hin x Hx) as [Hi|Hi]; [apply elem_of_cons in Hi|]; tauto.
Qed.

Lemma rebind_ports_at l1 n l2 : forall r : rebind (E := E),
  let r1 := (rebind_ports l1 r).2 in
  let r2 := rebind_port n r1 in
  (rebind_ports (l1 ++ n :: l2) r).1 !! List.length l1 = Some r2.1 /\ (rebind_ports (l1 ++ n :: l2) r).2 = (rebind_ports l2 r2.2).2.
Proof.
  induction l1 as [|m l1 IH]; intros r; cbn [rebind_ports app].
  - simpl. destruct (rebind_port n r) as [n' r']. simpl. by destruct (rebind_ports l2 r').
  - destruct (rebind_port m r) as [m' r'] eqn:Em. specialize (IH r'). destruct (rebind_ports l1 r') as [l' r1] eqn:E1.
    destruct (rebind_ports (l1 ++ n :: l2) r') as [l'' r'']. done.
Qed.

Lemma rebind_port_spec old ed seen r n :
  midway old ed seen r -> port n ∉ seen -> predecessors n = [] ->
  (forall o, o ∈ old -> forall e, e ∈ feeding o -> e_ok (ed e)) ->
  let '(n', r') := rebind_port n r in
  rewired old ed n n' /\ midway old ed (port n :: seen) r'.
Proof.
  intros Hmw Hn Hp Hok. pose proof Hmw as [Hq Ho Hs]. pose proof (Ho n Hn) as Hold. unfold rebind_port.
  unfold old_port at 1 in Hold.
  destruct (list_find (fun o => port o = port n) (rb_old r)) as [[j o]|] eqn:Hf; simpl in *.
  - symmetry in Hold.
    assert (Hin : o ∈ old).
    { unfold old_port in Hold. apply fmap_Some in Hold as ([? o'] & Hf' & ->).
      apply list_find_Some in Hf' as (? & _). by eapply list_elem_of_lookup_2. }
    case_decide as Hsame; [|destruct (edge o) as [e|] eqn:He].
    + split; [|by eapply midway_next]. rewrite <- (app_nil_r (predecessors o)).
      by apply rewired_intro; [| set_solver | |].
    + assert (He' : e_ok (ed e)) by (apply (Hok o Hin); rewrite feeding_eq, elem_of_app, elem_of_edge; by right).
      destruct (Hq e He') as [Hoke Hqe]. rewrite e_empty_spec by done. split.
      * apply rewired_intro; [done|destruct (_ && _); set_solver|congruence|]. intros _. rewrite He. simpl.
        destruct (bool_decide (port n ∈ rb_eos r)); simpl; [|done]. case_bool_decide as Hem; simpl; [|done].
        unfold queues. simpl. rewrite <- Hqe, Hem. done.
      * eapply midway_next; [done|done|]. destruct (_ && _); [by apply same_queues_retire|done].
    + split; [|by eapply midway_next]. rewrite <- (app_nil_r (predecessors o)).
      apply rewired_intro; [done|set_solver|done|]. by rewrite He.
  - split; [split; try done|].
    + unfold carried_first. rewrite <- Hold. by rewrite feeding_eq, Hp.
    + intros e. rewrite feeding_eq, Hp. simpl. rewrite elem_of_edge. by left.
    + split; [done| |done]. intros m Hm. apply Ho. set_solver.
Qed.

Lemma retire_all_frame l : forall ed e, e ∉ l -> retire_all l ed e = ed e.
Proof.
  induction l as [|x l IH]; intros ed e He; simpl; [done|]. unfold retire_all in *. simpl.
  rewrite IH by set_solver. unfold retire_edge. rewrite decide_False; [done|]. set_solver.
Qed.

Lemma retire_ports_frame (os : list InputPortBinding) : forall ed e,
  (forall o, o ∈ os -> e ∉ feeding o) ->
  fold_left (fun ed o => retire_all (match edge o with Some e => [e] | None => [] end ++ predecessors o) ed) os ed e = ed e.
Proof.
  induction os as [|o os IH]; intros ed e Ho; simpl; [done|]. rewrite IH by (intros; apply Ho; by right).
  apply retire_all_frame. specialize (Ho o ltac:(left)). unfold feeding in Ho. set_solver.
Qed.

(** A port of the new table that had at most one entry before and has one now;
    the other ports are arbitrary. Its table entry is new, and its edge, if it
    is an old one, fed the port of that name: a channel is only kept for an
    edge with the same ends ([GraphDiff.edge_reasons]). *)
Record rebindable b ed (new : list InputPortBinding) n : Prop := {
  ra_edges : NoDup (all_feeding (ports_ b));
  ra_once : List.filter (fun m => bool_decide (port m = port n)) new = [n];
  ra_once_old : List.length (old_ports (ports_ b) n) <= 1;
  ra_fresh : predecessors n = [];
  ra_old_ok : forall o, o ∈ ports_ b -> forall e, e ∈ feeding o -> e_ok (ed e);
  ra_new_ok : forall e, edge n = Some e -> e_ok (ed e);
  ra_stays : forall e o, edge n = Some e -> o ∈ ports_ b -> e ∈ feeding o -> port o = port n;
}.

(** The edges of a port that stays are not those of a port that vanished. *)
Lemma vanished_apart b ed new new' r seen n n' e o' :
  rebindable b ed new n -> midway (ports_ b) ed seen r -> map port new' = map port new ->
  n ∈ new -> rewired (ports_ b) ed n n' -> e ∈ feeding n' ->
  o' ∈ rb_old r -> bound new' (port o') = false -> e ∉ feeding o'.
Proof.
  intros Hr Hm Hall Hn Hw He Ho' Hb Hc. apply list_elem_of_lookup in Ho' as [k Hk].
  destruct (Forall2_lookup_l _ _ _ _ _ (mw_sub _ _ _ _ Hm) Hk) as (o & Hko & Hpo & Heo & Hpreds).
  assert (Heino : e ∈ feeding o).
  { revert Hc. rewrite !feeding_eq, Heo, !elem_of_app. destruct Hpreds as [->| ->]; set_solver. }
  assert (Ho : o ∈ ports_ b) by by eapply list_elem_of_lookup_2.
  assert (Hname : port o = port n).
  { destruct (rw_feeding _ _ _ _ Hw e He) as [Hedge|(o2 & Ho2 & He2)]; [by eapply (ra_stays _ _ _ _ Hr)|].
    unfold old_port in Ho2. apply fmap_Some in Ho2 as ([k2 o2'] & Hf & Heq). simpl in Heq. subst o2'.
    apply list_find_Some in Hf as (Hk2 & Hp2 & _).
    assert (k = k2) by (eapply (NoDup_concat_apart feeding); [apply (ra_edges _ _ _ _ Hr)|exact Hko|exact Hk2|done|done]).
    congruence. }
  assert (bound new' (port o') = true); [|congruence].
  assert (Hin : port n ∈ map port new') by (rewrite Hall; by apply list_elem_of_fmap_2).
  apply list_elem_of_fmap in Hin as (m' & Hp & Hm'). apply existsb_exists. exists m'. split; [by apply list_elem_of_In|].
  apply bool_decide_eq_true. congruence.
Qed.

(** The port's name does not occur before it. *)
Lemma once_before (l1 l2 : list InputPortBinding) n :
  List.filter (fun m => bool_decide (port m = port n)) (l1 ++ n :: l2) = [n] -> port n ∉ map port l1.
Proof.
  rewrite List.filter_app. simpl. rewrite bool_decide_true by done. intros Hf Hin. apply list_elem_of_fmap in Hin as (m & Hp & Hm).
  assert (H1 : m ∈ List.filter (fun m => bool_decide (port m = port n)) l1) by (apply list_elem_of_In, filter_In; split; [by apply list_elem_of_In|by apply bool_decide_eq_true]).
  apply (f_equal (@List.length _)) in Hf. rewrite length_app in Hf. destruct (List.filter _ l1); [by apply not_elem_of_nil in H1|]. simpl in Hf. lia.
Qed.

(** The entry of the port after the loop of [Rebind]. *)
Lemma rebind_entry b ed new i n :
  rebindable b ed new n -> new !! i = Some n ->
  let '(new', r) := rebind_ports new (MkRebind (ports_ b) (eos_ports_ b) ed) in
  exists n' seen, new' !! i = Some n' /\ rewired (ports_ b) ed n n' /\ midway (ports_ b) ed seen r /\ map port new' = map port new.
Proof.
  intros Hr Hi. set (r0 := MkRebind _ _ _).
  assert (Hm0 : midway (ports_ b) ed [] r0).
  { split; [done|done|]. apply Forall_Forall2_diag, Forall_true. intros x. split; [done|]. split; [done|by left]. }
  pose proof (rebind_ports_midway (ports_ b) ed new [] r0 Hm0) as Hall. pose proof (take_drop_middle new i n Hi) as Hnew.
  set (l1 := take i new) in *. set (l2 := drop (S i) new) in *.
  assert (Hlen : List.length l1 = i) by (apply length_take_le; apply lookup_lt_Some in Hi; lia).
  pose proof (rebind_ports_at l1 n l2 r0) as Hat. rewrite Hnew, Hlen in Hat. destruct Hat as [Hat _].
  destruct (rebind_ports new r0) as [new' r]. destruct Hall as (Hp & seen & Hm & _). simpl in Hat.
  pose proof (rebind_ports_midway (ports_ b) ed l1 [] r0 Hm0) as H1. destruct (rebind_ports l1 r0) as [l1' r1]. destruct H1 as (_ & seen1 & Hm1 & Hs1). simpl in Hat.
  assert (Hn : port n ∉ seen1).
  { intros [Hx|Hx]%Hs1; [by apply not_elem_of_nil in Hx|]. pose proof (ra_once _ _ _ _ Hr) as Ho. rewrite <- Hnew in Ho. by apply once_before in Ho. }
  pose proof (rebind_port_spec (ports_ b) ed seen1 r1 n Hm1 Hn (ra_fresh _ _ _ _ Hr) (ra_old_ok _ _ _ _ Hr)) as Hsp.
  destruct (rebind_port n r1) as [n' r2]. destruct Hsp as [Hw _]. by exists n', seen.
Qed.

Lemma queues_ext ed ed' l : (forall e, e ∈ l -> ed' e = ed e) -> queues ed' l = queues ed l.
Proof.
  intros Hl. unfold queues. f_equal. apply map_ext_in. intros e He%list_elem_of_In. by rewrite Hl.
Qed.

End rebinding.

(** C11: Re-wiring loses and reorders nothing on a port with one edge: after
    [Rebind], what a port that is fed by one edge of the new table, and was fed
    by at most one of the old, will hand on is what it still had to hand on
    (its retired edges included, in order), followed by the contents of the
    newly attached edge; if it keeps its edge it keeps its stream. The other
    ports of both tables may come, go and have any number of edges. A port with
    several edges is outside the statement: there [Rebind] matches every new
    entry with the first old one ([Rebind_multi_mispairs]). *)
Theorem Rebind_streams {E} `{ConsumerEdgeLaws E} b (ed : edge_ref -> E) new p a i n :
  rebindable b ed new n -> new !! i = Some n ->
  pending (Rebind new p a b ed).1 (Rebind new p a b ed).2 i = carried (ports_ b) ed n.
Proof.
  intros Hr Hi. rewrite carried_once by apply Hr. unfold Rebind. pose proof (rebind_entry b ed new i n Hr Hi) as Hspec.
  destruct (rebind_ports new _) as [new' r]. destruct Hspec as (n' & seen & Hi' & Hw & Hm & Hnames).
  unfold pending, stream, port_at. simpl. rewrite Hi'. simpl. rewrite <- (rw_stream _ _ _ _ Hw).
  set (ed' := fold_left _ _ _). change (queues ed' (feeding n') = queues ed (feeding n')).
  assert (Hn : n ∈ new) by by eapply list_elem_of_lookup_2.
  rewrite (queues_ext (rb_edges r) ed').
  - apply queues_same; [apply (mw_edges _ _ _ _ Hm)|]. intros e He.
    destruct (rw_feeding _ _ _ _ Hw e He) as [Hedge|(o & Ho & Heo)]; [by apply (ra_new_ok _ _ _ _ Hr)|].
    unfold old_port in Ho. apply fmap_Some in Ho as ([k o'] & Hf & ->). apply list_find_Some in Hf as (Hk & _).
    eapply (ra_old_ok _ _ _ _ Hr); [by eapply list_elem_of_lookup_2|done].
  - intros e He. apply retire_ports_frame. intros o' Ho'. apply list_elem_of_In, filter_In in Ho' as [Ho' Hb].
    apply negb_true_iff in Hb. eapply vanished_apart; eauto. by apply list_elem_of_In.
Qed.

(** ** Runs on EdgeChannel *)

Definition empty_store (e : edge_ref) : EdgeChannel := filled_edge [].

Lemma not_ready_no_batch_witness :
  exists b', TryAcquire 1 (sample_binding kLatest) empty_store = Some (None, b', empty_store) /\
    ports_ b' = sample_table.
Proof.
  apply (not_ready_no_batch 1 (sample_binding kLatest) empty_store).
  - apply wf_start; [simpl; repeat constructor; set_solver|].
    intros e _. apply filled_edge_ok. vm_compute. reflexivity.
  - apply Nat.ltb_lt. reflexivity.
  - vm_compute. reflexivity.
Defined.

(** Port video moves on from edge 0 to edge 3; its predecessor 2 is not drained.
    The new port extra has two edges. *)
Definition sample_rewired : list InputPortBinding :=
  [MkInputPortBinding "extra" (Some 4) true []; MkInputPortBinding "video" (Some 3) true []; MkInputPortBinding "audio" (Some 1) true [];
   MkInputPortBinding "extra" (Some 5) true []].

Lemma sample_rebindable : rebindable (sample_binding kAny) sample_store sample_rewired (MkInputPortBinding "video" (Some 3) true []).
Proof.
  assert (Hok : forall e, e_ok (sample_store e))
    by (intros [|[|e]]; apply filled_edge_ok; vm_compute; reflexivity).
  split; try (intros; apply Hok).
  - simpl. repeat constructor; set_solver.
  - vm_compute. reflexivity.
  - vm_compute. lia.
  - done.
  - intros e o [= <-] Ho Heo.
    repeat first [apply elem_of_cons in Ho as [->|Ho] | apply not_elem_of_nil in Ho; done];
    simpl in *; try done; set_solver.
Qed.

Lemma Rebind_streams_witness :
  let r := Rebind sample_rewired kAny default_AlignedOptions (sample_binding kAny) sample_store in
  map pts (pending r.1 r.2 1) = [60; 0; 100; 60; 0]%Z.
Proof.
  cbn zeta. rewrite (Rebind_streams (sample_binding kAny) sample_store sample_rewired kAny default_AlignedOptions 1
    (MkInputPortBinding "video" (Some 3) true []) sample_rebindable eq_refl).
  vm_compute. reflexivity.
Defined.

(** Why the port must have one edge: a port with several edges is matched with its
    first old entry only. Rewiring one of its edges, 1 into 3, leaves edge 1
    unread and makes edge 0, still bound, the predecessor of edge 3. *)
Example Rebind_multi_mispairs :
  let entry e := MkInputPortBinding "in" (Some e) true [] in
  map (fun b => (InputBinding.edge b, predecessors b))
    (ports_ (Rebind [entry 0; entry 3] kAny default_AlignedOptions (make_binding [entry 0; entry 1] kAny default_AlignedOptions) sample_store).1)
  = [(Some 0, []); (Some 3, [0])]%nat.
Proof. by vm_compute. Qed.
