(* ===== verification/NodeRuntime.v ===== *)
(** Node runtimes (include/ge/cpp/node_runtime.h, src/node_runtime.cpp): the
    versioned parameter store, the latency histogram, and the life cycle and
    scheduling counters of a node. *)

From stdpp Require Import base numbers list strings.
From Stdlib Require Import ZArith Lia Ascii String.
From S2P Require Import Prelude Types Double Json GraphSpec CapabilityTypes.

Local Open Scope string_scope.
Local Open Scope Z_scope.

Inductive NodeState : Type :=
| kCreated | kOpening | kReady | kRunning | kAsyncPending | kNodeDraining | kClosing | kClosed
| kFailed.
#[export] Instance NodeState_eq_dec : EqDecision NodeState.
Proof. solve_decision. Defined.

Definition NodeState_ToString (s : NodeState) : string :=
  match s with
  | kCreated => "created"
  | kOpening => "opening"
  | kReady => "ready"
  | kRunning => "running"
  | kAsyncPending => "async_pending"
  | kNodeDraining => "draining"
  | kClosing => "closing"
  | kClosed => "closed"
  | kFailed => "failed"
  end.

(** ** ParameterStore *)

Record ParameterSnapshot : Type := MkSnapshot {
  ps_version : Z;
  ps_values : json;
  ps_effective_after_seq : Z;
}.

Record ParameterAuditRecord : Type := MkAudit {
  pa_version : Z;
  pa_effective_after_seq : Z;
  pa_values_json : string;
}.

Record ParameterUpdateRequest : Type := MkUpdate { pu_operation : Z; pu_values : json }.

Record ParameterStore : Type := MkStore {
  current_ : ParameterSnapshot;
  pending_ : option ParameterSnapshot;
  queued_ : list ParameterUpdateRequest;
  history_ : list ParameterAuditRecord;
  history_capacity_ : nat;
  last_hot_updatable_ : list string;
}.

Module Params.

(** [as_object()]; on a value that is not an object it throws, which the
    callers rule out. *)
Definition as_object (v : json) : list (string * json) :=
  match v with JObject m => m | _ => [] end.

Definition merge (base over : list (string * json)) : list (string * json) :=
  fold_left (fun m kv => SMap.set kv.1 kv.2 m) over base.

Definition all_hot (hot : list string) (m : list (string * json)) : bool :=
  forallb (fun kv => bool_decide (kv.1 ∈ hot)) m.

Definition make (initial : json) (capacity : nat) : ParameterStore :=
  MkStore (MkSnapshot 1 (if Json.is_object initial then initial else JObject []) 0) None [] []
    capacity [].

(** The snapshot that applies an update on top of the current one. *)
Definition next_snapshot (base : ParameterSnapshot) (values : json) : ParameterSnapshot :=
  MkSnapshot (Word.u64 (ps_version base + 1))
    (JObject (merge (as_object (ps_values base)) (as_object values))) 0.

(** The first key that is not hot-updatable. *)
Fixpoint first_cold (hot : list string) (m : list (string * json)) : option string :=
  match m with
  | [] => None
  | (k, _) :: m' => if bool_decide (k ∈ hot) then first_cold hot m' else Some k
  end.

Definition Submit (request : ParameterUpdateRequest) (hot : list string) (s : ParameterStore)
    : Result Z * ParameterStore :=
  if negb (Json.is_object (pu_values request)) then
    (Error (StatusOps.InvalidArgument "parameter update must be a JSON object"), s)
  else match first_cold hot (as_object (pu_values request)) with
  | Some key =>
      (Error (StatusOps.ParameterUnsupported
                ("parameter '" ++ key ++ "' is not hot-updatable; use a Mutation")), s)
  | None =>
      match pending_ s with
      | Some p =>
          let q := (queued_ s ++ [request])%list in
          (Value (Word.u64 (ps_version p + Z.of_nat (List.length q))),
           MkStore (current_ s) (pending_ s) q (history_ s) (history_capacity_ s) hot)
      | None =>
          let next := next_snapshot (current_ s) (pu_values request) in
          (Value (ps_version next),
           MkStore (current_ s) (Some next) (queued_ s) (history_ s) (history_capacity_ s) hot)
      end
  end.

(** [PromoteQueued]: the first queued update whose keys are all hot-updatable
    becomes pending; those before it are discarded. *)
Fixpoint promote (cur : ParameterSnapshot) (hot : list string) (q : list ParameterUpdateRequest)
    : option ParameterSnapshot * list ParameterUpdateRequest :=
  match q with
  | [] => (None, [])
  | r :: q' =>
      if all_hot hot (as_object (pu_values r)) then (Some (next_snapshot cur (pu_values r)), q')
      else promote cur hot q'
  end.

Definition PromoteQueued (s : ParameterStore) : ParameterStore :=
  match pending_ s with
  | Some _ => s
  | None =>
      let '(p, q) := promote (current_ s) (last_hot_updatable_ s) (queued_ s) in
      MkStore (current_ s) p q (history_ s) (history_capacity_ s) (last_hot_updatable_ s)
  end.

(** [while (history_.size() > history_capacity_) history_.pop_front()] *)
Definition trim (capacity : nat) (h : list ParameterAuditRecord) : list ParameterAuditRecord :=
  drop (List.length h - capacity) h.

Definition SwitchAtPacketBoundary (seq : Z) (s : ParameterStore) : option Z * ParameterStore :=
  match pending_ s with
  | None => (None, s)
  | Some p =>
      let snap := MkSnapshot (ps_version p) (ps_values p) seq in
      let h := trim (history_capacity_ s)
                 (history_ s ++ [MkAudit (ps_version snap) seq (Json.Serialize (ps_values snap))])%list in
      (Some (ps_version snap),
       PromoteQueued (MkStore snap None (queued_ s) h (history_capacity_ s) (last_hot_updatable_ s)))
  end.

Definition has_pending (s : ParameterStore) : bool := has (pending_ s).

Definition RejectPending (s : ParameterStore) : ParameterStore :=
  PromoteQueued (MkStore (current_ s) None (queued_ s) (history_ s) (history_capacity_ s)
                   (last_hot_updatable_ s)).

End Params.

(** ** LatencyHistogram *)

Record LatencyHistogram : Type := MkHistogram { buckets_ : list Z; count_ : Z; sum_ns_ : Z }.

Module Histogram.

Definition kBuckets : nat := 26.
Definition make : LatencyHistogram := MkHistogram (replicate kBuckets 0) 0 0.

Definition BucketUpperNs (b : nat) : Z :=
  if (kBuckets <=? b + 1)%nat then 2 ^ 64 - 1 else Z.shiftl 1 (Z.of_nat b + 10).

(** The loop that finds the bucket. *)
Fixpoint find_bucket (rounds b : nat) (ns : Z) : nat :=
  match rounds with
  | O => b
  | S r => if (b + 1 <? kBuckets)%nat && (BucketUpperNs b <=? ns) then find_bucket r (S b) ns else b
  end.

Definition Record_ (ns : Z) (h : LatencyHistogram) : LatencyHistogram :=
  let b := find_bucket kBuckets 0 ns in
  MkHistogram (alter (fun n => Word.u64 (n + 1)) b (buckets_ h)) (Word.u64 (count_ h + 1))
    (Word.u64 (sum_ns_ h + ns)).

(** The loop of [Quantile] from bucket [b]. *)
Fixpoint quantile_loop (bs : list Z) (b : nat) (seen target total : Z) : Z :=
  match bs with
  | [] => BucketUpperNs (kBuckets - 1)
  | n :: bs' =>
      let seen := Word.u64 (seen + n) in
      if (target <? seen) || (seen =? total) then BucketUpperNs b
      else quantile_loop bs' (S b) seen target total
  end.

Definition Quantile (q : double) (h : LatencyHistogram) : Z :=
  if count_ h =? 0 then 0
  else quantile_loop (buckets_ h) 0 0 (Double.to_u64 (Double.mul (Double.of_Z (count_ h)) q)) (count_ h).

End Histogram.

(** ** NodeRuntime *)

(** The object without [op_] (the operator's answers are arguments of [Open]
    and [Close]), [topology_] and the metrics other than the ones the methods
    here update. *)
Record NodeRuntime : Type := MkNode {
  n_id : Z;
  n_external_id : string;
  n_key : OperatorKey;
  n_capability : CapabilityDescriptor;
  n_options : json;
  max_parallelism_ : Z;
  async_max_in_flight_ : Z;
  parameters_ : ParameterStore;
  n_state : NodeState;
  in_flight_ : Z;
  async_pending_ : Z;
  busy_ : Z;
  available_slots_ : Z;
  last_seq_ : Z;
  cancelled_ : bool;
  retiring_ : bool;
  held_ : bool;
  m_invocations : Z;
  m_errors : Z;
  m_submitted : Z;
  m_completed : Z;
  failure_ : Status;
}.

Module Node.

Definition max_parallelism_of (d : CapabilityDescriptor) (parallelism : Z) : Z :=
  if xc_stateful (cd_execution d) || xc_async (cd_execution d) then 1
  else Z.min (Z.max parallelism 1) (Z.max 1 (xc_max_parallelism (cd_execution d))).

Definition make (id : Z) (external_id : string) (key : OperatorKey) (d : CapabilityDescriptor)
    (options : json) (parallelism : Z) : NodeRuntime :=
  let n := max_parallelism_of d parallelism in
  MkNode id external_id key d options n
    (match Json.GetInteger "async_max_in_flight" options with
     | Some c => if 1 <=? c then Z.min c 4096 else 16
     | None => 16
     end)
    (Params.make options 64) kCreated 0 0 0 n 0 false false false 0 0 0 0 StatusOps.Ok.

Definition with_state (s : NodeState) (n : NodeRuntime) : NodeRuntime :=
  MkNode (n_id n) (n_external_id n) (n_key n) (n_capability n) (n_options n) (max_parallelism_ n)
    (async_max_in_flight_ n) (parameters_ n) s (in_flight_ n) (async_pending_ n) (busy_ n)
    (available_slots_ n) (last_seq_ n) (cancelled_ n) (retiring_ n) (held_ n) (m_invocations n)
    (m_errors n) (m_submitted n) (m_completed n) (failure_ n).
Definition with_counts (flight async slots : Z) (n : NodeRuntime) : NodeRuntime :=
  MkNode (n_id n) (n_external_id n) (n_key n) (n_capability n) (n_options n) (max_parallelism_ n)
    (async_max_in_flight_ n) (parameters_ n) (n_state n) flight async (busy_ n)
    slots (last_seq_ n) (cancelled_ n) (retiring_ n) (held_ n) (m_invocations n)
    (m_errors n) (m_submitted n) (m_completed n) (failure_ n).
Definition with_metrics (inv err sub comp : Z) (n : NodeRuntime) : NodeRuntime :=
  MkNode (n_id n) (n_external_id n) (n_key n) (n_capability n) (n_options n) (max_parallelism_ n)
    (async_max_in_flight_ n) (parameters_ n) (n_state n) (in_flight_ n) (async_pending_ n) (busy_ n)
    (available_slots_ n) (last_seq_ n) (cancelled_ n) (retiring_ n) (held_ n) inv err sub comp
    (failure_ n).
Definition with_failure (s : Status) (n : NodeRuntime) : NodeRuntime :=
  MkNode (n_id n) (n_external_id n) (n_key n) (n_capability n) (n_options n) (max_parallelism_ n)
    (async_max_in_flight_ n) (parameters_ n) (n_state n) (in_flight_ n) (async_pending_ n) (busy_ n)
    (available_slots_ n) (last_seq_ n) (cancelled_ n) (retiring_ n) (held_ n) (m_invocations n)
    (m_errors n) (m_submitted n) (m_completed n) s.

(** [compare_exchange_strong] on the state *)
Definition cas_state (from to : NodeState) (n : NodeRuntime) : bool * NodeRuntime :=
  if decide (n_state n = from) then (true, with_state to n) else (false, n).

Definition is_source (n : NodeRuntime) : bool :=
  match cd_inputs (n_capability n) with [] => true | _ => false end.
Definition is_sink (n : NodeRuntime) : bool :=
  match cd_outputs (n_capability n) with [] => true | _ => false end.

(** [Open]; [answer] is the operator's. *)
Definition Open (answer : Status) (n : NodeRuntime) : Status * NodeRuntime :=
  match cas_state kCreated kOpening n with
  | (false, n) =>
      (StatusOps.InvalidArgument ("node '" ++ n_external_id n ++ "' cannot open from state "
                                  ++ NodeState_ToString (n_state n)), n)
  | (true, n) =>
      if StatusOps.ok answer then (StatusOps.Ok, with_state kReady n)
      else
        let f := StatusOps.NodeWarmupFailed
                   ("node '" ++ n_external_id n ++ "' open failed: " ++ message answer) in
        (f, with_state kFailed (with_failure f n))
  end.

(** [Close]; [answer] is the operator's. *)
Definition Close (answer : Status) (n : NodeRuntime) : Status * NodeRuntime :=
  match n_state n with
  | kClosed => (StatusOps.Ok, n)
  | kCreated => (StatusOps.Ok, with_state kClosed n)
  | _ => (answer, with_state kClosed n)
  end.

Definition Fail (s : Status) (n : NodeRuntime) : NodeRuntime :=
  with_state kFailed
    (with_metrics (m_invocations n) (Word.u64 (m_errors n + 1)) (m_submitted n) (m_completed n)
       (with_failure s n)).

Definition schedulable (s : NodeState) : bool :=
  match s with kReady | kRunning => true | _ => false end.

(** [TrySchedule] run without interference; its accesses interleaved with
    those of other threads are in NodeProtocol. *)
Definition TrySchedule (n : NodeRuntime) : bool * NodeRuntime :=
  if negb (schedulable (n_state n)) then (false, n)
  else if held_ n then (false, n)
  else if available_slots_ n >? 0
       then (true, with_counts (in_flight_ n) (async_pending_ n) (available_slots_ n - 1) n)
       else (false, n).

Definition CancelSchedule (n : NodeRuntime) : NodeRuntime :=
  with_counts (in_flight_ n) (async_pending_ n) (Word.u32 (available_slots_ n + 1)) n.

Definition BeginInvoke (n : NodeRuntime) : NodeRuntime :=
  let n := with_counts (Word.u32 (in_flight_ n + 1)) (async_pending_ n) (available_slots_ n) n in
  let n := (cas_state kReady kRunning n).2 in
  with_metrics (Word.u64 (m_invocations n + 1)) (m_errors n) (m_submitted n) (m_completed n) n.

Definition EndInvoke (n : NodeRuntime) : NodeRuntime :=
  let left := Word.u32 (in_flight_ n - 1) in
  let n := with_counts left (async_pending_ n) (Word.u32 (available_slots_ n + 1)) n in
  if left =? 0 then (cas_state kRunning kReady n).2 else n.

Definition TryEnterDraining (n : NodeRuntime) : bool * NodeRuntime :=
  if negb (in_flight_ n =? 0) then (false, n)
  else if negb (async_pending_ n =? 0) then (false, n)
  else if negb (available_slots_ n =? max_parallelism_ n) then (false, n)
  else match cas_state kReady kNodeDraining n with
  | (false, n) => (false, n)
  | (true, n) =>
      if negb (available_slots_ n =? max_parallelism_ n)
      then (false, (cas_state kNodeDraining kReady n).2)
      else (true, n)
  end.

Definition BeginAsync (n : NodeRuntime) : NodeRuntime :=
  with_metrics (m_invocations n) (m_errors n) (Word.u64 (m_submitted n + 1)) (m_completed n)
    (with_counts (in_flight_ n) (Word.u32 (async_pending_ n + 1)) (available_slots_ n) n).

Definition EnterAsyncPending (n : NodeRuntime) : NodeRuntime := (cas_state kReady kAsyncPending n).2.
Definition TryLeaveAsyncPending (n : NodeRuntime) : bool * NodeRuntime :=
  cas_state kAsyncPending kReady n.

Definition EndAsync (n : NodeRuntime) : bool * NodeRuntime :=
  let left := Word.u32 (async_pending_ n - 1) in
  let n := with_counts (in_flight_ n) left (available_slots_ n) n in
  let n := with_metrics (m_invocations n) (m_errors n) (m_submitted n) (Word.u64 (m_completed n + 1)) n in
  let '(b, n) := TryLeaveAsyncPending n in (b || (left =? 0), n).

Definition EnterClosing (n : NodeRuntime) : NodeRuntime := with_state kClosing n.

Definition with_parameters (p : ParameterStore) (n : NodeRuntime) : NodeRuntime :=
  MkNode (n_id n) (n_external_id n) (n_key n) (n_capability n) (n_options n) (max_parallelism_ n) (async_max_in_flight_ n) p (n_state n)
    (in_flight_ n) (async_pending_ n) (busy_ n) (available_slots_ n) (last_seq_ n) (cancelled_ n) (retiring_ n) (held_ n) (m_invocations n)
    (m_errors n) (m_submitted n) (m_completed n) (failure_ n).
Definition NoteSeq (sq : Z) (n : NodeRuntime) : NodeRuntime :=
  MkNode (n_id n) (n_external_id n) (n_key n) (n_capability n) (n_options n) (max_parallelism_ n) (async_max_in_flight_ n) (parameters_ n)
    (n_state n) (in_flight_ n) (async_pending_ n) (busy_ n) (available_slots_ n) sq (cancelled_ n) (retiring_ n) (held_ n) (m_invocations n)
    (m_errors n) (m_submitted n) (m_completed n) (failure_ n).
Definition MarkCancelled (n : NodeRuntime) : NodeRuntime :=
  MkNode (n_id n) (n_external_id n) (n_key n) (n_capability n) (n_options n) (max_parallelism_ n) (async_max_in_flight_ n) (parameters_ n)
    (n_state n) (in_flight_ n) (async_pending_ n) (busy_ n) (available_slots_ n) (last_seq_ n) true (retiring_ n) (held_ n) (m_invocations n)
    (m_errors n) (m_submitted n) (m_completed n) (failure_ n).
Definition MarkRetiring (n : NodeRuntime) : NodeRuntime :=
  MkNode (n_id n) (n_external_id n) (n_key n) (n_capability n) (n_options n) (max_parallelism_ n) (async_max_in_flight_ n) (parameters_ n)
    (n_state n) (in_flight_ n) (async_pending_ n) (busy_ n) (available_slots_ n) (last_seq_ n) (cancelled_ n) true (held_ n)
    (m_invocations n) (m_errors n) (m_submitted n) (m_completed n) (failure_ n).
Definition set_held (b : bool) (n : NodeRuntime) : NodeRuntime :=
  MkNode (n_id n) (n_external_id n) (n_key n) (n_capability n) (n_options n) (max_parallelism_ n) (async_max_in_flight_ n) (parameters_ n)
    (n_state n) (in_flight_ n) (async_pending_ n) (busy_ n) (available_slots_ n) (last_seq_ n) (cancelled_ n) (retiring_ n) b
    (m_invocations n) (m_errors n) (m_submitted n) (m_completed n) (failure_ n).
Definition Hold (n : NodeRuntime) : NodeRuntime := set_held true n.
Definition Release (n : NodeRuntime) : NodeRuntime := set_held false n.
Definition set_busy (b : Z) (n : NodeRuntime) : NodeRuntime :=
  MkNode (n_id n) (n_external_id n) (n_key n) (n_capability n) (n_options n) (max_parallelism_ n) (async_max_in_flight_ n) (parameters_ n)
    (n_state n) (in_flight_ n) (async_pending_ n) b (available_slots_ n) (last_seq_ n) (cancelled_ n) (retiring_ n) (held_ n)
    (m_invocations n) (m_errors n) (m_submitted n) (m_completed n) (failure_ n).
Definition EnterBusy (n : NodeRuntime) : NodeRuntime := set_busy (Word.u32 (busy_ n + 1)) n.
Definition ExitBusy (n : NodeRuntime) : NodeRuntime := set_busy (Word.u32 (busy_ n - 1)) n.
Definition quiescent (n : NodeRuntime) : bool := (busy_ n =? 0) && (available_slots_ n =? max_parallelism_ n).

End Node.
