(* ===== verification/NodeRuntimeProofs.v ===== *)
(** Node runtimes: serial application of parameter updates, the latency
    buckets, and the life cycle. *)

From stdpp Require Import base numbers list strings sorting.
From Stdlib Require Import ZArith Lia Ascii String.
From S2P Require Import Prelude Types Double Json GraphSpec CapabilityTypes NodeRuntime.

Local Open Scope Z_scope.
Local Open Scope list_scope.

(** ** Parameter updates *)

Import Params.

(** [us] are the updates a store has accepted and not yet applied: the pending
    snapshot applies the first, the queue holds the others. *)
Definition outstanding (s : ParameterStore) (us : list json) : Prop :=
  match us with
  | [] => pending_ s = None /\ queued_ s = []
  | u :: us' => pending_ s = Some (next_snapshot (current_ s) u) /\ pu_values <$> queued_ s = us'
  end.

Definition hot_update (hot : list string) (u : json) : Prop := all_hot hot (as_object u) = true.

Lemma first_cold_None hot m : first_cold hot m = None <-> all_hot hot m = true.
Proof.
  induction m as [|[k v] m IH]; simpl; [done|]. by case_bool_decide.
Qed.

Lemma outstanding_make initial capacity : outstanding (make initial capacity) [].
Proof. done. Qed.

Lemma Submit_outstanding r hot s us v s' :
  outstanding s us -> Submit r hot s = (Value v, s') ->
  outstanding s' (us ++ [pu_values r]) /\ current_ s' = current_ s /\ last_hot_updatable_ s' = hot /\
  hot_update hot (pu_values r) /\
  v = Word.u64 (ps_version (current_ s) + Z.of_nat (S (List.length us))).
Proof.
  intros Hout. unfold Submit. destruct (Json.is_object (pu_values r)); [|done]. simpl.
  destruct (first_cold _ _) eqn:Ec; [done|]. apply first_cold_None in Ec.
  destruct us as [|u us]; destruct Hout as [Hp Hq]; rewrite Hp; intros [= <- <-]; simpl;
    rewrite ?Hp; (split; [|split_and!; try done]).
  - by rewrite Hq.
  - by rewrite fmap_app, Hq.
  - rewrite length_app. simpl. rewrite <- Hq, length_fmap, Word.u64_plus. f_equal. lia.
Qed.

Lemma Switch_outstanding seq s u us :
  outstanding s (u :: us) -> Forall (hot_update (last_hot_updatable_ s)) us ->
  exists s', SwitchAtPacketBoundary seq s = (Some (Word.u64 (ps_version (current_ s) + 1)), s') /\
    ps_version (current_ s') = Word.u64 (ps_version (current_ s) + 1) /\
    ps_values (current_ s') = JObject (merge (as_object (ps_values (current_ s))) (as_object u)) /\
    last_hot_updatable_ s' = last_hot_updatable_ s /\ outstanding s' us.
Proof.
  intros [Hp Hq] Hhot. unfold SwitchAtPacketBoundary. rewrite Hp. unfold PromoteQueued. simpl.
  destruct (queued_ s) as [|r q] eqn:Eq; simpl in *.
  - subst us. eexists. split_and!; done.
  - destruct us as [|u2 us]; [done|]. injection Hq as <- <-.
    apply Forall_cons in Hhot as [Hh _]. unfold hot_update in Hh. rewrite Hh.
    eexists. split_and!; done.
Qed.

(** [SwitchAtPacketBoundary] at each of some packets. *)
Definition switches (seqs : list Z) (s : ParameterStore) : ParameterStore :=
  fold_left (fun s seq => (SwitchAtPacketBoundary seq s).2) seqs s.

Definition apply_updates (us : list json) (base : list (string * json)) : list (string * json) :=
  fold_left (fun m u => merge m (as_object u)) us base.

Lemma switches_outstanding seqs s us :
  outstanding s us -> Forall (hot_update (last_hot_updatable_ s)) us ->
  List.length seqs = List.length us ->
  ps_version (current_ (switches seqs s))
    = match us with [] => ps_version (current_ s)
      | _ => Word.u64 (ps_version (current_ s) + Z.of_nat (List.length us)) end /\
  as_object (ps_values (current_ (switches seqs s)))
    = apply_updates us (as_object (ps_values (current_ s))) /\
  outstanding (switches seqs s) [].
Proof.
  revert s us. induction seqs as [|seq seqs IH]; intros s us Hout Hhot Hlen.
  { by destruct us. }
  destruct us as [|u us]; [done|]. apply Forall_cons in Hhot as [_ Hhot].
  destruct (Switch_outstanding seq s u us Hout Hhot) as (s' & Hs & Hver & Hval & Hh & Hout').
  unfold switches. simpl. rewrite Hs. simpl. fold (switches seqs s').
  destruct (IH s' us Hout') as (IHv & IHu & IHo); [by rewrite Hh|by simpl in Hlen; lia|].
  split; [|split; [by rewrite IHu, Hval|done]].
  rewrite IHv, Hver. destruct us as [|u2 us]; [done|].
  rewrite Word.u64_plus. f_equal. simpl. lia.
Qed.

(** Parameter updates are serial and keep their promise: if [us] are
    accepted but not yet applied and a further update [r] is accepted with the
    answer [v], then after the switches for [us] and [r] the current version is
    [v] and the values are the old ones overwritten by [us] in order and then
    by [r]. *)
Theorem parameter_updates_serial s us r hot v s' seqs :
  outstanding s us -> Forall (hot_update hot) us -> Submit r hot s = (Value v, s') ->
  List.length seqs = S (List.length us) ->
  let t := current_ (switches seqs s') in
  ps_version t = v /\
  as_object (ps_values t) =
    apply_updates (us ++ [pu_values r]) (as_object (ps_values (current_ s))).
Proof.
  intros Hout Hhot Hsub Hlen t.
  destruct (Submit_outstanding _ _ _ _ _ _ Hout Hsub) as (Hout' & Hcur & Hlh & Hr & Hv).
  destruct (switches_outstanding seqs s' (us ++ [pu_values r])) as (H1 & H2 & _); try done.
  - rewrite Hlh. apply Forall_app. split; [done|by constructor].
  - rewrite length_app. simpl. lia.
  - subst t v. rewrite H1, H2, Hcur, length_app, Nat.add_comm. split; [|done].
    by destruct us.
Qed.

Definition sample_update (k : string) (z : Z) : ParameterUpdateRequest :=
  MkUpdate 1 (JObject [(k, JInteger z)]).
Definition sample_store : ParameterStore :=
  (Submit (sample_update "gain" 5) ["gain"; "rate"]%string (make (JObject [("gain"%string, JInteger 1)]) 64)).2.

Lemma parameter_updates_serial_witness :
  let s' := (Submit (sample_update "rate" 7) ["gain"; "rate"]%string sample_store).2 in
  let t := current_ (switches [10; 11] s') in
  ps_version t = 3 /\
  as_object (ps_values t) =
    apply_updates ([JObject [("gain"%string, JInteger 5)]] ++ [JObject [("rate"%string, JInteger 7)]])
      (as_object (ps_values (current_ sample_store))).
Proof.
  intros s' t.
  apply (parameter_updates_serial sample_store [JObject [("gain"%string, JInteger 5)]]
    (sample_update "rate" 7) ["gain"; "rate"]%string 3 s' [10; 11]);
    [vm_compute; by split|by repeat constructor|vm_compute; reflexivity|done].
Defined.

(** After [RejectPending] a queued update takes effect under another version
    than the one its [Submit] returned. *)
Example rejected_update_shifts_version :
  let '(r1, s1) := Submit (sample_update "rate" 7) ["gain"; "rate"]%string sample_store in
  let '(r2, s2) := SwitchAtPacketBoundary 10 (RejectPending s1) in
  r1 = Value 3 /\ r2 = Some 2 /\
  as_object (ps_values (current_ s2))
    = [("gain"%string, JInteger 1); ("rate"%string, JInteger 7)].
Proof. vm_compute. by split_and!. Qed.

(** ** History *)

Lemma length_trim c h : (List.length (trim c h) <= c)%nat.
Proof. unfold trim. rewrite length_drop. lia. Qed.

Lemma PromoteQueued_history s : history_ (PromoteQueued s) = history_ s /\
  history_capacity_ (PromoteQueued s) = history_capacity_ s.
Proof. unfold PromoteQueued. destruct (pending_ s); [done|]. by destruct (promote _ _ _). Qed.

(** ** Latency buckets *)

Import Histogram.

Lemma find_bucket_spec rounds b ns :
  (b < kBuckets)%nat -> (kBuckets <= b + rounds)%nat ->
  let c := find_bucket rounds b ns in
  (b <= c < kBuckets)%nat /\ (forall k, (b <= k < c)%nat -> BucketUpperNs k <= ns) /\
  ((c + 1 < kBuckets)%nat -> ns < BucketUpperNs c).
Proof.
  revert b. induction rounds as [|r IH]; intros b Hb Hr; [lia|]. cbn [find_bucket andb].
  destruct (Nat.ltb_spec (b + 1) kBuckets) as [Hlt|Hge]; cbn [find_bucket andb].
  - destruct (Z.leb_spec (BucketUpperNs b) ns) as [Hle|Hgt].
    + destruct (IH (S b)) as (H1 & H2 & H3); [lia|lia|]. split_and!; [lia|lia| |done].
      intros k Hk. destruct (decide (k = b)) as [->|]; [done|]. apply H2. lia.
    + split_and!; [lia|lia|intros; lia|done].
  - split_and!; [lia|lia|intros; lia|intros; lia].
Qed.

Definition histogram_wf (h : LatencyHistogram) : Prop := List.length (buckets_ h) = kBuckets.

(** The lower bound of a bucket: the upper bound of the one before. *)
Definition bucket_lower (b : nat) : Z := match b with O => 0 | S b' => BucketUpperNs b' end.

(** [Record] counts a sample in exactly one bucket, the one whose range
    holds it (the last bucket takes everything above 2^34 ns), and in the
    total. *)
Theorem histogram_record ns h :
  histogram_wf h -> Word.is_u64 ns ->
  exists b, (b < kBuckets)%nat /\ bucket_lower b <= ns /\
    ((b + 1 < kBuckets)%nat -> ns < BucketUpperNs b) /\
    count_ (Record_ ns h) = Word.u64 (count_ h + 1) /\
    (forall k, buckets_ (Record_ ns h) !! k =
       if decide (k = b) then (fun n => Word.u64 (n + 1)) <$> buckets_ h !! k else buckets_ h !! k).
Proof.
  intros Hwf Hns. destruct (find_bucket_spec kBuckets 0 ns) as (H1 & H2 & H3); [unfold kBuckets; lia|lia|].
  exists (find_bucket kBuckets 0 ns). split_and!; [lia| |done|done|].
  - destruct (find_bucket kBuckets 0 ns) as [|b] eqn:E; [apply Hns|]. apply H2. lia.
  - intros k. unfold Record_. cbn [buckets_]. case_decide as Ek.
    + subst k. apply list_lookup_alter_eq.
    + by apply list_lookup_alter_ne.
Qed.

Lemma histogram_record_witness :
  exists b, (b < kBuckets)%nat /\ bucket_lower b <= 5000 /\
    ((b + 1 < kBuckets)%nat -> 5000 < BucketUpperNs b) /\
    count_ (Record_ 5000 Histogram.make) = Word.u64 (0 + 1) /\
    (forall k, buckets_ (Record_ 5000 Histogram.make) !! k =
       if decide (k = b) then (fun n => Word.u64 (n + 1)) <$> buckets_ Histogram.make !! k
       else buckets_ Histogram.make !! k).
Proof. apply histogram_record; [done|]. unfold Word.is_u64. lia. Defined.
