(* ===== verification/NodeProtocol.v ===== *)
(** Scheduling, draining and holding one node from several threads: the atomic
    accesses of TrySchedule, CancelSchedule, BeginInvoke, EndInvoke,
    TryEnterDraining, Hold, quiescent (src/node_runtime.cpp, node_runtime.h) and the gates of
    Invoke and InvokeBody (src/scheduler_invoke.cpp) interleave freely,
    sequentially consistent.  Any number of executor tasks run; one
    coordinator holds and releases the node (Publish in
    src/scheduler_retire.cpp). *)

From stdpp Require Import base numbers list relations.
From Stdlib Require Import Lia.
From S2P Require Import Prelude Types GraphSpec CapabilityTypes NodeRuntime.

Local Open Scope nat_scope.
Local Open Scope list_scope.

(** Where a task stands. *)
Inductive task : Type :=
| SState                     (* TrySchedule: state_.load *)
| SHeld                      (* TrySchedule: held_.load *)
| SSlots                     (* TrySchedule: available_slots_.load *)
| SReserve (seen : nat)      (* TrySchedule: the exchange seen -> seen - 1 *)
| SRecheck                   (* TrySchedule: held_.load after the reservation *)
| SUndo                      (* TrySchedule: available_slots_.fetch_add *)
| BEnter                     (* submitted; Invoke: EnterBusy *)
| BState                     (* InvokeBody: node.state() *)
| BHeld                      (* InvokeBody: node.held() *)
| BTurnedAway                (* InvokeBody: CancelSchedule and return *)
| BEntered                  (* past the gates *)
| BCancel                    (* nothing to process: CancelSchedule *)
| BBegin                     (* BeginInvoke: in_flight_.fetch_add *)
| BRunning                   (* BeginInvoke: the exchange ready -> running *)
| BProcess                   (* Operator::Process *)
| BFail                      (* Fail: state_.store(kFailed) *)
| BEnd                       (* EndInvoke: in_flight_.fetch_sub *)
| BReturn (left : nat)       (* EndInvoke: available_slots_.fetch_add *)
| BReady (left : nat)        (* EndInvoke: the exchange running -> ready *)
| BAfter                     (* the end of the turn *)
| DFlight                    (* TryEnterDraining: in_flight_.load *)
| DSlots                     (* TryEnterDraining: available_slots_.load *)
| DExchange                  (* TryEnterDraining: the exchange ready -> draining *)
| DRecheck                   (* TryEnterDraining: available_slots_.load again *)
| DUndo                      (* TryEnterDraining: the exchange draining -> ready *)
| DWon                       (* FinishNode: flush, EOS, close *)
| BExit                      (* Invoke: ExitBusy *)
| Done.

(** Where the coordinator stands. *)
Inductive coordinator : Type := HIdle | HBusy | HSlots | HQuiet.

Record world : Type := MkWorld {
  p_state : NodeState;
  p_slots : nat;
  p_flight : nat;
  p_busy : nat;
  p_held : bool;
  p_tasks : list task;
  p_coord : coordinator;
}.

#[local] Arguments Node.schedulable : simpl never.

Section protocol.
(** [max_parallelism_] *)
Variable max : nat.

Definition at_ (i : nat) (t : task) (w : world) : world :=
  MkWorld (p_state w) (p_slots w) (p_flight w) (p_busy w) (p_held w) (<[i := t]> (p_tasks w)) (p_coord w).
Definition state_to (s : NodeState) (w : world) : world :=
  MkWorld s (p_slots w) (p_flight w) (p_busy w) (p_held w) (p_tasks w) (p_coord w).
Definition slots_to (n : nat) (w : world) : world :=
  MkWorld (p_state w) n (p_flight w) (p_busy w) (p_held w) (p_tasks w) (p_coord w).
Definition flight_to (n : nat) (w : world) : world :=
  MkWorld (p_state w) (p_slots w) n (p_busy w) (p_held w) (p_tasks w) (p_coord w).
Definition busy_to (n : nat) (w : world) : world :=
  MkWorld (p_state w) (p_slots w) (p_flight w) n (p_held w) (p_tasks w) (p_coord w).
Definition held_to (b : bool) (w : world) : world :=
  MkWorld (p_state w) (p_slots w) (p_flight w) (p_busy w) b (p_tasks w) (p_coord w).
Definition coord_to (c : coordinator) (w : world) : world :=
  MkWorld (p_state w) (p_slots w) (p_flight w) (p_busy w) (p_held w) (p_tasks w) c.

(** [compare_exchange_strong] of the state *)
Definition exchange (from to : NodeState) (w : world) : world :=
  if decide (p_state w = from) then state_to to w else w.

(** What task [i] does at its next access: the new world (with the task still
    at its old place) and where it goes. *)
Inductive access (w : world) : task -> world -> task -> Prop :=
| a_state : access w SState w (if Node.schedulable (p_state w) then SHeld else Done)
| a_held : access w SHeld w (if p_held w then Done else SSlots)
| a_slots : access w SSlots w (match p_slots w with O => Done | S _ => SReserve (p_slots w) end)
| a_reserve n : p_slots w = S n -> access w (SReserve (S n)) (slots_to n w) SRecheck
| a_reserve_miss n : access w (SReserve n) w (match p_slots w with O => Done | S _ => SReserve (p_slots w) end)
| a_recheck : access w SRecheck w (if p_held w then SUndo else BEnter)
| a_undo : access w SUndo (slots_to (S (p_slots w)) w) Done
| a_enter : access w BEnter (busy_to (S (p_busy w)) w) BState
| a_bstate : access w BState w (if Node.schedulable (p_state w) then BHeld else BTurnedAway)
| a_bheld : access w BHeld w (if p_held w then BTurnedAway else BEntered)
| a_turned_away : access w BTurnedAway (slots_to (S (p_slots w)) w) BExit
| a_begin : access w BEntered w BBegin
| a_nothing : access w BEntered w BCancel
| a_cancel : access w BCancel (slots_to (S (p_slots w)) w) BAfter
| a_flight : access w BBegin (flight_to (S (p_flight w)) w) BRunning
| a_running : access w BRunning (exchange kReady kRunning w) BProcess
| a_processed : access w BProcess w BEnd
| a_failed : access w BProcess w BFail
| a_fail : access w BFail (state_to kFailed w) BEnd
| a_end : access w BEnd (flight_to (p_flight w - 1) w) (BReturn (p_flight w - 1))
| a_return n : access w (BReturn n) (slots_to (S (p_slots w)) w) (BReady n)
| a_ready n : access w (BReady n) (match n with O => exchange kRunning kReady w | S _ => w end) BAfter
| a_leave : access w BAfter w BExit
| a_drain : access w BAfter w DFlight
| a_dflight : access w DFlight w (match p_flight w with O => DSlots | S _ => BExit end)
| a_dslots : access w DSlots w (if decide (p_slots w = max) then DExchange else BExit)
| a_dexchange : access w DExchange (exchange kReady kNodeDraining w)
    (if decide (p_state w = kReady) then DRecheck else BExit)
| a_drecheck : access w DRecheck w (if decide (p_slots w = max) then DWon else DUndo)
| a_dundo : access w DUndo (exchange kNodeDraining kReady w) BExit
| a_close : access w DWon (state_to kClosed w) BExit
| a_exit : access w BExit (busy_to (p_busy w - 1) w) Done.

Inductive step : world -> world -> Prop :=
| step_task w i t w' t' :
    p_tasks w !! i = Some t -> access w t w' t' -> step w (at_ i t' w')
| step_mark_ready w :
    (* MarkReady from any thread *)
    step w (MkWorld (p_state w) (p_slots w) (p_flight w) (p_busy w) (p_held w)
              (p_tasks w ++ [SState]) (p_coord w))
| step_hold w : p_coord w = HIdle -> step w (coord_to HBusy (held_to true w))
| step_busy w : p_coord w = HBusy ->
    step w (coord_to (match p_busy w with O => HSlots | S _ => HBusy end) w)
| step_slots w : p_coord w = HSlots ->
    step w (coord_to (if decide (p_slots w = max) then HQuiet else HBusy) w)
| step_release w : p_coord w = HQuiet -> step w (coord_to HIdle (held_to false w)).

(** An open, idle node. *)
Definition initial : world := MkWorld kReady max 0 0 false [] HIdle.

Definition reachable : world -> Prop := rtc step initial.

(** ** The invariant *)

(** A slot is reserved. *)
Definition holds (t : task) : bool :=
  match t with
  | SRecheck | SUndo | BEnter | BState | BHeld | BTurnedAway | BEntered | BCancel | BBegin | BRunning
  | BProcess | BFail | BEnd | BReturn _ => true
  | _ => false
  end.
(** The task is counted in [busy_]. *)
Definition busy (t : task) : bool :=
  match t with
  | SState | SHeld | SSlots | SReserve _ | SRecheck | SUndo | BEnter | Done => false
  | _ => true
  end.
(** The state gate of [InvokeBody] is passed and the slot not yet returned. *)
Definition passed (t : task) : bool :=
  match t with
  | BHeld | BEntered | BCancel | BBegin | BRunning | BProcess | BFail | BEnd | BReturn _ => true
  | _ => false
  end.
(** Between the exchange of [TryEnterDraining] and its undoing or the close. *)
Definition draining (t : task) : bool :=
  match t with DRecheck | DUndo | DWon => true | _ => false end.
Definition won (t : task) : bool := match t with DWon => true | _ => false end.
(** Past the gate on [held()]. *)
Definition inside (t : task) : bool :=
  match t with
  | BEntered | BCancel | BBegin | BRunning | BProcess | BFail | BEnd | BReturn _ | BReady _ | BAfter
  | DFlight | DSlots | DExchange | DRecheck | DUndo | DWon => true
  | _ => false
  end.
(** Scheduled: past the re-check of [TrySchedule], the slot not yet returned. *)
Definition scheduled (t : task) : bool :=
  match t with
  | BEnter | BState | BHeld | BTurnedAway | BEntered | BCancel | BBegin | BRunning | BProcess | BFail
  | BEnd | BReturn _ => true
  | _ => false
  end.

Record inv (w : world) : Prop := {
  inv_slots : p_slots w + count holds (p_tasks w) = max;
  inv_busy : p_busy w = count busy (p_tasks w);
  inv_draining : count draining (p_tasks w) <= 1;
  inv_state : 0 < count draining (p_tasks w) -> Node.schedulable (p_state w) = false;
  inv_won : 0 < count won (p_tasks w) -> count passed (p_tasks w) = 0;
  inv_held : p_coord w <> HIdle -> p_held w = true;
  inv_quiet_body : p_coord w = HSlots \/ p_coord w = HQuiet -> count inside (p_tasks w) = 0;
  inv_quiet : p_coord w = HQuiet -> count scheduled (p_tasks w) = 0;
}.

Lemma won_draining l : count won l <= count draining l.
Proof. apply count_le. by intros []. Qed.
Lemma passed_holds l : count passed l <= count holds l.
Proof. apply count_le. by intros []. Qed.
Lemma scheduled_holds l : count scheduled l <= count holds l.
Proof. apply count_le. by intros []. Qed.
Lemma inside_busy l : count inside l <= count busy l.
Proof. apply count_le. by intros []. Qed.

(** All counts when a task goes from [t] to [t']. *)
Lemma node_counts_insert l i t t' :
  l !! i = Some t ->
  let m (f : task -> bool) := count f (<[i := t']> l) + Nat.b2n (f t) = count f l + Nat.b2n (f t') in
  m holds /\ m busy /\ m passed /\ m draining /\ m won /\ m inside /\ m scheduled.
Proof. intros Hl m. split_and!; by apply count_insert. Qed.

Lemma node_inv_initial : inv initial.
Proof. split; simpl; try done; lia. Qed.

Lemma access_frame w t w' t' :
  access w t w' t' -> p_tasks w' = p_tasks w /\ p_coord w' = p_coord w /\ p_held w' = p_held w.
Proof. destruct 1; unfold exchange; repeat (case_decide || case_match); done. Qed.

(** A task's access keeps the slot and busy counts. *)
Lemma access_counts w t w' t' :
  access w t w' t' -> 0 < p_busy w \/ busy t = false ->
  p_slots w' + Nat.b2n (holds t') = p_slots w + Nat.b2n (holds t) /\
  p_busy w' + Nat.b2n (busy t) = p_busy w + Nat.b2n (busy t').
Proof.
  destruct 1; simpl; unfold exchange; intros Hb;
    repeat (case_match || case_decide); simplify_eq/=; lia || (destruct Hb; [lia|done]).
Qed.

(** The exchange of [TryEnterDraining] admits one task at a time, and the state
    stays closed to invocations while it is there. *)
Lemma access_draining w i t w' t' :
  inv w -> p_tasks w !! i = Some t -> access w t w' t' ->
  count draining (<[i := t']> (p_tasks w)) <= 1 /\
  (0 < count draining (<[i := t']> (p_tasks w)) -> Node.schedulable (p_state w') = false).
Proof.
  intros [_ _ Hd Hs _ _ _ _] Hi Hacc.
  pose proof (count_insert draining (p_tasks w) i t t' Hi) as Hc.
  destruct Hacc; simpl in *; unfold exchange in *; simpl in *;
    repeat (case_decide || case_match); simpl in *; simplify_eq/=;
    try (split; [lia|intros; apply Hs; lia]);
    try (split; [lia|intros; done || lia]).
  all: assert (Hz : ~ 0 < count draining (p_tasks w)) by (intros Hpos%Hs; congruence || (match goal with
    H : p_state _ = _ |- _ => rewrite H in Hpos; discriminate Hpos end)).
  all: split; [lia|intros; done || lia].
Qed.

(** No task passes the state gate once another one has won the drain. *)
Lemma access_won w i t w' t' :
  inv w -> p_tasks w !! i = Some t -> access w t w' t' ->
  0 < count won (<[i := t']> (p_tasks w)) -> count passed (<[i := t']> (p_tasks w)) = 0.
Proof.
  intros [Hsl _ Hd Hs Hw _ _ _] Hi Hacc.
  destruct (node_counts_insert (p_tasks w) i t t' Hi) as (_ & _ & Hp & _ & Hwc & _).
  pose proof (won_draining (p_tasks w)). pose proof (passed_holds (p_tasks w)).
  destruct Hacc; simpl in *; repeat (case_decide || case_match); simpl in *; simplify_eq/=;
    intros Hpos; try (specialize (Hw ltac:(lia)); lia); try lia.
  all: specialize (Hs ltac:(lia)); congruence.
Qed.

Lemma access_quiet w i t w' t' :
  inv w -> p_tasks w !! i = Some t -> access w t w' t' -> p_held w = true ->
  count inside (<[i := t']> (p_tasks w)) <= count inside (p_tasks w) /\
  count scheduled (<[i := t']> (p_tasks w)) <= count scheduled (p_tasks w).
Proof.
  intros _ Hi Hacc Hh.
  destruct (node_counts_insert (p_tasks w) i t t' Hi) as (_ & _ & _ & _ & _ & Hin & Hsc).
  destruct Hacc; simpl in *; repeat (case_decide || case_match); simpl in *; simplify_eq/=; lia || congruence.
Qed.

Lemma inv_task w i t w' t' :
  inv w -> p_tasks w !! i = Some t -> access w t w' t' -> inv (at_ i t' w').
Proof.
  intros Hinv Hi Hacc. destruct (access_frame _ _ _ _ Hacc) as (Ht & Hc & Hh).
  destruct (access_draining w i t w' t' Hinv Hi Hacc) as [Hd Hs].
  pose proof (access_won w i t w' t' Hinv Hi Hacc) as Hw.
  pose proof (access_quiet w i t w' t' Hinv Hi Hacc) as Hq.
  destruct Hinv as [Hsl Hb _ _ _ Hhe Hqb Hqs].
  destruct (node_counts_insert (p_tasks w) i t t' Hi) as (Hch & Hcb & _).
  assert (Hbt : 0 < p_busy w \/ busy t = false).
  { destruct (busy t) eqn:E; [left|by right]. rewrite Hb. by eapply count_lookup. }
  destruct (access_counts _ _ _ _ Hacc Hbt) as [Has Hab].
  split; simpl; rewrite ?Ht, ?Hc, ?Hh; try done; try lia.
  - intros Hco. assert (Hheld : p_held w = true) by (apply Hhe; by destruct Hco as [-> | ->]).
    destruct (Hq Hheld) as [Hq1 _]. specialize (Hqb Hco). lia.
  - intros Hco. assert (Hheld : p_held w = true) by (apply Hhe; by rewrite Hco).
    destruct (Hq Hheld) as [_ Hq2]. specialize (Hqs Hco). lia.
Qed.

Lemma node_inv_step w w' : inv w -> step w w' -> inv w'.
Proof.
  intros Hinv Hstep. destruct Hstep as [w i t w' t' Hi Hacc|w|w Hc|w Hc|w Hc|w Hc].
  - by eapply inv_task.
  - destruct Hinv. split; simpl; rewrite ?count_snoc; simpl; rewrite ?Nat.add_0_r; done.
  - destruct Hinv. split; simpl; try done; intros [|]; done.
  - destruct Hinv as [? Hb ? ? ? Hh ? ?]. pose proof (inside_busy (p_tasks w)).
    destruct (p_busy w) eqn:E; split; simpl; try done; try congruence;
      try (intros _; apply Hh; congruence); intros [|]; done || lia.
  - destruct Hinv as [Hs ? ? ? ? Hh Hq ?]. pose proof (scheduled_holds (p_tasks w)).
    destruct (decide (p_slots w = max)); split; simpl; try done;
      try (intros _; apply Hh; congruence); try (intros _; apply Hq; by left); try (intros; lia).
  - destruct Hinv. split; simpl; try done; intros [|]; done.
Qed.

Lemma node_inv_reachable w : reachable w -> inv w.
Proof.
  unfold reachable. intros Hr. remember initial as w0 eqn:E.
  assert (H0 : inv w0) by (subst; apply node_inv_initial). clear E.
  induction Hr as [|w1 w2 w3 Hs _ IH]; [done|]. eauto using node_inv_step.
Qed.
End protocol.

Lemma count_at_most_one {A} (f : A -> bool) l i j x y :
  count f l <= 1 -> l !! i = Some x -> l !! j = Some y -> f x = true -> f y = true -> i = j.
Proof.
  intros Hle Hi Hj Hx Hy. destruct (decide (i = j)) as [|Hne]; [done|].
  revert i j Hi Hj Hle Hne. induction l as [|z l IH]; intros [|i] [|j] Hi Hj Hle Hne; simpl in *; try done.
  - simplify_eq. rewrite Hx in Hle. pose proof (count_lookup f l j y Hj Hy). simpl in *. lia.
  - simplify_eq. rewrite Hy in Hle. pose proof (count_lookup f l i x Hi Hx). simpl in *. lia.
  - f_equal. apply (IH i j); try done; [lia|congruence].
Qed.

(** C13: Draining excludes invocations: while a task owns the flush/EOS/close
    sequence of a node (its [TryEnterDraining] returned true), no other task
    owns it, none is between the gates of [InvokeBody] and the return of its
    slot, and the state admits none; whatever the number of tasks and slots. *)
Theorem drain_excludes_invocations max w i :
  reachable max w -> p_tasks w !! i = Some DWon ->
  Node.schedulable (p_state w) = false /\
  forall j t, p_tasks w !! j = Some t -> passed t = false /\ (won t = true -> j = i).
Proof.
  intros Hr Hi. destruct (node_inv_reachable max w Hr) as [_ _ Hd Hs Hw _ _ _].
  assert (Hd0 : 0 < count draining (p_tasks w)) by by eapply count_lookup.
  assert (Hw0 : 0 < count won (p_tasks w)) by by eapply count_lookup.
  split; [by apply Hs|]. intros j t Hj. split.
  - destruct (passed t) eqn:E; [|done]. pose proof (count_lookup passed _ _ _ Hj E).
    specialize (Hw Hw0). lia.
  - intros Ht. eapply (count_at_most_one draining); eauto. by destruct t.
Qed.

(** Holding quiesces: after [Hold] and a successful [quiescent] check, until
    [Release], no task is inside the body of an invocation of the node (the
    flush and close of a drain included) and none is scheduled, so the
    coordinator may rebind the node's edges. *)
Theorem hold_quiesces max w :
  reachable max w -> p_coord w = HQuiet ->
  forall j t, p_tasks w !! j = Some t -> inside t = false /\ scheduled t = false.
Proof.
  intros Hr Hc j t Hj. destruct (node_inv_reachable max w Hr) as [_ _ _ _ _ _ Hb Hq].
  specialize (Hb (or_intror Hc)). specialize (Hq Hc). split.
  - destruct (inside t) eqn:E; [|done]. pose proof (count_lookup inside _ _ _ Hj E). lia.
  - destruct (scheduled t) eqn:E; [|done]. pose proof (count_lookup scheduled _ _ _ Hj E). lia.
Qed.

(** ** Runs *)

Ltac task_step i c := eapply rtc_l; [eapply (step_task _ _ i); [reflexivity|apply c]|]; simpl.

(** A task that reached the end of its input wins the drain of an idle node. *)
Definition drained_world : world := MkWorld kNodeDraining 1 0 1 false [DWon] HIdle.

Lemma drained_reachable : reachable 1 drained_world.
Proof.
  unfold reachable, initial. eapply rtc_l; [apply step_mark_ready|]. simpl.
  task_step 0 a_state. task_step 0 a_held. task_step 0 a_slots.
  eapply rtc_l; [eapply (step_task _ _ 0); [reflexivity|by apply a_reserve]|]; simpl.
  task_step 0 a_recheck. task_step 0 a_enter. task_step 0 a_bstate. task_step 0 a_bheld.
  task_step 0 a_nothing. task_step 0 a_cancel. task_step 0 a_drain. task_step 0 a_dflight.
  task_step 0 a_dslots. task_step 0 a_dexchange. task_step 0 a_drecheck. apply rtc_refl.
Qed.

Lemma drain_excludes_invocations_witness :
  Node.schedulable (p_state drained_world) = false /\
  forall j t, p_tasks drained_world !! j = Some t -> passed t = false /\ (won t = true -> j = 0).
Proof. apply (drain_excludes_invocations 1); [apply drained_reachable|done]. Defined.

Definition quiet_world : world := MkWorld kReady 1 0 0 true [Done] HQuiet.

Lemma quiet_reachable : reachable 1 quiet_world.
Proof.
  unfold reachable, initial. eapply rtc_l; [apply step_mark_ready|]. simpl.
  task_step 0 a_state.
  eapply rtc_l; [by apply step_hold|]; simpl.
  task_step 0 a_held.
  eapply rtc_l; [by apply step_busy|]; simpl.
  eapply rtc_l; [by apply step_slots|]; simpl. apply rtc_refl.
Qed.

Lemma hold_quiesces_witness :
  p_tasks quiet_world !! 0 = Some Done /\ inside Done = false /\ scheduled Done = false.
Proof. split; [done|]. by apply (hold_quiesces 1 quiet_world quiet_reachable eq_refl 0). Defined.

(** ** A missed drain

    The exchange to draining is visible before it is confirmed.  A second task
    that reserved a slot just before it is turned away by the state gate and
    returns its slot, while the first task, having seen the slot taken, undoes
    the exchange and gives up.  Both return and nothing re-marks the node: its
    state is ready, every slot is free and no end-of-stream marker is sent. *)

(** The first task, at the end of its turn with its input at end of stream. *)
Definition ending_world : world := MkWorld kReady 1 0 1 false [DFlight] HIdle.

Lemma drain_missed :
  rtc (step 1) ending_world (MkWorld kReady 1 0 0 false [Done; Done] HIdle).
Proof.
  unfold ending_world. task_step 0 a_dflight. task_step 0 a_dslots.
  eapply rtc_l; [apply step_mark_ready|]. simpl.
  task_step 1 a_state. task_step 1 a_held. task_step 1 a_slots.
  eapply rtc_l; [eapply (step_task _ _ 1); [reflexivity|by apply a_reserve]|]; simpl.
  task_step 1 a_recheck. task_step 1 a_enter.
  task_step 0 a_dexchange.
  task_step 1 a_bstate.
  task_step 0 a_drecheck. task_step 0 a_dundo. task_step 0 a_exit.
  task_step 1 a_turned_away. task_step 1 a_exit. apply rtc_refl.
Qed.

