(* ===== verification/ResourceLedger.v ===== *)
(** Resource accounting (include/ge/cpp/resource_ledger.h,
    src/resource_ledger.cpp): capacities and reservations per resource and
    device, leases, and the estimates a graph is admitted with.

    Every ledger method runs under [mutex_] and is one operation here.  The
    hardware queries of [DefaultCapacities] are arguments. *)

From stdpp Require Import base numbers list strings.
From Stdlib Require Import ZArith Lia Ascii String.
From S2P Require Import Prelude Types Double Json GraphSpec CapabilityTypes.

Local Open Scope string_scope.
Local Open Scope Z_scope.

(** ** Names *)

Inductive ResourceKind : Type :=
| kCpuThreads
| kHostMemory
| kPinnedMemory
| kGpuMemory
| kCudaStreams
| kNvdecSessions
| kNvencSessions
| kEdgeBufferBytes.
#[export] Instance ResourceKind_eq_dec : EqDecision ResourceKind.
Proof. solve_decision. Defined.

Definition kind_index (k : ResourceKind) : Z :=
  match k with
  | kCpuThreads => 0 | kHostMemory => 1 | kPinnedMemory => 2 | kGpuMemory => 3
  | kCudaStreams => 4 | kNvdecSessions => 5 | kNvencSessions => 6 | kEdgeBufferBytes => 7
  end.

#[export] Instance ResourceKind_key_lt : KeyLt ResourceKind := fun a b => kind_index a <? kind_index b.
#[export] Instance ResourceKind_key_order : KeyOrder ResourceKind.
Proof.
  split; unfold key_ltb, ResourceKind_key_lt.
  - intros []; done.
  - intros a b c. rewrite !Z.ltb_lt. lia.
  - intros [] []; done.
Qed.

Definition ResourceKind_ToString (k : ResourceKind) : string :=
  match k with
  | kCpuThreads => "cpu_threads"
  | kHostMemory => "host_memory"
  | kPinnedMemory => "pinned_memory"
  | kGpuMemory => "gpu_memory"
  | kCudaStreams => "cuda_streams"
  | kNvdecSessions => "nvdec_sessions"
  | kNvencSessions => "nvenc_sessions"
  | kEdgeBufferBytes => "edge_buffer_bytes"
  end.

(** [name.substr(name.size() - 6) == "_bytes"]: the name without the suffix. *)
Fixpoint strip_bytes (s : string) : option string :=
  match s with
  | EmptyString => None
  | String c s' =>
      if decide (s = "_bytes") then Some "" else option_map (String c) (strip_bytes s')
  end.

Definition ParseResourceKind (name : string) : option ResourceKind :=
  let name :=
    match strip_bytes name with
    | Some n => if negb (Str.empty n) && negb (bool_decide (name = "edge_buffer_bytes")) then n else name
    | None => name
    end in
  if decide (name = "cpu_threads") then Some kCpuThreads
  else if decide (name = "host_memory") then Some kHostMemory
  else if decide (name = "pinned_memory") then Some kPinnedMemory
  else if decide (name = "gpu_memory") then Some kGpuMemory
  else if decide (name = "cuda_streams") then Some kCudaStreams
  else if decide (name = "nvdec_sessions") then Some kNvdecSessions
  else if decide (name = "nvenc_sessions") then Some kNvencSessions
  else if decide (name = "edge_buffer_bytes") then Some kEdgeBufferBytes
  else if decide (name = "edge_buffer") then Some kEdgeBufferBytes
  else None.

Definition IsPerDevice (k : ResourceKind) : bool :=
  match k with
  | kGpuMemory | kCudaStreams | kNvdecSessions | kNvencSessions => true
  | _ => false
  end.

(** ** Amounts *)

Record ResourceAmount : Type := MkAmount { ra_kind : ResourceKind; ra_device : Z; ra_amount : Z }.
#[export] Instance ResourceAmount_eq_dec : EqDecision ResourceAmount.
Proof. solve_decision. Defined.

(** [ResourceLedger::Key] *)
Definition key : Type := (ResourceKind * Z)%type.
Definition ra_key (a : ResourceAmount) : key := (ra_kind a, ra_device a).

(** The comparison given to [std::sort]. *)
Fixpoint insert_sorted (a : ResourceAmount) (l : list ResourceAmount) : list ResourceAmount :=
  match l with
  | [] => [a]
  | b :: l' => if key_ltb (ra_key b) (ra_key a) then b :: insert_sorted a l' else a :: l
  end.
Definition sort_amounts (l : list ResourceAmount) : list ResourceAmount := foldr insert_sorted [] l.

(** The loop of [MergeAmounts]; [out] holds the vector back to front. *)
Fixpoint merge_loop (l out : list ResourceAmount) : list ResourceAmount :=
  match l with
  | [] => rev out
  | a :: l' =>
      if ra_amount a =? 0 then merge_loop l' out
      else
        match out with
        | b :: out' =>
            if decide (ra_key b = ra_key a)
            then merge_loop l' (MkAmount (ra_kind b) (ra_device b) (Word.u64 (ra_amount b + ra_amount a)) :: out')
            else merge_loop l' (a :: out)
        | [] => merge_loop l' [a]
        end
  end.

Definition MergeAmounts (l : list ResourceAmount) : list ResourceAmount := merge_loop (sort_amounts l) [].

Record ResourceUsage : Type := MkUsage {
  ru_kind : ResourceKind;
  ru_device : Z;
  ru_capacity : Z;
  ru_reserved : Z;
  ru_peak : Z;
}.

(** [static_cast<std::int64_t>] of an unsigned count *)
Definition jcount (z : Z) : json := JInteger (Word.i64 z).

Module Usage.
Definition available (u : ResourceUsage) : Z :=
  if ru_capacity u >? ru_reserved u then ru_capacity u - ru_reserved u else 0.
Definition ToJson (u : ResourceUsage) : json :=
  Json.obj [("kind", JString (ResourceKind_ToString (ru_kind u)));
            ("device_id", JInteger (ru_device u));
            ("capacity", jcount (ru_capacity u));
            ("reserved", jcount (ru_reserved u));
            ("available", jcount (available u));
            ("peak", jcount (ru_peak u))].
End Usage.

(** ** The ledger *)

Record Account : Type := MkAccount { acc_capacity : option Z; acc_reserved : Z; acc_peak : Z }.

Record ResourceLedger : Type := MkLedger {
  accounts_ : list (key * Account);
  next_lease_ : Z;
  live_leases_ : Z;
}.

(** A lease bound to the ledger; [lease_active] is [ledger_ != nullptr]. *)
Record ResourceLease : Type := MkLease {
  lease_active : bool;
  lease_id : Z;
  lease_owner : Z;
  lease_amounts : list ResourceAmount;
}.

Module Ledger.

Definition empty_account : Account := MkAccount None 0 0.
Definition account (k : key) (g : ResourceLedger) : Account := default empty_account (SMap.find k (accounts_ g)).
Definition set_account (k : key) (a : Account) (g : ResourceLedger) : ResourceLedger :=
  MkLedger (SMap.set k a (accounts_ g)) (next_lease_ g) (live_leases_ g).

Definition empty : ResourceLedger := MkLedger [] 1 0.

Definition SetCapacity (k : key) (c : Z) (g : ResourceLedger) : ResourceLedger :=
  let a := account k g in set_account k (MkAccount (Some c) (acc_reserved a) (acc_peak a)) g.

Definition make (l : list (key * Z)) : ResourceLedger :=
  fold_left (fun g kc => SetCapacity kc.1 kc.2 g) l empty.

Definition Capacity (k : key) (g : ResourceLedger) : option Z :=
  match SMap.find k (accounts_ g) with Some a => acc_capacity a | None => None end.

(** What an account with a capacity still has to give. *)
Definition available (a : Account) (c : Z) : Z :=
  if c >? acc_reserved a then c - acc_reserved a else 0.

(** The entry of [short_list] for one amount, when it does not fit. *)
Definition shortfall (g : ResourceLedger) (a : ResourceAmount) : option (Account * Z) :=
  match SMap.find (ra_key a) (accounts_ g) with
  | Some acc =>
      match acc_capacity acc with
      | Some c => if ra_amount a <=? available acc c then None else Some (acc, c)
      | None => None
      end
  | None => None
  end.

Definition short_entry (a : ResourceAmount) (acc : Account) (c : Z) : json :=
  Json.obj [("kind", JString (ResourceKind_ToString (ra_kind a)));
            ("device_id", JInteger (ra_device a));
            ("requested", jcount (ra_amount a));
            ("reserved", jcount (acc_reserved acc));
            ("capacity", jcount c);
            ("available", jcount (available acc c))].

Definition short_list (g : ResourceLedger) (l : list ResourceAmount) : list json :=
  omap (fun a => (fun x => short_entry a x.1 x.2) <$> shortfall g a) l.

Definition exhausted (first : ResourceAmount) (acc : Account) (c : Z) (short : list json) (purpose : string) : Status :=
  let msg :=
    "insufficient resources" ++ (if Str.empty purpose then "" else " for " ++ purpose) ++
    ": " ++ ResourceKind_ToString (ra_kind first) ++ " requested " ++
    Dec.to_string (Word.i64 (ra_amount first)) ++ ", available " ++
    Dec.to_string (Word.i64 (available acc c)) in
  let ctx :=
    Json.obj ([("short", JArray short); ("retry_after_release", JBool true)] ++
              (if Str.empty purpose then [] else [("purpose", JString purpose)]))%list in
  StatusOps.ResourceExhausted msg (Json.Serialize ctx).

(** The first amount that does not fit. *)
Fixpoint first_short (g : ResourceLedger) (l : list ResourceAmount) : option (ResourceAmount * Account * Z) :=
  match l with
  | [] => None
  | a :: l' =>
      match shortfall g a with Some (acc, c) => Some (a, acc, c) | None => first_short g l' end
  end.

(** Pass 2 of [TryReserveLocked], for one amount. *)
Definition reserve_one (g : ResourceLedger) (a : ResourceAmount) : ResourceLedger :=
  let acc := account (ra_key a) g in
  let r := Word.u64 (acc_reserved acc + ra_amount a) in
  set_account (ra_key a) (MkAccount (acc_capacity acc) r (Z.max (acc_peak acc) r)) g.

Definition TryReserveLocked (l : list ResourceAmount) (purpose : string) (g : ResourceLedger)
    : Status * ResourceLedger :=
  match first_short g l with
  | Some (a, acc, c) => (exhausted a acc c (short_list g l) purpose, g)
  | None => (StatusOps.Ok, fold_left reserve_one l g)
  end.

Definition release_one (g : ResourceLedger) (a : ResourceAmount) : ResourceLedger :=
  match SMap.find (ra_key a) (accounts_ g) with
  | None => g
  | Some acc =>
      set_account (ra_key a)
        (MkAccount (acc_capacity acc)
           (if acc_reserved acc >? ra_amount a then acc_reserved acc - ra_amount a else 0) (acc_peak acc)) g
  end.

Definition ReleaseLocked (l : list ResourceAmount) (g : ResourceLedger) : ResourceLedger :=
  fold_left release_one l g.

Definition Reserve (owner : Z) (l : list ResourceAmount) (purpose : string) (g : ResourceLedger)
    : Result ResourceLease * ResourceLedger :=
  let l := MergeAmounts l in
  let '(s, g) := TryReserveLocked l purpose g in
  if StatusOps.ok s then
    (Value (MkLease true (next_lease_ g) owner l),
     MkLedger (accounts_ g) (Word.u64 (next_lease_ g + 1)) (Word.u64 (live_leases_ g + 1)))
  else (ResultOps.of_status s, g).

Definition ReleaseLease (l : list ResourceAmount) (g : ResourceLedger) : ResourceLedger :=
  let g := ReleaseLocked l g in
  MkLedger (accounts_ g) (next_lease_ g) (if live_leases_ g >? 0 then live_leases_ g - 1 else live_leases_ g).

Definition amount_at (k : key) (l : list ResourceAmount) : option Z :=
  ra_amount <$> List.find (fun c => bool_decide (ra_key c = k)) l.

(** The growth and the shrinkage of a commit. *)
Definition growth (current actual : list ResourceAmount) : list ResourceAmount :=
  omap (fun a =>
    let have := default 0 (amount_at (ra_key a) current) in
    if ra_amount a >? have then Some (MkAmount (ra_kind a) (ra_device a) (ra_amount a - have)) else None) actual.
Definition shrinkage (current actual : list ResourceAmount) : list ResourceAmount :=
  (omap (fun a =>
    let have := default 0 (amount_at (ra_key a) current) in
    if ra_amount a <? have then Some (MkAmount (ra_kind a) (ra_device a) (have - ra_amount a)) else None) actual ++
   List.filter (fun c => negb (existsb (fun a => bool_decide (ra_key a = ra_key c)) actual)) current)%list.

(** The status, the amounts the lease holds afterwards and the ledger. *)
Definition CommitLease (current actual : list ResourceAmount) (purpose : string) (g : ResourceLedger)
    : Status * list ResourceAmount * ResourceLedger :=
  let actual := MergeAmounts actual in
  let '(s, g) := TryReserveLocked (growth current actual) purpose g in
  if StatusOps.ok s then (StatusOps.Ok, actual, ReleaseLocked (shrinkage current actual) g)
  else (s, current, g).

(** [ResourceLease::Release] and [ResourceLease::Commit] *)
Definition Release (x : ResourceLease) (g : ResourceLedger) : ResourceLease * ResourceLedger :=
  if lease_active x
  then (MkLease false (lease_id x) (lease_owner x) [], ReleaseLease (lease_amounts x) g)
  else (x, g).

Definition Commit (x : ResourceLease) (actual : list ResourceAmount) (purpose : string) (g : ResourceLedger)
    : Status * ResourceLease * ResourceLedger :=
  if lease_active x then
    let '(s, l, g) := CommitLease (lease_amounts x) actual purpose g in
    (s, MkLease true (lease_id x) (lease_owner x) l, g)
  else (StatusOps.InvalidArgument "lease is not active", x, g).

Definition UsageOf (k : key) (g : ResourceLedger) : ResourceUsage :=
  match SMap.find k (accounts_ g) with
  | Some a => MkUsage k.1 k.2 (default 0 (acc_capacity a)) (acc_reserved a) (acc_peak a)
  | None => MkUsage k.1 k.2 0 0 0
  end.

Definition Usage (g : ResourceLedger) : list ResourceUsage :=
  map (fun ka => MkUsage ka.1.1 ka.1.2 (default 0 (acc_capacity ka.2)) (acc_reserved ka.2) (acc_peak ka.2))
    (accounts_ g).

Definition Snapshot (g : ResourceLedger) : json :=
  Json.obj [("resources", JArray (map Usage.ToJson (Usage g))); ("live_leases", jcount (live_leases_ g))].

(** [hardware_concurrency()] and the physical memory are arguments. *)
Definition DefaultCapacities (cpu_threads concurrency : Z) (memory : option Z) : list (key * Z) :=
  let threads := if cpu_threads =? 0 then Z.max 1 concurrency else cpu_threads in
  ((kCpuThreads, -1), threads) ::
  match memory with
  | Some m => [((kHostMemory, -1), m); ((kEdgeBufferBytes, -1), m / 2)]
  | None => []
  end.

End Ledger.

(** ** Estimates *)

Definition one_of (s : string) (l : list string) : bool := existsb (fun x => bool_decide (s = x)) l.

Definition BitsPerPixel (fmt : string) : option Z :=
  if one_of fmt ["yuv420p"; "nv12"; "nv21"; "yuvj420p"] then Some 12
  else if one_of fmt ["yuv420p10le"; "p010le"; "p010"] then Some 24
  else if one_of fmt ["yuv422p"; "nv16"; "uyvy422"; "yuyv422"] then Some 16
  else if one_of fmt ["yuv422p10le"] then Some 32
  else if one_of fmt ["yuv444p"; "rgb24"; "bgr24"] then Some 24
  else if one_of fmt ["yuv444p10le"] then Some 48
  else if one_of fmt ["rgba"; "bgra"; "argb"; "abgr"; "rgb0"; "bgr0"] then Some 32
  else if one_of fmt ["gray"; "gray8"] then Some 8
  else if one_of fmt ["gray16le"] then Some 16
  else None.

Definition DTypeBytes (dtype : string) : option Z :=
  if one_of dtype ["float32"; "int32"; "uint32"] then Some 4
  else if one_of dtype ["float16"; "bfloat16"; "int16"; "uint16"] then Some 2
  else if one_of dtype ["int8"; "uint8"; "bool"] then Some 1
  else if one_of dtype ["float64"; "int64"; "uint64"] then Some 8
  else None.

(** The loop over the shape; a dimension without a bound is unknown. *)
Fixpoint element_count (shape : list IntRange) (count : Z) : option Z :=
  match shape with
  | [] => Some count
  | d :: l => if rmax d <=? 0 then None else element_count l (Word.u64 (count * rmax d))
  end.

Definition EstimatePacketBytes (c : ConnectionContract) : option Z :=
  match cc_video c with
  | Some v =>
      match BitsPerPixel (sv_pixel_format v), sv_width v, sv_height v with
      | Some bpp, Some w, Some h =>
          if (rmax w <=? 0) || (rmax h <=? 0) then None
          else Some (Word.u64 (Word.u64 (rmax w * rmax h) * bpp) / 8)
      | _, _, _ => None
      end
  | None =>
      match cc_tensor c with
      | Some t =>
          match DTypeBytes (st_dtype t), st_shape t with
          | Some elem, _ :: _ => (fun n => Word.u64 (n * elem)) <$> element_count (st_shape t) 1
          | _, _ => None
          end
      | None => None
      end
  end.

(** [key.rfind('@')]: the parts around the last occurrence. *)
Fixpoint rsplit_at (s : string) : option (string * string) :=
  match s with
  | EmptyString => None
  | String c s' =>
      match rsplit_at s' with
      | Some (a, b) => Some (String c a, b)
      | None => if Ascii.eqb c "@" then Some ("", s') else None
      end
  end.

(** [std::from_chars] into an [int]: an optional minus sign and the longest run
    of digits; nothing read or a value out of range is an error. *)
Definition from_chars_int (s : string) : option Z :=
  let '(neg, s) := match s with String "-" s' => (true, s') | _ => (false, s) end in
  let '(v, n, _) := Dec.read s 0 0 in
  let v := if neg then - v else v in
  if (n =? 0)%nat then None
  else if (- 2 ^ 31 <=? v) && (v <? 2 ^ 31) then Some v else None.

(** One entry of [resources.amounts]. *)
Definition node_amount (default_device : Z) (name : string) (value : Z) : option ResourceAmount :=
  if value <=? 0 then None
  else
    let '(name, device) :=
      match rsplit_at name with
      | Some (before, tail) =>
          match from_chars_int tail with Some d => (before, d) | None => (name, -1) end
      | None => (name, -1)
      end in
    match ParseResourceKind name with
    | None => None
    | Some k =>
        let device :=
          if IsPerDevice k then (if device <? 0 then default_device else device) else -1 in
        Some (MkAmount k device value)
    end.

Definition EstimateNodeResources (cap : CapabilityDescriptor) : list ResourceAmount :=
  let default_device :=
    if existsb (fun d => negb (bool_decide (d = kDevCpu))) (xc_devices (cd_execution cap)) then 0 else -1 in
  MergeAmounts (omap (fun nv => node_amount default_device nv.1 nv.2) (cd_resources cap)).

Record GraphResourceEstimate : Type := MkEstimate {
  est_amounts : list ResourceAmount;
  unbudgeted_edges : list string;
}.

Module Estimate.
Definition ToJson (e : GraphResourceEstimate) : json :=
  Json.obj
    [("amounts", JArray (map (fun a =>
        Json.obj [("kind", JString (ResourceKind_ToString (ra_kind a)));
                  ("device_id", JInteger (ra_device a));
                  ("amount", jcount (ra_amount a))]) (est_amounts e)));
     ("unbudgeted_edges", JArray (map JString (unbudgeted_edges e)))].

Definition wanted (only : list string) (id : string) : bool :=
  match only with [] => true | _ => one_of id only end.

(** The bytes one packet on the edge may take. *)
Definition per_packet (contracts : list (string * ConnectionContract)) (e : EdgeSpec) : option Z :=
  match q_max_packet_bytes (es_queue e) with
  | Some b => Some b
  | None => match SMap.find (es_id e) contracts with Some c => EstimatePacketBytes c | None => None end
  end.

Definition EstimateGraphResources (spec : GraphSpec) (contracts : list (string * ConnectionContract))
    (estimate : OperatorKey -> json -> list ResourceAmount) (only_nodes only_edges : list string)
    : GraphResourceEstimate :=
  let nodes := List.filter (fun n => wanted only_nodes (ns_id n)) (nodes_ spec) in
  let edges := List.filter (fun e => wanted only_edges (es_id e)) (edges_ spec) in
  let node_amounts := List.concat (map (fun n => estimate (ns_op n) (ns_options n)) nodes) in
  let edge_amounts :=
    omap (fun e => (fun b => MkAmount kEdgeBufferBytes (-1) (Word.u64 (b * q_capacity (es_queue e))))
                   <$> per_packet contracts e) edges in
  MkEstimate (MergeAmounts (node_amounts ++ edge_amounts))
    (map es_id (List.filter (fun e => negb (has (per_packet contracts e))) edges)).

(** The overload over static descriptors. *)
Definition EstimateStatic (spec : GraphSpec) (contracts : list (string * ConnectionContract))
    (describe : OperatorKey -> option CapabilityDescriptor) (only_nodes only_edges : list string)
    : GraphResourceEstimate :=
  EstimateGraphResources spec contracts
    (fun k _ => match describe k with Some cap => EstimateNodeResources cap | None => [] end)
    only_nodes only_edges.
End Estimate.
