(* ===== verification/ResourceLedgerProofs.v ===== *)
(** The ledger is exact: what is reserved is what the live leases hold, within
    the capacities; refusals change nothing and report every short dimension. *)

From stdpp Require Import base numbers list strings sorting sets.
From Stdlib Require Import ZArith Lia Ascii String.
From S2P Require Import Prelude Types Double Json GraphSpec CapabilityTypes ResourceLedger.

Local Open Scope Z_scope.
Local Open Scope list_scope.

(** ** Amounts per key *)

Definition held (k : key) (l : list ResourceAmount) : Z :=
  foldr (fun a n => (if decide (ra_key a = k) then ra_amount a else 0) + n) 0 l.
#[global] Arguments held : simpl never.

Definition in_range (a : ResourceAmount) : Prop := Word.is_u64 (ra_amount a).

Lemma held_app k l1 l2 : held k (l1 ++ l2) = held k l1 + held k l2.
Proof. unfold held. induction l1 as [|a l1 IH]; simpl; [done|]. rewrite IH. lia. Qed.

Lemma held_Permutation k l1 l2 : l1 ≡ₚ l2 -> held k l1 = held k l2.
Proof. unfold held. induction 1; simpl; lia. Qed.

Lemma held_nonneg k l : Forall in_range l -> 0 <= held k l.
Proof.
  unfold held. induction 1 as [|a l Ha _ IH]; simpl; [lia|]. unfold in_range, Word.is_u64 in Ha. case_decide; lia.
Qed.

Lemma held_not_in k l : k ∉ map ra_key l -> held k l = 0.
Proof.
  unfold held. induction l as [|a l IH]; simpl; [done|]. intros Hk. rewrite IH by set_solver.
  rewrite decide_False; [done|]. set_solver.
Qed.

Lemma held_unique l a : NoDup (map ra_key l) -> a ∈ l -> held (ra_key a) l = ra_amount a.
Proof.
  induction l as [|b l IH]; intros Hnd Ha; [set_solver|]. apply NoDup_cons in Hnd as [Hb Hnd].
  unfold held. simpl. fold (held (ra_key a) l). apply elem_of_cons in Ha as [->|Ha].
  - rewrite decide_True by done. rewrite held_not_in by done. lia.
  - rewrite decide_False; [by rewrite IH|]. intros Heq. apply Hb. rewrite Heq. by apply list_elem_of_fmap_2.
Qed.

Lemma held_range k l : NoDup (map ra_key l) -> Forall in_range l -> Word.is_u64 (held k l).
Proof.
  intros Hnd Hr. destruct (decide (k ∈ map ra_key l)) as [Hk|Hk].
  - apply list_elem_of_fmap in Hk as (a & -> & Ha). rewrite held_unique by done.
    rewrite Forall_forall in Hr. by apply Hr.
  - rewrite held_not_in by done. unfold Word.is_u64. lia.
Qed.

(** ** MergeAmounts *)

Definition key_le (a b : ResourceAmount) : Prop := key_ltb (ra_key b) (ra_key a) = false.
Definition strictly (a b : ResourceAmount) : Prop := key_ltb (ra_key a) (ra_key b) = true.

Lemma strictly_irrefl a : ~ strictly a a.
Proof. unfold strictly. by rewrite key_ltb_irrefl. Qed.

Lemma key_le_strict a b : key_le a b -> ra_key a <> ra_key b -> strictly a b.
Proof.
  unfold key_le, strictly. intros H1 H2. destruct (key_ltb (ra_key a) (ra_key b)) eqn:E; [done|].
  by destruct (key_ltb_total (ra_key a) (ra_key b)).
Qed.

Lemma strictly_key_le a b : strictly a b -> key_le a b.
Proof.
  unfold strictly, key_le. intros H. destruct (key_ltb (ra_key b) (ra_key a)) eqn:E; [|done].
  pose proof (key_ltb_trans _ _ _ H E) as Hc. by rewrite key_ltb_irrefl in Hc.
Qed.

#[local] Instance key_le_trans : Transitive key_le.
Proof.
  intros a b c Hab Hbc. destruct (decide (ra_key a = ra_key b)) as [Heq|Hne].
  - unfold key_le in *. by rewrite Heq.
  - destruct (decide (ra_key b = ra_key c)) as [Heq'|Hne']; [unfold key_le in *; by rewrite <- Heq'|].
    apply strictly_key_le. unfold strictly. eapply key_ltb_trans; by apply key_le_strict.
Qed.

Lemma insert_sorted_perm a l : insert_sorted a l ≡ₚ a :: l.
Proof.
  induction l as [|b l IH]; simpl; [done|]. destruct (key_ltb _ _); [|done].
  rewrite IH. by constructor.
Qed.

Lemma sort_perm l : sort_amounts l ≡ₚ l.
Proof. induction l as [|a l IH]; simpl; [done|]. by rewrite insert_sorted_perm, IH. Qed.

Lemma insert_sorted_ok a l : StronglySorted key_le l -> StronglySorted key_le (insert_sorted a l).
Proof.
  induction l as [|b l IH]; intros Hs; simpl; [repeat constructor|].
  apply StronglySorted_inv in Hs as [Hs Hf]. destruct (key_ltb (ra_key b) (ra_key a)) eqn:E.
  - constructor; [by apply IH|]. rewrite insert_sorted_perm. constructor; [|done]. by apply strictly_key_le.
  - constructor; [by constructor|]. constructor; [done|]. eapply Forall_impl; [exact Hf|].
    intros c Hc. by transitivity b.
Qed.

Lemma sort_sorted l : StronglySorted key_le (sort_amounts l).
Proof. induction l as [|a l IH]; simpl; [constructor|by apply insert_sorted_ok]. Qed.

(** What the loop produces: strictly increasing keys. *)
Lemma merge_loop_sorted l : forall out,
  StronglySorted key_le l -> StronglySorted strictly (rev out) ->
  (forall a b, a ∈ out -> b ∈ l -> key_le a b) ->
  StronglySorted strictly (merge_loop l out).
Proof.
  induction l as [|a l IH]; intros out Hl Ho Hx; simpl; [done|]. apply StronglySorted_inv in Hl as [Hl Hf].
  rewrite Forall_forall in Hf.
  destruct (ra_amount a =? 0); [apply IH; try done; intros; apply Hx; set_solver|].
  destruct out as [|b out].
  - apply IH; [done|repeat constructor|]. intros x y ->%list_elem_of_singleton Hy. by apply Hf.
  - case_decide as Hk.
    + set (b' := MkAmount _ _ _). apply IH; [done| |].
      * simpl in *. revert Ho. generalize (rev out). intros r Hr.
        apply StronglySorted_app in Hr as (H1 & H2 & H3). apply StronglySorted_app. split; [|split]; [|done|repeat constructor].
        intros x y Hx' ->%list_elem_of_singleton. unfold strictly. change (ra_key b') with (ra_key b).
        apply H1; [done|set_solver].
      * intros x y [->|Hin]%elem_of_cons Hy; [|apply Hx; set_solver].
        unfold key_le. change (ra_key b') with (ra_key b). apply Hx; set_solver.
    + apply IH; [done| |].
      * simpl in *. apply StronglySorted_app. split; [|split]; [|done|repeat constructor].
        intros x y Hin ->%list_elem_of_singleton.
        assert (Hba : strictly b a) by (apply key_le_strict; [apply Hx; set_solver|done]).
        apply elem_of_app in Hin as [Hin| ->%list_elem_of_singleton]; [|done].
        apply StronglySorted_app in Ho as (H1 & _ & _). unfold strictly in *. eapply key_ltb_trans; [|exact Hba].
        apply H1; [done|set_solver].
      * intros x y [->|Hin]%elem_of_cons Hy; [by apply Hf|]. apply Hx; [done|by right].
Qed.

Lemma u64_eq_add a b c : Word.u64 a = Word.u64 b -> Word.u64 (a + c) = Word.u64 (b + c).
Proof. unfold Word.u64. intros H. by rewrite <- Zplus_mod_idemp_l, H, Zplus_mod_idemp_l. Qed.

Lemma u64_u64 a : Word.u64 (Word.u64 a) = Word.u64 a.
Proof. unfold Word.u64. apply Zmod_mod. Qed.

Lemma held_cons k a l : held k (a :: l) = (if decide (ra_key a = k) then ra_amount a else 0) + held k l.
Proof. done. Qed.

Lemma merge_loop_held k l : forall out,
  Word.u64 (held k (merge_loop l out)) = Word.u64 (held k out + held k l).
Proof.
  induction l as [|a l IH]; intros out; simpl.
  - rewrite (held_Permutation k (rev out) out); [f_equal; change (held k []) with 0; lia|]. symmetry. apply Permutation_rev.
  - destruct (Z.eqb_spec (ra_amount a) 0) as [H0|H0].
    + rewrite IH, held_cons, H0. f_equal. case_decide; lia.
    + destruct out as [|b out]; [rewrite IH, !held_cons; f_equal; unfold held; simpl; lia|].
      case_decide as Hk.
      * rewrite IH, !held_cons. change (ra_key (MkAmount _ _ _)) with (ra_key b). simpl (ra_amount _). rewrite Hk.
        case_decide; [|f_equal; lia].
        rewrite <- Z.add_assoc. rewrite (u64_eq_add _ _ _ (u64_u64 (ra_amount b + ra_amount a))). f_equal. lia.
      * rewrite IH, !held_cons. f_equal. lia.
Qed.

Lemma merge_loop_range l : forall out,
  Forall in_range l -> Forall in_range out -> Forall in_range (merge_loop l out).
Proof.
  induction l as [|a l IH]; intros out Hl Ho; simpl; [by apply Forall_rev|].
  apply Forall_cons in Hl as [Ha Hl]. destruct (ra_amount a =? 0); [by apply IH|].
  destruct out as [|b out]; [apply IH; [done|by constructor]|]. apply Forall_cons in Ho as [Hb Ho].
  case_decide; apply IH; try done; [|constructor; [done|by constructor]].
  constructor; [|done]. unfold in_range. simpl. apply Word.u64_range.
Qed.

Lemma strictly_NoDup l : StronglySorted strictly l -> NoDup (map ra_key l).
Proof.
  induction 1 as [|a l _ IH Hf]; simpl; constructor; [|done].
  intros (b & Heq & Hb)%list_elem_of_fmap. rewrite Forall_forall in Hf. specialize (Hf b Hb).
  unfold strictly in Hf. rewrite Heq, key_ltb_irrefl in Hf. done.
Qed.

Lemma Merge_NoDup l : NoDup (map ra_key (MergeAmounts l)).
Proof.
  apply strictly_NoDup. apply merge_loop_sorted; [apply sort_sorted|constructor|]. set_solver.
Qed.

Lemma Merge_range l : Forall in_range l -> Forall in_range (MergeAmounts l).
Proof. intros Hl. apply merge_loop_range; [by rewrite sort_perm|constructor]. Qed.

(** The merged list holds each key once, with the 64-bit sum of its amounts. *)
Lemma Merge_held k l : Forall in_range l -> held k (MergeAmounts l) = Word.u64 (held k l).
Proof.
  intros Hl. rewrite <- (Word.u64_small (held k (MergeAmounts l)))
    by (apply held_range; [apply Merge_NoDup|by apply Merge_range]).
  unfold MergeAmounts. rewrite merge_loop_held. unfold held at 1. simpl.
  by rewrite (held_Permutation _ _ _ (sort_perm l)).
Qed.

(** ** Reserving and releasing *)

Lemma account_set k k' a g : Ledger.account k' (Ledger.set_account k a g) = if decide (k = k') then a else Ledger.account k' g.
Proof. unfold Ledger.account, Ledger.set_account. simpl. rewrite SMap.find_set. by case_decide. Qed.

Lemma account_reserve g a k :
  Ledger.account k (Ledger.reserve_one g a) =
    if decide (ra_key a = k) then
      let acc := Ledger.account k g in let r := Word.u64 (acc_reserved acc + ra_amount a) in
      MkAccount (acc_capacity acc) r (Z.max (acc_peak acc) r)
    else Ledger.account k g.
Proof. unfold Ledger.reserve_one. rewrite account_set. by case_decide; subst. Qed.

Lemma account_release g a k :
  Forall in_range [a] -> Word.is_u64 (acc_reserved (Ledger.account k g)) ->
  Ledger.account k (Ledger.release_one g a) =
    if decide (ra_key a = k) then
      let acc := Ledger.account k g in
      MkAccount (acc_capacity acc)
        (if acc_reserved acc >? ra_amount a then acc_reserved acc - ra_amount a else 0) (acc_peak acc)
    else Ledger.account k g.
Proof.
  intros Ha Hr. unfold Ledger.release_one. destruct (SMap.find (ra_key a) (accounts_ g)) as [acc|] eqn:Hf.
  - rewrite account_set. case_decide; [subst|done]. unfold Ledger.account. by rewrite Hf.
  - case_decide; [subst|done]. unfold Ledger.account in *. rewrite Hf in *. simpl in *.
    destruct (0 >? ra_amount a) eqn:Hgt; [|done]. apply Forall_cons in Ha as [Ha _].
    unfold in_range, Word.is_u64 in Ha. lia.
Qed.

Lemma fold_reserve_account l : forall g k,
  NoDup (map ra_key l) -> Forall in_range l ->
  Word.is_u64 (acc_reserved (Ledger.account k g) + held k l) ->
  let acc := Ledger.account k g in
  let acc' := Ledger.account k (fold_left Ledger.reserve_one l g) in
  acc_reserved acc' = acc_reserved acc + held k l /\ acc_capacity acc' = acc_capacity acc /\
  (acc_reserved acc <= acc_peak acc -> acc_reserved acc' <= acc_peak acc').
Proof.
  induction l as [|a l IH]; intros g k Hnd Hr Hb; simpl in *.
  - unfold held. simpl. split; [lia|done].
  - apply NoDup_cons in Hnd as [Ha Hnd]. apply Forall_cons in Hr as [Hra Hr]. rewrite held_cons in *.
    pose proof (account_reserve g a k) as Hacc. case_decide as Hk.
    + subst k. rewrite held_not_in in * by done. unfold in_range, Word.is_u64 in *. rewrite Z.add_0_r in *.
      rewrite Word.u64_small in Hacc by done.
      specialize (IH (Ledger.reserve_one g a) (ra_key a) Hnd Hr). rewrite Hacc, held_not_in in IH by done. simpl in IH.
      destruct IH as (H1 & H2 & H3); [lia|]. rewrite H1, H2. split; [lia|]. split; [done|]. intros _.
      rewrite <- H1. apply H3. lia.
    + simpl in *. specialize (IH (Ledger.reserve_one g a) k Hnd Hr). rewrite Hacc in IH. by apply IH.
Qed.

Lemma fold_release_account l : forall g k,
  NoDup (map ra_key l) -> Forall in_range l ->
  Word.is_u64 (acc_reserved (Ledger.account k g)) -> held k l <= acc_reserved (Ledger.account k g) ->
  let acc := Ledger.account k g in
  let acc' := Ledger.account k (Ledger.ReleaseLocked l g) in
  acc_reserved acc' = acc_reserved acc - held k l /\ acc_capacity acc' = acc_capacity acc /\
  acc_peak acc' = acc_peak acc.
Proof.
  unfold Ledger.ReleaseLocked. induction l as [|a l IH]; intros g k Hnd Hr Hu Hb; simpl in *.
  - unfold held. simpl. split; [lia|done].
  - apply NoDup_cons in Hnd as [Ha Hnd]. apply Forall_cons in Hr as [Hra Hr]. rewrite held_cons in *.
    pose proof (account_release g a k (Forall_cons_2 _ _ _ Hra (List.Forall_nil _)) Hu) as Hacc. case_decide as Hk.
    + subst k. rewrite held_not_in in * by done. unfold in_range, Word.is_u64 in *.
      specialize (IH (Ledger.release_one g a) (ra_key a) Hnd Hr). rewrite Hacc, held_not_in in IH by done. simpl in *.
      destruct (acc_reserved (Ledger.account (ra_key a) g) >? ra_amount a) eqn:Hgt; destruct IH as (H1 & H2 & H3); try lia;
        rewrite H1, H2, H3; (split; [lia|done]).
    + simpl in *. specialize (IH (Ledger.release_one g a) k Hnd Hr). rewrite Hacc in IH. by apply IH.
Qed.

(** ** What a refusal means *)

Lemma first_short_None g l : Ledger.first_short g l = None <-> Forall (fun a => Ledger.shortfall g a = None) l.
Proof.
  induction l as [|a l IH]; simpl; [done|]. rewrite Forall_cons.
  destruct (Ledger.shortfall g a) as [[acc c]|]; [split; [done|by intros []]|]. rewrite IH. naive_solver.
Qed.

(** The room an account has for one more amount. *)
Lemma shortfall_spec g a :
  0 <= ra_amount a ->
  Ledger.shortfall g a = None <->
  (forall c, acc_capacity (Ledger.account (ra_key a) g) = Some c ->
     ra_amount a = 0 \/ acc_reserved (Ledger.account (ra_key a) g) + ra_amount a <= c).
Proof.
  intros Ha. unfold Ledger.shortfall, Ledger.account, Ledger.available.
  destruct (SMap.find (ra_key a) (accounts_ g)) as [acc|]; simpl; [|done].
  destruct (acc_capacity acc) as [c|]; [|done]. rewrite Z.gtb_ltb.
  destruct (Z.ltb_spec (acc_reserved acc) c).
  - destruct (Z.leb_spec (ra_amount a) (c - acc_reserved acc)); split; try done.
    + intros _ c' [= <-]. lia.
    + intros Hc. destruct (Hc c eq_refl); lia.
  - destruct (Z.leb_spec (ra_amount a) 0); split; try done.
    + intros _ c' [= <-]. lia.
    + intros Hc. destruct (Hc c eq_refl); lia.
Qed.

Lemma exhausted_not_ok a acc c short purpose : StatusOps.ok (Ledger.exhausted a acc c short purpose) = false.
Proof. done. Qed.

Lemma TryReserve_cases l purpose g :
  (Forall (fun a => Ledger.shortfall g a = None) l /\
   Ledger.TryReserveLocked l purpose g = (StatusOps.Ok, fold_left Ledger.reserve_one l g)) \/
  (exists a acc c, Ledger.first_short g l = Some (a, acc, c) /\
   Ledger.TryReserveLocked l purpose g = (Ledger.exhausted a acc c (Ledger.short_list g l) purpose, g)).
Proof.
  unfold Ledger.TryReserveLocked. destruct (Ledger.first_short g l) as [[[a acc] c]|] eqn:Hs.
  - right. by exists a, acc, c.
  - left. by rewrite <- first_short_None.
Qed.

(** ** The delta of a commit *)

Definition keyed (f : ResourceAmount -> option ResourceAmount) : Prop :=
  forall a b, f a = Some b -> ra_key b = ra_key a.

Lemma omap_keys f l k : keyed f -> k ∈ map ra_key (omap f l) -> k ∈ map ra_key l.
Proof.
  intros Hf (b & -> & (a & Ha & Hb)%list_elem_of_omap)%list_elem_of_fmap. rewrite (Hf a b Hb).
  by apply list_elem_of_fmap_2.
Qed.

Lemma omap_NoDup f l : keyed f -> NoDup (map ra_key l) -> NoDup (map ra_key (omap f l)).
Proof.
  intros Hf. induction l as [|a l IH]; simpl; [done|]. intros [Ha Hnd]%NoDup_cons.
  destruct (f a) as [b|] eqn:Hb; simpl; [|by apply IH]. constructor; [|by apply IH].
  rewrite (Hf a b Hb). intros Hc. apply Ha. by eapply omap_keys.
Qed.

Lemma held_omap f l a :
  keyed f -> NoDup (map ra_key l) -> a ∈ l ->
  held (ra_key a) (omap f l) = match f a with Some b => ra_amount b | None => 0 end.
Proof.
  intros Hf. induction l as [|b l IH]; intros Hnd Ha; [set_solver|]. apply NoDup_cons in Hnd as [Hb Hnd].
  simpl. apply elem_of_cons in Ha as [->|Ha].
  - assert (Hz : held (ra_key b) (omap f l) = 0) by (apply held_not_in; intros Hc; apply Hb; by eapply omap_keys).
    destruct (f b) as [c|] eqn:Hc; [|done]. rewrite held_cons, decide_True by by apply Hf.
    change (ra_amount c + held (ra_key b) (omap f l) = ra_amount c). lia.
  - assert (Hne : ra_key b <> ra_key a) by (intros Heq; apply Hb; rewrite Heq; by apply list_elem_of_fmap_2).
    destruct (f b) as [c|] eqn:Hc; [|by apply IH]. rewrite held_cons, decide_False by (rewrite (Hf b c Hc); done).
    simpl. by apply IH.
Qed.

Lemma amount_at_held k l : NoDup (map ra_key l) -> default 0 (Ledger.amount_at k l) = held k l.
Proof.
  unfold Ledger.amount_at. intros Hnd. destruct (List.find _ l) as [a|] eqn:Hf; simpl.
  - apply List.find_some in Hf as [Ha Hk]. apply bool_decide_eq_true in Hk. subst k.
    symmetry. apply held_unique; [done|]. by apply list_elem_of_In.
  - symmetry. apply held_not_in. intros (a & -> & Ha)%list_elem_of_fmap.
    apply list_elem_of_In, (List.find_none _ _ Hf) in Ha. by rewrite bool_decide_true in Ha.
Qed.

Definition grow_one (current : list ResourceAmount) (a : ResourceAmount) : option ResourceAmount :=
  let have := default 0 (Ledger.amount_at (ra_key a) current) in
  if ra_amount a >? have then Some (MkAmount (ra_kind a) (ra_device a) (ra_amount a - have)) else None.
Definition shrink_one (current : list ResourceAmount) (a : ResourceAmount) : option ResourceAmount :=
  let have := default 0 (Ledger.amount_at (ra_key a) current) in
  if ra_amount a <? have then Some (MkAmount (ra_kind a) (ra_device a) (have - ra_amount a)) else None.
Definition unnamed (actual : list ResourceAmount) (c : ResourceAmount) : bool :=
  negb (existsb (fun a => bool_decide (ra_key a = ra_key c)) actual).

Lemma grow_keyed current : keyed (grow_one current).
Proof. intros a b. unfold grow_one. case_match; [|done]. by intros [= <-]. Qed.
Lemma shrink_keyed current : keyed (shrink_one current).
Proof. intros a b. unfold shrink_one. case_match; [|done]. by intros [= <-]. Qed.

Lemma growth_eq current actual : Ledger.growth current actual = omap (grow_one current) actual.
Proof. done. Qed.
Lemma shrinkage_eq current actual :
  Ledger.shrinkage current actual = omap (shrink_one current) actual ++ List.filter (unnamed actual) current.
Proof. done. Qed.

Lemma unnamed_spec actual c : unnamed actual c = true <-> ra_key c ∉ map ra_key actual.
Proof.
  unfold unnamed. rewrite negb_true_iff. split.
  - intros Hf (a & Heq & Ha)%list_elem_of_fmap.
    assert (existsb (fun a => bool_decide (ra_key a = ra_key c)) actual = true); [|congruence].
    apply existsb_exists. exists a. split; [by apply list_elem_of_In|by apply bool_decide_eq_true].
  - intros Hc. apply not_true_is_false. intros (a & Ha & Hk%bool_decide_eq_true)%existsb_exists.
    apply Hc. rewrite <- Hk. apply list_elem_of_fmap_2. by apply list_elem_of_In.
Qed.

Lemma held_filter (P : ResourceAmount -> bool) k l :
  (forall a, ra_key a = k -> P a = true) -> held k (List.filter P l) = held k l.
Proof.
  intros HP. induction l as [|a l IH]; simpl; [done|]. rewrite held_cons.
  destruct (P a) eqn:E; [by rewrite held_cons, IH|]. rewrite IH, decide_False; [lia|].
  intros Hk. rewrite HP in E by done. done.
Qed.

Lemma held_filter_none (P : ResourceAmount -> bool) k l :
  (forall a, ra_key a = k -> P a = false) -> held k (List.filter P l) = 0.
Proof.
  intros HP. induction l as [|a l IH]; simpl; [done|]. destruct (P a) eqn:E; [|done].
  rewrite held_cons, IH, decide_False; [lia|]. intros Hk. rewrite HP in E by done. done.
Qed.

Lemma filter_keys (P : ResourceAmount -> bool) l : NoDup (map ra_key l) -> NoDup (map ra_key (List.filter P l)).
Proof.
  induction l as [|a l IH]; simpl; [done|]. intros [Ha Hnd]%NoDup_cons. destruct (P a); simpl; [|by apply IH].
  constructor; [|by apply IH]. intros (b & Hk & [Hb _]%list_elem_of_In%filter_In)%list_elem_of_fmap.
  apply Ha. rewrite Hk. by apply list_elem_of_fmap_2, list_elem_of_In.
Qed.

(** A list of amounts as the ledger keeps it: one entry per key, 64-bit. *)
Definition tidy (l : list ResourceAmount) : Prop := NoDup (map ra_key l) /\ Forall in_range l.

Lemma tidy_merge l : Forall in_range l -> tidy (MergeAmounts l).
Proof. split; [apply Merge_NoDup|by apply Merge_range]. Qed.

Lemma tidy_held k l : tidy l -> Word.is_u64 (held k l).
Proof. intros []. by apply held_range. Qed.

Lemma growth_spec current actual k :
  tidy current -> tidy actual ->
  tidy (Ledger.growth current actual) /\
  held k (Ledger.growth current actual) = Z.max 0 (held k actual - held k current).
Proof.
  intros Hc [Hnd Hr]. rewrite growth_eq. split; [split; [apply omap_NoDup; [apply grow_keyed|done]|]|].
  - apply Forall_forall. intros b (a & Ha & Hb)%list_elem_of_omap. rewrite Forall_forall in Hr. specialize (Hr a Ha).
    unfold grow_one in Hb. rewrite amount_at_held in Hb by apply Hc. rewrite Z.gtb_ltb in Hb.
    destruct (Z.ltb_spec (held (ra_key a) current) (ra_amount a)); [|done]. injection Hb as <-.
    pose proof (tidy_held (ra_key a) current Hc). unfold in_range, Word.is_u64 in *. simpl. lia.
  - pose proof (tidy_held k current Hc) as Hu. unfold Word.is_u64 in Hu. destruct (decide (k ∈ map ra_key actual)) as [Hk|Hk].
    + apply list_elem_of_fmap in Hk as (a & -> & Ha). rewrite held_omap by (apply grow_keyed || done).
      unfold grow_one. rewrite amount_at_held, (held_unique actual a) by (apply Hc || done). rewrite Z.gtb_ltb.
      destruct (Z.ltb_spec (held (ra_key a) current) (ra_amount a)); simpl; lia.
    + rewrite (held_not_in k actual), (held_not_in k (omap _ actual)); [lia| |done].
      intros Hx. apply Hk. by eapply omap_keys; [apply grow_keyed|].
Qed.

Lemma shrinkage_spec current actual k :
  tidy current -> tidy actual ->
  tidy (Ledger.shrinkage current actual) /\
  held k (Ledger.shrinkage current actual) = Z.max 0 (held k current - held k actual).
Proof.
  intros Hc [Hnd Hr]. rewrite shrinkage_eq. split; [split|].
  - rewrite map_app. apply NoDup_app. split; [apply omap_NoDup; [apply shrink_keyed|done]|]. split; [|apply filter_keys, Hc].
    intros x Hx (c & -> & [_ Hu]%list_elem_of_In%filter_In)%list_elem_of_fmap.
    apply unnamed_spec in Hu. apply Hu. by eapply omap_keys; [apply shrink_keyed|].
  - apply Forall_app. split.
    + apply Forall_forall. intros b (a & Ha & Hb)%list_elem_of_omap. rewrite Forall_forall in Hr. specialize (Hr a Ha).
      unfold shrink_one in Hb. rewrite amount_at_held in Hb by apply Hc.
      destruct (Z.ltb_spec (ra_amount a) (held (ra_key a) current)); [|done]. injection Hb as <-.
      pose proof (tidy_held (ra_key a) current Hc). unfold in_range, Word.is_u64 in *. simpl. lia.
    + apply Forall_forall. intros b [Hb _]%list_elem_of_In%filter_In. destruct Hc as [_ Hc].
      rewrite Forall_forall in Hc. by apply Hc, list_elem_of_In.
  - rewrite held_app. pose proof (tidy_held k current Hc) as Hu. unfold Word.is_u64 in Hu.
    destruct (decide (k ∈ map ra_key actual)) as [Hk|Hk].
    + rewrite (held_filter_none (unnamed actual)).
      * apply list_elem_of_fmap in Hk as (a & -> & Ha). rewrite held_omap by (apply shrink_keyed || done).
        unfold shrink_one. rewrite amount_at_held, (held_unique actual a) by (apply Hc || done).
        destruct (Z.ltb_spec (ra_amount a) (held (ra_key a) current)); simpl; lia.
      * intros a Hak. apply not_true_is_false. intros Hx%unnamed_spec. apply Hx. by rewrite Hak.
    + rewrite (held_filter (unnamed actual)) by (intros a <-; by apply unnamed_spec).
      rewrite (held_not_in k actual), (held_not_in k (omap _ actual)); [lia| |done].
      intros Hx. apply Hk. by eapply omap_keys; [apply shrink_keyed|].
Qed.

(** ** Clients of the ledger *)

Inductive ledger_op : Type :=
| LSetCapacity (k : key) (c : Z)
| LReserve (owner : Z) (l : list ResourceAmount) (purpose : string)
| LCommit (i : nat) (actual : list ResourceAmount) (purpose : string)
| LRelease (i : nat).

(** The ledger and every lease handed out so far. *)
Record books : Type := MkBooks { ledger : ResourceLedger; leases : list ResourceLease }.

Definition run_ledger_op (op : ledger_op) (b : books) : books :=
  match op with
  | LSetCapacity k c => MkBooks (Ledger.SetCapacity k c (ledger b)) (leases b)
  | LReserve owner l purpose =>
      match Ledger.Reserve owner l purpose (ledger b) with
      | (Value x, g) => MkBooks g (leases b ++ [x])
      | (Error _, g) => MkBooks g (leases b)
      end
  | LCommit i actual purpose =>
      match leases b !! i with
      | Some x => let '(_, x', g) := Ledger.Commit x actual purpose (ledger b) in MkBooks g (<[i := x']> (leases b))
      | None => b
      end
  | LRelease i =>
      match leases b !! i with
      | Some x => let '(x', g) := Ledger.Release x (ledger b) in MkBooks g (<[i := x']> (leases b))
      | None => b
      end
  end.
Definition run_ledger (ops : list ledger_op) (b : books) : books := fold_left (fun b op => run_ledger_op op b) ops b.

(** What the live leases hold. *)
Definition owed (k : key) (ls : list ResourceLease) : Z := foldr (fun x n => held k (lease_amounts x) + n) 0 ls.
#[global] Arguments owed : simpl never.

(** What was ever asked for, as unbounded integers. *)
Definition asked (k : key) (op : ledger_op) : Z :=
  match op with LReserve _ l _ | LCommit _ l _ => held k l | _ => 0 end.
Definition requested (k : key) (ops : list ledger_op) : Z := foldr (fun op n => asked k op + n) 0 ops.
#[global] Arguments requested : simpl never.

Definition op_range (op : ledger_op) : Prop :=
  match op with LReserve _ l _ | LCommit _ l _ => Forall in_range l | _ => True end.
Definition sets_capacity (op : ledger_op) : bool := match op with LSetCapacity _ _ => true | _ => false end.

Lemma owed_snoc k ls x : owed k (ls ++ [x]) = owed k ls + held k (lease_amounts x).
Proof. unfold owed. induction ls as [|y ls IH]; simpl; [lia|]. rewrite IH. lia. Qed.

Lemma owed_insert k ls i x y :
  ls !! i = Some x -> owed k (<[i := y]> ls) = owed k ls - held k (lease_amounts x) + held k (lease_amounts y).
Proof.
  unfold owed. revert i. induction ls as [|z ls IH]; intros [|i] Hi; simpl in *; try done.
  - injection Hi as ->. lia.
  - rewrite (IH i Hi). lia.
Qed.

Lemma owed_le k ls i x :
  Forall (fun y => tidy (lease_amounts y)) ls -> ls !! i = Some x -> held k (lease_amounts x) <= owed k ls.
Proof.
  intros Hl. unfold owed. revert i. induction Hl as [|z ls Hz Hl IH]; intros [|i] Hi; simpl in *; try done.
  - injection Hi as ->. assert (0 <= foldr (fun x n => held k (lease_amounts x) + n) 0 ls); [|lia].
    clear IH. induction Hl as [|y ls Hy _ IH]; simpl; [lia|]. pose proof (held_nonneg k _ (proj2 Hy)). lia.
  - specialize (IH i Hi). pose proof (held_nonneg k _ (proj2 Hz)). lia.
Qed.

Definition live (ls : list ResourceLease) : Z := Z.of_nat (count lease_active ls).
#[global] Arguments live : simpl never.

Lemma live_snoc ls x : live (ls ++ [x]) = live ls + (if lease_active x then 1 else 0).
Proof. unfold live. rewrite count_snoc. destruct (lease_active x); simpl; lia. Qed.

Lemma live_insert ls i x y :
  ls !! i = Some x ->
  live (<[i := y]> ls) = live ls - (if lease_active x then 1 else 0) + (if lease_active y then 1 else 0).
Proof.
  intros Hi. unfold live. pose proof (count_insert lease_active ls i x y Hi).
  destruct (lease_active x), (lease_active y); simpl in *; lia.
Qed.

Lemma live_pos ls i x : ls !! i = Some x -> lease_active x = true -> 0 < live ls.
Proof.
  intros Hi Hx. pose proof (count_lookup lease_active ls i x Hi Hx). unfold live. lia.
Qed.

(** The books balance; [n] bounds what is owed, [m] the live leases, and
    [fixed] says that no capacity was changed since the ledger was made. *)
Record balanced (n : key -> Z) (m : Z) (fixed : bool) (b : books) : Prop := {
  bal_reserved : forall k, acc_reserved (Ledger.account k (ledger b)) = owed k (leases b);
  bal_peak : forall k, acc_reserved (Ledger.account k (ledger b)) <= acc_peak (Ledger.account k (ledger b));
  bal_tidy : Forall (fun x => tidy (lease_amounts x)) (leases b);
  bal_dead : Forall (fun x => lease_active x = false -> lease_amounts x = []) (leases b);
  bal_owed : forall k, 0 <= owed k (leases b) <= n k;
  bal_live : live_leases_ (ledger b) = live (leases b) /\ live (leases b) <= m;
  bal_capacity : fixed = true -> forall k c,
    acc_capacity (Ledger.account k (ledger b)) = Some c -> acc_reserved (Ledger.account k (ledger b)) <= c;
}.

Lemma balanced_weaken n n' m m' fixed fixed' b :
  balanced n m fixed b -> (forall k, n k <= n' k) -> m <= m' -> (fixed' = true -> fixed = true) ->
  balanced n' m' fixed' b.
Proof.
  intros [H1 H2 H3 H4 H5 H6 H7] Hn Hm Hf. split; try done.
  - intros k. specialize (H5 k). specialize (Hn k). lia.
  - split; [apply H6|]. lia.
  - intros Hf'. apply H7, Hf, Hf'.
Qed.

Lemma capacity_kept g l k :
  Forall (fun a => Ledger.shortfall g a = None) l -> tidy l ->
  (forall c, acc_capacity (Ledger.account k g) = Some c -> acc_reserved (Ledger.account k g) <= c) ->
  forall c, acc_capacity (Ledger.account k g) = Some c -> acc_reserved (Ledger.account k g) + held k l <= c.
Proof.
  intros Hs [Hnd Hr] Hc c Hcap. specialize (Hc c Hcap). destruct (decide (k ∈ map ra_key l)) as [Hk|Hk].
  - apply list_elem_of_fmap in Hk as (a & -> & Ha). rewrite held_unique by done.
    rewrite Forall_forall in Hs, Hr. specialize (Hs a Ha). specialize (Hr a Ha). unfold in_range, Word.is_u64 in Hr.
    destruct (proj1 (shortfall_spec g a ltac:(lia)) Hs c Hcap); lia.
  - rewrite held_not_in by done. lia.
Qed.

Lemma Merge_held_small k l : Forall in_range l -> held k l < 2 ^ 64 -> held k (MergeAmounts l) = held k l.
Proof.
  intros Hl Hb. rewrite Merge_held by done. apply Word.u64_small.
  pose proof (held_nonneg k l Hl). unfold Word.is_u64. lia.
Qed.

Lemma account_ledger g n m k : Ledger.account k (MkLedger (accounts_ g) n m) = Ledger.account k g.
Proof. done. Qed.

Lemma fold_live l : forall g, live_leases_ (fold_left Ledger.reserve_one l g) = live_leases_ g.
Proof. induction l as [|a l IH]; intros g; simpl; [done|]. by rewrite IH. Qed.

Lemma release_live l : forall g, live_leases_ (Ledger.ReleaseLocked l g) = live_leases_ g.
Proof.
  unfold Ledger.ReleaseLocked. induction l as [|a l IH]; intros g; simpl; [done|]. rewrite IH.
  unfold Ledger.release_one. by destruct (SMap.find _ _).
Qed.

Lemma reserve_balanced n m fixed b owner l purpose :
  balanced n m fixed b -> Forall in_range l -> (forall k, n k + held k l < 2 ^ 64) -> m + 1 < 2 ^ 64 ->
  balanced (fun k => n k + held k l) (m + 1) fixed (run_ledger_op (LReserve owner l purpose) b).
Proof.
  intros Hbal Hl Hb Hmb. pose proof Hbal as [H1 H2 H3 H4 H5 H6 H7]. unfold run_ledger_op, Ledger.Reserve.
  assert (Hpos : forall k, 0 <= held k l) by (intros; by apply held_nonneg).
  assert (Hm : forall k, held k (MergeAmounts l) = held k l).
  { intros k. apply Merge_held_small; [done|]. specialize (Hb k). specialize (H5 k). lia. }
  pose proof (tidy_merge l Hl) as Ht.
  destruct (TryReserve_cases (MergeAmounts l) purpose (ledger b)) as [[Hs ->]|(a & acc & c & _ & ->)].
  2: { simpl. apply (balanced_weaken n _ m _ fixed); try done; [|lia]. intros k. simpl. specialize (Hpos k). lia. }
  cbn [StatusOps.ok].
  assert (Hacc : forall k, let acc := Ledger.account k (ledger b) in
    let acc' := Ledger.account k (fold_left Ledger.reserve_one (MergeAmounts l) (ledger b)) in
    acc_reserved acc' = acc_reserved acc + held k l /\ acc_capacity acc' = acc_capacity acc /\
    (acc_reserved acc <= acc_peak acc -> acc_reserved acc' <= acc_peak acc')).
  { intros k. rewrite <- (Hm k). apply fold_reserve_account; [apply Ht|apply Ht|].
    rewrite H1, Hm. unfold Word.is_u64. specialize (H5 k). specialize (Hb k). specialize (Hpos k). lia. }
  cbv zeta in Hacc. simpl. split; simpl.
  - intros k. rewrite account_ledger. destruct (Hacc k) as (-> & _). rewrite H1, owed_snoc. simpl. by rewrite Hm.
  - intros k. rewrite account_ledger. destruct (Hacc k) as (_ & _ & Hp). apply Hp, H2.
  - apply Forall_app. split; [done|]. constructor; [done|constructor].
  - apply Forall_app. split; [done|]. constructor; [done|constructor].
  - intros k. rewrite owed_snoc. simpl. rewrite Hm. specialize (H5 k). specialize (Hpos k). lia.
  - rewrite live_snoc, fold_live. simpl. destruct H6 as [-> H6]. rewrite Word.u64_small; [lia|].
    unfold Word.is_u64, live in *. lia.
  - intros Hfix k c. rewrite account_ledger. destruct (Hacc k) as (-> & -> & _). rewrite <- (Hm k).
    apply capacity_kept; [done|done|]. by apply H7.
Qed.

(** What [Commit] does to an account: growth first, then shrinkage. *)
Lemma commit_account g current actual k :
  tidy current -> tidy actual -> held k current <= acc_reserved (Ledger.account k g) ->
  acc_reserved (Ledger.account k g) + held k actual < 2 ^ 64 ->
  let acc := Ledger.account k g in
  let acc' := Ledger.account k (Ledger.ReleaseLocked (Ledger.shrinkage current actual)
    (fold_left Ledger.reserve_one (Ledger.growth current actual) g)) in
  acc_reserved acc' = acc_reserved acc - held k current + held k actual /\ acc_capacity acc' = acc_capacity acc /\
  (acc_reserved acc <= acc_peak acc -> acc_reserved acc' <= acc_peak acc').
Proof.
  intros Hc Ha Hle Hb acc acc'.
  destruct (growth_spec current actual k Hc Ha) as [[G1 G2] G3].
  destruct (shrinkage_spec current actual k Hc Ha) as [[S1 S2] S3].
  pose proof (held_nonneg k current (proj2 Hc)). pose proof (held_nonneg k actual (proj2 Ha)).
  pose proof (fold_reserve_account _ g k G1 G2) as Hg. cbv zeta in Hg.
  destruct Hg as (E1 & E2 & E3); [unfold Word.is_u64; lia|].
  pose proof (fold_release_account _ (fold_left Ledger.reserve_one (Ledger.growth current actual) g) k S1 S2) as Hs.
  cbv zeta in Hs. destruct Hs as (D1 & D2 & D3); [unfold Word.is_u64; lia|lia|].
  unfold acc', acc. rewrite D1, D2, D3, E2. split; [lia|]. split; [done|]. intros Hp. specialize (E3 Hp). lia.
Qed.

Lemma commit_balanced n m fixed b i actual purpose :
  balanced n m fixed b -> Forall in_range actual -> (forall k, n k + held k actual < 2 ^ 64) ->
  balanced (fun k => n k + held k actual) m fixed (run_ledger_op (LCommit i actual purpose) b).
Proof.
  intros Hbal Hl Hb. pose proof Hbal as [H1 H2 H3 H4 H5 H6 H7].
  assert (Hpos : forall k, 0 <= held k actual) by (intros; by apply held_nonneg).
  assert (Hw : balanced (fun k => n k + held k actual) m fixed b).
  { apply (balanced_weaken n _ m _ fixed); try done. intros k. simpl. specialize (Hpos k). lia. }
  simpl. destruct (leases b !! i) as [x|] eqn:Hi; [|done]. unfold Ledger.Commit.
  destruct (lease_active x) eqn:Hx.
  2: { by rewrite list_insert_id, (ltac:(by destruct b) : MkBooks (ledger b) (leases b) = b). }
  unfold Ledger.CommitLease.
  pose proof (Forall_lookup_1 _ _ _ _ H3 Hi) as Htx. simpl in Htx.
  destruct (TryReserve_cases (Ledger.growth (lease_amounts x) (MergeAmounts actual)) purpose (ledger b))
    as [[Hs ->]|(a & acc & c & _ & ->)].
  2: { simpl. replace (MkLease true (lease_id x) (lease_owner x) (lease_amounts x)) with x
         by (destruct x; simpl in *; by subst). rewrite list_insert_id by done. by destruct b. }
  cbn [StatusOps.ok].
  pose proof (tidy_merge actual Hl) as Ht.
  assert (Hm : forall k, held k (MergeAmounts actual) = held k actual).
  { intros k. apply Merge_held_small; [done|]. specialize (Hb k). specialize (H5 k). lia. }
  assert (Hacc := fun k => commit_account (ledger b) (lease_amounts x) (MergeAmounts actual) k Htx Ht).
  cbv zeta in Hacc. assert (Hle := fun k => owed_le k (leases b) i x H3 Hi).
  assert (Hacc' : forall k, _) by (intros k; apply (Hacc k);
    [rewrite H1; apply Hle | rewrite H1, Hm; specialize (H5 k); specialize (Hb k); lia]).
  simpl. split; simpl.
  - intros k. destruct (Hacc' k) as (-> & _). rewrite H1, (owed_insert k _ i x) by done. done.
  - intros k. destruct (Hacc' k) as (_ & _ & Hp). apply Hp, H2.
  - by apply Forall_insert.
  - by apply Forall_insert.
  - intros k. rewrite (owed_insert k _ i x) by done. simpl. rewrite Hm. specialize (H5 k). specialize (Hpos k).
    specialize (Hle k). pose proof (held_nonneg k _ (proj2 Htx)). lia.
  - rewrite release_live, fold_live, (live_insert _ i x) by done. rewrite Hx. simpl. lia.
  - intros Hfix k c. destruct (Hacc' k) as (-> & -> & _). intros Hcap.
    destruct (growth_spec (lease_amounts x) (MergeAmounts actual) k Htx Ht) as [Gt Gh].
    pose proof (capacity_kept _ _ k Hs Gt (fun c => H7 Hfix k c) c Hcap) as Hk. rewrite Gh in Hk. lia.
Qed.

Lemma release_balanced n m fixed b i :
  balanced n m fixed b -> (forall k, n k < 2 ^ 64) ->
  balanced n m fixed (run_ledger_op (LRelease i) b).
Proof.
  intros Hbal Hb. pose proof Hbal as [H1 H2 H3 H4 H5 H6 H7].
  simpl. destruct (leases b !! i) as [x|] eqn:Hi; [|done]. unfold Ledger.Release.
  destruct (lease_active x) eqn:Hx.
  2: { rewrite list_insert_id by done. by destruct b. }
  pose proof (Forall_lookup_1 _ _ _ _ H3 Hi) as Htx. simpl in Htx.
  assert (Hle := fun k => owed_le k (leases b) i x H3 Hi). pose proof (live_pos _ _ _ Hi Hx) as Hp.
  assert (Hacc := fun k => fold_release_account (lease_amounts x) (ledger b) k (proj1 Htx) (proj2 Htx)).
  cbv zeta in Hacc.
  assert (Hacc' : forall k, _) by (intros k; apply (Hacc k); rewrite H1;
    [unfold Word.is_u64; specialize (H5 k); specialize (Hb k); lia | apply Hle]).
  assert (Hh : forall k, 0 <= held k (lease_amounts x)) by (intros; apply held_nonneg, Htx).
  assert (Ho : forall k, owed k (<[i:=MkLease false (lease_id x) (lease_owner x) []]> (leases b)) =
    owed k (leases b) - held k (lease_amounts x)) by (intros k; rewrite (owed_insert k _ i x) by done; apply Z.add_0_r).
  unfold Ledger.ReleaseLease. split; simpl.
  - intros k. rewrite account_ledger, Ho. destruct (Hacc' k) as (-> & _). by rewrite H1.
  - intros k. rewrite account_ledger. destruct (Hacc' k) as (-> & _ & ->). specialize (H2 k). specialize (Hh k). lia.
  - apply Forall_insert; [done|]. split; constructor.
  - by apply Forall_insert.
  - intros k. rewrite Ho. specialize (H5 k). specialize (Hh k). specialize (Hle k). lia.
  - rewrite release_live, (live_insert _ i x) by done. rewrite Hx. simpl. destruct H6 as [-> H6].
    destruct (Z.gtb_spec (live (leases b)) 0); lia.
  - intros Hfix k c. rewrite account_ledger. destruct (Hacc' k) as (-> & -> & _). intros Hcap.
    specialize (H7 Hfix k c Hcap). specialize (Hh k). lia.
Qed.

Lemma make_balanced caps :
  Forall (fun kc => 0 <= kc.2) caps -> balanced (fun _ => 0) 0 true (MkBooks (Ledger.make caps) []).
Proof.
  intros Hc. assert (Hacc : live_leases_ (Ledger.make caps) = 0 /\ forall k,
    acc_reserved (Ledger.account k (Ledger.make caps)) = 0 /\ acc_peak (Ledger.account k (Ledger.make caps)) = 0 /\
    (forall c, acc_capacity (Ledger.account k (Ledger.make caps)) = Some c -> 0 <= c)).
  { unfold Ledger.make. assert (H0 : live_leases_ Ledger.empty = 0 /\ forall k,
      acc_reserved (Ledger.account k Ledger.empty) = 0 /\ acc_peak (Ledger.account k Ledger.empty) = 0 /\
      (forall c, acc_capacity (Ledger.account k Ledger.empty) = Some c -> 0 <= c)) by (split; done).
    revert H0. generalize Ledger.empty as g. induction Hc as [|[k c] caps Hx _ IH]; intros g Hg; simpl; [done|].
    apply IH. split; [apply Hg|]. intros k'. unfold Ledger.SetCapacity. rewrite account_set. simpl.
    destruct (decide (k = k')) as [<-|]; simpl; [|apply Hg].
    destruct (proj2 Hg k) as (-> & -> & _). split_and!; [done..|]. by intros ? [= <-]. }
  destruct Hacc as [Hl Hacc]. split; simpl; try done.
  - intros k. by destruct (Hacc k) as (-> & _).
  - intros k. by destruct (Hacc k) as (-> & -> & _).
  - intros _ k c. destruct (Hacc k) as (-> & _ & H). apply H.
Qed.

Lemma set_capacity_balanced n m fixed b k c :
  balanced n m fixed b -> balanced n m false (run_ledger_op (LSetCapacity k c) b).
Proof.
  intros [H1 H2 H3 H4 H5 H6 H7]. split; simpl; try done; intros k'; unfold Ledger.SetCapacity; rewrite account_set;
    destruct (decide (k = k')) as [<-|]; simpl; auto.
Qed.

Lemma op_balanced n m fixed b op :
  balanced n m fixed b -> op_range op -> (forall k, n k + asked k op < 2 ^ 64) -> m + 1 < 2 ^ 64 ->
  balanced (fun k => n k + asked k op) (m + 1) (fixed && negb (sets_capacity op)) (run_ledger_op op b).
Proof.
  intros Hb Hr Hn Hm. destruct op as [k c|owner l p|i l p|i]; cbn [sets_capacity asked negb] in *.
  - apply (balanced_weaken n _ m _ false); [by eapply set_capacity_balanced|intros; lia|lia|]. by destruct fixed.
  - rewrite andb_true_r. by apply reserve_balanced.
  - rewrite andb_true_r. eapply balanced_weaken; [by apply commit_balanced|done|lia|done].
  - rewrite andb_true_r. eapply balanced_weaken; [apply release_balanced; [done|]|intros; lia|lia|done].
    intros k. specialize (Hn k). lia.
Qed.

Lemma requested_nonneg k ops : Forall op_range ops -> 0 <= requested k ops.
Proof.
  unfold requested. induction 1 as [|op ops Ho _ IH]; simpl; [lia|].
  assert (0 <= asked k op); [|lia]. destruct op; simpl; try lia; by apply held_nonneg.
Qed.

Lemma run_balanced ops : forall n m fixed b,
  balanced n m fixed b -> Forall op_range ops -> (forall k, n k + requested k ops < 2 ^ 64) ->
  m + Z.of_nat (List.length ops) < 2 ^ 64 ->
  balanced (fun k => n k + requested k ops) (m + Z.of_nat (List.length ops))
    (fixed && negb (existsb sets_capacity ops)) (run_ledger ops b).
Proof.
  induction ops as [|op ops IH]; intros n m fixed b Hb Hr Hn Hm.
  - simpl. rewrite andb_true_r. eapply balanced_weaken; [done| |lia|done]. intros k. change (requested k []) with 0. lia.
  - inversion Hr as [|? ? Ho Hr']; subst. cbn [List.length] in *.
    assert (E : forall k, requested k (op :: ops) = asked k op + requested k ops) by done.
    assert (Hop : balanced (fun k => n k + asked k op) (m + 1) (fixed && negb (sets_capacity op)) (run_ledger_op op b)).
    { apply op_balanced; [done..| |lia]. intros k. specialize (Hn k). rewrite E in Hn.
      pose proof (requested_nonneg k ops Hr'). lia. }
    cbn [run_ledger fold_left]. eapply balanced_weaken; [apply (IH _ _ _ _ Hop Hr')| | |].
    + intros k. specialize (Hn k). rewrite E in Hn. lia.
    + lia.
    + intros k. rewrite E. lia.
    + lia.
    + cbn [existsb]. destruct fixed, (sets_capacity op); simpl; done.
Qed.

(** C12: whatever sequence of capacity changes, reservations, commits and
    releases is run against a fresh ledger, as long as nobody asks for 2^64
    units of a resource in total: the reserved counter of every (kind, device)
    is exactly what the live leases hold, the peak is at least that, the live
    lease counter is the number of active leases, an inactive lease holds
    nothing, and, unless capacities were changed on the way, no capacity is
    ever exceeded. *)
Theorem ledger_balanced caps ops :
  Forall (fun kc => 0 <= kc.2) caps -> Forall op_range ops ->
  (forall k, requested k ops < 2 ^ 64) -> Z.of_nat (List.length ops) < 2 ^ 64 ->
  let b := run_ledger ops (MkBooks (Ledger.make caps) []) in
  (forall k, let acc := Ledger.account k (ledger b) in
     acc_reserved acc = owed k (leases b) /\ acc_reserved acc <= acc_peak acc /\
     (existsb sets_capacity ops = false -> forall c, acc_capacity acc = Some c -> acc_reserved acc <= c)) /\
  live_leases_ (ledger b) = live (leases b) /\
  Forall (fun x => lease_active x = false -> lease_amounts x = []) (leases b).
Proof.
  intros Hc Hr Hn Hm b.
  pose proof (run_balanced ops _ _ _ _ (make_balanced caps Hc) Hr Hn Hm) as [H1 H2 H3 H4 H5 H6 H7].
  split; [|split; [apply H6|done]]. intros k acc. split_and!; [apply H1|apply H2|].
  intros He c. apply H7. by rewrite He.
Qed.

Definition sample_key : key := (kGpuMemory, 0).
Definition sample_ops : list ledger_op :=
  [LReserve 1 [MkAmount kGpuMemory 0 30; MkAmount kCpuThreads (-1) 2; MkAmount kGpuMemory 0 20] "a";
   LReserve 2 [MkAmount kGpuMemory 0 60] "b";
   LCommit 0 [MkAmount kGpuMemory 0 35] "";
   LReserve 2 [MkAmount kGpuMemory 0 60] "b";
   LRelease 0].

Lemma ledger_balanced_witness :
  let b := run_ledger sample_ops (MkBooks (Ledger.make [(sample_key, 100)]) []) in
  acc_reserved (Ledger.account sample_key (ledger b)) = 60 /\ acc_reserved (Ledger.account sample_key (ledger b)) = owed sample_key (leases b) /\
  live_leases_ (ledger b) = 1.
Proof.
  intros b. split; [vm_compute; reflexivity|].
  assert (H : Forall op_range sample_ops) by (repeat constructor; simpl; unfold in_range, Word.is_u64; simpl; lia).
  assert (Hn : forall k, requested k sample_ops < 2 ^ 64).
  { intros k. unfold requested, sample_ops, asked, held. cbn [foldr ra_amount]. repeat destruct (decide _); lia. }
  destruct (ledger_balanced [(sample_key, 100)] sample_ops
    ltac:(constructor; [simpl; lia|constructor]) H Hn ltac:(vm_compute; reflexivity)) as (Hk & Hl & _).
  split; [exact (proj1 (Hk sample_key))|]. vm_compute. reflexivity.
Defined.

Lemma TryReserve_short l purpose g s g' :
  Forall in_range l -> Ledger.TryReserveLocked l purpose g = (s, g') ->
  if StatusOps.ok s then
    forall a c, a ∈ l -> acc_capacity (Ledger.account (ra_key a) g) = Some c ->
      ra_amount a = 0 \/ acc_reserved (Ledger.account (ra_key a) g) + ra_amount a <= c
  else g' = g /\ code s = GE_STATUS_RESOURCE_EXHAUSTED /\ retryable s = true /\
    exists a c, a ∈ l /\ acc_capacity (Ledger.account (ra_key a) g) = Some c /\
      0 < ra_amount a /\ c < acc_reserved (Ledger.account (ra_key a) g) + ra_amount a.
Proof.
  intros Hr. rewrite Forall_forall in Hr.
  destruct (TryReserve_cases l purpose g) as [[Hs ->]|(a & acc & c & Hf & ->)]; intros [= <- <-].
  - simpl. intros a c Ha. rewrite Forall_forall in Hs. specialize (Hr a Ha). unfold in_range, Word.is_u64 in Hr.
    apply shortfall_spec; [lia|by apply Hs].
  - rewrite exhausted_not_ok. split_and!; [done..|].
    assert (Hsh : ~ Forall (fun a => Ledger.shortfall g a = None) l) by (rewrite <- first_short_None, Hf; done).
    apply not_Forall_Exists, Exists_exists in Hsh as (a' & Ha & Hsh); [|apply _].
    specialize (Hr a' Ha). unfold in_range, Word.is_u64 in Hr. change (~ Ledger.shortfall g a' = None) in Hsh.
    rewrite shortfall_spec in Hsh by lia.
    destruct (acc_capacity (Ledger.account (ra_key a') g)) as [c'|] eqn:Hc; [|exfalso; by apply Hsh].
    exists a', c'. split_and!; [done..| |]; apply Z.nle_gt; intros H; apply Hsh; intros ? [= <-]; lia.
Qed.

(** [Reserve] and [Commit] are all-or-nothing. A reservation of amounts
    succeeds exactly when every merged amount fits in what its account has
    left; a refusal is a retryable RESOURCE_EXHAUSTED, names a dimension that
    is really short, and leaves the ledger as it was. A refused commit leaves
    the ledger and the lease as they were. *)
Theorem reserve_atomic owner l purpose x g :
  Forall in_range l -> tidy (lease_amounts x) ->
  (match Ledger.Reserve owner l purpose g with
   | (Value y, _) => lease_amounts y = MergeAmounts l /\ lease_active y = true /\
       forall k c, acc_capacity (Ledger.account k g) = Some c ->
         held k (MergeAmounts l) = 0 \/ acc_reserved (Ledger.account k g) + held k (MergeAmounts l) <= c
   | (Error e, g') => g' = g /\ code e = GE_STATUS_RESOURCE_EXHAUSTED /\ retryable e = true /\
       exists k c, acc_capacity (Ledger.account k g) = Some c /\
         0 < held k (MergeAmounts l) /\ c < acc_reserved (Ledger.account k g) + held k (MergeAmounts l)
   end) /\
  (let '(s, x', g') := Ledger.Commit x l purpose g in StatusOps.ok s = false -> x' = x /\ g' = g).
Proof.
  intros Hl Hx. pose proof (tidy_merge l Hl) as [Hnd Hr]. split.
  - unfold Ledger.Reserve. destruct (Ledger.TryReserveLocked _ purpose g) as [s g'] eqn:Ht.
    apply TryReserve_short in Ht; [|done]. destruct (StatusOps.ok s) eqn:Hs.
    + split_and!; [done..|]. intros k c Hc. destruct (decide (k ∈ map ra_key (MergeAmounts l))) as [Hk|Hk].
      * apply list_elem_of_fmap in Hk as (a & -> & Ha). rewrite held_unique by done. by apply Ht.
      * left. by apply held_not_in.
    + destruct Ht as (-> & Hc & Hre & a & c & Ha & Hcap & Hp & Hlt).
      unfold ResultOps.of_status. rewrite Hs. split_and!; [done..|].
      exists (ra_key a), c. by rewrite held_unique.
  - unfold Ledger.Commit, Ledger.CommitLease. destruct (lease_active x) eqn:Ha; [|done].
    destruct (Ledger.TryReserveLocked _ purpose g) as [s g'] eqn:Ht.
    apply TryReserve_short in Ht; [|by destruct (growth_spec (lease_amounts x) (MergeAmounts l) sample_key Hx (conj Hnd Hr)) as [[]]].
    destruct (StatusOps.ok s) eqn:Hs; [done|]. intros _. split; [|apply Ht]. destruct x; simpl in *; by subst.
Qed.

Lemma reserve_atomic_witness :
  let g := Ledger.make [(sample_key, 100)] in
  let x := MkLease true 1 1 [MkAmount kGpuMemory 0 0] in
  let l := [MkAmount kGpuMemory 0 70; MkAmount kGpuMemory 0 40] in
  (Ledger.Reserve 1 l "x" g).2 = g /\ (Ledger.Commit x l "x" g).1.2 = x.
Proof.
  intros g x l.
  assert (Hl : Forall in_range l) by (repeat constructor; unfold in_range, Word.is_u64; simpl; lia).
  assert (Hx : tidy (lease_amounts x)).
  { split; [apply NoDup_singleton|]. constructor; [unfold in_range, Word.is_u64; simpl; lia|constructor]. }
  destruct (reserve_atomic 1 l "x" x g Hl Hx) as [H1 H2]. split.
  - destruct (Ledger.Reserve 1 l "x" g) as [[y|e] g'] eqn:E; [vm_compute in E; discriminate E|]. apply H1.
  - destruct (Ledger.Commit x l "x" g) as [[s x'] g'] eqn:E. apply H2.
    transitivity (StatusOps.ok (Ledger.Commit x l "x" g).1.1); [by rewrite E|vm_compute; reflexivity].
Defined.

(** The sums of [MergeAmounts] are 64-bit: two halves of 2^64 merge to an
    amount of zero, which every ledger grants, while one half alone is
    refused. *)
Theorem merged_amounts_wrap :
  let g := Ledger.make [(sample_key, 100)] in
  let half := MkAmount kGpuMemory 0 (2 ^ 63) in
  ResultOps.is_ok (Ledger.Reserve 1 [half; half] "" g).1 = true /\ ResultOps.is_ok (Ledger.Reserve 1 [half] "" g).1 = false.
Proof. split; vm_compute; reflexivity. Qed.
