(* ===== verification/JsonReader.v ===== *)
(** Reading JSON objects field by field (src/json_reader.h): the reader that
    remembers which fields were consumed, the document header rules and the
    content hash. The lemmas run a reader on an object written field by
    field. *)

From stdpp Require Import base numbers list strings sorting.
From Stdlib Require Import ZArith Lia Ascii String.
From S2P Require Import Prelude Types Double Json.

Local Open Scope string_scope.
Local Open Scope Z_scope.

Record ObjectReader : Type := MkObjectReader {
  value_ : json;
  path_ : string;
  allow_unknown_ : bool;
  error_code_ : ge_status_code;
  seen_ : list string;
}.

(** A computation that uses a reader: the first failing field ends it. *)
Definition Reader (A : Type) : Type := ObjectReader -> Result (A * ObjectReader).

Module Reader.

Definition ret {A} (a : A) : Reader A := fun r => Value (a, r).
Definition bind {A B} (m : Reader A) (f : A -> Reader B) : Reader B :=
  fun r => match m r with Value (a, r') => f a r' | Error s => Error s end.
Definition lift {A} (x : Result A) : Reader A :=
  fun r => match x with Value a => Value (a, r) | Error s => Error s end.
Definition fail {A} (s : Status) : Reader A := fun _ => Error s.

(** [ObjectReader(value, path, allow_unknown, error_code)] and its use. *)
Definition make (v : json) (path : string) (allow_unknown : bool) (c : ge_status_code) : ObjectReader :=
  MkObjectReader v path allow_unknown c [].
Definition run {A} (m : Reader A) (r : ObjectReader) : Result A :=
  match m r with Value (a, _) => Value a | Error s => Error s end.

Definition see (key : string) (r : ObjectReader) : ObjectReader :=
  MkObjectReader (value_ r) (path_ r) (allow_unknown_ r) (error_code_ r) (key :: seen_ r).

Definition path : Reader string := fun r => Value (path_ r, r).
Definition error {A} (message : string) : Reader A :=
  fun r => Error (StatusOps.make (error_code_ r) message false "").
Definition Missing {A} (key : string) : Reader A :=
  fun r => error ("missing field '" ++ key ++ "' in " ++ path_ r) r.
Definition WrongType {A} (key expected : string) : Reader A :=
  fun r => error ("field '" ++ key ++ "' in " ++ path_ r ++ " must be " ++ expected) r.

Definition Get (key : string) : Reader (option json) :=
  fun r => Value (Json.Find key (value_ r), see key r).

End Reader.

Notation "'let@' x := m 'in' k" := (Reader.bind m (fun x => k))
  (at level 10, x pattern, m at level 100, k at level 200).

Module Read.
Import Reader.

Definition RequireString (key : string) : Reader string :=
  let@ v := Get key in
  match v with None => Missing key | Some (JString s) => ret s | Some _ => WrongType key "string" end.
(** The outputs of the optional readers keep their value when the field is
    absent. *)
Definition OptionalString (key dflt : string) : Reader string :=
  let@ v := Get key in
  match v with None => ret dflt | Some (JString s) => ret s | Some _ => WrongType key "string" end.
Definition OptionalInteger (key : string) : Reader (option Z) :=
  let@ v := Get key in
  match v with None => ret None | Some (JInteger z) => ret (Some z) | Some _ => WrongType key "integer" end.
Definition RequireInteger (key : string) : Reader Z :=
  let@ v := Get key in
  match v with None => Missing key | Some (JInteger z) => ret z | Some _ => WrongType key "integer" end.
Definition OptionalNumber (key : string) : Reader (option double) :=
  let@ v := Get key in
  match v with
  | None => ret None
  | Some v => match Json.as_number v with Some d => ret (Some d) | None => WrongType key "number" end
  end.
Definition OptionalBool (key : string) (dflt : bool) : Reader bool :=
  let@ v := Get key in
  match v with None => ret dflt | Some (JBool b) => ret b | Some _ => WrongType key "boolean" end.
Definition RequireBool (key : string) : Reader bool :=
  let@ v := Get key in
  match v with None => Missing key | Some (JBool b) => ret b | Some _ => WrongType key "boolean" end.
Definition OptionalObject (key : string) (dflt : json) : Reader json :=
  let@ v := Get key in
  match v with None => ret dflt | Some (JObject o) => ret (JObject o) | Some _ => WrongType key "object" end.

Fixpoint string_items (l : list json) : option (list string) :=
  match l with
  | [] => Some []
  | JString s :: l' => match string_items l' with Some ss => Some (s :: ss) | None => None end
  | _ :: _ => None
  end.
Definition OptionalStringArray (key : string) : Reader (option (list string)) :=
  let@ v := Get key in
  match v with
  | None => ret None
  | Some (JArray items) =>
      match string_items items with
      | Some ss => ret (Some ss)
      | None => let@ p := path in error ("elements of '" ++ key ++ "' in " ++ p ++ " must be strings")
      end
  | Some _ => WrongType key "array"
  end.
Definition StringArray (key : string) (required : bool) (dflt : list string) : Reader (list string) :=
  let@ tmp := OptionalStringArray key in
  match tmp with Some ss => ret ss | None => if required then Missing key else ret dflt end.

(** [Finish]: the first field in key order that nobody asked for. *)
Definition Finish : Reader unit :=
  fun r =>
    if allow_unknown_ r then Value (tt, r)
    else match value_ r with
    | JObject o =>
        match List.find (fun kv => negb (bool_decide (kv.1 ∈ seen_ r))) o with
        | Some (k, _) => error ("unknown field '" ++ k ++ "' in " ++ path_ r) r
        | None => Value (tt, r)
        end
    | _ => Value (tt, r)
    end.

(** [internal::MarkHeaderSeen] *)
Definition MarkHeaderSeen : Reader unit :=
  let@ _ := Get "kind" in let@ _ := Get "schema_version" in
  let@ _ := Get "$id" in let@ _ := Get "allow_unknown_fields" in ret tt.

End Read.

(** [internal::CheckDocumentHeader]: the value is the document's
    [allow_unknown_fields]. *)
Definition CheckDocumentHeader (doc : json) (kind : string) (schema_version : Z) (schema_id : string)
    (c : ge_status_code) : Result bool :=
  let fail (m ctx : string) := ResultOps.of_status (StatusOps.make c m false ctx) in
  if negb (Json.is_object doc) then fail "document must be a JSON object" ""
  else match Json.GetString "kind" doc with
  | None => fail "missing document 'kind'" ""
  | Some k =>
      if negb (bool_decide (k = kind)) then fail ("expected kind '" ++ kind ++ "', got '" ++ k ++ "'") ""
      else match Json.Find "schema_version" doc with
      | Some (JInteger sv) =>
          if negb (sv =? schema_version) then
            fail ("unsupported schema_version " ++ Dec.to_string sv ++
                  " (expected " ++ Dec.to_string schema_version ++ ")")
                 ("{" ++ String Json.dquote ("expected" ++ String Json.dquote (":" ++ Dec.to_string schema_version)) ++
                  "," ++ String Json.dquote ("received" ++ String Json.dquote (":" ++ Dec.to_string sv)) ++ "}")
          else
            let allow :=
              match Json.Find "allow_unknown_fields" doc with
              | None => Value false
              | Some (JBool b) => Value b
              | Some _ => fail "'allow_unknown_fields' must be boolean" ""
              end in
            match Json.Find "$id" doc with
            | None => allow
            | Some (JString id) =>
                if bool_decide (id = schema_id) then allow
                else fail ("'$id' '" ++ id ++ "' does not match schema_version") ""
            | Some _ => fail "'$id' must be a string" ""
            end
      | _ => fail "missing or non-integer 'schema_version'" ""
      end
  end.

(** [internal::Fnv1a] *)
Fixpoint Fnv1a (data : string) (h : Z) : Z :=
  match data with
  | EmptyString => h
  | String c s => Fnv1a s (Word.u64 (Z.lxor h (Z.of_N (N_of_ascii c)) * 0x100000001b3))
  end.
Definition fnv_seed : Z := 0xcbf29ce484222325.

(** ** Objects written field by field *)

Definition maybe {A} (k : string) (f : A -> json) (o : option A) : list (string * json) :=
  match o with Some a => [(k, f a)] | None => [] end.
Definition when (b : bool) (k : string) (v : json) : list (string * json) := if b then [(k, v)] else [].

#[global] Arguments Json.obj : simpl never.
#[global] Arguments Json.Find : simpl never.

Lemma find_fold (l : list (string * json)) : forall acc k,
  SMap.find k (fold_left (fun m kv => (SMap.emplace kv.1 kv.2 m).1) l acc) = SMap.find k acc ∪ SMap.find k l.
Proof.
  induction l as [|[k' v] l IH]; intros acc k; simpl; [by destruct (SMap.find k acc)|].
  rewrite IH. unfold SMap.emplace. destruct (SMap.find k' acc) eqn:E; simpl.
  - destruct (decide (k = k')) as [->|]; [|done]. rewrite E. by destruct (SMap.find k' l).
  - rewrite SMap.find_set. destruct (decide (k' = k)) as [->|Hne].
    + rewrite E, decide_True by done. by destruct (SMap.find k l).
    + by rewrite (decide_False (P := k = k')) by congruence.
Qed.

Lemma find_obj k l : Json.Find k (Json.obj l) = SMap.find k l.
Proof. unfold Json.Find, Json.obj. rewrite find_fold. by destruct (SMap.find k l). Qed.

Lemma find_app (k : string) (l l' : list (string * json)) : SMap.find k (l ++ l') = SMap.find k l ∪ SMap.find k l'.
Proof.
  induction l as [|[k' v] l IH]; simpl; [by destruct (SMap.find k l')|].
  destruct (decide (k = k')); [by destruct (SMap.find k l')|done].
Qed.

Lemma find_cons (k k' : string) (v : json) l : SMap.find k ((k', v) :: l) = (if decide (k = k') then Some v else None) ∪ SMap.find k l.
Proof. simpl. destruct (decide (k = k')); by destruct (SMap.find k l). Qed.

Lemma find_maybe {A} (k k' : string) (f : A -> json) o : SMap.find k (maybe k' f o) = if decide (k = k') then f <$> o else None.
Proof. destruct o; simpl; by destruct (decide (k = k')). Qed.

Lemma find_when (k k' : string) b v : SMap.find k (when b k' v) = if decide (k = k') then (if b then Some v else None) else None.
Proof. destruct b; simpl; by destruct (decide (k = k')). Qed.

Lemma keys_fold (l : list (string * json)) : forall acc x,
  x ∈ (fold_left (fun m kv => (SMap.emplace kv.1 kv.2 m).1) l acc).*1 -> x ∈ acc.*1 \/ x ∈ l.*1.
Proof.
  induction l as [|[k v] l IH]; intros acc x Hx; simpl in *; [by left|].
  apply IH in Hx as [Hx|Hx]; [|right; by constructor 2]. unfold SMap.emplace in Hx.
  destruct (SMap.find k acc); [by left|]. simpl in Hx. rewrite list_elem_of_In, SMap.set_fst_In in Hx.
  destruct Hx as [->|Hx]; [right; by constructor|left; by rewrite list_elem_of_In].
Qed.

Lemma or_none_l {A} (o : option A) : None ∪ o = o.
Proof. by destruct o. Qed.
Lemma or_none_r {A} (o : option A) : o ∪ None = o.
Proof. by destruct o. Qed.
Lemma or_some {A} (a : A) (o : option A) : Some a ∪ o = Some a.
Proof. by destruct o. Qed.

(** A single field to look up: the ones around it fall away. *)
Ltac find_field :=
  cbn [value_ Reader.see Reader.make]; rewrite find_obj;
  repeat first [rewrite find_app | rewrite find_maybe | rewrite find_when | rewrite find_cons];
  repeat first [rewrite decide_False by discriminate | rewrite decide_True by reflexivity];
  cbn [SMap.find];
  repeat first [rewrite or_none_l | rewrite or_none_r | rewrite or_some];
  try reflexivity.

(** The fields of an object are among the names read. *)
Lemma known_nil (s : list string) : (nil : list (string * json)).*1 ⊆ s.
Proof. intros ? []%not_elem_of_nil. Qed.
Lemma known_cons k (v : json) l (s : list string) : k ∈ s -> l.*1 ⊆ s -> ((k, v) :: l).*1 ⊆ s.
Proof. intros Hk Hl x [->|Hx]%elem_of_cons; [done|by apply Hl]. Qed.
Lemma known_app (l l' : list (string * json)) s : l.*1 ⊆ s -> l'.*1 ⊆ s -> ((l ++ l')%list).*1 ⊆ s.
Proof. intros H H' x. rewrite fmap_app. intros [Hx|Hx]%elem_of_app; [by apply H|by apply H']. Qed.
Lemma known_maybe {A} k (f : A -> json) o s : k ∈ s -> (maybe k f o).*1 ⊆ s.
Proof. intros Hk. destruct o; [by apply known_cons, known_nil|apply known_nil]. Qed.
Lemma known_when b k v s : k ∈ s -> (when b k v).*1 ⊆ s.
Proof. intros Hk. destruct b; [by apply known_cons, known_nil|apply known_nil]. Qed.

Ltac known :=
  cbn [seen_ Reader.see Reader.make];
  repeat first [refine (known_nil _) | refine (known_cons _ _ _ _ _ _) | refine (known_app _ _ _ _ _)
    | refine (known_maybe _ _ _ _ _) | refine (known_when _ _ _ _ _)];
  match goal with |- ?P => apply (bool_decide_unpack P); vm_compute; exact I end.

Section reading.
Import Reader Read.
Implicit Types (r : ObjectReader) (k : string).

Lemma bind_ok {A B} (m : Reader A) (f : A -> Reader B) r a r' : m r = Value (a, r') -> bind m f r = f a r'.
Proof. intros E. unfold bind. by rewrite E. Qed.

Lemma run_bind {A B} (m : Reader A) (f : A -> Reader B) r a r' :
  m r = Value (a, r') -> run (bind m f) r = run (f a) r'.
Proof. intros E. unfold run. by rewrite (bind_ok m f r a r'). Qed.

Lemma lift_ok {A} (x : Result A) a r : x = Value a -> lift x r = Value (a, r).
Proof. by intros ->. Qed.

Lemma Get_ok k r o : Json.Find k (value_ r) = o -> Get k r = Value (o, see k r).
Proof. by intros <-. Qed.

Lemma RequireString_ok k r s : Json.Find k (value_ r) = Some (JString s) -> RequireString k r = Value (s, see k r).
Proof. intros E. unfold RequireString, bind, Get. by rewrite E. Qed.

Lemma RequireInteger_ok k r z : Json.Find k (value_ r) = Some (JInteger z) -> RequireInteger k r = Value (z, see k r).
Proof. intros E. unfold RequireInteger, bind, Get. by rewrite E. Qed.

Lemma OptionalString_ok k d r o :
  Json.Find k (value_ r) = JString <$> o -> OptionalString k d r = Value (default d o, see k r).
Proof. intros E. unfold OptionalString, bind, Get. rewrite E. by destruct o. Qed.

Lemma OptionalString_map {A} k d r (f : A -> string) o :
  Json.Find k (value_ r) = (fun a => JString (f a)) <$> o ->
  OptionalString k d r = Value (match o with Some a => f a | None => d end, see k r).
Proof. intros E. unfold OptionalString, bind, Get. rewrite E. by destruct o. Qed.

Lemma OptionalString_when k d r (b : bool) s :
  Json.Find k (value_ r) = (if b then Some (JString s) else None) ->
  OptionalString k d r = Value (if b then s else d, see k r).
Proof. intros E. unfold OptionalString, bind, Get. rewrite E. by destruct b. Qed.

Lemma OptionalInteger_ok k r o :
  Json.Find k (value_ r) = JInteger <$> o -> OptionalInteger k r = Value (o, see k r).
Proof. intros E. unfold OptionalInteger, bind, Get. rewrite E. by destruct o. Qed.

Lemma OptionalInteger_when k r (b : bool) z :
  Json.Find k (value_ r) = (if b then Some (JInteger z) else None) ->
  OptionalInteger k r = Value (if b then Some z else None, see k r).
Proof. intros E. unfold OptionalInteger, bind, Get. rewrite E. by destruct b. Qed.

Lemma OptionalNumber_ok k r d : Json.Find k (value_ r) = Some (JNumber d) -> OptionalNumber k r = Value (Some d, see k r).
Proof. intros E. unfold OptionalNumber, bind, Get. by rewrite E. Qed.

Lemma OptionalBool_when k d r (b v : bool) :
  Json.Find k (value_ r) = (if b then Some (JBool v) else None) ->
  OptionalBool k d r = Value (if b then v else d, see k r).
Proof. intros E. unfold OptionalBool, bind, Get. rewrite E. by destruct b. Qed.

Lemma OptionalObject_when k d r (b : bool) o :
  Json.Find k (value_ r) = (if b then Some (JObject o) else None) ->
  OptionalObject k d r = Value (if b then JObject o else d, see k r).
Proof. intros E. unfold OptionalObject, bind, Get. rewrite E. by destruct b. Qed.

Lemma string_items_map ss : string_items (map JString ss) = Some ss.
Proof. induction ss as [|s ss IH]; simpl; [done|]. by rewrite IH. Qed.

Lemma OptionalStringArray_ok k r o :
  Json.Find k (value_ r) = (fun ss => JArray (map JString ss)) <$> o ->
  OptionalStringArray k r = Value (o, see k r).
Proof.
  intros E. unfold OptionalStringArray, bind, Get. rewrite E. destruct o; [|done]. simpl. by rewrite string_items_map.
Qed.

Lemma StringArray_ok k b d r ss :
  Json.Find k (value_ r) = Some (JArray (map JString ss)) -> StringArray k b d r = Value (ss, see k r).
Proof. intros E. unfold StringArray. by erewrite bind_ok; [|apply (OptionalStringArray_ok k r (Some ss))]. Qed.

Lemma StringArray_when k d r (b : bool) ss :
  Json.Find k (value_ r) = (if b then Some (JArray (map JString ss)) else None) ->
  StringArray k false d r = Value (if b then ss else d, see k r).
Proof.
  intros E. unfold StringArray. erewrite bind_ok; [|apply (OptionalStringArray_ok k r (if b then Some ss else None))];
    [by destruct b|]. by destruct b.
Qed.

Lemma path_ok r : path r = Value (path_ r, r).
Proof. done. Qed.

Lemma Finish_ok r l : value_ r = Json.obj l -> l.*1 ⊆ seen_ r -> Finish r = Value (tt, r).
Proof.
  intros Ev Hl. unfold Finish. destruct (allow_unknown_ r); [done|]. rewrite Ev. unfold Json.obj.
  destruct (List.find _ _) as [[k v]|] eqn:E; [|done].
  apply List.find_some in E as [Hin Hn]. case_bool_decide as Hs; [done|]. exfalso. apply Hs, Hl. simpl.
  assert (Hk : k ∈ (fold_left (fun m kv => (SMap.emplace kv.1 kv.2 m).1) l []).*1).
  { rewrite list_elem_of_In. apply in_map_iff. by exists (k, v). }
  apply keys_fold in Hk as [Hk|Hk]; [by apply not_elem_of_nil in Hk|done].
Qed.

(** What [Finish] refuses: a document with a field nobody asked for. *)
Lemma Finish_spec r r' o :
  value_ r = JObject o -> Finish r = Value (tt, r') -> r' = r /\ (allow_unknown_ r = true \/ o.*1 ⊆ seen_ r).
Proof.
  intros Ev. unfold Finish. destruct (allow_unknown_ r) eqn:Ea; [intros [= <-]; by split; [|left]|]. rewrite Ev.
  destruct (List.find _ o) as [[k v]|] eqn:E; [done|]. intros [= <-]. split; [done|]. right.
  intros k Hk. apply list_elem_of_fmap in Hk as ([k' v] & -> & Hin). rewrite list_elem_of_In in Hin.
  pose proof (List.find_none _ _ E _ Hin) as Hn. simpl in *. by case_bool_decide.
Qed.

Lemma header_ok fields kind id c (au : bool) :
  let doc := Json.obj (([("kind", JString kind); ("schema_version", JInteger 1); ("$id", JString id)] ++
    when au "allow_unknown_fields" (JBool true)) ++ fields)%list in
  Json.Find "allow_unknown_fields" (Json.obj fields) = None ->
  CheckDocumentHeader doc kind 1 id c = Value au.
Proof.
  intros doc Hn. rewrite find_obj in Hn. unfold CheckDocumentHeader, Json.GetString. change (Json.is_object doc) with true.
  assert (F1 : Json.Find "kind" doc = Some (JString kind)) by (unfold doc; find_field).
  assert (F2 : Json.Find "schema_version" doc = Some (JInteger 1)) by (unfold doc; find_field).
  assert (F3 : Json.Find "$id" doc = Some (JString id)) by (unfold doc; find_field).
  assert (F4 : Json.Find "allow_unknown_fields" doc = if au then Some (JBool true) else None).
  { unfold doc. find_field. by rewrite Hn, or_none_r. }
  rewrite F1, F2, F3, F4, !bool_decide_true by done. by destruct au.
Qed.

End reading.
