(* ===== verification/GraphJson.v ===== *)
(** The JSON form of graphs and mutation patches (src/graph_spec_json.cpp):
    the parsers over [ObjectReader] and the writers. The [options] of a node
    and the [extra] options of a graph are objects, as their defaults are;
    [as_object] throws on anything else. *)

From stdpp Require Import base numbers list strings sorting.
From Stdlib Require Import ZArith Lia Ascii String.
From S2P Require Import Prelude Types Double Json JsonParser GraphSpec JsonReader.

Local Open Scope string_scope.
Local Open Scope Z_scope.
Local Open Scope ge_scope.

Import Reader Read.

Definition GraphInvalid {A} (m : string) : Result A := ResultOps.of_status (StatusOps.GraphInvalid m).
Definition graph_reader (v : json) (path : string) (allow_unknown : bool) : ObjectReader :=
  Reader.make v path allow_unknown GE_STATUS_GRAPH_INVALID.

(** ["nodes[" + std::to_string(i) + "]"] *)
Definition indexed (p : string) (i : nat) : string := p ++ "[" ++ Dec.to_string (Z.of_nat i) ++ "]".

(** A loop over array elements, each parsed at its indexed path. *)
Fixpoint parse_items {A} (f : json -> string -> Result A) (p : string) (i : nat) (l : list json) : Result (list A) :=
  match l with
  | [] => Value []
  | v :: l' => let? a := f v (indexed p i) in let? rest := parse_items f p (S i) l' in Value (a :: rest)
  end.

(** [for (auto& [k, v] : obj) target[k] = v.as_string()], [what k] when one is
    not a string. *)
Fixpoint string_fields (what : string -> string) (o : list (string * json)) (m : list (string * string))
    : Result (list (string * string)) :=
  match o with
  | [] => Value m
  | (k, JString s) :: o' => string_fields what o' (SMap.set k s m)
  | (k, _) :: _ => GraphInvalid (what k)
  end.

(** ** Parsing *)

Definition ParseOperatorKey (text path : string) : Result OperatorKey :=
  match OperatorKeyOps.Parse text with
  | Some k => Value k
  | None => GraphInvalid ("invalid operator '" ++ text ++ "' in " ++ path ++ " (expected type@version)")
  end.

(** The [executor] object of a node. *)
Definition ParseExecutor (v : json) (path : string) (allow_unknown : bool) : Result ExecutorSpec :=
  if negb (Json.is_object v) then GraphInvalid (path ++ ".executor must be an object")
  else run (
    let@ kind := OptionalString "kind" "auto" in
    match ParseExecutorKind kind with
    | None => lift (GraphInvalid ("invalid executor.kind '" ++ kind ++ "' in " ++ path))
    | Some k =>
        let@ device := OptionalInteger "device_id" in
        let@ d := match device with
                  | None => ret None
                  | Some z =>
                      if bool_decide (k <> kExecGpu)
                      then lift (GraphInvalid (path ++ ": device_id only allowed when executor.kind is gpu"))
                      else ret (Some (Word.i32 z))
                  end in
        let@ _ := Finish in
        ret (MkExecutorSpec k d)
    end) (graph_reader v (path ++ ".executor") allow_unknown).

Definition ParseNode (allow_unknown : bool) (v : json) (path : string) : Result NodeSpec :=
  if negb (Json.is_object v) then GraphInvalid (path ++ " must be an object")
  else run (
    let@ id := RequireString "id" in
    let@ op := RequireString "operator" in
    let@ key := lift (ParseOperatorKey op path) in
    let@ ex := Get "executor" in
    let@ executor := match ex with
                     | None => ret default_executor
                     | Some e => lift (ParseExecutor e path allow_unknown)
                     end in
    let@ parallelism := OptionalInteger "parallelism" in
    let@ par := match parallelism with
                | None => ret 1
                | Some p => if p <? 1 then lift (GraphInvalid (path ++ ": parallelism must be >= 1")) else ret (Word.u32 p)
                end in
    let@ options := OptionalObject "options" (JObject []) in
    let@ labels := Get "labels" in
    let@ ls := match labels with
               | None => ret []
               | Some (JObject o) => lift (string_fields (fun k => path ++ ".labels." ++ k ++ " must be a string") o [])
               | Some _ => WrongType "labels" "object"
               end in
    let@ _ := Finish in
    ret (MkNodeSpec id key executor par options ls)) (graph_reader v path allow_unknown).

Definition ParseEndpoint (key : string) : Reader PortRef :=
  let@ text := RequireString key in
  let@ p := path in
  match PortRef_Parse text with
  | Some r => ret r
  | None => lift (GraphInvalid ("invalid endpoint '" ++ text ++ "' in " ++ p ++ " (expected <node_id>.<port>)"))
  end.

Definition ParseQueue (v : json) (path : string) (allow_unknown : bool) : Result QueueSpec :=
  if negb (Json.is_object v) then GraphInvalid (path ++ ".queue must be an object")
  else run (
    let@ capacity := OptionalInteger "capacity" in
    let@ c := match capacity with
              | None => ret (q_capacity default_queue)
              | Some c => if c <? 1 then lift (GraphInvalid (path ++ ": queue.capacity must be >= 1")) else ret (Word.u32 c)
              end in
    let@ policy := OptionalString "policy" "" in
    let@ p := if Str.empty policy then ret (q_policy default_queue)
              else match ParseDropPolicy policy with
              | None => lift (GraphInvalid ("invalid queue.policy '" ++ policy ++ "' in " ++ path))
              | Some p => ret p
              end in
    let@ max_bytes := OptionalInteger "max_packet_bytes" in
    let@ m := match max_bytes with
              | None => ret None
              | Some b =>
                  if b <=? 0 then lift (GraphInvalid (path ++ ": queue.max_packet_bytes must be > 0"))
                  else ret (Some (Word.u64 b))
              end in
    let@ _ := Finish in
    ret (MkQueueSpec c p m)) (graph_reader v (path ++ ".queue") allow_unknown).

Definition ParseEdge (allow_unknown : bool) (v : json) (path : string) : Result EdgeSpec :=
  if negb (Json.is_object v) then GraphInvalid (path ++ " must be an object")
  else run (
    let@ id := OptionalString "id" "" in
    let@ from := ParseEndpoint "from" in
    let@ to := ParseEndpoint "to" in
    let@ q := Get "queue" in
    let@ queue := match q with None => ret default_queue | Some q => lift (ParseQueue q path allow_unknown) end in
    let@ sync := OptionalString "sync" "" in
    let@ sp := if Str.empty sync then ret None
               else match ParseSyncPolicy sync with
               | None => lift (GraphInvalid ("invalid sync '" ++ sync ++ "' in " ++ path))
               | Some p => ret (Some p)
               end in
    let@ feedback := OptionalBool "feedback" false in
    let@ _ := Finish in
    ret (MkEdgeSpec id from to queue sp feedback)) (graph_reader v path allow_unknown).

Definition ParseRemovePolicyField : Reader (option RemovePolicy) :=
  let@ text := OptionalString "remove_policy" "" in
  let@ p := path in
  if Str.empty text then ret None
  else match ParseRemovePolicy text with
  | Some x => ret (Some x)
  | None => lift (GraphInvalid ("invalid remove_policy '" ++ text ++ "' in " ++ p))
  end.

Definition ParseModeField : Reader RemoveMode :=
  let@ text := OptionalString "mode" "" in
  let@ p := path in
  if Str.empty text then ret kDisconnect
  else match ParseRemoveMode text with
  | Some x => ret x
  | None => lift (GraphInvalid ("invalid mode '" ++ text ++ "' in " ++ p))
  end.

Definition ParseChainPorts (v : json) (path : string) (allow_unknown : bool) : Result ChainPorts :=
  if negb (Json.is_object v) then GraphInvalid (path ++ ".ports must be an object")
  else run (
    let@ i := OptionalString "chain_input" "" in
    let@ o := OptionalString "chain_output" "" in
    let@ _ := Finish in
    ret (MkChainPorts (if Str.empty i then None else Some i) (if Str.empty o then None else Some o)))
    (graph_reader v (path ++ ".ports") allow_unknown).

(** One direction of a [port_mapping]. *)
Definition ParseMappingSide (path dir : string) : Reader (list (string * string)) :=
  let@ m := Get dir in
  match m with
  | None => ret []
  | Some (JObject o) =>
      lift (string_fields (fun k => path ++ ".port_mapping." ++ dir ++ "." ++ k ++ " must be a string") o [])
  | Some _ => WrongType dir "object"
  end.

Definition ParsePortMapping (v : json) (path : string) (allow_unknown : bool) : Result PortMapping :=
  if negb (Json.is_object v) then GraphInvalid (path ++ ".port_mapping must be an object")
  else run (
    let@ i := ParseMappingSide path "inputs" in
    let@ o := ParseMappingSide path "outputs" in
    let@ _ := Finish in
    ret (MkPortMapping i o)) (graph_reader v (path ++ ".port_mapping") allow_unknown).

(** The alternatives of [ParseAction], each reading the fields of its
    action. *)
Definition ParseInsertChain (path : string) (allow_unknown : bool) : Reader MutationAction :=
  let@ edge := RequireString "edge" in
  let@ nodes := Get "nodes" in
  match nodes with
  | None => Missing "nodes"
  | Some (JArray (n :: ns)) =>
      let@ chain := lift (parse_items (ParseNode allow_unknown) (path ++ ".nodes") 0 (n :: ns)) in
      let@ ports := Get "ports" in
      let@ cp := match ports with
                 | None => ret (MkChainPorts None None)
                 | Some p => lift (ParseChainPorts p path allow_unknown)
                 end in
      ret (InsertChainAction edge chain cp)
  | Some _ => lift (GraphInvalid (path ++ ".nodes must be a non-empty array"))
  end.

Definition ParseRemoveChain (path : string) : Reader MutationAction :=
  let@ nodes := StringArray "nodes" true [] in
  match nodes with
  | [] => lift (GraphInvalid (path ++ ".nodes must be non-empty"))
  | _ =>
      let@ mode := ParseModeField in
      let@ policy := ParseRemovePolicyField in
      ret (RemoveChainAction nodes mode policy)
  end.

(** The [replacement] object: operator and options. *)
Definition ParseReplacement (v : json) (p : string) (allow_unknown : bool) : Result (OperatorKey * json) :=
  if negb (Json.is_object v) then GraphInvalid (p ++ ".replacement must be an object")
  else run (
    let@ op := RequireString "operator" in
    let@ rp := path in
    let@ key := lift (ParseOperatorKey op rp) in
    let@ options := OptionalObject "options" (JObject []) in
    let@ _ := Finish in
    ret (key, options)) (graph_reader v (p ++ ".replacement") allow_unknown).

Definition ParseReplaceNode (path : string) (allow_unknown : bool) : Reader MutationAction :=
  let@ node := RequireString "node" in
  let@ rep := Get "replacement" in
  match rep with
  | None => Missing "replacement"
  | Some rep =>
      let@ kv := lift (ParseReplacement rep path allow_unknown) in
      let@ pm := Get "port_mapping" in
      let@ mapping := match pm with
                      | None => ret None
                      | Some m => let@ x := lift (ParsePortMapping m path allow_unknown) in ret (Some x)
                      end in
      let@ policy := ParseRemovePolicyField in
      ret (ReplaceNodeAction node kv.1 kv.2 mapping policy)
  end.

Definition ParseRemoveBranch (path : string) : Reader MutationAction :=
  let@ entry_edge := OptionalString "entry_edge" "" in
  let@ entry_edges := StringArray "entry_edges" false [] in
  if Str.empty entry_edge && negb (has (head entry_edges))
  then lift (GraphInvalid (path ++ " needs entry_edge or a non-empty entry_edges"))
  else
    let entry := if Str.empty entry_edge then hd "" entry_edges else entry_edge in
    let@ nodes := StringArray "nodes" true [] in
    match nodes with
    | [] => lift (GraphInvalid (path ++ ".nodes must be non-empty"))
    | _ => let@ policy := ParseRemovePolicyField in ret (RemoveBranchAction entry nodes policy entry_edges)
    end.

Definition ParseAction (allow_unknown : bool) (v : json) (path : string) : Result MutationAction :=
  if negb (Json.is_object v) then GraphInvalid (path ++ " must be an object")
  else run (
    let@ type := RequireString "type" in
    let@ action :=
      if bool_decide (type = "add_node") then
        let@ node := Get "node" in
        match node with
        | None => Missing "node"
        | Some n => let@ x := lift (ParseNode allow_unknown n (path ++ ".node")) in ret (AddNodeAction x)
        end
      else if bool_decide (type = "remove_node") then
        let@ node := RequireString "node" in
        let@ mode := ParseModeField in
        let@ policy := ParseRemovePolicyField in
        ret (RemoveNodeAction node mode policy)
      else if bool_decide (type = "insert_chain") then ParseInsertChain path allow_unknown
      else if bool_decide (type = "remove_chain") then ParseRemoveChain path
      else if bool_decide (type = "replace_node") then ParseReplaceNode path allow_unknown
      else if bool_decide (type = "remove_branch") then ParseRemoveBranch path
      else if bool_decide (type = "add_edge") then
        let@ edge := Get "edge" in
        match edge with
        | None => Missing "edge"
        | Some e => let@ x := lift (ParseEdge allow_unknown e (path ++ ".edge")) in ret (AddEdgeAction x)
        end
      else if bool_decide (type = "remove_edge") then
        let@ edge := RequireString "edge" in ret (RemoveEdgeAction edge)
      else if bool_decide (type = "set_node_options") then
        let@ node := RequireString "node" in
        let@ params := Get "parameters" in
        match params with
        | None => Missing "parameters"
        | Some (JObject o) => ret (SetNodeOptionsAction node (JObject o))
        | Some _ => WrongType "parameters" "object"
        end
      else lift (GraphInvalid ("unknown action type '" ++ type ++ "' in " ++ path)) in
    let@ _ := Finish in
    ret action) (graph_reader v path allow_unknown).

(** The [options] of a graph: two known keys, the others kept. *)
Fixpoint graph_options (o : list (string * json)) (go : GraphOptions) : Result GraphOptions :=
  match o with
  | [] => Value go
  | (k, v) :: o' =>
      if bool_decide (k = "default_device_id") then
        match v with
        | JInteger z => graph_options o' (MkGraphOptions (Some (Word.i32 z)) (go_allow_default_operator_version go) (go_extra go))
        | _ => GraphInvalid "options.default_device_id must be integer"
        end
      else if bool_decide (k = "allow_default_operator_version") then
        match v with
        | JBool b => graph_options o' (MkGraphOptions (go_default_device_id go) b (go_extra go))
        | _ => GraphInvalid "options.allow_default_operator_version must be boolean"
        end
      else
        let extra := match go_extra go with JObject x => (SMap.emplace k v x).1 | _ => [] end in
        graph_options o' (MkGraphOptions (go_default_device_id go) (go_allow_default_operator_version go) (JObject extra))
  end.

(** The loops over [nodes] and [edges]: parse, then add. *)
Fixpoint add_nodes (allow_unknown : bool) (i : nat) (l : list json) (g : GraphSpec) : Result GraphSpec :=
  match l with
  | [] => Value g
  | v :: l' =>
      let? n := ParseNode allow_unknown v (indexed "nodes" i) in
      let '(s, g') := GraphOps.AddNode n g in
      if StatusOps.ok s then add_nodes allow_unknown (S i) l' g' else ResultOps.of_status s
  end.
Fixpoint add_edges (allow_unknown : bool) (i : nat) (l : list json) (g : GraphSpec) : Result GraphSpec :=
  match l with
  | [] => Value g
  | v :: l' =>
      let? e := ParseEdge allow_unknown v (indexed "edges" i) in
      let '(s, g') := GraphOps.AddEdge e g in
      if StatusOps.ok s then add_edges allow_unknown (S i) l' g' else ResultOps.of_status s
  end.

Definition graph_schema_id : string := "ge.dev/schema/graph/v1".
Definition patch_schema_id : string := "ge.dev/schema/patch/v1".

Definition ParseGraph (doc : json) : Result GraphSpec :=
  let? allow_unknown := CheckDocumentHeader doc "GraphSpec" 1 graph_schema_id GE_STATUS_GRAPH_INVALID in
  run (
    let@ _ := MarkHeaderSeen in
    let@ name := RequireString "name" in
    let@ description := OptionalString "description" "" in
    let@ opts := Get "options" in
    let@ go := match opts with
               | None => ret default_options
               | Some (JObject o) => lift (graph_options o default_options)
               | Some _ => WrongType "options" "object"
               end in
    let g := MkGraphSpec name description go allow_unknown [] [] in
    let@ nodes := Get "nodes" in
    let@ g := match nodes with
              | None => Missing "nodes"
              | Some (JArray []) => lift (GraphInvalid "GraphSpec.nodes must contain at least one node")
              | Some (JArray ns) => lift (add_nodes allow_unknown 0 ns g)
              | Some _ => WrongType "nodes" "array"
              end in
    let@ edges := Get "edges" in
    let@ g := match edges with
              | None => Missing "edges"
              | Some (JArray es) => lift (add_edges allow_unknown 0 es g)
              | Some _ => WrongType "edges" "array"
              end in
    let@ _ := Finish in
    ret g) (graph_reader doc "GraphSpec" allow_unknown).

Definition ParsePatch (doc : json) : Result MutationPatch :=
  let? allow_unknown := CheckDocumentHeader doc "MutationPatch" 1 patch_schema_id GE_STATUS_GRAPH_INVALID in
  run (
    let@ _ := MarkHeaderSeen in
    let@ base := OptionalInteger "base_topology_version" in
    let@ b := match base with
              | None => ret None
              | Some z =>
                  if z <? 0 then lift (GraphInvalid "base_topology_version must be >= 0")
                  else ret (Some (Word.u64 z))
              end in
    let@ policy := ParseRemovePolicyField in
    let@ actions := Get "actions" in
    match actions with
    | None => Missing "actions"
    | Some (JArray l) =>
        let@ acts := lift (parse_items (ParseAction allow_unknown) "actions" 0 l) in
        let@ _ := Finish in
        ret (MkMutationPatch b (default kDrain policy) acts allow_unknown)
    | Some _ => WrongType "actions" "array"
    end) (graph_reader doc "MutationPatch" allow_unknown).

(** The texts. *)
Definition ParseGraphText (text : string) : Result GraphSpec :=
  match ParseJson text with inl v => ParseGraph v | inr e => GraphInvalid ("invalid JSON: " ++ e) end.
Definition ParsePatchText (text : string) : Result MutationPatch :=
  match ParseJson text with inl v => ParsePatch v | inr e => GraphInvalid ("invalid JSON: " ++ e) end.

(** ** Writing *)

Definition string_array (v : list string) : json := JArray (map JString v).
Definition string_object (m : list (string * string)) : json := Json.obj (map (fun kv => (kv.1, JString kv.2)) m).
Definition nonempty_object (v : json) : bool := match v with JObject (_ :: _) => true | _ => false end.

Definition ExecutorJson (x : ExecutorSpec) : json :=
  Json.obj (("kind", JString (ExecutorKind_ToString (ex_kind x))) :: maybe "device_id" JInteger (ex_device_id x)).

Definition NodeJson (n : NodeSpec) : json :=
  Json.obj (
    [("id", JString (ns_id n)); ("operator", JString (OperatorKeyOps.ToString (ns_op n)))] ++
    when (bool_decide (ex_kind (ns_executor n) <> kAuto) || has (ex_device_id (ns_executor n)))
      "executor" (ExecutorJson (ns_executor n)) ++
    when (negb (ns_parallelism n =? 1)) "parallelism" (JInteger (ns_parallelism n)) ++
    when (nonempty_object (ns_options n)) "options" (ns_options n) ++
    when (has (head (ns_labels n))) "labels" (string_object (ns_labels n)))%list.

Definition QueueJson (q : QueueSpec) : json :=
  Json.obj ([("capacity", JInteger (q_capacity q)); ("policy", JString (DropPolicy_ToString (q_policy q)))] ++
    maybe "max_packet_bytes" Json.of_u64 (q_max_packet_bytes q))%list.

Definition EdgeJson (e : EdgeSpec) : json :=
  Json.obj (
    when (negb (Str.empty (es_id e))) "id" (JString (es_id e)) ++
    [("from", JString (PortRef_ToString (es_from e))); ("to", JString (PortRef_ToString (es_to e)))] ++
    when (bool_decide (es_queue e <> default_queue)) "queue" (QueueJson (es_queue e)) ++
    maybe "sync" (fun p => JString (SyncPolicy_ToString p)) (es_sync e) ++
    when (es_feedback e) "feedback" (JBool true))%list.

(** The header every document starts with. *)
Definition header (kind schema_id : string) (allow_unknown : bool) : list (string * json) :=
  [("kind", JString kind); ("schema_version", JInteger 1); ("$id", JString schema_id)] ++
  when allow_unknown "allow_unknown_fields" (JBool true).

Definition OptionsJson (o : GraphOptions) : list (string * json) :=
  let extra := match go_extra o with JObject x => x | _ => [] end in
  let opts := match go_default_device_id o with
              | Some d => (SMap.emplace "default_device_id" (JInteger d) extra).1
              | None => extra
              end in
  if go_allow_default_operator_version o
  then (SMap.emplace "allow_default_operator_version" (JBool true) opts).1 else opts.

Definition GraphJson (g : GraphSpec) : json :=
  Json.obj (
    header "GraphSpec" graph_schema_id (allow_unknown_fields_ g) ++
    [("name", JString (name_ g))] ++
    when (negb (Str.empty (description_ g))) "description" (JString (description_ g)) ++
    when (has (head (OptionsJson (options_ g)))) "options" (JObject (OptionsJson (options_ g))) ++
    [("nodes", JArray (map NodeJson (nodes_ g))); ("edges", JArray (map EdgeJson (edges_ g)))])%list.
Definition SerializeGraph (g : GraphSpec) : string := Json.Serialize (GraphJson g).

Definition policy_json (p : option RemovePolicy) : list (string * json) :=
  maybe "remove_policy" (fun p => JString (RemovePolicy_ToString p)) p.
Definition mode_json (m : RemoveMode) : string * json := ("mode", JString (RemoveMode_ToString m)).

Definition ChainPortsJson (p : ChainPorts) : json :=
  Json.obj (maybe "chain_input" JString (chain_input p) ++ maybe "chain_output" JString (chain_output p))%list.
Definition ReplacementJson (op : OperatorKey) (options : json) : json :=
  Json.obj (("operator", JString (OperatorKeyOps.ToString op)) :: when (nonempty_object options) "options" options).
Definition PortMappingJson (m : PortMapping) : json :=
  Json.obj [("inputs", string_object (pm_inputs m)); ("outputs", string_object (pm_outputs m))].

Definition ActionFields (a : MutationAction) : list (string * json) :=
  match a with
  | AddNodeAction n => [("node", NodeJson n)]
  | RemoveNodeAction n mode p => [("node", JString n); mode_json mode] ++ policy_json p
  | InsertChainAction e ns ports =>
      [("edge", JString e); ("nodes", JArray (map NodeJson ns))] ++
      when (has (chain_input ports) || has (chain_output ports)) "ports" (ChainPortsJson ports)
  | RemoveChainAction ns mode p => [("nodes", string_array ns); mode_json mode] ++ policy_json p
  | ReplaceNodeAction n op options mapping p =>
      [("node", JString n); ("replacement", ReplacementJson op options)] ++
      maybe "port_mapping" PortMappingJson mapping ++ policy_json p
  | RemoveBranchAction entry ns p entries =>
      [match entries with [] => ("entry_edge", JString entry) | _ => ("entry_edges", string_array entries) end;
       ("nodes", string_array ns)] ++ policy_json p
  | AddEdgeAction e => [("edge", EdgeJson e)]
  | RemoveEdgeAction e => [("edge", JString e)]
  | SetNodeOptionsAction n params => [("node", JString n); ("parameters", params)]
  end%list.
Definition ActionJson (a : MutationAction) : json := Json.obj (("type", JString (ActionTypeName a)) :: ActionFields a).

Definition PatchJson (p : MutationPatch) : json :=
  Json.obj (
    header "MutationPatch" patch_schema_id (mp_allow_unknown_fields p) ++
    maybe "base_topology_version" Json.of_u64 (mp_base_topology_version p) ++
    [("remove_policy", JString (RemovePolicy_ToString (mp_remove_policy p)));
     ("actions", JArray (map ActionJson (mp_actions p)))])%list.
Definition SerializePatch (p : MutationPatch) : string := Json.Serialize (PatchJson p).
