(* ===== verification/GraphJsonProofs.v ===== *)
(** The JSON form of graphs and patches is faithful: what the writers of
    GraphJson.v write, the parsers read back. *)

From stdpp Require Import base numbers list strings sorting.
From Stdlib Require Import ZArith Lia Ascii String.
From S2P Require Import Prelude Types Double Json JsonParser JsonProofs JsonRoundTrip GraphSpec GraphSpecProofs PacketProofs JsonReader GraphJson.

Local Open Scope string_scope.
Local Open Scope Z_scope.
Local Open Scope ge_scope.

Import Reader Read.

(** One step of a reader whose field is in the object. *)
Ltac step := first [erewrite run_bind | erewrite bind_ok].
Tactic Notation "read" uconstr(L) := step; [|eapply L; find_field]; cbv beta iota.
(** A step that depends on what was read: its value is [a]. *)
Tactic Notation "chose" uconstr(a) :=
  match goal with
  | |- run (bind ?m ?f) ?r = _ => refine (eq_trans (run_bind m f r a r _) _)
  | |- bind ?m ?f ?r = _ => refine (eq_trans (bind_ok m f r a r _) _)
  end; cbv beta.
Ltac finish := step; [|eapply Finish_ok; [reflexivity|known]]; cbv beta.
Ltac returns n :=
  match goal with
  | |- run (ret ?x) _ = _ => replace x with n; [reflexivity|]
  | |- ret ?x _ = _ => replace x with n; [reflexivity|]
  end.

Lemma OperatorKey_reads k p :
  OperatorKeyOps.wf k = true -> ParseOperatorKey (OperatorKeyOps.ToString k) p = Value k.
Proof.
  intros Hk. unfold ParseOperatorKey. destruct k as [ty ver].
  unfold OperatorKeyOps.Parse, OperatorKeyOps.wf, OperatorKeyOps.ToString in *. cbn [type_name semantic_version] in *.
  destruct (Str.empty ty) eqn:Et, (Str.empty ver) eqn:Ev, (split_first "@" ty) eqn:E; try done.
  rewrite Str.app_cons, Str.app_nil_l, split_first_app by done. by rewrite Et, Ev.
Qed.

Definition port_ok (r : PortRef) : Prop :=
  IsValidStableId (node_id r) = true /\ split_first "." (node_id r) = None /\ port r <> EmptyString.

Lemma PortRef_reads r : port_ok r -> PortRef_Parse (PortRef_ToString r) = Some r.
Proof.
  destruct r as [n p]. intros (Hv & Hs & Hp). unfold PortRef_Parse, PortRef_ToString. cbn [node_id port] in *.
  rewrite Str.app_cons, Str.app_nil_l, split_first_app by done. destruct p as [|c p]; [done|]. destruct n as [|c' n]; [done|].
  rewrite Hv. done.
Qed.

(** ** Nodes *)

Record node_ok (n : NodeSpec) : Prop := {
  no_op : OperatorKeyOps.wf (ns_op n) = true;
  no_device : match ex_device_id (ns_executor n) with
              | Some d => ex_kind (ns_executor n) = kExecGpu /\ Word.is_i32 d
              | None => True
              end;
  no_parallelism : 1 <= ns_parallelism n < 2 ^ 32;
  no_options : Json.is_object (ns_options n) = true;
  no_labels : SMap.sorted (ns_labels n);
}.

Lemma ExecutorKind_reads k : ParseExecutorKind (ExecutorKind_ToString k) = Some k.
Proof. by destruct k. Qed.

Lemma Executor_reads x p au :
  match ex_device_id x with Some d => ex_kind x = kExecGpu /\ Word.is_i32 d | None => True end ->
  ParseExecutor (ExecutorJson x) p au = Value x.
Proof.
  intros Hd. unfold ParseExecutor, ExecutorJson, graph_reader. change (negb (Json.is_object (Json.obj _))) with false. cbn match.
  read (OptionalString_when _ _ _ true). rewrite ExecutorKind_reads.
  read OptionalInteger_ok.
  chose (ex_device_id x); [|finish; returns x; by destruct x].
  destruct (ex_device_id x) as [d|]; [|done]. destruct Hd as [-> Hd]. simpl. by rewrite Word.i32_small.
Qed.

Lemma string_fields_reads what (l : list (string * string)) : forall acc,
  SMap.sorted (acc ++ l)%list ->
  string_fields what (map (fun kv => (kv.1, JString kv.2)) l) acc = Value (acc ++ l)%list.
Proof.
  induction l as [|[k s] l IH]; intros acc Hs; simpl; [by rewrite app_nil_r|].
  rewrite SMap.set_snoc by by apply (SMap.sorted_app_below acc (k, s) l). rewrite IH; [by rewrite <- app_assoc|by rewrite <- app_assoc].
Qed.

Lemma string_object_fields m : SMap.sorted m -> string_object m = JObject (map (fun kv => (kv.1, JString kv.2)) m).
Proof. intros Hm. unfold string_object. apply obj_sorted. by apply (sorted_map_snd JString). Qed.

Lemma string_object_reads what m :
  SMap.sorted m -> exists o, string_object m = JObject o /\ string_fields what o [] = Value m.
Proof. intros Hm. eexists. split; [by apply string_object_fields|]. by apply (string_fields_reads what m []). Qed.

(** An executor that is left out is the default one. *)
Lemma executor_default x : bool_decide (ex_kind x <> kAuto) || has (ex_device_id x) = false -> x = default_executor.
Proof. destruct x as [[] []]; simpl; try done. Qed.

Lemma Node_reads au n p : node_ok n -> ParseNode au (NodeJson n) p = Value n.
Proof.
  intros [Hop Hd Hp Ho Hl]. unfold ParseNode, NodeJson, graph_reader.
  change (negb (Json.is_object (Json.obj _))) with false. cbn match.
  read RequireString_ok. read RequireString_ok. step; [|by apply lift_ok, OperatorKey_reads]. cbv beta.
  read Get_ok. chose (ns_executor n).
  { destruct (bool_decide (ex_kind (ns_executor n) <> kAuto) || has (ex_device_id (ns_executor n))) eqn:E.
    - by apply lift_ok, Executor_reads.
    - by rewrite (executor_default _ E). }
  read OptionalInteger_when. chose (ns_parallelism n).
  { destruct (Z.eqb_spec (ns_parallelism n) 1) as [E|E]; simpl; [by rewrite E|].
    rewrite (proj2 (Z.ltb_ge _ _)) by lia. by rewrite Word.u32_small by (unfold Word.is_u32; lia). }
  assert (Hopt : exists o, ns_options n = JObject o) by (destruct (ns_options n); try done; eauto).
  destruct Hopt as [o Hopt]. rewrite Hopt.
  step; [|eapply (OptionalObject_when _ _ _ (nonempty_object (ns_options n)) o); rewrite Hopt; find_field]. cbv beta.
  read Get_ok. chose (ns_labels n).
  { destruct (ns_labels n) as [|kv l] eqn:E; [done|]. rewrite <- E in *. 
    destruct (string_object_reads (fun k => p ++ ".labels." ++ k ++ " must be a string") _ Hl) as (ob & Eo & Er).
    replace (has (head (ns_labels n))) with true by (by rewrite E). rewrite Eo. by apply lift_ok. }
  finish. returns n. destruct n as [i op x par opt ls]. simpl in *. subst opt. f_equal. by destruct o.
Qed.

(** ** Edges *)

Record edge_ok (e : EdgeSpec) : Prop := {
  eo_from : port_ok (es_from e);
  eo_to : port_ok (es_to e);
  eo_capacity : 1 <= q_capacity (es_queue e) < 2 ^ 32;
  eo_bytes : match q_max_packet_bytes (es_queue e) with Some b => 0 < b < 2 ^ 63 | None => True end;
}.

Lemma Queue_reads q p au :
  1 <= q_capacity q < 2 ^ 32 ->
  match q_max_packet_bytes q with Some b => 0 < b < 2 ^ 63 | None => True end ->
  ParseQueue (QueueJson q) p au = Value q.
Proof.
  intros Hc Hb. unfold ParseQueue, QueueJson, graph_reader.
  change (negb (Json.is_object (Json.obj _))) with false. cbn match.
  read (OptionalInteger_ok _ _ (Some _)). chose (q_capacity q).
  { rewrite (proj2 (Z.ltb_ge _ _)) by lia. by rewrite Word.u32_small by (unfold Word.is_u32; lia). }
  read (OptionalString_when _ _ _ true). chose (q_policy q); [by destruct (q_policy q)|].
  step; [|apply (OptionalInteger_ok _ _ (q_max_packet_bytes q)); find_field].
  2: { destruct (q_max_packet_bytes q) as [b|]; [|done]. simpl. unfold Json.of_u64.
       by rewrite Word.i64_small by (unfold Word.is_i64; lia). }
  cbv beta. chose (q_max_packet_bytes q).
  { destruct (q_max_packet_bytes q) as [b|]; [|done]. rewrite (proj2 (Z.leb_gt _ _)) by lia.
    by rewrite Word.u64_small by (unfold Word.is_u64; lia). }
  finish. returns q. by destruct q.
Qed.

Lemma Endpoint_reads key r x :
  Json.Find key (value_ r) = Some (JString (PortRef_ToString x)) -> port_ok x ->
  ParseEndpoint key r = Value (x, see key r).
Proof.
  intros Hf Hx. unfold ParseEndpoint. erewrite bind_ok by by apply RequireString_ok. cbv beta.
  erewrite bind_ok by by apply path_ok. cbv beta. by rewrite PortRef_reads.
Qed.

Lemma if_empty (s : string) : (if negb (Str.empty s) then s else "") = s.
Proof. by destruct s. Qed.

Lemma Edge_reads au e p : edge_ok e -> ParseEdge au (EdgeJson e) p = Value e.
Proof.
  intros [Hf Ht Hc Hb]. unfold ParseEdge, EdgeJson, graph_reader.
  change (negb (Json.is_object (Json.obj _))) with false. cbn match.
  read OptionalString_when. rewrite if_empty.
  step; [|apply Endpoint_reads; [find_field|done]]; cbv beta.
  step; [|apply Endpoint_reads; [find_field|done]]; cbv beta.
  read Get_ok. chose (es_queue e).
  { case_bool_decide as E; [by apply lift_ok, Queue_reads|]. destruct (decide (es_queue e = default_queue)) as [->|]; done. }
  read OptionalString_map. chose (es_sync e); [by destruct (es_sync e) as [[]|]|].
  read OptionalBool_when. finish. returns e. destruct e as [i f t q s fb]. simpl. f_equal. by destruct fb.
Qed.

(** ** Actions and patches *)

Definition action_ok (a : MutationAction) : Prop :=
  match a with
  | AddNodeAction n => node_ok n
  | RemoveNodeAction _ _ _ | RemoveEdgeAction _ => True
  | InsertChainAction _ ns ports =>
      ns <> [] /\ Forall node_ok ns /\ chain_input ports <> Some "" /\ chain_output ports <> Some ""
  | RemoveChainAction ns _ _ => ns <> []
  | ReplaceNodeAction _ op options mapping _ =>
      OperatorKeyOps.wf op = true /\ Json.is_object options = true /\
      match mapping with Some m => SMap.sorted (pm_inputs m) /\ SMap.sorted (pm_outputs m) | None => True end
  | RemoveBranchAction entry ns _ entries =>
      ns <> [] /\ match entries with [] => entry <> "" | e :: _ => entry = e end
  | AddEdgeAction e => edge_ok e
  | SetNodeOptionsAction _ params => Json.is_object params = true
  end.

Lemma parse_items_reads {A} (f : json -> string -> Result A) (g : A -> json) (ok : A -> Prop) p l : forall i,
  (forall a q, ok a -> f (g a) q = Value a) -> Forall ok l -> parse_items f p i (map g l) = Value l.
Proof.
  intros i Hf Hl. revert i. induction Hl as [|a l Ha _ IH]; intros i; simpl; [done|].
  by rewrite Hf, IH.
Qed.

Lemma Policy_reads r p :
  Json.Find "remove_policy" (value_ r) = (fun p => JString (RemovePolicy_ToString p)) <$> p ->
  ParseRemovePolicyField r = Value (p, see "remove_policy" r).
Proof.
  intros Hf. unfold ParseRemovePolicyField. erewrite bind_ok by by apply (OptionalString_map _ _ _ RemovePolicy_ToString). cbv beta.
  erewrite bind_ok by by apply path_ok. cbv beta. by destruct p as [[]|].
Qed.

Lemma Mode_reads r m :
  Json.Find "mode" (value_ r) = Some (JString (RemoveMode_ToString m)) -> ParseModeField r = Value (m, see "mode" r).
Proof.
  intros Hf. unfold ParseModeField. erewrite bind_ok by by apply (OptionalString_when _ _ _ true). cbv beta.
  erewrite bind_ok by by apply path_ok. cbv beta. by destruct m.
Qed.

Lemma ChainPorts_reads c p au :
  chain_input c <> Some "" -> chain_output c <> Some "" -> ParseChainPorts (ChainPortsJson c) p au = Value c.
Proof.
  intros Hi Ho. unfold ParseChainPorts, ChainPortsJson, graph_reader.
  change (negb (Json.is_object (Json.obj _))) with false. cbn match.
  read OptionalString_ok. read OptionalString_ok. finish. returns c.
  destruct c as [[[|? ?]|] [[|? ?]|]]; simpl in *; done.
Qed.

Lemma Replacement_reads op options p au :
  OperatorKeyOps.wf op = true -> Json.is_object options = true ->
  ParseReplacement (ReplacementJson op options) p au = Value (op, options).
Proof.
  intros Hop Ho. unfold ParseReplacement, ReplacementJson, graph_reader.
  change (negb (Json.is_object (Json.obj _))) with false. cbn match.
  destruct options as [| | | | | |o]; try done.
  read RequireString_ok. step; [|apply path_ok]. cbv beta. step; [|by apply lift_ok, OperatorKey_reads]. cbv beta.
  read OptionalObject_when. finish. returns (op, JObject o). by destruct o.
Qed.

Lemma MappingSide_reads p dir r m :
  Json.Find dir (value_ r) = Some (string_object m) -> SMap.sorted m ->
  ParseMappingSide p dir r = Value (m, see dir r).
Proof.
  intros Hf Hm. unfold ParseMappingSide. erewrite bind_ok by by apply Get_ok. cbv beta.
  destruct (string_object_reads (fun k => p ++ ".port_mapping." ++ dir ++ "." ++ k ++ " must be a string") m Hm)
    as (o & -> & Hr). by apply lift_ok.
Qed.

Lemma PortMapping_reads m p au :
  SMap.sorted (pm_inputs m) -> SMap.sorted (pm_outputs m) -> ParsePortMapping (PortMappingJson m) p au = Value m.
Proof.
  intros Hi Ho. unfold ParsePortMapping, PortMappingJson, graph_reader.
  change (negb (Json.is_object (Json.obj _))) with false. cbn match.
  step; [|apply MappingSide_reads; [find_field|done]]. cbv beta.
  step; [|apply MappingSide_reads; [find_field|done]]. cbv beta.
  finish. returns m. by destruct m.
Qed.

(** The branch [ParseAction] takes for a known type name. *)
Ltac branch := rewrite ?bool_decide_false by discriminate; rewrite ?bool_decide_true by reflexivity; cbv iota.
Ltac policy := step; [|apply Policy_reads; find_field]; cbv beta iota.
Ltac mode := step; [|apply Mode_reads; find_field]; cbv beta iota.

Lemma Action_reads au a p : action_ok a -> ParseAction au (ActionJson a) p = Value a.
Proof.
  intros Ha. unfold ParseAction, ActionJson, graph_reader.
  change (negb (Json.is_object (Json.obj _))) with false. cbn match.
  read RequireString_ok.
  destruct a as [n|n m rp|e ns ports|ns m rp|n op options mapping rp|entry ns rp entries|e|e|n params];
    cbn [ActionTypeName ActionFields] in *; unfold policy_json, mode_json; branch; simpl in Ha.
  - step; [|read Get_ok; step; [|by apply lift_ok, Node_reads]; reflexivity]. cbv beta. finish. reflexivity.
  - step; [|read RequireString_ok; mode; policy; reflexivity]. cbv beta. finish. reflexivity.
  - destruct Ha as (Hne & Hns & Hi & Ho). unfold ParseInsertChain.
    destruct ns as [|n ns]; [done|]. step; [|read RequireString_ok; read Get_ok; cbn [map]; cbv iota;
      step; [|by eapply lift_ok, (parse_items_reads _ NodeJson node_ok _ (n :: ns)); [apply Node_reads|]];
      read Get_ok; chose ports; [|reflexivity]].
    + cbv beta. finish. reflexivity.
    + destruct ports as [[i|] [o|]]; simpl; try done; by apply lift_ok, ChainPorts_reads.
  - unfold ParseRemoveChain. destruct ns as [|n ns]; [done|].
    step; [|read StringArray_ok; mode; policy; reflexivity]. cbv beta. finish. reflexivity.
  - destruct Ha as (Hop & Hopt & Hm). unfold ParseReplaceNode.
    step; [|read RequireString_ok; read Get_ok; step; [|by apply lift_ok, Replacement_reads]; cbv beta;
      read Get_ok; chose mapping; [|policy; reflexivity]].
    + cbv beta. finish. reflexivity.
    + destruct mapping as [m|]; [|done]. simpl. unfold bind. by rewrite (lift_ok _ m _ (PortMapping_reads m p au (proj1 Hm) (proj2 Hm))).
  - destruct Ha as [Hns He]. unfold ParseRemoveBranch. destruct ns as [|n ns]; [done|].
    destruct entries as [|e entries].
    + step; [|read (OptionalString_when _ _ _ true); read (StringArray_when _ _ _ false [])].
      2: { destruct entry as [|c entry]; [done|]. cbn [Str.empty andb]. cbv beta iota zeta. read StringArray_ok. policy. reflexivity. }
      cbv beta. finish. by destruct entry.
    + subst entry. step; [|read (OptionalString_when _ _ _ false ""); read (StringArray_when _ _ _ true)].
      2: { cbn [Str.empty andb has head negb hd]. cbv beta iota zeta. read StringArray_ok. policy. reflexivity. }
      cbv beta. finish. reflexivity.
  - step; [|read Get_ok; step; [|by apply lift_ok, Edge_reads]; reflexivity]. cbv beta. finish. reflexivity.
  - step; [|read RequireString_ok; reflexivity]. cbv beta. finish. reflexivity.
  - destruct params as [| | | | | |o]; try done.
    step; [|read RequireString_ok; read Get_ok; reflexivity]. cbv beta. finish. reflexivity.
Qed.

Definition patch_ok (p : MutationPatch) : Prop :=
  match mp_base_topology_version p with Some v => 0 <= v < 2 ^ 63 | None => True end /\ Forall action_ok (mp_actions p).

Ltac header_seen := step; [|reflexivity]; cbv beta.

Lemma Patch_reads p : patch_ok p -> ParsePatch (PatchJson p) = Value p.
Proof.
  intros [Hb Ha]. unfold ParsePatch, PatchJson, header, graph_reader.
  rewrite header_ok by find_field. cbn [ResultOps.bind]. header_seen.
  step; [|apply (OptionalInteger_ok _ _ (mp_base_topology_version p)); find_field].
  2: { destruct (mp_base_topology_version p) as [v|]; [|done]. simpl. unfold Json.of_u64.
       by rewrite Word.i64_small by (unfold Word.is_i64; lia). }
  cbv beta. chose (mp_base_topology_version p).
  { destruct (mp_base_topology_version p) as [v|]; [|done]. rewrite (proj2 (Z.ltb_ge _ _)) by lia.
    by rewrite Word.u64_small by (unfold Word.is_u64; lia). }
  step; [|apply (Policy_reads _ (Some (mp_remove_policy p))); find_field]. cbv beta.
  read Get_ok. step; [|by eapply lift_ok, (parse_items_reads _ ActionJson action_ok); [apply Action_reads|]]. cbv beta.
  finish. returns p. by destruct p.
Qed.

(** ** Graphs *)

Lemma AddNode_new n g :
  wf_node n -> ns_id n ∉ ns_id <$> nodes_ g ->
  GraphOps.AddNode n g = (StatusOps.Ok, GraphOps.with_nodes (nodes_ g ++ [n])%list g).
Proof.
  intros (Hv & Ht & Hp & Hd) Hn. unfold GraphOps.AddNode. rewrite Hv. simpl.
  destruct (GraphOps.FindNode (ns_id n) g) as [x|] eqn:E.
  { apply lookup_Some in E as [Hx Ei]. exfalso. apply Hn. rewrite <- Ei. by apply list_elem_of_fmap_2. }
  simpl. destruct (type_name (ns_op n)) as [|c t]; [done|]. simpl.
  rewrite (proj2 (Z.eqb_neq _ _)) by done. destruct (ex_device_id (ns_executor n)) as [d|].
  - rewrite bool_decide_false by (intros H; by apply H, Hd). done.
  - by rewrite andb_false_r.
Qed.

Lemma FindNode_Some i g : i ∈ ns_id <$> nodes_ g -> exists n, GraphOps.FindNode i g = Some n.
Proof.
  intros Hi. destruct (GraphOps.FindNode i g) eqn:E; [eauto|]. by apply lookup_None in E.
Qed.

Lemma edge_id_nonempty ns e : wf_edge ns e -> GraphOps.resolve_id e = e.
Proof.
  intros [[Hv|Hd] _]; unfold GraphOps.resolve_id.
  - by destruct (es_id e).
  - destruct (es_id e) as [|c s] eqn:E; [|done]. exfalso. unfold GraphOps.DeriveEdgeId in Hd.
    by destruct (node_id (es_from e)).
Qed.

Lemma AddEdge_new e g :
  wf_edge (nodes_ g) e -> es_id e ∉ es_id <$> edges_ g -> ends e ∉ ends <$> edges_ g ->
  GraphOps.AddEdge e g = (StatusOps.Ok, GraphOps.with_edges (edges_ g ++ [e])%list g).
Proof.
  intros Hw Hi He. unfold GraphOps.AddEdge. rewrite (edge_id_nonempty _ _ Hw).
  destruct Hw as (Hid & Hf & Ht & Hpf & Hpt & Hc & Hb).
  replace (negb _ && negb _) with false
    by (symmetry; destruct Hid as [->|Hd]; [done|]; by rewrite (bool_decide_true _ Hd), andb_false_r).
  destruct (GraphOps.FindEdge (es_id e) g) as [x|] eqn:E.
  { apply lookup_Some in E as [Hx Ei]. exfalso. apply Hi. rewrite <- Ei. by apply list_elem_of_fmap_2. }
  destruct (FindNode_Some _ _ Hf) as [? ->]. destruct (FindNode_Some _ _ Ht) as [? ->]. cbn [has].
  destruct (port (es_from e)); [done|]. destruct (port (es_to e)); [done|]. cbn [Str.empty orb].
  rewrite (proj2 (Z.eqb_neq _ _)) by done. rewrite bool_decide_false by done.
  destruct (existsb _ (edges_ g)) eqn:Ex; [|done]. exfalso. apply existsb_exists in Ex as (y & Hy & Hb').
  apply andb_prop in Hb' as [H1%bool_decide_eq_true H2%bool_decide_eq_true].
  apply He. apply list_elem_of_fmap. exists y. unfold ends. rewrite H1, H2. split; [done|]. by apply list_elem_of_In.
Qed.

Lemma add_nodes_reads au l : forall i g,
  Forall node_ok l -> Forall wf_node l -> NoDup (ns_id <$> (nodes_ g ++ l)%list) ->
  add_nodes au i (map NodeJson l) g = Value (GraphOps.with_nodes (nodes_ g ++ l)%list g).
Proof.
  induction l as [|n l IH]; intros i g Ho Hw Hd; simpl; [rewrite app_nil_r; by destruct g|].
  inversion Ho as [|? ? Hn Ho']; inversion Hw as [|? ? Hwn Hw']; subst. rewrite Node_reads by done. cbn [ResultOps.bind].
  rewrite AddNode_new; [|done|].
  - cbn [StatusOps.ok]. simpl. rewrite IH; [|done|done|]; simpl; [by rewrite <- app_assoc|by rewrite <- app_assoc].
  - rewrite fmap_app in Hd. apply NoDup_app in Hd as (_ & Hd & _). intros Hin. apply (Hd _ Hin). by constructor.
Qed.

Lemma add_edges_reads au l : forall i g,
  Forall edge_ok l -> Forall (wf_edge (nodes_ g)) l ->
  NoDup (es_id <$> (edges_ g ++ l)%list) -> NoDup (ends <$> (edges_ g ++ l)%list) ->
  add_edges au i (map EdgeJson l) g = Value (GraphOps.with_edges (edges_ g ++ l)%list g).
Proof.
  induction l as [|e l IH]; intros i g Ho Hw Hd He; simpl; [rewrite app_nil_r; by destruct g|].
  inversion Ho as [|? ? Hn Ho']; inversion Hw as [|? ? Hwn Hw']; subst. rewrite Edge_reads by done. cbn [ResultOps.bind].
  rewrite AddEdge_new; [|done| |].
  - cbn [StatusOps.ok]. simpl. rewrite IH; simpl; rewrite <- ?app_assoc; done.
  - rewrite fmap_app in Hd. apply NoDup_app in Hd as (_ & Hd & _). intros Hin. apply (Hd _ Hin). by constructor.
  - rewrite fmap_app in He. apply NoDup_app in He as (_ & He & _). intros Hin. apply (He _ Hin). by constructor.
Qed.

Definition known_option (k : string) : bool :=
  bool_decide (k = "default_device_id") || bool_decide (k = "allow_default_operator_version").
Definition extra_of (l : list (string * json)) : list (string * json) :=
  List.filter (fun kv => negb (known_option kv.1)) l.

Record options_ok (o : GraphOptions) : Prop := {
  oo_extra : exists x, go_extra o = JObject x /\ SMap.sorted x /\ Forall (fun kv => known_option kv.1 = false) x;
  oo_device : match go_default_device_id o with Some d => Word.is_i32 d | None => True end;
}.

Lemma extra_set k v (x : list (string * json)) : known_option k = true -> extra_of (SMap.set k v x) = extra_of x.
Proof.
  intros Hk. unfold extra_of. induction x as [|[k' v'] x IH]; simpl; [by rewrite Hk|].
  destruct (decide (k = k')) as [<-|]; simpl; [by rewrite Hk|].
  destruct (key_ltb k k'); simpl; [by rewrite Hk|]. by rewrite IH.
Qed.

Lemma extra_id x : Forall (fun kv => known_option kv.1 = false) x -> extra_of x = x.
Proof. intros Hx. unfold extra_of. apply filter_id. eapply Forall_impl; [exact Hx|]. simpl. by intros kv ->. Qed.

Lemma extra_sorted l : SMap.sorted l -> SMap.sorted (extra_of l).
Proof.
  unfold SMap.sorted, extra_of. induction l as [|kv l IH]; simpl; [done|]. intros [Hs Hf]%StronglySorted_inv.
  destruct (negb (known_option kv.1)); simpl; [|by apply IH]. constructor; [by apply IH|].
  rewrite List.Forall_forall in *. intros k Hk. apply Hf. rewrite <- list_elem_of_In in *.
  apply list_elem_of_fmap in Hk as (kv' & -> & Hin). apply elem_of_filter in Hin as [Hin _]. by apply list_elem_of_fmap_2.
Qed.

(** What [graph_options] makes of an object whose known fields have the right
    type. *)
Lemma graph_options_reads l : forall d a acc,
  SMap.sorted l -> SMap.sorted (acc ++ extra_of l)%list ->
  match SMap.find "default_device_id" l with None | Some (JInteger _) => True | _ => False end ->
  match SMap.find "allow_default_operator_version" l with None | Some (JBool _) => True | _ => False end ->
  graph_options l (MkGraphOptions d a (JObject acc)) =
    Value (MkGraphOptions
      (match SMap.find "default_device_id" l with Some (JInteger z) => Some (Word.i32 z) | _ => d end)
      (match SMap.find "allow_default_operator_version" l with Some (JBool b) => b | _ => a end)
      (JObject (acc ++ extra_of l)%list)).
Proof.
  induction l as [|[k v] l IH]; intros d a acc Hs He Hd Ha; [by rewrite app_nil_r|].
  assert (Hk : SMap.find k l = None).
  { unfold SMap.sorted in Hs. apply StronglySorted_inv in Hs as [_ Hf]. apply SMap.find_None. intros Hin.
    rewrite List.Forall_forall in Hf. specialize (Hf _ Hin). by rewrite (key_ltb_irrefl k) in Hf. }
  assert (Hs' : SMap.sorted l) by (by apply StronglySorted_inv in Hs as [? _]).
  cbn [graph_options go_default_device_id go_allow_default_operator_version go_extra].
  unfold extra_of in *. cbn [List.filter fst] in *.
  unfold known_option in *. cbn [SMap.find] in Hd, Ha |- *.
  destruct (decide (k = "default_device_id")) as [->|N1].
  { rewrite bool_decide_true in * by done. cbn [orb negb] in *.
    rewrite (decide_True (P := "default_device_id" = "default_device_id")) in * by done.
    rewrite (decide_False (P := "allow_default_operator_version" = _)) in * by done.
    destruct v; try done. rewrite IH; [|done..|by rewrite Hk|done]. by rewrite Hk. }
  rewrite (bool_decide_false _ N1) in *. rewrite (decide_False (P := "default_device_id" = k)) in * by congruence.
  destruct (decide (k = "allow_default_operator_version")) as [->|N2].
  { rewrite bool_decide_true in * by done. cbn [orb negb] in *.
    rewrite (decide_True (P := "allow_default_operator_version" = "allow_default_operator_version")) in * by done.
    destruct v; try done. rewrite IH; [|done..|by rewrite Hk]. by rewrite Hk. }
  rewrite (bool_decide_false _ N2) in *. rewrite (decide_False (P := "allow_default_operator_version" = k)) in * by congruence.
  cbn [orb negb] in *. cbv iota in *.
  pose proof (emplace_snoc acc (k, v) (SMap.sorted_app_below acc (k, v) _ He)) as Em. cbn [fst snd] in Em.
  rewrite Em. cbv zeta. cbn [fst].
  rewrite IH; [|done| |done|done]; rewrite <- app_assoc; done.
Qed.

Lemma Options_reads o : options_ok o -> graph_options (OptionsJson o) default_options = Value o.
Proof.
  intros [(x & Hx & Hs & Hk) Hd]. destruct o as [d a e]. simpl in *. subst e. unfold OptionsJson, default_options. simpl.
  assert (Hf : forall k, known_option k = true -> SMap.find k x = None).
  { intros k Hkn. apply SMap.find_None. intros Hin. apply in_map_iff in Hin as ([k' v] & <- & Hin).
    rewrite List.Forall_forall in Hk. specialize (Hk _ Hin). simpl in *. congruence. }
  unfold SMap.emplace.
  pose proof (Hf "default_device_id" eq_refl) as F1. pose proof (Hf "allow_default_operator_version" eq_refl) as F2.
  destruct d as [d|], a; simpl; rewrite ?F1, ?F2; cbn [fst];
    rewrite ?(SMap.find_set_ne "default_device_id" "allow_default_operator_version"), ?F2 by done; cbn [fst];
    rewrite graph_options_reads; repeat (rewrite ?extra_set by done; rewrite ?extra_id by done); cbn [app];
    repeat (rewrite ?SMap.find_set_eq; rewrite ?SMap.find_set_ne by done); rewrite ?F1, ?F2;
    repeat apply SMap.set_sorted; rewrite ?Word.i32_small by done; try done; by apply extra_sorted.
Qed.

Record graph_ok (g : GraphSpec) : Prop := {
  gk_wf : wf g;
  gk_nonempty : nodes_ g <> [];
  gk_nodes : Forall node_ok (nodes_ g);
  gk_edges : Forall edge_ok (edges_ g);
  gk_options : options_ok (options_ g);
}.

Lemma Graph_reads g : graph_ok g -> ParseGraph (GraphJson g) = Value g.
Proof.
  intros [[W1 W2 W3 W4 W5] Hne Hn He Ho]. unfold ParseGraph, GraphJson, header, graph_reader.
  rewrite header_ok by find_field. cbn [ResultOps.bind]. header_seen.
  read RequireString_ok. read OptionalString_when. rewrite if_empty.
  read Get_ok. chose (options_ g).
  { apply Options_reads in Ho. destruct (has (head (OptionsJson (options_ g)))) eqn:E; [by apply lift_ok|].
    destruct (OptionsJson (options_ g)); [|done]. injection Ho as ->. done. }
  read Get_ok.
  chose (MkGraphSpec (name_ g) (description_ g) (options_ g) (allow_unknown_fields_ g) (nodes_ g) []).
  { pose proof (add_nodes_reads (allow_unknown_fields_ g) (nodes_ g) 0
      (MkGraphSpec (name_ g) (description_ g) (options_ g) (allow_unknown_fields_ g) [] []) Hn W2 W1) as Ha.
    destruct (nodes_ g) as [|n ns]; [done|]. by apply lift_ok. }
  read Get_ok.
  step; [|apply lift_ok; by apply (add_edges_reads (allow_unknown_fields_ g))]. cbv beta.
  finish. returns g. by destruct g.
Qed.

(** ** Texts *)

Lemma printable_le n m v : printable n v -> (n <= m)%nat -> printable m v.
Proof.
  unfold printable. revert n m. induction v as [| | | | |l IH|o IH] using json_ind'; intros n m Hv Hm;
    inversion Hv; subst; (destruct m as [|m]; [lia|]); constructor; try done.
  - rewrite Forall_forall in *. intros x Hx. eapply IH; [done|eauto|lia].
  - rewrite Forall_forall in *. intros x Hx. eapply (IH x Hx); [eauto|lia].
Qed.

Lemma emplace_printable n (l : list (string * json)) : forall acc,
  SMap.sorted acc -> Forall (fun kv => printable n kv.2) acc -> Forall (fun kv => printable n kv.2) l ->
  let m := fold_left (fun m kv => (SMap.emplace kv.1 kv.2 m).1) l acc in
  SMap.sorted m /\ Forall (fun kv => printable n kv.2) m.
Proof.
  induction l as [|[k v] l IH]; intros acc Hs Ha Hl; simpl; [done|]. inversion Hl as [|? ? Hv Hl']; subst. simpl in Hv.
  apply IH; [by apply SMap.emplace_sorted| |done]. unfold SMap.emplace. destruct (SMap.find k acc); simpl; [done|].
  clear -Ha Hv. induction Ha as [|[k' v'] acc Hx Ha IH]; simpl; [by repeat constructor|].
  destruct (decide (k = k')); [by constructor|]. destruct (key_ltb k k'); [|by constructor].
  constructor; [done|]. by constructor.
Qed.

Lemma printable_obj n l : Forall (fun kv => printable n kv.2) l -> printable (S n) (Json.obj l).
Proof.
  intros Hl. destruct (emplace_printable n l [] ltac:(constructor) ltac:(constructor) Hl) as [Hs Hf]. by constructor.
Qed.

Lemma printable_maybe {A} n k (f : A -> json) o :
  (forall a, o = Some a -> printable n (f a)) -> Forall (fun kv => printable n kv.2) (maybe k f o).
Proof. intros H. destruct o as [a|]; constructor; [by apply H|constructor]. Qed.
Lemma printable_when n b k v :
  (b = true -> printable n v) -> Forall (fun kv : string * json => printable n kv.2) (when b k v).
Proof. intros H. destruct b; constructor; [by apply H|constructor]. Qed.
Lemma printable_map {A} n (f : A -> json) (P : A -> Prop) l :
  (forall a, P a -> printable n (f a)) -> Forall P l -> printable (S n) (JArray (map f l)).
Proof.
  intros H Hl. constructor. induction Hl as [|a l Ha _ IH]; simpl; constructor; [by apply H|done].
Qed.
Lemma printable_strings n l : printable (S (S n)) (string_array l).
Proof. apply (printable_map _ _ (fun _ => True)); [constructor|]. by apply Forall_forall. Qed.
Lemma printable_string_object n m : printable (S (S n)) (string_object m).
Proof. apply printable_obj. induction m; simpl; constructor; [constructor|done]. Qed.
Lemma printable_int n z : Word.is_i64 z -> printable (S n) (JInteger z).
Proof. by constructor. Qed.

(** Splits an object into its fields and settles the leaves. *)
Ltac fields :=
  repeat match goal with
  | |- printable _ (Json.obj _) => refine (printable_obj _ _ _)
  | |- Forall _ (_ ++ _)%list => refine (proj2 (Forall_app _ _ _) (conj _ _))
  | |- Forall _ (_ :: _) => refine (List.Forall_cons _ _ _ _ _)
  | |- Forall _ [] => refine (List.Forall_nil _)
  | |- Forall _ (maybe _ _ _) => refine (printable_maybe _ _ _ _ _); intros ? ?
  | |- Forall _ (when _ _ _) => refine (printable_when _ _ _ _ _); intros ?
  | |- printable _ (string_array _) => refine (printable_strings _ _)
  | |- printable _ (string_object _) => refine (printable_string_object _ _)
  | |- printable _ (JString _) => refine (wf_string _ _ _)
  | |- printable _ (JBool _) => refine (wf_bool _ _ _)
  | |- printable _ (JInteger _) => refine (printable_int _ _ _)
  | |- printable _ (Json.of_u64 _) => refine (printable_int _ _ _)
  | _ => progress cbn [fst snd]
  end.

Lemma Node_printable n nd :
  node_ok nd -> printable 250 (ns_options nd) -> (250 <= n)%nat -> printable (S n) (NodeJson nd).
Proof.
  intros [Hop Hd Hp Ho Hl] Hopt Hn. unfold NodeJson, ExecutorJson.
  destruct n as [|[|[|n]]]; try lia. fields.
  - unfold Word.is_i64. rewrite H0 in Hd. unfold Word.is_i32 in Hd. lia.
  - unfold Word.is_i64. lia.
  - by eapply printable_le.
Qed.

Lemma Edge_printable n e : edge_ok e -> printable (S (S (S n))) (EdgeJson e).
Proof.
  intros [Hf Ht Hc Hb]. unfold EdgeJson, QueueJson. fields.
  - unfold Word.is_i64. lia.
  - apply Word.i64_range.
Qed.

(** The free-form values of an action nest at most 250 levels. *)
Definition action_values (a : MutationAction) : Prop :=
  match a with
  | AddNodeAction n => printable 250 (ns_options n)
  | InsertChainAction _ ns _ => Forall (fun n => printable 250 (ns_options n)) ns
  | ReplaceNodeAction _ _ options _ _ => printable 250 options
  | SetNodeOptionsAction _ params => printable 250 params
  | _ => True
  end.

Lemma Action_printable a : action_ok a -> action_values a -> printable 254 (ActionJson a).
Proof.
  intros Ha Hv. unfold ActionJson.
  destruct a as [n|n m rp|e ns ports|ns m rp|n op options mapping rp|entry ns rp entries|e|e|n params];
    simpl ActionFields; unfold policy_json, mode_json; simpl in Ha, Hv.
  - fields. apply Node_printable; [done..|lia].
  - fields.
  - destruct Ha as (_ & Hns & _). unfold ChainPortsJson. fields.
    apply (printable_map _ _ (fun n => node_ok n /\ printable 250 (ns_options n))).
    + intros n [H1 H2]. apply Node_printable; [done..|lia].
    + apply Forall_and. done.
  - fields.
  - unfold ReplacementJson, PortMappingJson. fields. eapply printable_le; [done|lia].
  - destruct entries; fields.
  - fields. by apply Edge_printable.
  - fields.
  - fields. eapply printable_le; [done|lia].
Qed.

(** A mutation patch survives its text: [ParsePatch] of what
    [SerializePatch] wrote is the same patch, for every patch whose actions
    are well formed (operator keys, port references and parallelism the
    parser accepts, versions and byte limits below 2^63) and whose free-form
    options nest at most 250 levels. *)
Theorem ParsePatch_SerializePatch p :
  patch_ok p -> Forall action_values (mp_actions p) -> ParsePatchText (SerializePatch p) = Value p.
Proof.
  intros Hp Hv. unfold ParsePatchText, SerializePatch. rewrite parse_serialized; [by apply Patch_reads|].
  destruct Hp as [Hb Ha]. unfold PatchJson, header. fields.
  - unfold Word.is_i64. lia.
  - apply Word.i64_range.
  - apply (printable_map _ _ (fun a => action_ok a /\ action_values a)); [|by apply Forall_and].
    intros a [H1 H2]. by apply Action_printable.
Qed.

Lemma Options_printable o :
  options_ok o -> printable 250 (go_extra o) -> printable 255 (JObject (OptionsJson o)).
Proof.
  intros [(x & Hx & Hs & _) Hd] Hp. rewrite Hx in Hp. inversion Hp as [| | | | | |? ? _ Hf]; subst.
  assert (Hf' : Forall (fun kv => printable 254 kv.2) x).
  { eapply Forall_impl; [exact Hf|]. intros kv Hkv. eapply printable_le; [exact Hkv|lia]. }
  destruct o as [d a e]. simpl in *. subst e. unfold OptionsJson. simpl.
  assert (He : forall k v l, printable 254 v -> printable 255 (JObject l) -> printable 255 (JObject (SMap.emplace k v l).1)).
  { intros k v l Hv Hl. inversion Hl; subst.
    destruct (emplace_printable 254 [(k, v)] l) as [E1 E2]; [done|done|by repeat constructor|]. by constructor. }
  assert (H0 : printable 255 (JObject x)) by by constructor.
  assert (H1 : printable 255 (JObject (match d with Some d => (SMap.emplace "default_device_id" (JInteger d) x).1 | None => x end))).
  { destruct d as [d|]; [|done]. apply He; [|done]. apply printable_int. unfold Word.is_i32, Word.is_i64 in *. lia. }
  destruct a; [|done]. apply He; [constructor|done].
Qed.


(** ** Samples *)

Definition sample_node (i : string) : NodeSpec :=
  MkNodeSpec i (MkOperatorKey "scale" "1.0") (MkExecutorSpec kExecGpu (Some 1)) 4
    (JObject [("w", JInteger 640)]) [("team", "video")].
Definition sample_edge : EdgeSpec :=
  MkEdgeSpec "e1" (MkPortRef "a" "out") (MkPortRef "b" "in") (MkQueueSpec 8 kDropOldest (Some 4096)) (Some kAligned) true.
Definition sample_graph : GraphSpec :=
  MkGraphSpec "g" "two nodes" (MkGraphOptions (Some 2) true (JObject [("hint", JNull)])) true
    [sample_node "a"; sample_node "b"] [sample_edge].
Definition sample_patch : MutationPatch :=
  MkMutationPatch (Some 7) kFast
    [InsertChainAction "e1" [sample_node "c"] (MkChainPorts (Some "in") None); AddEdgeAction sample_edge;
     RemoveBranchAction "e1" ["b"] (Some kDrain) ["e1"; "e2"]; RemoveNodeAction "b" kBypass None] false.

Lemma sample_node_ok i : node_ok (sample_node i).
Proof.
  split; [done|split; [done|simpl; unfold Word.is_i32; lia]|simpl; lia|done|repeat constructor].
Qed.
Lemma sample_edge_ok : edge_ok sample_edge.
Proof. split; [split; [vm_compute; reflexivity|done]|split; [vm_compute; reflexivity|done]|simpl; lia|simpl; lia]. Qed.
Lemma sample_options : printable 250 (ns_options (sample_node "")).
Proof.
  constructor; [repeat constructor|]. constructor; [|constructor]. constructor. unfold Word.is_i64. lia.
Qed.


(** An edge at a node whose id has a dot is written as a reference that reads as
    another node: the graph is well formed and its own text is refused. *)
Definition dotted_graph : GraphSpec :=
  MkGraphSpec "g" "" default_options true [sample_node "a.b"; sample_node "b"]
    [MkEdgeSpec "e1" (MkPortRef "a.b" "out") (MkPortRef "b" "in") (MkQueueSpec 8 kDropOldest (Some 4096)) None false].
Example dotted_graph_refused :
  IsValidStableId "a.b" = true /\ GraphOps.FindNode "a.b" dotted_graph = Some (sample_node "a.b") /\
  match ParseGraphText (SerializeGraph dotted_graph) with Value _ => False | Error st => message st = "edge 'e1' from unknown node 'a'" end.
Proof. by vm_compute. Qed.

(** The double 2.0 is written as 2 and comes back as an integer. *)
Example whole_number_changes :
  ParseJson (Json.Serialize (JNumber (Double.of_Z 2))) = inl (JInteger 2).
Proof. by vm_compute. Qed.

Lemma ParsePatch_SerializePatch_witness : ParsePatchText (SerializePatch sample_patch) = Value sample_patch.
Proof.
  apply ParsePatch_SerializePatch.
  - split; simpl; [lia|]. constructor; [|constructor; [apply sample_edge_ok|constructor; [done|constructor; [done|constructor]]]].
    split_and!; try done. constructor; [apply sample_node_ok|constructor].
  - simpl. constructor; [constructor; [apply sample_options|constructor]|]. by repeat constructor.
Defined.

(** The capacity of a queue is a 32-bit field read from a 64-bit integer
    without a range check: 2^32 + 1 is accepted as 1, and a parallelism of
    2^32 becomes 0. *)
Theorem large_capacity_truncated :
  ParseQueue (Json.obj [("capacity", JInteger (2 ^ 32 + 1))]) "e" false = Value (MkQueueSpec 1 kBlock None) /\
  ns_parallelism <$> (match ParseNode false (Json.obj [("id", JString "n"); ("operator", JString "a@1");
      ("parallelism", JInteger (2 ^ 32))]) "n" with Value n => Some n | Error _ => None end) = Some 0.
Proof. split; vm_compute; reflexivity. Qed.
