(* ===== verification/CapabilityJson.v ===== *)
(** The JSON form of capability descriptors, contracts and conflicts
    (src/capability_json.cpp, src/capability_internal.h) and the texts of the
    memory and device kinds. The parsers report PLUGIN_MANIFEST_INVALID. *)

From stdpp Require Import base numbers list strings sorting.
From Stdlib Require Import ZArith Lia Ascii String.
From S2P Require Import Prelude Types Double Json JsonParser GraphSpec CapabilityTypes JsonReader GraphJson.

Local Open Scope string_scope.
Local Open Scope Z_scope.
Local Open Scope ge_scope.

Import Reader Read.

Definition MemoryKind_ToString (k : MemoryKind) : string :=
  match k with kHost => "host" | kPinned => "pinned" | kCudaDevice => "cuda_device" | kDmaBuf => "dmabuf" end.
Definition ParseMemoryKind (s : string) : option MemoryKind :=
  if decide (s = "host") then Some kHost
  else if decide (s = "pinned") then Some kPinned
  else if decide (s = "cuda_device") then Some kCudaDevice
  else if decide (s = "dmabuf") then Some kDmaBuf else None.
Definition DeviceKind_ToString (k : DeviceKind) : string := if decide (k = kDevGpu) then "gpu" else "cpu".
Definition ParseDeviceKind (s : string) : option DeviceKind :=
  if decide (s = "cpu") then Some kDevCpu else if decide (s = "gpu") then Some kDevGpu else None.

(** ** Writing *)

Definition RangeJson (r : IntRange) : json := Json.obj [("min", JInteger (rmin r)); ("max", JInteger (rmax r))].
Definition RationalRangeJson (r : RationalRange) : json := Json.obj [("min", JNumber (rmin r)); ("max", JNumber (rmax r))].
Definition StringsJson (v : list string) : json := string_array v.

Definition VideoJson (v : VideoConstraints) : json :=
  Json.obj (
    maybe "pixel_formats" StringsJson (vc_pixel_formats v) ++ maybe "width" RangeJson (vc_width v) ++
    maybe "height" RangeJson (vc_height v) ++ maybe "fps" RationalRangeJson (vc_fps v) ++
    maybe "color_spaces" StringsJson (vc_color_spaces v) ++ maybe "color_ranges" StringsJson (vc_color_ranges v) ++
    maybe "hdr_modes" StringsJson (vc_hdr_modes v))%list.
Definition AudioJson (a : AudioConstraints) : json :=
  Json.obj (
    maybe "sample_formats" StringsJson (ac_sample_formats a) ++ maybe "sample_rate" RangeJson (ac_sample_rate a) ++
    maybe "channel_layouts" StringsJson (ac_channel_layouts a))%list.
Definition DimJson (d : IntRange) : json :=
  if rmin d =? rmax d then JInteger (rmin d)
  else Json.obj (("min", JInteger (rmin d)) :: when (0 <=? rmax d) "max" (JInteger (rmax d))).
Definition TensorJson (t : TensorConstraints) : json :=
  Json.obj (
    maybe "dtypes" StringsJson (tc_dtypes t) ++ maybe "layouts" StringsJson (tc_layouts t) ++
    when (has (head (tc_shape t))) "shape" (JArray (map DimJson (tc_shape t))))%list.
Definition MemoryJson (m : MemoryConstraints) : json :=
  Json.obj (
    maybe "kinds" (fun ks => JArray (map (fun k => JString (MemoryKind_ToString k)) ks)) (mc_kinds m) ++
    maybe "device_ids" (fun ids => JArray (map JInteger ids)) (mc_device_ids m) ++
    when (mc_zero_copy_required m) "zero_copy_required" (JBool true))%list.

Definition PortJson (p : PortCapability) : json :=
  Json.obj (
    [("name", JString (pc_name p)); ("type_tag", JString (pc_type_tag p))] ++
    when (bool_decide (pc_direction p = kInput) && negb (pc_required p)) "required" (JBool false) ++
    when (bool_decide (pc_cardinality p = kMulti)) "cardinality" (JString "multi") ++
    when (pc_dynamic_consumers p) "dynamic_consumers" (JBool true) ++
    maybe "video" VideoJson (pc_video p) ++ maybe "audio" AudioJson (pc_audio p) ++
    maybe "tensor" TensorJson (pc_tensor p) ++
    when (has (mc_kinds (pc_memory p)) || has (mc_device_ids (pc_memory p)) || mc_zero_copy_required (pc_memory p))
      "memory" (MemoryJson (pc_memory p)) ++
    maybe "sync" (fun ps => JArray (map (fun s => JString (SyncPolicy_ToString s)) ps)) (pc_sync p))%list.

Definition ExecutionJson (x : ExecutionCapability) : json :=
  Json.obj (
    [("devices", JArray (map (fun d => JString (DeviceKind_ToString d)) (xc_devices x)));
     ("stateful", JBool (xc_stateful x)); ("async", JBool (xc_async x));
     ("max_parallelism", JInteger (xc_max_parallelism x)); ("zero_copy", JBool (xc_zero_copy x))] ++
    maybe "max_inference_ms" Json.of_u64 (xc_max_inference_ms x))%list.
Definition ParametersJson (p : ParameterCapability) : json :=
  Json.obj (
    ("hot_updatable", StringsJson (par_hot_updatable p)) ::
    when (has (head (par_migratable p))) "migratable" (StringsJson (par_migratable p)) ++
    when (nonempty_object (par_schema p)) "schema" (par_schema p))%list.

Definition capability_schema_id : string := "ge.dev/schema/capability/v1".

Definition DescriptorJson (d : CapabilityDescriptor) : json :=
  Json.obj (
    header "CapabilityDescriptor" capability_schema_id false ++
    [("operator", JString (OperatorKeyOps.ToString (cd_op d)))] ++
    when (negb (Str.empty (cd_description d))) "description" (JString (cd_description d)) ++
    [("ports", Json.obj [("inputs", JArray (map PortJson (cd_inputs d)));
                         ("outputs", JArray (map PortJson (cd_outputs d)))]);
     ("execution", ExecutionJson (cd_execution d)); ("parameters", ParametersJson (cd_parameters d))] ++
    when (has (head (cd_resources d))) "resources"
      (Json.obj (map (fun kv => (kv.1, JInteger kv.2)) (cd_resources d))) ++
    when (has (head (ev_emits (cd_events d))) || has (head (ev_accepts (cd_events d)))) "events"
      (Json.obj [("emits", StringsJson (ev_emits (cd_events d))); ("accepts", StringsJson (ev_accepts (cd_events d)))]))%list.
Definition SerializeDescriptor (d : CapabilityDescriptor) : string := Json.Serialize (DescriptorJson d).

(** [CapabilityDescriptor::Version] *)
Definition Version (d : CapabilityDescriptor) : Z := Fnv1a (SerializeDescriptor d) fnv_seed.

Definition SelectedVideoJson (v : SelectedVideoFormat) : json :=
  Json.obj (
    [("pixel_format", JString (sv_pixel_format v))] ++ maybe "width" RangeJson (sv_width v) ++
    maybe "height" RangeJson (sv_height v) ++ maybe "fps" RationalRangeJson (sv_fps v) ++
    maybe "color_space" JString (sv_color_space v) ++ maybe "color_range" JString (sv_color_range v) ++
    maybe "hdr_mode" JString (sv_hdr_mode v))%list.
Definition SelectedAudioJson (a : SelectedAudioFormat) : json :=
  Json.obj (
    [("sample_format", JString (sa_sample_format a))] ++ maybe "sample_rate" RangeJson (sa_sample_rate a) ++
    maybe "channel_layout" JString (sa_channel_layout a))%list.
Definition SelectedTensorJson (t : SelectedTensorFormat) : json :=
  Json.obj (
    [("dtype", JString (st_dtype t))] ++ maybe "layout" JString (st_layout t) ++
    [("shape", JArray (map RangeJson (st_shape t)))])%list.
Definition ContractJson (c : ConnectionContract) : json :=
  Json.obj (
    [("logical_type", JString (logical_type c))] ++ maybe "video" SelectedVideoJson (cc_video c) ++
    maybe "audio" SelectedAudioJson (cc_audio c) ++ maybe "tensor" SelectedTensorJson (cc_tensor c) ++
    [("memory_kind", JString (MemoryKind_ToString (memory_kind c))); ("device_id", JInteger (device_id c));
     ("sync_policy", JString (SyncPolicy_ToString (sync_policy c)));
     ("source_capability", Json.of_u64 (source_capability c));
     ("target_capability", Json.of_u64 (target_capability c))])%list.

(** ** Parsing *)

Definition ManifestInvalid {A} (m : string) : Result A := ResultOps.of_status (StatusOps.PluginManifestInvalid m).
Definition cap_reader (v : json) (path : string) (allow_unknown : bool) : ObjectReader :=
  Reader.make v path allow_unknown GE_STATUS_PLUGIN_MANIFEST_INVALID.

Definition ParseIntRange (key : string) : Reader (option IntRange) :=
  let@ v := Get key in
  match v with
  | None => ret None
  | Some v =>
      if negb (Json.is_object v) then WrongType key "object {min,max}"
      else
        let@ p := path in
        let@ r := lift (run (
          let@ min := RequireInteger "min" in
          let@ max := RequireInteger "max" in
          let@ _ := Finish in
          ret (MkRange min max)) (cap_reader v (p ++ "." ++ key) false)) in
        if rmax r <? rmin r then error (p ++ "." ++ key ++ ": max < min") else ret (Some r)
  end.

Definition ParseRationalRange (key : string) : Reader (option RationalRange) :=
  let@ v := Get key in
  match v with
  | None => ret None
  | Some v =>
      if negb (Json.is_object v) then WrongType key "object {min,max}"
      else
        let@ p := path in
        let@ r := lift (run (
          let@ min := OptionalNumber "min" in
          let@ max := OptionalNumber "max" in
          match min, max with
          | Some lo, Some hi => let@ _ := Finish in ret (MkRange lo hi)
          | _, _ => Missing "min/max"
          end) (cap_reader v (p ++ "." ++ key) false)) in
        if Double.ltb (rmax r) (rmin r) then error (p ++ "." ++ key ++ ": max < min") else ret (Some r)
  end.

Definition ParseVideo (v : json) (path : string) (allow_unknown : bool) : Result VideoConstraints :=
  run (
    let@ pf := OptionalStringArray "pixel_formats" in
    let@ w := ParseIntRange "width" in
    let@ h := ParseIntRange "height" in
    let@ fps := ParseRationalRange "fps" in
    let@ cs := OptionalStringArray "color_spaces" in
    let@ cr := OptionalStringArray "color_ranges" in
    let@ hdr := OptionalStringArray "hdr_modes" in
    let@ _ := Finish in
    ret (MkVideoConstraints pf w h fps cs cr hdr)) (cap_reader v (path ++ ".video") allow_unknown).

Definition ParseAudio (v : json) (path : string) (allow_unknown : bool) : Result AudioConstraints :=
  run (
    let@ sf := OptionalStringArray "sample_formats" in
    let@ sr := ParseIntRange "sample_rate" in
    let@ cl := OptionalStringArray "channel_layouts" in
    let@ _ := Finish in
    ret (MkAudioConstraints sf sr cl)) (cap_reader v (path ++ ".audio") allow_unknown).

(** One element of a tensor shape. *)
Definition ParseDim (path : string) (dim : json) : Reader IntRange :=
  match dim with
  | JInteger z => ret (MkRange z z)
  | JObject _ =>
      lift (run (
        let@ min := RequireInteger "min" in
        let@ mx := OptionalInteger "max" in
        let@ _ := Finish in
        ret (MkRange min (default (-1) mx))) (cap_reader dim (path ++ ".tensor.shape[]") false))
  | _ => error (path ++ ".tensor.shape elements must be integer or {min,max}")
  end.

(** A loop over the elements of an array. *)
Fixpoint each {A B} (f : A -> Reader B) (l : list A) : Reader (list B) :=
  match l with
  | [] => ret []
  | a :: l' => let@ b := f a in let@ bs := each f l' in ret (b :: bs)
  end.

Definition ParseTensor (v : json) (path : string) (allow_unknown : bool) : Result TensorConstraints :=
  run (
    let@ dt := OptionalStringArray "dtypes" in
    let@ ly := OptionalStringArray "layouts" in
    let@ shape := Get "shape" in
    let@ dims := match shape with
                 | None => ret []
                 | Some (JArray l) => each (ParseDim path) l
                 | Some _ => WrongType "shape" "array"
                 end in
    let@ _ := Finish in
    ret (MkTensorConstraints dt ly dims)) (cap_reader v (path ++ ".tensor") allow_unknown).

Definition ParseMemory (v : json) (path : string) (allow_unknown : bool) : Result MemoryConstraints :=
  run (
    let@ kinds := OptionalStringArray "kinds" in
    let@ ks := match kinds with
               | None => ret None
               | Some l =>
                   let@ ks := each (fun k => match ParseMemoryKind k with
                                             | Some mk => ret mk
                                             | None => error ("invalid memory kind '" ++ k ++ "' in " ++ path)
                                             end) l in
                   ret (Some ks)
               end in
    let@ ids := Get "device_ids" in
    let@ devs := match ids with
                 | None => ret None
                 | Some (JArray l) =>
                     let@ ds := each (fun id => match id with
                                                | JInteger z => ret (Word.i32 z)
                                                | _ => error (path ++ ".memory.device_ids must be integers")
                                                end) l in
                     ret (Some ds)
                 | Some _ => WrongType "device_ids" "array"
                 end in
    let@ zc := OptionalBool "zero_copy_required" false in
    let@ _ := Finish in
    ret (MkMemoryConstraints ks devs zc)) (cap_reader v (path ++ ".memory") allow_unknown).

(** A sub-object of a port: absent, wrong, or parsed. *)
Definition section {A} (key : string) (f : json -> Result A) : Reader (option A) :=
  let@ v := Get key in
  match v with
  | None => ret None
  | Some v =>
      if negb (Json.is_object v) then WrongType key "object"
      else let@ a := lift (f v) in ret (Some a)
  end.

Definition ParsePort (value : json) (path : string) (dir : PortDirection) (allow_unknown : bool) : Result PortCapability :=
  if negb (Json.is_object value) then ManifestInvalid (path ++ " must be an object")
  else run (
    let@ name := RequireString "name" in
    let@ tag := RequireString "type_tag" in
    let@ required := OptionalBool "required" true in
    let@ card := OptionalString "cardinality" "" in
    let@ cardinality :=
      if Str.empty card then ret kSingle
      else if bool_decide (card = "single") then ret kSingle
      else if bool_decide (card = "multi") then ret kMulti
      else error ("invalid cardinality '" ++ card ++ "' in " ++ path) in
    let@ dyn := OptionalBool "dynamic_consumers" false in
    let@ video := section "video" (fun v => ParseVideo v path allow_unknown) in
    let@ audio := section "audio" (fun v => ParseAudio v path allow_unknown) in
    let@ tensor := section "tensor" (fun v => ParseTensor v path allow_unknown) in
    let@ memory := section "memory" (fun v => ParseMemory v path allow_unknown) in
    let@ sync := OptionalStringArray "sync" in
    let@ policies := match sync with
                     | None => ret None
                     | Some l =>
                         let@ ps := each (fun p => match ParseSyncPolicy p with
                                                   | Some sp => ret sp
                                                   | None => error ("invalid sync policy '" ++ p ++ "' in " ++ path)
                                                   end) l in
                         ret (Some ps)
                     end in
    let@ _ := Finish in
    ret (MkPortCapability name dir tag required cardinality dyn video audio tensor
           (default (MkMemoryConstraints None None false) memory) policies))
    (cap_reader value path allow_unknown).

(** The ports of one direction: every port parses and names are distinct. *)
Fixpoint parse_ports (key : string) (dir : PortDirection) (allow_unknown : bool) (i : nat) (l : list json)
    (acc : list PortCapability) : Reader (list PortCapability) :=
  match l with
  | [] => ret acc
  | v :: l' =>
      let@ p := lift (ParsePort v (indexed ("ports." ++ key) i) dir allow_unknown) in
      if existsb (fun e => bool_decide (pc_name e = pc_name p)) acc
      then error ("duplicate port name '" ++ pc_name p ++ "'")
      else parse_ports key dir allow_unknown (S i) l' (acc ++ [p])%list
  end.
Definition ports_of (key : string) (dir : PortDirection) (allow_unknown : bool) : Reader (list PortCapability) :=
  let@ arr := Get key in
  match arr with
  | None => ret []
  | Some (JArray l) => parse_ports key dir allow_unknown 0 l []
  | Some _ => WrongType key "array"
  end.
Definition ParsePorts (v : json) (allow_unknown : bool) : Result (list PortCapability * list PortCapability) :=
  run (
    let@ ins := ports_of "inputs" kInput allow_unknown in
    let@ outs := ports_of "outputs" kOutput allow_unknown in
    let@ _ := Finish in
    ret (ins, outs)) (cap_reader v "ports" allow_unknown).

Definition default_execution : ExecutionCapability := MkExecutionCapability [] true false 1 false None.
Definition ParseExecution (v : json) (allow_unknown : bool) : Result ExecutionCapability :=
  run (
    let@ names := StringArray "devices" false [] in
    let@ devices := each (fun d => match ParseDeviceKind d with
                                   | Some k => ret k
                                   | None => error ("invalid device '" ++ d ++ "'")
                                   end) names in
    let@ stateful := OptionalBool "stateful" true in
    let@ async := OptionalBool "async" false in
    let@ mp := OptionalInteger "max_parallelism" in
    let@ par := match mp with
                | None => ret 1
                | Some p => if p <? 1 then error "max_parallelism must be >= 1" else ret (Word.u32 p)
                end in
    let@ zc := OptionalBool "zero_copy" false in
    let@ mi := OptionalInteger "max_inference_ms" in
    let@ _ := Finish in
    ret (MkExecutionCapability devices stateful async par zc (Word.u64 <$> mi)))
    (cap_reader v "execution" allow_unknown).

Definition default_parameters : ParameterCapability := MkParameterCapability [] [] (JObject []).
Definition ParseParameters (v : json) (allow_unknown : bool) : Result ParameterCapability :=
  run (
    let@ hot := StringArray "hot_updatable" false [] in
    let@ mig := StringArray "migratable" false [] in
    let@ _ := OptionalString "schema_ref" "" in
    let@ schema := OptionalObject "schema" (JObject []) in
    let@ _ := Finish in
    ret (MkParameterCapability hot mig schema)) (cap_reader v "parameters" allow_unknown).

Definition ParseEvents (v : json) (allow_unknown : bool) : Result EventCapability :=
  run (
    let@ emits := StringArray "emits" false [] in
    let@ accepts := StringArray "accepts" false [] in
    let@ _ := Finish in
    ret (MkEventCapability emits accepts)) (cap_reader v "events" allow_unknown).

Fixpoint resource_amounts (o : list (string * json)) (m : list (string * Z)) : Reader (list (string * Z)) :=
  match o with
  | [] => ret m
  | (k, JInteger z) :: o' => resource_amounts o' (SMap.set k z m)
  | (k, _) :: _ => error ("resources." ++ k ++ " must be integer")
  end.

Definition ParseDescriptor (doc : json) : Result CapabilityDescriptor :=
  let? allow_unknown := CheckDocumentHeader doc "CapabilityDescriptor" 1 capability_schema_id
                          GE_STATUS_PLUGIN_MANIFEST_INVALID in
  run (
    let@ _ := MarkHeaderSeen in
    let@ op := RequireString "operator" in
    match OperatorKeyOps.Parse op with
    | None => error ("invalid operator '" ++ op ++ "'")
    | Some key =>
        let@ description := OptionalString "description" "" in
        let@ ports := Get "ports" in
        match ports with
        | None => Missing "ports"
        | Some pv =>
            if negb (Json.is_object pv) then WrongType "ports" "object"
            else
              let@ ios := lift (ParsePorts pv allow_unknown) in
              let@ ex := section "execution" (fun v => ParseExecution v allow_unknown) in
              let execution := default default_execution ex in
              if xc_stateful execution && (xc_max_parallelism execution >? 1)
              then error "stateful operator must have max_parallelism == 1"
              else if xc_async execution && negb (has (xc_max_inference_ms execution))
              then error "async operator must declare max_inference_ms"
              else
                let@ pm := section "parameters" (fun v => ParseParameters v allow_unknown) in
                let@ res := Get "resources" in
                let@ amounts := match res with
                                | None => ret []
                                | Some (JObject o) => resource_amounts o []
                                | Some _ => WrongType "resources" "object"
                                end in
                let@ ev := section "events" (fun v => ParseEvents v allow_unknown) in
                let@ _ := Finish in
                ret (MkCapabilityDescriptor key description ios.1 ios.2 execution (default default_parameters pm)
                       amounts (default (MkEventCapability [] []) ev))
        end
    end) (cap_reader doc "CapabilityDescriptor" allow_unknown).

Definition ParseDescriptorText (text : string) : Result CapabilityDescriptor :=
  match ParseJson text with
  | inl v => ParseDescriptor v
  | inr e => ManifestInvalid ("invalid capability JSON: " ++ e)
  end.
