(* ===== verification/CapabilityJsonProofs.v ===== *)
(** Capability descriptors survive their JSON form. *)

From stdpp Require Import base numbers list strings sorting.
From Stdlib Require Import ZArith Lia Ascii String.
From S2P Require Import Prelude Types Double Json JsonProofs JsonRoundTrip GraphSpec PacketProofs CapabilityTypes JsonReader GraphJson GraphJsonProofs CapabilityJson.

Local Open Scope string_scope.
Local Open Scope Z_scope.
Local Open Scope ge_scope.

Import Reader Read.

Lemma each_reads {A B} (f : A -> Reader B) (g : B -> A) l r :
  Forall (fun b => f (g b) r = Value (b, r)) l -> each f (map g l) r = Value (l, r).
Proof.
  induction 1 as [|b l Hb _ IH]; simpl; [done|]. by rewrite (bind_ok _ _ _ _ _ Hb), (bind_ok _ _ _ _ _ IH).
Qed.

Lemma each_all {A B} (f : A -> Reader B) (g : B -> A) l r :
  (forall b, f (g b) r = Value (b, r)) -> each f (map g l) r = Value (l, r).
Proof. intros H. apply each_reads. apply Forall_forall. auto. Qed.

Definition range_ok (r : IntRange) : Prop := rmin r <= rmax r.
Definition fps_ok (r : RationalRange) : Prop := Double.ltb (rmax r) (rmin r) = false.
Definition from_option_P {A} (P : A -> Prop) (o : option A) : Prop := match o with Some a => P a | None => True end.

Lemma IntRange_reads key r o :
  Json.Find key (value_ r) = RangeJson <$> o -> from_option_P range_ok o ->
  ParseIntRange key r = Value (o, see key r).
Proof.
  intros Hf Ho. unfold ParseIntRange. erewrite bind_ok by by apply Get_ok. cbv beta. destruct o as [x|]; [|done].
  cbn [fmap option_fmap option_map]. change (negb (Json.is_object (RangeJson x))) with false. cbv iota.
  erewrite bind_ok by apply path_ok. cbv beta. unfold RangeJson, cap_reader.
  erewrite bind_ok; [|apply lift_ok; read RequireInteger_ok; read RequireInteger_ok; finish; reflexivity]. cbv beta.
  cbn [rmin rmax]. unfold from_option_P, range_ok in Ho. rewrite (proj2 (Z.ltb_ge _ _)) by lia. by destruct x.
Qed.

Lemma RationalRange_reads key r o :
  Json.Find key (value_ r) = RationalRangeJson <$> o -> from_option_P fps_ok o ->
  ParseRationalRange key r = Value (o, see key r).
Proof.
  intros Hf Ho. unfold ParseRationalRange. erewrite bind_ok by by apply Get_ok. cbv beta. destruct o as [x|]; [|done].
  cbn [fmap option_fmap option_map]. change (negb (Json.is_object (RationalRangeJson x))) with false. cbv iota.
  erewrite bind_ok by apply path_ok. cbv beta. unfold RationalRangeJson, cap_reader.
  erewrite bind_ok; [|apply lift_ok; read OptionalNumber_ok; read OptionalNumber_ok; finish; reflexivity]. cbv beta.
  cbn [rmin rmax]. unfold from_option_P, fps_ok in Ho. rewrite Ho. by destruct x.
Qed.

Ltac range := step; [|apply IntRange_reads; [find_field|done]]; cbv beta.
Ltac strings := step; [|apply OptionalStringArray_ok; find_field]; cbv beta.

Definition video_ok (v : VideoConstraints) : Prop :=
  from_option_P range_ok (vc_width v) /\ from_option_P range_ok (vc_height v) /\ from_option_P fps_ok (vc_fps v).
Definition dim_ok (d : IntRange) : Prop := rmin d = rmax d \/ 0 <= rmax d \/ rmax d = -1.

Lemma Video_reads v p au : video_ok v -> ParseVideo (VideoJson v) p au = Value v.
Proof.
  intros (Hw & Hh & Hf). unfold ParseVideo, VideoJson, StringsJson, string_array, cap_reader.
  strings. range. range. step; [|apply RationalRange_reads; [find_field|done]]. cbv beta.
  strings. strings. strings. finish. returns v. by destruct v.
Qed.

Lemma Audio_reads a p au : from_option_P range_ok (ac_sample_rate a) -> ParseAudio (AudioJson a) p au = Value a.
Proof.
  intros Hr. unfold ParseAudio, AudioJson, StringsJson, string_array, cap_reader.
  strings. range. strings. finish. returns a. by destruct a.
Qed.

Lemma Dim_reads d p r : dim_ok d -> ParseDim p (DimJson d) r = Value (d, r).
Proof.
  intros Hd. unfold DimJson. destruct (Z.eqb_spec (rmin d) (rmax d)) as [E|E].
  - simpl. unfold ret. destruct d as [a b]. simpl in *. by subst.
  - unfold ParseDim, Json.obj. cbv iota.
    change (JObject _) with (Json.obj (("min", JInteger (rmin d)) :: when (0 <=? rmax d) "max" (JInteger (rmax d)))).
    unfold cap_reader. apply lift_ok. read RequireInteger_ok. read OptionalInteger_when. finish. returns d.
    destruct d as [a b]. unfold dim_ok in Hd. simpl in *. destruct (Z.leb_spec 0 b); simpl; [done|]. f_equal. lia.
Qed.

Lemma Tensor_reads t p au : Forall dim_ok (tc_shape t) -> ParseTensor (TensorJson t) p au = Value t.
Proof.
  intros Hd. unfold ParseTensor, TensorJson, StringsJson, string_array, cap_reader.
  strings. strings. read Get_ok. chose (tc_shape t).
  { destruct (tc_shape t) as [|d l]; [done|]. cbn [has head]. apply each_reads. eapply Forall_impl; [exact Hd|].
    intros x Hx. by apply Dim_reads. }
  finish. returns t. by destruct t.
Qed.

Lemma MemoryKind_reads k : ParseMemoryKind (MemoryKind_ToString k) = Some k.
Proof. by destruct k. Qed.
Lemma SyncPolicy_reads k : ParseSyncPolicy (SyncPolicy_ToString k) = Some k.
Proof. by destruct k. Qed.
Lemma DeviceKind_reads k : ParseDeviceKind (DeviceKind_ToString k) = Some k.
Proof. by destruct k. Qed.

Lemma Memory_reads m p au :
  from_option_P (Forall Word.is_i32) (mc_device_ids m) -> ParseMemory (MemoryJson m) p au = Value m.
Proof.
  intros Hd. unfold ParseMemory, MemoryJson, cap_reader.
  step; [|apply (OptionalStringArray_ok _ _ (map MemoryKind_ToString <$> mc_kinds m)); find_field].
  2: { destruct (mc_kinds m) as [ks|]; [|done]. simpl. by rewrite map_map. }
  cbv beta. chose (mc_kinds m).
  { destruct (mc_kinds m) as [ks|]; [|done]. simpl. erewrite bind_ok; [|apply (each_all _ MemoryKind_ToString)]; [done|].
    intros k. by rewrite MemoryKind_reads. }
  read Get_ok. chose (mc_device_ids m).
  { destruct (mc_device_ids m) as [ds|]; [|done]. simpl. erewrite bind_ok; [|apply (each_reads _ JInteger ds)]; [done|].
    eapply Forall_impl; [exact Hd|]. intros z Hz. simpl. by rewrite Word.i32_small. }
  read OptionalBool_when. finish. returns m. destruct m as [k d z]. simpl. by destruct z.
Qed.

Lemma section_reads {A} key (f : json -> Result A) (g : A -> json) r o :
  Json.Find key (value_ r) = g <$> o -> (forall a, Json.is_object (g a) = true) ->
  from_option_P (fun a => f (g a) = Value a) o -> section key f r = Value (o, see key r).
Proof.
  intros Hf Hg Ho. unfold section. erewrite bind_ok by by apply Get_ok. cbv beta. destruct o as [a|]; [|done].
  simpl. rewrite Hg. simpl. by erewrite bind_ok by by apply lift_ok.
Qed.

(** ** Ports *)

Record cport_ok (dir : PortDirection) (p : PortCapability) : Prop := {
  cp_direction : pc_direction p = dir;
  cp_required : dir = kOutput -> pc_required p = true;
  cp_video : from_option_P video_ok (pc_video p);
  cp_audio : from_option_P (fun a => from_option_P range_ok (ac_sample_rate a)) (pc_audio p);
  cp_tensor : from_option_P (fun t => Forall dim_ok (tc_shape t)) (pc_tensor p);
  cp_memory : from_option_P (Forall Word.is_i32) (mc_device_ids (pc_memory p));
}.

Lemma from_option_impl {A} (P Q : A -> Prop) o : (forall a, P a -> Q a) -> from_option_P P o -> from_option_P Q o.
Proof. destruct o; simpl; auto. Qed.

Ltac sub L := step; [|eapply section_reads; [find_field|done|eapply from_option_impl; [|eassumption]; intros ? ?; by apply L]]; cbv beta.

Lemma Port_reads dir p q au : cport_ok dir p -> ParsePort (PortJson p) q dir au = Value p.
Proof.
  intros [Hdir Hreq Hv Ha Ht Hm]. unfold ParsePort, PortJson, cap_reader.
  change (negb (Json.is_object (Json.obj _))) with false. cbv iota.
  read RequireString_ok. read RequireString_ok. read OptionalBool_when.
  read OptionalString_when. chose (pc_cardinality p); [by destruct (pc_cardinality p)|].
  read OptionalBool_when. sub Video_reads. sub Audio_reads. sub Tensor_reads.
  step; [|eapply (section_reads _ _ MemoryJson _
    (if has (mc_kinds (pc_memory p)) || has (mc_device_ids (pc_memory p)) || mc_zero_copy_required (pc_memory p)
     then Some (pc_memory p) else None)); [find_field; by destruct (_ || _)|done|]].
  2: { destruct (_ || _); [|done]. by apply Memory_reads. }
  cbv beta.
  step; [|apply (OptionalStringArray_ok _ _ (map SyncPolicy_ToString <$> pc_sync p)); find_field].
  2: { destruct (pc_sync p) as [ks|]; [|done]. simpl. by rewrite map_map. }
  cbv beta. chose (pc_sync p).
  { destruct (pc_sync p) as [ks|]; [|done]. simpl. erewrite bind_ok; [|apply (each_all _ SyncPolicy_ToString)]; [done|].
    intros k. by rewrite SyncPolicy_reads. }
  finish. returns p. destruct p as [n d t rq c dy v a te [k ds z] s]. simpl in *. subst d. f_equal.
  - destruct dir, rq; simpl; try done. by rewrite Hreq.
  - by destruct dy.
  - by destruct k, ds, z.
Qed.

Lemma ports_read key dir au l : forall i acc r,
  Forall (cport_ok dir) l -> NoDup (pc_name <$> (acc ++ l)%list) ->
  parse_ports key dir au i (map PortJson l) acc r = Value ((acc ++ l)%list, r).
Proof.
  induction l as [|p l IH]; intros i acc r Hl Hd; simpl; [by rewrite app_nil_r|].
  inversion Hl; subst. erewrite bind_ok by by apply lift_ok, Port_reads. cbv beta.
  destruct (existsb _ acc) eqn:E.
  - exfalso. apply existsb_exists in E as (x & Hx & Hb%bool_decide_eq_true). rewrite fmap_app in Hd.
    apply NoDup_app in Hd as (_ & Hd & _). apply (Hd (pc_name p)); [|by constructor].
    rewrite <- Hb. apply list_elem_of_fmap_2. by apply list_elem_of_In.
  - rewrite IH; [by rewrite <- app_assoc|done|by rewrite <- app_assoc].
Qed.

(** ** Descriptors *)

Record descriptor_ok (d : CapabilityDescriptor) : Prop := {
  do_op : OperatorKeyOps.wf (cd_op d) = true;
  do_inputs : Forall (cport_ok kInput) (cd_inputs d) /\ NoDup (pc_name <$> cd_inputs d);
  do_outputs : Forall (cport_ok kOutput) (cd_outputs d) /\ NoDup (pc_name <$> cd_outputs d);
  do_parallelism : 1 <= xc_max_parallelism (cd_execution d) < 2 ^ 32;
  do_inference : from_option_P Word.is_u64 (xc_max_inference_ms (cd_execution d));
  do_stateful : xc_stateful (cd_execution d) = true -> xc_max_parallelism (cd_execution d) = 1;
  do_async : xc_async (cd_execution d) = true -> has (xc_max_inference_ms (cd_execution d)) = true;
  do_schema : Json.is_object (par_schema (cd_parameters d)) = true;
  do_resources : SMap.sorted (cd_resources d);
}.

Lemma u64_i64 z : Word.is_u64 z -> Word.u64 (Word.i64 z) = z.
Proof.
  unfold Word.is_u64, Word.u64, Word.i64. intros Hz.
  destruct (Z.lt_ge_cases z (2 ^ 63)).
  - rewrite (Z.mod_small (z + 2 ^ 63)) by lia. rewrite Z.mod_small; lia.
  - rewrite <- (Z.mod_unique (z + 2 ^ 63) (2 ^ 64) 1 (z - 2 ^ 63)) by lia.
    symmetry. apply (Z.mod_unique _ _ (-1)); lia.
Qed.

Lemma Execution_reads x au :
  1 <= xc_max_parallelism x < 2 ^ 32 -> from_option_P Word.is_u64 (xc_max_inference_ms x) ->
  ParseExecution (ExecutionJson x) au = Value x.
Proof.
  intros Hp Hi. unfold ParseExecution, ExecutionJson, cap_reader.
  step; [|apply (StringArray_ok _ _ _ _ (map DeviceKind_ToString (xc_devices x))); find_field; by rewrite map_map].
  cbv beta. chose (xc_devices x).
  { apply (each_all _ DeviceKind_ToString). intros k. by rewrite DeviceKind_reads. }
  read (OptionalBool_when _ _ _ true). read (OptionalBool_when _ _ _ true).
  read (OptionalInteger_ok _ _ (Some _)). chose (xc_max_parallelism x).
  { rewrite (proj2 (Z.ltb_ge _ _)) by lia. by rewrite Word.u32_small by (unfold Word.is_u32; lia). }
  read (OptionalBool_when _ _ _ true).
  step; [|apply (OptionalInteger_ok _ _ (Word.i64 <$> xc_max_inference_ms x)); find_field; by destruct (xc_max_inference_ms x)].
  cbv beta. finish. returns x. destruct x as [d s a p z i]. simpl in *. f_equal. destruct i as [i|]; [|done]. simpl in *.
  by rewrite u64_i64.
Qed.

Lemma Parameters_reads p au : Json.is_object (par_schema p) = true -> ParseParameters (ParametersJson p) au = Value p.
Proof.
  intros Hs. unfold ParseParameters, ParametersJson, StringsJson, string_array, cap_reader.
  destruct p as [h m s]. simpl in *. destruct s as [| | | | | |o]; try done.
  read StringArray_ok. read StringArray_when. step; [|apply (OptionalString_ok _ _ _ None); find_field]. cbv beta.
  read OptionalObject_when. finish. returns (MkParameterCapability h m (JObject o)). f_equal; [by destruct m|by destruct o].
Qed.

Lemma amounts_read (l : list (string * Z)) : forall acc r,
  SMap.sorted (acc ++ l)%list ->
  resource_amounts (map (fun kv => (kv.1, JInteger kv.2)) l) acc r = Value ((acc ++ l)%list, r).
Proof.
  induction l as [|[k s] l IH]; intros acc r Hs; simpl; [by rewrite app_nil_r|].
  rewrite SMap.set_snoc by by apply (SMap.sorted_app_below acc (k, s) l).
  rewrite IH; [by rewrite <- app_assoc|by rewrite <- app_assoc].
Qed.

(** A capability descriptor survives its JSON form: [ParseJson] of what
    [ToJson] wrote is the same descriptor, ports with their video, audio,
    tensor and memory constraints, execution, parameters, resources and events
    included, for every descriptor within the ranges of the schema. *)
Theorem ParseDescriptor_ToJson d : descriptor_ok d -> ParseDescriptor (DescriptorJson d) = Value d.
Proof.
  intros [Hop [Hi Hid] [Ho Hod] Hp Hinf Hst Has Hs Hr]. unfold ParseDescriptor, DescriptorJson, header, cap_reader.
  rewrite header_ok by find_field. cbn [ResultOps.bind]. header_seen.
  read RequireString_ok. 
  assert (Hk : OperatorKeyOps.Parse (OperatorKeyOps.ToString (cd_op d)) = Some (cd_op d)).
  { pose proof (OperatorKey_reads (cd_op d) "" Hop) as H. unfold ParseOperatorKey in H.
    destruct (OperatorKeyOps.Parse _); [by injection H as ->|done]. }
  rewrite Hk. read OptionalString_when. rewrite if_empty. read Get_ok.
  change (negb (Json.is_object (Json.obj _))) with false. cbv iota.
  step; [|apply (lift_ok _ (cd_inputs d, cd_outputs d)); unfold ParsePorts, ports_of, cap_reader;
    step; [|read Get_ok; by apply (ports_read _ _ _ _ 0 [])]; cbv beta;
    step; [|read Get_ok; by apply (ports_read _ _ _ _ 0 [])]; cbv beta; finish; reflexivity]. cbv beta.
  step; [|eapply (section_reads _ _ ExecutionJson _ (Some (cd_execution d))); [find_field|done|by apply Execution_reads]].
  cbv beta zeta. cbn [default from_option id].
  destruct (xc_stateful (cd_execution d) && (xc_max_parallelism (cd_execution d) >? 1)) eqn:E1.
  { exfalso. apply andb_prop in E1 as [E1 E2]. rewrite (Hst E1) in E2. done. }
  destruct (xc_async (cd_execution d) && negb (has (xc_max_inference_ms (cd_execution d)))) eqn:E2.
  { exfalso. apply andb_prop in E2 as [E2 E3]. by rewrite (Has E2) in E3. }
  step; [|eapply (section_reads _ _ ParametersJson _ (Some (cd_parameters d))); [find_field|done|by apply Parameters_reads]].
  cbv beta. read Get_ok. chose (cd_resources d).
  { destruct (cd_resources d) as [|kv l] eqn:E; [done|]. rewrite <- E in *. replace (has (head (cd_resources d))) with true by by rewrite E.
    rewrite obj_sorted by by apply (sorted_map_snd JInteger). by apply (amounts_read _ []). }
  step; [|eapply (section_reads _ _ (fun e => Json.obj [("emits", StringsJson (ev_emits e)); ("accepts", StringsJson (ev_accepts e))]) _
    (if has (head (ev_emits (cd_events d))) || has (head (ev_accepts (cd_events d))) then Some (cd_events d) else None));
    [find_field; by destruct (_ || _)|done|]].
  2: { destruct (_ || _); [|done]. unfold ParseEvents, StringsJson, string_array, cap_reader. simpl.
       read StringArray_ok. read StringArray_ok. finish. returns (cd_events d). by destruct (cd_events d). }
  cbv beta. finish. returns d. destruct d as [a b i o x p r [em ac]]. simpl. f_equal. by destruct em, ac.
Qed.

Definition sample_port (n : string) (dir : PortDirection) : PortCapability :=
  MkPortCapability n dir "VideoFrame" true kMulti true
    (Some (MkVideoConstraints (Some ["NV12"; "P010"]) (Some (MkRange 16 4096)) None
       (Some (MkRange (Double.of_Z 1) (Double.of_Z 60))) None None None))
    None (Some (MkTensorConstraints None None [MkRange 1 (-1); MkRange 3 3]))
    (MkMemoryConstraints (Some [kHost; kCudaDevice]) (Some [0; 1]) true) (Some [kAligned]).
Definition sample_descriptor : CapabilityDescriptor :=
  MkCapabilityDescriptor (MkOperatorKey "scale" "1.0") "scales" [sample_port "in" kInput] [sample_port "out" kOutput]
    (MkExecutionCapability [kDevGpu] false true 4 true (Some 20)) (MkParameterCapability ["w"] [] (JObject []))
    [("gpu_memory_bytes", 1024)] (MkEventCapability ["done"] []).

Lemma ParseDescriptor_ToJson_witness : ParseDescriptor (DescriptorJson sample_descriptor) = Value sample_descriptor.
Proof.
  assert (Hp : forall n dir, cport_ok dir (sample_port n dir)).
  { intros n dir. split; simpl; try done.
    - constructor; [|constructor; [|constructor]]; unfold dim_ok; simpl; lia.
    - repeat constructor; unfold Word.is_i32; lia. }
  apply ParseDescriptor_ToJson. split; simpl; try done.
  - split; [constructor; [apply Hp|constructor]|apply NoDup_singleton].
  - split; [constructor; [apply Hp|constructor]|apply NoDup_singleton].
  - repeat constructor.
Defined.

(** A negative [max_inference_ms] is accepted and becomes an enormous
    unsigned bound. *)
Theorem negative_inference_bound :
  ParseExecution (Json.obj [("max_inference_ms", JInteger (-1))]) false =
    Value (MkExecutionCapability [] true false 1 false (Some (2 ^ 64 - 1))).
Proof. vm_compute. reflexivity. Qed.
