(* ===== verification/Negotiation.v ===== *)
(** Capability negotiation (src/capability.cpp): intersection of the port
    constraints, the deterministic choice, conflicts, the cached edge
    negotiation and the fan-out negotiation. [inputs] is never empty: an edge
    has one, and a fan-out without consumers is refused first. *)

From stdpp Require Import base numbers list strings sorting.
From Stdlib Require Import ZArith Lia Ascii String.
From S2P Require Import Prelude Types Double Json GraphSpec CapabilityTypes JsonReader GraphJson CapabilityJson.

Local Open Scope string_scope.
Local Open Scope Z_scope.

Definition IsBuiltinTypeTag (tag : string) : bool :=
  existsb (fun t => bool_decide (tag = t))
    ["VideoFrame"; "AudioFrame"; "Tensor"; "Bytes"; "Json"; "EncodedVideo"; "EncodedAudio"].

(** [std::find(l.begin(), l.end(), x) != l.end()] *)
Definition contains {A} `{EqDecision A} (x : A) (l : list A) : bool := existsb (fun y => bool_decide (y = x)) l.

(** [IntersectSets]: in the order of the left operand; absent means anything.
    The memory kinds, devices and sync policies intersect the same way. *)
Definition Intersect {A} `{EqDecision A} (lhs rhs : option (list A)) : option (list A) :=
  match lhs, rhs with
  | None, _ => rhs
  | _, None => lhs
  | Some l, Some r => Some (List.filter (fun x => contains x r) l)
  end.
Definition IntersectRanges {R} (f : R -> R -> R) (lhs rhs : option R) : option R :=
  match lhs, rhs with None, _ => rhs | _, None => lhs | Some l, Some r => Some (f l r) end.

Definition quote (s : string) : string := String Json.dquote (s ++ String Json.dquote "").
Definition any_json : string := quote "*".
Definition SetJson (s : option FormatSet) : string :=
  match s with Some l => Json.Serialize (StringsJson l) | None => any_json end.
Definition RangeStr (r : option IntRange) : string :=
  match r with Some x => Json.Serialize (RangeJson x) | None => any_json end.
Definition RationalRangeStr (r : option RationalRange) : string :=
  match r with Some x => Json.Serialize (RationalRangeJson x) | None => any_json end.

(** The caller's preference, then the input's priority, then the first. *)
Definition ChooseDeterministically (common : FormatSet) (caller_pref input_priority : option FormatSet) : string :=
  let pick (o : option FormatSet) := match o with Some l => List.find (fun p => contains p common) l | None => None end in
  match pick caller_pref with
  | Some p => p
  | None => match pick input_priority with Some p => p | None => hd "" common end
  end.

Record PreferenceSet : Type := MkPreferenceSet {
  ordered : list (string * FormatSet);
  pref_memory_kind : option MemoryKind;
  pref_device_id : option Z;
  pref_sync_policy : option SyncPolicy;
}.
Definition Pref (pref : PreferenceSet) (dim : string) : option FormatSet := SMap.find dim (ordered pref).
Definition PreferenceHash (p : PreferenceSet) : Z :=
  Fnv1a (Json.Serialize (Json.obj (
    map (fun kv => (kv.1, StringsJson kv.2)) (ordered p) ++
    maybe "memory_kind" (fun k => JString (MemoryKind_ToString k)) (pref_memory_kind p) ++
    maybe "device_id" JInteger (pref_device_id p) ++
    maybe "sync_policy" (fun s => JString (SyncPolicy_ToString s)) (pref_sync_policy p))%list)) fnv_seed.

Definition SuggestConverter (dimension type_tag : string) : string :=
  let dim d := bool_decide (dimension = d) in
  let memory := dim "memory_kind" || dim "device_id" in
  if dim "logical_type" then ""
  else if bool_decide (type_tag = "VideoFrame") then
    if dim "width" || dim "height" then "VideoScale"
    else if dim "fps" then "VideoRate"
    else if memory then "MemoryCopy" else "VideoConvert"
  else if bool_decide (type_tag = "AudioFrame") then if memory then "MemoryCopy" else "AudioResample"
  else if bool_decide (type_tag = "Tensor") then if memory then "MemoryCopy" else "TensorConvert"
  else if memory then "MemoryCopy" else "".

Record CapabilityConflict : Type := MkConflict {
  dimension : string;
  lhs_json : string;
  rhs_json : string;
  suggested_converter : string;
  consumers : list string;
}.
Definition ConflictJson (c : CapabilityConflict) : json :=
  Json.obj (
    [("dimension", JString (dimension c)); ("output", JString (lhs_json c)); ("input", JString (rhs_json c))] ++
    when (negb (Str.empty (suggested_converter c))) "suggested_converter" (JString (suggested_converter c)) ++
    when (has (head (consumers c))) "consumers" (StringsJson (consumers c)))%list.

(** A negotiation step: a value, or the status with the conflict it leaves in
    [last_conflict_]. *)
Definition Outcome (A : Type) : Type := A + (Status * option CapabilityConflict).
Definition andthen {A B} (m : Outcome A) (f : A -> Outcome B) : Outcome B :=
  match m with inl a => f a | inr e => inr e end.
Notation "'let$' x := m 'in' k" := (andthen m (fun x => k))
  (at level 10, x pattern, m at level 100, k at level 200).

Section uncached.
Context (output : PortCapability) (inputs : list PortCapability).
Context (edge_sync : option SyncPolicy) (pref : PreferenceSet) (names : list string).

(** The lambda [conflict]. *)
Definition conflict {A} (dim lhs rhs : string) : Outcome A :=
  let conv := SuggestConverter dim (pc_type_tag output) in
  let c := MkConflict dim lhs rhs conv names in
  inr (StatusOps.CapabilityConflict
         ("no common capability on dimension '" ++ dim ++ "'" ++
          (if Str.empty conv then "" else " (insert explicit " ++ conv ++ ")"))
         (Json.Serialize (ConflictJson c)), Some c).
Definition conflict_if {A} (b : bool) (dim lhs rhs : string) (k : Outcome A) : Outcome A :=
  if b then conflict dim lhs rhs else k.
Definition invalid {A} (m : string) : Outcome A := inr (StatusOps.InvalidArgument m, None).

(** Step 1: direction and logical type. *)
Fixpoint check_inputs (l : list PortCapability) : Outcome unit :=
  match l with
  | [] => inl tt
  | i :: l' =>
      if negb (bool_decide (pc_direction i = kInput)) then invalid "negotiation target must be an input port"
      else if negb (bool_decide (pc_type_tag i = pc_type_tag output))
      then conflict "logical_type" (quote (pc_type_tag output)) (quote (pc_type_tag i))
      else check_inputs l'
  end.

Definition builtin : bool := IsBuiltinTypeTag (pc_type_tag output).
Definition is_empty {A} (s : option (list A)) : bool := match s with Some [] => true | _ => false end.
Definition range_empty (r : option IntRange) : bool := match r with Some x => IntRangeOps.Empty x | None => false end.

(** *** Video *)

Definition no_video : VideoConstraints := MkVideoConstraints None None None None None None None.
Definition video_of (p : PortCapability) : VideoConstraints := default no_video (pc_video p).
Definition meet_video (c : VideoConstraints) (i : PortCapability) : VideoConstraints :=
  let iv := video_of i in
  MkVideoConstraints (Intersect (vc_pixel_formats c) (vc_pixel_formats iv))
    (IntersectRanges IntRangeOps.Intersect (vc_width c) (vc_width iv))
    (IntersectRanges IntRangeOps.Intersect (vc_height c) (vc_height iv))
    (IntersectRanges RationalRangeOps.Intersect (vc_fps c) (vc_fps iv))
    (Intersect (vc_color_spaces c) (vc_color_spaces iv))
    (Intersect (vc_color_ranges c) (vc_color_ranges iv)) (Intersect (vc_hdr_modes c) (vc_hdr_modes iv)).
Definition common_video : VideoConstraints := fold_left meet_video inputs (video_of output).
Definition front {A} (f : PortCapability -> option A) : option A := match inputs with [] => None | i :: _ => f i end.

Definition negotiate_video : Outcome (option SelectedVideoFormat) :=
  if builtin && (has (pc_video output) || existsb (fun i => has (pc_video i)) inputs) then
    let common := common_video in
    let in_pf := front (fun i => vc_pixel_formats (video_of i)) in
    let out := video_of output in
    match vc_pixel_formats common with
    | None => conflict "pixel_format" any_json any_json
    | Some [] => conflict "pixel_format" (SetJson (vc_pixel_formats out)) (SetJson in_pf)
    | Some pf =>
        conflict_if (range_empty (vc_width common)) "width"
          (RangeStr (vc_width out)) (RangeStr (front (fun i => vc_width (video_of i)))) (
        conflict_if (range_empty (vc_height common)) "height"
          (RangeStr (vc_height out)) (RangeStr (front (fun i => vc_height (video_of i)))) (
        conflict_if (match vc_fps common with Some r => RationalRangeOps.Empty r | None => false end) "fps"
          (RationalRangeStr (vc_fps out)) (RationalRangeStr (front (fun i => vc_fps (video_of i)))) (
        conflict_if (is_empty (vc_color_spaces common)) "color_space" "[]" "[]" (
        conflict_if (is_empty (vc_color_ranges common)) "color_range" "[]" "[]" (
        conflict_if (is_empty (vc_hdr_modes common)) "hdr_mode" "[]" "[]" (
        let choose dim s := (fun l => ChooseDeterministically l (Pref pref dim) None) <$> s in
        inl (Some (MkSelectedVideoFormat (ChooseDeterministically pf (Pref pref "pixel_format") in_pf)
          (vc_width common) (vc_height common) (vc_fps common)
          (choose "color_space" (vc_color_spaces common)) (choose "color_range" (vc_color_ranges common))
          (choose "hdr_mode" (vc_hdr_modes common))))))))))
    end
  else inl None.

(** *** Audio *)

Definition audio_of (p : PortCapability) : AudioConstraints := default (MkAudioConstraints None None None) (pc_audio p).
Definition meet_audio (c : AudioConstraints) (i : PortCapability) : AudioConstraints :=
  let ia := audio_of i in
  MkAudioConstraints (Intersect (ac_sample_formats c) (ac_sample_formats ia))
    (IntersectRanges IntRangeOps.Intersect (ac_sample_rate c) (ac_sample_rate ia))
    (Intersect (ac_channel_layouts c) (ac_channel_layouts ia)).
Definition common_audio : AudioConstraints := fold_left meet_audio inputs (audio_of output).

Definition negotiate_audio : Outcome (option SelectedAudioFormat) :=
  if builtin && (has (pc_audio output) || existsb (fun i => has (pc_audio i)) inputs) then
    let common := common_audio in
    let in_sf := front (fun i => ac_sample_formats (audio_of i)) in
    let out := audio_of output in
    match ac_sample_formats common with
    | None | Some [] => conflict "sample_format" (SetJson (ac_sample_formats out)) (SetJson in_sf)
    | Some sf =>
        conflict_if (range_empty (ac_sample_rate common)) "sample_rate"
          (RangeStr (ac_sample_rate out)) (RangeStr (front (fun i => ac_sample_rate (audio_of i)))) (
        conflict_if (is_empty (ac_channel_layouts common)) "channel_layout" "[]" "[]" (
        inl (Some (MkSelectedAudioFormat (ChooseDeterministically sf (Pref pref "sample_format") in_sf)
          (ac_sample_rate common)
          ((fun l => ChooseDeterministically l (Pref pref "channel_layout") None) <$> ac_channel_layouts common)))))
    end
  else inl None.

(** *** Tensors *)

(** One dimension; a negative maximum means unbounded. *)
Definition meet_dim (c o : IntRange) : IntRange :=
  MkRange (Z.max (rmin c) (rmin o))
    (if rmax c <? 0 then rmax o else if 0 <=? rmax o then Z.min (rmax c) (rmax o) else rmax c).
Definition dim_empty (c : IntRange) : bool := (0 <=? rmax c) && (rmax c <? rmin c).
Fixpoint meet_shape (i : nat) (c o : list IntRange) : Outcome (list IntRange) :=
  match c, o with
  | x :: c', y :: o' =>
      let m := meet_dim x y in
      conflict_if (dim_empty m) ("shape[" ++ Dec.to_string (Z.of_nat i) ++ "]")
        (Json.Serialize (RangeJson m)) (Json.Serialize (RangeJson y)) (
      let$ rest := meet_shape (S i) c' o' in inl (m :: rest))
  | _, _ => inl c
  end.

Definition tensor_of (p : PortCapability) : TensorConstraints := default (MkTensorConstraints None None []) (pc_tensor p).
Definition meet_tensor (c : TensorConstraints) (i : PortCapability) : Outcome TensorConstraints :=
  let it := tensor_of i in
  let$ shape :=
    match tc_shape it, tc_shape c with
    | [], s => inl s
    | s, [] => inl s
    | s, s' =>
        if bool_decide (List.length s' = List.length s) then meet_shape 0 s' s
        else conflict "shape_rank" (Dec.to_string (Z.of_nat (List.length s'))) (Dec.to_string (Z.of_nat (List.length s)))
    end in
  inl (MkTensorConstraints (Intersect (tc_dtypes c) (tc_dtypes it)) (Intersect (tc_layouts c) (tc_layouts it)) shape).
Fixpoint meet_tensors (l : list PortCapability) (c : TensorConstraints) : Outcome TensorConstraints :=
  match l with [] => inl c | i :: l' => let$ c' := meet_tensor c i in meet_tensors l' c' end.

Definition negotiate_tensor : Outcome (option SelectedTensorFormat) :=
  if builtin && (has (pc_tensor output) || existsb (fun i => has (pc_tensor i)) inputs) then
    let$ common := meet_tensors inputs (tensor_of output) in
    let in_dt := front (fun i => tc_dtypes (tensor_of i)) in
    match tc_dtypes common with
    | None | Some [] => conflict "dtype" (SetJson (tc_dtypes (tensor_of output))) (SetJson in_dt)
    | Some dt =>
        conflict_if (is_empty (tc_layouts common)) "layout" "[]" "[]" (
        inl (Some (MkSelectedTensorFormat (ChooseDeterministically dt (Pref pref "dtype") in_dt)
          ((fun l => ChooseDeterministically l (Pref pref "layout") None) <$> tc_layouts common) (tc_shape common))))
    end
  else inl None.

(** *** Memory and synchronisation *)

Definition common_kinds : option (list MemoryKind) :=
  fold_left (fun c i => Intersect c (mc_kinds (pc_memory i))) inputs (mc_kinds (pc_memory output)).
Definition common_devices : option (list Z) :=
  fold_left (fun c i => Intersect c (mc_device_ids (pc_memory i))) inputs (mc_device_ids (pc_memory output)).
Definition kinds_json (v : option (list MemoryKind)) : string := SetJson (map MemoryKind_ToString <$> v).

Definition min_element (l : list Z) : Z := match l with [] => 0 | z :: l' => fold_left Z.min l' z end.
(** A preferred value that is acceptable, or else the fallback. *)
Definition prefer {A} `{EqDecision A} (p : option A) (l : list A) (fallback : A) : A :=
  match p with Some x => if contains x l then x else fallback | None => fallback end.

Definition negotiate_memory : Outcome (MemoryKind * Z) :=
  conflict_if (is_empty common_kinds) "memory_kind"
    (kinds_json (mc_kinds (pc_memory output))) (kinds_json (front (fun i => mc_kinds (pc_memory i)))) (
  let kind := match common_kinds with
              | None => default kHost (pref_memory_kind pref)
              | Some ks => prefer (pref_memory_kind pref) ks (hd kHost ks)
              end in
  conflict_if (is_empty common_devices) "device_id" "[]" "[]" (
  let device :=
    if bool_decide (kind = kCudaDevice) || bool_decide (kind = kPinned) then
      match common_devices with
      | None => default 0 (pref_device_id pref)
      | Some ds => prefer (pref_device_id pref) ds (min_element ds)
      end
    else -1 in
  inl (kind, device))).

Definition supported_sync : option (list SyncPolicy) := fold_left (fun c i => Intersect c (pc_sync i)) inputs None.
Definition negotiate_sync : Outcome SyncPolicy :=
  let want := match edge_sync with Some s => Some s | None => pref_sync_policy pref end in
  conflict_if (is_empty supported_sync) "sync_policy" "[]" "[]" (
  match want with
  | Some w =>
      match supported_sync with
      | Some ss =>
          conflict_if (negb (contains w ss)) "sync_policy" (quote (SyncPolicy_ToString w))
            (Json.Serialize (StringsJson (map SyncPolicy_ToString ss))) (inl w)
      | None => inl w
      end
  | None => inl (match supported_sync with Some ss => hd kAny ss | None => kAny end)
  end).

Definition NegotiateUncached : Outcome ConnectionContract :=
  if negb (bool_decide (pc_direction output = kOutput)) then invalid "negotiation source must be an output port"
  else
    let$ _ := check_inputs inputs in
    let$ video := negotiate_video in
    let$ audio := negotiate_audio in
    let$ tensor := negotiate_tensor in
    let$ memory := negotiate_memory in
    let$ sync := negotiate_sync in
    inl (MkConnectionContract (pc_type_tag output) video audio tensor memory.1 memory.2 sync 0 0).

End uncached.

(** ** The negotiator *)

Record NegotiationCacheKey : Type := MkCacheKey {
  source_operator : OperatorKey;
  source_version : Z;
  target_operator : OperatorKey;
  target_version : Z;
  source_port : string;
  target_port : string;
  preferences : Z;
}.

#[export] Instance NegotiationCacheKey_eq_dec : EqDecision NegotiationCacheKey.
Proof. solve_decision. Defined.

(** The cache is only searched by key; its order is never observed. *)
Record CapabilityNegotiator : Type := MkNegotiator {
  cache_ : list (NegotiationCacheKey * ConnectionContract);
  last_conflict_ : option CapabilityConflict;
}.

Record FanoutConsumer : Type := MkFanoutConsumer {
  fc_node_id : string;
  fc_capability : Z;
  fc_port : PortCapability;
  fc_edge_sync : option SyncPolicy;
}.

Module Negotiator.

Definition empty : CapabilityNegotiator := MkNegotiator [] None.

Fixpoint lookup (k : NegotiationCacheKey) (l : list (NegotiationCacheKey * ConnectionContract)) : option ConnectionContract :=
  match l with [] => None | (k', c) :: l' => if decide (k = k') then Some c else lookup k l' end.

(** [cache_.emplace] keeps an entry that is there. *)
Definition emplace (k : NegotiationCacheKey) (c : ConnectionContract) (l : list (NegotiationCacheKey * ConnectionContract))
    : list (NegotiationCacheKey * ConnectionContract) :=
  match lookup k l with Some _ => l | None => (k, c) :: l end.

Definition with_versions (src dst : Z) (c : ConnectionContract) : ConnectionContract :=
  MkConnectionContract (logical_type c) (cc_video c) (cc_audio c) (cc_tensor c) (memory_kind c) (device_id c)
    (sync_policy c) src dst.

Definition SyncPolicy_value (s : SyncPolicy) : Z := match s with kAligned => 0 | kLatest => 1 | kAny => 2 end.

Definition cache_key (source_op : OperatorKey) (source_cap : Z) (output : PortCapability) (target_op : OperatorKey)
    (target_cap : Z) (input : PortCapability) (edge_sync : option SyncPolicy) (pref : PreferenceSet) : NegotiationCacheKey :=
  let h := PreferenceHash pref in
  MkCacheKey source_op source_cap target_op target_cap (pc_name output) (pc_name input)
    (match edge_sync with
     | Some s => Z.lxor h (Word.u64 (SyncPolicy_value s + 0x9e3779b97f4a7c15))
     | None => h
     end).

Definition NegotiateEdge (source_op : OperatorKey) (source_cap : Z) (output : PortCapability) (target_op : OperatorKey)
    (target_cap : Z) (input : PortCapability) (edge_sync : option SyncPolicy) (pref : PreferenceSet)
    (n : CapabilityNegotiator) : Result ConnectionContract * CapabilityNegotiator :=
  let key := cache_key source_op source_cap output target_op target_cap input edge_sync pref in
  match lookup key (cache_ n) with
  | Some c => (Value c, n)
  | None =>
      match NegotiateUncached output [input] edge_sync pref [] with
      | inr (s, c) => (ResultOps.of_status s, MkNegotiator (cache_ n) c)
      | inl c =>
          let c := with_versions source_cap target_cap c in
          (Value c, MkNegotiator (emplace key c (cache_ n)) None)
      end
  end.

(** [std::sort] by node and port name, [std::tie(a.node_id, a.port->name)]. *)
Definition consumer_key (c : FanoutConsumer) : string * string := (fc_node_id c, pc_name (fc_port c)).
Fixpoint insert_consumer (c : FanoutConsumer) (l : list FanoutConsumer) : list FanoutConsumer :=
  match l with
  | [] => [c]
  | x :: l' => if key_ltb (consumer_key x) (consumer_key c) then x :: insert_consumer c l' else c :: x :: l'
  end.
Definition sort_consumers (l : list FanoutConsumer) : list FanoutConsumer := foldr insert_consumer [] l.

Definition consumer_name (c : FanoutConsumer) : string := fc_node_id c ++ "." ++ pc_name (fc_port c).

(** The agreed edge override, and the hash of the consumers. *)
Fixpoint merge_sync (l : list FanoutConsumer) (acc : option SyncPolicy) : option (option SyncPolicy) :=
  match l with
  | [] => Some acc
  | c :: l' =>
      match fc_edge_sync c, acc with
      | Some s, Some a => if bool_decide (a = s) then merge_sync l' (Some s) else None
      | Some s, None => merge_sync l' (Some s)
      | None, _ => merge_sync l' acc
      end
  end.
Definition targets_hash (l : list FanoutConsumer) : Z :=
  fold_left (fun h c => Fnv1a (consumer_name c ++ ":" ++ Dec.to_string (fc_capability c)) (Z.lxor h 0x9e3779b97f4a7c15)) l 0.

(** [ConnectionContract::operator==]; ranges of doubles compare as doubles. *)
Definition fps_eqb (a b : option RationalRange) : bool :=
  match a, b with
  | Some x, Some y => Double.eqb (rmin x) (rmin y) && Double.eqb (rmax x) (rmax y)
  | None, None => true
  | _, _ => false
  end.
Definition video_eqb (a b : option SelectedVideoFormat) : bool :=
  match a, b with
  | Some x, Some y =>
      bool_decide (sv_pixel_format x = sv_pixel_format y) && bool_decide (sv_width x = sv_width y)
      && bool_decide (sv_height x = sv_height y) && fps_eqb (sv_fps x) (sv_fps y)
      && bool_decide (sv_color_space x = sv_color_space y) && bool_decide (sv_color_range x = sv_color_range y)
      && bool_decide (sv_hdr_mode x = sv_hdr_mode y)
  | None, None => true
  | _, _ => false
  end.
Definition SameDataPlane (a b : ConnectionContract) : bool :=
  bool_decide (logical_type a = logical_type b) && video_eqb (cc_video a) (cc_video b)
  && bool_decide (cc_audio a = cc_audio b) && bool_decide (cc_tensor a = cc_tensor b)
  && bool_decide (memory_kind a = memory_kind b) && bool_decide (device_id a = device_id b)
  && bool_decide (sync_policy a = sync_policy b).
Definition contract_eqb (a b : ConnectionContract) : bool :=
  SameDataPlane a b && bool_decide (source_capability a = source_capability b)
  && bool_decide (target_capability a = target_capability b).

Definition NegotiateFanout (source_cap : Z) (output : PortCapability) (consumers : list FanoutConsumer)
    (pref : PreferenceSet) (existing : option ConnectionContract) (n : CapabilityNegotiator)
    : Result ConnectionContract * CapabilityNegotiator :=
  match consumers with
  | [] => (ResultOps.of_status (StatusOps.InvalidArgument "fan-out needs at least one consumer"), n)
  | _ =>
      let cs := sort_consumers consumers in
      let names := map consumer_name cs in
      match merge_sync cs None with
      | None =>
          (ResultOps.of_status (StatusOps.CapabilityConflict "fan-out consumers request different sync policies" ""), n)
      | Some edge_sync =>
          match NegotiateUncached output (map fc_port cs) edge_sync pref names with
          | inr (s, c) => (ResultOps.of_status s, MkNegotiator (cache_ n) c)
          | inl c =>
              let r := with_versions source_cap (targets_hash cs) c in
              let n := MkNegotiator (cache_ n) None in
              match existing with
              | Some e =>
                  if contract_eqb (with_versions source_cap (target_capability e) c) e then (Value r, n)
                  else
                    let cf := MkConflict "existing_contract" (Json.Serialize (ContractJson e))
                                (Json.Serialize (ContractJson r)) "" names in
                    (ResultOps.of_status (StatusOps.CapabilityConflict
                       "adding consumer would change the published fan-out contract" (Json.Serialize (ConflictJson cf))),
                     MkNegotiator (cache_ n) (Some cf))
              | None => (Value r, n)
              end
          end
      end
  end.

Definition InvalidateOperator (op : OperatorKey) (n : CapabilityNegotiator) : CapabilityNegotiator :=
  MkNegotiator
    (List.filter (fun kc => negb (bool_decide (source_operator kc.1 = op) || bool_decide (target_operator kc.1 = op))) (cache_ n))
    (last_conflict_ n).
Definition InvalidateAll (n : CapabilityNegotiator) : CapabilityNegotiator := MkNegotiator [] (last_conflict_ n).
Definition cache_size (n : CapabilityNegotiator) : nat := List.length (cache_ n).

End Negotiator.
