(* ===== verification/NegotiationProofs.v ===== *)
(** Negotiation finds a contract exactly when one exists that every port
    accepts; fan-out does not depend on the order consumers are listed in; the
    cache only changes the cost. *)

From stdpp Require Import base numbers list strings sorting.
From Stdlib Require Import ZArith Lia Ascii String SpecFloat.
From S2P Require Import Prelude Types Double Json GraphSpec CapabilityTypes JsonReader GraphJson CapabilityJson Negotiation.

Local Open Scope string_scope.
Local Open Scope Z_scope.

(** ** Meets

    A dimension has constraints [R] and values [S]; [ok r s] says that the
    value [s] satisfies the constraint [r]. *)

Definition fits {R S} (ok : R -> S -> Prop) (o : option R) (s : S) : Prop :=
  match o with Some r => ok r s | None => True end.

Section meet.
Context {R S : Type} (meet : R -> R -> R) (ok : R -> S -> Prop) (good : R -> Prop).
Hypothesis meet_good : forall a b, good a -> good b -> good (meet a b).
Hypothesis meet_ok : forall a b s, good a -> good b -> (ok (meet a b) s <-> ok a s /\ ok b s).
Context {P : Type} (g : P -> option R).

Definition goodO (o : option R) : Prop := match o with Some r => good r | None => True end.
Definition meets (l : list P) (c : option R) : option R := fold_left (fun a i => IntersectRanges meet a (g i)) l c.

Lemma meets_good l : forall c, goodO c -> Forall (fun p => goodO (g p)) l -> goodO (meets l c).
Proof.
  induction l as [|p l IH]; intros c Hc Hl; [done|]. inversion Hl; subst. apply IH; [|done].
  destruct c, (g p); simpl in *; auto.
Qed.

Lemma meets_fits l : forall c s, goodO c -> Forall (fun p => goodO (g p)) l ->
  (fits ok (meets l c) s <-> fits ok c s /\ Forall (fun p => fits ok (g p) s) l).
Proof.
  induction l as [|p l IH]; intros c s Hc Hl.
  { split; [intros; split; [done|constructor]|by intros [? _]]. }
  inversion Hl; subst. change (meets (p :: l) c) with (meets l (IntersectRanges meet c (g p))).
  rewrite IH; [|destruct c, (g p); simpl in *; auto|done]. rewrite Forall_cons.
  destruct c as [a|], (g p) as [b|]; simpl in *; rewrite ?meet_ok by done; tauto.
Qed.

End meet.

Lemma meets_None {R P} (meet : R -> R -> R) (g : P -> option R) l : forall c, meets meet g l c = None <-> c = None /\ Forall (fun p => g p = None) l.
Proof.
  induction l as [|p l IH]; intros c; [naive_solver|].
  change (meets meet g (p :: l) c) with (meets meet g l (IntersectRanges meet c (g p))). rewrite IH, Forall_cons.
  destruct c, (g p); simpl; naive_solver.
Qed.

Lemma fold_proj {A B P} (f : A -> B) (step : A -> P -> A) (step' : B -> P -> B) l : forall c,
  (forall c i, f (step c i) = step' (f c) i) -> f (fold_left step l c) = fold_left step' l (f c).
Proof. induction l as [|p l IH]; intros c H; simpl; [done|]. by rewrite IH, H. Qed.

(** *** Sets *)

Lemma contains_spec {A} `{EqDecision A} (x : A) l : contains x l = true <-> x ∈ l.
Proof.
  unfold contains. rewrite existsb_exists, list_elem_of_In.
  setoid_rewrite bool_decide_eq_true. split; [by intros (y & Hy & <-)|intros Hx; by exists x].
Qed.

Definition narrow {A} `{EqDecision A} (l r : list A) : list A := List.filter (fun x => contains x r) l.

Lemma narrow_ok {A} `{EqDecision A} (l r : list A) x : True -> True -> (x ∈ narrow l r <-> x ∈ l /\ x ∈ r).
Proof.
  intros _ _. unfold narrow. rewrite !list_elem_of_In, filter_In, contains_spec, list_elem_of_In. done.
Qed.

Lemma Intersect_meet {A} `{EqDecision A} (a b : option (list A)) : Intersect a b = IntersectRanges narrow a b.
Proof. by destruct a, b. Qed.

Section sets.
Context {A : Type} `{EqDecision A} {P : Type} (g : P -> option (list A)).

Definition common (l : list P) (c : option (list A)) : option (list A) := fold_left (fun a i => Intersect a (g i)) l c.

Lemma common_meets l c : common l c = meets narrow g l c.
Proof.
  unfold common, meets. revert c. induction l as [|p l IH]; intros c; simpl; [done|]. by rewrite Intersect_meet, IH.
Qed.

Lemma common_fits l c x :
  fits (fun s x => x ∈ s) (common l c) x <->
  fits (fun s x => x ∈ s) c x /\ Forall (fun p => fits (fun s x => x ∈ s) (g p) x) l.
Proof.
  rewrite common_meets. apply (meets_fits narrow (fun s x => x ∈ s) (fun _ => True)); [done|apply narrow_ok| |].
  - by destruct c.
  - apply Forall_forall. intros p _. by destruct (g p).
Qed.

Lemma common_None l c : common l c = None <-> c = None /\ Forall (fun p => g p = None) l.
Proof. rewrite common_meets. apply meets_None. Qed.

End sets.

Lemma Choose_in l pref prio : l <> [] -> ChooseDeterministically l pref prio ∈ l.
Proof.
  intros Hl. unfold ChooseDeterministically.
  assert (Hp : forall o x, match o with Some l' => List.find (fun p => contains p l) l' | None => None end = Some x -> x ∈ l).
  { intros [l'|] x; [|done]. intros [_ Hx]%List.find_some. by apply contains_spec. }
  destruct (match pref with Some l' => _ | None => None end) as [x|] eqn:E1; [by eapply Hp|].
  destruct (match prio with Some l' => _ | None => None end) as [x|] eqn:E2; [by eapply Hp|].
  destruct l; [done|]. by constructor.
Qed.

(** *** Ranges *)

Definition within (r s : IntRange) : Prop := rmin r <= rmin s /\ rmax s <= rmax r.
Lemma within_meet (a b s : IntRange) : True -> True -> (within (IntRangeOps.Intersect a b) s <-> within a s /\ within b s).
Proof.
  intros _ _. unfold within, IntRangeOps.Intersect. simpl.
  destruct (Z.gtb_spec (rmin a) (rmin b)), (Z.ltb_spec (rmax a) (rmax b)); lia.
Qed.

(** Doubles that are numbers are totally preordered by [<]. *)
Definition is_num (d : double) : Prop := d <> S754_nan.
Definition rank (d : double) : Z * Z * Z :=
  match d with
  | S754_infinity true => (-2, 0, 0)
  | S754_finite true m e => (-1, - e, - Z.pos m)
  | S754_zero _ | S754_nan => (0, 0, 0)
  | S754_finite false m e => (1, e, Z.pos m)
  | S754_infinity false => (2, 0, 0)
  end.
Definition rank_lt (a b : Z * Z * Z) : Prop :=
  a.1.1 < b.1.1 \/ (a.1.1 = b.1.1 /\ (a.1.2 < b.1.2 \/ (a.1.2 = b.1.2 /\ a.2 < b.2))).

Lemma ltb_rank a b : is_num a -> is_num b -> Double.ltb a b = true <-> rank_lt (rank a) (rank b).
Proof.
  intros Ha Hb. unfold Double.ltb, SFltb, SFcompare, rank_lt, is_num in *.
  destruct a as [[]|[]| |[] m e], b as [[]|[]| |[] m' e']; try congruence; simpl; try (split; [try done; lia|try done; lia]).
  all: destruct (Z.compare_spec e e'); simpl; try (split; [try done; lia|try done; lia]).
  all: change (Pos.compare_cont Eq m m') with (m ?= m')%positive; destruct (Pos.compare_spec m m'); simpl.
  all: split; try done; lia.
Qed.

Lemma ltb_false a b : is_num a -> is_num b -> Double.ltb a b = false <-> ~ rank_lt (rank a) (rank b).
Proof. intros Ha Hb. rewrite <- ltb_rank by done. by destruct (Double.ltb a b). Qed.

Definition num_range (r : RationalRange) : Prop := is_num (rmin r) /\ is_num (rmax r).
Definition fps_within (r s : RationalRange) : Prop :=
  num_range s /\ Double.ltb (rmin s) (rmin r) = false /\ Double.ltb (rmax r) (rmax s) = false.

Lemma fps_good a b : num_range a -> num_range b -> num_range (RationalRangeOps.Intersect a b).
Proof. intros [] []. split; simpl; by destruct (Double.ltb _ _). Qed.

Lemma fps_meet (a b s : RationalRange) :
  num_range a -> num_range b -> (fps_within (RationalRangeOps.Intersect a b) s <-> fps_within a s /\ fps_within b s).
Proof.
  intros [Ha1 Ha2] [Hb1 Hb2]. unfold fps_within, RationalRangeOps.Intersect. cbn [rmin rmax].
  destruct (Double.ltb (rmin b) (rmin a)) eqn:E1, (Double.ltb (rmax a) (rmax b)) eqn:E2;
    (split; [intros ([Hs1 Hs2] & H1 & H2)|intros (([Hs1 Hs2] & H1 & H2) & (_ & H3 & H4))]);
    rewrite ?ltb_rank, ?ltb_false in * by done; unfold rank_lt, num_range in *; split_and!; try done; lia.
Qed.

Definition fps_ne (r : RationalRange) : Prop := RationalRangeOps.Empty r = false.
Definition int_ne (r : IntRange) : Prop := IntRangeOps.Empty r = false.

(** A selection agrees with a constraint: it satisfies it, and is left open
    only when the constraint is. *)
Definition agrees {R S} (ok : R -> S -> Prop) (o : option R) (sel : option S) : Prop :=
  match sel with Some s => fits ok o s | None => o = None end.
Definition neO {R} (ne : R -> Prop) (o : option R) : Prop := match o with Some r => ne r | None => True end.

Section ranges.
Context {R : Type} (meet : R -> R -> R) (ok : R -> R -> Prop) (good ne : R -> Prop).
Hypothesis meet_good : forall a b, good a -> good b -> good (meet a b).
Hypothesis meet_ok : forall a b s, good a -> good b -> (ok (meet a b) s <-> ok a s /\ ok b s).
Hypothesis ok_refl : forall a, good a -> ok a a.
Hypothesis ok_ne : forall a s, good a -> ok a s -> ne s -> ne a.
Context {P : Type} (g : P -> option R).

Lemma meets_agrees l c :
  goodO good c -> Forall (fun p => goodO good (g p)) l ->
  agrees ok c (meets meet g l c) /\ Forall (fun p => agrees ok (g p) (meets meet g l c)) l.
Proof.
  intros Hc Hl. pose proof (meets_good meet good meet_good g l c Hc Hl) as Hg.
  destruct (meets meet g l c) as [m|] eqn:E.
  - apply (meets_fits meet ok good meet_good meet_ok g l c m Hc Hl). rewrite E. simpl. by apply ok_refl.
  - by apply meets_None in E.
Qed.

Lemma meets_complete l c sel :
  goodO good c -> Forall (fun p => goodO good (g p)) l ->
  agrees ok c sel -> Forall (fun p => agrees ok (g p) sel) l -> neO ne sel -> neO ne (meets meet g l c).
Proof.
  intros Hc Hl H1 H2 Hne. pose proof (meets_good meet good meet_good g l c Hc Hl) as Hg.
  destruct sel as [s|]; simpl in *.
  - assert (Hf : fits ok (meets meet g l c) s) by by apply (meets_fits meet ok good meet_good meet_ok).
    destruct (meets meet g l c) as [m|]; [|done]. simpl in *. by eapply ok_ne.
  - by rewrite (proj2 (meets_None meet g l c) (conj H1 H2)).
Qed.

End ranges.

Definition int_agrees := @agrees IntRange IntRange within.
Definition fps_agrees := @agrees RationalRange RationalRange fps_within.
Definition set_agrees {A} := @agrees (list A) A (fun s x => x ∈ s).

Lemma all_good {P R} (g : P -> option R) l : Forall (fun p => goodO (fun _ => True) (g p)) l.
Proof. apply Forall_forall. intros p _. by destruct (g p). Qed.

Lemma int_meets_agrees {P} (g : P -> option IntRange) l c :
  let m := meets IntRangeOps.Intersect g l c in int_agrees c m /\ Forall (fun p => int_agrees (g p) m) l.
Proof.
  apply (meets_agrees _ within (fun _ => True)); [done|apply within_meet| |by destruct c|apply all_good].
  intros a _. unfold within. lia.
Qed.
Lemma int_meets_complete {P} (g : P -> option IntRange) l c sel :
  int_agrees c sel -> Forall (fun p => int_agrees (g p) sel) l -> neO int_ne sel ->
  range_empty (meets IntRangeOps.Intersect g l c) = false.
Proof.
  intros H1 H2 H3.
  pose proof (meets_complete IntRangeOps.Intersect within (fun _ => True) int_ne ltac:(done) within_meet) as H.
  specialize (H ltac:(unfold within, int_ne, IntRangeOps.Empty; intros; lia) P g l c sel).
  specialize (H ltac:(by destruct c) (all_good g l) H1 H2 H3). by destruct (meets _ _ _ _).
Qed.

Lemma fps_refl a : num_range a -> fps_within a a.
Proof. intros [H1 H2]. split; [done|]. rewrite !ltb_false by done. unfold rank_lt. lia. Qed.
Lemma fps_within_ne a s : num_range a -> fps_within a s -> fps_ne s -> fps_ne a.
Proof.
  intros [H1 H2] ([H3 H4] & H5 & H6). unfold fps_ne, RationalRangeOps.Empty.
  rewrite ltb_false in H5, H6 by done. rewrite !ltb_false by done. unfold rank_lt in *. lia.
Qed.

Lemma common_agrees {A} `{EqDecision A} {P} (g : P -> option (list A)) l c s x :
  common g l c = Some s -> x ∈ s -> set_agrees c (Some x) /\ Forall (fun p => set_agrees (g p) (Some x)) l.
Proof. intros E Hx. apply (common_fits g l c x). by rewrite E. Qed.

Lemma common_open {A} `{EqDecision A} {P} (g : P -> option (list A)) l c :
  common g l c = None -> set_agrees c (None : option A) /\ Forall (fun p => set_agrees (g p) (None : option A)) l.
Proof. apply common_None. Qed.

Lemma common_complete {A} `{EqDecision A} {P} (g : P -> option (list A)) l c sel :
  set_agrees c sel -> Forall (fun p => set_agrees (g p) sel) l -> is_empty (common g l c) = false.
Proof.
  intros H1 H2. destruct sel as [x|]; simpl in *.
  - assert (Hf : fits (fun s x => x ∈ s) (common g l c) x) by by apply common_fits.
    destruct (common g l c) as [[|y s]|]; simpl in *; try done. by apply not_elem_of_nil in Hf.
  - by rewrite (proj2 (common_None g l c) (conj H1 H2)).
Qed.

(** ** What the ports agree on *)

Record video_fits (v : SelectedVideoFormat) (c : VideoConstraints) : Prop := {
  vf_pixel_format : set_agrees (vc_pixel_formats c) (Some (sv_pixel_format v));
  vf_width : int_agrees (vc_width c) (sv_width v);
  vf_height : int_agrees (vc_height c) (sv_height v);
  vf_fps : fps_agrees (vc_fps c) (sv_fps v);
  vf_color_space : set_agrees (vc_color_spaces c) (sv_color_space v);
  vf_color_range : set_agrees (vc_color_ranges c) (sv_color_range v);
  vf_hdr_mode : set_agrees (vc_hdr_modes c) (sv_hdr_mode v);
}.
Record audio_fits (a : SelectedAudioFormat) (c : AudioConstraints) : Prop := {
  af_sample_format : set_agrees (ac_sample_formats c) (Some (sa_sample_format a));
  af_sample_rate : int_agrees (ac_sample_rate c) (sa_sample_rate a);
  af_channel_layout : set_agrees (ac_channel_layouts c) (sa_channel_layout a);
}.

(** A dimension of a shape; a negative maximum leaves it unbounded. *)
Definition dim_within (r s : IntRange) : Prop := rmin r <= rmin s /\ (rmax r < 0 \/ 0 <= rmax s <= rmax r).
Definition dim_ne (r : IntRange) : Prop := rmax r < 0 \/ rmin r <= rmax r.
Definition shape_fits (sel c : list IntRange) : Prop := c = [] \/ Forall2 dim_within c sel.
Record tensor_fits (t : SelectedTensorFormat) (c : TensorConstraints) : Prop := {
  tf_dtype : set_agrees (tc_dtypes c) (Some (st_dtype t));
  tf_layout : set_agrees (tc_layouts c) (st_layout t);
  tf_shape : shape_fits (st_shape t) (tc_shape c);
}.

(** A section of the contract is there exactly when some port of a built-in
    type describes it. *)
Definition section_agreed {S} (tag : string) (has_section : PortCapability -> bool) (ports : list PortCapability)
    (P : S -> Prop) (sel : option S) : Prop :=
  if IsBuiltinTypeTag tag && existsb has_section ports then exists s, sel = Some s /\ P s else sel = None.

Definition video_agreed (tag : string) (ports : list PortCapability) (sel : option SelectedVideoFormat) : Prop :=
  section_agreed tag (fun p => has (pc_video p)) ports (fun v =>
    Exists (fun p => vc_pixel_formats (video_of p) <> None) ports /\ Forall (fun p => video_fits v (video_of p)) ports /\
    neO int_ne (sv_width v) /\ neO int_ne (sv_height v) /\ neO fps_ne (sv_fps v)) sel.
Definition audio_agreed (tag : string) (ports : list PortCapability) (sel : option SelectedAudioFormat) : Prop :=
  section_agreed tag (fun p => has (pc_audio p)) ports (fun a =>
    Exists (fun p => ac_sample_formats (audio_of p) <> None) ports /\ Forall (fun p => audio_fits a (audio_of p)) ports /\
    neO int_ne (sa_sample_rate a)) sel.
Definition tensor_agreed (tag : string) (ports : list PortCapability) (sel : option SelectedTensorFormat) : Prop :=
  section_agreed tag (fun p => has (pc_tensor p)) ports (fun t =>
    Exists (fun p => tc_dtypes (tensor_of p) <> None) ports /\ Forall (fun p => tensor_fits t (tensor_of p)) ports /\
    Forall dim_ne (st_shape t)) sel.

(** The tensor section without the demand that every dimension has a size. *)
Definition tensor_fitted (tag : string) (ports : list PortCapability) (sel : option SelectedTensorFormat) : Prop :=
  section_agreed tag (fun p => has (pc_tensor p)) ports (fun t =>
    Exists (fun p => tc_dtypes (tensor_of p) <> None) ports /\ Forall (fun p => tensor_fits t (tensor_of p)) ports) sel.

(** The bounds of a frame rate are numbers, as everything a JSON text denotes. *)
Definition rate_ok (p : PortCapability) : Prop := goodO num_range (vc_fps (video_of p)).
(** No dimension of the port's own shape has a minimum above its maximum. *)
Definition shape_ok (p : PortCapability) : Prop := Forall dim_ne (tc_shape (tensor_of p)).
Record port_sane (p : PortCapability) : Prop := { ps_fps : rate_ok p; ps_shape : shape_ok p }.

Section exact.
Context (output : PortCapability) (inputs : list PortCapability).
Context (edge_sync : option SyncPolicy) (pref : PreferenceSet) (names : list string).
Let tag := pc_type_tag output.
Let ports := output :: inputs.

Lemma common_video_proj {R} (f : VideoConstraints -> R) op :
  (forall c i, f (meet_video c i) = op (f c) (f (video_of i))) ->
  f (common_video output inputs) = fold_left (fun a i => op a (f (video_of i))) inputs (f (video_of output)).
Proof. intros H. unfold common_video. by apply (fold_proj f meet_video (fun a i => op a (f (video_of i)))). Qed.

Lemma common_audio_proj {R} (f : AudioConstraints -> R) op :
  (forall c i, f (meet_audio c i) = op (f c) (f (audio_of i))) ->
  f (common_audio output inputs) = fold_left (fun a i => op a (f (audio_of i))) inputs (f (audio_of output)).
Proof. intros H. unfold common_audio. by apply (fold_proj f meet_audio (fun a i => op a (f (audio_of i)))). Qed.

(** The chosen element of a common set. *)
Lemma choose_agrees (g : PortCapability -> option FormatSet) p q :
  is_empty (common g inputs (g output)) = false ->
  let sel := (fun l => ChooseDeterministically l p q) <$> common g inputs (g output) in
  Forall (fun i => set_agrees (g i) sel) ports.
Proof.
  intros He. simpl. destruct (common g inputs (g output)) as [s|] eqn:E; simpl.
  - apply Forall_cons. apply (common_agrees g inputs (g output) s); [done|]. apply Choose_in. by destruct s.
  - apply Forall_cons. by apply common_open.
Qed.

Lemma required_agrees (g : PortCapability -> option FormatSet) s x l p q :
  common g inputs (g output) = Some s -> s = x :: l ->
  Exists (fun i => g i <> None) ports /\
  Forall (fun i => set_agrees (g i) (Some (ChooseDeterministically s p q))) ports.
Proof.
  intros E ->. split.
  - destruct (decide (Exists (fun i => g i <> None) ports)) as [|Hn]; [done|].
    apply not_Exists_Forall in Hn; [|apply _]. apply Forall_cons in Hn as [H1 H2].
    assert (Hc : common g inputs (g output) = None).
    { apply common_None. split; [by apply dec_stable|]. eapply Forall_impl; [exact H2|]. intros i Hi. by apply dec_stable. }
    congruence.
  - apply Forall_cons. apply (common_agrees g inputs (g output) (x :: l)); [done|]. by apply Choose_in.
Qed.

(** A value every port admits, in a dimension some port names, leaves the
    common set inhabited. *)
Lemma required_complete (g : PortCapability -> option FormatSet) x :
  Exists (fun i => g i <> None) ports -> Forall (fun i => set_agrees (g i) (Some x)) ports ->
  exists y l, common g inputs (g output) = Some (y :: l).
Proof.
  intros He [H1 H2]%Forall_cons. pose proof (common_complete g inputs (g output) (Some x) H1 H2) as Hc.
  destruct (common g inputs (g output)) as [[|y l]|] eqn:E; [done|eauto|]. exfalso.
  apply common_None in E as [E1 E2]. apply Exists_cons in He as [He|He]; [done|].
  apply Exists_exists in He as (i & Hi & Hn). rewrite Forall_forall in E2. by apply Hn, E2.
Qed.

(** The dimensions of [common_video] and [common_audio]. *)
Lemma common_video_eq :
  common_video output inputs =
    let set f := common (fun p => f (video_of p)) inputs (f (video_of output)) in
    let range f := meets IntRangeOps.Intersect (fun p => f (video_of p)) inputs (f (video_of output)) in
    MkVideoConstraints (set vc_pixel_formats) (range vc_width) (range vc_height)
      (meets RationalRangeOps.Intersect (fun p => vc_fps (video_of p)) inputs (vc_fps (video_of output)))
      (set vc_color_spaces) (set vc_color_ranges) (set vc_hdr_modes).
Proof.
  cbv zeta. unfold common, meets.
  rewrite <- (common_video_proj vc_pixel_formats Intersect) by done.
  rewrite <- (common_video_proj vc_width (IntersectRanges IntRangeOps.Intersect)) by done.
  rewrite <- (common_video_proj vc_height (IntersectRanges IntRangeOps.Intersect)) by done.
  rewrite <- (common_video_proj vc_fps (IntersectRanges RationalRangeOps.Intersect)) by done.
  rewrite <- (common_video_proj vc_color_spaces Intersect) by done.
  rewrite <- (common_video_proj vc_color_ranges Intersect) by done.
  rewrite <- (common_video_proj vc_hdr_modes Intersect) by done.
  by destruct (common_video output inputs).
Qed.

Lemma common_audio_eq :
  common_audio output inputs =
    MkAudioConstraints (common (fun p => ac_sample_formats (audio_of p)) inputs (ac_sample_formats (audio_of output)))
      (meets IntRangeOps.Intersect (fun p => ac_sample_rate (audio_of p)) inputs (ac_sample_rate (audio_of output)))
      (common (fun p => ac_channel_layouts (audio_of p)) inputs (ac_channel_layouts (audio_of output))).
Proof.
  unfold common, meets.
  rewrite <- (common_audio_proj ac_sample_formats Intersect) by done.
  rewrite <- (common_audio_proj ac_sample_rate (IntersectRanges IntRangeOps.Intersect)) by done.
  rewrite <- (common_audio_proj ac_channel_layouts Intersect) by done.
  by destruct (common_audio output inputs).
Qed.

Lemma conflict_if_inl {A} b dim l r (k : Outcome A) x : conflict_if output names b dim l r k = inl x -> b = false /\ k = inl x.
Proof. by destruct b. Qed.

Lemma range_section (g : PortCapability -> option IntRange) :
  Forall (fun p => int_agrees (g p) (meets IntRangeOps.Intersect g inputs (g output))) ports.
Proof. apply Forall_cons. apply (int_meets_agrees g inputs (g output)). Qed.
Lemma range_section_ne (m : option IntRange) : range_empty m = false -> neO int_ne m.
Proof. by destruct m. Qed.

Context (rates : Forall rate_ok ports).

Lemma fps_goods :
  goodO num_range (vc_fps (video_of output)) /\ Forall (fun p => goodO num_range (vc_fps (video_of p))) inputs.
Proof. by apply Forall_cons in rates. Qed.

Lemma fps_section :
  Forall (fun p => fps_agrees (vc_fps (video_of p))
    (meets RationalRangeOps.Intersect (fun p => vc_fps (video_of p)) inputs (vc_fps (video_of output)))) ports.
Proof.
  apply Forall_cons. apply (meets_agrees RationalRangeOps.Intersect fps_within num_range); [apply fps_good|apply fps_meet|apply fps_refl|apply fps_goods..].
Qed.

Lemma video_sound sel : negotiate_video output inputs pref names = inl sel -> video_agreed tag ports sel.
Proof.
  unfold negotiate_video, video_agreed, section_agreed, builtin. fold tag.
  change (existsb (fun p => has (pc_video p)) ports) with (has (pc_video output) || existsb (fun i => has (pc_video i)) inputs).
  destruct (_ && _); [|by intros [= <-]]. rewrite common_video_eq. cbv zeta.
  cbn [vc_pixel_formats vc_width vc_height vc_fps vc_color_spaces vc_color_ranges vc_hdr_modes].
  destruct (common _ _ (vc_pixel_formats _)) as [[|x l]|] eqn:E; try done. intros H.
  apply conflict_if_inl in H as [Hw H]. apply conflict_if_inl in H as [Hh H]. apply conflict_if_inl in H as [Hf H].
  apply conflict_if_inl in H as [H1 H]. apply conflict_if_inl in H as [H2 H]. apply conflict_if_inl in H as [H3 [= <-]].
  eexists. split; [done|].
  destruct (required_agrees _ _ _ _ (Pref pref "pixel_format") (front inputs (fun i => vc_pixel_formats (video_of i))) E eq_refl) as [Hr1 Hr2].
  split; [done|]. split; [|split; [by apply range_section_ne|split; [by apply range_section_ne|]]].
  - pose proof (range_section (fun p => vc_width (video_of p))) as W. pose proof (range_section (fun p => vc_height (video_of p))) as H.
    pose proof fps_section as F. pose proof (choose_agrees (fun p => vc_color_spaces (video_of p)) (Pref pref "color_space") None H1) as C1.
    pose proof (choose_agrees (fun p => vc_color_ranges (video_of p)) (Pref pref "color_range") None H2) as C2.
    pose proof (choose_agrees (fun p => vc_hdr_modes (video_of p)) (Pref pref "hdr_mode") None H3) as C3.
    rewrite Forall_forall in *. intros p Hp. split; auto.
  - simpl. by destruct (meets RationalRangeOps.Intersect _ _ _).
Qed.

Lemma video_complete sel : video_agreed tag ports sel -> exists sel', negotiate_video output inputs pref names = inl sel'.
Proof.
  unfold negotiate_video, video_agreed, section_agreed, builtin. fold tag.
  change (existsb (fun p => has (pc_video p)) ports) with (has (pc_video output) || existsb (fun i => has (pc_video i)) inputs).
  destruct (_ && _); [|eauto]. intros (v & -> & Hr & Hf & Hw & Hh & Hfps). rewrite common_video_eq. cbv zeta.
  cbn [vc_pixel_formats vc_width vc_height vc_fps vc_color_spaces vc_color_ranges vc_hdr_modes].
  assert (Hall : forall (Q : PortCapability -> Prop), (forall p, video_fits v (video_of p) -> Q p) -> Q output /\ Forall Q inputs).
  { intros Q HQ. apply Forall_cons. eapply Forall_impl; [exact Hf|]. intros p. apply HQ. }
  destruct (required_complete (fun p => vc_pixel_formats (video_of p)) (sv_pixel_format v) Hr) as (x & l & ->).
  { eapply Forall_impl; [exact Hf|]. by intros p []. }
  destruct (Hall (fun p => int_agrees (vc_width (video_of p)) (sv_width v))) as [W1 W2]; [by intros p []|].
  rewrite (int_meets_complete (fun p => vc_width (video_of p)) inputs _ _ W1 W2 Hw).
  destruct (Hall (fun p => int_agrees (vc_height (video_of p)) (sv_height v))) as [I1 I2]; [by intros p []|].
  rewrite (int_meets_complete (fun p => vc_height (video_of p)) inputs _ _ I1 I2 Hh).
  destruct (Hall (fun p => fps_agrees (vc_fps (video_of p)) (sv_fps v))) as [F1 F2]; [by intros p []|].
  pose proof (meets_complete RationalRangeOps.Intersect fps_within num_range fps_ne fps_good fps_meet fps_within_ne
    (fun p => vc_fps (video_of p)) inputs (vc_fps (video_of output)) (sv_fps v) (proj1 fps_goods) (proj2 fps_goods) F1 F2 Hfps) as Hne.
  replace (match meets RationalRangeOps.Intersect _ _ _ with Some r => _ | None => _ end) with false
    by (by destruct (meets RationalRangeOps.Intersect _ _ _)).
  destruct (Hall (fun p => set_agrees (vc_color_spaces (video_of p)) (sv_color_space v))) as [C1 C2]; [by intros p []|].
  rewrite (common_complete (fun p => vc_color_spaces (video_of p)) inputs _ _ C1 C2).
  destruct (Hall (fun p => set_agrees (vc_color_ranges (video_of p)) (sv_color_range v))) as [D1 D2]; [by intros p []|].
  rewrite (common_complete (fun p => vc_color_ranges (video_of p)) inputs _ _ D1 D2).
  destruct (Hall (fun p => set_agrees (vc_hdr_modes (video_of p)) (sv_hdr_mode v))) as [E1 E2]; [by intros p []|].
  rewrite (common_complete (fun p => vc_hdr_modes (video_of p)) inputs _ _ E1 E2).
  simpl. eauto.
Qed.

Lemma audio_sound sel : negotiate_audio output inputs pref names = inl sel -> audio_agreed tag ports sel.
Proof.
  unfold negotiate_audio, audio_agreed, section_agreed, builtin. fold tag.
  change (existsb (fun p => has (pc_audio p)) ports) with (has (pc_audio output) || existsb (fun i => has (pc_audio i)) inputs).
  destruct (_ && _); [|by intros [= <-]]. rewrite common_audio_eq. cbv zeta.
  cbn [ac_sample_formats ac_sample_rate ac_channel_layouts].
  destruct (common _ _ (ac_sample_formats _)) as [[|x l]|] eqn:E; try done. intros H.
  apply conflict_if_inl in H as [Hr H]. apply conflict_if_inl in H as [Hc [= <-]]. eexists. split; [done|].
  destruct (required_agrees _ _ _ _ (Pref pref "sample_format") (front inputs (fun i => ac_sample_formats (audio_of i))) E eq_refl) as [Hr1 Hr2].
  split; [done|]. split; [|by apply range_section_ne].
  pose proof (range_section (fun p => ac_sample_rate (audio_of p))) as W.
  pose proof (choose_agrees (fun p => ac_channel_layouts (audio_of p)) (Pref pref "channel_layout") None Hc) as C1.
  rewrite Forall_forall in *. intros p Hp. split; auto.
Qed.

Lemma audio_complete sel : audio_agreed tag ports sel -> exists sel', negotiate_audio output inputs pref names = inl sel'.
Proof.
  unfold negotiate_audio, audio_agreed, section_agreed, builtin. fold tag.
  change (existsb (fun p => has (pc_audio p)) ports) with (has (pc_audio output) || existsb (fun i => has (pc_audio i)) inputs).
  destruct (_ && _); [|eauto]. intros (a & -> & Hr & Hf & Hs). rewrite common_audio_eq. cbv zeta.
  cbn [ac_sample_formats ac_sample_rate ac_channel_layouts].
  assert (Hall : forall (Q : PortCapability -> Prop), (forall p, audio_fits a (audio_of p) -> Q p) -> Q output /\ Forall Q inputs).
  { intros Q HQ. apply Forall_cons. eapply Forall_impl; [exact Hf|]. intros p. apply HQ. }
  destruct (required_complete (fun p => ac_sample_formats (audio_of p)) (sa_sample_format a) Hr) as (x & l & ->).
  { eapply Forall_impl; [exact Hf|]. by intros p []. }
  destruct (Hall (fun p => int_agrees (ac_sample_rate (audio_of p)) (sa_sample_rate a))) as [W1 W2]; [by intros p []|].
  rewrite (int_meets_complete (fun p => ac_sample_rate (audio_of p)) inputs _ _ W1 W2 Hs).
  destruct (Hall (fun p => set_agrees (ac_channel_layouts (audio_of p)) (sa_channel_layout a))) as [C1 C2]; [by intros p []|].
  rewrite (common_complete (fun p => ac_channel_layouts (audio_of p)) inputs _ _ C1 C2). simpl. eauto.
Qed.

(** *** Shapes *)

Lemma meet_dim_within a b s : dim_within (meet_dim a b) s <-> dim_within a s /\ dim_within b s.
Proof.
  unfold dim_within, meet_dim. simpl. destruct (Z.ltb_spec (rmax a) 0), (Z.leb_spec 0 (rmax b)); lia.
Qed.

Lemma meet_shape_sound c : forall i o m, List.length c = List.length o -> meet_shape output names i c o = inl m ->
  Forall dim_ne m /\ List.length m = List.length c /\
  (forall sel, Forall2 dim_within m sel <-> Forall2 dim_within c sel /\ Forall2 dim_within o sel).
Proof.
  induction c as [|x c IH]; intros i [|y o] m Hlen; try done.
  - intros [= <-]. split; [constructor|]. split; [done|]. naive_solver.
  - cbn [meet_shape]. intros [He H]%conflict_if_inl. destruct (meet_shape output names (S i) c o) as [rest|] eqn:E; [|done].
    simpl in H. injection H as <-. destruct (IH (S i) o rest) as (H1 & H2 & H3); [by injection Hlen|done|].
    split; [constructor; [|done]|split; [by simpl; f_equal|]].
    + unfold dim_empty in He. unfold dim_ne. destruct (Z.leb_spec 0 (rmax (meet_dim x y))); [|lia].
      destruct (Z.ltb_spec (rmax (meet_dim x y)) (rmin (meet_dim x y))); [done|lia].
    + intros [|s sel].
      * split; [intros HF; inversion HF|intros [HF _]; inversion HF].
      * rewrite !Forall2_cons, H3, meet_dim_within. tauto.
Qed.

Lemma meet_shape_complete c : forall i o sel,
  Forall2 dim_within c sel -> Forall2 dim_within o sel -> Forall dim_ne sel -> exists m, meet_shape output names i c o = inl m.
Proof.
  induction c as [|x c IH]; intros i o sel Hc Ho Hne; [by exists []|].
  inversion Hc as [|? s ? sel' Hx Hc']; subst. inversion Ho as [|y ? o' ? Hy Ho']; subst. inversion Hne; subst.
  destruct (IH (S i) o' sel' Hc' Ho' ltac:(done)) as [m Hm]. cbn [meet_shape].
  assert (He : dim_empty (meet_dim x y) = false).
  { pose proof (proj2 (meet_dim_within x y s) (conj Hx Hy)) as Hw. unfold dim_within, dim_ne, dim_empty in *.
    destruct (Z.leb_spec 0 (rmax (meet_dim x y))); [|done]. destruct (Z.ltb_spec (rmax (meet_dim x y)) (rmin (meet_dim x y))); [lia|done]. }
  rewrite He. simpl. rewrite Hm. simpl. eauto.
Qed.

Lemma meet_tensor_sound c i r :
  meet_tensor output names c i = inl r ->
  tc_dtypes r = Intersect (tc_dtypes c) (tc_dtypes (tensor_of i)) /\
  tc_layouts r = Intersect (tc_layouts c) (tc_layouts (tensor_of i)) /\
  (Forall dim_ne (tc_shape c) -> shape_ok i -> Forall dim_ne (tc_shape r)) /\
  (forall sel, shape_fits sel (tc_shape r) -> shape_fits sel (tc_shape c) /\ shape_fits sel (tc_shape (tensor_of i))).
Proof.
  unfold meet_tensor, shape_ok. cbv zeta.
  destruct (tc_shape (tensor_of i)) as [|y o] eqn:Ei, (tc_shape c) as [|x s] eqn:Ec; cbn [andthen].
  1-3: intros [= <-]; split_and!; simpl; [done..|]; intros sel Hs; split; (done || by left).
  case_bool_decide as Hlen; [|done].
  destruct (meet_shape output names 0 (x :: s) (y :: o)) as [m|] eqn:E; [|done].
  intros [= <-]. apply (meet_shape_sound (x :: s) 0 (y :: o) m) in E as (H1 & H2 & H3); [|done].
  split_and!; simpl; [done..|]. intros sel [->|Hs]; [done|]. apply H3 in Hs as [Hs1 Hs2]. by split; right.
Qed.

Lemma meet_tensor_complete c i sel :
  shape_fits sel (tc_shape c) -> shape_fits sel (tc_shape (tensor_of i)) -> Forall dim_ne sel ->
  exists r, meet_tensor output names c i = inl r /\ shape_fits sel (tc_shape r).
Proof.
  intros Hc Hi Hne. unfold meet_tensor. cbv zeta.
  destruct (tc_shape (tensor_of i)) as [|y o] eqn:Ei, (tc_shape c) as [|x s] eqn:Ec; cbn [andthen].
  1-3: eexists; split; [reflexivity|]; simpl; done.
  destruct Hc as [|Hc]; [done|]. destruct Hi as [|Hi]; [done|].
  rewrite bool_decide_true by (apply Forall2_length in Hc, Hi; simpl in *; congruence).
  destruct (meet_shape_complete (x :: s) 0 (y :: o) sel Hc Hi Hne) as [m Hm]. rewrite Hm. cbn [andthen].
  eexists. split; [reflexivity|]. simpl. right.
  apply (meet_shape_sound (x :: s) 0 (y :: o) m); [|done|done]. apply Forall2_length in Hc, Hi. congruence.
Qed.

Lemma meet_tensors_sound l : forall c r,
  meet_tensors output names l c = inl r ->
  tc_dtypes r = common (fun p => tc_dtypes (tensor_of p)) l (tc_dtypes c) /\
  tc_layouts r = common (fun p => tc_layouts (tensor_of p)) l (tc_layouts c) /\
  (Forall dim_ne (tc_shape c) -> Forall shape_ok l -> Forall dim_ne (tc_shape r)) /\
  (forall sel, shape_fits sel (tc_shape r) ->
     shape_fits sel (tc_shape c) /\ Forall (fun p => shape_fits sel (tc_shape (tensor_of p))) l).
Proof.
  induction l as [|i l IH]; intros c r.
  - intros [= <-]. split_and!; [done..|]. intros sel Hs. by split.
  - cbn [meet_tensors]. destruct (meet_tensor output names c i) as [c'|] eqn:E; [|done].
    cbn [andthen]. intros H. apply meet_tensor_sound in E as (E1 & E2 & E3 & E4).
    apply IH in H as (H1 & H2 & H3 & H4). rewrite E1 in H1. rewrite E2 in H2. split_and!; [done..| |].
    { intros Hc Hl. inversion Hl; subst. auto. }
    intros sel Hs. apply H4 in Hs as [Hs1 Hs2]. apply E4 in Hs1 as [Hs1 Hs3]. split; [done|]. by constructor.
Qed.

Lemma meet_tensors_complete l : forall c sel,
  shape_fits sel (tc_shape c) -> Forall (fun p => shape_fits sel (tc_shape (tensor_of p))) l -> Forall dim_ne sel ->
  exists r, meet_tensors output names l c = inl r.
Proof.
  induction l as [|i l IH]; intros c sel Hc Hl Hne; [by exists c|]. inversion Hl; subst. cbn [meet_tensors].
  destruct (meet_tensor_complete c i sel) as (c' & -> & Hc'); [done..|]. cbn [andthen]. by apply (IH c' sel).
Qed.

Lemma shape_fits_self s : shape_fits s s.
Proof.
  right. induction s as [|d s IH]; constructor; [unfold dim_within; lia|done].
Qed.

Lemma tensor_sound sel : negotiate_tensor output inputs pref names = inl sel ->
  tensor_fitted tag ports sel /\ (Forall shape_ok ports -> tensor_agreed tag ports sel).
Proof.
  unfold negotiate_tensor, tensor_fitted, tensor_agreed, section_agreed, builtin. fold tag.
  change (existsb (fun p => has (pc_tensor p)) ports) with (has (pc_tensor output) || existsb (fun i => has (pc_tensor i)) inputs).
  destruct (_ && _); [|by intros [= <-]].
  destruct (meet_tensors output names inputs (tensor_of output)) as [c|] eqn:E; [|done]. cbn [andthen]. cbv zeta.
  apply meet_tensors_sound in E as (E1 & E2 & E3 & E4). rewrite E1, E2.
  destruct (common (fun p => tc_dtypes (tensor_of p)) inputs (tc_dtypes (tensor_of output))) as [[|x l]|] eqn:E; try done. intros H.
  apply conflict_if_inl in H as [Hc [= <-]].
  destruct (required_agrees _ _ _ _ (Pref pref "dtype") (front inputs (fun i => tc_dtypes (tensor_of i))) E eq_refl) as [Hr1 Hr2].
  pose proof (choose_agrees (fun p => tc_layouts (tensor_of p)) (Pref pref "layout") None Hc) as C1.
  destruct (E4 (tc_shape c) (shape_fits_self _)) as [S1 S2].
  pose proof (proj2 (Forall_cons (fun p => shape_fits (tc_shape c) (tc_shape (tensor_of p))) output inputs) (conj S1 S2)) as S.
  assert (Hfit : Forall (fun p => tensor_fits (MkSelectedTensorFormat (ChooseDeterministically (x :: l) (Pref pref "dtype") (front inputs (fun i => tc_dtypes (tensor_of i))))
    ((fun l => ChooseDeterministically l (Pref pref "layout") None) <$> common (fun p => tc_layouts (tensor_of p)) inputs (tc_layouts (tensor_of output))) (tc_shape c)) (tensor_of p)) ports).
  { rewrite Forall_forall in *. intros p Hp. split; [by apply Hr2|by apply C1|by apply S]. }
  split; [by eexists|]. intros [Hs1 Hs2]%Forall_cons. eexists. split; [done|]. split_and!; [done..|by apply E3].
Qed.

Lemma tensor_complete sel : tensor_agreed tag ports sel -> exists sel', negotiate_tensor output inputs pref names = inl sel'.
Proof.
  unfold negotiate_tensor, tensor_agreed, section_agreed, builtin. fold tag.
  change (existsb (fun p => has (pc_tensor p)) ports) with (has (pc_tensor output) || existsb (fun i => has (pc_tensor i)) inputs).
  destruct (_ && _); [|eauto]. intros (t & -> & Hr & Hf & Hne).
  assert (Hall : forall (Q : PortCapability -> Prop), (forall p, tensor_fits t (tensor_of p) -> Q p) -> Q output /\ Forall Q inputs).
  { intros Q HQ. apply Forall_cons. eapply Forall_impl; [exact Hf|]. intros p. apply HQ. }
  destruct (Hall (fun p => shape_fits (st_shape t) (tc_shape (tensor_of p)))) as [S1 S2]; [by intros p []|].
  destruct (meet_tensors_complete inputs (tensor_of output) (st_shape t) S1 S2 Hne) as [c Hc]. rewrite Hc. cbn [andthen]. cbv zeta.
  apply meet_tensors_sound in Hc as (E1 & E2 & _). rewrite E1, E2.
  destruct (required_complete (fun p => tc_dtypes (tensor_of p)) (st_dtype t) Hr) as (x & l & ->).
  { eapply Forall_impl; [exact Hf|]. by intros p []. }
  destruct (Hall (fun p => set_agrees (tc_layouts (tensor_of p)) (st_layout t))) as [C1 C2]; [by intros p []|].
  rewrite (common_complete (fun p => tc_layouts (tensor_of p)) inputs _ _ C1 C2). simpl. eauto.
Qed.

(** *** Memory, synchronisation and the whole contract *)

Definition on_device (k : MemoryKind) : bool := bool_decide (k = kCudaDevice) || bool_decide (k = kPinned).
Definition admits {A} (o : option (list A)) (x : A) : Prop := fits (fun s x => x ∈ s) o x.
Definition memory_agreed (kind : MemoryKind) (device : Z) : Prop :=
  Forall (fun p => admits (mc_kinds (pc_memory p)) kind) ports /\
  exists d, Forall (fun p => admits (mc_device_ids (pc_memory p)) d) ports /\ device = if on_device kind then d else -1.
Definition wanted_sync : option SyncPolicy := match edge_sync with Some s => Some s | None => pref_sync_policy pref end.
Definition sync_agreed (s : SyncPolicy) : Prop :=
  Forall (fun p => admits (pc_sync p) s) inputs /\ match wanted_sync with Some w => s = w | None => True end.

(** A contract every port accepts. *)
Record contract_agreed (c : ConnectionContract) : Prop := {
  ca_output : pc_direction output = kOutput;
  ca_inputs : Forall (fun p => pc_direction p = kInput /\ pc_type_tag p = tag) inputs;
  ca_type : logical_type c = tag;
  ca_video : video_agreed tag ports (cc_video c);
  ca_audio : audio_agreed tag ports (cc_audio c);
  ca_tensor : tensor_agreed tag ports (cc_tensor c);
  ca_memory : memory_agreed (memory_kind c) (device_id c);
  ca_sync : sync_agreed (sync_policy c);
}.

(** The same, for a shape that may have an impossible dimension. *)
Record contract_fits (c : ConnectionContract) : Prop := {
  cf_output : pc_direction output = kOutput;
  cf_inputs : Forall (fun p => pc_direction p = kInput /\ pc_type_tag p = tag) inputs;
  cf_type : logical_type c = tag;
  cf_video : video_agreed tag ports (cc_video c);
  cf_audio : audio_agreed tag ports (cc_audio c);
  cf_tensor : tensor_fitted tag ports (cc_tensor c);
  cf_memory : memory_agreed (memory_kind c) (device_id c);
  cf_sync : sync_agreed (sync_policy c);
}.

Lemma prefer_in {A} `{EqDecision A} p (l : list A) x : x ∈ l -> prefer p l x ∈ l.
Proof. intros Hx. unfold prefer. destruct p as [y|]; [|done]. destruct (contains y l) eqn:E; [|done]. by apply contains_spec. Qed.

Lemma min_element_in z l : min_element (z :: l) ∈ z :: l.
Proof.
  unfold min_element. revert z. induction l as [|y l IH]; intros z; simpl; [by constructor|].
  specialize (IH (Z.min z y)). apply elem_of_cons in IH as [IH|IH]; [|by constructor; constructor].
  rewrite IH. destruct (Z.min_spec z y) as [[_ ->]|[_ ->]]; [by constructor|constructor; by constructor].
Qed.

Lemma memory_sound k d : negotiate_memory output inputs pref names = inl (k, d) -> memory_agreed k d.
Proof.
  unfold negotiate_memory. intros [Hk [Hd H]%conflict_if_inl]%conflict_if_inl. injection H as Ek Ed.
  pose proof (common_fits (fun p => mc_kinds (pc_memory p)) inputs (mc_kinds (pc_memory output))) as Fk.
  pose proof (common_fits (fun p => mc_device_ids (pc_memory p)) inputs (mc_device_ids (pc_memory output))) as Fd.
  fold (@common_kinds output inputs) in *. change (common (fun p => mc_kinds (pc_memory p)) inputs _) with (common_kinds output inputs) in Fk.
  change (common (fun p => mc_device_ids (pc_memory p)) inputs _) with (common_devices output inputs) in Fd.
  split.
  - apply Forall_cons, Fk. rewrite <- Ek. destruct (common_kinds output inputs) as [[|x l]|]; simpl; try done.
    apply prefer_in. by constructor.
  - rewrite Ek in Ed. fold (on_device k) in Ed.
    exists (match common_devices output inputs with None => default 0 (pref_device_id pref) | Some ds => prefer (pref_device_id pref) ds (min_element ds) end).
    split; [|done]. apply Forall_cons, Fd. destruct (common_devices output inputs) as [[|x l]|]; simpl; try done.
    apply prefer_in, min_element_in.
Qed.

Lemma memory_complete k d : memory_agreed k d -> exists x, negotiate_memory output inputs pref names = inl x.
Proof.
  intros [[Hk1 Hk2]%Forall_cons (x & [Hd1 Hd2]%Forall_cons & _)]. unfold negotiate_memory.
  pose proof (common_complete (fun p => mc_kinds (pc_memory p)) inputs _ (Some k) Hk1 Hk2) as E1.
  pose proof (common_complete (fun p => mc_device_ids (pc_memory p)) inputs _ (Some x) Hd1 Hd2) as E2.
  change (common (fun p => mc_kinds (pc_memory p)) inputs _) with (common_kinds output inputs) in E1.
  change (common (fun p => mc_device_ids (pc_memory p)) inputs _) with (common_devices output inputs) in E2.
  rewrite E1, E2. simpl. eauto.
Qed.

Lemma sync_sound s : negotiate_sync output inputs edge_sync pref names = inl s -> sync_agreed s.
Proof.
  unfold negotiate_sync, sync_agreed. fold wanted_sync. intros [He H]%conflict_if_inl.
  pose proof (common_fits pc_sync inputs None) as F. change (common pc_sync inputs None) with (supported_sync inputs) in F.
  destruct wanted_sync as [w|].
  - assert (Hs : s = w /\ admits (supported_sync inputs) w).
    { destruct (supported_sync inputs) as [ss|]; [|by injection H as <-]. apply conflict_if_inl in H as [Hc [= <-]].
      split; [done|]. simpl. apply contains_spec. by destruct (contains w ss). }
    destruct Hs as [-> Hs]. split; [|done]. by apply F.
  - injection H as <-. split; [|done]. apply F. destruct (supported_sync inputs) as [[|x l]|]; simpl; try done. by constructor.
Qed.

Lemma sync_complete s : sync_agreed s -> exists s', negotiate_sync output inputs edge_sync pref names = inl s'.
Proof.
  intros [Hs Hw]. unfold negotiate_sync. fold wanted_sync.
  pose proof (common_complete pc_sync inputs None (Some s) I Hs) as E. change (common pc_sync inputs None) with (supported_sync inputs) in E.
  pose proof (proj2 (common_fits pc_sync inputs None s) (conj I Hs)) as F. change (common pc_sync inputs None) with (supported_sync inputs) in F.
  rewrite E. simpl. destruct wanted_sync as [w|]; [|eauto]. subst w.
  destruct (supported_sync inputs) as [ss|]; [|eauto]. simpl in F. apply contains_spec in F. rewrite F. simpl. eauto.
Qed.

Lemma check_inputs_spec l :
  check_inputs output names l = inl tt <-> Forall (fun p => pc_direction p = kInput /\ pc_type_tag p = tag) l.
Proof.
  induction l as [|i l IH]; [by split|]. cbn [check_inputs]. rewrite Forall_cons, <- IH. fold tag.
  case_bool_decide; [|split; [done|naive_solver]]. case_bool_decide; simpl; [tauto|split; [done|naive_solver]].
Qed.

Lemma negotiate_sound c : NegotiateUncached output inputs edge_sync pref names = inl c ->
  contract_fits c /\ (Forall shape_ok ports -> contract_agreed c).
Proof.
  unfold NegotiateUncached. case_bool_decide as Ho; [|done]. simpl.
  destruct (check_inputs output names inputs) as [[]|] eqn:E0; [|done]. apply check_inputs_spec in E0. cbn [andthen].
  destruct (negotiate_video _ _ _ _) as [v|] eqn:E1; [|done]. cbn [andthen].
  destruct (negotiate_audio _ _ _ _) as [a|] eqn:E2; [|done]. cbn [andthen].
  destruct (negotiate_tensor _ _ _ _) as [t|] eqn:E3; [|done]. cbn [andthen].
  destruct (negotiate_memory _ _ _ _) as [[k d]|] eqn:E4; [|done]. cbn [andthen].
  destruct (negotiate_sync _ _ _ _ _) as [s|] eqn:E5; [|done]. cbn [andthen]. intros [= <-].
  apply video_sound in E1. apply audio_sound in E2. apply tensor_sound in E3 as [E3 E3']. apply memory_sound in E4. apply sync_sound in E5.
  split; [by split|]. intros Hs. split; simpl; try done. by apply E3'.
Qed.

Lemma negotiate_complete c :
  contract_agreed c -> exists c', NegotiateUncached output inputs edge_sync pref names = inl c'.
Proof.
  intros [H1 H2 _ H4 H5 H6 H7 H8]. unfold NegotiateUncached. rewrite bool_decide_true by done. simpl.
  rewrite (proj2 (check_inputs_spec inputs) H2). cbn [andthen].
  destruct (video_complete _ H4) as [? ->]. destruct (audio_complete _ H5) as [? ->]. destruct (tensor_complete _ H6) as [? ->].
  destruct (memory_complete _ _ H7) as [? ->]. destruct (sync_complete _ H8) as [? ->]. cbn [andthen]. eauto.
Qed.

End exact.

Lemma sane_ports ports : Forall port_sane ports -> Forall rate_ok ports /\ Forall shape_ok ports.
Proof. intros H. split; (eapply Forall_impl; [exact H|]); by intros p []. Qed.

Lemma negotiate_sane output inputs edge_sync pref names c :
  Forall port_sane (output :: inputs) -> NegotiateUncached output inputs edge_sync pref names = inl c -> contract_agreed output inputs edge_sync pref c.
Proof. intros [H1 H2]%sane_ports Hc. by eapply negotiate_sound. Qed.

(** C14: negotiation is sound and complete, for ports whose frame rates are
    numbers. When it returns a contract, the output and every input accept it:
    the chosen formats are in every set, the width, height and rate ranges lie
    within every range and are not empty, every shape dimension lies within
    that of every port, memory kind, device and sync policy are supported by
    all. No shape dimension of the contract is empty either, unless a port
    itself declares one with a minimum above its maximum: a shape that only
    one port declares is passed on unchecked ([empty_shape_agreed]). When any
    contract exists that all of them accept, whatever shapes they declare,
    negotiation returns one, so a conflict is reported only when there really
    is no common capability. *)
Theorem negotiation_exact output inputs edge_sync pref names :
  Forall rate_ok (output :: inputs) ->
  (forall c, NegotiateUncached output inputs edge_sync pref names = inl c ->
     contract_fits output inputs edge_sync pref c /\
     (Forall shape_ok (output :: inputs) -> contract_agreed output inputs edge_sync pref c)) /\
  ((exists c, contract_agreed output inputs edge_sync pref c) ->
     exists c, NegotiateUncached output inputs edge_sync pref names = inl c).
Proof.
  intros Hs. split; [intros c Hc|intros [c Hc]]; [by eapply negotiate_sound|by eapply negotiate_complete].
Qed.

Definition hd_port (n : string) (dir : PortDirection) (pf : list string) (w : IntRange) : PortCapability :=
  MkPortCapability n dir "VideoFrame" true kSingle false
    (Some (MkVideoConstraints (Some pf) (Some w) None (Some (MkRange (Double.of_Z 1) (Double.of_Z 60))) None None None))
    None None (MkMemoryConstraints (Some [kHost]) None false) None.
Definition no_pref : PreferenceSet := MkPreferenceSet [] None None None.

Lemma negotiation_exact_witness :
  exists c, NegotiateUncached (hd_port "out" kOutput ["NV12"; "P010"] (MkRange 16 1920))
      [hd_port "a" kInput ["P010"; "NV12"] (MkRange 64 4096)] None no_pref [] = inl c /\
    contract_agreed (hd_port "out" kOutput ["NV12"; "P010"] (MkRange 16 1920))
      [hd_port "a" kInput ["P010"; "NV12"] (MkRange 64 4096)] None no_pref c.
Proof.
  eexists. split; [vm_compute; reflexivity|].
  eapply (proj1 (negotiation_exact _ _ None no_pref [] _)); [vm_compute; reflexivity|repeat constructor].
  Unshelve. constructor; [|constructor; [|constructor]]; (split; discriminate).
Defined.

(** A tensor port whose only dimension has minimum 5 and maximum 3 is read from
    its text, and negotiating with a port that declares no shape hands the
    impossible dimension to the contract. *)
Definition tensor_port (n : string) (dir : PortDirection) (t : TensorConstraints) : PortCapability :=
  MkPortCapability n dir "Tensor" true kSingle false None None (Some t) (MkMemoryConstraints (Some [kHost]) None false) None.
Definition impossible_shape : TensorConstraints := MkTensorConstraints (Some ["f32"]) None [MkRange 5 3].
Example empty_shape_agreed :
  ParseTensor (Json.obj [("dtypes", JArray [JString "f32"]); ("shape", JArray [Json.obj [("min", JInteger 5); ("max", JInteger 3)]])]) "p" false
    = Value impossible_shape /\
  exists c t, NegotiateUncached (tensor_port "out" kOutput impossible_shape)
      [tensor_port "in" kInput (MkTensorConstraints (Some ["f32"]) None [])] None no_pref [] = inl c /\
    cc_tensor c = Some t /\ st_shape t = [MkRange 5 3] /\ ~ Forall dim_ne (st_shape t).
Proof.
  split; [vm_compute; reflexivity|]. eexists _, _. split; [vm_compute; reflexivity|]. split; [reflexivity|]. split; [reflexivity|].
  intros H. inversion H as [|? ? Hd _]; subst. unfold dim_ne in Hd. simpl in Hd. lia.
Qed.

(** ** Fan-out *)

Import Negotiator.

Lemma insert_comm a b l :
  consumer_key a <> consumer_key b -> insert_consumer a (insert_consumer b l) = insert_consumer b (insert_consumer a l).
Proof.
  intros Hne.
  assert (Hab : key_ltb (consumer_key a) (consumer_key b) = negb (key_ltb (consumer_key b) (consumer_key a))).
  { destruct (key_ltb (consumer_key a) (consumer_key b)) eqn:E1, (key_ltb (consumer_key b) (consumer_key a)) eqn:E2; try done.
    - pose proof (key_ltb_trans _ _ _ E1 E2) as H. by rewrite key_ltb_irrefl in H.
    - by pose proof (key_ltb_total _ _ E1 E2). }
  induction l as [|x l IH]; simpl.
  - rewrite Hab. by destruct (key_ltb (consumer_key b) (consumer_key a)).
  - destruct (key_ltb (consumer_key x) (consumer_key b)) eqn:Eb, (key_ltb (consumer_key x) (consumer_key a)) eqn:Ea; simpl;
      rewrite ?Eb, ?Ea, ?IH; try done.
    + destruct (key_ltb (consumer_key b) (consumer_key a)) eqn:E; [|by rewrite Hab; simpl; rewrite ?Eb].
      pose proof (key_ltb_trans _ _ _ Eb E) as H. congruence.
    + destruct (key_ltb (consumer_key b) (consumer_key a)) eqn:E; simpl; [by rewrite ?Ea|].
      pose proof (key_ltb_trans _ _ _ Ea Hab) as H. congruence.
    + rewrite Hab. destruct (key_ltb (consumer_key b) (consumer_key a)) eqn:E; simpl; [by rewrite ?Ea|by rewrite ?Eb].
Qed.

Lemma sort_permutation l l' :
  Permutation l l' -> NoDup (consumer_key <$> l) -> sort_consumers l = sort_consumers l'.
Proof.
  induction 1 as [|x l l' _ IH|x y l|l1 l2 l3 H1 IH1 H2 IH2]; intros Hd; simpl in *; [done| | |].
  - apply NoDup_cons in Hd as [_ Hd]. by rewrite IH.
  - apply NoDup_cons in Hd as [Hx Hd]. apply insert_comm. intros E. apply Hx. rewrite E. by constructor.
  - rewrite IH1 by done. apply IH2. by rewrite <- H1.
Qed.

(** The outcome of a fan-out negotiation, contract or conflict, does not
    depend on the order in which the consumers are declared, as long as no
    input port is listed twice. *)
Theorem fanout_order_independent source_cap output cs cs' pref existing n :
  Permutation cs cs' -> NoDup (consumer_key <$> cs) ->
  NegotiateFanout source_cap output cs pref existing n = NegotiateFanout source_cap output cs' pref existing n.
Proof.
  intros Hp Hd. unfold NegotiateFanout. rewrite <- (sort_permutation cs cs' Hp Hd).
  destruct cs as [|c cs], cs' as [|c' cs']; [done| | |done].
  - by apply Permutation_nil_cons in Hp.
  - by symmetry in Hp; apply Permutation_nil_cons in Hp.
Qed.

Definition two_consumers : list FanoutConsumer :=
  [MkFanoutConsumer "b" 1 (hd_port "in" kInput ["P010"; "NV12"] (MkRange 64 4096)) (Some kLatest);
   MkFanoutConsumer "a" 2 (hd_port "in" kInput ["NV12"] (MkRange 16 640)) None].
Lemma fanout_order_independent_witness :
  let out := hd_port "out" kOutput ["NV12"; "P010"] (MkRange 16 1920) in
  NegotiateFanout 5 out two_consumers no_pref None Negotiator.empty =
    NegotiateFanout 5 out (rev two_consumers) no_pref None Negotiator.empty /\
  ResultOps.is_ok (NegotiateFanout 5 out two_consumers no_pref None Negotiator.empty).1 = true.
Proof.
  split; [|vm_compute; reflexivity]. apply fanout_order_independent.
  - apply Permutation_rev.
  - apply NoDup_cons_2; [by intros H%list_elem_of_singleton|apply NoDup_singleton].
Defined.

(** ** The cache *)

Record request : Type := MkRequest {
  rq_source : OperatorKey; rq_source_cap : Z; rq_output : PortCapability;
  rq_target : OperatorKey; rq_target_cap : Z; rq_input : PortCapability;
  rq_sync : option SyncPolicy; rq_pref : PreferenceSet;
}.
Definition request_key (r : request) : NegotiationCacheKey :=
  cache_key (rq_source r) (rq_source_cap r) (rq_output r) (rq_target r) (rq_target_cap r) (rq_input r) (rq_sync r) (rq_pref r).
Definition serve (r : request) : CapabilityNegotiator -> Result ConnectionContract * CapabilityNegotiator :=
  NegotiateEdge (rq_source r) (rq_source_cap r) (rq_output r) (rq_target r) (rq_target_cap r) (rq_input r) (rq_sync r) (rq_pref r).

Inductive negotiator_op : Type :=
| NEdge (r : request)
| NFanout (source_cap : Z) (output : PortCapability) (cs : list FanoutConsumer) (pref : PreferenceSet) (existing : option ConnectionContract)
| NInvalidateOperator (op : OperatorKey)
| NInvalidateAll.
Definition run_negotiator_op (o : negotiator_op) (n : CapabilityNegotiator) : CapabilityNegotiator :=
  match o with
  | NEdge r => (serve r n).2
  | NFanout sc out cs p e => (NegotiateFanout sc out cs p e n).2
  | NInvalidateOperator op => InvalidateOperator op n
  | NInvalidateAll => InvalidateAll n
  end.
Definition run_negotiator (ops : list negotiator_op) : CapabilityNegotiator :=
  fold_left (fun n o => run_negotiator_op o n) ops empty.
Definition requests (ops : list negotiator_op) : list request :=
  omap (fun o => match o with NEdge r => Some r | _ => None end) ops.

(** What a request asks: two requests with one key ask the same when the
    content hashes of descriptors and preferences do not collide. *)
Definition question (r : request) := (rq_output r, rq_input r, rq_sync r, rq_pref r).
Definition hashes_distinguish (rs : list request) : Prop :=
  forall r r', r ∈ rs -> r' ∈ rs -> request_key r = request_key r' -> question r = question r'.

Definition answered (rs : list request) (kc : NegotiationCacheKey * ConnectionContract) : Prop :=
  exists r, r ∈ rs /\ request_key r = kc.1 /\
    (NegotiateEdge (rq_source r) (rq_source_cap r) (rq_output r) (rq_target r) (rq_target_cap r) (rq_input r) (rq_sync r) (rq_pref r) empty).1 = Value kc.2.

Lemma lookup_elem k l c : lookup k l = Some c -> (k, c) ∈ l.
Proof.
  induction l as [|[k' c'] l IH]; simpl; [done|]. destruct (decide (k = k')) as [->|]; [intros [= ->]; by constructor|].
  intros H. constructor. by apply IH.
Qed.

Lemma serve_cache rs r n :
  Forall (answered rs) (cache_ n) -> Forall (answered (rs ++ [r])%list) (cache_ (serve r n).2).
Proof.
  intros Hc. assert (Hm : Forall (answered (rs ++ [r])%list) (cache_ n)).
  { eapply Forall_impl; [exact Hc|]. intros kc (r' & Hr & Hk & Ha). exists r'. split; [apply elem_of_app; by left|done]. }
  unfold serve, NegotiateEdge. fold (request_key r). destruct (lookup (request_key r) (cache_ n)); [done|].
  destruct (NegotiateUncached _ _ _ _ _) as [c|[s cf]] eqn:E; [|done]. simpl. unfold emplace.
  destruct (lookup (request_key r) (cache_ n)); [done|]. constructor; [|done].
  exists r. split; [apply elem_of_app; right; by constructor|]. split; [done|]. unfold NegotiateEdge. simpl. by rewrite E.
Qed.

Lemma fanout_cache sc out cs p e n : cache_ (NegotiateFanout sc out cs p e n).2 = cache_ n.
Proof.
  unfold NegotiateFanout. destruct cs; [done|]. destruct (merge_sync _ _); [|done].
  destruct (NegotiateUncached _ _ _ _ _) as [c|[s cf]]; [|done]. destruct e; [|done]. by destruct (contract_eqb _ _).
Qed.

Lemma run_cache ops : Forall (answered (requests ops)) (cache_ (run_negotiator ops)).
Proof.
  unfold run_negotiator. induction ops as [|o ops IH] using rev_ind; [constructor|].
  rewrite fold_left_app. simpl. unfold requests. rewrite omap_app. simpl. fold (requests ops).
  destruct o as [r|sc out cs p e|op|]; simpl.
  - by apply serve_cache.
  - by rewrite fanout_cache, app_nil_r.
  - rewrite app_nil_r. apply Forall_forall. intros kc Hkc. rewrite Forall_forall in IH. apply IH.
    rewrite list_elem_of_In in *. by apply filter_In in Hkc as [? _].
  - constructor.
Qed.

(** The negotiation cache is invisible. After any sequence of edge and
    fan-out negotiations and invalidations, an edge negotiation returns exactly
    what an empty cache would return, provided the content hashes in the cache
    keys distinguish the requests made. *)
Theorem cache_transparent ops r :
  hashes_distinguish (r :: requests ops) -> (serve r (run_negotiator ops)).1 = (serve r empty).1.
Proof.
  intros Hh. unfold serve at 1, NegotiateEdge at 1. fold (request_key r).
  destruct (lookup (request_key r) (cache_ (run_negotiator ops))) as [c|] eqn:E.
  - apply lookup_elem in E. pose proof (run_cache ops) as Hc. rewrite Forall_forall in Hc.
    destruct (Hc _ E) as (r' & Hr' & Hk & Ha). simpl in Ha, Hk. rewrite <- Ha.
    pose proof (Hh r r' ltac:(by constructor) ltac:(by constructor) (eq_sym Hk)) as Hq.
    unfold serve, NegotiateEdge. simpl. unfold request_key, cache_key in Hk. injection Hk as E1 E2 E3 E4 _ _ _.
    injection Hq as -> -> -> ->. rewrite E1, E2, E3, E4. by destruct (NegotiateUncached _ _ _ _ _) as [c'|[s cf]].
  - unfold serve, NegotiateEdge. simpl. by destruct (NegotiateUncached _ _ _ _ _) as [c'|[s cf]].
Qed.

Definition sample_request : request :=
  MkRequest (MkOperatorKey "src" "1") 11 (hd_port "out" kOutput ["NV12"; "P010"] (MkRange 16 1920))
    (MkOperatorKey "dst" "1") 22 (hd_port "in" kInput ["P010"; "NV12"] (MkRange 64 4096)) (Some kAny) no_pref.
Lemma cache_transparent_witness :
  (serve sample_request (run_negotiator [NEdge sample_request; NInvalidateOperator (MkOperatorKey "x" "1")])).1 =
    (serve sample_request empty).1 /\
  cache_size (run_negotiator [NEdge sample_request; NInvalidateOperator (MkOperatorKey "x" "1")]) = 1%nat.
Proof.
  split; [|vm_compute; reflexivity]. apply cache_transparent. intros r r' Hr Hr' _. change (requests _) with [sample_request] in *.
  assert (H : forall x, x ∈ [sample_request; sample_request] -> x = sample_request).
  { intros x Hx. apply elem_of_cons in Hx as [->|Hx]; [done|]. by apply list_elem_of_singleton in Hx. }
  by rewrite (H r Hr), (H r' Hr').
Defined.

(** Disagreeing sync policies are reported without touching [last_conflict_],
    so a caller that reads it afterwards sees the conflict of an earlier call. *)
Example sync_conflict_keeps_last :
  let out := hd_port "out" kOutput ["NV12"] (MkRange 16 1920) in
  let inp := hd_port "in" kInput ["NV12"] (MkRange 16 1920) in
  let earlier := MkNegotiator [] (Some (MkConflict "pixel_format" "" "" "" [])) in
  let r := NegotiateFanout 5 out [MkFanoutConsumer "a" 1 inp (Some kLatest); MkFanoutConsumer "b" 2 inp (Some kAny)] no_pref None earlier in
  ResultOps.is_ok r.1 = false /\ r.2 = earlier.
Proof. vm_compute. split; reflexivity. Qed.
