(* ===== verification/GraphValidator.v ===== *)
(** The graph validator (src/graph_validator.cpp): node and edge checks,
    required and single ports, Kahn's topological order, contract negotiation
    for every used output, shared dependencies and linear chains.

    Two things come from outside: [resolver], which finds the descriptor of an
    operator, and [iterate], the order in which the standard library walks an
    unordered map. *)

From stdpp Require Import base numbers list strings sorting.
From Stdlib Require Import ZArith Lia Ascii String.
From S2P Require Import Prelude Types Double Json GraphSpec CapabilityTypes JsonReader CapabilityJson Negotiation.

Local Open Scope string_scope.
Local Open Scope Z_scope.

Record ValidationIssue : Type := MkIssue {
  vi_code : ge_status_code; vi_message : string; vi_node : string; vi_edge : string }.
Record ValidatedGraph : Type := MkValidated {
  edge_contracts : list (string * ConnectionContract);
  output_contracts : list (string * ConnectionContract);
  topological_order : list string;
  sources : list string;
  sinks : list string;
}.
Record SharedDependency : Type := MkSharedDependency { sd_node : string; sd_edge : string; sd_external : string }.
Record ChainBoundary : Type := MkBoundary { inbound_edge : string; outbound_edge : string }.

Definition IssueJson (i : ValidationIssue) : json :=
  Json.obj (
    [("code", JInteger (status_code_value (vi_code i))); ("message", JString (vi_message i))] ++
    when (negb (Str.empty (vi_node i))) "node" (JString (vi_node i)) ++
    when (negb (Str.empty (vi_edge i))) "edge" (JString (vi_edge i)))%list.
Definition SharedDependencyJson (d : SharedDependency) : json :=
  Json.obj [("node", JString (sd_node d)); ("edge", JString (sd_edge d)); ("external_node", JString (sd_external d))].

(** [IssuesToStatus]; only called with at least one issue. *)
Definition IssuesToStatus (issues : list ValidationIssue) : Status :=
  let context := Json.Serialize (Json.obj [("issues", JArray (map IssueJson issues))]) in
  match issues with
  | [] => StatusOps.Ok
  | i :: rest =>
      StatusOps.make (vi_code i)
        (vi_message i ++ match rest with [] => "" | _ => " (+" ++ Dec.to_string (Z.of_nat (List.length rest)) ++ " more)" end)
        false context
  end.

Record NodeInfo : Type := MkNodeInfo { ni_spec : NodeSpec; ni_cap : option CapabilityDescriptor; ni_index : nat }.
Record OutputUse : Type := MkOutputUse { ou_port : PortCapability; ou_consumers : list EdgeSpec }.

Definition graph_issue (m node edge : string) : ValidationIssue := MkIssue GE_STATUS_GRAPH_INVALID m node edge.
Definition find_info (id : string) (nodes : list NodeInfo) : option NodeInfo :=
  List.find (fun i => bool_decide (ns_id (ni_spec i) = id)) nodes.
Definition issue_when (b : bool) (i : ValidationIssue) : list ValidationIssue := if b then [i] else [].

Section validate.
Context (resolver : OperatorKey -> option CapabilityDescriptor).
Context (iterate : list NodeInfo -> list NodeInfo).

(** ** 1. Nodes *)

Definition node_issues (n : NodeSpec) (cap : option CapabilityDescriptor) : list ValidationIssue :=
  match cap with
  | None =>
      [MkIssue GE_STATUS_NOT_FOUND
         ("node '" ++ ns_id n ++ "' uses unknown operator '" ++ OperatorKeyOps.ToString (ns_op n) ++ "'") (ns_id n) ""]
  | Some c =>
      let devices := xc_devices (cd_execution c) in
      let lacks k := has (head devices) && negb (contains k devices) in
      let max := xc_max_parallelism (cd_execution c) in
      issue_when (bool_decide (ex_kind (ns_executor n) = kExecGpu) && lacks kDevGpu)
        (graph_issue ("node '" ++ ns_id n ++ "' requests gpu executor but operator '" ++
           OperatorKeyOps.ToString (ns_op n) ++ "' does not support gpu") (ns_id n) "") ++
      issue_when (bool_decide (ex_kind (ns_executor n) = kExecCpu) && lacks kDevCpu)
        (graph_issue ("node '" ++ ns_id n ++ "' requests cpu executor but operator '" ++
           OperatorKeyOps.ToString (ns_op n) ++ "' does not support cpu") (ns_id n) "") ++
      issue_when (ns_parallelism n >? max)
        (graph_issue ("node '" ++ ns_id n ++ "' parallelism " ++ Dec.to_string (ns_parallelism n) ++
           " exceeds operator max_parallelism " ++ Dec.to_string max) (ns_id n) "")
  end%list.

(** [stop()]: with [fail_fast] the first issues end the validation. *)
Definition stop (fail_fast : bool) (issues : list ValidationIssue) : bool := fail_fast && has (head issues).

(** The loop; the flag says that it ended early. *)
Fixpoint check_nodes (fail_fast : bool) (i : nat) (l : list NodeSpec) (nodes : list NodeInfo)
    (issues : list ValidationIssue) : list NodeInfo * list ValidationIssue * bool :=
  match l with
  | [] => (nodes, issues, false)
  | n :: l' =>
      let issues := (issues ++ issue_when (negb (IsValidStableId (ns_id n)))
                       (graph_issue ("invalid node id '" ++ ns_id n ++ "'") (ns_id n) ""))%list in
      if has (find_info (ns_id n) nodes) then
        check_nodes fail_fast (S i) l' nodes
          (issues ++ [graph_issue ("duplicate node id '" ++ ns_id n ++ "'") (ns_id n) ""])%list
      else
        let cap := resolver (ns_op n) in
        let issues := (issues ++ node_issues n cap)%list in
        let nodes := (nodes ++ [MkNodeInfo n cap i])%list in
        if stop fail_fast issues then (nodes, issues, true)
        else check_nodes fail_fast (S i) l' nodes issues
  end.

(** ** 2. Edges *)

Definition port_of (f : string -> CapabilityDescriptor -> option PortCapability) (r : PortRef) (nodes : list NodeInfo)
    : option (option PortCapability) :=
  match find_info (node_id r) nodes with
  | Some (MkNodeInfo _ (Some c) _) => Some (f (port r) c)
  | _ => None
  end.
Definition output_port (e : EdgeSpec) (nodes : list NodeInfo) : option (option PortCapability) :=
  port_of Descriptor.FindOutput (es_from e) nodes.
Definition input_port (e : EdgeSpec) (nodes : list NodeInfo) : option (option PortCapability) :=
  port_of Descriptor.FindInput (es_to e) nodes.

Definition edge_issues (nodes : list NodeInfo) (edge_ids : list string) (e : EdgeSpec) : list ValidationIssue :=
  let id := es_id e in
  let from := node_id (es_from e) in
  let to := node_id (es_to e) in
  issue_when (Str.empty id || contains id edge_ids) (graph_issue ("duplicate or empty edge id '" ++ id ++ "'") "" id) ++
  issue_when (negb (has (find_info from nodes)))
    (graph_issue ("edge '" ++ id ++ "' from unknown node '" ++ from ++ "'") "" id) ++
  issue_when (negb (has (find_info to nodes)))
    (graph_issue ("edge '" ++ id ++ "' to unknown node '" ++ to ++ "'") "" id) ++
  issue_when (bool_decide (from = to) && negb (es_feedback e))
    (graph_issue ("edge '" ++ id ++ "' is a self-loop without feedback=true") from id) ++
  issue_when (es_feedback e && bool_decide (q_policy (es_queue e) = kBlock))
    (graph_issue ("feedback edge '" ++ id ++ "' must use a non-blocking queue policy") "" id) ++
  issue_when (match output_port e nodes with Some None => true | _ => false end)
    (graph_issue ("edge '" ++ id ++ "': node '" ++ from ++ "' has no output port '" ++ port (es_from e) ++ "'") from id) ++
  issue_when (match input_port e nodes with Some None => true | _ => false end)
    (graph_issue ("edge '" ++ id ++ "': node '" ++ to ++ "' has no input port '" ++ port (es_to e) ++ "'") to id).

Definition add_output (e : EdgeSpec) (p : PortCapability) (m : list (string * OutputUse)) : list (string * OutputUse) :=
  let key := PortRef_ToString (es_from e) in
  let old := match SMap.find key m with Some u => ou_consumers u | None => [] end in
  SMap.set key (MkOutputUse p (old ++ [e])%list) m.
Definition add_input (e : EdgeSpec) (m : list (string * list EdgeSpec)) : list (string * list EdgeSpec) :=
  let key := PortRef_ToString (es_to e) in
  SMap.set key (default [] (SMap.find key m) ++ [e])%list m.

(** What the edge loop accumulates. *)
Record EdgeScan : Type := MkEdgeScan {
  scan_outputs : list (string * OutputUse);
  scan_inputs : list (string * list EdgeSpec);
  scan_ids : list string;
  scan_issues : list ValidationIssue;
}.

Definition scan_edge (nodes : list NodeInfo) (e : EdgeSpec) (s : EdgeScan) : EdgeScan :=
  MkEdgeScan
    (match output_port e nodes with Some (Some p) => add_output e p (scan_outputs s) | _ => scan_outputs s end)
    (match input_port e nodes with Some (Some _) => add_input e (scan_inputs s) | _ => scan_inputs s end)
    (if Str.empty (es_id e) || contains (es_id e) (scan_ids s) then scan_ids s else es_id e :: scan_ids s)
    (scan_issues s ++ edge_issues nodes (scan_ids s) e)%list.
Fixpoint check_edges (fail_fast : bool) (nodes : list NodeInfo) (l : list EdgeSpec) (s : EdgeScan) : EdgeScan * bool :=
  match l with
  | [] => (s, false)
  | e :: l' =>
      let s := scan_edge nodes e s in
      if stop fail_fast (scan_issues s) then (s, true) else check_edges fail_fast nodes l' s
  end.

(** ** 3. Ports *)

Definition input_issues (inputs : list (string * list EdgeSpec)) (id : string) (p : PortCapability) : list ValidationIssue :=
  let key := id ++ "." ++ pc_name p in
  let count := List.length (default [] (SMap.find key inputs)) in
  (issue_when (pc_required p && bool_decide (count = 0%nat))
    (graph_issue ("required input port '" ++ key ++ "' is not connected") id "") ++
  issue_when (bool_decide (pc_cardinality p = kSingle) && bool_decide (1 < count)%nat)
    (graph_issue ("input port '" ++ key ++ "' accepts a single edge but has " ++ Dec.to_string (Z.of_nat count)) id ""))%list.
Definition output_issues (outputs : list (string * OutputUse)) (id : string) (p : PortCapability) : list ValidationIssue :=
  let key := id ++ "." ++ pc_name p in
  match SMap.find key outputs with
  | Some u =>
      let count := List.length (ou_consumers u) in
      issue_when (bool_decide (pc_cardinality p = kSingle) && bool_decide (1 < count)%nat)
        (graph_issue ("output port '" ++ key ++ "' allows a single consumer but has " ++ Dec.to_string (Z.of_nat count)) id "")
  | None => []
  end.
Definition port_issues (s : EdgeScan) (n : NodeInfo) : list ValidationIssue :=
  match ni_cap n with
  | None => []
  | Some c =>
      let id := ns_id (ni_spec n) in
      (List.concat (map (input_issues (scan_inputs s) id) (cd_inputs c)) ++
       List.concat (map (output_issues (scan_outputs s) id) (cd_outputs c)))%list
  end.
(** ** 4. Topological order *)

(** The edges Kahn's algorithm follows. *)
Definition forward (nodes : list NodeInfo) (e : EdgeSpec) : bool :=
  negb (es_feedback e) && has (find_info (node_id (es_from e)) nodes) && has (find_info (node_id (es_to e)) nodes).
Definition links (nodes : list NodeInfo) (edges : list EdgeSpec) : list (string * string) :=
  map (fun e => (node_id (es_from e), node_id (es_to e))) (List.filter (forward nodes) edges).
Definition successors (ls : list (string * string)) (id : string) : list string :=
  map snd (List.filter (fun l => bool_decide (l.1 = id)) ls).

Definition degree (m : list (string * Z)) (id : string) : Z := default 0 (SMap.find id m).
Definition initial_degrees (ids : list string) (ls : list (string * string)) : list (string * Z) :=
  fold_left (fun m l => SMap.set l.2 (Word.u64 (degree m l.2 + 1)) m) ls (fold_left (fun m id => SMap.set id 0 m) ids []).

Definition index_of (nodes : list NodeInfo) (id : string) : nat :=
  match find_info id nodes with Some i => ni_index i | None => 0 end.

(** [pop_heap]: the ready node declared first, and the others. *)
Fixpoint pop_ready (idx : string -> nat) (l : list string) : option (string * list string) :=
  match l with
  | [] => None
  | x :: l' =>
      match pop_ready idx l' with
      | None => Some (x, [])
      | Some (y, rest) => if (idx x <=? idx y)%nat then Some (x, l') else Some (y, x :: rest)
      end
  end.

(** The inner loop over the successors of the node just taken. *)
Definition relax (s : list (string * Z) * list string) (next : string) : list (string * Z) * list string :=
  let d := Word.u64 (degree s.1 next - 1) in
  (SMap.set next d s.1, if d =? 0 then (s.2 ++ [next])%list else s.2).

(** The outer loop: every round takes one node out of [ready]. *)
Fixpoint kahn (fuel : nat) (idx : string -> nat) (ls : list (string * string)) (degrees : list (string * Z))
    (ready order : list string) : option (list (string * Z) * list string) :=
  match fuel with
  | O => None
  | S fuel =>
      match pop_ready idx ready with
      | None => Some (degrees, order)
      | Some (id, ready) =>
          let '(degrees, ready) := fold_left relax (successors ls id) (degrees, ready) in
          kahn fuel idx ls degrees ready (order ++ [id])%list
      end
  end.

Definition initially_ready (ids : list string) (degrees : list (string * Z)) : list string :=
  List.filter (fun id => degree degrees id =? 0) ids.

(** Degrees and order at the end of the loop. *)
Definition topological (nodes : list NodeInfo) (spec : GraphSpec) : option (list (string * Z) * list string) :=
  let ids := map ns_id (nodes_ spec) in
  let ls := links nodes (edges_ spec) in
  let degrees := initial_degrees ids ls in
  kahn (S (List.length ids + List.length ls)) (index_of nodes) ls degrees (initially_ready ids degrees) [].

Definition join (l : list string) : string :=
  fold_left (fun acc s => (if Str.empty acc then "" else acc ++ ",") ++ s) l "".

Definition cycle_issues (spec : GraphSpec) (degrees : list (string * Z)) (order : list string) : list ValidationIssue :=
  let in_cycle := List.filter (fun id => negb (degree degrees id =? 0)) (map ns_id (nodes_ spec)) in
  issue_when (negb (bool_decide (List.length order = List.length (nodes_ spec))))
    (graph_issue ("graph contains a cycle without feedback edges among [" ++ join in_cycle ++ "]") (hd "" in_cycle) "").

Definition sources_of (spec : GraphSpec) : list string :=
  List.filter (fun id => negb (existsb (fun e => bool_decide (node_id (es_to e) = id) && negb (es_feedback e)) (edges_ spec)))
    (map ns_id (nodes_ spec)).
Definition sinks_of (spec : GraphSpec) : list string :=
  List.filter (fun id => negb (existsb (fun e => bool_decide (node_id (es_from e) = id)) (edges_ spec))) (map ns_id (nodes_ spec)).

(** ** 5. Contracts *)

Definition op_of (nodes : list NodeInfo) (id : string) : OperatorKey :=
  match find_info id nodes with Some i => ns_op (ni_spec i) | None => MkOperatorKey "" "" end.
Definition version_of (nodes : list NodeInfo) (id : string) : Z :=
  match find_info id nodes with Some (MkNodeInfo _ (Some c) _) => Version c | _ => 0 end.
Definition no_port : PortCapability :=
  MkPortCapability "" kInput "" true kSingle false None None None (MkMemoryConstraints None None false) None.
(** [dst.cap->FindInput(port)]: without issues so far every end resolves. *)
Definition in_port_of (nodes : list NodeInfo) (e : EdgeSpec) : PortCapability :=
  match input_port e nodes with Some (Some p) => p | _ => no_port end.

Definition negotiate_use (nodes : list NodeInfo) (pref : PreferenceSet) (u : OutputUse) (n : CapabilityNegotiator)
    : Result ConnectionContract * CapabilityNegotiator :=
  match ou_consumers u with
  | [] => (Error (StatusOps.Internal "unreachable"), n)
  | [e] =>
      let src := node_id (es_from e) in
      let dst := node_id (es_to e) in
      Negotiator.NegotiateEdge (op_of nodes src) (version_of nodes src) (ou_port u) (op_of nodes dst)
        (version_of nodes dst) (in_port_of nodes e) (es_sync e) pref n
  | (e :: _) as es =>
      Negotiator.NegotiateFanout (version_of nodes (node_id (es_from e))) (ou_port u)
        (map (fun e => MkFanoutConsumer (node_id (es_to e)) (version_of nodes (node_id (es_to e)))
                         (in_port_of nodes e) (es_sync e)) es) pref None n
  end.

(** Everything step 5 updates. *)
Record Contracts : Type := MkContracts {
  co_edges : list (string * ConnectionContract);
  co_outputs : list (string * ConnectionContract);
  co_issues : list ValidationIssue;
  co_negotiator : CapabilityNegotiator;
}.

Definition contract_issue (key : string) (u : OutputUse) (s : Status) (last : option CapabilityConflict) : ValidationIssue :=
  let first := hd (MkEdgeSpec "" (MkPortRef "" "") (MkPortRef "" "") default_queue None false) (ou_consumers u) in
  MkIssue (code s)
    ("output '" ++ key ++ "' [" ++ join (map es_id (ou_consumers u)) ++ "]: " ++ message s ++
     match last with Some c => " conflict=" ++ Json.Serialize (ConflictJson c) | None => "" end)
    (node_id (es_from first)) (if bool_decide (List.length (ou_consumers u) = 1%nat) then es_id first else "").

Fixpoint negotiate_all (fail_fast : bool) (nodes : list NodeInfo) (pref : PreferenceSet)
    (l : list (string * OutputUse)) (c : Contracts) : Contracts * bool :=
  match l with
  | [] => (c, false)
  | (key, u) :: l' =>
      match negotiate_use nodes pref u (co_negotiator c) with
      | (Error s, n) =>
          let c := MkContracts (co_edges c) (co_outputs c)
                     (co_issues c ++ [contract_issue key u s (last_conflict_ n)])%list n in
          if stop fail_fast (co_issues c) then (c, true) else negotiate_all fail_fast nodes pref l' c
      | (Value k, n) =>
          negotiate_all fail_fast nodes pref l'
            (MkContracts (fold_left (fun m e => SMap.set (es_id e) k m) (ou_consumers u) (co_edges c))
               (SMap.set key k (co_outputs c)) (co_issues c) n)
      end
  end.

(** ** The whole validation

    The result, the issues it leaves in [issues_] and the negotiator. *)
Definition Validate (spec : GraphSpec) (pref : PreferenceSet) (fail_fast : bool) (n : CapabilityNegotiator)
    : Result ValidatedGraph * list ValidationIssue * CapabilityNegotiator :=
  let fail issues n := (ResultOps.of_status (IssuesToStatus issues), issues, n) in
  let issues := match nodes_ spec with [] => [graph_issue ("graph '" ++ name_ spec ++ "' has no nodes") "" ""] | _ => [] end in
  let '(nodes, issues, stopped) := check_nodes fail_fast 0 (nodes_ spec) [] issues in
  if stopped then fail issues n
  else
    let '(s, stopped) := check_edges fail_fast nodes (edges_ spec) (MkEdgeScan [] [] [] issues) in
    if stopped then fail (scan_issues s) n
    else
      let issues := (scan_issues s ++ List.concat (map (port_issues s) (iterate nodes)))%list in
      if stop fail_fast issues then fail issues n
      else
        match topological nodes spec with
        | None => (Error (StatusOps.Internal "fuel"), issues, n)
        | Some (degrees, order) =>
            let issues := (issues ++ cycle_issues spec degrees order)%list in
            match issues with
            | _ :: _ => fail issues n
            | [] =>
                let '(c, _) := negotiate_all fail_fast nodes pref (scan_outputs s) (MkContracts [] [] [] n) in
                match co_issues c with
                | _ :: _ => fail (co_issues c) (co_negotiator c)
                | [] =>
                    (Value (MkValidated (co_edges c) (co_outputs c) order (sources_of spec) (sinks_of spec)), [], co_negotiator c)
                end
            end
        end.

End validate.

(** ** Selections *)

Definition FindSharedDependencies (spec : GraphSpec) (selection entry_edges : list string) : list SharedDependency :=
  omap (fun e =>
    let from_in := contains (node_id (es_from e)) selection in
    let to_in := contains (node_id (es_to e)) selection in
    if contains (es_id e) entry_edges then None
    else if Bool.eqb from_in to_in then None
    else Some (MkSharedDependency (if from_in then node_id (es_from e) else node_id (es_to e)) (es_id e)
                 (if from_in then node_id (es_to e) else node_id (es_from e)))) (edges_ spec).

(** The members of a chain: known and distinct. *)
Fixpoint check_members (spec : GraphSpec) (l seen : list string) : option Status :=
  match l with
  | [] => None
  | id :: l' =>
      if negb (has (GraphOps.FindNode id spec)) then Some (StatusOps.NotFound ("chain node '" ++ id ++ "' not found"))
      else if contains id seen then Some (StatusOps.GraphInvalid ("chain repeats node '" ++ id ++ "'"))
      else check_members spec l' (id :: seen)
  end.

Definition links_between (spec : GraphSpec) (a b : string) : nat :=
  List.length (List.filter (fun e => bool_decide (node_id (es_from e) = a) && bool_decide (node_id (es_to e) = b)) (edges_ spec)).
Fixpoint check_links (spec : GraphSpec) (l : list string) : option Status :=
  match l with
  | a :: ((b :: _) as l') =>
      let n := links_between spec a b in
      if bool_decide (n = 1%nat) then check_links spec l'
      else Some (StatusOps.GraphInvalid ("chain nodes '" ++ a ++ "' and '" ++ b ++
                   "' must be connected by exactly one edge, found " ++ Dec.to_string (Z.of_nat n)))
  | _ => None
  end.

(** [std::find(chain.begin(), chain.end(), id) - chain.begin()] *)
Fixpoint position (id : string) (l : list string) : nat :=
  match l with [] => 0 | x :: l' => if decide (x = id) then 0 else S (position id l') end.

(** The loop over the edges: the boundary so far and the shared ones. *)
Fixpoint check_boundary (chain : list string) (l : list EdgeSpec) (b : ChainBoundary) (shared : list SharedDependency)
    : Result (ChainBoundary * list SharedDependency) :=
  match l with
  | [] => Value (b, shared)
  | e :: l' =>
      let from := node_id (es_from e) in
      let to := node_id (es_to e) in
      match contains from chain, contains to chain with
      | true, true =>
          if bool_decide (position to chain = S (position from chain)) then check_boundary chain l' b shared
          else ResultOps.of_status (StatusOps.GraphInvalid ("edge '" ++ es_id e ++ "' makes the chain non-linear"))
      | false, true =>
          if bool_decide (Some to = head chain) && Str.empty (inbound_edge b)
          then check_boundary chain l' (MkBoundary (es_id e) (outbound_edge b)) shared
          else check_boundary chain l' b (shared ++ [MkSharedDependency to (es_id e) from])%list
      | true, false =>
          if bool_decide (Some from = last chain) && Str.empty (outbound_edge b)
          then check_boundary chain l' (MkBoundary (inbound_edge b) (es_id e)) shared
          else check_boundary chain l' b (shared ++ [MkSharedDependency from (es_id e) to])%list
      | false, false => check_boundary chain l' b shared
      end
  end.

Definition CheckLinearChain (spec : GraphSpec) (chain : list string) : Result ChainBoundary :=
  match chain with
  | [] => ResultOps.of_status (StatusOps.GraphInvalid "chain is empty")
  | _ =>
      match check_members spec chain [] with
      | Some s => ResultOps.of_status s
      | None =>
          match check_links spec chain with
          | Some s => ResultOps.of_status s
          | None =>
              match check_boundary chain (edges_ spec) (MkBoundary "" "") [] with
              | Error s => Error s
              | Value (b, []) =>
                  if Str.empty (inbound_edge b) || Str.empty (outbound_edge b)
                  then ResultOps.of_status (StatusOps.GraphInvalid "chain must have exactly one inbound and one outbound edge")
                  else Value b
              | Value (_, shared) =>
                  ResultOps.of_status (StatusOps.SharedDependency
                    "chain has external dependencies beyond one input and one output"
                    (Json.Serialize (Json.obj [("dependencies", JArray (map SharedDependencyJson shared))])))
              end
          end
      end
  end.
