(* ===== verification/ValidatorProofs.v ===== *)
(** The validator's topological order is one, exists exactly when the graph has
    no cycle outside feedback edges, and a linear chain is what it claims. *)

From stdpp Require Import base numbers list strings sorting sets relations.
From Stdlib Require Import ZArith Lia Ascii String.
From S2P Require Import Prelude Types Double Json GraphSpec GraphSpecProofs CapabilityTypes JsonReader CapabilityJson Negotiation NegotiationProofs GraphValidator.

Local Open Scope string_scope.
Local Open Scope Z_scope.

(** ** Popping the ready set *)

Lemma pop_ready_perm idx l : match pop_ready idx l with Some (x, rest) => Permutation l (x :: rest) | None => l = [] end.
Proof.
  induction l as [|x l IH]; simpl; [done|]. destruct (pop_ready idx l) as [[y rest]|]; [|by rewrite IH].
  destruct (idx x <=? idx y)%nat; [done|]. rewrite IH. apply perm_swap.
Qed.

(** ** Relaxing the successors of a node *)

Definition occ (v : string) (l : list string) : Z := Z.of_nat (count (fun x => bool_decide (x = v)) l).

Lemma occ_cons v x l : occ v (x :: l) = (if decide (x = v) then 1 else 0) + occ v l.
Proof. unfold occ. simpl. case_bool_decide; destruct (decide (x = v)); simpl; try done; lia. Qed.
Lemma occ_nonneg v l : 0 <= occ v l.
Proof. unfold occ. lia. Qed.
Lemma occ_zero v l : occ v l = 0 <-> v ∉ l.
Proof.
  induction l as [|x l IH]; [split; [intros _ H; by apply not_elem_of_nil in H|done]|].
  rewrite occ_cons, not_elem_of_cons, <- IH. pose proof (occ_nonneg v l). destruct (decide (x = v)); split; intros Hv; [lia|naive_solver|split; [congruence|lia]|lia].
Qed.

Lemma degree_set m k d v : degree (SMap.set k d m) v = if decide (k = v) then d else degree m v.
Proof. unfold degree. rewrite SMap.find_set. by destruct (decide (k = v)). Qed.

Lemma relax_spec T : forall m ready,
  (forall v, occ v T <= degree m v < 2 ^ 64) ->
  exists m' added, fold_left relax T (m, ready) = (m', (ready ++ added)%list) /\
    (forall v, degree m' v = degree m v - occ v T) /\ NoDup added /\
    (forall v, v ∈ added <-> v ∈ T /\ degree m v = occ v T).
Proof.
  induction T as [|x T IH]; intros m ready Hm.
  { exists m, []. rewrite app_nil_r. split; [done|]. split; [intros; change (occ v []) with 0; lia|].
    split; [constructor|]. intros v. split; [intros H|intros [H _]]; by apply not_elem_of_nil in H. }
  assert (Hx : Word.u64 (degree m x - 1) = degree m x - 1).
  { apply Word.u64_small. specialize (Hm x). rewrite occ_cons, decide_True in Hm by done. pose proof (occ_nonneg x T).
    unfold Word.is_u64. lia. }
  cbn [fold_left]. unfold relax at 2. cbn [fst snd]. rewrite Hx.
  set (m1 := SMap.set x (degree m x - 1) m).
  assert (Hd : forall v, degree m1 v = degree m v - (if decide (x = v) then 1 else 0)).
  { intros v. unfold m1. rewrite degree_set. destruct (decide (x = v)); subst; lia. }
  destruct (IH m1 (if degree m x - 1 =? 0 then (ready ++ [x])%list else ready)) as (m' & added & E & H1 & H2 & H3).
  { intros v. specialize (Hm v). rewrite occ_cons in Hm. rewrite Hd. destruct (decide (x = v)); lia. }
  exists m', ((if degree m x - 1 =? 0 then [x] else []) ++ added)%list. rewrite E. split_and!.
  - f_equal. destruct (degree m x - 1 =? 0); [by rewrite <- app_assoc|done].
  - intros v. rewrite H1, Hd, occ_cons. lia.
  - destruct (Z.eqb_spec (degree m x - 1) 0) as [Ez|Ez]; [|done]. simpl. constructor; [|done].
    rewrite H3. intros [Hin _]. specialize (Hm x). rewrite occ_cons, decide_True in Hm by done.
    assert (occ x T <> 0) by (rewrite occ_zero; by intros ?). pose proof (occ_nonneg x T). lia.
  - intros v. rewrite elem_of_app, H3, elem_of_cons, Hd, occ_cons. specialize (Hm v). rewrite occ_cons in Hm.
    pose proof (occ_nonneg v T). destruct (decide (x = v)) as [<-|Hne].
    + destruct (Z.eqb_spec (degree m x - 1) 0) as [Ez|Ez].
      * split; [intros _; split; [by left|lia]|intros _; left; by constructor].
      * split; [intros [Hi%not_elem_of_nil|[? ?]]; [done|split; [by left|lia]]|]. intros [_ He]. right.
        split; [|lia]. destruct (decide (x ∈ T)) as [|Hn]; [done|]. apply occ_zero in Hn. lia.
    + destruct (degree m x - 1 =? 0).
      * rewrite list_elem_of_singleton. naive_solver lia.
      * split; [intros [Hi%not_elem_of_nil|[? ?]]; [done|split; [by right|lia]]|]. intros [[->|?] ?]; [done|]. right. split; [done|lia].
Qed.

(** ** Kahn's loop *)

Section kahn.
Context (idx : string -> nat) (ids : list string) (ls : list (string * string)).
Hypothesis ids_nodup : NoDup ids.
Hypothesis ends_known : Forall (fun l => l.1 ∈ ids /\ l.2 ∈ ids) ls.
Hypothesis ls_small : Z.of_nat (List.length ls) < 2 ^ 64.

(** The links into [v] whose source has not been output yet. *)
Definition waiting (order : list string) (v : string) : Z :=
  Z.of_nat (count (fun l : string * string => bool_decide (l.2 = v) && negb (contains l.1 order)) ls).

Lemma waiting_step l : forall (order : list string) id v, id ∉ order ->
  Z.of_nat (count (fun l : string * string => bool_decide (l.2 = v) && negb (contains l.1 (order ++ [id])%list)) l) =
  Z.of_nat (count (fun l : string * string => bool_decide (l.2 = v) && negb (contains l.1 order)) l) - occ v (successors l id).
Proof.
  intros order id v Hid. unfold successors. induction l as [|[a b] l IH]; [done|].
  cbn [count List.filter fst snd]. unfold contains at 1. rewrite existsb_app. cbn [existsb]. rewrite orb_false_r.
  fold (contains a order). rewrite !Nat2Z.inj_add, IH.
  destruct (decide (a = id)) as [->|Hne].
  - rewrite (bool_decide_true (id = id)) by done. cbn [map]. rewrite occ_cons, orb_true_r.
    assert (Hc : contains id order = false) by (destruct (contains id order) eqn:E; [by apply contains_spec in E|done]).
    rewrite Hc. cbn [snd negb]. case_bool_decide; destruct (decide (b = v)); simpl; try done; lia.
  - rewrite (bool_decide_false (a = id)), (bool_decide_false (id = a)) by congruence. rewrite orb_false_r. lia.
Qed.

Lemma waiting_snoc order id v : id ∉ order -> waiting (order ++ [id])%list v = waiting order v - occ v (successors ls id).
Proof. apply waiting_step. Qed.

Lemma waiting_small order v : 0 <= waiting order v < 2 ^ 64.
Proof.
  unfold waiting. pose proof (count_length (fun l : string * string => bool_decide (l.2 = v) && negb (contains l.1 order)) ls). lia.
Qed.

Lemma waiting_zero order v : waiting order v = 0 <-> (forall u, (u, v) ∈ ls -> u ∈ order).
Proof.
  unfold waiting. split.
  - intros H u Hin. apply list_elem_of_lookup in Hin as [i Hi].
    destruct (decide (u ∈ order)) as [|Hn]; [done|]. exfalso.
    assert (Hc : contains u order = false) by (destruct (contains u order) eqn:E; [by apply contains_spec in E|done]).
    pose proof (count_lookup (fun l => bool_decide (l.2 = v) && negb (contains l.1 order)) ls i (u, v) Hi) as Hp.
    simpl in Hp. rewrite bool_decide_true, Hc in Hp by done. specialize (Hp eq_refl). lia.
  - intros H. rewrite count_zero; [done|]. apply Forall_forall. intros [u w] Hin. simpl.
    case_bool_decide as E; [|done]. subst w. simpl. apply negb_false_iff. apply contains_spec. by apply H.
Qed.

(** Every link into an output node comes from a node output before it. *)
Definition respects (order : list string) : Prop :=
  forall i v u, order !! i = Some v -> (u, v) ∈ ls -> u ∈ take i order.

Record kahn_inv (degrees : list (string * Z)) (ready order : list string) : Prop := {
  ki_degrees : forall v, degree degrees v = waiting order v;
  ki_nodup : NoDup (order ++ ready)%list;
  ki_known : (order ++ ready)%list ⊆ ids;
  ki_ready : forall v, v ∈ ids -> (v ∈ ready <-> (v ∉ order) /\ waiting order v = 0);
  ki_respects : respects order;
}.

Lemma elem_of_successors id v : v ∈ successors ls id <-> ((id, v) ∈ ls).
Proof.
  unfold successors. rewrite list_elem_of_In, in_map_iff. setoid_rewrite filter_In. rewrite list_elem_of_In. split.
  - intros ([a b] & <- & Hin & Hb%bool_decide_eq_true). simpl in *. by subst.
  - intros Hin. exists (id, v). split_and!; [done|done|]. by apply bool_decide_eq_true.
Qed.

Lemma respects_snoc order id : respects order -> waiting order id = 0 -> respects (order ++ [id])%list.
Proof.
  intros Hr Hw i v u Hi Hl. apply lookup_app_Some in Hi as [Hi|[Hlen Hi]].
  - rewrite take_app_le by (apply lookup_lt_Some in Hi; lia). by eapply Hr.
  - apply list_lookup_singleton_Some in Hi as [Ei <-]. replace i with (List.length order) by lia.
    rewrite take_app_length. by apply (proj1 (waiting_zero order id) Hw).
Qed.

(** A node already output has all its predecessors output. *)
Lemma respects_pred order u v : respects order -> (u, v) ∈ ls -> v ∈ order -> u ∈ order.
Proof.
  intros Hr Hl Hv. apply list_elem_of_lookup in Hv as [i Hi]. specialize (Hr i v u Hi Hl).
  apply elem_of_take in Hr as (j & Hj & _). by apply list_elem_of_lookup_2 in Hj.
Qed.

Lemma kahn_step degrees ready order id rest :
  kahn_inv degrees ready order -> Permutation ready (id :: rest) ->
  exists degrees' ready', fold_left relax (successors ls id) (degrees, rest) = (degrees', ready') /\
    kahn_inv degrees' ready' (order ++ [id])%list.
Proof.
  intros [H1 H2 H3 H4 H5] Hp.
  assert (Hready : forall v, v ∈ ready <-> v = id \/ v ∈ rest) by (intros v; rewrite Hp; apply elem_of_cons).
  rewrite Hp in H2. apply NoDup_app in H2 as (N1 & N2 & [N3 N4]%NoDup_cons).
  assert (Hid : id ∉ order) by (intros Hin; apply (N2 id Hin); by constructor).
  assert (Hids : id ∈ ids) by (apply H3; apply elem_of_app; right; by apply Hready; left).
  assert (Hw0 : waiting order id = 0) by (by apply (H4 id Hids), Hready; left).
  assert (Hocc : forall v, occ v (successors ls id) <= degree degrees v < 2 ^ 64).
  { intros v. rewrite H1. pose proof (waiting_snoc order id v Hid) as Hs. pose proof (waiting_small (order ++ [id])%list v).
    pose proof (waiting_small order v). lia. }
  destruct (relax_spec (successors ls id) degrees rest Hocc) as (m' & added & E & D1 & D2 & D3).
  exists m', (rest ++ added)%list. split; [done|].
  assert (Hadd : forall v, v ∈ added -> v ∈ ids /\ (v ∉ order) /\ v <> id /\ (v ∉ rest)).
  { intros v [Hs%elem_of_successors Hd]%D3. rewrite H1 in Hd.
    assert (Hpos : waiting order v <> 0) by (intros Hz; by apply Hid, (proj1 (waiting_zero order v) Hz)).
    assert (Hvi : v ∈ ids) by (rewrite Forall_forall in ends_known; apply (ends_known _ Hs)).
    split; [done|]. split; [intros Ho; by apply Hid, (respects_pred order id v)|].
    split; [by intros ->|]. intros Hr. apply Hpos. apply (H4 v Hvi), Hready. by right. }
  split.
  - intros v. by rewrite D1, H1, waiting_snoc.
  - rewrite <- app_assoc. apply NoDup_app. split; [done|]. split.
    + intros x Hx Hin. simpl in Hin. rewrite elem_of_cons, elem_of_app in Hin. destruct Hin as [->|[Hin|Hin]]; [done| |].
      * apply (N2 x Hx). by constructor.
      * by apply Hadd in Hin as (_ & ? & _).
    + simpl. apply NoDup_cons. split; [rewrite elem_of_app; intros [?|Hin]; [done|]; by apply Hadd in Hin as (_ & _ & ? & _)|].
      apply NoDup_app. split; [done|]. split; [intros x Hx Hin; by apply Hadd in Hin as (_ & _ & _ & ?)|done].
  - intros v. rewrite !elem_of_app, list_elem_of_singleton. intros [[Ho| ->]|[Hr|Ha]]; [apply H3, elem_of_app; by left|done| |by apply Hadd].
    apply H3, elem_of_app. right. apply Hready. by right.
  - intros v Hv. rewrite elem_of_app, elem_of_app, list_elem_of_singleton, waiting_snoc by done. split.
    + intros [Hr|Ha].
      * assert (Hin : v ∈ ready) by (apply Hready; by right). apply (H4 v Hv) in Hin as [Hno Hw].
        split; [intros [?| ->]; done|]. pose proof (waiting_small (order ++ [id])%list v) as Hsm. rewrite waiting_snoc in Hsm by done.
        pose proof (occ_nonneg v (successors ls id)). lia.
      * pose proof (Hadd v Ha) as (_ & Hno & Hne & _). split; [intros [?| ->]; done|].
        apply D3 in Ha as [_ Hd]. rewrite H1 in Hd. lia.
    + intros [Hno Hw]. destruct (Z.eq_dec (waiting order v) 0) as [Hz|Hz].
      * left. assert (Hin : v ∈ ready) by (apply (H4 v Hv); split; [intros ?; apply Hno; by left|done]).
        apply Hready in Hin as [->|?]; [|done]. exfalso. apply Hno. by right.
      * right. apply D3. rewrite H1. split; [|lia]. destruct (decide (v ∈ successors ls id)) as [|Hn]; [done|].
        apply occ_zero in Hn. lia.
  - by apply respects_snoc.
Qed.

Lemma subset_length (l : list string) : NoDup l -> l ⊆ ids -> (List.length l <= List.length ids)%nat.
Proof. intros Hn Hs. apply submseteq_length, NoDup_submseteq; done. Qed.

Lemma kahn_runs fuel : forall degrees ready order,
  kahn_inv degrees ready order -> (List.length ids - List.length order < fuel)%nat ->
  exists degrees' order', kahn fuel idx ls degrees ready order = Some (degrees', order') /\ kahn_inv degrees' [] order'.
Proof.
  induction fuel as [|fuel IH]; intros degrees ready order Hinv Hf; [lia|]. cbn [kahn].
  pose proof (pop_ready_perm idx ready) as Hp. destruct (pop_ready idx ready) as [[id rest]|].
  - destruct (kahn_step degrees ready order id rest Hinv Hp) as (d' & r' & -> & Hinv'). cbv iota beta zeta.
    apply IH; [done|]. rewrite length_app. simpl.
    pose proof (subset_length _ (ki_nodup _ _ _ Hinv') (ki_known _ _ _ Hinv')) as Hlen. rewrite !length_app in Hlen. simpl in Hlen. lia.
  - subst ready. eauto.
Qed.

(** *** The start *)

Lemma degree_zero l : forall m v, degree m v = 0 -> degree (fold_left (fun m id => SMap.set id 0 m) l m) v = 0.
Proof.
  induction l as [|x l IH]; intros m v Hm; simpl; [done|]. apply IH. rewrite degree_set. by destruct (decide (x = v)).
Qed.

Lemma degree_count l : forall m v,
  (forall v, 0 <= degree m v) -> (forall v, degree m v + Z.of_nat (List.length l) < 2 ^ 64) ->
  degree (fold_left (fun m (l : string * string) => SMap.set l.2 (Word.u64 (degree m l.2 + 1)) m) l m) v =
    degree m v + Z.of_nat (count (fun l : string * string => bool_decide (l.2 = v)) l).
Proof.
  induction l as [|[a b] l IH]; intros m v Hp Hm; simpl; [lia|].
  assert (Hb : Word.u64 (degree m b + 1) = degree m b + 1).
  { apply Word.u64_small. specialize (Hp b). specialize (Hm b). simpl in Hm. unfold Word.is_u64. lia. }
  rewrite Hb, IH.
  - rewrite degree_set. case_bool_decide; destruct (decide (b = v)); subst; simpl; try done; lia.
  - intros w. rewrite degree_set. destruct (decide (b = w)); [specialize (Hp b); lia|apply Hp].
  - intros w. rewrite degree_set. specialize (Hm w) as Hw. specialize (Hm b). simpl in *. destruct (decide (b = w)); lia.
Qed.

Lemma initial_inv : kahn_inv (initial_degrees ids ls) (initially_ready ids (initial_degrees ids ls)) [].
Proof.
  assert (Hd : forall v, degree (initial_degrees ids ls) v = waiting [] v).
  { intros v. unfold initial_degrees. rewrite degree_count.
    - rewrite degree_zero by done. unfold waiting. rewrite Z.add_0_l. f_equal. clear.
      induction ls as [|x l IH]; simpl; [done|]. rewrite IH, andb_true_r. done.
    - intros w. rewrite degree_zero by done. lia.
    - intros w. rewrite degree_zero by done. lia. }
  assert (Hr : forall v, v ∈ initially_ready ids (initial_degrees ids ls) <-> v ∈ ids /\ waiting [] v = 0).
  { intros v. unfold initially_ready. rewrite !list_elem_of_In, filter_In, Hd, Z.eqb_eq. done. }
  split.
  - done.
  - simpl. unfold initially_ready. apply NoDup_ListNoDup. apply List.NoDup_filter. by apply NoDup_ListNoDup.
  - simpl. intros v Hv. by apply Hr in Hv as [? _].
  - intros v Hv. rewrite Hr. split; [intros [_ ?]; split; [by intros ?%not_elem_of_nil|done]|by intros [_ ?]].
  - intros i v u Hi. by rewrite lookup_nil in Hi.
Qed.

Lemma kahn_total :
  exists degrees order, kahn (S (List.length ids + List.length ls)) idx ls (initial_degrees ids ls)
    (initially_ready ids (initial_degrees ids ls)) [] = Some (degrees, order) /\ kahn_inv degrees [] order.
Proof. apply kahn_runs; [apply initial_inv|simpl; lia]. Qed.

(** *** Cycles *)

Definition linked (u v : string) : Prop := (u, v) ∈ ls.
Definition acyclic : Prop := forall v, ~ tc linked v v.

(** In a finite set where every node has a predecessor, going backwards comes
    round. *)
Lemma no_source_cycle (R : list string) x :
  x ∈ R -> (forall v, v ∈ R -> exists u, u ∈ R /\ linked u v) -> exists v, tc linked v v.
Proof.
  intros Hx HR.
  set (pred v := match List.find (fun l : string * string => bool_decide (l.2 = v) && contains l.1 R) ls with Some l => l.1 | None => v end).
  assert (Hpred : forall v, v ∈ R -> pred v ∈ R /\ linked (pred v) v).
  { intros v Hv. unfold pred. destruct (List.find _ ls) as [[a b]|] eqn:E.
    - apply List.find_some in E as [Hin Hb]. apply andb_prop in Hb as [Hb%bool_decide_eq_true Hc%contains_spec].
      simpl in *. subst b. split; [done|]. by apply list_elem_of_In.
    - exfalso. destruct (HR v Hv) as (u & Hu & Hl). unfold linked in Hl. rewrite list_elem_of_In in Hl.
      pose proof (List.find_none _ _ E _ Hl) as Hn. simpl in Hn. rewrite bool_decide_true in Hn by done.
      apply contains_spec in Hu. by rewrite Hu in Hn. }
  set (walk n := Nat.iter n pred x).
  assert (Hwalk : forall n, walk n ∈ R) by (induction n; simpl; [done|by apply Hpred]).
  assert (Htc : forall i k, tc linked (walk (S k + i)%nat) (walk i)).
  { intros i k. induction k as [|k IH]; [apply tc_once, Hpred, Hwalk|]. eapply tc_l; [|exact IH]. apply Hpred, Hwalk. }
  assert (Hor : forall n, NoDup (map walk (List.seq 0 n)) \/ exists v, tc linked v v).
  { induction n as [|n [IH|IH]]; [left; constructor| |by right]. rewrite seq_S, map_app. simpl.
    destruct (decide (walk n ∈ map walk (List.seq 0 n))) as [Hin|Hn].
    - right. rewrite list_elem_of_In in Hin. apply in_map_iff in Hin as (i & Ei & Hi%in_seq).
      exists (walk i). replace n with (S (n - i - 1) + i)%nat in Ei by lia. rewrite Ei at 1. apply Htc.
    - left. apply NoDup_app. split; [done|]. split; [|apply NoDup_singleton].
      intros y Hy ->%list_elem_of_singleton. done. }
  destruct (Hor (S (List.length R))) as [Hn|]; [|done]. exfalso.
  assert (Hle : (List.length (map walk (List.seq 0 (S (List.length R)))) <= List.length R)%nat).
  { apply submseteq_length, NoDup_submseteq; [done|]. intros y Hy. rewrite list_elem_of_In in Hy.
    apply in_map_iff in Hy as (i & <- & _). apply Hwalk. }
  rewrite length_map, length_seq in Hle. lia.
Qed.

Lemma respects_before order u v : respects order -> tc linked u v -> forall i, order !! i = Some v ->
  exists j, (j < i)%nat /\ order !! j = Some u.
Proof.
  intros Hr. induction 1 as [u v Hl|u w v Hl _ IH]; intros i Hi.
  - specialize (Hr i v u Hi Hl). apply elem_of_take in Hr as (j & Hj & Hlt). eauto.
  - destruct (IH i Hi) as (k & Hk & Ek). specialize (Hr k w u Ek Hl). apply elem_of_take in Hr as (j & Hj & Hlt). exists j. split; [lia|done].
Qed.

(** The loop outputs every node exactly when there is no cycle. *)
Lemma kahn_complete degrees order :
  kahn_inv degrees [] order -> (List.length order = List.length ids <-> acyclic) /\
  (List.length order = List.length ids -> Permutation order ids).
Proof.
  intros [H1 H2 H3 H4 H5]. rewrite app_nil_r in H2, H3.
  assert (Hall : List.length order = List.length ids -> Permutation order ids).
  { intros Hlen. apply submseteq_length_Permutation; [by apply NoDup_submseteq|lia]. }
  split; [split|done].
  - intros Hlen v Hc. specialize (Hall Hlen).
    assert (Hv : v ∈ ids).
    { clear -Hc ends_known. rewrite Forall_forall in ends_known.
      assert (Hx : forall u w, tc linked u w -> w ∈ ids) by (induction 1 as [u w Hl|u w z Hl _ IH]; [apply (ends_known _ Hl)|done]).
      by apply Hx in Hc. }
    rewrite <- Hall in Hv. apply list_elem_of_lookup in Hv as [i Hi].
    assert (Hloop : forall n i, (i < n)%nat -> order !! i = Some v -> False).
    { induction n as [|n IH]; intros k Hk Ek; [lia|]. destruct (respects_before order v v H5 Hc k Ek) as (j & Hj & Ej).
      apply (IH j); [lia|done]. }
    apply (Hloop (S i) i); [lia|done].
  - intros Ha. pose proof (subset_length order H2 H3) as Hle. destruct (Nat.eq_dec (List.length order) (List.length ids)) as [|Hne]; [done|].
    exfalso. set (R := List.filter (fun v => negb (contains v order)) ids).
    assert (HR : forall v, v ∈ R <-> v ∈ ids /\ v ∉ order).
    { intros v. unfold R. rewrite !list_elem_of_In, filter_In, negb_true_iff, <- not_true_iff_false, contains_spec. by rewrite list_elem_of_In. }
    destruct R as [|x R'] eqn:ER.
    + assert (Hsub : ids ⊆+ order).
      { apply NoDup_submseteq; [done|]. intros v Hv. destruct (decide (v ∈ order)) as [|Hn]; [done|].
        assert (Hf : v ∈ []) by (apply HR; done). by apply not_elem_of_nil in Hf. }
      apply submseteq_length in Hsub. lia.
    + destruct (no_source_cycle (x :: R') x) as [v Hv]; [by constructor| |by apply (Ha v)].
      intros v [Hv Hno]%HR. destruct (Z.eq_dec (waiting order v) 0) as [Hz|Hz].
      { exfalso. assert (Hf : v ∈ []) by (apply (H4 v Hv); done). by apply not_elem_of_nil in Hf. }
      unfold waiting in Hz. assert (Hpos : forall n, Z.of_nat n <> 0 -> (0 < n)%nat) by lia. apply Hpos, count_pos in Hz as (i & [u w] & Hi & Hb).
      apply andb_prop in Hb as [Hb%bool_decide_eq_true Hc%negb_true_iff]. simpl in *. subst w. apply list_elem_of_lookup_2 in Hi.
      exists u. split; [|done]. apply HR. rewrite Forall_forall in ends_known. split; [apply (ends_known _ Hi)|].
      intros Hin. apply contains_spec in Hin. congruence.
Qed.

End kahn.

(** ** The checks before the order *)

Definition info_ids (nodes : list NodeInfo) : list string := map (fun i => ns_id (ni_spec i)) nodes.

Lemma issue_when_nil b i : issue_when b i = [] -> b = false.
Proof. by destruct b. Qed.
Lemma find_info_spec id nodes : has (find_info id nodes) = true <-> id ∈ info_ids nodes.
Proof.
  unfold find_info, info_ids. destruct (List.find _ nodes) as [i|] eqn:E; simpl.
  - apply List.find_some in E as [Hin Hb%bool_decide_eq_true]. split; [intros _|done].
    rewrite list_elem_of_In. apply in_map_iff. eauto.
  - split; [done|]. rewrite list_elem_of_In. intros (i & <- & Hi)%in_map_iff.
    pose proof (List.find_none _ _ E i Hi) as Hn. simpl in Hn. by rewrite bool_decide_true in Hn.
Qed.

Lemma check_nodes_clean resolver ff l : forall i nodes issues nodes' st,
  check_nodes resolver ff i l nodes issues = (nodes', [], st) ->
  issues = [] /\ st = false /\ info_ids nodes' = (info_ids nodes ++ map ns_id l)%list /\
  (NoDup (info_ids nodes) -> NoDup (info_ids nodes')) /\
  (Forall (fun n => has (ni_cap n) = true /\ ni_cap n = resolver (ns_op (ni_spec n))) nodes ->
   Forall (fun n => has (ni_cap n) = true /\ ni_cap n = resolver (ns_op (ni_spec n))) nodes').
Proof.
  induction l as [|n l IH]; intros i nodes issues nodes' st; cbn [check_nodes].
  - intros [= -> -> ->]. simpl. by rewrite app_nil_r.
  - destruct (has (find_info (ns_id n) nodes)) eqn:Ef.
    { intros (He & _)%IH. by apply app_eq_nil in He as [_ ?]. }
    destruct (stop ff _) eqn:Es.
    { intros [= <- E <-]. rewrite E in Es. by destruct ff. }
    intros (He & -> & Hi & Hn & Hc)%IH. apply app_eq_nil in He as [He Hni]. apply app_eq_nil in He as [-> _].
    split; [done|]. split; [done|]. unfold info_ids in *. rewrite map_app in Hi, Hn. simpl in *. rewrite <- app_assoc in Hi. simpl in Hi.
    split; [done|]. split.
    + intros Hd. apply Hn, NoDup_app. split; [done|]. split; [|apply NoDup_singleton]. intros x Hx ->%list_elem_of_singleton.
      apply find_info_spec in Hx. congruence.
    + intros Hf. apply Hc, Forall_app. split; [done|]. constructor; [|constructor]. simpl. split; [|done].
      by destruct (resolver (ns_op n)).
Qed.

(** What an edge without issues satisfies. *)
Record edge_clean (nodes : list NodeInfo) (e : EdgeSpec) : Prop := {
  ec_from : node_id (es_from e) ∈ info_ids nodes;
  ec_to : node_id (es_to e) ∈ info_ids nodes;
  ec_loop : node_id (es_from e) = node_id (es_to e) -> es_feedback e = true;
  ec_block : es_feedback e = true -> q_policy (es_queue e) <> kBlock;
  ec_output : output_port e nodes <> Some None;
  ec_input : input_port e nodes <> Some None;
}.

Lemma edge_issues_clean nodes seen e :
  edge_issues nodes seen e = [] -> edge_clean nodes e /\ Str.empty (es_id e) = false /\ es_id e ∉ seen.
Proof.
  unfold edge_issues. cbv zeta.
  intros [H1%issue_when_nil [H2%issue_when_nil [H3%issue_when_nil [H4%issue_when_nil [H5%issue_when_nil
    [H6%issue_when_nil H7%issue_when_nil]%app_eq_nil]%app_eq_nil]%app_eq_nil]%app_eq_nil]%app_eq_nil]%app_eq_nil.
  apply orb_false_elim in H1 as [H1 H1']. split; [split|split; [done|]].
  - by apply find_info_spec, negb_false_iff.
  - by apply find_info_spec, negb_false_iff.
  - intros E. rewrite bool_decide_true in H4 by done. by destruct (es_feedback e).
  - intros E. rewrite E in H5. by apply bool_decide_eq_false in H5.
  - by destruct (output_port e nodes) as [[|]|].
  - by destruct (input_port e nodes) as [[|]|].
  - intros Hc%contains_spec. congruence.
Qed.

Lemma check_edges_clean ff nodes l : forall s s' st,
  check_edges ff nodes l s = (s', st) -> scan_issues s' = [] ->
  st = false /\ scan_issues s = [] /\ s' = fold_left (fun s e => scan_edge nodes e s) l s /\ Forall (edge_clean nodes) l /\
  (forall e, e ∈ l -> es_id e ∉ scan_ids s) /\ NoDup (map es_id l).
Proof.
  induction l as [|e l IH]; intros s s' st; cbn [check_edges].
  - intros [= -> <-] ->. split_and!; [done..|constructor|by intros e He%not_elem_of_nil|constructor].
  - destruct (stop ff _) eqn:Es.
    { intros [= <- <-] E. rewrite E in Es. by destruct ff. }
    intros H E. destruct (IH _ _ _ H E) as (-> & He & Hs & Hc & Hids & Hn). simpl in He. apply app_eq_nil in He as [-> He].
    apply edge_issues_clean in He as (Hec & Hem & Hnew). split; [done|]. split; [done|]. split; [done|].
    split; [by constructor|]. unfold scan_edge in Hids. cbn [scan_ids] in Hids.
    assert (Hb : Str.empty (es_id e) || contains (es_id e) (scan_ids s) = false).
    { rewrite Hem. simpl. destruct (contains _ _) eqn:Ec; [|done]. by apply contains_spec in Ec. }
    rewrite Hb in Hids. split.
    + intros e' [->|He']%elem_of_cons; [done|]. specialize (Hids e' He'). rewrite not_elem_of_cons in Hids. by destruct Hids.
    + simpl. constructor; [|done]. rewrite list_elem_of_In. intros (e' & Ee & He')%in_map_iff. apply (Hids e').
      * by apply list_elem_of_In.
      * rewrite Ee. by constructor.
Qed.

(** ** The whole validation *)

Definition no_nodes (spec : GraphSpec) : list ValidationIssue :=
  match nodes_ spec with [] => [graph_issue ("graph '" ++ name_ spec ++ "' has no nodes") "" ""] | _ => [] end.

(** What a successful validation went through. *)
Record validated resolver (iterate : list NodeInfo -> list NodeInfo) (spec : GraphSpec) pref ff n (g : ValidatedGraph) n' : Type := {
  vd_nodes : list NodeInfo;
  vd_degrees : list (string * Z);
  vd_contracts : Contracts;
  vd_scan := fold_left (fun s e => scan_edge vd_nodes e s) (edges_ spec) (MkEdgeScan [] [] [] []);
  vd_check_nodes : check_nodes resolver ff 0 (nodes_ spec) [] [] = (vd_nodes, [], false);
  vd_check_edges : Forall (edge_clean vd_nodes) (edges_ spec) /\ NoDup (map es_id (edges_ spec));
  vd_ports : List.concat (map (port_issues vd_scan) (iterate vd_nodes)) = [];
  vd_topological : topological vd_nodes spec = Some (vd_degrees, topological_order g);
  vd_no_cycle : cycle_issues spec vd_degrees (topological_order g) = [];
  vd_negotiated : exists st, negotiate_all ff vd_nodes pref (scan_outputs vd_scan) (MkContracts [] [] [] n) = (vd_contracts, st);
  vd_agreed : co_issues vd_contracts = [] /\ n' = co_negotiator vd_contracts;
  vd_result : edge_contracts g = co_edges vd_contracts /\ output_contracts g = co_outputs vd_contracts;
}.

Lemma of_status_not_value {A} s (a : A) : ResultOps.of_status s <> Value a.
Proof. unfold ResultOps.of_status. by destruct (StatusOps.ok s). Qed.

(** A failing branch is not the one that returned a value. *)
Ltac failed := let H := fresh in intros H; exfalso; injection H as H; try done; by apply of_status_not_value in H.

Lemma Validate_inv resolver iterate spec pref ff n g issues n' :
  Validate resolver iterate spec pref ff n = (Value g, issues, n') ->
  issues = [] /\ inhabited (validated resolver iterate spec pref ff n g n').
Proof.
  unfold Validate. cbv zeta. fold (no_nodes spec).
  destruct (check_nodes _ _ _ _ _ _) as [[nodes iss] st] eqn:En. destruct st; [failed|].
  destruct (check_edges _ _ _ _) as [s st] eqn:Ee. destruct st; [failed|].
  destruct (stop _ _); [failed|]. destruct (topological _ _) as [[degrees order]|] eqn:Et; [|done].
  destruct (_ ++ cycle_issues _ _ _)%list eqn:Ei; [|failed].
  apply app_eq_nil in Ei as [Ei Ec]. apply app_eq_nil in Ei as [Ei Ep].
  apply check_edges_clean in Ee as (_ & E0 & Hs & Hc & _ & Hn); [|done]. simpl in E0. subst iss.
  pose proof (check_nodes_clean _ _ _ _ _ _ _ _ En) as (E0 & _). rewrite E0 in En.
  destruct (negotiate_all _ _ _ _ _) as [c st] eqn:Ek. destruct (co_issues c) eqn:Eco; [|failed].
  intros [= <- <- <-]. split; [done|]. constructor. subst s.
  apply (Build_validated _ _ _ _ _ _ _ _ nodes degrees c); done || by exists st.
Qed.

Lemma links_known nodes edges : Forall (fun l => l.1 ∈ info_ids nodes /\ l.2 ∈ info_ids nodes) (links nodes edges).
Proof.
  apply Forall_forall. intros l. rewrite list_elem_of_In. unfold links. intros (e & <- & [_ He]%filter_In)%in_map_iff.
  unfold forward in He. apply andb_prop in He as [He Ht]. apply andb_prop in He as [_ Hf]. simpl. by rewrite <- !find_info_spec.
Qed.
Lemma links_length nodes edges : (List.length (links nodes edges) <= List.length edges)%nat.
Proof. unfold links. rewrite length_map. apply List.filter_length_le. Qed.

Lemma topological_spec resolver ff spec nodes :
  check_nodes resolver ff 0 (nodes_ spec) [] [] = (nodes, [], false) -> Z.of_nat (List.length (edges_ spec)) < 2 ^ 64 ->
  exists degrees order, topological nodes spec = Some (degrees, order) /\
    kahn_inv (map ns_id (nodes_ spec)) (links nodes (edges_ spec)) degrees [] order /\
    (cycle_issues spec degrees order = [] <-> acyclic (links nodes (edges_ spec))) /\
    (cycle_issues spec degrees order = [] -> Permutation order (map ns_id (nodes_ spec))).
Proof.
  intros H Hs. apply check_nodes_clean in H as (_ & _ & Hi & Hn & _). simpl in Hi. specialize (Hn (NoDup_nil_2)). rewrite Hi in Hn.
  pose proof (links_known nodes (edges_ spec)) as Hk. rewrite Hi in Hk. pose proof (links_length nodes (edges_ spec)) as Hl.
  assert (Hsmall : Z.of_nat (List.length (links nodes (edges_ spec))) < 2 ^ 64) by lia.
  destruct (kahn_total (index_of nodes) _ _ Hn Hk Hsmall) as (d & o & Ek & Hinv).
  exists d, o. split; [exact Ek|]. split; [done|].
  pose proof (kahn_complete _ _ Hn Hk d o Hinv) as [Ha Hp]. rewrite length_map in Ha, Hp.
  assert (Hci : cycle_issues spec d o = [] <-> List.length o = List.length (nodes_ spec)).
  { unfold cycle_issues. case_bool_decide; simpl; by split. }
  by rewrite !Hci.
Qed.

(** ** The order of a validated graph *)

Lemma validated_order resolver iterate spec pref ff n g issues n' :
  Validate resolver iterate spec pref ff n = (Value g, issues, n') -> Z.of_nat (List.length (edges_ spec)) < 2 ^ 64 ->
  Permutation (topological_order g) (map ns_id (nodes_ spec)).
Proof.
  intros [-> [V]]%Validate_inv Hs. pose proof (vd_check_nodes _ _ _ _ _ _ _ _ V) as Hn.
  destruct (topological_spec _ _ _ _ Hn Hs) as (d & o & Ht & _ & _ & Hp).
  rewrite (vd_topological _ _ _ _ _ _ _ _ V) in Ht. injection Ht as <- <-. exact (Hp (vd_no_cycle _ _ _ _ _ _ _ _ V)).
Qed.

(** C16: validation orders the graph. When it succeeds it leaves no issue, and
    the topological order lists every node exactly once with the source of
    every edge that is not a feedback edge strictly before its target. *)
Theorem Validate_topological resolver iterate spec pref ff n g issues n' :
  Validate resolver iterate spec pref ff n = (Value g, issues, n') -> Z.of_nat (List.length (edges_ spec)) < 2 ^ 64 ->
  issues = [] /\ NoDup (topological_order g) /\ Permutation (topological_order g) (map ns_id (nodes_ spec)) /\
  forall e, e ∈ edges_ spec -> es_feedback e = false ->
    exists i j, (i < j)%nat /\ topological_order g !! i = Some (node_id (es_from e)) /\
      topological_order g !! j = Some (node_id (es_to e)).
Proof.
  intros [-> [V]]%Validate_inv Hs. split; [done|].
  pose proof (vd_check_nodes _ _ _ _ _ _ _ _ V) as Hn. destruct (vd_check_edges _ _ _ _ _ _ _ _ V) as [He _].
  destruct (topological_spec _ _ _ _ Hn Hs) as (d & o & Ht & Hinv & _ & Hp).
  rewrite (vd_topological _ _ _ _ _ _ _ _ V) in Ht. injection Ht as <- <-.
  specialize (Hp (vd_no_cycle _ _ _ _ _ _ _ _ V)). destruct Hinv as [_ Hnd _ _ Hr]. rewrite app_nil_r in Hnd.
  split; [done|]. split; [done|]. intros e Hin Hf. rewrite Forall_forall in He. destruct (He e Hin) as [Hfrom Hto _ _ _ _].
  assert (Hto' : node_id (es_to e) ∈ topological_order g).
  { apply check_nodes_clean in Hn as (_ & _ & Hi & _). rewrite Hp. by rewrite Hi in Hto. }
  apply list_elem_of_lookup in Hto' as [j Hj].
  assert (Hl : (node_id (es_from e), node_id (es_to e)) ∈ links (vd_nodes _ _ _ _ _ _ _ _ V) (edges_ spec)).
  { rewrite list_elem_of_In. apply in_map_iff. exists e. split; [done|]. apply filter_In. rewrite <- list_elem_of_In. split; [done|].
    unfold forward. rewrite Hf. apply find_info_spec in Hfrom, Hto. by rewrite Hfrom, Hto. }
  specialize (Hr j _ _ Hj Hl). apply elem_of_take in Hr as (i & Hi & Hlt). by exists i, j.
Qed.

(** The cycle check is exact. Once the nodes are in order, Kahn's loop
    always finishes, and it reports a cycle if and only if some node reaches
    itself over edges that are not feedback edges. *)
Theorem cycle_reported resolver ff spec nodes :
  check_nodes resolver ff 0 (nodes_ spec) [] [] = (nodes, [], false) -> Z.of_nat (List.length (edges_ spec)) < 2 ^ 64 ->
  exists degrees order, topological nodes spec = Some (degrees, order) /\
    (cycle_issues spec degrees order = [] <-> forall v, ~ tc (fun a b => (a, b) ∈ links nodes (edges_ spec)) v v).
Proof. intros H Hs. destruct (topological_spec _ _ _ _ H Hs) as (d & o & Ht & _ & Hc & _). by exists d, o. Qed.

(** A diamond with a feedback edge, and a resolver for it. *)
Definition pass_descriptor (op : OperatorKey) : CapabilityDescriptor :=
  MkCapabilityDescriptor op "" [MkPortCapability "in" kInput "VideoFrame" false kMulti false None None None (MkMemoryConstraints None None false) None]
    [MkPortCapability "out" kOutput "VideoFrame" false kMulti false None None None (MkMemoryConstraints None None false) None]
    (MkExecutionCapability [kDevCpu] false false 4 false None) (MkParameterCapability [] [] (JObject [])) [] (MkEventCapability [] []).
Definition pass_resolver (op : OperatorKey) : option CapabilityDescriptor := Some (pass_descriptor op).
Definition pass_edge (id a b : string) (feedback : bool) : EdgeSpec :=
  MkEdgeSpec id (MkPortRef a "out") (MkPortRef b "in") (MkQueueSpec 64 (if feedback then kDropOldest else kBlock) None) None feedback.
Definition diamond : GraphSpec :=
  MkGraphSpec "diamond" "" default_options false (map sample_node ["d"; "b"; "c"; "a"])
    [pass_edge "e1" "a" "b" false; pass_edge "e2" "a" "c" false; pass_edge "e3" "b" "d" false; pass_edge "e4" "c" "d" false;
     pass_edge "e5" "d" "a" true].

Lemma Validate_topological_witness :
  exists g issues n', Validate pass_resolver (fun l => l) diamond no_pref true Negotiator.empty = (Value g, issues, n') /\
    topological_order g = ["a"; "b"; "c"; "d"] /\ NoDup (topological_order g).
Proof.
  eexists _, _, _. split; [vm_compute; reflexivity|]. split; [reflexivity|].
  eapply (fun n' H1 H2 => proj1 (proj2 (Validate_topological pass_resolver (fun l => l) diamond no_pref true Negotiator.empty _ [] n' H1 H2)));
    vm_compute; reflexivity.
Defined.

(** With the feedback flag of the last edge cleared the cycle is reported. *)
Definition ring : GraphSpec :=
  MkGraphSpec "ring" "" default_options false (map sample_node ["x"; "a"; "b"])
    [pass_edge "e0" "x" "a" false; pass_edge "e1" "a" "b" false; pass_edge "e2" "b" "a" false].
Lemma cycle_reported_witness :
  exists nodes degrees order, check_nodes pass_resolver false 0 (nodes_ ring) [] [] = (nodes, [], false) /\
    topological nodes ring = Some (degrees, order) /\ order = ["x"] /\
    (cycle_issues ring degrees order = [] <-> forall v, ~ tc (fun a b => (a, b) ∈ links nodes (edges_ ring)) v v).
Proof.
  destruct (check_nodes pass_resolver false 0 (nodes_ ring) [] []) as [[nodes is_] st] eqn:E.
  vm_compute in E. injection E as E1 E2 E3. subst is_ st.
  destruct (cycle_reported pass_resolver false ring nodes) as (d & o & Ht & Hc).
  - subst nodes. vm_compute. reflexivity.
  - vm_compute. reflexivity.
  - exists nodes, d, o. split; [reflexivity|]. split; [exact Ht|]. split; [|exact Hc].
    subst nodes. vm_compute in Ht. by injection Ht as _ <-.
Defined.

(** ** Linear chains *)

Definition enters (chain : list string) (e : EdgeSpec) : bool :=
  negb (contains (node_id (es_from e)) chain) && contains (node_id (es_to e)) chain.
Definition leaves (chain : list string) (e : EdgeSpec) : bool :=
  contains (node_id (es_from e)) chain && negb (contains (node_id (es_to e)) chain).
Definition stays (chain : list string) (e : EdgeSpec) : Prop :=
  node_id (es_from e) ∈ chain -> node_id (es_to e) ∈ chain ->
  exists i, chain !! i = Some (node_id (es_from e)) /\ chain !! S i = Some (node_id (es_to e)).

(** What a chain that can be replaced as a whole is. *)
Record linear_chain (spec : GraphSpec) (chain : list string) (b : ChainBoundary) : Prop := {
  lc_some : chain <> [];
  lc_known : Forall (fun id => has (GraphOps.FindNode id spec) = true) chain;
  lc_distinct : NoDup chain;
  lc_joined : forall i x y, chain !! i = Some x -> chain !! S i = Some y -> links_between spec x y = 1%nat;
  lc_linear : Forall (stays chain) (edges_ spec);
  lc_in : exists e, List.filter (enters chain) (edges_ spec) = [e] /\ Some (node_id (es_to e)) = head chain /\ inbound_edge b = es_id e;
  lc_out : exists e, List.filter (leaves chain) (edges_ spec) = [e] /\ Some (node_id (es_from e)) = last chain /\ outbound_edge b = es_id e;
}.

Lemma check_members_spec spec l : forall seen,
  check_members spec l seen = None <->
  Forall (fun id => has (GraphOps.FindNode id spec) = true) l /\ NoDup l /\ (forall x, x ∈ l -> x ∉ seen).
Proof.
  induction l as [|x l IH]; intros seen; cbn [check_members].
  - split; [|done]. intros _. split; [constructor|]. split; [constructor|by intros x Hx%not_elem_of_nil].
  - rewrite Forall_cons, NoDup_cons. destruct (has (GraphOps.FindNode x spec)); simpl; [|split; [done|by intros ([? _] & _)]].
    destruct (contains x seen) eqn:Ec.
    + apply contains_spec in Ec. split; [done|]. intros (_ & _ & Hx). exfalso. by apply (Hx x); [constructor|].
    + rewrite IH. assert (Hc : x ∉ seen) by (intros H%contains_spec; congruence). setoid_rewrite elem_of_cons.
      split.
      * intros (H1 & H2 & H3). split; [done|]. split; [|naive_solver]. split; [|done]. intros Hx. apply (H3 x Hx). by left.
      * intros ([_ H1] & [H2 H3] & H4). split; [done|]. split; [done|]. intros y Hy [->|Hs]; [done|]. apply (H4 y); [by right|done].
Qed.

Lemma check_links_spec spec l :
  check_links spec l = None <->
  forall i x y, l !! i = Some x -> l !! S i = Some y -> links_between spec x y = 1%nat.
Proof.
  induction l as [|a l IH]; [split; [|done]; intros _ [|i] x y; done|]. destruct l as [|b l].
  { split; [|done]. intros _ [|i] x y; done. }
  cbn [check_links] in *. case_bool_decide as Hb.
  - rewrite IH. split; [|intros H i; apply (H (S i))]. intros H [|i] x y; [by intros [= <-] [= <-]|apply (H i)].
  - split; [done|]. intros H. exfalso. apply Hb. by apply (H 0%nat).
Qed.

Lemma position_spec l : NoDup l -> forall i x, l !! i = Some x -> position x l = i.
Proof.
  induction 1 as [|y l Hy _ IH]; intros i x; [done|]. destruct i as [|i]; simpl.
  - intros [= ->]. by rewrite decide_True.
  - intros Hi. rewrite decide_False; [by rewrite (IH i x)|]. intros ->. by apply Hy, (list_elem_of_lookup_2 _ i).
Qed.
Lemma position_stays chain e : NoDup chain -> node_id (es_from e) ∈ chain -> node_id (es_to e) ∈ chain ->
  (position (node_id (es_to e)) chain = S (position (node_id (es_from e)) chain) <-> stays chain e).
Proof.
  intros Hn Hf Ht. split.
  - intros E _ _. apply list_elem_of_lookup in Hf as [i Hi], Ht as [j Hj].
    rewrite (position_spec _ Hn i _ Hi), (position_spec _ Hn j _ Hj) in E. subst j. by exists i.
  - intros H. destruct (H Hf Ht) as (i & Hi & Hj). by rewrite (position_spec _ Hn i _ Hi), (position_spec _ Hn _ _ Hj).
Qed.

(** How one end of the boundary moves over the edges that cross it. *)
Definition gate (P : EdgeSpec -> Prop) (old new : string) (es : list EdgeSpec) : Prop :=
  (es = [] /\ new = old) \/ (Str.empty old = true /\ exists e, es = [e] /\ P e /\ new = es_id e).

Lemma gate_cons P old new e es : Str.empty (es_id e) = false ->
  gate P old new (e :: es) <-> (P e /\ Str.empty old = true) /\ gate P (es_id e) new es.
Proof.
  intros He. unfold gate. split.
  - intros [[? _]|(Ho & e' & [= <- ->] & HP & ->)]; [done|]. split; [done|]. by left.
  - intros [[HP Ho] [[-> ->]|[Hc _]]]; [|congruence]. right. split; [done|]. by exists e.
Qed.

Lemma check_boundary_shared chain l : forall b sh b' sh',
  check_boundary chain l b sh = Value (b', sh') -> sh' = [] -> sh = [].
Proof.
  induction l as [|e l IH]; intros b sh b' sh'; cbn [check_boundary]; [by intros [= _ ->]|].
  assert (Happ : forall d, check_boundary chain l b (sh ++ [d])%list = Value (b', sh') -> sh' = [] -> sh = []).
  { intros d H E. pose proof (IH _ _ _ _ H E) as Hd. by apply app_eq_nil in Hd as [_ ?]. }
  destruct (contains _ _), (contains _ _); try (destruct (_ && _)); eauto.
  case_bool_decide; [eauto|]. intros Hv. by apply of_status_not_value in Hv.
Qed.

Lemma check_boundary_spec chain b' l : NoDup chain -> Forall (fun e => Str.empty (es_id e) = false) l -> forall b sh,
  check_boundary chain l b sh = Value (b', []) <->
  sh = [] /\ Forall (stays chain) l /\
  gate (fun e => Some (node_id (es_to e)) = head chain) (inbound_edge b) (inbound_edge b') (List.filter (enters chain) l) /\
  gate (fun e => Some (node_id (es_from e)) = last chain) (outbound_edge b) (outbound_edge b') (List.filter (leaves chain) l).
Proof.
  intros Hn. induction 1 as [|e l He _ IH]; intros b sh; cbn [check_boundary List.filter].
  - unfold gate. destruct b as [i o], b' as [i' o']. simpl. split.
    + intros [= -> -> ->]. split; [done|]. split; [constructor|]. by split; left.
    + intros (-> & _ & [[_ ->]|(_ & ? & ? & _)] & [[_ ->]|(_ & ? & ? & _)]); done.
  - rewrite Forall_cons. unfold enters at 1, leaves at 1.
    destruct (contains (node_id (es_from e)) chain) eqn:Ef, (contains (node_id (es_to e)) chain) eqn:Et; cbn [negb andb];
      first [apply contains_spec in Ef|rewrite <- not_true_iff_false, contains_spec in Ef];
      first [apply contains_spec in Et|rewrite <- not_true_iff_false, contains_spec in Et].
    + case_bool_decide as Hp; rewrite position_stays in Hp by done.
      * rewrite IH. tauto.
      * split; [intros H; by apply of_status_not_value in H|tauto].
    + assert (Hst : stays chain e) by (by intros _ ?). rewrite gate_cons by done.
      destruct (bool_decide _ && _) eqn:Eb.
      * apply andb_prop in Eb as [Eb%bool_decide_eq_true Eo]. rewrite IH. simpl. tauto.
      * split; [intros H; by apply check_boundary_shared, app_eq_nil in H as [_ ?]|].
        intros (_ & _ & _ & [Hh Ho] & _). by rewrite bool_decide_true, Ho in Eb.
    + assert (Hst : stays chain e) by (by intros ?). rewrite gate_cons by done.
      destruct (bool_decide _ && _) eqn:Eb.
      * apply andb_prop in Eb as [Eb%bool_decide_eq_true Eo]. rewrite IH. simpl. tauto.
      * split; [intros H; by apply check_boundary_shared, app_eq_nil in H as [_ ?]|].
        intros (_ & _ & [[Hh Ho] _] & _). by rewrite bool_decide_true, Ho in Eb.
    + assert (Hst : stays chain e) by (by intros ?). rewrite IH. tauto.
Qed.

Lemma gate_empty P new es : Str.empty new = false -> gate P "" new es <-> exists e, es = [e] /\ P e /\ new = es_id e.
Proof. intros Hn. unfold gate. split; [intros [[_ ->]|[_ H]]; done|]. intros H. by right. Qed.

(** A chain is accepted for replacement exactly when it is one: its nodes
    exist and are distinct, consecutive ones are joined by exactly one edge and
    no other edge joins two of them, exactly one edge enters it, into its first
    node, and exactly one leaves it, from its last. The boundary returned names
    those two edges. *)
Theorem CheckLinearChain_exact spec chain b :
  Forall (fun e => Str.empty (es_id e) = false) (edges_ spec) ->
  CheckLinearChain spec chain = Value b <-> linear_chain spec chain b.
Proof.
  intros Hids. assert (Hid : forall e, e ∈ edges_ spec -> Str.empty (es_id e) = false) by (by rewrite Forall_forall in Hids).
  assert (Hfilter : forall f e, List.filter f (edges_ spec) = [e] -> Str.empty (es_id e) = false).
  { intros f e E. apply Hid. rewrite list_elem_of_In. apply (filter_In f). rewrite E. by left. }
  unfold CheckLinearChain. destruct chain as [|x chain'] eqn:Ech.
  { split; [intros H; by apply of_status_not_value in H|intros []; done]. }
  rewrite <- Ech. destruct (check_members spec chain []) as [s|] eqn:Em.
  { split; [intros H; by apply of_status_not_value in H|]. intros [_ H1 H2 _ _ _ _].
    rewrite (proj2 (check_members_spec spec chain [])) in Em; [done|]. split; [done|]. split; [done|]. intros y _. apply not_elem_of_nil. }
  apply check_members_spec in Em as (Hk & Hn & _).
  destruct (check_links spec chain) as [s|] eqn:El.
  { split; [intros H; by apply of_status_not_value in H|]. intros [_ _ _ H3 _ _ _]. by rewrite (proj2 (check_links_spec spec chain) H3) in El. }
  rewrite check_links_spec in El.
  transitivity (check_boundary chain (edges_ spec) (MkBoundary "" "") [] = Value (b, []) /\
                Str.empty (inbound_edge b) = false /\ Str.empty (outbound_edge b) = false).
  - destruct (check_boundary _ _ _ _) as [[b0 [|d sh]]|s].
    + destruct (_ || _) eqn:Eb.
      * split; [intros H; by apply of_status_not_value in H|]. intros ([= ->] & E1 & E2). by rewrite E1, E2 in Eb.
      * apply orb_false_elim in Eb as [E1 E2]. split; [intros [= ->]; done|by intros ([= ->] & _)].
    + split; [intros H; by apply of_status_not_value in H|by intros (? & _)].
    + split; [done|by intros (? & _)].
  - rewrite check_boundary_spec by done. simpl. split.
    + intros ((_ & Hs & Hi & Ho) & Ei & Eo). rewrite gate_empty in Hi, Ho by done. by split; [subst chain| | | | | |].
    + intros [_ _ _ _ Hs Hi Ho]. destruct Hi as (ei & Hi1 & Hi2 & Hi3), Ho as (eo & Ho1 & Ho2 & Ho3).
      assert (Ei : Str.empty (inbound_edge b) = false) by (rewrite Hi3; by eapply Hfilter).
      assert (Eo : Str.empty (outbound_edge b) = false) by (rewrite Ho3; by eapply Hfilter).
      rewrite !gate_empty by done. split; [|done]. split; [done|]. split; [done|]. split; [by exists ei|by exists eo].
Qed.

Definition pipeline : GraphSpec :=
  MkGraphSpec "pipeline" "" default_options false (map sample_node ["s"; "a"; "b"; "t"])
    [pass_edge "e1" "s" "a" false; pass_edge "e2" "a" "b" false; pass_edge "e3" "b" "t" false; pass_edge "e4" "s" "t" false].
Lemma CheckLinearChain_exact_witness :
  CheckLinearChain pipeline ["a"; "b"] = Value (MkBoundary "e1" "e3") /\ linear_chain pipeline ["a"; "b"] (MkBoundary "e1" "e3").
Proof.
  split; [vm_compute; reflexivity|]. apply CheckLinearChain_exact; [|vm_compute; reflexivity].
  repeat (constructor; [reflexivity|]). constructor.
Defined.
