(* ===== verification/ValidatorContracts.v ===== *)
(** Validation and negotiation together: every edge of a validated graph has a
    contract that its output port and its input port accept. *)

From stdpp Require Import base numbers list strings sorting sets.
From Stdlib Require Import ZArith Lia Ascii String.
From S2P Require Import Prelude Types Double Json GraphSpec GraphSpecProofs CapabilityTypes JsonReader CapabilityJson Negotiation NegotiationProofs GraphValidator ValidatorProofs.

Local Open Scope string_scope.
Local Open Scope Z_scope.

Import Negotiator.

(** ** Fan-out contracts *)

Lemma versions_agreed output inputs sync pref s t c :
  contract_agreed output inputs sync pref c -> contract_agreed output inputs sync pref (with_versions s t c).
Proof. by intros [H1 H2 H3 H4 H5 H6 H7 H8]. Qed.

Lemma sort_consumers_perm l : Permutation (sort_consumers l) l.
Proof.
  assert (Hi : forall c l, Permutation (insert_consumer c l) (c :: l)).
  { clear l. intros c l. induction l as [|x l IH]; simpl; [done|]. destruct (key_ltb _ _); [|done]. rewrite IH. apply perm_swap. }
  induction l as [|c l IH]; simpl; [done|]. by rewrite Hi, IH.
Qed.

Lemma merge_sync_spec l : forall acc r, merge_sync l acc = Some r ->
  (acc = None \/ acc = r) /\ Forall (fun c => fc_edge_sync c = None \/ fc_edge_sync c = r) l.
Proof.
  induction l as [|c l IH]; intros acc r; simpl; [intros [= ->]; split; [by right|constructor]|].
  destruct (fc_edge_sync c) as [s|] eqn:Es; [destruct acc as [a|]|].
  - case_bool_decide as Ha; [|done]. subst a. intros [[Hx|<-] Hf]%IH; [done|]. split; [by right|]. constructor; [by right|done].
  - intros [[Hx|<-] Hf]%IH; [done|]. split; [by left|]. constructor; [by right|done].
  - intros [H1 Hf]%IH. split; [done|]. constructor; [by left|done].
Qed.

Lemma fanout_sound sc output cs pref n c n' :
  NegotiateFanout sc output cs pref None n = (Value c, n') ->
  port_sane output -> Forall (fun c => port_sane (fc_port c)) cs ->
  cache_ n' = cache_ n /\ exists inputs sync, contract_agreed output inputs sync pref c /\
    Forall (fun c => fc_port c ∈ inputs /\ (fc_edge_sync c = None \/ fc_edge_sync c = sync)) cs.
Proof.
  intros H Ho Hs. split; [pose proof (fanout_cache sc output cs pref None n) as E; by rewrite H in E|]. revert H.
  unfold NegotiateFanout. destruct cs as [|c0 cs0] eqn:E; [failed|].
  rewrite <- E in *. cbv zeta. pose proof (sort_consumers_perm cs) as Hp.
  destruct (merge_sync _ _) as [sync|] eqn:Em; [|failed].
  destruct (NegotiateUncached _ _ _ _ _) as [r|[s cf]] eqn:En; [|failed].
  intros [= <- _]. exists (map fc_port (sort_consumers cs)), sync. split.
  - apply versions_agreed. eapply negotiate_sane; [|exact En]. constructor; [done|]. rewrite Forall_map. by rewrite Hp.
  - apply merge_sync_spec in Em as [_ Hm]. rewrite Hp in Hm. rewrite Forall_forall in *. intros x Hx. split; [|by apply Hm].
    rewrite list_elem_of_In. apply in_map. rewrite <- list_elem_of_In. by rewrite Hp.
Qed.

(** ** Edge contracts through the cache *)

Lemma answered_mono rs rs' kc : rs ⊆ rs' -> answered rs kc -> answered rs' kc.
Proof. intros Hs (r & Hr & H). exists r. split; [by apply Hs|done]. Qed.

Lemma serve_sound rs r n c n' :
  hashes_distinguish rs -> r ∈ rs -> Forall (answered rs) (cache_ n) -> port_sane (rq_output r) -> port_sane (rq_input r) ->
  serve r n = (Value c, n') ->
  Forall (answered rs) (cache_ n') /\ contract_agreed (rq_output r) [rq_input r] (rq_sync r) (rq_pref r) c.
Proof.
  intros Hh Hr Hc Ho Hi H. split.
  - pose proof (serve_cache rs r n Hc) as Hc'. rewrite H in Hc'. eapply Forall_impl; [exact Hc'|]. intros kc. apply answered_mono.
    intros x. rewrite elem_of_app, list_elem_of_singleton. by intros [?| ->].
  - assert (Hfresh : forall r c, port_sane (rq_output r) -> port_sane (rq_input r) -> (serve r empty).1 = Value c ->
      contract_agreed (rq_output r) [rq_input r] (rq_sync r) (rq_pref r) c).
    { clear. intros r c Ho Hi. unfold serve, NegotiateEdge. simpl.
      destruct (NegotiateUncached _ _ _ _ _) as [c0|[s cf]] eqn:E; simpl; [|intros H; by apply of_status_not_value in H].
      intros [= <-]. apply versions_agreed. eapply negotiate_sane; [|exact E]. by constructor; [|constructor; [|constructor]]. }
    unfold serve, NegotiateEdge in H. fold (request_key r) in H. destruct (lookup (request_key r) (cache_ n)) as [c0|] eqn:E.
    + injection H as <- _. apply lookup_elem in E. rewrite Forall_forall in Hc. destruct (Hc _ E) as (r' & Hr' & Hk & Ha). simpl in *.
      pose proof (Hh r r' Hr Hr' (eq_sym Hk)) as Hq. injection Hq as E1 E2 E3 E4. rewrite E1, E2, E3, E4.
      apply (Hfresh r'); [by rewrite <- E1|by rewrite <- E2|done].
    + apply Hfresh; [done..|]. unfold serve, NegotiateEdge. simpl.
      destruct (NegotiateUncached _ _ _ _ _) as [c1|[s cf]]; [by injection H as <- _|]. injection H as H _. by apply of_status_not_value in H.
Qed.

(** ** The nodes and ports of the model *)

(** The capability an end of an edge resolves to. *)
Definition resolved (f : string -> CapabilityDescriptor -> option PortCapability) (resolver : OperatorKey -> option CapabilityDescriptor)
    (spec : GraphSpec) (r : PortRef) : option PortCapability :=
  match GraphOps.FindNode (node_id r) spec with
  | Some n => match resolver (ns_op n) with Some c => f (port r) c | None => None end
  | None => None
  end.
Definition node_op (spec : GraphSpec) (id : string) : OperatorKey :=
  match GraphOps.FindNode id spec with Some n => ns_op n | None => MkOperatorKey "" "" end.
Definition node_version (resolver : OperatorKey -> option CapabilityDescriptor) (spec : GraphSpec) (id : string) : Z :=
  match GraphOps.FindNode id spec with
  | Some n => match resolver (ns_op n) with Some c => Version c | None => 0 end
  | None => 0
  end.

(** The negotiation an edge asks for when it is the only consumer. *)
Definition edge_request (resolver : OperatorKey -> option CapabilityDescriptor) (spec : GraphSpec) (pref : PreferenceSet)
    (e : EdgeSpec) : request :=
  MkRequest (node_op spec (node_id (es_from e))) (node_version resolver spec (node_id (es_from e)))
    (default no_port (resolved Descriptor.FindOutput resolver spec (es_from e)))
    (node_op spec (node_id (es_to e))) (node_version resolver spec (node_id (es_to e)))
    (default no_port (resolved Descriptor.FindInput resolver spec (es_to e))) (es_sync e) pref.

Lemma check_nodes_specs resolver ff l : forall i nodes issues nodes' st,
  check_nodes resolver ff i l nodes issues = (nodes', [], st) ->
  map ni_spec nodes' = (map ni_spec nodes ++ l)%list.
Proof.
  induction l as [|n l IH]; intros i nodes issues nodes' st; cbn [check_nodes]; [intros [= -> _ _]; by rewrite app_nil_r|].
  destruct (has (find_info (ns_id n) nodes)).
  { intros (He & _)%check_nodes_clean. by apply app_eq_nil in He as [_ ?]. }
  destruct (stop ff _) eqn:Es.
  { intros [= <- E <-]. rewrite E in Es. by destruct ff. }
  intros ->%IH. rewrite map_app, <- app_assoc. done.
Qed.

Section nodes.
Context (resolver : OperatorKey -> option CapabilityDescriptor) (spec : GraphSpec) (nodes : list NodeInfo).
Hypothesis specs : map ni_spec nodes = nodes_ spec.
Hypothesis caps : Forall (fun n => has (ni_cap n) = true /\ ni_cap n = resolver (ns_op (ni_spec n))) nodes.

Lemma find_info_FindNode id :
  match find_info id nodes with
  | Some i => GraphOps.FindNode id spec = Some (ni_spec i) /\ has (ni_cap i) = true /\ ni_cap i = resolver (ns_op (ni_spec i))
  | None => GraphOps.FindNode id spec = None
  end.
Proof.
  unfold GraphOps.FindNode, find_info. rewrite <- specs. clear specs. revert caps. induction nodes as [|i l IH]; intros Hc; simpl; [done|].
  apply Forall_cons in Hc as [Hi Hc]. case_bool_decide; [done|by apply IH].
Qed.

Lemma port_of_resolved f r : port_of f r nodes = None \/ port_of f r nodes = Some (resolved f resolver spec r).
Proof.
  unfold port_of, resolved. pose proof (find_info_FindNode (node_id r)) as H.
  destruct (find_info (node_id r) nodes) as [[n [c|] i]|]; [|by left..]. destruct H as (-> & _ & Hc). simpl in *. rewrite <- Hc. by right.
Qed.
Lemma port_of_known f r : node_id r ∈ info_ids nodes -> port_of f r nodes = Some (resolved f resolver spec r).
Proof.
  intros Hin%find_info_spec. destruct (port_of_resolved f r) as [H|]; [|done]. exfalso. unfold port_of in H.
  pose proof (find_info_FindNode (node_id r)) as H'. destruct (find_info (node_id r) nodes) as [[n [c|] i]|]; [done| |done]. by destruct H' as (_ & ? & _).
Qed.
Lemma op_of_spec id : op_of nodes id = node_op spec id.
Proof. unfold op_of, node_op. pose proof (find_info_FindNode id) as H. destruct (find_info id nodes); [by destruct H as [-> _]|by rewrite H]. Qed.
Lemma version_of_spec id : version_of nodes id = node_version resolver spec id.
Proof.
  unfold version_of, node_version. pose proof (find_info_FindNode id) as H. destruct (find_info id nodes) as [[n c i]|]; [|by rewrite H].
  destruct H as (-> & _ & Hc). simpl in *. rewrite <- Hc. by destruct c.
Qed.

(** An edge without issues resolves at both ends. *)
Lemma clean_ports e : edge_clean nodes e ->
  exists out inp, resolved Descriptor.FindOutput resolver spec (es_from e) = Some out /\
    resolved Descriptor.FindInput resolver spec (es_to e) = Some inp /\
    output_port e nodes = Some (Some out) /\ in_port_of nodes e = inp.
Proof.
  intros [Hf Ht _ _ Ho Hi]. unfold in_port_of, input_port, output_port in *. rewrite port_of_known in * by done.
  rewrite port_of_known in * by done.
  destruct (resolved Descriptor.FindOutput _ _ _) as [out|]; [|done]. destruct (resolved Descriptor.FindInput _ _ _) as [inp|]; [|done].
  by exists out, inp.
Qed.

End nodes.

(** ** What the edge loop collects *)

Definition use_key (e : EdgeSpec) : string := PortRef_ToString (es_from e).
Definition uses (k : string) (l : list EdgeSpec) : list EdgeSpec := List.filter (fun e => bool_decide (use_key e = k)) l.

Lemma elem_of_uses k l e : e ∈ uses k l <-> e ∈ l /\ use_key e = k.
Proof. unfold uses. rewrite !list_elem_of_In, filter_In, bool_decide_eq_true. done. Qed.

(** The use recorded under [k] holds exactly the edges seen with that key. *)
Definition collected (nodes : list NodeInfo) (l : list EdgeSpec) (m : list (string * OutputUse)) : Prop :=
  SMap.sorted m /\ forall k,
    match SMap.find k m with
    | Some u => ou_consumers u = uses k l /\ exists e, e ∈ uses k l /\ output_port e nodes = Some (Some (ou_port u))
    | None => uses k l = []
    end.

Lemma scan_collected nodes l : forall seen s,
  Forall (fun e => exists p, output_port e nodes = Some (Some p)) l -> collected nodes seen (scan_outputs s) ->
  collected nodes (seen ++ l)%list (scan_outputs (fold_left (fun s e => scan_edge nodes e s) l s)).
Proof.
  induction l as [|e l IH]; intros seen s Hl [Hs Hf]; simpl; [by rewrite app_nil_r|].
  apply Forall_cons in Hl as [[p Hp] Hl]. replace (seen ++ e :: l)%list with ((seen ++ [e]) ++ l)%list by (by rewrite <- app_assoc).
  apply IH; [done|]. simpl. rewrite Hp. unfold add_output. fold (use_key e). split; [by apply SMap.set_sorted|].
  intros k. rewrite SMap.find_set. specialize (Hf k). unfold uses in *. rewrite List.filter_app. simpl.
  destruct (decide (use_key e = k)) as [<-|Hne].
  - rewrite bool_decide_true by done. split.
    + simpl. destruct (SMap.find (use_key e) (scan_outputs s)) as [u|]; [by destruct Hf as [-> _]|by rewrite Hf].
    + exists e. split; [|done]. apply elem_of_app. right. by constructor.
  - rewrite bool_decide_false by done. by rewrite app_nil_r.
Qed.

(** ** Negotiating all uses *)

Section negotiate.
Context (nodes : list NodeInfo) (pref : PreferenceSet) (rs : list request).
Hypothesis distinct_hashes : hashes_distinguish rs.

Definition node_request (out : PortCapability) (e : EdgeSpec) : request :=
  MkRequest (op_of nodes (node_id (es_from e))) (version_of nodes (node_id (es_from e))) out
    (op_of nodes (node_id (es_to e))) (version_of nodes (node_id (es_to e))) (in_port_of nodes e) (es_sync e) pref.

(** A use negotiation can serve. *)
Definition askable (u : OutputUse) : Prop :=
  port_sane (ou_port u) /\ forall e, e ∈ ou_consumers u -> port_sane (in_port_of nodes e) /\ node_request (ou_port u) e ∈ rs.
(** A contract for all consumers of a use. *)
Definition served (u : OutputUse) (c : ConnectionContract) : Prop :=
  exists inputs sync, contract_agreed (ou_port u) inputs sync pref c /\
    forall e, e ∈ ou_consumers u -> in_port_of nodes e ∈ inputs /\ (es_sync e = None \/ es_sync e = sync).

Lemma negotiate_use_sound u n c n' :
  Forall (answered rs) (cache_ n) -> askable u -> negotiate_use nodes pref u n = (Value c, n') ->
  Forall (answered rs) (cache_ n') /\ served u c.
Proof.
  intros Hc [Ho Hask]. unfold negotiate_use, served. destruct (ou_consumers u) as [|e [|e' es]] eqn:E; [done| |].
  - cbv zeta. intros H. destruct (Hask e ltac:(by constructor)) as [Hi Hr].
    destruct (serve_sound rs (node_request (ou_port u) e) n c n' distinct_hashes Hr Hc Ho Hi H) as [Hc' Ha]. split; [done|].
    exists [in_port_of nodes e], (es_sync e). split; [done|]. intros x ->%list_elem_of_singleton. split; [by constructor|by right].
  - rewrite <- E in *. intros H. apply fanout_sound in H as [Hcache (inputs & sync & Ha & Hall)]; [|done|].
    + rewrite Hcache. split; [done|]. exists inputs, sync. split; [done|]. intros x Hx. rewrite Forall_map, Forall_forall in Hall. by apply (Hall x).
    + rewrite Forall_map, Forall_forall. intros x Hx. by apply Hask.
Qed.

Lemma find_set_all (l : list EdgeSpec) (c : ConnectionContract) id : forall m,
  SMap.find id (fold_left (fun m e => SMap.set (es_id e) c m) l m) = if decide (id ∈ map es_id l) then Some c else SMap.find id m.
Proof.
  induction l as [|e l IH]; intros m; cbn [fold_left map].
  - rewrite decide_False; [done|]. by intros H%not_elem_of_nil.
  - rewrite IH, SMap.find_set. destruct (decide (id ∈ map es_id l)) as [Hin|Hn]; [by rewrite decide_True by (by right)|].
    destruct (decide (es_id e = id)) as [<-|Hne]; [by rewrite decide_True by constructor|].
    rewrite decide_False; [done|]. by intros [?|?]%elem_of_cons.
Qed.

Definition ids_of (l : list (string * OutputUse)) : list string := List.concat (map (fun ku => map es_id (ou_consumers ku.2)) l).

Lemma negotiate_all_clean ff l : forall c c' st,
  negotiate_all ff nodes pref l c = (c', st) -> co_issues c' = [] ->
  Forall (answered rs) (cache_ (co_negotiator c)) -> Forall (fun ku => askable ku.2) l -> NoDup l.*1 -> NoDup (ids_of l) ->
  (forall k u, (k, u) ∈ l -> exists ct, served u ct /\ SMap.find k (co_outputs c') = Some ct /\
     forall e, e ∈ ou_consumers u -> SMap.find (es_id e) (co_edges c') = Some ct) /\
  (forall k, k ∉ l.*1 -> SMap.find k (co_outputs c') = SMap.find k (co_outputs c)) /\
  (forall id, id ∉ ids_of l -> SMap.find id (co_edges c') = SMap.find id (co_edges c)).
Proof.
  induction l as [|[k u] l IH]; intros c c' st; cbn [negotiate_all].
  { intros [= -> _] _ _ _ _ _. split; [|done]. by intros k u H%not_elem_of_nil. }
  intros H Hi Hc Ha Hk Hn. apply Forall_cons in Ha as [Hau Ha]. cbn [fmap list_fmap fst] in Hk. apply NoDup_cons in Hk as [Hk Hks].
  unfold ids_of in Hn. cbn [map List.concat snd] in Hn. apply NoDup_app in Hn as (_ & Hd & Hn). fold (ids_of l) in Hn, Hd.
  destruct (negotiate_use nodes pref u (co_negotiator c)) as [[ct|s] n] eqn:Eu.
  - destruct (negotiate_use_sound _ _ _ _ Hc Hau Eu) as [Hc' Hs].
    destruct (IH _ _ _ H Hi Hc' Ha Hks Hn) as (H1 & H2 & H3). cbn [co_outputs co_edges] in H2, H3. split; [|split].
    + intros k' u' [[= -> ->]|Hin]%elem_of_cons; [|by apply H1]. exists ct. split; [done|]. split; [by rewrite H2, SMap.find_set_eq|].
      intros e He. assert (Hid : es_id e ∈ map es_id (ou_consumers u)) by (rewrite list_elem_of_In; apply in_map; by apply list_elem_of_In).
      rewrite H3 by (by apply Hd). by rewrite find_set_all, decide_True.
    + intros k'. cbn [fmap list_fmap fst]. rewrite not_elem_of_cons. intros [Hne Hk']. rewrite H2 by done. by apply SMap.find_set_ne.
    + intros id. unfold ids_of. cbn [map List.concat snd]. fold (ids_of l). rewrite elem_of_app. intros Hid.
      rewrite H3 by tauto. rewrite find_set_all, decide_False by tauto. done.
  - exfalso. revert H. clear -Hi. set (c1 := MkContracts _ _ _ _).
    assert (Hmono : forall l c c' st, negotiate_all ff nodes pref l c = (c', st) -> co_issues c' = [] -> co_issues c = []).
    { clear. induction l as [|[k u] l IH]; intros c c' st; cbn [negotiate_all]; [by intros [= -> _]|].
      destruct (negotiate_use _ _ _ _) as [[ct|s] n]; [by intros H ?%(IH _ _ _ H)|].
      destruct (stop _ _); [intros [= <- _] E; by apply app_eq_nil in E as [_ ?]|]. intros H Hi. pose proof (IH _ _ _ H Hi) as E. simpl in E. by apply app_eq_nil in E as [_ ?]. }
    assert (Hne : co_issues c1 <> []) by (simpl; intros E; by apply app_eq_nil in E as [_ ?]).
    destruct (stop _ _); [intros [= E _]; apply Hne; by rewrite E|]. intros H. apply Hne, (Hmono _ _ _ _ H Hi).
Qed.

End negotiate.

(** ** Every edge of a validated graph *)

Lemma ids_of_nodup (l : list EdgeSpec) (m : list (string * OutputUse)) :
  NoDup (map es_id l) -> NoDup m.*1 -> Forall (fun ku => ou_consumers ku.2 = uses ku.1 l) m -> NoDup (ids_of m).
Proof.
  intros Hl Hm Hu. induction m as [|[k u] m IH]; [constructor|]. cbn [fmap list_fmap fst] in Hm. apply NoDup_cons in Hm as [Hk Hm].
  apply Forall_cons in Hu as [Hu Hus]. simpl in Hu. unfold ids_of. cbn [map List.concat snd]. fold (ids_of m). rewrite Hu.
  apply NoDup_app. split; [|split; [|by apply IH]].
  - clear -Hl. unfold uses. induction l as [|x l IH]; [constructor|]. cbn [map] in Hl. apply NoDup_cons in Hl as [Hx Hl]. simpl.
    case_bool_decide; [|by apply IH]. cbn [map]. apply NoDup_cons. split; [|by apply IH]. intros Hin. apply Hx.
    rewrite list_elem_of_In in *. apply in_map_iff in Hin as (e & <- & [He _]%filter_In). by apply in_map.
  - intros id Hid Hin. rewrite list_elem_of_In in Hid. apply in_map_iff in Hid as (e & <- & He). rewrite <- list_elem_of_In, elem_of_uses in He.
    unfold ids_of in Hin. rewrite list_elem_of_In in Hin. apply in_concat in Hin as (l' & Hl' & Hin).
    apply in_map_iff in Hl' as ([k' u'] & <- & Hm'). apply in_map_iff in Hin as (e' & Ee & He'). simpl in He'.
    apply list_elem_of_In in Hm', He'. rewrite Forall_forall in Hus. specialize (Hus _ Hm'). simpl in Hus. rewrite Hus, elem_of_uses in He'.
    destruct He as [He <-], He' as [He' <-]. rewrite (NoDup_fmap_key es_id l e' e Hl He' He Ee) in Hm'. apply Hk. by apply (list_elem_of_fmap_2 fst _ _ Hm').
Qed.

Section edges.
Context (resolver : OperatorKey -> option CapabilityDescriptor) (spec : GraphSpec) (pref : PreferenceSet) (nodes : list NodeInfo).
Hypothesis specs : map ni_spec nodes = nodes_ spec.
Hypothesis caps : Forall (fun n => has (ni_cap n) = true /\ ni_cap n = resolver (ns_op (ni_spec n))) nodes.
Hypothesis clean : Forall (edge_clean nodes) (edges_ spec).
Hypothesis sane : forall op c, resolver op = Some c -> Forall port_sane (cd_outputs c ++ cd_inputs c)%list.
Hypothesis keys : forall e e', e ∈ edges_ spec -> e' ∈ edges_ spec -> use_key e = use_key e' -> es_from e = es_from e'.

Lemma resolved_sane f r p :
  (forall name c p, f name c = Some p -> p ∈ (cd_outputs c ++ cd_inputs c)%list) -> resolved f resolver spec r = Some p -> port_sane p.
Proof.
  intros Hf. unfold resolved. destruct (GraphOps.FindNode _ _) as [n|]; [|done]. destruct (resolver (ns_op n)) as [c|] eqn:E; [|done].
  intros Hp%Hf. specialize (sane _ _ E). rewrite Forall_forall in sane. by apply sane.
Qed.

Lemma edge_ports e : e ∈ edges_ spec -> exists out inp,
  resolved Descriptor.FindOutput resolver spec (es_from e) = Some out /\ resolved Descriptor.FindInput resolver spec (es_to e) = Some inp /\
  output_port e nodes = Some (Some out) /\ in_port_of nodes e = inp /\ port_sane out /\ port_sane inp.
Proof.
  intros Hin. rewrite Forall_forall in clean. destruct (clean_ports resolver spec nodes specs caps e (clean e Hin)) as (out & inp & H1 & H2 & H3 & H4).
  exists out, inp. split_and!; try done.
  - eapply (resolved_sane Descriptor.FindOutput); [|exact H1]. intros nm c p [Hp _]%List.find_some. apply elem_of_app. left. by apply list_elem_of_In.
  - eapply (resolved_sane Descriptor.FindInput); [|exact H2]. intros nm c p [Hp _]%List.find_some. apply elem_of_app. right. by apply list_elem_of_In.
Qed.

Lemma request_of e out : e ∈ edges_ spec -> resolved Descriptor.FindOutput resolver spec (es_from e) = Some out ->
  node_request nodes pref out e = edge_request resolver spec pref e.
Proof.
  intros (o & i & E1 & E2 & _ & E4 & _)%edge_ports Ho. unfold node_request, edge_request. rewrite E2, Ho, E4.
  by rewrite !(op_of_spec resolver spec nodes specs caps), !(version_of_spec resolver spec nodes specs caps).
Qed.

(** The uses the edge loop collects can be negotiated. *)
Lemma collected_askable rs m k u :
  collected nodes (edges_ spec) m -> SMap.find k m = Some u -> (forall e, e ∈ edges_ spec -> edge_request resolver spec pref e ∈ rs) ->
  askable nodes pref rs u /\ forall e, e ∈ ou_consumers u -> resolved Descriptor.FindOutput resolver spec (es_from e) = Some (ou_port u).
Proof.
  intros [_ Hm] Hk Hrs. specialize (Hm k). rewrite Hk in Hm. destruct Hm as [Hu (e0 & [He0 Hk0]%elem_of_uses & Hp)].
  destruct (edge_ports e0 He0) as (out & inp & R1 & _ & R3 & _ & S1 & _). rewrite R3 in Hp. injection Hp as ->.
  assert (Hres : forall e, e ∈ ou_consumers u -> e ∈ edges_ spec /\ resolved Descriptor.FindOutput resolver spec (es_from e) = Some (ou_port u)).
  { intros e. rewrite Hu, elem_of_uses. intros [He Ek]. split; [done|]. rewrite (keys e e0 He He0); [done|congruence]. }
  split; [|intros e He; by apply Hres]. split; [done|]. intros e He. destruct (Hres e He) as [Hin Hr].
  destruct (edge_ports e Hin) as (? & ? & _ & _ & _ & -> & _ & Hs). split; [done|]. rewrite request_of by done. by apply Hrs.
Qed.

End edges.

(** A contract once recorded stays recorded, and without issues every consumer
    has one. *)
Lemma recorded_contracts ff nodes pref l : forall c c' st,
  negotiate_all ff nodes pref l c = (c', st) -> co_issues c' = [] ->
  (forall id, SMap.find id (co_edges c) <> None -> SMap.find id (co_edges c') <> None) /\
  (forall k u e, (k, u) ∈ l -> e ∈ ou_consumers u -> SMap.find (es_id e) (co_edges c') <> None) /\ co_issues c = [].
Proof.
  induction l as [|[k u] l IH]; intros c c' st; cbn [negotiate_all].
  { intros [= -> _] Hi. split; [done|]. split; [|done]. by intros k u e H%not_elem_of_nil. }
  destruct (negotiate_use nodes pref u (co_negotiator c)) as [[ct|s] n] eqn:Eu.
  - intros H Hi. destruct (IH _ _ _ H Hi) as (H1 & H2 & H3). cbn [co_edges co_issues] in *.
    assert (Hset : forall id, SMap.find id (co_edges c) <> None \/ id ∈ map es_id (ou_consumers u) -> SMap.find id (co_edges c') <> None).
    { intros id Hid. apply H1. rewrite find_set_all. destruct (decide (id ∈ _)); [done|]. by destruct Hid. }
    split; [auto|]. split; [|done]. intros k' u' e [[= -> ->]|Hin]%elem_of_cons He; [|by eapply H2].
    apply Hset. right. rewrite list_elem_of_In. apply in_map. by apply list_elem_of_In.
  - intros H Hi. exfalso. destruct (stop _ _); [injection H as <- _; by apply app_eq_nil in Hi as [_ ?]|].
    destruct (IH _ _ _ H Hi) as (_ & _ & H3). simpl in H3. by apply app_eq_nil in H3 as [_ ?].
Qed.

(** Every edge of a validated graph has a contract, whatever the descriptors. *)
Lemma validated_contract resolver iterate spec pref ff n g issues n' e :
  Validate resolver iterate spec pref ff n = (Value g, issues, n') -> e ∈ edges_ spec -> SMap.find (es_id e) (edge_contracts g) <> None.
Proof.
  intros [-> [V]]%Validate_inv Hin. destruct V as [nodes degrees cts scan Hn [He Hids] _ _ _ [st Hall] [Hni _] [Hed _]].
  pose proof (check_nodes_specs _ _ _ _ _ _ _ _ Hn) as Hspecs. apply check_nodes_clean in Hn as (_ & _ & _ & _ & Hcaps).
  specialize (Hcaps (Forall_nil_2 _)). simpl in Hspecs.
  assert (Hcol : collected nodes (edges_ spec) (scan_outputs scan)).
  { apply (scan_collected nodes (edges_ spec) []); [|split; [constructor|done]]. eapply Forall_impl; [exact He|]. intros x Hx.
    destruct (clean_ports resolver spec nodes Hspecs Hcaps x Hx) as (out & _ & _ & _ & H & _). by exists out. }
  destruct Hcol as [_ Hfind]. specialize (Hfind (use_key e)). assert (Hu : e ∈ uses (use_key e) (edges_ spec)) by (by apply elem_of_uses).
  destruct (SMap.find (use_key e) (scan_outputs scan)) as [u|] eqn:Eu; [|rewrite Hfind in Hu; by apply not_elem_of_nil in Hu].
  destruct Hfind as [Hc _]. rewrite <- Hc in Hu. rewrite Hed. apply SMap.find_In, list_elem_of_In in Eu.
  by eapply (recorded_contracts _ _ _ _ _ _ _ Hall Hni).
Qed.

(** C15: a validated graph is connected by contracts. Whatever the negotiator
    did before, every edge of a graph that validates resolves to an output and
    an input port, and has a contract that is recorded for its output and that
    the output port, its own input port and those of all other consumers of
    the output accept, with its sync policy if it names one. This needs
    descriptors with meaningful ranges, printed port references that do not
    collide and content hashes that distinguish the requests. *)
Theorem Validate_contracts resolver iterate spec pref ff ops g issues n' :
  Validate resolver iterate spec pref ff (run_negotiator ops) = (Value g, issues, n') ->
  (forall op c, resolver op = Some c -> Forall port_sane (cd_outputs c ++ cd_inputs c)%list) ->
  (forall e e', e ∈ edges_ spec -> e' ∈ edges_ spec -> use_key e = use_key e' -> es_from e = es_from e') ->
  hashes_distinguish (map (edge_request resolver spec pref) (edges_ spec) ++ requests ops)%list ->
  forall e, e ∈ edges_ spec -> exists out inp c inputs sync,
    resolved Descriptor.FindOutput resolver spec (es_from e) = Some out /\
    resolved Descriptor.FindInput resolver spec (es_to e) = Some inp /\
    SMap.find (es_id e) (edge_contracts g) = Some c /\ SMap.find (PortRef_ToString (es_from e)) (output_contracts g) = Some c /\
    contract_agreed out inputs sync pref c /\ inp ∈ inputs /\ (es_sync e = None \/ es_sync e = sync).
Proof.
  intros [-> [V]]%Validate_inv Hsane Hkeys Hh e Hin. destruct V as [nodes degrees cts scan Hn [He Hids] _ _ _ [st Hall] [Hni _] [Hed Hout]].
  pose proof (check_nodes_specs _ _ _ _ _ _ _ _ Hn) as Hspecs. apply check_nodes_clean in Hn as (_ & _ & _ & _ & Hcaps).
  specialize (Hcaps (Forall_nil_2 _)). simpl in Hspecs.
  assert (Hcol : collected nodes (edges_ spec) (scan_outputs scan)).
  { apply (scan_collected nodes (edges_ spec) []); [|split; [constructor|done]]. apply Forall_forall. intros x Hx.
    destruct (edge_ports resolver spec nodes Hspecs Hcaps He Hsane x Hx) as (out & _ & _ & _ & H & _). by exists out. }
  set (rs := (map (edge_request resolver spec pref) (edges_ spec) ++ requests ops)%list) in *.
  assert (Hrs : forall e, e ∈ edges_ spec -> edge_request resolver spec pref e ∈ rs).
  { intros x Hx. apply elem_of_app. left. rewrite list_elem_of_In. apply in_map. by apply list_elem_of_In. }
  pose proof Hcol as [Hsorted Hfind].
  assert (Huse : forall k u, (k, u) ∈ scan_outputs scan -> SMap.find k (scan_outputs scan) = Some u).
  { intros k u Hk. apply SMap.sorted_In_find; [done|by apply list_elem_of_In]. }
  destruct (negotiate_all_clean nodes pref rs Hh ff _ _ _ _ Hall Hni) as (Hserved & _ & _).
  - eapply Forall_impl; [apply run_cache|]. intros kc. apply answered_mono. intros r Hr. apply elem_of_app. by right.
  - apply Forall_forall. intros [k u] Hk. by eapply (collected_askable resolver spec pref nodes); [..|apply Huse|].
  - by apply SMap.sorted_keys_NoDup.
  - apply (ids_of_nodup (edges_ spec)); [done|by apply SMap.sorted_keys_NoDup|]. apply Forall_forall. intros [k u] Hk%Huse.
    specialize (Hfind k). rewrite Hk in Hfind. by destruct Hfind.
  - specialize (Hfind (use_key e)). destruct (SMap.find (use_key e) (scan_outputs scan)) as [u|] eqn:Eu.
    2:{ exfalso. assert (Hx : e ∈ uses (use_key e) (edges_ spec)) by (by apply elem_of_uses). rewrite Hfind in Hx. by apply not_elem_of_nil in Hx. }
    destruct Hfind as [Hc _]. assert (Hec : e ∈ ou_consumers u) by (rewrite Hc; by apply elem_of_uses).
    destruct (collected_askable resolver spec pref nodes Hspecs Hcaps He Hsane Hkeys rs _ _ _ Hcol Eu Hrs) as [_ Hres].
    destruct (edge_ports resolver spec nodes Hspecs Hcaps He Hsane e Hin) as (out & inp & R1 & R2 & _ & R4 & _).
    apply SMap.find_In, list_elem_of_In in Eu. destruct (Hserved _ _ Eu) as (ct & (inputs & sync & Hag & Hcs) & Hfo & Hfe).
    destruct (Hcs e Hec) as [Hinp Hsync]. rewrite R4 in Hinp.
    exists (ou_port u), inp, ct, inputs, sync. rewrite Hed, Hout. split_and!; try done; [by apply Hres|by apply Hfe].
Qed.

Lemma diamond_valid :
  exists g issues n', Validate pass_resolver (fun l => l) diamond no_pref true (run_negotiator []) = (Value g, issues, n').
Proof. eexists _, _, _. vm_compute. reflexivity. Qed.

Lemma Validate_contracts_witness :
  exists g issues n', Validate pass_resolver (fun l => l) diamond no_pref true (run_negotiator []) = (Value g, issues, n') /\
  exists out inp c inputs sync,
    resolved Descriptor.FindOutput pass_resolver diamond (MkPortRef "a" "out") = Some out /\
    resolved Descriptor.FindInput pass_resolver diamond (MkPortRef "c" "in") = Some inp /\
    SMap.find "e2" (edge_contracts g) = Some c /\ SMap.find "a.out" (output_contracts g) = Some c /\
    contract_agreed out inputs sync no_pref c /\ inp ∈ inputs /\ (@None SyncPolicy = None \/ None = sync).
Proof.
  destruct diamond_valid as (g & issues & n' & E). exists g, issues, n'. split; [exact E|].
  apply (Validate_contracts pass_resolver (fun l => l) diamond no_pref true [] g issues n' E) with (e := pass_edge "e2" "a" "c" false).
  - intros op c [= <-]. repeat (constructor; [split; constructor|]). constructor.
  - assert (H : Forall (fun e => Forall (fun e' => use_key e = use_key e' -> es_from e = es_from e') (edges_ diamond)) (edges_ diamond)).
    { repeat (constructor; [repeat (constructor; [intros H; vm_compute in H; (discriminate H || reflexivity)|]); constructor|]). constructor. }
    rewrite Forall_forall in H. intros e e' He He'. specialize (H e He). rewrite Forall_forall in H. by apply H.
  - assert (H : Forall (fun r => question r = (default no_port (head (cd_outputs (pass_descriptor (MkOperatorKey "" "")))),
      default no_port (head (cd_inputs (pass_descriptor (MkOperatorKey "" "")))), None, no_pref))
      (map (edge_request pass_resolver diamond no_pref) (edges_ diamond) ++ requests [])%list).
    { repeat (constructor; [reflexivity|]). constructor. }
    rewrite Forall_forall in H. intros r r' Hr Hr' _. by rewrite (H r Hr), (H r' Hr').
  - right. by left.
Defined.

(** Node ids may contain dots, so the keys of two different output ports can
    coincide and their consumers be negotiated as one fan-out. *)
Example use_key_collision :
  let e := MkEdgeSpec "e" (MkPortRef "a" "b.c") (MkPortRef "x" "in") default_queue None false in
  let e' := MkEdgeSpec "f" (MkPortRef "a.b" "c") (MkPortRef "x" "in") default_queue None false in
  IsValidStableId "a" = true /\ IsValidStableId "a.b" = true /\ use_key e = use_key e' /\ es_from e <> es_from e'.
Proof. vm_compute. split_and!; [reflexivity..|]. intros H. discriminate H. Qed.
