(* ===== verification/MutationApplier.v ===== *)
(** Applying a mutation patch to a graph (src/mutation_applier.cpp): a pure
    transformation of the graph with a record of everything it added, removed
    and touched. A failing action discards the candidate, so every step returns
    the new candidate or the error.

    [resolver] finds the descriptor of an operator; it comes from the engine. *)

From stdpp Require Import base numbers list strings sorting.
From Stdlib Require Import ZArith Lia Ascii String.
From S2P Require Import Prelude Types Double Json JsonParser GraphSpec CapabilityTypes JsonReader CapabilityJson Negotiation GraphValidator.

Local Open Scope string_scope.
Local Open Scope Z_scope.
Local Open Scope ge_scope.

Record CandidateSpec : Type := MkCandidate {
  candidate : GraphSpec;
  added_nodes : list string;
  removed_nodes : list string;
  added_edges : list string;
  removed_edges : list string;
  node_remove_policy : list (string * RemovePolicy);
  parameter_updates : list (string * json);
  touched_nodes : list string;
  touched_edges : list string;
}.

Definition with_candidate (g : GraphSpec) (c : CandidateSpec) : CandidateSpec :=
  MkCandidate g (added_nodes c) (removed_nodes c) (added_edges c) (removed_edges c) (node_remove_policy c)
    (parameter_updates c) (touched_nodes c) (touched_edges c).
Definition with_node_books (added removed : list string) (policies : list (string * RemovePolicy)) (c : CandidateSpec) : CandidateSpec :=
  MkCandidate (candidate c) added removed (added_edges c) (removed_edges c) policies
    (parameter_updates c) (touched_nodes c) (touched_edges c).
Definition with_edge_books (added removed : list string) (c : CandidateSpec) : CandidateSpec :=
  MkCandidate (candidate c) (added_nodes c) (removed_nodes c) added removed (node_remove_policy c)
    (parameter_updates c) (touched_nodes c) (touched_edges c).

Definition Touch (id : string) (l : list string) : list string := if contains id l then l else (l ++ [id])%list.
Definition touch_node (id : string) (c : CandidateSpec) : CandidateSpec :=
  MkCandidate (candidate c) (added_nodes c) (removed_nodes c) (added_edges c) (removed_edges c) (node_remove_policy c)
    (parameter_updates c) (Touch id (touched_nodes c)) (touched_edges c).
Definition touch_edge (id : string) (c : CandidateSpec) : CandidateSpec :=
  MkCandidate (candidate c) (added_nodes c) (removed_nodes c) (added_edges c) (removed_edges c) (node_remove_policy c)
    (parameter_updates c) (touched_nodes c) (Touch id (touched_edges c)).
Definition update_parameters (node : string) (parameters : json) (c : CandidateSpec) : CandidateSpec :=
  MkCandidate (candidate c) (added_nodes c) (removed_nodes c) (added_edges c) (removed_edges c) (node_remove_policy c)
    (parameter_updates c ++ [(node, parameters)])%list (touched_nodes c) (touched_edges c).

(** An edit of the candidate: [if (Status s = ...; !s.ok()) return s;] *)
Definition edit_candidate (r : Status * GraphSpec) (c : CandidateSpec) : Result CandidateSpec :=
  if StatusOps.ok r.1 then Value (with_candidate r.2 c) else Error r.1.

(** A loop that stops at the first error. *)
Fixpoint each {A} (f : A -> CandidateSpec -> Result CandidateSpec) (l : list A) (c : CandidateSpec) : Result CandidateSpec :=
  match l with
  | [] => Value c
  | x :: l' => let? c := f x c in each f l' c
  end.

(** [std::find] and [erase] of an id: the first occurrence. *)
Definition erase_id (id : string) (l : list string) : list string := GraphOps.erase_first (fun x => bool_decide (x = id)) l.

Definition UniquePort (cap : option CapabilityDescriptor) (input : bool) (node : string) : Result string :=
  match cap with
  | None => Error (StatusOps.GraphInvalid ("chain node '" ++ node ++ "' needs explicit ports: operator capability unavailable"))
  | Some d =>
      let ports := if input then cd_inputs d else cd_outputs d in
      let candidates := map pc_name (List.filter (fun p => negb input || pc_required p) ports) in
      let candidates := match candidates with [] => if input then map pc_name ports else [] | _ => candidates end in
      match candidates with
      | [p] => Value p
      | _ =>
          Error (StatusOps.GraphInvalid ("chain node '" ++ node ++ "' has " ++ Dec.to_string (Z.of_nat (List.length candidates)) ++
                   " candidate " ++ (if input then "input" else "output") ++ " ports; specify ports explicitly"))
      end
  end.

(** ** Single nodes and edges *)

Definition AddNodeTracked (n : NodeSpec) (c : CandidateSpec) : Result CandidateSpec :=
  let? c := edit_candidate (GraphOps.AddNode n (candidate c)) c in
  Value (touch_node (ns_id n) (with_node_books (added_nodes c ++ [ns_id n])%list (removed_nodes c) (node_remove_policy c) c)).

Definition AddEdgeTracked (edge : EdgeSpec) (c : CandidateSpec) : Result CandidateSpec :=
  let edge := GraphOps.resolve_id edge in
  let c := touch_node (node_id (es_to edge)) (touch_node (node_id (es_from edge)) c) in
  let? c := edit_candidate (GraphOps.AddEdge edge (candidate c)) c in
  Value (touch_edge (es_id edge) (with_edge_books (added_edges c ++ [es_id edge])%list (removed_edges c) c)).

Definition RemoveEdgeTracked (id : string) (c : CandidateSpec) : Result CandidateSpec :=
  match GraphOps.FindEdge id (candidate c) with
  | None => Error (StatusOps.NotFound ("edge '" ++ id ++ "' not found"))
  | Some e =>
      let c := touch_edge id (touch_node (node_id (es_to e)) (touch_node (node_id (es_from e)) c)) in
      let? c := edit_candidate (GraphOps.RemoveEdge id (candidate c)) c in
      Value (if contains id (added_edges c) then with_edge_books (erase_id id (added_edges c)) (removed_edges c) c
             else with_edge_books (added_edges c) (removed_edges c ++ [id])%list c)
  end.

(** The ids of all edges at a node, each once. *)
Definition incident (id : string) (g : GraphSpec) : list string :=
  fold_left (fun l e => Touch (es_id e) l) (GraphOps.EdgesTo id g) (map es_id (GraphOps.EdgesFrom id g)).

Definition RemoveNodeWithEdges (policy : RemovePolicy) (id : string) (c : CandidateSpec) : Result CandidateSpec :=
  match GraphOps.FindNode id (candidate c) with
  | None => Error (StatusOps.NotFound ("node '" ++ id ++ "' not found"))
  | Some _ =>
      let? c := each RemoveEdgeTracked (incident id (candidate c)) c in
      let? c := edit_candidate (GraphOps.RemoveNode id (candidate c)) c in
      let c := touch_node id c in
      Value (if contains id (added_nodes c) then with_node_books (erase_id id (added_nodes c)) (removed_nodes c) (node_remove_policy c) c
             else with_node_books (added_nodes c) (removed_nodes c ++ [id])%list (SMap.set id policy (node_remove_policy c)) c)
  end.

(** ** Chains, replacement and branches *)

Section actions.
Context (resolver : OperatorKey -> option CapabilityDescriptor).

(** The ports of a chain: input and output of every node. *)
Fixpoint chain_ports (first : bool) (nodes : list NodeSpec) (ports : ChainPorts) : Result (list (string * string)) :=
  match nodes with
  | [] => Value []
  | n :: rest =>
      let cap := resolver (ns_op n) in
      let last := match rest with [] => true | _ => false end in
      let? i := match first, chain_input ports with true, Some p => Value p | _, _ => UniquePort cap true (ns_id n) end in
      let? o := match last, chain_output ports with true, Some p => Value p | _, _ => UniquePort cap false (ns_id n) end in
      let? l := chain_ports false rest ports in
      Value ((i, o) :: l)
  end.

(** The edges between consecutive nodes of a chain. *)
Fixpoint chain_links (queue : QueueSpec) (l : list (NodeSpec * (string * string))) : list EdgeSpec :=
  match l with
  | (a, (_, out)) :: (((b, (inp, _)) :: _) as rest) =>
      MkEdgeSpec "" (MkPortRef (ns_id a) out) (MkPortRef (ns_id b) inp) queue None false :: chain_links queue rest
  | _ => []
  end.

Definition InsertChain (edge : string) (nodes : list NodeSpec) (ports : ChainPorts) (c : CandidateSpec) : Result CandidateSpec :=
  match nodes, GraphOps.FindEdge edge (candidate c) with
  | [], _ => Error (StatusOps.GraphInvalid "insert_chain needs at least one node")
  | _, None => Error (StatusOps.NotFound ("edge '" ++ edge ++ "' not found"))
  | n :: _, Some old =>
      match List.find (fun n => has (GraphOps.FindNode (ns_id n) (candidate c))) nodes with
      | Some n => Error (StatusOps.AlreadyExists ("chain node id '" ++ ns_id n ++ "' already exists in candidate graph"))
      | None =>
          let? ps := chain_ports true nodes ports in
          let? c := RemoveEdgeTracked (es_id old) c in
          let? c := each AddNodeTracked nodes c in
          let first_in := (hd ("", "") ps).1 in
          let last_out := (List.last ps ("", "")).2 in
          let back := ns_id (List.last nodes n) in
          let? c := AddEdgeTracked (MkEdgeSpec "" (es_from old) (MkPortRef (ns_id n) first_in) (es_queue old) (es_sync old) (es_feedback old)) c in
          let? c := each AddEdgeTracked (chain_links (es_queue old) (combine nodes ps)) c in
          AddEdgeTracked (MkEdgeSpec "" (MkPortRef back last_out) (es_to old) (es_queue old) (es_sync old) (es_feedback old)) c
      end
  end.

Definition RemoveChain (nodes : list string) (mode : RemoveMode) (policy : RemovePolicy) (c : CandidateSpec) : Result CandidateSpec :=
  match nodes with
  | [] => Error (StatusOps.GraphInvalid "remove_chain needs at least one node")
  | _ =>
      match mode with
      | kDisconnect => each (RemoveNodeWithEdges policy) nodes c
      | kBypass =>
          let? b := CheckLinearChain (candidate c) nodes in
          match GraphOps.FindEdge (inbound_edge b) (candidate c), GraphOps.FindEdge (outbound_edge b) (candidate c) with
          | Some i, Some o =>
              let? c := each (RemoveNodeWithEdges policy) nodes c in
              AddEdgeTracked (MkEdgeSpec "" (es_from i) (es_to o) (es_queue o) (es_sync o) (es_feedback i || es_feedback o)) c
          | _, _ => Error (StatusOps.Internal "dangling boundary")
          end
      end
  end.

(** [map_port] *)
Definition map_port (op : OperatorKey) (mapping : option PortMapping) (input : bool) (p : string) : Result string :=
  let kind := if input then "input" else "output" in
  match mapping with
  | Some m =>
      match SMap.find p (if input then pm_inputs m else pm_outputs m) with
      | None => Error (StatusOps.GraphInvalid ("replace_node: no mapping for connected " ++ kind ++ " port '" ++ p ++ "'"))
      | Some q => Value q
      end
  | None =>
      match resolver op with
      | Some d =>
          match (if input then Descriptor.FindInput p d else Descriptor.FindOutput p d) with
          | None => Error (StatusOps.GraphInvalid ("replace_node: replacement '" ++ OperatorKeyOps.ToString op ++ "' has no " ++ kind ++
                             " port '" ++ p ++ "' and no port_mapping was given"))
          | Some _ => Value p
          end
      | None => Value p
      end
  end.

(** The incoming edges with the ports of the replacement; an edge from the node
    to itself changes at both ends. *)
Fixpoint map_incoming (node : string) (op : OperatorKey) (mapping : option PortMapping) (l : list EdgeSpec) : Result (list EdgeSpec) :=
  match l with
  | [] => Value []
  | e :: l' =>
      let? p := map_port op mapping true (port (es_to e)) in
      let? q := if bool_decide (node_id (es_from e) = node) then map_port op mapping false (port (es_from e)) else Value (port (es_from e)) in
      let? r := map_incoming node op mapping l' in
      Value (MkEdgeSpec (es_id e) (MkPortRef (node_id (es_from e)) q) (MkPortRef (node_id (es_to e)) p) (es_queue e) (es_sync e) (es_feedback e) :: r)
  end.
Fixpoint map_outgoing (op : OperatorKey) (mapping : option PortMapping) (l : list EdgeSpec) : Result (list EdgeSpec) :=
  match l with
  | [] => Value []
  | e :: l' =>
      let? p := map_port op mapping false (port (es_from e)) in
      let? r := map_outgoing op mapping l' in
      Value (MkEdgeSpec (es_id e) (MkPortRef (node_id (es_from e)) p) (es_to e) (es_queue e) (es_sync e) (es_feedback e) :: r)
  end.

Definition ReplaceNode (node : string) (op : OperatorKey) (options : json) (mapping : option PortMapping) (policy : RemovePolicy)
    (c : CandidateSpec) : Result CandidateSpec :=
  match GraphOps.FindNode node (candidate c) with
  | None => Error (StatusOps.NotFound ("node '" ++ node ++ "' not found"))
  | Some old =>
      let replacement := MkNodeSpec (ns_id old) op (ns_executor old) (ns_parallelism old) options (ns_labels old) in
      let? incoming := map_incoming node op mapping (GraphOps.EdgesTo node (candidate c)) in
      let? outgoing := map_outgoing op mapping
        (List.filter (fun e => negb (bool_decide (node_id (es_to e) = node))) (GraphOps.EdgesFrom node (candidate c))) in
      let? c := RemoveNodeWithEdges policy node c in
      let? c := edit_candidate (GraphOps.AddNode replacement (candidate c)) c in
      let c := with_node_books (added_nodes c ++ [ns_id replacement])%list (removed_nodes c) (node_remove_policy c) c in
      let? c := each AddEdgeTracked incoming c in
      each AddEdgeTracked outgoing c
  end.

(** The entry edges of a branch: the nodes they lead to, last on top. *)
Fixpoint check_entries (nodes : list string) (entries : list string) (g : GraphSpec) (stack : list string) : Result (list string) :=
  match entries with
  | [] => Value stack
  | id :: rest =>
      match GraphOps.FindEdge id g with
      | None => Error (StatusOps.NotFound ("entry edge '" ++ id ++ "' not found"))
      | Some e =>
          if negb (contains (node_id (es_to e)) nodes) then
            Error (StatusOps.GraphInvalid ("entry edge '" ++ id ++ "' does not lead into the selection"))
          else if contains (node_id (es_from e)) nodes then
            Error (StatusOps.GraphInvalid ("entry edge '" ++ id ++ "' must start outside the selection"))
          else check_entries nodes rest g (node_id (es_to e) :: stack)
      end
  end.

(** The successors of a node inside the selection, pushed in edge order. *)
Definition push_successors (g : GraphSpec) (nodes : list string) (n : string) (stack : list string) : list string :=
  fold_left (fun s e => if contains (node_id (es_to e)) nodes then node_id (es_to e) :: s else s) (GraphOps.EdgesFrom n g) stack.

(** The search: every round takes a node off the stack. *)
Fixpoint reach (fuel : nat) (g : GraphSpec) (nodes stack reached : list string) : option (list string) :=
  match fuel with
  | O => None
  | S fuel =>
      match stack with
      | [] => Some reached
      | n :: stack =>
          if contains n reached then reach fuel g nodes stack reached
          else reach fuel g nodes (push_successors g nodes n stack) (n :: reached)
      end
  end.
Definition reach_fuel (g : GraphSpec) (stack : list string) : nat := S (List.length stack + List.length (edges_ g)).

Definition RemoveBranch (entry_edge : string) (entry_edges nodes : list string) (policy : RemovePolicy) (c : CandidateSpec)
    : Result CandidateSpec :=
  match nodes with
  | [] => Error (StatusOps.GraphInvalid "remove_branch needs a node selection")
  | _ =>
      let entries := EntryEdges entry_edge entry_edges in
      let g := candidate c in
      let? stack := check_entries nodes entries g [] in
      match List.find (fun id => negb (has (GraphOps.FindNode id g))) nodes with
      | Some id => Error (StatusOps.NotFound ("node '" ++ id ++ "' not found"))
      | None =>
          match reach (reach_fuel g stack) g nodes stack [] with
          | None => Error (StatusOps.Internal "fuel")
          | Some reached =>
              match List.find (fun id => negb (contains id reached)) nodes with
              | Some id => Error (StatusOps.GraphInvalid ("node '" ++ id ++
                             "' is not reachable from the entry edge(s) inside the selection"))
              | None =>
                  match FindSharedDependencies g nodes entries with
                  | [] => each (RemoveNodeWithEdges policy) nodes c
                  | deps =>
                      Error (StatusOps.SharedDependency
                        ("branch selection shares " ++ Dec.to_string (Z.of_nat (List.length deps)) ++
                         " dependency(ies) with the rest of the graph")
                        (Json.Serialize (Json.obj [("dependencies", JArray (map SharedDependencyJson deps))])))
                  end
              end
          end
      end
  end.

(** ** Patches *)

Definition ApplyOne (action : MutationAction) (default_policy : RemovePolicy) (c : CandidateSpec) : Result CandidateSpec :=
  match action with
  | AddNodeAction n => AddNodeTracked n c
  | RemoveNodeAction node kBypass p => RemoveChain [node] kBypass (default default_policy p) c
  | RemoveNodeAction node kDisconnect p => RemoveNodeWithEdges (default default_policy p) node c
  | InsertChainAction edge nodes ports => InsertChain edge nodes ports c
  | RemoveChainAction nodes mode p => RemoveChain nodes mode (default default_policy p) c
  | ReplaceNodeAction node op options mapping p => ReplaceNode node op options mapping (default default_policy p) c
  | RemoveBranchAction entry nodes p entries => RemoveBranch entry entries nodes (default default_policy p) c
  | AddEdgeAction e => AddEdgeTracked e c
  | RemoveEdgeAction id => RemoveEdgeTracked id c
  | SetNodeOptionsAction node parameters =>
      match GraphOps.FindNode node (candidate c) with
      | None => Error (StatusOps.NotFound ("node '" ++ node ++ "' not found"))
      | Some _ => Value (touch_node node (update_parameters node parameters c))
      end
  end.

(** The status of a failing action, with its position and its own context. *)
Definition action_error (index : Z) (action : MutationAction) (s : Status) : Status :=
  let detail := if Str.empty (context_json s) then []
                else match ParseJson (context_json s) with inl j => [("detail", j)] | inr _ => [] end in
  let ctx := Json.obj ([("action_index", JInteger (Word.i64 index)); ("action_type", JString (ActionTypeName action))] ++ detail)%list in
  StatusOps.make (code s) ("action[" ++ Dec.to_string index ++ "] " ++ ActionTypeName action ++ ": " ++ message s)
    (retryable s) (Json.Serialize ctx).

Fixpoint apply_actions (index : Z) (actions : list MutationAction) (policy : RemovePolicy) (c : CandidateSpec) : Result CandidateSpec :=
  match actions with
  | [] => Value c
  | a :: rest =>
      match ApplyOne a policy c with
      | Error s => ResultOps.of_status (action_error index a s)
      | Value c => apply_actions (index + 1) rest policy c
      end
  end.

Definition Apply (base : GraphSpec) (patch : MutationPatch) : Result CandidateSpec :=
  match mp_actions patch with
  | [] => ResultOps.of_status (StatusOps.InvalidArgument "mutation has no actions")
  | actions => apply_actions 0 actions (mp_remove_policy patch) (MkCandidate base [] [] [] [] [] [] [] [])
  end.

End actions.
