(* ===== verification/MutationProofs.v ===== *)
(** Patches keep graphs consistent and their books exact, and removing a branch
    removes just that branch. *)

From stdpp Require Import base numbers list strings sorting sets relations.
From Stdlib Require Import ZArith Lia Ascii String.
From S2P Require Import Prelude Types Double Json JsonParser GraphSpec GraphSpecProofs CapabilityTypes JsonReader CapabilityJson Negotiation NegotiationProofs GraphValidator ValidatorProofs MutationApplier.

Local Open Scope string_scope.
Local Open Scope Z_scope.
Local Open Scope ge_scope.

(** ** The books of one table *)

Lemma contains_cons (x y : string) l : contains x (y :: l) = bool_decide (x = y) || contains x l.
Proof. unfold contains. simpl. f_equal. apply bool_decide_ext. split; congruence. Qed.

Lemma elem_of_Touch id l x : x ∈ Touch id l <-> x = id \/ x ∈ l.
Proof.
  unfold Touch. destruct (contains id l) eqn:E.
  - apply contains_spec in E. split; [by right|]. by intros [->|?].
  - rewrite elem_of_app, list_elem_of_singleton. tauto.
Qed.

Lemma Touch_touched id l : id ∈ l -> Touch id l = l.
Proof. unfold Touch. intros Hin%contains_spec. by rewrite Hin. Qed.

Section book.
Context {A : Type} (key : A -> string).

(** What happened to a table since [base]: [cur] holds it now. *)
Record book (base cur : list A) (added removed touched : list string) : Prop := {
  bk_count : Permutation ((key <$> cur) ++ removed) ((key <$> base) ++ added);
  bk_distinct : NoDup added;
  bk_present : added ⊆ key <$> cur;
  bk_once : NoDup removed;
  bk_was : removed ⊆ key <$> base;
  bk_again : forall id, id ∈ removed -> id ∈ key <$> cur -> id ∈ added;
  bk_kept : forall x, x ∈ cur -> key x ∉ added -> x ∈ base;
  bk_touched : forall id, id ∈ added \/ id ∈ removed -> id ∈ touched;
}.

Lemma book_start base : book base base [] [] [].
Proof.
  split; try done; try constructor; [by intros x Hx%not_elem_of_nil..|].
  by intros id [H|H]; apply not_elem_of_nil in H.
Qed.

Lemma book_touch base cur added removed touched touched' :
  touched ⊆ touched' -> book base cur added removed touched -> book base cur added removed touched'.
Proof. intros Ht []. split; try done. intros id Hid. by apply Ht, bk_touched0. Qed.

Lemma book_add base cur added removed touched x :
  key x ∉ key <$> cur -> book base cur added removed touched ->
  book base (cur ++ [x])%list (added ++ [key x])%list removed (Touch (key x) touched).
Proof.
  intros Hx [H1 H2 H3 H6 H7 H8 H4 H5]. split; [| | |done|done|..].
  - rewrite fmap_app. simpl. rewrite <- app_assoc, (Permutation_app_comm [key x]), app_assoc, H1, <- app_assoc. done.
  - apply NoDup_app. split; [done|]. split; [|apply NoDup_singleton]. intros y Hy ->%list_elem_of_singleton. by apply Hx, H3.
  - intros y. rewrite fmap_app, !elem_of_app. intros [Hy|Hy]; [left; by apply H3|by right].
  - intros y Hy. rewrite fmap_app, !elem_of_app. intros [Hc|Hc]; [left; by apply H8|by right].
  - intros y. rewrite elem_of_app, not_elem_of_app. intros [Hy|Hy] [Hn Hn']; [by apply H4|].
    apply list_elem_of_singleton in Hy. subst y. exfalso. apply Hn'. by constructor.
  - intros id. rewrite elem_of_app, list_elem_of_singleton, elem_of_Touch. naive_solver.
Qed.

Lemma erase_id_perm id l : id ∈ l -> Permutation l (id :: erase_id id l).
Proof.
  unfold erase_id. induction l as [|x l IH]; intros Hin; [by apply not_elem_of_nil in Hin|]. simpl.
  case_bool_decide as E; [by subst|]. apply elem_of_cons in Hin as [->|Hin]; [done|]. rewrite (IH Hin) at 1. apply perm_swap.
Qed.

Lemma remove_perm cur id :
  NoDup (key <$> cur) -> id ∈ key <$> cur ->
  Permutation (key <$> cur) (id :: (key <$> List.filter (fun x => negb (bool_decide (key x = id))) cur)).
Proof.
  intros Hn Hin. induction cur as [|x cur IH]; [by apply not_elem_of_nil in Hin|]. simpl in *. apply NoDup_cons in Hn as [Hx Hn].
  case_bool_decide as E; simpl.
  - subst id. f_equiv. clear IH Hn Hin. induction cur as [|y cur IH]; [done|]. simpl. rewrite bool_decide_false by set_solver. simpl.
    f_equiv. apply IH. set_solver.
  - apply elem_of_cons in Hin as [->|Hin]; [done|]. rewrite (IH Hn Hin) at 1. apply perm_swap.
Qed.

Lemma book_remove base cur added removed touched id :
  NoDup (key <$> cur) -> id ∈ key <$> cur -> id ∈ touched -> book base cur added removed touched ->
  book base (List.filter (fun x => negb (bool_decide (key x = id))) cur)
    (if contains id added then erase_id id added else added) (if contains id added then removed else removed ++ [id])%list touched.
Proof.
  intros Hn Hin Ht [H1 H2 H3 H6 H7 H8 H4 H5]. pose proof (remove_perm cur id Hn Hin) as Hp. rewrite Hp in H1.
  assert (Hkeep : forall x, x ∈ key <$> cur -> x <> id -> x ∈ key <$> List.filter (fun x => negb (bool_decide (key x = id))) cur).
  { intros x. rewrite Hp, elem_of_cons. by intros [?|?]. }
  assert (Hleft : forall x, x ∈ key <$> List.filter (fun x => negb (bool_decide (key x = id))) cur -> x ∈ key <$> cur /\ x <> id).
  { intros x (y & -> & [Hy Hb]%elem_of_filter)%list_elem_of_fmap. split; [by apply list_elem_of_fmap_2|]. intros E. by rewrite bool_decide_true in Hb. }
  destruct (contains id added) eqn:E.
  - apply contains_spec in E. pose proof (erase_id_perm id added E) as Ha. rewrite Ha in H1, H2. apply NoDup_cons in H2 as [H2 H2'].
    split; [|done| |done|done|..].
    + apply (Permutation_cons_inv (a := id)). rewrite <- app_comm_cons in H1. rewrite H1. symmetry. apply Permutation_middle.
    + intros x Hx. apply Hkeep; [|by intros ->]. apply H3. rewrite Ha. by constructor.
    + intros x Hx [Hc Hne]%Hleft. specialize (H8 x Hx Hc). rewrite Ha in H8. by apply elem_of_cons in H8 as [?|?].
    + intros x Hx Hni. apply elem_of_filter in Hx as [Hx Hb]. apply H4; [done|]. intros Hxa. rewrite Ha in Hxa.
      apply elem_of_cons in Hxa as [Hxi|Hxa]; [|done]. by rewrite bool_decide_true in Hb.
    + intros x Hx. apply H5. rewrite Ha, elem_of_cons. tauto.
  - assert (Hni : id ∉ added) by (intros Hc%contains_spec; congruence). split; [|done|..].
    + rewrite (Permutation_app_comm removed), app_assoc. rewrite <- H1. rewrite <- !app_comm_cons.
      rewrite <- app_assoc. simpl. symmetry. apply Permutation_middle.
    + intros x Hx. apply Hkeep; [by apply H3|]. by intros ->.
    + apply NoDup_app. split; [done|]. split; [|apply NoDup_singleton]. intros x Hx ->%list_elem_of_singleton. by apply Hni, H8.
    + intros x. rewrite elem_of_app, list_elem_of_singleton. intros [Hx| ->]; [by apply H7|].
      pose proof Hin as (y & -> & Hy)%list_elem_of_fmap. apply list_elem_of_fmap_2. by apply H4.
    + intros x. rewrite elem_of_app, list_elem_of_singleton. intros [Hx| ->] [Hc Hne]%Hleft; [by apply H8|done].
    + intros x Hx. apply elem_of_filter in Hx as [Hx _]. by apply H4.
    + intros x. rewrite elem_of_app, list_elem_of_singleton. intros [Hx|[Hx| ->]]; [apply H5; by left|apply H5; by right|done].
Qed.

End book.

(** ** The books of a candidate *)

Record consistent (base : GraphSpec) (c : CandidateSpec) : Prop := {
  cs_wf : wf (candidate c);
  cs_nodes : book ns_id (nodes_ base) (nodes_ (candidate c)) (added_nodes c) (removed_nodes c) (touched_nodes c);
  cs_edges : book es_id (edges_ base) (edges_ (candidate c)) (added_edges c) (removed_edges c) (touched_edges c);
  cs_policies : forall id, id ∈ removed_nodes c <-> SMap.find id (node_remove_policy c) <> None;
}.

Lemma consistent_start base : wf base -> consistent base (MkCandidate base [] [] [] [] [] [] [] []).
Proof. intros Hw. split; simpl; [done|apply book_start..|]. intros id. split; [by intros H%not_elem_of_nil|done]. Qed.

Lemma edit_inv r c c' : edit_candidate r c = Value c' -> StatusOps.ok r.1 = true /\ c' = with_candidate r.2 c.
Proof. unfold edit_candidate. destruct (StatusOps.ok r.1); [by intros [= <-]|done]. Qed.

Lemma touch_consistent base c id : consistent base c -> consistent base (touch_node id c).
Proof.
  intros [H1 H2 H3 H4]. split; try done. simpl. eapply book_touch; [|exact H2]. intros x Hx. apply elem_of_Touch. by right.
Qed.

Lemma AddNodeTracked_consistent base n c c' : consistent base c -> AddNodeTracked n c = Value c' -> consistent base c'.
Proof.
  intros [H1 H2 H3 H4]. unfold AddNodeTracked, ResultOps.bind. destruct (edit_candidate _ _) as [c1|] eqn:E; [|done].
  apply edit_inv in E as [Hok ->]. intros [= <-]. destruct (AddNode_cases n (candidate c)) as [[Hno _]|(Ha & _ & Hnew)]; [congruence|].
  split; simpl; try done; [by apply AddNode_wf|..]; rewrite Ha; simpl; [|done]. by apply book_add.
Qed.

Lemma AddEdgeTracked_consistent base e c c' : consistent base c -> AddEdgeTracked e c = Value c' -> consistent base c'.
Proof.
  intros Hc. unfold AddEdgeTracked, ResultOps.bind. set (e1 := GraphOps.resolve_id e).
  apply (touch_consistent _ _ (node_id (es_from e1))), (touch_consistent _ _ (node_id (es_to e1))) in Hc.
  revert Hc. cbv zeta. generalize (touch_node (node_id (es_to e1)) (touch_node (node_id (es_from e1)) c)). clear c. intros c [H1 H2 H3 H4].
  destruct (edit_candidate _ _) as [c1|] eqn:E; [|done]. apply edit_inv in E as [Hok ->]. intros [= <-].
  assert (Hid : GraphOps.resolve_id e1 = e1).
  { subst e1. unfold GraphOps.resolve_id. destruct (Str.empty (es_id e)) eqn:Ee; [|by rewrite Ee].
    simpl. by destruct (Str.empty (GraphOps.DeriveEdgeId _ _)). }
  destruct (AddEdge_cases e1 (candidate c)) as [[Hno _]|(Ha & _ & Hnew & _)]; [congruence|]. rewrite Hid in Ha, Hnew.
  split; simpl; try done; [by apply AddEdge_wf|..]; rewrite Ha; simpl; [done|]. by apply book_add.
Qed.

Lemma RemoveEdgeTracked_spec base id c c' : consistent base c -> RemoveEdgeTracked id c = Value c' ->
  consistent base c' /\ nodes_ (candidate c') = nodes_ (candidate c) /\
  edges_ (candidate c') = List.filter (fun e => negb (bool_decide (es_id e = id))) (edges_ (candidate c)).
Proof.
  intros Hc. unfold RemoveEdgeTracked, ResultOps.bind. destruct (GraphOps.FindEdge id (candidate c)) as [e|] eqn:Ef; [|done].
  apply (touch_consistent _ _ (node_id (es_from e))), (touch_consistent _ _ (node_id (es_to e))) in Hc.
  change (candidate c) with (candidate (touch_node (node_id (es_to e)) (touch_node (node_id (es_from e)) c))) in Ef |- *.
  revert Hc Ef. cbv zeta. generalize (touch_node (node_id (es_to e)) (touch_node (node_id (es_from e)) c)). clear c. intros c [H1 H2 H3 H4] Ef.
  destruct (edit_candidate _ _) as [c1|] eqn:E; [|done]. apply edit_inv in E as [_ ->]. intros [= <-].
  pose proof (RemoveEdge_wf id _ H1) as Hw. assert (Hr : edges_ (GraphOps.RemoveEdge id (candidate c)).2 = List.filter (fun e => negb (bool_decide (es_id e = id))) (edges_ (candidate c))
    /\ nodes_ (GraphOps.RemoveEdge id (candidate c)).2 = nodes_ (candidate c)).
  { unfold GraphOps.RemoveEdge. rewrite Ef. simpl. split; [|done]. apply (erase_first_filter es_id), H1. }
  destruct Hr as [Hr1 Hr2]. apply lookup_Some in Ef as [Hin Hid].
  assert (Hb : book es_id (edges_ base) (edges_ (GraphOps.RemoveEdge id (candidate c)).2)
    (if contains id (added_edges c) then erase_id id (added_edges c) else added_edges c)
    (if contains id (added_edges c) then removed_edges c else removed_edges c ++ [id])%list (Touch id (touched_edges c))).
  { rewrite Hr1. apply book_remove; [apply H1| |apply elem_of_Touch; by left|].
    - rewrite <- Hid. by apply list_elem_of_fmap_2.
    - eapply book_touch; [|exact H3]. intros x Hx. apply elem_of_Touch. by right. }
  simpl. destruct (contains id (added_edges c)); (split; [split; simpl; [done|by rewrite Hr2|done|done]|done]).
Qed.

Lemma each_ind {A} (P : CandidateSpec -> Prop) (f : A -> CandidateSpec -> Result CandidateSpec) l :
  (forall x c c', P c -> f x c = Value c' -> P c') -> forall c c', P c -> each f l c = Value c' -> P c'.
Proof.
  intros Hf. induction l as [|x l IH]; intros c c' Hc; simpl; [by intros [= <-]|]. unfold ResultOps.bind.
  destruct (f x c) as [c1|] eqn:E; [|done]. apply IH. by eapply Hf.
Qed.

(** Removing a list of edges. *)
Lemma remove_edges_spec base l : forall c c', consistent base c -> each RemoveEdgeTracked l c = Value c' ->
  consistent base c' /\ nodes_ (candidate c') = nodes_ (candidate c) /\
  edges_ (candidate c') = List.filter (fun e => negb (contains (es_id e) l)) (edges_ (candidate c)).
Proof.
  induction l as [|id l IH]; intros c c' Hc; cbn [each].
  - intros [= <-]. split; [done|]. split; [done|]. by rewrite filter_true.
  - unfold ResultOps.bind. destruct (RemoveEdgeTracked id c) as [c1|] eqn:E; [|done].
    destruct (RemoveEdgeTracked_spec _ _ _ _ Hc E) as (Hc1 & Hn1 & He1). intros H. destruct (IH _ _ Hc1 H) as (Hc2 & Hn2 & He2).
    split; [done|]. split; [congruence|]. rewrite He2, He1, filter_filter. apply List.filter_ext. intros e.
    rewrite contains_cons. by rewrite negb_orb.
Qed.

Lemma elem_of_incident id g x : x ∈ incident id g <-> exists e, e ∈ edges_ g /\ es_id e = x /\ GraphOps.touches id e = true.
Proof.
  assert (Hf : forall l acc, x ∈ fold_left (fun l e => Touch (es_id e) l) l acc <-> x ∈ acc \/ x ∈ map es_id l).
  { induction l as [|e l IH]; intros acc; simpl.
    - split; [by left|intros [?|H]; [done|by apply not_elem_of_nil in H]].
    - rewrite IH, elem_of_Touch, elem_of_cons. tauto. }
  assert (Hm : forall p, x ∈ map es_id (List.filter p (edges_ g)) <-> exists e, e ∈ edges_ g /\ es_id e = x /\ p e = true).
  { intros p. rewrite list_elem_of_In, in_map_iff. setoid_rewrite filter_In. setoid_rewrite list_elem_of_In. naive_solver. }
  unfold incident. rewrite Hf. unfold GraphOps.EdgesFrom, GraphOps.EdgesTo. rewrite !Hm. unfold GraphOps.touches.
  setoid_rewrite orb_true_iff. naive_solver.
Qed.

Lemma RemoveNodeWithEdges_spec base policy id c c' : consistent base c -> RemoveNodeWithEdges policy id c = Value c' ->
  consistent base c' /\ nodes_ (candidate c') = List.filter (fun n => negb (bool_decide (ns_id n = id))) (nodes_ (candidate c)) /\
  edges_ (candidate c') = List.filter (fun e => negb (GraphOps.touches id e)) (edges_ (candidate c)) /\ id ∈ touched_nodes c'.
Proof.
  intros Hc. unfold RemoveNodeWithEdges, ResultOps.bind. destruct (GraphOps.FindNode id (candidate c)) as [n|] eqn:Ef; [|done].
  destruct (each _ _ _) as [c1|] eqn:Ee; [|done]. destruct (remove_edges_spec _ _ _ _ Hc Ee) as (Hc1 & Hn1 & He1).
  assert (He1' : edges_ (candidate c1) = List.filter (fun e => negb (GraphOps.touches id e)) (edges_ (candidate c))).
  { rewrite He1. assert (Hids : NoDup (es_id <$> edges_ (candidate c))) by apply Hc.
    assert (Hb : forall e, e ∈ edges_ (candidate c) -> contains (es_id e) (incident id (candidate c)) = GraphOps.touches id e).
    { intros e Hin. apply eq_true_iff_eq. rewrite contains_spec, elem_of_incident. split; [|by exists e].
      intros (e' & Hin' & Hid & Ht). by rewrite <- (NoDup_fmap_key es_id (edges_ (candidate c)) e' e Hids Hin' Hin Hid). }
    clear -Hb. induction (edges_ (candidate c)) as [|e l IH]; simpl; [done|]. rewrite Hb by constructor.
    rewrite IH; [done|]. intros e' He'. apply Hb. by constructor. }
  destruct (edit_candidate _ _) as [c2|] eqn:E2; [|done]. apply edit_inv in E2 as [_ ->]. intros [= <-].
  pose proof (RemoveNode_wf id _ (cs_wf _ _ Hc1)) as Hw.
  assert (Hf1 : exists n1, GraphOps.FindNode id (candidate c1) = Some n1) by (unfold GraphOps.FindNode in *; rewrite Hn1; by eexists).
  assert (Hr : nodes_ (GraphOps.RemoveNode id (candidate c1)).2 = List.filter (fun n => negb (bool_decide (ns_id n = id))) (nodes_ (candidate c1)) /\
    edges_ (GraphOps.RemoveNode id (candidate c1)).2 = edges_ (candidate c1)).
  { destruct Hf1 as [n1 Hf1]. unfold GraphOps.RemoveNode. rewrite Hf1. simpl. split; [apply (erase_first_filter ns_id), Hc1|].
    rewrite He1'. clear. induction (edges_ (candidate c)) as [|e l IH]; simpl; [done|]. destruct (GraphOps.touches id e) eqn:E; simpl; [done|].
    rewrite E. simpl. by rewrite IH. }
  destruct Hr as [Hr1 Hr2]. apply (touch_consistent _ _ id) in Hc1. destruct Hc1 as [H1 H2 H3 H4]. simpl in H1, H2, H3, H4.
  apply lookup_Some in Ef as [Hin Hid].
  assert (Hb : book ns_id (nodes_ base) (nodes_ (GraphOps.RemoveNode id (candidate c1)).2)
    (if contains id (added_nodes c1) then erase_id id (added_nodes c1) else added_nodes c1)
    (if contains id (added_nodes c1) then removed_nodes c1 else removed_nodes c1 ++ [id])%list (Touch id (touched_nodes c1))).
  { rewrite Hr1. apply book_remove; [apply H1| |apply elem_of_Touch; by left|done]. rewrite Hn1, <- Hid. by apply list_elem_of_fmap_2. }
  simpl. destruct (contains id (added_nodes c1)); (split; [split; simpl; rewrite ?Hr2; try done|by simpl; rewrite Hr1, Hr2, Hn1, elem_of_Touch; auto]).
  intros x. rewrite elem_of_app, list_elem_of_singleton, SMap.find_set, H4. destruct (decide (id = x)) as [->|Hne]; naive_solver.
Qed.

(** ** Actions *)

Lemma bind_value {A B} (r : Result A) (f : A -> Result B) b : ResultOps.bind r f = Value b -> exists a, r = Value a /\ f a = Value b.
Proof. unfold ResultOps.bind. destruct r as [a|]; [by exists a|done]. Qed.

(** Follow the successful path of a sequence of steps. *)
Ltac follow :=
  repeat match goal with
  | H : ResultOps.bind _ _ = Value _ |- _ => apply bind_value in H as (? & ? & H)
  | H : ResultOps.of_status _ = Value _ |- _ => by apply of_status_not_value in H
  | H : Error _ = Value _ |- _ => discriminate H
  | H : match ?x with _ => _ end = Value _ |- _ => destruct x eqn:?
  end.

Lemma each_consistent {A} base (f : A -> CandidateSpec -> Result CandidateSpec) l c c' :
  (forall x c c', consistent base c -> f x c = Value c' -> consistent base c') ->
  consistent base c -> each f l c = Value c' -> consistent base c'.
Proof. intros Hf. by apply (each_ind (consistent base)). Qed.

Lemma remove_nodes_consistent base policy l c c' :
  consistent base c -> each (RemoveNodeWithEdges policy) l c = Value c' -> consistent base c'.
Proof. apply each_consistent. intros x c0 c1 Hc Hx. by apply RemoveNodeWithEdges_spec with (policy := policy) (id := x) (c := c0). Qed.
Lemma add_edges_consistent base l c c' : consistent base c -> each AddEdgeTracked l c = Value c' -> consistent base c'.
Proof. apply each_consistent. intros x c0 c1. apply AddEdgeTracked_consistent. Qed.

Section actions.
Context (resolver : OperatorKey -> option CapabilityDescriptor) (base : GraphSpec).

Lemma InsertChain_consistent edge nodes ports c c' :
  consistent base c -> InsertChain resolver edge nodes ports c = Value c' -> consistent base c'.
Proof.
  intros Hc H. unfold InsertChain in H. destruct nodes as [|n nodes']; [done|]. remember (n :: nodes') as nodes. follow.
  eapply AddEdgeTracked_consistent; [|exact H]. eapply add_edges_consistent; [|done]. eapply AddEdgeTracked_consistent; [|done].
  eapply each_consistent; [|..|done]; [intros ? c8 c9; apply AddNodeTracked_consistent|]. by eapply RemoveEdgeTracked_spec.
Qed.

Lemma RemoveChain_consistent nodes mode policy c c' :
  consistent base c -> RemoveChain nodes mode policy c = Value c' -> consistent base c'.
Proof.
  intros Hc H. unfold RemoveChain in H. follow; (eapply remove_nodes_consistent; done) || idtac.
  eapply AddEdgeTracked_consistent; [|exact H]. by eapply remove_nodes_consistent.
Qed.

Lemma ReplaceNode_consistent node op options mapping policy c c' :
  consistent base c -> ReplaceNode resolver node op options mapping policy c = Value c' -> consistent base c'.
Proof.
  intros Hc H. unfold ReplaceNode in H. destruct (GraphOps.FindNode node (candidate c)) as [old|] eqn:Ef; [|done].
  apply bind_value in H as (incoming & _ & H). apply bind_value in H as (outgoing & _ & H). apply bind_value in H as (c1 & H1 & H).
  destruct (RemoveNodeWithEdges_spec _ _ _ _ _ Hc H1) as (Hc1 & Hn1 & _ & Ht1).
  apply bind_value in H as (c2 & H2 & H). apply edit_inv in H2 as [Hok ->]. apply bind_value in H as (c3 & H3 & H).
  eapply add_edges_consistent; [|exact H]. eapply add_edges_consistent; [|exact H3]. clear H H3.
  set (n := MkNodeSpec _ _ _ _ _ _) in *. destruct (AddNode_cases n (candidate c1)) as [[Hno _]|(Ha & _ & Hnew)]; [congruence|].
  apply lookup_Some in Ef as [_ Hid]. destruct Hc1 as [B1 B2 B3 B4].
  split; simpl; try done; [by apply AddNode_wf|..]; rewrite Ha; simpl; [|done].
  rewrite <- (Touch_touched (ns_id n) (touched_nodes c1)); [by apply (book_add ns_id _ _ _ _ _ n)|]. simpl. by rewrite Hid.
Qed.

Lemma RemoveBranch_consistent entry entries nodes policy c c' :
  consistent base c -> RemoveBranch entry entries nodes policy c = Value c' -> consistent base c'.
Proof. intros Hc H. unfold RemoveBranch in H. follow. by eapply remove_nodes_consistent. Qed.

Lemma ApplyOne_consistent a policy c c' : consistent base c -> ApplyOne resolver a policy c = Value c' -> consistent base c'.
Proof.
  intros Hc. destruct a as [n|n [] p|e ns ps|ns m p|n op o m p|en ns p ens|e|e|n ps]; cbn [ApplyOne].
  - by apply AddNodeTracked_consistent.
  - intros H. by eapply RemoveNodeWithEdges_spec.
  - by apply RemoveChain_consistent.
  - by apply InsertChain_consistent.
  - by apply RemoveChain_consistent.
  - by apply ReplaceNode_consistent.
  - by apply RemoveBranch_consistent.
  - by apply AddEdgeTracked_consistent.
  - intros H. by eapply RemoveEdgeTracked_spec.
  - destruct (GraphOps.FindNode _ _); [|done]. intros [= <-]. apply touch_consistent. by destruct Hc.
Qed.

Lemma apply_actions_consistent policy l : forall i c c',
  consistent base c -> apply_actions resolver i l policy c = Value c' -> consistent base c'.
Proof.
  induction l as [|a l IH]; intros i c c' Hc; simpl; [by intros [= <-]|].
  destruct (ApplyOne resolver a policy c) as [c1|] eqn:E; [|intros H; by apply of_status_not_value in H].
  apply IH. by eapply ApplyOne_consistent.
Qed.

End actions.

(** C17: applying a patch keeps the graph consistent and accounts for every
    change. Whatever the actions, the candidate satisfies every table
    invariant; its ids together with the removed ones are exactly the base ids
    together with the added ones; every added id is present, every removed one
    was in the base, each is listed once and as touched; a node or edge that is
    not listed as added is the one of the base, unchanged; and exactly the
    removed nodes have a removal policy. *)
Theorem Apply_consistent resolver base patch c :
  wf base -> Apply resolver base patch = Value c -> consistent base c.
Proof.
  intros Hw. unfold Apply. destruct (mp_actions patch) as [|a l]; [intros H; by apply of_status_not_value in H|].
  apply apply_actions_consistent. by apply consistent_start.
Qed.

(** ** Branches *)

Section reach.
Context (g : GraphSpec) (nodes : list string).

(** One step along an edge that ends inside the selection. *)
Definition inside (a b : string) : Prop := exists e, e ∈ edges_ g /\ node_id (es_from e) = a /\ node_id (es_to e) = b /\ b ∈ nodes.
Definition reachable (stack : list string) (n : string) : Prop := exists s, s ∈ stack /\ rtc inside s n.

Lemma elem_of_push n stack x : x ∈ push_successors g nodes n stack <-> x ∈ stack \/ inside n x.
Proof.
  unfold push_successors, inside, GraphOps.EdgesFrom.
  assert (H : forall l stack, x ∈ fold_left (fun s e => if contains (node_id (es_to e)) nodes then node_id (es_to e) :: s else s) l stack <->
    x ∈ stack \/ exists e, e ∈ l /\ node_id (es_to e) = x /\ x ∈ nodes).
  { clear stack. induction l as [|e l IH]; intros stack; simpl.
    - split; [by left|]. intros [?|(e & He & _)]; [done|by apply not_elem_of_nil in He].
    - rewrite IH. setoid_rewrite elem_of_cons. destruct (contains _ _) eqn:E.
      + apply contains_spec in E. rewrite elem_of_cons. naive_solver.
      + assert (Hn : node_id (es_to e) ∉ nodes) by (intros Hc%contains_spec; congruence). naive_solver. }
  rewrite H. setoid_rewrite elem_of_filter. setoid_rewrite bool_decide_eq_true. naive_solver.
Qed.

Definition unexpanded (reached : list string) : nat := count (fun e => negb (contains (node_id (es_from e)) reached)) (edges_ g).

Lemma push_length n stack reached : contains n reached = false ->
  (List.length (push_successors g nodes n stack) + unexpanded (n :: reached) <= List.length stack + unexpanded reached)%nat.
Proof.
  intros Hn. unfold push_successors, unexpanded, GraphOps.EdgesFrom. revert stack. induction (edges_ g) as [|e l IH]; intros stack; [simpl; lia|].
  cbn [List.filter count].
  rewrite contains_cons. case_bool_decide as E; cbn [orb negb Nat.b2n].
  - rewrite E, Hn. cbn [negb Nat.b2n fold_left]. destruct (contains (node_id (es_to e)) nodes).
    + specialize (IH (node_id (es_to e) :: stack)). cbn [List.length] in IH. lia.
    + specialize (IH stack). lia.
  - specialize (IH stack). lia.
Qed.

(** The search state: everything reached or pending is reachable, and what was
    expanded has its successors reached or pending. *)
Record searching (start stack reached : list string) : Prop := {
  se_sound : forall n, n ∈ stack \/ n ∈ reached -> reachable start n;
  se_closed : forall a b, a ∈ reached -> inside a b -> b ∈ stack \/ b ∈ reached;
  se_start : forall s, s ∈ start -> s ∈ stack \/ s ∈ reached;
}.

Lemma reach_spec start fuel : forall stack reached,
  searching start stack reached -> (List.length stack + unexpanded reached < fuel)%nat ->
  exists r, reach fuel g nodes stack reached = Some r /\ searching start [] r.
Proof.
  induction fuel as [|fuel IH]; intros stack reached Hs Hf; [lia|]. cbn [reach]. destruct stack as [|n stack]; [by exists reached|].
  simpl in Hf. destruct Hs as [H1 H2 H3]. destruct (contains n reached) eqn:E.
  - apply IH; [|lia]. apply contains_spec in E. split.
    + intros m [Hm|Hm]; apply H1; [left; by constructor|by right].
    + intros a b Ha Hab. destruct (H2 a b Ha Hab) as [[->|?]%elem_of_cons|?]; auto.
    + intros s Hst. destruct (H3 s Hst) as [[->|?]%elem_of_cons|?]; auto.
  - apply IH; [|pose proof (push_length n stack reached E); lia].
    assert (Hn : reachable start n) by (apply H1; left; by constructor). split.
    + intros m. rewrite elem_of_push, elem_of_cons. intros [[Hm|Hm]|[->|Hm]]; [apply H1; left; by constructor| |done|apply H1; by right].
      destruct Hn as (s & Hst & Hr). exists s. split; [done|]. by eapply rtc_r.
    + intros a b Ha Hab. rewrite elem_of_push, elem_of_cons. apply elem_of_cons in Ha as [->|Ha]; [auto|].
      destruct (H2 a b Ha Hab) as [[->|?]%elem_of_cons|?]; auto.
    + intros s Hst. rewrite elem_of_push, elem_of_cons. destruct (H3 s Hst) as [[->|?]%elem_of_cons|?]; auto.
Qed.

(** The search always ends, with exactly the reachable nodes. *)
Lemma reach_exact stack : exists r, reach (reach_fuel g stack) g nodes stack [] = Some r /\ forall n, n ∈ r <-> reachable stack n.
Proof.
  destruct (reach_spec stack (reach_fuel g stack) stack []) as (r & Hr & [H1 H2 H3]).
  - split; [|by intros a b Ha%not_elem_of_nil|by left]. intros n [Hn|Hn%not_elem_of_nil]; [|done]. by exists n.
  - unfold reach_fuel, unexpanded. pose proof (count_length (fun e => negb (contains (node_id (es_from e)) [])) (edges_ g)). lia.
  - exists r. split; [done|]. intros n. split; [intros Hn; apply H1; by right|]. intros (s & Hs & Hr').
    assert (Hsr : s ∈ r) by (by destruct (H3 s Hs) as [?%not_elem_of_nil|?]). clear Hs. induction Hr' as [|a b c Hab _ IH]; [done|].
    apply IH. by destruct (H2 a b Hsr Hab) as [?%not_elem_of_nil|?].
Qed.

End reach.

Lemma check_entries_spec nodes l g : forall stack stack', check_entries nodes l g stack = Value stack' ->
  forall n, n ∈ stack' <-> n ∈ stack \/ exists id e, id ∈ l /\ GraphOps.FindEdge id g = Some e /\ node_id (es_to e) = n /\ (node_id (es_from e) ∉ nodes) /\ n ∈ nodes.
Proof.
  induction l as [|id l IH]; intros stack stack'; cbn [check_entries].
  - intros [= ->] n. split; [by left|]. intros [?|(? & ? & H%not_elem_of_nil & _)]; done.
  - destruct (GraphOps.FindEdge id g) as [e|] eqn:Ef; [|done]. destruct (contains (node_id (es_to e)) nodes) eqn:Et; [|done]. simpl.
    destruct (contains (node_id (es_from e)) nodes) eqn:Eo; [done|]. apply contains_spec in Et. rewrite <- not_true_iff_false, contains_spec in Eo.
    intros H n. rewrite (IH _ _ H n), elem_of_cons. setoid_rewrite elem_of_cons. split.
    + intros [[->|?]|(i & x & ? & ?)]; [right; exists id, e; naive_solver|by left|right; exists i, x; naive_solver].
    + intros [?|(i & x & [->|Hi] & Hx & Hrest)]; [by left; right| |right; by exists i, x].
      rewrite Ef in Hx. injection Hx as <-. left. left. by destruct Hrest as (<- & _).
Qed.

Definition outside (nodes : list string) (e : EdgeSpec) : bool :=
  negb (contains (node_id (es_from e)) nodes) && negb (contains (node_id (es_to e)) nodes).

Lemma remove_nodes_spec base policy l : forall c c', consistent base c -> each (RemoveNodeWithEdges policy) l c = Value c' ->
  nodes_ (candidate c') = List.filter (fun n => negb (contains (ns_id n) l)) (nodes_ (candidate c)) /\
  edges_ (candidate c') = List.filter (outside l) (edges_ (candidate c)).
Proof.
  induction l as [|id l IH]; intros c c' Hc; cbn [each].
  - intros [= <-]. split; by rewrite filter_true.
  - intros (c1 & H1 & H)%bind_value. destruct (RemoveNodeWithEdges_spec _ _ _ _ _ Hc H1) as (Hc1 & Hn & He & _).
    destruct (IH _ _ Hc1 H) as [-> ->]. rewrite Hn, He, !filter_filter. split; apply List.filter_ext; intros x.
    + by rewrite contains_cons, negb_orb.
    + unfold outside, GraphOps.touches. rewrite !contains_cons, !negb_orb.
      by destruct (bool_decide (node_id (es_from x) = id)), (bool_decide (node_id (es_to x) = id)), (contains (node_id (es_from x)) l).
Qed.

Lemma shared_none spec nodes entries e :
  FindSharedDependencies spec nodes entries = [] -> e ∈ edges_ spec ->
  es_id e ∈ entries \/ contains (node_id (es_from e)) nodes = contains (node_id (es_to e)) nodes.
Proof.
  unfold FindSharedDependencies. intros H Hin. destruct (contains (es_id e) entries) eqn:Ee; [left; by apply contains_spec|right].
  destruct (Bool.eqb (contains (node_id (es_from e)) nodes) (contains (node_id (es_to e)) nodes)) eqn:Eb; [by apply Bool.eqb_prop|]. exfalso.
  assert (Hs : forall d, d ∈ omap (fun e => if contains (es_id e) entries then None
      else if Bool.eqb (contains (node_id (es_from e)) nodes) (contains (node_id (es_to e)) nodes) then None
      else Some (MkSharedDependency (if contains (node_id (es_from e)) nodes then node_id (es_from e) else node_id (es_to e)) (es_id e)
                 (if contains (node_id (es_from e)) nodes then node_id (es_to e) else node_id (es_from e)))) (edges_ spec) -> False).
  { intros d Hd. rewrite H in Hd. by apply not_elem_of_nil in Hd. }
  eapply Hs, list_elem_of_omap. exists e. split; [done|]. by rewrite Ee, Eb.
Qed.

(** Removing a branch removes that branch and nothing else. When it
    succeeds, what is left is exactly the nodes outside the selection and the
    edges between them; every node of the selection was reachable from an entry
    edge, which starts outside, along edges inside the selection; and every
    removed edge that crosses the border of the selection is an entry edge. *)
Theorem RemoveBranch_isolated base entry entries nodes policy c c' :
  consistent base c -> RemoveBranch entry entries nodes policy c = Value c' ->
  nodes_ (candidate c') = List.filter (fun n => negb (contains (ns_id n) nodes)) (nodes_ (candidate c)) /\
  edges_ (candidate c') = List.filter (outside nodes) (edges_ (candidate c)) /\
  (forall id, id ∈ nodes -> exists i e, i ∈ EntryEdges entry entries /\ GraphOps.FindEdge i (candidate c) = Some e /\
     (node_id (es_from e) ∉ nodes) /\ rtc (inside (candidate c) nodes) (node_id (es_to e)) id) /\
  (forall e, e ∈ edges_ (candidate c) -> contains (node_id (es_from e)) nodes <> contains (node_id (es_to e)) nodes ->
     es_id e ∈ EntryEdges entry entries).
Proof.
  intros Hc H. unfold RemoveBranch in H. destruct nodes as [|n0 nodes']; [done|]. remember (n0 :: nodes') as nodes.
  apply bind_value in H as (stack & Hst & H). destruct (List.find _ nodes) eqn:E1 in H; [done|].
  destruct (reach_exact (candidate c) nodes stack) as (r & Hr & Hreach). rewrite Hr in H.
  destruct (List.find _ nodes) eqn:E2 in H; [done|]. destruct (FindSharedDependencies _ _ _) eqn:E3; [|done].
  destruct (remove_nodes_spec _ _ _ _ _ Hc H) as [Hn He]. split; [done|]. split; [done|]. split.
  - intros id Hid. assert (Hin : id ∈ r).
    { rewrite list_elem_of_In in Hid. pose proof (List.find_none _ _ E2 _ Hid) as Hf. simpl in Hf. apply contains_spec. by apply negb_false_iff. }
    apply Hreach in Hin as (s & Hs & Hrtc). apply (check_entries_spec _ _ _ _ _ Hst) in Hs as [Hs|(i & e & Hi & Hf & <- & Ho & _)].
    + by apply not_elem_of_nil in Hs.
    + by exists i, e.
  - intros e Hin Hne. by destruct (shared_none _ _ _ e E3 Hin).
Qed.

(** ** The edges of a checked chain exist *)

Lemma check_boundary_ids chain l : forall b sh b' sh', check_boundary chain l b sh = Value (b', sh') ->
  (inbound_edge b' = inbound_edge b \/ inbound_edge b' ∈ map es_id l) /\ (outbound_edge b' = outbound_edge b \/ outbound_edge b' ∈ map es_id l).
Proof.
  induction l as [|e l IH]; intros b sh b' sh'; cbn [check_boundary map]; [intros [= -> _]; auto|]. rewrite !elem_of_cons.
  destruct (contains _ _), (contains _ _).
  - case_bool_decide; [intros [??]%IH; tauto|]. intros Hv. by apply of_status_not_value in Hv.
  - destruct (_ && _); intros [Hi Ho]%IH; simpl in *; tauto.
  - destruct (_ && _); intros [Hi Ho]%IH; simpl in *; tauto.
  - intros [??]%IH; tauto.
Qed.

(** The dereferenced lookups of [RemoveChain] always find their edge. *)
Lemma boundary_found spec chain b : CheckLinearChain spec chain = Value b ->
  has (GraphOps.FindEdge (inbound_edge b) spec) = true /\ has (GraphOps.FindEdge (outbound_edge b) spec) = true.
Proof.
  intros H. unfold CheckLinearChain in H. destruct chain as [|x chain']; [by apply of_status_not_value in H|]. follow. injection H as <-.
  match goal with H : check_boundary _ _ _ _ = _ |- _ => apply check_boundary_ids in H as [Hi Ho] end.
  match goal with H : _ || _ = false |- _ => apply orb_false_elim in H as [Ei Eo] end. simpl in Hi, Ho.
  assert (Hfind : forall id, id ∈ map es_id (edges_ spec) -> has (GraphOps.FindEdge id spec) = true).
  { intros id Hid. destruct (GraphOps.FindEdge id spec) eqn:E; [done|]. exfalso. by apply lookup_None in E. }
  destruct Hi as [Hi|Hi]; [by rewrite Hi in Ei|]. destruct Ho as [Ho|Ho]; [by rewrite Ho in Eo|]. auto.
Qed.

(** ** Examples *)

Definition mutation_base : GraphSpec :=
  run_edits (map (fun n => EAddNode (sample_node n)) ["s"; "a"; "b"; "t"; "u"] ++
    map EAddEdge [pass_edge "e1" "s" "a" false; pass_edge "e2" "a" "b" false; pass_edge "e3" "b" "t" false; pass_edge "e4" "s" "u" false])%list
    (GraphOps.make "g").
Definition mutation_patch : MutationPatch :=
  MkMutationPatch None kDrain
    [InsertChainAction "e2" [sample_node "x"; sample_node "y"] (MkChainPorts None None);
     RemoveNodeAction "b" kBypass None;
     ReplaceNodeAction "x" (MkOperatorKey "other" "2") (JObject []) None None;
     RemoveBranchAction "e4" ["u"] (Some kFast) [];
     SetNodeOptionsAction "y" (JObject [])] false.

Lemma mutation_applies : exists c, Apply pass_resolver mutation_base mutation_patch = Value c /\
  added_nodes c = ["y"; "x"] /\ removed_nodes c = ["b"; "u"] /\ removed_edges c = ["e2"; "e3"; "e4"] /\
  map es_id (edges_ (candidate c)) = ["e1"; "y.out->t.in"; "a.out->x.in"; "x.out->y.in"].
Proof. eexists. split; [vm_compute; reflexivity|]. vm_compute. split_and!; reflexivity. Qed.

Lemma Apply_consistent_witness : exists c, Apply pass_resolver mutation_base mutation_patch = Value c /\ consistent mutation_base c.
Proof.
  destruct mutation_applies as (c & H & _). exists c. split; [exact H|].
  apply (Apply_consistent pass_resolver mutation_base mutation_patch c); [|exact H]. apply run_edits_wf, wf_make.
Defined.

Lemma RemoveBranch_isolated_witness : exists c',
  RemoveBranch "e2" [] ["b"; "t"] kDrain (MkCandidate mutation_base [] [] [] [] [] [] [] []) = Value c' /\
  nodes_ (candidate c') = List.filter (fun n => negb (contains (ns_id n) ["b"; "t"])) (nodes_ mutation_base).
Proof.
  eexists. split; [vm_compute; reflexivity|].
  eapply (fun c' H1 H2 => proj1 (RemoveBranch_isolated mutation_base "e2" [] ["b"; "t"] kDrain (MkCandidate mutation_base [] [] [] [] [] [] [] []) c' H1 H2)).
  - apply consistent_start, run_edits_wf, wf_make.
  - vm_compute. reflexivity.
Defined.
