(* ===== verification/GraphDiff.v ===== *)
(** The structural difference between two graphs (src/graph_diff.cpp), from
    which the runtime decides what it reuses and what it creates anew. *)

From stdpp Require Import base numbers list strings sorting.
From Stdlib Require Import ZArith Lia Ascii String.
From S2P Require Import Prelude Types Double Json GraphSpec CapabilityTypes JsonReader CapabilityJson Negotiation.

Local Open Scope string_scope.
Local Open Scope Z_scope.

Inductive NodeChange : Type := kNodeKept | kNodeAdded | kNodeRemoved | kNodeReplaced | kNodeUpdated.
Inductive EdgeChange : Type := kEdgeKept | kEdgeAdded | kEdgeRemoved | kEdgeRecreated.

#[export] Instance NodeChange_eq_dec : EqDecision NodeChange.
Proof. solve_decision. Defined.
#[export] Instance EdgeChange_eq_dec : EqDecision EdgeChange.
Proof. solve_decision. Defined.

Definition NodeChange_ToString (c : NodeChange) : string :=
  match c with
  | kNodeKept => "kept" | kNodeAdded => "added" | kNodeRemoved => "removed"
  | kNodeReplaced => "replaced" | kNodeUpdated => "updated"
  end.
Definition EdgeChange_ToString (c : EdgeChange) : string :=
  match c with kEdgeKept => "kept" | kEdgeAdded => "added" | kEdgeRemoved => "removed" | kEdgeRecreated => "recreated" end.

Record NodeEntry : Type := MkNodeEntry { ne_change : NodeChange; ne_reason : string }.
Record EdgeEntry : Type := MkEdgeEntry { ee_change : EdgeChange; ee_reason : string }.
Record GraphDiff : Type := MkGraphDiff { diff_nodes : list (string * NodeEntry); diff_edges : list (string * EdgeEntry) }.

(** The input edges of a node: port to edge id, the last edge of a port wins. *)
Definition Inputs (spec : GraphSpec) (node : string) : list (string * string) :=
  fold_left (fun m e => if bool_decide (node_id (es_to e) = node) then SMap.set (port (es_to e)) (es_id e) m else m) (edges_ spec) [].

Definition Join (parts : list string) : string :=
  fold_left (fun out p => (out ++ (if Str.empty out then "" else ", ")) ++ p) parts "".

(** One reason when a condition holds. *)
Definition why (b : bool) (reason : string) : list string := if b then [reason] else [].

Section compute.
Context (base : GraphSpec) (base_contracts : list (string * ConnectionContract)).
Context (candidate : GraphSpec) (candidate_contracts : list (string * ConnectionContract)).

(** Nodes of both graphs with different operators. *)
Definition replaced : list string :=
  map ns_id (List.filter (fun b => match GraphOps.FindNode (ns_id b) candidate with
                                    | Some c => negb (bool_decide (ns_op b = ns_op c))
                                    | None => false
                                    end) (nodes_ base)).

Definition contract_changed (id : string) : bool :=
  match SMap.find id base_contracts, SMap.find id candidate_contracts with
  | Some b, Some c => negb (Negotiator.SameDataPlane b c)
  | _, _ => false
  end.

Definition edge_reasons (b c : EdgeSpec) : list string :=
  why (negb (bool_decide (es_from b = es_from c)) || negb (bool_decide (es_to b = es_to c))) "endpoints" ++
  why (contains (node_id (es_from c)) replaced) "producer replaced" ++
  why (contains (node_id (es_to c)) replaced) "consumer replaced" ++
  why (negb (bool_decide (es_queue b = es_queue c))) "queue" ++
  why (negb (Bool.eqb (es_feedback b) (es_feedback c))) "feedback" ++
  why (contract_changed (es_id b)) "contract".

Definition edge_entry (b : EdgeSpec) : EdgeEntry :=
  match GraphOps.FindEdge (es_id b) candidate with
  | None => MkEdgeEntry kEdgeRemoved ""
  | Some c =>
      match edge_reasons b c with
      | [] => MkEdgeEntry kEdgeKept ""
      | reasons => MkEdgeEntry kEdgeRecreated (Join reasons)
      end
  end.

Definition edge_entries : list (string * EdgeEntry) :=
  fold_left (fun m c => if has (GraphOps.FindEdge (es_id c) base) then m else SMap.set (es_id c) (MkEdgeEntry kEdgeAdded "") m)
    (edges_ candidate)
    (fold_left (fun m b => SMap.set (es_id b) (edge_entry b) m) (edges_ base) []).

Definition input_reason (bin : list (string * string)) (pe : string * string) : list string :=
  let '(p, edge) := pe in
  match SMap.find p bin with
  | None => ["input '" ++ p ++ "' added"]
  | Some old =>
      if negb (bool_decide (old = edge)) then ["input '" ++ p ++ "' rewired"]
      else match SMap.find edge edge_entries with
           | Some e => why (bool_decide (ee_change e = kEdgeRecreated)) ("input '" ++ p ++ "' recreated")
           | None => []
           end
  end.

Definition node_reasons (b c : NodeSpec) : list string :=
  let bin := Inputs base (ns_id b) in
  let cin := Inputs candidate (ns_id b) in
  why (negb (bool_decide (ns_executor b = ns_executor c))) "executor" ++
  why (negb (ns_parallelism b =? ns_parallelism c)) "parallelism" ++
  List.concat (map (input_reason bin) cin) ++
  List.concat (map (fun pe => why (negb (has (SMap.find pe.1 cin))) ("input '" ++ pe.1 ++ "' removed")) bin).

Definition node_entry (b : NodeSpec) : NodeEntry :=
  match GraphOps.FindNode (ns_id b) candidate with
  | None => MkNodeEntry kNodeRemoved ""
  | Some c =>
      if negb (bool_decide (ns_op b = ns_op c)) then
        MkNodeEntry kNodeReplaced (OperatorKeyOps.ToString (ns_op b) ++ " -> " ++ OperatorKeyOps.ToString (ns_op c))
      else match node_reasons b c with
           | [] => MkNodeEntry kNodeKept ""
           | reasons => MkNodeEntry kNodeUpdated (Join reasons)
           end
  end.

Definition node_entries : list (string * NodeEntry) :=
  fold_left (fun m c => if has (GraphOps.FindNode (ns_id c) base) then m else SMap.set (ns_id c) (MkNodeEntry kNodeAdded "") m)
    (nodes_ candidate)
    (fold_left (fun m b => SMap.set (ns_id b) (node_entry b) m) (nodes_ base) []).

Definition Compute : GraphDiff := MkGraphDiff node_entries edge_entries.

End compute.

(** ** Views *)

Definition Nodes (c : NodeChange) (d : GraphDiff) : list string :=
  map fst (List.filter (fun kv => bool_decide (ne_change kv.2 = c)) (diff_nodes d)).
Definition Edges (c : EdgeChange) (d : GraphDiff) : list string :=
  map fst (List.filter (fun kv => bool_decide (ee_change kv.2 = c)) (diff_edges d)).
Definition ReusedNodes (d : GraphDiff) : list string :=
  map fst (List.filter (fun kv => bool_decide (ne_change kv.2 = kNodeKept) || bool_decide (ne_change kv.2 = kNodeUpdated)) (diff_nodes d)).
Definition ReusedEdges (d : GraphDiff) : list string := Edges kEdgeKept d.
Definition Empty (d : GraphDiff) : bool :=
  forallb (fun kv => bool_decide (ne_change kv.2 = kNodeKept)) (diff_nodes d) &&
  forallb (fun kv => bool_decide (ee_change kv.2 = kEdgeKept)) (diff_edges d).

(** The JSON of one changed entry. *)
Definition change_json (change reason : string) : json :=
  JObject (SMap.set "change" (JString change) (if Str.empty reason then [] else [("reason", JString reason)])).
Definition DiffJson (d : GraphDiff) : json :=
  let ns := omap (fun kv => if bool_decide (ne_change kv.2 = kNodeKept) then None
                            else Some (kv.1, change_json (NodeChange_ToString (ne_change kv.2)) (ne_reason kv.2))) (diff_nodes d) in
  let es := omap (fun kv => if bool_decide (ee_change kv.2 = kEdgeKept) then None
                            else Some (kv.1, change_json (EdgeChange_ToString (ee_change kv.2)) (ee_reason kv.2))) (diff_edges d) in
  JObject [("edges", JObject es); ("nodes", JObject ns)].
