(* ===== verification/GraphDiffProofs.v ===== *)
(** The classification of a diff is exact, what it keeps can be kept, and it
    agrees with the books of the patch that made the candidate. *)

From stdpp Require Import base numbers list strings sorting sets relations.
From Stdlib Require Import ZArith Lia Ascii String.
From S2P Require Import Prelude Types Double Json JsonParser GraphSpec GraphSpecProofs CapabilityTypes JsonReader CapabilityJson Negotiation NegotiationProofs GraphValidator ValidatorProofs MutationApplier MutationProofs GraphDiff.

Local Open Scope string_scope.
Local Open Scope Z_scope.

(** ** The tables of a diff *)

Section table.
Context {A E : Type} (key : A -> string) (entry : A -> E) (added : E).

Local Abbreviation lookup i l := (List.find (fun x => bool_decide (key x = i)) l).

Lemma find_fold_set (l : list A) id : forall m,
  NoDup (key <$> l) ->
  SMap.find id (fold_left (fun m x => SMap.set (key x) (entry x) m) l m) =
    match lookup id l with Some x => Some (entry x) | None => SMap.find id m end.
Proof.
  induction l as [|x l IH]; intros m; simpl; [done|]. intros [Hx Hl]%NoDup_cons. rewrite IH by done. rewrite SMap.find_set.
  case_bool_decide as E1.
  - subst id. rewrite decide_True by done. rewrite (proj2 (lookup_None key (key x) l) Hx). done.
  - by rewrite decide_False.
Qed.

Lemma find_fold_added (base l : list A) id : forall m,
  SMap.find id (fold_left (fun m x => if has (lookup (key x) base) then m else SMap.set (key x) added m) l m) =
    match lookup id base, lookup id l with None, Some _ => Some added | _, _ => SMap.find id m end.
Proof.
  induction l as [|x l IH]; intros m; simpl; [by destruct (lookup id base)|]. rewrite IH. case_bool_decide as E1.
  - subst id. destruct (lookup (key x) base) as [b|] eqn:Eb; simpl; [done|]. destruct (lookup (key x) l); [done|].
    by rewrite SMap.find_set_eq.
  - destruct (has (lookup (key x) base)); [done|]. by rewrite SMap.find_set_ne.
Qed.

Lemma diff_table (base cand : list A) id :
  NoDup (key <$> base) ->
  SMap.find id (fold_left (fun m x => if has (lookup (key x) base) then m else SMap.set (key x) added m) cand
    (fold_left (fun m x => SMap.set (key x) (entry x) m) base [])) =
  match lookup id base, lookup id cand with
  | Some b, _ => Some (entry b)
  | None, Some _ => Some added
  | None, None => None
  end.
Proof.
  intros Hn. rewrite find_fold_added, find_fold_set by done. by destruct (lookup id base), (lookup id cand).
Qed.

End table.

(** ** Edges *)

Section diff.
Context (base : GraphSpec) (bc : list (string * ConnectionContract)) (cand : GraphSpec) (cc : list (string * ConnectionContract)).
Hypothesis base_wf : wf base.

Definition edge_change (id : string) : option EdgeChange := ee_change <$> SMap.find id (diff_edges (Compute base bc cand cc)).
Definition node_change (id : string) : option NodeChange := ne_change <$> SMap.find id (diff_nodes (Compute base bc cand cc)).

(** The node exists on both sides with different operators. *)
Definition swapped (id : string) : Prop :=
  exists b c, GraphOps.FindNode id base = Some b /\ GraphOps.FindNode id cand = Some c /\ ns_op b <> ns_op c.

(** An edge whose channel can be carried over. *)
Record edge_same (b c : EdgeSpec) : Prop := {
  sm_from : es_from b = es_from c;
  sm_to : es_to b = es_to c;
  sm_producer : ~ swapped (node_id (es_from c));
  sm_consumer : ~ swapped (node_id (es_to c));
  sm_queue : es_queue b = es_queue c;
  sm_feedback : es_feedback b = es_feedback c;
  sm_contract : forall x y, SMap.find (es_id b) bc = Some x -> SMap.find (es_id b) cc = Some y -> Negotiator.SameDataPlane x y = true;
}.

Lemma find_edge_entry id :
  SMap.find id (diff_edges (Compute base bc cand cc)) =
  match GraphOps.FindEdge id base, GraphOps.FindEdge id cand with
  | Some b, _ => Some (edge_entry base bc cand cc b)
  | None, Some _ => Some (MkEdgeEntry kEdgeAdded "")
  | None, None => None
  end.
Proof. apply (diff_table es_id). apply base_wf. Qed.

Lemma find_node_entry id :
  SMap.find id (diff_nodes (Compute base bc cand cc)) =
  match GraphOps.FindNode id base, GraphOps.FindNode id cand with
  | Some b, _ => Some (node_entry base bc cand cc b)
  | None, Some _ => Some (MkNodeEntry kNodeAdded "")
  | None, None => None
  end.
Proof. apply (diff_table ns_id). apply base_wf. Qed.

Lemma why_nil b r : why b r = [] <-> b = false.
Proof. by destruct b. Qed.

Lemma replaced_spec id : contains id (replaced base cand) = false <-> ~ swapped id.
Proof.
  rewrite <- not_true_iff_false, contains_spec. apply not_iff_compat. unfold replaced, swapped. rewrite list_elem_of_In, in_map_iff.
  setoid_rewrite filter_In. split.
  - intros (b & <- & Hb & Hc). destruct (GraphOps.FindNode (ns_id b) cand) as [c|] eqn:Ec; [|done].
    destruct (GraphOps.FindNode (ns_id b) base) as [b'|] eqn:Eb.
    + apply lookup_Some in Eb as [Hb' Eb]. rewrite <- list_elem_of_In in Hb.
      rewrite (NoDup_fmap_key ns_id (nodes_ base) b' b) by (done || apply base_wf). exists b, c. split; [done|]. split; [done|].
      apply negb_true_iff in Hc. by apply bool_decide_eq_false in Hc.
    + apply lookup_None in Eb. exfalso. apply Eb. apply list_elem_of_fmap_2. by apply list_elem_of_In.
  - intros (b & c & Hb & Hc & Hne). apply lookup_Some in Hb as [Hb <-]. exists b. split; [done|].
    rewrite <- list_elem_of_In. split; [done|]. rewrite Hc. by rewrite bool_decide_false.
Qed.

Lemma edge_reasons_nil b c : edge_reasons base bc cand cc b c = [] <-> edge_same b c.
Proof.
  unfold edge_reasons, contract_changed. split.
  - intros [H1%why_nil [H2%why_nil [H3%why_nil [H4%why_nil [H5%why_nil H6%why_nil]%app_eq_nil]%app_eq_nil]%app_eq_nil]%app_eq_nil]%app_eq_nil.
    apply orb_false_elim in H1 as [H1 H1']. rewrite negb_false_iff in *. apply bool_decide_eq_true in H1, H1', H4. apply Bool.eqb_prop in H5.
    rewrite replaced_spec in H2, H3. split; try done. intros x y Hx Hy. rewrite Hx, Hy in H6. by apply negb_false_iff.
  - intros [H1 H2 H3 H4 H5 H6 H7]. apply replaced_spec in H3, H4. rewrite H3, H4, H1, H2, H5, H6. rewrite !bool_decide_true by done.
    rewrite Bool.eqb_reflx. simpl. destruct (SMap.find (es_id b) bc) as [x|], (SMap.find (es_id b) cc) as [y|]; try done. by rewrite (H7 x y).
Qed.

(** An edge is kept exactly when nothing about its channel changed. *)
Lemma edge_kept_iff id :
  edge_change id = Some kEdgeKept <->
  exists b c, GraphOps.FindEdge id base = Some b /\ GraphOps.FindEdge id cand = Some c /\ edge_same b c.
Proof.
  unfold edge_change. rewrite find_edge_entry. destruct (GraphOps.FindEdge id base) as [b|] eqn:Eb.
  - assert (Hid : es_id b = id) by (by apply lookup_Some in Eb as [_ ?]). unfold edge_entry. rewrite Hid. simpl.
    destruct (GraphOps.FindEdge id cand) as [c|]; simpl.
    + pose proof (edge_reasons_nil b c) as Hr. destruct (edge_reasons base bc cand cc b c) as [|r rs]; simpl.
      * split; [intros _; exists b, c; by rewrite <- Hr|done].
      * split; [done|]. intros (b' & c' & [= <-] & [= <-] & Hs). by apply Hr in Hs.
    + split; [done|]. by intros (b' & c' & _ & ? & _).
  - destruct (GraphOps.FindEdge id cand); (split; [done|by intros (b' & c' & ? & _)]).
Qed.

Lemma edge_both id b c : GraphOps.FindEdge id base = Some b -> GraphOps.FindEdge id cand = Some c ->
  edge_change id = Some kEdgeKept \/ edge_change id = Some kEdgeRecreated.
Proof.
  intros Hb Hc. unfold edge_change. rewrite find_edge_entry, Hb. unfold edge_entry. apply lookup_Some in Hb as [_ ->].
  rewrite Hc. simpl. destruct (edge_reasons base bc cand cc b c); auto.
Qed.

(** ** Nodes *)

Definition into (spec : GraphSpec) (node p : string) : list EdgeSpec :=
  List.filter (fun e => bool_decide (es_to e = MkPortRef node p)) (edges_ spec).

Lemma find_Inputs spec node p : SMap.find p (Inputs spec node) = es_id <$> last (into spec node p).
Proof.
  unfold Inputs, into. induction (edges_ spec) as [|e l IH] using rev_ind; [done|]. rewrite fold_left_app, List.filter_app. simpl.
  destruct e as [i f [n q] qu sy fb]. simpl in *. case_bool_decide as E1.
  - subst n. rewrite SMap.find_set. destruct (decide (q = p)) as [->|Hne].
    + rewrite bool_decide_true by done. by rewrite last_snoc.
    + rewrite bool_decide_false by congruence. by rewrite app_nil_r.
  - rewrite bool_decide_false by congruence. by rewrite app_nil_r.
Qed.

Lemma Inputs_sorted spec node : SMap.sorted (Inputs spec node).
Proof.
  unfold Inputs. assert (H : forall l m, SMap.sorted m -> SMap.sorted (fold_left (fun m e =>
    if bool_decide (node_id (es_to e) = node) then SMap.set (port (es_to e)) (es_id e) m else m) l m)).
  { induction l as [|e l IH]; intros m Hm; simpl; [done|]. apply IH. case_bool_decide; [by apply SMap.set_sorted|done]. }
  apply H. constructor.
Qed.

(** What [node_reasons] compares. *)
Record same_inputs (b c : NodeSpec) : Prop := {
  si_executor : ns_executor b = ns_executor c;
  si_parallelism : ns_parallelism b = ns_parallelism c;
  si_inputs : forall p, SMap.find p (Inputs base (ns_id b)) = SMap.find p (Inputs cand (ns_id b));
  si_channels : forall p edge, SMap.find p (Inputs cand (ns_id b)) = Some edge -> edge_change edge <> Some kEdgeRecreated;
}.

(** A node whose runtime and input binding are carried over as they are: for
    every port, the edge that comes last among those into it is the same edge
    in both graphs, and it is not created anew. *)
Record node_same (b c : NodeSpec) : Prop := {
  nm_op : ns_op b = ns_op c;
  nm_executor : ns_executor b = ns_executor c;
  nm_parallelism : ns_parallelism b = ns_parallelism c;
  nm_inputs : forall p, es_id <$> last (into base (ns_id b) p) = es_id <$> last (into cand (ns_id b) p);
  nm_channels : forall p e, last (into cand (ns_id b) p) = Some e -> edge_change (es_id e) <> Some kEdgeRecreated;
}.

Lemma node_same_inputs b c : ns_op b = ns_op c -> same_inputs b c <-> node_same b c.
Proof.
  intros Hop. split.
  - intros [H1 H2 H3 H4]. split; try done; [intros p; by rewrite <- !find_Inputs|]. intros p e He. apply (H4 p). by rewrite find_Inputs, He.
  - intros [_ H1 H2 H3 H4]. split; try done; [intros p; by rewrite !find_Inputs|].
    intros p edge He. rewrite find_Inputs in He. apply fmap_Some in He as (e & He & ->). by eapply H4.
Qed.

Lemma concat_nil {X Y} (f : X -> list Y) l : List.concat (map f l) = [] <-> Forall (fun x => f x = []) l.
Proof.
  induction l as [|x l IH]; simpl; [done|]. rewrite Forall_cons, <- IH. split; [apply app_eq_nil|by intros [-> ->]].
Qed.

Lemma node_reasons_nil b c : node_reasons base bc cand cc b c = [] <-> same_inputs b c.
Proof.
  unfold node_reasons. cbv zeta. pose proof (Inputs_sorted base (ns_id b)) as Sb. pose proof (Inputs_sorted cand (ns_id b)) as Sc.
  set (bin := Inputs base (ns_id b)) in *. set (cin := Inputs cand (ns_id b)) in *. split.
  - intros [H1%why_nil [H2%why_nil [H3%concat_nil H4%concat_nil]%app_eq_nil]%app_eq_nil]%app_eq_nil.
    apply negb_false_iff in H1, H2. apply bool_decide_eq_true in H1. apply Z.eqb_eq in H2. rewrite Forall_forall in H3, H4.
    assert (Hcin : forall p edge, SMap.find p cin = Some edge -> SMap.find p bin = Some edge /\ edge_change edge <> Some kEdgeRecreated).
    { intros p edge Hf. pose proof Hf as Hin%SMap.find_In. specialize (H3 (p, edge) (proj2 (list_elem_of_In _ _) Hin)). simpl in H3.
      destruct (SMap.find p bin) as [old|] eqn:Eb; [|done]. destruct (bool_decide (old = edge)) eqn:Eo; [|done].
      apply bool_decide_eq_true in Eo. subst old. split; [done|]. unfold edge_change. simpl in *.
      destruct (SMap.find edge (edge_entries base bc cand cc)) as [en|]; [|done]. simpl. apply why_nil, bool_decide_eq_false in H3. congruence. }
    split; try done; [|by intros p edge Hf; apply Hcin in Hf as [_ ?]].
    intros p. fold bin. fold cin. destruct (SMap.find p cin) as [edge|] eqn:Ec; [by apply Hcin in Ec as [? _]|].
    destruct (SMap.find p bin) as [old|] eqn:Eb; [|done]. exfalso. apply SMap.find_In, list_elem_of_In in Eb.
    specialize (H4 _ Eb). simpl in H4. by rewrite Ec in H4.
  - intros [H2 H3 H4 H5]. rewrite H2, H3, bool_decide_true, Z.eqb_refl by done. simpl.
    assert (E1 : List.concat (map (input_reason base bc cand cc bin) cin) = []).
    { apply concat_nil, Forall_forall. intros [p edge] Hin%list_elem_of_In. apply SMap.sorted_In_find in Hin; [|done]. simpl.
      rewrite (H4 p : SMap.find p bin = _). fold cin. rewrite Hin. rewrite bool_decide_true by done. simpl.
      specialize (H5 p edge Hin). unfold edge_change in H5. simpl in H5. destruct (SMap.find edge _) as [en|]; [|done].
      apply why_nil, bool_decide_eq_false. intros E. apply H5. simpl. by rewrite E. }
    rewrite E1. simpl. apply concat_nil, Forall_forall. intros [p edge] Hin%list_elem_of_In. apply SMap.sorted_In_find in Hin; [|done]. simpl.
    apply why_nil. specialize (H4 p). fold bin in H4. fold cin in H4. rewrite <- H4, Hin. done.
Qed.

Lemma node_kept_iff id :
  node_change id = Some kNodeKept <->
  exists b c, GraphOps.FindNode id base = Some b /\ GraphOps.FindNode id cand = Some c /\ node_same b c.
Proof.
  unfold node_change. rewrite find_node_entry. destruct (GraphOps.FindNode id base) as [b|] eqn:Eb.
  - assert (Hid : ns_id b = id) by (by apply lookup_Some in Eb as [_ ?]). unfold node_entry. rewrite Hid. simpl.
    destruct (GraphOps.FindNode id cand) as [c|]; simpl; [|split; [done|by intros (b' & c' & _ & ? & _)]].
    case_bool_decide as Eo; simpl.
    + pose proof (node_reasons_nil b c) as Hr. rewrite node_same_inputs in Hr by done. destruct (node_reasons base bc cand cc b c) as [|r rs]; simpl.
      * split; [intros _; exists b, c; by rewrite <- Hr|done].
      * split; [done|]. intros (b' & c' & [= <-] & [= <-] & Hs). by apply Hr in Hs.
    + split; [done|]. intros (b' & c' & [= <-] & [= <-] & Hs). by destruct Hs.
  - destruct (GraphOps.FindNode id cand); (split; [done|by intros (b' & c' & ? & _)]).
Qed.

End diff.

(** ** The classification *)

Lemma edge_others base bc cand cc id : wf base ->
  (edge_change base bc cand cc id = Some kEdgeAdded <-> GraphOps.FindEdge id base = None /\ GraphOps.FindEdge id cand <> None) /\
  (edge_change base bc cand cc id = Some kEdgeRemoved <-> GraphOps.FindEdge id base <> None /\ GraphOps.FindEdge id cand = None).
Proof.
  intros Hw. unfold edge_change. rewrite find_edge_entry by done. destruct (GraphOps.FindEdge id base) as [b|] eqn:Eb.
  - unfold edge_entry. apply lookup_Some in Eb as [_ ->]. destruct (GraphOps.FindEdge id cand) as [c|]; simpl; [|naive_solver].
    destruct (edge_reasons base bc cand cc b c); naive_solver.
  - destruct (GraphOps.FindEdge id cand); naive_solver.
Qed.

Lemma node_others base bc cand cc id : wf base ->
  (node_change base bc cand cc id = Some kNodeAdded <-> GraphOps.FindNode id base = None /\ GraphOps.FindNode id cand <> None) /\
  (node_change base bc cand cc id = Some kNodeRemoved <-> GraphOps.FindNode id base <> None /\ GraphOps.FindNode id cand = None) /\
  (node_change base bc cand cc id = Some kNodeReplaced <-> swapped base cand id).
Proof.
  intros Hw. unfold node_change, swapped. rewrite find_node_entry by done. destruct (GraphOps.FindNode id base) as [b|] eqn:Eb.
  - unfold node_entry. apply lookup_Some in Eb as [_ ->]. destruct (GraphOps.FindNode id cand) as [c|]; simpl; [|naive_solver].
    case_bool_decide; simpl; [|naive_solver]. destruct (node_reasons base bc cand cc b c); naive_solver.
  - destruct (GraphOps.FindNode id cand); naive_solver.
Qed.

(** The two remaining classes: an element of both graphs that is not the same. *)
Lemma edge_recreated base bc cand cc id : wf base ->
  edge_change base bc cand cc id = Some kEdgeRecreated <->
  exists b c, GraphOps.FindEdge id base = Some b /\ GraphOps.FindEdge id cand = Some c /\ ~ edge_same base bc cand cc b c.
Proof.
  intros Hw. pose proof (edge_kept_iff base bc cand cc Hw id) as Hk. split.
  - intros H. destruct (edge_others base bc cand cc id Hw) as [Ha Hr].
    destruct (GraphOps.FindEdge id base) as [b|] eqn:Eb; [|destruct (GraphOps.FindEdge id cand) eqn:Ec].
    + destruct (GraphOps.FindEdge id cand) as [c|] eqn:Ec; [|by rewrite (proj2 Hr) in H].
      exists b, c. split_and!; [done..|]. intros Hs. by rewrite (proj2 Hk) in H by eauto.
    + by rewrite (proj2 Ha) in H.
    + unfold edge_change in H. by rewrite find_edge_entry, Eb, Ec in H by done.
  - intros (b & c & Hb & Hc & Hn). destruct (edge_both base bc cand cc Hw id b c Hb Hc) as [H|H]; [|done].
    apply Hk in H as (b' & c' & Hb' & Hc' & Hs). by simplify_eq.
Qed.

Lemma node_updated base bc cand cc id : wf base ->
  node_change base bc cand cc id = Some kNodeUpdated <->
  exists b c, GraphOps.FindNode id base = Some b /\ GraphOps.FindNode id cand = Some c /\ ns_op b = ns_op c /\ ~ node_same base bc cand cc b c.
Proof.
  intros Hw. unfold node_change. rewrite find_node_entry by done. destruct (GraphOps.FindNode id base) as [b|] eqn:Eb.
  - unfold node_entry. apply lookup_Some in Eb as [_ ->]. destruct (GraphOps.FindNode id cand) as [c|]; simpl; [|naive_solver].
    case_bool_decide as Eo; simpl; [|naive_solver]. pose proof (node_reasons_nil base bc cand cc b c) as Hr. rewrite node_same_inputs in Hr by done.
    destruct (node_reasons base bc cand cc b c); naive_solver.
  - destruct (GraphOps.FindNode id cand); naive_solver.
Qed.

(** ** Nodes with one edge per input port *)

Definition single_at (spec : GraphSpec) (node : string) : Prop := forall p, (List.length (into spec node p) <= 1)%nat.

Lemma single_last spec e : single_at spec (node_id (es_to e)) -> e ∈ edges_ spec -> last (into spec (node_id (es_to e)) (port (es_to e))) = Some e.
Proof.
  intros Hs Hin. assert (He : e ∈ into spec (node_id (es_to e)) (port (es_to e))).
  { apply elem_of_filter. split; [done|]. apply bool_decide_eq_true. by destruct (es_to e). }
  specialize (Hs (port (es_to e))). destruct (into _ _ _) as [|x [|y l]]; simpl in Hs; [by apply not_elem_of_nil in He| |lia].
  apply list_elem_of_singleton in He. by subst x.
Qed.

Lemma last_into spec node p e : last (into spec node p) = Some e -> e ∈ edges_ spec /\ es_to e = MkPortRef node p.
Proof. intros He%last_Some_elem_of. apply elem_of_filter in He as [He Hp]. by apply bool_decide_eq_true in Hp. Qed.

Lemma listed_edge spec e : e ∈ edges_ spec -> GraphOps.FindEdge (es_id e) spec <> None.
Proof. intros He Hn%lookup_None. by apply Hn, list_elem_of_fmap_2. Qed.
Lemma found_edge spec e : wf spec -> e ∈ edges_ spec -> GraphOps.FindEdge (es_id e) spec = Some e.
Proof.
  intros Hw He. destruct (GraphOps.FindEdge (es_id e) spec) as [x|] eqn:E; [|by apply listed_edge in He].
  apply lookup_Some in E as [Hx Ex]. f_equal. by apply (NoDup_fmap_key es_id (edges_ spec)); [apply wf_edge_ids| | |].
Qed.

(** The edges into a node, of either graph. *)
Definition edge_into (base cand : GraphSpec) (id : string) (e : EdgeSpec) : Prop :=
  (e ∈ edges_ base \/ e ∈ edges_ cand) /\ node_id (es_to e) = id.

(** Same configuration, and every edge into the node carried over. *)
Definition node_carried (base : GraphSpec) (bc : list (string * ConnectionContract)) (cand : GraphSpec) (cc : list (string * ConnectionContract))
    (b c : NodeSpec) : Prop :=
  ns_op b = ns_op c /\ ns_executor b = ns_executor c /\ ns_parallelism b = ns_parallelism c /\
  forall e, edge_into base cand (ns_id b) e -> edge_change base bc cand cc (es_id e) = Some kEdgeKept.

Lemma same_carried base bc cand cc b c :
  wf base -> single_at base (ns_id b) -> single_at cand (ns_id b) -> node_same base bc cand cc b c -> node_carried base bc cand cc b c.
Proof.
  intros Hw Sb Sc [H1 H2 H3 Hin Hch]. split_and!; [done..|]. intros e [He Hid]. rewrite <- Hid in *. specialize (Hin (port (es_to e))).
  assert (Hboth : exists x y, x ∈ edges_ base /\ y ∈ edges_ cand /\ es_id x = es_id e /\ es_id y = es_id e /\
            last (into cand (node_id (es_to e)) (port (es_to e))) = Some y).
  { destruct He as [He|He].
    - rewrite (single_last base e Sb He) in Hin. symmetry in Hin. apply fmap_Some in Hin as (y & Hy & E).
      exists e, y. split_and!; try done. by apply last_into in Hy as [??].
    - rewrite (single_last cand e Sc He) in Hin. apply fmap_Some in Hin as (x & Hx & E). exists x, e.
      split_and!; try done; [by apply last_into in Hx as [??]|by apply single_last]. }
  destruct Hboth as (x & y & Hx & Hy & Ex & Ey & Hl). specialize (Hch _ _ Hl). rewrite Ey in Hch. apply listed_edge in Hx, Hy. rewrite Ex in Hx. rewrite Ey in Hy.
  destruct (GraphOps.FindEdge (es_id e) base) as [u|] eqn:Eu; [|done]. destruct (GraphOps.FindEdge (es_id e) cand) as [v|] eqn:Ev; [|done].
  by destruct (edge_both base bc cand cc Hw _ _ _ Eu Ev).
Qed.

Lemma carried_last base bc cand cc b c p e : wf base -> wf cand -> single_at base (ns_id b) -> single_at cand (ns_id b) ->
  node_carried base bc cand cc b c ->
  (last (into base (ns_id b) p) = Some e -> exists e', last (into cand (ns_id b) p) = Some e' /\ es_id e' = es_id e) /\
  (last (into cand (ns_id b) p) = Some e -> exists e', last (into base (ns_id b) p) = Some e' /\ es_id e' = es_id e).
Proof.
  intros Hw Hc Sb Sc (_ & _ & _ & Hk). split; intros He; pose proof (last_into _ _ _ _ He) as [Hin Hto].
  - destruct (edge_kept_iff base bc cand cc Hw (es_id e)) as [(x & y & Hx & Hy & Hs) _]; [apply Hk; split; [by left|by rewrite Hto]|].
    rewrite (found_edge base e Hw Hin) in Hx. injection Hx as <-. apply lookup_Some in Hy as [Hy Ey]. exists y. split; [|done].
    assert (Ht : es_to y = MkPortRef (ns_id b) p) by (rewrite <- Hto; symmetry; apply Hs).
    pose proof (single_last cand y) as H. rewrite Ht in H. by apply H.
  - destruct (edge_kept_iff base bc cand cc Hw (es_id e)) as [(x & y & Hx & Hy & Hs) _]; [apply Hk; split; [by right|by rewrite Hto]|].
    rewrite (found_edge cand e Hc Hin) in Hy. injection Hy as <-. apply lookup_Some in Hx as [Hx Ex]. exists x. split; [|done].
    assert (Ht : es_to x = MkPortRef (ns_id b) p) by (rewrite <- Hto; apply Hs).
    pose proof (single_last base x) as H. rewrite Ht in H. by apply H.
Qed.

Lemma carried_same base bc cand cc b c : wf base -> wf cand -> single_at base (ns_id b) -> single_at cand (ns_id b) ->
  node_carried base bc cand cc b c -> node_same base bc cand cc b c.
Proof.
  intros Hw Hc Sb Sc Hk. pose proof Hk as (H1 & H2 & H3 & H4).
  pose proof (fun p e => carried_last base bc cand cc b c p e Hw Hc Sb Sc Hk) as Hl. split; [done..| |].
  - intros p. destruct (last (into base (ns_id b) p)) as [e|] eqn:Eb.
    + destruct (proj1 (Hl p e) Eb) as (e' & -> & E). simpl. by rewrite E.
    + destruct (last (into cand (ns_id b) p)) as [e|] eqn:Ec; [|done]. destruct (proj2 (Hl p e) Ec) as (e' & E & _). congruence.
  - intros p e He. apply last_into in He as [Hin Hto]. rewrite (H4 e); [done|]. split; [by right|by rewrite Hto].
Qed.

(** C18: the diff classifies exactly. Nodes and edges are added or removed when
    only one side has them; a node is replaced when its operator differs; an
    edge of both sides is kept precisely when ends, queue, feedback flag and
    the data plane of its contract are the same and neither end was replaced,
    and recreated otherwise. A node of both sides with the same operator is
    kept precisely when executor and parallelism are the same, the last edge of
    every input port is the same and none of these last edges is created anew,
    and updated otherwise. For a node with at most one edge per input port in
    either graph this is the intended meaning: it is kept exactly when its
    configuration is the same and every edge into it, old or new, is kept. On
    a port with several edges the earlier ones do not count, and a node that
    lost one is still reported as kept ([lost_input_kept]). *)
Theorem Compute_exact base bc cand cc id : wf base ->
  ((edge_change base bc cand cc id = Some kEdgeKept <->
     exists b c, GraphOps.FindEdge id base = Some b /\ GraphOps.FindEdge id cand = Some c /\ edge_same base bc cand cc b c) /\
   (edge_change base bc cand cc id = Some kEdgeRecreated <->
     exists b c, GraphOps.FindEdge id base = Some b /\ GraphOps.FindEdge id cand = Some c /\ ~ edge_same base bc cand cc b c) /\
   (edge_change base bc cand cc id = Some kEdgeAdded <-> GraphOps.FindEdge id base = None /\ GraphOps.FindEdge id cand <> None) /\
   (edge_change base bc cand cc id = Some kEdgeRemoved <-> GraphOps.FindEdge id base <> None /\ GraphOps.FindEdge id cand = None)) /\
  ((node_change base bc cand cc id = Some kNodeKept <->
     exists b c, GraphOps.FindNode id base = Some b /\ GraphOps.FindNode id cand = Some c /\ node_same base bc cand cc b c) /\
   (node_change base bc cand cc id = Some kNodeUpdated <->
     exists b c, GraphOps.FindNode id base = Some b /\ GraphOps.FindNode id cand = Some c /\ ns_op b = ns_op c /\ ~ node_same base bc cand cc b c) /\
   (node_change base bc cand cc id = Some kNodeAdded <-> GraphOps.FindNode id base = None /\ GraphOps.FindNode id cand <> None) /\
   (node_change base bc cand cc id = Some kNodeRemoved <-> GraphOps.FindNode id base <> None /\ GraphOps.FindNode id cand = None) /\
   (node_change base bc cand cc id = Some kNodeReplaced <-> swapped base cand id)) /\
  (wf cand -> single_at base id -> single_at cand id ->
     (node_change base bc cand cc id = Some kNodeKept <->
        exists b c, GraphOps.FindNode id base = Some b /\ GraphOps.FindNode id cand = Some c /\ node_carried base bc cand cc b c)).
Proof.
  intros Hw. split; [split; [by apply edge_kept_iff|split; [by apply edge_recreated|by apply edge_others]]|].
  split; [split; [by apply node_kept_iff|split; [by apply node_updated|by apply node_others]]|].
  intros Hc Sb Sc. rewrite node_kept_iff by done.
  split; intros (b & c & Hb & Hcn & Hs); exists b, c; (split; [done|]; split; [done|]); apply lookup_Some in Hb as [_ Hid]; rewrite <- Hid in Sb, Sc.
  - by apply same_carried.
  - by apply carried_same.
Qed.

(** Two graphs that differ in the flag of the second edge. *)
Definition three_nodes (edges : list EdgeSpec) : GraphSpec :=
  run_edits (map (fun n => EAddNode (sample_node n)) ["s"; "a"; "t"] ++ map EAddEdge edges)%list (GraphOps.make "g").
Definition kept_base : GraphSpec := three_nodes [pass_edge "e1" "s" "a" false; pass_edge "e2" "a" "t" false].
Definition kept_cand : GraphSpec := three_nodes [pass_edge "e1" "s" "a" false; pass_edge "e2" "a" "t" true].

Lemma kept_single b : single_at (three_nodes [pass_edge "e1" "s" "a" false; pass_edge "e2" "a" "t" b]) "a".
Proof.
  intros p. unfold into. change (edges_ _) with [pass_edge "e1" "s" "a" false; pass_edge "e2" "a" "t" b]. cbn [List.filter].
  do 2 case_bool_decide; simpl; try lia. simpl in *; congruence.
Qed.

(** The middle node is kept, and so is the edge into it; the second edge is
    recreated and its consumer, whose port still has the edge of that name, is
    updated. *)
Lemma Compute_exact_witness :
  node_change kept_base [] kept_cand [] "a" = Some kNodeKept /\
  (exists b c, GraphOps.FindNode "a" kept_base = Some b /\ GraphOps.FindNode "a" kept_cand = Some c /\ node_carried kept_base [] kept_cand [] b c) /\
  edge_change kept_base [] kept_cand [] "e2" = Some kEdgeRecreated /\
  (exists b c, GraphOps.FindEdge "e2" kept_base = Some b /\ GraphOps.FindEdge "e2" kept_cand = Some c /\ ~ edge_same kept_base [] kept_cand [] b c) /\
  node_change kept_base [] kept_cand [] "t" = Some kNodeUpdated /\
  (exists b c, GraphOps.FindNode "t" kept_base = Some b /\ GraphOps.FindNode "t" kept_cand = Some c /\ ns_op b = ns_op c /\
     ~ node_same kept_base [] kept_cand [] b c).
Proof.
  pose proof (fun id => Compute_exact kept_base [] kept_cand [] id (run_edits_wf _ _ (wf_make "g"))) as H.
  assert (Ea : node_change kept_base [] kept_cand [] "a" = Some kNodeKept) by (vm_compute; reflexivity).
  assert (Ee : edge_change kept_base [] kept_cand [] "e2" = Some kEdgeRecreated) by (vm_compute; reflexivity).
  assert (Et : node_change kept_base [] kept_cand [] "t" = Some kNodeUpdated) by (vm_compute; reflexivity).
  split_and!; [done| |done| |done|].
  - destruct (H "a") as (_ & _ & Hk). apply Hk; [apply run_edits_wf, wf_make|apply kept_single|apply kept_single|done].
  - destruct (H "e2") as ((_ & He & _) & _). by apply He.
  - destruct (H "t") as (_ & (_ & Hn & _) & _). by apply Hn.
Defined.

(** With two edges into one port the classification sees only the last one: a
    node that lost an input edge is still reported as kept. *)
Example lost_input_kept :
  let base := three_nodes [pass_edge "e1" "s" "t" false; pass_edge "e2" "a" "t" false] in
  let cand := three_nodes [pass_edge "e2" "a" "t" false] in
  node_change base [] cand [] "t" = Some kNodeKept /\ edge_change base [] cand [] "e1" = Some kEdgeRemoved.
Proof. vm_compute. split; reflexivity. Qed.

(** ** A diff and the patch it comes from *)

Section patch.
Context {A : Type} (key : A -> string) (base cur : list A) (added removed touched : list string).
Hypothesis books : book key base cur added removed touched.

Local Abbreviation lookup i l := (List.find (fun x => bool_decide (key x = i)) l).

Lemma book_new id : lookup id base = None -> lookup id cur <> None -> id ∈ added.
Proof.
  destruct books as [_ _ _ _ _ _ Hk _]. rewrite lookup_None. intros Hb Hc. destruct (lookup id cur) as [x|] eqn:E; [|done].
  apply lookup_Some in E as [Hx <-]. destruct (decide (key x ∈ added)) as [|Hn]; [done|]. exfalso. by apply Hb, list_elem_of_fmap_2, Hk.
Qed.
Lemma book_gone id : lookup id base <> None -> lookup id cur = None -> id ∈ removed.
Proof.
  destruct books as [Hp _ Hpr _ _ _ _ _]. intros Hb Hc%lookup_None. destruct (lookup id base) as [x|] eqn:E; [|done].
  apply lookup_Some in E as [Hx <-]. assert (Hin : key x ∈ ((key <$> cur) ++ removed)%list) by (rewrite Hp; apply elem_of_app; left; by apply list_elem_of_fmap_2).
  by apply elem_of_app in Hin as [?|?].
Qed.
Lemma book_changed id b c : NoDup (key <$> base) -> NoDup (key <$> cur) -> lookup id base = Some b -> lookup id cur = Some c -> b <> c -> id ∈ added /\ id ∈ removed.
Proof.
  destruct books as [Hp Hd Hpr Ho Hw Ha Hk _]. intros Hn Hn' [Hb Eb]%lookup_Some [Hc Ec]%lookup_Some Hne.
  assert (Hadd : id ∈ added).
  { destruct (decide (id ∈ added)) as [|Hna]; [done|]. exfalso. apply Hne. subst id.
    apply (NoDup_fmap_key key base); [done|done| |congruence]. apply Hk; [done|by rewrite Ec]. }
  split; [done|]. destruct (decide (id ∈ removed)) as [|Hnr]; [done|]. exfalso.
  pose proof (proj1 (Permutation_count_occ string_dec _ _) Hp id) as Hcount. rewrite !count_occ_app in Hcount.
  rewrite list_elem_of_In, (count_occ_In string_dec) in Hadd. rewrite list_elem_of_In in Hnr. apply (count_occ_not_In string_dec) in Hnr.
  assert (Hbase : (count_occ string_dec (key <$> base) id > 0)%nat).
  { apply count_occ_In, list_elem_of_In. rewrite <- Eb. by apply list_elem_of_fmap_2. }
  apply NoDup_ListNoDup in Hn'. pose proof (proj1 (NoDup_count_occ string_dec _) Hn' id). lia.
Qed.

End patch.

(** C38: the diff of a patched graph agrees with the books of the patch. What it
    reports as added or removed is listed as such, a replaced node is listed as
    both, an edge with new ends, queue or flag is listed as both, and all of
    them are listed as touched. *)
Theorem diff_of_patch resolver base bc patch c cc id :
  wf base -> Apply resolver base patch = Value c ->
  (node_change base bc (candidate c) cc id = Some kNodeAdded -> id ∈ added_nodes c /\ id ∈ touched_nodes c) /\
  (node_change base bc (candidate c) cc id = Some kNodeRemoved -> id ∈ removed_nodes c /\ id ∈ touched_nodes c) /\
  (node_change base bc (candidate c) cc id = Some kNodeReplaced -> id ∈ added_nodes c /\ id ∈ removed_nodes c /\ id ∈ touched_nodes c) /\
  (edge_change base bc (candidate c) cc id = Some kEdgeAdded -> id ∈ added_edges c /\ id ∈ touched_edges c) /\
  (edge_change base bc (candidate c) cc id = Some kEdgeRemoved -> id ∈ removed_edges c /\ id ∈ touched_edges c) /\
  (forall x y, GraphOps.FindEdge id base = Some x -> GraphOps.FindEdge id (candidate c) = Some y -> x <> y ->
     id ∈ added_edges c /\ id ∈ removed_edges c /\ id ∈ touched_edges c).
Proof.
  intros Hw Ha. assert (Hc : consistent base c).
  { revert Ha. unfold Apply. destruct (mp_actions patch) as [|a l]; [intros H; by apply of_status_not_value in H|].
    apply apply_actions_consistent. by apply consistent_start. }
  destruct Hc as [Hwc Hn He _]. destruct (node_others base bc (candidate c) cc id Hw) as (N1 & N2 & N3).
  destruct (edge_others base bc (candidate c) cc id Hw) as (E1 & E2).
  pose proof (bk_touched _ _ _ _ _ _ Hn id) as Tn. pose proof (bk_touched _ _ _ _ _ _ He id) as Te. split_and!.
  - intros [H1 H2]%N1. pose proof (book_new _ _ _ _ _ _ Hn id H1 H2). auto.
  - intros [H1 H2]%N2. pose proof (book_gone _ _ _ _ _ _ Hn id H1 H2). auto.
  - intros (x & y & H1 & H2 & Hne)%N3.
    destruct (book_changed _ _ _ _ _ _ Hn id x y (wf_node_ids _ Hw) (wf_node_ids _ Hwc) H1 H2) as [??]; [by intros ->|auto].
  - intros [H1 H2]%E1. pose proof (book_new _ _ _ _ _ _ He id H1 H2). auto.
  - intros [H1 H2]%E2. pose proof (book_gone _ _ _ _ _ _ He id H1 H2). auto.
  - intros x y H1 H2 Hne. destruct (book_changed _ _ _ _ _ _ He id x y (wf_edge_ids _ Hw) (wf_edge_ids _ Hwc) H1 H2 Hne). auto.
Qed.

Lemma diff_of_patch_witness : exists c, Apply pass_resolver mutation_base mutation_patch = Value c /\
  node_change mutation_base [] (candidate c) [] "x" = Some kNodeAdded /\ "x" ∈ added_nodes c.
Proof.
  eexists. split; [vm_compute; reflexivity|]. split; [vm_compute; reflexivity|].
  eapply (fun c Ha Hd => proj1 (proj1 (diff_of_patch pass_resolver mutation_base [] mutation_patch c [] "x" (run_edits_wf _ _ (wf_make "g")) Ha) Hd)).
  - vm_compute. reflexivity.
  - vm_compute. reflexivity.
Defined.
