(* ===== verification/RuntimeTopology.v ===== *)
(** Runtime topologies (include/ge/cpp/runtime_topology.h,
    src/runtime_topology.cpp): one version of a running graph, built from
    scratch or from the version before it, and the router that pushes packets
    along it.

    Nodes, channels and input bindings are shared between versions, so they
    live in a heap and a topology holds references into it; a reference is the
    identity of the object. [describe] and [create] are the operator factory;
    [now] is the steady clock. An exception of [at] is the outcome [None]. *)

From stdpp Require Import base numbers list strings sorting gmap.
From Stdlib Require Import ZArith Lia Ascii String.
From S2P Require Import Prelude Types Double Json GraphSpec CapabilityTypes Packet EdgeChannel InputBinding NodeRuntime JsonReader CapabilityJson Negotiation GraphValidator.

Local Open Scope string_scope.
Local Open Scope Z_scope.

(** ** Data *)

(** A channel with the nodes [Bind] gave it. *)
Record Channel : Type := MkChannel { ch_edge : EdgeChannel; ch_producer : nat; ch_consumer : nat }.

Record heap : Type := MkHeap {
  h_nodes : list NodeRuntime;
  h_edges : list Channel;
  h_inputs : list InputBinding;
  h_tags : TypeTagRegistry;
}.

Record RouteEntry : Type := MkRoute { re_edge : edge_ref; re_contract : ConnectionContract; re_tag : Z }.

Record RuntimeTopology : Type := MkTopology {
  t_session : Z;
  t_version : Z;
  t_spec : GraphSpec;
  t_nodes : list nat;
  t_edges : list edge_ref;
  t_routes : list ((Z * string) * list RouteEntry);
  t_inputs : list (Z * nat);
  t_order : list string;
  t_node_ids : list (string * Z);
  t_next_node : Z;
  t_next_edge : Z;
  t_validated : ValidatedGraph;
  t_new_nodes : list nat;
  t_new_edges : list edge_ref;
  t_rebinds : list (Z * (list InputPortBinding * SyncPolicy));
  t_aligned : AlignedOptions;
}.

Record BuildOptions : Type := MkBuildOptions {
  bo_session : Z;
  bo_version : Z;
  bo_aligned : AlignedOptions;
  bo_base : option RuntimeTopology;
  bo_reused_nodes : list string;
  bo_reused_edges : list string;
  bo_validated : option ValidatedGraph;
}.

(** ** Lookups *)

Definition node_of (h : heap) (r : nat) : option NodeRuntime := h_nodes h !! r.
(** The reference of [FindNode(NodeId)]. *)
Definition FindNodeId (h : heap) (t : RuntimeTopology) (id : Z) : option nat :=
  List.find (fun r => match node_of h r with Some n => n_id n =? id | None => false end) (t_nodes t).
Definition FindNode (h : heap) (t : RuntimeTopology) (external : string) : option nat :=
  match SMap.find external (t_node_ids t) with Some id => FindNodeId h t id | None => None end.
Definition external_of (h : heap) (e : edge_ref) : option string :=
  match h_edges h !! e with Some c => Some (external_id_ (ch_edge c)) | None => None end.
Definition FindEdge (h : heap) (t : RuntimeTopology) (external : string) : option edge_ref :=
  List.find (fun e => bool_decide (external_of h e = Some external)) (t_edges t).
(** [SharedEdgeFor] *)
Definition SharedEdgeFor (t : RuntimeTopology) (e : edge_ref) : option edge_ref := if contains e (t_edges t) then Some e else None.
Definition RoutesFor (t : RuntimeTopology) (node : Z) (p : string) : option (list RouteEntry) := SMap.find (node, p) (t_routes t).
Definition InputsFor (t : RuntimeTopology) (node : Z) : option nat := SMap.find node (t_inputs t).
Definition OutputPorts (h : heap) (t : RuntimeTopology) (node : Z) : list string :=
  match FindNodeId h t node with
  | Some r => match node_of h r with Some n => map pc_name (cd_outputs (n_capability n)) | None => [] end
  | None => []
  end.

(** ** Port tables *)

(** The position of a port in the capability, the number of its distinct names
    when it is not there. *)
Fixpoint port_index (name : string) (ins : list PortCapability) (i : nat) : option nat :=
  match ins with
  | [] => None
  | p :: ins' => if decide (pc_name p = name) then Some i else port_index name ins' (S i)
  end.
Definition distinct_names (ins : list PortCapability) : nat := List.length (remove_dups (map pc_name ins)).
Definition port_rank (ins : list PortCapability) (name : string) : nat :=
  default (distinct_names ins) (port_index name ins 0).

(** [std::stable_sort] *)
Fixpoint insert_port (rank : string -> nat) (x : InputPortBinding) (l : list InputPortBinding) : list InputPortBinding :=
  match l with
  | [] => [x]
  | y :: l' => if (rank (InputBinding.port x) <=? rank (InputBinding.port y))%nat then x :: y :: l' else y :: insert_port rank x l'
  end.
Definition sort_ports (rank : string -> nat) (l : list InputPortBinding) : list InputPortBinding := foldr (insert_port rank) [] l.

Definition OrderedPorts (ins : list PortCapability) (ports : list InputPortBinding) : list InputPortBinding :=
  let bound := map InputBinding.port ports in
  let missing := List.filter (fun p => negb (contains (pc_name p) bound)) ins in
  sort_ports (port_rank ins) (ports ++ map (fun p => MkInputPortBinding (pc_name p) None (pc_required p) []) missing)%list.

Definition PolicyOf (h : heap) (ports : list InputPortBinding) : SyncPolicy :=
  match omap InputBinding.edge ports with
  | e :: _ => match h_edges h !! e with Some c => sync_policy (contract_ (ch_edge c)) | None => kAny end
  | [] => kAny
  end.

(** ** Building a version *)

(** A value, a status, or an exception. *)
Definition Outcome (A : Type) : Type := option (Result A).
Definition returns {A} (a : A) : Outcome A := Some (Value a).
Definition fails {A} (s : Status) : Outcome A := Some (Error s).
Definition throws {A} : Outcome A := None.
Definition then_ {A B} (m : Outcome A) (f : A -> Outcome B) : Outcome B :=
  match m with
  | Some (Value a) => f a
  | Some (Error s) => Some (Error s)
  | None => None
  end.
(** [m.at(k)] *)
Definition at_ {A} (o : option A) : Outcome A := match o with Some a => returns a | None => throws end.
Definition ensure {A} (o : option A) (s : Status) : Outcome A := match o with Some a => returns a | None => fails s end.

Notation "'let!' x := m 'in' k" := (then_ m (fun x => k)) (at level 10, x pattern, m at level 100, k at level 200).

(** A loop that stops at the first status or exception. *)
Fixpoint each_of {A S} (f : A -> S -> Outcome S) (l : list A) (s : S) : Outcome S :=
  match l with
  | [] => returns s
  | x :: l' => let! s := f x s in each_of f l' s
  end.

(** The locals of [Build]: the heap, the fields of the new version, and the
    port tables under construction. *)
Record builder : Type := MkBuilder {
  b_heap : heap;
  b_nodes : list nat;
  b_ids : list (string * Z);
  b_by_id : list (Z * nat);
  b_next_node : Z;
  b_new_nodes : list nat;
  b_edges : list edge_ref;
  b_next_edge : Z;
  b_new_edges : list edge_ref;
  b_routes : list ((Z * string) * list RouteEntry);
  b_bindings : list (Z * list InputPortBinding);
}.

Section build.
Context (describe : OperatorKey -> option CapabilityDescriptor).
(** [factory.Create]; the operator itself stays outside the model. *)
Context (create : OperatorKey -> Z -> string -> json -> option Status).

Definition reuses (names : list string) (base : option RuntimeTopology) (id : string) : option RuntimeTopology :=
  match base with Some t => if contains id names then Some t else None | None => None end.

Definition build_node (options : BuildOptions) (n : NodeSpec) (b : builder) : Outcome builder :=
  match reuses (bo_reused_nodes options) (bo_base options) (ns_id n) with
  | Some base =>
      let! r := ensure (FindNode (b_heap b) base (ns_id n)) (StatusOps.Internal ("reused node '" ++ ns_id n ++ "' missing in base")) in
      let! node := at_ (node_of (b_heap b) r) in
      returns (MkBuilder (b_heap b) (b_nodes b ++ [r])%list (SMap.set (ns_id n) (n_id node) (b_ids b))
                 (SMap.emplace (n_id node) r (b_by_id b)).1 (b_next_node b) (b_new_nodes b) (b_edges b) (b_next_edge b)
                 (b_new_edges b) (b_routes b) (b_bindings b))
  | None =>
      let! cap := ensure (describe (ns_op n)) (StatusOps.NotFound ("operator '" ++ OperatorKeyOps.ToString (ns_op n) ++ "' not found")) in
      let id := b_next_node b in
      match create (ns_op n) id (ns_id n) (ns_options n) with
      | Some s => fails s
      | None =>
          let h := b_heap b in
          let r := List.length (h_nodes h) in
          let node := Node.make id (ns_id n) (ns_op n) cap (ns_options n) (ns_parallelism n) in
          returns (MkBuilder (MkHeap (h_nodes h ++ [node])%list (h_edges h) (h_inputs h) (h_tags h)) (b_nodes b ++ [r])%list
                     (SMap.set (ns_id n) id (b_ids b)) (SMap.emplace id r (b_by_id b)).1 (Word.u64 (id + 1)) (b_new_nodes b ++ [r])%list
                     (b_edges b) (b_next_edge b) (b_new_edges b) (b_routes b) (b_bindings b))
      end
  end.

(** The channel of an edge that is carried over. *)
Definition reused_edge (options : BuildOptions) (e : EdgeSpec) (contract : ConnectionContract) (h : heap) : Outcome (option edge_ref) :=
  match reuses (bo_reused_edges options) (bo_base options) (es_id e) with
  | None => returns None
  | Some base =>
      let! r := ensure (FindEdge h base (es_id e)) (StatusOps.Internal ("reused edge '" ++ es_id e ++ "' missing in base")) in
      let! c := at_ (h_edges h !! r) in
      if Negotiator.SameDataPlane (contract_ (ch_edge c)) contract then returns (Some r)
      else fails (StatusOps.Internal ("reused edge '" ++ es_id e ++ "' has a different data contract"))
  end.

Definition build_edge (options : BuildOptions) (v : ValidatedGraph) (e : EdgeSpec) (b : builder) : Outcome builder :=
  let! contract := at_ (SMap.find (es_id e) (edge_contracts v)) in
  let! old := reused_edge options e contract (b_heap b) in
  let! from := at_ (SMap.find (node_id (es_from e)) (b_ids b)) in
  let! to := at_ (SMap.find (node_id (es_to e)) (b_ids b)) in
  let h := b_heap b in
  let! made :=
    match old with
    | Some r => returns (h, r, b_next_edge b, b_new_edges b)
    | None =>
        let! producer := at_ (SMap.find from (b_by_id b)) in
        let! consumer := at_ (SMap.find to (b_by_id b)) in
        let c := Edge.make (b_next_edge b) (es_id e) contract
                   (MkEdgeConfig (q_capacity (es_queue e)) (q_policy (es_queue e)) (sync_policy contract)) (es_from e) (es_to e) in
        let r := List.length (h_edges h) in
        returns (MkHeap (h_nodes h) (h_edges h ++ [MkChannel c producer consumer])%list (h_inputs h) (h_tags h), r,
                 Word.u64 (b_next_edge b + 1), (b_new_edges b ++ [r])%list)
    end in
  let '(h, r, next, new) := made in
  let '(tag, tags) := TypeTags.Intern (logical_type contract) (h_tags h) in
  let h := MkHeap (h_nodes h) (h_edges h) (h_inputs h) tags in
  let key := (from, GraphSpec.port (es_from e)) in
  let! target := at_ (List.find (fun r => match node_of h r with Some n => n_id n =? to | None => false end) (b_nodes b)) in
  let! node := at_ (node_of h target) in
  let required := match Descriptor.FindInput (GraphSpec.port (es_to e)) (n_capability node) with Some p => pc_required p | None => false end in
  returns (MkBuilder h (b_nodes b) (b_ids b) (b_by_id b) (b_next_node b) (b_new_nodes b) (b_edges b ++ [r])%list next new
             (SMap.set key (default [] (SMap.find key (b_routes b)) ++ [MkRoute r contract tag])%list (b_routes b))
             (SMap.set to (default [] (SMap.find to (b_bindings b)) ++ [MkInputPortBinding (GraphSpec.port (es_to e)) (Some r) required []])%list (b_bindings b))).

(** The last loop: the heap, [inputs_] and [rebinds_]. *)
Record wiring : Type := MkWiring { w_heap : heap; w_inputs : list (Z * nat); w_rebinds : list (Z * (list InputPortBinding * SyncPolicy)) }.

Fixpoint same_ports (a b : list InputPortBinding) : bool :=
  match a, b with
  | x :: a', y :: b' =>
      bool_decide (InputBinding.port x = InputBinding.port y) && bool_decide (InputBinding.edge x = InputBinding.edge y) &&
      Bool.eqb (required x) (required y) && same_ports a' b'
  | [], [] => true
  | _, _ => false
  end.

Definition build_inputs (options : BuildOptions) (bindings : list (Z * list InputPortBinding)) (r : nat) (w : wiring) : Outcome wiring :=
  let h := w_heap w in
  let! node := at_ (node_of h r) in
  let ports := OrderedPorts (cd_inputs (n_capability node)) (default [] (SMap.find (n_id node) bindings)) in
  let policy := PolicyOf h ports in
  match reuses (bo_reused_nodes options) (bo_base options) (n_external_id node) with
  | Some base =>
      let! i := ensure (InputsFor base (n_id node)) (StatusOps.Internal ("reused node '" ++ n_external_id node ++ "' has no binding")) in
      let! shared := at_ (h_inputs h !! i) in
      let same := bool_decide (policy_ shared = policy) && same_ports (ports_ shared) ports in
      returns (MkWiring h (SMap.set (n_id node) i (w_inputs w))
                 (if same then w_rebinds w else SMap.set (n_id node) (ports, policy) (w_rebinds w)))
  | None =>
      let i := List.length (h_inputs h) in
      returns (MkWiring (MkHeap (h_nodes h) (h_edges h) (h_inputs h ++ [make_binding ports policy (bo_aligned options)])%list (h_tags h))
                 (SMap.set (n_id node) i (w_inputs w)) (w_rebinds w))
  end.

Definition build_validated (spec : GraphSpec) (options : BuildOptions) (v : ValidatedGraph) (h : heap) : Outcome (RuntimeTopology * heap) :=
  let next_node := match bo_base options with Some t => t_next_node t | None => 1 end in
  let next_edge := match bo_base options with Some t => t_next_edge t | None => 1 end in
  let! b := each_of (build_node options) (nodes_ spec) (MkBuilder h [] [] [] next_node [] [] next_edge [] [] []) in
  let! b := each_of (build_edge options v) (edges_ spec) b in
  let! w := each_of (build_inputs options (b_bindings b)) (b_nodes b) (MkWiring (b_heap b) [] []) in
  returns (MkTopology (bo_session options) (bo_version options) spec (b_nodes b) (b_edges b) (b_routes b) (w_inputs w)
             (topological_order v) (b_ids b) (b_next_node b) (b_next_edge b) v (b_new_nodes b) (b_new_edges b) (w_rebinds w)
             (bo_aligned options), w_heap w).

(** [Build]; a graph that is not validated yet is validated with a negotiator
    of its own. *)
Definition Build (iterate : list NodeInfo -> list NodeInfo) (spec : GraphSpec) (options : BuildOptions) (h : heap)
    : Outcome (RuntimeTopology * heap) :=
  match bo_validated options with
  | Some v => build_validated spec options v h
  | None =>
      match Validate describe iterate spec (MkPreferenceSet [] None None None) false Negotiator.empty with
      | (Error s, _, _) => fails s
      | (Value v, _, _) => build_validated spec options v h
      end
  end.

End build.

(** ** Publishing *)

Definition edge_in (h : heap) (e : edge_ref) : EdgeChannel :=
  match h_edges h !! e with
  | Some c => ch_edge c
  | None => Edge.make 0 "" (MkConnectionContract "" None None None kHost (-1) kAny 0 0) (MkEdgeConfig 1 kBlock kAny) (MkPortRef "" "") (MkPortRef "" "")
  end.
Definition with_channels (f : edge_ref -> EdgeChannel) (h : heap) : heap :=
  MkHeap (h_nodes h) (imap (fun i c => MkChannel (f i) (ch_producer c) (ch_consumer c)) (h_edges h)) (h_inputs h) (h_tags h).

Definition apply_rebind (t : RuntimeTopology) (h : heap) (pending : Z * (list InputPortBinding * SyncPolicy)) : heap :=
  match SMap.find pending.1 (t_inputs t) with
  | None => h
  | Some i =>
      match h_inputs h !! i with
      | None => h
      | Some b =>
          let '(b, edges) := Rebind pending.2.1 pending.2.2 (t_aligned t) b (edge_in h) in
          let h := with_channels edges h in
          MkHeap (h_nodes h) (h_edges h) (<[i := b]> (h_inputs h)) (h_tags h)
      end
  end.

Definition ApplyRebinds (t : RuntimeTopology) (h : heap) : RuntimeTopology * heap :=
  (MkTopology (t_session t) (t_version t) (t_spec t) (t_nodes t) (t_edges t) (t_routes t) (t_inputs t) (t_order t) (t_node_ids t)
     (t_next_node t) (t_next_edge t) (t_validated t) (t_new_nodes t) (t_new_edges t) [] (t_aligned t),
   fold_left (apply_rebind t) (t_rebinds t) h).

(** ** Routing *)

Record EmitReport : Type := MkReport {
  rp_accepted : Z;
  rp_dropped : Z;
  rp_would_block : Z;
  rp_cancelled : Z;
  rp_blocked : list edge_ref;
  rp_targets : list nat;
  rp_packet : PacketRef;
}.
Definition empty_report : EmitReport := MkReport 0 0 0 0 [] [] None.

(** What routing changes: the heap, the report if the caller wants one, and
    the node's counters [packets_out] and [would_block]. *)
Record routing : Type := MkRouting { ro_heap : heap; ro_report : option EmitReport; ro_out : Z; ro_blocked : Z }.

Definition count_accepted (dropped_oldest : bool) (target : nat) (r : EmitReport) : EmitReport :=
  MkReport (Word.u32 (rp_accepted r + 1)) (if dropped_oldest then Word.u32 (rp_dropped r + 1) else rp_dropped r) (rp_would_block r)
    (rp_cancelled r) (rp_blocked r) (rp_targets r ++ [target])%list (rp_packet r).
Definition count_dropped (r : EmitReport) : EmitReport :=
  MkReport (rp_accepted r) (Word.u32 (rp_dropped r + 1)) (rp_would_block r) (rp_cancelled r) (rp_blocked r) (rp_targets r) (rp_packet r).
Definition count_blocked (e : edge_ref) (r : EmitReport) : EmitReport :=
  MkReport (rp_accepted r) (rp_dropped r) (Word.u32 (rp_would_block r + 1)) (rp_cancelled r) (rp_blocked r ++ [e])%list (rp_targets r) (rp_packet r).
Definition count_cancelled (r : EmitReport) : EmitReport :=
  MkReport (rp_accepted r) (rp_dropped r) (rp_would_block r) (Word.u32 (rp_cancelled r + 1)) (rp_blocked r) (rp_targets r) (rp_packet r).

(** [PushEdge], also [PushOne]; the consumer of a channel outlives the call. *)
Definition PushEdge (e : edge_ref) (packet : PacketRef) (s : routing) : PushOutcome * routing :=
  match h_edges (ro_heap s) !! e with
  | None => (kCancelled, s)
  | Some c =>
      let control := match packet with Some p => PacketOps.is_eos p || PacketOps.is_event p | None => false end in
      let '(o, edge') := Edge.Push packet (ch_edge c) in
      let h := ro_heap s in
      let h := MkHeap (h_nodes h) (<[e := MkChannel edge' (ch_producer c) (ch_consumer c)]> (h_edges h)) (h_inputs h) (h_tags h) in
      let accepted dropped_oldest :=
        MkRouting h (count_accepted dropped_oldest (ch_consumer c) <$> ro_report s) (if control then ro_out s else Word.u64 (ro_out s + 1)) (ro_blocked s) in
      (o, match o with
          | kAccepted => accepted false
          | kAcceptedDroppedOldest => accepted true
          | kDroppedNewest => MkRouting h (count_dropped <$> ro_report s) (ro_out s) (ro_blocked s)
          | kWouldBlock => MkRouting h (count_blocked e <$> ro_report s) (ro_out s) (Word.u64 (ro_blocked s + 1))
          | kCancelled => MkRouting h (count_cancelled <$> ro_report s) (ro_out s) (ro_blocked s)
          end)
  end.

Fixpoint push_all (routes : list RouteEntry) (packet : PacketRef) (blocked : bool) (s : routing) : bool * routing :=
  match routes with
  | [] => (blocked, s)
  | r :: rest =>
      let '(o, s) := PushEdge (re_edge r) packet s in
      push_all rest packet (blocked || bool_decide (o = kWouldBlock)) s
  end.
Definition PushAll (routes : list RouteEntry) (packet : PacketRef) (s : routing) : Status * routing :=
  let '(blocked, s) := push_all routes packet false s in
  (if blocked then StatusOps.WouldBlock else StatusOps.Ok, s).

(** [Prepare]: the stamped packet, or nothing for an unconnected output. [now]
    is the steady clock and [ingress] the node's [current_ingress_ns]. *)
Definition Prepare (now ingress : Z) (t : RuntimeTopology) (tags : TypeTagRegistry) (node : NodeRuntime) (output : string)
    (packet : Packet) (version : Z) : Result PacketRef :=
  if cancelled_ node then ResultOps.of_status (StatusOps.Cancelled ("node '" ++ n_external_id node ++ "' is retired"))
  else match Descriptor.FindOutput output (n_capability node) with
  | None => ResultOps.of_status (StatusOps.InvalidArgument ("node '" ++ n_external_id node ++ "' has no output port '" ++ output ++ "'"))
  | Some _ =>
      match RoutesFor t (n_id node) output with
      | None | Some [] => Value None
      | Some (first :: _) =>
          let hd := header packet in
          if negb (PacketOps.is_eos packet) && negb (PacketOps.is_event packet) && negb (PacketOps.is_dropped packet) &&
             negb (type_tag hd =? re_tag first) then
            ResultOps.of_status (StatusOps.InvalidArgument
              ("packet type '" ++ TypeTags.Name (type_tag hd) tags ++ "' does not match contract '" ++
               logical_type (re_contract first) ++ "' on " ++ n_external_id node ++ "." ++ output))
          else
            let tag := if type_tag hd =? kInvalidTypeTag then re_tag first else type_tag hd in
            let hd := MkPacketHeader (seq hd) (pts_ns hd) (dts_ns hd) (flags hd) (t_version t) version tag in
            let stamp := if (ingress_ns packet =? 0) && negb (PacketOps.is_eos packet) && negb (PacketOps.is_event packet)
                         then if Node.is_source node then now else ingress
                         else ingress_ns packet in
            Value (Some (MkPacket hd (metadata packet) (payload packet) stamp))
      end
  end.

Definition with_packet (p : PacketRef) (r : EmitReport) : EmitReport :=
  MkReport (rp_accepted r) (rp_dropped r) (rp_would_block r) (rp_cancelled r) (rp_blocked r) (rp_targets r) p.

Definition Emit (now ingress : Z) (t : RuntimeTopology) (node : NodeRuntime) (output : string) (packet : Packet) (version : Z)
    (s : routing) : Status * routing :=
  match Prepare now ingress t (h_tags (ro_heap s)) node output packet version with
  | Error st => (st, s)
  | Value None => (StatusOps.Ok, s)
  | Value p =>
      PushAll (default [] (RoutesFor t (n_id node) output)) p
        (MkRouting (ro_heap s) (with_packet p <$> ro_report s) (ro_out s) (ro_blocked s))
  end.

Definition EmitEos (t : RuntimeTopology) (node : NodeRuntime) (output : string) (version : Z) (s : routing) : Status * routing :=
  match RoutesFor t (n_id node) output with
  | None | Some [] => (StatusOps.Ok, s)
  | Some (first :: rest) =>
      PushAll (first :: rest) (Some (PacketOps.Eos (re_tag first) (t_version t) version (last_seq_ node))) s
  end.

Fixpoint OldestIngress (inputs : list PacketRef) (oldest : Z) : Z :=
  match inputs with
  | [] => oldest
  | Some p :: rest =>
      OldestIngress rest (if (ingress_ns p =? 0) then oldest
                          else if (oldest =? 0) || (ingress_ns p <? oldest) then ingress_ns p else oldest)
  | None :: rest => OldestIngress rest oldest
  end.
