(* ===== verification/TopologyProofs.v ===== *)
(** A version built from the one before it: building cannot go wrong inside,
    what the diff keeps is carried over as the same object, everything else is
    new, and routes and port tables follow the graph. *)

From stdpp Require Import base numbers list strings sorting gmap sets.
From Stdlib Require Import ZArith Lia Ascii String SpecFloat.
From S2P Require Import Prelude Types Double Json GraphSpec GraphSpecProofs CapabilityTypes Packet EdgeChannel InputBinding NodeRuntime JsonReader CapabilityJson Negotiation NegotiationProofs GraphValidator ValidatorProofs ValidatorContracts GraphDiff GraphDiffProofs RuntimeTopology.

Local Open Scope string_scope.
Local Open Scope Z_scope.

(** ** Outcomes and loops *)

(** The computation ends with a value in [P] or a status in [Q]; it does not throw. *)
Definition ends_in {A} (m : Outcome A) (P : A -> Prop) (Q : Status -> Prop) : Prop :=
  match m with Some (Value a) => P a | Some (Error s) => Q s | None => False end.

Lemma ends_then {A B} (m : Outcome A) (f : A -> Outcome B) P Q R :
  ends_in m P Q -> (forall a, P a -> ends_in (f a) R Q) -> ends_in (then_ m f) R Q.
Proof. destruct m as [[a|s]|]; simpl; auto. Qed.

Lemma ends_at {A B} (o : option A) a (f : A -> Outcome B) R Q : o = Some a -> ends_in (f a) R Q -> ends_in (then_ (at_ o) f) R Q.
Proof. by intros ->. Qed.
Lemma ends_ensure {A B} (o : option A) s a (f : A -> Outcome B) R Q :
  o = Some a -> ends_in (f a) R Q -> ends_in (then_ (ensure o s) f) R Q.
Proof. by intros ->. Qed.

Lemma each_of_ends {A S} (f : A -> S -> Outcome S) (P : list A -> S -> Prop) Q l : forall (before : list A) s,
  (forall before x after s, P before s -> (before ++ x :: after)%list = l -> ends_in (f x s) (P (before ++ [x])%list) Q) ->
  P before s -> forall after, (before ++ after)%list = l -> ends_in (each_of f after s) (P l) Q.
Proof.
  intros before s Hf Hs after. revert before s Hs. induction after as [|x after IH]; intros before s Hs Hl.
  - simpl. rewrite app_nil_r in Hl. by subst.
  - simpl. eapply ends_then; [by eapply Hf|]. intros s' Hs'. apply (IH (before ++ [x])%list); [done|]. by rewrite <- app_assoc.
Qed.

(** ** The interface between the diff and the builder *)

(** What a version is: its nodes and channels follow its graph. *)
Definition node_fits (h : heap) (t : RuntimeTopology) (r : nat) (n : NodeSpec) : Prop :=
  exists x, node_of h r = Some x /\ n_external_id x = ns_id n /\ n_key x = ns_op n /\
    SMap.find (ns_id n) (t_node_ids t) = Some (n_id x) /\ FindNodeId h t (n_id x) = Some r /\ n_id x < t_next_node t /\
    exists i b, SMap.find (n_id x) (t_inputs t) = Some i /\ h_inputs h !! i = Some b.

Definition queue_config (e : EdgeSpec) (c : ConnectionContract) : EdgeConfig :=
  MkEdgeConfig (Word.u32 (Z.max (q_capacity (es_queue e)) 1)) (q_policy (es_queue e)) (sync_policy c).

(** The contract a channel was made with, or one of the same data plane. *)
Definition same_plane (a b : ConnectionContract) : Prop := a = b \/ Negotiator.SameDataPlane a b = true.

Definition edge_fits (h : heap) (t : RuntimeTopology) (r : edge_ref) (e : EdgeSpec) : Prop :=
  exists c contract, h_edges h !! r = Some c /\ external_id_ (ch_edge c) = es_id e /\ from_ (ch_edge c) = es_from e /\ to_ (ch_edge c) = es_to e /\
    SMap.find (es_id e) (edge_contracts (t_validated t)) = Some contract /\ same_plane (contract_ (ch_edge c)) contract /\
    config_ (ch_edge c) = queue_config e (contract_ (ch_edge c)) /\
    FindNode h t (node_id (es_from e)) = Some (ch_producer c) /\ FindNode h t (node_id (es_to e)) = Some (ch_consumer c).

Record version_ok (h : heap) (t : RuntimeTopology) : Prop := {
  vo_spec : wf (t_spec t);
  vo_nodes : Forall2 (node_fits h t) (t_nodes t) (nodes_ (t_spec t));
  vo_edges : Forall2 (edge_fits h t) (t_edges t) (edges_ (t_spec t));
  vo_inputs : forall id id' i, InputsFor t id = Some i -> InputsFor t id' = Some i -> id = id';
}.

(** What the reuse lists must satisfy: a carried-over node has the same
    operator, a carried-over edge the same ends, queue and data plane, and both
    its nodes are carried over. *)
Record reuse_sound (t : RuntimeTopology) (spec : GraphSpec) (v : ValidatedGraph) (reused_nodes reused_edges : list string) : Prop := {
  rs_nodes : forall n, n ∈ nodes_ spec -> ns_id n ∈ reused_nodes -> exists b, b ∈ nodes_ (t_spec t) /\ ns_id b = ns_id n /\ ns_op b = ns_op n;
  rs_edges : forall e, e ∈ edges_ spec -> es_id e ∈ reused_edges -> exists b, b ∈ edges_ (t_spec t) /\ es_id b = es_id e /\
    es_from b = es_from e /\ es_to b = es_to e /\ es_queue b = es_queue e /\
    (node_id (es_from e) ∈ reused_nodes) /\ (node_id (es_to e) ∈ reused_nodes) /\
    forall x y, SMap.find (es_id e) (edge_contracts (t_validated t)) = Some x -> SMap.find (es_id e) (edge_contracts v) = Some y ->
      Negotiator.SameDataPlane x y = true;
}.

(** The edges of a version with their channels, those that leave an output and
    those that enter a node, and the port table they make. *)
Definition edges_of (t : RuntimeTopology) : list (edge_ref * EdgeSpec) := combine (t_edges t) (edges_ (t_spec t)).
Definition leaves (n : NodeSpec) (p : string) (re : edge_ref * EdgeSpec) : bool := bool_decide (es_from re.2 = MkPortRef (ns_id n) p).
Definition enters (n : NodeSpec) (re : edge_ref * EdgeSpec) : bool := bool_decide (node_id (es_to re.2) = ns_id n).
Definition port_binding (x : NodeRuntime) (re : edge_ref * EdgeSpec) : InputPortBinding :=
  MkInputPortBinding (GraphSpec.port (es_to re.2)) (Some re.1)
    (match Descriptor.FindInput (GraphSpec.port (es_to re.2)) (n_capability x) with Some p => pc_required p | None => false end) [].
Definition port_table (t : RuntimeTopology) (n : NodeSpec) (x : NodeRuntime) : list InputPortBinding :=
  OrderedPorts (cd_inputs (n_capability x)) (map (port_binding x) (List.filter (enters n) (edges_of t))).
(** A binding with that table. *)
Definition has_table (h : heap) (i : InputBinding) (ports : list InputPortBinding) : bool :=
  bool_decide (policy_ i = PolicyOf h ports) && same_ports (ports_ i) ports.

(** ** The diff provides the interface *)

Lemma fold_entries_sorted {A V} (f : A -> string) (g : A -> V) (p : A -> bool) l : forall m,
  SMap.sorted m -> SMap.sorted (fold_left (fun m x => if p x then m else SMap.set (f x) (g x) m) l m).
Proof. induction l as [|x l IH]; intros m Hm; simpl; [done|]. apply IH. destruct (p x); [done|by apply SMap.set_sorted]. Qed.

Lemma elem_of_changes {V} (p : V -> bool) (m : list (string * V)) id :
  SMap.sorted m -> id ∈ map fst (List.filter (fun kv => p kv.2) m) <-> exists v, SMap.find id m = Some v /\ p v = true.
Proof.
  intros Hs. rewrite list_elem_of_In, in_map_iff. setoid_rewrite filter_In. split.
  - intros ([k v] & <- & Hin & Hp). exists v. split; [by apply SMap.sorted_In_find|done].
  - intros (v & Hf & Hp). exists (id, v). split; [done|]. split; [by apply SMap.find_In|done].
Qed.

Section diff.
Context (base : GraphSpec) (bc : list (string * ConnectionContract)) (cand : GraphSpec) (cc : list (string * ConnectionContract)).
Hypothesis base_wf : wf base.
Hypothesis cand_wf : wf cand.

Lemma diff_nodes_sorted : SMap.sorted (diff_nodes (Compute base bc cand cc)).
Proof.
  simpl. unfold node_entries. apply (fold_entries_sorted ns_id (fun _ => MkNodeEntry kNodeAdded "") (fun c => has (GraphOps.FindNode (ns_id c) base))).
  apply (fold_entries_sorted ns_id (node_entry base bc cand cc) (fun _ => false)). constructor.
Qed.
Lemma diff_edges_sorted : SMap.sorted (diff_edges (Compute base bc cand cc)).
Proof.
  simpl. unfold edge_entries. apply (fold_entries_sorted es_id (fun _ => MkEdgeEntry kEdgeAdded "") (fun c => has (GraphOps.FindEdge (es_id c) base))).
  apply (fold_entries_sorted es_id (edge_entry base bc cand cc) (fun _ => false)). constructor.
Qed.

Lemma reused_node_iff id :
  id ∈ ReusedNodes (Compute base bc cand cc) <->
  exists b c, GraphOps.FindNode id base = Some b /\ GraphOps.FindNode id cand = Some c /\ ns_op b = ns_op c.
Proof.
  unfold ReusedNodes.
  pose proof (elem_of_changes (fun v : NodeEntry => bool_decide (ne_change v = kNodeKept) || bool_decide (ne_change v = kNodeUpdated)) _ id diff_nodes_sorted) as Hx.
  cbv beta in Hx. rewrite Hx. clear Hx.
  rewrite find_node_entry by done. destruct (GraphOps.FindNode id base) as [b|] eqn:Eb.
  - assert (Hid : ns_id b = id) by (by apply lookup_Some in Eb as [_ ?]). unfold node_entry. rewrite Hid.
    destruct (GraphOps.FindNode id cand) as [c|]; [|naive_solver].
    destruct (bool_decide (ns_op b = ns_op c)) eqn:Eo; simpl.
    + apply bool_decide_eq_true in Eo. split; [naive_solver|]. intros _. eexists. split; [done|]. by destruct (node_reasons base bc cand cc b c).
    + apply bool_decide_eq_false in Eo. split; [intros (v & [= <-] & ?); done|naive_solver].
  - destruct (GraphOps.FindNode id cand); naive_solver.
Qed.

Lemma reused_edge_iff id : id ∈ ReusedEdges (Compute base bc cand cc) <-> edge_change base bc cand cc id = Some kEdgeKept.
Proof.
  unfold ReusedEdges, Edges. pose proof (elem_of_changes (fun v : EdgeEntry => bool_decide (ee_change v = kEdgeKept)) _ id diff_edges_sorted) as Hx.
  cbv beta in Hx. rewrite Hx. clear Hx.
  unfold edge_change. destruct (SMap.find id _) as [v|]; simpl; [|naive_solver].
  split; [intros (v0 & [= <-] & Hb%bool_decide_eq_true); by rewrite Hb|]. intros [= Hv]. exists v. by rewrite Hv.
Qed.

Lemma wf_ends e : e ∈ edges_ cand -> exists f t, GraphOps.FindNode (node_id (es_from e)) cand = Some f /\ GraphOps.FindNode (node_id (es_to e)) cand = Some t.
Proof.
  intros Hin. destruct cand_wf as [_ _ _ _ He]. rewrite Forall_forall in He. destruct (He e Hin) as (_ & Hf & Ht & _).
  assert (Hfind : forall id, id ∈ ns_id <$> nodes_ cand -> exists n, GraphOps.FindNode id cand = Some n).
  { intros id Hid. destruct (GraphOps.FindNode id cand) as [n|] eqn:E; [by exists n|]. exfalso. by apply lookup_None in E. }
  destruct (Hfind _ Hf) as [f Ef], (Hfind _ Ht) as [t Et]. by exists f, t.
Qed.

End diff.

(** The nodes and edges the diff reuses satisfy what the builder needs. *)
Lemma diff_reuse_sound t spec v :
  wf (t_spec t) -> wf spec ->
  let d := Compute (t_spec t) (edge_contracts (t_validated t)) spec (edge_contracts v) in
  reuse_sound t spec v (ReusedNodes d) (ReusedEdges d).
Proof.
  intros Hb Hc d. split.
  - intros n Hn (b & c & Eb & Ec & Eo)%reused_node_iff; [|done]. apply lookup_Some in Eb as [Hin Ei], Ec as [Hin' Ei'].
    exists b. split; [done|]. split; [done|]. rewrite Eo. f_equal. by apply (NoDup_fmap_key ns_id (nodes_ spec)); [apply Hc|..].
  - intros e He Hr. apply reused_edge_iff, edge_kept_iff in Hr as (b & c & Eb & Ec & [S1 S2 S3 S4 S5 _ S7]); [|done].
    apply lookup_Some in Eb as [Hin Ei], Ec as [Hin' Ei'].
    assert (c = e) as -> by (by apply (NoDup_fmap_key es_id (edges_ spec)); [apply Hc|..]).
    destruct (wf_ends spec Hc e He) as (f & t' & Ef & Et).
    destruct (wf_ends (t_spec t) Hb b Hin) as (bf & bt & Ebf & Ebt). rewrite S1 in Ebf. rewrite S2 in Ebt.
    exists b. split; [done|]. split; [congruence|]. split; [done|]. split; [done|]. split; [done|]. split_and!.
    + apply reused_node_iff; [done|]. exists bf, f. split; [done|]. split; [done|].
      destruct (decide (ns_op bf = ns_op f)); [done|]. exfalso. apply S3. by exists bf, f.
    + apply reused_node_iff; [done|]. exists bt, t'. split; [done|]. split; [done|].
      destruct (decide (ns_op bt = ns_op t')); [done|]. exfalso. apply S4. by exists bt, t'.
    + by rewrite Ei in S7.
Qed.

(** ** The data plane of a contract *)

Lemma double_eqb_cases a b : Double.eqb a b = true -> a = b \/ exists s s', a = S754_zero s /\ b = S754_zero s'.
Proof.
  unfold Double.eqb, SFeqb, SFcompare. destruct a as [sa|sa| |sa ma ea], b as [sb|sb| |sb mb eb]; try (destruct sa); try (destruct sb); simpl; try done; eauto.
  - destruct (Z.compare_spec ea eb) as [->| |]; try done. destruct (Pos.compare_cont Eq ma mb) eqn:E; try done.
    intros _. left. f_equal. by apply Pos.compare_eq_iff.
  - destruct (Z.compare_spec ea eb) as [->| |]; try done. destruct (Pos.compare_cont Eq ma mb) eqn:E; try done.
    intros _. left. f_equal. by apply Pos.compare_eq_iff.
Qed.
Lemma double_eqb_trans a b c : Double.eqb a b = true -> Double.eqb b c = true -> Double.eqb a c = true.
Proof.
  intros H1 H2. destruct (double_eqb_cases a b H1) as [->|(s & s' & -> & ->)]; [done|].
  destruct (double_eqb_cases _ c H2) as [<-|(t & t' & _ & ->)]; [done|]. by destruct s, t'.
Qed.

Ltac booleans := repeat match goal with
  | H : _ && _ = true |- _ => apply andb_prop in H as [? ?]
  | H : bool_decide _ = true |- _ => apply bool_decide_eq_true in H
  end.

Lemma video_eqb_trans a b c : Negotiator.video_eqb a b = true -> Negotiator.video_eqb b c = true -> Negotiator.video_eqb a c = true.
Proof.
  destruct a as [a|], b as [b|], c as [c|]; try done. unfold Negotiator.video_eqb. intros H1 H2. booleans.
  rewrite !andb_true_iff, !bool_decide_eq_true. split_and!; try congruence.
  destruct (sv_fps a) as [x|], (sv_fps b) as [y|], (sv_fps c) as [z|]; try done. simpl in *. booleans.
  apply andb_true_iff. split; eapply double_eqb_trans; eassumption.
Qed.
Lemma SameDataPlane_trans a b c :
  Negotiator.SameDataPlane a b = true -> Negotiator.SameDataPlane b c = true -> Negotiator.SameDataPlane a c = true.
Proof.
  unfold Negotiator.SameDataPlane. intros H1 H2. booleans. rewrite !andb_true_iff, !bool_decide_eq_true. split_and!; try congruence.
  eapply video_eqb_trans; eassumption.
Qed.

(** ** Building the nodes *)

Lemma find_emplace {V} (k k' : Z) (v : V) m :
  SMap.find k' (SMap.emplace k v m).1 = match SMap.find k' m with Some x => Some x | None => if decide (k = k') then Some v else None end.
Proof.
  unfold SMap.emplace, SMap.contains. destruct (SMap.find k m) as [x|] eqn:E; simpl.
  - destruct (SMap.find k' m) eqn:E'; [done|]. rewrite decide_False; [done|]. intros ->. congruence.
  - rewrite SMap.find_set. destruct (decide (k = k')) as [->|]; [by rewrite E|]. by destruct (SMap.find k' m).
Qed.

Lemma reuses_iff names base id t : reuses names base id = Some t <-> base = Some t /\ id ∈ names.
Proof.
  unfold reuses. destruct base as [t'|]; [|naive_solver]. destruct (contains id names) eqn:E.
  - apply contains_spec in E. naive_solver.
  - assert (Hn : id ∉ names) by (intros H%contains_spec; congruence). naive_solver.
Qed.

Lemma Forall2_elem_l {A B} (P : A -> B -> Prop) l k x : Forall2 P l k -> x ∈ l -> exists y, y ∈ k /\ P x y.
Proof.
  intros H Hx. apply list_elem_of_lookup in Hx as [i Hi]. destruct (Forall2_lookup_l _ _ _ _ _ H Hi) as (y & Hy & HP).
  exists y. split; [by apply (list_elem_of_lookup_2 _ i)|done].
Qed.
Lemma Forall2_impl_in {A B} (P Q : A -> B -> Prop) l k :
  Forall2 P l k -> (forall x y, x ∈ l -> y ∈ k -> P x y -> Q x y) -> Forall2 Q l k.
Proof.
  induction 1 as [|x y l k Hxy _ IH]; intros HQ; constructor; [apply HQ; [by left|by left|done]|].
  apply IH. intros x' y' Hx Hy. apply HQ; by right.
Qed.

Lemma node_of_app h h' news r x :
  h_nodes h' = (h_nodes h ++ news)%list -> node_of h r = Some x -> node_of h' r = Some x.
Proof. unfold node_of. intros -> Hx. by apply lookup_app_l_Some. Qed.

Lemma find_ext_in {A} (p q : A -> bool) l : (forall x, x ∈ l -> p x = q x) -> List.find p l = List.find q l.
Proof.
  induction l as [|x l IH]; intros H; simpl; [done|]. rewrite (H x) by (by left). destruct (q x); [done|].
  apply IH. intros y Hy. apply H. by right.
Qed.

(** Growing the heap does not change what a version finds. *)
Lemma FindNodeId_app h h' news t id : version_ok h t -> h_nodes h' = (h_nodes h ++ news)%list -> FindNodeId h' t id = FindNodeId h t id.
Proof.
  intros [_ Hn _ _] Hh. unfold FindNodeId. apply find_ext_in. intros r Hr. destruct (Forall2_elem_l _ _ _ _ Hn Hr) as (n & _ & x & Hx & _).
  by rewrite Hx, (node_of_app h h' news r x Hh Hx).
Qed.
Lemma FindNode_app h h' news t ext : version_ok h t -> h_nodes h' = (h_nodes h ++ news)%list -> FindNode h' t ext = FindNode h t ext.
Proof. intros Hv Hh. unfold FindNode. destruct (SMap.find ext (t_node_ids t)); [by eapply FindNodeId_app|done]. Qed.

Section build.
Context (describe : OperatorKey -> option CapabilityDescriptor) (create : OperatorKey -> Z -> string -> json -> option Status).
Context (options : BuildOptions) (spec : GraphSpec) (v : ValidatedGraph) (h0 : heap).
Local Abbreviation base := (bo_base options).
Local Abbreviation rn := (bo_reused_nodes options).
Local Abbreviation re := (bo_reused_edges options).

Definition next_node0 : Z := match base with Some t => t_next_node t | None => 1 end.
Definition next_edge0 : Z := match base with Some t => t_next_edge t | None => 1 end.

Hypothesis spec_wf : wf spec.
Hypothesis base_ok : forall t, base = Some t -> version_ok h0 t /\ reuse_sound t spec v rn re.
Hypothesis room : 0 <= next_node0 /\ next_node0 + Z.of_nat (List.length (nodes_ spec)) < 2 ^ 64.

(** The statuses the operator factory can cause. *)
Definition factory_error (s : Status) : Prop :=
  exists n, n ∈ nodes_ spec /\
    ((describe (ns_op n) = None /\ s = StatusOps.NotFound ("operator '" ++ OperatorKeyOps.ToString (ns_op n) ++ "' not found")) \/
     exists id, create (ns_op n) id (ns_id n) (ns_options n) = Some s).

Definition node_built (b : builder) (r : nat) (n : NodeSpec) : Prop :=
  exists x, node_of (b_heap b) r = Some x /\ n_external_id x = ns_id n /\ n_key x = ns_op n /\
    SMap.find (ns_id n) (b_ids b) = Some (n_id x) /\ SMap.find (n_id x) (b_by_id b) = Some r /\ n_id x < b_next_node b /\
    match reuses rn base (ns_id n) with
    | Some t => FindNode h0 t (ns_id n) = Some r /\ n_id x < next_node0
    | None => next_node0 <= n_id x /\ (List.length (h_nodes h0) <= r)%nat
    end.

Record nodes_built (before : list NodeSpec) (b : builder) : Prop := {
  nb_heap : exists news, b_heap b = MkHeap (h_nodes h0 ++ news)%list (h_edges h0) (h_inputs h0) (h_tags h0);
  nb_nodes : Forall2 (node_built b) (b_nodes b) before;
  nb_by_id : forall id r, SMap.find id (b_by_id b) = Some r -> r ∈ b_nodes b /\ exists x, node_of (b_heap b) r = Some x /\ n_id x = id;
  nb_new : b_new_nodes b = List.filter (fun r => List.length (h_nodes h0) <=? r)%nat (b_nodes b);
  nb_next : next_node0 <= b_next_node b <= next_node0 + Z.of_nat (List.length before);
  nb_rest : b_edges b = [] /\ b_next_edge b = next_edge0 /\ b_new_edges b = [] /\ b_routes b = [] /\ b_bindings b = [];
  nb_fresh : forall r, (List.length (h_nodes h0) <= r < List.length (h_nodes (b_heap b)))%nat -> r ∈ b_nodes b;
}.

(** A carried-over node, found in the base. *)
Lemma base_node n t : n ∈ nodes_ spec -> reuses rn base (ns_id n) = Some t ->
  exists r x, FindNode h0 t (ns_id n) = Some r /\ node_of h0 r = Some x /\ n_external_id x = ns_id n /\ n_key x = ns_op n /\
    FindNodeId h0 t (n_id x) = Some r /\ n_id x < next_node0.
Proof.
  intros Hin [Hb Hr]%reuses_iff. destruct (base_ok t Hb) as [[_ Hn _ _] [Hs _]].
  destruct (Hs n Hin Hr) as (b & Hbin & Hid & Hop). apply list_elem_of_lookup in Hbin as [i Hi].
  destruct (Forall2_lookup_r _ _ _ _ _ Hn Hi) as (r & _ & x & Hx & He & Hk & Hf & Hfi & Hlt & _).
  exists r, x. unfold FindNode. rewrite <- Hid, Hf. split_and!; try done; try congruence.
  unfold next_node0. by rewrite Hb.
Qed.

(** Different nodes built so far have different ids. *)
Lemma fresh_id before b n t r x :
  nodes_built before b -> ns_id n ∉ ns_id <$> before -> reuses rn base (ns_id n) = Some t ->
  FindNode h0 t (ns_id n) = Some r -> node_of h0 r = Some x -> n_external_id x = ns_id n -> FindNodeId h0 t (n_id x) = Some r -> n_id x < next_node0 ->
  SMap.find (n_id x) (b_by_id b) = None.
Proof.
  intros [[news Hh] Hn Hby _ _ _ _] Hnew Hre Hf Hx Hext Hfi Hlt. destruct (SMap.find (n_id x) (b_by_id b)) as [r'|] eqn:E; [|done]. exfalso.
  destruct (Hby _ _ E) as [Hr' (x' & Hx' & Hid)]. destruct (Forall2_elem_l _ _ _ _ Hn Hr') as (n' & Hn' & y & Hy & Hey & _ & _ & _ & _ & Hcase).
  rewrite Hx' in Hy. injection Hy as <-. destruct (reuses rn base (ns_id n')) as [t'|] eqn:E'.
  - apply reuses_iff in E' as [Eb _]. apply reuses_iff in Hre as [Eb' _]. rewrite Eb' in Eb. injection Eb as <-.
    destruct Hcase as [Hf' _]. unfold FindNode in Hf'. destruct (SMap.find (ns_id n') (t_node_ids t)) as [id'|] eqn:Ei; [|done].
    pose proof Hf' as Hff. unfold FindNodeId in Hff. apply List.find_some in Hff as [_ Hb].
    destruct (node_of h0 r') as [z|] eqn:Ez; [|done]. apply Z.eqb_eq in Hb.
    assert (Hz : node_of (b_heap b) r' = Some z) by (eapply (node_of_app h0); [by rewrite Hh|done]). rewrite Hx' in Hz. injection Hz as <-.
    rewrite Hb in Hid. rewrite Hid, Hfi in Hf'. injection Hf' as <-. rewrite Hx in Ez. injection Ez as <-.
    apply Hnew. rewrite <- Hext, Hey. by apply list_elem_of_fmap_2.
  - lia.
Qed.

Lemma node_built_mono b b' news m i r' r n :
  h_nodes (b_heap b') = (h_nodes (b_heap b) ++ news)%list -> b_ids b' = SMap.set m i (b_ids b) ->
  b_by_id b' = (SMap.emplace i r' (b_by_id b)).1 -> b_next_node b <= b_next_node b' -> m <> ns_id n ->
  node_built b r n -> node_built b' r n.
Proof.
  intros Hh Hi Hb Hnx Hne (x & H1 & H2 & H3 & H4 & H5 & H6 & H7). exists x. split_and!; try done.
  - by eapply node_of_app.
  - rewrite Hi. by rewrite SMap.find_set_ne.
  - by rewrite Hb, find_emplace, H5.
  - lia.
Qed.

(** Adding a node whose id is not taken. *)
Lemma node_added before n b b' r x news :
  nodes_built before b -> ns_id n ∉ ns_id <$> before -> SMap.find (n_id x) (b_by_id b) = None ->
  b_heap b' = MkHeap (h_nodes (b_heap b) ++ news)%list (h_edges (b_heap b)) (h_inputs (b_heap b)) (h_tags (b_heap b)) ->
  (forall q, (List.length (h_nodes (b_heap b)) <= q < List.length (h_nodes (b_heap b) ++ news))%nat -> q = r) ->
  b_nodes b' = (b_nodes b ++ [r])%list -> b_ids b' = SMap.set (ns_id n) (n_id x) (b_ids b) -> b_by_id b' = (SMap.emplace (n_id x) r (b_by_id b)).1 ->
  b_new_nodes b' = (if List.length (h_nodes h0) <=? r then b_new_nodes b ++ [r] else b_new_nodes b)%list%nat ->
  b_next_node b <= b_next_node b' <= b_next_node b + 1 -> n_id x < b_next_node b' ->
  (b_edges b', b_next_edge b', b_new_edges b', b_routes b', b_bindings b') = (b_edges b, b_next_edge b, b_new_edges b, b_routes b, b_bindings b) ->
  node_of (b_heap b') r = Some x -> n_external_id x = ns_id n -> n_key x = ns_op n ->
  match reuses rn base (ns_id n) with
  | Some t => FindNode h0 t (ns_id n) = Some r /\ n_id x < next_node0
  | None => next_node0 <= n_id x /\ (List.length (h_nodes h0) <= r)%nat
  end -> nodes_built (before ++ [n])%list b'.
Proof.
  intros [[news0 Hh] Hn Hby Hnw Hnx Hrest Hfr] Hnew Hfresh Eh Hq En Ei Eb Ew Enx Hlt [= E1 E2 E3 E4 E5] Hx Hext Hkey Hcase.
  split; [| | | | |by rewrite E1, E2, E3, E4, E5|].
  - exists (news0 ++ news)%list. rewrite Eh, Hh. simpl. by rewrite app_assoc.
  - rewrite En. apply Forall2_app.
    + eapply Forall2_impl_in; [exact Hn|]. intros r0 m Hr0 Hm Hbm. eapply (node_built_mono b _ news); [by rewrite Eh|done|done|lia| |done].
      intros E. apply Hnew. rewrite E. by apply list_elem_of_fmap_2.
    + constructor; [|constructor]. exists x. rewrite Ei, Eb, SMap.find_set_eq, find_emplace, Hfresh, decide_True by done. by split_and!.
  - intros id r0. rewrite Eb, En, find_emplace, elem_of_app, list_elem_of_singleton. destruct (SMap.find id (b_by_id b)) as [r1|] eqn:E.
    + intros [= <-]. destruct (Hby _ _ E) as [? (y & Hy & ?)]. split; [auto|]. exists y. split; [by eapply (node_of_app (b_heap b)); [rewrite Eh|]|done].
    + destruct (decide (n_id x = id)) as [<-|]; [|done]. intros [= <-]. eauto.
  - rewrite Ew, En, List.filter_app, <- Hnw. simpl. destruct (_ <=? r)%nat; [done|by rewrite app_nil_r].
  - rewrite length_app. simpl. lia.
  - intros q. rewrite Eh, En, elem_of_app, list_elem_of_singleton. simpl. intros Hqr.
    destruct (decide (q < List.length (h_nodes (b_heap b)))%nat); [left; apply Hfr; lia|right; apply Hq; lia].
Qed.

Lemma build_node_reused before n t b :
  nodes_built before b -> n ∈ nodes_ spec -> ns_id n ∉ ns_id <$> before -> reuses rn base (ns_id n) = Some t ->
  ends_in (build_node describe create options n b) (nodes_built (before ++ [n])%list) factory_error.
Proof.
  intros Hb Hin Hnew Er. unfold build_node. rewrite Er. pose proof Hb as [[news Hh] _ _ _ _ _ _].
  destruct (base_node n t Hin Er) as (r & x & Hf & Hx & Hext & Hkey & Hfi & Hlt).
  assert (Hfb : FindNode (b_heap b) t (ns_id n) = Some r).
  { rewrite <- Hf. apply reuses_iff in Er as [Eb _]. destruct (base_ok t Eb) as [Hv _]. apply (FindNode_app _ _ news); [done|by rewrite Hh]. }
  assert (Hxb : node_of (b_heap b) r = Some x) by (eapply (node_of_app h0); [by rewrite Hh|done]).
  assert (Hr : (r < List.length (h_nodes h0))%nat) by (by eapply lookup_lt_Some).
  eapply ends_ensure; [exact Hfb|]. eapply ends_at; [exact Hxb|]. cbn [ends_in returns].
  eapply (node_added before n b _ r x []); cbn; try done; [by eapply fresh_id| | | |lia| |by rewrite Er].
  - rewrite app_nil_r. by destruct (b_heap b).
  - intros q. rewrite app_nil_r. lia.
  - by rewrite (proj2 (Nat.leb_gt _ _) Hr).
  - pose proof (nb_next _ _ Hb). lia.
Qed.

Lemma build_node_new before n b :
  nodes_built before b -> n ∈ nodes_ spec -> ns_id n ∉ ns_id <$> before -> reuses rn base (ns_id n) = None ->
  (List.length before < List.length (nodes_ spec))%nat ->
  ends_in (build_node describe create options n b) (nodes_built (before ++ [n])%list) factory_error.
Proof.
  intros Hb Hin Hnew Er Hlen. unfold build_node. rewrite Er. pose proof Hb as [[news Hh] Hn Hby _ Hnx _ _].
  destruct (describe (ns_op n)) as [cap|] eqn:Ed; [|exists n; auto]. cbn [ensure then_ returns].
  destruct (create (ns_op n) (b_next_node b) (ns_id n) (ns_options n)) as [s|] eqn:Ec; [exists n; eauto|].
  set (x := Node.make _ _ _ _ _ _). set (r := List.length (h_nodes (b_heap b))).
  assert (Hu : Word.u64 (b_next_node b + 1) = b_next_node b + 1) by (apply Word.u64_small; unfold Word.is_u64; lia).
  assert (Hr : (List.length (h_nodes h0) <= r)%nat) by (unfold r; rewrite Hh; simpl; rewrite length_app; lia).
  assert (Hfresh : SMap.find (b_next_node b) (b_by_id b) = None).
  { destruct (SMap.find (b_next_node b) (b_by_id b)) as [r1|] eqn:E; [|done]. exfalso. destruct (Hby _ _ E) as [Hr1 (x1 & Hx1 & Hid)].
    destruct (Forall2_elem_l _ _ _ _ Hn Hr1) as (n1 & _ & y & Hy & _ & _ & _ & _ & Hlt & _). rewrite Hx1 in Hy. injection Hy as <-. lia. }
  cbn [ends_in returns]. eapply (node_added before n b _ r x [x]); cbn [b_heap b_nodes b_ids b_by_id b_next_node b_new_nodes b_edges b_next_edge b_new_edges b_routes b_bindings]; try done.
  - intros q. rewrite length_app. simpl. unfold r. lia.
  - by rewrite (proj2 (Nat.leb_le _ _) Hr).
  - lia.
  - simpl. lia.
  - unfold node_of, r. simpl. by apply list_lookup_middle.
  - rewrite Er. simpl. lia.
Qed.

Lemma build_node_ends before n after b :
  nodes_built before b -> (before ++ n :: after)%list = nodes_ spec ->
  ends_in (build_node describe create options n b) (nodes_built (before ++ [n])%list) factory_error.
Proof.
  intros Hb Hl. assert (Hin : n ∈ nodes_ spec) by (rewrite <- Hl; apply elem_of_app; right; by left).
  assert (Hnew : ns_id n ∉ ns_id <$> before).
  { pose proof (wf_node_ids _ spec_wf) as Hd. rewrite <- Hl, fmap_app in Hd. apply NoDup_app in Hd as (_ & Hd & _). intros Hi. apply (Hd _ Hi). by left. }
  assert (Hlen : (List.length before < List.length (nodes_ spec))%nat) by (rewrite <- Hl, length_app; simpl; lia).
  destruct (reuses rn base (ns_id n)) as [t|] eqn:Er; [by eapply build_node_reused|by apply build_node_new].
Qed.

Lemma build_nodes_ends :
  ends_in (each_of (build_node describe create options) (nodes_ spec) (MkBuilder h0 [] [] [] next_node0 [] [] next_edge0 [] [] []))
    (nodes_built (nodes_ spec)) factory_error.
Proof.
  apply (each_of_ends _ nodes_built _ _ []); [intros before n after b; apply build_node_ends| |done].
  split; simpl; try done; [exists []; simpl; rewrite app_nil_r; by destruct h0|lia|intros r Hr; lia].
Qed.

(** ** Building the edges *)

Hypothesis contracts : forall e, e ∈ edges_ spec -> SMap.find (es_id e) (edge_contracts v) <> None.

(** A node of the graph as the first loop built it. *)
Lemma built_end b id : nodes_built (nodes_ spec) b -> id ∈ ns_id <$> nodes_ spec ->
  exists r x, r ∈ b_nodes b /\ node_of (b_heap b) r = Some x /\ n_external_id x = id /\ SMap.find id (b_ids b) = Some (n_id x) /\
    SMap.find (n_id x) (b_by_id b) = Some r /\ forall t, reuses rn base id = Some t -> FindNode h0 t id = Some r.
Proof.
  intros [_ Hn _ _ _ _ _] (n & -> & Hin)%list_elem_of_fmap. apply list_elem_of_lookup in Hin as [i Hi].
  destruct (Forall2_lookup_r _ _ _ _ _ Hn Hi) as (r & Hr & x & H1 & H2 & _ & H4 & H5 & _ & H7).
  exists r, x. split; [by apply (list_elem_of_lookup_2 _ i)|]. split_and!; try done.
  intros t Ht. rewrite Ht in H7. by destruct H7.
Qed.

(** The first node with an id is the node with that id. *)
Lemma find_by_id b h r x :
  nodes_built (nodes_ spec) b -> h_nodes h = h_nodes (b_heap b) -> node_of (b_heap b) r = Some x -> r ∈ b_nodes b ->
  List.find (fun r => match node_of h r with Some n => n_id n =? n_id x | None => false end) (b_nodes b) = Some r.
Proof.
  intros [_ Hn _ _ _ _ _] Hh Hx Hr. assert (Hnode : forall r, node_of h r = node_of (b_heap b) r) by (intros r'; unfold node_of; by rewrite Hh).
  destruct (List.find _ _) as [r'|] eqn:E.
  - apply List.find_some in E as [Hin Hb]. apply list_elem_of_In in Hin. rewrite Hnode in Hb.
    destruct (node_of (b_heap b) r') as [x'|] eqn:Ex; [|done]. apply Z.eqb_eq in Hb.
    destruct (Forall2_elem_l _ _ _ _ Hn Hr) as (n1 & _ & y & Hy & _ & _ & _ & Hby & _). rewrite Hx in Hy. injection Hy as <-.
    destruct (Forall2_elem_l _ _ _ _ Hn Hin) as (n2 & _ & y & Hy & _ & _ & _ & Hby' & _). rewrite Ex in Hy. injection Hy as <-. congruence.
  - exfalso. rewrite list_elem_of_In in Hr. pose proof (List.find_none _ _ E _ Hr) as Hf. simpl in Hf. rewrite Hnode, Hx in Hf. by rewrite Z.eqb_refl in Hf.
Qed.

(** A carried-over edge, found in the base with everything unchanged. *)
Lemma base_edge e t : e ∈ edges_ spec -> reuses re base (es_id e) = Some t ->
  exists r c, FindEdge h0 t (es_id e) = Some r /\ h_edges h0 !! r = Some c /\ external_id_ (ch_edge c) = es_id e /\
    from_ (ch_edge c) = es_from e /\ to_ (ch_edge c) = es_to e /\ config_ (ch_edge c) = queue_config e (contract_ (ch_edge c)) /\
    FindNode h0 t (node_id (es_from e)) = Some (ch_producer c) /\ FindNode h0 t (node_id (es_to e)) = Some (ch_consumer c) /\
    (node_id (es_from e) ∈ rn) /\ (node_id (es_to e) ∈ rn) /\
    forall y, SMap.find (es_id e) (edge_contracts v) = Some y -> Negotiator.SameDataPlane (contract_ (ch_edge c)) y = true.
Proof.
  intros Hin [Hb Hr]%reuses_iff. destruct (base_ok t Hb) as [[Hw _ He _] [_ Hs]].
  destruct (Hs e Hin Hr) as (x & Hx & Hid & Hf & Ht & Hq & Rf & Rt & Hc). pose proof Hx as Hx'. apply list_elem_of_lookup in Hx as [i Hi].
  destruct (Forall2_lookup_r _ _ _ _ _ He Hi) as (r & Hri & c & ct & H1 & H2 & H3 & H4 & H5 & H6 & H7 & H8 & H9).
  assert (Hfind : FindEdge h0 t (es_id e) = Some r).
  { unfold FindEdge. destruct (List.find _ _) as [r'|] eqn:E.
    - apply List.find_some in E as [Hr' Hb'%bool_decide_eq_true]. apply list_elem_of_In, list_elem_of_lookup in Hr' as [j Hj].
      destruct (Forall2_lookup_l _ _ _ _ _ He Hj) as (x' & Hxj & c' & ct' & K1 & K2 & _). unfold external_of in Hb'. rewrite K1 in Hb'. injection Hb' as Hb'.
      assert (i = j) as ->; [|congruence]. eapply NoDup_lookup; [apply (wf_edge_ids _ Hw)| |]; rewrite list_lookup_fmap; [rewrite Hi|rewrite Hxj]; simpl; [done|congruence].
    - exfalso. apply list_elem_of_lookup_2, list_elem_of_In in Hri. pose proof (List.find_none _ _ E _ Hri) as Hf'. simpl in Hf'. unfold external_of in Hf'. rewrite H1 in Hf'.
      apply bool_decide_eq_false in Hf'. congruence. }
  exists r, c. rewrite Hf in H3, H8. rewrite Ht in H4, H9. split_and!; try done; [congruence|by unfold queue_config in *; rewrite <- Hq|].
  intros y Hy. rewrite Hid in H5. pose proof (Hc _ _ H5 Hy) as Hs'. destruct H6 as [->|H6]; [done|]. by eapply SameDataPlane_trans.
Qed.

Definition end_ref (b1 : builder) (id : string) (r : nat) : Prop :=
  exists i, SMap.find id (b_ids b1) = Some i /\ SMap.find i (b_by_id b1) = Some r.

Definition edge_built (b1 : builder) (h : heap) (r : edge_ref) (e : EdgeSpec) : Prop :=
  exists c contract, h_edges h !! r = Some c /\ external_id_ (ch_edge c) = es_id e /\ from_ (ch_edge c) = es_from e /\ to_ (ch_edge c) = es_to e /\
    SMap.find (es_id e) (edge_contracts v) = Some contract /\ same_plane (contract_ (ch_edge c)) contract /\
    config_ (ch_edge c) = queue_config e (contract_ (ch_edge c)) /\
    end_ref b1 (node_id (es_from e)) (ch_producer c) /\ end_ref b1 (node_id (es_to e)) (ch_consumer c) /\
    match reuses re base (es_id e) with Some t => FindEdge h0 t (es_id e) = Some r | None => (List.length (h_edges h0) <= r)%nat end.

(** Which of the edges built so far start at an output, or end at a node. *)
Definition starts_at (b1 : builder) (id : Z) (p : string) (re : edge_ref * EdgeSpec) : bool :=
  bool_decide (SMap.find (node_id (es_from re.2)) (b_ids b1) = Some id) && bool_decide (GraphSpec.port (es_from re.2) = p).
Definition ends_at_node (b1 : builder) (id : Z) (re : edge_ref * EdgeSpec) : bool :=
  bool_decide (SMap.find (node_id (es_to re.2)) (b_ids b1) = Some id).
Definition required_at (b1 : builder) (e : EdgeSpec) : bool :=
  match SMap.find (node_id (es_to e)) (b_ids b1) with
  | Some id =>
      match SMap.find id (b_by_id b1) with
      | Some r =>
          match node_of (b_heap b1) r with
          | Some n => match Descriptor.FindInput (GraphSpec.port (es_to e)) (n_capability n) with Some p => pc_required p | None => false end
          | None => false
          end
      | None => false
      end
  | None => false
  end.
Definition binding_of (b1 : builder) (re : edge_ref * EdgeSpec) : InputPortBinding :=
  MkInputPortBinding (GraphSpec.port (es_to re.2)) (Some re.1) (required_at b1 re.2) [].

Record edges_built (b1 : builder) (before : list EdgeSpec) (b : builder) : Prop := {
  eb_nodes : b_nodes b = b_nodes b1 /\ b_ids b = b_ids b1 /\ b_by_id b = b_by_id b1 /\ b_next_node b = b_next_node b1;
  eb_heap : exists news tags, b_heap b = MkHeap (h_nodes (b_heap b1)) (h_edges h0 ++ news)%list (h_inputs h0) tags;
  eb_new : b_new_edges b = List.filter (fun r => List.length (h_edges h0) <=? r)%nat (b_edges b) /\ b_new_nodes b = b_new_nodes b1;
  eb_edges : Forall2 (edge_built b1 (b_heap b)) (b_edges b) before;
  eb_routes : forall id p, map re_edge (default [] (SMap.find (id, p) (b_routes b))) = map fst (List.filter (starts_at b1 id p) (combine (b_edges b) before));
  eb_bindings : forall id, default [] (SMap.find id (b_bindings b)) = map (binding_of b1) (List.filter (ends_at_node b1 id) (combine (b_edges b) before));
  eb_fresh : forall r, (List.length (h_edges h0) <= r < List.length (h_edges (b_heap b)))%nat -> r ∈ b_edges b;
}.

Lemma combine_snoc {A B} (l : list A) (k : list B) x y :
  List.length l = List.length k -> combine (l ++ [x]) (k ++ [y]) = (combine l k ++ [(x, y)])%list.
Proof. revert k. induction l as [|a l IH]; intros [|b k] H; simpl in *; try done. by rewrite IH by lia. Qed.

(** Recording an edge in the route table and in the port table. *)
Lemma routes_snoc b1 b before r e contract tag from :
  edges_built b1 before b -> SMap.find (node_id (es_from e)) (b_ids b1) = Some from -> forall id p,
  map re_edge (default [] (SMap.find (id, p) (SMap.set (from, GraphSpec.port (es_from e))
    (default [] (SMap.find (from, GraphSpec.port (es_from e)) (b_routes b)) ++ [MkRoute r contract tag])%list (b_routes b)))) =
  map fst (List.filter (starts_at b1 id p) (combine (b_edges b ++ [r]) (before ++ [e]))).
Proof.
  intros [_ _ _ He Hr _ _] Hf id p. rewrite combine_snoc by (by eapply Forall2_length). rewrite List.filter_app, map_app, <- Hr, SMap.find_set. simpl.
  unfold starts_at at 1. simpl. rewrite Hf. destruct (decide ((from, GraphSpec.port (es_from e)) = (id, p))) as [[= <- <-]|Hne].
  - rewrite !bool_decide_true by done. simpl. by rewrite map_app.
  - assert (Hb : bool_decide (Some from = Some id) && bool_decide (GraphSpec.port (es_from e) = p) = false).
    { destruct (bool_decide (Some from = Some id)) eqn:E1; [|done]. apply bool_decide_eq_true in E1. injection E1 as ->. simpl.
      apply bool_decide_eq_false. congruence. }
    rewrite Hb. simpl. by rewrite app_nil_r.
Qed.

Lemma bindings_snoc b1 b before r e to req :
  edges_built b1 before b -> SMap.find (node_id (es_to e)) (b_ids b1) = Some to -> req = required_at b1 e -> forall id,
  default [] (SMap.find id (SMap.set to (default [] (SMap.find to (b_bindings b)) ++ [MkInputPortBinding (GraphSpec.port (es_to e)) (Some r) req []])%list
    (b_bindings b))) = map (binding_of b1) (List.filter (ends_at_node b1 id) (combine (b_edges b ++ [r]) (before ++ [e]))).
Proof.
  intros [_ _ _ He _ Hb _] Ht -> id. rewrite combine_snoc by (by eapply Forall2_length). rewrite List.filter_app, map_app, <- Hb, SMap.find_set. simpl.
  unfold ends_at_node at 1. simpl. rewrite Ht. destruct (decide (to = id)) as [->|Hne].
  - rewrite bool_decide_true by done. done.
  - rewrite bool_decide_false by congruence. simpl. by rewrite app_nil_r.
Qed.

Lemma edge_built_mono b1 h h' news r e : h_edges h' = (h_edges h ++ news)%list -> edge_built b1 h r e -> edge_built b1 h' r e.
Proof. intros Hh (c & ct & H1 & H2). exists c, ct. split; [|done]. rewrite Hh. by apply lookup_app_l_Some. Qed.

(** Recording an edge, carried over or new. *)
Lemma edge_added b1 before b b' e r contract tag tags news from to req :
  edges_built b1 before b -> edge_built b1 (b_heap b') r e ->
  b_heap b' = MkHeap (h_nodes (b_heap b)) (h_edges (b_heap b) ++ news)%list (h_inputs (b_heap b)) tags ->
  (b_nodes b', b_ids b', b_by_id b', b_next_node b', b_new_nodes b') = (b_nodes b, b_ids b, b_by_id b, b_next_node b, b_new_nodes b) ->
  (forall q, (List.length (h_edges (b_heap b)) <= q < List.length (h_edges (b_heap b) ++ news))%nat -> q = r) ->
  b_edges b' = (b_edges b ++ [r])%list ->
  b_new_edges b' = (if List.length (h_edges h0) <=? r then b_new_edges b ++ [r] else b_new_edges b)%list%nat ->
  SMap.find (node_id (es_from e)) (b_ids b1) = Some from -> SMap.find (node_id (es_to e)) (b_ids b1) = Some to -> req = required_at b1 e ->
  b_routes b' = SMap.set (from, GraphSpec.port (es_from e)) (default [] (SMap.find (from, GraphSpec.port (es_from e)) (b_routes b)) ++ [MkRoute r contract tag])%list (b_routes b) ->
  b_bindings b' = SMap.set to (default [] (SMap.find to (b_bindings b)) ++ [MkInputPortBinding (GraphSpec.port (es_to e)) (Some r) req []])%list (b_bindings b) ->
  edges_built b1 (before ++ [e])%list b'.
Proof.
  intros Hb He Eh [= N1 N2 N3 N4 N5] Hq Ee Ew Hf Ht Hreq Er Eb. pose proof Hb as [(M1 & M2 & M3 & M4) (news0 & tags0 & Hh) [W1 W2] Hes _ _ Hfr]. split.
  - by rewrite N1, N2, N3, N4.
  - exists (news0 ++ news)%list, tags. rewrite Eh, Hh. simpl. by rewrite app_assoc.
  - split; [|congruence]. rewrite Ew, Ee, List.filter_app. change (@List.filter edge_ref) with (@List.filter nat). rewrite <- W1. simpl. destruct (_ <=? r)%nat; [done|by rewrite app_nil_r].
  - rewrite Ee. apply Forall2_app; [|by constructor]. eapply Forall2_impl; [exact Hes|]. intros r0 e0. apply (edge_built_mono _ _ _ news). by rewrite Eh.
  - rewrite Er, Ee. by apply routes_snoc.
  - rewrite Eb, Ee. by apply bindings_snoc.
  - intros q. rewrite Eh, Ee, elem_of_app, list_elem_of_singleton. simpl. intros Hqr.
    destruct (decide (q < List.length (h_edges (b_heap b)))%nat); [left; apply Hfr; lia|right; apply Hq; lia].
Qed.

(** A carried-over edge still connects the nodes of the new version. *)
Lemma reused_edge_ends b1 before b e contract :
  nodes_built (nodes_ spec) b1 -> edges_built b1 before b -> e ∈ edges_ spec -> SMap.find (es_id e) (edge_contracts v) = Some contract ->
  ends_in (reused_edge options e contract (b_heap b))
    (fun o => match o with
              | Some r => has (reuses re base (es_id e)) = true /\ (r < List.length (h_edges h0))%nat /\ edge_built b1 (b_heap b) r e
              | None => reuses re base (es_id e) = None
              end) factory_error.
Proof.
  intros Hn Hb Hin Hc. unfold reused_edge. destruct (reuses re base (es_id e)) as [t|] eqn:Er; [|done].
  destruct (base_edge e t Hin Er) as (r & c & Hf & Hx & H1 & H2 & H3 & H4 & H5 & H6 & Rf & Rt & H7).
  pose proof Hb as [_ (news & tags & Hh) _ _ _ _ _]. apply reuses_iff in Er as Er'. destruct Er' as [Eb _]. destruct (base_ok t Eb) as [[_ _ Hes _] _].
  assert (Hfb : FindEdge (b_heap b) t (es_id e) = Some r).
  { rewrite <- Hf. unfold FindEdge. apply find_ext_in. intros r' Hr'. destruct (Forall2_elem_l _ _ _ _ Hes Hr') as (e' & _ & c' & ct' & Hc' & _).
    unfold external_of. rewrite Hh. simpl. by rewrite Hc', (lookup_app_l_Some _ _ _ _ Hc'). }
  assert (Hxb : h_edges (b_heap b) !! r = Some c) by (rewrite Hh; simpl; by apply lookup_app_l_Some).
  eapply ends_ensure; [exact Hfb|]. eapply ends_at; [exact Hxb|]. rewrite (H7 _ Hc). cbn [ends_in returns]. split; [done|]. split; [by eapply lookup_lt_Some|].
  pose proof (wf_edges _ spec_wf) as We. rewrite Forall_forall in We. destruct (We e Hin) as (_ & Wf & Wt & _).
  assert (Hend : forall id q, id ∈ ns_id <$> nodes_ spec -> id ∈ rn -> FindNode h0 t id = Some q -> end_ref b1 id q).
  { intros id q Hid Hrn Hq. destruct (built_end b1 id Hn Hid) as (q' & x & _ & _ & _ & G1 & G2 & G3). exists (n_id x). split; [done|].
    rewrite (G3 t) in Hq by (by apply reuses_iff). injection Hq as <-. done. }
  exists c, contract. rewrite Er. split_and!; try done; [right; by apply H7|by apply Hend|by apply Hend].
Qed.

(** A new channel between two nodes of the new version. *)
Lemma new_edge_built b1 before b e contract p q tags :
  edges_built b1 before b -> SMap.find (es_id e) (edge_contracts v) = Some contract -> reuses re base (es_id e) = None ->
  end_ref b1 (node_id (es_from e)) p -> end_ref b1 (node_id (es_to e)) q ->
  let c := Edge.make (b_next_edge b) (es_id e) contract (MkEdgeConfig (q_capacity (es_queue e)) (q_policy (es_queue e)) (sync_policy contract)) (es_from e) (es_to e) in
  let h := b_heap b in
  (List.length (h_edges h0) <= List.length (h_edges h))%nat /\
  edge_built b1 (MkHeap (h_nodes h) (h_edges h ++ [MkChannel c p q])%list (h_inputs h) tags) (List.length (h_edges h)) e.
Proof.
  intros [_ (news & tg & Hh) _ _ _ _ _] Hc Hr Hp Hq c h.
  assert (Hlen : (List.length (h_edges h0) <= List.length (h_edges h))%nat) by (unfold h; rewrite Hh; simpl; rewrite length_app; lia).
  split; [done|]. exists (MkChannel c p q), contract. rewrite Hr. simpl. split_and!; try done; [by apply list_lookup_middle|by left].
Qed.

Lemma build_edge_ends b1 before e after b :
  nodes_built (nodes_ spec) b1 -> edges_built b1 before b -> (before ++ e :: after)%list = edges_ spec ->
  ends_in (build_edge options v e b) (edges_built b1 (before ++ [e])%list) factory_error.
Proof.
  intros Hn Hb Hl. assert (Hin : e ∈ edges_ spec) by (rewrite <- Hl; apply elem_of_app; right; by left).
  pose proof (wf_edges _ spec_wf) as We. rewrite Forall_forall in We. destruct (We e Hin) as (_ & Wf & Wt & _).
  destruct (built_end b1 _ Hn Wf) as (p & xp & _ & _ & _ & F1 & F2 & _). destruct (built_end b1 _ Hn Wt) as (q & xq & T1 & T2 & _ & T3 & T4 & _).
  pose proof Hb as [(N1 & N2 & N3 & N4) (news & tags & Hh) _ _ _ _ _].
  destruct (SMap.find (es_id e) (edge_contracts v)) as [contract|] eqn:Ec; [|by destruct (contracts e Hin)].
  unfold build_edge. eapply ends_at; [exact Ec|]. eapply ends_then; [by eapply reused_edge_ends|]. intros old Hold.
  eapply ends_at; [rewrite N2; exact F1|]. eapply ends_at; [rewrite N2; exact T3|].
  assert (Hreq : (match Descriptor.FindInput (GraphSpec.port (es_to e)) (n_capability xq) with Some p => pc_required p | None => false end) = required_at b1 e).
  { unfold required_at. by rewrite T3, T4, T2. }
  assert (Htgt : forall h, h_nodes h = h_nodes (b_heap b) -> List.find (fun r => match node_of h r with Some n => n_id n =? n_id xq | None => false end) (b_nodes b) = Some q).
  { intros h Eh. rewrite N1. eapply find_by_id; try done. by rewrite Eh, Hh. }
  assert (Hnode : forall h, h_nodes h = h_nodes (b_heap b) -> node_of h q = Some xq) by (intros h Eh; unfold node_of; by rewrite Eh, Hh).
  destruct old as [r|].
  - destruct Hold as (_ & Hr & He). cbn [then_ returns]. destruct (TypeTags.Intern (logical_type contract) _) as [tag tags'].
    eapply ends_at; [by apply Htgt|]. eapply ends_at; [by apply Hnode|]. cbn [ends_in returns].
    eapply (edge_added b1 before b _ e r contract tag tags' [] (n_id xp) (n_id xq)); cbn; try done.
    + by rewrite app_nil_r.
    + intros x. rewrite app_nil_r. lia.
    + by rewrite (proj2 (Nat.leb_gt _ _) Hr).
  - eapply ends_then; [eapply ends_at; [rewrite N3; exact F2|]; eapply ends_at; [rewrite N3; exact T4|]; by apply (eq_refl : _ = _)|].
    intros made <-. cbv beta iota. destruct (TypeTags.Intern (logical_type contract) _) as [tag tags'].
    eapply ends_at; [by apply Htgt|]. eapply ends_at; [by apply Hnode|]. cbn [ends_in returns].
    destruct (new_edge_built b1 before b e contract p q tags' Hb Ec Hold) as [Hlen He]; [by exists (n_id xp)|by exists (n_id xq)|].
    eapply (edge_added b1 before b _ e _ contract tag tags' _ (n_id xp) (n_id xq)); cbn; try done.
    + intros x. rewrite length_app. simpl. lia.
    + by rewrite (proj2 (Nat.leb_le _ _) Hlen).
Qed.

Lemma build_edges_ends b1 :
  nodes_built (nodes_ spec) b1 -> ends_in (each_of (build_edge options v) (edges_ spec) b1) (edges_built b1 (edges_ spec)) factory_error.
Proof.
  intros Hn. apply (each_of_ends _ (edges_built b1) _ _ []); [intros before e after b; by apply build_edge_ends| |done].
  pose proof Hn as [(news & Hh) _ _ _ _ (R1 & R2 & R3 & R4 & R5) _]. split; try done; try (by rewrite ?R1, ?R3, ?R4, ?R5).
  - exists [], (h_tags h0). rewrite Hh. simpl. by rewrite app_nil_r.
  - intros r. rewrite Hh. simpl. lia.
Qed.

(** ** Building the inputs *)

(** The port table the second loop collected for a node. *)
Definition table_of (b2 : builder) (x : NodeRuntime) : list InputPortBinding :=
  OrderedPorts (cd_inputs (n_capability x)) (default [] (SMap.find (n_id x) (b_bindings b2))).

(** The binding of a node: the base's, with a rebind when its table changed,
    or a new one. *)
Definition input_built (b2 : builder) (w : wiring) (r : nat) : Prop :=
  exists x i bnd, node_of (b_heap b2) r = Some x /\ SMap.find (n_id x) (w_inputs w) = Some i /\ h_inputs (w_heap w) !! i = Some bnd /\
    match reuses rn base (n_external_id x) with
    | Some t => InputsFor t (n_id x) = Some i /\
        SMap.find (n_id x) (w_rebinds w) = if has_table (b_heap b2) bnd (table_of b2 x) then None else Some (table_of b2 x, PolicyOf (b_heap b2) (table_of b2 x))
    | None => (List.length (h_inputs h0) <= i)%nat /\ bnd = make_binding (table_of b2 x) (PolicyOf (b_heap b2) (table_of b2 x)) (bo_aligned options) /\
        SMap.find (n_id x) (w_rebinds w) = None
    end.

Record inputs_built (b2 : builder) (before : list nat) (w : wiring) : Prop := {
  ib_heap : exists news, w_heap w = MkHeap (h_nodes (b_heap b2)) (h_edges (b_heap b2)) (h_inputs h0 ++ news)%list (h_tags (b_heap b2));
  ib_inputs : Forall (input_built b2 w) before;
  ib_from : forall id i, SMap.find id (w_inputs w) = Some i -> (i < List.length (h_inputs (w_heap w)))%nat /\
    ((exists t, base = Some t /\ InputsFor t id = Some i /\ (i < List.length (h_inputs h0))%nat) \/ (List.length (h_inputs h0) <= i)%nat);
  ib_distinct : forall id id' i, SMap.find id (w_inputs w) = Some i -> SMap.find id' (w_inputs w) = Some i -> id = id';
  ib_sorted : SMap.sorted (w_rebinds w);
  ib_rebinds : forall id, SMap.find id (w_rebinds w) <> None -> exists r x, r ∈ before /\ node_of (b_heap b2) r = Some x /\ n_id x = id;
}.

Lemma input_built_mono b2 w w' news y i r x :
  input_built b2 w r -> node_of (b_heap b2) r = Some x -> n_id x <> y ->
  h_inputs (w_heap w') = (h_inputs (w_heap w) ++ news)%list -> w_inputs w' = SMap.set y i (w_inputs w) ->
  (w_rebinds w' = w_rebinds w \/ exists p, w_rebinds w' = SMap.set y p (w_rebinds w)) -> input_built b2 w' r.
Proof.
  intros (x' & i' & bnd & H1 & H2 & H3 & H4) Hx Hne Hh Hi Hr. rewrite Hx in H1. injection H1 as <-.
  assert (Er : SMap.find (n_id x) (w_rebinds w') = SMap.find (n_id x) (w_rebinds w)).
  { destruct Hr as [->|[p ->]]; [done|]. by rewrite SMap.find_set_ne. }
  exists x, i', bnd. rewrite Er, Hi, SMap.find_set_ne, Hh by done. split_and!; try done. by apply lookup_app_l_Some.
Qed.

(** Nodes of the version with the same id are the same node. *)
Lemma same_node b1 r r' x x' :
  nodes_built (nodes_ spec) b1 -> r ∈ b_nodes b1 -> r' ∈ b_nodes b1 -> node_of (b_heap b1) r = Some x -> node_of (b_heap b1) r' = Some x' ->
  n_id x = n_id x' -> r = r'.
Proof.
  intros [_ Hn _ _ _ _ _] Hr Hr' Hx Hx' E.
  destruct (Forall2_elem_l _ _ _ _ Hn Hr) as (n & _ & y & Hy & _ & _ & _ & H5 & _). rewrite Hx in Hy. injection Hy as <-.
  destruct (Forall2_elem_l _ _ _ _ Hn Hr') as (n' & _ & y & Hy & _ & _ & _ & H5' & _). rewrite Hx' in Hy. injection Hy as <-. congruence.
Qed.

Lemma nodes_distinct b1 : nodes_built (nodes_ spec) b1 -> NoDup (b_nodes b1).
Proof.
  intros [_ Hn _ _ _ _ _]. apply NoDup_alt. intros i j r Hi Hj.
  destruct (Forall2_lookup_l _ _ _ _ _ Hn Hi) as (n & Ei & x & Hx & He & _). destruct (Forall2_lookup_l _ _ _ _ _ Hn Hj) as (m & Ej & y & Hy & He' & _).
  rewrite Hx in Hy. injection Hy as <-. apply (NoDup_lookup (ns_id <$> nodes_ spec) i j (ns_id n)); [apply (wf_node_ids _ spec_wf)| |]; rewrite list_lookup_fmap; [rewrite Ei|rewrite Ej]; simpl; congruence.
Qed.

(** The binding of a carried-over node, found in the base. *)
Lemma base_input b1 r x t :
  nodes_built (nodes_ spec) b1 -> r ∈ b_nodes b1 -> node_of (b_heap b1) r = Some x -> reuses rn base (n_external_id x) = Some t ->
  exists i bnd, InputsFor t (n_id x) = Some i /\ h_inputs h0 !! i = Some bnd.
Proof.
  intros Hb Hr Hx Er. pose proof Hb as [(news & Hh) Hn _ _ _ _ _].
  destruct (Forall2_elem_l _ _ _ _ Hn Hr) as (n & Hin & y & Hy & He & _ & _ & _ & _ & Hcase). rewrite Hx in Hy. injection Hy as <-.
  rewrite <- He, Er in Hcase. destruct Hcase as [Hf _]. apply reuses_iff in Er as [Eb _]. destruct (base_ok t Eb) as [[_ Hns _ _] _].
  unfold FindNode in Hf. destruct (SMap.find (n_external_id x) (t_node_ids t)) as [id|]; [|done].
  unfold FindNodeId in Hf. apply List.find_some in Hf as [Hrt%list_elem_of_In _].
  destruct (Forall2_elem_l _ _ _ _ Hns Hrt) as (m & _ & z & Hz & _ & _ & _ & _ & _ & i & bnd & Hi & Hbnd).
  assert (Hz' : node_of (b_heap b1) r = Some z) by (eapply (node_of_app h0); [by rewrite Hh|done]). rewrite Hx in Hz'. injection Hz' as <-.
  by exists i, bnd.
Qed.

(** No two nodes share a binding. *)
Lemma input_distinct b2 before w y i :
  inputs_built b2 before w ->
  ((exists t, base = Some t /\ InputsFor t y = Some i /\ (i < List.length (h_inputs h0))%nat) \/ i = List.length (h_inputs (w_heap w))) ->
  forall id id' j, SMap.find id (SMap.set y i (w_inputs w)) = Some j -> SMap.find id' (SMap.set y i (w_inputs w)) = Some j -> id = id'.
Proof.
  intros [_ _ Hfrom Hdist _ _] Hsrc.
  assert (Hnew : forall id, SMap.find id (w_inputs w) = Some i -> id = y).
  { intros id Hid. destruct (Hfrom _ _ Hid) as [Hlt Hc]. destruct Hsrc as [(t & Hb & Ht & Hl)|Hs]; [|lia].
    destruct Hc as [(t' & Hb' & Ht' & _)|Hc]; [|lia]. rewrite Hb in Hb'. injection Hb' as <-.
    destruct (base_ok t Hb) as [Hv _]. by apply (vo_inputs _ _ Hv id y i). }
  intros id id' j. rewrite !SMap.find_set. destruct (decide (y = id)) as [E1|], (decide (y = id')) as [E2|]; try congruence.
  - intros [= <-] H. by rewrite (Hnew _ H), E1.
  - intros H [= <-]. by rewrite (Hnew _ H), E2.
  - apply Hdist.
Qed.

(** Recording a binding, with a rebind or without. *)
Lemma input_added b2 before w w' r x i news pending :
  inputs_built b2 before w -> node_of (b_heap b2) r = Some x ->
  (forall r' x', r' ∈ before -> node_of (b_heap b2) r' = Some x' -> n_id x' <> n_id x) ->
  w_heap w' = MkHeap (h_nodes (w_heap w)) (h_edges (w_heap w)) (h_inputs (w_heap w) ++ news)%list (h_tags (w_heap w)) ->
  w_inputs w' = SMap.set (n_id x) i (w_inputs w) ->
  (i < List.length (h_inputs (w_heap w')))%nat /\
    ((exists t, base = Some t /\ InputsFor t (n_id x) = Some i /\ (i < List.length (h_inputs h0))%nat) \/ i = List.length (h_inputs (w_heap w))) ->
  w_rebinds w' = match pending with Some p => SMap.set (n_id x) p (w_rebinds w) | None => w_rebinds w end ->
  (SMap.find (n_id x) (w_rebinds w) = None -> SMap.find (n_id x) (w_rebinds w') = pending -> SMap.find (n_id x) (w_inputs w') = Some i -> input_built b2 w' r) ->
  inputs_built b2 (before ++ [r])%list w'.
Proof.
  intros Hw. pose proof Hw as [(news0 & Hh) Hi Hfrom Hdist Hsort Hr]. intros Hx Hother Eh Ei [Hlt Hsrc] Er Hnew.
  assert (Hnone : SMap.find (n_id x) (w_rebinds w) = None).
  { destruct (SMap.find (n_id x) (w_rebinds w)) eqn:E; [|done]. exfalso. destruct (Hr (n_id x)) as (r' & x' & Hr' & Hx' & E'); [by rewrite E|]. by eapply Hother. }
  split.
  - exists (news0 ++ news)%list. rewrite Eh, Hh. simpl. by rewrite app_assoc.
  - apply Forall_app. split.
    + apply Forall_forall. intros r' Hr'. rewrite Forall_forall in Hi. pose proof (Hi r' Hr') as Hb. pose proof Hb as (x' & _ & _ & Hx' & _).
      eapply input_built_mono; [exact Hb|exact Hx'|by eapply Hother|by rewrite Eh|exact Ei|]. rewrite Er. destruct pending as [p|]; [right; by exists p|by left].
    + constructor; [|constructor]. apply Hnew; [done| |by rewrite Ei, SMap.find_set_eq]. rewrite Er. destruct pending as [p|]; [by rewrite SMap.find_set_eq|done].
  - intros id j. rewrite Ei, SMap.find_set. destruct (decide (n_id x = id)) as [<-|Hne].
    + intros [= <-]. split; [done|]. destruct Hsrc as [Hsrc|Hsrc]; [by left|right]. rewrite Hsrc, Hh. simpl. rewrite length_app. lia.
    + intros [Hj Hc]%Hfrom. split; [|done]. rewrite Eh. simpl. rewrite length_app. lia.
  - rewrite Ei. by eapply input_distinct.
  - rewrite Er. destruct pending; [by apply SMap.set_sorted|done].
  - intros id Hid. destruct (decide (id = n_id x)) as [->|Hne]; [exists r, x; split; [apply elem_of_app; right; by left|done]|].
    destruct (Hr id) as (r' & x' & Hr' & Hx' & E').
    { rewrite Er in Hid. destruct pending as [p|]; [by rewrite SMap.find_set_ne in Hid|done]. }
    exists r', x'. split; [by apply elem_of_app; left|done].
Qed.

Lemma build_inputs_ends b1 b2 before r after w :
  nodes_built (nodes_ spec) b1 -> edges_built b1 (edges_ spec) b2 -> inputs_built b2 before w -> (before ++ r :: after)%list = b_nodes b2 ->
  ends_in (build_inputs options (b_bindings b2) r w) (inputs_built b2 (before ++ [r])%list) factory_error.
Proof.
  intros Hn1 [(N1 & _ & _ & _) (ne & tg & Hh2) _ _ _ _ _] Hw Hl. rewrite N1 in Hl. pose proof Hw as [(news & Hh) _ _ _ _ _].
  pose proof (nodes_distinct b1 Hn1) as Hd. rewrite <- Hl in Hd. apply NoDup_app in Hd as (_ & Hd & _).
  assert (Hin : r ∈ b_nodes b1) by (rewrite <- Hl; apply elem_of_app; right; by left).
  assert (Hnode : forall r, node_of (b_heap b2) r = node_of (b_heap b1) r) by (intros r'; unfold node_of; by rewrite Hh2).
  destruct (Forall2_elem_l _ _ _ _ (nb_nodes _ _ Hn1) Hin) as (n & _ & x & Hx & _).
  assert (Hother : forall r' x', r' ∈ before -> node_of (b_heap b2) r' = Some x' -> n_id x' <> n_id x).
  { intros r' x' Hr' Hx' E. rewrite Hnode in Hx'. apply (Hd r' Hr'). assert (r' = r) as ->; [|by left].
    eapply same_node; try done. rewrite <- Hl. by apply elem_of_app; left. }
  assert (Hxw : node_of (w_heap w) r = Some x) by (unfold node_of; rewrite Hh; by rewrite <- Hnode in Hx).
  assert (Hx2 : node_of (b_heap b2) r = Some x) by (by rewrite Hnode).
  unfold build_inputs. eapply ends_at; [exact Hxw|].
  assert (Hpol : forall p, PolicyOf (w_heap w) p = PolicyOf (b_heap b2) p) by (intros p; unfold PolicyOf; by rewrite Hh).
  cbv zeta. rewrite Hpol. fold (table_of b2 x). destruct (reuses rn base (n_external_id x)) as [t|] eqn:Er.
  - destruct (base_input b1 r x t Hn1 Hin Hx Er) as (i & bnd & Hi & Hbnd). eapply ends_ensure; [exact Hi|].
    assert (Hbw : h_inputs (w_heap w) !! i = Some bnd) by (rewrite Hh; by apply lookup_app_l_Some). eapply ends_at; [exact Hbw|].
    fold (has_table (b_heap b2) bnd (table_of b2 x)). cbn [ends_in returns].
    eapply (input_added b2 before w _ r x i [] (if has_table (b_heap b2) bnd (table_of b2 x) then None else Some (table_of b2 x, PolicyOf (b_heap b2) (table_of b2 x))));
      cbn [w_heap w_inputs w_rebinds]; try done; [rewrite app_nil_r; by destruct (w_heap w)| |by destruct (has_table _ _ _)|].
    { split; [by eapply lookup_lt_Some|]. left. exists t. apply reuses_iff in Er as [Eb _]. split; [done|]. split; [done|]. by eapply lookup_lt_Some. }
    intros _ Hp Hf. exists x, i, bnd. by rewrite Er.
  - cbn [ends_in returns].
    eapply (input_added b2 before w _ r x _ _ None); cbn [w_heap w_inputs w_rebinds]; try done.
    { simpl. rewrite length_app. simpl. split; [lia|by right]. }
    intros _ Hp Hf. eexists x, _, _. rewrite Er. split; [done|]. split; [exact Hf|]. split; [by apply list_lookup_middle|].
    split_and!; try done. rewrite Hh. simpl. rewrite length_app. lia.
Qed.

Lemma build_all_inputs_ends b1 b2 :
  nodes_built (nodes_ spec) b1 -> edges_built b1 (edges_ spec) b2 ->
  ends_in (each_of (build_inputs options (b_bindings b2)) (b_nodes b2) (MkWiring (b_heap b2) [] [])) (inputs_built b2 (b_nodes b2)) factory_error.
Proof.
  intros Hn He. apply (each_of_ends _ (inputs_built b2) _ _ []); [intros before r after w; by eapply build_inputs_ends| |done].
  destruct He as [_ (ne & tg & Hh) _ _ _ _ _]. split; [|constructor|done|done|constructor|done]. exists []. simpl. rewrite app_nil_r. by rewrite Hh.
Qed.

(** ** The version that was built *)

(** A node of the version, with its routes and its inputs. *)
Definition wired (h : heap) (t : RuntimeTopology) (r : nat) (n : NodeSpec) : Prop :=
  exists x i bnd, node_of h r = Some x /\ InputsFor t (n_id x) = Some i /\ h_inputs h !! i = Some bnd /\
    (forall p, map re_edge (default [] (RoutesFor t (n_id x) p)) = map fst (List.filter (leaves n p) (edges_of t))) /\
    let ports := port_table t n x in
    match reuses rn base (ns_id n) with
    | Some old => FindNode h0 old (ns_id n) = Some r /\ InputsFor old (n_id x) = Some i /\
        SMap.find (n_id x) (t_rebinds t) = if has_table h bnd ports then None else Some (ports, PolicyOf h ports)
    | None => (List.length (h_nodes h0) <= r)%nat /\ (List.length (h_inputs h0) <= i)%nat /\
        bnd = make_binding ports (PolicyOf h ports) (bo_aligned options) /\ SMap.find (n_id x) (t_rebinds t) = None
    end.

Record built (h : heap) (t : RuntimeTopology) : Prop := {
  bu_spec : t_spec t = spec /\ t_validated t = v /\ t_order t = topological_order v /\ t_version t = bo_version options;
  bu_ok : version_ok h t;
  bu_frame : exists ns es ins, h_nodes h = (h_nodes h0 ++ ns)%list /\ h_edges h = (h_edges h0 ++ es)%list /\ h_inputs h = (h_inputs h0 ++ ins)%list;
  bu_nodes : Forall2 (wired h t) (t_nodes t) (nodes_ spec);
  bu_edges : Forall2 (fun r e => match reuses re base (es_id e) with
                                 | Some old => FindEdge h0 old (es_id e) = Some r
                                 | None => (List.length (h_edges h0) <= r)%nat
                                 end) (t_edges t) (edges_ spec);
  bu_new : t_new_nodes t = List.filter (fun r => List.length (h_nodes h0) <=? r)%nat (t_nodes t) /\
           t_new_edges t = List.filter (fun r => List.length (h_edges h0) <=? r)%nat (t_edges t);
  bu_fresh : (forall r, (List.length (h_nodes h0) <= r < List.length (h_nodes h))%nat -> r ∈ t_nodes t) /\
             (forall r, (List.length (h_edges h0) <= r < List.length (h_edges h))%nat -> r ∈ t_edges t);
  bu_rebinds : SMap.sorted (t_rebinds t);
}.

Definition version_record (b2 : builder) (w : wiring) : RuntimeTopology :=
  MkTopology (bo_session options) (bo_version options) spec (b_nodes b2) (b_edges b2) (b_routes b2) (w_inputs w)
    (topological_order v) (b_ids b2) (b_next_node b2) (b_next_edge b2) v (b_new_nodes b2) (b_new_edges b2) (w_rebinds w) (bo_aligned options).

Section version.
Context (b1 b2 : builder) (w : wiring).
Hypothesis nodes_done : nodes_built (nodes_ spec) b1.
Hypothesis edges_done : edges_built b1 (edges_ spec) b2.
Hypothesis inputs_done : inputs_built b2 (b_nodes b2) w.

Lemma version_node r : node_of (w_heap w) r = node_of (b_heap b1) r.
Proof.
  destruct edges_done as [_ (ne & tg & Hh2) _ _ _ _ _], inputs_done as [(ni & Hh) _ _ _ _ _]. unfold node_of. by rewrite Hh, Hh2.
Qed.

Lemma version_find r x : r ∈ b_nodes b1 -> node_of (b_heap b1) r = Some x -> FindNodeId (w_heap w) (version_record b2 w) (n_id x) = Some r.
Proof.
  intros Hr Hx. unfold FindNodeId. simpl. destruct edges_done as [(N1 & _) (ne & tg & Hh2) _ _ _ _ _], inputs_done as [(ni & Hh) _ _ _ _ _].
  rewrite N1. eapply find_by_id; try done. by rewrite Hh, Hh2.
Qed.

Lemma version_end id r : end_ref b1 id r -> FindNode (w_heap w) (version_record b2 w) id = Some r.
Proof.
  intros (i & Hi & Hr). unfold FindNode. simpl. destruct edges_done as [(_ & N2 & _) _ _ _ _ _ _]. rewrite N2, Hi.
  destruct (nb_by_id _ _ nodes_done _ _ Hr) as [Hin (x & Hx & <-)]. by apply version_find.
Qed.

Lemma version_input r n x : r ∈ b_nodes b1 -> node_built b1 r n -> node_of (b_heap b1) r = Some x -> input_built b2 w r /\ n_external_id x = ns_id n.
Proof.
  intros Hr (y & Hy & He & _) Hx. rewrite Hx in Hy. injection Hy as <-. split; [|done].
  destruct inputs_done as [_ Hi _ _ _ _], edges_done as [(N1 & _) _ _ _ _ _ _]. rewrite Forall_forall in Hi. apply Hi. by rewrite N1.
Qed.

Lemma version_is_ok : version_ok (w_heap w) (version_record b2 w).
Proof.
  pose proof edges_done as [(N1 & N2 & _ & N4) (ne & tg & Hh2) _ He _ _ _]. pose proof inputs_done as [(ni & Hh) _ _ _ _ _]. split; simpl; [done| | |by apply (ib_distinct _ _ _ inputs_done)].
  - rewrite N1. eapply Forall2_impl_in; [exact (nb_nodes _ _ nodes_done)|]. intros r n Hr Hn Hb.
    pose proof Hb as (x & H1 & H2 & H3 & H4 & _ & H6 & _). exists x. rewrite version_node. simpl. rewrite N2, N4. split_and!; try done; [by apply version_find|].
    destruct (version_input r n x Hr Hb H1) as [(y & i & bnd & Hy & Hi & Hbnd & _) _]. unfold node_of in Hy. rewrite Hh2 in Hy.
    change (node_of (b_heap b1) r = Some y) in Hy. rewrite H1 in Hy. injection Hy as <-. by exists i, bnd.
  - eapply Forall2_impl; [exact He|]. intros r e (c & ct & H1 & H2 & H3 & H4 & H5 & H6 & H7 & H8 & H9 & _). exists c, ct.
    split_and!; try done; [by rewrite Hh|by apply version_end|by apply version_end].
Qed.

(** The id of a node tells the node. *)
Lemma id_of_node r n x id :
  r ∈ b_nodes b1 -> node_built b1 r n -> node_of (b_heap b1) r = Some x -> id ∈ ns_id <$> nodes_ spec ->
  SMap.find id (b_ids b1) = Some (n_id x) <-> id = ns_id n.
Proof.
  intros Hr (y & Hy & He & _ & Hi & Hby & _) Hx Hid. rewrite Hx in Hy. injection Hy as <-. split; [|by intros ->].
  intros Hf. destruct (built_end b1 id nodes_done Hid) as (q & z & _ & Hz & Hez & Hfz & Hqz & _).
  assert (Ez : n_id z = n_id x) by congruence. rewrite Ez, Hby in Hqz. injection Hqz as <-. congruence.
Qed.

Lemma edge_in_spec re : In re (combine (b_edges b2) (edges_ spec)) -> wf_edge (nodes_ spec) re.2.
Proof.
  destruct re as [r e]. intros H%in_combine_r. pose proof (wf_edges _ spec_wf) as We. rewrite Forall_forall in We. apply We. by apply list_elem_of_In.
Qed.

Lemma version_routes r n x p : r ∈ b_nodes b1 -> node_built b1 r n -> node_of (b_heap b1) r = Some x ->
  map re_edge (default [] (RoutesFor (version_record b2 w) (n_id x) p)) = map fst (List.filter (leaves n p) (edges_of (version_record b2 w))).
Proof.
  intros Hr Hb Hx. unfold RoutesFor, edges_of. simpl. rewrite (eb_routes _ _ _ edges_done). f_equal. apply List.filter_ext_in.
  intros re (_ & Hf & _)%edge_in_spec. unfold starts_at, leaves. rewrite <- bool_decide_and. apply bool_decide_ext.
  rewrite (id_of_node r n x) by done. destruct (es_from re.2) as [f fp]. simpl. split; [by intros [-> ->]|by intros [= -> ->]].
Qed.

Lemma version_table r n x : r ∈ b_nodes b1 -> node_built b1 r n -> node_of (b_heap b1) r = Some x -> table_of b2 x = port_table (version_record b2 w) n x.
Proof.
  intros Hr Hb Hx. unfold table_of, port_table, edges_of. simpl. rewrite (eb_bindings _ _ _ edges_done). f_equal.
  rewrite (List.filter_ext_in (ends_at_node b1 (n_id x)) (enters n)).
  - apply map_ext_in. intros re [_ He]%filter_In. unfold enters in He. apply bool_decide_eq_true in He. unfold binding_of, port_binding, required_at. f_equal.
    destruct Hb as (y & Hy & _ & _ & Hi & Hby & _). rewrite Hx in Hy. injection Hy as <-. by rewrite He, Hi, Hby, Hx.
  - intros re (_ & _ & Ht & _)%edge_in_spec. unfold ends_at_node, enters. apply bool_decide_ext. by apply (id_of_node r n x).
Qed.

Lemma version_wired : Forall2 (wired (w_heap w) (version_record b2 w)) (b_nodes b2) (nodes_ spec).
Proof.
  pose proof edges_done as [(N1 & N2 & _ & N4) (ne & tg & Hh2) _ He _ _ _]. pose proof inputs_done as [(ni & Hh) _ _ _ _ _].
  rewrite N1. eapply Forall2_impl_in; [exact (nb_nodes _ _ nodes_done)|]. intros r n Hr Hn Hb. pose proof Hb as (x & H1 & _ & _ & _ & _ & _ & H7).
  destruct (version_input r n x Hr Hb H1) as [(y & i & bnd & Hy & Hi & Hbnd & Hcase) Hext].
  assert (Hy' : node_of (b_heap b1) r = Some y) by (unfold node_of in *; by rewrite Hh2 in Hy). rewrite H1 in Hy'. injection Hy' as <-.
  assert (Hpol : forall p, PolicyOf (w_heap w) p = PolicyOf (b_heap b2) p) by (intros p; unfold PolicyOf; by rewrite Hh).
  exists x, i, bnd. rewrite version_node. split; [done|]. split; [done|]. split; [done|]. split; [intros p; by eapply version_routes|].
  cbv zeta. rewrite <- (version_table r n x Hr Hb H1), Hpol. unfold has_table in *. rewrite Hpol. rewrite Hext in Hcase.
  destruct (reuses rn base (ns_id n)) as [t|]; simpl; naive_solver.
Qed.

Lemma version_built : built (w_heap w) (version_record b2 w).
Proof.
  pose proof edges_done as [(N1 & _) (ne & tg & Hh2) [W1 W2] He _ _ Hfe]. pose proof inputs_done as [(ni & Hh) _ _ _ _ _].
  pose proof nodes_done as [(nn & Hh1) _ _ Hw _ _ Hfn]. split; simpl; [done|apply version_is_ok| |apply version_wired| | | |].
  - exists nn, ne, ni. rewrite Hh, Hh2, Hh1. done.
  - eapply Forall2_impl; [exact He|]. intros r e (c & ct & H). apply H.
  - split; [|done]. by rewrite W2, N1.
  - split; [|rewrite Hh; exact Hfe]. intros r. rewrite Hh, Hh2. simpl. rewrite N1. apply Hfn.
  - apply (ib_sorted _ _ _ inputs_done).
Qed.

End version.

(** Building a version never throws and never reports an internal error. *)
Lemma build_validated_ends :
  ends_in (build_validated describe create spec options v h0) (fun th => built th.2 th.1) factory_error.
Proof.
  unfold build_validated. eapply ends_then; [apply build_nodes_ends|]. intros b1 H1. eapply ends_then; [by apply build_edges_ends|]. intros b2 H2.
  eapply ends_then; [by apply (build_all_inputs_ends b1)|]. intros w H3. simpl. by eapply version_built.
Qed.

End build.

(** ** Mutating a running version *)

(** The reuse lists a mutation passes: those of the diff against the base. *)
Definition diff_options (options : BuildOptions) (spec : GraphSpec) (v : ValidatedGraph) : Prop :=
  forall t, bo_base options = Some t ->
  let d := Compute (t_spec t) (edge_contracts (t_validated t)) spec (edge_contracts v) in
  bo_reused_nodes options = ReusedNodes d /\ bo_reused_edges options = ReusedEdges d.

Lemma build_ends describe create iterate spec pref ff n options v issues n' h0 :
  wf spec -> Validate describe iterate spec pref ff n = (Value v, issues, n') -> bo_validated options = Some v ->
  diff_options options spec v -> (forall t, bo_base options = Some t -> version_ok h0 t) ->
  0 <= next_node0 options /\ next_node0 options + Z.of_nat (List.length (nodes_ spec)) < 2 ^ 64 ->
  match Build describe create iterate spec options h0 with
  | Some (Value (t, h)) => built options spec v h0 h t
  | Some (Error s) => factory_error describe create spec s
  | None => False
  end.
Proof.
  intros Hw Hv Ho Hd Hb Hroom. unfold Build. rewrite Ho.
  pose proof (build_validated_ends describe create options spec v h0 Hw) as H. unfold ends_in in H.
  destruct (build_validated _ _ _ _ _ _) as [[[t h]|s]|]; apply H; try done;
    try (intros e He; by eapply validated_contract); intros t0 Ht; pose proof (Hb t0 Ht) as Hok; destruct (Hd t0 Ht) as [-> ->];
    (split; [done|]; by apply diff_reuse_sound; [apply Hok|]).
Qed.

(** C19: building a version of a validated graph, from scratch or from the
    running version and its diff, never throws and never reports an internal
    error: it fails only where the operator factory does. Otherwise the objects
    of the running version are untouched, the nodes and channels the diff keeps
    are carried over as the same objects, all others are new and are listed as
    such; every output routes to exactly its edges in the order of the graph;
    every node reads exactly its edges, through a new binding or through its
    old one with a rebind pending when its port table changed; and the result
    is a version from which the next one can be built the same way. *)
Theorem Build_mutation describe create iterate spec pref ff n options v issues n' h0 :
  wf spec -> Validate describe iterate spec pref ff n = (Value v, issues, n') -> bo_validated options = Some v ->
  diff_options options spec v -> (forall t, bo_base options = Some t -> version_ok h0 t) ->
  0 <= next_node0 options /\ next_node0 options + Z.of_nat (List.length (nodes_ spec)) < 2 ^ 64 ->
  match Build describe create iterate spec options h0 with
  | Some (Value (t, h)) => built options spec v h0 h t
  | Some (Error s) => factory_error describe create spec s
  | None => False
  end.
Proof. apply build_ends. Qed.

(** A node inserted between two running ones. *)
Definition live_base : GraphSpec :=
  run_edits [EAddNode (sample_node "s"); EAddNode (sample_node "t"); EAddEdge (pass_edge "e1" "s" "t" false)] (GraphOps.make "live").
Definition live_cand : GraphSpec :=
  run_edits [EAddNode (sample_node "s"); EAddNode (sample_node "b"); EAddNode (sample_node "t"); EAddEdge (pass_edge "e2" "s" "b" false);
    EAddEdge (pass_edge "e3" "b" "t" false)] (GraphOps.make "live").
Definition no_heap : heap := MkHeap [] [] [] TypeTags.make.
Definition first_options (v : ValidatedGraph) : BuildOptions := MkBuildOptions 1 1 (MkAlignedOptions 40 None) None [] [] (Some v).
Definition next_options (t : RuntimeTopology) (spec : GraphSpec) (v : ValidatedGraph) : BuildOptions :=
  let d := Compute (t_spec t) (edge_contracts (t_validated t)) spec (edge_contracts v) in
  MkBuildOptions 1 2 (MkAlignedOptions 40 None) (Some t) (ReusedNodes d) (ReusedEdges d) (Some v).
Definition no_failure (_ : OperatorKey) (_ : Z) (_ : string) (_ : json) : option Status := None.

Lemma live_runs :
  exists v issues n v' issues' n' t h t' h',
    Validate pass_resolver (fun l => l) live_base no_pref false Negotiator.empty = (Value v, issues, n) /\
    Validate pass_resolver (fun l => l) live_cand no_pref false Negotiator.empty = (Value v', issues', n') /\
    Build pass_resolver no_failure (fun l => l) live_base (first_options v) no_heap = Some (Value (t, h)) /\
    Build pass_resolver no_failure (fun l => l) live_cand (next_options t live_cand v') h = Some (Value (t', h')) /\
    t_nodes t = [0; 1]%nat /\ t_nodes t' = [0; 2; 1]%nat /\ t_edges t' = [1; 2]%nat /\ t_new_nodes t' = [2]%nat /\ map fst (t_rebinds t') = [2] /\
    t_next_node t = 3.
Proof.
  eexists _, _, _, _, _, _, _, _, _, _.
  split; [vm_compute; reflexivity|]. split; [vm_compute; reflexivity|]. split; [vm_compute; reflexivity|]. split; [vm_compute; reflexivity|].
  by vm_compute.
Qed.

Lemma live_base_wf : wf live_base.
Proof. apply run_edits_wf, wf_make. Qed.
Lemma live_cand_wf : wf live_cand.
Proof. apply run_edits_wf, wf_make. Qed.

Lemma Build_mutation_witness :
  exists v issues n t h t' h',
    Validate pass_resolver (fun l => l) live_cand no_pref false Negotiator.empty = (Value v, issues, n) /\
    Build pass_resolver no_failure (fun l => l) live_cand (next_options t live_cand v) h = Some (Value (t', h')) /\
    t_nodes t = [0; 1]%nat /\ t_nodes t' = [0; 2; 1]%nat /\ t_new_nodes t' = [2]%nat /\ map fst (t_rebinds t') = [2] /\
    built (next_options t live_cand v) live_cand v h h' t'.
Proof.
  destruct live_runs as (v & issues & n & v' & issues' & n' & t & h & t' & h' & V1 & V2 & B1 & B2 & N1 & N2 & _ & N3 & N4 & N5).
  pose proof (Build_mutation pass_resolver no_failure (fun l => l) live_base no_pref false Negotiator.empty (first_options v) v issues n no_heap
    live_base_wf V1 eq_refl) as H1. rewrite B1 in H1.
  pose proof (Build_mutation pass_resolver no_failure (fun l => l) live_cand no_pref false Negotiator.empty (next_options t live_cand v') v' issues' n' h
    live_cand_wf V2 eq_refl) as H2. rewrite B2 in H2.
  exists v', issues', n', t, h, t', h'. split; [exact V2|]. split; [exact B2|]. split; [exact N1|]. split; [exact N2|]. split; [exact N3|]. split; [exact N4|].
  apply H2; [intros t0 [= <-]; by split| |unfold next_node0; simpl; rewrite N5; change (List.length (nodes_ live_cand)) with 3%nat; lia].
  intros t0 [= <-]. apply H1; [by intros t0|by intros t0|]. change (0 <= 1 /\ 1 + Z.of_nat 2 < 2 ^ 64). lia.
Defined.
