(* ===== verification/TopologyHistory.v ===== *)
(** The versions of a running graph: whatever runs in between, every published
    version is wired as its graph says. *)

From stdpp Require Import base numbers list strings sorting gmap sets.
From Stdlib Require Import ZArith Lia Ascii String.
From S2P Require Import Prelude Types Double Json GraphSpec GraphSpecProofs CapabilityTypes Packet EdgeChannel InputBinding NodeRuntime JsonReader CapabilityJson Negotiation NegotiationProofs GraphValidator ValidatorProofs ValidatorContracts GraphDiff GraphDiffProofs RuntimeTopology TopologyProofs.

Local Open Scope string_scope.
Local Open Scope Z_scope.

(** ** What running a graph does not change *)

Definition same_identity (x y : NodeRuntime) : Prop :=
  n_id x = n_id y /\ n_external_id x = n_external_id y /\ n_key x = n_key y /\ n_capability x = n_capability y.
Definition same_channel (c d : Channel) : Prop :=
  external_id_ (ch_edge c) = external_id_ (ch_edge d) /\ from_ (ch_edge c) = from_ (ch_edge d) /\ to_ (ch_edge c) = to_ (ch_edge d) /\
  contract_ (ch_edge c) = contract_ (ch_edge d) /\ config_ (ch_edge c) = config_ (ch_edge d) /\
  ch_producer c = ch_producer d /\ ch_consumer c = ch_consumer d.
Definition same_binding (b d : InputBinding) : Prop := policy_ b = policy_ d /\ same_ports (ports_ b) (ports_ d) = true.

(** Nodes and channels stay the same objects. *)
Record frame (h h' : heap) : Prop := {
  fr_nodes : Forall2 same_identity (h_nodes h) (h_nodes h');
  fr_edges : Forall2 same_channel (h_edges h) (h_edges h');
}.
(** The data plane also leaves the port tables alone. *)
Record evolved (h h' : heap) : Prop := {
  ev_frame : frame h h';
  ev_inputs : Forall2 same_binding (h_inputs h) (h_inputs h');
}.

Lemma frame_refl h : frame h h.
Proof. split; apply Forall_Forall2_diag, Forall_true; by repeat split. Qed.
Lemma Forall2_compose {A} (P : A -> A -> Prop) l k m :
  (forall x y z, P x y -> P y z -> P x z) -> Forall2 P l k -> Forall2 P k m -> Forall2 P l m.
Proof. intros HP H1 H2. revert m H2. induction H1; intros m H2; inversion_clear H2; constructor; eauto. Qed.
Lemma frame_trans h h' h'' : frame h h' -> frame h' h'' -> frame h h''.
Proof.
  intros [A B] [C D]. split; (eapply Forall2_compose; [|eassumption|eassumption]); clear; unfold same_identity, same_channel.
  - intros x y z (H1 & H2 & H3 & H4) (K1 & K2 & K3 & K4). split_and!; congruence.
  - intros x y z (H1 & H2 & H3 & H4 & H5 & H6 & H7) (K1 & K2 & K3 & K4 & K5 & K6 & K7). split_and!; congruence.
Qed.

(** Port tables compare by name, edge and whether the port is required. *)
Definition port_entry (b : InputPortBinding) : string * option edge_ref * bool := (InputBinding.port b, InputBinding.edge b, required b).
Lemma same_ports_spec a : forall b, same_ports a b = true <-> map port_entry a = map port_entry b.
Proof.
  induction a as [|x a IH]; intros [|y b]; simpl; try done. rewrite !andb_true_iff, !bool_decide_eq_true, eqb_true_iff, IH.
  unfold port_entry. split; [by intros (((-> & ->) & ->) & ->)|by intros [= -> -> -> ->]].
Qed.

Lemma evolved_refl h : evolved h h.
Proof. split; [apply frame_refl|]. apply Forall_Forall2_diag, Forall_true. intros b. split; [done|]. by apply same_ports_spec. Qed.
Lemma evolved_trans h h' h'' : evolved h h' -> evolved h' h'' -> evolved h h''.
Proof.
  intros [F1 I1] [F2 I2]. split; [by eapply frame_trans|]. eapply Forall2_compose; [|exact I1|exact I2].
  intros x y z [P1 S1%same_ports_spec] [P2 S2%same_ports_spec]. split; [congruence|]. apply same_ports_spec. congruence.
Qed.

Section frame.
Context (h h' : heap).
Hypothesis framed : frame h h'.

Lemma frame_node r x : node_of h r = Some x -> exists y, node_of h' r = Some y /\ same_identity x y.
Proof. intros Hx. destruct (Forall2_lookup_l _ _ _ _ _ (fr_nodes _ _ framed) Hx) as (y & Hy & H). by exists y. Qed.
Lemma frame_edge r c : h_edges h !! r = Some c -> exists d, h_edges h' !! r = Some d /\ same_channel c d.
Proof. intros Hc. destruct (Forall2_lookup_l _ _ _ _ _ (fr_edges _ _ framed) Hc) as (y & Hy & H). by exists y. Qed.

Lemma frame_FindNodeId t id : FindNodeId h' t id = FindNodeId h t id.
Proof.
  unfold FindNodeId. apply find_ext_in. intros r _. destruct (node_of h r) as [x|] eqn:E.
  - destruct (frame_node r x E) as (y & -> & Hi & _). by rewrite Hi.
  - unfold node_of in *. apply lookup_ge_None in E. rewrite (Forall2_length _ _ _ (fr_nodes _ _ framed)) in E.
    by rewrite (proj2 (lookup_ge_None _ _)) by done.
Qed.
Lemma frame_FindNode t id : FindNode h' t id = FindNode h t id.
Proof. unfold FindNode. destruct (SMap.find id (t_node_ids t)); [apply frame_FindNodeId|done]. Qed.

Lemma frame_PolicyOf ps : PolicyOf h' ps = PolicyOf h ps.
Proof.
  unfold PolicyOf. destruct (omap InputBinding.edge ps) as [|e l]; [done|]. unfold edge_ref in *. destruct (h_edges h !! e) as [c|] eqn:E.
  - destruct (frame_edge e c E) as (d & -> & H). unfold same_channel in H. destruct H as (_ & _ & _ & -> & _). done.
  - apply lookup_ge_None in E. rewrite (Forall2_length _ _ _ (fr_edges _ _ framed)) in E. by rewrite (proj2 (lookup_ge_None _ _)) by done.
Qed.

(** A version stays a version, as long as no binding disappears. *)
Lemma frame_version t : List.length (h_inputs h) = List.length (h_inputs h') -> version_ok h t -> version_ok h' t.
Proof.
  intros Hl [Hs Hn He Hi]. split; [done| | |done].
  - eapply Forall2_impl; [exact Hn|]. intros r n (x & H1 & H2 & H3 & H4 & H5 & H6 & i & b & H7 & H8).
    destruct (frame_node r x H1) as (y & Hy & I1 & I2 & I3 & _). exists y. rewrite <- I1, <- I2, <- I3, frame_FindNodeId. split_and!; try done.
    destruct (lookup_lt_is_Some_2 (h_inputs h') i) as [b' Hb']; [rewrite <- Hl; by eapply lookup_lt_Some|]. by exists i, b'.
  - eapply Forall2_impl; [exact He|]. intros r e (c & ct & H1 & H2 & H3 & H4 & H5 & H6 & H7 & H8 & H9).
    destruct (frame_edge r c H1) as (d & Hd & C1 & C2 & C3 & C4 & C5 & C6 & C7). exists d, ct.
    rewrite <- C1, <- C2, <- C3, <- C4, <- C5, <- C6, <- C7, !frame_FindNode. by split_and!.
Qed.

End frame.

(** ** Publishing *)

(** Re-wiring retires channels and does nothing else to them. *)
Definition kept (c d : EdgeChannel) : Prop :=
  external_id_ c = external_id_ d /\ from_ c = from_ d /\ to_ c = to_ d /\ contract_ c = contract_ d /\ config_ c = config_ d.
Definition all_kept (ed ed' : edge_ref -> EdgeChannel) : Prop := forall e, kept (ed e) (ed' e).
Lemma all_kept_refl ed : all_kept ed ed.
Proof. by repeat split. Qed.
Lemma all_kept_trans ed ed' ed'' : all_kept ed ed' -> all_kept ed' ed'' -> all_kept ed ed''.
Proof. intros H1 H2 e. destruct (H1 e) as (A1 & A2 & A3 & A4 & A5), (H2 e) as (B1 & B2 & B3 & B4 & B5). unfold kept. split_and!; congruence. Qed.

Lemma retire_edge_kept fast x ed : all_kept ed (retire_edge fast x ed).
Proof. intros e. unfold retire_edge. destruct (decide (e = x)) as [->|]; [|by repeat split]. simpl. unfold Edge.MarkRetired. by destruct fast. Qed.
Lemma retire_all_kept l : forall ed, all_kept ed (retire_all l ed).
Proof.
  induction l as [|x l IH]; intros ed; simpl; [apply all_kept_refl|]. eapply all_kept_trans; [apply retire_edge_kept|apply IH].
Qed.
Lemma fold_retire_kept {A} (f : A -> list edge_ref) l : forall ed : edge_ref -> EdgeChannel, all_kept ed (fold_left (fun ed o => retire_all (f o) ed) l ed).
Proof. induction l as [|x l IH]; intros ed; simpl; [apply all_kept_refl|]. eapply all_kept_trans; [apply retire_all_kept|apply IH]. Qed.

Lemma rebind_port_kept n r : port_entry (rebind_port n r).1 = port_entry n /\ all_kept (rb_edges r) (rb_edges (rebind_port n r).2).
Proof.
  unfold rebind_port. destruct (list_find _ _) as [[j o]|]; [|split; [done|apply all_kept_refl]].
  destruct (decide (InputBinding.edge o = InputBinding.edge n)); [split; [done|apply all_kept_refl]|].
  destruct (InputBinding.edge o) as [e|]; [|split; [done|apply all_kept_refl]]. split; [done|]. simpl.
  destruct (_ && _); [apply retire_edge_kept|apply all_kept_refl].
Qed.
Lemma rebind_ports_kept l : forall r, map port_entry (rebind_ports l r).1 = map port_entry l /\ all_kept (rb_edges r) (rb_edges (rebind_ports l r).2).
Proof.
  induction l as [|n l IH]; intros r; simpl; [split; [done|apply all_kept_refl]|].
  pose proof (rebind_port_kept n r) as [H1 H2]. destruct (rebind_port n r) as [n' r']. destruct (IH r') as [H3 H4].
  destruct (rebind_ports l r') as [l' r'']. simpl in *. split; [by rewrite H1, H3|]. by eapply all_kept_trans.
Qed.
Lemma Rebind_kept new p a b (ed : edge_ref -> EdgeChannel) :
  let '(b', ed') := Rebind new p a b ed in policy_ b' = p /\ map port_entry (ports_ b') = map port_entry new /\ all_kept ed ed'.
Proof.
  unfold Rebind. pose proof (rebind_ports_kept new (MkRebind (ports_ b) (eos_ports_ b) ed)) as [H1 H2].
  destruct (rebind_ports new _) as [new' r]. simpl in *. split_and!; [done|done|]. eapply all_kept_trans; [exact H2|apply fold_retire_kept].
Qed.

Lemma with_channels_frame f h : all_kept (edge_in h) f -> frame h (with_channels f h).
Proof.
  intros Hk. split; simpl; [apply frame_refl|]. apply Forall2_same_length_lookup_2; [by rewrite length_imap|].
  intros i c d Hc Hd. rewrite list_lookup_imap, Hc in Hd. injection Hd as <-. destruct (Hk i) as (A1 & A2 & A3 & A4 & A5). unfold edge_in, edge_ref in *.
  rewrite Hc in *. by split_and!.
Qed.

(** One pending rebind: the node's binding gets its table, nothing else moves. *)
Lemma apply_rebind_spec t h pending :
  frame h (apply_rebind t h pending) /\ List.length (h_inputs (apply_rebind t h pending)) = List.length (h_inputs h) /\
  forall j, match h_inputs (apply_rebind t h pending) !! j with
            | Some b' => if decide (InputsFor t pending.1 = Some j)
                         then policy_ b' = pending.2.2 /\ map port_entry (ports_ b') = map port_entry pending.2.1
                         else h_inputs h !! j = Some b'
            | None => True
            end.
Proof.
  unfold apply_rebind, InputsFor. destruct (SMap.find pending.1 (t_inputs t)) as [i|] eqn:Ei.
  2:{ split; [apply frame_refl|]. split; [done|]. intros j. by destruct (h_inputs h !! j). }
  destruct (h_inputs h !! i) as [b|] eqn:Eb.
  2:{ split; [apply frame_refl|]. split; [done|]. intros j. destruct (h_inputs h !! j) eqn:Ej; [|done]. rewrite decide_False; [done|congruence]. }
  pose proof (Rebind_kept pending.2.1 pending.2.2 (t_aligned t) b (edge_in h)) as H. destruct (Rebind _ _ _ _ _) as [b' ed'] eqn:E.
  destruct H as (H1 & H2 & H3). split; [|split].
  - pose proof (with_channels_frame ed' h H3) as [F1 F2]. by split.
  - simpl. by rewrite length_insert.
  - intros j. simpl. destruct (decide (i = j)) as [->|Hne].
    + rewrite list_lookup_insert_eq by (by eapply lookup_lt_Some). by rewrite decide_True.
    + rewrite list_lookup_insert_ne by done. destruct (h_inputs h !! j) eqn:Ej; [|done]. rewrite decide_False; [done|congruence].
Qed.

Lemma apply_all_spec t l : forall h,
  frame h (fold_left (apply_rebind t) l h) /\ List.length (h_inputs (fold_left (apply_rebind t) l h)) = List.length (h_inputs h) /\
  forall j b, h_inputs (fold_left (apply_rebind t) l h) !! j = Some b ->
    (exists p, p ∈ l /\ InputsFor t p.1 = Some j /\ policy_ b = p.2.2 /\ map port_entry (ports_ b) = map port_entry p.2.1) \/
    ((forall p, p ∈ l -> InputsFor t p.1 <> Some j) /\ h_inputs h !! j = Some b).
Proof.
  induction l as [|p l IH]; intros h; simpl.
  { split; [apply frame_refl|]. split; [done|]. intros j b Hb. right. split; [|done]. by intros p Hp%not_elem_of_nil. }
  destruct (apply_rebind_spec t h p) as (F1 & L1 & S1). destruct (IH (apply_rebind t h p)) as (F2 & L2 & S2).
  split; [by eapply frame_trans|]. split; [congruence|]. intros j b Hb. destruct (S2 j b Hb) as [(q & Hq & H)|[Hn Hj]].
  - left. exists q. split; [by right|done].
  - specialize (S1 j). rewrite Hj in S1. destruct (decide (InputsFor t p.1 = Some j)) as [Hp|Hp].
    + left. exists p. split; [by left|]. by split.
    + right. split; [|done]. by intros q [->|Hq]%elem_of_cons; [|apply Hn].
Qed.

(** A node that routes to its edges and reads from its edges. *)
Definition serves (h : heap) (t : RuntimeTopology) (r : nat) (n : NodeSpec) : Prop :=
  exists x i b, node_of h r = Some x /\ InputsFor t (n_id x) = Some i /\ h_inputs h !! i = Some b /\
    has_table h b (port_table t n x) = true /\
    forall p, map re_edge (default [] (RoutesFor t (n_id x) p)) = map fst (List.filter (leaves n p) (edges_of t)).

Record live (h : heap) (t : RuntimeTopology) : Prop := {
  lv_ok : version_ok h t;
  lv_serves : Forall2 (serves h t) (t_nodes t) (nodes_ (t_spec t));
}.

Lemma has_table_spec h b ports : has_table h b ports = true <-> policy_ b = PolicyOf h ports /\ map port_entry (ports_ b) = map port_entry ports.
Proof. unfold has_table. by rewrite andb_true_iff, bool_decide_eq_true, same_ports_spec. Qed.

Lemma same_table h h' b b' ports : frame h h' -> same_binding b b' -> has_table h b ports = has_table h' b' ports.
Proof.
  intros Hf [Hp Hs%same_ports_spec]. apply eq_bool_prop_intro. rewrite !Is_true_true, !has_table_spec, (frame_PolicyOf h h'), Hp, Hs by done. done.
Qed.

Lemma same_identity_table t n x y : same_identity x y -> port_table t n x = port_table t n y.
Proof. intros (_ & _ & _ & H). unfold port_table, port_binding. by rewrite H. Qed.

(** Running leaves a live version live. *)
Lemma live_evolves h h' t : live h t -> evolved h h' -> live h' t.
Proof.
  intros [Hv Hs] [Hf Hi]. split; [by apply (frame_version h); [|by eapply Forall2_length|]|].
  eapply Forall2_impl; [exact Hs|]. intros r n (x & i & b & H1 & H2 & H3 & H4 & H5). destruct (frame_node h h' Hf r x H1) as (y & Hy & Hid).
  destruct (Forall2_lookup_l _ _ _ _ _ Hi H3) as (b' & Hb' & Hsame). exists y, i, b'. rewrite <- (same_identity_table t n x y Hid).
  destruct Hid as (I1 & _). rewrite <- I1, <- (same_table h h' b b') by done. by split_and!.
Qed.

(** Publishing a version that was built makes it live. *)
Lemma publish_live options spec v h0 h h1 t :
  built options spec v h0 h t -> evolved h h1 -> live (ApplyRebinds t h1).2 (ApplyRebinds t h1).1.
Proof.
  intros [[Hspec _] Hv _ Hw _ _ _ Hsort] [Hf Hi]. unfold ApplyRebinds. simpl. pose proof (apply_all_spec t (t_rebinds t) h1) as (F & L & S).
  pose proof (frame_trans _ _ _ Hf F) as Hall. assert (Hlen : List.length (h_inputs h) = List.length (h_inputs h1)) by (by eapply Forall2_length).
  pose proof (frame_version h _ Hall t ltac:(congruence) Hv) as Hv'. split; [by destruct Hv'|]. simpl. rewrite <- Hspec in Hw.
  eapply Forall2_impl; [exact Hw|]. intros r n (x & i & bnd & H1 & H2 & H3 & H4 & H5). cbv zeta in H5.
  destruct (frame_node h _ Hall r x H1) as (y & Hy & Hid).
  destruct (lookup_lt_is_Some_2 (h_inputs (fold_left (apply_rebind t) (t_rebinds t) h1)) i) as [b Hb].
  { rewrite L, <- Hlen. by eapply lookup_lt_Some. }
  exists y, i, b. pose proof (same_identity_table t n x y Hid) as Etab. destruct Hid as (I1 & _). rewrite <- I1. split; [done|]. split; [done|]. split; [done|]. split; [|exact H4].
  change (has_table (fold_left (apply_rebind t) (t_rebinds t) h1) b (port_table t n y) = true). rewrite <- Etab.
  destruct (Forall2_lookup_l _ _ _ _ _ Hi H3) as (b1 & Hb1 & Hsame).
  destruct (S i b Hb) as [(p & Hp & Hpi & Hpol & Htab)|[Hno Hb']].
  - assert (Ep : SMap.find (n_id x) (t_rebinds t) = Some p.2).
    { rewrite <- (vo_inputs _ _ Hv p.1 (n_id x) i Hpi H2). apply SMap.sorted_In_find; [done|]. apply list_elem_of_In. by destruct p. }
    apply has_table_spec. rewrite (frame_PolicyOf h _ Hall), Hpol, Htab.
    destruct (reuses _ _ _); [destruct H5 as (_ & _ & H5)|destruct H5 as (_ & _ & _ & H5)]; rewrite Ep in H5; [|done].
    destruct (has_table _ _ _); [done|]. injection H5 as ->. done.
  - rewrite Hb1 in Hb'. injection Hb' as <-. rewrite <- (same_table h _ bnd b1 _ Hall Hsame).
    destruct (reuses _ _ _); [destruct H5 as (_ & _ & H5)|destruct H5 as (_ & _ & -> & _); by apply has_table_spec].
    destruct (has_table h bnd (port_table t n x)); [done|]. exfalso. apply SMap.find_In, list_elem_of_In in H5. by apply (Hno _ H5).
Qed.

(** The first version needs no publishing: nothing was there to rebind. *)
Lemma first_live options spec v h0 h h1 t :
  built options spec v h0 h t -> bo_base options = None -> evolved h h1 -> live h1 t.
Proof.
  intros [[Hspec _] Hv _ Hw _ _ _ _] Hbase Hev. apply (live_evolves h); [|done]. split; [done|]. rewrite <- Hspec in Hw.
  eapply Forall2_impl; [exact Hw|]. intros r n (x & i & b & H1 & H2 & H3 & H4 & H5). exists x, i, b. split_and!; try done.
  cbv zeta in H5. destruct (reuses _ _ _) as [old|] eqn:E; [apply reuses_iff in E as [E _]; congruence|].
  destruct H5 as (_ & _ & -> & _). by apply has_table_spec.
Qed.
