(* ===== verification/Operations.v ===== *)
(** Control operations (include/ge/cpp/operation.h, src/operation.cpp): the
    registry of accepted requests, their life cycle and their retention.

    Every method runs under [mutex_] and is one operation here; [now] is the
    wall clock. The hook is invoked after the lock is released: [Finish] returns
    the record it is invoked with. *)

From stdpp Require Import base numbers list strings.
From Stdlib Require Import ZArith Lia Ascii String.
From S2P Require Import Prelude Types Double Json JsonReader ResourceLedger NodeRuntime.

Local Open Scope string_scope.
Local Open Scope Z_scope.

Record CallerContext : Type := MkCaller { caller_id : string; request_id : string }.

Inductive OperationState : Type := kOpAccepted | kOpRunning | kOpSucceeded | kOpFailed | kOpCancelled.
#[export] Instance OperationState_eq_dec : EqDecision OperationState.
Proof. solve_decision. Defined.

Definition OperationState_ToString (s : OperationState) : string :=
  match s with
  | kOpAccepted => "accepted"
  | kOpRunning => "running"
  | kOpSucceeded => "succeeded"
  | kOpFailed => "failed"
  | kOpCancelled => "cancelled"
  end.

Record OperationRecord : Type := MkOperation {
  op_id : Z;
  op_kind : string;
  op_session : Z;
  op_state : OperationState;
  op_result : Status;
  op_topology_version : option Z;
  op_parameter_version : option Z;
  op_caller : CallerContext;
  op_detail : json;
  op_created_ns : Z;
  op_finished_ns : Z;
}.

Definition terminal (r : OperationRecord) : bool :=
  match op_state r with kOpSucceeded | kOpFailed | kOpCancelled => true | _ => false end.

Definition optional {A} (k : string) (f : A -> json) (o : option A) : list (string * json) :=
  match o with Some a => [(k, f a)] | None => [] end.
Definition nonempty (k s : string) : list (string * json) := if Str.empty s then [] else [(k, JString s)].

Definition OperationRecord_ToJson (r : OperationRecord) : json :=
  Json.obj ([("operation_id", jcount (op_id r)); ("kind", JString (op_kind r)); ("session_id", jcount (op_session r));
             ("state", JString (OperationState_ToString (op_state r))); ("status", JString (StatusOps.CodeName (code (op_result r))))] ++
            nonempty "message" (message (op_result r)) ++
            optional "topology_version" jcount (op_topology_version r) ++
            optional "parameter_version" jcount (op_parameter_version r) ++
            nonempty "caller_id" (caller_id (op_caller r)) ++ nonempty "request_id" (request_id (op_caller r)) ++
            match op_detail r with JObject (_ :: _) => [("detail", op_detail r)] | _ => [] end ++
            [("created_ns", JInteger (op_created_ns r))] ++
            (if op_finished_ns r =? 0 then [] else [("finished_ns", JInteger (op_finished_ns r))]))%list.

Record OperationRegistry : Type := MkRegistry {
  terminal_hook_ : bool;
  records_ : list (Z * OperationRecord);
  terminal_order_ : list Z;
  retain_terminal_ : nat;
  next_id_ : Z;
}.

Module Operations.

Definition make (retain_terminal : nat) : OperationRegistry := MkRegistry false [] [] (Nat.max 1 retain_terminal) 1.

Definition SetTerminalHook (hook : bool) (g : OperationRegistry) : OperationRegistry :=
  MkRegistry hook (records_ g) (terminal_order_ g) (retain_terminal_ g) (next_id_ g).

Definition with_records (m : list (Z * OperationRecord)) (g : OperationRegistry) : OperationRegistry :=
  MkRegistry (terminal_hook_ g) m (terminal_order_ g) (retain_terminal_ g) (next_id_ g).

Definition Create (now : Z) (kind : string) (session : Z) (caller : CallerContext) (detail : json) (g : OperationRegistry)
    : Z * OperationRegistry :=
  let id := next_id_ g in
  let r := MkOperation id kind session kOpAccepted StatusOps.Ok None None caller
             (if Json.is_object detail then detail else JObject []) now 0 in
  (id, MkRegistry (terminal_hook_ g) (SMap.emplace id r (records_ g)).1 (terminal_order_ g) (retain_terminal_ g) (Word.u64 (id + 1))).

Definition with_state (s : OperationState) (r : OperationRecord) : OperationRecord :=
  MkOperation (op_id r) (op_kind r) (op_session r) s (op_result r) (op_topology_version r) (op_parameter_version r) (op_caller r)
    (op_detail r) (op_created_ns r) (op_finished_ns r).

Definition SetRunning (id : Z) (g : OperationRegistry) : OperationRegistry :=
  match SMap.find id (records_ g) with
  | None => g
  | Some r => if terminal r then g else with_records (SMap.set id (with_state kOpRunning r) (records_ g)) g
  end.

Definition with_version (v : Z) (r : OperationRecord) : OperationRecord :=
  MkOperation (op_id r) (op_kind r) (op_session r) (op_state r) (op_result r) (Some v) (op_parameter_version r) (op_caller r)
    (op_detail r) (op_created_ns r) (op_finished_ns r).
Definition SetTopologyVersion (id v : Z) (g : OperationRegistry) : OperationRegistry :=
  match SMap.find id (records_ g) with
  | None => g
  | Some r => with_records (SMap.set id (with_version v r) (records_ g)) g
  end.

(** The retention loop. *)
Fixpoint evict (retain : nat) (order : list Z) (m : list (Z * OperationRecord)) : list Z * list (Z * OperationRecord) :=
  match order with
  | [] => ([], m)
  | id :: rest => if (retain <? List.length order)%nat then evict retain rest (SMap.erase id m) else (order, m)
  end.

Definition finished (now : Z) (state : OperationState) (result : Status) (detail : json) (tv pv : option Z) (r : OperationRecord)
    : OperationRecord :=
  MkOperation (op_id r) (op_kind r) (op_session r) state result
    (match tv with Some _ => tv | None => op_topology_version r end)
    (match pv with Some _ => pv | None => op_parameter_version r end) (op_caller r)
    (match detail with JObject d => JObject (Params.merge (Params.as_object (op_detail r)) d) | _ => op_detail r end)
    (op_created_ns r) now.

Definition Finish (now id : Z) (state : OperationState) (result : Status) (detail : json) (tv pv : option Z) (g : OperationRegistry)
    : option OperationRecord * OperationRegistry :=
  match SMap.find id (records_ g) with
  | None => (None, g)
  | Some r =>
      if terminal r then (None, g)
      else
        let r := finished now state result detail tv pv r in
        let '(order, m) := evict (retain_terminal_ g) (terminal_order_ g ++ [id])%list (SMap.set id r (records_ g)) in
        (if terminal_hook_ g then Some r else None, MkRegistry (terminal_hook_ g) m order (retain_terminal_ g) (next_id_ g))
  end.

Definition Succeed (now id : Z) (tv pv : option Z) (detail : json) (g : OperationRegistry) : option OperationRecord * OperationRegistry :=
  Finish now id kOpSucceeded StatusOps.Ok detail tv pv g.
Definition Fail (now id : Z) (status : Status) (detail : json) (g : OperationRegistry) : option OperationRecord * OperationRegistry :=
  Finish now id kOpFailed status detail None None g.
Definition Cancel (now id : Z) (reason : string) (g : OperationRegistry) : option OperationRecord * OperationRegistry :=
  Finish now id kOpCancelled (StatusOps.Cancelled reason) JNull None None g.

Definition Get (id : Z) (g : OperationRegistry) : option OperationRecord := SMap.find id (records_ g).
(** [Wait] at a moment the registry is in state [g]: it still blocks, or it
    returns. *)
Definition Wait (id : Z) (g : OperationRegistry) : option (option OperationRecord) :=
  match SMap.find id (records_ g) with
  | None => Some None
  | Some r => if terminal r then Some (Some r) else None
  end.

End Operations.
