(* ===== verification/OperationsProofs.v ===== *)
(** Every operation ends at most once, is reported when it does, and is kept
    until enough later ones have ended. *)

From stdpp Require Import base numbers list strings sorting.
From Stdlib Require Import ZArith Lia Ascii String.
From S2P Require Import Prelude Types Double Json JsonReader ResourceLedger NodeRuntime Operations.

Local Open Scope string_scope.
Local Open Scope Z_scope.

Import Operations.

(** ** Histories *)

Inductive call : Type :=
| CallCreate (now : Z) (kind : string) (session : Z) (caller : CallerContext) (detail : json)
| CallSetRunning (id : Z)
| CallSetTopologyVersion (id v : Z)
| CallSucceed (now id : Z) (tv pv : option Z) (detail : json)
| CallFail (now id : Z) (status : Status) (detail : json)
| CallCancel (now id : Z) (reason : string).

(** The registry and what its hook was invoked with. *)
Definition report (r : option OperationRecord * OperationRegistry) (log : list OperationRecord) : OperationRegistry * list OperationRecord :=
  (r.2, log ++ option_list r.1)%list.
Definition run_call (c : call) (s : OperationRegistry * list OperationRecord) : OperationRegistry * list OperationRecord :=
  let '(g, log) := s in
  match c with
  | CallCreate now kind session caller detail => ((Create now kind session caller detail g).2, log)
  | CallSetRunning id => (SetRunning id g, log)
  | CallSetTopologyVersion id v => (SetTopologyVersion id v g, log)
  | CallSucceed now id tv pv detail => report (Succeed now id tv pv detail g) log
  | CallFail now id status detail => report (Fail now id status detail g) log
  | CallCancel now id reason => report (Cancel now id reason g) log
  end.
Definition run_calls (retain : nat) (l : list call) : OperationRegistry * list OperationRecord :=
  fold_left (fun s c => run_call c s) l (SetTerminalHook true (make retain), []).

(** What of a record is final once it has ended. *)
Definition outcome (r : OperationRecord) : Z * OperationState * Status * json * Z :=
  (op_id r, op_state r, op_result r, op_detail r, op_finished_ns r).

Definition logged (log : list OperationRecord) : list Z := map op_id log.
(** The operations that ended last. *)
Definition recent (retain : nat) (log : list OperationRecord) : list Z := drop (List.length log - retain) (logged log).

Definition entry_ok (log : list OperationRecord) (retain : nat) (next : Z) (id : Z) (o : option OperationRecord) : Prop :=
  match o with
  | Some r => op_id r = id /\ 1 <= id < next /\
      if terminal r then id ∈ recent retain log /\ exists r0, r0 ∈ log /\ outcome r = outcome r0 else id ∉ logged log
  | None => ~ (1 <= id < next) \/ (id ∈ logged log /\ id ∉ recent retain log)
  end.

Record registry_ok (g : OperationRegistry) (log : list OperationRecord) : Prop := {
  ro_hook : terminal_hook_ g = true;
  ro_retain : (1 <= retain_terminal_ g)%nat;
  ro_sorted : SMap.sorted (records_ g);
  ro_once : NoDup (logged log);
  ro_ids : 1 <= next_id_ g /\ forall id, id ∈ logged log -> 1 <= id < next_id_ g;
  ro_order : terminal_order_ g = recent (retain_terminal_ g) log;
  ro_entries : forall id, entry_ok log (retain_terminal_ g) (next_id_ g) id (SMap.find id (records_ g));
}.

(** ** Retention *)

Lemma evict_spec retain : forall order m order' m', evict retain order m = (order', m') -> SMap.sorted m ->
  order' = drop (List.length order - retain) order /\ SMap.sorted m' /\
  forall id, SMap.find id m' = if decide (id ∈ take (List.length order - retain) order) then None else SMap.find id m.
Proof.
  induction order as [|x order IH]; intros m order' m'; cbn [evict].
  { intros [= <- <-] Hs. split; [done|]. split; [done|]. intros id. by rewrite decide_False by (by intros H%not_elem_of_nil). }
  destruct (Nat.ltb_spec retain (List.length (x :: order))) as [Hlt|Hge].
  - intros H Hs. destruct (IH _ _ _ H (SMap.erase_sorted x m Hs)) as (-> & Hs' & Hf). cbn [List.length] in *.
    replace (S (List.length order) - retain)%nat with (S (List.length order - retain)) by lia. split; [done|]. split; [done|].
    intros id. rewrite Hf. cbn [take].
    destruct (decide (id ∈ take (List.length order - retain) order)) as [H1|H1]; [by rewrite decide_True by (by right)|].
    destruct (decide (id = x)) as [->|Hne]; [rewrite decide_True by (by left); apply SMap.find_erase_eq|].
    rewrite decide_False by (by intros [?|?]%elem_of_cons). by apply SMap.find_erase_ne.
  - intros [= <- <-] Hs. replace (List.length (x :: order) - retain)%nat with 0%nat by lia. split; [done|]. split; [done|].
    intros id. by rewrite decide_False by (by intros H%not_elem_of_nil).
Qed.

(** The order after one more end. *)
Lemma recent_snoc retain log r : (1 <= retain)%nat ->
  let order := (recent retain log ++ [op_id r])%list in
  drop (List.length order - retain) order = recent retain (log ++ [r])%list.
Proof.
  intros Hr order. assert (Eo : order = drop (List.length log - retain) (logged (log ++ [r])%list)).
  { unfold order, recent, logged. rewrite map_app, drop_app_le; [done|]. rewrite length_map. lia. }
  rewrite Eo, drop_drop. unfold recent. f_equal. rewrite length_drop. unfold logged. rewrite length_map, length_app. simpl. lia.
Qed.

(** What is taken out is exactly what is no longer recent. *)
Lemma evicted_spec retain log r id : (1 <= retain)%nat -> NoDup (logged (log ++ [r])%list) ->
  let order := (recent retain log ++ [op_id r])%list in
  id ∈ take (List.length order - retain) order <-> (id ∈ recent retain log \/ id = op_id r) /\ id ∉ recent retain (log ++ [r])%list.
Proof.
  intros Hr Hd order. rewrite <- recent_snoc by done. fold order.
  assert (Ho : NoDup order).
  { unfold order, recent. unfold logged in Hd. rewrite map_app in Hd. rewrite <- (take_drop (List.length log - retain) (map op_id log)) in Hd.
    rewrite <- app_assoc in Hd. by apply NoDup_app in Hd as (_ & _ & Hd). }
  assert (Hin : id ∈ order <-> id ∈ recent retain log \/ id = op_id r) by (unfold order; by rewrite elem_of_app, list_elem_of_singleton).
  rewrite <- Hin. rewrite <- (take_drop (List.length order - retain) order) in Ho. apply NoDup_app in Ho as (_ & Ho & _).
  rewrite <- (take_drop (List.length order - retain) order) at 3. rewrite elem_of_app. split; [|tauto]. intros Ht. split; [by left|by apply Ho].
Qed.

Lemma elem_of_recent retain log id : id ∈ recent retain log -> id ∈ logged log.
Proof. unfold recent. intros H. rewrite <- (take_drop (List.length log - retain) (logged log)). apply elem_of_app. by right. Qed.
Lemma last_recent retain log r : (1 <= retain)%nat -> op_id r ∈ recent retain (log ++ [r])%list.
Proof.
  intros Hr. unfold recent, logged. rewrite map_app, drop_app_le by (rewrite length_map, length_app; simpl; lia). apply elem_of_app. right. by left.
Qed.
Lemma recent_grows retain log r id : (1 <= retain)%nat -> id ∈ recent retain (log ++ [r])%list -> id ∈ recent retain log \/ id = op_id r.
Proof.
  intros Hr H. rewrite <- recent_snoc in H by done. set (order := (recent retain log ++ [op_id r])%list) in *.
  assert (Ho : id ∈ order) by (rewrite <- (take_drop (List.length order - retain) order); apply elem_of_app; by right).
  unfold order in Ho. by rewrite elem_of_app, list_elem_of_singleton in Ho.
Qed.

(** ** Every call preserves the invariant *)

Lemma elem_of_logged_snoc log r id : id ∈ logged (log ++ [r])%list <-> id ∈ logged log \/ id = op_id r.
Proof. unfold logged. rewrite map_app, elem_of_app. simpl. by rewrite list_elem_of_singleton. Qed.

(** An entry other than the one that ends. *)
Lemma entry_kept retain log r next id o : (1 <= retain)%nat -> NoDup (logged (log ++ [r])%list) -> id <> op_id r ->
  let order := (recent retain log ++ [op_id r])%list in
  entry_ok log retain next id o -> entry_ok (log ++ [r])%list retain next id (if decide (id ∈ take (List.length order - retain) order) then None else o).
Proof.
  intros Hr Hd Hne order He. destruct (decide _) as [Hev|Hev].
  - apply evicted_spec in Hev as [[Hy|Hy] Hx]; try done. right. split; [|done]. apply elem_of_logged_snoc. left. by eapply elem_of_recent.
  - destruct o as [r0|]; simpl in *.
    + destruct He as (H1 & H2 & H3). split; [done|]. split; [done|]. destruct (terminal r0).
      * destruct H3 as [H3 (r1 & Hr1 & Ho)]. split; [|exists r1; split; [by apply elem_of_app; left|done]].
        destruct (decide (id ∈ recent retain (log ++ [r])%list)) as [|Hn]; [done|]. exfalso. apply Hev, evicted_spec; [done|done|]. by split; [left|].
      * rewrite elem_of_logged_snoc. tauto.
    + destruct He as [He|[H1 H2]]; [by left|right]. rewrite elem_of_logged_snoc. split; [by left|]. intros [Hx|Hx]%recent_grows; done.
Qed.

Lemma finish_ok now id st res det tv pv g log :
  match st with kOpSucceeded | kOpFailed | kOpCancelled => True | _ => False end -> registry_ok g log ->
  let r := Finish now id st res det tv pv g in registry_ok r.2 (log ++ option_list r.1)%list /\ next_id_ r.2 = next_id_ g.
Proof.
  intros Hst Hok. unfold Finish. pose proof Hok as [Hh Hr Hs Ho [Hn Hids] Hord He]. pose proof (He id) as Hid.
  destruct (SMap.find id (records_ g)) as [r|] eqn:E; [|simpl; by rewrite app_nil_r]. destruct Hid as (Eid & Hrange & Ht).
  destruct (terminal r) eqn:Et; [simpl; by rewrite app_nil_r|]. subst id. set (r' := finished now st res det tv pv r).
  assert (Hterm : terminal r' = true) by (unfold terminal; simpl; by destruct st).
  destruct (evict _ _ _) as [order m] eqn:Ee. cbv zeta. rewrite Hh. simpl.
  apply evict_spec in Ee as (-> & Hsm & Hf); [|by apply SMap.set_sorted].
  assert (Honce : NoDup (logged (log ++ [r'])%list)).
  { unfold logged. rewrite map_app. apply NoDup_app. split; [done|]. split; [|apply NoDup_singleton]. intros x Hx Hx'.
    apply list_elem_of_singleton in Hx' as ->. done. }
  rewrite Hord in *. split; [|done]. split; simpl; [done|done|done|done| |exact (recent_snoc _ log r' Hr)|].
  { split; [done|]. intros x [Hx|Hx]%elem_of_logged_snoc; [by apply Hids|]. rewrite Hx. exact Hrange. }
  intros x. rewrite Hf, SMap.find_set.
  destruct (decide (op_id r = x)) as [<-|Hne].
  - rewrite decide_False.
    + simpl. split; [done|]. split; [done|]. rewrite Hterm. split; [exact (last_recent _ log r' Hr)|]. exists r'. split; [apply elem_of_app; right; by left|done].
    + intros Hx. apply (evicted_spec _ log r' _ Hr Honce) in Hx as [_ Hx]. apply Hx. exact (last_recent _ log r' Hr).
  - apply (entry_kept _ log r' _ x _ Hr Honce); [intros ->; by apply Hne|apply He].
Qed.

(** Changing the record of a live operation, or the version of any. *)
Lemma update_ok g log id r r' : registry_ok g log -> SMap.find id (records_ g) = Some r -> op_id r' = op_id r ->
  (terminal r = true -> outcome r' = outcome r) -> terminal r' = terminal r -> registry_ok (with_records (SMap.set id r' (records_ g)) g) log.
Proof.
  intros [Hh Hr Hs Ho Hids Hord He] E Eid Hout Ht. split; simpl; try done; [by apply SMap.set_sorted|]. intros x. rewrite SMap.find_set.
  destruct (decide (id = x)) as [<-|]; [|apply He]. specialize (He id). rewrite E in He. destruct He as (H1 & H2 & H3). simpl.
  split; [congruence|]. split; [done|]. rewrite Ht. destruct (terminal r); [|done]. destruct H3 as [H3 (r0 & Hr0 & Ho0)]. split; [done|].
  exists r0. split; [done|]. rewrite Hout by done. done.
Qed.

Lemma create_ok now kind session caller detail g log : next_id_ g + 1 < 2 ^ 64 -> registry_ok g log ->
  registry_ok (Create now kind session caller detail g).2 log /\ next_id_ (Create now kind session caller detail g).2 = next_id_ g + 1.
Proof.
  intros Hroom [Hh Hr Hs Ho [Hn Hids] Hord He]. unfold Create. simpl.
  assert (Hu : Word.u64 (next_id_ g + 1) = next_id_ g + 1) by (apply Word.u64_small; unfold Word.is_u64; lia). rewrite Hu. split; [|done].
  assert (Hnone : SMap.find (next_id_ g) (records_ g) = None).
  { pose proof (He (next_id_ g)) as H. destruct (SMap.find _ _); [|done]. destruct H as (_ & ? & _). lia. }
  split; simpl; try done; [by apply SMap.emplace_sorted|split; [lia|]; intros x Hx%Hids; lia|].
  intros x. unfold SMap.emplace, SMap.contains. rewrite Hnone. simpl. rewrite SMap.find_set. destruct (decide (next_id_ g = x)) as [<-|Hne].
  - simpl. split; [done|]. split; [lia|]. intros Hx%Hids. lia.
  - specialize (He x). destruct (SMap.find x (records_ g)) as [r|]; simpl in *.
    + destruct He as (H1 & H2 & H3). split; [done|]. split; [lia|done].
    + destruct He as [He|He]; [left; lia|by right].
Qed.

Lemma call_ok c s : next_id_ s.1 + 1 < 2 ^ 64 -> registry_ok s.1 s.2 ->
  registry_ok (run_call c s).1 (run_call c s).2 /\ next_id_ (run_call c s).1 <= next_id_ s.1 + 1 /\ retain_terminal_ (run_call c s).1 = retain_terminal_ s.1.
Proof.
  intros Hroom Hok. destruct s as [g log]. simpl in *.
  assert (Hfin : forall now id st res det tv pv, match st with kOpSucceeded | kOpFailed | kOpCancelled => True | _ => False end ->
    let r := Finish now id st res det tv pv g in
    registry_ok r.2 (log ++ option_list r.1)%list /\ next_id_ r.2 <= next_id_ g + 1 /\ retain_terminal_ r.2 = retain_terminal_ g).
  { intros now id st res det tv pv Hst. destruct (finish_ok now id st res det tv pv g log Hst Hok) as [H1 H2]. split; [done|]. split; [lia|].
    unfold Finish. destruct (SMap.find _ _) as [r|]; [|done]. destruct (terminal r); [done|]. by destruct (evict _ _ _). }
  destruct c; simpl; try (by apply Hfin).
  - destruct (create_ok now kind session caller detail g log Hroom Hok) as [H1 H2]. split; [done|]. unfold Create in *. simpl in *. split; [lia|done].
  - unfold SetRunning. destruct (SMap.find id (records_ g)) as [r|] eqn:E; [|simpl; split; [done|split; [lia|done]]].
    destruct (terminal r) eqn:Et; simpl; (split; [|split; [lia|done]]); [done|]. apply (update_ok _ _ id r); simpl; try done; by rewrite Et.
  - unfold SetTopologyVersion. destruct (SMap.find id (records_ g)) as [r|] eqn:E; simpl; (split; [|split; [lia|done]]); [|done]. by apply (update_ok _ _ id r).
Qed.

(** C22: operations end at most once and are remembered. After any sequence of
    calls on a registry with a terminal hook, no operation has been reported
    twice. An operation that was accepted and not reported is found, and has not
    ended. The last [retain_terminal] operations that ended are found with the
    state, result, detail and time they were reported with; the ones before
    them are gone, and nothing else is found. *)
Theorem operations_end_once retain calls :
  Z.of_nat (List.length calls) + 1 < 2 ^ 64 ->
  let '(g, log) := run_calls retain calls in
  NoDup (logged log) /\ retain_terminal_ g = Nat.max 1 retain /\
  forall id, entry_ok log (retain_terminal_ g) (next_id_ g) id (Get id g).
Proof.
  intros Hroom. unfold run_calls.
  assert (Hall : forall l s, registry_ok s.1 s.2 -> next_id_ s.1 + Z.of_nat (List.length l) < 2 ^ 64 ->
    let s' := fold_left (fun s c => run_call c s) l s in registry_ok s'.1 s'.2 /\ retain_terminal_ s'.1 = retain_terminal_ s.1).
  { induction l as [|c l IH]; intros s Hok Hr; simpl; [done|]. cbn [List.length] in Hr.
    destruct (call_ok c s) as (H1 & H2 & H3); [lia|done|]. rewrite <- H3. apply IH; [done|lia]. }
  destruct (Hall calls (SetTerminalHook true (make retain), [])) as [[_ _ _ Ho _ _ He] Hret].
  - split; simpl; try done; [lia|constructor|constructor|split; [lia|by intros id H%not_elem_of_nil]|]. intros id. left. lia.
  - simpl. lia.
  - destruct (fold_left _ _ _) as [g log]. by split_and!.
Qed.

Definition sample_calls : list call :=
  [CallCreate 1 "mutation.apply" 1 (MkCaller "ops" "r1") JNull; CallCreate 2 "session.stop" 1 (MkCaller "ops" "r2") JNull;
   CallSetRunning 1; CallFail 3 1 (StatusOps.NotFound "node") JNull; CallCancel 4 1 "late"; CallSucceed 5 2 (Some 2) None JNull].
Lemma sample_runs : exists g log, run_calls 1 sample_calls = (g, log) /\ logged log = [1; 2] /\ Get 1 g = None.
Proof. eexists _, _. split; [vm_compute; reflexivity|]. split; reflexivity. Qed.
Lemma operations_end_once_witness :
  exists g log, run_calls 1 sample_calls = (g, log) /\ logged log = [1; 2] /\ Get 1 g = None /\ NoDup (logged log).
Proof.
  destruct sample_runs as (g & log & E & H1 & H2). exists g, log. split; [exact E|]. split; [exact H1|]. split; [exact H2|].
  pose proof (operations_end_once 1 sample_calls) as H. rewrite E in H. apply H. reflexivity.
Defined.
