(* ===== verification/Coordinator.v ===== *)
(** The mutation pipeline (src/mutation_coordinator.h, src/session.cpp) with
    the parts of the scheduler it drives (src/scheduler.cpp) and the session's
    lease: taking a batch from the queue, applying a patch with parameter
    migration, preparing a version - validate, diff, build, reserve, open - and
    giving everything back when a step fails.

    [describe], [create] and [estimate] are the operator factory, [op_open] and
    [op_close] what an operator answers. A dereferenced null pointer or a failed
    [at] is the outcome [None]. *)

From stdpp Require Import base numbers list strings sorting gmap.
From Stdlib Require Import ZArith Lia Ascii String.
From S2P Require Import Prelude Types Double Json GraphSpec CapabilityTypes Packet EdgeChannel InputBinding NodeRuntime ResourceLedger JsonReader CapabilityJson Negotiation GraphValidator MutationApplier GraphDiff RuntimeTopology.

Local Open Scope string_scope.
Local Open Scope Z_scope.

(** The two bytes of U+00A7. *)
Definition section_sign : string := String (ascii_of_nat 194) (String (ascii_of_nat 167) "").

(** ** The scheduler's side *)

Definition set_node (r : nat) (n : NodeRuntime) (h : heap) : heap := MkHeap (<[r := n]> (h_nodes h)) (h_edges h) (h_inputs h) (h_tags h).
Definition retire_channel (e : edge_ref) (h : heap) : heap :=
  match h_edges h !! e with
  | Some c => MkHeap (h_nodes h) (<[e := MkChannel (Edge.MarkRetired true (ch_edge c)) (ch_producer c) (ch_consumer c)]> (h_edges h)) (h_inputs h) (h_tags h)
  | None => h
  end.

Section operators.
Context (op_open op_close : NodeRuntime -> Status).

Definition close_node (h : heap) (r : nat) : heap :=
  match node_of h r with Some n => set_node r (Node.Close (op_close n) n).2 h | None => h end.

(** [OpenNodes]; the nodes this call opened are closed when one fails. *)
Fixpoint open_nodes (t : RuntimeTopology) (order : list string) (opened : list nat) (h : heap) : option (Status * heap) :=
  match order with
  | [] => Some (StatusOps.Ok, h)
  | id :: rest =>
      match FindNode h t id with
      | None => None
      | Some r =>
          match node_of h r with
          | None => None
          | Some n =>
              if decide (n_state n = kCreated) then
                let '(s, n') := Node.Open (op_open n) n in
                let h := set_node r n' h in
                if StatusOps.ok s then open_nodes t rest (opened ++ [r])%list h
                else Some (s, fold_left close_node opened h)
              else open_nodes t rest opened h
          end
      end
  end.
Definition OpenNodes (t : RuntimeTopology) (h : heap) : option (Status * heap) := open_nodes t (t_order t) [] h.

Definition abandon_node (h : heap) (r : nat) : heap :=
  match node_of h r with
  | Some n => match n_state n with NodeRuntime.kClosed | NodeRuntime.kFailed => h | _ => close_node h r end
  | None => h
  end.
Definition AbandonCandidate (t : RuntimeTopology) (h : heap) : heap :=
  fold_left (fun h e => retire_channel e h) (t_new_edges t) (fold_left abandon_node (t_new_nodes t) h).

End operators.

(** ** The session's lease *)

(** [ReserveResources] and [ReturnResources] *)
Definition ReserveResources (delta : list ResourceAmount) (purpose : string) (x : ResourceLease) (g : ResourceLedger)
    : Status * ResourceLease * ResourceLedger :=
  match delta with
  | [] => (StatusOps.Ok, x, g)
  | _ => if lease_active x then Ledger.Commit x (MergeAmounts (lease_amounts x ++ delta)) purpose g else (StatusOps.Ok, x, g)
  end.

Fixpoint subtract (d : ResourceAmount) (l : list ResourceAmount) : list ResourceAmount :=
  match l with
  | [] => []
  | a :: l' =>
      if decide (ra_key a = ra_key d)
      then MkAmount (ra_kind a) (ra_device a) (if ra_amount a >? ra_amount d then ra_amount a - ra_amount d else 0) :: l'
      else a :: subtract d l'
  end.
Definition ReturnResources (delta : list ResourceAmount) (x : ResourceLease) (g : ResourceLedger) : ResourceLease * ResourceLedger :=
  match delta with
  | [] => (x, g)
  | _ =>
      if lease_active x then
        let '(_, x, g) := Ledger.Commit x (MergeAmounts (fold_left (fun l d => subtract d l) delta (lease_amounts x))) "retire" g in (x, g)
      else (x, g)
  end.

(** ** Patches *)

Record MutationRequest : Type := MkMutationRequest { mr_operation : Z; mr_patch : MutationPatch }.

Definition BaseVersionCheck (patch : MutationPatch) (current : Z) : Status :=
  match mp_base_topology_version patch with
  | Some v => if v =? current then StatusOps.Ok
              else StatusOps.VersionConflict ("patch base_topology_version " ++ Dec.to_string v ++ " != current " ++ Dec.to_string current)
  | None => StatusOps.Ok
  end.

Definition set_options (options : json) (n : NodeSpec) : NodeSpec :=
  MkNodeSpec (ns_id n) (ns_op n) (ns_executor n) (ns_parallelism n) options (ns_labels n).
(** Assigning through [FindNode]: the first node with the id. *)
Fixpoint update_node (id : string) (f : NodeSpec -> NodeSpec) (l : list NodeSpec) : list NodeSpec :=
  match l with
  | [] => []
  | n :: l' => if decide (ns_id n = id) then f n :: l' else n :: update_node id f l'
  end.
Definition with_options (id : string) (options : json) (g : GraphSpec) : GraphSpec := GraphOps.with_nodes (update_node id (set_options options) (nodes_ g)) g.

Section factory.
Context (describe : OperatorKey -> option CapabilityDescriptor).
Context (create : OperatorKey -> Z -> string -> json -> option Status).
Context (estimate : OperatorKey -> json -> list ResourceAmount).
Context (op_open op_close : NodeRuntime -> Status).
Context (iterate : list NodeInfo -> list NodeInfo).

(** One migratable key of a replaced node. *)
Definition migrate_key (requested live : json) (merged : list (string * json)) (k : string) : list (string * json) :=
  match requested with
  | JObject r => if SMap.contains k r then merged else
      match live with
      | JObject l => match SMap.find k l with Some x => SMap.set k x merged | None => merged end
      | _ => merged
      end
  | _ =>
      match live with
      | JObject l => match SMap.find k l with Some x => SMap.set k x merged | None => merged end
      | _ => merged
      end
  end.

Definition migrate_action (h : heap) (base : RuntimeTopology) (candidate : GraphSpec) (a : MutationAction) : GraphSpec :=
  match a with
  | ReplaceNodeAction node op requested _ _ =>
      match FindNode h base node with
      | None => candidate
      | Some r =>
          match node_of h r, GraphOps.FindNode node candidate, describe op with
          | Some old, Some fresh, Some cap =>
              let live := ps_values (current_ (parameters_ old)) in
              let merged := fold_left (migrate_key requested live) (par_migratable (cd_parameters cap)) (Params.as_object (ns_options fresh)) in
              with_options node (JObject merged) candidate
          | _, _, _ => candidate
          end
      end
  | _ => candidate
  end.
Definition MigrateParameters (h : heap) (base : RuntimeTopology) (patch : MutationPatch) (candidate : GraphSpec) : GraphSpec :=
  fold_left (migrate_action h base) (mp_actions patch) candidate.

Definition ApplyPatch (h : heap) (base : RuntimeTopology) (patch : MutationPatch) : Result CandidateSpec :=
  match Apply describe (t_spec base) patch with
  | Error s => Error s
  | Value c => Value (with_candidate (MigrateParameters h base patch (candidate c)) c)
  end.

(** A validator of its own for every use. *)
Definition validate (spec : GraphSpec) : Result ValidatedGraph :=
  (Validate describe iterate spec (MkPreferenceSet [] None None None) false Negotiator.empty).1.1.

Record DryRunResult : Type := MkDryRun { dr_candidate : GraphSpec; dr_validated : ValidatedGraph; dr_diff : GraphDiff }.

Definition DryRun (h : heap) (base : RuntimeTopology) (patch : MutationPatch) : Result DryRunResult :=
  let s := BaseVersionCheck patch (t_version base) in
  if negb (StatusOps.ok s) then ResultOps.of_status s
  else match ApplyPatch h base patch with
  | Error s => Error s
  | Value changes =>
      match validate (candidate changes) with
      | Error s => Error s
      | Value v => Value (MkDryRun (candidate changes) v
                            (Compute (t_spec base) (edge_contracts (t_validated base)) (candidate changes) (edge_contracts v)))
      end
  end.

(** ** The queue *)

Definition Disjoint (a b : CandidateSpec) : bool :=
  negb (existsb (fun n => contains n (touched_nodes a)) (touched_nodes b)) &&
  negb (existsb (fun e => contains e (touched_edges a)) (touched_edges b)).

Record Merged : Type := MkMerged { mg_origins : list MutationRequest; mg_patch : MutationPatch }.
Definition nothing : Merged := MkMerged [] (MkMutationPatch None kDrain [] false).

(** The loop of [TakeBatch]. *)
Fixpoint take_batch (base : GraphSpec) (limit : nat) (queue : list MutationRequest) (footprints : list CandidateSpec) (m : Merged)
    : Merged * list MutationRequest :=
  match queue with
  | [] => (m, [])
  | r :: rest =>
      if negb (List.length (mg_origins m) <? limit)%nat then (m, queue)
      else
        let fp := Apply describe base (mr_patch r) in
        match mg_origins m with
        | [] =>
            let m := MkMerged [r] (MkMutationPatch (mp_base_topology_version (mr_patch r)) (mp_remove_policy (mr_patch r)) (mp_actions (mr_patch r)) false) in
            match fp with
            | Value f => take_batch base limit rest [f] m
            | Error _ => (m, rest)
            end
        | first :: _ =>
            if negb (bool_decide (mp_remove_policy (mr_patch r) = mp_remove_policy (mr_patch first))) then (m, queue)
            else if negb (bool_decide (mp_base_topology_version (mr_patch r) = mp_base_topology_version (mr_patch first))) then (m, queue)
            else match fp with
            | Error _ => (m, queue)
            | Value f =>
                if negb (forallb (fun g => Disjoint g f) footprints) then (m, queue)
                else take_batch base limit rest (footprints ++ [f])%list
                       (MkMerged (mg_origins m ++ [r])%list
                          (MkMutationPatch (mp_base_topology_version (mg_patch m)) (mp_remove_policy (mg_patch m))
                             (mp_actions (mg_patch m) ++ mp_actions (mr_patch r))%list false))
            end
        end
  end.
Definition TakeBatch (base : GraphSpec) (merge_limit : nat) (queue : list MutationRequest) : Merged * list MutationRequest :=
  take_batch base (Nat.max 1 merge_limit) queue [] nothing.

(** ** Preparing a version *)

Definition EstimateForAdmission (spec : GraphSpec) (contracts : list (string * ConnectionContract)) (reject_unbudgeted : bool)
    (only_nodes only_edges : list string) : Result (list ResourceAmount) :=
  let est := Estimate.EstimateGraphResources spec contracts estimate only_nodes only_edges in
  match reject_unbudgeted, unbudgeted_edges est with
  | true, first :: _ =>
      ResultOps.of_status (StatusOps.make GE_STATUS_GRAPH_INVALID
        ("edge '" ++ first ++ "' has no derivable packet bound; set queue.max_packet_bytes (12 " ++ section_sign ++ "10.3)") false
        (Json.Serialize (Json.obj [("unbudgeted_edges", JArray (map JString (unbudgeted_edges est)))])))
  | _, _ => Value (est_amounts est)
  end.

Record Prepared : Type := MkPrepared {
  pr_candidate : RuntimeTopology;
  pr_changes : CandidateSpec;
  pr_diff : GraphDiff;
  pr_policy : RemovePolicy;
  pr_added : list ResourceAmount;
  pr_removed : list ResourceAmount;
}.

(** What preparing changes: the heap, the lease and the ledger. *)
Record resources : Type := MkResources { rs_heap : heap; rs_lease : ResourceLease; rs_ledger : ResourceLedger }.

Definition added_elements (d : GraphDiff) : list string * list string :=
  (Nodes kNodeAdded d ++ Nodes kNodeReplaced d, Edges kEdgeAdded d ++ Edges kEdgeRecreated d)%list.
Definition removed_elements (d : GraphDiff) : list string * list string :=
  (Nodes kNodeRemoved d ++ Nodes kNodeReplaced d, Edges kEdgeRemoved d ++ Edges kEdgeRecreated d)%list.
(** No estimate is made when nothing is listed. *)
Definition estimate_of (spec : GraphSpec) (contracts : list (string * ConnectionContract)) (reject : bool) (elements : list string * list string)
    : Result (list ResourceAmount) :=
  match elements with
  | ([], []) => Value []
  | (ns, es) => EstimateForAdmission spec contracts reject ns es
  end.

(** A6 and A7 of [Prepare], once the candidate is built: reserve what it adds,
    open its nodes. *)
Definition admission (reject : bool) (base : RuntimeTopology) (changes : CandidateSpec) (v : ValidatedGraph) (diff : GraphDiff) (policy : RemovePolicy)
    (t : RuntimeTopology) (version : Z) (s : resources) : option (Result Prepared * resources) :=
  match estimate_of (candidate changes) (edge_contracts v) reject (added_elements diff) with
  | Error st => Some (Error st, MkResources (AbandonCandidate op_close t (rs_heap s)) (rs_lease s) (rs_ledger s))
  | Value added =>
      let removed := match estimate_of (t_spec base) (edge_contracts (t_validated base)) false (removed_elements diff) with
                     | Value l => l | Error _ => [] end in
      let '(st, lease, ledger) := ReserveResources added ("mutation v" ++ Dec.to_string version) (rs_lease s) (rs_ledger s) in
      if negb (StatusOps.ok st) then Some (ResultOps.of_status st, MkResources (AbandonCandidate op_close t (rs_heap s)) lease ledger)
      else match OpenNodes op_open op_close t (rs_heap s) with
      | None => None
      | Some (st, h) =>
          if negb (StatusOps.ok st) then
            let h := AbandonCandidate op_close t h in
            let '(lease, ledger) := ReturnResources added lease ledger in
            Some (ResultOps.of_status st, MkResources h lease ledger)
          else Some (Value (MkPrepared t changes diff policy added removed), MkResources h lease ledger)
      end
  end.

Definition Prepare (session : Z) (aligned : AlignedOptions) (reject : bool) (base : RuntimeTopology) (patch : MutationPatch) (version : Z)
    (s : resources) : option (Result Prepared * resources) :=
  match ApplyPatch (rs_heap s) base patch with
  | Error st => Some (Error st, s)
  | Value changes =>
      match validate (candidate changes) with
      | Error st => Some (Error st, s)
      | Value v =>
          let diff := Compute (t_spec base) (edge_contracts (t_validated base)) (candidate changes) (edge_contracts v) in
          let options := MkBuildOptions session version aligned (Some base) (ReusedNodes diff) (ReusedEdges diff) (Some v) in
          match Build describe create iterate (candidate changes) options (rs_heap s) with
          | None => None
          | Some (Error st) => Some (Error st, s)
          | Some (Value (t, h)) =>
              admission reject base changes v diff (mp_remove_policy patch) t version (MkResources h (rs_lease s) (rs_ledger s))
          end
      end
  end.

End factory.
