(* ===== verification/CoordinatorProofs.v ===== *)
(** Preparing a mutation touches nothing of the running version and gives
    everything back when it fails; the queue loses and reorders nothing. *)

From stdpp Require Import base numbers list strings sorting gmap sets.
From Stdlib Require Import ZArith Lia Ascii String.
From S2P Require Import Prelude Types Double Json GraphSpec GraphSpecProofs CapabilityTypes Packet EdgeChannel InputBinding NodeRuntime ResourceLedger ResourceLedgerProofs JsonReader CapabilityJson Negotiation NegotiationProofs GraphValidator ValidatorProofs ValidatorContracts MutationApplier MutationProofs GraphDiff GraphDiffProofs RuntimeTopology TopologyProofs TopologyHistory Coordinator.

Local Open Scope string_scope.
Local Open Scope Z_scope.

(** ** The queue *)

(** What a batch is: a prefix of the queue whose patches agree, apply on their
    own and do not touch each other. *)
Record batch_of describe (base : GraphSpec) (limit : nat) (m : Merged) : Prop := {
  bt_limit : (List.length (mg_origins m) <= limit)%nat;
  bt_actions : mp_actions (mg_patch m) = List.concat (map (fun r => mp_actions (mr_patch r)) (mg_origins m));
  bt_agree : forall r, r ∈ mg_origins m -> mp_remove_policy (mr_patch r) = mp_remove_policy (mg_patch m) /\
    mp_base_topology_version (mr_patch r) = mp_base_topology_version (mg_patch m);
  bt_disjoint : (1 < List.length (mg_origins m))%nat -> exists fps, Forall2 (fun r f => Apply describe base (mr_patch r) = Value f) (mg_origins m) fps /\
    forall i j f g, (i < j)%nat -> fps !! i = Some f -> fps !! j = Some g -> Disjoint f g = true;
}.

(** The invariant of the loop. *)
Record taking describe (base : GraphSpec) (limit : nat) (fps : list CandidateSpec) (m : Merged) : Prop := {
  tk_batch : batch_of describe base limit m;
  tk_fps : Forall2 (fun r f => Apply describe base (mr_patch r) = Value f) (mg_origins m) fps;
  tk_apart : forall i j f g, (i < j)%nat -> fps !! i = Some f -> fps !! j = Some g -> Disjoint f g = true;
}.

Lemma taking_start describe base limit r : (1 <= limit)%nat ->
  let m := MkMerged [r] (MkMutationPatch (mp_base_topology_version (mr_patch r)) (mp_remove_policy (mr_patch r)) (mp_actions (mr_patch r)) false) in
  batch_of describe base limit m /\ forall f, Apply describe base (mr_patch r) = Value f -> taking describe base limit [f] m.
Proof.
  intros Hl m. assert (Hb : batch_of describe base limit m).
  { split; simpl; [lia|by rewrite app_nil_r|by intros x ->%list_elem_of_singleton|lia]. }
  split; [done|]. intros f Hf. split; [done|by constructor; [|constructor]|]. intros i j g g' Hij _ Hj. apply lookup_lt_Some in Hj. simpl in Hj. lia.
Qed.

Lemma apart_snoc (l : list CandidateSpec) f :
  (forall i j a b, (i < j)%nat -> l !! i = Some a -> l !! j = Some b -> Disjoint a b = true) -> (forall a, a ∈ l -> Disjoint a f = true) ->
  forall i j a b, (i < j)%nat -> (l ++ [f])%list !! i = Some a -> (l ++ [f])%list !! j = Some b -> Disjoint a b = true.
Proof.
  intros Hl Hf i j a b Hij Hi Hj. apply lookup_app_Some in Hj as [Hj|[Hj Hj']].
  - apply (Hl i j); [done| |done]. apply lookup_lt_Some in Hj. rewrite lookup_app_l in Hi by lia. done.
  - apply list_lookup_singleton_Some in Hj' as [Hj0 ->]. rewrite lookup_app_l in Hi by lia. apply Hf. by apply (list_elem_of_lookup_2 _ i).
Qed.

Lemma taking_more describe base limit fps m r first more f :
  taking describe base limit fps m -> mg_origins m = first :: more -> (List.length (mg_origins m) < limit)%nat ->
  mp_remove_policy (mr_patch r) = mp_remove_policy (mr_patch first) -> mp_base_topology_version (mr_patch r) = mp_base_topology_version (mr_patch first) ->
  Apply describe base (mr_patch r) = Value f -> forallb (fun g => Disjoint g f) fps = true ->
  taking describe base limit (fps ++ [f])%list
    (MkMerged (mg_origins m ++ [r])%list
       (MkMutationPatch (mp_base_topology_version (mg_patch m)) (mp_remove_policy (mg_patch m)) (mp_actions (mg_patch m) ++ mp_actions (mr_patch r))%list false)).
Proof.
  intros [[B1 B2 B3 _] Hf Ha] Em Hlt E1 E2 Ea Ed. rewrite forallb_forall in Ed.
  assert (Hf' : Forall2 (fun r f => Apply describe base (mr_patch r) = Value f) (mg_origins m ++ [r])%list (fps ++ [f])%list)
    by (apply Forall2_app; [done|by constructor]).
  assert (Ha' := apart_snoc fps f Ha (fun a Hin => Ed a (proj1 (list_elem_of_In _ _) Hin))).
  split; [|done|exact Ha']. split; simpl.
  - rewrite length_app. simpl. lia.
  - rewrite map_app, concat_app, B2. simpl. by rewrite app_nil_r.
  - intros x [Hx|Hx]%elem_of_app; [by apply B3|]. apply list_elem_of_singleton in Hx as ->. rewrite E1, E2. apply B3. rewrite Em. by left.
  - intros _. by exists (fps ++ [f])%list.
Qed.

Lemma take_batch_spec describe base limit queue : forall fps m, taking describe base limit fps m -> mg_origins m <> [] ->
  let '(m', rest) := take_batch describe base limit queue fps m in
  batch_of describe base limit m' /\ exists taken, queue = (taken ++ rest)%list /\ mg_origins m' = (mg_origins m ++ taken)%list.
Proof.
  induction queue as [|r rest IH]; intros fps m Ht Hm; cbn [take_batch].
  { split; [apply Ht|]. exists []. split; [done|by rewrite app_nil_r]. }
  assert (Hstop : batch_of describe base limit m /\ exists taken, r :: rest = (taken ++ r :: rest)%list /\ mg_origins m = (mg_origins m ++ taken)%list).
  { split; [apply Ht|]. exists []. by rewrite app_nil_r. }
  destruct (Nat.ltb_spec (List.length (mg_origins m)) limit) as [Hlt|Hge]; simpl; [|done].
  destruct (mg_origins m) as [|first more] eqn:Em; [done|]. rewrite <- Em in *.
  destruct (bool_decide (mp_remove_policy (mr_patch r) = _)) eqn:E1; simpl; [|done].
  destruct (bool_decide (mp_base_topology_version (mr_patch r) = _)) eqn:E2; simpl; [|done].
  apply bool_decide_eq_true in E1, E2. destruct (Apply describe base (mr_patch r)) as [f|s] eqn:Ea; [|done].
  destruct (forallb _ fps) eqn:Ed; simpl; [|done].
  pose proof (taking_more describe base limit fps m r first more f Ht Em Hlt E1 E2 Ea Ed) as Ht1. specialize (IH _ _ Ht1). simpl in IH.
  destruct (take_batch _ _ _ rest _ _) as [m' rest']. destruct IH as [Hb (taken & -> & H2)]; [by destruct (mg_origins m)|].
  split; [done|]. exists (r :: taken). split; [done|]. by rewrite H2, <- app_assoc.
Qed.

(** The mutation queue is served in order. A batch is a prefix of the
    queue, is not empty when the queue is not, and what it leaves is the rest.
    It holds at most the merge limit of requests; its patch is their actions one
    after the other, with the removal policy and the base version they all
    share; and when it holds more than one, each of them applies to the running
    graph on its own and no two touch the same node or edge. *)
Theorem TakeBatch_fifo describe base limit queue :
  let '(m, rest) := TakeBatch describe base limit queue in
  queue = (mg_origins m ++ rest)%list /\ (queue <> [] -> mg_origins m <> []) /\ batch_of describe base (Nat.max 1 limit) m.
Proof.
  unfold TakeBatch. destruct queue as [|r rest]; cbn [take_batch].
  { split; [done|]. split; [done|]. split; simpl; [lia|done|by intros r H%not_elem_of_nil|lia]. }
  cbn [mg_origins nothing List.length]. rewrite (proj2 (Nat.ltb_lt 0 _)) by lia. simpl negb. cbv iota.
  destruct (taking_start describe base (Nat.max 1 limit) r) as [Hb Ht]; [lia|].
  destruct (Apply describe base (mr_patch r)) as [f|s]; [|by split_and!].
  specialize (Ht f eq_refl). pose proof (take_batch_spec describe base (Nat.max 1 limit) rest [f] _ Ht) as H. simpl in H.
  destruct (take_batch _ _ _ rest _ _) as [m' rest']. destruct H as [Hb' (taken & -> & H2)]; [done|]. rewrite H2. by split_and!.
Qed.

(** ** The lease *)

(** A lease whose amounts the ledger accounts for, with room for [n] more. *)
Record lease_ok (n : key -> Z) (x : ResourceLease) (g : ResourceLedger) : Prop := {
  lo_tidy : tidy (lease_amounts x);
  lo_reserved : forall k, held k (lease_amounts x) <= acc_reserved (Ledger.account k g);
  lo_room : forall k, acc_reserved (Ledger.account k g) + held k (lease_amounts x) + n k < 2 ^ 64;
}.
(** The same amounts held and reserved. *)
Definition same_books (x x' : ResourceLease) (g g' : ResourceLedger) : Prop :=
  lease_active x' = lease_active x /\ forall k, held k (lease_amounts x') = held k (lease_amounts x) /\
    acc_reserved (Ledger.account k g') = acc_reserved (Ledger.account k g).

Lemma subtract_spec d l : tidy l -> in_range d ->
  tidy (subtract d l) /\ map ra_key (subtract d l) = map ra_key l /\
  forall k, held k (subtract d l) = Z.max 0 (held k l - (if decide (ra_key d = k) then ra_amount d else 0)).
Proof.
  intros [Hn Hr] Hd. unfold in_range, Word.is_u64 in Hd.
  assert (Hk : map ra_key (subtract d l) = map ra_key l /\ Forall in_range (subtract d l)).
  { clear Hn. induction Hr as [|a l Ha Hl [IH1 IH2]]; [done|]. simpl. destruct (decide (ra_key a = ra_key d)); simpl.
    - split; [done|]. constructor; [|done]. unfold in_range, Word.is_u64 in *. simpl. destruct (Z.gtb_spec (ra_amount a) (ra_amount d)); lia.
    - split; [by rewrite IH1|by constructor]. }
  destruct Hk as [Hk Hr']. split; [split; [by rewrite Hk|done]|]. split; [done|]. clear Hk Hr'.
  intros k. induction Hr as [|a l Ha Hl IH]; simpl.
  { unfold held. simpl. destruct (decide _); lia. }
  apply NoDup_cons in Hn as [Hna Hn]. specialize (IH Hn). pose proof (held_nonneg k l Hl) as Hp. unfold in_range, Word.is_u64 in Ha.
  destruct (decide (ra_key a = ra_key d)) as [Ead|Ead]; rewrite !held_cons.
  - simpl. destruct (decide (ra_key d = k)) as [Edk|Edk].
    + assert (Hz : held k l = 0) by (apply held_not_in; rewrite <- Edk, <- Ead; done).
      change (ra_key (MkAmount (ra_kind a) (ra_device a) _)) with (ra_key a). rewrite !decide_True by congruence. rewrite Hz.
      destruct (Z.gtb_spec (ra_amount a) (ra_amount d)); lia.
    + change (ra_key (MkAmount (ra_kind a) (ra_device a) _)) with (ra_key a). rewrite !(decide_False (P := ra_key a = k)) by congruence. lia.
  - rewrite IH. destruct (decide (ra_key a = k)), (decide (ra_key d = k)); try congruence; lia.
Qed.

Lemma subtract_all delta : forall l, tidy l -> Forall in_range delta ->
  tidy (fold_left (fun l d => subtract d l) delta l) /\ forall k, held k (fold_left (fun l d => subtract d l) delta l) = Z.max 0 (held k l - held k delta).
Proof.
  induction delta as [|d delta IH]; intros l Hl Hd; simpl.
  { split; [done|]. intros k. pose proof (held_nonneg k l (proj2 Hl)). change (held k []) with 0. lia. }
  apply Forall_cons in Hd as [Hd Hds]. destruct (subtract_spec d l Hl Hd) as (H1 & _ & H3). destruct (IH _ H1 Hds) as [I1 I2].
  split; [done|]. intros k. rewrite I2, H3, held_cons. pose proof (held_nonneg k delta Hds). unfold in_range, Word.is_u64 in Hd. destruct (decide _); lia.
Qed.

Lemma growth_nil current actual : tidy current -> tidy actual -> (forall k, held k actual <= held k current) -> Ledger.growth current actual = [].
Proof.
  intros Hc Ha Hle. rewrite growth_eq. assert (H : Forall (fun a => grow_one current a = None) actual).
  { apply Forall_forall. intros a Hin. unfold grow_one. rewrite amount_at_held by apply Hc.
    specialize (Hle (ra_key a)). rewrite held_unique in Hle; [|apply Ha|done]. destruct (Z.gtb_spec (ra_amount a) (held (ra_key a) (current))); [lia|done]. }
  clear -H. induction H as [|a l Ha _ IH]; simpl; [done|]. by rewrite Ha.
Qed.

Lemma merge_tidy_held k l : tidy l -> held k (MergeAmounts l) = held k l.
Proof. intros Hl. apply Merge_held_small; [apply Hl|]. pose proof (tidy_held k l Hl). unfold Word.is_u64 in *. lia. Qed.

Lemma commit_spec x actual purpose g : lease_active x = true -> tidy (lease_amounts x) -> tidy actual ->
  (forall k, held k (lease_amounts x) <= acc_reserved (Ledger.account k g)) ->
  (forall k, acc_reserved (Ledger.account k g) + held k actual < 2 ^ 64) ->
  let '(s, x', g') := Ledger.Commit x actual purpose g in
  (if StatusOps.ok s then tidy (lease_amounts x') /\ lease_active x' = true /\
     forall k, held k (lease_amounts x') = held k actual /\
       acc_reserved (Ledger.account k g') = acc_reserved (Ledger.account k g) - held k (lease_amounts x) + held k actual
   else same_books x x' g g') /\
  ((forall k, held k actual <= held k (lease_amounts x)) -> StatusOps.ok s = true).
Proof.
  intros Hact Hx Ha Hle Hroom. unfold Ledger.Commit. rewrite Hact. unfold Ledger.CommitLease.
  pose proof (tidy_merge actual (proj2 Ha)) as Hm. pose proof (fun k => merge_tidy_held k actual Ha) as Hmh.
  destruct (TryReserve_cases (Ledger.growth (lease_amounts x) (MergeAmounts actual)) purpose g) as [[Hs ->]|(a & acc & c & Hf & ->)].
  - simpl. split; [|done]. split; [done|]. split; [done|]. intros k. split; [apply Hmh|].
    destruct (commit_account g (lease_amounts x) (MergeAmounts actual) k Hx Hm) as [H1 _]; [apply Hle|rewrite Hmh; apply Hroom|]. by rewrite H1, Hmh.
  - rewrite exhausted_not_ok. split; [done|]. intros Hsh. exfalso. rewrite growth_nil in Hf; [done|done|done|]. intros k. rewrite Hmh. apply Hsh.
Qed.

(** What a reservation does, on either outcome. *)
Lemma reserve_resources_spec delta purpose x g :
  Forall in_range delta -> lease_ok (fun k => held k delta) x g ->
  let '(s, x', g') := ReserveResources delta purpose x g in
  if StatusOps.ok s then lease_active x' = lease_active x /\ tidy (lease_amounts x') /\
    (lease_active x = true -> forall k, held k (lease_amounts x') = held k (lease_amounts x) + held k delta /\
       acc_reserved (Ledger.account k g') = acc_reserved (Ledger.account k g) + held k delta) /\ (lease_active x = false -> x' = x /\ g' = g)
  else same_books x x' g g'.
Proof.
  intros Hd [Ht Hr Hroom]. unfold ReserveResources. destruct delta as [|d ds] eqn:E.
  { simpl. split; [done|]. split; [done|]. split; [|done]. intros _ k. change (held k []) with 0. lia. }
  rewrite <- E in *. destruct (lease_active x) eqn:Eact; [|simpl; by rewrite Eact].
  assert (Hin : Forall in_range (lease_amounts x ++ delta)) by (apply Forall_app; split; [apply Ht|done]).
  assert (Hheld : forall k, held k (MergeAmounts (lease_amounts x ++ delta)) = held k (lease_amounts x) + held k delta).
  { intros k. pose proof (held_nonneg k delta Hd). pose proof (held_nonneg k _ (proj2 Ht)). specialize (Hr k). specialize (Hroom k).
    rewrite Merge_held_small; [by rewrite held_app|done|]. rewrite held_app. lia. }
  pose proof (commit_spec x (MergeAmounts (lease_amounts x ++ delta)) purpose g Eact Ht (tidy_merge _ Hin) Hr) as H.
  destruct (Ledger.Commit _ _ _ _) as [[s x'] g']. destruct H as [H _]; [intros k; rewrite Hheld; specialize (Hroom k); lia|].
  destruct (StatusOps.ok s); [|exact H]. destruct H as (H1 & H2 & H3). rewrite H2. split_and!; try done.
  intros _ k. destruct (H3 k) as [-> ->]. rewrite Hheld. lia.
Qed.

(** Returning what was reserved restores the books. *)
Lemma return_restores delta purpose x g st x1 g1 :
  Forall in_range delta -> lease_ok (fun k => held k delta) x g -> ReserveResources delta purpose x g = (st, x1, g1) -> StatusOps.ok st = true ->
  let '(x2, g2) := ReturnResources delta x1 g1 in same_books x x2 g g2.
Proof.
  intros Hd Hx Hres Hst. pose proof (reserve_resources_spec delta purpose x g Hd Hx) as H. rewrite Hres, Hst in H. destruct H as (Ha & Ht & Hh & Hno).
  unfold ReturnResources. destruct delta as [|d ds] eqn:E.
  { simpl in Hres. injection Hres as _ <- <-. done. }
  rewrite <- E in *. rewrite Ha. destruct (lease_active x) eqn:Eact; [|by destruct (Hno eq_refl) as [-> ->]].
  destruct (subtract_all delta (lease_amounts x1) Ht Hd) as [S1 S2].
  assert (Hback : forall k, held k (MergeAmounts (fold_left (fun l d => subtract d l) delta (lease_amounts x1))) = held k (lease_amounts x)).
  { intros k. rewrite merge_tidy_held, S2 by done. destruct (Hh eq_refl k) as [-> _]. pose proof (held_nonneg k _ (proj2 (lo_tidy _ _ _ Hx))). lia. }
  pose proof (commit_spec x1 (MergeAmounts (fold_left (fun l d => subtract d l) delta (lease_amounts x1))) "retire" g1 Ha Ht (tidy_merge _ (proj2 S1))) as H.
  destruct (Ledger.Commit _ _ _ _) as [[s x2] g2]. destruct Hx as [Hx1 Hx2 Hx3]. destruct H as [H Hok].
  - intros k. destruct (Hh eq_refl k) as [-> ->]. specialize (Hx2 k). lia.
  - intros k. destruct (Hh eq_refl k) as [_ ->]. rewrite Hback. specialize (Hx3 k). lia.
  - rewrite Hok in H; [|intros k; rewrite Hback; destruct (Hh eq_refl k) as [-> _]; pose proof (held_nonneg k delta Hd); lia].
    destruct H as (_ & H2 & H3). split; [congruence|]. intros k. destruct (H3 k) as [-> ->]. rewrite Hback. destruct (Hh eq_refl k) as [-> ->]. lia.
Qed.

(** ** The heap *)

(** Everything that existed is still what it was. *)
Definition kept_list {A} (l l' : list A) : Prop := forall i x, l !! i = Some x -> l' !! i = Some x.
Record unchanged (h h' : heap) : Prop := {
  un_nodes : kept_list (h_nodes h) (h_nodes h');
  un_edges : kept_list (h_edges h) (h_edges h');
  un_inputs : kept_list (h_inputs h) (h_inputs h');
}.

Lemma unchanged_refl h : unchanged h h.
Proof. split; by intros i x. Qed.
Lemma kept_insert {A} (l l' : list A) i x : kept_list l l' -> l !! i = None -> kept_list l (<[i := x]> l').
Proof. intros Hk Hi j y Hy. rewrite list_lookup_insert_ne; [by apply Hk|congruence]. Qed.
Lemma kept_app {A} (l k : list A) : kept_list l (l ++ k)%list.
Proof. intros i x Hx. by apply lookup_app_l_Some. Qed.

Lemma set_node_unchanged h0 h r n : unchanged h0 h -> h_nodes h0 !! r = None -> unchanged h0 (set_node r n h).
Proof. intros [A B C] Hr. split; simpl; [by apply kept_insert|done|done]. Qed.
Lemma set_node_frame h r n n' : node_of h r = Some n -> same_identity n n' -> frame h (set_node r n' h).
Proof.
  intros Hn Hs. split; simpl; [|apply frame_refl]. unfold node_of in Hn. rewrite <- (list_insert_id (h_nodes h) r n Hn) at 1.
  apply Forall2_insert; [apply frame_refl|done].
Qed.
Lemma set_node_lookup h r n q x : node_of h r = Some n -> node_of (set_node r x h) q = if decide (r = q) then Some x else node_of h q.
Proof.
  intros Hn. unfold node_of in *. simpl. destruct (decide (r = q)) as [<-|Hne]; [|by apply list_lookup_insert_ne].
  apply list_lookup_insert_eq. by eapply lookup_lt_Some.
Qed.

Definition over (s : NodeState) : bool := match s with NodeRuntime.kClosed | NodeRuntime.kFailed => true | _ => false end.

(** What the steps of opening and closing nodes keep. *)
Record same_rest (h h' : heap) : Prop := {
  sr_frame : frame h h';
  sr_edges : h_edges h' = h_edges h;
  sr_inputs : h_inputs h' = h_inputs h;
}.
Lemma same_rest_refl h : same_rest h h.
Proof. split; [apply frame_refl|done|done]. Qed.
Lemma same_rest_trans h h' h'' : same_rest h h' -> same_rest h' h'' -> same_rest h h''.
Proof. intros [A B C] [D E F]. split; [by eapply frame_trans|congruence|congruence]. Qed.

Section operators.
Context (op_open op_close : NodeRuntime -> Status).

Lemma close_node_spec h r : same_rest h (close_node op_close h r) /\
  (forall q x, node_of h q = Some x -> exists y, node_of (close_node op_close h r) q = Some y /\ (q = r -> n_state y = NodeRuntime.kClosed) /\ (q <> r -> y = x)) /\
  (forall h0, unchanged h0 h -> h_nodes h0 !! r = None -> unchanged h0 (close_node op_close h r)).
Proof.
  unfold close_node. destruct (node_of h r) as [n|] eqn:E.
  - assert (Hid : same_identity n (Node.Close (op_close n) n).2 /\ n_state (Node.Close (op_close n) n).2 = NodeRuntime.kClosed).
    { unfold Node.Close. by destruct (n_state n) eqn:Es. }
    destruct Hid as [Hid Hst]. split; [|split].
    + split; [by eapply set_node_frame|done|done].
    + intros q x Hx. rewrite (set_node_lookup h r n) by done. destruct (decide (r = q)) as [<-|Hne]; [by eexists|]. exists x. by split_and!.
    + intros h0 Hu Hr. by apply set_node_unchanged.
  - split; [apply same_rest_refl|]. split; [|done]. intros q x Hx. exists x. split; [done|]. split; [congruence|done].
Qed.

Lemma abandon_node_spec h r : same_rest h (abandon_node op_close h r) /\
  (forall q x, node_of h q = Some x -> exists y, node_of (abandon_node op_close h r) q = Some y /\ (q = r -> over (n_state y) = true) /\ (over (n_state x) = true -> over (n_state y) = true)) /\
  (forall h0, unchanged h0 h -> h_nodes h0 !! r = None -> unchanged h0 (abandon_node op_close h r)).
Proof.
  unfold abandon_node. destruct (close_node_spec h r) as (C1 & C2 & C3).
  assert (Hclose : forall q x, node_of h q = Some x -> exists y, node_of (close_node op_close h r) q = Some y /\ (q = r -> over (n_state y) = true) /\ (over (n_state x) = true -> over (n_state y) = true)).
  { intros q x Hx. destruct (C2 q x Hx) as (y & Hy & H1 & H2). exists y. split; [done|]. split; [intros Hq; by rewrite (H1 Hq)|].
    destruct (decide (q = r)) as [Hq|Hq]; [by rewrite (H1 Hq)|by rewrite (H2 Hq)]. }
  assert (Hid : forall n, node_of h r = Some n -> over (n_state n) = true -> forall q x, node_of h q = Some x ->
    exists y, node_of h q = Some y /\ (q = r -> over (n_state y) = true) /\ (over (n_state x) = true -> over (n_state y) = true)).
  { intros n Hn Ho q x Hx. exists x. split; [done|]. split; [|done]. intros ->. congruence. }
  destruct (node_of h r) as [n|] eqn:E.
  - specialize (Hid n eq_refl). destruct (n_state n) eqn:Es; try done; (split; [apply same_rest_refl|]); (split; [by apply Hid|done]).
  - split; [apply same_rest_refl|]. split; [|done]. intros q x Hx. exists x. split; [done|]. split; [congruence|done].
Qed.

(** Closing a list of nodes. *)
Lemma abandon_all l : forall h, same_rest h (fold_left (abandon_node op_close) l h) /\
  (forall q x, node_of h q = Some x -> exists y, node_of (fold_left (abandon_node op_close) l h) q = Some y /\ (q ∈ l -> over (n_state y) = true) /\ (over (n_state x) = true -> over (n_state y) = true)) /\
  (forall h0, unchanged h0 h -> (forall r, r ∈ l -> h_nodes h0 !! r = None) -> unchanged h0 (fold_left (abandon_node op_close) l h)).
Proof.
  induction l as [|r l IH]; intros h; simpl.
  { split; [apply same_rest_refl|]. split; [|done]. intros q x Hx. exists x. split; [done|]. split; [by intros H%not_elem_of_nil|done]. }
  destruct (abandon_node_spec h r) as (A1 & A2 & A3). destruct (IH (abandon_node op_close h r)) as (B1 & B2 & B3).
  split; [by eapply same_rest_trans|]. split.
  - intros q x Hx. destruct (A2 q x Hx) as (y & Hy & Hy1 & Hy2). destruct (B2 q y Hy) as (z & Hz & Hz1 & Hz2). exists z. split; [done|].
    split; [|auto]. intros [->|Hq]%elem_of_cons; [auto|by apply Hz1].
  - intros h0 Hu Hl. apply B3; [apply A3; [done|apply Hl; by left]|]. intros q Hq. apply Hl. by right.
Qed.

Lemma close_all l : forall h, same_rest h (fold_left (close_node op_close) l h) /\
  (forall h0, unchanged h0 h -> (forall r, r ∈ l -> h_nodes h0 !! r = None) -> unchanged h0 (fold_left (close_node op_close) l h)).
Proof.
  induction l as [|r l IH]; intros h; simpl; [split; [apply same_rest_refl|done]|].
  destruct (close_node_spec h r) as (A1 & _ & A3). destruct (IH (close_node op_close h r)) as (B1 & B3). split; [by eapply same_rest_trans|].
  intros h0 Hu Hl. apply B3; [apply A3; [done|apply Hl; by left]|]. intros q Hq. apply Hl. by right.
Qed.

(** Opening a node that was created. *)
Lemma open_cases n : n_state n = kCreated -> let '(s, n') := Node.Open (op_open n) n in
  same_identity n n' /\ n_state n' = (if StatusOps.ok s then NodeRuntime.kReady else NodeRuntime.kFailed).
Proof. intros Hn. unfold Node.Open, Node.cas_state. rewrite decide_True by done. by destruct (StatusOps.ok (op_open n)). Qed.

(** The candidate's nodes can be found, and the ones to open are new. *)
Definition openable (t : RuntimeTopology) (h0 h : heap) (order : list string) : Prop :=
  forall id, id ∈ order -> exists r x, FindNode h t id = Some r /\ node_of h r = Some x /\ (n_state x = kCreated -> h_nodes h0 !! r = None).

Lemma openable_step t h0 h order r n n' : openable t h0 h order -> node_of h r = Some n -> same_identity n n' -> n_state n' <> kCreated ->
  openable t h0 (set_node r n' h) order.
Proof.
  intros Ho Hn Hid Hst id Hin. destruct (Ho id Hin) as (q & x & Hq & Hx & Hc). rewrite (frame_FindNode h) by (by eapply set_node_frame).
  rewrite Hq. destruct (decide (r = q)) as [<-|Hne].
  - exists r, n'. split; [done|]. rewrite (set_node_lookup h r n), decide_True by done. by split.
  - exists q, x. split; [done|]. by rewrite (set_node_lookup h r n), decide_False.
Qed.

Definition opened_node (x y : NodeRuntime) : Prop := y = x \/ (n_state x = kCreated /\ n_state y = NodeRuntime.kReady).

Lemma open_nodes_spec t h0 order : forall opened h,
  unchanged h0 h -> (forall r, r ∈ opened -> h_nodes h0 !! r = None) -> openable t h0 h order ->
  exists s h', open_nodes op_open op_close t order opened h = Some (s, h') /\ same_rest h h' /\ unchanged h0 h' /\
    (StatusOps.ok s = true -> forall r x, node_of h r = Some x -> exists y, node_of h' r = Some y /\ opened_node x y /\
       forall id, id ∈ order -> FindNode h t id = Some r -> n_state y <> kCreated).
Proof.
  induction order as [|id order IH]; intros opened h Hu Hop Ho; cbn [open_nodes].
  { exists StatusOps.Ok, h. split; [done|]. split; [apply same_rest_refl|]. split; [done|]. intros _ r x Hx. exists x. split; [done|].
    split; [by left|]. by intros id H%not_elem_of_nil. }
  assert (Ho' : openable t h0 h order) by (intros i Hi; apply Ho; by right).
  destruct (Ho id) as (r & n & Hr & Hn & Hc); [by left|]. rewrite Hr, Hn. destruct (decide (n_state n = kCreated)) as [Hcr|Hcr].
  - pose proof (open_cases n Hcr) as Hopen. destruct (Node.Open (op_open n) n) as [s n']. destruct Hopen as [Hid Hst].
    assert (Hf : same_rest h (set_node r n' h)) by (split; [by eapply set_node_frame|done|done]).
    assert (Hu' : unchanged h0 (set_node r n' h)) by (apply set_node_unchanged; auto). destruct (StatusOps.ok s) eqn:Es.
    + destruct (IH (opened ++ [r])%list (set_node r n' h)) as (s' & h' & E & Hs & Hun & Hres); [done| | |].
      { intros q [Hq|Hq]%elem_of_app; [auto|]. apply list_elem_of_singleton in Hq as ->. auto. }
      { eapply openable_step; try done. by rewrite Hst. }
      exists s', h'. split; [done|]. split; [by eapply same_rest_trans|]. split; [done|]. intros Hok q x Hx.
      destruct (Hres Hok q (if decide (r = q) then n' else x)) as (y & Hy & Hy1 & Hy2).
      { rewrite (set_node_lookup h r n) by done. by destruct (decide (r = q)). }
      exists y. split; [done|]. pose proof (frame_FindNode h _ (sr_frame _ _ Hf)) as Hfind.
      destruct (decide (r = q)) as [<-|Hne].
      * rewrite Hn in Hx. injection Hx as <-. assert (Hy' : n_state y = NodeRuntime.kReady).
        { destruct Hy1 as [->|[_ ?]]; [|done]. by rewrite Hst. }
        split; [by right|]. intros i _ _. by rewrite Hy'.
      * split; [done|]. intros i [->|Hi]%elem_of_cons Hq; [congruence|]. apply (Hy2 i Hi). by rewrite Hfind.
    + exists s. eexists. split; [done|]. destruct (close_all opened (set_node r n' h)) as (C1 & C3). split; [by eapply same_rest_trans|].
      split; [by apply C3|]. by rewrite Es.
  - destruct (IH opened h Hu Hop Ho') as (s' & h' & E & Hs & Hun & Hres). exists s', h'. split_and!; try done. intros Hok q x Hx.
    destruct (Hres Hok q x Hx) as (y & Hy & Hy1 & Hy2). exists y. split; [done|]. split; [done|]. intros i [->|Hi]%elem_of_cons Hq; [|by apply (Hy2 i)].
    rewrite Hr in Hq. injection Hq as <-. rewrite Hn in Hx. injection Hx as <-. destruct Hy1 as [->|[? _]]; [done|congruence].
Qed.

End operators.

(** Retiring the channels of a candidate. *)
Lemma retire_channel_spec h e : h_nodes (retire_channel e h) = h_nodes h /\ h_inputs (retire_channel e h) = h_inputs h /\ frame h (retire_channel e h) /\
  (forall q c, h_edges h !! q = Some c -> exists d, h_edges (retire_channel e h) !! q = Some d /\
     (q = e -> state_ (ch_edge d) = kRetired) /\ (state_ (ch_edge c) = kRetired -> state_ (ch_edge d) = kRetired)) /\
  (forall h0, unchanged h0 h -> h_edges h0 !! e = None -> unchanged h0 (retire_channel e h)).
Proof.
  unfold retire_channel. destruct (h_edges h !! e) as [c|] eqn:E.
  - split; [done|]. split; [done|]. split; [|split].
    + split; simpl; [apply frame_refl|]. rewrite <- (list_insert_id (h_edges h) e c E) at 1. apply Forall2_insert; [apply frame_refl|]. by repeat split.
    + intros q c' Hq. simpl. destruct (decide (e = q)) as [<-|Hne].
      * rewrite list_lookup_insert_eq by (by eapply lookup_lt_Some). eexists. split; [done|]. done.
      * rewrite list_lookup_insert_ne by done. exists c'. split; [done|]. split; [congruence|done].
    + intros h0 [A B C] He. split; simpl; [done|by apply kept_insert|done].
  - split; [done|]. split; [done|]. split; [apply frame_refl|]. split; [|done]. intros q c Hq. exists c. split; [done|]. split; [congruence|done].
Qed.

Lemma retire_channels l : forall h, let h' := fold_left (fun h e => retire_channel e h) l h in
  h_nodes h' = h_nodes h /\ h_inputs h' = h_inputs h /\ frame h h' /\
  (forall q c, h_edges h !! q = Some c -> exists d, h_edges h' !! q = Some d /\
     (q ∈ l -> state_ (ch_edge d) = kRetired) /\ (state_ (ch_edge c) = kRetired -> state_ (ch_edge d) = kRetired)) /\
  (forall h0, unchanged h0 h -> (forall e, e ∈ l -> h_edges h0 !! e = None) -> unchanged h0 h').
Proof.
  induction l as [|e l IH]; intros h; simpl.
  { split; [done|]. split; [done|]. split; [apply frame_refl|]. split; [|done]. intros q c Hq. exists c. split; [done|].
    split; [by intros H%not_elem_of_nil|done]. }
  destruct (retire_channel_spec h e) as (A1 & A2 & A3 & A4 & A5). destruct (IH (retire_channel e h)) as (B1 & B2 & B3 & B4 & B5).
  split; [congruence|]. split; [congruence|]. split; [by eapply frame_trans|]. split.
  - intros q c Hq. destruct (A4 q c Hq) as (d & Hd & D1 & D2). destruct (B4 q d Hd) as (f & Hf & F1 & F2). exists f. split; [done|].
    split; [|auto]. intros [->|Hin]%elem_of_cons; [auto|by apply F1].
  - intros h0 Hu Hl. apply B5; [apply A5; [done|apply Hl; by left]|]. intros q Hq. apply Hl. by right.
Qed.

Lemma abandon_candidate op_close t h0 h :
  unchanged h0 h -> (forall r, r ∈ t_new_nodes t -> h_nodes h0 !! r = None) -> (forall e, e ∈ t_new_edges t -> h_edges h0 !! e = None) ->
  let h' := AbandonCandidate op_close t h in
  unchanged h0 h' /\ List.length (h_nodes h') = List.length (h_nodes h) /\ List.length (h_edges h') = List.length (h_edges h) /\
  (forall r x, r ∈ t_new_nodes t -> node_of h' r = Some x -> over (n_state x) = true) /\
  (forall e c, e ∈ t_new_edges t -> h_edges h' !! e = Some c -> state_ (ch_edge c) = kRetired).
Proof.
  intros Hu Hn He. unfold AbandonCandidate. cbv zeta. destruct (abandon_all op_close (t_new_nodes t) h) as (A1 & A2 & A3).
  set (h1 := fold_left (abandon_node op_close) (t_new_nodes t) h) in *. destruct (retire_channels (t_new_edges t) h1) as (B1 & B2 & B3 & B4 & B5).
  set (h2 := fold_left _ (t_new_edges t) h1) in *. pose proof (frame_trans _ _ _ (sr_frame _ _ A1) B3) as Hf.
  assert (Hln := Forall2_length _ _ _ (fr_nodes _ _ Hf)). assert (Hle := Forall2_length _ _ _ (fr_edges _ _ Hf)). split_and!; try done.
  - apply B5; [by apply A3|done].
  - intros r x Hr Hx. unfold node_of in Hx. rewrite B1 in Hx. destruct (lookup_lt_is_Some_2 (h_nodes h) r) as [z Hz].
    { rewrite (Forall2_length _ _ _ (fr_nodes _ _ (sr_frame _ _ A1))). by eapply lookup_lt_Some. }
    destruct (A2 r z Hz) as (y & Hy & Hy1 & _). unfold node_of in Hy. rewrite Hx in Hy. injection Hy as <-. auto.
  - intros e c Hin Hc. destruct (lookup_lt_is_Some_2 (h_edges h1) e) as [d Hd].
    { rewrite (Forall2_length _ _ _ (fr_edges _ _ B3)). by eapply lookup_lt_Some. }
    destruct (B4 e d Hd) as (f & Hf' & F1 & _). assert (c = f) as -> by (apply (inj Some); rewrite <- Hc; exact Hf'). auto.
Qed.

(** ** The candidate graph *)

Lemma update_node_ids id f l : (forall n, ns_id (f n) = ns_id n) -> ns_id <$> update_node id f l = ns_id <$> l.
Proof. intros Hf. induction l as [|n l IH]; simpl; [done|]. destruct (decide _); csimpl; [by rewrite Hf|by rewrite IH]. Qed.

Lemma with_options_wf id o g : wf g -> wf (with_options id o g).
Proof.
  intros [H1 H2 H3 H4 H5]. pose proof (update_node_ids id (set_options o) (nodes_ g) (fun _ => eq_refl)) as Hids.
  split; simpl; try done; [by rewrite Hids| |].
  - clear -H2. induction H2 as [|n l Hn Hl IH]; simpl; [constructor|]. destruct (decide _); by constructor.
  - eapply Forall_impl; [exact H5|]. intros e. apply wf_edge_mono. intros i. by rewrite Hids.
Qed.

Section migrate.
Context (describe : OperatorKey -> option CapabilityDescriptor) (h : heap) (base : RuntimeTopology).

Lemma migrate_action_wf g a : wf g -> wf (migrate_action describe h base g a) /\ edges_ (migrate_action describe h base g a) = edges_ g.
Proof.
  intros Hg. unfold migrate_action. destruct a; try done. destruct (FindNode _ _ _) as [r|]; [|done].
  destruct (node_of h r); [|done]. destruct (GraphOps.FindNode node g); [|done]. destruct (describe replacement_op); [|done]. split; [by apply with_options_wf|done].
Qed.
Lemma migrate_wf patch g : wf g -> wf (MigrateParameters describe h base patch g) /\ edges_ (MigrateParameters describe h base patch g) = edges_ g.
Proof.
  unfold MigrateParameters. revert g. induction (mp_actions patch) as [|a l IH]; intros g Hg; simpl; [done|].
  destruct (migrate_action_wf g a Hg) as [H1 H2]. destruct (IH _ H1) as [H3 H4]. split; [done|congruence].
Qed.
Lemma ApplyPatch_wf patch c : wf (t_spec base) -> ApplyPatch describe h base patch = Value c -> wf (candidate c).
Proof.
  intros Hw. unfold ApplyPatch. destruct (Apply describe (t_spec base) patch) as [c0|] eqn:E; [|done]. intros [= <-]. simpl.
  apply migrate_wf. revert E. unfold Apply. destruct (mp_actions patch); [intros H; by apply of_status_not_value in H|].
  intros E. apply (cs_wf (t_spec base)). eapply apply_actions_consistent; [|exact E]. by apply consistent_start.
Qed.
End migrate.

(** ** Preparing *)

(** Nothing of a failed candidate is left running. *)
Record left_over (h0 h : heap) : Prop := {
  lf_nodes : forall r x, (List.length (h_nodes h0) <= r)%nat -> node_of h r = Some x -> over (n_state x) = true;
  lf_edges : forall e c, (List.length (h_edges h0) <= e)%nat -> h_edges h !! e = Some c -> state_ (ch_edge c) = kRetired;
}.
Lemma left_over_refl h : left_over h h.
Proof.
  split; [intros r x Hr Hx|intros r x Hr Hx]; unfold node_of in *; exfalso; apply lookup_lt_Some in Hx; lia.
Qed.

Section candidate.
Context (options : BuildOptions) (spec : GraphSpec) (v : ValidatedGraph) (h0 h : heap) (t : RuntimeTopology).
Hypothesis is_built : built options spec v h0 h t.
Hypothesis base_open : forall base, bo_base options = Some base -> forall r x, r ∈ t_nodes base -> node_of h0 r = Some x -> n_state x <> kCreated.

Lemma built_unchanged : unchanged h0 h.
Proof.
  destruct is_built as [_ _ (ns & es & ins & E1 & E2 & E3) _ _ _ _ _]. split; [rewrite E1|rewrite E2|rewrite E3]; apply kept_app.
Qed.

Lemma fresh_nodes r : r ∈ t_new_nodes t -> h_nodes h0 !! r = None.
Proof.
  destruct is_built as [_ _ _ _ _ [-> _] _ _]. intros [_ Hr%Nat.leb_le]%list_elem_of_In%filter_In. by apply lookup_ge_None.
Qed.
Lemma fresh_edges e : e ∈ t_new_edges t -> h_edges h0 !! e = None.
Proof.
  destruct is_built as [_ _ _ _ _ [_ ->] _ _]. intros [_ Hr%Nat.leb_le]%list_elem_of_In%filter_In. by apply lookup_ge_None.
Qed.

Lemma all_new h' : List.length (h_nodes h') = List.length (h_nodes h) -> List.length (h_edges h') = List.length (h_edges h) ->
  (forall r x, r ∈ t_new_nodes t -> node_of h' r = Some x -> over (n_state x) = true) ->
  (forall e c, e ∈ t_new_edges t -> h_edges h' !! e = Some c -> state_ (ch_edge c) = kRetired) -> left_over h0 h'.
Proof.
  destruct is_built as [_ _ _ _ _ [-> ->] [Fn Fe] _]. intros Ln Le Hn He. split.
  - intros r x Hr Hx. apply (Hn r x); [|done]. apply list_elem_of_In, filter_In. split; [|by apply Nat.leb_le].
    apply list_elem_of_In, Fn. split; [done|]. rewrite <- Ln. by eapply lookup_lt_Some.
  - intros e c Hr Hx. apply (He e c); [|done]. apply list_elem_of_In, filter_In. split; [|by apply Nat.leb_le].
    apply list_elem_of_In, Fe. split; [done|]. rewrite <- Le. by eapply lookup_lt_Some.
Qed.

(** A failure after the build: the candidate is abandoned. *)
Lemma abandoned op_close h1 : unchanged h0 h1 -> frame h h1 -> unchanged h0 (AbandonCandidate op_close t h1) /\ left_over h0 (AbandonCandidate op_close t h1).
Proof.
  intros Hu Hf. destruct (abandon_candidate op_close t h0 h1 Hu fresh_nodes fresh_edges) as (A1 & A2 & A3 & A4 & A5). split; [done|].
  apply all_new; [| |exact A4|exact A5].
  - rewrite A2. symmetry. apply (Forall2_length _ _ _ (fr_nodes _ _ Hf)).
  - rewrite A3. symmetry. apply (Forall2_length _ _ _ (fr_edges _ _ Hf)).
Qed.

Lemma candidate_openable : Permutation (t_order t) (map ns_id (nodes_ spec)) -> openable t h0 h (t_order t).
Proof.
  intros Hp id Hin. rewrite Hp in Hin. apply list_elem_of_In, in_map_iff in Hin as (n & <- & Hn%list_elem_of_In).
  destruct is_built as [[Hs _] [_ Hv _ _] _ Hw _ _ _ _]. rewrite Hs in Hv. apply list_elem_of_lookup in Hn as [i Hi].
  destruct (Forall2_lookup_r _ _ _ _ _ Hv Hi) as (r & Hr & x & H1 & _ & _ & H4 & H5 & _).
  destruct (Forall2_lookup_r _ _ _ _ _ Hw Hi) as (r' & Hr' & x' & j & b & W1 & _ & _ & _ & W5). rewrite Hr in Hr'. injection Hr' as <-.
  rewrite H1 in W1. injection W1 as <-. exists r, x. unfold FindNode. rewrite H4. split; [done|]. split; [done|]. intros Hc.
  cbv zeta in W5. destruct (reuses _ _ _) as [old|] eqn:Er; [|by apply lookup_ge_None, W5].
  apply reuses_iff in Er as [Ho _]. destruct W5 as [Hf _]. exfalso. unfold FindNode in Hf. destruct (SMap.find (ns_id n) (t_node_ids old)) as [id|]; [|done].
  unfold FindNodeId in Hf. apply List.find_some in Hf as [Hb%list_elem_of_In Hy]. destruct (node_of h0 r) as [y|] eqn:Ey; [|done].
  apply (base_open old Ho r y Hb Ey). pose proof (un_nodes _ _ built_unchanged r y Ey) as Hk. unfold node_of in H1. congruence.
Qed.

Lemma evolved_rest h' : same_rest h h' -> evolved h h'.
Proof.
  intros [Hf _ Hi]. split; [done|]. rewrite Hi. apply Forall_Forall2_diag, Forall_true. intros b. split; [done|]. by apply same_ports_spec.
Qed.

(** Opening the candidate's nodes. *)
Lemma candidate_opens op_open op_close : Permutation (t_order t) (map ns_id (nodes_ spec)) ->
  exists s h', OpenNodes op_open op_close t h = Some (s, h') /\ same_rest h h' /\ unchanged h0 h' /\
    (StatusOps.ok s = true -> forall r x, r ∈ t_nodes t -> node_of h' r = Some x -> n_state x <> kCreated).
Proof.
  intros Hp. destruct (open_nodes_spec op_open op_close t h0 (t_order t) [] h) as (s & h' & E & Hs & Hu & Hok).
  - apply built_unchanged.
  - by intros r H%not_elem_of_nil.
  - by apply candidate_openable.
  - exists s, h'. split_and!; try done. intros Hst r y Hr Hy.
    destruct is_built as [[Hsp _] [_ Hv _ _] _ _ _ _ _ _]. rewrite Hsp in Hv. apply list_elem_of_lookup in Hr as [i Hi].
    destruct (Forall2_lookup_l _ _ _ _ _ Hv Hi) as (n & Hn & x & H1 & _ & _ & H4 & H5 & _).
    destruct (Hok Hst r x H1) as (z & Hz & _ & Hz2). rewrite Hy in Hz. injection Hz as <-. apply (Hz2 (ns_id n)).
    + rewrite Hp. apply list_elem_of_In, in_map, list_elem_of_In. by eapply list_elem_of_lookup_2.
    + unfold FindNode. by rewrite H4.
Qed.

End candidate.

(** What the estimate reserves fits 64 bits, as the operators' own amounts do. *)
Lemma estimated_range estimate spec contracts reject elements l :
  (forall k o, Forall in_range (estimate k o)) -> estimate_of estimate spec contracts reject elements = Value l -> Forall in_range l.
Proof.
  intros He H. assert (Hr : forall ns es, Forall in_range (est_amounts (Estimate.EstimateGraphResources spec contracts estimate ns es))).
  { intros ns es. unfold Estimate.EstimateGraphResources. cbn [est_amounts]. apply Merge_range, Forall_app. split.
    - apply Forall_concat, Forall_map, Forall_true. intros n. apply He.
    - apply Forall_forall. intros a (e & _ & Ha)%list_elem_of_omap. apply fmap_Some in Ha as (b & _ & ->). apply Word.u64_range. }
  assert (Ha : forall ns es, EstimateForAdmission estimate spec contracts reject ns es = Value l -> Forall in_range l).
  { intros ns es E. unfold EstimateForAdmission in E. destruct reject; [destruct (unbudgeted_edges _); [|by apply of_status_not_value in E]|];
      injection E as <-; apply Hr. }
  destruct elements as [[|n ns] [|e es]]; [by injection H as <-| | |]; by eapply Ha.
Qed.

Section prepare.
Context (describe : OperatorKey -> option CapabilityDescriptor) (create : OperatorKey -> Z -> string -> json -> option Status).
Context (estimate : OperatorKey -> json -> list ResourceAmount) (op_open op_close : NodeRuntime -> Status) (iterate : list NodeInfo -> list NodeInfo).
Context (session : Z) (aligned : AlignedOptions) (reject : bool) (base : RuntimeTopology) (patch : MutationPatch) (version : Z) (s : resources).

(** What preparing needs: a running version, opened, and ids that do not run out. *)
Record preparable : Prop := {
  pp_base : version_ok (rs_heap s) base;
  pp_open : forall r x, r ∈ t_nodes base -> node_of (rs_heap s) r = Some x -> n_state x <> kCreated;
  pp_ids : 0 <= t_next_node base;
  pp_room : forall c, ApplyPatch describe (rs_heap s) base patch = Value c ->
    t_next_node base + Z.of_nat (List.length (nodes_ (candidate c))) < 2 ^ 64 /\ Z.of_nat (List.length (edges_ (candidate c))) < 2 ^ 64;
}.
Hypothesis ready : preparable.

Definition diff_with (c : CandidateSpec) (v : ValidatedGraph) : GraphDiff :=
  Compute (t_spec base) (edge_contracts (t_validated base)) (candidate c) (edge_contracts v).
Definition mutation_options (c : CandidateSpec) (v : ValidatedGraph) : BuildOptions :=
  MkBuildOptions session version aligned (Some base) (ReusedNodes (diff_with c v)) (ReusedEdges (diff_with c v)) (Some v).

Lemma prepare_build c v : ApplyPatch describe (rs_heap s) base patch = Value c -> validate describe iterate (candidate c) = Value v ->
  match Build describe create iterate (candidate c) (mutation_options c v) (rs_heap s) with
  | Some (Value (t, h)) => built (mutation_options c v) (candidate c) v (rs_heap s) h t /\ Permutation (t_order t) (map ns_id (nodes_ (candidate c)))
  | Some (Error _) => True
  | None => False
  end.
Proof.
  intros Hc Hv. destruct ready as [Hb _ Hid Hroom]. destruct (Hroom c Hc) as [Hn He].
  unfold validate in Hv. destruct (Validate _ _ _ _ _ _) as [[r issues] n'] eqn:Ev. simpl in Hv. subst r.
  pose proof (build_ends describe create iterate (candidate c) _ false Negotiator.empty (mutation_options c v) v issues n' (rs_heap s)
    (ApplyPatch_wf describe (rs_heap s) base patch c (vo_spec _ _ Hb) Hc) Ev eq_refl) as H.
  destruct (Build _ _ _ _ _ _) as [[[t h]|e]|]; [|done|apply H].
  - assert (Hbuilt : built (mutation_options c v) (candidate c) v (rs_heap s) h t).
    { apply H; [by intros t0 [= <-]|by intros t0 [= <-]|]. unfold next_node0. simpl. lia. }
    split; [done|]. destruct (bu_spec _ _ _ _ _ _ Hbuilt) as (_ & _ & -> & _). by eapply validated_order.
  - by intros t0 [= <-].
  - by intros t0 [= <-].
  - unfold next_node0. simpl. lia.
Qed.

(** The end of [Prepare], for a candidate that was built. *)
Lemma admit_isolated c v t h lease ledger :
  built (mutation_options c v) (candidate c) v (rs_heap s) h t -> Permutation (t_order t) (map ns_id (nodes_ (candidate c))) ->
  exists res s', admission estimate op_open op_close reject base c v (diff_with c v) (mp_remove_policy patch) t version (MkResources h lease ledger) = Some (res, s') /\
    unchanged (rs_heap s) (rs_heap s') /\
    match res with
    | Value p => pr_candidate p = t /\ evolved h (rs_heap s') /\ forall r x, r ∈ t_nodes t -> node_of (rs_heap s') r = Some x -> n_state x <> kCreated
    | Error _ => left_over (rs_heap s) (rs_heap s')
    end.
Proof.
  intros Hb Hp. unfold admission. cbn [rs_heap rs_lease rs_ledger]. pose proof (built_unchanged _ _ _ _ _ _ Hb) as Hu.
  destruct (estimate_of estimate (candidate c) (edge_contracts v) reject (added_elements (diff_with c v))) as [added|st].
  2:{ eexists _, _. split; [done|]. simpl. by eapply (abandoned _ _ _ _ _ _ Hb); [|apply frame_refl]. }
  destruct (ReserveResources _ _ _ _) as [[st lease'] ledger']. destruct (StatusOps.ok st); simpl.
  2:{ eexists _, _. split; [done|]. simpl. destruct (abandoned _ _ _ _ _ _ Hb op_close h Hu (frame_refl h)) as [A1 A2]. split; [done|].
      destruct (ResultOps.of_status st) eqn:E; [by apply of_status_not_value in E|done]. }
  destruct (candidate_opens _ _ _ _ _ _ Hb ltac:(intros b0 [= <-]; apply (pp_open ready)) op_open op_close Hp) as (st' & h' & -> & Hs & Hu' & Hok).
  destruct (StatusOps.ok st'); simpl.
  - eexists _, _. split; [done|]. simpl. split; [done|]. split; [done|]. split; [by apply evolved_rest|by apply Hok].
  - destruct (ReturnResources _ _ _) as [lease2 ledger2]. eexists _, _. split; [done|]. simpl.
    destruct (abandoned _ _ _ _ _ _ Hb op_close h' Hu' (sr_frame _ _ Hs)) as [A1 A2]. split; [done|].
    destruct (ResultOps.of_status st') eqn:E; [by apply of_status_not_value in E|done].
Qed.

Lemma prepare_ends :
  exists res s', Prepare describe create estimate op_open op_close iterate session aligned reject base patch version s = Some (res, s') /\
    unchanged (rs_heap s) (rs_heap s') /\
    match res with
    | Value p => t_version (pr_candidate p) = version /\
        (forall r x, r ∈ t_nodes (pr_candidate p) -> node_of (rs_heap s') r = Some x -> n_state x <> kCreated) /\
        forall h1, evolved (rs_heap s') h1 -> live (ApplyRebinds (pr_candidate p) h1).2 (ApplyRebinds (pr_candidate p) h1).1
    | Error _ => left_over (rs_heap s) (rs_heap s')
    end.
Proof.
  unfold Prepare. pose proof (unchanged_refl (rs_heap s)) as Hr. pose proof (left_over_refl (rs_heap s)) as Hl.
  destruct (ApplyPatch describe (rs_heap s) base patch) as [c|] eqn:Ec; [|by eexists _, _].
  destruct (validate describe iterate (candidate c)) as [v|] eqn:Ev; [|by eexists _, _].
  pose proof (prepare_build c v Ec Ev) as Hb. unfold mutation_options, diff_with in Hb.
  destruct (Build _ _ _ _ _ _) as [[[t h]|st]|]; [|by eexists _, _|done]. destruct Hb as [Hb Hp].
  destruct (admit_isolated c v t h (rs_lease s) (rs_ledger s) Hb Hp) as (res & s' & E & Hu & Hres). exists res, s'. split; [exact E|]. split; [done|].
  destruct res as [p|]; [|done]. destruct Hres as (-> & Hev & Hst). split; [apply (bu_spec _ _ _ _ _ _ Hb)|]. split; [done|].
  intros h1 Hh1. eapply publish_live; [exact Hb|]. by eapply evolved_trans.
Qed.

End prepare.

(** ** What a mutation is charged *)

(** An element counts when it is listed; an empty list stands for all of them. *)
Definition counts (only : list string) (id : string) : bool := bool_decide (only = [] \/ id ∈ only).
Definition total {A} (f : A -> Z) (l : list A) : Z := foldr (fun x n => f x + n) 0 l.
(** A node costs what its operator estimates for its options. *)
Definition node_cost (estimate : OperatorKey -> json -> list ResourceAmount) (only : list string) (k : key) (n : NodeSpec) : Z :=
  if counts only (ns_id n) then held k (estimate (ns_op n) (ns_options n)) else 0.
(** An edge costs the bytes of a full queue, when the size of a packet is known. *)
Definition edge_cost (contracts : list (string * ConnectionContract)) (only : list string) (k : key) (e : EdgeSpec) : Z :=
  if counts only (es_id e) && bool_decide (k = (kEdgeBufferBytes, -1))
  then match Estimate.per_packet contracts e with Some b => Word.u64 (b * q_capacity (es_queue e)) | None => 0 end
  else 0.
Definition charge (estimate : OperatorKey -> json -> list ResourceAmount) (spec : GraphSpec) (contracts : list (string * ConnectionContract))
    (elements : list string * list string) (k : key) : Z :=
  if bool_decide (elements = ([], [])) then 0
  else Word.u64 (total (node_cost estimate elements.1 k) (nodes_ spec) + total (edge_cost contracts elements.2 k) (edges_ spec)).

Lemma wanted_counts only id : Estimate.wanted only id = counts only id.
Proof.
  unfold Estimate.wanted, counts, one_of. destruct only as [|x l]; [by rewrite bool_decide_true by (by left)|].
  apply eq_true_iff_eq. rewrite bool_decide_eq_true, existsb_exists. split.
  - intros (y & Hy & ->%bool_decide_eq_true). right. by apply list_elem_of_In.
  - intros [|H]; [done|]. exists id. split; [by apply list_elem_of_In|by apply bool_decide_eq_true].
Qed.

Lemma held_nodes_cost estimate only k l :
  held k (List.concat (map (fun n => estimate (ns_op n) (ns_options n)) (List.filter (fun n => Estimate.wanted only (ns_id n)) l))) = total (node_cost estimate only k) l.
Proof.
  induction l as [|n l IH]; [done|]. simpl. unfold node_cost at 1. rewrite <- wanted_counts. destruct (Estimate.wanted _ _); simpl; [rewrite held_app|]; by rewrite IH.
Qed.

Lemma held_edges_cost contracts only k l :
  held k (omap (fun e => (fun b => MkAmount kEdgeBufferBytes (-1) (Word.u64 (b * q_capacity (es_queue e)))) <$> Estimate.per_packet contracts e)
    (List.filter (fun e => Estimate.wanted only (es_id e)) l)) = total (edge_cost contracts only k) l.
Proof.
  set (f := fun e : EdgeSpec => _ <$> _). induction l as [|e l IH]; [done|]. cbn [List.filter]. change (total ?g (e :: l)) with (g e + total g l).
  unfold edge_cost at 1. rewrite <- wanted_counts. destruct (Estimate.wanted only (es_id e)); [|exact IH].
  change (omap f (e :: ?x)) with (match f e with Some y => y :: omap f x | None => omap f x end).
  unfold f at 1. destruct (Estimate.per_packet contracts e) as [b|]; simpl; [rewrite held_cons; unfold ra_key at 1; simpl|]; rewrite IH.
  - by destruct (decide _) as [<-|Hne]; [rewrite bool_decide_true|rewrite bool_decide_false by congruence].
  - by destruct (bool_decide _).
Qed.

(** The admission's estimate is the charge. *)
Lemma estimate_charge estimate spec contracts reject elements added :
  (forall k o, Forall in_range (estimate k o)) -> estimate_of estimate spec contracts reject elements = Value added ->
  forall k, held k added = charge estimate spec contracts elements k.
Proof.
  intros He H k. unfold charge. destruct (decide (elements = ([], []))) as [->|Hne]; [by injection H as <-|]. rewrite bool_decide_false by done.
  assert (Ha : est_amounts (Estimate.EstimateGraphResources spec contracts estimate elements.1 elements.2) = added).
  { assert (E : EstimateForAdmission estimate spec contracts reject elements.1 elements.2 = Value added) by by destruct elements as [[] []].
    unfold EstimateForAdmission in E. destruct reject; [destruct (unbudgeted_edges _); [|by apply of_status_not_value in E]|]; by injection E as <-. }
  rewrite <- Ha. unfold Estimate.EstimateGraphResources. cbn [est_amounts]. rewrite Merge_held.
  { by rewrite held_app, held_nodes_cost, held_edges_cost. }
  apply Forall_app. split; [apply Forall_concat, Forall_map, Forall_true; intros n; apply He|].
  apply Forall_forall. intros a (e & _ & Hx)%list_elem_of_omap. apply fmap_Some in Hx as (b & _ & ->). apply Word.u64_range.
Qed.

Lemma lease_ok_ext f g x y : (forall k, f k = g k) -> lease_ok f x y -> lease_ok g x y.
Proof. intros E [A B C]. split; [done..|]. intros k. rewrite <- E. apply C. Qed.

(** The books of the admission, whatever becomes of the candidate. *)
Lemma admit_books estimate op_open op_close reject base c v diff policy t version h lease ledger res s' :
  (forall k o, Forall in_range (estimate k o)) ->
  lease_ok (charge estimate (candidate c) (edge_contracts v) (added_elements diff)) lease ledger ->
  admission estimate op_open op_close reject base c v diff policy t version (MkResources h lease ledger) = Some (res, s') ->
  match res with
  | Value p => lease_active lease = true -> forall k,
      held k (lease_amounts (rs_lease s')) = held k (lease_amounts lease) + charge estimate (candidate c) (edge_contracts v) (added_elements diff) k /\
      acc_reserved (Ledger.account k (rs_ledger s')) = acc_reserved (Ledger.account k ledger) + charge estimate (candidate c) (edge_contracts v) (added_elements diff) k
  | Error _ => same_books lease (rs_lease s') ledger (rs_ledger s')
  end.
Proof.
  intros He Hroom H. unfold admission in H. cbn [rs_heap rs_lease rs_ledger] in H.
  destruct (estimate_of estimate (candidate c) (edge_contracts v) reject (added_elements diff)) as [added|st] eqn:Eadd; [|injection H as <- <-; by split].
  pose proof (estimated_range _ _ _ _ _ _ He Eadd) as Hin. pose proof (estimate_charge _ _ _ _ _ _ He Eadd) as Hch.
  apply (lease_ok_ext _ (fun k => held k added)) in Hroom; [|intros k; by rewrite Hch].
  pose proof (reserve_resources_spec added ("mutation v" ++ Dec.to_string version) lease ledger Hin Hroom) as Hres.
  destruct (ReserveResources _ _ _ _) as [[st lease1] ledger1] eqn:Er. destruct (StatusOps.ok st) eqn:Est; simpl in H.
  2:{ injection H as <- <-. simpl. by destruct (ResultOps.of_status st) eqn:E; [apply of_status_not_value in E|]. }
  destruct Hres as (Ha & Ht & Hh & _). destruct (OpenNodes _ _ _ _) as [[st' h']|]; [|done]. destruct (StatusOps.ok st'); simpl in H.
  - injection H as <- <-. intros Hact k. rewrite <- Hch. by apply Hh.
  - pose proof (return_restores _ _ _ _ _ _ _ Hin Hroom Er Est) as Hret. destruct (ReturnResources _ _ _) as [lease2 ledger2]. injection H as <- <-. simpl.
    by destruct (ResultOps.of_status st') eqn:E; [apply of_status_not_value in E|].
Qed.

Section mutation.
Context (describe : OperatorKey -> option CapabilityDescriptor) (create : OperatorKey -> Z -> string -> json -> option Status).
Context (estimate : OperatorKey -> json -> list ResourceAmount) (op_open op_close : NodeRuntime -> Status) (iterate : list NodeInfo -> list NodeInfo).
Context (session : Z) (aligned : AlignedOptions) (reject : bool) (base : RuntimeTopology) (patch : MutationPatch) (version : Z) (s : resources).


(** C20: the admission of a mutation is all or nothing. When the mutation is
    prepared, the session's lease and the ledger both grew, for every resource,
    by the charge of the candidate graph for the elements its diff lists as
    new: the estimates of the added and replaced nodes plus the queue bytes of
    the added and recreated edges. (When the diff lists new nodes and no new
    edge, or the reverse, the estimator takes the empty list for all elements
    of that kind, running ones included, and the charge says so: [counts],
    [added_node_counts_running_edges].) When preparing fails, before or after
    the reservation, the lease and the ledger hold what they held before. *)
Theorem Prepare_restores res s' :
  (forall k o, Forall in_range (estimate k o)) ->
  (forall c v, ApplyPatch describe (rs_heap s) base patch = Value c -> validate describe iterate (candidate c) = Value v ->
     lease_ok (charge estimate (candidate c) (edge_contracts v) (added_elements (diff_with base c v))) (rs_lease s) (rs_ledger s)) ->
  Prepare describe create estimate op_open op_close iterate session aligned reject base patch version s = Some (res, s') ->
  match res with
  | Value p => exists c v, ApplyPatch describe (rs_heap s) base patch = Value c /\ validate describe iterate (candidate c) = Value v /\
      (lease_active (rs_lease s) = true -> forall k,
         let cost := charge estimate (candidate c) (edge_contracts v) (added_elements (diff_with base c v)) k in
         held k (lease_amounts (rs_lease s')) = held k (lease_amounts (rs_lease s)) + cost /\
         acc_reserved (Ledger.account k (rs_ledger s')) = acc_reserved (Ledger.account k (rs_ledger s)) + cost)
  | Error _ => same_books (rs_lease s) (rs_lease s') (rs_ledger s) (rs_ledger s')
  end.
Proof.
  intros He Hroom H. unfold Prepare in H. destruct (ApplyPatch describe (rs_heap s) base patch) as [c|] eqn:Ec; [|injection H as <- <-; by split].
  destruct (validate describe iterate (candidate c)) as [v|] eqn:Ev; [|injection H as <- <-; by split].
  destruct (Build _ _ _ _ _ _) as [[[t h]|st]|]; [|injection H as <- <-; by split|done].
  pose proof (admit_books _ _ _ _ _ _ _ _ _ _ _ _ _ _ _ _ He (Hroom c v eq_refl Ev) H) as Hb. destruct res as [p|]; [by exists c, v|exact Hb].
Qed.

End mutation.

(** The first version of a session, once its nodes are opened. *)
Lemma first_version describe create op_open op_close iterate spec options v h0 t h h1 st :
  wf spec -> validate describe iterate spec = Value v -> bo_validated options = Some v -> bo_base options = None ->
  0 <= next_node0 options /\ next_node0 options + Z.of_nat (List.length (nodes_ spec)) < 2 ^ 64 -> Z.of_nat (List.length (edges_ spec)) < 2 ^ 64 ->
  Build describe create iterate spec options h0 = Some (Value (t, h)) -> OpenNodes op_open op_close t h = Some (st, h1) -> StatusOps.ok st = true ->
  live h1 t /\ forall r x, r ∈ t_nodes t -> node_of h1 r = Some x -> n_state x <> kCreated.
Proof.
  intros Hwf Hv Hval Hbase Hroom Hedges Hb Ho Hst. unfold validate in Hv. destruct (Validate _ _ _ _ _ _) as [[r issues] n'] eqn:Ev. simpl in Hv. subst r.
  pose proof (build_ends describe create iterate spec _ false Negotiator.empty options v issues n' h0 Hwf Ev Hval) as H. rewrite Hb in H.
  assert (Hbuilt : built options spec v h0 h t) by (apply H; [intros ? ?; congruence|intros ? ?; congruence|done]).
  assert (Hp : Permutation (t_order t) (map ns_id (nodes_ spec))).
  { destruct (bu_spec _ _ _ _ _ _ Hbuilt) as (_ & _ & -> & _). by eapply validated_order. }
  destruct (candidate_opens _ _ _ _ _ _ Hbuilt ltac:(intros ? ?; congruence) op_open op_close Hp) as (st' & h' & E & Hs & _ & Hok). rewrite Ho in E. injection E as <- <-.
  split; [|by apply Hok]. eapply first_live; [exact Hbuilt|done|]. by apply evolved_rest.
Qed.

(** ** A graph that runs *)

Definition opens (_ : NodeRuntime) : Status := StatusOps.Ok.
Definition b_fails (n : NodeRuntime) : Status :=
  if bool_decide (n_external_id n = "b") then StatusOps.make GE_STATUS_NODE_WARMUP_FAILED "no device" false "{}" else StatusOps.Ok.
Definition one_thread (_ : OperatorKey) (_ : json) : list ResourceAmount := [MkAmount kCpuThreads (-1) 1].
Definition insert_b : MutationPatch := MkMutationPatch None kDrain [InsertChainAction "e1" [sample_node "b"] (MkChainPorts None None)] false.
Definition session_lease : ResourceLease := MkLease true 1 1 [MkAmount kCpuThreads (-1) 2].
Definition session_ledger : ResourceLedger := (Ledger.TryReserveLocked [MkAmount kCpuThreads (-1) 2] "start" Ledger.empty).2.
Definition sample_prepare (op_open : NodeRuntime -> Status) (t : RuntimeTopology) (h : heap) : option (Result Prepared * resources) :=
  Prepare pass_resolver no_failure one_thread op_open opens (fun l => l) 1 (MkAlignedOptions 40 None) false t insert_b 2
    (MkResources h session_lease session_ledger).

Lemma live_base_starts :
  exists v t h h1, validate pass_resolver (fun l => l) live_base = Value v /\
    Build pass_resolver no_failure (fun l => l) live_base (first_options v) no_heap = Some (Value (t, h)) /\
    OpenNodes opens opens t h = Some (StatusOps.Ok, h1) /\ t_next_node t = 3 /\
    (exists c v', ApplyPatch pass_resolver h1 t insert_b = Value c /\ List.length (nodes_ (candidate c)) = 3%nat /\ List.length (edges_ (candidate c)) = 2%nat /\
       validate pass_resolver (fun l => l) (candidate c) = Value v' /\
       estimate_of one_thread (candidate c) (edge_contracts v') false (added_elements (diff_with t c v')) = Value (one_thread (MkOperatorKey "" "") JNull)) /\
    (exists p s', sample_prepare opens t h1 = Some (Value p, s') /\ t_nodes (pr_candidate p) = [0; 1; 2]%nat /\ t_version (pr_candidate p) = 2 /\
       pr_added p = [MkAmount kCpuThreads (-1) 1]) /\
    (exists st s', sample_prepare b_fails t h1 = Some (Error st, s')).
Proof.
  eexists _, _, _, _. split; [vm_compute; reflexivity|]. split; [vm_compute; reflexivity|]. split; [vm_compute; reflexivity|]. split; [done|].
  split; [eexists _, _; split; [vm_compute; reflexivity|]; split; [done|]; split; [done|]; split; [vm_compute; reflexivity|]; vm_compute; reflexivity|].
  split; [eexists _, _; split; [vm_compute; reflexivity|done]|]. eexists _, _. vm_compute. reflexivity.
Qed.

Lemma one_thread_range k o : Forall in_range (one_thread k o).
Proof. constructor; [|constructor]. unfold in_range, Word.is_u64. simpl. lia. Qed.

Lemma session_lease_ok : lease_ok (fun k => held k (one_thread (MkOperatorKey "" "") JNull)) session_lease session_ledger.
Proof.
  assert (Hk : forall k, acc_reserved (Ledger.account k session_ledger) = held k (lease_amounts session_lease) /\ 0 <= held k (lease_amounts session_lease) <= 2
    /\ held k (one_thread (MkOperatorKey "" "") JNull) <= 1).
  { intros k. unfold Ledger.account, held. simpl. unfold ra_key. simpl. destruct (decide ((kCpuThreads, -1) = k)) as [<-|Hne]; [done|].
    rewrite !decide_False by congruence. simpl. lia. }
  split; [|intros k; destruct (Hk k); lia|intros k; destruct (Hk k); lia].
  split; [by apply NoDup_singleton|]. constructor; [|constructor]. unfold in_range, Word.is_u64. simpl. lia.
Qed.

Lemma running_preparable v t h h1 :
  validate pass_resolver (fun l => l) live_base = Value v -> Build pass_resolver no_failure (fun l => l) live_base (first_options v) no_heap = Some (Value (t, h)) ->
  OpenNodes opens opens t h = Some (StatusOps.Ok, h1) -> t_next_node t = 3 ->
  (exists c v', ApplyPatch pass_resolver h1 t insert_b = Value c /\ List.length (nodes_ (candidate c)) = 3%nat /\ List.length (edges_ (candidate c)) = 2%nat /\
     validate pass_resolver (fun l => l) (candidate c) = Value v' /\
     estimate_of one_thread (candidate c) (edge_contracts v') false (added_elements (diff_with t c v')) = Value (one_thread (MkOperatorKey "" "") JNull)) ->
  preparable pass_resolver t insert_b (MkResources h1 session_lease session_ledger).
Proof.
  intros Hv Hb Ho Hid (c & v' & Hc & Hn & He & _).
  destruct (first_version pass_resolver no_failure opens opens (fun l => l) live_base (first_options v) v no_heap t h h1 StatusOps.Ok
    live_base_wf Hv eq_refl eq_refl) as (Hlive & Hopen); [|done|done|done|done|].
  { change (0 <= 1 /\ 1 + Z.of_nat 2 < 2 ^ 64). lia. }
  split; [apply Hlive|exact Hopen|rewrite Hid; lia|]. simpl. rewrite Hc. intros c' [= <-]. rewrite Hn, He, Hid. lia.
Qed.


(** The chain adds one node, which is charged one thread: a preparation that
    succeeds takes the session from two threads to three, one whose node does
    not open leaves it at two. *)
Lemma Prepare_restores_witness :
  exists t h, let threads := (kCpuThreads, -1) in
    (exists p s', sample_prepare opens t h = Some (Value p, s') /\ held threads (lease_amounts (rs_lease s')) = 3 /\
       acc_reserved (Ledger.account threads (rs_ledger s')) = 3) /\
    (exists st s', sample_prepare b_fails t h = Some (Error st, s') /\ same_books session_lease (rs_lease s') session_ledger (rs_ledger s') /\
       held threads (lease_amounts session_lease) = 2 /\ acc_reserved (Ledger.account threads session_ledger) = 2).
Proof.
  destruct live_base_starts as (v & t & h & h1 & Hv & Hb & Ho & Hid & (c & v' & Hc & _ & _ & Hv' & He) & (p & s1 & Hp1 & _) & (st & s2 & Hp2)).
  pose proof (estimate_charge _ _ _ _ _ _ one_thread_range He) as Hch. exists t, h1. intros threads.
  pose proof (fun op_open res s' => Prepare_restores pass_resolver no_failure one_thread op_open opens (fun l => l) 1 (MkAlignedOptions 40 None) false t insert_b 2
    (MkResources h1 session_lease session_ledger) res s' one_thread_range) as H.
  assert (Hroom : forall c2 v2, ApplyPatch pass_resolver h1 t insert_b = Value c2 -> validate pass_resolver (fun l => l) (candidate c2) = Value v2 ->
    lease_ok (charge one_thread (candidate c2) (edge_contracts v2) (added_elements (diff_with t c2 v2))) session_lease session_ledger).
  { intros c2 v2 E1 E2. rewrite Hc in E1. injection E1 as <-. rewrite Hv' in E2. injection E2 as <-. by apply (lease_ok_ext _ _ _ _ Hch), session_lease_ok. }
  split.
  - exists p, s1. split; [exact Hp1|]. destruct (H opens (Value p) s1 Hroom Hp1) as (c2 & v2 & E1 & E2 & Hg). cbn [rs_heap] in E1.
    rewrite Hc in E1. injection E1 as <-. rewrite Hv' in E2. injection E2 as <-. destruct (Hg eq_refl threads) as [-> ->]. rewrite <- Hch. done.
  - exists st, s2. split; [exact Hp2|]. split; [exact (H b_fails (Error st) s2 Hroom Hp2)|done].
Defined.

(** Only nodes are listed, yet the buffers of every edge of the graph are
    counted: an empty list of edges stands for all of them. A mutation that
    adds a node and no edge so reserves the running edges' buffers again. *)
Example added_node_counts_running_edges :
  let budgeted := MkGraphSpec "g" "" default_options false [sample_node "s"; sample_node "t"; sample_node "b"]
    [MkEdgeSpec "e1" (MkPortRef "s" "out") (MkPortRef "t" "in") (MkQueueSpec 8 kBlock (Some 1024)) None false] in
  estimate_of one_thread budgeted [] false (["b"], []) = Value [MkAmount kCpuThreads (-1) 1; MkAmount kEdgeBufferBytes (-1) 8192].
Proof. by vm_compute. Qed.
