(* ===== verification/VersionHistory.v ===== *)
(** The whole history of a session's topology: the first version, the data
    plane, mutations that were refused and mutations that were published. *)

From stdpp Require Import base numbers list strings sorting gmap sets.
From Stdlib Require Import ZArith Lia Ascii String.
From S2P Require Import Prelude Types Double Json GraphSpec GraphSpecProofs CapabilityTypes Packet EdgeChannel InputBinding NodeRuntime ResourceLedger JsonReader CapabilityJson Negotiation NegotiationProofs GraphValidator ValidatorProofs ValidatorContracts MutationApplier GraphDiff RuntimeTopology TopologyProofs TopologyHistory Coordinator CoordinatorProofs.

Local Open Scope string_scope.
Local Open Scope Z_scope.

(** ** New objects do not disturb a version *)

Lemma sort_ports_perm rank l : Permutation (sort_ports rank l) l.
Proof.
  assert (Hi : forall x k, Permutation (insert_port rank x k) (x :: k)).
  { intros x k. induction k as [|y k IH]; simpl; [done|]. destruct (_ <=? _)%nat; [done|]. rewrite IH. constructor. }
  induction l as [|x l IH]; simpl; [done|]. by rewrite Hi, IH.
Qed.

Lemma port_table_edge t n x p e : p ∈ port_table t n x -> InputBinding.edge p = Some e -> e ∈ t_edges t.
Proof.
  unfold port_table, OrderedPorts. rewrite sort_ports_perm, elem_of_app. intros [H|H] He.
  - apply list_elem_of_In, in_map_iff in H as ([r s] & <- & [Hin%in_combine_l _]%filter_In). injection He as <-. by apply list_elem_of_In.
  - by apply list_elem_of_In, in_map_iff in H as (c & <- & _).
Qed.

Section extends.
Context (h h' : heap) (t : RuntimeTopology).
Hypothesis kept : unchanged h h'.
Hypothesis was_ok : version_ok h t.

Lemma extends_node r x : node_of h r = Some x -> node_of h' r = Some x.
Proof. apply kept. Qed.
Lemma extends_FindNodeId id : FindNodeId h' t id = FindNodeId h t id.
Proof.
  unfold FindNodeId. destruct was_ok as [_ Hn _ _]. assert (Hall : Forall (fun r => exists x, node_of h r = Some x) (t_nodes t)).
  { eapply Forall2_Forall_l; [exact Hn|]. apply Forall_true. intros n r (x & Hx & _). by exists x. }
  clear Hn. induction Hall as [|r l (x & Hx) _ IH]; [done|]. simpl. by rewrite Hx, (extends_node r x Hx), IH.
Qed.
Lemma extends_FindNode ext : FindNode h' t ext = FindNode h t ext.
Proof. unfold FindNode. destruct (SMap.find ext (t_node_ids t)); [apply extends_FindNodeId|done]. Qed.

Lemma extends_version : version_ok h' t.
Proof.
  destruct was_ok as [Hs Hn He Hi]. split; [done| | |done].
  - eapply Forall2_impl; [exact Hn|]. intros r n (x & H1 & H2 & H3 & H4 & H5 & H6 & i & b & H7 & H8). exists x. rewrite extends_FindNodeId.
    split_and!; try done; [by apply kept|]. exists i, b. split; [done|by apply kept].
  - eapply Forall2_impl; [exact He|]. intros r e (c & ct & H1 & H2). exists c, ct. rewrite !extends_FindNode. split; [by apply kept|done].
Qed.

Lemma extends_PolicyOf n x : PolicyOf h' (port_table t n x) = PolicyOf h (port_table t n x).
Proof.
  unfold PolicyOf. destruct (omap InputBinding.edge (port_table t n x)) as [|e l] eqn:E; [done|].
  assert (Hin : e ∈ omap InputBinding.edge (port_table t n x)) by (rewrite E; by left).
  apply list_elem_of_omap in Hin as (p & Hp & Hpe). pose proof (port_table_edge _ _ _ _ _ Hp Hpe) as Ht.
  apply list_elem_of_lookup in Ht as [i Hi]. destruct was_ok as [_ _ He _].
  destruct (Forall2_lookup_l _ _ _ _ _ He Hi) as (s & _ & c & ct & Hc & _). pose proof (un_edges _ _ kept e c Hc) as Hc'. unfold edge_ref in *. by rewrite Hc, Hc'.
Qed.

End extends.

Lemma live_extends h h' t : unchanged h h' -> live h t -> live h' t.
Proof.
  intros Hu [Hv Hs]. split; [by eapply extends_version|]. eapply Forall2_impl; [exact Hs|].
  intros r n (x & i & b & H1 & H2 & H3 & [H4 H5]%has_table_spec & H6). exists x, i, b. split_and!; try done; [by apply Hu|by apply Hu|].
  apply has_table_spec. by rewrite (extends_PolicyOf h h' t Hu Hv).
Qed.

(** ** The history *)

Definition opened (h : heap) (t : RuntimeTopology) : Prop :=
  forall r x, r ∈ t_nodes t -> node_of h r = Some x -> n_state x <> kCreated.
(** The data plane runs: nobody becomes unopened again. *)
Definition runs (h h' : heap) : Prop :=
  evolved h h' /\ forall r x y, node_of h r = Some x -> node_of h' r = Some y -> n_state x <> kCreated -> n_state y <> kCreated.

Lemma rebinds_nodes t h : h_nodes (ApplyRebinds t h).2 = h_nodes h.
Proof.
  unfold ApplyRebinds. simpl. generalize (t_rebinds t). intros l. revert h. induction l as [|p l IH]; intros h; [done|]. simpl. rewrite IH.
  unfold apply_rebind. destruct (SMap.find p.1 (t_inputs t)); [|done]. destruct (h_inputs h !! _); [|done]. by destruct (Rebind _ _ _ _ _).
Qed.

Section history.
Context (describe : OperatorKey -> option CapabilityDescriptor) (create : OperatorKey -> Z -> string -> json -> option Status).
Context (estimate : OperatorKey -> json -> list ResourceAmount) (op_open op_close : NodeRuntime -> Status) (iterate : list NodeInfo -> list NodeInfo).

Definition room (t : RuntimeTopology) (patch : MutationPatch) (h : heap) : Prop :=
  0 <= t_next_node t /\ forall c, ApplyPatch describe h t patch = Value c ->
    t_next_node t + Z.of_nat (List.length (nodes_ (candidate c))) < 2 ^ 64 /\ Z.of_nat (List.length (edges_ (candidate c))) < 2 ^ 64.

Inductive version : heap -> RuntimeTopology -> Prop :=
| starts spec options v h0 t h h1 st :
    wf spec -> validate describe iterate spec = Value v -> bo_validated options = Some v -> bo_base options = None ->
    0 <= next_node0 options /\ next_node0 options + Z.of_nat (List.length (nodes_ spec)) < 2 ^ 64 -> Z.of_nat (List.length (edges_ spec)) < 2 ^ 64 ->
    Build describe create iterate spec options h0 = Some (Value (t, h)) -> OpenNodes op_open op_close t h = Some (st, h1) -> StatusOps.ok st = true ->
    version h1 t
| processes h h' t : version h t -> runs h h' -> version h' t
| refuses session aligned reject patch number t s e s' :
    version (rs_heap s) t -> room t patch (rs_heap s) ->
    Prepare describe create estimate op_open op_close iterate session aligned reject t patch number s = Some (Error e, s') -> version (rs_heap s') t
| mutates session aligned reject patch number t s p s' h1 :
    version (rs_heap s) t -> room t patch (rs_heap s) ->
    Prepare describe create estimate op_open op_close iterate session aligned reject t patch number s = Some (Value p, s') ->
    runs (rs_heap s') h1 -> version (ApplyRebinds (pr_candidate p) h1).2 (ApplyRebinds (pr_candidate p) h1).1.

(** C9: every version a session ever runs is wired as its graph says. Along
    any history of first starting a graph, processing packets, mutations that
    are refused at any step, and mutations that are published, every node of
    the current version is found under its name with its operator and is
    opened, every channel has the ends, queue and contract of its edge, every
    input table lists exactly the node's incoming edges in port order, and
    every output port routes to exactly its outgoing edges. *)
Theorem versions_wired h t : version h t -> live h t /\ opened h t.
Proof.
  induction 1 as [spec options v h0 t h h1 st Hwf Hv Hval Hbase Hroom He Hb Ho Hst|h h' t _ [Hl Ho] [Hev Hst]
    |session aligned reject patch number t s e s' _ [Hl Ho] [Hid Hroom] Hp|session aligned reject patch number t s p s' h1 _ [Hl Ho] [Hid Hroom] Hp [Hev Hst]].
  - by eapply first_version.
  - split; [by eapply live_evolves|]. intros r y Hr Hy. destruct Hev as [Hf _].
    destruct (Forall2_lookup_r _ _ _ _ _ (fr_nodes _ _ Hf) Hy) as (x & Hx & _). by eapply Hst; [exact Hx|exact Hy|apply (Ho r)].
  - destruct (prepare_ends describe create estimate op_open op_close iterate session aligned reject t patch number s) as (res & s2 & E & Hu & _);
      [by split; [apply Hl| | |]|]. rewrite Hp in E. injection E as <- <-. split; [by eapply live_extends|]. intros r y Hr Hy.
    destruct Hl as [[_ Hn _ _] _]. apply list_elem_of_lookup in Hr as [i Hi]. destruct (Forall2_lookup_l _ _ _ _ _ Hn Hi) as (n & _ & x & Hx & _).
    pose proof (un_nodes _ _ Hu r x Hx) as Hx'. unfold node_of in Hy. rewrite Hx' in Hy. injection Hy as <-. eapply Ho; [by eapply list_elem_of_lookup_2|done].
  - destruct (prepare_ends describe create estimate op_open op_close iterate session aligned reject t patch number s) as (res & s2 & E & _ & Hres);
      [by split; [apply Hl| | |]|]. rewrite Hp in E. injection E as <- <-. destruct Hres as (_ & Hop & Hlive). split; [by apply Hlive|].
    intros r y Hr Hy. unfold node_of in Hy. rewrite rebinds_nodes in Hy. destruct Hev as [Hf _].
    destruct (Forall2_lookup_r _ _ _ _ _ (fr_nodes _ _ Hf) Hy) as (x & Hx & _). by eapply Hst; [exact Hx|exact Hy|apply (Hop r)].
Qed.

End history.

Lemma versions_wired_witness :
  exists h t, version pass_resolver no_failure one_thread opens opens (fun l => l) h t /\ t_version t = 2 /\ t_nodes t = [0; 1; 2]%nat /\ live h t.
Proof.
  destruct live_base_starts as (v & t & h & h1 & Hv & Hb & Ho & Hid & (c & v' & Hc & Hn & He & _) & (p & s' & Hp & Hnodes & Hnum & _) & _).
  assert (Hver : version pass_resolver no_failure one_thread opens opens (fun l => l) (ApplyRebinds (pr_candidate p) (rs_heap s')).2
    (ApplyRebinds (pr_candidate p) (rs_heap s')).1).
  { apply (mutates _ _ _ _ _ _ 1 (MkAlignedOptions 40 None) false insert_b 2 t (MkResources h1 session_lease session_ledger) p s'); [| |exact Hp|].
    - apply (starts _ _ _ _ _ _ live_base (first_options v) v no_heap t h h1 StatusOps.Ok); try done. exact live_base_wf.
    - split; [rewrite Hid; lia|]. simpl. rewrite Hc. intros c' [= <-]. rewrite Hn, He, Hid. lia.
    - split; [apply evolved_refl|]. intros r x y Hx Hy. rewrite Hx in Hy. by injection Hy as <-. }
  exists (ApplyRebinds (pr_candidate p) (rs_heap s')).2, (ApplyRebinds (pr_candidate p) (rs_heap s')).1. split; [exact Hver|].
  split; [exact Hnum|]. split; [exact Hnodes|].
  apply (versions_wired pass_resolver no_failure one_thread opens opens (fun l => l) _ _ Hver).
Defined.
