(* ===== verification/Scheduler.v ===== *)
(** Scheduler (scheduler.h, scheduler.cpp, scheduler_backpressure.cpp,
    scheduler_retire.cpp) and the executor's queue: live nodes, parked output,
    pending ends of stream, closing and the retirement of versions.

    Every function runs to its end before the next one starts, as under the
    inline executor, whose tasks the host runs one by one. What several threads
    do to one node or one edge is in NodeProtocol and EdgeProtocol. Nodes,
    channels and bindings are references into the heap of RuntimeTopology. The
    atomic counters [live_count_], [parked_nodes_] and [retire_pending_] are the
    sizes of the tables they count. *)

From stdpp Require Import base numbers list strings gmap.
From Stdlib Require Import ZArith Ascii String.
From S2P Require Import Prelude Types Double Json GraphSpec CapabilityTypes Packet EdgeChannel InputBinding NodeRuntime RuntimeTopology Coordinator.

Local Open Scope string_scope.
Local Open Scope Z_scope.

(** ** State *)

(** What an asynchronous node is asked to do. *)
Record AsyncRequest : Type := MkAsyncRequest {
  ar_node : nat;
  ar_version : Z;
  ar_parameters : ParameterSnapshot;
  ar_ports : list string;
  ar_inputs : list PacketRef;
  ar_seq : Z;
}.

(** What the scheduler tells the session, in order. *)
Inductive happening : Type :=
| NodeFailed (r : nat) (s : Status)
| AllClosed
| DrainTimeout (version : Z)
| RetireComplete (request : Z) (timed_out : bool)
| OperatorEvent (r : nat) (type : string) (severity : Severity) (detail : json)
| Submitted (a : AsyncRequest).

(** [rq_complete] names the callback [on_complete], if there is one. *)
Record RetireRequest : Type := MkRetireRequest {
  rq_policy : RemovePolicy;
  rq_drain_timeout : Z;
  rq_topology : RuntimeTopology;
  rq_nodes : list nat;
  rq_edges : list edge_ref;
  rq_complete : option Z;
}.
Record Retired : Type := MkRetired { rt_request : RetireRequest; rt_deadline : Z; rt_fast_applied : bool; rt_timed_out : bool }.

Record Flags : Type := MkFlags {
  started_ : bool;
  paused_ : bool;
  stopping_ : bool;
  fast_stop_ : bool;
  all_closed_ : bool;
  alive_ : bool;
  executor_stopped_ : bool;
}.

Record Scheduler : Type := MkScheduler {
  sc_heap : heap;
  sc_topology : RuntimeTopology;
  sc_bound : gmap nat RuntimeTopology;
  sc_flags : Flags;
  sc_live : list nat;
  sc_tasks : list nat;
  sc_parked : gmap nat (list (edge_ref * PacketRef));
  sc_eos : gmap nat (list string);
  sc_retired : list Retired;
  sc_inject : list (edge_ref * PacketRef);
  sc_log : list happening;
}.

Definition on_heap (f : heap -> heap) (s : Scheduler) : Scheduler :=
  MkScheduler (f (sc_heap s)) (sc_topology s) (sc_bound s) (sc_flags s) (sc_live s) (sc_tasks s) (sc_parked s) (sc_eos s) (sc_retired s) (sc_inject s) (sc_log s).
Definition with_topology (t : RuntimeTopology) (s : Scheduler) : Scheduler :=
  MkScheduler (sc_heap s) t (sc_bound s) (sc_flags s) (sc_live s) (sc_tasks s) (sc_parked s) (sc_eos s) (sc_retired s) (sc_inject s) (sc_log s).
Definition on_bound (f : gmap nat RuntimeTopology -> gmap nat RuntimeTopology) (s : Scheduler) : Scheduler :=
  MkScheduler (sc_heap s) (sc_topology s) (f (sc_bound s)) (sc_flags s) (sc_live s) (sc_tasks s) (sc_parked s) (sc_eos s) (sc_retired s) (sc_inject s) (sc_log s).
Definition on_flags (f : Flags -> Flags) (s : Scheduler) : Scheduler :=
  MkScheduler (sc_heap s) (sc_topology s) (sc_bound s) (f (sc_flags s)) (sc_live s) (sc_tasks s) (sc_parked s) (sc_eos s) (sc_retired s) (sc_inject s) (sc_log s).
Definition with_live (l : list nat) (s : Scheduler) : Scheduler :=
  MkScheduler (sc_heap s) (sc_topology s) (sc_bound s) (sc_flags s) l (sc_tasks s) (sc_parked s) (sc_eos s) (sc_retired s) (sc_inject s) (sc_log s).
Definition with_tasks (l : list nat) (s : Scheduler) : Scheduler :=
  MkScheduler (sc_heap s) (sc_topology s) (sc_bound s) (sc_flags s) (sc_live s) l (sc_parked s) (sc_eos s) (sc_retired s) (sc_inject s) (sc_log s).
Definition on_parked (f : gmap nat (list (edge_ref * PacketRef)) -> gmap nat (list (edge_ref * PacketRef))) (s : Scheduler) : Scheduler :=
  MkScheduler (sc_heap s) (sc_topology s) (sc_bound s) (sc_flags s) (sc_live s) (sc_tasks s) (f (sc_parked s)) (sc_eos s) (sc_retired s) (sc_inject s) (sc_log s).
Definition on_eos (f : gmap nat (list string) -> gmap nat (list string)) (s : Scheduler) : Scheduler :=
  MkScheduler (sc_heap s) (sc_topology s) (sc_bound s) (sc_flags s) (sc_live s) (sc_tasks s) (sc_parked s) (f (sc_eos s)) (sc_retired s) (sc_inject s) (sc_log s).
Definition with_retired (l : list Retired) (s : Scheduler) : Scheduler :=
  MkScheduler (sc_heap s) (sc_topology s) (sc_bound s) (sc_flags s) (sc_live s) (sc_tasks s) (sc_parked s) (sc_eos s) l (sc_inject s) (sc_log s).
Definition with_inject (l : list (edge_ref * PacketRef)) (s : Scheduler) : Scheduler :=
  MkScheduler (sc_heap s) (sc_topology s) (sc_bound s) (sc_flags s) (sc_live s) (sc_tasks s) (sc_parked s) (sc_eos s) (sc_retired s) l (sc_log s).
Definition report (e : happening) (s : Scheduler) : Scheduler :=
  MkScheduler (sc_heap s) (sc_topology s) (sc_bound s) (sc_flags s) (sc_live s) (sc_tasks s) (sc_parked s) (sc_eos s) (sc_retired s) (sc_inject s) (sc_log s ++ [e])%list.

Definition set_started (f : Flags) : Flags := MkFlags true (paused_ f) (stopping_ f) (fast_stop_ f) (all_closed_ f) (alive_ f) (executor_stopped_ f).
Definition set_paused (b : bool) (f : Flags) : Flags := MkFlags (started_ f) b (stopping_ f) (fast_stop_ f) (all_closed_ f) (alive_ f) (executor_stopped_ f).
Definition set_stopping (f : Flags) : Flags := MkFlags (started_ f) (paused_ f) true (fast_stop_ f) (all_closed_ f) (alive_ f) (executor_stopped_ f).
Definition set_fast_stop (f : Flags) : Flags := MkFlags (started_ f) (paused_ f) (stopping_ f) true (all_closed_ f) (alive_ f) (executor_stopped_ f).
Definition set_all_closed (f : Flags) : Flags := MkFlags (started_ f) (paused_ f) (stopping_ f) (fast_stop_ f) true (alive_ f) (executor_stopped_ f).
Definition set_executor_stopped (f : Flags) : Flags := MkFlags (started_ f) (paused_ f) (stopping_ f) (fast_stop_ f) (all_closed_ f) (alive_ f) true.

(** The node behind a reference; references are never dangling. *)
Definition no_node : NodeRuntime :=
  Node.make 0 "" (MkOperatorKey "" "")
    (MkCapabilityDescriptor (MkOperatorKey "" "") "" [] [] (MkExecutionCapability [] true false 1 false None)
       (MkParameterCapability [] [] (JObject [])) [] (MkEventCapability [] [])) JNull 1.
Definition nd (r : nat) (s : Scheduler) : NodeRuntime := default no_node (node_of (sc_heap s) r).
Definition set_nd (r : nat) (n : NodeRuntime) (s : Scheduler) : Scheduler := on_heap (set_node r n) s.
Definition on_nd (f : NodeRuntime -> NodeRuntime) (r : nat) (s : Scheduler) : Scheduler := set_nd r (f (nd r s)) s.
Definition ed (e : edge_ref) (s : Scheduler) : EdgeChannel := edge_in (sc_heap s) e.
Definition set_channel (e : edge_ref) (x : EdgeChannel) (h : heap) : heap :=
  match h_edges h !! e with
  | Some c => MkHeap (h_nodes h) (<[e := MkChannel x (ch_producer c) (ch_consumer c)]> (h_edges h)) (h_inputs h) (h_tags h)
  | None => h
  end.
Definition set_ed (e : edge_ref) (x : EdgeChannel) (s : Scheduler) : Scheduler := on_heap (set_channel e x) s.
Definition on_ed (f : EdgeChannel -> EdgeChannel) (e : edge_ref) (s : Scheduler) : Scheduler := set_ed e (f (ed e s)) s.
Definition producer_of (e : edge_ref) (s : Scheduler) : option nat := ch_producer <$> h_edges (sc_heap s) !! e.
Definition consumer_of (e : edge_ref) (s : Scheduler) : option nat := ch_consumer <$> h_edges (sc_heap s) !! e.

Definition each {A} (f : A -> Scheduler -> Scheduler) (l : list A) (s : Scheduler) : Scheduler := fold_left (fun s x => f x s) l s.

(** ** The executor *)

(** [SubmitCpu] of a task that holds a slot of the node: a stopped executor
    drops the task, which gives the slot back. *)
Definition SubmitCpu (r : nat) (s : Scheduler) : Scheduler :=
  if executor_stopped_ (sc_flags s) then on_nd Node.CancelSchedule r s else with_tasks (sc_tasks s ++ [r])%list s.

(** [ExecutorPool::Stop] drops the queued tasks. *)
Definition StopExecutor (s : Scheduler) : Scheduler :=
  if executor_stopped_ (sc_flags s) then s
  else each (on_nd Node.CancelSchedule) (sc_tasks s) (with_tasks [] (on_flags set_executor_stopped s)).

Definition MarkReady (r : nat) (s : Scheduler) : Scheduler :=
  if negb (started_ (sc_flags s)) || fast_stop_ (sc_flags s) then s
  else if negb (alive_ (sc_flags s)) then s
  else let '(ok, n) := Node.TrySchedule (nd r s) in
       if ok then SubmitCpu r (set_nd r n s) else s.

(** ** Live nodes *)

Definition AttachNodes (l : list nat) (s : Scheduler) : Scheduler :=
  each (fun r s => if bool_decide (r ∈ sc_live s) then s else with_live (sc_live s ++ [r])%list s) l s.

Fixpoint erase_first (r : nat) (l : list nat) : list nat :=
  match l with
  | [] => []
  | x :: l' => if decide (x = r) then l' else x :: erase_first r l'
  end.
Definition Detach (r : nat) (s : Scheduler) : bool * Scheduler :=
  if bool_decide (r ∈ sc_live s) then (true, with_live (erase_first r (sc_live s)) s) else (false, s).

Definition CheckAllClosed (s : Scheduler) : Scheduler :=
  match sc_live s with
  | _ :: _ => s
  | [] => if all_closed_ (sc_flags s) then s else report AllClosed (on_flags set_all_closed s)
  end.

(** The constructor: every node of the first version is bound and live. *)
Definition make (t : RuntimeTopology) (h : heap) : Scheduler :=
  AttachNodes (t_nodes t)
    (MkScheduler h t (fold_left (fun m r => <[r := t]> m) (t_nodes t) ∅) (MkFlags false false false false false true false) [] [] ∅ ∅ [] [] []).

(** ** Backpressure *)

Fixpoint block_routes (routes : list RouteEntry) (blocked : bool) (s : Scheduler) : bool * Scheduler :=
  match routes with
  | [] => (blocked, s)
  | e :: rest =>
      let x := ed (re_edge e) s in
      if negb (bool_decide (policy (config_ x) = kBlock)) then block_routes rest blocked s
      else if Edge.full x then
        let '(m, x) := Edge.MarkBackpressured x in
        block_routes rest (m || blocked) (set_ed (re_edge e) x s)
      else block_routes rest blocked s
  end.
Fixpoint block_ports (t : RuntimeTopology) (id : Z) (ports : list string) (blocked : bool) (s : Scheduler) : bool * Scheduler :=
  match ports with
  | [] => (blocked, s)
  | p :: rest =>
      let '(blocked, s) := match RoutesFor t id p with Some routes => block_routes routes blocked s | None => (blocked, s) end in
      block_ports t id rest blocked s
  end.
Definition OutputsBlocked (r : nat) (t : RuntimeTopology) (s : Scheduler) : bool * Scheduler :=
  block_ports t (n_id (nd r s)) (OutputPorts (sc_heap s) t (n_id (nd r s))) false s.

(** ** Parked output *)

Definition parked_of (r : nat) (s : Scheduler) : list (edge_ref * PacketRef) := default [] (sc_parked s !! r).
Definition HasParked (r : nat) (s : Scheduler) : bool := bool_decide (is_Some (sc_parked s !! r)).
Definition HasParkedOn (r : nat) (e : edge_ref) (s : Scheduler) : bool := existsb (fun p => bool_decide (p.1 = e)) (parked_of r s).

Definition Park (r : nat) (e : edge_ref) (packet : PacketRef) (s : Scheduler) : Scheduler :=
  match sc_bound s !! r ≫= (fun t => SharedEdgeFor t e) with
  | None => s
  | Some e => on_parked (<[r := parked_of r s ++ [(e, packet)]]>)%list s
  end.
Definition DropParked (r : nat) (s : Scheduler) : Scheduler := on_parked (delete r) s.

(** One pass over the parked packets: an edge that refused one keeps all that
    follow. *)
Fixpoint retry_pass (work : list (edge_ref * PacketRef)) (blocked : list edge_ref) (still : list (edge_ref * PacketRef)) (ro : routing)
    : list (edge_ref * PacketRef) * routing :=
  match work with
  | [] => (still, ro)
  | (e, p) :: rest =>
      if bool_decide (e ∈ blocked) then retry_pass rest blocked (still ++ [(e, p)])%list ro
      else let '(o, ro) := PushEdge e p ro in
           if bool_decide (o = kWouldBlock) then retry_pass rest (e :: blocked) (still ++ [(e, p)])%list ro
           else retry_pass rest blocked still ro
  end.
Definition targets (ro : routing) : list nat := default [] (rp_targets <$> ro_report ro).

Definition RetryParked (r : nat) (s : Scheduler) : bool * Scheduler :=
  match sc_parked s !! r with
  | None => (true, s)
  | Some work =>
      if cancelled_ (nd r s) then (true, DropParked r s)
      else
        let '(still, ro) := retry_pass work [] [] (MkRouting (sc_heap s) (Some empty_report) 0 0) in
        let s := on_heap (fun _ => ro_heap ro) s in
        match still with
        | [] => (true, each MarkReady (targets ro) (DropParked r s))
        | _ => (false, each MarkReady (targets ro) (on_parked (<[r := still]>) s))
        end
  end.

(** ** Injected ends of stream *)

Fixpoint inject_pass (l : list (edge_ref * PacketRef)) (kept : list (edge_ref * PacketRef)) (wake : list nat) (s : Scheduler)
    : list (edge_ref * PacketRef) * list nat * Scheduler :=
  match l with
  | [] => (kept, wake, s)
  | (e, eos) :: rest =>
      let '(o, x) := Edge.InjectEos eos (ed e s) in
      let s := set_ed e x s in
      match o with
      | kWouldBlock => inject_pass rest (kept ++ [(e, eos)])%list wake s
      | kAccepted => inject_pass rest kept (wake ++ from_option (fun c => [c]) [] (consumer_of e s))%list s
      | _ => inject_pass rest kept wake s
      end
  end.
Definition RetryInjections (s : Scheduler) : Scheduler :=
  let '(kept, wake, s) := inject_pass (sc_inject s) [] [] s in each MarkReady wake (with_inject kept s).

(** ** Retirement *)

Definition finished (n : NodeRuntime) : bool := match n_state n with kClosed | kFailed => true | _ => false end.

Definition edge_drained (req : RetireRequest) (s : Scheduler) (e : edge_ref) : bool :=
  let removed r := bool_decide (r ∈ rq_nodes req) in
  if bool_decide (state_ (ed e s) = kRetired) then true
  else if negb (Edge.empty (ed e s)) then false
  else if existsb (fun q => bool_decide (q.1 = e)) (sc_inject s) then false
  else match producer_of e s with
  | Some p => if removed p then finished (nd p s)
              else match consumer_of e s with Some c => negb (removed c) || finished (nd c s) | None => true end
  | None => match consumer_of e s with Some c => negb (removed c) || finished (nd c s) | None => true end
  end.
Definition DrainComplete (req : RetireRequest) (s : Scheduler) : bool :=
  forallb (fun r => finished (nd r s)) (rq_nodes req) && forallb (edge_drained req s) (rq_edges req).

Definition ApplyFastLocked (q : Retired) (s : Scheduler) : Retired * Scheduler :=
  let req := rt_request q in
  let s := each (on_nd Node.MarkCancelled) (rq_nodes req) s in
  let s := each (on_ed (Edge.MarkRetired true)) (rq_edges req) s in
  (MkRetired req (rt_deadline q) true (rt_timed_out q),
   with_inject (List.filter (fun p => negb (bool_decide (p.1 ∈ rq_edges req))) (sc_inject s)) s).

(** ** Closing *)

Section closing.
Context (op_close : NodeRuntime -> Status).

(** Running nodes close through [EnterClosing]. *)
Definition CloseNode (r : nat) (s : Scheduler) : Scheduler :=
  let s := if bool_decide (n_state (nd r s) = kCreated) then s else on_nd Node.EnterClosing r s in
  on_nd (fun n => (Node.Close (op_close n) n).2) r s.

(** The loop over the ports whose end of stream is still to be sent. *)
Fixpoint eos_pass (r : nat) (ports kept : list string) (wake : list nat) (s : Scheduler) : list string * list nat * Scheduler :=
  match ports with
  | [] => (kept, wake, s)
  | p :: rest =>
      let '(st, ro) :=
        match sc_bound s !! r with
        | Some t => EmitEos t (nd r s) p (ps_version (current_ (parameters_ (nd r s)))) (MkRouting (sc_heap s) (Some empty_report) 0 0)
        | None => (StatusOps.Ok, MkRouting (sc_heap s) (Some empty_report) 0 0)
        end in
      let s := on_heap (fun _ => ro_heap ro) s in
      let wake := (wake ++ targets ro)%list in
      if bool_decide (code st = GE_STATUS_WOULD_BLOCK) then eos_pass r rest (kept ++ [p])%list wake s
      else eos_pass r rest kept wake s
  end.

(** What runs until nothing changes is given the functions it calls back. *)
Section turn.
Context (tick : Scheduler -> option Scheduler).

Definition OnNodeDone (r : nat) (s : Scheduler) : option Scheduler :=
  let '(was, s) := Detach r s in
  if negb was then Some s
  else
    let s := CheckAllClosed (on_bound (delete r) (DropParked r s)) in
    match sc_retired s with [] => Some s | _ => tick s end.

Definition RetryBlocked (r : nat) (s : Scheduler) : option Scheduler :=
  let '(go, s) := if HasParked r s then RetryParked r s else (true, s) in
  if negb go then Some s
  else match sc_eos s !! r with
  | None => Some s
  | Some ports =>
      let '(kept, wake, s) := eos_pass r ports [] [] s in
      let s := each MarkReady wake (on_eos (match kept with [] => delete r | _ => <[r := kept]> end) s) in
      match kept with
      | _ :: _ => Some s
      | [] => OnNodeDone r (if bool_decide (n_state (nd r s) = kFailed) then s else CloseNode r s)
      end
  end.

Definition TryCloseCancelled (r : nat) (s : Scheduler) : option (bool * Scheduler) :=
  let n := nd r s in
  if negb (busy_ n =? 0) then Some (false, s)
  else if finished n then (fun s => (false, s)) <$> OnNodeDone r s
  else if bool_decide (n_state n = kClosing) then Some (false, s)
  else if negb (async_pending_ n =? 0) then Some (false, s)
  else
    let '(free, s) :=
      if bool_decide (n_state n = kAsyncPending)
      then let '(b, n) := Node.TryLeaveAsyncPending n in (b, set_nd r n s)
      else (true, s) in
    if negb free then Some (false, s)
    else if bool_decide (n_state n = kNodeDraining) then (fun s => (finished (nd r s), s)) <$> RetryBlocked r s
    else
      let '(won, n') := Node.TryEnterDraining (nd r s) in
      let s := set_nd r n' s in
      if negb won && negb (bool_decide (n_state n' = kCreated)) then Some (false, s)
      else (fun s => (true, s)) <$> OnNodeDone r (CloseNode r s).

(** What one pass over the retired versions finds. *)
Record sweep : Type := MkSweep { sw_kept : list Retired; sw_done : list Retired; sw_close : list nat; sw_timed_out : list Z }.

Definition sweep_one (now : Z) (q : Retired) (w : sweep) (s : Scheduler) : sweep * Scheduler :=
  let req := rt_request q in
  let '(q, w, s) :=
    if negb (rt_fast_applied q) && (rt_deadline q <=? now) && negb (DrainComplete req s) then
      let '(q, s) := ApplyFastLocked (MkRetired req (rt_deadline q) (rt_fast_applied q) true) s in
      (q, MkSweep (sw_kept w) (sw_done w) (sw_close w ++ rq_nodes req) (sw_timed_out w ++ [t_version (rq_topology req)]), s)%list
    else (q, w, s) in
  if rt_fast_applied q then
    let s := each (on_ed (Edge.MarkRetired true)) (rq_edges req) s in
    let open_nodes := List.filter (fun r => negb (finished (nd r s))) (rq_nodes req) in
    let w := MkSweep (sw_kept w) (sw_done w) (sw_close w ++ open_nodes)%list (sw_timed_out w) in
    match open_nodes with
    | [] => (MkSweep (sw_kept w) (sw_done w ++ [q])%list (sw_close w) (sw_timed_out w), s)
    | _ => (MkSweep (sw_kept w ++ [q])%list (sw_done w) (sw_close w) (sw_timed_out w), s)
    end
  else if negb (DrainComplete req s) then (MkSweep (sw_kept w ++ [q])%list (sw_done w) (sw_close w) (sw_timed_out w), s)
  else (MkSweep (sw_kept w) (sw_done w ++ [q])%list (sw_close w) (sw_timed_out w), each (on_ed (Edge.MarkRetired false)) (rq_edges req) s).

Fixpoint sweep_all (now : Z) (l : list Retired) (w : sweep) (s : Scheduler) : sweep * Scheduler :=
  match l with
  | [] => (w, s)
  | q :: rest => let '(w, s) := sweep_one now q w s in sweep_all now rest w s
  end.

Fixpoint close_all (l : list nat) (progressed : bool) (s : Scheduler) : option (bool * Scheduler) :=
  match l with
  | [] => Some (progressed, s)
  | r :: rest => match TryCloseCancelled r s with Some (b, s) => close_all rest (b || progressed) s | None => None end
  end.

Definition announce (q : Retired) (s : Scheduler) : Scheduler :=
  match rq_complete (rt_request q) with Some id => report (RetireComplete id (rt_timed_out q)) s | None => s end.

Definition CompleteRetired (now : Z) (s : Scheduler) : option (bool * Scheduler) :=
  let '(w, s) := sweep_all now (sc_retired s) (MkSweep [] [] [] []) s in
  let s := each (fun v => report (DrainTimeout v)) (sw_timed_out w) (with_retired (sw_kept w) s) in
  let progressed := match sw_done w, sw_timed_out w with [], [] => false | _, _ => true end in
  match close_all (sw_close w) progressed s with
  | Some (progressed, s) => Some (progressed, each announce (sw_done w) s)
  | None => None
  end.

(** What is left to retire and to close: it shrinks whenever
    [CompleteRetired] makes progress. *)
Definition work_left (s : Scheduler) : nat :=
  List.length (sc_retired s) + List.length (List.filter (fun q => negb (rt_fast_applied q)) (sc_retired s)) +
  List.length (List.filter (fun n => negb (finished n)) (h_nodes (sc_heap s))).
Fixpoint complete_loop (fuel : nat) (now : Z) (s : Scheduler) : option Scheduler :=
  match fuel with
  | O => None
  | S f => match CompleteRetired now s with
           | None => None
           | Some (true, s) => complete_loop f now s
           | Some (false, s) => Some s
           end
  end.

Definition nudge (r : nat) (s : Scheduler) : option Scheduler :=
  let n := nd r s in
  match n_state n with
  | kNodeDraining => RetryBlocked r s
  | kReady | kRunning => if cancelled_ n then snd <$> TryCloseCancelled r s else Some (MarkReady r s)
  | _ => Some s
  end.
Fixpoint nudge_all (l : list nat) (s : Scheduler) : option Scheduler :=
  match l with
  | [] => Some s
  | r :: rest => match nudge r s with Some s => nudge_all rest s | None => None end
  end.

Definition tick_body (now : Z) (s : Scheduler) : option Scheduler :=
  if negb (alive_ (sc_flags s)) then Some s
  else
    let s := RetryInjections s in
    match sc_retired s with
    | [] => Some s
    | _ => match nudge_all (List.concat (map (fun q => rq_nodes (rt_request q)) (sc_retired s))) s with
           | Some s => complete_loop (S (work_left s)) now s
           | None => None
           end
    end.
End turn.

(** [Tick] calls itself only after a node was detached. *)
Fixpoint tick (fuel : nat) (now : Z) (s : Scheduler) : option Scheduler :=
  match fuel with
  | O => None
  | S f => tick_body (tick f now) now s
  end.
Definition Tick (now : Z) (s : Scheduler) : option Scheduler := tick (S (List.length (sc_live s))) now s.

End closing.
