(* ===== verification/SchedulerInvoke.v ===== *)
(** One turn of a node (scheduler_invoke.cpp), the sink handed to its operator
    (scheduler_internal.h, format_event.cpp), and the commands of the session:
    start, pause, resume, stop and publish.

    An operator's call is a script: what it emits and publishes, in order, each
    emit seeing its status, and what it returns. The operators' own state is
    threaded through. Clocks are read once per call. *)

From stdpp Require Import base numbers list strings gmap.
From Stdlib Require Import ZArith Ascii String.
From S2P Require Import Prelude Types Double Json GraphSpec CapabilityTypes Packet EdgeChannel InputBinding NodeRuntime RuntimeTopology Coordinator Scheduler.

Local Open Scope string_scope.
Local Open Scope Z_scope.

(** ** Format events *)

Definition kFormatEventType : string := "media_format_changed".
Definition kFormatEventSeqKey : string := "first_key_seq".
Definition IsVideoRoute (c : ConnectionContract) : bool := has (cc_video c).

(** Only a positive integer binds an event to its keyframe. *)
Definition FormatEventMatchSeq (detail : json) : option Z :=
  match Json.Find kFormatEventSeqKey detail with
  | Some (JInteger n) => if n <=? 0 then None else Some n
  | _ => None
  end.

Definition MakeFormatEventPacket (keyframe : Packet) (event_type : string) (detail : json) (tags : TypeTagRegistry) : Packet * TypeTagRegistry :=
  let '(tag, tags) := TypeTags.Intern event_type tags in
  let k := header keyframe in
  (MkPacket (MkPacketHeader (seq k) (pts_ns k) (dts_ns k) GE_PACKET_FLAG_EVENT 0 0 tag)
     (match MetadataOps.FromJson (Json.Serialize detail) with Value m => Some m | Error _ => None end) None (ingress_ns keyframe), tags).

(** ** Operators *)

Inductive ProcessResult : Type := kContinue | kExhausted.
#[export] Instance ProcessResult_eq_dec : EqDecision ProcessResult.
Proof. solve_decision. Defined.

Definition GE_PROCESS_FLAG_FLUSH : Z := 1.
Record ProcessRequest : Type := MkProcessRequest {
  pq_session : Z;
  pq_topology_version : Z;
  pq_parameter_version : Z;
  pq_flags : Z;
  pq_ports : list string;
  pq_inputs : list PacketRef;
  pq_parameters : json;
}.

Inductive script (W : Type) : Type :=
| Returns (r : Result ProcessResult) (w : W)
| Emits (port : string) (p : Packet) (next : Status -> script W)
| Publishes (type : string) (severity : Severity) (detail : json) (next : script W).
Arguments Returns {W}.
Arguments Emits {W}.
Arguments Publishes {W}.

(** ** The sink *)

(** [Scheduler::Sink]; [si_ingress] is the node's [current_ingress_ns] and
    [si_pending] the staged format events. *)
Record Sink : Type := MkSink { si_node : nat; si_topo : RuntimeTopology; si_pv : Z; si_ingress : Z; si_pending : list (Z * json) }.
Definition with_pending (l : list (Z * json)) (k : Sink) : Sink := MkSink (si_node k) (si_topo k) (si_pv k) (si_ingress k) l.

(** One route: behind parked packets of the same edge, else pushed, else parked. *)
Definition push_route (r : nat) (packet : PacketRef) (e : edge_ref) (sr : Scheduler * option EmitReport) : Scheduler * option EmitReport :=
  let '(s, rep) := sr in
  if HasParkedOn r e s then (Park r e packet s, rep)
  else
    let '(o, ro) := PushEdge e packet (MkRouting (sc_heap s) rep 0 0) in
    let s := on_heap (fun _ => ro_heap ro) s in
    (if bool_decide (o = kWouldBlock) then Park r e packet s else s, ro_report ro).

Definition PushOnRoutes (now : Z) (k : Sink) (port : string) (packet : Packet) (video_only : bool) (s : Scheduler) : Status * Scheduler :=
  let n := nd (si_node k) s in
  match RuntimeTopology.Prepare now (si_ingress k) (si_topo k) (h_tags (sc_heap s)) n port packet (si_pv k) with
  | Error st => (st, s)
  | Value None => (StatusOps.Ok, s)
  | Value shared =>
      let routes := List.filter (fun r => negb video_only || IsVideoRoute (re_contract r)) (default [] (RoutesFor (si_topo k) (n_id n) port)) in
      let '(s, rep) := fold_left (fun sr r => push_route (si_node k) shared (re_edge r) sr) routes (s, Some empty_report) in
      (StatusOps.Ok, each MarkReady (default [] (rp_targets <$> rep)) s)
  end.

Fixpoint take_event (sq : Z) (l : list (Z * json)) : option (json * list (Z * json)) :=
  match l with
  | [] => None
  | (x, d) :: l' => if x =? sq then Some (d, l') else (fun '(d', k) => (d', (x, d) :: k)) <$> take_event sq l'
  end.

Definition SinkEmit (now : Z) (k : Sink) (port : string) (packet : Packet) (s : Scheduler) : Status * Sink * Scheduler :=
  let s := on_nd (Node.NoteSeq (seq (header packet))) (si_node k) s in
  let video_port :=
    existsb (fun r => IsVideoRoute (re_contract r)) (default [] (RoutesFor (si_topo k) (n_id (nd (si_node k) s)) port)) in
  let keyframe := negb (Z.land (flags (header packet)) GE_PACKET_FLAG_KEYFRAME =? 0) in
  match (if keyframe && video_port then take_event (seq (header packet)) (si_pending k) else None) with
  | None => let '(st, s) := PushOnRoutes now k port packet false s in (st, k, s)
  | Some (detail, rest) =>
      let '(ev, tags) := MakeFormatEventPacket packet kFormatEventType detail (h_tags (sc_heap s)) in
      let s := on_heap (fun h => MkHeap (h_nodes h) (h_edges h) (h_inputs h) tags) s in
      let '(st, s) := PushOnRoutes now k port ev true s in
      if negb (StatusOps.ok st) then (st, k, s)
      else let '(st, s) := PushOnRoutes now (with_pending rest k) port packet false s in (st, with_pending rest k, s)
  end.

Definition SinkPublish (k : Sink) (type : string) (severity : Severity) (detail : json) (s : Scheduler) : Sink * Scheduler :=
  let k := match FormatEventMatchSeq detail with
           | Some sq => if bool_decide (type = kFormatEventType) then with_pending (si_pending k ++ [(sq, detail)])%list k else k
           | None => k
           end in
  (k, report (OperatorEvent (si_node k) type severity detail) s).

(** [Operator::Process] against the sink. *)
Fixpoint run_script {W} (now : Z) (k : Sink) (x : script W) (s : Scheduler) : Result ProcessResult * W * Scheduler :=
  match x with
  | Returns r w => (r, w, s)
  | Emits port p next => let '(st, k, s) := SinkEmit now k port p s in run_script now k (next st) s
  | Publishes type sev detail next => let '(k, s) := SinkPublish k type sev detail s in run_script now k next s
  end.

(** ** Acquiring a batch *)

Definition may_be_ready (i : nat) (s : Scheduler) : bool :=
  match h_inputs (sc_heap s) !! i with Some b => MayBeReady (edge_in (sc_heap s)) b | None => false end.
Definition input_ended (i : nat) (s : Scheduler) : bool :=
  match h_inputs (sc_heap s) !! i with Some b => Bind.InputEnded b | None => false end.
(** The channels and the binding after a consumer worked on them. *)
Definition set_binding (i : nat) (b : InputBinding) (edges : edge_ref -> EdgeChannel) (h : heap) : heap :=
  let h := with_channels edges h in MkHeap (h_nodes h) (h_edges h) (<[i := b]> (h_inputs h)) (h_tags h).

(** Every packet the edges of a binding can hold, and one more. *)
Definition acquire_fuel (b : InputBinding) (h : heap) : nat :=
  S (list_sum (map (fun e => List.length (ring_ (edge_in h e))) (Bind.Edges b))).

(** What the owner of the scheduler attached to it: an asynchronous runtime
    ([async_.submit] is set), and the failure callback of a session with
    [fail_session_on_node_failure]. *)
Record Attached : Type := MkAttached { hk_async : bool; hk_fail_session : bool }.
(** A session with the default options. *)
Definition default_hooks : Attached := MkAttached true true.

Section invoke.
Context (op_close : NodeRuntime -> Status).

(** A producer whose edge has room again: its parked packets, its end of
    stream if it is draining, else another turn. *)
Definition wake_producer (now : Z) (e : edge_ref) (s : Scheduler) : option Scheduler :=
  let '(cleared, x) := Edge.ClearBackpressure (ed e s) in
  let s := set_ed e x s in
  if negb cleared then Some s
  else match producer_of e s with
  | None => Some s
  | Some up =>
      let s := if HasParked up s then (RetryParked up s).2 else s in
      if bool_decide (n_state (nd up s) = kNodeDraining) then RetryBlocked op_close (Tick op_close now) up s else Some (MarkReady up s)
  end.
Fixpoint wake_producers (now : Z) (l : list edge_ref) (s : Scheduler) : option Scheduler :=
  match l with
  | [] => Some s
  | e :: rest => match wake_producer now e s with Some s => wake_producers now rest s | None => None end
  end.

Definition AcquireBatch (now : Z) (i : nat) (s : Scheduler) : option (option InputBatch * Scheduler) :=
  match h_inputs (sc_heap s) !! i with
  | None => Some (None, s)
  | Some b =>
      match TryAcquire (acquire_fuel b (sc_heap s)) b (edge_in (sc_heap s)) with
      | None => None
      | Some (batch, b, edges) =>
          match wake_producers now (Bind.Edges b) (on_heap (set_binding i b edges) s) with
          | None => None
          | Some s => match sc_retired s with [] => Some (batch, s) | _ => (fun s => (batch, s)) <$> Tick op_close now s end
          end
      end
  end.

(** Control packets first, then data, with the ports they came from. *)
Definition MoveBatchInto (b : InputBatch) : list string * list PacketRef :=
  (imap (fun i _ => default "" (event_ports b !! i)) (events b) ++ imap (fun i _ => default "" (ports b !! i)) (packets b),
   map Some (events b) ++ map Some (packets b))%list.
Definition FirstSeq (b : InputBatch) : Z := match packets b with p :: _ => seq (header p) | [] => 0 end.

(** ** Stopping *)

Definition mark_sources (l : list nat) (s : Scheduler) : Scheduler :=
  each (fun r s => if Node.is_source (nd r s) then MarkReady r s else s) l s.

Definition apply_fast_all (s : Scheduler) : Scheduler :=
  let '(l, s) := fold_left (fun ls q => let '(q, s) := if rt_fast_applied q then (q, ls.2) else ApplyFastLocked q ls.2 in ((ls.1 ++ [q])%list, s))
                   (sc_retired s) ([], s) in
  with_retired l s.

(** [Stop]: a drain marks the sources, a fast stop cancels and closes. *)
Definition Stop (fast : bool) (now : Z) (s : Scheduler) : option Scheduler :=
  let live := sc_live s in
  if negb fast then
    let s := on_flags (fun f => set_paused false (set_stopping f)) s in
    Tick op_close now (mark_sources live s)
  else
    let s := on_flags set_stopping (each (on_nd Node.MarkCancelled) live (on_flags set_fast_stop s)) in
    let s := apply_fast_all s in
    let retire := each (on_ed (Edge.MarkRetired true)) in
    let s := each (fun r s => match sc_bound s !! r with Some t => retire (t_edges t) s | None => s end) live s in
    let s := retire (t_edges (sc_topology s)) s in
    match close_all op_close (Tick op_close now) live false s with
    | None => None
    | Some (_, s) => CheckAllClosed <$> Tick op_close now s
    end.

(** ** Turns *)

Context {W : Type} (op_process : W -> nat -> ProcessRequest -> script W) (hooks : Attached).

(** [on_node_failed]: the failure is reported, and a session that fails with its
    nodes stops the graph at once, from within the callback
    ([Session::OnNodeFailed]). It does so unless it is stopping, stopped or
    failed already: while nodes run, that is when its scheduler was told to
    stop or has closed every node. *)
Definition node_failed (now : Z) (r : nat) (st : Status) (s : Scheduler) : option Scheduler :=
  let s := report (NodeFailed r st) s in
  if hk_fail_session hooks && negb (stopping_ (sc_flags s) || all_closed_ (sc_flags s)) then Stop true now s else Some s.
Definition fail_and_finish (now : Z) (r : nat) (st : Status) (s : Scheduler) : option Scheduler :=
  match node_failed now r st s with Some s => OnNodeDone (Tick op_close now) r s | None => None end.

Definition current (r : nat) (s : Scheduler) : ParameterSnapshot := current_ (parameters_ (nd r s)).
Definition request_for (t : RuntimeTopology) (p : ParameterSnapshot) (flags : Z) (names : list string) (inputs : list PacketRef) : ProcessRequest :=
  MkProcessRequest (t_session t) (t_version t) (ps_version p) flags names inputs (ps_values p).

Definition RunProcessCall (now : Z) (r : nat) (req : ProcessRequest) (k : Sink) (w : W) (s : Scheduler)
    : option (option ProcessResult * W * Scheduler) :=
  let '(res, w, s) := run_script now k (op_process w r req) s in
  match res with
  | Error st =>
      if cancelled_ (nd r s) then Some (None, w, on_nd Node.EndInvoke r s)
      else (fun s => (None, w, s)) <$>
             fail_and_finish now r st (on_nd Node.EndInvoke r (on_nd (Node.Fail st) r s))
  | Value v =>
      let s := on_nd Node.EndInvoke r s in
      Some (if cancelled_ (nd r s) then None else Some v, w, s)
  end.

Definition insert_ports (new old : list string) : list string :=
  map fst (fold_left (fun m p => SMap.set p tt m) new (map (fun p => (p, tt)) old)).

(** [FinishNode]: flush, then the end of stream on every output port. *)
Definition FinishNode (now : Z) (r : nat) (w : W) (s : Scheduler) : option (W * Scheduler) :=
  let topo := sc_bound s !! r in
  let flushed :=
    match topo with
    | Some t =>
        if cancelled_ (nd r s) then Some (w, s)
        else
          let p := current r s in
          let s := on_nd (fun n => Node.with_metrics (Word.u64 (m_invocations n + 1)) (m_errors n) (m_submitted n) (m_completed n) n) r s in
          let '(res, w, s) := run_script now (MkSink r t (ps_version p) 0 []) (op_process w r (request_for t p GE_PROCESS_FLAG_FLUSH [] [])) s in
          match res with
          | Error st => if cancelled_ (nd r s) then Some (w, s) else (fun s => (w, s)) <$> node_failed now r st (on_nd (Node.Fail st) r s)
          | Value _ => Some (w, s)
          end
    | None => Some (w, s)
    end in
  match flushed with
  | None => None
  | Some (w, s) =>
      let ports := match topo with Some t => OutputPorts (sc_heap s) t (n_id (nd r s)) | None => [] end in
      let s := on_eos (fun m => <[r := insert_ports ports (default [] (m !! r))]> m) s in
      (fun s => (w, s)) <$> RetryBlocked op_close (Tick op_close now) r s
  end.

(** Draining and finishing, for the task that wins it. *)
Definition try_finish (now : Z) (r : nat) (w : W) (s : Scheduler) : bool * option (W * Scheduler) :=
  let '(won, n) := Node.TryEnterDraining (nd r s) in
  if won then (true, FinishNode now r w (set_nd r n s)) else (false, Some (w, set_nd r n s)).

Definition RunSource (now : Z) (r : nat) (t : RuntimeTopology) (w : W) (s : Scheduler) : option (W * Scheduler) :=
  let n := nd r s in
  if paused_ (sc_flags s) && negb (retiring_ n) then Some (w, on_nd Node.CancelSchedule r s)
  else if stopping_ (sc_flags s) || retiring_ n then (try_finish now r w (on_nd Node.CancelSchedule r s)).2
  else
    let p := current r s in
    let s := on_nd Node.BeginInvoke r s in
    match RunProcessCall now r (request_for t p 0 [] []) (MkSink r t (ps_version p) 0 []) w s with
    | None => None
    | Some (None, w, s) => Some (w, s)
    | Some (Some kExhausted, w, s) => (try_finish now r w s).2
    | Some (Some kContinue, w, s) =>
        if held_ (nd r s) then Some (w, s)
        else let '(blocked, s) := OutputsBlocked r t s in
             Some (w, if blocked then s else MarkReady r s)
    end.

(** The parameters switch at the packet boundary, then the node is invoked. *)
Definition begin_batch (r : nat) (b : InputBatch) (s : Scheduler) : ParameterSnapshot * Scheduler :=
  let s := on_nd (fun n => Node.with_parameters (Params.SwitchAtPacketBoundary (FirstSeq b) (parameters_ n)).2 n) r s in
  (current r s, on_nd (Node.NoteSeq (FirstSeq b)) r (on_nd Node.BeginInvoke r s)).

Definition RunProcess (now : Z) (r : nat) (t : RuntimeTopology) (i : nat) (w : W) (s : Scheduler) : option (W * Scheduler) :=
  match AcquireBatch now i s with
  | None => None
  | Some (None, s) =>
      let s := on_nd Node.CancelSchedule r s in
      let again w s := Some (w, if may_be_ready i s && negb (held_ (nd r s)) then MarkReady r s else s) in
      if input_ended i s then
        match try_finish now r w s with
        | (true, out) => out
        | (false, Some (w, s)) => again w s
        | (false, None) => None
        end
      else again w s
  | Some (Some b, s) =>
      let '(p, s) := begin_batch r b s in
      let '(names, inputs) := MoveBatchInto b in
      match RunProcessCall now r (request_for t p 0 names inputs) (MkSink r t (ps_version p) (OldestIngress inputs 0) []) w s with
      | None => None
      | Some (None, w, s) => Some (w, s)
      | Some (Some _, w, s) =>
          if held_ (nd r s) then Some (w, s)
          else if may_be_ready i s then Some (w, MarkReady r s)
          else if input_ended i s then (try_finish now r w s).2
          else Some (w, s)
      end
  end.

(** The node waits for a completion; it does not miss one that came in between. *)
Definition ParkAsync (r : nat) (until_zero : bool) (s : Scheduler) : Scheduler :=
  let s := on_nd Node.EnterAsyncPending r s in
  let n := nd r s in
  let freed := if until_zero then async_pending_ n =? 0 else async_pending_ n <? async_max_in_flight_ n in
  if freed then
    let '(gone, n) := Node.TryLeaveAsyncPending n in
    let s := set_nd r n s in
    if gone && negb (held_ n) then MarkReady r s else s
  else s.

Definition RunAsync (now : Z) (r : nat) (t : RuntimeTopology) (i : nat) (w : W) (s : Scheduler) : option (W * Scheduler) :=
  if async_max_in_flight_ (nd r s) <=? async_pending_ (nd r s) then Some (w, ParkAsync r false (on_nd Node.CancelSchedule r s))
  else match AcquireBatch now i s with
  | None => None
  | Some (None, s) =>
      let s := on_nd Node.CancelSchedule r s in
      if input_ended i s then
        match try_finish now r w s with
        | (true, out) => out
        | (false, Some (w, s)) => Some (w, if async_pending_ (nd r s) =? 0 then s else ParkAsync r true s)
        | (false, None) => None
        end
      else Some (w, if may_be_ready i s && negb (held_ (nd r s)) then MarkReady r s else s)
  | Some (Some b, s) =>
      if negb (hk_async hooks) then
        let s := on_nd Node.CancelSchedule r s in
        let st := StatusOps.Internal ("node '" ++ n_external_id (nd r s) ++ "' is async but no AsyncRuntime is attached") in
        (fun s => (w, s)) <$> fail_and_finish now r st (on_nd (Node.Fail st) r s)
      else
        let '(p, s) := begin_batch r b s in
        let '(names, inputs) := MoveBatchInto b in
        let s := on_nd Node.BeginAsync r s in
        let s := report (Submitted (MkAsyncRequest r (t_version t) p names inputs (FirstSeq b))) s in
        let s := on_nd Node.EndInvoke r s in
        if cancelled_ (nd r s) || held_ (nd r s) then Some (w, s)
        else if may_be_ready i s || input_ended i s then Some (w, MarkReady r s)
        else Some (w, s)
  end.

(** [OnAsyncIdle], called by the asynchronous runtime. *)
Definition OnAsyncIdle (now : Z) (r : nat) (s : Scheduler) : option Scheduler :=
  let n := nd r s in
  if cancelled_ n then snd <$> TryCloseCancelled op_close (Tick op_close now) r s
  else if negb (Node.schedulable (n_state n)) then Some s
  else Some (if held_ n then s else MarkReady r s).
Definition OnAsyncNodeFailed (now : Z) (r : nat) (st : Status) (s : Scheduler) : option Scheduler :=
  fail_and_finish now r st s.

(** The decision tree of one turn. *)
Definition InvokeBody (now : Z) (r : nat) (topo : option RuntimeTopology) (w : W) (s : Scheduler) : option (W * Scheduler) :=
  let n := nd r s in
  let skip s := Some (w, on_nd Node.CancelSchedule r s) in
  if negb (Node.schedulable (n_state n)) then skip s
  else if fast_stop_ (sc_flags s) || cancelled_ n then skip s
  else if held_ n then skip s
  else match topo with
  | None => skip s
  | Some t =>
      let '(unparked, s) := if HasParked r s then RetryParked r s else (true, s) in
      if negb unparked then
        let s := on_nd Node.CancelSchedule r s in
        Some (w, if negb (HasParked r s) && negb (held_ (nd r s)) then MarkReady r s else s)
      else
        let '(blocked, s) := OutputsBlocked r t s in
        if blocked then
          let s := on_nd Node.CancelSchedule r s in
          let '(blocked, s) := OutputsBlocked r t s in
          Some (w, if negb blocked && negb (held_ (nd r s)) then MarkReady r s else s)
        else if Node.is_source n then RunSource now r t w s
        else match InputsFor t (n_id n) with
        | None => skip s
        | Some i => if xc_async (cd_execution (n_capability n)) then RunAsync now r t i w s else RunProcess now r t i w s
        end
  end.

Definition Invoke (now : Z) (r : nat) (w : W) (s : Scheduler) : option (W * Scheduler) :=
  let s := on_nd Node.EnterBusy r s in
  match InvokeBody now r (sc_bound s !! r) w s with
  | None => None
  | Some (w, s) =>
      let s := on_nd Node.ExitBusy r s in
      if cancelled_ (nd r s) then (fun x => (w, x.2)) <$> TryCloseCancelled op_close (Tick op_close now) r s else Some (w, s)
  end.

(** [RunOne]: the first task, if there is one. *)
Definition RunOne (now : Z) (w : W) (s : Scheduler) : option (bool * W * Scheduler) :=
  match sc_tasks s with
  | [] => Some (false, w, s)
  | r :: rest => (fun x => (true, x.1, x.2)) <$> Invoke now r w (with_tasks rest s)
  end.

(** [RunPending], bounded by the number of tasks it may run. *)
Fixpoint RunPending (fuel : nat) (now : Z) (w : W) (s : Scheduler) : option (W * Scheduler) :=
  match fuel with
  | O => None
  | S f => match RunOne now w s with
           | None => None
           | Some (false, w, s) => Some (w, s)
           | Some (true, w, s) => RunPending f now w s
           end
  end.

(** ** Commands *)

Definition Start (s : Scheduler) : Scheduler := let s := on_flags set_started s in mark_sources (t_nodes (sc_topology s)) s.
Definition Pause (s : Scheduler) : Scheduler := on_flags (set_paused true) s.
Definition Resume (s : Scheduler) : Scheduler := let s := on_flags (set_paused false) s in mark_sources (t_nodes (sc_topology s)) s.

(** *** Publishing a version *)

Definition kept_nodes (prev next : RuntimeTopology) : list nat := List.filter (fun r => bool_decide (r ∈ t_nodes next)) (t_nodes prev).
Definition removed_nodes (prev next : RuntimeTopology) : list nat := List.filter (fun r => negb (bool_decide (r ∈ t_nodes next))) (t_nodes prev).
Definition removed_edges (prev next : RuntimeTopology) : list edge_ref := List.filter (fun e => negb (bool_decide (e ∈ t_edges next))) (t_edges prev).

(** The kept producers of removed edges, each once. *)
Definition held_nodes (prev next : RuntimeTopology) (s : Scheduler) : list nat :=
  fold_left (fun held e => match producer_of e s with
                           | Some p => if bool_decide (p ∈ kept_nodes prev next) && negb (bool_decide (p ∈ held)) then (held ++ [p])%list else held
                           | None => held
                           end) (removed_edges prev next) [].

(** [WaitQuiescent] under the inline executor. *)
Fixpoint WaitQuiescent (fuel : nat) (now : Z) (r : nat) (w : W) (s : Scheduler) : option (W * Scheduler) :=
  if Node.quiescent (nd r s) then Some (w, s)
  else match fuel with
  | O => None
  | S f => match RunOne now w s with Some (_, w, s) => WaitQuiescent f now r w s | None => None end
  end.
Fixpoint wait_all (fuel : nat) (now : Z) (l : list nat) (w : W) (s : Scheduler) : option (W * Scheduler) :=
  match l with
  | [] => Some (w, s)
  | r :: rest => match WaitQuiescent fuel now r w s with Some (w, s) => wait_all fuel now rest w s | None => None end
  end.

(** B1: the swap. *)
Definition swap (next : RuntimeTopology) (s : Scheduler) : Scheduler :=
  let '(next, h) := ApplyRebinds next (sc_heap s) in
  let s := on_heap (fun _ => h) s in
  let s := on_bound (fun m => fold_left (fun m r => <[r := next]> m) (t_nodes next) m) s in
  AttachNodes (t_new_nodes next) (with_topology next s).

(** B3: what becomes of the removed nodes and edges. *)
Definition drain_edge (prev : RuntimeTopology) (removed : list nat) (e : edge_ref) (s : Scheduler) : Scheduler :=
  match producer_of e s with
  | Some p =>
      if bool_decide (p ∈ removed) then s
      else
        let s := on_ed Edge.MarkDraining e s in
        let '(tag, tags) := TypeTags.Intern (logical_type (contract_ (ed e s))) (h_tags (sc_heap s)) in
        let s := on_heap (fun h => MkHeap (h_nodes h) (h_edges h) (h_inputs h) tags) s in
        with_inject (sc_inject s ++ [(e, Some (PacketOps.Eos tag (t_version prev) 0 (last_seq_ (nd p s))))])%list s
  | None => s
  end.
Definition retire_old (now : Z) (prev : RuntimeTopology) (req : RetireRequest) (s : Scheduler) : Scheduler :=
  let entry := MkRetired req (now + rq_drain_timeout req) false false in
  let '(entry, s) :=
    match rq_policy req with
    | kFast => ApplyFastLocked entry s
    | kDrain => (entry, each (drain_edge prev (rq_nodes req)) (rq_edges req) (each (on_nd Node.MarkRetiring) (rq_nodes req) s))
    end in
  with_retired (sc_retired s ++ [entry])%list s.

Definition kick (t : RuntimeTopology) (r : nat) (s : Scheduler) : Scheduler :=
  if Node.is_source (nd r s) then MarkReady r s
  else match InputsFor t (n_id (nd r s)) with
  | Some i => if may_be_ready i s then MarkReady r s else s
  | None => s
  end.

Definition publish_cancelled : Status := StatusOps.Cancelled "session stopping: topology not published".

Definition Publish (fuel : nat) (now : Z) (next : RuntimeTopology) (policy : RemovePolicy) (timeout : Z) (complete : option Z) (w : W) (s : Scheduler)
    : option (Status * W * Scheduler) :=
  if stopping_ (sc_flags s) then Some (publish_cancelled, w, s)
  else
    let prev := sc_topology s in
    let req := MkRetireRequest policy timeout prev (removed_nodes prev next) (removed_edges prev next) complete in
    let held := held_nodes prev next s in
    match wait_all fuel now held w (each (on_nd Node.Hold) held s) with
    | None => None
    | Some (w, s) =>
        if stopping_ (sc_flags s) then Some (publish_cancelled, w, each (fun r s => MarkReady r (on_nd Node.Release r s)) held s)
        else
          let s := swap next s in
          let next := sc_topology s in
          let s := RetryInjections (retire_old now prev req s) in
          let s := each (on_nd Node.Release) held s in
          let s := if started_ (sc_flags s) then each (kick prev) (rq_nodes req) (each (kick next) (t_nodes next) s) else s in
          (fun s => (StatusOps.Ok, w, s)) <$> Tick op_close now s
    end.

End invoke.
