(* ===== verification/SchedulerSamples.v ===== *)
(** Small pipelines that run: a source that emits two packets per call, filters
    that pass packets on, one-place blocking edges, and a mutation published
    while they run. *)

From stdpp Require Import base numbers list strings gmap.
From Stdlib Require Import ZArith Ascii String.
From S2P Require Import Prelude Types Double Json GraphSpec GraphSpecProofs CapabilityTypes Packet EdgeChannel InputBinding NodeRuntime Negotiation GraphValidator ValidatorProofs RuntimeTopology TopologyProofs Coordinator CoordinatorProofs Scheduler SchedulerInvoke.

Local Open Scope string_scope.
Local Open Scope Z_scope.

Definition source_descriptor (op : OperatorKey) : CapabilityDescriptor :=
  MkCapabilityDescriptor op "" []
    [MkPortCapability "out" kOutput "VideoFrame" false kMulti false None None None (MkMemoryConstraints None None false) None]
    (MkExecutionCapability [kDevCpu] false false 4 false None) (MkParameterCapability [] [] (JObject [])) [] (MkEventCapability [] []).
Definition pipe_resolver (op : OperatorKey) : option CapabilityDescriptor :=
  Some (if bool_decide (type_name op = "ge.Source") then source_descriptor op else pass_descriptor op).

Definition source_node : NodeSpec := MkNodeSpec "s" (MkOperatorKey "ge.Source" "1.0.0") default_executor 1 (JObject []) [].
Definition narrow (id a b : string) : EdgeSpec := MkEdgeSpec id (MkPortRef a "out") (MkPortRef b "in") (MkQueueSpec 1 kBlock None) None false.

(** [s -> t], and [s -> b -> t]. *)
Definition pipe : GraphSpec := run_edits [EAddNode source_node; EAddNode (sample_node "t"); EAddEdge (narrow "e1" "s" "t")] (GraphOps.make "pipe").
Definition long_pipe : GraphSpec :=
  run_edits [EAddNode source_node; EAddNode (sample_node "b"); EAddNode (sample_node "t"); EAddEdge (narrow "e1" "s" "b"); EAddEdge (narrow "e2" "b" "t")]
    (GraphOps.make "pipe").

Definition no_graph : ValidatedGraph := MkValidated [] [] [] [] [].
Definition no_version : RuntimeTopology := MkTopology 0 0 (GraphOps.make "") [] [] [] [] [] [] 0 0 no_graph [] [] [] (MkAlignedOptions 40 None).
Definition launched (g : GraphSpec) : RuntimeTopology * heap :=
  match validate pipe_resolver (fun l => l) g with
  | Value v =>
      match Build pipe_resolver no_failure (fun l => l) g (first_options v) no_heap with
      | Some (Value (t, h)) => match OpenNodes opens opens t h with Some (_, h) => (t, h) | None => (no_version, no_heap) end
      | _ => (no_version, no_heap)
      end
  | _ => (no_version, no_heap)
  end.

Definition frame (n : Z) : Packet := MkPacket (MkPacketHeader n 0 0 0 0 0 (TypeTags.Find "VideoFrame" TypeTags.make)) None None 0.

(** The operators: node 0 emits two packets per call while the world counts
    down, every other node reports what it gets and passes it on. *)
Definition feed (w : nat) (r : nat) (q : ProcessRequest) : script nat :=
  if bool_decide (r = 0)%nat then
    match w with
    | O => Returns (Value kExhausted) w
    | S w' => Emits "out" (frame (Z.of_nat (2 * w))) (fun _ => Emits "out" (frame (Z.of_nat (2 * w) - 1)) (fun _ => Returns (Value kContinue) w'))
    end
  else fold_right (fun p k => match p with
         | Some x => Publishes "got" kInfo (JInteger (seq (header x))) (Emits "out" (frame (seq (header x))) (fun _ => k))
         | None => k
         end) (Returns (Value kContinue) w) (pq_inputs q).

(** What node [r] reported to have received. *)
Definition got (r : nat) (s : Scheduler) : list Z :=
  omap (fun e => match e with OperatorEvent r' _ _ (JInteger z) => if bool_decide (r = r') then Some z else None | _ => None end) (sc_log s).

Definition completed_ids (s : Scheduler) : list Z := omap (fun e => match e with RetireComplete id _ => Some id | _ => None end) (sc_log s).

Fixpoint turns (n : nat) (w : nat) (s : Scheduler) : option (nat * Scheduler) :=
  match n with
  | O => Some (w, s)
  | S n => match RunOne opens feed default_hooks 0 w s with Some (_, w, s) => turns n w s | None => None end
  end.

Definition first_state (g : GraphSpec) : Scheduler := make (launched g).1 (launched g).2.

(** [n] turns after the start, with [k] calls of the source that emit. *)
Definition after (g : GraphSpec) (k n : nat) : option (nat * Scheduler) := turns n k (Start (first_state g)).

(** The candidate a patch gives, and the heap with its new nodes. *)
Definition prepared (patch : MutationPatch) (s : Scheduler) : option (RuntimeTopology * heap) :=
  match Prepare pipe_resolver no_failure one_thread opens opens (fun l => l) 1 (MkAlignedOptions 40 None) false (sc_topology s) patch 2
          (MkResources (sc_heap s) session_lease session_ledger) with
  | Some (Value p, rs) => Some (pr_candidate p, rs_heap rs)
  | _ => None
  end.
Definition published (patch : MutationPatch) (w : nat) (s : Scheduler) : option (nat * Scheduler) :=
  match prepared patch s with
  | Some (t, h) =>
      match Publish opens feed default_hooks 100 0 t kDrain 2000 (Some 7) w (on_heap (fun _ => h) s) with
      | Some (st, w, s) => if StatusOps.ok st then Some (w, s) else None
      | None => None
      end
  | None => None
  end.
Definition bypass_b : MutationPatch := MkMutationPatch None kDrain [RemoveNodeAction "b" kBypass None] false.

(** Three rounds of two packets cross the narrow edge, in order. *)
Example pipe_delivers : (fun x => (got 1 x.2, sc_live x.2)) <$> after pipe 3 20 = Some ([6; 5; 4; 3; 2; 1], []).
Proof. by vm_compute. Qed.

(** The source emits 2 and 1: 2 fills the edge and 1 is parked, for the
    operator as good as delivered. Inserting [b] gracefully then drains the
    edge, which refuses packets from then on: 2 arrives, 1 does not, and no one
    is told. *)
Example parked_packet_lost : (exists w s, after pipe 1 1 = Some (w, s) /\ HasParked 0 s = true) /\
  ('(w, s) ← after pipe 1 1; '(w, s) ← published insert_b w s; '(w, s) ← turns 20 w s; Some (got 1 s, completed_ids s, sc_live s)) = Some ([2], [7], []).
Proof. split; [by do 2 eexists; vm_compute|by vm_compute]. Qed.

(** [b] is removed while a packet of it is under way. *)
Lemma bypass_run : exists w1 s1 t h w2 s2 w3 s3,
  after long_pipe 1 2 = Some (w1, s1) /\ prepared bypass_b s1 = Some (t, h) /\ h_nodes h = h_nodes (sc_heap s1) /\
  published bypass_b w1 s1 = Some (w2, s2) /\ turns 20 w2 s2 = Some (w3, s3) /\
  map (fun q => rq_nodes (rt_request q)) (sc_retired s2) = [[1%nat]] /\ bool_decide (is_Some (node_of (sc_heap s2) 1)) = true /\
  got 2 s3 = [2; 1] /\ completed_ids s3 = [7] /\ sc_live s3 = [].
Proof. do 8 eexists. repeat (split; [by vm_compute|]). by vm_compute. Qed.
