(* ===== verification/SchedulerProofs.v ===== *)
(** The bookkeeping of the scheduler: every call ends, no slot is lost, every
    retired version is reported once. *)

From stdpp Require Import base numbers list strings gmap relations.
From Stdlib Require Import ZArith Lia Ascii String.
From S2P Require Import Prelude Types Double Json GraphSpec CapabilityTypes Packet EdgeChannel InputBinding NodeRuntime RuntimeTopology Coordinator Scheduler SchedulerInvoke SchedulerSamples.

Local Open Scope string_scope.
Local Open Scope Z_scope.

(** ** State *)

Lemma on_heap_eq f s : on_heap f s = on_heap (fun _ => f (sc_heap s)) s.
Proof. done. Qed.

Lemma set_node_out r n h : node_of h r = None -> set_node r n h = h.
Proof.
  intros H. unfold set_node. rewrite list_insert_ge by (by apply lookup_ge_None). by destruct h.
Qed.
Lemma nd_set_eq r n s : is_Some (node_of (sc_heap s) r) -> nd r (set_nd r n s) = n.
Proof.
  intros Hr%lookup_lt_is_Some. unfold nd, set_nd, on_heap, node_of, set_node. simpl. by rewrite list_lookup_insert_eq.
Qed.
Lemma nd_set_ne r r' n s : r <> r' -> nd r' (set_nd r n s) = nd r' s.
Proof. intros H. unfold nd, set_nd, on_heap, node_of, set_node. simpl. by rewrite list_lookup_insert_ne. Qed.
Lemma set_nd_twice r n n' s : set_nd r n' (set_nd r n s) = set_nd r n' s.
Proof. unfold set_nd, on_heap, set_node. simpl. by rewrite list_insert_insert_eq. Qed.
Lemma set_nd_out r n s : node_of (sc_heap s) r = None -> set_nd r n s = s.
Proof. intros H. unfold set_nd, on_heap. rewrite set_node_out by done. by destruct s. Qed.

(** An update of a node in terms of the node it finds. *)
Lemma on_nd_twice f g r s : on_nd g r (on_nd f r s) = on_nd (fun n => g (f n)) r s.
Proof.
  unfold on_nd. destruct (node_of (sc_heap s) r) as [x|] eqn:E.
  - rewrite nd_set_eq by (rewrite E; by eexists). apply set_nd_twice.
  - by rewrite !set_nd_out by (rewrite ?set_nd_out; done).
Qed.

Lemma CloseNode_eq op_close r s : CloseNode op_close r s = on_nd (Node.with_state kClosed) r s.
Proof.
  unfold CloseNode. case_bool_decide as Hc.
  - unfold on_nd, Node.Close. by rewrite Hc.
  - by rewrite on_nd_twice.
Qed.

(** ** Moves *)

(** What a call does to a node besides taking or returning slots. *)
Definition calm (n n' : NodeRuntime) : Prop :=
  available_slots_ n' = available_slots_ n /\ max_parallelism_ n' = max_parallelism_ n /\ (finished n = true -> finished n' = true) /\
  async_pending_ n' = async_pending_ n.
Lemma calm_closed n : calm n (Node.with_state kClosed n).
Proof. done. Qed.
Lemma calm_refl n : calm n n.
Proof. done. Qed.
Lemma calm_cas from to n : finished (Node.with_state from n) = false -> calm n (Node.cas_state from to n).2.
Proof.
  intros Hf. unfold Node.cas_state. case_decide as E; [|done]. split; [done|]. split; [done|]. split; [|done]. intros H. unfold finished in *. simpl in *. rewrite E in H. congruence.
Qed.
Lemma calm_draining n : calm n (Node.TryEnterDraining n).2.
Proof.
  unfold Node.TryEnterDraining. destruct (negb _); [done|]. destruct (negb _); [done|]. destruct (negb (available_slots_ n =? _)); [done|].
  pose proof (calm_cas kReady kNodeDraining n eq_refl) as H1. destruct (Node.cas_state kReady kNodeDraining n) as [[] m]; [|done].
  destruct (negb _); [|done]. pose proof (calm_cas kNodeDraining kReady m eq_refl) as H2. simpl in *.
  destruct (Node.cas_state kNodeDraining kReady m) as [b m']. destruct H1 as (A1 & A2 & A3 & A4), H2 as (B1 & B2 & B3 & B4). split; [simpl in *; congruence|].
  split; [simpl in *; congruence|]. split; [auto|]. simpl in *; congruence.
Qed.

(** What is reported besides closing and retiring. *)
Definition quiet (e : happening) : bool := match e with AllClosed | RetireComplete _ _ => false | _ => true end.

(** A relation that every small change of the scheduler is in. *)
Record moves (R : relation Scheduler) : Prop := {
  mv_preorder : PreOrder R;
  mv_mark r s : R s (MarkReady r s);
  mv_heap s h : h_nodes h = h_nodes (sc_heap s) -> R s (on_heap (fun _ => h) s);
  mv_node r n s : calm (nd r s) n -> R s (set_nd r n s);
  mv_detach r s : R s (Detach r s).2;
  mv_bound f s : R s (on_bound f s);
  mv_parked f s : R s (on_parked f s);
  mv_eos f s : R s (on_eos f s);
  mv_inject l s : R s (with_inject l s);
  mv_closed s : R s (CheckAllClosed s);
  mv_report e s : quiet e = true -> R s (report e s);
}.

Lemma push_edge_nodes e p ro : h_nodes (ro_heap (PushEdge e p ro).2) = h_nodes (ro_heap ro).
Proof. unfold PushEdge. destruct (h_edges (ro_heap ro) !! e); [|done]. by destruct (Edge.Push _ _) as [[] ?]. Qed.
Lemma retry_pass_nodes work : forall blocked still ro, h_nodes (ro_heap (retry_pass work blocked still ro).2) = h_nodes (ro_heap ro).
Proof.
  induction work as [|[e p] work IH]; intros blocked still ro; [done|]. simpl. case_bool_decide; [apply IH|].
  pose proof (push_edge_nodes e p ro) as H1. destruct (PushEdge e p ro) as [o ro']. case_bool_decide; by rewrite IH.
Qed.
Lemma push_all_nodes routes p : forall blocked ro, h_nodes (ro_heap (push_all routes p blocked ro).2) = h_nodes (ro_heap ro).
Proof.
  induction routes as [|r routes IH]; intros blocked ro; [done|]. simpl. pose proof (push_edge_nodes (re_edge r) p ro) as H1.
  destruct (PushEdge (re_edge r) p ro) as [o ro']. by rewrite IH.
Qed.
Lemma emit_eos_nodes t n p v ro : h_nodes (ro_heap (EmitEos t n p v ro).2) = h_nodes (ro_heap ro).
Proof.
  unfold EmitEos, PushAll. destruct (RoutesFor _ _ _) as [[|f l]|]; [done| |done].
  pose proof (push_all_nodes (f :: l) (Some (PacketOps.Eos (re_tag f) (t_version t) v (last_seq_ n))) false ro) as H.
  by destruct (push_all _ _ _ _).
Qed.
Lemma set_channel_nodes e x h : h_nodes (set_channel e x h) = h_nodes h.
Proof. unfold set_channel. by destruct (h_edges h !! e). Qed.

Section moves.
Context (R : relation Scheduler).
Hypothesis M : moves R.
#[local] Instance mv_pre : PreOrder R := mv_preorder R M.

Lemma mv_step a b c : R a b -> R b c -> R a c.
Proof. apply transitivity. Qed.

Lemma mv_each {A} (f : A -> Scheduler -> Scheduler) l s : (forall x s, R s (f x s)) -> R s (each f l s).
Proof. intros Hf. unfold each. revert s. induction l as [|x l IH]; intros s; simpl; [done|]. eapply mv_step; [apply Hf|apply IH]. Qed.
Lemma mv_on_nd f r s : (forall n, calm n (f n)) -> R s (on_nd f r s).
Proof. intros Hf. apply (mv_node _ M), Hf. Qed.
Lemma mv_set_ed e x s : R s (set_ed e x s).
Proof. unfold set_ed. rewrite on_heap_eq. apply M, set_channel_nodes. Qed.
Lemma mv_on_ed f e s : R s (on_ed f e s).
Proof. apply mv_set_ed. Qed.
Lemma mv_close op_close r s : R s (CloseNode op_close r s).
Proof. rewrite CloseNode_eq. by apply mv_on_nd. Qed.

Lemma mv_retry_parked r s : R s (RetryParked r s).2.
Proof.
  unfold RetryParked. destruct (sc_parked s !! r) as [work|]; [|done]. destruct (cancelled_ (nd r s)); [apply (mv_parked _ M)|].
  pose proof (retry_pass_nodes work [] [] (MkRouting (sc_heap s) (Some empty_report) 0 0)) as H. destruct (retry_pass _ _ _ _) as [still ro].
  eapply mv_step; [by apply (mv_heap _ M s (ro_heap ro))|].
  destruct still; simpl; (eapply mv_step; [apply (mv_parked _ M)|apply mv_each, (mv_mark _ M)]).
Qed.

Lemma mv_inject_pass l : forall kept wake s, R s (inject_pass l kept wake s).2.
Proof.
  induction l as [|[e x] l IH]; intros kept wake s; [done|]. simpl. destruct (Edge.InjectEos x (ed e s)) as [o c].
  destruct o; (eapply mv_step; [apply (mv_set_ed e c)|apply IH]).
Qed.
Lemma mv_retry_injections s : R s (RetryInjections s).
Proof.
  unfold RetryInjections. pose proof (mv_inject_pass (sc_inject s) [] [] s) as H. destruct (inject_pass _ _ _ _) as [[kept wake] s'].
  eapply mv_step; [exact H|]. eapply mv_step; [apply (mv_inject _ M)|]. apply mv_each, (mv_mark _ M).
Qed.

Lemma mv_apply_fast q s : R s (ApplyFastLocked q s).2.
Proof.
  unfold ApplyFastLocked. simpl. eapply mv_step; [|apply (mv_inject _ M)]. eapply mv_step; [|apply mv_each; intros; apply mv_on_ed]. apply mv_each.
  intros x t. by apply mv_on_nd.
Qed.

Lemma mv_eos_pass r ports : forall kept wake s, R s (eos_pass r ports kept wake s).2.
Proof.
  induction ports as [|p ports IH]; intros kept wake s; [done|]. simpl.
  assert (Hn : forall t, h_nodes (ro_heap (EmitEos t (nd r s) p (ps_version (current_ (parameters_ (nd r s)))) (MkRouting (sc_heap s) (Some empty_report) 0 0)).2)
    = h_nodes (sc_heap s)) by (intros t; apply emit_eos_nodes).
  destruct (sc_bound s !! r) as [t|].
  - specialize (Hn t). destruct (EmitEos _ _ _ _ _) as [st ro]. case_bool_decide; (eapply mv_step; [by apply (mv_heap _ M s (ro_heap ro))|apply IH]).
  - case_bool_decide; (eapply mv_step; [by apply (mv_heap _ M s (sc_heap s))|apply IH]).
Qed.

Section turn.
Context (op_close : NodeRuntime -> Status) (tick : Scheduler -> option Scheduler).
Hypothesis tick_in : forall s s', tick s = Some s' -> R s s'.

Lemma mv_node_done r s s' : OnNodeDone tick r s = Some s' -> R s s'.
Proof.
  unfold OnNodeDone. pose proof (mv_detach _ M r s) as Hd. destruct (Detach r s) as [was s1]. simpl in Hd.
  destruct was; simpl; [|by intros [= <-]]. intros H. eapply mv_step; [exact Hd|].
  eapply mv_step; [apply (mv_parked _ M (delete r))|]. eapply mv_step; [apply (mv_bound _ M (delete r))|]. eapply mv_step; [apply (mv_closed _ M)|].
  change (on_parked (delete r) s1) with (DropParked r s1).
  destruct (sc_retired _) in H; [by injection H as <-|by apply tick_in].
Qed.

Lemma mv_retry_blocked r s s' : RetryBlocked op_close tick r s = Some s' -> R s s'.
Proof.
  unfold RetryBlocked. assert (Hp : R s (if HasParked r s then RetryParked r s else (true, s)).2) by (destruct (HasParked r s); [apply mv_retry_parked|done]).
  destruct (if HasParked r s then RetryParked r s else (true, s)) as [go s1]. simpl in Hp. destruct go; simpl; [|by intros [= <-]].
  destruct (sc_eos s1 !! r) as [ports|]; [|by intros [= <-]]. pose proof (mv_eos_pass r ports [] [] s1) as He.
  destruct (eos_pass r ports [] [] s1) as [[kept wake] s2]. simpl in He. intros H. eapply mv_step; [exact Hp|]. eapply mv_step; [exact He|].
  eapply mv_step; [apply (mv_eos _ M (match kept with [] => delete r | _ => <[r := kept]> end))|]. eapply mv_step; [apply (mv_each MarkReady wake), (mv_mark _ M)|].
  destruct kept; [|by injection H as <-]. destruct (bool_decide _); [by apply mv_node_done in H|].
  eapply mv_step; [apply (mv_close op_close r)|]. by apply mv_node_done in H.
Qed.

Lemma mv_try_close r s b s' : TryCloseCancelled op_close tick r s = Some (b, s') -> R s s'.
Proof.
  unfold TryCloseCancelled. destruct (negb (busy_ (nd r s) =? 0)); [by intros [= _ <-]|].
  destruct (finished (nd r s)). { intros (s1 & E & H)%fmap_Some. injection H as _ ->. by apply mv_node_done in E. }
  destruct (bool_decide (n_state (nd r s) = kClosing)); [by intros [= _ <-]|]. destruct (negb (async_pending_ (nd r s) =? 0)); [by intros [= _ <-]|].
  set (leave := if bool_decide (n_state (nd r s) = kAsyncPending) then _ else _).
  assert (Hl : R s leave.2).
  { unfold leave. case_bool_decide; [|done]. unfold Node.TryLeaveAsyncPending. pose proof (calm_cas kAsyncPending kReady (nd r s) eq_refl) as Hc.
    destruct (Node.cas_state kAsyncPending kReady (nd r s)) as [x n]. by apply (mv_node _ M). }
  destruct leave as [free s1]. simpl in Hl. destruct free; simpl; [|by intros [= _ <-]].
  destruct (bool_decide _). { intros (s2 & E & H)%fmap_Some. injection H as _ ->. eapply mv_step; [exact Hl|]. by apply mv_retry_blocked in E. }
  pose proof (calm_draining (nd r s1)) as Hc. destruct (Node.TryEnterDraining (nd r s1)) as [won n']. simpl in Hc.
  pose proof (mv_step _ _ _ Hl (mv_node _ M r n' s1 Hc)) as Hs. destruct (negb won && _); [by intros [= _ <-]|].
  intros (s2 & E & H)%fmap_Some. injection H as _ ->. eapply mv_step; [exact Hs|]. eapply mv_step; [apply (mv_close op_close r)|]. by apply mv_node_done in E.
Qed.

Lemma mv_close_all l : forall p s b s', close_all op_close tick l p s = Some (b, s') -> R s s'.
Proof.
  induction l as [|r l IH]; intros p s b s'; simpl; [by intros [= _ <-]|]. destruct (TryCloseCancelled op_close tick r s) as [[c s1]|] eqn:E; [|done].
  intros H. eapply mv_step; [by eapply mv_try_close|by eapply IH].
Qed.

Lemma mv_nudge r s s' : nudge op_close tick r s = Some s' -> R s s'.
Proof.
  unfold nudge. intros H. destruct (n_state (nd r s)); try (by injection H as <-); try (by apply mv_retry_blocked in H);
    (destruct (cancelled_ (nd r s)); [apply fmap_Some in H as ([b s1] & E & ->); by apply mv_try_close in E|injection H as <-; apply (mv_mark _ M)]).
Qed.
Lemma mv_nudge_all l : forall s s', nudge_all op_close tick l s = Some s' -> R s s'.
Proof.
  induction l as [|r l IH]; intros s s'; simpl; [by intros [= <-]|]. destruct (nudge op_close tick r s) as [s1|] eqn:E; [|done].
  intros H. eapply mv_step; [by apply mv_nudge in E|by apply IH].
Qed.

End turn.

Lemma mv_sweep_one now q w s : R s (sweep_one now q w s).2.
Proof.
  unfold sweep_one. set (a := if negb (rt_fast_applied q) && _ && _ then _ else _).
  assert (Ha : R s a.2).
  { unfold a. destruct (negb (rt_fast_applied q) && _ && _); [|done].
    pose proof (mv_apply_fast (MkRetired (rt_request q) (rt_deadline q) (rt_fast_applied q) true) s) as H. by destruct (ApplyFastLocked _ s). }
  destruct a as [[q' w'] s1]. simpl in Ha. destruct (rt_fast_applied q').
  - assert (Hs : R s (each (on_ed (Edge.MarkRetired true)) (rq_edges (rt_request q)) s1)) by (eapply mv_step; [exact Ha|apply mv_each; intros; apply mv_on_ed]).
    by destruct (List.filter _ _).
  - destruct (negb (DrainComplete _ _)); [done|]. simpl. eapply mv_step; [exact Ha|apply mv_each; intros; apply mv_on_ed].
Qed.
Lemma mv_sweep_all now l : forall w s, R s (sweep_all now l w s).2.
Proof.
  induction l as [|q l IH]; intros w s; [done|]. simpl. pose proof (mv_sweep_one now q w s) as H. destruct (sweep_one now q w s) as [w' s1].
  eapply mv_step; [exact H|apply IH].
Qed.

End moves.

(** ** What shrinks *)

Lemma filter_shrinks {A} (p : A -> bool) l k : Forall2 (fun x y => p y = true -> p x = true) l k ->
  (List.length (List.filter p k) <= List.length (List.filter p l))%nat /\
  forall i x y, l !! i = Some x -> k !! i = Some y -> p x = true -> p y = false -> (List.length (List.filter p k) < List.length (List.filter p l))%nat.
Proof.
  induction 1 as [|x y l k Hp _ [I1 I2]]; [done|]. simpl. split.
  - destruct (p x), (p y); simpl; try lia.
  - intros [|i] a b Ha Hb Ea Eb; simpl in *.
    + injection Ha as ->. injection Hb as ->. rewrite Ea, Eb. simpl. lia.
    + specialize (I2 i a b Ha Hb Ea Eb). destruct (p x), (p y); simpl; lia.
Qed.

Definition is_open (n : NodeRuntime) : bool := negb (finished n).
Definition open_count (s : Scheduler) : nat := List.length (List.filter is_open (h_nodes (sc_heap s))).
Definition weight (l : list Retired) : nat := List.length l + List.length (List.filter (fun q => negb (rt_fast_applied q)) l).
Lemma work_left_eq s : work_left s = (weight (sc_retired s) + open_count s)%nat.
Proof. done. Qed.

(** A finished node stays finished. *)
Definition no_reopen (x y : NodeRuntime) : Prop := is_open y = true -> is_open x = true.
Lemma no_reopen_refl l : Forall2 no_reopen l l.
Proof. apply Forall_Forall2_diag, Forall_true. intros x. by unfold no_reopen. Qed.
Record shrinks (s s' : Scheduler) : Prop := {
  sh_live : (List.length (sc_live s') <= List.length (sc_live s))%nat;
  sh_weight : (weight (sc_retired s') <= weight (sc_retired s))%nat;
  sh_nodes : Forall2 no_reopen (h_nodes (sc_heap s)) (h_nodes (sc_heap s'));
  sh_requests : forall q, q ∈ sc_retired s' -> exists q0, q0 ∈ sc_retired s /\ rt_request q = rt_request q0;
}.

Lemma sh_open s s' : shrinks s s' -> (open_count s' <= open_count s)%nat.
Proof. intros H. apply (filter_shrinks is_open _ _ (sh_nodes _ _ H)). Qed.
Lemma sh_node s s' r : shrinks s s' -> is_Some (node_of (sc_heap s) r) -> is_Some (node_of (sc_heap s') r).
Proof. intros H [x Hx]. destruct (Forall2_lookup_l _ _ _ _ _ (sh_nodes _ _ H) Hx) as (y & Hy & _). by exists y. Qed.
Lemma open_less r s s' : shrinks s s' -> is_Some (node_of (sc_heap s) r) -> finished (nd r s) = false -> finished (nd r s') = true ->
  (open_count s' < open_count s)%nat.
Proof.
  intros H [x Hx]. destruct (Forall2_lookup_l _ _ _ _ _ (sh_nodes _ _ H) Hx) as (y & Hy & _). unfold nd, node_of in *. rewrite Hx, Hy. simpl. intros Fx Fy.
  apply (proj2 (filter_shrinks is_open _ _ (sh_nodes _ _ H)) r x y); unfold is_open; [done|done|by rewrite Fx|by rewrite Fy].
Qed.
Lemma finished_stays r s s' : shrinks s s' -> is_Some (node_of (sc_heap s) r) -> finished (nd r s) = true -> finished (nd r s') = true.
Proof.
  intros H [x Hx]. destruct (Forall2_lookup_l _ _ _ _ _ (sh_nodes _ _ H) Hx) as (y & Hy & Hf). unfold nd, node_of in *. rewrite Hx, Hy. simpl. intros Fx.
  unfold no_reopen, is_open in Hf. rewrite Fx in Hf. destruct (finished y); [done|]. by specialize (Hf eq_refl).
Qed.

Lemma shrinks_same s s' : sc_live s' = sc_live s -> sc_retired s' = sc_retired s -> h_nodes (sc_heap s') = h_nodes (sc_heap s) -> shrinks s s'.
Proof.
  intros H1 H2 H3. split; rewrite ?H1, ?H2, ?H3; [done|done| |intros q Hq; by exists q]. by apply no_reopen_refl.
Qed.

Lemma shrinks_node r n s : (finished (nd r s) = true -> finished n = true) -> shrinks s (set_nd r n s).
Proof.
  intros Hf. destruct (node_of (sc_heap s) r) as [x|] eqn:E; [|rewrite set_nd_out by done; by apply shrinks_same].
  unfold nd in Hf. rewrite E in Hf. simpl in Hf. split; [done|done| |intros q Hq; by exists q]. simpl.
  assert (Hrefl : Forall2 no_reopen (h_nodes (sc_heap s)) (h_nodes (sc_heap s))) by apply no_reopen_refl.
  rewrite <- (list_insert_id (h_nodes (sc_heap s)) r x) at 1 by exact E. apply Forall2_insert; [done|].
  unfold no_reopen, is_open. destruct (finished x); [by rewrite Hf|done].
Qed.

Lemma try_schedule_state n : n_state (Node.TrySchedule n).2 = n_state n.
Proof. unfold Node.TrySchedule. by repeat case_match. Qed.

#[export] Instance shrinks_preorder : PreOrder shrinks.
Proof.
  split; [intros s; by apply shrinks_same|]. intros a b c [A1 A2 A3 A4] [B1 B2 B3 B4]. split; [lia|lia| |].
  - revert A3 B3. generalize (h_nodes (sc_heap a)) (h_nodes (sc_heap b)) (h_nodes (sc_heap c)). intros l k m H. revert m.
    induction H as [|x y l k Hxy _ IH]; intros m H2; inversion_clear H2; constructor; [unfold no_reopen in *; auto|auto].
  - intros q (q1 & H1 & E1)%B4. destruct (A4 q1 H1) as (q0 & H0 & E0). exists q0. split; [done|congruence].
Qed.

Lemma shrinks_mark r s : shrinks s (MarkReady r s).
Proof.
  unfold MarkReady. destruct (negb _ || _); [done|]. destruct (negb _); [done|]. pose proof (try_schedule_state (nd r s)) as Hs.
  destruct (Node.TrySchedule (nd r s)) as [ok n]. destruct ok; [|done]. simpl in Hs.
  assert (H1 : shrinks s (set_nd r n s)) by (apply shrinks_node; unfold finished; by rewrite Hs).
  unfold SubmitCpu. destruct (executor_stopped_ _); [|etransitivity; [exact H1|by apply shrinks_same]].
  etransitivity; [exact H1|]. by apply shrinks_node.
Qed.

Lemma erase_first_length r l : r ∈ l -> List.length (erase_first r l) = pred (List.length l).
Proof.
  induction l as [|x l IH]; intros H; [by apply not_elem_of_nil in H|]. simpl. case_decide; [done|]. simpl. apply elem_of_cons in H as [->|H]; [done|].
  rewrite IH by done. destruct l; [by apply not_elem_of_nil in H|done].
Qed.

Lemma shrinks_moves : moves shrinks.
Proof.
  split; [apply _|apply shrinks_mark|intros s h Hh; by apply shrinks_same|intros r n s (_ & _ & H & _); by apply shrinks_node| | | | | | |];
    try (intros; by apply shrinks_same).
  - intros r s. unfold Detach. case_bool_decide as Hr; [|done].
    split; [simpl; rewrite erase_first_length by done; lia|done|by apply no_reopen_refl|intros q Hq; by exists q].
  - intros s. unfold CheckAllClosed. destruct (sc_live s) eqn:E; [|done]. destruct (all_closed_ _); [done|by apply shrinks_same].
Qed.

(** ** One sweep *)

Definition same_request (l : list Retired) (q : Retired) : Prop := exists q0, q0 ∈ l /\ rt_request q = rt_request q0.
Definition removed_by (l : list Retired) (r : nat) : Prop := exists q, q ∈ l /\ r ∈ rq_nodes (rt_request q).

Lemma weight_app l k : weight (l ++ k) = (weight l + weight k)%nat.
Proof. unfold weight. rewrite List.filter_app, !length_app. lia. Qed.
Lemma weight_one q : weight [q] = if rt_fast_applied q then 1%nat else 2%nat.
Proof. unfold weight. simpl. by destruct (rt_fast_applied q). Qed.

(** What a sweep finds in [l]. *)
Record swept (l : list Retired) (w w' : sweep) : Prop := {
  sp_weight : (weight (sw_kept w') + List.length (sw_done w') + List.length (sw_timed_out w') <=
               weight (sw_kept w) + List.length (sw_done w) + List.length (sw_timed_out w) + weight l)%nat;
  sp_requests : exists k d, sw_kept w' = (sw_kept w ++ k)%list /\ sw_done w' = (sw_done w ++ d)%list /\
                Permutation (map rt_request (k ++ d)) (map rt_request l);
  sp_close : forall r, r ∈ sw_close w' -> r ∈ sw_close w \/ removed_by l r;
}.

Lemma swept_refl w : swept [] w w.
Proof. split; [unfold weight; simpl; lia|by exists [], []; rewrite !app_nil_r|auto]. Qed.

Lemma swept_one now q w s : swept [q] w (sweep_one now q w s).1.
Proof.
  unfold sweep_one. destruct (negb (rt_fast_applied q) && _ && _) eqn:E.
  - apply andb_true_iff in E as [[Ef _]%andb_true_iff _]. apply negb_true_iff in Ef. unfold ApplyFastLocked. cbn [rt_request rt_fast_applied].
    destruct (List.filter _ _) as [|o os] eqn:Eo; simpl.
    + split; simpl; [rewrite weight_one, Ef, !length_app; simpl; lia|by eexists [], [_]; rewrite app_nil_r|].
      intros r [[H|H]%elem_of_app|H]%elem_of_app; [by left|right|by apply not_elem_of_nil in H]. exists q. by split; [left|].
    + split; simpl; [rewrite weight_app, !weight_one, Ef, !length_app; simpl; lia|by eexists [_], []; rewrite app_nil_r|].
      intros r [[H|H]%elem_of_app|H]%elem_of_app; [by left|right; exists q; by split; [left|]|right]. rewrite <- Eo in H.
      apply list_elem_of_In, filter_In in H as [H _]. exists q. split; [by left|by apply list_elem_of_In].
  - destruct (rt_fast_applied q) eqn:Ef.
    + destruct (List.filter _ _) as [|o os] eqn:Eo; simpl.
      * split; simpl; [rewrite weight_one, Ef, !length_app; simpl; lia|by eexists [], [_]; rewrite app_nil_r|]. rewrite app_nil_r. auto.
      * split; simpl; [rewrite weight_app, !weight_one, Ef; simpl; lia|by eexists [_], []; rewrite app_nil_r|].
        intros r [H|H]%elem_of_app; [by left|right]. rewrite <- Eo in H. apply list_elem_of_In, filter_In in H as [H _]. exists q.
        split; [by left|by apply list_elem_of_In].
    + destruct (negb (DrainComplete _ _)); simpl.
      * split; simpl; [rewrite weight_app, !weight_one, Ef; lia|by eexists [_], []; rewrite app_nil_r|auto].
      * split; simpl; [rewrite weight_one, Ef, !length_app; simpl; lia|by eexists [], [_]; rewrite app_nil_r|auto].
Qed.

Lemma swept_all now l : forall w s, swept l w (sweep_all now l w s).1.
Proof.
  induction l as [|q l IH]; intros w s; [apply swept_refl|]. simpl. pose proof (swept_one now q w s) as [A1 (k1 & d1 & A2 & A3 & A4) A5].
  destruct (sweep_one now q w s) as [w1 s1]. simpl in *. destruct (IH w1 s1) as [B1 (k2 & d2 & B2 & B3 & B4) B5]. destruct (sweep_all now l w1 s1) as [w2 s2]. simpl in *.
  change (q :: l) with ([q] ++ l)%list. split.
  - rewrite weight_app. lia.
  - exists (k1 ++ k2)%list, (d1 ++ d2)%list. rewrite B2, B3, A2, A3, !app_assoc. split; [done|]. split; [done|].
    rewrite !map_app in *. rewrite <- A4, <- B4. simpl. solve_Permutation.
  - intros r [[H|(q0 & Hq & Hr)]%A5|(q0 & Hq & Hr)]%B5; [by left|right|right]; exists q0; (split; [|done]); apply elem_of_app; auto.
Qed.

(** ** Every call ends *)

(** The removed nodes exist. *)
Definition refs_ok (s : Scheduler) : Prop := forall r, removed_by (sc_retired s) r -> is_Some (node_of (sc_heap s) r).

Lemma refs_shrink s s' : shrinks s s' -> refs_ok s -> refs_ok s'.
Proof.
  intros H Hok r (q & Hq & Hin). destruct (sh_requests _ _ H q Hq) as (q0 & H0 & E). apply (sh_node s s' r H), Hok. exists q0. by rewrite <- E.
Qed.

Lemma announce_all l s : each announce l s = (fold_left (fun s q => announce q s) l s).
Proof. done. Qed.
Lemma announce_same q s : sc_live (announce q s) = sc_live s /\ sc_retired (announce q s) = sc_retired s /\ sc_heap (announce q s) = sc_heap s.
Proof. unfold announce. by destruct (rq_complete _). Qed.
Lemma shrinks_announce q s : shrinks s (announce q s).
Proof. destruct (announce_same q s) as (H1 & H2 & H3). by apply shrinks_same; rewrite ?H3. Qed.
Lemma shrinks_each {A} (f : A -> Scheduler -> Scheduler) l s : (forall x s, shrinks s (f x s)) -> shrinks s (each f l s).
Proof. apply mv_each, shrinks_moves. Qed.

Section ends.
Context (op_close : NodeRuntime -> Status) (tick : Scheduler -> option Scheduler) (bound : nat).
Hypothesis tick_shrinks : forall s s', tick s = Some s' -> shrinks s s'.
Hypothesis tick_ends : forall s, (List.length (sc_live s) < bound)%nat -> refs_ok s -> is_Some (tick s).

Lemma node_done_ends r s : (List.length (sc_live s) <= bound)%nat -> refs_ok s -> is_Some (OnNodeDone tick r s).
Proof.
  intros Hb Hok. unfold OnNodeDone, Detach. case_bool_decide as Hr; simpl; [|by eexists]. set (s1 := on_bound _ _).
  destruct (sc_retired (CheckAllClosed s1)); [by eexists|]. pose proof (erase_first_length r _ Hr) as Hl.
  assert (Hn : (0 < List.length (sc_live s))%nat) by (destruct (sc_live s); [by apply not_elem_of_nil in Hr|simpl; lia]).
  apply tick_ends.
  - pose proof (sh_live _ _ (mv_closed _ shrinks_moves s1)). unfold s1 in *. simpl in *. lia.
  - apply (refs_shrink s); [|done]. etransitivity; [|apply (mv_closed _ shrinks_moves)]. split; simpl; [lia|done|by apply no_reopen_refl|]. intros q Hq. by exists q.
Qed.

Lemma retry_blocked_ends r s : (List.length (sc_live s) <= bound)%nat -> refs_ok s -> is_Some (RetryBlocked op_close tick r s).
Proof.
  intros Hb Hok. unfold RetryBlocked. assert (Hp : shrinks s (if HasParked r s then RetryParked r s else (true, s)).2)
    by (destruct (HasParked r s); [apply (mv_retry_parked _ shrinks_moves)|done]).
  destruct (if HasParked r s then RetryParked r s else (true, s)) as [go s1]. simpl in Hp. destruct go; simpl; [|by eexists].
  destruct (sc_eos s1 !! r) as [ports|]; [|by eexists]. pose proof (mv_eos_pass _ shrinks_moves r ports [] [] s1) as He.
  destruct (eos_pass r ports [] [] s1) as [[kept wake] s2]. simpl in He. destruct kept; [|by eexists]. set (s3 := each MarkReady wake _).
  assert (H3 : shrinks s s3).
  { etransitivity; [exact Hp|]. etransitivity; [exact He|]. etransitivity; [apply (mv_eos _ shrinks_moves (delete r))|]. apply shrinks_each, shrinks_mark. }
  assert (H4 : shrinks s (if bool_decide (n_state (nd r s3) = kFailed) then s3 else CloseNode op_close r s3)).
  { destruct (bool_decide _); [done|]. etransitivity; [exact H3|apply (mv_close _ shrinks_moves)]. }
  apply node_done_ends; [pose proof (sh_live _ _ H4); lia|by eapply refs_shrink].
Qed.

(** A node that [TryCloseCancelled] closed is one open node less. *)
Lemma try_close_ends r s : (List.length (sc_live s) <= bound)%nat -> refs_ok s -> is_Some (node_of (sc_heap s) r) ->
  exists b s', TryCloseCancelled op_close tick r s = Some (b, s') /\ (b = true -> (open_count s' < open_count s)%nat).
Proof.
  intros Hb Hok Hr. unfold TryCloseCancelled. destruct (negb (busy_ (nd r s) =? 0)); [by eexists _, _|].
  destruct (finished (nd r s)) eqn:Ef. { destruct (node_done_ends r s Hb Hok) as [s1 ->]. by eexists _, _. }
  destruct (bool_decide (n_state (nd r s) = kClosing)); [by eexists _, _|]. destruct (negb (async_pending_ (nd r s) =? 0)); [by eexists _, _|].
  set (leave := if bool_decide (n_state (nd r s) = kAsyncPending) then _ else _).
  assert (Hl : shrinks s leave.2 /\ finished (nd r leave.2) = false).
  { unfold leave. case_bool_decide as Ha; [|done]. unfold Node.TryLeaveAsyncPending, Node.cas_state. rewrite decide_True by done. cbn [snd].
    rewrite nd_set_eq by done. split; [|done]. apply shrinks_node. by rewrite Ef. }
  destruct leave as [free s1]. simpl in Hl. destruct Hl as [Hl Hf1]. destruct free; simpl; [|by eexists _, _].
  pose proof (sh_live _ _ Hl) as Hlive. pose proof (refs_shrink _ _ Hl Hok) as Hok1. pose proof (sh_node _ _ r Hl Hr) as Hr1.
  destruct (bool_decide (n_state (nd r s) = kNodeDraining)).
  - destruct (retry_blocked_ends r s1 ltac:(lia) Hok1) as [s2 E]. rewrite E. eexists _, _. split; [done|]. intros Hfin.
    apply (open_less r); [|done|done|done]. etransitivity; [exact Hl|]. by apply (mv_retry_blocked _ shrinks_moves op_close tick tick_shrinks r).
  - pose proof (calm_draining (nd r s1)) as Hc. destruct (Node.TryEnterDraining (nd r s1)) as [won n']. simpl in Hc.
    pose proof (mv_node _ shrinks_moves r n' s1 Hc) as Hs2. destruct (negb won && _); [by eexists _, _|].
    set (s2 := set_nd r n' s1) in *. pose proof (mv_close _ shrinks_moves op_close r s2) as Hs3.
    assert (Hs : shrinks s (CloseNode op_close r s2)) by (etransitivity; [exact Hl|]; by etransitivity).
    destruct (node_done_ends r (CloseNode op_close r s2)) as [s4 E]; [pose proof (sh_live _ _ Hs); lia|by eapply refs_shrink|].
    rewrite E. eexists _, _. split; [done|]. intros _. pose proof (mv_node_done _ shrinks_moves tick tick_shrinks _ _ _ E) as Hs4.
    apply (open_less r); [by etransitivity|done|done|]. apply (finished_stays r (CloseNode op_close r s2)); [done|by apply (sh_node s)|].
    rewrite CloseNode_eq. unfold on_nd. rewrite nd_set_eq by (by apply (sh_node s1)). done.
Qed.

Lemma close_all_ends l : forall p s, (List.length (sc_live s) <= bound)%nat -> refs_ok s -> (forall r, r ∈ l -> is_Some (node_of (sc_heap s) r)) ->
  exists b s', close_all op_close tick l p s = Some (b, s') /\ shrinks s s' /\ (b = true -> p = true \/ (open_count s' < open_count s)%nat).
Proof.
  induction l as [|r l IH]; intros p s Hb Hok Hl; simpl; [exists p, s; split; [done|]; split; [done|auto]|].
  destruct (try_close_ends r s Hb Hok) as (c & s1 & E & Hc); [apply Hl; by left|]. rewrite E.
  pose proof (mv_try_close _ shrinks_moves op_close tick tick_shrinks _ _ _ _ E) as Hs1.
  destruct (IH (c || p) s1) as (b & s2 & E2 & Hs2 & Hb2).
  { pose proof (sh_live _ _ Hs1). lia. }
  { by eapply refs_shrink. }
  { intros r' Hr'. apply (sh_node s); [done|]. apply Hl. by right. }
  exists b, s2. split; [done|]. split; [by etransitivity|]. intros Hbt. pose proof (sh_open _ _ Hs1). pose proof (sh_open _ _ Hs2).
  destruct (Hb2 Hbt) as [Hcp|]; [|right; lia]. destruct c; [right; specialize (Hc eq_refl); lia|by left].
Qed.

Lemma nudge_ends r s : (List.length (sc_live s) <= bound)%nat -> refs_ok s -> is_Some (node_of (sc_heap s) r) -> is_Some (nudge op_close tick r s).
Proof.
  intros Hb Hok Hr. unfold nudge. destruct (try_close_ends r s Hb Hok Hr) as (b & s' & E & _).
  destruct (n_state (nd r s)); try (by eexists); [| |by apply retry_blocked_ends]; (destruct (cancelled_ (nd r s)); [rewrite E|]; by eexists).
Qed.
Lemma nudge_all_ends l : forall s, (List.length (sc_live s) <= bound)%nat -> refs_ok s -> (forall r, r ∈ l -> is_Some (node_of (sc_heap s) r)) ->
  is_Some (nudge_all op_close tick l s).
Proof.
  induction l as [|r l IH]; intros s Hb Hok Hl; simpl; [by eexists|]. destruct (nudge_ends r s Hb Hok) as [s1 E]; [apply Hl; by left|]. rewrite E.
  pose proof (mv_nudge _ shrinks_moves op_close tick tick_shrinks _ _ _ E) as Hs1. apply IH; [pose proof (sh_live _ _ Hs1); lia|by eapply refs_shrink|].
  intros r' Hr'. apply (sh_node s); [done|]. apply Hl. by right.
Qed.

(** The sweep with the table it leaves. *)
Lemma shrinks_sweep now s : let '(w, s1) := sweep_all now (sc_retired s) (MkSweep [] [] [] []) s in
  shrinks s (with_retired (sw_kept w) s1) /\ (weight (sw_kept w) + List.length (sw_done w) + List.length (sw_timed_out w) <= weight (sc_retired s))%nat /\
  forall r, r ∈ sw_close w -> removed_by (sc_retired s) r.
Proof.
  pose proof (swept_all now (sc_retired s) (MkSweep [] [] [] []) s) as [H1 (k & d & H2 & H3 & H4) H5].
  pose proof (mv_sweep_all _ shrinks_moves now (sc_retired s) (MkSweep [] [] [] []) s) as Hs.
  destruct (sweep_all _ _ _ _) as [w s1]. simpl in *. change (weight []) with 0%nat in H1. split; [|split; [lia|]].
  - destruct Hs as [A1 _ A3 _]. split; simpl; [done|lia|done|]. intros q Hq. subst k. assert (Hin : rt_request q ∈ map rt_request (sc_retired s)).
    { rewrite <- H4. apply list_elem_of_In, in_map, in_or_app. left. by apply list_elem_of_In. }
    apply list_elem_of_In, in_map_iff in Hin as (q0 & E & Hq0). exists q0. split; [by apply list_elem_of_In|done].
  - intros r Hr. destruct (H5 r Hr) as [H|H]; [by apply not_elem_of_nil in H|done].
Qed.

Lemma complete_ends now s : (List.length (sc_live s) <= bound)%nat -> refs_ok s ->
  exists b s', CompleteRetired op_close tick now s = Some (b, s') /\ shrinks s s' /\ (b = true -> (work_left s' < work_left s)%nat).
Proof.
  intros Hb Hok. unfold CompleteRetired. pose proof (shrinks_sweep now s) as Hsw. destruct (sweep_all _ _ _ _) as [w s1]. destruct Hsw as (Hs1 & Hw & Hc).
  set (s2 := each _ (sw_timed_out w) _). set (p := match sw_done w with [] => _ | _ => _ end).
  assert (Hs2 : shrinks s s2) by (etransitivity; [exact Hs1|]; apply shrinks_each; intros; by apply shrinks_same).
  assert (Hr2 : weight (sc_retired s2) = weight (sw_kept w)).
  { unfold s2. assert (H : forall l t, sc_retired (each (fun v => report (DrainTimeout v)) l t) = sc_retired t).
    { intros l. induction l as [|v l IH]; intros t; [done|]. simpl. by rewrite IH. } by rewrite H. }
  destruct (close_all_ends (sw_close w) p s2) as (b & s3 & E & Hs3 & Hb3).
  { pose proof (sh_live _ _ Hs2). lia. }
  { by eapply refs_shrink. }
  { intros r Hr. apply (sh_node s); [done|]. by apply Hok, Hc. }
  rewrite E. assert (Hs4 : shrinks s3 (each announce (sw_done w) s3)) by apply shrinks_each, shrinks_announce.
  eexists _, _. split; [done|]. split; [etransitivity; [exact Hs2|]; by etransitivity|]. intros Hbt. rewrite !work_left_eq.
  pose proof (sh_weight _ _ Hs4). pose proof (sh_weight _ _ Hs3). pose proof (sh_open _ _ Hs4). pose proof (sh_open _ _ Hs3). pose proof (sh_open _ _ Hs2).
  destruct (Hb3 Hbt) as [Hp|Ho]; [|lia]. unfold p in Hp. destruct (sw_done w), (sw_timed_out w); simpl in *; try done; lia.
Qed.

Lemma complete_loop_ends now fuel : forall s, (List.length (sc_live s) <= bound)%nat -> refs_ok s -> (work_left s < fuel)%nat ->
  exists s', complete_loop op_close tick fuel now s = Some s' /\ shrinks s s'.
Proof.
  induction fuel as [|f IH]; intros s Hb Hok Hf; [lia|]. simpl. destruct (complete_ends now s Hb Hok) as (b & s1 & -> & Hs1 & Hw).
  destruct b; [|by exists s1]. specialize (Hw eq_refl). destruct (IH s1) as (s2 & -> & Hs2); [pose proof (sh_live _ _ Hs1); lia|by eapply refs_shrink|lia|].
  exists s2. split; [done|by etransitivity].
Qed.

Lemma tick_body_ends now s : (List.length (sc_live s) <= bound)%nat -> refs_ok s -> exists s', tick_body op_close tick now s = Some s' /\ shrinks s s'.
Proof.
  intros Hb Hok. unfold tick_body. destruct (negb _); [by exists s|]. pose proof (mv_retry_injections _ shrinks_moves s) as Hs1. set (s1 := RetryInjections s) in *.
  assert (Hb1 : (List.length (sc_live s1) <= bound)%nat) by (pose proof (sh_live _ _ Hs1); lia). pose proof (refs_shrink _ _ Hs1 Hok) as Hok1.
  destruct (sc_retired s1) as [|q l] eqn:E; [by exists s1|]. rewrite <- E.
  destruct (nudge_all_ends (List.concat (map (fun q => rq_nodes (rt_request q)) (sc_retired s1))) s1 Hb1 Hok1) as [s2 E2].
  { intros r Hr. apply Hok1. apply list_elem_of_In, in_concat in Hr as (k & Hk & Hr). apply in_map_iff in Hk as (q0 & <- & Hq0).
    exists q0. split; by apply list_elem_of_In. }
  rewrite E2. pose proof (mv_nudge_all _ shrinks_moves op_close tick tick_shrinks _ _ _ E2) as Hs2.
  destruct (complete_loop_ends now (S (work_left s2)) s2) as (s3 & E3 & Hs3); [pose proof (sh_live _ _ Hs2); lia|by eapply refs_shrink|lia|].
  exists s3. split; [exact E3|]. etransitivity; [exact Hs1|]. by etransitivity.
Qed.

End ends.

(** ** [Tick] in a relation *)

Definition completes_in (R : relation Scheduler) : Prop := forall op_close tick now s b s',
  (forall s s', tick s = Some s' -> R s s') -> CompleteRetired op_close tick now s = Some (b, s') -> R s s'.

Lemma tick_in R : moves R -> completes_in R -> forall op_close now fuel s s', tick op_close fuel now s = Some s' -> R s s'.
Proof.
  intros M HC op_close now fuel. pose proof (mv_preorder R M). induction fuel as [|f IH]; intros s s'; [done|]. simpl. unfold tick_body.
  destruct (negb _); [by intros [= <-]|]. pose proof (mv_retry_injections R M s) as H1. set (s1 := RetryInjections s) in *.
  destruct (sc_retired s1) as [|q l] eqn:E; [by intros [= <-]|]. rewrite <- E. destruct (nudge_all _ _ _ _) as [s2|] eqn:E2; [|done].
  apply (mv_nudge_all R M op_close _ IH) in E2. intros HL. assert (H12 : R s s2) by by transitivity s1. transitivity s2; [exact H12|]. clear H12 E2 H1 E.
  revert HL. generalize (S (work_left s2)). intros n. revert s2. induction n as [|n IHn]; intros s2 HL; [done|]. simpl in HL.
  destruct (CompleteRetired _ _ _ _) as [[[] s3]|] eqn:E3; [| |done].
  - transitivity s3; [by eapply HC|by apply IHn].
  - injection HL as <-. by eapply HC.
Qed.

Lemma shrinks_complete : completes_in shrinks.
Proof.
  intros op_close tick now s b s' Ht H. unfold CompleteRetired in H. pose proof (shrinks_sweep now s) as Hsw. destruct (sweep_all _ _ _ _) as [w s1].
  destruct Hsw as (Hs1 & _). destruct (close_all _ _ _ _ _) as [[c s3]|] eqn:E; [|done]. injection H as <- <-.
  apply (mv_close_all _ shrinks_moves op_close tick Ht) in E. etransitivity; [exact Hs1|]. etransitivity; [|apply shrinks_each, shrinks_announce].
  etransitivity; [|exact E]. apply shrinks_each. intros. by apply shrinks_same.
Qed.

Lemma tick_total op_close now s : refs_ok s -> exists s', Tick op_close now s = Some s' /\ shrinks s s'.
Proof.
  intros Hok. assert (H : forall n s, (List.length (sc_live s) < n)%nat -> refs_ok s -> exists s', tick op_close n now s = Some s' /\ shrinks s s').
  { clear s Hok. induction n as [|n IH]; intros s Hl Hok; [lia|]. simpl. apply (tick_body_ends op_close (tick op_close n now) n); [| |lia|done].
    - apply tick_in; [apply shrinks_moves|apply shrinks_complete].
    - intros s1 H1 H2. destruct (IH s1 H1 H2) as (s2 & -> & _). by eexists. }
  apply H; [lia|done].
Qed.

(** C21: looking after the retired versions always comes to an end, however many
    nodes it closes and however often closing a node starts the look again,
    and it only ever shrinks what is left: no live node is added, no finished
    node is reopened, and no version is retired that was not waiting for it. *)
Theorem Tick_ends op_close now s : refs_ok s -> exists s', Tick op_close now s = Some s' /\ shrinks s s'.
Proof. apply tick_total. Qed.

Lemma Tick_ends_witness : exists s s', map (fun q => rq_nodes (rt_request q)) (sc_retired s) = [[1%nat]] /\ refs_ok s /\
  Tick CoordinatorProofs.opens 5000 s = Some s' /\ shrinks s s'.
Proof.
  destruct bypass_run as (_ & _ & _ & _ & _ & s & _ & _ & _ & _ & _ & _ & _ & Hq & Hn & _). exists s. assert (Hok : refs_ok s).
  { intros r (q & Hin & Hr). assert (He : rq_nodes (rt_request q) ∈ [[1%nat]]) by (rewrite <- Hq; by apply (list_elem_of_fmap_2 (fun q => rq_nodes (rt_request q)))).
    apply list_elem_of_singleton in He. rewrite He in Hr. apply list_elem_of_singleton in Hr as ->. by apply bool_decide_eq_true in Hn. }
  destruct (Tick_ends CoordinatorProofs.opens 5000 s Hok) as (s' & H1 & H2). by exists s'.
Defined.
