(* ===== verification/SchedulerTurns.v ===== *)
(** One turn of a node: every path of it gives the slot back exactly once, so
    slots and queued tasks always add up; every retired version is reported
    exactly once, and so is the end of the session. *)

From stdpp Require Import base numbers list strings gmap relations.
From Stdlib Require Import ZArith Lia Ascii String.
From S2P Require Import Prelude Types Double Json GraphSpec CapabilityTypes Packet EdgeChannel InputBinding NodeRuntime RuntimeTopology Coordinator VersionHistory Scheduler SchedulerInvoke SchedulerSamples SchedulerProofs.

Local Open Scope string_scope.
Local Open Scope Z_scope.

(** ** The functions a turn is made of *)

Lemma calm_begin n : calm n (Node.BeginInvoke n).
Proof.
  unfold Node.BeginInvoke. pose proof (calm_cas kReady kRunning (Node.with_counts (Word.u32 (in_flight_ n + 1)) (async_pending_ n) (available_slots_ n) n) eq_refl) as (H1 & H2 & H3 & H4).
  by destruct (Node.cas_state _ _ _).
Qed.
Lemma calm_fail st n : calm n (Node.Fail st n).
Proof. done. Qed.

(** A turn also begins requests of asynchronous nodes. *)
Definition steady (n n' : NodeRuntime) : Prop :=
  available_slots_ n' = available_slots_ n /\ max_parallelism_ n' = max_parallelism_ n /\ (finished n = true -> finished n' = true).
Record turn_moves (R : relation Scheduler) : Prop := {
  tm_moves :> moves R;
  tm_node r n s : steady (nd r s) n -> R s (set_nd r n s);
}.

(** A relation that the announcement of a fast stop is in. *)
Record stops_in (R : relation Scheduler) : Prop := {
  sp_fast s : R s (on_flags set_fast_stop s);
  sp_stopping s : R s (on_flags set_stopping s);
  sp_retired s : R s (apply_fast_all s);
}.

Lemma mv_fast_all R : moves R -> (forall l s, R s (with_retired l s)) -> forall s, R s (apply_fast_all s).
Proof.
  intros M Hr s. unfold apply_fast_all. set (f := fun (ls : list Retired * Scheduler) q => _).
  assert (H : forall l ls, R s ls.2 -> R s (fold_left f l ls).2).
  { intros l. induction l as [|q l IH]; intros ls Hls; [done|]. simpl. apply IH. unfold f. destruct (rt_fast_applied q); [done|].
    pose proof (mv_apply_fast R M q ls.2) as Hq. destruct (ApplyFastLocked q ls.2) as [q' s1]. by apply (mv_step R M s ls.2). }
  specialize (H (sc_retired s) ([], s) ltac:(simpl; apply (mv_preorder R M))). destruct (fold_left f _ _) as [l s1]. by apply (mv_step R M s s1).
Qed.

Section stopping.
Context (R : relation Scheduler).
Hypothesis M : moves R.
Hypothesis HC : completes_in R.
Hypothesis HS : stops_in R.
Context (op_close : NodeRuntime -> Status) (now : Z).
#[local] Instance stopping_pre : PreOrder R := mv_preorder R M.

Lemma mv_fast_stop s s' : Stop op_close true now s = Some s' -> R s s'.
Proof.
  unfold Stop. simpl. set (s1 := on_flags set_stopping _). assert (H1 : R s s1).
  { etransitivity; [apply (sp_fast _ HS)|]. etransitivity; [|apply (sp_stopping _ HS)]. apply (mv_each R M). intros. by apply (mv_on_nd R M). }
  set (s2 := each _ (sc_live s) (apply_fast_all s1)). assert (H2 : R s s2).
  { etransitivity; [exact H1|]. etransitivity; [apply (sp_retired _ HS)|]. apply (mv_each R M). intros r t. destruct (sc_bound t !! r); [|done].
    apply (mv_each R M). intros. apply (mv_on_ed R M). }
  set (s3 := each _ (t_edges _) s2). assert (H3 : R s s3) by (etransitivity; [exact H2|apply (mv_each R M); intros; apply (mv_on_ed R M)]).
  destruct (close_all _ _ _ _ _) as [[b s4]|] eqn:E; [|done]. apply (mv_close_all R M op_close _ (fun s s' => tick_in R M HC op_close now _ s s')) in E.
  intros (s5 & E5 & ->)%fmap_Some. apply (tick_in R M HC) in E5. etransitivity; [exact H3|]. etransitivity; [exact E|]. etransitivity; [exact E5|apply (mv_closed _ M)].
Qed.

Lemma mv_node_failed hooks r st s s' : node_failed op_close hooks now r st s = Some s' -> R s s'.
Proof.
  unfold node_failed. pose proof (mv_report _ M (NodeFailed r st) s eq_refl) as H1. destruct (_ && _); [|by intros [= <-]].
  intros H%mv_fast_stop. by etransitivity.
Qed.
Lemma mv_fail_finish hooks r st s s' : fail_and_finish op_close hooks now r st s = Some s' -> R s s'.
Proof.
  unfold fail_and_finish. destruct (node_failed _ _ _ _ _ _) as [s1|] eqn:E; [|done]. apply mv_node_failed in E.
  intros H%(mv_node_done R M _ (fun s s' => tick_in R M HC op_close now _ s s')). by etransitivity.
Qed.

End stopping.

Section turns.
Context (R : relation Scheduler).
Hypothesis M : turn_moves R.
Hypothesis HC : completes_in R.
Hypothesis HS : stops_in R.
Context (op_close : NodeRuntime -> Status) (now : Z).
#[local] Instance turns_pre : PreOrder R := mv_preorder R M.

Lemma mv_tick s s' : Tick op_close now s = Some s' -> R s s'.
Proof. apply (tick_in R M HC). Qed.
Lemma mv_calm f r s : (forall n, calm n (f n)) -> R s (on_nd f r s).
Proof. apply (mv_on_nd R M). Qed.
Lemma mv_tags tags s : R s (on_heap (fun h => MkHeap (h_nodes h) (h_edges h) (h_inputs h) tags) s).
Proof. rewrite on_heap_eq. by apply (mv_heap _ M). Qed.

Lemma mv_block_routes routes : forall b s, R s (block_routes routes b s).2.
Proof.
  induction routes as [|e routes IH]; intros b s; [done|]. simpl. destruct (negb _); [apply IH|]. destruct (Edge.full _); [|apply IH].
  destruct (Edge.MarkBackpressured _) as [m x]. etransitivity; [apply (mv_set_ed R M)|apply IH].
Qed.
Lemma mv_block_ports t id ports : forall b s, R s (block_ports t id ports b s).2.
Proof.
  induction ports as [|p ports IH]; intros b s; [done|]. simpl.
  assert (H : R s (match RoutesFor t id p with Some routes => block_routes routes b s | None => (b, s) end).2) by (destruct (RoutesFor t id p); [apply mv_block_routes|done]).
  destruct (match RoutesFor t id p with Some routes => _ | None => _ end) as [b' s']. etransitivity; [exact H|apply IH].
Qed.
Lemma mv_outputs_blocked r t s : R s (OutputsBlocked r t s).2.
Proof. apply mv_block_ports. Qed.

Lemma mv_park r e p s : R s (Park r e p s).
Proof. unfold Park. destruct (_ ≫= _); [apply (mv_parked _ M)|done]. Qed.
Lemma mv_push_route r p e s rep : R s (push_route r p e (s, rep)).1.
Proof.
  unfold push_route. destruct (HasParkedOn r e s); [apply mv_park|]. pose proof (push_edge_nodes e p (MkRouting (sc_heap s) rep 0 0)) as H.
  destruct (PushEdge _ _ _) as [o ro]. simpl in *. pose proof (mv_heap _ M s (ro_heap ro) H) as H1. destruct (bool_decide _); [|done].
  etransitivity; [exact H1|apply mv_park].
Qed.
Lemma mv_push_routes r p l : forall sr, R sr.1 (fold_left (fun sr x => push_route r p (re_edge x) sr) l sr).1.
Proof.
  induction l as [|x l IH]; intros [s rep]; [done|]. simpl. pose proof (mv_push_route r p (re_edge x) s rep) as H. etransitivity; [exact H|apply IH].
Qed.
Lemma mv_push_on k port p v s : R s (PushOnRoutes now k port p v s).2.
Proof.
  unfold PushOnRoutes. destruct (RuntimeTopology.Prepare _ _ _ _ _ _ _ _) as [[x|]|]; [|done|done]. set (l := List.filter _ _).
  pose proof (mv_push_routes (si_node k) (Some x) l (s, Some empty_report)) as H. destruct (fold_left _ l _) as [s1 rep]. simpl in *.
  etransitivity; [exact H|]. apply (mv_each R M), (mv_mark _ M).
Qed.

Lemma mv_emit k port p s : R s (SinkEmit now k port p s).2.
Proof.
  unfold SinkEmit. set (s1 := on_nd _ (si_node k) s). assert (H1 : R s s1) by by apply mv_calm.
  set (c := (_ && _)%bool). destruct (if c then take_event (seq (header p)) (si_pending k) else None) as [[detail rest]|].
  - destruct (MakeFormatEventPacket _ _ _ _) as [ev tags]. set (s2 := on_heap _ s1). assert (H2 : R s s2) by (etransitivity; [exact H1|apply mv_tags]).
    pose proof (mv_push_on k port ev true s2) as H3. destruct (PushOnRoutes now k port ev true s2) as [st s3]. simpl in H3.
    assert (H03 : R s s3) by by transitivity s2. destruct (negb (StatusOps.ok st)); [done|].
    pose proof (mv_push_on (with_pending rest k) port p false s3) as H4. destruct (PushOnRoutes _ _ _ _ _ s3) as [st' s4]. simpl in *. by transitivity s3.
  - pose proof (mv_push_on k port p false s1) as H3. destruct (PushOnRoutes _ _ _ _ _ s1) as [st s3]. simpl in *. by transitivity s1.
Qed.
Lemma mv_script {W} (x : script W) : forall k s, R s (run_script now k x s).2.
Proof.
  induction x as [res w|port p next IH|ty sev d next IH]; intros k s; [done| |].
  - simpl. pose proof (mv_emit k port p s) as H. destruct (SinkEmit now k port p s) as [[st k'] s1]. simpl in H. etransitivity; [exact H|apply IH].
  - cbn [run_script]. unfold SinkPublish. etransitivity; [|apply IH]. by apply (mv_report _ M).
Qed.

Lemma mv_wake e s s' : wake_producer op_close now e s = Some s' -> R s s'.
Proof.
  unfold wake_producer. destruct (Edge.ClearBackpressure _) as [c x]. pose proof (mv_set_ed R M e x s) as H1. set (s1 := set_ed e x s) in *.
  destruct c; simpl; [|by intros [= <-]]. destruct (producer_of e s1) as [up|]; [|by intros [= <-]].
  assert (H2 : R s (if HasParked up s1 then (RetryParked up s1).2 else s1)).
  { destruct (HasParked up s1); [|done]. etransitivity; [exact H1|apply (mv_retry_parked R M)]. }
  intros H. etransitivity; [exact H2|]. destruct (bool_decide _).
  - by apply (mv_retry_blocked R M op_close _ mv_tick) in H.
  - injection H as <-. apply (mv_mark _ M).
Qed.
Lemma mv_wakes l : forall s s', wake_producers op_close now l s = Some s' -> R s s'.
Proof.
  induction l as [|e l IH]; intros s s'; simpl; [by intros [= <-]|]. destruct (wake_producer op_close now e s) as [s1|] eqn:E; [|done].
  intros H. etransitivity; [by eapply mv_wake|by apply IH].
Qed.
Lemma mv_acquire i s b s' : AcquireBatch op_close now i s = Some (b, s') -> R s s'.
Proof.
  unfold AcquireBatch. destruct (h_inputs (sc_heap s) !! i) as [bnd|]; [|by intros [= _ <-]].
  destruct (TryAcquire _ _ _) as [[[batch bnd'] edges]|]; [|done]. set (s1 := on_heap _ s).
  assert (H1 : R s s1) by (unfold s1; rewrite on_heap_eq; by apply (mv_heap _ M)).
  destruct (wake_producers _ _ _ _) as [s2|] eqn:E2; [|done]. apply mv_wakes in E2. intros H. etransitivity; [exact H1|]. etransitivity; [exact E2|].
  destruct (sc_retired s2); [by injection H as _ <-|]. apply fmap_Some in H as (s3 & E3 & H). injection H as _ ->. by apply mv_tick.
Qed.

(** A change with the slot of [r] given back once in the middle of it. *)
Definition gives (r : nat) (s s' : Scheduler) : Prop :=
  exists s1 s2, R s s1 /\ (s2 = on_nd Node.CancelSchedule r s1 \/ s2 = on_nd Node.EndInvoke r s1) /\ R s2 s'.
Lemma gives_cancel r s s' : R (on_nd Node.CancelSchedule r s) s' -> gives r s s'.
Proof. intros H. exists s, (on_nd Node.CancelSchedule r s). split; [done|]. split; [by left|done]. Qed.
Lemma gives_end r s s' : R (on_nd Node.EndInvoke r s) s' -> gives r s s'.
Proof. intros H. exists s, (on_nd Node.EndInvoke r s). split; [done|]. split; [by right|done]. Qed.
Lemma gives_pre r a b c : R a b -> gives r b c -> gives r a c.
Proof. intros H (s1 & s2 & H1 & H2 & H3). exists s1, s2. split; [by transitivity b|done]. Qed.
Lemma gives_post r a b c : gives r a b -> R b c -> gives r a c.
Proof. intros (s1 & s2 & H1 & H2 & H3) H. exists s1, s2. split; [done|]. split; [done|by transitivity b]. Qed.
Lemma mv_if_mark (b : bool) r s : R s (if b then MarkReady r s else s).
Proof. destruct b; [apply (mv_mark _ M)|done]. Qed.

Section operators.
Context {W : Type} (op_process : W -> nat -> ProcessRequest -> script W) (hooks : Attached).

Lemma gives_call r req k w s res w' s' : RunProcessCall op_close op_process hooks now r req k w s = Some (res, w', s') -> gives r s s'.
Proof.
  unfold RunProcessCall. pose proof (mv_script (op_process w r req) k s) as H1. destruct (run_script now k (op_process w r req) s) as [[out w1] s1]. simpl in H1.
  intros H. apply (gives_pre r s s1); [exact H1|]. destruct out as [v|st]; [by injection H as _ _ <-; apply gives_end|].
  destruct (cancelled_ (nd r s1)); [by injection H as _ _ <-; apply gives_end|]. apply fmap_Some in H as (s2 & E & H). injection H as _ _ ->.
  apply (gives_pre r s1 (on_nd (Node.Fail st) r s1)); [by apply mv_calm|]. apply gives_end. by apply (mv_fail_finish R M HC HS) in E.
Qed.

Lemma mv_finish r w s w' s' : FinishNode op_close op_process hooks now r w s = Some (w', s') -> R s s'.
Proof.
  unfold FinishNode. set (flushed := match sc_bound s !! r with Some t => _ | None => _ end).
  assert (H1 : forall w1 s1, flushed = Some (w1, s1) -> R s s1).
  { unfold flushed. intros w0 s0. destruct (sc_bound s !! r) as [t|]; [|by intros [= _ <-]]. destruct (cancelled_ (nd r s)); [by intros [= _ <-]|]. set (s1 := on_nd _ r s).
    assert (Hs1 : R s s1) by by apply mv_calm. set (k := MkSink _ _ _ _ _). set (x := op_process _ _ _).
    pose proof (mv_script x k s1) as Hx. destruct (run_script now k x s1) as [[out w1] s2]. simpl in Hx. assert (Hs2 : R s s2) by by transitivity s1.
    destruct out as [v|st]; [by intros [= _ <-]|]. destruct (cancelled_ (nd r s2)); [by intros [= _ <-]|].
    intros (s3 & E & H)%fmap_Some. injection H as _ ->. etransitivity; [exact Hs2|].
    etransitivity; [apply (mv_calm (Node.Fail st) r), calm_fail|]. by apply (mv_node_failed R M HC HS) in E. }
  destruct flushed as [[w1 s1]|]; [|done]. specialize (H1 w1 s1 eq_refl). set (s2 := on_eos _ s1). intros (s3 & E & H)%fmap_Some. injection H as _ ->.
  etransitivity; [exact H1|]. etransitivity; [apply (mv_eos _ M)|]. by apply (mv_retry_blocked R M op_close _ mv_tick) in E.
Qed.
Lemma mv_try_finish r w s won w' s' : try_finish op_close op_process hooks now r w s = (won, Some (w', s')) -> R s s'.
Proof.
  unfold try_finish. pose proof (calm_draining (nd r s)) as Hc. destruct (Node.TryEnterDraining (nd r s)) as [b n]. simpl in Hc.
  pose proof (mv_node _ M r n s Hc) as H1. destruct b; intros H.
  - injection H as _ H. apply mv_finish in H. etransitivity; [exact H1|exact H].
  - by injection H as _ _ <-.
Qed.

Lemma gives_source r t w s w' s' : RunSource op_close op_process hooks now r t w s = Some (w', s') -> gives r s s'.
Proof.
  unfold RunSource. destruct (paused_ _ && _); [by intros [= _ <-]; apply gives_cancel|]. destruct (stopping_ _ || _).
  { intros H. apply gives_cancel. destruct (try_finish _ _ _ _ _ _ _) as [won out] eqn:E. simpl in H. subst out. by apply mv_try_finish in E. }
  set (s1 := on_nd Node.BeginInvoke r s). assert (H1 : R s s1) by apply (mv_calm Node.BeginInvoke), calm_begin.
  destruct (RunProcessCall _ _ _ _ _ _ _ _ s1) as [[[[[]|] w1] s2]|] eqn:E; [| | |done]; apply gives_call in E; intros H; apply (gives_pre r s s1 _ H1), (gives_post r s1 s2 _ E).
  - destruct (held_ (nd r s2)); [by injection H as _ <-|]. pose proof (mv_outputs_blocked r t s2) as Hb. destruct (OutputsBlocked r t s2) as [b s3]. simpl in Hb.
    injection H as _ <-. etransitivity; [exact Hb|]. destruct b; [done|apply (mv_mark _ M)].
  - destruct (try_finish _ _ _ _ _ _ _) as [won out] eqn:E2. simpl in H. subst out. by apply mv_try_finish in E2.
  - by injection H as _ <-.
Qed.

Lemma mv_begin r b s : R s (begin_batch r b s).2.
Proof.
  unfold begin_batch. simpl. etransitivity; [by apply (mv_calm (fun n => Node.with_parameters (Params.SwitchAtPacketBoundary (FirstSeq b) (parameters_ n)).2 n) r)|].
  etransitivity; [apply (mv_calm Node.BeginInvoke), calm_begin|]. by apply mv_calm.
Qed.

Lemma gives_process r t i w s w' s' : RunProcess op_close op_process hooks now r t i w s = Some (w', s') -> gives r s s'.
Proof.
  unfold RunProcess. destruct (AcquireBatch _ _ _ _) as [[[b|] s1]|] eqn:Ea; [| |done]; apply mv_acquire in Ea; intros H; apply (gives_pre r s s1 _ Ea).
  - pose proof (mv_begin r b s1) as Hb. destruct (begin_batch r b s1) as [p s2]. simpl in Hb. destruct (MoveBatchInto b) as [names inputs].
    apply (gives_pre r s1 s2 _ Hb). destruct (RunProcessCall _ _ _ _ _ _ _ _ s2) as [[[[v|] w1] s3]|] eqn:E; [| |done]; apply gives_call in E; apply (gives_post r s2 s3 _ E).
    + destruct (held_ (nd r s3)); [by injection H as _ <-|]. destruct (may_be_ready i s3); [injection H as _ <-; apply (mv_mark _ M)|].
      destruct (input_ended i s3); [|by injection H as _ <-]. destruct (try_finish _ _ _ _ _ _ _) as [won out] eqn:E2. simpl in H. subst out. by apply mv_try_finish in E2.
    + by injection H as _ <-.
  - apply gives_cancel. set (s2 := on_nd Node.CancelSchedule r s1) in *. destruct (input_ended i s2); [|injection H as _ <-; apply mv_if_mark].
    destruct (try_finish _ _ _ _ _ _ _) as [won [[w1 s3]|]] eqn:E2; [|by destruct won]. apply mv_try_finish in E2. destruct won; injection H as _ <-; [done|].
    etransitivity; [exact E2|apply mv_if_mark].
Qed.

Lemma mv_park_async r z s : R s (ParkAsync r z s).
Proof.
  unfold ParkAsync. set (s1 := on_nd Node.EnterAsyncPending r s). assert (H1 : R s s1) by (apply mv_calm; intros n; by apply calm_cas).
  set (freed := if z then _ else _). destruct freed; [|done]. unfold Node.TryLeaveAsyncPending. pose proof (calm_cas kAsyncPending kReady (nd r s1) eq_refl) as Hc.
  destruct (Node.cas_state kAsyncPending kReady (nd r s1)) as [g n]. simpl in Hc. etransitivity; [exact H1|]. etransitivity; [by apply (mv_node _ M r n)|].
  apply mv_if_mark.
Qed.

Lemma gives_async r t i w s w' s' : RunAsync op_close op_process hooks now r t i w s = Some (w', s') -> gives r s s'.
Proof.
  unfold RunAsync. destruct (_ <=? _); [intros [= _ <-]; apply gives_cancel, mv_park_async|].
  destruct (AcquireBatch _ _ _ _) as [[[b|] s1]|] eqn:Ea; [| |done]; apply mv_acquire in Ea; intros H; apply (gives_pre r s s1 _ Ea).
  - destruct (hk_async hooks); cbn [negb] in H.
    + pose proof (mv_begin r b s1) as Hb. destruct (begin_batch r b s1) as [p s2]. simpl in Hb. destruct (MoveBatchInto b) as [names inputs]. apply (gives_pre r s1 s2 _ Hb).
      set (s3 := on_nd Node.BeginAsync r s2) in *. set (s4 := report _ s3) in *. apply (gives_pre r s2 s4).
      { etransitivity; [by apply (tm_node _ M r (Node.BeginAsync (nd r s2)))|]. by apply (mv_report _ M). }
      apply gives_end. set (s5 := on_nd Node.EndInvoke r s4) in *. destruct (cancelled_ _ || _); [by injection H as _ <-|].
      destruct (may_be_ready i s5 || _); injection H as _ <-; [apply (mv_mark _ M)|done].
    + apply fmap_Some in H as (s2 & E & H). injection H as _ ->. apply gives_cancel. apply (mv_fail_finish R M HC HS) in E. etransitivity; [|exact E]. by apply mv_calm.
  - apply gives_cancel. set (s2 := on_nd Node.CancelSchedule r s1) in *. destruct (input_ended i s2); [|injection H as _ <-; apply mv_if_mark].
    destruct (try_finish _ _ _ _ _ _ _) as [won [[w1 s3]|]] eqn:E2; [|by destruct won]. apply mv_try_finish in E2. destruct won; injection H as _ <-; [done|].
    etransitivity; [exact E2|]. destruct (_ =? 0); [done|apply mv_park_async].
Qed.

Lemma gives_body r topo w s w' s' : InvokeBody op_close op_process hooks now r topo w s = Some (w', s') -> gives r s s'.
Proof.
  unfold InvokeBody. destruct (negb (Node.schedulable _)); [by intros [= _ <-]; apply gives_cancel|].
  destruct (fast_stop_ _ || _); [by intros [= _ <-]; apply gives_cancel|]. destruct (held_ _); [by intros [= _ <-]; apply gives_cancel|].
  destruct topo as [t|]; [|by intros [= _ <-]; apply gives_cancel].
  assert (Hp : R s (if HasParked r s then RetryParked r s else (true, s)).2) by (destruct (HasParked r s); [apply (mv_retry_parked R M)|done]).
  destruct (if HasParked r s then RetryParked r s else (true, s)) as [un s1]. simpl in Hp. intros H. apply (gives_pre r s s1 _ Hp). destruct un; simpl in H.
  2:{ injection H as _ <-. apply gives_cancel. apply mv_if_mark. }
  pose proof (mv_outputs_blocked r t s1) as Hb. destruct (OutputsBlocked r t s1) as [blocked s2]. simpl in Hb. apply (gives_pre r s1 s2 _ Hb). destruct blocked.
  - apply gives_cancel. set (s3 := on_nd Node.CancelSchedule r s2) in *. pose proof (mv_outputs_blocked r t s3) as Hb3.
    destruct (OutputsBlocked r t s3) as [b s4]. simpl in Hb3. injection H as _ <-. etransitivity; [exact Hb3|apply mv_if_mark].
  - destruct (Node.is_source _); [by apply gives_source in H|]. destruct (InputsFor _ _) as [i|]; [|by injection H as _ <-; apply gives_cancel].
    destruct (xc_async _); [by apply gives_async in H|by apply gives_process in H].
Qed.

(** A turn changes what calls change, and gives its slot back once. *)
Lemma gives_invoke r w s w' s' : Invoke op_close op_process hooks now r w s = Some (w', s') -> gives r s s'.
Proof.
  unfold Invoke. set (s1 := on_nd Node.EnterBusy r s). assert (H1 : R s s1) by by apply mv_calm.
  destruct (InvokeBody _ _ _ _ _ _ _ s1) as [[w1 s2]|] eqn:E; [|done]. apply gives_body in E. intros H. apply (gives_pre r s s1 _ H1), (gives_post r s1 s2 _ E).
  set (s3 := on_nd Node.ExitBusy r s2) in *. assert (H3 : R s2 s3) by by apply mv_calm. etransitivity; [exact H3|].
  destruct (cancelled_ _); [|by injection H as _ <-]. apply fmap_Some in H as ([b s4] & E2 & H). injection H as _ ->.
  by apply (mv_try_close R M op_close _ mv_tick) in E2.
Qed.

End operators.
End turns.

(** ** Slots *)

Definition queued (r : nat) (l : list nat) : Z := Z.of_nat (List.length (List.filter (fun x => bool_decide (x = r)) l)).
Lemma queued_app r l k : queued r (l ++ k) = queued r l + queued r k.
Proof. unfold queued. rewrite List.filter_app, length_app. lia. Qed.
Lemma queued_cons r x l : queued r (x :: l) = (if decide (x = r) then 1 else 0) + queued r l.
Proof. unfold queued. simpl. case_bool_decide; case_decide; simpl; try done; lia. Qed.
Lemma queued_nonneg r l : 0 <= queued r l.
Proof. unfold queued. lia. Qed.

(** Free slots, queued tasks and the slots of [extra] add up to all slots. *)
Record slots (extra : nat -> Z) (s : Scheduler) : Prop := {
  sl_nodes : forall r n, node_of (sc_heap s) r = Some n ->
    0 <= available_slots_ n /\ max_parallelism_ n < 2 ^ 32 /\ available_slots_ n + queued r (sc_tasks s) + extra r = max_parallelism_ n;
  sl_tasks : forall r, r ∈ sc_tasks s -> is_Some (node_of (sc_heap s) r);
  sl_extra : forall r, 0 <= extra r;
}.
Definition nobody (_ : nat) : Z := 0.
Definition turn_of (r r' : nat) : Z := if decide (r' = r) then 1 else 0.

Definition keeps (s s' : Scheduler) : Prop :=
  List.length (h_nodes (sc_heap s')) = List.length (h_nodes (sc_heap s)) /\ forall extra, slots extra s -> slots extra s'.
#[export] Instance keeps_preorder : PreOrder keeps.
Proof. split; [by split|]. intros a b c [A1 A2] [B1 B2]. split; [congruence|]. intros extra H. by apply B2, A2. Qed.

Lemma keeps_same s s' : h_nodes (sc_heap s') = h_nodes (sc_heap s) -> sc_tasks s' = sc_tasks s -> keeps s s'.
Proof. intros H1 H2. split; [by rewrite H1|]. intros extra [A B C]. split; unfold node_of in *; rewrite ?H1, ?H2; done. Qed.

Lemma slots_node extra r n s : slots extra s -> (forall x, node_of (sc_heap s) r = Some x -> available_slots_ n = available_slots_ x /\ max_parallelism_ n = max_parallelism_ x) ->
  slots extra (set_nd r n s).
Proof.
  intros [A B C] Hn. destruct (node_of (sc_heap s) r) as [x|] eqn:E; [|by rewrite set_nd_out]. specialize (Hn x eq_refl) as [H1 H2].
  assert (Hlt : (r < List.length (h_nodes (sc_heap s)))%nat) by by eapply lookup_lt_Some. split; [| |done]; unfold set_nd, on_heap, node_of, set_node in *; simpl.
  - intros r' m Hm. destruct (decide (r = r')) as [<-|Hne].
    + rewrite list_lookup_insert_eq in Hm by done. injection Hm as <-. rewrite H1, H2. by apply A.
    + rewrite list_lookup_insert_ne in Hm by done. by apply A.
  - intros r' Hr. apply lookup_lt_is_Some. rewrite length_insert. by apply lookup_lt_is_Some, B.
Qed.
Lemma nd_of r s n : node_of (sc_heap s) r = Some n -> nd r s = n.
Proof. unfold nd. by intros ->. Qed.
Lemma set_nd_length r n s : List.length (h_nodes (sc_heap (set_nd r n s))) = List.length (h_nodes (sc_heap s)).
Proof. unfold set_nd, on_heap, set_node. simpl. apply length_insert. Qed.

(** Taking a slot and queueing a task, or giving one back. *)
Lemma slots_shift extra extra' r n d l s : slots extra s -> node_of (sc_heap s) r = Some n -> 0 <= available_slots_ d -> max_parallelism_ d = max_parallelism_ n ->
  (forall x, x ∈ l -> is_Some (node_of (sc_heap s) x)) ->
  (forall r', 0 <= extra' r' /\ (r' <> r -> queued r' l + extra' r' = queued r' (sc_tasks s) + extra r')) ->
  available_slots_ d + queued r l + extra' r = max_parallelism_ n -> slots extra' (with_tasks l (set_nd r d s)).
Proof.
  intros [A B C] Hr Hd Hm Hl Hx Hsum. assert (Hlt : (r < List.length (h_nodes (sc_heap s)))%nat) by by eapply lookup_lt_Some.
  split; [| |intros r'; apply Hx]; unfold node_of in *; simpl.
  - intros r' m Hm'. destruct (decide (r = r')) as [<-|Hne].
    + rewrite list_lookup_insert_eq in Hm' by done. injection Hm' as <-. destruct (A r n Hr) as (_ & A3 & _). destruct (Hx r). rewrite Hm. lia.
    + rewrite list_lookup_insert_ne in Hm' by done. destruct (A r' m Hm') as (A1 & A3 & A4). destruct (Hx r') as [X1 X2]. specialize (X2 ltac:(done)). lia.
  - intros r' Hr'. apply lookup_lt_is_Some. rewrite length_insert. by apply lookup_lt_is_Some, Hl.
Qed.

Lemma try_schedule_spec n n' : Node.TrySchedule n = (true, n') -> Node.schedulable (n_state n) = true /\ 0 < available_slots_ n /\
  n' = Node.with_counts (in_flight_ n) (async_pending_ n) (available_slots_ n - 1) n.
Proof.
  unfold Node.TrySchedule. destruct (Node.schedulable (n_state n)); [|done]. simpl. destruct (held_ n); [done|]. destruct (_ >? 0) eqn:E; [|done].
  intros [= <-]. split; [done|]. split; [|done]. by apply Z.gtb_lt in E.
Qed.
Lemma nd_some r s : Node.schedulable (n_state (nd r s)) = true -> node_of (sc_heap s) r = Some (nd r s).
Proof. unfold nd. by destruct (node_of (sc_heap s) r). Qed.

Lemma keeps_mark r s : keeps s (MarkReady r s).
Proof.
  unfold MarkReady. destruct (negb _ || _); [done|]. destruct (negb _); [done|]. destruct (Node.TrySchedule (nd r s)) as [ok n'] eqn:E.
  destruct ok; [|done]. apply try_schedule_spec in E as (Hs & Ha & ->). apply nd_some in Hs. set (n := nd r s) in *.
  unfold SubmitCpu. simpl. destruct (executor_stopped_ _).
  - split; [unfold on_nd; rewrite !set_nd_length; done|]. intros extra H. unfold on_nd. rewrite nd_set_eq, set_nd_twice by (by eexists).
    apply slots_node; [done|]. intros x Hx. rewrite Hs in Hx. injection Hx as <-. simpl. split; [|done].
    destruct (sl_nodes _ _ H r n Hs) as (H1 & H3 & H4). pose proof (sl_extra _ _ H r). pose proof (queued_nonneg r (sc_tasks s)). unfold Word.u32. rewrite Z.mod_small; lia.
  - split; [simpl; apply length_insert|]. intros extra H. destruct (sl_nodes _ _ H r n Hs) as (H1 & H3 & H4).
    apply (slots_shift extra extra r n); [done|done|simpl; lia|done| | |].
    + intros x [Hx|Hx]%elem_of_app; [by apply (sl_tasks _ _ H)|]. apply list_elem_of_singleton in Hx as ->. by eexists.
    + intros r'. split; [apply H|]. intros Hne. rewrite queued_app, queued_cons, decide_False by done. unfold queued. simpl. lia.
    + rewrite queued_app, queued_cons, decide_True by done. unfold queued at 2. simpl. lia.
Qed.

Lemma keeps_steady r n s : steady (nd r s) n -> keeps s (set_nd r n s).
Proof.
  intros (H1 & H2 & _). split; [apply set_nd_length|]. intros extra H. apply slots_node; [done|]. intros x Hx. by rewrite <- (nd_of r s x Hx).
Qed.
Lemma keeps_moves : turn_moves keeps.
Proof.
  split; [|apply keeps_steady]. split; [apply _|apply keeps_mark|intros s h Hh; by apply keeps_same| | | | | | | |]; try (intros; by apply keeps_same).
  - intros r n s (H1 & H2 & H3 & _). by apply keeps_steady.
  - intros r s. unfold Detach. case_bool_decide; [by apply keeps_same|done].
  - intros s. unfold CheckAllClosed. destruct (sc_live s); [|done]. destruct (all_closed_ _); [done|by apply keeps_same].
Qed.

Lemma keeps_complete : completes_in keeps.
Proof.
  intros op_close tick now s b s' Ht H. unfold CompleteRetired in H.
  pose proof (mv_sweep_all _ keeps_moves now (sc_retired s) (MkSweep [] [] [] []) s) as H1. destruct (sweep_all _ _ _ _) as [w s1]. simpl in H1.
  destruct (close_all _ _ _ _ _) as [[c s3]|] eqn:E; [|done]. injection H as <- <-. apply (mv_close_all _ keeps_moves op_close tick Ht) in E.
  etransitivity; [exact H1|]. etransitivity; [apply (keeps_same s1 (with_retired (sw_kept w) s1)); done|].
  etransitivity; [|etransitivity; [exact E|]]; apply (mv_each _ keeps_moves).
  - intros v t. by apply (mv_report _ keeps_moves).
  - intros q t. unfold announce. destruct (rq_complete _); [by apply keeps_same|done].
Qed.

Lemma slots_ext extra extra' s : (forall r, extra r = extra' r) -> slots extra s -> slots extra' s.
Proof. intros He [A B C]. split; [|done|]; intros r; rewrite <- He; [apply A|apply C]. Qed.

(** A slot that is given back. *)
Lemma slots_given extra r f s : (forall n, available_slots_ (f n) = Word.u32 (available_slots_ n + 1) /\ max_parallelism_ (f n) = max_parallelism_ n) ->
  is_Some (node_of (sc_heap s) r) -> 1 <= extra r -> slots extra s -> slots (fun r' => extra r' - turn_of r r') (on_nd f r s).
Proof.
  intros Hf [n Hn] He H. destruct (sl_nodes _ _ H r n Hn) as (H1 & H2 & H3). destruct (Hf n) as [F1 F2].
  pose proof (queued_nonneg r (sc_tasks s)) as Hq. unfold Word.u32 in F1. rewrite Z.mod_small in F1 by lia.
  unfold on_nd. rewrite (nd_of r s n Hn). apply (slots_shift extra _ r n (f n) (sc_tasks s) s); [done|done|lia|done|apply H| |].
  - intros r'. unfold turn_of. split; [|intros Hne; rewrite decide_False by done; lia]. case_decide as Hr; [subst; lia|]. pose proof (sl_extra _ _ H r'). lia.
  - unfold turn_of. rewrite decide_True by done. lia.
Qed.

Lemma end_invoke_slots n : available_slots_ (Node.EndInvoke n) = Word.u32 (available_slots_ n + 1) /\ max_parallelism_ (Node.EndInvoke n) = max_parallelism_ n.
Proof. unfold Node.EndInvoke, Node.cas_state. destruct (_ =? 0); [|done]. by case_decide. Qed.

Lemma slots_gives r s s' : is_Some (node_of (sc_heap s) r) -> slots (turn_of r) s -> gives keeps r s s' -> slots nobody s'.
Proof.
  intros Hr H (s1 & s2 & [L1 K1] & E & [L2 K2]). apply K2. assert (Hr1 : is_Some (node_of (sc_heap s1) r)).
  { apply lookup_lt_is_Some. rewrite L1. by apply lookup_lt_is_Some. }
  apply (slots_ext (fun r' => turn_of r r' - turn_of r r')); [intros r'; unfold nobody; lia|].
  destruct E as [->| ->]; (apply slots_given; [|done|unfold turn_of; by rewrite decide_True|by apply K1]); intros n; [done|apply end_invoke_slots].
Qed.

Lemma keeps_stops : stops_in keeps.
Proof. split; [intros; by apply keeps_same|intros; by apply keeps_same|intros; apply (mv_fast_all keeps keeps_moves); intros; by apply keeps_same]. Qed.

(** Free slots and queued tasks add up. *)
Definition balanced (s : Scheduler) : Prop := slots nobody s.

(** ** Commands *)

(** A node that was just made. *)
Definition fresh (n : NodeRuntime) : Prop := available_slots_ n = max_parallelism_ n /\ 0 <= max_parallelism_ n < 2 ^ 32.

Section commands.
Context (op_close : NodeRuntime -> Status) {W : Type} (op_process : W -> nat -> ProcessRequest -> script W) (hooks : Attached).

(** What the host, the session, the coordinator and the asynchronous runtime
    do with a scheduler, one call after the other; labelled with the version a
    publication retires. *)
Inductive command : list Z -> W * Scheduler -> W * Scheduler -> Prop :=
| c_run now w s b w' s' : RunOne op_close op_process hooks now w s = Some (b, w', s') -> command [] (w, s) (w', s')
| c_start w s : command [] (w, s) (w, Start s)
| c_pause w s : command [] (w, s) (w, Pause s)
| c_resume w s : command [] (w, s) (w, Resume s)
| c_stop fast now w s s' : Stop op_close fast now s = Some s' -> command [] (w, s) (w, s')
| c_tick now w s s' : Tick op_close now s = Some s' -> command [] (w, s) (w, s')
| c_prepare w s h : (exists news, h_nodes h = h_nodes (sc_heap s) ++ news /\ Forall fresh news)%list -> command [] (w, s) (w, on_heap (fun _ => h) s)
| c_publish fuel now next policy timeout complete w s st w' s' :
    Publish op_close op_process hooks fuel now next policy timeout complete w s = Some (st, w', s') ->
    command (if StatusOps.ok st then from_option (fun id => [id]) [] complete else []) (w, s) (w', s')
| c_parameters r p w s : command [] (w, s) (w, on_nd (Node.with_parameters p) r s)
| c_completion r w s : command [] (w, s) (w, on_nd (fun n => (Node.EndAsync n).2) r s)
| c_idle now r w s s' : OnAsyncIdle op_close now r s = Some s' -> command [] (w, s) (w, s')
| c_failed now r st w s s' : OnAsyncNodeFailed op_close hooks now r st (on_nd (Node.Fail st) r s) = Some s' -> command [] (w, s) (w, s')
| c_stop_executor w s : command [] (w, s) (w, StopExecutor s).

(** A session: the commands so far, with the versions they published. *)
Inductive session (start : W * Scheduler) : list Z -> W * Scheduler -> Prop :=
| s_begin : session start [] start
| s_then ids new a b : session start ids a -> command new a b -> session start (new ++ ids) b.


Lemma balanced_run now w s b w' s' : RunOne op_close op_process hooks now w s = Some (b, w', s') -> balanced s -> balanced s'.
Proof.
  unfold RunOne. destruct (sc_tasks s) as [|r rest] eqn:E; [by intros [= _ _ <-]|]. intros ([w1 s1] & E1 & H)%fmap_Some. injection H as _ _ ->. simpl. intros Hb. unfold balanced in *.
  apply (gives_invoke keeps keeps_moves keeps_complete keeps_stops) in E1. assert (Hr : is_Some (node_of (sc_heap s) r)) by (apply (sl_tasks _ _ Hb); rewrite E; by left).
  apply (slots_gives r (with_tasks rest s)); [done| |done]. destruct Hb as [A B C]. split.
  - intros r' n Hn. destruct (A r' n Hn) as (A1 & A2 & A3). rewrite E, queued_cons in A3. unfold nobody in A3. unfold turn_of. simpl.
    destruct (decide (r' = r)) as [->|Hne]; [rewrite decide_True in A3 by done; lia|rewrite decide_False in A3 by done; lia].
  - intros x Hx. apply B. rewrite E. by right.
  - intros x. unfold turn_of. by case_decide.
Qed.

Lemma balanced_wait fuel now r : forall w s w' s', WaitQuiescent op_close op_process hooks fuel now r w s = Some (w', s') -> balanced s -> balanced s'.
Proof.
  induction fuel as [|f IH]; intros w s w' s'; simpl; destruct (Node.quiescent _); try done; try (by intros [= _ <-]).
  destruct (RunOne _ _ _ _ _ _) as [[[b w1] s1]|] eqn:E; [|done]. intros H Hb. by eapply IH, balanced_run.
Qed.
Lemma balanced_wait_all fuel now l : forall w s w' s', wait_all op_close op_process hooks fuel now l w s = Some (w', s') -> balanced s -> balanced s'.
Proof.
  induction l as [|r l IH]; intros w s w' s'; simpl; [by intros [= _ <-]|]. destruct (WaitQuiescent _ _ _ _ _ _ _ _) as [[w1 s1]|] eqn:E; [|done].
  intros H Hb. by eapply IH, balanced_wait.
Qed.

End commands.

Lemma keeps_tick op_close now s s' : Tick op_close now s = Some s' -> keeps s s'.
Proof. apply (tick_in keeps keeps_moves keeps_complete). Qed.
Lemma keeps_calm f r s : (forall n, calm n (f n)) -> keeps s (on_nd f r s).
Proof. apply (mv_calm keeps keeps_moves). Qed.
Lemma keeps_each {A} (f : A -> Scheduler -> Scheduler) l s : (forall x s, keeps s (f x s)) -> keeps s (each f l s).
Proof. apply (mv_each keeps keeps_moves). Qed.
Lemma keeps_attach l s : keeps s (AttachNodes l s).
Proof. apply keeps_each. intros r t. case_bool_decide; [done|by apply keeps_same]. Qed.
Lemma keeps_kick t r s : keeps s (kick t r s).
Proof.
  unfold kick. destruct (Node.is_source _); [apply keeps_mark|]. destruct (InputsFor _ _); [|done]. destruct (may_be_ready _ _); [apply keeps_mark|done].
Qed.
Lemma keeps_sources l s : keeps s (mark_sources l s).
Proof. apply keeps_each. intros r t. destruct (Node.is_source _); [apply keeps_mark|done]. Qed.

Lemma keeps_swap next s : keeps s (swap next s).
Proof.
  unfold swap. pose proof (rebinds_nodes next (sc_heap s)) as H. destruct (ApplyRebinds next (sc_heap s)) as [t h]. simpl in H.
  etransitivity; [|apply keeps_attach]. by apply keeps_same.
Qed.
Lemma keeps_drain prev removed e s : keeps s (drain_edge prev removed e s).
Proof.
  unfold drain_edge. destruct (producer_of e s); [|done]. case_bool_decide; [done|]. destruct (TypeTags.Intern _ _) as [tag tags].
  etransitivity; [apply (mv_on_ed keeps keeps_moves Edge.MarkDraining e)|]. by apply keeps_same.
Qed.
Lemma keeps_retire now prev req s : keeps s (retire_old now prev req s).
Proof.
  unfold retire_old. destruct (rq_policy req).
  - set (s1 := each (on_nd Node.MarkRetiring) (rq_nodes req) s). set (s2 := each (drain_edge _ _) (rq_edges req) s1).
    transitivity s1; [apply keeps_each; intros; by apply keeps_calm|]. transitivity s2; [apply keeps_each; intros; apply keeps_drain|by apply keeps_same].
  - pose proof (mv_apply_fast keeps keeps_moves (MkRetired req (now + rq_drain_timeout req) false false) s) as H. destruct (ApplyFastLocked _ s) as [q s1].
    etransitivity; [exact H|by apply keeps_same].
Qed.

Lemma balanced_cancels l : forall s, slots (fun r => queued r l) s -> (forall r, r ∈ l -> is_Some (node_of (sc_heap s) r)) -> balanced (each (on_nd Node.CancelSchedule) l s).
Proof.
  induction l as [|r l IH]; intros s H Hl; [exact H|]. simpl. apply IH.
  - apply (slots_ext (fun r' => queued r' (r :: l) - turn_of r r')).
    { intros r'. rewrite queued_cons. unfold turn_of. repeat case_decide; try congruence; lia. }
    apply slots_given; [done|apply Hl; by left| |done]. rewrite queued_cons, decide_True by done. pose proof (queued_nonneg r l). lia.
  - intros r' Hr'. apply lookup_lt_is_Some. unfold on_nd. rewrite set_nd_length. apply lookup_lt_is_Some, Hl. by right.
Qed.
Lemma balanced_stop_executor s : balanced s -> balanced (StopExecutor s).
Proof.
  intros H. unfold StopExecutor. destruct (executor_stopped_ _); [done|]. apply balanced_cancels; [|apply (sl_tasks _ _ H)]. destruct H as [A B C].
  split; [|by intros r Hr%not_elem_of_nil|intros r; apply queued_nonneg].
  intros r n Hn. destruct (A r n Hn) as (A1 & A2 & A3). unfold nobody in A3. unfold queued at 1. simpl. lia.
Qed.

Lemma balanced_fresh s h : balanced s -> (exists news, h_nodes h = h_nodes (sc_heap s) ++ news /\ Forall fresh news)%list -> balanced (on_heap (fun _ => h) s).
Proof.
  intros [A B C] (news & Hh & Hf). split; [| |done]; unfold node_of in *; simpl; rewrite Hh.
  - intros r n [Hn|[Hlen Hn]]%lookup_app_Some; [by apply A|]. rewrite Forall_forall in Hf. destruct (Hf n) as [F1 F2]; [by eapply list_elem_of_lookup_2|].
    assert (Hq : queued r (sc_tasks s) = 0).
    { unfold queued. destruct (List.filter _ _) as [|x l] eqn:E; [done|]. assert (Hin : In x (List.filter (fun y => bool_decide (y = r)) (sc_tasks s))) by (rewrite E; by left).
      apply filter_In in Hin as [Hx ->%bool_decide_eq_true]. apply list_elem_of_In, B, lookup_lt_is_Some in Hx. lia. }
    unfold nobody. rewrite Hq, F1. lia.
  - intros r [n Hn]%B. exists n. by apply lookup_app_l_Some.
Qed.

Lemma steady_end_async n : steady n (Node.EndAsync n).2.
Proof.
  unfold Node.EndAsync, Node.TryLeaveAsyncPending. set (m := Node.with_metrics _ _ _ _ _). pose proof (calm_cas kAsyncPending kReady m eq_refl) as (H1 & H2 & H3 & _).
  by destruct (Node.cas_state _ _ m).
Qed.

Lemma keeps_stop op_close fast now s s' : Stop op_close fast now s = Some s' -> keeps s s'.
Proof.
  destruct fast; [apply (mv_fast_stop keeps keeps_moves keeps_complete keeps_stops)|]. unfold Stop. simpl.
  intros H%keeps_tick. etransitivity; [|exact H]. etransitivity; [|apply keeps_sources]. apply (keeps_same s); done.
Qed.

Section balance.
Context (op_close : NodeRuntime -> Status) {W : Type} (op_process : W -> nat -> ProcessRequest -> script W) (hooks : Attached).

Lemma balanced_publish fuel now next policy timeout complete w s st w' s' :
  Publish op_close op_process hooks fuel now next policy timeout complete w s = Some (st, w', s') -> balanced s -> balanced s'.
Proof.
  unfold Publish. destruct (stopping_ _); [by intros [= _ _ <-]|]. set (held := held_nodes _ _ s). destruct (wait_all _ _ _ _ _ _ _ _) as [[w1 s1]|] eqn:E; [|done].
  intros H Hb. apply balanced_wait_all in E; [|assert (K : keeps s (each (on_nd Node.Hold) held s)) by (apply keeps_each; intros; by apply keeps_calm); by apply K].
  revert E. destruct (stopping_ (sc_flags s1)).
  - injection H as _ _ <-. apply (keeps_each (fun r s => MarkReady r (on_nd Node.Release r s)) held s1). intros r t.
    transitivity (on_nd Node.Release r t); [by apply keeps_calm|apply keeps_mark].
  - apply fmap_Some in H as (s2 & E & H). injection H as _ _ ->. apply keeps_tick in E. set (s3 := swap next s1) in *. set (s4 := retire_old _ _ _ s3) in *.
    set (s5 := each (on_nd Node.Release) held (RetryInjections s4)) in *.
    assert (K : keeps s1 s5).
    { transitivity s3; [apply keeps_swap|]. transitivity s4; [apply keeps_retire|]. transitivity (RetryInjections s4); [apply (mv_retry_injections keeps keeps_moves)|].
      apply keeps_each. intros. by apply keeps_calm. }
    intros Hb1. apply E. destruct (started_ (sc_flags s5)); [|by apply K].
    apply (keeps_each (kick _) _ _ (keeps_kick _)), (keeps_each (kick _) _ _ (keeps_kick _)). by apply K.
Qed.

Lemma balanced_command new a b : command op_close op_process hooks new a b -> balanced a.2 -> balanced b.2.
Proof.
  destruct 1 as [now w s b w' s' H|w s|w s|w s|fast now w s s' H|now w s s' H|w s h H|fuel now next policy timeout complete w s st w' s' H|r p w s|r w s|now r w s s' H
    |now r st w s s' H|w s]; simpl; intros Hb.
  - by eapply balanced_run.
  - apply keeps_sources. by apply (keeps_same s).
  - by apply (keeps_same s).
  - apply keeps_sources. by apply (keeps_same s).
  - by apply (keeps_stop _ _ _ _ _ H).
  - by apply (keeps_tick _ _ _ _ H).
  - by apply balanced_fresh.
  - by eapply balanced_publish.
  - by apply (keeps_calm (Node.with_parameters p) r s).
  - by apply (keeps_steady r _ s (steady_end_async (nd r s))).
  - unfold OnAsyncIdle in H. destruct (cancelled_ _).
    + apply fmap_Some in H as ([b s1] & E & ->). by apply (mv_try_close keeps keeps_moves op_close _ (keeps_tick op_close now)) in E; apply E.
    + destruct (negb _); [by injection H as <-|]. injection H as <-. destruct (held_ _); [done|by apply keeps_mark].
  - apply (mv_fail_finish keeps keeps_moves keeps_complete keeps_stops) in H. apply H. by apply (keeps_calm (Node.Fail st) r s (calm_fail st)).
  - by apply balanced_stop_executor.
Qed.

(** C4: no slot of a node is ever lost or handed out twice. Whatever the host,
    the session, the coordinator and the asynchronous runtime do, in any
    order, and whatever the operators emit, publish, return or fail with:
    after every call the free slots of a node and its queued tasks add up to
    its parallelism, so a node with nothing queued can always be scheduled,
    drained and held. *)
Theorem slots_balanced t h w0 ids w s : Forall fresh (h_nodes h) -> session op_close op_process hooks (w0, make t h) ids (w, s) ->
  forall r n, node_of (sc_heap s) r = Some n -> available_slots_ n + queued r (sc_tasks s) = max_parallelism_ n /\ 0 <= available_slots_ n.
Proof.
  intros Hf Hr. assert (H : balanced s).
  { assert (H0 : balanced (make t h)).
    { apply (keeps_attach (t_nodes t)). split; [| |done].
      - intros r n Hn. rewrite Forall_forall in Hf. destruct (Hf n) as [F1 F2]; [by eapply list_elem_of_lookup_2|]. unfold nobody, queued. simpl. lia.
      - by intros r Hr'%not_elem_of_nil. }
    change s with (w, s).2. change (make t h) with (w0, make t h).2 in H0. induction Hr as [|ids new a b _ IH Hab]; [done|]. by eapply balanced_command. }
  intros r n Hn. destruct (sl_nodes _ _ H r n Hn) as (H1 & _ & H3). unfold nobody in H3. lia.
Qed.

End balance.

(** ** A session that removes a node while it runs *)

Lemma turns_session start ids n : forall w s w' s', turns n w s = Some (w', s') ->
  session CoordinatorProofs.opens feed default_hooks start ids (w, s) -> session CoordinatorProofs.opens feed default_hooks start ids (w', s').
Proof.
  induction n as [|n IH]; intros w s w' s' H Hs; simpl in H; [by injection H as <- <-|].
  destruct (RunOne _ _ _ _ _ _) as [[[b w1] s1]|] eqn:E; [|done]. apply (IH _ _ _ _ H). eapply (s_then _ _ _ _ ids []); [exact Hs|by eapply c_run].
Qed.

Lemma published_session start ids patch w s w' s' t h : prepared patch s = Some (t, h) -> h_nodes h = h_nodes (sc_heap s) ->
  published patch w s = Some (w', s') -> session CoordinatorProofs.opens feed default_hooks start ids (w, s) ->
  session CoordinatorProofs.opens feed default_hooks start (7 :: ids) (w', s').
Proof.
  unfold published. intros -> Hn H Hs. destruct (Publish _ _ _ _ _ _ _ _ _ _ _) as [[[st w2] s2]|] eqn:E; [|done].
  pose proof (c_publish CoordinatorProofs.opens feed default_hooks _ _ _ _ _ _ _ _ _ _ _ E) as Hc. destruct (StatusOps.ok st); [|done]. injection H as <- <-.
  eapply (s_then _ _ _ _ ids [7]); [|exact Hc]. eapply (s_then _ _ _ _ ids []); [exact Hs|]. apply c_prepare. exists []. by rewrite app_nil_r.
Qed.

Lemma run_session g k n patch t h m w1 s1 w2 s2 w3 s3 : after g k n = Some (w1, s1) -> prepared patch s1 = Some (t, h) -> h_nodes h = h_nodes (sc_heap s1) ->
  published patch w1 s1 = Some (w2, s2) -> turns m w2 s2 = Some (w3, s3) -> session CoordinatorProofs.opens feed default_hooks (k, make (launched g).1 (launched g).2) [7] (w3, s3).
Proof.
  intros H1 H2 H3 H4 H5. apply (turns_session _ _ _ _ _ _ _ H5), (published_session _ _ _ _ _ _ _ _ _ H2 H3 H4), (turns_session _ _ _ _ _ _ _ H1).
  eapply (s_then _ _ _ _ [] []); [apply s_begin|apply c_start].
Qed.

Lemma bypass_session : exists w s, session CoordinatorProofs.opens feed default_hooks (1%nat, make (launched long_pipe).1 (launched long_pipe).2) [7] (w, s) /\ completed_ids s = [7].
Proof.
  destruct bypass_run as (w1 & s1 & t & h & w2 & s2 & w3 & s3 & H1 & H2 & H3 & H4 & H5 & _ & _ & _ & H6 & _).
  exact (ex_intro _ w3 (ex_intro _ s3 (conj (run_session _ _ _ _ _ _ _ _ _ _ _ _ _ H1 H2 H3 H4 H5) H6))).
Qed.

Definition freshb (n : NodeRuntime) : bool := (available_slots_ n =? max_parallelism_ n) && (0 <=? max_parallelism_ n) && (max_parallelism_ n <? 2 ^ 32).

Lemma freshb_all l : forallb freshb l = true -> Forall fresh l.
Proof.
  rewrite forallb_forall, Forall_forall. intros H n Hn%list_elem_of_In%H. unfold freshb in Hn. rewrite !andb_true_iff, Z.eqb_eq, Z.leb_le, Z.ltb_lt in Hn.
  by destruct Hn as [[]].
Qed.

Lemma long_pipe_fresh : Forall fresh (h_nodes (launched long_pipe).2).
Proof. apply freshb_all. by vm_compute. Qed.

Lemma slots_balanced_witness : exists s, completed_ids s = [7] /\
  forall r n, node_of (sc_heap s) r = Some n -> available_slots_ n + queued r (sc_tasks s) = max_parallelism_ n /\ 0 <= available_slots_ n.
Proof.
  destruct bypass_session as (w & s & Hs & Hb).
  exact (ex_intro _ s (conj Hb (slots_balanced CoordinatorProofs.opens feed default_hooks (launched long_pipe).1 (launched long_pipe).2 1%nat [7] w s long_pipe_fresh Hs))).
Defined.
