(* ===== verification/SchedulerReports.v ===== *)
(** What the scheduler reports: every version that was retired is reported
    complete exactly once, the end of the session at most once. *)

From stdpp Require Import base numbers list strings gmap relations.
From Stdlib Require Import ZArith Lia Ascii String.
From S2P Require Import Prelude Types Double Json GraphSpec CapabilityTypes Packet EdgeChannel InputBinding NodeRuntime RuntimeTopology Coordinator VersionHistory Scheduler SchedulerInvoke SchedulerSamples SchedulerProofs SchedulerTurns.

Local Open Scope string_scope.
Local Open Scope Z_scope.

(** The versions waiting to be retired and those reported, by their callbacks. *)
Definition awaited (l : list Retired) : list Z := omap (fun q => rq_complete (rt_request q)) l.
Definition completed (log : list happening) : list Z := omap (fun e => match e with RetireComplete id _ => Some id | _ => None end) log.
Definition closings (log : list happening) : nat := List.length (List.filter (fun e => match e with AllClosed => true | _ => false end) log).
Definition closed_once (s : Scheduler) : Prop := closings (sc_log s) = if all_closed_ (sc_flags s) then 1%nat else 0%nat.
Definition books (s : Scheduler) : list Z := awaited (sc_retired s) ++ completed (sc_log s).

(** The log only grows, by at most one closing. *)
Definition grows (s s' : Scheduler) : Prop := (closed_once s -> closed_once s') /\ sc_log s `prefix_of` sc_log s'.
(** Nothing retired, nothing reported complete. *)
Definition quietly (s s' : Scheduler) : Prop := sc_retired s' = sc_retired s /\ completed (sc_log s') = completed (sc_log s) /\ grows s s'.
(** Every version is still accounted for. *)
Definition accounts (s s' : Scheduler) : Prop := Permutation (books s') (books s) /\ grows s s'.

#[export] Instance grows_preorder : PreOrder grows.
Proof. split; [by split|]. intros a b c [A1 A2] [B1 B2]. split; [auto|by transitivity (sc_log b)]. Qed.
Lemma grows_same s s' : sc_log s' = sc_log s -> all_closed_ (sc_flags s') = all_closed_ (sc_flags s) -> grows s s'.
Proof. intros H1 H2. split; [unfold closed_once; by rewrite H1, H2|by rewrite H1]. Qed.

#[export] Instance quietly_preorder : PreOrder quietly.
Proof. split; [by split|]. intros a b c (A1 & A2 & A3) (B1 & B2 & B3). split; [congruence|]. split; [congruence|by transitivity b]. Qed.
#[export] Instance accounts_preorder : PreOrder accounts.
Proof. split; [by split|]. intros a b c (A1 & A2) (B1 & B2). split; [by rewrite B1|by transitivity b]. Qed.
Lemma quietly_accounts s s' : quietly s s' -> accounts s s'.
Proof. intros (H1 & H2 & H3). split; [|done]. unfold books. by rewrite H1, H2. Qed.

Lemma quietly_same s s' : sc_retired s' = sc_retired s -> sc_log s' = sc_log s -> all_closed_ (sc_flags s') = all_closed_ (sc_flags s) -> quietly s s'.
Proof. intros H1 H2 H3. split; [done|]. split; [by rewrite H2|by apply grows_same]. Qed.
Lemma completed_app a b : completed (a ++ b) = (completed a ++ completed b)%list.
Proof. apply omap_app. Qed.
Lemma closings_app a b : closings (a ++ b) = (closings a + closings b)%nat.
Proof. unfold closings. by rewrite List.filter_app, length_app. Qed.

Lemma quietly_mark r s : quietly s (MarkReady r s).
Proof.
  unfold MarkReady. destruct (negb _ || _); [done|]. destruct (negb _); [done|]. destruct (Node.TrySchedule (nd r s)) as [[] n]; [|done].
  unfold SubmitCpu. destruct (executor_stopped_ _); by apply quietly_same.
Qed.

Lemma quietly_moves : moves quietly.
Proof.
  split; [apply _|apply quietly_mark| | | | | | | | |]; try (intros; by apply quietly_same).
  - intros r s. unfold Detach. case_bool_decide; [by apply quietly_same|done].
  - intros s. unfold CheckAllClosed. destruct (sc_live s); [|done]. destruct (all_closed_ (sc_flags s)) eqn:E; [done|]. split; [done|].
    unfold grows, closed_once. simpl. rewrite completed_app, closings_app, app_nil_r, E. split; [done|]. split; [by intros ->|by apply prefix_app_r].
  - intros e s He. split; [done|]. unfold grows, closed_once. simpl. rewrite completed_app, closings_app.
    destruct e; simpl in *; try done; rewrite app_nil_r, Nat.add_0_r; (split; [done|split; [done|by apply prefix_app_r]]).
Qed.

Lemma accounts_moves : turn_moves accounts.
Proof. destruct quietly_moves. split; [split; [apply _|..]|]; intros; apply quietly_accounts; auto. by apply quietly_same. Qed.

Lemma awaited_perm l k : Permutation (map rt_request l) (map rt_request k) -> Permutation (awaited l) (awaited k).
Proof.
  intros H. assert (E : forall l, awaited l = omap rq_complete (map rt_request l)).
  { intros m. unfold awaited. induction m as [|q m IH]; [done|]. csimpl. by rewrite <- IH. }
  rewrite !E. by rewrite H.
Qed.
Lemma announced l : forall s, sc_retired (each announce l s) = sc_retired s /\ sc_flags (each announce l s) = sc_flags s /\
  completed (sc_log (each announce l s)) = (completed (sc_log s) ++ awaited l)%list /\ closings (sc_log (each announce l s)) = closings (sc_log s) /\ sc_log s `prefix_of` sc_log (each announce l s).
Proof.
  induction l as [|q l IH]; intros s; [by rewrite app_nil_r|]. simpl. destruct (IH (announce q s)) as (-> & -> & -> & -> & Hp).
  assert (Hq : sc_log s `prefix_of` sc_log (announce q s)) by (unfold announce; case_match; [by apply prefix_app_r|done]).
  assert (Hl : sc_log s `prefix_of` sc_log (each announce l (announce q s))) by by transitivity (sc_log (announce q s)).
  assert (G : forall A B C D E : Prop, A /\ B /\ C /\ D -> E -> A /\ B /\ C /\ D /\ E) by tauto. apply G; [|exact Hl]. clear.
  unfold announce, awaited. simpl. destruct (rq_complete (rt_request q)) as [id|]; simpl; [|done]. rewrite completed_app, closings_app, <- app_assoc. simpl. by rewrite Nat.add_0_r.
Qed.

Lemma accounts_complete : completes_in accounts.
Proof.
  intros op_close tick now s b s' Ht H. unfold CompleteRetired in H.
  pose proof (mv_sweep_all _ quietly_moves now (sc_retired s) (MkSweep [] [] [] []) s) as (Q1 & Q2 & Q3).
  pose proof (swept_all now (sc_retired s) (MkSweep [] [] [] []) s) as [_ (k & d & Hk & Hd & Hp) _].
  destruct (sweep_all _ _ _ _) as [w s1]. simpl in *. subst k d. set (s2 := each _ (sw_timed_out w) _) in H.
  assert (Q : quietly (with_retired (sw_kept w) s1) s2) by (apply (mv_each _ quietly_moves); intros v t; by apply (mv_report _ quietly_moves)).
  destruct (close_all _ _ _ _ _) as [[c s3]|] eqn:E; [|done]. injection H as <- <-. apply (mv_close_all _ accounts_moves op_close tick Ht) in E as [E1 E2].
  destruct (announced (sw_done w) s3) as (N1 & N2 & N3 & N4 & N5). destruct Q as (R1 & R2 & R3). split.
  - unfold books in *. rewrite N1, N3, app_assoc, E1, R1, R2. simpl. rewrite Q2, <- (awaited_perm _ _ Hp). unfold awaited. rewrite omap_app. solve_Permutation.
  - transitivity s1; [done|]. transitivity (with_retired (sw_kept w) s1); [by apply grows_same|]. transitivity s2; [done|]. transitivity s3; [done|].
    split; [unfold closed_once; by rewrite N4, N2|done].
Qed.

(** ** Commands *)

Lemma accounts_same s s' : sc_retired s' = sc_retired s -> sc_log s' = sc_log s -> all_closed_ (sc_flags s') = all_closed_ (sc_flags s) -> accounts s s'.
Proof. intros. by apply quietly_accounts, quietly_same. Qed.
Lemma accounts_gives r s s' : gives accounts r s s' -> accounts s s'.
Proof. intros (s1 & s2 & H1 & [-> | ->] & H2); (etransitivity; [exact H1|]; etransitivity; [|exact H2]; by apply accounts_same). Qed.
Lemma accounts_tick op_close now s s' : Tick op_close now s = Some s' -> accounts s s'.
Proof. apply (tick_in accounts accounts_moves accounts_complete). Qed.
Lemma accounts_each {A} (f : A -> Scheduler -> Scheduler) l s : (forall x s, accounts s (f x s)) -> accounts s (each f l s).
Proof. apply (mv_each accounts accounts_moves). Qed.
Lemma accounts_mark r s : accounts s (MarkReady r s).
Proof. apply quietly_accounts, quietly_mark. Qed.
Lemma accounts_attach l s : accounts s (AttachNodes l s).
Proof. apply accounts_each. intros r t. case_bool_decide; [done|by apply accounts_same]. Qed.
Lemma accounts_kick t r s : accounts s (kick t r s).
Proof.
  unfold kick. destruct (Node.is_source _); [apply accounts_mark|]. destruct (InputsFor _ _); [|done]. destruct (may_be_ready _ _); [apply accounts_mark|done].
Qed.
Lemma accounts_sources l s : accounts s (mark_sources l s).
Proof. apply accounts_each. intros r t. destruct (Node.is_source _); [apply accounts_mark|done]. Qed.
Lemma accounts_on_nd f r s : accounts s (on_nd f r s).
Proof. by apply accounts_same. Qed.
Lemma accounts_on_ed f e s : accounts s (on_ed f e s).
Proof. apply (mv_on_ed accounts accounts_moves). Qed.

Lemma accounts_fast_all s : accounts s (apply_fast_all s).
Proof.
  unfold apply_fast_all. set (f := fun (ls : list Retired * Scheduler) q => _).
  assert (H : forall l ls, quietly s ls.2 -> quietly s (fold_left f l ls).2 /\ map rt_request (fold_left f l ls).1 = (map rt_request ls.1 ++ map rt_request l)%list).
  { intros l. induction l as [|q l IH]; intros ls Hls; [by rewrite app_nil_r|]. simpl.
    assert (Hq : quietly ls.2 (f ls q).2 /\ map rt_request (f ls q).1 = (map rt_request ls.1 ++ [rt_request q])%list).
    { unfold f. pose proof (mv_apply_fast quietly quietly_moves q ls.2) as Hq. destruct (rt_fast_applied q); [split; [done|simpl; by rewrite map_app]|].
      unfold ApplyFastLocked in *. simpl in *. split; [done|by rewrite map_app]. }
    destruct Hq as [Hq1 Hq2]. destruct (IH (f ls q)) as [I1 I2]; [by transitivity ls.2|]. split; [done|]. by rewrite I2, Hq2, <- app_assoc. }
  destruct (H (sc_retired s) ([], s) ltac:(done)) as [(H1 & H2 & H3) H4]. destruct (fold_left f _ _) as [l s1]. simpl in *. split; [|done].
  unfold books. simpl. rewrite H2. apply Permutation_app_tail, awaited_perm. by rewrite H4.
Qed.

Lemma accounts_stops : stops_in accounts.
Proof. split; [intros; by apply accounts_same|intros; by apply accounts_same|apply accounts_fast_all]. Qed.
Lemma accounts_stop op_close fast now s s' : Stop op_close fast now s = Some s' -> accounts s s'.
Proof.
  destruct fast; [apply (mv_fast_stop accounts accounts_moves accounts_complete accounts_stops)|]. unfold Stop. simpl.
  intros H%accounts_tick. etransitivity; [|exact H]. etransitivity; [|apply accounts_sources]. apply (accounts_same s); done.
Qed.

Lemma accounts_swap next s : accounts s (swap next s).
Proof. unfold swap. destruct (ApplyRebinds next (sc_heap s)) as [t h]. etransitivity; [|apply accounts_attach]. by apply accounts_same. Qed.
Lemma quietly_drain prev removed e s : quietly s (drain_edge prev removed e s).
Proof.
  unfold drain_edge. destruct (producer_of e s); [|done]. case_bool_decide; [done|]. destruct (TypeTags.Intern _ _) as [tag tags].
  etransitivity; [apply (mv_on_ed quietly quietly_moves Edge.MarkDraining e)|]. by apply quietly_same.
Qed.

(** The retired version enters the books. *)
Lemma retire_books now prev req s : Permutation (books (retire_old now prev req s)) (from_option (fun id => [id]) [] (rq_complete req) ++ books s) /\
  grows s (retire_old now prev req s).
Proof.
  unfold retire_old. set (entry := MkRetired req _ false false). set (r := match rq_policy req with kDrain => _ | kFast => _ end).
  assert (Hr : quietly s r.2 /\ rt_request r.1 = req).
  { unfold r. destruct (rq_policy req).
    - split; [|done]. etransitivity; [|apply (mv_each quietly quietly_moves); intros; apply quietly_drain]. apply (mv_each quietly quietly_moves). intros. by apply quietly_same.
    - pose proof (mv_apply_fast quietly quietly_moves entry s) as H. unfold ApplyFastLocked in *. by split. }
  destruct r as [q s1]. simpl in Hr. destruct Hr as [(Q1 & Q2 & Q3) Hq]. split; [|done]. unfold books, awaited. simpl. rewrite omap_app, Q2, Q1. simpl. rewrite Hq.
  destruct (rq_complete req); simpl; [|by rewrite app_nil_r]. solve_Permutation.
Qed.

Section reports.
Context (op_close : NodeRuntime -> Status) {W : Type} (op_process : W -> nat -> ProcessRequest -> script W) (hooks : Attached).

Lemma accounts_run now w s b w' s' : RunOne op_close op_process hooks now w s = Some (b, w', s') -> accounts s s'.
Proof.
  unfold RunOne. destruct (sc_tasks s) as [|r rest]; [by intros [= _ _ <-]|]. intros ([w1 s1] & E & H)%fmap_Some. injection H as _ _ ->.
  apply (gives_invoke accounts accounts_moves accounts_complete accounts_stops), accounts_gives in E. etransitivity; [|exact E]. by apply accounts_same.
Qed.
Lemma accounts_wait fuel now r : forall w s w' s', WaitQuiescent op_close op_process hooks fuel now r w s = Some (w', s') -> accounts s s'.
Proof.
  induction fuel as [|f IH]; intros w s w' s'; simpl; destruct (Node.quiescent _); try done; try (by intros [= _ <-]).
  destruct (RunOne _ _ _ _ _ _) as [[[b w1] s1]|] eqn:E; [|done]. intros H. etransitivity; [by eapply accounts_run|by eapply IH].
Qed.
Lemma accounts_wait_all fuel now l : forall w s w' s', wait_all op_close op_process hooks fuel now l w s = Some (w', s') -> accounts s s'.
Proof.
  induction l as [|r l IH]; intros w s w' s'; simpl; [by intros [= _ <-]|]. destruct (WaitQuiescent _ _ _ _ _ _ _ _) as [[w1 s1]|] eqn:E; [|done].
  intros H. etransitivity; [by eapply accounts_wait|by eapply IH].
Qed.

Lemma publish_books fuel now next policy timeout complete w s st w' s' :
  Publish op_close op_process hooks fuel now next policy timeout complete w s = Some (st, w', s') ->
  Permutation (books s') ((if StatusOps.ok st then from_option (fun id => [id]) [] complete else []) ++ books s) /\ grows s s'.
Proof.
  unfold Publish. destruct (stopping_ _); [by intros [= <- _ <-]|]. set (held := held_nodes _ _ s). set (s0 := each (on_nd Node.Hold) held s).
  assert (H0 : accounts s s0) by (apply accounts_each; intros; apply accounts_on_nd).
  destruct (wait_all _ _ _ _ _ _ _ _) as [[w1 s1]|] eqn:E; [|done]. apply accounts_wait_all in E. assert (H1 : accounts s s1) by by transitivity s0.
  destruct (stopping_ (sc_flags s1)).
  - intros [= <- _ <-]. simpl. refine (transitivity (R := accounts) (y := s1) H1 _). apply accounts_each. intros r t. transitivity (on_nd Node.Release r t); [apply accounts_on_nd|apply accounts_mark].
  - intros (s2 & E2 & H)%fmap_Some. injection H as -> _ ->. apply accounts_tick in E2. set (s3 := swap next s1) in *. set (req := MkRetireRequest _ _ _ _ _ _) in *.
    destruct (retire_books now (sc_topology s) req s3) as [B1 B2]. set (s4 := retire_old _ _ _ s3) in *. set (s5 := each (on_nd Node.Release) held (RetryInjections s4)) in *.
    assert (H3 : accounts s s3) by (etransitivity; [exact H1|apply accounts_swap]).
    assert (H4 : accounts s4 s5) by (etransitivity; [apply (mv_retry_injections _ accounts_moves)|apply accounts_each; intros; apply accounts_on_nd]).
    assert (H5 : accounts s4 s2).
    { etransitivity; [exact H4|]. etransitivity; [|exact E2]. destruct (started_ (sc_flags s5)); [|done]. etransitivity; [|apply accounts_each; intros; apply accounts_kick].
      apply accounts_each. intros. apply accounts_kick. }
    destruct H5 as [P5 C5], H3 as [P3 C3]. simpl. split; [by rewrite P5, B1, P3|]. transitivity s3; [done|]. by transitivity s4.
Qed.

Lemma command_books new a b : command op_close op_process hooks new a b ->
  Permutation (books b.2) (new ++ books a.2) /\ grows a.2 b.2.
Proof.
  destruct 1 as [now w s b w' s' H|w s|w s|w s|fast now w s s' H|now w s s' H|w s h H|fuel now next policy timeout complete w s st w' s' H|r p w s|r w s|now r w s s' H
    |now r st w s s' H|w s]; simpl.
  - by apply accounts_run in H.
  - refine (transitivity (R := accounts) (y := on_flags set_started s) _ _); [by apply accounts_same|apply accounts_sources].
  - by apply accounts_same.
  - refine (transitivity (R := accounts) (y := on_flags (set_paused false) s) _ _); [by apply accounts_same|apply accounts_sources].
  - by apply accounts_stop in H.
  - by apply accounts_tick in H.
  - by apply accounts_same.
  - by apply publish_books in H.
  - apply accounts_on_nd.
  - apply accounts_on_nd.
  - unfold OnAsyncIdle in H. destruct (cancelled_ _).
    + apply fmap_Some in H as ([b s1] & E & ->). by apply (mv_try_close accounts accounts_moves op_close _ (accounts_tick op_close now)) in E.
    + destruct (negb _); [by injection H as <-|]. injection H as <-. destruct (held_ _); [done|apply accounts_mark].
  - apply (mv_fail_finish accounts accounts_moves accounts_complete accounts_stops) in H.
    refine (transitivity (R := accounts) _ H). apply accounts_on_nd.
  - unfold StopExecutor. destruct (executor_stopped_ _); [done|]. set (s1 := with_tasks [] _).
    refine (transitivity (R := accounts) (y := s1) _ _); [by apply accounts_same|apply accounts_each; intros; apply accounts_on_nd].
Qed.

(** C6: along any session every version that was replaced is accounted for
    exactly once: it is either still being drained, or it was reported
    complete, never both and never twice - whether it drained, ran into its
    deadline or was cut short by a stop. That all nodes are closed is reported
    at most once, and it has been reported exactly when the scheduler says so. *)
Theorem retirements_reported_once t h w0 ids w s : session op_close op_process hooks (w0, make t h) ids (w, s) ->
  Permutation (awaited (sc_retired s) ++ completed (sc_log s)) ids /\ closings (sc_log s) = if all_closed_ (sc_flags s) then 1%nat else 0%nat.
Proof.
  intros H. change (Permutation (books (w, s).2) ids /\ closed_once (w, s).2). assert (H0 : books (make t h) = [] /\ closed_once (make t h)).
  { assert (A : accounts (MkScheduler h t (fold_left (fun m r => <[r := t]> m) (t_nodes t) ∅) (MkFlags false false false false false true false) [] [] ∅ ∅ [] [] []) (make t h))
      by apply accounts_attach. destruct A as [A1 A2]. split; [by apply Permutation_nil_r in A1|by apply A2]. }
  induction H as [|ids new a b _ [I1 I2] Hab]; [destruct H0 as [E ?]; simpl; by rewrite E|]. destruct (command_books _ _ _ Hab) as [B1 [B2 _]]. split; [|auto]. by rewrite B1, I1.
Qed.

End reports.

Lemma retirements_reported_once_witness : exists s, completed_ids s = [7] /\
  Permutation (awaited (sc_retired s) ++ completed (sc_log s)) [7] /\ closings (sc_log s) = if all_closed_ (sc_flags s) then 1%nat else 0%nat.
Proof.
  destruct bypass_session as (w & s & Hs & Hb). exists s. split; [exact Hb|].
  exact (retirements_reported_once CoordinatorProofs.opens feed default_hooks (launched long_pipe).1 (launched long_pipe).2 1%nat [7] w s Hs).
Defined.
