(* ===== verification/SchedulerOrder.v ===== *)
(** The order of packets on a blocking edge: what its consumer received, what
    is queued and what is parked are together exactly what was emitted. *)

From stdpp Require Import base numbers list strings gmap relations.
From Stdlib Require Import ZArith Lia Ascii String.
From S2P Require Import Prelude Types Double Json GraphSpec CapabilityTypes Packet EdgeChannel EdgeRefinement InputBinding InputFlow NodeRuntime RuntimeTopology Coordinator Scheduler SchedulerInvoke SchedulerSamples SchedulerProofs.

Local Open Scope string_scope.
Local Open Scope Z_scope.

(** ** One channel *)

(** A blocking channel that takes packets. *)
Definition takes (c : EdgeChannel) : Prop :=
  (exists f, represents c f) /\ policy (config_ c) = kBlock /\ Edge.is_closing (state_ c) = false.

Lemma push_config p c : config_ (Edge.Push p c).2 = config_ c.
Proof.
  unfold Edge.Push, Edge.block, Edge.evict_oldest. repeat case_match; simplify_eq/=; try done.
Qed.

Lemma push_takes c p : takes c -> Edge.is_eos_ref p = false -> takes (Edge.Push p c).2 /\
  if bool_decide ((Edge.Push p c).1 = kWouldBlock) then contents (Edge.Push p c).2 = contents c else contents (Edge.Push p c).2 = (contents c ++ [p])%list.
Proof.
  intros ((f & Hf) & Hp & Hs) He. pose proof (push_config p c) as Hc. destruct (push_rep c f p Hf) as [H1 H2]. pose proof (channel_contents _ _ Hf) as Hq.
  pose proof (channel_contents _ _ H2) as Hq2. destruct Hf as [[Hst Hpol _ _ _ _ _ _ _] _].
  assert (Hfp : (Fifo.push p f).1 = kWouldBlock /\ f_queue (Fifo.push p f).2 = f_queue f /\ Edge.is_closing (f_state (Fifo.push p f).2) = false \/
                (Fifo.push p f).1 = kAccepted /\ f_queue (Fifo.push p f).2 = (f_queue f ++ [p])%list /\ f_state (Fifo.push p f).2 = f_state f).
  { unfold Fifo.push. rewrite <- Hst, Hs, He. simpl. destruct (_ <? _)%nat; [by right|]. rewrite <- Hpol, Hp. left. unfold Fifo.block. simpl.
    destruct (decide _); simpl; rewrite <- ?Hst; done. }
  assert (Hst2 : state_ (Edge.Push p c).2 = f_state (Fifo.push p f).2) by apply H2. rewrite H1. split.
  - split; [by eexists|]. rewrite Hc, Hst2. split; [done|]. destruct Hfp as [(_ & _ & ->)|(_ & _ & ->)]; [done|by rewrite <- Hst].
  - rewrite Hq2, Hq. destruct Hfp as [(-> & -> & _)|(-> & -> & _)]; done.
Qed.

Lemma pop_takes c : takes c -> takes (Edge.Pop c).2 /\ (option_list (Edge.Pop c).1 ++ contents (Edge.Pop c).2)%list = contents c.
Proof.
  intros ((f & Hf) & Hp & Hs). destruct (pop_rep c f Hf) as [H1 H2]. rewrite H1, (channel_contents _ _ Hf), (channel_contents _ _ H2). split.
  - split; [by eexists|]. unfold Edge.Pop. destruct (_ =? 0); done.
  - unfold Fifo.pop. destruct (f_queue f) eqn:E; simpl; by rewrite ?E.
Qed.

Lemma clear_takes c : takes c -> takes (Edge.ClearBackpressure c).2 /\ contents (Edge.ClearBackpressure c).2 = contents c.
Proof.
  intros ((f & Hf) & Hp & Hs). destruct (clear_rep c f Hf) as [_ H2]. rewrite (channel_contents _ _ Hf), (channel_contents _ _ H2). split.
  - split; [by eexists|]. unfold Edge.ClearBackpressure. destruct (Edge.full c); [done|]. by destruct (decide _).
  - unfold Fifo.clear_backpressure. destruct (Fifo.full f); [done|]. by destruct (decide _).
Qed.

(** ** The channels of a heap *)

Definition taking (E : list edge_ref) (h : heap) : Prop := forall e, e ∈ E -> exists c, h_edges h !! e = Some c /\ takes (ch_edge c).
Definition pending_on (h : heap) (e : edge_ref) : list PacketRef := contents (edge_in h e).

Lemma taking_change E h h' e x : taking E h -> e ∈ E -> takes x ->
  (forall c, h_edges h !! e = Some c -> h_edges h' = <[e := MkChannel x (ch_producer c) (ch_consumer c)]> (h_edges h)) ->
  taking E h' /\ forall e', pending_on h' e' = if bool_decide (e' = e) then contents x else pending_on h e'.
Proof.
  intros HE He Hx Hh. destruct (HE e He) as (c & Hc & _). specialize (Hh c Hc). pose proof (lookup_lt_Some _ _ _ Hc) as Hlt. unfold edge_ref in *. split.
  - intros e' He'. rewrite Hh. destruct (decide (e' = e)) as [->|Hn]; [rewrite list_lookup_insert_eq by done; by eexists|].
    rewrite list_lookup_insert_ne by done. by apply HE.
  - intros e'. unfold pending_on, edge_in. rewrite Hh. case_bool_decide as Hd; [subst; by rewrite list_lookup_insert_eq by done|]. by rewrite list_lookup_insert_ne.
Qed.

Lemma push_edge_heap e p ro c : h_edges (ro_heap ro) !! e = Some c ->
  (PushEdge e p ro).1 = (Edge.Push p (ch_edge c)).1 /\ ro_heap (PushEdge e p ro).2 = set_channel e (Edge.Push p (ch_edge c)).2 (ro_heap ro).
Proof. intros Hc. unfold PushEdge, set_channel. rewrite Hc. destruct (Edge.Push p (ch_edge c)) as [[] x]; done. Qed.

Lemma push_edge_queued E e p ro : taking E (ro_heap ro) -> e ∈ E -> Edge.is_eos_ref p = false ->
  let '(o, ro') := PushEdge e p ro in
  taking E (ro_heap ro') /\ h_nodes (ro_heap ro') = h_nodes (ro_heap ro) /\
  forall e', pending_on (ro_heap ro') e' = (pending_on (ro_heap ro) e' ++ if bool_decide (e' = e) && negb (bool_decide (o = kWouldBlock)) then [p] else [])%list.
Proof.
  intros HE He Hp. destruct (HE e He) as (c & Hc & Ht). destruct (push_takes _ p Ht Hp) as [Hx Hq].
  destruct (push_edge_heap e p ro c Hc) as [Ho Hh]. destruct (PushEdge e p ro) as [o ro']. simpl in Ho, Hh. rewrite Hh, Ho.
  destruct (taking_change E (ro_heap ro) (set_channel e (Edge.Push p (ch_edge c)).2 (ro_heap ro)) e _ HE He Hx) as [HE' Hc'].
  { intros c' Hc'. unfold set_channel. by rewrite Hc'. }
  split; [done|]. split; [unfold set_channel; by rewrite Hc|]. intros e'. rewrite Hc'. destruct (decide (e' = e)) as [->|Hn].
  - rewrite !bool_decide_eq_true_2 by done. unfold pending_on, edge_in. rewrite Hc. simpl. destruct (bool_decide _); by rewrite Hq, ?app_nil_r.
  - rewrite !bool_decide_eq_false_2 by done. simpl. by rewrite app_nil_r.
Qed.

(** ** Parked packets *)

Definition for_edge (e : edge_ref) (l : list (edge_ref * PacketRef)) : list PacketRef :=
  map snd (List.filter (fun x => bool_decide (x.1 = e)) l).

Lemma for_edge_app e l1 l2 : for_edge e (l1 ++ l2)%list = (for_edge e l1 ++ for_edge e l2)%list.
Proof. unfold for_edge. by rewrite List.filter_app, map_app. Qed.

Lemma for_edge_cons e e1 p l : for_edge e ((e1, p) :: l) = ((if bool_decide (e = e1) then [p] else []) ++ for_edge e l)%list.
Proof. unfold for_edge. simpl. rewrite (bool_decide_ext (e1 = e) (e = e1)) by done. by destruct (bool_decide _). Qed.

(** What may be parked: data of the edges considered. *)
Definition parkable (E : list edge_ref) (x : edge_ref * PacketRef) : Prop := x.1 ∈ E /\ Edge.is_eos_ref x.2 = false.

(** A pass moves packets from the parked list to the channels and keeps the
    order on every edge. *)
Lemma retry_pass_line E work : forall blocked still ro,
  taking E (ro_heap ro) -> Forall (parkable E) work -> Forall (parkable E) still ->
  (forall e, for_edge e still <> [] -> e ∈ blocked) ->
  let '(still', ro') := retry_pass work blocked still ro in
  taking E (ro_heap ro') /\ h_nodes (ro_heap ro') = h_nodes (ro_heap ro) /\ Forall (parkable E) still' /\
  forall e, (pending_on (ro_heap ro') e ++ for_edge e still')%list = (pending_on (ro_heap ro) e ++ for_edge e still ++ for_edge e work)%list.
Proof.
  induction work as [|[e p] work IH]; intros blocked still ro HE Hw Hst Hb; simpl.
  { repeat split; try done. intros e. by rewrite app_nil_r. }
  pose proof (Forall_inv Hw) as [He Hp]. pose proof (Forall_inv_tail Hw) as Hw'. simpl in He, Hp.
  assert (Hst' : Forall (parkable E) (still ++ [(e, p)])%list) by (apply Forall_app; by repeat constructor).
  assert (Hk : forall b, e ∈ b -> blocked ⊆ b -> forall e', for_edge e' (still ++ [(e, p)])%list <> [] -> e' ∈ b).
  { intros b Heb Hsub e'. rewrite for_edge_app, for_edge_cons. case_bool_decide as Hd; [by subst|]. simpl. rewrite app_nil_r. auto. }
  case_bool_decide as Hbl.
  { specialize (IH blocked (still ++ [(e, p)])%list ro HE Hw' Hst' (Hk _ Hbl ltac:(done))). destruct (retry_pass work _ _ _) as [still' ro'].
    destruct IH as (? & ? & ? & IH). repeat split; try done. intros e'. by rewrite IH, for_edge_app, !for_edge_cons, app_nil_r, <- !app_assoc. }
  pose proof (push_edge_queued E e p ro HE He Hp) as Hq. destruct (PushEdge e p ro) as [o ro1]. destruct Hq as (HE1 & Hn1 & Hq).
  case_bool_decide as Ho.
  - specialize (IH (e :: blocked) (still ++ [(e, p)])%list ro1 HE1 Hw' Hst' (Hk (e :: blocked) ltac:(left) ltac:(set_solver))). destruct (retry_pass work _ _ _) as [still' ro'].
    destruct IH as (? & ? & ? & IH). repeat split; try done; [congruence|]. intros e'.
    rewrite IH, Hq, andb_false_r, for_edge_app, !for_edge_cons, !app_nil_r, <- !app_assoc. done.
  - specialize (IH blocked still ro1 HE1 Hw' Hst Hb). destruct (retry_pass work _ _ _) as [still' ro'].
    destruct IH as (? & ? & ? & IH). repeat split; try done; [congruence|]. intros e'. rewrite IH, Hq, for_edge_cons, andb_true_r.
    case_bool_decide as Hd; [|by rewrite app_nil_r]. subst e'. destruct (for_edge e still) eqn:Ef; [by rewrite <- app_assoc|].
    destruct Hbl. apply Hb. by rewrite Ef.
Qed.

(** ** One producer *)

Section producer.
Variables (r : nat) (id : Z) (E : list edge_ref).

(** The packets between a producer and the consumer of [e], in order. *)
Definition line (e : edge_ref) (s : Scheduler) : list PacketRef := (pending_on (sc_heap s) e ++ for_edge e (parked_of r s))%list.

(** The edges of the producer take packets, and it may park on them. *)
Record sending (s : Scheduler) : Prop := {
  se_edges : taking E (sc_heap s);
  se_parked : Forall (parkable E) (parked_of r s);
  se_bound : exists t, sc_bound s !! r = Some t /\ Forall (fun e => SharedEdgeFor t e = Some e) E;
  se_node : n_id (nd r s) = id /\ cancelled_ (nd r s) = false;
}.

(** Steps that leave channels, parked packets and the node's identity alone. *)
Definition aside (s s' : Scheduler) : Prop :=
  h_edges (sc_heap s') = h_edges (sc_heap s) /\ sc_parked s' = sc_parked s /\ sc_bound s' = sc_bound s /\
  n_id (nd r s') = n_id (nd r s) /\ cancelled_ (nd r s') = cancelled_ (nd r s).

#[local] Instance aside_refl : Reflexive aside.
Proof. by repeat split. Qed.
#[local] Instance aside_trans : Transitive aside.
Proof. intros a b c (?&?&?&?&?) (?&?&?&?&?). repeat split; congruence. Qed.

Lemma aside_sending s s' : aside s s' -> sending s -> sending s' /\ forall e, line e s' = line e s.
Proof.
  intros (He & Hp & Hb & Hi & Hc) [H1 H2 H3 [H4 H5]]. unfold line, pending_on, edge_in, parked_of in *. rewrite He, Hp. split; [|done].
  split; unfold taking, parked_of; rewrite ?He, ?Hp, ?Hb, ?Hi, ?Hc; done.
Qed.

Lemma set_nd_aside x n s : n_id n = n_id (nd x s) -> cancelled_ n = cancelled_ (nd x s) -> aside s (set_nd x n s).
Proof.
  intros Hi Hc. destruct (node_of (sc_heap s) x) as [m|] eqn:Hm; [|by rewrite set_nd_out].
  repeat split; (destruct (decide (x = r)) as [->|Hn]; [rewrite nd_set_eq by done|rewrite nd_set_ne by done]; done).
Qed.

Lemma MarkReady_aside x s : aside s (MarkReady x s).
Proof.
  unfold MarkReady. destruct (negb _ || _); [done|]. destruct (negb _); [done|]. destruct (Node.TrySchedule (nd x s)) as [[] n] eqn:Et; [|done].
  assert (Ha : aside s (set_nd x n s)).
  { unfold Node.TrySchedule in Et. repeat case_match; simplify_eq/=. by apply set_nd_aside. }
  unfold SubmitCpu. destruct (executor_stopped_ _); [|done]. transitivity (set_nd x n s); [done|]. by apply set_nd_aside.
Qed.

Lemma MarkReady_all_aside l : forall s, aside s (each MarkReady l s).
Proof. induction l as [|x l IH]; intros s; [done|]. transitivity (MarkReady x s); [apply MarkReady_aside|apply IH]. Qed.

Lemma RetryParked_line s : sending s -> sending (RetryParked r s).2 /\ forall e, line e (RetryParked r s).2 = line e s.
Proof.
  intros Hs. unfold RetryParked. destruct (sc_parked s !! r) as [work|] eqn:Hw; [|done]. pose proof Hs as [HE Hp Hb [Hi Hc]]. rewrite Hc.
  assert (Hpw : parked_of r s = work) by (unfold parked_of; by rewrite Hw). rewrite Hpw in Hp.
  pose proof (retry_pass_line E work [] [] (MkRouting (sc_heap s) (Some empty_report) 0 0) HE Hp (Forall_nil_2 _) ltac:(done)) as Hr.
  destruct (retry_pass _ _ _ _) as [still ro]. destruct Hr as (HE' & Hn & Hst & Hl). cbn [ro_heap] in Hn, Hl.
  assert (Hgo : forall f, default [] (f (sc_parked s) !! r) = still -> let s1 := on_parked f (on_heap (fun _ => ro_heap ro) s) in
                sending s1 /\ forall e, line e s1 = line e s).
  { intros f Hm s1. split; [|intros e; unfold line, parked_of; cbn; rewrite Hm, Hw; apply Hl]. split; [done|unfold parked_of; cbn; by rewrite Hm|done|].
    unfold nd, node_of. cbn. by rewrite Hn. }
  set (s1 := on_heap _ s) in *. destruct still as [|x still]; simpl.
  - destruct (Hgo (delete r)) as [H1 H2]; [by rewrite lookup_delete_eq|].
    destruct (aside_sending _ _ (MarkReady_all_aside (targets ro) (DropParked r s1)) H1) as [? Hl']. split; [done|]. intros e. by rewrite Hl'.
  - destruct (Hgo (<[r := x :: still]>)) as [H1 H2]; [by rewrite lookup_insert_eq|].
    destruct (aside_sending _ _ (MarkReady_all_aside (targets ro) (on_parked (<[r := x :: still]>) s1)) H1) as [? Hl']. split; [done|]. intros e. by rewrite Hl'.
Qed.

Lemma Park_line e p s : sending s -> e ∈ E -> Edge.is_eos_ref p = false ->
  sending (Park r e p s) /\ forall e', line e' (Park r e p s) = (line e' s ++ if bool_decide (e' = e) then [p] else [])%list.
Proof.
  intros [HE Hp (t & Ht & Hsh) Hn] He Heos. unfold Park. rewrite Ht. simpl. rewrite (proj1 (Forall_forall _ _) Hsh e He).
  assert (Hl : parked_of r (on_parked (<[r := parked_of r s ++ [(e, p)]]>)%list s) = (parked_of r s ++ [(e, p)])%list)
    by (unfold parked_of at 1; cbn; by rewrite lookup_insert_eq). split.
  - split; [done| |by eexists|done]. rewrite Hl. apply Forall_app. by repeat constructor.
  - intros e'. unfold line. rewrite Hl, for_edge_app, for_edge_cons, !app_nil_r, app_assoc. done.
Qed.

Lemma push_route_line p e s rep : sending s -> e ∈ E -> Edge.is_eos_ref p = false ->
  let '(s', _) := push_route r p e (s, rep) in
  sending s' /\ forall e', line e' s' = (line e' s ++ if bool_decide (e' = e) then [p] else [])%list.
Proof.
  intros Hs He Hp. unfold push_route. destruct (HasParkedOn r e s) eqn:Hh; [by apply Park_line|]. pose proof Hs as [HE Hpk Hb Hn].
  pose proof (push_edge_queued E e p (MkRouting (sc_heap s) rep 0 0) HE He Hp) as Hq. destruct (PushEdge e p _) as [o ro]. cbn [ro_heap] in Hq.
  destruct Hq as (HE' & Hn' & Hq). set (s1 := on_heap _ s).
  assert (Hs1 : sending s1) by (split; [done|done|done|]; unfold nd, node_of in *; cbn; by rewrite Hn').
  assert (Hno : for_edge e (parked_of r s) = []).
  { unfold for_edge. unfold HasParkedOn in Hh. clear -Hh. induction (parked_of r s) as [|x l IH]; [done|]. simpl in *. apply orb_false_iff in Hh as [-> ?]. auto. }
  assert (Hl : forall e', line e' s1 = (line e' s ++ if bool_decide (e' = e) && negb (bool_decide (o = kWouldBlock)) then [p] else [])%list).
  { intros e'. unfold line. subst s1. cbn. rewrite Hq, <- !app_assoc. f_equal. destruct (decide (e' = e)) as [->|Hd]; [|by rewrite bool_decide_eq_false_2, app_nil_r].
    change (parked_of r (on_heap _ s)) with (parked_of r s). by rewrite Hno, app_nil_r. }
  destruct (bool_decide (o = kWouldBlock)); [|split; [done|]; intros e'; rewrite Hl; by destruct (bool_decide _)].
  destruct (Park_line e p s1 Hs1 He Hp) as [? Hl']. split; [done|]. intros e'. rewrite Hl', Hl. by rewrite andb_false_r, app_nil_r.
Qed.

Lemma set_ed_line e x s : sending s -> e ∈ E -> takes x ->
  sending (set_ed e x s) /\ forall e', pending_on (sc_heap (set_ed e x s)) e' = if bool_decide (e' = e) then contents x else pending_on (sc_heap s) e'.
Proof.
  intros [HE Hp Hb Hn] He Hx. destruct (taking_change E (sc_heap s) (set_channel e x (sc_heap s)) e x HE He Hx) as [HE' Hq].
  { intros c Hc. unfold set_channel. by rewrite Hc. }
  split; [|done]. split; [done|done|done|]. unfold nd, node_of, set_ed, set_channel. cbn. by case_match.
Qed.

Lemma set_ed_same e x s : sending s -> e ∈ E -> takes x -> contents x = pending_on (sc_heap s) e ->
  sending (set_ed e x s) /\ forall e', line e' (set_ed e x s) = line e' s.
Proof.
  intros Hs He Hx Hc. destruct (set_ed_line e x s Hs He Hx) as [H1 H2]. split; [done|]. intros e'. unfold line. rewrite H2.
  case_bool_decide; subst; by rewrite ?Hc.
Qed.

Lemma sending_takes e s : sending s -> e ∈ E -> takes (ed e s).
Proof. intros Hs He. destruct (se_edges _ Hs e He) as (c & Hc & Ht). unfold ed, edge_in. by rewrite Hc. Qed.

Lemma push_routes_line p (l : list RouteEntry) : Edge.is_eos_ref p = false -> forall s rep, sending s -> Forall (fun x => re_edge x ∈ E) l ->
  let '(s', _) := fold_left (fun sr x => push_route r p (re_edge x) sr) l (s, rep) in
  sending s' /\ forall e, line e s' = (line e s ++ map (fun _ => p) (List.filter (fun x => bool_decide (e = re_edge x)) l))%list.
Proof.
  intros Hp. induction l as [|x l IH]; intros s rep Hs Hl; cbn [fold_left]; [split; [done|]; intros e; by rewrite app_nil_r|].
  pose proof (Forall_inv Hl) as Hx. pose proof (push_route_line p (re_edge x) s rep Hs Hx Hp) as H1. destruct (push_route r p (re_edge x) (s, rep)) as [s1 rep1].
  destruct H1 as [Hs1 H1]. specialize (IH s1 rep1 Hs1 (Forall_inv_tail Hl)). destruct (fold_left _ l (s1, rep1)) as [s2 rep2]. destruct IH as [Hs2 IH].
  split; [done|]. intros e. rewrite IH, H1. simpl. case_bool_decide; simpl; by rewrite <- app_assoc.
Qed.

(** What happens on the edges of the producer: it emits, its parked packets
    are retried, a consumer takes a packet or clears the back-pressure mark. *)
Inductive traffic : Type :=
| Send (now : Z) (k : Sink) (port : string) (packet : Packet) (video_only : bool)
| Retry
| Take (e : edge_ref)
| Clear (e : edge_ref).

Definition happens (op : traffic) (s : Scheduler) : Scheduler :=
  match op with
  | Send now k port packet video_only => (PushOnRoutes now k port packet video_only s).2
  | Retry => (RetryParked r s).2
  | Take e => set_ed e (Edge.Pop (ed e s)).2 s
  | Clear e => set_ed e (Edge.ClearBackpressure (ed e s)).2 s
  end.

(** The stamped packet, once for every route over [e]. *)
Definition sent (e : edge_ref) (op : traffic) (s : Scheduler) : list PacketRef :=
  match op with
  | Send now k port packet video_only =>
      match RuntimeTopology.Prepare now (si_ingress k) (si_topo k) (h_tags (sc_heap s)) (nd r s) port packet (si_pv k) with
      | Value (Some p) =>
          map (fun _ => Some p) (List.filter (fun x => bool_decide (e = re_edge x))
            (List.filter (fun x => negb video_only || IsVideoRoute (re_contract x)) (default [] (RoutesFor (si_topo k) (n_id (nd r s)) port))))
      | _ => []
      end
  | _ => []
  end.
Definition received (e : edge_ref) (op : traffic) (s : Scheduler) : list PacketRef :=
  match op with Take e' => if bool_decide (e = e') then option_list (Edge.Pop (ed e s)).1 else [] | _ => [] end.

Definition allowed (op : traffic) : Prop :=
  match op with
  | Send _ k port packet _ => si_node k = r /\ PacketOps.is_eos packet = false /\ Forall (fun x => re_edge x ∈ E) (default [] (RoutesFor (si_topo k) id port))
  | Retry => True
  | Take e | Clear e => e ∈ E
  end.

Fixpoint ensue (ops : list traffic) (s : Scheduler) : Scheduler := match ops with [] => s | op :: rest => ensue rest (happens op s) end.
Fixpoint all_sent (e : edge_ref) (ops : list traffic) (s : Scheduler) : list PacketRef :=
  match ops with [] => [] | op :: rest => (sent e op s ++ all_sent e rest (happens op s))%list end.
Fixpoint all_received (e : edge_ref) (ops : list traffic) (s : Scheduler) : list PacketRef :=
  match ops with [] => [] | op :: rest => (received e op s ++ all_received e rest (happens op s))%list end.

Lemma prepare_eos now i t tags n port packet v p :
  RuntimeTopology.Prepare now i t tags n port packet v = Value (Some p) -> PacketOps.is_eos p = PacketOps.is_eos packet.
Proof. unfold RuntimeTopology.Prepare. intros H. repeat case_match; simplify_eq/=; done. Qed.

Lemma send_line now k port packet v s : sending s -> allowed (Send now k port packet v) ->
  sending (happens (Send now k port packet v) s) /\ forall e, line e (happens (Send now k port packet v) s) = (line e s ++ sent e (Send now k port packet v) s)%list.
Proof.
  intros Hs (Hk & Heos & Hr). cbn [happens sent]. unfold PushOnRoutes. rewrite Hk, (proj1 (se_node _ Hs)).
  destruct (RuntimeTopology.Prepare _ _ _ _ _ _ _ _) as [[p|]|st] eqn:Ep; try (split; [done|]; intros e; by rewrite app_nil_r).
  set (l := List.filter (fun x => negb v || IsVideoRoute (re_contract x)) _).
  assert (Hl : Forall (fun x => re_edge x ∈ E) l).
  { apply Forall_forall. intros x Hx. apply list_elem_of_In, List.filter_In in Hx as [Hx _]. rewrite Forall_forall in Hr. by apply Hr, list_elem_of_In. }
  pose proof (push_routes_line (Some p) l ltac:(by rewrite <- Heos; apply (prepare_eos _ _ _ _ _ _ _ _ _ Ep)) s (Some empty_report) Hs Hl) as H1.
  destruct (fold_left _ l _) as [s1 rep]. destruct H1 as [Hs1 H1]. simpl.
  destruct (aside_sending _ _ (MarkReady_all_aside (default [] (rp_targets <$> rep)) s1) Hs1) as [Hs2 H2]. split; [done|]. intros e. by rewrite H2, H1.
Qed.

Lemma happens_line op s : sending s -> allowed op ->
  sending (happens op s) /\ forall e, (received e op s ++ line e (happens op s))%list = (line e s ++ sent e op s)%list.
Proof.
  intros Hs Ha. destruct op as [now k port packet v| |e1|e1].
  - by apply send_line.
  - destruct (RetryParked_line s Hs) as [H1 H2]. split; [done|]. intros e. cbn [happens received sent]. by rewrite H2, app_nil_r.
  - destruct (pop_takes _ (sending_takes e1 s Hs Ha)) as [Hx Hc]. destruct (set_ed_line e1 _ s Hs Ha Hx) as [H1 H2]. split; [done|].
    intros e. cbn [happens received sent]. rewrite app_nil_r. unfold line. rewrite H2. case_bool_decide as Hd; [subst e|done]. by rewrite app_assoc, Hc.
  - destruct (clear_takes _ (sending_takes e1 s Hs Ha)) as [Hx Hc]. destruct (set_ed_same e1 _ s Hs Ha Hx Hc) as [H1 H2]. split; [done|].
    intros e. cbn [happens received sent]. by rewrite H2, app_nil_r.
Qed.

(** C3: on a blocking edge nothing is lost, duplicated or reordered by
    back-pressure: after any interleaving of emits of a producer, retries of
    its parked packets and work of the consumers, what the consumer of an edge
    received, then what the channel holds, then what is parked for it, is
    exactly what was there before followed by what was emitted over it. *)
Theorem parked_in_order (ops : list traffic) (s : Scheduler) (e : edge_ref) :
  sending s -> Forall allowed ops -> (all_received e ops s ++ line e (ensue ops s))%list = (line e s ++ all_sent e ops s)%list.
Proof.
  intros Hs Ha. revert s Hs. induction Ha as [|op ops Hop Ha IH]; intros s Hs; simpl; [by rewrite app_nil_r|].
  destruct (happens_line op s Hs Hop) as [Hs1 H1]. by rewrite <- app_assoc, IH, app_assoc, H1, <- app_assoc.
Qed.

End producer.

(** ** A narrow edge *)

Lemma pipe_edge : exists c, h_edges (sc_heap (first_state pipe)) !! 0%nat = Some c /\
  ch_edge c = Edge.make (id_ (ch_edge c)) (external_id_ (ch_edge c)) (contract_ (ch_edge c)) (config_ (ch_edge c)) (from_ (ch_edge c)) (to_ (ch_edge c)) /\
  policy (config_ (ch_edge c)) = kBlock /\ 1 <= capacity (config_ (ch_edge c)) <= 2 ^ 31.
Proof. eexists. split; [by vm_compute|]. split; [by vm_compute|]. split; [by vm_compute|]. split; by vm_compute. Qed.

Lemma pipe_rest : parked_of 0 (first_state pipe) = [] /\ cancelled_ (nd 0 (first_state pipe)) = false /\
  exists t, sc_bound (first_state pipe) !! 0%nat = Some t /\ SharedEdgeFor t 0%nat = Some 0%nat.
Proof. split; [by vm_compute|]. split; [by vm_compute|]. eexists. split; by vm_compute. Qed.

Lemma sending_fresh r e s c t : h_edges (sc_heap s) !! e = Some c ->
  ch_edge c = Edge.make (id_ (ch_edge c)) (external_id_ (ch_edge c)) (contract_ (ch_edge c)) (config_ (ch_edge c)) (from_ (ch_edge c)) (to_ (ch_edge c)) ->
  policy (config_ (ch_edge c)) = kBlock -> 1 <= capacity (config_ (ch_edge c)) <= 2 ^ 31 ->
  parked_of r s = [] -> cancelled_ (nd r s) = false -> sc_bound s !! r = Some t -> SharedEdgeFor t e = Some e -> sending r (n_id (nd r s)) [e] s.
Proof.
  intros Hc Hm Hp Hcap Hpk Hn Hb Ht. split; [|by rewrite Hpk|by exists t; repeat constructor|done].
  intros e' ->%list_elem_of_singleton. exists c. split; [done|]. split; [|split; [done|by rewrite Hm]].
  exists (fifo_make (config_ (ch_edge c))). rewrite Hm at 1. apply make_rep. lia.
Qed.

Lemma pipe_sending : sending 0 (n_id (nd 0 (first_state pipe))) [0%nat] (first_state pipe).
Proof.
  destruct pipe_edge as (c & H1 & H2 & H3 & H4). destruct pipe_rest as (H5 & H6 & t & H7 & H8).
  exact (sending_fresh 0 0%nat (first_state pipe) c t H1 H2 H3 H4 H5 H6 H7 H8).
Qed.

(** Two packets are emitted before one is taken; the edge holds one. *)
Definition pipe_sink : Sink := MkSink 0 (launched pipe).1 1 0 [].
Definition pipe_traffic : list traffic :=
  [Send 0 pipe_sink "out" (frame 2) false; Send 0 pipe_sink "out" (frame 1) false; Take 0%nat; Clear 0%nat; Retry; Take 0%nat; Send 0 pipe_sink "out" (frame 3) false].

Lemma pipe_allowed : Forall (allowed 0 (n_id (nd 0 (first_state pipe))) [0%nat]) pipe_traffic.
Proof.
  assert (Hr : Forall (fun x => re_edge x ∈ [0%nat]) (default [] (RoutesFor (si_topo pipe_sink) (n_id (nd 0 (first_state pipe))) "out"))).
  { apply (Forall_impl (fun x => bool_decide (re_edge x = 0%nat) = true)); [|intros x Hx%bool_decide_eq_true; by apply list_elem_of_singleton].
    apply Forall_forall. intros x Hx%list_elem_of_In. revert x Hx. apply forallb_forall. by vm_compute. }
  assert (Hs : forall n, PacketOps.is_eos (frame n) = false) by done.
  unfold pipe_traffic. repeat (apply Forall_cons; split; [first [exact (conj eq_refl (conj (Hs _) Hr))|exact I|by apply list_elem_of_singleton]|]). apply Forall_nil_2.
Qed.

Lemma parked_in_order_witness :
  map (from_option (fun p => seq (header p)) 0) (all_received 0 0%nat pipe_traffic (first_state pipe)) = [2; 1] /\
  (all_received 0 0%nat pipe_traffic (first_state pipe) ++ line 0 0%nat (ensue 0 pipe_traffic (first_state pipe)))%list =
    (line 0 0%nat (first_state pipe) ++ all_sent 0 0%nat pipe_traffic (first_state pipe))%list.
Proof.
  split; [by vm_compute|].
  exact (parked_in_order 0 (n_id (nd 0 (first_state pipe))) [0%nat] pipe_traffic (first_state pipe) 0%nat pipe_sending pipe_allowed).
Defined.
