(* ===== verification/SessionTypes.v ===== *)
(** The states of a session and its options (include/ge/cpp/session.h,
    src/session.cpp). *)

From stdpp Require Import base numbers list strings.
From Stdlib Require Import ZArith Ascii String.
From S2P Require Import Prelude InputBinding.

Local Open Scope string_scope.
Local Open Scope Z_scope.

Inductive SessionState : Type := kCreated | kStarting | kRunning | kPausing | kPaused | kStopping | kStopped | kSessionFailed.

#[export] Instance SessionState_dec : EqDecision SessionState.
Proof. solve_decision. Defined.

Definition SessionState_ToString (s : SessionState) : string :=
  match s with
  | kCreated => "created"
  | kStarting => "starting"
  | kRunning => "running"
  | kPausing => "pausing"
  | kPaused => "paused"
  | kStopping => "stopping"
  | kStopped => "stopped"
  | kSessionFailed => "failed"
  end.

(** The options the model reads. *)
Record SessionOptions : Type := MkSessionOptions {
  so_id : Z;
  so_aligned : AlignedOptions;
  so_drain_timeout : Z;
  so_merge_limit : nat;
  so_reject_unbudgeted : bool;
  so_fail_on_node_failure : bool;
}.
