(* ===== verification/SessionProtocol.v ===== *)
(** Starting, pausing, stopping and failing one session from several threads:
    the accesses of Start, Pause, Resume, Stop, OnAllClosed and OnNodeFailed
    (src/session.cpp) to the state, to the list of stop operations under its
    mutex and to the scheduler interleave freely, sequentially consistent. *)

From stdpp Require Import base numbers list relations.
From Stdlib Require Import Lia.
From S2P Require Import Prelude SessionTypes.

Local Open Scope nat_scope.
Local Open Scope list_scope.

(** Where a call stands. Stop operations are numbered as they are created. *)
Inductive call : Type :=
| StopRead (op : nat)                              (* Stop: state() *)
| StopLate (op : nat)                              (* Stop: ending already, under the mutex *)
| StopUnstarted (op : nat)                         (* Stop: the exchange created -> stopped *)
| StopFresh (op : nat)                             (* Stop: never started, under the mutex *)
| StopExchange (from : SessionState) (op : nat)    (* Stop: the exchange from -> stopping *)
| StopPush (op : nat)                              (* Stop: stop_waiters_.push_back, under the mutex *)
| StopCheck                                        (* Stop: scheduler_.all_closed() *)
| StopSched                                        (* Stop: scheduler_.Stop *)
| StartExchange                                    (* Start: the exchange created -> starting *)
| StartOpen                                        (* Start: OpenAll *)
| StartFail                                        (* Start: state_.exchange(kFailed) *)
| StartRun                                         (* Start: state_.exchange(kRunning) *)
| StartSched                                       (* Start: scheduler_.Start *)
| PauseExchange                                    (* Pause: the exchange running -> pausing *)
| PauseSched                                       (* Pause: scheduler_.Pause *)
| PauseEnd                                         (* Pause: state_.exchange(kPaused) *)
| ResumeExchange                                   (* Resume: the exchange paused -> running *)
| ResumeSched                                      (* Resume: scheduler_.Resume *)
| FailRead                                         (* OnNodeFailed: state() *)
| FailExchange (from : SessionState)               (* OnNodeFailed: the exchange from -> failed *)
| FailSched                                        (* OnNodeFailed: scheduler_.Stop(true) *)
| CloseEnter                                       (* OnAllClosed: the mutex, the flag, the swap *)
| CloseState (ops : list nat)                      (* OnAllClosed: state() *)
| CloseExchange (ops : list nat)                   (* OnAllClosed: state_.exchange(kStopped) *)
| CloseSignal (ops : list nat)                     (* OnAllClosed: the flag is set, the mutex released *)
| CloseFinish (ops : list nat)                     (* OnAllClosed: the operations succeed *)
| Returned.

Record world : Type := MkWorld {
  p_state : SessionState;
  p_locked : bool;          (* stop_mutex_ *)
  p_signalled : bool;       (* stopped_signalled_ *)
  p_waiters : list nat;     (* stop_waiters_ *)
  p_ended : list nat;       (* stop operations that succeeded *)
  p_created : nat;          (* stop operations so far *)
  p_opened : bool;          (* Start left the created state *)
  p_started : bool;         (* the scheduler was started or stopped *)
  p_paused : bool;          (* the scheduler's paused_ *)
  p_stopping : bool;        (* the scheduler's stopping_ *)
  p_closed : bool;          (* the scheduler's all_closed_ *)
  p_calls : list call;
}.

Definition state_to (s : SessionState) (w : world) : world :=
  MkWorld s (p_locked w) (p_signalled w) (p_waiters w) (p_ended w) (p_created w) (p_opened w) (p_started w) (p_paused w) (p_stopping w) (p_closed w) (p_calls w).
Definition locked_to (b : bool) (w : world) : world :=
  MkWorld (p_state w) b (p_signalled w) (p_waiters w) (p_ended w) (p_created w) (p_opened w) (p_started w) (p_paused w) (p_stopping w) (p_closed w) (p_calls w).
Definition signal (w : world) : world :=
  MkWorld (p_state w) (p_locked w) true (p_waiters w) (p_ended w) (p_created w) (p_opened w) (p_started w) (p_paused w) (p_stopping w) (p_closed w) (p_calls w).
Definition waiters_to (l : list nat) (w : world) : world :=
  MkWorld (p_state w) (p_locked w) (p_signalled w) l (p_ended w) (p_created w) (p_opened w) (p_started w) (p_paused w) (p_stopping w) (p_closed w) (p_calls w).
Definition succeed (op : nat) (w : world) : world :=
  MkWorld (p_state w) (p_locked w) (p_signalled w) (p_waiters w) (p_ended w ++ [op]) (p_created w) (p_opened w) (p_started w) (p_paused w) (p_stopping w) (p_closed w) (p_calls w).
Definition open_nodes (w : world) : world :=
  MkWorld (p_state w) (p_locked w) (p_signalled w) (p_waiters w) (p_ended w) (p_created w) true (p_started w) (p_paused w) (p_stopping w) (p_closed w) (p_calls w).
Definition scheduler_start (w : world) : world :=
  MkWorld (p_state w) (p_locked w) (p_signalled w) (p_waiters w) (p_ended w) (p_created w) (p_opened w) true (p_paused w) (p_stopping w) (p_closed w) (p_calls w).
Definition scheduler_pause (b : bool) (w : world) : world :=
  MkWorld (p_state w) (p_locked w) (p_signalled w) (p_waiters w) (p_ended w) (p_created w) (p_opened w) (p_started w) b (p_stopping w) (p_closed w) (p_calls w).
(** A stop announces itself, and a drain ends a pause. *)
Definition scheduler_stop (fast : bool) (w : world) : world :=
  MkWorld (p_state w) (p_locked w) (p_signalled w) (p_waiters w) (p_ended w) (p_created w) (p_opened w) true (if fast then p_paused w else false) true (p_closed w)
    (p_calls w).
Definition with_calls (l : list call) (w : world) : world :=
  MkWorld (p_state w) (p_locked w) (p_signalled w) (p_waiters w) (p_ended w) (p_created w) (p_opened w) (p_started w) (p_paused w) (p_stopping w) (p_closed w) l.

Definition ending (s : SessionState) : bool := match s with kStopping | kStopped | kSessionFailed => true | _ => false end.

(** [TransitionIf] *)
Definition exchange (from to : SessionState) (w : world) : world := if decide (p_state w = from) then state_to to w else w.

(** The next access of a call: what it makes of the world, and where it goes. *)
Inductive access (w : world) : call -> world -> call -> Prop :=
| a_stop_read op : access w (StopRead op) w
    (if ending (p_state w) then StopLate op else if decide (p_state w = kCreated) then StopUnstarted op else StopExchange (p_state w) op)
| a_stop_late op : p_locked w = false ->
    access w (StopLate op) (if p_signalled w then succeed op w else waiters_to (p_waiters w ++ [op]) w) Returned
| a_stop_unstarted op : access w (StopUnstarted op) (exchange kCreated kStopped w) (if decide (p_state w = kCreated) then StopFresh op else StopRead op)
| a_stop_fresh op : p_locked w = false -> access w (StopFresh op) (succeed op (signal w)) Returned
| a_stop_exchange from op : access w (StopExchange from op) (exchange from kStopping w) (if decide (p_state w = from) then StopPush op else StopRead op)
| a_stop_push op : p_locked w = false -> access w (StopPush op) (waiters_to (p_waiters w ++ [op]) w) StopCheck
| a_stop_check : access w StopCheck w (if p_closed w then CloseEnter else StopSched)
| a_stop_sched fast : access w StopSched (scheduler_stop fast w) Returned
| a_start : access w StartExchange (if decide (p_state w = kCreated) then open_nodes (state_to kStarting w) else w)
    (if decide (p_state w = kCreated) then StartOpen else Returned)
| a_open_ok : access w StartOpen w StartRun
| a_open_fails : access w StartOpen w StartFail
| a_start_fail : access w StartFail (state_to kSessionFailed w) Returned
| a_start_run : access w StartRun (state_to kRunning w) StartSched
| a_start_sched : access w StartSched (scheduler_start w) Returned
| a_pause : access w PauseExchange (exchange kRunning kPausing w) (if decide (p_state w = kRunning) then PauseSched else Returned)
| a_pause_sched : access w PauseSched (scheduler_pause true w) PauseEnd
| a_pause_end : access w PauseEnd (state_to kPaused w) Returned
| a_resume : access w ResumeExchange (exchange kPaused kRunning w) (if decide (p_state w = kPaused) then ResumeSched else Returned)
| a_resume_sched : access w ResumeSched (scheduler_pause false w) Returned
| a_fail_read : access w FailRead w (if ending (p_state w) then Returned else FailExchange (p_state w))
| a_fail_exchange from : access w (FailExchange from) (exchange from kSessionFailed w) (if decide (p_state w = from) then FailSched else FailRead)
| a_fail_sched : access w FailSched (scheduler_stop true w) Returned
| a_close_enter : p_locked w = false ->
    access w CloseEnter (if p_signalled w then w else locked_to true (waiters_to [] w)) (if p_signalled w then Returned else CloseState (p_waiters w))
| a_close_state ops : access w (CloseState ops) w (if decide (p_state w = kSessionFailed) then CloseSignal ops else CloseExchange ops)
| a_close_exchange ops : access w (CloseExchange ops) (state_to kStopped w) (CloseSignal ops)
| a_close_signal ops : access w (CloseSignal ops) (locked_to false (signal w)) (CloseFinish ops)
| a_close_finish op ops : access w (CloseFinish (op :: ops)) (succeed op w) (CloseFinish ops)
| a_close_done : access w (CloseFinish []) w Returned.

(** The host calls, the scheduler reports a failed node once it runs, and it
    reports once that every node is closed. [allowed] restricts when a call may
    proceed. *)
Inductive step (allowed : world -> call -> Prop) : world -> world -> Prop :=
| step_call w l1 c l2 w' c' : p_calls w = l1 ++ c :: l2 -> allowed w c -> access w c w' c' -> step allowed w (with_calls (l1 ++ c' :: l2) w')
| step_stop w :
    step allowed w (MkWorld (p_state w) (p_locked w) (p_signalled w) (p_waiters w) (p_ended w) (S (p_created w)) (p_opened w) (p_started w) (p_paused w)
                      (p_stopping w) (p_closed w) (p_calls w ++ [StopRead (p_created w)]))
| step_host w c : c ∈ [StartExchange; PauseExchange; ResumeExchange] -> step allowed w (with_calls (p_calls w ++ [c]) w)
| step_failed w : p_started w = true -> step allowed w (with_calls (p_calls w ++ [FailRead]) w)
| step_closed w : p_started w = true -> p_closed w = false ->
    step allowed w (MkWorld (p_state w) (p_locked w) (p_signalled w) (p_waiters w) (p_ended w) (p_created w) (p_opened w) (p_started w) (p_paused w)
                      (p_stopping w) true (p_calls w ++ [CloseEnter])).

Definition initial : world := MkWorld kCreated false false [] [] 0 false false false false false [].

(** Any interleaving, and the ones that stay clear of four windows: no stop is
    between its exchange and its entry in the list when the end is signalled,
    nobody waits when a session that never started is stopped, and the stores
    of Start and Pause find the state they left. *)
Definition anyhow (_ : world) (_ : call) : Prop := True.
Definition undisturbed (w : world) (c : call) : Prop :=
  match c with
  | CloseSignal _ => forall op, StopPush op ∉ p_calls w
  | StopFresh _ => p_waiters w = []
  | StartRun | StartFail => p_state w = kStarting
  | PauseEnd => p_state w = kPausing
  | _ => True
  end.
Definition reachable (allowed : world -> call -> Prop) : world -> Prop := rtc (step allowed) initial.

(** ** Accounting *)

Definition ops_of (c : call) : list nat :=
  match c with
  | StopRead op | StopLate op | StopUnstarted op | StopFresh op | StopExchange _ op | StopPush op => [op]
  | CloseState ops | CloseExchange ops | CloseSignal ops | CloseFinish ops => ops
  | _ => []
  end.
Definition held_ops (l : list call) : list nat := concat (map ops_of l).
Definition operations (w : world) : list nat := p_waiters w ++ p_ended w ++ held_ops (p_calls w).

Lemma held_ops_app l1 l2 : held_ops (l1 ++ l2) = held_ops l1 ++ held_ops l2.
Proof. unfold held_ops. by rewrite map_app, concat_app. Qed.

(** An access hands its operations on. *)
Lemma access_ops w c w' c' : access w c w' c' ->
  Permutation (p_waiters w' ++ p_ended w' ++ ops_of c') (p_waiters w ++ p_ended w ++ ops_of c) /\ p_created w' = p_created w.
Proof.
  destruct 1; unfold exchange; repeat case_match; simplify_eq/=; (split; [|done]); rewrite ?app_nil_r, ?app_assoc; try done; rewrite <- ?app_assoc; simpl;
    try (by rewrite (Permutation_app_comm _ [op])); try (by apply Permutation_app_head, Permutation_app_comm); [by apply Permutation_app_comm|done].
Qed.

(** ** What the calls know *)

Definition call_ok (w : world) (c : call) : Prop :=
  match c with
  | StopFresh _ => p_opened w = false /\ p_state w <> kCreated
  | StopExchange from _ => from <> kCreated /\ ending from = false
  | CloseEnter | CloseState _ | CloseExchange _ | CloseSignal _ => p_closed w = true
  | StopPush _ | StopCheck | StopSched | StartOpen | StartFail | StartRun | StartSched | PauseSched | PauseEnd | ResumeSched | FailRead | FailExchange _ | FailSched =>
      p_opened w = true
  | _ => True
  end.

Record world_ok (w : world) : Prop := {
  wo_fresh : if p_opened w then p_state w <> kCreated else p_state w = kCreated \/ p_state w = kStopped;
  wo_started : p_started w = true -> p_opened w = true;
  wo_closed : p_closed w = true -> p_opened w = true;
  wo_signalled : p_signalled w = true -> p_closed w = true \/ p_opened w = false /\ p_state w <> kCreated;
}.

(** Nothing is forgotten: the session never becomes unopened or unclosed. *)
Definition later (w w' : world) : Prop :=
  (p_opened w = true -> p_opened w' = true) /\ (p_closed w = true -> p_closed w' = true) /\
  (p_state w <> kCreated -> p_state w' <> kCreated /\ (p_opened w = false -> p_opened w' = false)).

Lemma call_later w w' c : later w w' -> call_ok w c -> call_ok w' c.
Proof. intros (H1 & H2 & H3) H. destruct c; simpl in *; try done; auto. destruct H as [Ho Hs]. destruct (H3 Hs) as [? Ha]. auto. Qed.

Lemma access_ok w c w' c' : access w c w' c' -> world_ok w -> call_ok w c -> world_ok w' /\ call_ok w' c' /\ later w w'.
Proof.
  intros Ha [H1 H2 H3 H4] Hc. unfold later. destruct Ha; unfold exchange in *; simpl in Hc; repeat case_match; simplify_eq/=;
    (split_and!; [split|..]); simpl; try done; try (destruct (p_opened w) eqn:Eo); try done; try (intuition congruence);
    (destruct Hc as [? He]; destruct H1 as [E|E]; rewrite E in *; done).
Qed.

Lemma step_ok allowed w w' : step allowed w w' -> world_ok w -> Forall (call_ok w) (p_calls w) -> world_ok w' /\ Forall (call_ok w') (p_calls w').
Proof.
  intros Hs Hw Hc. destruct Hs as [w l1 c l2 w' c' El _ Ha|w|w c Hin|w Hst|w Hst Hcl]; simpl.
  - rewrite El in Hc. apply Forall_app in Hc as [Hc1 Hc2]. inversion_clear Hc2 as [|? ? Hc0 Hc3]. destruct (access_ok _ _ _ _ Ha Hw Hc0) as (Hw' & Hc' & Hl).
    split; [by destruct Hw'|]. apply Forall_app. split; [|constructor; [done|]]; eapply Forall_impl; eauto; intros x Hx; by apply (call_later w w').
  - split; [by destruct Hw|]. apply Forall_app. split; [done|by constructor].
  - split; [by destruct Hw|]. apply Forall_app. split; [done|]. constructor; [|constructor]. by repeat (apply elem_of_cons in Hin as [->|Hin]; [done|]); apply not_elem_of_nil in Hin.
  - split; [by destruct Hw|]. apply Forall_app. split; [done|]. constructor; [|constructor]. by apply (wo_started _ Hw).
  - destruct Hw as [H1 H2 H3 H4]. split; [split; simpl; auto|]. apply Forall_app. split; [|by constructor].
    eapply Forall_impl; [exact Hc|]. intros x Hx. apply (call_later w); [|done]. unfold later. simpl. by split_and!.
Qed.

Lemma step_ops allowed w w' : step allowed w w' -> Permutation (operations w) (seq 0 (p_created w)) -> Permutation (operations w') (seq 0 (p_created w')).
Proof.
  unfold operations. intros Hs. destruct Hs as [w l1 c l2 w' c' El _ Ha|w|w c Hin|w Hst|w Hst Hcl]; cbn -[seq held_ops].
  - destruct (access_ops _ _ _ _ Ha) as [Hp ->]. rewrite El, !held_ops_app. unfold held_ops. simpl. intros <-.
    set (a := concat (map ops_of l1)). set (b := concat (map ops_of l2)).
    transitivity ((p_waiters w' ++ p_ended w' ++ ops_of c') ++ a ++ b); [|rewrite Hp]; rewrite <- !app_assoc; repeat apply Permutation_app_head;
      rewrite !app_assoc; apply Permutation_app_tail, Permutation_app_comm.
  - intros H. rewrite held_ops_app, seq_S, <- H, <- !app_assoc. done.
  - rewrite held_ops_app. repeat (apply elem_of_cons in Hin as [->|Hin]; [by rewrite app_nil_r|]); by apply not_elem_of_nil in Hin.
  - by rewrite held_ops_app, app_nil_r.
  - by rewrite held_ops_app, app_nil_r.
Qed.

Lemma reachable_ok allowed w : reachable allowed w ->
  world_ok w /\ Forall (call_ok w) (p_calls w) /\ Permutation (operations w) (seq 0 (p_created w)).
Proof.
  intros H. assert (H0 : world_ok initial /\ Forall (call_ok initial) (p_calls initial) /\ Permutation (operations initial) (seq 0 (p_created initial))).
  { split_and!; [split; simpl; auto; done|constructor|done]. }
  revert H0. unfold reachable in H. induction H as [w|w w' w'' Hs _ IH]; [done|]. intros (H1 & H2 & H3). apply IH.
  destruct (step_ok _ _ _ Hs H1 H2) as [? ?]. split_and!; [done|done|by eapply step_ops].
Qed.

(** C34: however Start, Pause, Resume, Stop, failing nodes and the closing of
    the scheduler interleave, a stop operation is never lost from the books
    and never ends twice: every one that was created is held by a call that
    has not returned, is waiting, or has ended, in exactly one of these ways.
    The end of the session is signalled only when every node is closed, or
    when the session was never started and never will be. *)
Theorem stop_operations_accounted w : reachable anyhow w ->
  Permutation (p_waiters w ++ p_ended w ++ held_ops (p_calls w)) (seq 0 (p_created w)) /\
  (p_signalled w = true -> p_closed w = true \/ p_opened w = false /\ p_state w <> kCreated).
Proof. intros (H1 & _ & H3)%reachable_ok. split; [exact H3|apply (wo_signalled _ H1)]. Qed.

(** ** Undisturbed, every stop operation ends *)

(** The mutex is held exactly while the end is being signalled, and nobody
    waits then. *)
Definition closing (c : call) : bool := match c with CloseState _ | CloseExchange _ | CloseSignal _ => true | _ => false end.
Definition entering (c : call) : bool := match c with CloseEnter => true | c => closing c end.
Definition pushing (c : call) : bool := match c with StopPush _ => true | _ => false end.
Definition committed (c : call) : bool := match c with StopPush _ | StopFresh _ | CloseSignal _ => true | _ => false end.
Definition some (f : call -> bool) (l : list call) : nat := List.length (List.filter f l).

Lemma some_mid f l1 c l2 : some f (l1 ++ c :: l2) = some f l1 + Nat.b2n (f c) + some f l2.
Proof. unfold some. rewrite List.filter_app, length_app. simpl. destruct (f c); simpl; lia. Qed.
Lemma some_snoc f l c : some f (l ++ [c]) = some f l + Nat.b2n (f c).
Proof. rewrite some_mid. unfold some. simpl. lia. Qed.
Lemma some_none f l : (forall c, c ∈ l -> f c = false) -> some f l = 0.
Proof.
  unfold some. induction l as [|c l IH]; intros H; [done|]. simpl. rewrite (H c) by left. apply IH. intros x Hx. apply H. by right.
Qed.

Record orderly (w : world) : Prop := {
  or_lock : some closing (p_calls w) = Nat.b2n (p_locked w);
  or_empty : p_locked w = true -> p_waiters w = [];
  or_committed : 1 <= some committed (p_calls w) -> ending (p_state w) = true;
  or_signalled : p_signalled w = true -> ending (p_state w) = true /\ p_waiters w = [] /\ some pushing (p_calls w) = 0;
  or_closed : p_closed w = true -> p_signalled w = true \/ 1 <= some entering (p_calls w);
}.

Lemma ending_stays w c w' c' : access w c w' c' -> undisturbed w c -> call_ok w c -> ending (p_state w) = true -> ending (p_state w') = true.
Proof.
  intros Ha Hu Hc He. destruct Ha; unfold exchange; simpl in *; repeat case_match; simplify_eq/=; try done; try (by rewrite Hu in He).
  all: match goal with E : p_state _ = _ |- _ => by rewrite E in He end.
Qed.

(** When the end is signalled no stop is about to wait. *)
Lemma no_push w c : c ∈ p_calls w -> Forall (call_ok w) (p_calls w) -> undisturbed w c ->
  match c with StopFresh _ | CloseSignal _ => some pushing (p_calls w) = 0 | _ => True end.
Proof.
  intros Hin Hcs Hu. rewrite Forall_forall in Hcs. destruct c; try done; apply some_none; intros x Hx; destruct x; try done.
  - destruct (Hcs _ Hin) as [Ho _]. specialize (Hcs _ Hx). simpl in *. congruence.
  - by destruct (Hu op).
Qed.

Lemma orderly_access w l1 c l2 w' c' : p_calls w = l1 ++ c :: l2 -> undisturbed w c -> access w c w' c' -> Forall (call_ok w) (p_calls w) -> orderly w ->
  orderly (with_calls (l1 ++ c' :: l2) w').
Proof.
  intros El Hu Ha Hcs [H1 H2 H3 H4 H5]. pose proof (no_push w c ltac:(rewrite El; set_solver) Hcs Hu) as Hp. rewrite El in Hcs, Hp. apply Forall_app in Hcs as [_ Hc].
  apply Forall_inv in Hc. pose proof (ending_stays _ _ _ _ Ha Hu Hc) as Hend. rewrite El in *. rewrite !some_mid in *.
  destruct Ha; unfold exchange in *; cbn [undisturbed call_ok] in Hu, Hc; split; simpl; rewrite ?some_mid; simpl in *.
  all: repeat case_match; simplify_eq/=; try lia; try done; auto.
  all: repeat match goal with E : p_state ?w = _ |- _ => progress rewrite E in * end; simpl in *.
  all: try (destruct (p_locked _); simpl in *); try (destruct (p_signalled _)); try done; try (intuition (try congruence; try lia)).
  all: apply H3; lia.
Qed.

Lemma orderly_step w w' : step undisturbed w w' -> Forall (call_ok w) (p_calls w) -> orderly w -> orderly w'.
Proof.
  intros Hs Hc Ho. destruct Hs as [w l1 c l2 w' c' El Hu Ha|w|w c Hin|w Hst|w Hst Hcl]; [by eapply orderly_access|..];
    destruct Ho as [H1 H2 H3 H4 H5]; split; simpl; rewrite ?some_snoc; simpl; rewrite ?Nat.add_0_r; try done; try lia.
  all: repeat (apply elem_of_cons in Hin as [->|Hin]; [by rewrite ?Nat.add_0_r|]); by apply not_elem_of_nil in Hin.
Qed.

Lemma orderly_reachable w : reachable undisturbed w -> orderly w.
Proof.
  intros H. assert (H0 : orderly initial /\ world_ok initial /\ Forall (call_ok initial) (p_calls initial)).
  { split; [split; simpl; try done; unfold some; simpl; lia|]. split; [split; simpl; auto; done|constructor]. }
  revert H0. unfold reachable in H. induction H as [w|w w' w'' Hs _ IH]; [by intros []|]. intros (H1 & H2 & H3). apply IH. split; [by eapply orderly_step|by eapply step_ok].
Qed.


(** ** Runs *)

(** The next access as a function; [b] decides what the source leaves open:
    whether the nodes open, whether a stop is fast. *)
Definition next (b : bool) (w : world) (c : call) : option (world * call) :=
  match c with
  | StopRead op => Some (w, if ending (p_state w) then StopLate op else if decide (p_state w = kCreated) then StopUnstarted op else StopExchange (p_state w) op)
  | StopLate op => if p_locked w then None else Some (if p_signalled w then succeed op w else waiters_to (p_waiters w ++ [op]) w, Returned)
  | StopUnstarted op => Some (exchange kCreated kStopped w, if decide (p_state w = kCreated) then StopFresh op else StopRead op)
  | StopFresh op => if p_locked w then None else Some (succeed op (signal w), Returned)
  | StopExchange from op => Some (exchange from kStopping w, if decide (p_state w = from) then StopPush op else StopRead op)
  | StopPush op => if p_locked w then None else Some (waiters_to (p_waiters w ++ [op]) w, StopCheck)
  | StopCheck => Some (w, if p_closed w then CloseEnter else StopSched)
  | StopSched => Some (scheduler_stop b w, Returned)
  | StartExchange => Some (if decide (p_state w = kCreated) then open_nodes (state_to kStarting w) else w, if decide (p_state w = kCreated) then StartOpen else Returned)
  | StartOpen => Some (w, if b then StartRun else StartFail)
  | StartFail => Some (state_to kSessionFailed w, Returned)
  | StartRun => Some (state_to kRunning w, StartSched)
  | StartSched => Some (scheduler_start w, Returned)
  | PauseExchange => Some (exchange kRunning kPausing w, if decide (p_state w = kRunning) then PauseSched else Returned)
  | PauseSched => Some (scheduler_pause true w, PauseEnd)
  | PauseEnd => Some (state_to kPaused w, Returned)
  | ResumeExchange => Some (exchange kPaused kRunning w, if decide (p_state w = kPaused) then ResumeSched else Returned)
  | ResumeSched => Some (scheduler_pause false w, Returned)
  | FailRead => Some (w, if ending (p_state w) then Returned else FailExchange (p_state w))
  | FailExchange from => Some (exchange from kSessionFailed w, if decide (p_state w = from) then FailSched else FailRead)
  | FailSched => Some (scheduler_stop true w, Returned)
  | CloseEnter => if p_locked w then None
                  else Some (if p_signalled w then w else locked_to true (waiters_to [] w), if p_signalled w then Returned else CloseState (p_waiters w))
  | CloseState ops => Some (w, if decide (p_state w = kSessionFailed) then CloseSignal ops else CloseExchange ops)
  | CloseExchange ops => Some (state_to kStopped w, CloseSignal ops)
  | CloseSignal ops => Some (locked_to false (signal w), CloseFinish ops)
  | CloseFinish (op :: ops) => Some (succeed op w, CloseFinish ops)
  | CloseFinish [] => Some (w, Returned)
  | Returned => None
  end.

Lemma next_access b w c w' c' : next b w c = Some (w', c') -> access w c w' c'.
Proof.
  destruct c; simpl; try (destruct (p_locked w) eqn:El; [done|]); try (destruct ops); intros [= <- <-]; try (constructor; done); destruct b; constructor.
Qed.

(** Call [i] moves on, or something new happens. *)
Inductive act : Type := Move (i : nat) (b : bool) | NewStop | NewCall (c : call) | Closes.

Definition undisturbedb (w : world) (c : call) : bool :=
  match c with
  | CloseSignal _ => forallb (fun c => negb (pushing c)) (p_calls w)
  | StopFresh _ => match p_waiters w with [] => true | _ => false end
  | StartRun | StartFail => bool_decide (p_state w = kStarting)
  | PauseEnd => bool_decide (p_state w = kPausing)
  | _ => true
  end.

Definition play (strict : bool) (a : act) (w : world) : option world :=
  match a with
  | Move i b => c ← p_calls w !! i; if strict && negb (undisturbedb w c) then None else
      '(w', c') ← next b w c; Some (with_calls (take i (p_calls w) ++ c' :: drop (S i) (p_calls w)) w')
  | NewStop =>
      Some (MkWorld (p_state w) (p_locked w) (p_signalled w) (p_waiters w) (p_ended w) (S (p_created w)) (p_opened w) (p_started w) (p_paused w) (p_stopping w)
              (p_closed w) (p_calls w ++ [StopRead (p_created w)]))
  | NewCall c => match c with StartExchange | PauseExchange | ResumeExchange => Some (with_calls (p_calls w ++ [c]) w) | _ => None end
  | Closes => if p_started w && negb (p_closed w) then
      Some (MkWorld (p_state w) (p_locked w) (p_signalled w) (p_waiters w) (p_ended w) (p_created w) (p_opened w) (p_started w) (p_paused w) (p_stopping w)
              true (p_calls w ++ [CloseEnter])) else None
  end.
Fixpoint plays (strict : bool) (l : list act) (w : world) : option world :=
  match l with [] => Some w | a :: l => w' ← play strict a w; plays strict l w' end.

Lemma undisturbedb_ok w c : undisturbedb w c = true -> undisturbed w c.
Proof.
  destruct c; simpl; try done; try (by intros H%bool_decide_eq_true); [by destruct (p_waiters w)|].
  rewrite forallb_forall. intros H op Hin%list_elem_of_In%H. done.
Qed.

Lemma play_step strict a w w' : play strict a w = Some w' -> step (if strict then undisturbed else anyhow) w w'.
Proof.
  destruct a as [i b| |c|]; simpl.
  - intros (c & Hc & H)%bind_Some. destruct (strict && _) eqn:Es; [done|]. apply bind_Some in H as ([w1 c1] & Hn & [= <-]).
    eapply step_call; [symmetry; by apply take_drop_middle| |by eapply next_access]. destruct strict; [|done]. apply undisturbedb_ok. apply negb_false_iff. by rewrite andb_true_l in Es.
  - intros [= <-]. constructor.
  - destruct c; try done; intros [= <-]; constructor; set_solver.
  - destruct (p_started w && negb (p_closed w)) eqn:E; [|done]. intros [= <-]. apply andb_true_iff in E as [E1 E2]. apply negb_true_iff in E2. by constructor.
Qed.

Lemma plays_reachable (strict : bool) l : forall w w', reachable (if strict then undisturbed else anyhow) w -> plays strict l w = Some w' ->
  reachable (if strict then undisturbed else anyhow) w'.
Proof.
  induction l as [|a l IH]; intros w w' Hr; simpl; [by intros [= <-]|]. intros (w1 & H1 & H2)%bind_Some. apply (IH w1); [|done].
  eapply rtc_r; [exact Hr|by apply (play_step strict a)].
Qed.

(** A start, a drained stop that the closing answers, and a late stop. *)
Definition start_up : list act := [NewCall StartExchange; Move 0 true; Move 0 true; Move 0 true; Move 0 true].
Definition plain_stop : list act :=
  start_up ++ [NewStop; Move 1 false; Move 1 false; Move 1 false; Move 1 false; Move 1 false; NewStop; Move 2 false; Move 2 false; Closes; Move 3 false; Move 3 false;
               Move 3 false; Move 3 false; Move 3 false; Move 3 false; Move 3 false].
Definition settled (w : world) : bool := forallb (fun c => match c with Returned => true | _ => false end) (p_calls w).

Lemma settled_returned w : settled w = true -> Forall (fun c => c = Returned) (p_calls w).
Proof. unfold settled. rewrite forallb_forall, Forall_forall. intros H c Hc%list_elem_of_In%H. by destruct c. Qed.

Lemma plain_stop_run : exists w, plays true plain_stop initial = Some w /\ p_closed w = true /\ settled w = true /\ p_created w = 2.
Proof. eexists. split; [by vm_compute|]. by vm_compute. Qed.

Lemma stop_operations_accounted_witness : exists w, p_created w = 2 /\
  Permutation (p_waiters w ++ p_ended w ++ held_ops (p_calls w)) (seq 0 (p_created w)) /\
  (p_signalled w = true -> p_closed w = true \/ p_opened w = false /\ p_state w <> kCreated).
Proof.
  assert (H : exists w, plays false plain_stop initial = Some w /\ p_created w = 2) by (eexists; split; by vm_compute).
  destruct H as (w & Hw & Hc). exists w. split; [done|]. apply stop_operations_accounted. by apply (plays_reachable false plain_stop initial); [apply rtc_refl|].
Defined.


(** ** The windows *)

Definition ends_in (l : list act) (P : world -> bool) : Prop := exists w, reachable anyhow w /\ settled w = true /\ P w = true /\ plays false l initial = Some w.

Lemma ends_in_run l P : (match plays false l initial with Some w => settled w && P w | None => false end) = true -> ends_in l P.
Proof.
  destruct (plays false l initial) as [w|] eqn:E; [|done]. intros [H1 H2]%andb_true_iff. exists w. split_and!; try done.
  by apply (plays_reachable false l initial); [apply rtc_refl|].
Qed.

(** The graph ends by itself between the exchange of a stop and its entry in
    the list: the stop finds the end signalled and returns, and its operation
    waits for ever. *)
Example stop_overtaken : ends_in
  (start_up ++ [NewStop; Move 1 false; Move 1 false; Closes; Move 2 false; Move 2 false; Move 2 false; Move 2 false; Move 2 false; Move 1 false; Move 1 false; Move 1 false])
  (fun w => p_signalled w && p_closed w && bool_decide (p_waiters w = [0]) && bool_decide (p_ended w = [])).
Proof. apply ends_in_run. by vm_compute. Qed.

(** Two stops of a session that never started: the second one enters the list
    before the first one signals, and nothing will ever empty the list. *)
Example unstarted_stop_waits : ends_in
  [NewStop; NewStop; Move 0 false; Move 0 false; Move 1 false; Move 1 false; Move 0 false]
  (fun w => p_signalled w && negb (p_opened w) && bool_decide (p_waiters w = [1]) && bool_decide (p_ended w = [0])).
Proof. apply ends_in_run. by vm_compute. Qed.

(** A pause that a draining stop overtakes: the session says paused while the
    scheduler is stopping, and the sources stay paused, so they never drain. *)
Example pause_undoes_stop : ends_in
  (start_up ++ [NewCall PauseExchange; Move 1 false; NewStop; Move 2 false; Move 2 false; Move 2 false; Move 2 false; Move 2 false; Move 1 false; Move 1 false])
  (fun w => bool_decide (p_state w = kPaused) && p_stopping w && p_paused w && bool_decide (p_waiters w = [0])).
Proof. apply ends_in_run. by vm_compute. Qed.

(** A start whose nodes do not open, then a stop: the operation waits for a
    closing that cannot come, since the scheduler was never started. *)
Example failed_start_stop_waits : ends_in
  [NewCall StartExchange; Move 0 false; Move 0 false; Move 0 false; NewStop; Move 1 false; Move 1 false]
  (fun w => bool_decide (p_state w = kSessionFailed) && negb (p_started w) && bool_decide (p_waiters w = [0])).
Proof. apply ends_in_run. by vm_compute. Qed.
