(* ===== verification/Session.v ===== *)
(** A session on one thread (src/session.cpp, include/ge/cpp/session.h): the
    control requests with their operations, the execution of a batch of
    mutations from the queue to the published version, and what the session
    does when the scheduler calls back.

    A callback is an entry of the scheduler's log and is handled when the call
    on the scheduler returns. The one callback that calls the scheduler back,
    the failure of a node when [fail_session_on_node_failure] is on, stops the
    graph from within the scheduler's call (SchedulerInvoke.node_failed); what it
    does to the session itself is [OnNodeFailed]. The interleavings of the life
    cycle with threads are in SessionProtocol. Clock readings and durations are
    arguments. *)

From stdpp Require Import base numbers list strings gmap.
From Stdlib Require Import ZArith Lia Ascii String.
From S2P Require Import Prelude Types Double Json JsonParser GraphSpec CapabilityTypes Packet EdgeChannel InputBinding NodeRuntime ResourceLedger JsonReader GraphJson CapabilityJson Negotiation GraphValidator MutationApplier GraphDiff RuntimeTopology Operations Coordinator Scheduler SchedulerInvoke SessionTypes.

Local Open Scope string_scope.
Local Open Scope ge_scope.
Local Open Scope Z_scope.

(** What the callback of a retired version holds. *)
Record Completion : Type := MkCompletion {
  cm_operations : list Z;
  cm_version : Z;
  cm_detail : list (string * json);
  cm_removed : list ResourceAmount;
}.

Record Session : Type := MkSession {
  ss_state : SessionState;
  ss_failure : Status;
  ss_scheduler : Scheduler;
  ss_lease : ResourceLease;
  ss_ledger : ResourceLedger;
  ss_registry : OperationRegistry;
  ss_ended : list OperationRecord;       (* what the registry's hook was invoked with *)
  ss_queue : list MutationRequest;
  ss_completions : list (Z * Completion);
  ss_stop_waiters : list Z;
  ss_stopped_signalled : bool;
}.

Definition with_session_state (x : SessionState) (s : Session) : Session :=
  MkSession x (ss_failure s) (ss_scheduler s) (ss_lease s) (ss_ledger s) (ss_registry s) (ss_ended s) (ss_queue s) (ss_completions s) (ss_stop_waiters s) (ss_stopped_signalled s).
Definition with_failure (x : Status) (s : Session) : Session :=
  MkSession (ss_state s) x (ss_scheduler s) (ss_lease s) (ss_ledger s) (ss_registry s) (ss_ended s) (ss_queue s) (ss_completions s) (ss_stop_waiters s) (ss_stopped_signalled s).
Definition with_scheduler (x : Scheduler) (s : Session) : Session :=
  MkSession (ss_state s) (ss_failure s) x (ss_lease s) (ss_ledger s) (ss_registry s) (ss_ended s) (ss_queue s) (ss_completions s) (ss_stop_waiters s) (ss_stopped_signalled s).
Definition with_lease (x : ResourceLease) (g : ResourceLedger) (s : Session) : Session :=
  MkSession (ss_state s) (ss_failure s) (ss_scheduler s) x g (ss_registry s) (ss_ended s) (ss_queue s) (ss_completions s) (ss_stop_waiters s) (ss_stopped_signalled s).
Definition with_registry (g : OperationRegistry) (l : list OperationRecord) (s : Session) : Session :=
  MkSession (ss_state s) (ss_failure s) (ss_scheduler s) (ss_lease s) (ss_ledger s) g l (ss_queue s) (ss_completions s) (ss_stop_waiters s) (ss_stopped_signalled s).
Definition with_queue (x : list MutationRequest) (s : Session) : Session :=
  MkSession (ss_state s) (ss_failure s) (ss_scheduler s) (ss_lease s) (ss_ledger s) (ss_registry s) (ss_ended s) x (ss_completions s) (ss_stop_waiters s) (ss_stopped_signalled s).
Definition with_completions (x : list (Z * Completion)) (s : Session) : Session :=
  MkSession (ss_state s) (ss_failure s) (ss_scheduler s) (ss_lease s) (ss_ledger s) (ss_registry s) (ss_ended s) (ss_queue s) x (ss_stop_waiters s) (ss_stopped_signalled s).
Definition with_waiters (x : list Z) (b : bool) (s : Session) : Session :=
  MkSession (ss_state s) (ss_failure s) (ss_scheduler s) (ss_lease s) (ss_ledger s) (ss_registry s) (ss_ended s) (ss_queue s) (ss_completions s) x b.

(** ** Operations *)

(** A call that may end an operation; the hook gets what it ends. *)
Definition ends (f : OperationRegistry -> option OperationRecord * OperationRegistry) (s : Session) : Session :=
  let '(r, g) := f (ss_registry s) in with_registry g (ss_ended s ++ option_list r)%list s.
Definition on_registry (f : OperationRegistry -> OperationRegistry) (s : Session) : Session := with_registry (f (ss_registry s)) (ss_ended s) s.
Definition for_all {A} (f : A -> Session -> Session) (l : list A) (s : Session) : Session := fold_left (fun s x => f x s) l s.

Definition current_topology (s : Session) : RuntimeTopology := sc_topology (ss_scheduler s).
Definition AcceptsMutations (s : Session) : bool := match ss_state s with kRunning | kPaused => true | _ => false end.
Definition NotMutable (id : Z) (s : Session) : Status :=
  StatusOps.InvalidArgument ("session " ++ Dec.to_string id ++ " is " ++ SessionState_ToString (ss_state s) ++
    "; mutations and parameter updates need running/paused").

Definition CancelAll (now : Z) (reason : string) (s : Session) : Session :=
  for_all (fun r => ends (Operations.Cancel now (mr_operation r) reason)) (ss_queue s) (with_queue [] s).

Definition fail_detail (batch : Merged) (status : Status) (action : string) : json :=
  Json.obj
    ((if Str.empty action then [] else [("failed_action", JString action)]) ++
     (match mg_origins batch with _ :: _ :: _ => [("merged_operations", JArray (map (fun r => jcount (mr_operation r)) (mg_origins batch)))] | _ => [] end) ++
     (if Str.empty (context_json status) then []
      else [("context", match ParseJson (context_json status) with inl v => v | inr _ => JString (context_json status) end)]))%list.
Definition FailAll (now : Z) (batch : Merged) (status : Status) (action : string) (s : Session) : Session :=
  for_all (fun r => ends (Operations.Fail now (mr_operation r) status (fail_detail batch status action))) (mg_origins batch) s.

(** ** Callbacks *)

Definition return_resources (l : list ResourceAmount) (s : Session) : Session :=
  let '(x, g) := ReturnResources l (ss_lease s) (ss_ledger s) in with_lease x g s.

(** [OnAllClosed] *)
Definition OnAllClosed (now : Z) (s : Session) : Session :=
  if ss_stopped_signalled s then s
  else
    let ops := ss_stop_waiters s in
    let s := if decide (ss_state s = kSessionFailed) then s else with_session_state kStopped s in
    for_all (fun op => ends (Operations.Succeed now op None None JNull)) ops (with_waiters [] true s).

(** [on_complete]: what the version removed goes back, its operations end. *)
Fixpoint take_completion (v : Z) (l : list (Z * Completion)) : option (Completion * list (Z * Completion)) :=
  match l with
  | [] => None
  | (v', c) :: l' => if v =? v' then Some (c, l') else (fun '(x, k) => (x, (v', c) :: k)) <$> take_completion v l'
  end.
Definition complete (now : Z) (retire_ms : json) (v : Z) (timed_out : bool) (s : Session) : Session :=
  match take_completion v (ss_completions s) with
  | None => s
  | Some (c, rest) =>
      let d := SMap.set "retire_ms" retire_ms (cm_detail c) in
      let d := if timed_out then SMap.set "drain_timeout_upgraded_to_fast" (JBool true) d else d in
      for_all (fun op => ends (Operations.Succeed now op (Some (cm_version c)) None (JObject d))) (cm_operations c)
        (return_resources (cm_removed c) (with_completions rest s))
  end.

(** [OnNodeFailed]: the session fails with the node; its scheduler was stopped
    in the callback. *)
Definition OnNodeFailed (options : SessionOptions) (now : Z) (r : nat) (st : Status) (s : Session) : Session :=
  if negb (so_fail_on_node_failure options) then s
  else match ss_state s with
  | kSessionFailed | kStopped | kStopping => s
  | _ =>
      let failure := StatusOps.make (code st) ("node '" ++ n_external_id (nd r (ss_scheduler s)) ++ "' failed: " ++ message st) false (context_json st) in
      CancelAll now "session failed" (with_failure failure (with_session_state kSessionFailed s))
  end.

Definition handle (options : SessionOptions) (now : Z) (retire_ms : json) (e : happening) (s : Session) : Session :=
  match e with
  | RetireComplete v timed_out => complete now retire_ms v timed_out s
  | AllClosed => OnAllClosed now s
  | NodeFailed r st => OnNodeFailed options now r st s
  | _ => s
  end.
(** The scheduler was called: its state, then its callbacks. *)
Definition returns (options : SessionOptions) (now : Z) (retire_ms : json) (x : Scheduler) (s : Session) : Session :=
  for_all (handle options now retire_ms) (drop (List.length (sc_log (ss_scheduler s))) (sc_log x)) (with_scheduler x s).

(** ** Mutations *)

Section session.
Context (describe : OperatorKey -> option CapabilityDescriptor) (create : OperatorKey -> Z -> string -> json -> option Status).
Context (estimate : OperatorKey -> json -> list ResourceAmount) (op_open op_close : NodeRuntime -> Status) (iterate : list NodeInfo -> list NodeInfo).
Context {W : Type} (op_process : W -> nat -> ProcessRequest -> script W) (async : bool) (options : SessionOptions).

(** What the session attaches to its scheduler. *)
Definition hooks : Attached := MkAttached async (so_fail_on_node_failure options).

(** The action a message names. *)
Definition failed_action (patch : MutationPatch) (st : Status) : string :=
  match List.find (fun a => bool_decide (is_Some (String.index 0 (ActionTypeName a) (message st)))) (mp_actions patch) with
  | Some a => ActionTypeName a
  | None => ""
  end.

(** The parameter updates of a patch, each checked against its node. *)
Fixpoint parameter_changes (h : heap) (t : RuntimeTopology) (l : list (string * json)) : Result (list (nat * json)) :=
  match l with
  | [] => Value []
  | (node, values) :: rest =>
      match FindNode h t node with
      | None => Error (StatusOps.NotFound ("set_node_options: node '" ++ node ++ "' not found"))
      | Some r =>
          match values with
          | JObject members =>
              match Params.first_cold (from_option (fun n => par_hot_updatable (cd_parameters (n_capability n))) [] (node_of h r)) members with
              | Some k => Error (StatusOps.ParameterUnsupported ("parameter '" ++ k ++ "' of node '" ++ node ++ "' is not hot-updatable"))
              | None => let? more := parameter_changes h t rest in Value ((r, values) :: more)
              end
          | _ => Error (StatusOps.InvalidArgument "set_node_options: parameters must be an object")
          end
      end
  end.

Definition submit (op : Z) (change : nat * json) (x : Scheduler) : Scheduler :=
  on_nd (fun n => Node.with_parameters (Params.Submit (MkUpdate op change.2) (par_hot_updatable (cd_parameters (n_capability n))) (parameters_ n)).2 n) change.1 x.

(** A prepared candidate is given up. *)
Definition abort (p : Prepared) (s : Session) : Session :=
  return_resources (pr_added p) (with_scheduler (on_heap (AbandonCandidate op_close (pr_candidate p)) (ss_scheduler s)) s).

Definition with_resources (x : resources) (s : Session) : Session :=
  with_lease (rs_lease x) (rs_ledger x) (with_scheduler (on_heap (fun _ => rs_heap x) (ss_scheduler s)) s).

(** B1 to B3: the callback is handed over with the request, the version is
    published, and its operations carry its number. *)
Definition publish (fuel : nat) (now : Z) (prepare_ms retire_ms : json) (batch : Merged) (p : Prepared) (changes : list (nat * json)) (w : W) (s : Session)
    : option (W * Session) :=
  let ops := map mr_operation (mg_origins batch) in
  let published := t_version (pr_candidate p) in
  let detail := SMap.set "prepare_ms" prepare_ms (SMap.set "diff" (DiffJson (pr_diff p)) []) in
  let c := MkCompletion ops published detail (pr_removed p) in
  let x := fold_left (fun x ch => submit (hd 0 ops) ch x) changes (ss_scheduler s) in
  match Publish op_close op_process hooks fuel now (pr_candidate p) (pr_policy p) (so_drain_timeout options) (Some published) w x with
  | None => None
  | Some (st, w, x) =>
      if StatusOps.ok st then
        let s := returns options now retire_ms x (with_completions (ss_completions s ++ [(published, c)])%list s) in
        Some (w, for_all (fun op => on_registry (Operations.SetTopologyVersion op published)) ops s)
      else
        let s := abort p (returns options now retire_ms x s) in
        Some (w, for_all (fun op => ends (Operations.Cancel now op (message st))) ops s)
  end.

Definition Execute (fuel : nat) (now : Z) (prepare_ms retire_ms : json) (batch : Merged) (w : W) (s : Session) : option (W * Session) :=
  let s := for_all (fun r => on_registry (Operations.SetRunning (mr_operation r))) (mg_origins batch) s in
  if negb (AcceptsMutations s) then Some (w, FailAll now batch (NotMutable (so_id options) s) "" s)
  else
    let base := current_topology s in
    let st := BaseVersionCheck (mg_patch batch) (t_version base) in
    if negb (StatusOps.ok st) then Some (w, FailAll now batch st "" s)
    else match Prepare describe create estimate op_open op_close iterate (so_id options) (so_aligned options) (so_reject_unbudgeted options) base (mg_patch batch)
                 (Word.u64 (t_version base + 1)) (MkResources (sc_heap (ss_scheduler s)) (ss_lease s) (ss_ledger s)) with
    | None => None
    | Some (Error st, rs) => Some (w, FailAll now batch st (failed_action (mg_patch batch) st) (with_resources rs s))
    | Some (Value p, rs) =>
        let s := with_resources rs s in
        match parameter_changes (sc_heap (ss_scheduler s)) (pr_candidate p) (parameter_updates (pr_changes p)) with
        | Error st => Some (w, FailAll now batch st "set_node_options" (abort p s))
        | Value changes => publish fuel now prepare_ms retire_ms batch p changes w s
        end
    end.

Definition Pump (fuel : nat) (now : Z) (prepare_ms retire_ms : json) (w : W) (s : Session) : option (bool * W * Session) :=
  let '(batch, rest) := TakeBatch describe (t_spec (current_topology s)) (so_merge_limit options) (ss_queue s) in
  match mg_origins batch with
  | [] => Some (false, w, with_queue rest s)
  | _ => (fun x => (true, x.1, x.2)) <$> Execute fuel now prepare_ms retire_ms batch w (with_queue rest s)
  end.

(** ** Control requests *)

(** [operations_.Create] *)
Definition accept (now : Z) (kind : string) (caller : CallerContext) (detail : json) (s : Session) : Z * Session :=
  let '(op, g) := Operations.Create now kind (so_id options) caller detail (ss_registry s) in (op, with_registry g (ss_ended s) s).

Definition Apply (now : Z) (patch : MutationPatch) (caller : CallerContext) (s : Session) : Result Z * Session :=
  let '(op, s) := accept now "mutation.apply" caller (JObject [("patch", PatchJson patch)]) s in
  let refuse st := (Error st, ends (Operations.Fail now op st JNull) s) in
  if negb (AcceptsMutations s) then refuse (NotMutable (so_id options) s)
  else match mp_actions patch with
  | [] => refuse (StatusOps.InvalidArgument "patch has no actions")
  | _ => (Value op, with_queue (ss_queue s ++ [MkMutationRequest op patch])%list s)
  end.

Definition DryRun (patch : MutationPatch) (s : Session) : Result DryRunResult :=
  if negb (AcceptsMutations s) then Error (NotMutable (so_id options) s)
  else Coordinator.DryRun describe iterate (sc_heap (ss_scheduler s)) (current_topology s) patch.

Definition SetParameters (now : Z) (node : string) (values : json) (caller : CallerContext) (s : Session) : Result (Z * Z) * Session :=
  let '(op, s) := accept now "parameter.set" caller (Json.obj [("node", JString node); ("parameters", values)]) s in
  let reject st := (Error st, ends (Operations.Fail now op st JNull) s) in
  if negb (AcceptsMutations s) then reject (NotMutable (so_id options) s)
  else
    let topo := current_topology s in
    let h := sc_heap (ss_scheduler s) in
    match FindNode h topo node with
    | None => reject (StatusOps.NotFound ("node '" ++ node ++ "' not found"))
    | Some r =>
        match values with
        | JObject (_ :: _) =>
            let n := nd r (ss_scheduler s) in
            match Params.Submit (MkUpdate op values) (par_hot_updatable (cd_parameters (n_capability n))) (parameters_ n) with
            | (Error st, p) => (Error st, ends (Operations.Fail now op st JNull) (with_scheduler (set_nd r (Node.with_parameters p n) (ss_scheduler s)) s))
            | (Value v, p) =>
                (Value (v, op), ends (Operations.Succeed now op (Some (t_version topo)) (Some v) JNull)
                                  (with_scheduler (set_nd r (Node.with_parameters p n) (ss_scheduler s)) s))
            end
        | _ => reject (StatusOps.InvalidArgument "parameters must be a non-empty JSON object")
        end
    end.

(** ** Life cycle *)

Definition cannot (what : string) (s : Session) : Status :=
  StatusOps.InvalidArgument ("session cannot " ++ what ++ " from state " ++ SessionState_ToString (ss_state s)).

Definition Start (now : Z) (retire_ms : json) (s : Session) : option (Status * Session) :=
  if negb (bool_decide (ss_state s = kCreated)) then Some (cannot "start" s, s)
  else
    let x := ss_scheduler s in
    match OpenNodes op_open op_close (sc_topology x) (sc_heap x) with
    | None => None
    | Some (st, h) =>
        let s := with_scheduler (on_heap (fun _ => h) x) s in
        if negb (StatusOps.ok st) then Some (st, with_session_state kSessionFailed (with_failure st s))
        else Some (StatusOps.Ok, returns options now retire_ms (SchedulerInvoke.Start (ss_scheduler s)) (with_session_state kRunning s))
    end.
Definition Pause (s : Session) : Status * Session :=
  if negb (bool_decide (ss_state s = kRunning)) then (cannot "pause" s, s)
  else (StatusOps.Ok, with_session_state kPaused (with_scheduler (SchedulerInvoke.Pause (ss_scheduler s)) s)).
Definition Resume (now : Z) (retire_ms : json) (s : Session) : Status * Session :=
  if negb (bool_decide (ss_state s = kPaused)) then (cannot "resume" s, s)
  else (StatusOps.Ok, returns options now retire_ms (SchedulerInvoke.Resume (ss_scheduler s)) (with_session_state kRunning s)).

Definition Stop (now : Z) (retire_ms : json) (fast : bool) (caller : CallerContext) (s : Session) : option (Z * Session) :=
  let '(op, s) := accept now "session.stop" caller (JObject [("fast", JBool fast)]) s in
  match ss_state s with
  | kStopping | kStopped | kSessionFailed =>
      Some (op, if ss_stopped_signalled s then ends (Operations.Succeed now op None None JNull) s
                else with_waiters (ss_stop_waiters s ++ [op])%list false s)
  | kCreated => Some (op, ends (Operations.Succeed now op None None JNull) (with_waiters (ss_stop_waiters s) true (with_session_state kStopped s)))
  | _ =>
      let s := with_waiters (ss_stop_waiters s ++ [op])%list (ss_stopped_signalled s) (with_session_state kStopping s) in
      let s := CancelAll now "session stopping" (on_registry (Operations.SetRunning op) s) in
      if all_closed_ (sc_flags (ss_scheduler s)) then Some (op, OnAllClosed now s)
      else match SchedulerInvoke.Stop op_close fast now (ss_scheduler s) with
      | None => None
      | Some x => Some (op, returns options now retire_ms x s)
      end
  end.

(** [Session::Create] with a ledger: admission comes before any operator is
    made, and a build that fails gives the lease back. *)
Definition Create (spec : GraphSpec) (prevalidated : option ValidatedGraph) (h : heap) (ledger : ResourceLedger) (g : OperationRegistry)
    : option (Result Session * ResourceLedger) :=
  match match prevalidated with Some v => Value v | None => validate describe iterate spec end with
  | Error st => Some (Error st, ledger)
  | Value v =>
      match EstimateForAdmission estimate spec (edge_contracts v) (so_reject_unbudgeted options) [] [] with
      | Error st => Some (Error st, ledger)
      | Value amounts =>
          match Ledger.Reserve (so_id options) amounts ("session " ++ Dec.to_string (so_id options)) ledger with
          | (Error st, ledger) => Some (Error st, ledger)
          | (Value lease, ledger) =>
              match Build describe create iterate spec (MkBuildOptions (so_id options) 1 (so_aligned options) None [] [] (Some v)) h with
              | None => None
              | Some (Error st) => Some (Error st, (Ledger.Release lease ledger).2)
              | Some (Value (t, h)) =>
                  Some (Value (MkSession kCreated StatusOps.Ok (make t h) lease ledger g [] [] [] [] false), ledger)
              end
          end
      end
  end.

End session.

(** [DryRunResult::ToJson] *)
Definition DryRunJson (r : DryRunResult) : json :=
  Json.obj [("candidate", GraphJson (dr_candidate r));
            ("edge_contracts", JObject (map (fun kv => (kv.1, ContractJson kv.2)) (edge_contracts (dr_validated r))));
            ("diff", DiffJson (dr_diff r));
            ("added_nodes", JArray (map JString (Nodes kNodeAdded (dr_diff r))));
            ("removed_nodes", JArray (map JString (Nodes kNodeRemoved (dr_diff r))));
            ("added_edges", JArray (map JString (Edges kEdgeAdded (dr_diff r))));
            ("removed_edges", JArray (map JString (Edges kEdgeRemoved (dr_diff r))))].
