(* ===== verification/SessionProofs.v ===== *)
(** Every control operation of a session is accounted for: it is queued, its
    version is being retired, it waits for the session to stop, or it has ended
    once. *)

From stdpp Require Import base numbers list strings gmap relations.
From Stdlib Require Import ZArith Lia Ascii String.
From S2P Require Import Prelude Types Double Json JsonParser GraphSpec CapabilityTypes Packet EdgeChannel InputBinding NodeRuntime ResourceLedger GraphValidator RuntimeTopology TopologyProofs Operations OperationsProofs Coordinator CoordinatorProofs Scheduler SchedulerInvoke SchedulerSamples SchedulerProofs SchedulerTurns SchedulerReports SessionTypes Session.

Local Open Scope string_scope.
Local Open Scope Z_scope.

(** ** The books *)

Definition retiring_ops (s : Session) : list Z := List.concat (map (fun c => cm_operations c.2) (ss_completions s)).
Definition open_ops (s : Session) : list Z := (map mr_operation (ss_queue s) ++ retiring_ops s ++ ss_stop_waiters s)%list.
Definition issued (g : OperationRegistry) : list Z := seqZ 1 (next_id_ g - 1).

(** [held] are the operations a call has in its hands. *)
Record accounted (held : list Z) (s : Session) : Prop := {
  ac_registry : registry_ok (ss_registry s) (ss_ended s);
  ac_ops : Permutation (held ++ open_ops s ++ logged (ss_ended s)) (issued (ss_registry s));
}.

Lemma accounted_perm held held' s : Permutation held held' -> accounted held s -> accounted held' s.
Proof. intros Hp [H1 H2]. split; [done|]. by rewrite <- Hp. Qed.

Lemma accounted_fresh held s op : accounted (op :: held) s -> 1 <= op < next_id_ (ss_registry s) /\ op ∉ logged (ss_ended s).
Proof.
  intros [_ H]. assert (Hin : op ∈ issued (ss_registry s)) by (rewrite <- H; by left). unfold issued in *. apply elem_of_seqZ in Hin. split; [lia|].
  assert (Hd : NoDup (op :: held ++ open_ops s ++ logged (ss_ended s))) by (change (op :: held ++ ?x)%list with ((op :: held) ++ x)%list; rewrite H; apply NoDup_seqZ).
  apply NoDup_cons in Hd as [Hd _]. rewrite !elem_of_app in Hd. tauto.
Qed.

(** Ending an operation. *)
Definition finishes (f : OperationRegistry -> option OperationRecord * OperationRegistry) (op : Z) : Prop :=
  exists now st res det tv pv, match st with kOpSucceeded | kOpFailed | kOpCancelled => True | _ => False end /\ f = Operations.Finish now op st res det tv pv.

Lemma finish_some now op st res det tv pv g log : registry_ok g log -> 1 <= op < next_id_ g -> op ∉ logged log ->
  exists r, (Operations.Finish now op st res det tv pv g).1 = Some r /\ op_id r = op.
Proof.
  intros [Hh _ _ _ _ _ He] Hr Hn. specialize (He op). unfold Operations.Finish. destruct (SMap.find op (records_ g)) as [r|]; simpl in He; [|naive_solver].
  destruct He as (Ho & _ & Ht). destruct (terminal r).
  - destruct Ht as [Ht _]. by apply elem_of_recent in Ht.
  - destruct (Operations.evict _ _ _). simpl. rewrite Hh. by eexists.
Qed.

(** What a call on the registry leaves alone. *)
Definition same_elsewhere (s s' : Session) : Prop :=
  ss_scheduler s' = ss_scheduler s /\ ss_queue s' = ss_queue s /\ ss_completions s' = ss_completions s /\ ss_stop_waiters s' = ss_stop_waiters s /\
  ss_stopped_signalled s' = ss_stopped_signalled s /\ ss_state s' = ss_state s.
#[export] Instance same_elsewhere_preorder : PreOrder same_elsewhere.
Proof. split; [by repeat split|]. intros a b c (?&?&?&?&?&?) (?&?&?&?&?&?). repeat split; congruence. Qed.
Lemma same_open s s' : same_elsewhere s s' -> open_ops s' = open_ops s.
Proof. intros (_ & H1 & H2 & H3 & _). unfold open_ops, retiring_ops. by rewrite H1, H2, H3. Qed.

Lemma ends_accounted f op held s : finishes f op -> accounted (op :: held) s -> accounted held (ends f s) /\ same_elsewhere s (ends f s).
Proof.
  intros (now & st & res & det & tv & pv & Hst & ->) Ha. destruct (accounted_fresh _ _ _ Ha) as [Hr Hn]. destruct Ha as [Hok Hp]. unfold ends.
  destruct (finish_some now op st res det tv pv _ _ Hok Hr Hn) as (r & Er & Hid). destruct (finish_ok now op st res det tv pv _ _ Hst Hok) as [Hok' Hnext].
  destruct (Operations.Finish _ _ _ _ _ _ _ _) as [o g]. simpl in *. subst o. split; [|by repeat split]. split; [done|]. unfold issued in *. simpl. rewrite Hnext, <- Hp.
  change (open_ops (with_registry _ _ s)) with (open_ops s). unfold logged. rewrite map_app. simpl. rewrite Hid. solve_Permutation.
Qed.

Lemma all_end {A} (f : A -> OperationRegistry -> option OperationRecord * OperationRegistry) (op : A -> Z) l : (forall x, finishes (f x) (op x)) ->
  forall held s, accounted (map op l ++ held) s -> accounted held (for_all (fun x => ends (f x)) l s) /\ same_elsewhere s (for_all (fun x => ends (f x)) l s).
Proof.
  intros Hf. unfold for_all. induction l as [|x l IH]; intros held s Ha; simpl; [done|]. destruct (ends_accounted _ _ _ _ (Hf x) Ha) as [H1 H2].
  destruct (IH _ _ H1) as [H3 H4]. split; [done|]. by transitivity (ends (f x) s).
Qed.

Lemma finishes_succeed now op tv pv d : finishes (Operations.Succeed now op tv pv d) op.
Proof. by exists now, kOpSucceeded, StatusOps.Ok, d, tv, pv. Qed.
Lemma finishes_fail now op st d : finishes (Operations.Fail now op st d) op.
Proof. by exists now, kOpFailed, st, d, None, None. Qed.
Lemma finishes_cancel now op reason : finishes (Operations.Cancel now op reason) op.
Proof. by exists now, kOpCancelled, (StatusOps.Cancelled reason), JNull, None, None. Qed.

(** Marking operations. *)
Definition marks (f : OperationRegistry -> OperationRegistry) : Prop :=
  forall g log, registry_ok g log -> registry_ok (f g) log /\ next_id_ (f g) = next_id_ g.

Lemma marks_running op : marks (Operations.SetRunning op).
Proof.
  intros g log Hok. unfold Operations.SetRunning. destruct (SMap.find op (records_ g)) as [r|] eqn:E; [|done]. destruct (terminal r) eqn:Et; [done|].
  split; [|done]. apply (update_ok _ _ op r); simpl; try done; by rewrite Et.
Qed.
Lemma marks_version op v : marks (Operations.SetTopologyVersion op v).
Proof.
  intros g log Hok. unfold Operations.SetTopologyVersion. destruct (SMap.find op (records_ g)) as [r|] eqn:E; [|done]. split; [|done]. by apply (update_ok _ _ op r).
Qed.
Lemma mark_accounted f held s : marks f -> accounted held s -> accounted held (on_registry f s) /\ same_elsewhere s (on_registry f s).
Proof.
  intros Hf [H1 H2]. destruct (Hf _ _ H1) as [H3 H4]. split; [|by repeat split]. split; [done|]. unfold issued in *. simpl. by rewrite H4.
Qed.
Lemma all_marked {A} (f : A -> OperationRegistry -> OperationRegistry) l : (forall x, marks (f x)) -> forall held s, accounted held s ->
  accounted held (for_all (fun x => on_registry (f x)) l s) /\ same_elsewhere s (for_all (fun x => on_registry (f x)) l s).
Proof.
  intros Hf. unfold for_all. induction l as [|x l IH]; intros held s Ha; simpl; [done|]. destruct (mark_accounted _ _ _ (Hf x) Ha) as [H1 H2].
  destruct (IH _ _ H1) as [H3 H4]. split; [done|]. by transitivity (on_registry (f x) s).
Qed.

(** Changes that do not concern operations. *)
Lemma accounted_same held s s' : ss_registry s' = ss_registry s -> ss_ended s' = ss_ended s -> open_ops s' = open_ops s -> accounted held s -> accounted held s'.
Proof. intros H1 H2 H3 [H4 H5]. split; by rewrite ?H1, ?H2, ?H3. Qed.

Lemma CancelAll_accounted now reason held s : accounted held s -> accounted held (CancelAll now reason s) /\ same_elsewhere (with_queue [] s) (CancelAll now reason s).
Proof.
  intros Ha. apply (all_end _ mr_operation); [intros; apply finishes_cancel|]. destruct Ha as [H1 H2]. split; [done|]. simpl. rewrite <- H2. unfold open_ops, retiring_ops. simpl.
  solve_Permutation.
Qed.
Lemma FailAll_accounted now batch st action held s : accounted (map mr_operation (mg_origins batch) ++ held) s ->
  accounted held (FailAll now batch st action s) /\ same_elsewhere s (FailAll now batch st action s).
Proof. apply (all_end _ mr_operation). intros. apply finishes_fail. Qed.

Lemma return_resources_same l s : same_elsewhere s (return_resources l s) /\ ss_registry (return_resources l s) = ss_registry s /\ ss_ended (return_resources l s) = ss_ended s.
Proof. unfold return_resources. destruct (ReturnResources _ _ _). by repeat split. Qed.

(** ** Callbacks *)

Lemma OnAllClosed_accounted now held s : accounted held s ->
  let s' := OnAllClosed now s in
  accounted held s' /\ ss_completions s' = ss_completions s /\ ss_scheduler s' = ss_scheduler s /\ ss_queue s' = ss_queue s /\ ss_stopped_signalled s' = true /\
  (ss_stopped_signalled s = true -> s' = s) /\
  (ss_stopped_signalled s = false -> ss_stop_waiters s' = [] /\ (ss_state s' = kStopped \/ ss_state s' = kSessionFailed)).
Proof.
  intros Ha. unfold OnAllClosed. destruct (ss_stopped_signalled s) eqn:Es; [cbv zeta; by split_and!|]. set (s1 := if decide _ then s else _).
  assert (H1 : with_waiters [] true s1 = with_waiters [] true (with_session_state (ss_state s1) s)) by (unfold s1; by destruct (decide _); destruct s).
  assert (H2 : ss_state s1 = kStopped \/ ss_state s1 = kSessionFailed) by (unfold s1; destruct (decide _); auto).
  rewrite H1. set (s2 := with_waiters [] true _). assert (Ha2 : accounted (map id (ss_stop_waiters s) ++ held) s2).
  { destruct Ha as [A1 A2]. split; [done|]. rewrite list_fmap_id. simpl. change (ss_ended s2) with (ss_ended s). change (ss_registry s2) with (ss_registry s).
    rewrite <- A2. unfold open_ops, retiring_ops. simpl. solve_Permutation. }
  destruct (all_end (fun op => Operations.Succeed now op None None JNull) id _ (fun x => finishes_succeed now x None None JNull) held s2 Ha2)
    as [A1 (B1 & B2 & B3 & B4 & B5 & B6)]. cbv zeta. split_and!; try done. rewrite B4, B6. done.
Qed.

Lemma take_completion_spec v l : match take_completion v l with Some (c, rest) => Permutation l ((v, c) :: rest) | None => v ∉ map fst l end.
Proof.
  induction l as [|[v' c] l IH]; simpl; [by apply not_elem_of_nil|]. destruct (Z.eqb_spec v v') as [->|Hne]; [done|].
  destruct (take_completion v l) as [[x k]|]; simpl; [rewrite IH; apply Permutation_swap|]. rewrite not_elem_of_cons. done.
Qed.

Lemma concat_perm {A} (l k : list (list A)) : Permutation l k -> Permutation (List.concat l) (List.concat k).
Proof. induction 1; simpl; [done|by apply Permutation_app_head|rewrite !app_assoc; apply Permutation_app_tail, Permutation_app_comm|by etransitivity]. Qed.

Lemma complete_accounted now ms v timed_out held A s : accounted held s -> Permutation (map fst (ss_completions s)) (v :: A) ->
  let s' := complete now ms v timed_out s in
  accounted held s' /\ Permutation (map fst (ss_completions s')) A /\ ss_scheduler s' = ss_scheduler s /\ ss_queue s' = ss_queue s /\
  ss_stop_waiters s' = ss_stop_waiters s /\ ss_stopped_signalled s' = ss_stopped_signalled s /\ ss_state s' = ss_state s.
Proof.
  intros Ha Hk. unfold complete. pose proof (take_completion_spec v (ss_completions s)) as Ht.
  destruct (take_completion v (ss_completions s)) as [[c rest]|]; [|destruct Ht; rewrite Hk; by left]. set (d := if timed_out then _ else _).
  set (s1 := with_completions rest s). destruct (return_resources_same (cm_removed c) s1) as [Hs1 [Hr1 He1]]. set (s2 := return_resources _ s1) in *.
  assert (Ha2 : accounted (map id (cm_operations c) ++ held) s2).
  { apply (accounted_same _ s1); [done|done|by apply same_open|]. destruct Ha as [A1 A2]. split; [done|]. rewrite list_fmap_id. simpl.
    rewrite <- A2. unfold open_ops, retiring_ops. simpl. rewrite (concat_perm _ _ (Permutation_map (fun c => cm_operations c.2) Ht)). simpl. solve_Permutation. }
  destruct (all_end (fun op => Operations.Succeed now op (Some (cm_version c)) None (JObject d)) id _ (fun x => finishes_succeed now x _ None _) held s2 Ha2)
    as [A1 (B1 & B2 & B3 & B4 & B5 & B6)]. cbv zeta. destruct Hs1 as (C1 & C2 & C3 & C4 & C5 & C6). rewrite B1, B2, B3, B4, B5, B6, C1, C2, C3, C4, C5, C6.
  split_and!; try done. rewrite (Permutation_map fst Ht) in Hk. simpl in *. by apply Permutation_cons_inv in Hk.
Qed.

(** Who waits for the stop. *)
Definition quiet (s : Session) : Prop :=
  (ss_stopped_signalled s = true -> ss_stop_waiters s = [] /\ (ss_state s = kStopped \/ ss_state s = kSessionFailed)) /\
  (ss_state s = kCreated -> ss_stop_waiters s = []).

Lemma OnNodeFailed_accounted options now r st held s : accounted held s -> quiet s ->
  let s' := OnNodeFailed options now r st s in
  accounted held s' /\ quiet s' /\ ss_completions s' = ss_completions s /\ ss_scheduler s' = ss_scheduler s /\ ss_stopped_signalled s' = ss_stopped_signalled s.
Proof.
  intros Ha Hq. unfold OnNodeFailed. destruct (negb _); [by split_and!|]. set (failure := StatusOps.make _ _ _ _).
  set (s1 := with_failure failure (with_session_state kSessionFailed s)).
  assert (H : accounted held (CancelAll now "session failed" s1) /\ quiet (CancelAll now "session failed" s1) /\
    ss_completions (CancelAll now "session failed" s1) = ss_completions s /\ ss_scheduler (CancelAll now "session failed" s1) = ss_scheduler s /\
    ss_stopped_signalled (CancelAll now "session failed" s1) = ss_stopped_signalled s).
  { destruct (CancelAll_accounted now "session failed" held s1 (accounted_same _ s s1 eq_refl eq_refl eq_refl Ha)) as [H1 (E1 & E2 & E3 & E4 & E5 & E6)].
    split_and!; try done. unfold quiet. rewrite E4, E5, E6. split; [|done]. intros Hs. destruct Hq as [Hq _]. destruct (Hq Hs) as [? _]. split; [done|by right]. }
  cbv zeta in *. destruct (ss_state s); try exact H; by split_and!.
Qed.

Section callbacks.
Context (options : SessionOptions).

Lemma handle_accounted now ms e held A s : accounted held s -> quiet s -> Permutation (map fst (ss_completions s)) (completed [e] ++ A) ->
  let s' := handle options now ms e s in
  accounted held s' /\ quiet s' /\ Permutation (map fst (ss_completions s')) A /\ ss_scheduler s' = ss_scheduler s /\
  (ss_stopped_signalled s = true \/ (1 <= closings [e])%nat -> ss_stopped_signalled s' = true).
Proof.
  intros Ha Hq Hk. destruct e; simpl in Hk |- *; try (split_and!; try done; by intros [|?%Nat.nle_succ_0]).
  - match goal with |- context [OnNodeFailed options now ?r ?st s] => destruct (OnNodeFailed_accounted options now r st held s Ha Hq) as (H1 & H2 & H3 & H4 & H5) end.
    cbv zeta in *. split_and!; try done; [by rewrite H3|rewrite H5; by intros [|?%Nat.nle_succ_0]].
  - destruct (OnAllClosed_accounted now held s Ha) as (H1 & H2 & H3 & H4 & H5 & H6 & H7). cbv zeta in *. split_and!; try done; [|by rewrite H2].
    destruct (ss_stopped_signalled s) eqn:Es; [by rewrite H6|]. destruct (H7 eq_refl) as [H8 H9]. split; intros _; done.
  - destruct (complete_accounted now ms request timed_out held A s Ha Hk) as (H1 & H2 & H3 & H4 & H5 & H6 & H7). cbv zeta in *. split_and!; try done.
    + unfold quiet. by rewrite H5, H6, H7.
    + rewrite H6. by intros [|?%Nat.nle_succ_0].
Qed.

Lemma handled now ms held A news : forall s, accounted held s -> quiet s -> Permutation (map fst (ss_completions s)) (completed news ++ A) ->
  let s' := for_all (handle options now ms) news s in
  accounted held s' /\ quiet s' /\ Permutation (map fst (ss_completions s')) A /\ ss_scheduler s' = ss_scheduler s /\
  (ss_stopped_signalled s = true \/ (1 <= closings news)%nat -> ss_stopped_signalled s' = true).
Proof.
  unfold for_all. induction news as [|e news IH]; intros s Ha Hq Hk; simpl; [split_and!; try done; by intros [|?%Nat.nle_succ_0]|].
  change (e :: news) with ([e] ++ news)%list in Hk |- *. rewrite completed_app, <- app_assoc in Hk.
  destruct (handle_accounted now ms e held _ s Ha Hq Hk) as (H1 & H2 & H3 & H4 & H6). destruct (IH _ H1 H2 H3) as (I1 & I2 & I3 & I4 & I6).
  cbv zeta in *. split_and!; try done; [congruence|]. rewrite closings_app. intros Hc. apply I6.
  destruct Hc as [Hc|Hc]; [left; apply H6; by left|]. destruct (closings [e]) eqn:Ee; [right; simpl in Hc; lia|left; apply H6; right; lia].
Qed.

End callbacks.

(** ** Between calls *)

Record settled (held : list Z) (s : Session) : Prop := {
  st_ops : accounted held s;
  st_quiet : quiet s;
  st_keys : Permutation (map fst (ss_completions s)) (awaited (sc_retired (ss_scheduler s)));
  st_closed : closed_once (ss_scheduler s);
  st_signal : all_closed_ (sc_flags (ss_scheduler s)) = true -> ss_stopped_signalled s = true;
}.

(** A call on the scheduler that retires the versions [new]. *)
Lemma returns_settled options new held now ms x s : accounted held s -> quiet s ->
  Permutation (map fst (ss_completions s)) (new ++ awaited (sc_retired (ss_scheduler s))) -> closed_once (ss_scheduler s) ->
  (all_closed_ (sc_flags (ss_scheduler s)) = true -> ss_stopped_signalled s = true) ->
  Permutation (books x) (new ++ books (ss_scheduler s)) -> grows (ss_scheduler s) x -> settled held (returns options now ms x s).
Proof.
  intros Ha Hq Hk Hc Hs Hb [Hg (news & Hl)]. unfold returns. rewrite Hl, drop_app_length. set (s1 := with_scheduler x s).
  assert (Hk1 : Permutation (map fst (ss_completions s1)) (completed news ++ awaited (sc_retired x))).
  { simpl. rewrite Hk. unfold books in Hb. rewrite Hl, completed_app in Hb. apply (Permutation_app_inv_r (completed (sc_log (ss_scheduler s)))).
    rewrite <- app_assoc, <- Hb. solve_Permutation. }
  destruct (handled options now ms held _ news s1 (accounted_same _ s s1 eq_refl eq_refl eq_refl Ha) Hq Hk1) as (H1 & H2 & H3 & H4 & H6). cbv zeta in *.
  split; [done|done|by rewrite H4|rewrite H4; by apply Hg|]. rewrite H4. simpl. intros Hall. apply H6.
  destruct (all_closed_ (sc_flags (ss_scheduler s))) eqn:E; [left; by apply Hs|right]. specialize (Hg Hc). unfold closed_once in *.
  rewrite Hall, Hl, closings_app in Hg. rewrite E in Hc. lia.
Qed.

Lemma returns_quietly options held now ms x s : settled held s -> accounts (ss_scheduler s) x -> settled held (returns options now ms x s).
Proof. intros [H1 H2 H3 H4 H5] [Hb Hg]. by apply (returns_settled options []). Qed.

(** Changes of the session and of the heap that no book records. *)
Lemma settled_elsewhere held held' s s' : same_elsewhere s s' -> accounted held' s' -> settled held s -> settled held' s'.
Proof.
  intros (E1 & E2 & E3 & E4 & E5 & E6) Ha [H1 H2 H3 H4 H5]. split; [done| |by rewrite E1, E3|by rewrite E1|by rewrite E1, E5]. unfold quiet. by rewrite E4, E5, E6.
Qed.
Lemma settled_scheduler held x s : sc_retired x = sc_retired (ss_scheduler s) -> sc_log x = sc_log (ss_scheduler s) ->
  all_closed_ (sc_flags x) = all_closed_ (sc_flags (ss_scheduler s)) -> settled held s -> settled held (with_scheduler x s).
Proof.
  intros E1 E2 E3 [H1 H2 H3 H4 H5]. split; [by apply (accounted_same _ s)|done|simpl; by rewrite E1|unfold closed_once in *; simpl; by rewrite E2, E3|simpl; by rewrite E3].
Qed.

Lemma with_resources_settled held rs s : settled held s -> settled held (with_resources rs s).
Proof. intros H. apply (settled_scheduler held (on_heap (fun _ => rs_heap rs) (ss_scheduler s)) s eq_refl eq_refl eq_refl) in H. destruct H as [[A B] C D E F]. by split; [split|..]. Qed.
Lemma return_resources_settled held l s : settled held s -> settled held (return_resources l s).
Proof.
  intros H. destruct (return_resources_same l s) as (E1 & E2 & E3). apply (settled_elsewhere held held s); [done| |done]. apply (accounted_same _ s); [done|done|by apply same_open|apply H].
Qed.

Section control.
Context (describe : OperatorKey -> option CapabilityDescriptor) (create : OperatorKey -> Z -> string -> json -> option Status).
Context (estimate : OperatorKey -> json -> list ResourceAmount) (op_open op_close : NodeRuntime -> Status) (iterate : list NodeInfo -> list NodeInfo).
Context {W : Type} (op_process : W -> nat -> ProcessRequest -> script W) (async : bool) (options : SessionOptions).

Lemma abort_settled held p s : settled held s -> settled held (abort op_close p s).
Proof. intros H. by apply return_resources_settled, settled_scheduler. Qed.

Lemma fail_settled now batch st action held s : settled (map mr_operation (mg_origins batch) ++ held) s -> settled held (FailAll now batch st action s).
Proof. intros H. destruct (FailAll_accounted now batch st action held s (st_ops _ _ H)) as [H1 H2]. by eapply settled_elsewhere. Qed.

Lemma submit_same op ch x : accounts x (submit op ch x).
Proof. apply accounts_on_nd. Qed.

Lemma submit_all_same op changes : forall x, let x' := fold_left (fun x ch => submit op ch x) changes x in
  sc_retired x' = sc_retired x /\ sc_log x' = sc_log x /\ all_closed_ (sc_flags x') = all_closed_ (sc_flags x).
Proof. induction changes as [|ch l IH]; intros x; simpl; [done|]. destruct (IH (submit op ch x)) as (-> & -> & ->). done. Qed.

Lemma publish_settled fuel now pms rms batch p changes w s w' s' held : settled (map mr_operation (mg_origins batch) ++ held) s ->
  publish op_close op_process async options fuel now pms rms batch p changes w s = Some (w', s') -> settled held s'.
Proof.
  intros Hs. unfold publish. set (ops := map mr_operation (mg_origins batch)) in *. set (v := t_version (pr_candidate p)). set (c := MkCompletion ops v _ _).
  destruct (submit_all_same (hd 0 ops) changes (ss_scheduler s)) as (X1 & X2 & X3). set (x := fold_left _ changes _) in *. cbv zeta in X1, X2, X3.
  pose proof (settled_scheduler _ x s X1 X2 X3 Hs) as Hx.
  destruct (Publish _ _ _ _ _ _ _ _ _ _ _) as [[[st w1] x1]|] eqn:Ep; [|done]. apply publish_books in Ep as [Hb Hg].
  assert (Er : forall s0, ss_scheduler s0 = ss_scheduler s -> returns options now rms x1 s0 = returns options now rms x1 (with_scheduler x s0)).
  { intros s0 E0. unfold returns. simpl. rewrite X2, E0. by destruct s0. }
  destruct (StatusOps.ok st) eqn:Est; intros [= <- <-].
  - set (s1 := with_completions _ s). rewrite (Er s1) by done. destruct Hx as [[A1 A2] A3 A4 A5 A6].
    assert (R1 : settled held (returns options now rms x1 (with_scheduler x s1))); [apply (returns_settled options [v]); simpl; try done|].
    + split; [done|]. simpl. rewrite <- A2. unfold open_ops, retiring_ops. simpl. rewrite map_app, concat_app. simpl. rewrite app_nil_r. solve_Permutation.
    + rewrite map_app. simpl in *. rewrite A4. apply Permutation_app_comm.
    + destruct (all_marked (fun op => Operations.SetTopologyVersion op v) ops (fun op => marks_version op v) held _ (st_ops _ _ R1)) as [M1 M2].
      by eapply settled_elsewhere.
  - rewrite (Er s) by done. pose proof (returns_quietly options _ now rms x1 _ Hx (conj Hb Hg)) as R1. pose proof (abort_settled _ p _ R1) as G1.
    set (s1 := abort _ _ _) in *. assert (G3 : accounted (map id ops ++ held) s1) by (rewrite list_fmap_id; apply G1).
    destruct (all_end (fun op => Operations.Cancel now op (message st)) id ops (fun op => finishes_cancel now op _) held s1 G3) as [M1 M2].
    by eapply settled_elsewhere.
Qed.

Lemma Execute_settled fuel now pms rms batch w s w' s' held : settled (map mr_operation (mg_origins batch) ++ held) s ->
  Execute describe create estimate op_open op_close iterate op_process async options fuel now pms rms batch w s = Some (w', s') -> settled held s'.
Proof.
  intros Hs. unfold Execute. set (s0 := for_all _ _ s).
  destruct (all_marked (fun r => Operations.SetRunning (mr_operation r)) (mg_origins batch) (fun r => marks_running _) _ s (st_ops _ _ Hs)) as [M1 M2].
  assert (H0 : settled (map mr_operation (mg_origins batch) ++ held) s0) by (by eapply settled_elsewhere). clearbody s0.
  destruct (negb _); [intros [= _ <-]; by apply fail_settled|]. destruct (negb _); [intros [= _ <-]; by apply fail_settled|].
  destruct (Prepare _ _ _ _ _ _ _ _ _ _ _ _ _) as [[[p|st] rs]|]; [| |done].
  - apply (with_resources_settled _ rs) in H0. destruct (parameter_changes _ _ _) as [changes|st]; [intros H; by eapply publish_settled|].
    intros [= _ <-]. by apply fail_settled, abort_settled.
  - intros [= _ <-]. by apply fail_settled, with_resources_settled.
Qed.

Lemma Pump_settled fuel now pms rms w s b w' s' : settled [] s ->
  Pump describe create estimate op_open op_close iterate op_process async options fuel now pms rms w s = Some (b, w', s') -> settled [] s'.
Proof.
  intros Hs. unfold Pump. pose proof (TakeBatch_fifo describe (t_spec (current_topology s)) (so_merge_limit options) (ss_queue s)) as Ht.
  destruct (TakeBatch _ _ _ _) as [batch rest]. destruct Ht as (Hq & _ & _).
  assert (H0 : settled (map mr_operation (mg_origins batch) ++ []) (with_queue rest s)).
  { destruct Hs as [[A1 A2] A3 A4 A5 A6]. split; [|done|done|done|done]. split; [done|]. simpl. rewrite <- A2. unfold open_ops, retiring_ops. simpl.
    rewrite Hq, map_app. solve_Permutation. }
  destruct (mg_origins batch) eqn:Eo; [by intros [= _ _ <-]|]. rewrite <- Eo in H0.
  intros ([w1 s1] & E & H)%fmap_Some. injection H as _ _ ->. by eapply Execute_settled.
Qed.

(** *** Requests *)

(** There are operation ids left. *)
Definition room (s : Session) : Prop := next_id_ (ss_registry s) + 1 < 2 ^ 64.

Lemma accept_settled now kind caller detail s : room s -> settled [] s -> let '(op, s1) := accept options now kind caller detail s in settled [op] s1 /\ same_elsewhere s s1.
Proof.
  intros Hr Hs. unfold accept. destruct (create_ok now kind (so_id options) caller detail _ _ Hr (ac_registry _ _ (st_ops _ _ Hs))) as [H1 H2].
  destruct (Operations.Create _ _ _ _ _ _) as [op g] eqn:E. simpl in H1, H2. assert (Ho : op = next_id_ (ss_registry s)) by (unfold Operations.Create in E; by injection E as <- _).
  set (s1 := with_registry g (ss_ended s) s). assert (He : same_elsewhere s s1) by by repeat split. split; [|done]. apply (settled_elsewhere [] [op] s); [done| |done].
  destruct (st_ops _ _ Hs) as [A1 A2]. split; [done|]. unfold issued in *. simpl. rewrite H2. destruct (ro_ids _ _ A1) as [Hn _].
  replace (next_id_ (ss_registry s) + 1 - 1) with ((next_id_ (ss_registry s) - 1) + 1) by lia. rewrite seqZ_app by lia. rewrite <- A2. simpl.
  replace (1 + (next_id_ (ss_registry s) - 1)) with op by lia. rewrite (seqZ_cons op 1), (seqZ_nil (Z.succ op)) by lia.
  change (open_ops s1) with (open_ops s). apply Permutation_cons_append.
Qed.

Lemma end_settled f op s : finishes f op -> settled [op] s -> settled [] (ends f s).
Proof. intros Hf Hs. destruct (ends_accounted f op [] s Hf (st_ops _ _ Hs)) as [H1 H2]. by eapply settled_elsewhere. Qed.

Lemma Apply_settled now patch caller s : room s -> settled [] s -> settled [] (Apply options now patch caller s).2.
Proof.
  intros Hr Hs. unfold Apply. pose proof (accept_settled now "mutation.apply" caller (JObject [("patch", GraphJson.PatchJson patch)]) s Hr Hs) as Ha.
  destruct (accept _ _ _ _ _ _) as [op s1]. destruct Ha as [H1 _]. destruct (negb _); [by apply (end_settled _ op), H1; apply finishes_fail|].
  destruct (GraphSpec.mp_actions patch); [by apply (end_settled _ op), H1; apply finishes_fail|]. simpl.
  destruct H1 as [[A1 A2] A3 A4 A5 A6]. split; [|done|done|done|done]. split; [done|]. simpl. rewrite <- A2. unfold open_ops, retiring_ops. simpl. rewrite map_app. simpl. solve_Permutation.
Qed.

Lemma SetParameters_settled now node values caller s : room s -> settled [] s -> settled [] (SetParameters options now node values caller s).2.
Proof.
  intros Hr Hs. unfold SetParameters. pose proof (accept_settled now "parameter.set" caller (Json.obj [("node", JString node); ("parameters", values)]) s Hr Hs) as Ha.
  destruct (accept _ _ _ _ _ _) as [op s1]. destruct Ha as [H1 _].
  assert (Hf : forall st, settled [] (ends (Operations.Fail now op st JNull) s1)) by (intros st; by apply (end_settled _ op); [apply finishes_fail|]).
  destruct (negb _); [apply Hf|]. cbv zeta. destruct (FindNode _ _ _) as [r|]; [|apply Hf]. destruct values as [| | | | | |[|m ms]]; try apply Hf.
  destruct (Params.Submit _ _ _) as [[v|st] p]; simpl; (apply (end_settled _ op); [first [apply finishes_succeed|apply finishes_fail]|]); by apply settled_scheduler.
Qed.

(** A change of state that nobody waiting has to hear of. *)
Lemma state_settled held x s : ss_stopped_signalled s = false -> x <> kCreated -> settled held s -> settled held (with_session_state x s).
Proof. intros Es Hx [[A1 A2] A3 A4 A5 A6]. split; [by split| |done|done|done]. split; simpl; [by rewrite Es|done]. Qed.
Lemma live_unsignalled held s : settled held s -> ss_state s <> kStopped -> ss_state s <> kSessionFailed -> ss_stopped_signalled s = false.
Proof. intros [_ [H _] _ _ _] H1 H2. destruct (ss_stopped_signalled s); [|done]. by destruct (H eq_refl) as [_ [?|?]]. Qed.

Lemma Start_settled now rms s st s' : settled [] s -> Start op_open op_close options now rms s = Some (st, s') -> settled [] s'.
Proof.
  intros Hs. unfold Start. case_bool_decide as Hc; simpl; [|by intros [= _ <-]]. destruct (OpenNodes _ _ _ _) as [[st1 h]|]; [|done].
  pose proof (live_unsignalled _ _ Hs ltac:(congruence) ltac:(congruence)) as Hu. set (x := on_heap (fun _ => h) (ss_scheduler s)).
  assert (Hx : settled [] (with_scheduler x s)) by by apply settled_scheduler.
  destruct (negb _); intros [= _ <-].
  - apply (state_settled [] kSessionFailed) in Hx; [|done|done]. destruct Hx as [[A1 A2] A3 A4 A5 A6]. by split; [split|..].
  - apply (state_settled [] kRunning) in Hx; [|done|done]. apply (returns_quietly options [] now rms _ _ Hx). simpl.
    refine (transitivity (R := accounts) (y := on_flags set_started x) _ _); [by apply accounts_same|apply accounts_sources].
Qed.
Lemma Pause_settled s : settled [] s -> settled [] (Pause s).2.
Proof.
  intros Hs. unfold Pause. case_bool_decide as Hc; simpl; [|done]. pose proof (live_unsignalled _ _ Hs ltac:(congruence) ltac:(congruence)) as Hu.
  by apply state_settled, settled_scheduler.
Qed.
Lemma Resume_settled now rms s : settled [] s -> settled [] (Resume options now rms s).2.
Proof.
  intros Hs. unfold Resume. case_bool_decide as Hc; simpl; [|done]. pose proof (live_unsignalled _ _ Hs ltac:(congruence) ltac:(congruence)) as Hu.
  apply (returns_quietly options [] now rms); [by apply state_settled|]. simpl.
  refine (transitivity (R := accounts) (y := on_flags (set_paused false) (ss_scheduler s)) _ _); [by apply accounts_same|apply accounts_sources].
Qed.

(** A stop that waits. *)
Lemma wait_settled op s : settled [op] s -> ss_stopped_signalled s = false -> ss_state s <> kCreated -> settled [] (with_waiters (ss_stop_waiters s ++ [op])%list false s).
Proof.
  intros [[A1 A2] A3 A4 A5 A6] Es Hc. split; [|by split|done|done|simpl; by rewrite <- Es]. split; [done|]. simpl. rewrite <- A2. unfold open_ops, retiring_ops. simpl. solve_Permutation.
Qed.
Lemma CancelAll_settled now reason s : settled [] s -> settled [] (CancelAll now reason s) /\ ss_stopped_signalled (CancelAll now reason s) = ss_stopped_signalled s.
Proof.
  intros Hs. destruct (CancelAll_accounted now reason [] s (st_ops _ _ Hs)) as [H1 (E1 & E2 & E3 & E4 & E5 & E6)]. split; [|done].
  destruct Hs as [[A1 A2] A3 A4 A5 A6]. split; [done| |by rewrite E1, E3|by rewrite E1|by rewrite E1, E5]. unfold quiet. by rewrite E4, E5, E6.
Qed.

Lemma Stop_settled now rms fast caller s op s' : room s -> settled [] s -> Stop op_close options now rms fast caller s = Some (op, s') -> settled [] s'.
Proof.
  intros Hr Hs. unfold Stop. pose proof (accept_settled now "session.stop" caller (JObject [("fast", JBool fast)]) s Hr Hs) as Ha.
  destruct (accept _ _ _ _ _ _) as [o s1]. destruct Ha as [H1 _]. clear Hs Hr.
  assert (Hlate : ss_state s1 <> kCreated -> settled [] (if ss_stopped_signalled s1 then ends (Operations.Succeed now o None None JNull) s1 else with_waiters (ss_stop_waiters s1 ++ [o])%list false s1)).
  { intros Hc. destruct (ss_stopped_signalled s1) eqn:E; [by apply (end_settled _ o); [apply finishes_succeed|]|by apply wait_settled]. }
  assert (Hlive : ss_state s1 <> kStopped -> ss_state s1 <> kSessionFailed -> forall s2 x,
    s2 = CancelAll now "session stopping" (on_registry (Operations.SetRunning o) (with_waiters (ss_stop_waiters s1 ++ [o])%list (ss_stopped_signalled s1) (with_session_state kStopping s1))) ->
    (if all_closed_ (sc_flags (ss_scheduler s2)) then Some (o, OnAllClosed now s2)
     else match SchedulerInvoke.Stop op_close fast now (ss_scheduler s2) with Some x => Some (o, returns options now rms x s2) | None => None end) = Some x -> settled [] x.2).
  { intros Hn1 Hn2 s2 x -> H. pose proof (live_unsignalled _ _ H1 Hn1 Hn2) as Hu. rewrite Hu in H.
    pose proof (wait_settled o _ (state_settled _ kStopping _ Hu ltac:(done) H1) Hu ltac:(done)) as Hw. simpl in Hw.
    destruct (mark_accounted _ _ _ (marks_running o) (st_ops _ _ Hw)) as [M1 M2]. pose proof (settled_elsewhere _ _ _ _ M2 M1 Hw) as Hm.
    destruct (CancelAll_settled now "session stopping" _ Hm) as [Hc Hcs]. set (s2 := CancelAll _ _ _) in *.
    destruct (all_closed_ _) eqn:Eall; [by apply (st_signal _ _ Hc) in Eall; rewrite Hcs in Eall|].
    destruct (SchedulerInvoke.Stop _ _ _ _) as [y|] eqn:Ey; [|done]. injection H as <-. simpl. apply (returns_quietly options [] now rms y s2 Hc). by apply accounts_stop in Ey. }
  destruct (ss_state s1) eqn:Est; try (intros [= _ <-]; by apply Hlate); try (intros H; by apply (Hlive ltac:(done) ltac:(done) _ (op, s') eq_refl H)).
  intros [= _ <-]. apply (end_settled _ o); [apply finishes_succeed|]. destruct H1 as [[A1 A2] [_ A3] A4 A5 A6]. split; [by split| |done|done|done].
  split; simpl; [|done]. intros _. split; [by apply A3|by left].
Qed.

(** ** Histories *)

(** What happens to a session: requests of the host, the mutation pump, and any
    work of the scheduler with its callbacks. *)
Inductive happens_to : W * Session -> W * Session -> Prop :=
| does_apply now patch caller w s : room s -> happens_to (w, s) (w, (Apply options now patch caller s).2)
| does_set now node values caller w s : room s -> happens_to (w, s) (w, (SetParameters options now node values caller s).2)
| does_start now rms w s st s' : Start op_open op_close options now rms s = Some (st, s') -> happens_to (w, s) (w, s')
| does_pause w s : happens_to (w, s) (w, (Pause s).2)
| does_resume now rms w s : happens_to (w, s) (w, (Resume options now rms s).2)
| does_stop now rms fast caller w s op s' : room s -> Stop op_close options now rms fast caller s = Some (op, s') -> happens_to (w, s) (w, s')
| does_pump fuel now pms rms w s b w' s' :
    Pump describe create estimate op_open op_close iterate op_process async options fuel now pms rms w s = Some (b, w', s') -> happens_to (w, s) (w', s')
| does_work now rms w s w' x : command op_close op_process (hooks async options) [] (w, ss_scheduler s) (w', x) -> happens_to (w, s) (w', returns options now rms x s).

Lemma happens_settled a b : happens_to a b -> settled [] a.2 -> settled [] b.2.
Proof.
  destruct 1; simpl; intros Hs.
  - by apply Apply_settled.
  - by apply SetParameters_settled.
  - by eapply Start_settled.
  - by apply Pause_settled.
  - by apply Resume_settled.
  - by eapply Stop_settled.
  - by eapply Pump_settled.
  - destruct (command_books _ _ _ _ _ _ H) as [Hb Hg]. apply (returns_quietly options [] now rms x s Hs). by split.
Qed.

(** A session as [Create] makes it, with the registry of its engine. *)
Definition new_session (t : RuntimeTopology) (h : heap) (lease : ResourceLease) (ledger : ResourceLedger) (retain : nat) : Session :=
  MkSession kCreated StatusOps.Ok (make t h) lease ledger (Operations.SetTerminalHook true (Operations.make retain)) [] [] [] [] false.

Lemma new_settled t h lease ledger retain : settled [] (new_session t h lease ledger retain).
Proof.
  assert (A : accounts (MkScheduler h t (fold_left (fun m r => <[r := t]> m) (t_nodes t) ∅) (MkFlags false false false false false true false) [] [] ∅ ∅ [] [] []) (make t h))
    by apply accounts_attach.
  assert (E : sc_retired (make t h) = [] /\ all_closed_ (sc_flags (make t h)) = false).
  { unfold make, AttachNodes, each. generalize (t_nodes t) at 1 3. intros l. set (f := fun s x => _). enough (G : forall s, sc_retired (fold_left f l s) = sc_retired s /\
      all_closed_ (sc_flags (fold_left f l s)) = all_closed_ (sc_flags s)) by apply G.
    induction l as [|r l IH]; intros s; [done|]. simpl. destruct (IH (f s r)) as [-> ->]. unfold f. by case_bool_decide. }
  destruct E as [E1 E2]. split; [| |by simpl; rewrite E1|by apply A|simpl; by rewrite E2].
  - split; simpl; [|done]. split; simpl; try done; [lia|constructor|constructor|split; [lia|by intros id Hid%not_elem_of_nil]|]. intros id. left. lia.
  - by split.
Qed.

(** C5: every control operation of a session is accounted for. Along any history
    of requests, pumped mutations and work of the scheduler on one thread,
    whatever fails on the way and whether or not the session fails with its
    nodes (then the failing turn stops the graph and cancels the queue), every
    operation ever accepted is in exactly one place: a mutation still queued, a
    mutation whose version has replaced one that is being retired, a stop that
    waits, or an operation that has ended, once. The versions that mutations
    wait for are exactly those the scheduler is still retiring; and once every
    node is closed the end of the session is signalled and no stop is left
    waiting. A stop that waits is not promised to end: after a start that failed
    nothing runs and it waits for ever. *)
Theorem control_operations_end t h lease ledger retain w0 w s :
  rtc happens_to (w0, new_session t h lease ledger retain) (w, s) ->
  Permutation (map mr_operation (ss_queue s) ++ retiring_ops s ++ ss_stop_waiters s ++ logged (ss_ended s)) (seqZ 1 (next_id_ (ss_registry s) - 1)) /\
  Permutation (map fst (ss_completions s)) (awaited (sc_retired (ss_scheduler s))) /\
  (all_closed_ (sc_flags (ss_scheduler s)) = true -> ss_stopped_signalled s = true /\ ss_stop_waiters s = []).
Proof.
  intros H. assert (Hs : settled [] s).
  { change s with (w, s).2. pose proof (new_settled t h lease ledger retain) as H0. change (new_session t h lease ledger retain) with (w0, new_session t h lease ledger retain).2 in H0.
    induction H as [|a b c Hab _ IH]; [done|]. by apply IH, (happens_settled a). }
  destruct Hs as [[A1 A2] [A3 _] A4 A5 A6]. split_and!; [|done|].
  - unfold open_ops in A2. simpl in A2. by rewrite <- !app_assoc in A2.
  - intros Hall. specialize (A6 Hall). split; [done|]. by apply A3.
Qed.

End control.

(** ** Runs of a pipeline *)

(** The default options: the session fails with its nodes. *)
Definition pipe_options : SessionOptions := MkSessionOptions 1 (MkAlignedOptions 40 None) 2000 8 false true.
Definition nobody : CallerContext := MkCaller "" "".
Definition built (g : GraphSpec) : RuntimeTopology * heap :=
  match validate pipe_resolver (fun l => l) g with
  | Value v => match Build pipe_resolver no_failure (fun l => l) g (first_options v) no_heap with Some (Value (t, h)) => (t, h) | _ => (no_version, no_heap) end
  | _ => (no_version, no_heap)
  end.
Definition pipe_session : Session := new_session (built pipe).1 (built pipe).2 session_lease session_ledger 10.

Section runs.
Context (op : nat -> nat -> ProcessRequest -> script nat).

Fixpoint works (n : nat) (w : nat) (s : Session) : option (nat * Session) :=
  match n with
  | O => Some (w, s)
  | S n => match RunOne opens op (hooks true pipe_options) 0 w (ss_scheduler s) with
           | Some (_, w, x) => works n w (returns pipe_options 0 (JInteger 0) x s)
           | None => None
           end
  end.
Definition pumped (w : nat) (s : Session) : option (bool * nat * Session) :=
  Pump pipe_resolver no_failure one_thread opens opens (fun l => l) op true pipe_options 100 0 (JInteger 0) (JInteger 0) w s.

Definition on_pipe : nat * Session -> nat * Session -> Prop :=
  happens_to pipe_resolver no_failure one_thread opens opens (fun l => l) op true pipe_options.

Lemma works_history n : forall a w s w' s', rtc on_pipe a (w, s) -> works n w s = Some (w', s') -> rtc on_pipe a (w', s').
Proof.
  induction n as [|n IH]; intros a w s w' s' Ha; simpl; [by intros [= <- <-]|]. destruct (RunOne _ _ _ _ _ _) as [[[b w1] x]|] eqn:E; [|done].
  apply IH. eapply rtc_r; [exact Ha|]. apply does_work. by eapply c_run.
Qed.
Lemma applied_history a w s patch : rtc on_pipe a (w, s) -> (next_id_ (ss_registry s) + 1 <? 2 ^ 64) = true -> rtc on_pipe a (w, (Apply pipe_options 0 patch nobody s).2).
Proof. intros Ha Hr. eapply rtc_r; [exact Ha|]. apply does_apply. by apply Z.ltb_lt. Qed.
Lemma started_history k st s : Start opens opens pipe_options 0 (JInteger 0) pipe_session = Some (st, s) -> rtc on_pipe (k, pipe_session) (k, s).
Proof. intros H. apply rtc_once. by eapply does_start. Qed.

(** Start, let the source run, apply a patch. *)
Lemma begun_history k n w st s1 s2 patch : Start opens opens pipe_options 0 (JInteger 0) pipe_session = Some (st, s1) -> works n k s1 = Some (w, s2) ->
  (next_id_ (ss_registry s2) + 1 <? 2 ^ 64) = true -> rtc on_pipe (k, pipe_session) (w, (Apply pipe_options 0 patch nobody s2).2).
Proof. intros H1 H2 Hr. apply applied_history; [|done]. eapply works_history; [by eapply started_history|exact H2]. Qed.

End runs.

(** A patch on the running pipeline, pumped, and everything runs dry. *)
Lemma mutation_run : exists st s1 w2 s2 b w4 s4 w5 s5,
  Start opens opens pipe_options 0 (JInteger 0) pipe_session = Some (st, s1) /\ works feed 3 2 s1 = Some (w2, s2) /\
  (next_id_ (ss_registry s2) + 1 <? 2 ^ 64) = true /\ pumped feed w2 (Apply pipe_options 0 insert_b nobody s2).2 = Some (b, w4, s4) /\
  works feed 30 w4 s4 = Some (w5, s5) /\ logged (ss_ended s5) = [1] /\ t_version (current_topology s5) = 2 /\ got 1 (ss_scheduler s5) = [4; 3; 2; 1] /\
  ss_state s5 = kStopped.
Proof. do 9 eexists. repeat (split; [by vm_compute|]). by vm_compute. Qed.

(** The operator of the second node fails. *)
Definition breaks (w : nat) (r : nat) (q : ProcessRequest) : script nat :=
  if bool_decide (r = 1)%nat then Returns (Error (StatusOps.make GE_STATUS_INTERNAL "no device" false "{}")) w else feed w r q.

(** A patch is queued when a node fails: the session fails, the graph is stopped
    in the same turn, the patch is cancelled and a later stop succeeds at once. *)
Lemma failure_run : exists st s1 w2 s2 w3 s3 op s4,
  Start opens opens pipe_options 0 (JInteger 0) pipe_session = Some (st, s1) /\ works breaks 1 2 s1 = Some (w2, s2) /\
  (next_id_ (ss_registry s2) + 1 <? 2 ^ 64) = true /\ works breaks 30 w2 (Apply pipe_options 0 insert_b nobody s2).2 = Some (w3, s3) /\
  (next_id_ (ss_registry s3) + 1 <? 2 ^ 64) = true /\ Stop opens pipe_options 0 (JInteger 0) false nobody s3 = Some (op, s4) /\
  ss_state s3 = kSessionFailed /\ message (ss_failure s3) = "node 't' failed: no device" /\ all_closed_ (sc_flags (ss_scheduler s3)) = true /\ ss_queue s3 = [] /\
  logged (ss_ended s3) = [1] /\ map op_state (ss_ended s3) = [kOpCancelled] /\ logged (ss_ended s4) = [1; 2].
Proof. do 8 eexists. repeat (split; [by vm_compute|]). by vm_compute. Qed.

Definition all_accounted (s : Session) : Prop :=
  Permutation (map mr_operation (ss_queue s) ++ retiring_ops s ++ ss_stop_waiters s ++ logged (ss_ended s)) (seqZ 1 (next_id_ (ss_registry s) - 1)) /\
  Permutation (map fst (ss_completions s)) (awaited (sc_retired (ss_scheduler s))) /\
  (all_closed_ (sc_flags (ss_scheduler s)) = true -> ss_stopped_signalled s = true /\ ss_stop_waiters s = []).

Lemma control_operations_end_witness :
  (exists s, logged (ss_ended s) = [1] /\ t_version (current_topology s) = 2 /\ all_accounted s) /\
  (exists s, ss_state s = kSessionFailed /\ logged (ss_ended s) = [1] /\ all_accounted s).
Proof.
  pose proof (fun op w s => control_operations_end pipe_resolver no_failure one_thread opens opens (fun l => l) op true pipe_options
    (built pipe).1 (built pipe).2 session_lease session_ledger 10 2%nat w s) as H.
  split.
  - destruct mutation_run as (st & s1 & w2 & s2 & b & w4 & s4 & w5 & s5 & H1 & H2 & H3 & H4 & H5 & H6 & H7 & _). exists s5. split; [exact H6|]. split; [exact H7|].
    apply (H feed w5). apply (works_history feed 30 _ w4 s4); [|exact H5]. eapply rtc_r; [exact (begun_history feed 2 3 w2 st s1 s2 insert_b H1 H2 H3)|].
    exact (does_pump _ _ _ _ _ _ _ _ _ _ _ _ _ _ _ _ _ _ H4).
  - destruct failure_run as (st & s1 & w2 & s2 & w3 & s3 & op & s4 & H1 & H2 & H3 & H4 & _ & _ & H5 & _ & _ & _ & H6 & _). exists s3. split; [exact H5|]. split; [exact H6|].
    apply (H breaks w3). apply (works_history breaks 30 _ w2 _ w3 s3 (begun_history breaks 2 1 w2 st s1 s2 insert_b H1 H2 H3) H4).
Defined.
