(* ===== verification/AsyncRuntime.v ===== *)
(** The asynchronous runtime (async_runtime.h, async_runtime.cpp): requests of
    asynchronous nodes are collected into batches, submitted to their operators,
    completed through a queue, and delivered in the order of submission for
    every node and topology version.

    One operation runs at a time: those of the consumer hold [pump_mutex_], and
    the tables are only used under [state_mutex_]. [std::map] is a sorted
    association list; the key of a reorder buffer holds the address of its node.
    The session behind a request is an instance of [Host]: the heap its nodes
    live in and the hooks it registered. A hook, like the pointer to a sink, may
    fail; [None] is the outcome then. The shared lock around a hook only matters
    to the destruction of a session and is left out, as are latencies. *)

From stdpp Require Import base numbers list strings gmap option.
From Stdlib Require Import ZArith Ascii String.
From S2P Require Import Prelude Types Double Json GraphSpec CapabilityTypes Packet EdgeChannel InputBinding NodeRuntime RuntimeTopology Coordinator Scheduler.

Local Open Scope string_scope.
Local Open Scope Z_scope.

(** ** Options *)

(** Times are nanoseconds of the steady clock, timeouts milliseconds. *)
Record AsyncOptions : Type := MkAsyncOptions {
  ao_completion_queue_capacity : Z;
  ao_batching : bool;
  ao_max_batch : Z;
  ao_batch_timeout : Z;
  ao_default_inference_timeout : Z;
}.

Record NodeBatchConfig : Type := MkBatchConfig { bc_enabled : bool; bc_max_batch : option Z; bc_timeout : option Z }.

Definition FromOptions (node_options : json) : NodeBatchConfig :=
  match Json.Find "batch" node_options with
  | Some (JBool b) => MkBatchConfig b None None
  | Some ((JObject _) as b) =>
      MkBatchConfig (default true (Json.GetBool "enabled" b))
        (match Json.GetInteger "max_batch" b with Some m => if 1 <=? m then Some (Z.min m 1024) else None | None => None end)
        (match Json.GetInteger "timeout_ms" b with Some t => if 0 <=? t then Some t else None | None => None end)
  | _ => MkBatchConfig true None None
  end.

(** [now + std::chrono::milliseconds(ms)] at the width of the clock. *)
Definition after (now ms : Z) : Z := Word.i64 (now + Word.i64 (ms * 1000000)).

(** ** The completion queue *)

Record CompletionEvent : Type := MkCompletionEvent {
  ce_request : Z;
  ce_session : Z;
  ce_topology : Z;
  ce_parameter : Z;
  ce_seq : Z;
  ce_status : Status;
  ce_outputs : list (string * Packet);
}.

Record CompletionQueue : Type := MkQueue { cq_capacity : Z; cq_events : list CompletionEvent; cq_dropped : Z }.

Module Queue.

Definition make (capacity : Z) : CompletionQueue := MkQueue (Z.max 1 capacity) [] 0.
Definition Push (ev : CompletionEvent) (q : CompletionQueue) : Status * CompletionQueue :=
  if cq_capacity q <=? Z.of_nat (List.length (cq_events q))
  then (StatusOps.ResourceExhausted "completion queue is full" "", MkQueue (cq_capacity q) (cq_events q) (Word.u64 (cq_dropped q + 1)))
  else (StatusOps.Ok, MkQueue (cq_capacity q) (cq_events q ++ [ev])%list (cq_dropped q)).
Definition ForcePush (ev : CompletionEvent) (q : CompletionQueue) : CompletionQueue :=
  MkQueue (cq_capacity q) (cq_events q ++ [ev])%list (cq_dropped q).
Definition DrainAll (q : CompletionQueue) : list CompletionEvent * CompletionQueue :=
  (cq_events q, MkQueue (cq_capacity q) [] (cq_dropped q)).

End Queue.

(** ** State *)

Record Entry : Type := MkEntry {
  en_id : Z;
  en_session : Z;
  en_topology : Z;
  en_parameter : Z;
  en_node : nat;
  en_topology_ref : RuntimeTopology;
  en_seq : Z;
  en_ingress : Z;
  en_submitted : option Z;
  en_deadline : Z;
  en_result : option CompletionEvent;
  en_done : bool;
}.
Definition submitted_at (now deadline : Z) (e : Entry) : Entry :=
  MkEntry (en_id e) (en_session e) (en_topology e) (en_parameter e) (en_node e) (en_topology_ref e) (en_seq e) (en_ingress e)
    (Some now) deadline (en_result e) (en_done e).
Definition finished_with (r : option CompletionEvent) (e : Entry) : Entry :=
  MkEntry (en_id e) (en_session e) (en_topology e) (en_parameter e) (en_node e) (en_topology_ref e) (en_seq e) (en_ingress e)
    (en_submitted e) (en_deadline e) r true.

Record Pending : Type := MkPending {
  pe_id : Z;
  pe_parameters : ParameterSnapshot;
  pe_input_ports : list string;
  pe_inputs : list PacketRef;
  pe_due : Z;
  pe_max_batch : Z;
}.

(** Operator, model, device and parameters, compared in this order. *)
Definition BatchKey : Type := (string * string) * (Z * string).
(** The address of a node and a version. *)
Definition ReorderKey : Type := Z * Z.

Record SessionEntry : Type := MkSessionEntry { se_sink : nat; se_batching : bool }.
Record BlockedOutput : Type := MkBlocked {
  bl_node : nat;
  bl_topology : RuntimeTopology;
  bl_session : Z;
  bl_pushes : list (edge_ref * PacketRef);
}.

(** The counters of the runtime, and those of a node that only it changes. *)
Record Counters : Type := MkCounters { ct_in_flight : Z; ct_orphans : Z; ct_gaps : Z; ct_lates : Z; ct_flushed : Z }.
Record NodeCounters : Type := MkNodeCounters { nc_orphans : Z; nc_lates : Z; nc_gaps : Z; nc_batches : Z; nc_batch_sizes : Z }.

(** [as_sinks] holds the sinks ever made, with their sessions and whether they
    are alive; [as_wake] is [wake_pending_]. [as_finished] is a history variable:
    the requests whose results were delivered or given up, in order. *)
Record AsyncRuntime : Type := MkAsync {
  as_options : AsyncOptions;
  as_queue : CompletionQueue;
  as_next_request : Z;
  as_next_batch : Z;
  as_counters : Counters;
  as_nodes : gmap nat NodeCounters;
  as_sessions : list (Z * SessionEntry);
  as_in_flight : list (Z * Entry);
  as_reorder : list (ReorderKey * list Z);
  as_blocked : list (ReorderKey * BlockedOutput);
  as_batches : list (BatchKey * list Pending);
  as_sinks : list (Z * bool);
  as_wake : bool;
  as_finished : list Entry;
}.

Definition make_async (o : AsyncOptions) : AsyncRuntime :=
  MkAsync o (Queue.make (ao_completion_queue_capacity o)) 1 1 (MkCounters 0 0 0 0 0) ∅ [] [] [] [] [] [] false [].

Definition on_queue (f : CompletionQueue -> CompletionQueue) (a : AsyncRuntime) : AsyncRuntime :=
  MkAsync (as_options a) (f (as_queue a)) (as_next_request a) (as_next_batch a) (as_counters a) (as_nodes a) (as_sessions a) (as_in_flight a)
    (as_reorder a) (as_blocked a) (as_batches a) (as_sinks a) (as_wake a) (as_finished a).
Definition with_ids (request batch : Z) (a : AsyncRuntime) : AsyncRuntime :=
  MkAsync (as_options a) (as_queue a) request batch (as_counters a) (as_nodes a) (as_sessions a) (as_in_flight a)
    (as_reorder a) (as_blocked a) (as_batches a) (as_sinks a) (as_wake a) (as_finished a).
Definition on_counters (f : Counters -> Counters) (a : AsyncRuntime) : AsyncRuntime :=
  MkAsync (as_options a) (as_queue a) (as_next_request a) (as_next_batch a) (f (as_counters a)) (as_nodes a) (as_sessions a) (as_in_flight a)
    (as_reorder a) (as_blocked a) (as_batches a) (as_sinks a) (as_wake a) (as_finished a).
Definition on_node_counters (f : NodeCounters -> NodeCounters) (r : nat) (a : AsyncRuntime) : AsyncRuntime :=
  MkAsync (as_options a) (as_queue a) (as_next_request a) (as_next_batch a) (as_counters a)
    (<[r := f (default (MkNodeCounters 0 0 0 0 0) (as_nodes a !! r))]> (as_nodes a)) (as_sessions a) (as_in_flight a)
    (as_reorder a) (as_blocked a) (as_batches a) (as_sinks a) (as_wake a) (as_finished a).
Definition on_sessions (f : list (Z * SessionEntry) -> list (Z * SessionEntry)) (a : AsyncRuntime) : AsyncRuntime :=
  MkAsync (as_options a) (as_queue a) (as_next_request a) (as_next_batch a) (as_counters a) (as_nodes a) (f (as_sessions a)) (as_in_flight a)
    (as_reorder a) (as_blocked a) (as_batches a) (as_sinks a) (as_wake a) (as_finished a).
Definition on_in_flight (f : list (Z * Entry) -> list (Z * Entry)) (a : AsyncRuntime) : AsyncRuntime :=
  MkAsync (as_options a) (as_queue a) (as_next_request a) (as_next_batch a) (as_counters a) (as_nodes a) (as_sessions a) (f (as_in_flight a))
    (as_reorder a) (as_blocked a) (as_batches a) (as_sinks a) (as_wake a) (as_finished a).
Definition on_reorder (f : list (ReorderKey * list Z) -> list (ReorderKey * list Z)) (a : AsyncRuntime) : AsyncRuntime :=
  MkAsync (as_options a) (as_queue a) (as_next_request a) (as_next_batch a) (as_counters a) (as_nodes a) (as_sessions a) (as_in_flight a)
    (f (as_reorder a)) (as_blocked a) (as_batches a) (as_sinks a) (as_wake a) (as_finished a).
Definition on_blocked (f : list (ReorderKey * BlockedOutput) -> list (ReorderKey * BlockedOutput)) (a : AsyncRuntime) : AsyncRuntime :=
  MkAsync (as_options a) (as_queue a) (as_next_request a) (as_next_batch a) (as_counters a) (as_nodes a) (as_sessions a) (as_in_flight a)
    (as_reorder a) (f (as_blocked a)) (as_batches a) (as_sinks a) (as_wake a) (as_finished a).
Definition on_batches (f : list (BatchKey * list Pending) -> list (BatchKey * list Pending)) (a : AsyncRuntime) : AsyncRuntime :=
  MkAsync (as_options a) (as_queue a) (as_next_request a) (as_next_batch a) (as_counters a) (as_nodes a) (as_sessions a) (as_in_flight a)
    (as_reorder a) (as_blocked a) (f (as_batches a)) (as_sinks a) (as_wake a) (as_finished a).
Definition on_sinks (f : list (Z * bool) -> list (Z * bool)) (a : AsyncRuntime) : AsyncRuntime :=
  MkAsync (as_options a) (as_queue a) (as_next_request a) (as_next_batch a) (as_counters a) (as_nodes a) (as_sessions a) (as_in_flight a)
    (as_reorder a) (as_blocked a) (as_batches a) (f (as_sinks a)) (as_wake a) (as_finished a).
Definition Wake (a : AsyncRuntime) : AsyncRuntime :=
  MkAsync (as_options a) (as_queue a) (as_next_request a) (as_next_batch a) (as_counters a) (as_nodes a) (as_sessions a) (as_in_flight a)
    (as_reorder a) (as_blocked a) (as_batches a) (as_sinks a) true (as_finished a).

Definition record_finished (e : Entry) (a : AsyncRuntime) : AsyncRuntime :=
  MkAsync (as_options a) (as_queue a) (as_next_request a) (as_next_batch a) (as_counters a) (as_nodes a) (as_sessions a) (as_in_flight a)
    (as_reorder a) (as_blocked a) (as_batches a) (as_sinks a) (as_wake a) (as_finished a ++ [e])%list.

Definition count_in_flight (d : Z) (c : Counters) : Counters :=
  MkCounters (Word.u64 (ct_in_flight c + d)) (ct_orphans c) (ct_gaps c) (ct_lates c) (ct_flushed c).
Definition count_orphan (c : Counters) : Counters :=
  MkCounters (ct_in_flight c) (Word.u64 (ct_orphans c + 1)) (ct_gaps c) (ct_lates c) (ct_flushed c).
Definition count_gap (c : Counters) : Counters :=
  MkCounters (ct_in_flight c) (ct_orphans c) (Word.u64 (ct_gaps c + 1)) (ct_lates c) (ct_flushed c).
Definition count_late (c : Counters) : Counters :=
  MkCounters (ct_in_flight c) (ct_orphans c) (ct_gaps c) (Word.u64 (ct_lates c + 1)) (ct_flushed c).
Definition count_flushed (c : Counters) : Counters :=
  MkCounters (ct_in_flight c) (ct_orphans c) (ct_gaps c) (ct_lates c) (Word.u64 (ct_flushed c + 1)).
Definition node_orphan (c : NodeCounters) : NodeCounters :=
  MkNodeCounters (Word.u64 (nc_orphans c + 1)) (nc_lates c) (nc_gaps c) (nc_batches c) (nc_batch_sizes c).
Definition node_late (c : NodeCounters) : NodeCounters :=
  MkNodeCounters (nc_orphans c) (Word.u64 (nc_lates c + 1)) (nc_gaps c) (nc_batches c) (nc_batch_sizes c).
Definition node_gap (c : NodeCounters) : NodeCounters :=
  MkNodeCounters (nc_orphans c) (nc_lates c) (Word.u64 (nc_gaps c + 1)) (nc_batches c) (nc_batch_sizes c).
Definition node_batch (size : Z) (c : NodeCounters) : NodeCounters :=
  MkNodeCounters (nc_orphans c) (nc_lates c) (nc_gaps c) (Word.u64 (nc_batches c + 1)) (Word.u64 (nc_batch_sizes c + size)).
Definition orphan (r : nat) (a : AsyncRuntime) : AsyncRuntime := on_node_counters node_orphan r (on_counters count_orphan a).

(** ** Sinks *)

(** [SessionCompletionSink::Push] on one of the sinks ever made. *)
Definition SinkPush (k : nat) (ev : CompletionEvent) (a : AsyncRuntime) : Status * AsyncRuntime :=
  let '(session, alive) := default (0, false) (as_sinks a !! k) in
  if negb alive then (StatusOps.Cancelled ("completion sink of session " ++ Dec.to_string session ++ " is closed"), a)
  else
    let ev := if ce_session ev =? 0
              then MkCompletionEvent (ce_request ev) session (ce_topology ev) (ce_parameter ev) (ce_seq ev) (ce_status ev) (ce_outputs ev)
              else ev in
    let '(st, q) := Queue.Push ev (as_queue a) in
    let a := on_queue (fun _ => q) a in
    (st, if StatusOps.ok st then Wake a else a).

Definition ForcePush (ev : CompletionEvent) (a : AsyncRuntime) : AsyncRuntime := Wake (on_queue (Queue.ForcePush ev) a).

Definition AttachSession (session : Z) (batching : bool) (a : AsyncRuntime) : nat * AsyncRuntime :=
  let k := List.length (as_sinks a) in
  (k, on_sessions (SMap.set session (MkSessionEntry k batching)) (on_sinks (fun l => l ++ [(session, true)])%list a)).

(** ** What surrounds the runtime *)

Class Host (X : Type) : Type := {
  host_heap : X -> heap;
  host_update : heap -> X -> X;
  after_emit : Z -> EmitReport -> X -> option X;
  on_async_idle : Z -> Z -> nat -> X -> option X;
  on_node_failed : Z -> Z -> nat -> Status -> X -> option X;
}.

(** A request to an operator; what the operator does with it: completions
    pushed from within [Submit], each answered with a status, then its own. *)
Record SubmitRequest : Type := MkSubmitRequest {
  sr_request : Z;
  sr_session : Z;
  sr_topology : Z;
  sr_parameter : Z;
  sr_seq : Z;
  sr_input_ports : list string;
  sr_inputs : list PacketRef;
  sr_parameters : json;
  sr_sink : option nat;
  sr_batch_id : Z;
  sr_batch_index : Z;
  sr_batch_size : Z;
}.
Inductive submission (W : Type) : Type :=
| Answers (st : Status) (w : W)
| Completes (ev : CompletionEvent) (next : Status -> submission W).
Arguments Answers {W}.
Arguments Completes {W}.

Record SubmitArgs : Type := MkSubmitArgs {
  sa_node : nat;
  sa_topology : RuntimeTopology;
  sa_parameters : ParameterSnapshot;
  sa_input_ports : list string;
  sa_inputs : list PacketRef;
  sa_packet_seq : Z;
  sa_device_id : Z;
}.

Fixpoint run_submission {W} (sink : option nat) (x : submission W) (a : AsyncRuntime) : option (Status * W * AsyncRuntime) :=
  match x with
  | Answers st w => Some (st, w, a)
  | Completes ev next =>
      k ← sink;
      let '(st, a) := SinkPush k ev a in run_submission sink (next st) a
  end.

Definition DeviceOf (t : RuntimeTopology) (node : NodeRuntime) : Z :=
  match GraphOps.FindNode (n_external_id node) (t_spec t) ≫= (fun n => ex_device_id (ns_executor n)) with
  | Some d => d
  | None => default (-1) (go_default_device_id (options_ (t_spec t)))
  end.

Section runtime.
Context {X : Type} `{!Host X} {W : Type} (op_submit : W -> nat -> SubmitRequest -> submission W).
(** The address of a node and its [current_ingress_ns]. *)
Context (address : nat -> Z) (current_ingress : nat -> Z).

Definition node_at (r : nat) (x : X) : NodeRuntime := default no_node (node_of (host_heap x) r).
Definition on_node (f : NodeRuntime -> NodeRuntime) (r : nat) (x : X) : X := host_update (set_node r (f (node_at r x)) (host_heap x)) x.
Definition reorder_key (r : nat) (version : Z) : ReorderKey := (address r, version).
Definition attached (session : Z) (a : AsyncRuntime) : bool := SMap.contains session (as_sessions a).

(** A loop whose body may fail. *)
Fixpoint loop {A S} (f : A -> S -> option S) (l : list A) (s : S) : option S :=
  match l with [] => Some s | x :: l' => s ← f x s; loop f l' s end.

(** [FinishEntry], also the end of a request whose session is gone. *)
Definition finish (now : Z) (e : Entry) (session : bool) (x : X) : option X :=
  let '(wake, n) := Node.EndAsync (node_at (en_node e) x) in
  let x := on_node (fun _ => n) (en_node e) x in
  if wake && session then on_async_idle now (en_session e) (en_node e) x else Some x.

Definition fail_node (now session : Z) (known : bool) (r : nat) (st : Status) (x : X) : option X :=
  match n_state (node_at r x) with
  | kFailed | kClosed => Some x
  | _ => let x := on_node (Node.Fail st) r x in if known then on_node_failed now session r st x else Some x
  end.

(** ** Leaving *)

Definition belongs (session : Z) (a : AsyncRuntime) (id : Z) : bool :=
  match SMap.find id (as_in_flight a) with Some e => en_session e =? session | None => false end.
Definition forget (session : Z) (k : nat) (a : AsyncRuntime) : AsyncRuntime :=
  let a := on_sessions (SMap.erase session) (on_sinks (alter (fun s => (s.1, false)) k) a) in
  let gone id := belongs session a id in
  let a := on_batches (fun l => List.filter (fun kv => negb (bool_decide (kv.2 = [])))
             (map (fun kv => (kv.1, List.filter (fun p => negb (gone (pe_id p))) kv.2)) l)) a in
  let a := on_in_flight (List.filter (fun kv => negb (en_session kv.2 =? session))) a in
  let a := on_reorder (List.filter (fun kv => existsb (fun id => SMap.contains id (as_in_flight a)) kv.2)) a in
  on_blocked (List.filter (fun kv => negb (bl_session kv.2 =? session))) a.
Definition drop_entry (now : Z) (e : Entry) (ax : AsyncRuntime * X) : option (AsyncRuntime * X) :=
  let a := orphan (en_node e) (on_counters (count_in_flight (-1)) ax.1) in
  x ← finish now e true ax.2; Some (a, x).
Definition DetachSession (now session : Z) (a : AsyncRuntime) (x : X) : option (AsyncRuntime * X) :=
  match SMap.find session (as_sessions a) with
  | None => Some (a, x)
  | Some s =>
      let dropped := map snd (List.filter (fun kv => en_session kv.2 =? session) (as_in_flight a)) in
      loop (drop_entry now) dropped (forget session (se_sink s) a, x)
  end.

(** ** Submitting *)

Definition inference_timeout (n : NodeRuntime) (a : AsyncRuntime) : Z :=
  let ms := default 0 (xc_max_inference_ms (cd_execution (n_capability n))) in
  if ms =? 0 then ao_default_inference_timeout (as_options a) else Word.i64 ms.

(** The loop of [FlushBatch] over its members: the operators' world, the
    runtime and the failures so far. *)
Definition flush_one (now batch_id size : Z) (x : X) (ip : Z * Pending) (s : W * AsyncRuntime * list (nat * Z * bool * Status))
    : option (W * AsyncRuntime * list (nat * Z * bool * Status)) :=
  let '(w, a, failed) := s in
  let '(i, p) := ip in
  match SMap.find (pe_id p) (as_in_flight a) with
  | None => Some (w, a, failed)
  | Some e =>
      let r := en_node e in
      let n := node_at r x in
      let a := on_in_flight (SMap.set (pe_id p) (submitted_at now (after now (inference_timeout n a)) e)) a in
      let sink := se_sink <$> SMap.find (en_session e) (as_sessions a) in
      let known := attached (en_session e) a in
      let a := on_node_counters (node_batch size) r a in
      let req := MkSubmitRequest (en_id e) (en_session e) (en_topology e) (en_parameter e) (en_seq e) (pe_input_ports p) (pe_inputs p)
                   (ps_values (pe_parameters p)) sink batch_id i size in
      '(st, w, a) ← (if cancelled_ n then Some (StatusOps.Cancelled ("node '" ++ n_external_id n ++ "' is retired"), w, a)
                     else run_submission sink (op_submit w r req) a);
      if StatusOps.ok st then Some (w, a, failed)
      else
        let ev := MkCompletionEvent (sr_request req) (sr_session req) (sr_topology req) (sr_parameter req) (sr_seq req) st [] in
        Some (w, ForcePush ev a, if cancelled_ n then failed else (failed ++ [(r, en_session e, known, st)])%list)
  end.
Definition numbered {A} (l : list A) : list (Z * A) := imap (fun i p => (Z.of_nat i, p)) l.
Definition FlushBatch (now : Z) (members : list Pending) (s : W * AsyncRuntime * X) : option (W * AsyncRuntime * X) :=
  match members with
  | [] => Some s
  | _ =>
      let '(w, a, x) := s in
      let batch_id := as_next_batch a in
      let size := Word.u32 (Z.of_nat (List.length members)) in
      let a := on_counters count_flushed (with_ids (as_next_request a) (Word.u64 (batch_id + 1)) a) in
      '(w, a, failed) ← loop (flush_one now batch_id size x) (numbered members) (w, a, []);
      x ← loop (fun '(r, session, known, st) x => fail_node now session known r st x) failed x;
      Some (w, a, x)
  end.

Definition batch_key (args : SubmitArgs) (n : NodeRuntime) : BatchKey :=
  ((OperatorKeyOps.ToString (n_key n), default "" (Json.GetString "model" (n_options n))),
   (if sa_device_id args =? -1 then DeviceOf (sa_topology args) n else sa_device_id args, Json.Serialize (ps_values (sa_parameters args)))).
Definition new_entry (now id : Z) (args : SubmitArgs) (n : NodeRuntime) (a : AsyncRuntime) : Entry :=
  MkEntry id (t_session (sa_topology args)) (t_version (sa_topology args)) (ps_version (sa_parameters args)) (sa_node args) (sa_topology args)
    (sa_packet_seq args) (OldestIngress (sa_inputs args) 0) None (after now (inference_timeout n a)) None false.

(** The part of [Submit] under the lock: the tables, and the batch that is
    ready. *)
Definition enqueue (now : Z) (args : SubmitArgs) (n : NodeRuntime) (a : AsyncRuntime) : Z * list Pending * AsyncRuntime :=
  let id := as_next_request a in
  let cfg := FromOptions (n_options n) in
  let e := new_entry now id args n a in
  let key := batch_key args n in
  let session_batching := match SMap.find (en_session e) (as_sessions a) with Some s => se_batching s | None => false end in
  let max_batch := default (ao_max_batch (as_options a)) (bc_max_batch cfg) in
  let timeout := default (ao_batch_timeout (as_options a)) (bc_timeout cfg) in
  let batching := ao_batching (as_options a) && session_batching && bc_enabled cfg && (1 <? max_batch) in
  let order := reorder_key (sa_node args) (t_version (sa_topology args)) in
  let pending due max := MkPending id (sa_parameters args) (sa_input_ports args) (sa_inputs args) due max in
  let a := with_ids (Word.u64 (id + 1)) (as_next_batch a) a in
  let a := on_in_flight (fun l => (SMap.emplace id e l).1) a in
  let a := on_reorder (fun l => SMap.set order (default [] (SMap.find order l) ++ [id])%list l) a in
  let a := on_counters (count_in_flight 1) a in
  if batching then
    let members := (default [] (SMap.find key (as_batches a)) ++ [pending (after now timeout) max_batch])%list in
    if max_batch <=? Z.of_nat (List.length members) then (id, members, on_batches (SMap.erase key) a)
    else (id, [], on_batches (SMap.set key members) a)
  else (id, [pending 0 1], a).
Definition Submit (now : Z) (args : SubmitArgs) (s : W * AsyncRuntime * X) : option (Z * (W * AsyncRuntime * X)) :=
  let '(w, a, x) := s in
  let '(id, ready, a) := enqueue now args (node_at (sa_node args) x) a in
  match ready with
  | [] => Some (id, (w, Wake a, x))
  | _ => s ← FlushBatch now ready (w, a, x); Some (id, s)
  end.

(** ** Blocked output *)

Definition is_on (e : edge_ref) (l : list (edge_ref * PacketRef)) : bool := existsb (fun p => bool_decide (p.1 = e)) l.

(** One round over the packets that wait: those that still do, the consumers
    to wake, whether anything moved. *)
Fixpoint retry_pushes (cancelled : bool) (work still : list (edge_ref * PacketRef)) (targets : list nat) (any : bool) (h : heap)
    : list (edge_ref * PacketRef) * list nat * bool * heap :=
  match work with
  | [] => (still, targets, any, h)
  | (e, p) :: rest =>
      if cancelled then retry_pushes cancelled rest still targets any h
      else if is_on e still then retry_pushes cancelled rest (still ++ [(e, p)])%list targets any h
      else
        let '(o, ro) := PushEdge e p (MkRouting h (Some empty_report) 0 0) in
        let h := ro_heap ro in
        match o with
        | kWouldBlock => retry_pushes cancelled rest (still ++ [(e, p)])%list targets any h
        | kAccepted | kAcceptedDroppedOldest =>
            retry_pushes cancelled rest still (targets ++ default [] (rp_targets <$> ro_report ro))%list true h
        | _ => retry_pushes cancelled rest still targets true h
        end
  end.
Definition still_blocked (k : ReorderKey) (still : list (edge_ref * PacketRef)) (l : list (ReorderKey * BlockedOutput)) : list (ReorderKey * BlockedOutput) :=
  match SMap.find k l with
  | None => l
  | Some b => match still with
              | [] => SMap.erase k l
              | _ => SMap.set k (MkBlocked (bl_node b) (bl_topology b) (bl_session b) still) l
              end
  end.
Definition retry_one (kb : ReorderKey * BlockedOutput) (s : bool * AsyncRuntime * X) : option (bool * AsyncRuntime * X) :=
  let '(any, a, x) := s in
  let '(k, b) := kb in
  let '(still, targets, any, h) := retry_pushes (cancelled_ (node_at (bl_node b) x)) (bl_pushes b) [] [] any (host_heap x) in
  let x := host_update h x in
  let a := on_blocked (still_blocked k still) a in
  x ← (if negb (bool_decide (targets = [])) && attached (bl_session b) a then after_emit (bl_session b) (MkReport 0 0 0 0 [] targets None) x else Some x);
  Some (any, a, x).
Definition RetryBlockedOutputs (a : AsyncRuntime) (x : X) : option (bool * AsyncRuntime * X) := loop retry_one (as_blocked a) (false, a, x).

(** ** Completions *)

Definition matches (ev : CompletionEvent) (e : Entry) : bool :=
  (ce_session ev =? en_session e) && (ce_topology ev =? en_topology e) && (ce_parameter ev =? en_parameter e) && (ce_seq ev =? en_seq e).
Definition OnCompletion (now : Z) (ev : CompletionEvent) (a : AsyncRuntime) (x : X) : option (AsyncRuntime * X) :=
  match SMap.find (ce_request ev) (as_in_flight a) with
  | None => Some (on_counters count_orphan a, x)
  | Some e =>
      if en_done e then Some (on_node_counters node_late (en_node e) (on_counters count_late (orphan (en_node e) a)), x)
      else if negb (matches ev e) then Some (orphan (en_node e) a, x)
      else
        let fails := negb (StatusOps.ok (ce_status ev)) && negb (cancelled_ (node_at (en_node e) x)) in
        let a := on_in_flight (SMap.set (ce_request ev) (finished_with (Some ev) e)) a in
        x ← (if fails then fail_node now (en_session e) (attached (en_session e) a) (en_node e) (ce_status ev) x else Some x);
        Some (a, x)
  end.

Definition expired (now : Z) (e : Entry) : bool := negb (en_done e) && has (en_submitted e) && (en_deadline e <=? now).
Definition expire_head (now : Z) (order : list Z) (l : bool * list (Z * Entry)) : bool * list (Z * Entry) :=
  match order with
  | [] => l
  | id :: _ => match SMap.find id l.2 with
               | Some e => if expired now e then (true, SMap.set id (finished_with None e) l.2) else l
               | None => l
               end
  end.
Definition ExpireDeadlines (now : Z) (a : AsyncRuntime) : bool * AsyncRuntime :=
  let '(any, l) := fold_left (fun l kv => expire_head now kv.2 l) (as_reorder a) (false, as_in_flight a) in
  (any, on_in_flight (fun _ => l) a).

(** ** Delivery *)

Definition drops (p : Packet) : bool := PacketOps.is_eos p || PacketOps.is_dropped p.
(** A packet that joins the ones already waiting for its edges. *)
Definition stamp_parked (e : Entry) (route : RouteEntry) (p : Packet) : Packet :=
  let hd := header p in
  MkPacket (MkPacketHeader (seq hd) (pts_ns hd) (dts_ns hd) (flags hd) (en_topology e) (en_parameter e)
              (if type_tag hd =? kInvalidTypeTag then re_tag route else type_tag hd))
    (metadata p) (payload p) (if ingress_ns p =? 0 then en_ingress e else ingress_ns p).
Definition with_ingress (ns : Z) (p : Packet) : Packet := MkPacket (header p) (metadata p) (payload p) (if ingress_ns p =? 0 then ns else ingress_ns p).
Definition join (a b : EmitReport) : EmitReport :=
  MkReport (Word.u32 (rp_accepted a + rp_accepted b)) (Word.u32 (rp_dropped a + rp_dropped b)) (Word.u32 (rp_would_block a + rp_would_block b))
    (Word.u32 (rp_cancelled a + rp_cancelled b)) (rp_blocked a) (rp_targets a ++ rp_targets b)%list (rp_packet a).

(** The loop of [DeliverEntry]: a status when the node fails, else the report
    and the packets that wait. *)
Fixpoint deliver_outputs (now : Z) (e : Entry) (outputs : list (string * Packet)) (report : EmitReport) (parked : list (edge_ref * PacketRef)) (x : X)
    : (option Status * EmitReport * list (edge_ref * PacketRef)) * X :=
  match outputs with
  | [] => ((None, report, parked), x)
  | (port, packet) :: rest =>
      if drops packet then deliver_outputs now e rest report parked x
      else
        let x := on_node (Node.NoteSeq (seq (header packet))) (en_node e) x in
        let n := node_at (en_node e) x in
        let routes := default [] (RoutesFor (en_topology_ref e) (n_id n) port) in
        match List.find (fun r => is_on (re_edge r) parked) routes, routes with
        | Some _, first :: _ =>
            let shared := Some (stamp_parked e first packet) in
            deliver_outputs now e rest report (parked ++ map (fun r => (re_edge r, shared)) routes)%list x
        | _, _ =>
            let '(st, ro) := Emit now (current_ingress (en_node e)) (en_topology_ref e) n port (with_ingress (en_ingress e) packet) (en_parameter e)
                               (MkRouting (host_heap x) (Some empty_report) 0 0) in
            let one := default empty_report (ro_report ro) in
            let x := host_update (ro_heap ro) x in
            let report := join report one in
            if bool_decide (code st = GE_STATUS_WOULD_BLOCK)
            then deliver_outputs now e rest report (parked ++ map (fun edge => (edge, rp_packet one)) (rp_blocked one))%list x
            else if negb (StatusOps.ok st) && negb (bool_decide (code st = GE_STATUS_CANCELLED)) then ((Some st, report, parked), x)
            else deliver_outputs now e rest report parked x
        end
  end.

Definition park (e : Entry) (pushes : list (edge_ref * PacketRef)) (a : AsyncRuntime) : AsyncRuntime :=
  match pushes with
  | [] => a
  | _ =>
      let k := reorder_key (en_node e) (en_topology e) in
      on_blocked (fun l => SMap.set k (match SMap.find k l with
                                       | Some b => match bl_pushes b with
                                                   | [] => MkBlocked (en_node e) (en_topology_ref e) (en_session e) pushes
                                                   | _ => MkBlocked (bl_node b) (bl_topology b) (bl_session b) (bl_pushes b ++ pushes)
                                                   end
                                       | None => MkBlocked (en_node e) (en_topology_ref e) (en_session e) pushes
                                       end) l) a
  end.
Definition hook_emit (e : Entry) (session : bool) (report : EmitReport) (x : X) : option X :=
  if session then after_emit (en_session e) report x else Some x.

Definition DeliverEntry (now : Z) (e : Entry) (ev : CompletionEvent) (session : bool) (a : AsyncRuntime) (x : X) : option (AsyncRuntime * X) :=
  let n := node_at (en_node e) x in
  if negb (StatusOps.ok (ce_status ev)) then
    x ← (if cancelled_ n then Some x else fail_node now (en_session e) session (en_node e) (ce_status ev) x); Some (a, x)
  else if cancelled_ n || bool_decide (n_state n = kClosed) || bool_decide (n_state n = kFailed) then Some (orphan (en_node e) a, x)
  else
    match deliver_outputs now e (ce_outputs ev) empty_report [] x with
    | ((Some st, _, _), x) => x ← fail_node now (en_session e) session (en_node e) st x; Some (a, x)
    | ((None, report, parked), x) => x ← hook_emit e session report x; Some (park e parked a, x)
    end.

Definition gap_packet (e : Entry) : Packet :=
  MkPacket (MkPacketHeader (en_seq e) 0 0 GE_PACKET_FLAG_DROPPED 0 0 kInvalidTypeTag)
    (Some (MetadataOps.Set_ "request_id" (Dec.to_string (en_id e)) (MetadataOps.Set_ "timeout" "true" (MetadataOps.Set_ "dropped" "true" [])))) None 0.
Definition emit_gap (now : Z) (e : Entry) (s : EmitReport * X) (port : string) : EmitReport * X :=
  let '(_, ro) := Emit now (current_ingress (en_node e)) (en_topology_ref e) (node_at (en_node e) s.2) port (gap_packet e) (en_parameter e)
                    (MkRouting (host_heap s.2) (Some s.1) 0 0) in
  (default empty_report (ro_report ro), host_update (ro_heap ro) s.2).
Definition EmitGap (now : Z) (e : Entry) (session : bool) (a : AsyncRuntime) (x : X) : option (AsyncRuntime * X) :=
  let a := on_node_counters node_gap (en_node e) (on_counters count_gap a) in
  let x := on_node (fun n => Node.with_metrics (m_invocations n) (Word.u64 (m_errors n + 1)) (m_submitted n) (m_completed n) n) (en_node e) x in
  let n := node_at (en_node e) x in
  if cancelled_ n then Some (a, x)
  else
    let '(report, x) := fold_left (emit_gap now e) (OutputPorts (host_heap x) (en_topology_ref e) (n_id n)) (empty_report, x) in
    x ← hook_emit e session report x; Some (a, x).

(** The walk over the reorder buffers up to the first head that is done: the
    buffers after it, and the request. *)
Fixpoint drop_gone (flying : list (Z * Entry)) (order : list Z) : list Z :=
  match order with
  | [] => []
  | id :: rest => if SMap.contains id flying then order else drop_gone flying rest
  end.
Fixpoint take_ready (flying : list (Z * Entry)) (blocked : list (ReorderKey * BlockedOutput)) (l : list (ReorderKey * list Z))
    : list (ReorderKey * list Z) * option (Z * Entry) :=
  match l with
  | [] => ([], None)
  | (k, order) :: l' =>
      match drop_gone flying order with
      | [] => take_ready flying blocked l'
      | id :: rest =>
          let skip := let '(l'', e) := take_ready flying blocked l' in ((k, id :: rest) :: l'', e) in
          if SMap.contains k blocked then skip
          else match SMap.find id flying with
               | Some e => if en_done e then ((k, rest) :: l', Some (id, e)) else skip
               | None => skip
               end
      end
  end.

Definition deliver_one (now : Z) (e : Entry) (a : AsyncRuntime) (x : X) : option (AsyncRuntime * X) :=
  let session := attached (en_session e) a in
  let a := record_finished e (on_counters (count_in_flight (-1)) a) in
  '(a, x) ← match en_result e with
            | Some ev => DeliverEntry now e ev session a x
            | None => EmitGap now e session a x
            end;
  x ← finish now e session x; Some (a, x).
Fixpoint deliver_ready (fuel : nat) (now : Z) (any : bool) (a : AsyncRuntime) (x : X) : option (bool * AsyncRuntime * X) :=
  match fuel with
  | O => None
  | S fuel =>
      let '(buffers, ready) := take_ready (as_in_flight a) (as_blocked a) (as_reorder a) in
      let a := on_reorder (fun _ => buffers) a in
      match ready with
      | None => Some (any, a, x)
      | Some (id, e) =>
          '(a, x) ← deliver_one now e (on_in_flight (SMap.erase id) a) x;
          deliver_ready fuel now true a x
      end
  end.
Definition DeliverReady (now : Z) (a : AsyncRuntime) (x : X) : option (bool * AsyncRuntime * X) :=
  deliver_ready (S (List.length (as_in_flight a))) now false a x.

(** ** The consumer *)

Definition FlushDueBatches (now : Z) (s : W * AsyncRuntime * X) : option (bool * (W * AsyncRuntime * X)) :=
  let '(w, a, x) := s in
  let is_due kv := existsb (fun p => pe_due p <=? now) (kv : BatchKey * list Pending).2 in
  let due := List.filter is_due (as_batches a) in
  let a := on_batches (List.filter (fun kv => negb (is_due kv))) a in
  s ← loop (fun kv => FlushBatch now kv.2) due (w, a, x);
  Some (negb (bool_decide (due = [])), s).

Definition complete_one (now : Z) (ev : CompletionEvent) (s : AsyncRuntime * X) : option (AsyncRuntime * X) :=
  '(a, x) ← OnCompletion now ev s.1 s.2;
  '(_, a, x) ← DeliverReady now a x;
  Some (a, x).
Definition DrainCompletions (now : Z) (a : AsyncRuntime) (x : X) : option (bool * AsyncRuntime * X) :=
  let '(events, q) := Queue.DrainAll (as_queue a) in
  '(a, x) ← loop (complete_one now) events (on_queue (fun _ => q) a, x);
  Some (negb (bool_decide (events = [])), a, x).

(** [Pump]; the clock is read again before the deadlines are checked. *)
Definition Pump (now later : Z) (s : W * AsyncRuntime * X) : option (bool * (W * AsyncRuntime * X)) :=
  '(p1, (w, a, x)) ← FlushDueBatches now s;
  '(p2, a, x) ← RetryBlockedOutputs a x;
  '(p3, a, x) ← DrainCompletions now a x;
  let '(p4, a) := ExpireDeadlines later a in
  '(p5, a, x) ← DeliverReady later a x;
  Some (p1 || p2 || p3 || p4 || p5, (w, a, x)).

End runtime.

(** ** Observers *)

Definition earlier (next : option Z) (t : Z) : option Z := match next with Some n => if t <? n then Some t else next | None => Some t end.
Definition NextWake (now : Z) (a : AsyncRuntime) : option Z :=
  let next := fold_left (fun n kv => fold_left (fun n p => earlier n (pe_due p)) kv.2 n) (as_batches a) None in
  let next := fold_left (fun n kv => match kv.2 with
                                     | [] => n
                                     | id :: _ => match SMap.find id (as_in_flight a) with
                                                  | Some e => if has (en_submitted e) && negb (en_done e) then earlier n (en_deadline e) else n
                                                  | None => n
                                                  end
                                     end) (as_reorder a) next in
  match as_blocked a with [] => next | _ => earlier next (after now 1) end.

Definition blocked_outputs (a : AsyncRuntime) : Z := Z.of_nat (list_sum (map (fun kv => List.length (bl_pushes kv.2)) (as_blocked a))).
Definition Stats (a : AsyncRuntime) : json :=
  let c := as_counters a in
  Json.obj [("in_flight", Json.of_u64 (ct_in_flight c)); ("orphan_completion_total", Json.of_u64 (ct_orphans c));
            ("timeout_gap_total", Json.of_u64 (ct_gaps c)); ("late_completion_total", Json.of_u64 (ct_lates c));
            ("batches_flushed", Json.of_u64 (ct_flushed c)); ("queue_dropped_on_full", Json.of_u64 (cq_dropped (as_queue a)));
            ("queue_depth", Json.of_u64 (Z.of_nat (List.length (cq_events (as_queue a)))));
            ("batch_parked", Json.of_u64 (Z.of_nat (list_sum (map (fun kv => List.length kv.2) (as_batches a)))));
            ("blocked_outputs", Json.of_u64 (blocked_outputs a))].
