(* ===== verification/AsyncProofs.v ===== *)
(** The asynchronous runtime: its operations are made of a few small changes of
    its tables ([move]), shown once; the theorems follow by cases on them. *)

From stdpp Require Import base numbers list strings gmap option relations sorting.
From Stdlib Require Import ZArith Lia Ascii String.
From S2P Require Import Prelude Types Double Json GraphSpec CapabilityTypes Packet EdgeChannel InputBinding NodeRuntime RuntimeTopology Coordinator Scheduler SchedulerProofs AsyncRuntime.

Local Open Scope string_scope.
Local Open Scope Z_scope.
#[local] Set Default Proof Using "Type*".

(** ** The session's side *)

Section keeps.
Context {X : Type} `{!Host X}.

(** Requests pending on every node stay as they are. *)
Definition keeps (x x' : X) : Prop :=
  List.length (h_nodes (host_heap x')) = List.length (h_nodes (host_heap x)) /\
  forall r, async_pending_ (node_at r x') = async_pending_ (node_at r x).
(** [EndAsync] was called for [count r] requests of every node [r]. *)
Definition ends_async (count : nat -> nat) (x x' : X) : Prop :=
  List.length (h_nodes (host_heap x')) = List.length (h_nodes (host_heap x)) /\
  forall r, Word.is_u32 (async_pending_ (node_at r x)) -> async_pending_ (node_at r x') =
    if decide (r < List.length (h_nodes (host_heap x)))%nat then Word.u32 (async_pending_ (node_at r x) - Z.of_nat (count r)) else async_pending_ (node_at r x).

#[global] Instance keeps_preorder : PreOrder keeps.
Proof.
  split; [by intros x; split|]. intros x y z [L1 H1] [L2 H2]. split; [congruence|]. intros r. by rewrite H2.
Qed.
End keeps.

(** What a session promises the runtime: its heap is a store, and its hooks
    neither begin nor end requests. *)
Class HostLaws (X : Type) `{!Host X} : Prop := {
  host_stores h (x : X) : host_heap (host_update h x) = h;
  after_emit_keeps s report (x x' : X) : after_emit s report x = Some x' -> keeps x x';
  on_async_idle_keeps now s r (x x' : X) : on_async_idle now s r x = Some x' -> keeps x x';
  on_node_failed_keeps now s r st (x x' : X) : on_node_failed now s r st x = Some x' -> keeps x x';
}.

Lemma sorted_sublist {A} (R : relation A) l l' : sublist l l' -> StronglySorted R l' -> StronglySorted R l.
Proof.
  induction 1 as [|x l l' Hl IH|x l l' Hl IH]; intros Hs; [done| |]; apply StronglySorted_inv in Hs as [Hs Hf]; [|auto].
  constructor; [auto|]. rewrite Forall_forall in *. intros y Hy. apply Hf. by eapply sublist_subseteq.
Qed.

Lemma filter_keys_sublist {K V} (f : K * V -> bool) l : sublist (List.filter f l).*1 l.*1.
Proof. induction l as [|kv l IH]; [done|]. simpl. destruct (f kv); [by apply sublist_skip|by apply sublist_cons]. Qed.

Lemma count_filter {A} (f : A -> bool) l : count f l = List.length (List.filter f l).
Proof. induction l as [|y l IH]; [done|]. simpl. destruct (f y); simpl; by rewrite IH. Qed.
Lemma count_map {A B} (f : B -> bool) (g : A -> B) l : count f (map g l) = count (fun y => f (g y)) l.
Proof. induction l as [|y l IH]; [done|]. simpl. by rewrite IH. Qed.

(** ** Small changes *)

Definition order (k : ReorderKey) (l : list (ReorderKey * list Z)) : list Z := default [] (SMap.find k l).
Definition live (flying : list (Z * Entry)) (ids : list Z) : list Z := List.filter (fun id => SMap.contains id flying) ids.
Definition tables (a : AsyncRuntime) : Z * Z * list (Z * Entry) * list (ReorderKey * list Z) * list Entry * list (Z * SessionEntry) :=
  (as_next_request a, ct_in_flight (as_counters a), as_in_flight a, as_reorder a, as_finished a, as_sessions a).
(** The same request, further on. *)
Definition same_request (e e' : Entry) : Prop :=
  en_id e' = en_id e /\ en_session e' = en_session e /\ en_topology e' = en_topology e /\ en_node e' = en_node e.
Definition of_session (session : Z) (kv : Z * Entry) : bool := en_session kv.2 =? session.
Definition of_node (r : nat) (kv : Z * Entry) : bool := bool_decide (en_node kv.2 = r).

(** Buffers only lose requests. *)
Definition shrunk (l l' : list (ReorderKey * list Z)) : Prop :=
  SMap.sorted l -> SMap.sorted l' /\ forall k id, id ∈ order k l' -> id ∈ order k l.

Section moves.
Context {X : Type} `{!Host X} `{!HostLaws X} {W : Type} (op_submit : W -> nat -> SubmitRequest -> submission W).
Context (address current_ingress : nat -> Z).

Definition key_of (e : Entry) : ReorderKey := reorder_key address (en_node e) (en_topology e).

Inductive move : relation (AsyncRuntime * X) :=
| m_aside a a' x x' : tables a' = tables a -> keeps x x' -> move (a, x) (a', x')
| m_entry id e e' a x : SMap.find id (as_in_flight a) = Some e -> same_request e e' -> move (a, x) (on_in_flight (SMap.set id e') a, x)
| m_tidy l a x : shrunk (as_reorder a) l -> (forall k, live (as_in_flight a) (order k l) = live (as_in_flight a) (order k (as_reorder a))) ->
    move (a, x) (on_reorder (fun _ => l) a, x)
| m_finish k id e l a a' x x' : SMap.find id (as_in_flight a) = Some e ->
    live (as_in_flight a) (order k (as_reorder a)) = id :: live (as_in_flight a) (order k l) ->
    (forall k', k' <> k -> live (as_in_flight a) (order k' l) = live (as_in_flight a) (order k' (as_reorder a))) ->
    shrunk (as_reorder a) l ->
    tables a' = (as_next_request a, Word.u64 (ct_in_flight (as_counters a) - 1), SMap.erase id (as_in_flight a), l, (as_finished a ++ [e])%list, as_sessions a) ->
    ends_async (fun r => Nat.b2n (bool_decide (en_node e = r))) x x' -> move (a, x) (a', x')
| m_submit e a a' x x' : en_id e = as_next_request a -> as_next_request a + 1 < 2 ^ 64 -> (en_node e < List.length (h_nodes (host_heap x)))%nat ->
    attached (en_session e) a = true -> tables a' = (as_next_request a + 1, Word.u64 (ct_in_flight (as_counters a) + 1), (SMap.emplace (en_id e) e (as_in_flight a)).1,
                 SMap.set (key_of e) (order (key_of e) (as_reorder a) ++ [en_id e])%list (as_reorder a), as_finished a, as_sessions a) ->
    x' = on_node Node.BeginAsync (en_node e) x -> move (a, x) (a', x')
| m_detach session a a' x x' : Word.is_u64 (ct_in_flight (as_counters a)) ->
    tables a' = (as_next_request a, Word.u64 (ct_in_flight (as_counters a) - Z.of_nat (count (of_session session) (as_in_flight a))),
                 List.filter (fun kv => negb (of_session session kv)) (as_in_flight a),
                 List.filter (fun kv => existsb (fun id => SMap.contains id (List.filter (fun kv => negb (of_session session kv)) (as_in_flight a))) kv.2) (as_reorder a),
                 as_finished a, SMap.erase session (as_sessions a)) ->
    ends_async (fun r => count (of_node r) (List.filter (of_session session) (as_in_flight a))) x x' -> move (a, x) (a', x').

Lemma aside a a' x x' : tables a' = tables a -> keeps x x' -> rtc move (a, x) (a', x').
Proof. intros. by apply rtc_once, m_aside. Qed.

(** *** Changes of the heap *)

Lemma update_keeps h x : h_nodes h = h_nodes (host_heap x) -> keeps x (host_update h x).
Proof. intros E. unfold keeps, node_at, node_of. by rewrite host_stores, E. Qed.
Lemma node_at_on f r r' x : node_at r' (on_node f r x) =
  if decide (r' = r /\ (r < List.length (h_nodes (host_heap x)))%nat) then f (node_at r x) else node_at r' x.
Proof.
  unfold node_at at 1, on_node, node_of. rewrite host_stores. simpl. case_decide as D.
  - destruct D as [-> D]. by rewrite list_lookup_insert_eq.
  - unfold node_at, node_of. destruct (decide (r' = r)) as [->|Hn]; [|by rewrite list_lookup_insert_ne].
    rewrite list_insert_ge by (apply Nat.nlt_ge; intros ?; by apply D). done.
Qed.
Lemma on_node_length f r x : List.length (h_nodes (host_heap (on_node f r x))) = List.length (h_nodes (host_heap x)).
Proof. unfold on_node. rewrite host_stores. simpl. apply length_insert. Qed.
Lemma on_node_keeps f r x : (forall n, async_pending_ (f n) = async_pending_ n) -> keeps x (on_node f r x).
Proof.
  intros Hf. split; [by rewrite on_node_length|]. intros r'. rewrite node_at_on. case_decide as D; [|done]. destruct D as [-> _]. apply Hf.
Qed.

Lemma keeps_ends f x x' x'' : ends_async f x x' -> keeps x' x'' -> ends_async f x x''.
Proof. intros [L1 H1] [L2 H2]. split; [congruence|]. intros r Hu. by rewrite H2, H1. Qed.
Lemma ends_keeps f x x' x'' : keeps x x' -> ends_async f x' x'' -> ends_async f x x''.
Proof. intros [L1 H1] [L2 H2]. split; [congruence|]. intros r Hu. rewrite H2, H1, L1; [done|by rewrite H1]. Qed.

Lemma emit_nodes now i t n port p v ro : h_nodes (ro_heap (Emit now i t n port p v ro).2) = h_nodes (ro_heap ro).
Proof.
  unfold Emit, PushAll. destruct (RuntimeTopology.Prepare _ _ _ _ _ _ _ _) as [[q|]|st]; try done.
  pose proof (push_all_nodes (default [] (RoutesFor t (n_id n) port)) (Some q) false
    (MkRouting (ro_heap ro) (with_packet (Some q) <$> ro_report ro) (ro_out ro) (ro_blocked ro))) as H. by destruct (push_all _ _ _ _).
Qed.
Lemma retry_pushes_nodes c work : forall still targets any h, h_nodes (retry_pushes c work still targets any h).2 = h_nodes h.
Proof.
  induction work as [|[e p] work IH]; intros still targets any h; [done|]. simpl. destruct c; [apply IH|]. destruct (is_on e still); [apply IH|].
  pose proof (push_edge_nodes e p (MkRouting h (Some empty_report) 0 0)) as H. destruct (PushEdge _ _ _) as [o ro]. destruct o; by rewrite IH.
Qed.

Lemma fail_node_keeps now s known r st x x' : fail_node now s known r st x = Some x' -> keeps x x'.
Proof.
  unfold fail_node. intros H. assert (K : keeps x (on_node (Node.Fail st) r x)) by by apply on_node_keeps.
  destruct (n_state _), known; simplify_eq; try done; try exact K; (etrans; [exact K|]); by eapply on_node_failed_keeps.
Qed.
Lemma finish_ends now e session x x' : finish now e session x = Some x' -> ends_async (fun r => Nat.b2n (bool_decide (en_node e = r))) x x'.
Proof.
  unfold finish. destruct (Node.EndAsync _) as [wake n] eqn:E. intros H.
  assert (Hn : async_pending_ n = Word.u32 (async_pending_ (node_at (en_node e) x) - 1)).
  { revert E. unfold Node.EndAsync, Node.TryLeaveAsyncPending, Node.cas_state. intros E. repeat case_match; simplify_eq/=; done. }
  assert (Hx : ends_async (fun r => Nat.b2n (bool_decide (en_node e = r))) x (on_node (fun _ => n) (en_node e) x)).
  { split; [by rewrite on_node_length|]. intros r Hu. rewrite node_at_on. destruct (decide (en_node e = r)) as [<-|Hne].
    - rewrite bool_decide_eq_true_2 by done. destruct (decide (_ < _)%nat); [by rewrite decide_True|by rewrite decide_False by (by intros [_ ?])].
    - rewrite (decide_False (P := _ /\ _)) by (by intros [-> _]). rewrite bool_decide_eq_false_2 by done. simpl. rewrite Z.sub_0_r, Word.u32_small by done. by case_decide. }
  destruct (wake && session); simplify_eq; [|done]. eapply keeps_ends; [exact Hx|]. by eapply on_async_idle_keeps.
Qed.

Lemma deliver_outputs_keeps now e outputs : forall report parked x, keeps x (deliver_outputs current_ingress now e outputs report parked x).2.
Proof.
  induction outputs as [|[port p] outputs IH]; intros report parked x; [done|]. simpl. destruct (drops p); [apply IH|].
  assert (K : keeps x (on_node (Node.NoteSeq (seq (header p))) (en_node e) x)) by by apply on_node_keeps.
  set (x1 := on_node _ _ _) in *. set (n := node_at _ _). etrans; [exact K|].
  pose proof (emit_nodes now (current_ingress (en_node e)) (en_topology_ref e) n port (with_ingress (en_ingress e) p) (en_parameter e)
                (MkRouting (host_heap x1) (Some empty_report) 0 0)) as Hn.
  destruct (Emit _ _ _ _ _ _ _ _) as [st ro]. simpl in Hn. apply update_keeps in Hn.
  destruct (List.find _ _); [destruct (default [] _) as [|f l]; [|apply IH]|]; (case_bool_decide; [etrans; [exact Hn|apply IH]|]);
    (destruct (_ && _); [done|etrans; [exact Hn|apply IH]]).
Qed.

Lemma hook_emit_keeps e session report x x' : hook_emit e session report x = Some x' -> keeps x x'.
Proof. unfold hook_emit. destruct session; [apply after_emit_keeps|by intros [= ->]]. Qed.

Lemma emit_gap_keeps now e ports : forall s, keeps s.2 (fold_left (emit_gap current_ingress now e) ports s).2.
Proof.
  induction ports as [|p ports IH]; intros s; [done|]. simpl. etrans; [|apply IH]. unfold emit_gap.
  pose proof (emit_nodes now (current_ingress (en_node e)) (en_topology_ref e) (node_at (en_node e) s.2) p (gap_packet e) (en_parameter e)
                (MkRouting (host_heap s.2) (Some s.1) 0 0)) as Hn. destruct (Emit _ _ _ _ _ _ _ _). simpl in *. by apply update_keeps.
Qed.

(** Results and gaps leave the tables alone. *)
Lemma park_tables e l a : tables (park address e l a) = tables a.
Proof. by destruct l. Qed.
Lemma deliver_entry_aside now e ev session a x a' x' :
  DeliverEntry address current_ingress now e ev session a x = Some (a', x') -> tables a' = tables a /\ keeps x x'.
Proof.
  unfold DeliverEntry. intros H. destruct (negb (StatusOps.ok _)).
  { destruct (cancelled_ _); simplify_option_eq; [done|]. split; [done|]. by eapply fail_node_keeps. }
  destruct (_ || _); [by simplify_eq|]. pose proof (deliver_outputs_keeps now e (ce_outputs ev) empty_report [] x) as K.
  destruct (deliver_outputs _ _ _ _ _ _ _) as [[[[st|] report] parked] x1]; simplify_option_eq.
  - split; [done|]. etrans; [exact K|]. by eapply fail_node_keeps.
  - split; [apply park_tables|]. etrans; [exact K|]. by eapply hook_emit_keeps.
Qed.
Lemma emit_gap_aside now e session a x a' x' : EmitGap current_ingress now e session a x = Some (a', x') -> tables a' = tables a /\ keeps x x'.
Proof.
  unfold EmitGap. intros H. match type of H with context [on_node ?f ?r x] => assert (K : keeps x (on_node f r x)) by (by apply on_node_keeps) end.
  set (x1 := on_node _ _ _) in *. destruct (cancelled_ _); [by simplify_eq|].
  match type of H with context [fold_left ?f ?l ?s] => pose proof (emit_gap_keeps now e l s) as K2; destruct (fold_left f l s) as [report x2] end.
  simplify_option_eq. split; [done|]. etrans; [exact K|]. etrans; [exact K2|]. by eapply hook_emit_keeps.
Qed.

(** *** The walk over the reorder buffers *)

Lemma order_cons k k0 o l : order k ((k0, o) :: l) = if decide (k = k0) then o else order k l.
Proof. unfold order. simpl. by case_decide. Qed.
Lemma drop_gone_live flying o : live flying (drop_gone flying o) = live flying o.
Proof. unfold live. induction o as [|id o IH]; [done|]. simpl. destruct (SMap.contains id flying) eqn:E; simpl; rewrite ?E; congruence. Qed.
Lemma drop_gone_head flying o id rest : drop_gone flying o = id :: rest -> SMap.contains id flying = true.
Proof. induction o as [|i o IH]; [done|]. simpl. destruct (SMap.contains i flying) eqn:E; [by intros [= <- <-]|done]. Qed.
Lemma order_absent k l : ~ In k l.*1 -> order k l = [].
Proof. intros H. unfold order. by rewrite (proj2 (SMap.find_None k l) H). Qed.

Lemma take_ready_keys flying blocked l : sublist (take_ready flying blocked l).1.*1 l.*1.
Proof.
  induction l as [|[k o] l IH]; [done|]. simpl. destruct (drop_gone flying o) as [|id rest]; [by apply sublist_cons|].
  destruct (take_ready flying blocked l) as [l' r]. simpl in IH.
  destruct (SMap.contains k blocked); [by apply sublist_skip|]. destruct (SMap.find id flying) as [e|]; [|by apply sublist_skip].
  destruct (en_done e); by apply sublist_skip.
Qed.
Lemma take_ready_sorted flying blocked l : SMap.sorted l -> SMap.sorted (take_ready flying blocked l).1.
Proof. unfold SMap.sorted. intros H. eapply sorted_sublist; [apply take_ready_keys|done]. Qed.

Lemma take_ready_shrunk flying blocked l : shrunk l (take_ready flying blocked l).1.
Proof.
  intros Hs. split; [by apply take_ready_sorted|]. pose proof (SMap.sorted_keys_NoDup _ Hs) as Hd. clear Hs.
  assert (Hdrop : forall o id, id ∈ drop_gone flying o -> id ∈ o).
  { induction o as [|i o IH]; [done|]. simpl. intros id. destruct (SMap.contains i flying); [done|]. right. auto. }
  induction l as [|[k o] l IH]; [done|]. apply NoDup_cons in Hd as [Hk Hd]. specialize (IH Hd). rewrite list_elem_of_In in Hk. simpl in Hk. specialize (Hdrop o).
  simpl. destruct (drop_gone flying o) as [|i rest].
  { intros k' id Hin. rewrite order_cons. case_decide; [|by apply IH]. subst. apply IH in Hin. rewrite (order_absent _ _ Hk) in Hin. inversion Hin. }
  assert (Hrest : forall id, id ∈ rest -> id ∈ o) by (intros; apply Hdrop; by right).
  destruct (take_ready flying blocked l) as [l' r]. simpl in IH.
  assert (Hskip : forall k' id, id ∈ order k' ((k, i :: rest) :: l') -> id ∈ order k' ((k, o) :: l)).
  { intros k' id. rewrite !order_cons. case_decide; [apply Hdrop|apply IH]. }
  destruct (SMap.contains k blocked); [done|]. destruct (SMap.find i flying) as [e|]; [|done]. destruct (en_done e); [|done].
  intros k' id. simpl. rewrite !order_cons. case_decide; [apply Hrest|done].
Qed.

Lemma take_ready_spec flying blocked l : NoDup l.*1 ->
  match take_ready flying blocked l with
  | (l', None) => (forall k, live flying (order k l') = live flying (order k l)) /\
      (forall k id rest, order k l' = id :: rest -> SMap.contains k blocked = true \/ exists e, SMap.find id flying = Some e /\ en_done e = false)
  | (l', Some (id, e)) => SMap.find id flying = Some e /\ en_done e = true /\ exists k, SMap.contains k blocked = false /\
      live flying (order k l) = id :: live flying (order k l') /\ forall k', k' <> k -> live flying (order k' l') = live flying (order k' l)
  end.
Proof.
  induction l as [|[k o] l IH]; simpl; [done|]. intros [Hk Hl]%NoDup_cons. specialize (IH Hl). rewrite list_elem_of_In in Hk.
  pose proof (drop_gone_live flying o) as Ho. pose proof (drop_gone_head flying o) as Hh.
  pose proof (take_ready_keys flying blocked l) as Hs. destruct (drop_gone flying o) as [|id rest].
  { destruct (take_ready flying blocked l) as [l' [[i e]|]]; simpl in *.
    - destruct IH as (? & ? & k1 & ? & H1 & H2). repeat split; try done. exists k1. assert (k1 <> k) by (intros ->; by rewrite (order_absent _ _ Hk) in H1).
      repeat split; [done| |]; [by rewrite order_cons, decide_False|]. intros k' Hk'. rewrite H2 by done. rewrite order_cons. case_decide; [|done]. subst.
      by rewrite <- Ho, (order_absent _ _ Hk).
    - destruct IH as [H1 H2]. split; [|done]. intros k'. rewrite H1, order_cons. case_decide; [|done]. subst. by rewrite <- Ho, (order_absent _ _ Hk). }
  specialize (Hh _ _ eq_refl). destruct (take_ready flying blocked l) as [l' r] eqn:E; simpl in Hs.
  assert (Hk' : ~ In k l'.*1) by (intros Hin; apply Hk; rewrite <- list_elem_of_In in *; by eapply sublist_subseteq).
  assert (Hskip : (SMap.contains k blocked = true \/ exists e, SMap.find id flying = Some e /\ en_done e = false) ->
    match ((k, id :: rest) :: l', r) with
    | (l', None) => (forall k', live flying (order k' l') = live flying (order k' ((k, o) :: l))) /\
        (forall k id rest, order k l' = id :: rest -> SMap.contains k blocked = true \/ exists e, SMap.find id flying = Some e /\ en_done e = false)
    | (l', Some (i, e)) => SMap.find i flying = Some e /\ en_done e = true /\ exists k1, SMap.contains k1 blocked = false /\
        live flying (order k1 ((k, o) :: l)) = i :: live flying (order k1 l') /\ forall k', k' <> k1 -> live flying (order k' l') = live flying (order k' ((k, o) :: l))
    end).
  { intros Hb. destruct r as [[i e]|].
    - destruct IH as (? & ? & k1 & ? & H1 & H2). repeat split; try done. exists k1. assert (k1 <> k) by (intros ->; by rewrite (order_absent _ _ Hk) in H1).
      rewrite !order_cons, !decide_False by done. repeat split; try done. intros k' Hn. rewrite !order_cons. case_decide; [done|]. by apply H2.
    - destruct IH as [H1 H2]. split.
      + intros k'. rewrite !order_cons. case_decide; [done|]. by apply H1.
      + intros k' i rest'. rewrite order_cons. case_decide; [intros [= <- <-]; by subst|apply H2]. }
  destruct (SMap.contains k blocked) eqn:Eb; [apply Hskip; by left|].
  destruct (SMap.find id flying) as [e|] eqn:Ef; [|unfold SMap.contains in Hh; by rewrite Ef in Hh].
  destruct (en_done e) eqn:Ed; [|apply Hskip; right; by exists e]. repeat split; try done. exists k. repeat split; [done| |].
  - rewrite !order_cons, !decide_True by done. rewrite <- Ho. simpl. by rewrite Hh.
  - intros k' Hn. by rewrite !order_cons, !decide_False.
Qed.

(** *** The operations *)

Definition tidy (a : AsyncRuntime) : Prop := SMap.sorted (as_reorder a).
Lemma move_tidy s s' : move s s' -> tidy s.1 -> tidy s'.1.
Proof.
  unfold tidy. destruct 1 as [a a' x x' Ht|id e e' a x|l a x Hl|k id e l a a' x x' _ _ _ Hl Ht|e a a' x x' _ _ _ _ Ht|n a a' x x' _ Ht]; simpl; intros Hs; try done;
    try (injection Ht as _ _ _ -> _ _); try done; try by apply Hl.
  - by apply SMap.set_sorted.
  - eapply sorted_sublist; [|exact Hs]. apply filter_keys_sublist.
Qed.
Lemma moves_tidy s s' : rtc move s s' -> tidy s.1 -> tidy s'.1.
Proof. induction 1; eauto using move_tidy. Qed.

Lemma deliver_one_finish now k id e l a x a' x' :
  SMap.find id (as_in_flight a) = Some e -> live (as_in_flight a) (order k (as_reorder a)) = id :: live (as_in_flight a) (order k l) ->
  (forall k', k' <> k -> live (as_in_flight a) (order k' l) = live (as_in_flight a) (order k' (as_reorder a))) -> shrunk (as_reorder a) l ->
  deliver_one address current_ingress now e (on_in_flight (SMap.erase id) (on_reorder (fun _ => l) a)) x = Some (a', x') -> move (a, x) (a', x').
Proof.
  intros Hf Hk Hk' Hs H. unfold deliver_one in H. set (a1 := record_finished e _) in H.
  destruct (match en_result e with Some ev => _ | None => _ end) as [[a2 x2]|] eqn:E; [|done]. simpl in H.
  assert (K : tables a2 = tables a1 /\ keeps x x2) by (destruct (en_result e); [by eapply deliver_entry_aside|by eapply emit_gap_aside]).
  destruct K as [Ht K]. destruct (finish _ _ _ _) as [x3|] eqn:Ef; [|done]. injection H as <- <-. apply finish_ends in Ef.
  eapply m_finish; [exact Hf|exact Hk|exact Hk'|exact Hs|by rewrite Ht|]. by eapply ends_keeps.
Qed.

Lemma deliver_ready_moves fuel now : forall any a x any' a' x', tidy a ->
  deliver_ready address current_ingress fuel now any a x = Some (any', a', x') -> rtc move (a, x) (a', x') /\
  forall k id rest, order k (as_reorder a') = id :: rest ->
    SMap.contains k (as_blocked a') = true \/ exists e, SMap.find id (as_in_flight a') = Some e /\ en_done e = false.
Proof.
  induction fuel as [|fuel IH]; intros any a x any' a' x' Ha H; [done|]. simpl in H.
  pose proof (take_ready_spec (as_in_flight a) (as_blocked a) (as_reorder a) (SMap.sorted_keys_NoDup _ Ha)) as Hr.
  pose proof (take_ready_shrunk (as_in_flight a) (as_blocked a) (as_reorder a)) as Hs.
  destruct (take_ready _ _ _) as [l [[id e]|]]; simpl in Hs.
  - destruct Hr as (Hf & _ & k & _ & Hk & Hk'). destruct (deliver_one _ _ _ _ _ _) as [[a1 x1]|] eqn:E; [|done]. simpl in H.
    apply (deliver_one_finish _ k) in E; [|done..]. destruct (IH _ _ _ _ _ _ (move_tidy _ _ E Ha) H) as [M Hset]. split; [|done]. by eapply rtc_l.
  - simplify_eq. destruct Hr as [Hl Hset]. split; [|done]. by apply rtc_once, m_tidy.
Qed.

Definition leads (s s' : AsyncRuntime * X) : Prop := tidy s.1 -> rtc move s s'.
#[local] Instance leads_preorder : PreOrder leads.
Proof.
  split; [by intros s _|]. intros s1 s2 s3 H1 H2 Ht. etrans; [by apply H1|]. apply H2. by eapply moves_tidy; [apply H1|].
Qed.
Lemma leads_aside a a' x x' : tables a' = tables a -> keeps x x' -> leads (a, x) (a', x').
Proof. intros ?? _. by apply aside. Qed.
Lemma leads_entry id e e' a x : SMap.find id (as_in_flight a) = Some e -> same_request e e' -> leads (a, x) (on_in_flight (SMap.set id e') a, x).
Proof. intros ?? _. by eapply rtc_once, m_entry. Qed.

Lemma preimage {A B} (f : A -> B) (R : relation B) : PreOrder R -> PreOrder (fun a b => R (f a) (f b)).
Proof. intros [H1 H2]. split; [intros a; apply H1|intros a b c; apply H2]. Qed.
Lemma loop_preorder {A S} (R : relation S) `{!PreOrder R} (f : A -> S -> option S) l :
  (forall y s s', f y s = Some s' -> R s s') -> forall s s', loop f l s = Some s' -> R s s'.
Proof.
  intros Hf. induction l as [|y l IH]; simpl; intros s s'; [by intros [= ->]|]. destruct (f y s) as [s1|] eqn:E; [|done]. simpl. intros H.
  etrans; [by eapply Hf|by apply IH].
Qed.

Lemma deliver_ready_leads now a x any a' x' : DeliverReady address current_ingress now a x = Some (any, a', x') -> leads (a, x) (a', x').
Proof. intros H Ht. by eapply deliver_ready_moves. Qed.

Lemma on_completion_leads now ev a x a' x' : OnCompletion now ev a x = Some (a', x') -> leads (a, x) (a', x').
Proof.
  unfold OnCompletion. destruct (SMap.find _ _) as [e|] eqn:E; [|intros [= <- <-]; by apply leads_aside].
  destruct (en_done e); [intros [= <- <-]; by apply leads_aside|]. destruct (negb _); [intros [= <- <-]; by apply leads_aside|].
  intros H. etrans; [by eapply (leads_entry (ce_request ev) e (finished_with (Some ev) e))|]. set (a1 := on_in_flight _ a) in *.
  destruct (_ && _); [|by simplify_eq/=]. destruct (fail_node _ _ _ _ _ _) as [x1|] eqn:Ef; simplify_eq/=.
  apply leads_aside; [done|]. by eapply fail_node_keeps.
Qed.

Lemma expire_leads now a x : leads (a, x) ((ExpireDeadlines now a).2, x).
Proof.
  unfold ExpireDeadlines. assert (H : forall l any fl, leads (on_in_flight (fun _ => fl) a, x)
    (on_in_flight (fun _ => (fold_left (fun l (kv : ReorderKey * list Z) => expire_head now kv.2 l) l (any, fl)).2) a, x)).
  { induction l as [|[k o] l IH]; intros any fl; [done|]. simpl. destruct o as [|id o]; [apply IH|]. simpl.
    destruct (SMap.find id fl) as [e|] eqn:E; [|apply IH]. destruct (expired now e); [|apply IH]. etrans; [|apply IH].
    by apply (leads_entry id e (finished_with None e) (on_in_flight (fun _ => fl) a)). }
  specialize (H (as_reorder a) false (as_in_flight a)). destruct (fold_left _ _ _) as [any fl]. by destruct a.
Qed.

Lemma retry_one_leads kb s s' : retry_one kb s = Some s' -> leads (s.1.2, s.2) (s'.1.2, s'.2).
Proof.
  destruct s as [[any a] x], kb as [k b]. unfold retry_one. pose proof (retry_pushes_nodes (cancelled_ (node_at (bl_node b) x)) (bl_pushes b) [] [] any (host_heap x)) as Hn.
  destruct (retry_pushes _ _ _ _ _ _) as [[[still targets] any'] h]. apply update_keeps in Hn. simpl in Hn.
  destruct (_ && _); simpl; [|intros [= <-]; by apply leads_aside]. destruct (after_emit _ _ _) as [x1|] eqn:E; [|done]. intros [= <-].
  apply leads_aside; [done|]. etrans; [exact Hn|]. by eapply after_emit_keeps.
Qed.
Lemma retry_leads a x any a' x' : RetryBlockedOutputs a x = Some (any, a', x') -> leads (a, x) (a', x').
Proof.
  intros H. unfold RetryBlockedOutputs in H.
  pose proof (preimage (fun s : bool * AsyncRuntime * X => (s.1.2, s.2)) leads _) as P. by apply (loop_preorder _ _ _ retry_one_leads) in H.
Qed.

Lemma sink_push_tables k ev a : tables (SinkPush k ev a).2 = tables a.
Proof. unfold SinkPush. destruct (default _ _) as [? []]; [|done]. simpl. destruct (Queue.Push _ _) as [st q]. by destruct (StatusOps.ok st). Qed.
Lemma run_submission_tables sink (y : submission W) : forall a st w a', run_submission sink y a = Some (st, w, a') -> tables a' = tables a.
Proof.
  induction y as [st w|ev next IH]; intros a st' w' a' H; simpl in H; [by simplify_eq|]. destruct sink as [k|]; [|done]. simpl in H.
  pose proof (sink_push_tables k ev a) as Ht. destruct (SinkPush k ev a) as [st a1]. by rewrite (IH _ _ _ _ _ H).
Qed.

Lemma flush_one_leads now id size x ip s s' : flush_one op_submit now id size x ip s = Some s' -> leads (s.1.2, x) (s'.1.2, x).
Proof.
  destruct s as [[w a] failed], ip as [i p]. simpl. destruct (SMap.find _ _) as [e|] eqn:E; [|by intros [= <-]].
  intros H. etrans; [by eapply (leads_entry (pe_id p) e (submitted_at now (after now (inference_timeout (node_at (en_node e) x) a)) e))|].
  match type of H with (?m ≫= _) = _ => destruct m as [[[st w1] a1]|] eqn:Em; [|done] end. simpl in H.
  match type of Em with context [on_node_counters ?f ?r ?b] => set (a0 := on_node_counters f r b) in Em end.
  assert (Ht : tables a1 = tables a0) by (destruct (cancelled_ _); [by simplify_eq|by eapply run_submission_tables]).
  destruct (StatusOps.ok st); injection H as <-; by apply leads_aside.
Qed.

Lemma flush_leads now members s s' : FlushBatch op_submit now members s = Some s' -> leads (s.1.2, s.2) (s'.1.2, s'.2).
Proof.
  destruct s as [[w a] x]. unfold FlushBatch. destruct members as [|p l]; [by intros [= <-]|]. intros H.
  match type of H with (?m ≫= _) = _ => destruct m as [[[w1 a1] failed]|] eqn:Em; [|done] end. simpl in H.
  pose proof (preimage (fun s : W * AsyncRuntime * list (nat * Z * bool * Status) => (s.1.2, x)) leads _) as P.
  apply (loop_preorder _ _ _ (flush_one_leads now _ _ x)) in Em. simpl in Em.
  destruct (loop _ failed x) as [x1|] eqn:El; [|done]. injection H as <-. simpl. etrans; [apply leads_aside; [|reflexivity]|etrans; [exact Em|apply leads_aside; [done|]]]; [done|].
  revert El. apply (loop_preorder keeps). intros [[[r sn] known] st] y y'. apply fail_node_keeps.
Qed.

Lemma enqueue_tables now args n a : 0 <= as_next_request a -> as_next_request a + 1 < 2 ^ 64 ->
  let '(id, ready, a') := enqueue address now args n a in
  exists e, en_id e = as_next_request a /\ en_node e = sa_node args /\ en_session e = t_session (sa_topology args) /\
    tables a' = (as_next_request a + 1, Word.u64 (ct_in_flight (as_counters a) + 1), (SMap.emplace (en_id e) e (as_in_flight a)).1,
                 SMap.set (key_of e) (order (key_of e) (as_reorder a) ++ [en_id e])%list (as_reorder a), as_finished a, as_sessions a).
Proof.
  intros H0 H1. pose proof (Word.u64_small (as_next_request a + 1) ltac:(split; lia)) as Hu.
  unfold enqueue. repeat case_match; simplify_eq; (exists (new_entry now (as_next_request a) args n a); repeat split; try done; unfold tables; simpl; by rewrite Hu).
Qed.

Lemma submit_leads now args w a x id s : 0 <= as_next_request a -> as_next_request a + 1 < 2 ^ 64 -> (sa_node args < List.length (h_nodes (host_heap x)))%nat ->
  attached (t_session (sa_topology args)) a = true -> Submit op_submit address now args (w, a, on_node Node.BeginAsync (sa_node args) x) = Some (id, s) -> leads (a, x) (s.1.2, s.2).
Proof.
  intros H0 H1 Hn Hat H Ht. unfold Submit in H. pose proof (enqueue_tables now args (node_at (sa_node args) (on_node Node.BeginAsync (sa_node args) x)) a H0 H1) as He.
  destruct (enqueue _ _ _ _ _) as [[id' ready] a1]. destruct He as (e & Hid & Hne & Hse & Htab).
  assert (M : forall a2, tables a2 = tables a1 -> move (a, x) (a2, on_node Node.BeginAsync (sa_node args) x)).
  { intros a2 Ha2. apply (m_submit e); [done|done|by rewrite Hne|by rewrite Hse|by rewrite Ha2|by rewrite Hne]. }
  destruct ready as [|p l]; [injection H as <- <-; by apply rtc_once, M|].
  destruct (FlushBatch _ _ _ _) as [s1|] eqn:E; [|done]. injection H as <- <-. apply flush_leads in E. simpl in E.
  eapply rtc_l; [by apply M|]. apply E. by eapply move_tidy; [apply M|].
Qed.

Lemma detach_loop now l : forall a x a' x', Word.is_u64 (ct_in_flight (as_counters a)) -> loop (drop_entry now) l (a, x) = Some (a', x') ->
  tables a' = (as_next_request a, Word.u64 (ct_in_flight (as_counters a) - Z.of_nat (List.length l)), as_in_flight a, as_reorder a, as_finished a, as_sessions a) /\
  ends_async (fun r => count (fun e => bool_decide (en_node e = r)) l) x x'.
Proof.
  induction l as [|e l IH]; intros a x a' x' Hc H.
  { injection H as <- <-. unfold tables. simpl. rewrite Z.sub_0_r, Word.u64_small by done. split; [done|]. split; [done|]. intros r Hu. simpl.
    rewrite Z.sub_0_r, Word.u32_small by done. by case_decide. }
  simpl in H. destruct (drop_entry now e (a, x)) as [[a1 x1]|] eqn:E; [|done]. simpl in H. unfold drop_entry in E.
  destruct (finish _ _ _ _) as [x2|] eqn:Ef; [|done]. injection E as <- <-. apply finish_ends in Ef. apply IH in H as [Ht [L2 E2]]; [|apply Word.u64_range]. destruct Ef as [L1 E1]. simpl in L1, E1. split.
  - rewrite Ht. unfold tables. simpl. do 5 f_equal. unfold Word.u64. rewrite Zminus_mod_idemp_l. f_equal. lia.
  - split; [congruence|]. intros r Hu. assert (Hu1 : Word.is_u32 (async_pending_ (node_at r x2))) by (rewrite E1 by done; case_decide; [apply Word.u32_range|done]).
    rewrite E2, L1, E1 by done. case_decide; [|done]. unfold Word.u32. rewrite Zminus_mod_idemp_l. f_equal. simpl. lia.
Qed.

Lemma detach_leads now session a x a' x' : Word.is_u64 (ct_in_flight (as_counters a)) ->
  DetachSession now session a x = Some (a', x') -> leads (a, x) (a', x').
Proof.
  intros Hc. unfold DetachSession. destruct (SMap.find _ _) as [s|]; [|by intros [= <- <-]]. intros H _. apply detach_loop in H as [Ht He]; [|done].
  apply rtc_once, (m_detach session); [done| |].
  - rewrite Ht. unfold tables. simpl. by rewrite length_map, count_filter.
  - destruct He as [L E]. split; [done|]. intros r Hu. rewrite E by done. by rewrite count_map.
Qed.

Lemma flush_due_leads now s any s' : FlushDueBatches op_submit now s = Some (any, s') -> leads (s.1.2, s.2) (s'.1.2, s'.2).
Proof.
  destruct s as [[w a] x]. unfold FlushDueBatches. destruct (loop _ _ _) as [s1|] eqn:E; [|done]. intros [= _ <-]. simpl.
  pose proof (preimage (fun s : W * AsyncRuntime * X => (s.1.2, s.2)) leads _) as P.
  apply (loop_preorder _ _ _ (fun (y : BatchKey * list Pending) s s' => flush_leads now y.2 s s')) in E. simpl in E. etrans; [|exact E]. by apply leads_aside.
Qed.
Lemma drain_leads now a x any a' x' : DrainCompletions address current_ingress now a x = Some (any, a', x') -> leads (a, x) (a', x').
Proof.
  unfold DrainCompletions. simpl. destruct (loop _ _ _) as [[a1 x1]|] eqn:E; [|done]. intros [= _ <- <-].
  etrans; [by apply (leads_aside a (on_queue (fun _ => (Queue.DrainAll (as_queue a)).2) a) x x)|]. revert E. apply (loop_preorder leads).
  intros ev [b y] [b' y']. unfold complete_one. simpl. destruct (OnCompletion _ _ _ _) as [[b1 y1]|] eqn:E1; [|done]. simpl.
  destruct (DeliverReady _ _ _ _ _) as [[[? b2] y2]|] eqn:E2; [|done]. intros [= <- <-]. etrans; [by eapply on_completion_leads|by eapply deliver_ready_leads].
Qed.
Lemma pump_leads now later s any s' : Pump op_submit address current_ingress now later s = Some (any, s') -> leads (s.1.2, s.2) (s'.1.2, s'.2).
Proof.
  unfold Pump. destruct (FlushDueBatches _ _ _) as [[p1 [[w a] x]]|] eqn:E1; [|done]. simpl. apply flush_due_leads in E1. simpl in E1.
  destruct (RetryBlockedOutputs _ _) as [[[p2 a2] x2]|] eqn:E2; [|done]. simpl. apply retry_leads in E2.
  destruct (DrainCompletions _ _ _ _ _) as [[[p3 a3] x3]|] eqn:E3; [|done]. simpl. apply drain_leads in E3.
  pose proof (expire_leads later a3 x3) as E4. destruct (ExpireDeadlines later a3) as [p4 a4]. simpl in E4.
  destruct (DeliverReady _ _ _ _ _) as [[[p5 a5] x5]|] eqn:E5; [|done]. apply deliver_ready_leads in E5. intros [= _ <-]. simpl.
  by etrans; [exact E1|etrans; [exact E2|etrans; [exact E3|etrans; [exact E4|]]]].
Qed.

End moves.
