(* ===== verification/AsyncHost.v ===== *)
(** The session as the host of the asynchronous runtime (session.cpp,
    scheduler_invoke.cpp): the hooks a session registers are calls of its
    scheduler. *)

From stdpp Require Import base numbers list strings gmap option relations.
From Stdlib Require Import ZArith Lia Ascii String.
From S2P Require Import Prelude Types Double Json GraphSpec CapabilityTypes Packet EdgeChannel InputBinding NodeRuntime RuntimeTopology Coordinator Scheduler SchedulerInvoke SchedulerProofs SchedulerTurns AsyncRuntime AsyncProofs.

Local Open Scope string_scope.
Local Open Scope Z_scope.

Section host.
Context (op_close : NodeRuntime -> Status) (hooks : Attached).

(** [AfterEmit], as [OnAsyncEmit]. *)
Definition OnAsyncEmit (report : EmitReport) (s : Scheduler) : Scheduler := each MarkReady (rp_targets report) s.

#[export] Instance scheduler_host : Host Scheduler := {|
  host_heap := sc_heap;
  host_update h := on_heap (fun _ => h);
  after_emit _ report s := Some (OnAsyncEmit report s);
  on_async_idle now _ r s := OnAsyncIdle op_close now r s;
  on_node_failed now _ r st s := OnAsyncNodeFailed op_close hooks now r st s;
|}.

(** [keeps] is a preorder every small change of the scheduler is in. *)
Definition unmoved : relation Scheduler := AsyncProofs.keeps (X := Scheduler).
#[local] Instance unmoved_preorder : PreOrder unmoved := keeps_preorder.

Lemma unmoved_nodes s s' : h_nodes (sc_heap s') = h_nodes (sc_heap s) -> unmoved s s'.
Proof. intros E. unfold unmoved, AsyncProofs.keeps, node_at, node_of. simpl. by rewrite E. Qed.
Lemma unmoved_node r n s : async_pending_ n = async_pending_ (nd r s) -> unmoved s (set_nd r n s).
Proof.
  intros E. split; [apply set_nd_length|]. intros r'. change (node_at r' (set_nd r n s)) with (nd r' (set_nd r n s)). change (node_at r' s) with (nd r' s).
  destruct (decide (r' = r)) as [->|Hne]; [|by rewrite nd_set_ne]. destruct (node_of (sc_heap s) r) eqn:Er; [by rewrite nd_set_eq by (rewrite Er; by eexists)|].
  by rewrite set_nd_out.
Qed.
Lemma unmoved_mark r s : unmoved s (MarkReady r s).
Proof.
  unfold MarkReady. destruct (negb _ || _); [reflexivity|]. destruct (negb _); [reflexivity|]. destruct (Node.TrySchedule (nd r s)) as [ok n] eqn:E.
  destruct ok; [|reflexivity]. apply try_schedule_spec in E as (_ & _ & ->). unfold SubmitCpu. set (n := Node.with_counts _ _ _ _).
  transitivity (set_nd r n s); [by apply unmoved_node|]. destruct (executor_stopped_ _); [by apply unmoved_node|by apply unmoved_nodes].
Qed.

Lemma unmoved_moves : moves unmoved.
Proof.
  split; [apply _|apply unmoved_mark|intros s h Hh; by apply unmoved_nodes| | | | | | | |]; try (intros; by apply unmoved_nodes).
  - intros r n s (_ & _ & _ & H). by apply unmoved_node.
  - intros r s. unfold Detach. by case_bool_decide; apply unmoved_nodes.
  - intros s. unfold CheckAllClosed. destruct (sc_live s); [destruct (all_closed_ _)|]; by apply unmoved_nodes.
Qed.
Lemma unmoved_complete : completes_in unmoved.
Proof.
  intros cl tick now s b s' Ht H. unfold CompleteRetired in H.
  pose proof (mv_sweep_all _ unmoved_moves now (sc_retired s) (MkSweep [] [] [] []) s) as H1. destruct (sweep_all _ _ _ _) as [w s1]. simpl in H1.
  destruct (close_all _ _ _ _ _) as [[c s3]|] eqn:E; [|done]. injection H as <- <-. apply (mv_close_all _ unmoved_moves cl tick Ht) in E.
  etransitivity; [exact H1|]. etransitivity; [by apply (unmoved_nodes s1 (with_retired (sw_kept w) s1))|].
  etransitivity; [|etransitivity; [exact E|]]; apply (mv_each _ unmoved_moves).
  - intros v t. by apply (mv_report _ unmoved_moves).
  - intros q t. unfold announce. destruct (rq_complete _); by apply unmoved_nodes.
Qed.
Lemma unmoved_tick now s s' : Tick op_close now s = Some s' -> unmoved s s'.
Proof. apply (tick_in _ unmoved_moves unmoved_complete). Qed.

Lemma unmoved_stops : stops_in unmoved.
Proof. split; [intros; by apply unmoved_nodes|intros; by apply unmoved_nodes|apply (mv_fast_all _ unmoved_moves); intros; by apply unmoved_nodes]. Qed.

(** The hooks of a session keep the promises of a host. *)
#[export] Instance scheduler_laws : HostLaws Scheduler.
Proof.
  split.
  - done.
  - intros sn report s s' [= <-]. apply (mv_each _ unmoved_moves). apply unmoved_mark.
  - intros now sn r s s' H. simpl in H. unfold OnAsyncIdle in H. destruct (cancelled_ _).
    + apply fmap_Some in H as ([b s1] & E & ->). by apply (mv_try_close _ unmoved_moves op_close _ (unmoved_tick now)) in E.
    + destruct (negb _); injection H as <-; [reflexivity|]. destruct (held_ _); [reflexivity|apply unmoved_mark].
  - intros now sn r st s s' H. by apply (mv_fail_finish _ unmoved_moves unmoved_complete unmoved_stops) in H.
Qed.

End host.
