(* ===== verification/AsyncSamples.v ===== *)
(** A pipeline with an asynchronous node, run by the scheduler and the
    asynchronous runtime together. *)

From stdpp Require Import base numbers list strings gmap option.
From Stdlib Require Import ZArith Ascii String.
From S2P Require Import Prelude Types Double Json GraphSpec GraphSpecProofs CapabilityTypes Packet EdgeChannel InputBinding NodeRuntime Negotiation GraphValidator ValidatorProofs RuntimeTopology TopologyProofs Coordinator CoordinatorProofs Scheduler SchedulerInvoke SchedulerSamples AsyncRuntime AsyncProofs AsyncHost.

Local Open Scope string_scope.
Local Open Scope Z_scope.

#[export] Instance model_host : Host Scheduler := scheduler_host opens default_hooks.
#[export] Instance model_laws : AsyncProofs.HostLaws Scheduler := scheduler_laws opens default_hooks.

(** [s -> m -> t] with one-place edges, [m] asynchronous. *)
Definition model_descriptor (op : OperatorKey) : CapabilityDescriptor :=
  let d := pass_descriptor op in
  MkCapabilityDescriptor op "" (cd_inputs d) (cd_outputs d) (MkExecutionCapability [kDevCpu] false true 1 false (Some 50))
    (MkParameterCapability [] [] (JObject [])) [] (MkEventCapability [] []).
Definition model_resolver (op : OperatorKey) : option CapabilityDescriptor :=
  if bool_decide (type_name op = "ge.Model") then Some (model_descriptor op) else pipe_resolver op.
Definition model_node (options : json) : NodeSpec := MkNodeSpec "m" (MkOperatorKey "ge.Model" "1.0.0") default_executor 1 options [].
Definition model_pipe (options : json) : GraphSpec :=
  run_edits [EAddNode source_node; EAddNode (model_node options); EAddNode (sample_node "t"); EAddEdge (narrow "e1" "s" "m"); EAddEdge (narrow "e2" "m" "t")]
    (GraphOps.make "pipe").

Definition model_launched (g : GraphSpec) : RuntimeTopology * heap :=
  match validate model_resolver (fun l => l) g with
  | Value v =>
      match Build model_resolver no_failure (fun l => l) g (first_options v) no_heap with
      | Some (Value (t, h)) => match OpenNodes opens opens t h with Some (_, h) => (t, h) | None => (no_version, no_heap) end
      | _ => (no_version, no_heap)
      end
  | _ => (no_version, no_heap)
  end.

(** The operator behind [m] completes every request at once with one packet. *)
Definition answer (q : SubmitRequest) : CompletionEvent :=
  MkCompletionEvent (sr_request q) (sr_session q) (sr_topology q) (sr_parameter q) (sr_seq q) StatusOps.Ok [("out", frame (sr_seq q))].
Definition prompt (w : nat) (r : nat) (q : SubmitRequest) : submission nat := Completes (answer q) (fun _ => Answers StatusOps.Ok w).
(** An operator that never completes anything. *)
Definition silent (w : nat) (r : nat) (q : SubmitRequest) : submission nat := Answers StatusOps.Ok w.

Definition state : Type := nat * AsyncRuntime * Scheduler.
Definition async_defaults (batching : bool) : AsyncOptions := MkAsyncOptions 4096 batching 8 10 1000.
Definition begun (batching : bool) (g : GraphSpec) (k : nat) : state :=
  (k, (AttachSession 1 true (make_async (async_defaults batching))).2, Start (make (model_launched g).1 (model_launched g).2)).

Section run.
Variable op_submit : nat -> nat -> SubmitRequest -> submission nat.
(** The requests the scheduler handed over in its last turn. *)
Fixpoint hand_over (now : Z) (l : list happening) (s : state) : option state :=
  match l with
  | [] => Some s
  | Submitted q :: l' =>
      let args := MkSubmitArgs (ar_node q) (sc_topology s.2) (ar_parameters q) (ar_ports q) (ar_inputs q) (ar_seq q) (-1) in
      '(_, s) ← Submit op_submit Z.of_nat now args s; hand_over now l' s
  | _ :: l' => hand_over now l' s
  end.
Definition turn (now : Z) (s : state) : option state :=
  let '(w, a, x) := s in
  '(_, w, x') ← RunOne opens feed default_hooks now w x;
  hand_over now (drop (List.length (sc_log x)) (sc_log x')) (w, a, x').
Fixpoint async_turns (n : nat) (now : Z) (s : state) : option state :=
  match n with O => Some s | S n => s ← turn now s; async_turns n now s end.
Definition pump (now : Z) (s : state) : option state := '(_, s) ← Pump op_submit Z.of_nat (fun _ => 0) now now s; Some s.
End run.

(** Alternating rounds of the consumer and of the executor. *)
Fixpoint rounds (op_submit : nat -> nat -> SubmitRequest -> submission nat) (l : list nat) (now : Z) (s : state) : option state :=
  match l with [] => Some s | n :: l' => s ← pump op_submit now s; s ← async_turns op_submit n now s; rounds op_submit l' now s end.
Definition plain : json := JObject [].
Definition failures (s : state) : list string := sc_log s.2 ≫= (fun e => match e with NodeFailed _ st => [message st] | _ => [] end).

(** Two packets pass the asynchronous node when its consumer keeps up. *)
Example model_delivers : (fun s => got 2 s.2) <$> (s ← async_turns prompt 2 0 (begun false (model_pipe plain) 1); rounds prompt [10; 10; 10]%nat 0 s) = Some [2; 1].
Proof. by vm_compute. Qed.

(** The results of four requests wait for a one-place edge. When the last of
    them is set aside its request is over, so the node is free to drain: its
    end of stream takes the next free place, and the result that was set aside
    reaches an edge that has ended. Three of four packets arrive, every node
    closes, and nothing is counted or reported. *)
Example last_result_lost :
  (fun s => (got 2 s.2, sc_live s.2, failures s, as_counters s.1.2)) <$>
    (s ← async_turns prompt 10 0 (begun false (model_pipe plain) 2); rounds prompt [10; 10; 10; 10; 10]%nat 0 s) =
  Some ([4; 3; 2], [], [], MkCounters 0 0 0 0 4).
Proof. by vm_compute. Qed.

(** Two requests run out of time. The placeholder of the second finds the edge
    full and is dropped: two gaps are counted and one arrives. *)
Example gap_lost :
  (fun s => (got 2 s.2, sc_live s.2, ct_gaps (as_counters s.1.2))) <$>
    (s ← async_turns silent 10 0 (begun false (model_pipe plain) 1); rounds silent [0; 10]%nat 60000000 s) = Some ([2], [], 2).
Proof. by vm_compute. Qed.

(** An operator that answers with a packet of the wrong type behind a good one. *)
Definition stray (n : Z) : Packet := MkPacket (MkPacketHeader n 0 0 0 0 0 (TypeTags.Find "AudioFrame" TypeTags.make)) None None 0.
Definition careless (w : nat) (r : nat) (q : SubmitRequest) : submission nat :=
  Completes (MkCompletionEvent (sr_request q) (sr_session q) (sr_topology q) (sr_parameter q) (sr_seq q) StatusOps.Ok
               [("out", frame (sr_seq q)); ("out", stray (sr_seq q + 100))]) (fun _ => Answers StatusOps.Ok w).

(** On a free edge the packet fails the node, as it does not match the
    contract. Behind a packet that waits it is not checked, and arrives. *)
Example unchecked_type :
  failures <$> (s ← async_turns careless 2 0 (begun false (model_pipe plain) 1); rounds careless [2]%nat 0 s) =
    Some ["packet type 'AudioFrame' does not match contract 'VideoFrame' on m.out"] /\
  (fun s => (got 2 s.2, failures s)) <$>
    (s ← async_turns prompt 2 0 (begun false (model_pipe plain) 1); s ← async_turns careless 2 0 s; rounds careless [2; 2; 2; 2; 2]%nat 0 s) =
    Some ([2; 1; 101], []).
Proof. split; by vm_compute. Qed.

(** The consumer thread sleeps until it is woken, with no time set. A request
    submitted at once sets a deadline but does not wake it: if the operator
    never completes, nothing does. *)
Example deadline_unarmed :
  let s0 := begun false (model_pipe plain) 1 in
  NextWake 0 s0.1.2 = None /\ as_wake s0.1.2 = false /\
  (fun s => (NextWake 0 s.1.2, as_wake s.1.2)) <$> async_turns silent 10 0 s0 = Some (Some 50000000, false).
Proof. repeat split; by vm_compute. Qed.
