(* ===== verification/AsyncAccounts.v ===== *)
(** The books of the asynchronous runtime: every request is pending on its node
    until it is finished or dropped, once, and the requests of one node and
    version finish in the order they were submitted. *)

From stdpp Require Import base numbers list strings gmap option relations sorting.
From Stdlib Require Import ZArith Lia Ascii String.
From S2P Require Import Prelude Types Double Json GraphSpec CapabilityTypes Packet EdgeChannel InputBinding NodeRuntime RuntimeTopology Coordinator Scheduler SchedulerInvoke SchedulerSamples AsyncRuntime AsyncProofs AsyncSamples.

Local Open Scope string_scope.
Local Open Scope Z_scope.
#[local] Set Default Proof Using "Type*".

(** ** Tables with sorted keys *)

Lemma set_present {K V} `{!EqDecision K, !KeyLt K, !KeyOrder K} (k : K) (v v' : V) l : SMap.sorted l -> SMap.find k l = Some v ->
  exists l1 l2, l = (l1 ++ (k, v) :: l2)%list /\ SMap.set k v' l = (l1 ++ (k, v') :: l2)%list.
Proof.
  induction l as [|[k0 v0] l IH]; intros Hs Hf; [done|]. apply StronglySorted_inv in Hs as [Hs Hall]. simpl in *. case_decide as D.
  - simplify_eq. by exists [], l.
  - destruct (IH Hs Hf) as (l1 & l2 & -> & E). destruct (key_ltb k k0) eqn:Ek.
    + rewrite Forall_forall in Hall. specialize (Hall k). assert (key_ltb k0 k = true) as E2 by (apply Hall, list_elem_of_fmap; exists (k, v); set_solver).
      pose proof (key_ltb_trans _ _ _ Ek E2) as E3. by rewrite key_ltb_irrefl in E3.
    + exists ((k0, v0) :: l1), l2. simpl. by rewrite E.
Qed.
Lemma set_absent {K V} `{!EqDecision K, !KeyLt K, !KeyOrder K} (k : K) (v : V) l : SMap.find k l = None -> Permutation (SMap.set k v l) ((k, v) :: l).
Proof.
  induction l as [|[k0 v0] l IH]; intros Hf; [done|]. simpl in *. case_decide as D; [done|]. destruct (key_ltb k k0); [done|]. rewrite IH by done. constructor.
Qed.
Lemma erase_present {K V} `{!EqDecision K, !KeyLt K, !KeyOrder K} (k : K) (v : V) l : SMap.sorted l -> SMap.find k l = Some v ->
  exists l1 l2, l = (l1 ++ (k, v) :: l2)%list /\ SMap.erase k l = (l1 ++ l2)%list /\ k ∉ (l1 ++ l2)%list.*1.
Proof.
  intros Hs Hf. destruct (set_present k v v l Hs Hf) as (l1 & l2 & -> & _). exists l1, l2. split; [done|].
  pose proof (SMap.sorted_keys_NoDup _ Hs) as Hd. rewrite fmap_app, NoDup_app in Hd. simpl in Hd. destruct Hd as (_ & H1 & [H2 _]%NoDup_cons).
  assert (Hn : k ∉ (l1 ++ l2)%list.*1) by (rewrite fmap_app; intros [Hin|Hin]%elem_of_app; [apply (H1 k Hin); left|done]). split; [|done].
  unfold SMap.erase. rewrite List.filter_app. simpl. rewrite bool_decide_eq_true_2 by done. simpl. rewrite <- List.filter_app.
  clear -Hn. induction (l1 ++ l2)%list as [|[k0 v0] l IH]; [done|]. simpl in *. rewrite bool_decide_eq_false_2 by set_solver. simpl. rewrite IH by set_solver. done.
Qed.
Lemma contains_In {V} (k : Z) (l : list (Z * V)) : SMap.contains k l = true <-> k ∈ l.*1.
Proof.
  unfold SMap.contains. pose proof (SMap.find_None k l) as H. rewrite list_elem_of_In. destruct (SMap.find k l) eqn:E; [|naive_solver].
  split; [|done]. intros _. apply SMap.find_In in E. by apply (in_map fst) in E.
Qed.
Lemma contains_keys {V} (k : Z) (l l' : list (Z * V)) : l.*1 = l'.*1 -> SMap.contains k l = SMap.contains k l'.
Proof.
  intros E. pose proof (contains_In k l). pose proof (contains_In k l') as H'. rewrite <- E in H'. destruct (SMap.contains k l), (SMap.contains k l'); naive_solver.
Qed.

(** ** The invariant *)

Section accounts.
Context {X : Type} `{!Host X} `{!HostLaws X} {W : Type} (op_submit : W -> nat -> SubmitRequest -> submission W).
Context (address current_ingress : nat -> Z).

Definition has_key (k : ReorderKey) (e : Entry) : bool := bool_decide (key_of address e = k).
(** The requests of a node and version: those in flight and those finished. *)
Definition waiting (k : ReorderKey) (l : list (Z * Entry)) : list Z := map fst (List.filter (fun kv => has_key k kv.2) l).
Definition finished (k : ReorderKey) (l : list Entry) : list Z := map en_id (List.filter (has_key k) l).
Definition nodes_of (x : X) : nat := List.length (h_nodes (host_heap x)).

Record booked (a : AsyncRuntime) (x : X) : Prop := {
  bk_sorted : SMap.sorted (as_in_flight a);
  bk_entries : Forall (fun kv => en_id kv.2 = kv.1 /\ kv.1 < as_next_request a /\ (en_node kv.2 < nodes_of x)%nat) (as_in_flight a);
  bk_next : 0 <= as_next_request a < 2 ^ 64;
  bk_tidy : tidy a;
  bk_known : forall k id, id ∈ order k (as_reorder a) -> id < as_next_request a;
  bk_order : forall k, live (as_in_flight a) (order k (as_reorder a)) = waiting k (as_in_flight a);
  bk_past : Forall (fun e => en_id e < as_next_request a) (as_finished a);
  bk_done : forall k, StronglySorted Z.lt (finished k (as_finished a) ++ waiting k (as_in_flight a));
  bk_count : ct_in_flight (as_counters a) = Word.u64 (Z.of_nat (List.length (as_in_flight a)));
  bk_served : Forall (fun kv => attached (en_session kv.2) a = true) (as_in_flight a);
  bk_pending : forall r, async_pending_ (node_at r x) = Word.u32 (Z.of_nat (count (of_node r) (as_in_flight a)));
}.

(** *** Pieces of the tables *)

Lemma waiting_app k l1 l2 : waiting k (l1 ++ l2) = (waiting k l1 ++ waiting k l2)%list.
Proof. unfold waiting. by rewrite List.filter_app, map_app. Qed.
Lemma waiting_cons k id e l : waiting k ((id, e) :: l) = ((if has_key k e then [id] else []) ++ waiting k l)%list.
Proof. unfold waiting. simpl. by destruct (has_key k e). Qed.
Lemma waiting_In k id l : id ∈ waiting k l -> id ∈ l.*1.
Proof.
  unfold waiting. rewrite list_elem_of_In, in_map_iff. intros (kv & <- & [Hin _]%filter_In). rewrite list_elem_of_In. by apply in_map.
Qed.
Lemma count_app {A} (f : A -> bool) l1 l2 : count f (l1 ++ l2)%list = (count f l1 + count f l2)%nat.
Proof. induction l1 as [|y l1 IH]; simpl; lia. Qed.
Lemma same_key k e e' : same_request e e' -> has_key k e' = has_key k e.
Proof. intros (_ & _ & Ht & Hn). unfold has_key, key_of. by rewrite Ht, Hn. Qed.
Lemma live_keys l l' ids : l.*1 = l'.*1 -> live l ids = live l' ids.
Proof. intros E. unfold live. apply List.filter_ext. intros id. by apply contains_keys. Qed.
Lemma live_sub l l' ids : (forall id, id ∈ l'.*1 -> id ∈ l.*1) -> live l' ids = live l' (live l ids).
Proof.
  intros Hsub. unfold live. induction ids as [|i ids IH]; [done|]. simpl. pose proof (contains_In i l) as H1. pose proof (contains_In i l') as H2.
  destruct (SMap.contains i l) eqn:E; simpl; [by rewrite IH|]. destruct (SMap.contains i l') eqn:E'; [naive_solver|done].
Qed.
Lemma live_all l ids : (forall id, id ∈ ids -> id ∈ l.*1) -> live l ids = ids.
Proof.
  intros H. unfold live. induction ids as [|i ids IH]; [done|]. simpl. rewrite (proj2 (contains_In i l)) by (apply H; left). f_equal. apply IH.
  intros id Hid. apply H. by right.
Qed.

Lemma booked_aside a a' x x' : tables a' = tables a -> keeps x x' -> booked a x -> booked a' x'.
Proof.
  intros [= E1 E2 E3 E4 E5 E6] [L K] [? B ? ? ? ? ? ? ? Bs Bp]. split; unfold nodes_of, tidy, attached in *; rewrite ?E1, ?E2, ?E3, ?E4, ?E5, ?E6, ?L; try done.
  intros r. by rewrite K.
Qed.

Lemma booked_entry id e e' a x : SMap.find id (as_in_flight a) = Some e -> same_request e e' -> booked a x -> booked (on_in_flight (SMap.set id e') a) x.
Proof.
  intros Hf Hs [B1 B2 B3 B4 B5 B6 B7 B8 B9 Bs B10]. destruct (set_present id e e' _ B1 Hf) as (l1 & l2 & E & E').
  assert (Hk : forall k, waiting k (l1 ++ (id, e') :: l2) = waiting k (l1 ++ (id, e) :: l2)).
  { intros k. by rewrite !waiting_app, !waiting_cons, (same_key k e e'). }
  assert (Hkeys : (l1 ++ (id, e') :: l2)%list.*1 = (l1 ++ (id, e) :: l2)%list.*1) by (by rewrite !fmap_app).
  rewrite E in *. split; unfold tidy in *; simpl; rewrite ?E, ?E'; try done.
  - unfold SMap.sorted in *. by rewrite Hkeys.
  - apply Forall_app in B2 as [F1 F2]. apply Forall_cons in F2 as [F2 F3]. apply Forall_app. split; [done|]. constructor; [|done].
    simpl. destruct Hs as (-> & _ & _ & ->). done.
  - intros k. rewrite Hk, <- B6. by apply live_keys.
  - intros k. by rewrite Hk.
  - rewrite B9, !length_app. done.
  - apply Forall_app in Bs as [F1 [F2 F3]%Forall_cons]. apply Forall_app. split; [done|]. constructor; [|done]. simpl. by destruct Hs as (_ & -> & _ & _).
  - intros r. rewrite B10, !count_app. simpl. unfold of_node at 2 5. simpl. destruct Hs as (_ & _ & _ & ->). done.
Qed.

Lemma booked_tidy l a x : shrunk (as_reorder a) l -> (forall k, live (as_in_flight a) (order k l) = live (as_in_flight a) (order k (as_reorder a))) ->
  booked a x -> booked (on_reorder (fun _ => l) a) x.
Proof.
  intros Hs Hl [B1 B2 B3 B4 B5 B6 B7 B8 B9 Bs B10]. destruct (Hs B4) as [S1 S2]. split; try done; simpl.
  - intros k id Hid. by eapply B5, S2.
  - intros k. by rewrite Hl, B6.
Qed.

Lemma finished_snoc k l e : finished k (l ++ [e]) = (finished k l ++ if has_key k e then [en_id e] else [])%list.
Proof. unfold finished. rewrite List.filter_app, map_app. simpl. by destruct (has_key k e). Qed.

(** The request that finishes is the first of its node and version. *)
Lemma finish_head k id e l1 l2 a x : booked a x -> as_in_flight a = (l1 ++ (id, e) :: l2)%list -> id ∉ (l1 ++ l2)%list.*1 ->
  id ∈ waiting k (as_in_flight a) -> has_key k e = true.
Proof.
  intros B E Hn. rewrite E, waiting_app, waiting_cons. destruct (has_key k e); [done|]. intros Hin. destruct Hn. simpl in Hin. rewrite <- waiting_app in Hin.
  by eapply waiting_In.
Qed.

Lemma booked_finish k id e l a a' x x' : SMap.find id (as_in_flight a) = Some e ->
  live (as_in_flight a) (order k (as_reorder a)) = id :: live (as_in_flight a) (order k l) ->
  (forall k', k' <> k -> live (as_in_flight a) (order k' l) = live (as_in_flight a) (order k' (as_reorder a))) -> shrunk (as_reorder a) l ->
  tables a' = (as_next_request a, Word.u64 (ct_in_flight (as_counters a) - 1), SMap.erase id (as_in_flight a), l, (as_finished a ++ [e])%list, as_sessions a) ->
  ends_async (fun r => Nat.b2n (bool_decide (en_node e = r))) x x' -> booked a x -> booked a' x'.
Proof.
  intros Hf Hk Hk' Hs [= T1 T2 T3 T4 T5 T6] [L K] B. pose proof B as [B1 B2 B3 B4 B5 B6 B7 B8 B9 Bs B10].
  destruct (erase_present id e _ B1 Hf) as (l1 & l2 & E & E' & Hn). destruct (Hs B4) as [S1 S2].
  assert (Hke : has_key k e = true) by (eapply finish_head; [done..|]; rewrite <- B6, Hk; left).
  assert (He : forall k', k' <> k -> has_key k' e = false).
  { intros k' Hne. unfold has_key in *. apply bool_decide_eq_true in Hke. apply bool_decide_eq_false. congruence. }
  assert (Hw : forall k', k' <> k -> waiting k' (l1 ++ l2) = waiting k' (as_in_flight a)).
  { intros k' Hne. rewrite E, !waiting_app, waiting_cons, He by done. done. }
  assert (Hwk : waiting k (as_in_flight a) = id :: waiting k (l1 ++ l2)).
  { pose proof Hk as Hk2. rewrite B6, E, waiting_app, waiting_cons, Hke in Hk2. rewrite E, !waiting_app, waiting_cons, Hke. simpl.
    destruct (waiting k l1) as [|i w] eqn:E1; [done|]. injection Hk2 as -> _. destruct Hn. apply (waiting_In k). rewrite waiting_app, E1. left. }
  assert (Hsub : forall i, i ∈ (l1 ++ l2)%list.*1 -> i ∈ (as_in_flight a).*1) by (intros i; rewrite E, !fmap_app; simpl; set_solver).
  pose proof (Forall_inv (proj2 (proj1 (Forall_app _ _ _) ltac:(rewrite <- E; exact B2)))) as (Hid & Hlt & Hnode). simpl in Hid, Hlt, Hnode.
  split; unfold tidy, nodes_of, attached in *; rewrite ?T1, ?T2, ?T3, ?T4, ?T5, ?T6, ?L, ?E'; try done.
  - rewrite <- E'. by apply SMap.erase_sorted.
  - rewrite E in B2. apply Forall_app in B2 as [F1 [_ F2]%Forall_cons]. by apply Forall_app.
  - intros k' i Hi. eapply B5, S2, Hi.
  - intros k'. rewrite (live_sub (as_in_flight a)) by done. destruct (decide (k' = k)) as [->|Hne].
    + specialize (B6 k). rewrite Hk, Hwk in B6. injection B6 as ->. apply live_all. intros i. apply waiting_In.
    + rewrite Hk', B6, <- Hw by done. apply live_all. intros i. apply waiting_In.
  - apply Forall_app. split; [done|]. constructor; [|done]. lia.
  - intros k'. specialize (B8 k'). rewrite finished_snoc. destruct (decide (k' = k)) as [->|Hne].
    + rewrite Hke, Hid. rewrite Hwk in B8. by rewrite <- app_assoc.
    + by rewrite He, app_nil_r, Hw.
  - rewrite B9, E, !length_app. simpl. unfold Word.u64. rewrite Zminus_mod_idemp_l. f_equal. lia.
  - rewrite E in Bs. apply Forall_app in Bs as [F1 [_ F2]%Forall_cons]. by apply Forall_app.
  - intros r. rewrite K by (rewrite B10; apply Word.u32_range). rewrite B10, E, !count_app. simpl. change (of_node r (id, e)) with (bool_decide (en_node e = r)).
    destruct (decide (r < _)%nat) as [Hr|Hr].
    + unfold Word.u32. rewrite Zminus_mod_idemp_l. f_equal. lia.
    + rewrite bool_decide_eq_false_2 by lia. done.
Qed.

Lemma order_set k k' o l : order k (SMap.set k' o l) = if decide (k = k') then o else order k l.
Proof. unfold order. rewrite SMap.find_set. by repeat case_decide; subst. Qed.
Lemma live_fresh l id e ids : id ∉ ids -> live (l ++ [(id, e)]) ids = live l ids.
Proof.
  intros Hn. unfold live. induction ids as [|i ids IH]; [done|]. simpl. apply not_elem_of_cons in Hn as [Hi Hn]. rewrite IH by done.
  assert (E : SMap.contains i (l ++ [(id, e)])%list = SMap.contains i l).
  { pose proof (contains_In i l) as H1. pose proof (contains_In i (l ++ [(id, e)])%list) as H2. rewrite fmap_app, elem_of_app in H2. simpl in H2.
    rewrite list_elem_of_singleton in H2. destruct (SMap.contains i l), (SMap.contains i (l ++ [(id, e)])%list); naive_solver. }
  by rewrite E.
Qed.
Lemma live_app l a b : live l (a ++ b) = (live l a ++ live l b)%list.
Proof. apply List.filter_app. Qed.

Lemma booked_submit e a a' x x' : en_id e = as_next_request a -> as_next_request a + 1 < 2 ^ 64 -> (en_node e < nodes_of x)%nat ->
  attached (en_session e) a = true -> tables a' = (as_next_request a + 1, Word.u64 (ct_in_flight (as_counters a) + 1), (SMap.emplace (en_id e) e (as_in_flight a)).1,
               SMap.set (key_of address e) (order (key_of address e) (as_reorder a) ++ [en_id e])%list (as_reorder a), as_finished a, as_sessions a) ->
  x' = on_node Node.BeginAsync (en_node e) x -> booked a x -> booked a' x'.
Proof.
  intros Hid Hlt Hn Hat [= T1 T2 T3 T4 T5 T6] -> [B1 B2 B3 B4 B5 B6 B7 B8 B9 Bs B10]. rewrite Hid in *.
  assert (Hbelow : Forall (fun kv => key_ltb kv.1 (as_next_request a) = true) (as_in_flight a)).
  { eapply Forall_impl; [exact B2|]. intros kv (_ & H & _). unfold key_ltb, Z_key_lt. lia. }
  assert (Hnew : as_next_request a ∉ (as_in_flight a).*1).
  { intros (kv & E & Hin)%list_elem_of_fmap. rewrite Forall_forall in B2. destruct (B2 _ Hin) as (_ & H & _). lia. }
  assert (E : (SMap.emplace (as_next_request a) e (as_in_flight a)).1 = (as_in_flight a ++ [(as_next_request a, e)])%list).
  { unfold SMap.emplace. rewrite (proj2 (SMap.find_None _ _)) by (by rewrite <- list_elem_of_In). by apply SMap.set_snoc. }
  assert (Hfresh : forall k, as_next_request a ∉ order k (as_reorder a)) by (intros k Hin; apply B5 in Hin; lia).
  assert (Hw : forall k, waiting k (as_in_flight a ++ [(as_next_request a, e)]) = (waiting k (as_in_flight a) ++ if has_key k e then [as_next_request a] else [])%list).
  { intros k. rewrite waiting_app, waiting_cons. simpl. by rewrite app_nil_r. }
  split; unfold tidy, nodes_of, attached in *; rewrite ?T1, ?T2, ?T3, ?T4, ?T5, ?T6, ?E, ?on_node_length; try done.
  - rewrite <- E. by apply SMap.emplace_sorted.
  - apply Forall_app. split; [eapply Forall_impl; [exact B2|]; intros kv (? & ? & ?); repeat split; [done|lia|done]|]. repeat constructor; [done|simpl; lia|done].
  - lia.
  - by apply SMap.set_sorted.
  - intros k i. rewrite order_set. case_decide; [rewrite elem_of_app, list_elem_of_singleton|]; [intros [Hi| ->]; [apply B5 in Hi|]; lia|]. intros Hi. apply B5 in Hi. lia.
  - intros k. rewrite Hw, order_set. unfold has_key. case_decide as D.
    + subst k. rewrite bool_decide_eq_true_2, live_app, live_fresh, B6 by done. f_equal. apply live_all. intros i. rewrite list_elem_of_singleton. intros ->.
      rewrite fmap_app. apply elem_of_app. right. by left.
    + rewrite bool_decide_eq_false_2, app_nil_r, live_fresh by done. apply B6.
  - eapply Forall_impl; [exact B7|]. simpl. lia.
  - intros k. rewrite Hw, app_assoc. destruct (has_key k e); [|by rewrite app_nil_r]. apply StronglySorted_app_2; [|done|by repeat constructor].
    intros i j Hi ->%list_elem_of_singleton. apply elem_of_app in Hi as [Hi|Hi].
    + unfold finished in Hi. apply list_elem_of_In, in_map_iff in Hi as (e0 & <- & [Hin _]%filter_In). rewrite Forall_forall in B7. apply B7. by apply list_elem_of_In.
    + apply waiting_In, list_elem_of_fmap in Hi as (kv & -> & Hin). rewrite Forall_forall in B2. by destruct (B2 _ Hin) as (_ & ? & _).
  - rewrite B9, length_app. simpl. unfold Word.u64. rewrite Zplus_mod_idemp_l. f_equal. lia.
  - apply Forall_app. split; [done|]. by repeat constructor.
  - intros r. rewrite node_at_on, count_app. simpl. change (of_node r (as_next_request a, e)) with (bool_decide (en_node e = r)). case_decide as D.
    + destruct D as [-> _]. rewrite bool_decide_eq_true_2 by done. simpl. rewrite B10. unfold Word.u32. rewrite Zplus_mod_idemp_l. f_equal. lia.
    + rewrite bool_decide_eq_false_2 by (intros <-; by apply D). simpl. rewrite B10. f_equal. lia.
Qed.

Lemma order_filter (f : ReorderKey * list Z -> bool) k l : SMap.sorted l ->
  order k (List.filter f l) = match SMap.find k l with Some o => if f (k, o) then o else [] | None => [] end.
Proof.
  intros Hs. assert (Hs' : SMap.sorted (List.filter f l)) by (eapply sorted_sublist; [apply filter_keys_sublist|exact Hs]). unfold order.
  destruct (SMap.find k (List.filter f l)) as [o|] eqn:E.
  - apply SMap.find_In, filter_In in E as [Hin Hf]. rewrite (SMap.sorted_In_find k o l Hs Hin), Hf. done.
  - destruct (SMap.find k l) as [o|] eqn:E'; [|done]. destruct (f (k, o)) eqn:Ef; [|done]. apply SMap.find_In in E'.
    rewrite (SMap.sorted_In_find k o) in E; [done|done|]. by apply filter_In.
Qed.
Lemma waiting_filter f k l : (forall id e e', (id, e) ∈ l -> (id, e') ∈ l -> e = e') ->
  live (List.filter f l) (waiting k l) = waiting k (List.filter f l).
Proof.
  intros Hu. assert (H : forall l', (forall kv, kv ∈ l' -> kv ∈ l) -> live (List.filter f l) (waiting k l') = waiting k (List.filter f l')).
  { induction l' as [|[id e] l' IH]; intros Hsub; [done|]. assert (IH' := IH ltac:(intros; apply Hsub; by right)). simpl.
    assert (Hc : SMap.contains id (List.filter f l) = f (id, e)).
    { pose proof (contains_In id (List.filter f l)) as Hi. pose proof (Hsub (id, e) ltac:(left)) as Hin. destruct (f (id, e)) eqn:Ef.
      - apply Hi, list_elem_of_fmap. exists (id, e). split; [done|]. rewrite list_elem_of_In, filter_In, <- list_elem_of_In. done.
      - apply not_true_iff_false. intros (kv & -> & Hkv)%Hi%list_elem_of_fmap. rewrite list_elem_of_In, filter_In, <- list_elem_of_In in Hkv. destruct kv as [i e'].
        destruct Hkv as [Hkv Hf]. simpl in *. rewrite (Hu _ _ _ Hkv Hin) in Hf. congruence. }
    rewrite waiting_cons, live_app, IH'. unfold live at 1. destruct (has_key k e) eqn:Ek, (f (id, e)) eqn:Ef; simpl; rewrite ?waiting_cons, ?Ek, ?Hc, ?Ef; done. }
  by apply H.
Qed.
Lemma count_split {A} (f g : A -> bool) l : (count f (List.filter g l) + count f (List.filter (fun y => negb (g y)) l))%nat = count f l.
Proof. induction l as [|y l IH]; [done|]. simpl. destruct (g y); simpl; lia. Qed.

Lemma booked_detach session a a' x x' :
  tables a' = (as_next_request a, Word.u64 (ct_in_flight (as_counters a) - Z.of_nat (count (of_session session) (as_in_flight a))),
               List.filter (fun kv => negb (of_session session kv)) (as_in_flight a),
               List.filter (fun kv => existsb (fun id => SMap.contains id (List.filter (fun kv => negb (of_session session kv)) (as_in_flight a))) kv.2) (as_reorder a),
               as_finished a, SMap.erase session (as_sessions a)) ->
  ends_async (fun r => count (of_node r) (List.filter (of_session session) (as_in_flight a))) x x' -> booked a x -> booked a' x'.
Proof.
  intros [= T1 T2 T3 T4 T5 T6] [L K] [B1 B2 B3 B4 B5 B6 B7 B8 B9 Bs B10]. set (fl := List.filter (fun kv => negb _) (as_in_flight a)) in *.
  assert (Hsub : sublist fl.*1 (as_in_flight a).*1) by apply filter_keys_sublist.
  assert (Hw : forall k, waiting k fl = live fl (waiting k (as_in_flight a))).
  { intros k. symmetry. apply waiting_filter. intros id e e' H1 H2. apply list_elem_of_In, SMap.sorted_In_find in H1, H2; [congruence|done..]. }
  assert (Hws : forall k, sublist (waiting k fl) (waiting k (as_in_flight a))).
  { intros k. rewrite Hw. unfold live. induction (waiting k (as_in_flight a)) as [|i w IH]; [done|]. simpl. destruct (SMap.contains i fl); [by apply sublist_skip|by apply sublist_cons]. }
  split; unfold tidy, nodes_of, attached in *; rewrite ?T1, ?T2, ?T3, ?T4, ?T5, ?T6, ?L; try done.
  - by eapply sorted_sublist.
  - rewrite Forall_forall in *. intros kv Hin. apply B2. apply list_elem_of_In, filter_In in Hin as [Hin _]. by apply list_elem_of_In.
  - eapply sorted_sublist; [apply filter_keys_sublist|exact B4].
  - intros k id. rewrite order_filter by done. unfold order in B5. specialize (B5 k id). destruct (SMap.find k _) as [o|]; [|by intros ?%not_elem_of_nil].
    destruct (existsb _ _); [done|by intros ?%not_elem_of_nil].
  - intros k. rewrite Hw, <- B6, <- live_sub by (intros; by eapply sublist_subseteq). rewrite order_filter by done. unfold order. destruct (SMap.find k _) as [o|]; [|done]. simpl.
    destruct (existsb _ o) eqn:E; [done|]. symmetry. unfold live. clear -E. induction o as [|i o IH]; [done|]. simpl in *. apply orb_false_iff in E as [-> E]. auto.
  - intros k. eapply sorted_sublist; [|apply (B8 k)]. by apply sublist_app.
  - rewrite B9. unfold Word.u64. rewrite Zminus_mod_idemp_l. f_equal. rewrite !count_filter. unfold fl.
    clear. induction (as_in_flight a) as [|kv l IH]; [done|]. simpl. destruct (of_session session kv); simpl; lia.
  - rewrite Forall_forall in *. intros kv [Hin Hns]%list_elem_of_In%filter_In. specialize (Bs kv ltac:(by apply list_elem_of_In)). unfold SMap.contains in *.
    rewrite SMap.find_erase_ne; [done|]. intros He. unfold of_session in Hns. rewrite He, Z.eqb_refl in Hns. done.
  - intros r. rewrite K by (rewrite B10; apply Word.u32_range). rewrite B10. pose proof (count_split (of_node r) (of_session session) (as_in_flight a)) as Hc. fold fl in Hc.
    destruct (decide (r < _)%nat) as [Hr|Hr]; [unfold Word.u32; rewrite Zminus_mod_idemp_l; f_equal; lia|].
    assert (Hz : count (of_node r) (as_in_flight a) = 0%nat).
    { apply count_zero. eapply Forall_impl; [exact B2|]. intros kv (_ & _ & Hn). unfold of_node. apply bool_decide_eq_false. lia. }
    f_equal. lia.
Qed.

Lemma move_booked s s' : move address s s' -> booked s.1 s.2 -> booked s'.1 s'.2.
Proof.
  destruct 1; simpl; eauto using booked_aside, booked_entry, booked_tidy, booked_finish, booked_submit, booked_detach.
Qed.
Lemma moves_booked s s' : rtc (move address) s s' -> booked s.1 s.2 -> booked s'.1 s'.2.
Proof. induction 1; eauto using move_booked. Qed.

(** ** Histories *)

(** What other parts of the program may do to the session meanwhile. *)
Definition elsewhere (x x' : X) : Prop :=
  (nodes_of x <= nodes_of x')%nat /\ forall r, async_pending_ (node_at r x') = async_pending_ (node_at r x).

(** The calls of the runtime, in any order. A node begins a request before it
    is submitted; 2^64 requests are not reached. *)
Inductive operates : relation (W * AsyncRuntime * X) :=
| op_attach session batching w a x : operates (w, a, x) (w, (AttachSession session batching a).2, x)
| op_detach now session w a x a' x' : DetachSession now session a x = Some (a', x') -> operates (w, a, x) (w, a', x')
| op_accept now args w a x id s : attached (t_session (sa_topology args)) a = true -> (sa_node args < nodes_of x)%nat -> as_next_request a + 1 < 2 ^ 64 ->
    Submit op_submit address now args (w, a, on_node Node.BeginAsync (sa_node args) x) = Some (id, s) -> operates (w, a, x) s
| op_pump now later any s s' : Pump op_submit address current_ingress now later s = Some (any, s') -> operates s s'
| op_push k ev w a x : operates (w, a, x) (w, (SinkPush k ev a).2, x)
| op_elsewhere w a x x' : elsewhere x x' -> operates (w, a, x) (w, a, x').

Definition idle (x : X) : Prop := forall r, async_pending_ (node_at r x) = 0.
Definition starts (s : W * AsyncRuntime * X) : Prop := (exists o, s.1.2 = make_async o) /\ idle s.2.

Lemma make_booked o x : idle x -> booked (make_async o) x.
Proof. intros Hx. split; simpl; try done; try apply SSorted_nil. all: try (intros k id Hid; by apply not_elem_of_nil in Hid). all: try (intros k; apply SSorted_nil). Qed.
Lemma operates_booked s s' : operates s s' -> booked s.1.2 s.2 -> booked s'.1.2 s'.2.
Proof.
  intros H B. pose proof (bk_tidy _ _ B) as T. destruct H as [session batching w a x|now session w a x a' x' H|now args w a x id s Ha Hn Hlt H|now later any s s' H|k ev w a x|w a x x' [L K]]; simpl in *.
  - destruct B as [B1 B2 B3 B4 B5 B6 B7 B8 B9 Bs B10]. split; try done. eapply Forall_impl; [exact Bs|]. intros kv. unfold attached, SMap.contains. simpl.
    rewrite SMap.find_set. by case_decide.
  - eapply (moves_booked (a, x) (a', x')); [|done]. eapply (detach_leads address); [|done|done]. rewrite (bk_count _ _ B). apply Word.u64_range.
  - eapply (moves_booked (a, x) (s.1.2, s.2)); [|done]. eapply (submit_leads op_submit address); [|done..]. apply B.
  - eapply (moves_booked (s.1.2, s.2) (s'.1.2, s'.2)); [|done]. by eapply pump_leads.
  - eapply booked_aside; [apply sink_push_tables|reflexivity|done].
  - destruct B as [B1 B2 B3 B4 B5 B6 B7 B8 B9 Bs B10]. split; try done; [|intros r; by rewrite K].
    eapply Forall_impl; [exact B2|]. simpl. intros kv (? & ? & ?). repeat split; [done..|lia].
Qed.
Lemma history_booked s s' : starts s -> rtc operates s s' -> booked s'.1.2 s'.2.
Proof.
  intros [[o Ho] Hi] H. assert (B : booked s.1.2 s.2) by (rewrite Ho; by apply make_booked). clear Ho Hi. induction H; eauto using operates_booked.
Qed.

(** C8: whatever the sessions, the operators and the callers of the runtime do,
    the number of requests pending on a node, which is what keeps it from
    draining, is exactly the number of its requests the runtime still has in
    flight, and the runtime's own count is the number of all of them: no
    request is lost, and none is ended twice. *)
Theorem requests_accounted s s' r : starts s -> rtc operates s s' ->
  async_pending_ (node_at r s'.2) = Word.u32 (Z.of_nat (count (of_node r) (as_in_flight s'.1.2))) /\
  ct_in_flight (as_counters s'.1.2) = Word.u64 (Z.of_nat (List.length (as_in_flight s'.1.2))).
Proof. intros Hs H. pose proof (history_booked _ _ Hs H) as B. split; [apply B|apply B]. Qed.

(** C7: the requests of one node and topology version finish in the order of
    their submission, each at most once, whatever the order in which their
    operators complete them and whichever of them time out: the numbers of the
    finished ones, then those of the ones still in flight, are increasing. *)
Theorem results_in_order s s' k : starts s -> rtc operates s s' ->
  StronglySorted Z.lt (finished k (as_finished s'.1.2) ++ waiting k (as_in_flight s'.1.2)).
Proof. intros Hs H. apply (history_booked _ _ Hs H). Qed.

End accounts.

(** ** A run *)

Definition model_session : Scheduler := (begun false (model_pipe plain) 1).2.
Definition request (n : Z) (x : Scheduler) : SubmitArgs := MkSubmitArgs 1 (sc_topology x) (current_ (parameters_ (nd 1 x))) ["in"] [Some (frame n)] n (-1).
Definition reply (id n : Z) : CompletionEvent := MkCompletionEvent id 1 1 1 n StatusOps.Ok [("out", frame n)].
Definition acceptable (args : SubmitArgs) (a : AsyncRuntime) (x : Scheduler) : Prop :=
  attached (t_session (sa_topology args)) a = true /\ (sa_node args < nodes_of x)%nat /\ as_next_request a + 1 < 2 ^ 64.

(** Two requests of a session, completed in the wrong order. *)
Section two.
Variables (o : AsyncOptions) (x : Scheduler) (w w1 w2 w3 : nat) (a1 a2 a3 : AsyncRuntime) (x1 x2 x3 : Scheduler) (args1 args2 : SubmitArgs) (id1 id2 : Z) (p3 p4 : bool)
  (ev1 ev2 : CompletionEvent) (s4 : state).
Definition a0 : AsyncRuntime := (AttachSession 1 true (make_async o)).2.
Record two_requests : Prop := {
  tw_ok1 : acceptable args1 a0 x;
  tw_first : Submit silent Z.of_nat 0 args1 (w, a0, on_node Node.BeginAsync (sa_node args1) x) = Some (id1, (w1, a1, x1));
  tw_ok2 : acceptable args2 a1 x1;
  tw_second : Submit silent Z.of_nat 0 args2 (w1, a1, on_node Node.BeginAsync (sa_node args2) x1) = Some (id2, (w2, a2, x2));
  tw_early : Pump silent Z.of_nat (fun _ => 0) 0 0 (w2, (SinkPush 0 ev2 a2).2, x2) = Some (p3, (w3, a3, x3));
  tw_late : Pump silent Z.of_nat (fun _ => 0) 0 0 (w3, (SinkPush 0 ev1 a3).2, x3) = Some (p4, s4);
}.
Lemma two_requests_history : two_requests -> rtc (operates silent Z.of_nat (fun _ => 0)) (w, make_async o, x) (w3, a3, x3) /\
  rtc (operates silent Z.of_nat (fun _ => 0)) (w, make_async o, x) s4.
Proof.
  intros [(A1 & A2 & A3) H1 (B1 & B2 & B3) H2 H3 H4].
  assert (R : rtc (operates silent Z.of_nat (fun _ => 0)) (w, make_async o, x) (w3, a3, x3)).
  { eapply rtc_l; [apply (op_attach _ _ _ 1 true)|]. eapply rtc_l; [by eapply op_accept, H1|]. eapply rtc_l; [by eapply op_accept, H2|].
    eapply rtc_l; [apply (op_push _ _ _ 0 ev2)|]. eapply rtc_l; [by eapply op_pump|]. constructor. }
  split; [exact R|]. etrans; [exact R|]. eapply rtc_l; [apply (op_push _ _ _ 0 ev1)|]. eapply rtc_l; [by eapply op_pump|]. constructor.
Qed.
End two.

Lemma model_run : exists w1 a1 x1 w2 a2 x2 w3 a3 x3 id1 id2 p3 p4 s4,
  (Submit silent Z.of_nat 0 (request 5 model_session) (0%nat, a0 (async_defaults false), on_node Node.BeginAsync 1 model_session) = Some (id1, (w1, a1, x1)) /\
   Submit silent Z.of_nat 0 (request 6 model_session) (w1, a1, on_node Node.BeginAsync 1 x1) = Some (id2, (w2, a2, x2)) /\
   Pump silent Z.of_nat (fun _ => 0) 0 0 (w2, (SinkPush 0 (reply 2 6) a2).2, x2) = Some (p3, (w3, a3, x3)) /\
   Pump silent Z.of_nat (fun _ => 0) 0 0 (w3, (SinkPush 0 (reply 1 5) a3).2, x3) = Some (p4, s4)) /\
  waiting Z.of_nat (1, 1) (as_in_flight a3) = [1; 2] /\ async_pending_ (node_at 1 x3) = 2 /\
  finished Z.of_nat (1, 1) (as_finished s4.1.2) = [1; 2] /\
  acceptable (request 5 model_session) (a0 (async_defaults false)) model_session /\ acceptable (request 6 model_session) a1 x1.
Proof.
  do 14 eexists. split; [do 3 (split; [vm_compute; reflexivity|]); vm_compute; reflexivity|]. do 3 (split; [vm_compute; reflexivity|]).
  split; apply (bool_decide_unpack _); vm_compute; exact I.
Qed.
Lemma idle_nodes (x : Scheduler) : forallb (fun n => async_pending_ n =? 0) (h_nodes (sc_heap x)) = true -> idle x.
Proof.
  intros H r. unfold node_at, node_of. simpl. destruct (h_nodes (sc_heap x) !! r) as [n|] eqn:E; [|done]. apply list_elem_of_lookup_2 in E. simpl.
  rewrite forallb_forall in H. by apply Z.eqb_eq, H, list_elem_of_In.
Qed.
Lemma model_starts : starts (0%nat, make_async (async_defaults false), model_session).
Proof. split; [exact (ex_intro _ (async_defaults false) eq_refl)|]. apply idle_nodes. by vm_compute. Qed.
Lemma model_history : exists s3 s4, rtc (operates silent Z.of_nat (fun _ => 0)) (0%nat, make_async (async_defaults false), model_session) s3 /\
  rtc (operates silent Z.of_nat (fun _ => 0)) (0%nat, make_async (async_defaults false), model_session) s4 /\
  async_pending_ (node_at 1 s3.2) = 2 /\ finished Z.of_nat (1, 1) (as_finished s4.1.2) = [1; 2].
Proof.
  destruct model_run as (w1 & a1 & x1 & w2 & a2 & x2 & w3 & a3 & x3 & id1 & id2 & p3 & p4 & s4 & (H1 & H2 & H3 & H4) & _ & Hp & Hf & A & B).
  destruct (two_requests_history _ _ _ _ _ _ _ _ _ _ _ _ _ _ _ _ _ _ _ _ _ (Build_two_requests _ _ _ _ _ _ _ _ _ _ _ _ _ _ _ _ _ _ _ _ _ A H1 B H2 H3 H4)) as [R3 R4].
  exact (ex_intro _ (w3, a3, x3) (ex_intro _ s4 (conj R3 (conj R4 (conj Hp Hf))))).
Qed.

Lemma requests_accounted_witness : exists s : state, async_pending_ (node_at 1 s.2) = 2 /\
  async_pending_ (node_at 1 s.2) = Word.u32 (Z.of_nat (count (of_node 1) (as_in_flight s.1.2))) /\
  ct_in_flight (as_counters s.1.2) = Word.u64 (Z.of_nat (List.length (as_in_flight s.1.2))).
Proof.
  destruct model_history as (s3 & s4 & R3 & _ & Hp & _). exists s3. split; [exact Hp|].
  exact (requests_accounted silent Z.of_nat (fun _ => 0) (0%nat, make_async (async_defaults false), model_session) s3 1 model_starts R3).
Defined.
Lemma results_in_order_witness : exists s : state, finished Z.of_nat (1, 1) (as_finished s.1.2) = [1; 2] /\
  StronglySorted Z.lt (finished Z.of_nat (1, 1) (as_finished s.1.2) ++ waiting Z.of_nat (1, 1) (as_in_flight s.1.2)).
Proof.
  destruct model_history as (s3 & s4 & _ & R4 & _ & Hf). exists s4. split; [exact Hf|].
  exact (results_in_order silent Z.of_nat (fun _ => 0) (0%nat, make_async (async_defaults false), model_session) s4 (1, 1) model_starts R4).
Defined.
