(* ===== verification/AsyncProgress.v ===== *)
(** The asynchronous runtime makes progress: a round of the consumer returns
    whatever it finds, and leaves nothing behind that it could have done. *)

From stdpp Require Import base numbers list strings gmap option relations sorting.
From Stdlib Require Import ZArith Lia Ascii String.
From S2P Require Import Prelude Types Double Json GraphSpec CapabilityTypes Packet EdgeChannel InputBinding NodeRuntime RuntimeTopology Coordinator Scheduler SchedulerInvoke SchedulerProofs SchedulerSamples SchedulerTurns AsyncRuntime AsyncProofs AsyncHost AsyncSamples AsyncAccounts.

Local Open Scope string_scope.
Local Open Scope Z_scope.
#[local] Set Default Proof Using "Type*".

(** ** Hooks that return *)

(** The hooks return in the states [good] holds of, and keep it. *)
Class HostReturns (X : Type) `{!Host X} (good : X -> Prop) : Prop := {
  good_update h (x : X) : List.length (h_nodes h) = List.length (h_nodes (host_heap x)) -> good x -> good (host_update h x);
  after_emit_returns s report (x : X) : good x -> exists x', after_emit s report x = Some x' /\ good x';
  on_async_idle_returns now s r (x : X) : good x -> (r < nodes_of x)%nat -> exists x', on_async_idle now s r x = Some x' /\ good x';
  on_node_failed_returns now s r st (x : X) : good x -> exists x', on_node_failed now s r st x = Some x' /\ good x';
}.

(** *** Those of a session *)

(** No node becomes live. *)
Definition within : relation Scheduler := fun s s' => sc_live s' ⊆ sc_live s.
#[local] Instance within_preorder : PreOrder within.
Proof. split; [by intros s r|]. intros a b c H1 H2 r Hr. auto. Qed.
Lemma erase_within r l : erase_first r l ⊆ l.
Proof. induction l as [|x l IH]; [done|]. simpl. case_decide; set_solver. Qed.
Lemma within_moves : moves within.
Proof.
  assert (Same : forall s s', sc_live s' = sc_live s -> within s s') by (intros s s' E r; by rewrite E).
  split; try (intros; by apply Same); [apply _| | |].
  - intros r s. unfold MarkReady. destruct (negb _ || _); [reflexivity|]. destruct (negb _); [reflexivity|]. destruct (Node.TrySchedule _) as [[] n]; [|reflexivity].
    unfold SubmitCpu. by destruct (executor_stopped_ _); apply Same.
  - intros r s. unfold Detach. case_bool_decide; [apply erase_within|reflexivity].
  - intros s. unfold CheckAllClosed. destruct (sc_live s) eqn:E; [|reflexivity]. by destruct (all_closed_ _); apply Same.
Qed.
Lemma within_announce q s : within s (announce q s).
Proof. intros r. by destruct (announce_same q s) as (-> & _ & _). Qed.
Lemma within_complete : completes_in within.
Proof.
  intros cl tick now s b s' Ht H. unfold CompleteRetired in H.
  pose proof (mv_sweep_all _ within_moves now (sc_retired s) (MkSweep [] [] [] []) s) as H1. destruct (sweep_all _ _ _ _) as [w s1]. simpl in H1.
  destruct (close_all _ _ _ _ _) as [[c s3]|] eqn:E; [|done]. injection H as <- <-. apply (mv_close_all _ within_moves cl tick Ht) in E.
  etransitivity; [exact H1|]. change (within (with_retired (sw_kept w) s1) (each announce (sw_done w) s3)).
  etransitivity; [|etransitivity; [exact E|]]; apply (mv_each _ within_moves); [by intros v x r|apply within_announce].
Qed.
Lemma within_stops : stops_in within.
Proof. split; [by intros s r..|]. apply (mv_fast_all _ within_moves). by intros l s r. Qed.

(** A fast stop leaves every version retired that was. *)
Definition hurried (q : Retired) : Retired := if rt_fast_applied q then q else MkRetired (rt_request q) (rt_deadline q) true (rt_timed_out q).
Lemma hurried_weight l : (weight (map hurried l) <= weight l)%nat.
Proof.
  induction l as [|q l IH]; [done|]. change (weight ([hurried q] ++ map hurried l) <= weight ([q] ++ l))%nat. rewrite !weight_app, !weight_one.
  unfold hurried at 1. destruct (rt_fast_applied q) eqn:E; rewrite ?E; simpl; lia.
Qed.
Lemma fast_all_retired s : sc_retired (apply_fast_all s) = map hurried (sc_retired s).
Proof.
  unfold apply_fast_all. set (f := fun (ls : list Retired * Scheduler) q => _).
  assert (H : forall l ls, (fold_left f l ls).1 = (ls.1 ++ map hurried l)%list).
  { intros l. induction l as [|q l IH]; intros ls; simpl; [by rewrite app_nil_r|]. rewrite IH. unfold f, hurried at 2. simpl.
    destruct (rt_fast_applied q); simpl; by rewrite <- app_assoc. }
  specialize (H (sc_retired s) ([], s)). destruct (fold_left f _ _) as [l s1]. exact H.
Qed.

Definition calmer : relation Scheduler := fun s s' => (List.length (sc_live s') <= List.length (sc_live s))%nat /\ Forall2 no_reopen (h_nodes (sc_heap s)) (h_nodes (sc_heap s')).
Lemma shrinks_calmer s s' : shrinks s s' -> calmer s s'.
Proof. intros [H1 _ H2 _]. done. Qed.
Lemma calmer_moves : moves calmer.
Proof.
  split; try (intros; by apply shrinks_calmer, shrinks_moves); [|intros r n s Hn; by apply shrinks_calmer, (mv_node _ shrinks_moves)].
  split; [by intros s; apply shrinks_calmer|]. intros a b c [H1 H2] [H3 H4]. split; [lia|].
  clear H1 H3. revert H4. generalize (h_nodes (sc_heap c)). induction H2 as [|x y l k Hxy _ IH]; intros m H; inversion_clear H; constructor; [unfold no_reopen in *; auto|auto].
Qed.
Lemma shrinks_stops : stops_in shrinks.
Proof.
  split; [intros; by apply shrinks_same..|]. intros s. pose proof (fast_all_retired s) as E.
  destruct (mv_fast_all _ calmer_moves (fun l s => shrinks_calmer s s ltac:(reflexivity)) s) as [H1 H2]. split; [exact H1| |exact H2|]; rewrite E; [apply hurried_weight|].
  intros q (q0 & -> & Hq)%list_elem_of_fmap. exists q0. split; [done|]. unfold hurried. by destruct (rt_fast_applied q0).
Qed.

(** The nodes the scheduler refers to exist, and the hooks return. *)
Definition sound (s : Scheduler) : Prop := refs_ok s /\ (forall r, r ∈ sc_live s -> is_Some (node_of (sc_heap s) r)).
Lemma sound_shrink s s' : shrinks s s' -> within s s' -> sound s -> sound s'.
Proof. intros H W [H1 H2]. split; [by eapply refs_shrink|]. intros r Hr. apply (sh_node s s' r H), H2, W, Hr. Qed.
Lemma sound_nodes s s' : (List.length (h_nodes (sc_heap s)) <= List.length (h_nodes (sc_heap s')))%nat -> sc_retired s' = sc_retired s -> sc_live s' = sc_live s ->
  sound s -> sound s'.
Proof.
  intros L E El [H1 H2]. assert (N : forall r, is_Some (node_of (sc_heap s) r) -> is_Some (node_of (sc_heap s') r)).
  { intros r Hr. unfold node_of in *. apply lookup_lt_is_Some in Hr. apply lookup_lt_is_Some. lia. }
  split; [intros r Hr; rewrite E in Hr|intros r Hr; rewrite El in Hr]; auto.
Qed.

Section session.
Context (op_close : NodeRuntime -> Status) (hooks : Attached).
#[local] Instance session_host : Host Scheduler := scheduler_host op_close hooks.

Lemma tick_bounded now bound s : (List.length (sc_live s) < bound)%nat -> refs_ok s -> is_Some (Tick op_close now s).
Proof. intros _ H. destruct (tick_total op_close now s H) as (s' & -> & _). by eexists. Qed.
Lemma tick_shrinks now s s' : Tick op_close now s = Some s' -> shrinks s s'.
Proof. apply (tick_in _ shrinks_moves shrinks_complete). Qed.

Lemma fast_stop_returns now s : sound s -> is_Some (Stop op_close true now s).
Proof.
  intros Hs. unfold Stop. simpl. set (s1 := on_flags set_stopping _).
  assert (H1 : forall R, moves R -> stops_in R -> R s s1).
  { intros R M HS. pose proof (mv_preorder R M). etransitivity; [apply (sp_fast _ HS)|]. etransitivity; [|apply (sp_stopping _ HS)]. apply (mv_each R M). intros. by apply (mv_on_nd R M). }
  set (s2 := each _ (sc_live s) (apply_fast_all s1)). set (s3 := each _ (t_edges _) s2).
  assert (H3 : forall R, moves R -> stops_in R -> R s s3).
  { intros R M HS. pose proof (mv_preorder R M). etransitivity; [by apply H1|]. etransitivity; [apply (sp_retired _ HS)|].
    etransitivity; [|apply (mv_each R M); intros; apply (mv_on_ed R M)]. apply (mv_each R M). intros r t. destruct (sc_bound t !! r); [|done].
    apply (mv_each R M). intros. apply (mv_on_ed R M). }
  pose proof (H3 _ shrinks_moves shrinks_stops) as S3. pose proof (sound_shrink s s3 S3 (H3 _ within_moves within_stops) Hs) as [R3 _].
  destruct (close_all_ends op_close (Tick op_close now) (List.length (sc_live s3)) (tick_shrinks now) (fun s => tick_bounded now _ s) (sc_live s) false s3)
    as (b & s4 & E & S4 & _); [done|done|intros r Hr; by apply (sh_node s), Hs|]. rewrite E.
  destruct (tick_total op_close now s4 (refs_shrink _ _ S4 R3)) as (s5 & -> & _). by eexists.
Qed.
Lemma fail_and_finish_returns now r st s : sound s -> exists s', fail_and_finish op_close hooks now r st s = Some s' /\ sound s'.
Proof.
  intros H. assert (E1 : exists s1, node_failed op_close hooks now r st s = Some s1).
  { unfold node_failed. destruct (_ && _); [|by eexists]. apply fast_stop_returns. by apply (sound_nodes s). }
  destruct E1 as [s1 E1]. assert (E2 : is_Some (fail_and_finish op_close hooks now r st s)).
  { unfold fail_and_finish. rewrite E1. apply (node_done_ends (Tick op_close now) (List.length (sc_live s1)) (fun s => tick_bounded now _ s)); [done|].
    apply (refs_shrink s); [|apply H]. by apply (mv_node_failed _ shrinks_moves shrinks_complete shrinks_stops) in E1. }
  destruct E2 as [s2 E2]. exists s2. split; [done|]. apply (sound_shrink s); [| |done].
  - by apply (mv_fail_finish _ shrinks_moves shrinks_complete shrinks_stops) in E2.
  - by apply (mv_fail_finish _ within_moves within_complete within_stops) in E2.
Qed.

#[export] Instance session_returns : HostReturns Scheduler sound.
Proof.
  split.
  - intros h s L H. apply (sound_nodes s); [simpl in *; lia|done|done|done].
  - intros sn report s H. eexists. split; [done|]. apply (sound_shrink s); [apply (mv_each _ shrinks_moves), shrinks_mark|apply (mv_each _ within_moves), (mv_mark _ within_moves)|done].
  - intros now sn r s H Hr. simpl. unfold OnAsyncIdle. destruct (cancelled_ _).
    + destruct (try_close_ends op_close (Tick op_close now) (List.length (sc_live s)) (tick_shrinks now) (fun s => tick_bounded now _ s) r s) as (b & s' & E & _);
        [done|apply H|by apply lookup_lt_is_Some|]. rewrite E. exists s'. split; [done|]. apply (sound_shrink s); [| |done].
      * by apply (mv_try_close _ shrinks_moves op_close _ (tick_shrinks now)) in E.
      * by apply (mv_try_close _ within_moves op_close _ (fun s s' => tick_in _ within_moves within_complete op_close now _ s s')) in E.
    + destruct (negb _); [by exists s|]. destruct (held_ _); [by exists s|]. eexists. split; [done|].
      by apply (sound_shrink s), H; [apply shrinks_mark|apply (mv_mark _ within_moves)].
  - intros now sn r st s H. by apply fail_and_finish_returns.
Qed.
End session.

(** ** The operations return *)

Section progress.
Context {X : Type} `{!Host X} `{!HostLaws X} {W : Type} (op_submit : W -> nat -> SubmitRequest -> submission W).
Context (address current_ingress : nat -> Z) (good : X -> Prop) `{!HostReturns X good}.

Definition fine (s : AsyncRuntime * X) : Prop := booked address s.1 s.2 /\ good s.2.

Lemma good_on f r x : good x -> good (on_node f r x).
Proof. unfold on_node. intros H. apply good_update; [|done]. simpl. by rewrite length_insert. Qed.
Lemma good_nodes h x : h_nodes h = h_nodes (host_heap x) -> good x -> good (host_update h x).
Proof. intros E. apply good_update. by rewrite E. Qed.

Lemma finish_returns now e session x : good x -> (en_node e < nodes_of x)%nat -> exists x', finish now e session x = Some x' /\ good x'.
Proof.
  intros H Hn. unfold finish. destruct (Node.EndAsync _) as [wake n]. pose proof (good_on (fun _ => n) (en_node e) x H) as H1.
  destruct (wake && session); [|by eexists]. apply on_async_idle_returns; [done|]. unfold nodes_of. by rewrite on_node_length.
Qed.
Lemma fail_node_returns now s known r st x : good x -> exists x', fail_node now s known r st x = Some x' /\ good x'.
Proof.
  intros H. unfold fail_node. pose proof (good_on (Node.Fail st) r x H) as H1. destruct (n_state _), known; try (by eexists); by apply on_node_failed_returns.
Qed.
Lemma hook_emit_returns e session report x : good x -> exists x', hook_emit e session report x = Some x' /\ good x'.
Proof. intros H. unfold hook_emit. destruct session; [by apply after_emit_returns|by eexists]. Qed.

Lemma deliver_outputs_good now e outputs : forall report parked x, good x -> good (deliver_outputs current_ingress now e outputs report parked x).2.
Proof.
  induction outputs as [|[port p] outputs IH]; intros report parked x H; [done|]. simpl. destruct (drops p); [by apply IH|].
  pose proof (good_on (Node.NoteSeq (seq (header p))) (en_node e) x H) as H1. set (x1 := on_node _ _ _) in *. set (n := node_at _ _).
  pose proof (emit_nodes now (current_ingress (en_node e)) (en_topology_ref e) n port (with_ingress (en_ingress e) p) (en_parameter e)
                (MkRouting (host_heap x1) (Some empty_report) 0 0)) as Hn.
  destruct (Emit _ _ _ _ _ _ _ _) as [st ro]. simpl in Hn. pose proof (good_nodes _ _ Hn H1) as H2.
  destruct (List.find _ _); [destruct (default [] _) as [|f l]; [|by apply IH]|]; (case_bool_decide; [by apply IH|]); (destruct (_ && _); [done|by apply IH]).
Qed.
Lemma emit_gap_good now e ports : forall s, good s.2 -> good (fold_left (emit_gap current_ingress now e) ports s).2.
Proof.
  induction ports as [|p ports IH]; intros s H; [done|]. simpl. apply IH. unfold emit_gap.
  pose proof (emit_nodes now (current_ingress (en_node e)) (en_topology_ref e) (node_at (en_node e) s.2) p (gap_packet e) (en_parameter e)
                (MkRouting (host_heap s.2) (Some s.1) 0 0)) as Hn. destruct (Emit _ _ _ _ _ _ _ _). simpl in *. by apply good_nodes.
Qed.
Lemma deliver_entry_returns now e ev session a x : good x -> exists a' x', DeliverEntry address current_ingress now e ev session a x = Some (a', x') /\ good x'.
Proof.
  intros H. unfold DeliverEntry. destruct (negb (StatusOps.ok _)).
  { destruct (cancelled_ _); [by eexists _, _|]. destruct (fail_node_returns now (en_session e) session (en_node e) (ce_status ev) x H) as (x' & -> & ?). by eexists _, _. }
  destruct (_ || _); [by eexists _, _|]. pose proof (deliver_outputs_good now e (ce_outputs ev) empty_report [] x H) as H1.
  destruct (deliver_outputs _ _ _ _ _ _ _) as [[[[st|] report] parked] x1]; simpl in H1.
  - destruct (fail_node_returns now (en_session e) session (en_node e) st x1 H1) as (x' & -> & ?). by eexists _, _.
  - destruct (hook_emit_returns e session report x1 H1) as (x' & -> & ?). by eexists _, _.
Qed.
Lemma emit_gap_returns now e session a x : good x -> exists a' x', EmitGap current_ingress now e session a x = Some (a', x') /\ good x'.
Proof.
  intros H. unfold EmitGap. match goal with |- context [on_node ?f ?r x] => pose proof (good_on f r x H) as H1 end. set (x1 := on_node _ _ _) in *.
  destruct (cancelled_ _); [by eexists _, _|].
  match goal with |- context [fold_left ?f ?l ?s] => pose proof (emit_gap_good now e l s H1) as H2; destruct (fold_left f l s) as [report x2] end. simpl in H2.
  destruct (hook_emit_returns e session report x2 H2) as (x' & -> & ?). by eexists _, _.
Qed.
Lemma deliver_one_returns now e a x : good x -> (en_node e < nodes_of x)%nat -> exists a' x', deliver_one address current_ingress now e a x = Some (a', x') /\ good x'.
Proof.
  intros H Hn. unfold deliver_one. set (a1 := record_finished e _).
  assert (E : exists a2 x2, (match en_result e with Some ev => DeliverEntry address current_ingress now e ev (attached (en_session e) a) a1 x
    | None => EmitGap current_ingress now e (attached (en_session e) a) a1 x end) = Some (a2, x2) /\ good x2 /\ keeps x x2).
  { destruct (en_result e) as [ev|].
    - destruct (deliver_entry_returns now e ev (attached (en_session e) a) a1 x H) as (a2 & x2 & E & G). eexists _, _. split; [exact E|]. split; [done|].
      by apply deliver_entry_aside in E as [_ E].
    - destruct (emit_gap_returns now e (attached (en_session e) a) a1 x H) as (a2 & x2 & E & G). eexists _, _. split; [exact E|]. split; [done|]. by apply emit_gap_aside in E as [_ E]. }
  destruct E as (a2 & x2 & E & G & [L _]). rewrite E. simpl. destruct (finish_returns now e (attached (en_session e) a) x2 G) as (x3 & -> & G3); [unfold nodes_of in *; lia|].
  by eexists _, _.
Qed.

Lemma deliver_one_flight now e a x a' x' : deliver_one address current_ingress now e a x = Some (a', x') -> as_in_flight a' = as_in_flight a.
Proof.
  unfold deliver_one. set (a1 := record_finished e _).
  destruct (match en_result e with Some ev => _ | None => _ end) as [[a2 x2]|] eqn:E; [|done]. simpl. destruct (finish _ _ _ _); [|done]. intros [= <- _].
  destruct (en_result e); [apply deliver_entry_aside in E as [E _]|apply emit_gap_aside in E as [E _]]; by injection E as _ _ -> _ _ _.
Qed.
Lemma leads_fine s s' : leads address s s' -> good s'.2 -> fine s -> fine s'.
Proof. intros H G [B _]. split; [|done]. apply (moves_booked address s s'); [apply H, B|exact B]. Qed.
Lemma loop_returns {A S} (I : S -> Prop) (f : A -> S -> option S) l :
  (forall y s, y ∈ l -> I s -> exists s', f y s = Some s' /\ I s') -> forall s, I s -> exists s', loop f l s = Some s' /\ I s'.
Proof.
  induction l as [|y l IH]; intros Hf s Hs; [by eexists|]. destruct (Hf y s ltac:(left) Hs) as (s1 & E & H1). simpl. rewrite E. simpl.
  apply IH; [|done]. intros z t Hz. apply Hf. by right.
Qed.
Lemma entry_node a x id e : booked address a x -> SMap.find id (as_in_flight a) = Some e -> (en_node e < nodes_of x)%nat.
Proof.
  intros B Hf. apply SMap.find_In, list_elem_of_In in Hf. pose proof (bk_entries _ _ _ B) as F. rewrite Forall_forall in F. apply (F _ Hf).
Qed.

Lemma deliver_ready_returns fuel now : forall any a x, (List.length (as_in_flight a) < fuel)%nat -> fine (a, x) ->
  exists any' a' x', deliver_ready address current_ingress fuel now any a x = Some (any', a', x') /\ fine (a', x').
Proof.
  induction fuel as [|fuel IH]; intros any a x Hl [B G]; [lia|]. simpl in *.
  pose proof (take_ready_spec (as_in_flight a) (as_blocked a) (as_reorder a) (SMap.sorted_keys_NoDup _ (bk_tidy _ _ _ B))) as Hr.
  pose proof (take_ready_shrunk (as_in_flight a) (as_blocked a) (as_reorder a)) as Hs.
  destruct (take_ready _ _ _) as [l [[id e]|]]; simpl in Hs.
  - destruct Hr as (Hf & _ & k & _ & Hk & Hk'). pose proof (entry_node _ _ _ _ B Hf) as Hn. set (a1 := on_in_flight _ _).
    destruct (deliver_one_returns now e a1 x G Hn) as (a2 & x2 & E & G2). rewrite E. simpl. pose proof (deliver_one_flight _ _ _ _ _ _ E) as Hfl.
    apply (deliver_one_finish _ _ _ k) in E; [|done..]. apply IH; [|split; [by apply (move_booked address _ _ E)|done]]. rewrite Hfl. simpl.
    destruct (erase_present id e _ (bk_sorted _ _ _ B) Hf) as (l1 & l2 & E1 & -> & _). rewrite E1 in Hl. rewrite !length_app in *. simpl in *. lia.
  - eexists _, _, _. split; [done|]. split; [|done]. simpl. apply booked_tidy; [done|apply Hr|done].
Qed.
Lemma deliver_returns now a x : fine (a, x) -> exists any a' x', DeliverReady address current_ingress now a x = Some (any, a', x') /\ fine (a', x').
Proof. apply deliver_ready_returns. lia. Qed.

Lemma completion_returns now ev s : fine s -> exists s', complete_one address current_ingress now ev s = Some s' /\ fine s'.
Proof.
  destruct s as [a x]. intros F. unfold complete_one. simpl.
  assert (E : exists a1 x1, OnCompletion now ev a x = Some (a1, x1) /\ good x1).
  { destruct F as [B G]. simpl in *. unfold OnCompletion. destruct (SMap.find _ _) as [e|]; [|by eexists _, _]. destruct (en_done e); [by eexists _, _|].
    destruct (negb (matches ev e)); [by eexists _, _|]. destruct (_ && _); [|by eexists _, _].
    match goal with |- context [fail_node ?n ?s ?k ?r ?st x] => destruct (fail_node_returns n s k r st x G) as (x1 & -> & ?) end. by eexists _, _. }
  destruct E as (a1 & x1 & E & G1). rewrite E. simpl. apply (on_completion_leads address) in E. pose proof (leads_fine _ _ E G1 F) as F1.
  destruct (deliver_returns now a1 x1 F1) as (any & a2 & x2 & -> & F2). by eexists.
Qed.
Lemma drain_returns now a x : fine (a, x) -> exists any a' x', DrainCompletions address current_ingress now a x = Some (any, a', x') /\ fine (a', x').
Proof.
  intros [B G]. unfold DrainCompletions. simpl. set (a1 := on_queue _ a). assert (F1 : fine (a1, x)) by (split; [by eapply booked_aside; [|reflexivity|exact B]|done]).
  destruct (loop_returns fine (complete_one address current_ingress now) (cq_events (as_queue a)) (fun y s _ => completion_returns now y s) (a1, x) F1) as ([a2 x2] & -> & F2).
  by eexists _, _, _.
Qed.

Lemma retry_one_returns kb s : good s.2 -> exists s', retry_one kb s = Some s' /\ good s'.2.
Proof.
  destruct kb as [k b], s as [[any a] x]. simpl. intros G.
  pose proof (retry_pushes_nodes (cancelled_ (node_at (bl_node b) x)) (bl_pushes b) [] [] any (host_heap x)) as Hn.
  destruct (retry_pushes _ _ _ _ _ _) as [[[still targets] any'] h]. simpl in Hn. pose proof (good_nodes _ _ Hn G) as G1.
  destruct (_ && _); [|by eexists]. destruct (after_emit_returns (bl_session b) (MkReport 0 0 0 0 [] targets None) _ G1) as (x2 & -> & G2). by eexists.
Qed.
Lemma retry_returns a x : fine (a, x) -> exists any a' x', RetryBlockedOutputs a x = Some (any, a', x') /\ fine (a', x').
Proof.
  intros F. unfold RetryBlockedOutputs.
  destruct (loop_returns (fun s : bool * AsyncRuntime * X => fine (s.1.2, s.2)) retry_one (as_blocked a)) with (s := (false, a, x)) as ([[any a2] x2] & E & F2); [|done|].
  - intros kb s _ F1. destruct (retry_one_returns kb s (proj2 F1)) as (s' & E & G). exists s'. split; [done|]. by apply (leads_fine _ _ (retry_one_leads address _ _ _ E)).
  - by eexists _, _, _.
Qed.

Lemma run_submission_returns k (y : submission W) : forall a, exists r, run_submission (Some k) y a = Some r.
Proof. induction y as [st w|ev next IH]; intros a; simpl; [by eexists|]. destruct (SinkPush k ev a) as [st a1]. apply IH. Qed.
Lemma flush_one_returns now id size x ip s : booked address s.1.2 x -> exists s', flush_one op_submit now id size x ip s = Some s' /\ booked address s'.1.2 x.
Proof.
  intros B. assert (E : exists s', flush_one op_submit now id size x ip s = Some s').
  { destruct s as [[w a] failed], ip as [i p]. simpl in *. destruct (SMap.find (pe_id p) (as_in_flight a)) as [e|] eqn:E; [|by eexists].
    assert (Hs : attached (en_session e) a = true).
    { apply SMap.find_In, list_elem_of_In in E. pose proof (bk_served _ _ _ B) as F. rewrite Forall_forall in F. apply (F _ E). }
    unfold attached, SMap.contains in Hs. destruct (SMap.find (en_session e) (as_sessions a)) as [se|] eqn:Es; [|done]. simpl.
    destruct (cancelled_ _); simpl; [by eexists|]. match goal with |- context [run_submission (Some ?k) ?y ?b] => destruct (run_submission_returns k y b) as [[[st w1] a1] ->] end.
    simpl. destruct (StatusOps.ok st); by eexists. }
  destruct E as [s' E]. exists s'. split; [done|]. apply (flush_one_leads op_submit address) in E. apply (moves_booked address (s.1.2, x) (s'.1.2, x)); [apply E, B|exact B].
Qed.
Lemma flush_returns now members s : fine (s.1.2, s.2) -> exists s', FlushBatch op_submit now members s = Some s' /\ fine (s'.1.2, s'.2).
Proof.
  destruct s as [[w a] x]. intros F. unfold FlushBatch. destruct members as [|p l]; [by eexists|]. set (a1 := on_counters _ _).
  assert (F1 : fine (a1, x)) by (split; [by eapply booked_aside; [|reflexivity|apply F]|apply F]).
  destruct (loop_returns (fun s : W * AsyncRuntime * list (nat * Z * bool * Status) => booked address s.1.2 x)
    (flush_one op_submit now (as_next_batch a) (Word.u32 (Z.of_nat (List.length (p :: l)))) x) (numbered (p :: l))
    (fun y s _ => flush_one_returns now _ _ x y s) (w, a1, []) (proj1 F1)) as ([[w2 a2] failed] & -> & B2). simpl.
  destruct (loop_returns (fun y => good y /\ keeps x y) (fun '(r, session, known, st) x => fail_node now session known r st x) failed) with (s := x) as (x3 & -> & G3 & K3).
  - intros [[[r sn] known] st] y _ [Gy Ky]. destruct (fail_node_returns now sn known r st y Gy) as (y' & E & G). exists y'. split; [done|]. split; [done|].
    etrans; [exact Ky|]. by eapply fail_node_keeps.
  - split; [apply F|reflexivity].
  - eexists. split; [done|]. split; [|done]. by eapply booked_aside; [|exact K3|exact B2].
Qed.
Lemma flush_due_returns now s : fine (s.1.2, s.2) -> exists any s', FlushDueBatches op_submit now s = Some (any, s') /\ fine (s'.1.2, s'.2).
Proof.
  destruct s as [[w a] x]. intros F. unfold FlushDueBatches. set (a1 := on_batches _ a). set (due := List.filter _ _).
  assert (F1 : fine (a1, x)) by (split; [by eapply booked_aside; [|reflexivity|apply F]|apply F]).
  destruct (loop_returns (fun s : W * AsyncRuntime * X => fine (s.1.2, s.2)) (fun kv : BatchKey * list Pending => FlushBatch op_submit now kv.2) due
    (fun y s _ => flush_returns now y.2 s) (w, a1, x) F1) as (s' & -> & F'). by eexists _, s'.
Qed.

Lemma pump_returns now later s : fine (s.1.2, s.2) -> exists any s', Pump op_submit address current_ingress now later s = Some (any, s') /\ fine (s'.1.2, s'.2).
Proof.
  intros F. unfold Pump. destruct (flush_due_returns now s F) as (p1 & [[w1 a1] x1] & -> & F1). simpl in *.
  destruct (retry_returns a1 x1 F1) as (p2 & a2 & x2 & -> & F2). simpl. destruct (drain_returns now a2 x2 F2) as (p3 & a3 & x3 & -> & F3). simpl.
  pose proof (expire_leads address later a3 x3) as E4. destruct (ExpireDeadlines later a3) as [p4 a4]. simpl in E4.
  pose proof (leads_fine _ _ E4 (proj2 F3) F3) as F4. destruct (deliver_returns later a4 x3 F4) as (p5 & a5 & x5 & -> & F5). by eexists _, _.
Qed.

End progress.
