(* ===== verification/AsyncBatches.v ===== *)
(** Batches of the asynchronous runtime: a request that was not handed to its
    operator yet is parked in exactly one batch, with requests of the same
    parameters, and a round of the consumer flushes every batch that is due. *)

From stdpp Require Import base numbers list strings gmap option relations sorting.
From Stdlib Require Import ZArith Lia Ascii String Permutation.
From S2P Require Import Prelude Types Double Json GraphSpec CapabilityTypes Packet EdgeChannel InputBinding NodeRuntime RuntimeTopology Coordinator Scheduler SchedulerInvoke SchedulerProofs SchedulerSamples AsyncRuntime AsyncProofs AsyncHost AsyncSamples AsyncAccounts AsyncProgress.

Local Open Scope string_scope.
Local Open Scope Z_scope.
#[local] Set Default Proof Using "Type*".

(** ** What leaves the batches alone *)

Definition rests (a a' : AsyncRuntime) : Prop :=
  as_batches a' = as_batches a /\ as_next_request a' = as_next_request a /\
  forall id e', SMap.find id (as_in_flight a') = Some e' -> exists e, SMap.find id (as_in_flight a) = Some e /\ en_submitted e' = en_submitted e.
#[export] Instance rests_preorder : PreOrder rests.
Proof.
  split; [intros a; repeat split; by eauto|]. intros a b c (H1 & H2 & H3) (I1 & I2 & I3). split; [congruence|]. split; [congruence|].
  intros id e H. apply I3 in H as (e1 & H & ->). by apply H3.
Qed.
Lemma rests_same a a' : as_batches a' = as_batches a -> as_next_request a' = as_next_request a -> as_in_flight a' = as_in_flight a -> rests a a'.
Proof. intros H1 H2 H3. split; [done|]. split; [done|]. rewrite H3. by eauto. Qed.
Lemma rests_set id e e' a : SMap.find id (as_in_flight a) = Some e -> en_submitted e' = en_submitted e -> rests a (on_in_flight (SMap.set id e') a).
Proof.
  intros Hf He. split; [done|]. split; [done|]. simpl. intros i e1. rewrite SMap.find_set. case_decide; [intros [= <-]; subst; by exists e|by eauto].
Qed.
Lemma rests_erase id a : rests a (on_in_flight (SMap.erase id) a).
Proof.
  split; [done|]. split; [done|]. simpl. intros i e1. destruct (decide (i = id)) as [->|Hn]; [by rewrite SMap.find_erase_eq|]. rewrite SMap.find_erase_ne by done. by eauto.
Qed.
Lemma rests_tables a a' : tables a' = tables a -> as_batches a' = as_batches a -> rests a a'.
Proof. intros [= H1 H2 H3 H4 H5 H6] H. by apply rests_same. Qed.

Section rests.
Context {X : Type} `{!Host X} `{!HostLaws X} {W : Type} (op_submit : W -> nat -> SubmitRequest -> submission W).
Context (address current_ingress : nat -> Z).

Lemma park_batches e l a : as_batches (park address e l a) = as_batches a.
Proof. by destruct l. Qed.
Lemma deliver_entry_batches now e ev session a (x : X) a' x' :
  DeliverEntry address current_ingress now e ev session a x = Some (a', x') -> as_batches a' = as_batches a.
Proof.
  unfold DeliverEntry. intros H. destruct (negb (StatusOps.ok _)); [destruct (cancelled_ _); by simplify_option_eq|].
  destruct (_ || _); [by simplify_eq|]. destruct (deliver_outputs _ _ _ _ _ _ _) as [[[[st|] report] parked] x1]; simplify_option_eq; [done|apply park_batches].
Qed.
Lemma emit_gap_batches now e session a (x : X) a' x' : EmitGap current_ingress now e session a x = Some (a', x') -> as_batches a' = as_batches a.
Proof.
  unfold EmitGap. intros H. destruct (cancelled_ _); [by simplify_eq|]. destruct (fold_left _ _ _) as [report x2]. by simplify_option_eq.
Qed.
Lemma deliver_one_rests now e a (x : X) a' x' : deliver_one address current_ingress now e a x = Some (a', x') -> rests a a'.
Proof.
  unfold deliver_one. set (a1 := record_finished e _).
  destruct (match en_result e with Some ev => _ | None => _ end) as [[a2 x2]|] eqn:E; [|done]. simpl. destruct (finish _ _ _ _); [|done]. intros [= <- _].
  transitivity a1; [by apply rests_same|]. apply rests_tables.
  - destruct (en_result e); [by apply deliver_entry_aside in E as [E _]|by apply emit_gap_aside in E as [E _]].
  - destruct (en_result e); [by apply deliver_entry_batches in E|by apply emit_gap_batches in E].
Qed.
Lemma deliver_ready_rests fuel now : forall any a (x : X) any' a' x', deliver_ready address current_ingress fuel now any a x = Some (any', a', x') -> rests a a'.
Proof.
  induction fuel as [|fuel IH]; intros any a x any' a' x'; [done|]. simpl. destruct (take_ready _ _ _) as [l [[id e]|]]; [|intros [= _ <- _]; by apply rests_same].
  destruct (deliver_one _ _ _ _ _ _) as [[a1 x1]|] eqn:E; [|done]. simpl. intros H. apply IH in H. apply deliver_one_rests in E.
  etrans; [|exact H]. etrans; [|exact E]. etrans; [|apply rests_erase]. by apply rests_same.
Qed.
Lemma on_completion_rests now ev a (x : X) a' x' : OnCompletion now ev a x = Some (a', x') -> rests a a'.
Proof.
  unfold OnCompletion. destruct (SMap.find _ _) as [e|] eqn:E; [|intros [= <- _]; by apply rests_same]. destruct (en_done e); [intros [= <- _]; by apply rests_same|].
  destruct (negb _); [intros [= <- _]; by apply rests_same|]. destruct (if _ && _ then _ else _); simpl; [|done]. intros [= <- _]. by eapply rests_set.
Qed.
Lemma complete_one_rests now ev (s s' : AsyncRuntime * X) : complete_one address current_ingress now ev s = Some s' -> rests s.1 s'.1.
Proof.
  unfold complete_one. destruct (OnCompletion _ _ _ _) as [[a1 x1]|] eqn:E; [|done]. simpl. destruct (DeliverReady _ _ _ _ _) as [[[? a2] x2]|] eqn:E2; [|done].
  intros [= <-]. apply on_completion_rests in E. apply deliver_ready_rests in E2. by etrans.
Qed.
Lemma drain_rests now a (x : X) any a' x' : DrainCompletions address current_ingress now a x = Some (any, a', x') -> rests a a'.
Proof.
  unfold DrainCompletions. simpl. destruct (loop _ _ _) as [[a1 x1]|] eqn:E; [|done]. intros [= _ <- _].
  pose proof (preimage (fun s : AsyncRuntime * X => s.1) rests _) as P. apply (loop_preorder _ _ _ (complete_one_rests now)) in E. simpl in E. etrans; [|exact E]. by apply rests_same.
Qed.
Lemma retry_one_rests kb (s s' : bool * AsyncRuntime * X) : retry_one kb s = Some s' -> rests s.1.2 s'.1.2.
Proof.
  destruct kb as [k b], s as [[any a] x]. unfold retry_one. destruct (retry_pushes _ _ _ _ _ _) as [[[still targets] any'] h]. destruct (if _ && _ then _ else _); simpl; [|done].
  intros [= <-]. by apply rests_same.
Qed.
Lemma retry_rests a (x : X) any a' x' : RetryBlockedOutputs a x = Some (any, a', x') -> rests a a'.
Proof.
  unfold RetryBlockedOutputs. intros H. pose proof (preimage (fun s : bool * AsyncRuntime * X => s.1.2) rests _) as P.
  by apply (loop_preorder _ _ _ retry_one_rests) in H.
Qed.
Lemma expire_rests now a : rests a (ExpireDeadlines now a).2.
Proof.
  unfold ExpireDeadlines. assert (H : forall (l : list (ReorderKey * list Z)) any fl, rests (on_in_flight (fun _ => fl) a)
    (on_in_flight (fun _ => (fold_left (fun l kv => expire_head now kv.2 l) l (any, fl)).2) a)).
  { induction l as [|[k o] l IH]; intros any fl; [done|]. simpl. destruct o as [|id o]; [apply IH|]. simpl.
    destruct (SMap.find id fl) as [e|] eqn:E; [|apply IH]. destruct (expired now e); [|apply IH]. etrans; [|apply IH].
    by apply (rests_set id e (finished_with None e) (on_in_flight (fun _ => fl) a)). }
  specialize (H (as_reorder a) false (as_in_flight a)). destruct (fold_left _ _ _) as [any fl]. by destruct a.
Qed.

(** Everything of a round but the flush. *)
Lemma pump_rests now later s any s' : Pump op_submit address current_ingress now later s = Some (any, s') ->
  exists any1 s1, FlushDueBatches op_submit now s = Some (any1, s1) /\ rests s1.1.2 s'.1.2.
Proof.
  unfold Pump. destruct (FlushDueBatches _ _ _) as [[p1 [[w a] x]]|]; [|done]. simpl. intros H. eexists _, _. split; [done|]. simpl.
  destruct (RetryBlockedOutputs _ _) as [[[p2 a2] x2]|] eqn:E2; [|done]. simpl in H. apply retry_rests in E2.
  destruct (DrainCompletions _ _ _ _ _) as [[[p3 a3] x3]|] eqn:E3; [|done]. simpl in H. apply drain_rests in E3.
  pose proof (expire_rests later a3) as E4. destruct (ExpireDeadlines later a3) as [p4 a4]. simpl in E4.
  destruct (DeliverReady _ _ _ _ _) as [[[p5 a5] x5]|] eqn:E5; [|done]. apply deliver_ready_rests in E5. injection H as _ <-. simpl.
  etrans; [exact E2|]. etrans; [exact E3|]. by etrans.
Qed.

End rests.

(** ** The invariant *)

Definition parked_ids (l : list (BatchKey * list Pending)) : list Z := List.concat (map (fun kv => map pe_id kv.2) l).

(** [hand] are the requests of batches that were taken out to be flushed. *)
Record batched (hand : list Z) (a : AsyncRuntime) : Prop := {
  ba_sorted : SMap.sorted (as_batches a);
  ba_once : NoDup (parked_ids (as_batches a) ++ hand);
  ba_known : forall id, id ∈ (parked_ids (as_batches a) ++ hand)%list -> id < as_next_request a;
  ba_waits : forall id e, SMap.find id (as_in_flight a) = Some e -> en_submitted e = None <-> id ∈ (parked_ids (as_batches a) ++ hand)%list;
  ba_alike : forall k l p, (k, l) ∈ as_batches a -> p ∈ l -> Json.Serialize (ps_values (pe_parameters p)) = k.2.2;
}.

Lemma batched_rests hand a a' : rests a a' -> batched hand a -> batched hand a'.
Proof.
  intros (H1 & H2 & H3) [B1 B2 B3 B4 B5]. split; rewrite ?H1, ?H2; try done. intros id e He. apply H3 in He as (e0 & He & ->). by apply B4.
Qed.

(** A member of a batch that is flushed. *)
Lemma batched_submit id e e' hand a : SMap.find id (as_in_flight a) = Some e -> en_submitted e' <> None -> batched (id :: hand) a ->
  batched hand (on_in_flight (SMap.set id e') a).
Proof.
  intros Hf He [B1 B2 B3 B4 B5]. rewrite <- Permutation_middle in B2. apply NoDup_cons in B2 as [Hn B2]. split; try done; simpl.
  - intros i Hi. apply B3. rewrite <- Permutation_middle. by right.
  - intros i e1. rewrite SMap.find_set. case_decide as D.
    + subst i. intros [= <-]. split; [done|]. by intros ?.
    + intros H. rewrite (B4 _ _ H), <- Permutation_middle, elem_of_cons. split; [intros [->|?]; done|by right].
Qed.
Lemma batched_gone id hand a : SMap.find id (as_in_flight a) = None -> batched (id :: hand) a -> batched hand a.
Proof.
  intros Hf [B1 B2 B3 B4 B5]. rewrite <- Permutation_middle in B2. apply NoDup_cons in B2 as [Hn B2]. split; try done.
  - intros i Hi. apply B3. rewrite <- Permutation_middle. by right.
  - intros i e1 H. rewrite (B4 _ _ H), <- Permutation_middle, elem_of_cons. split; [intros [->|?]; [congruence|done]|by right].
Qed.

Section batches.
Context {X : Type} `{!Host X} `{!HostLaws X} {W : Type} (op_submit : W -> nat -> SubmitRequest -> submission W).
Context (address current_ingress : nat -> Z).

Lemma sink_push_batches k ev a : as_batches (SinkPush k ev a).2 = as_batches a.
Proof. unfold SinkPush. destruct (default _ _) as [? []]; [|done]. simpl. destruct (Queue.Push _ _) as [st q]. by destruct (StatusOps.ok st). Qed.
Lemma run_submission_batches sink (y : submission W) : forall a st w a', run_submission sink y a = Some (st, w, a') -> as_batches a' = as_batches a.
Proof.
  induction y as [st w|ev next IH]; intros a st' w' a' H; simpl in H; [by simplify_eq|]. destruct sink as [k|]; [|done]. simpl in H.
  pose proof (sink_push_batches k ev a) as Ht. destruct (SinkPush k ev a) as [st a1]. by rewrite (IH _ _ _ _ _ H).
Qed.

Lemma flush_one_batched now id size (x : X) i p hand s s' : flush_one op_submit now id size x (i, p) s = Some s' ->
  as_batches s'.1.2 = as_batches s.1.2 /\ (batched (pe_id p :: hand) s.1.2 -> batched hand s'.1.2).
Proof.
  destruct s as [[w a] failed]. simpl. destruct (SMap.find (pe_id p) (as_in_flight a)) as [e|] eqn:E; [|intros [= <-]; split; [done|by apply batched_gone]].
  intros H. set (a1 := on_in_flight _ a) in H. set (a2 := on_node_counters _ _ a1) in H.
  match type of H with (?m ≫= _) = _ => destruct m as [[[st w1] a3]|] eqn:Em; [|done] end. simpl in H.
  assert (Ht : tables a3 = tables a2 /\ as_batches a3 = as_batches a2).
  { destruct (cancelled_ _); [by simplify_eq|]. split; [by eapply run_submission_tables|by eapply run_submission_batches]. }
  destruct Ht as [Ht Hb]. assert (R : rests a1 s'.1.2) by (destruct (StatusOps.ok st); injection H as <-; by apply rests_tables).
  split; [apply R|]. intros B. apply (batched_rests _ _ _ R). by eapply batched_submit.
Qed.
Lemma flush_all_batched now id size (x : X) hand l : forall s s', loop (flush_one op_submit now id size x) l s = Some s' ->
  as_batches s'.1.2 = as_batches s.1.2 /\ (batched (map (fun ip => pe_id ip.2) l ++ hand) s.1.2 -> batched hand s'.1.2).
Proof.
  induction l as [|[i p] l IH]; intros s s'; cbn [loop]; [by intros [= <-]|]. destruct (flush_one _ _ _ _ _ _ _) as [s1|] eqn:E; [|done]. cbn [mbind option_bind]. intros H.
  apply IH in H as [H1 H2]. apply (flush_one_batched _ _ _ _ _ _ (map (fun ip => pe_id ip.2) l ++ hand)%list) in E as [E1 E2]. split; [congruence|]. intros B. by apply H2, E2.
Qed.
Lemma numbered_ids l : map (fun ip : Z * Pending => pe_id ip.2) (numbered l) = map pe_id l.
Proof. change (map ?f ?l) with (f <$> l). unfold numbered. rewrite fmap_imap. apply (imap_const pe_id). Qed.
Lemma flush_batched now members hand (s s' : W * AsyncRuntime * X) : FlushBatch op_submit now members s = Some s' ->
  as_batches s'.1.2 = as_batches s.1.2 /\ (batched (map pe_id members ++ hand) s.1.2 -> batched hand s'.1.2).
Proof.
  destruct s as [[w a] x]. unfold FlushBatch. destruct members as [|p l]; [by intros [= <-]|]. set (m := p :: l). set (a1 := on_counters _ _). intros H.
  match type of H with (?e ≫= _) = _ => destruct e as [[[w2 a2] failed]|] eqn:E; [|done] end. simpl in H. destruct (loop _ failed x); [|done]. injection H as <-. simpl.
  apply (flush_all_batched _ _ _ _ hand) in E as [E1 E2]. rewrite numbered_ids in E2. split; [done|]. intros B. apply E2. by apply (batched_rests _ a); [apply rests_same|].
Qed.

Lemma parked_app l1 l2 : parked_ids (l1 ++ l2) = (parked_ids l1 ++ parked_ids l2)%list.
Proof. unfold parked_ids. by rewrite map_app, concat_app. Qed.
Lemma parked_perm l1 l2 : Permutation l1 l2 -> Permutation (parked_ids l1) (parked_ids l2).
Proof.
  unfold parked_ids. induction 1; simpl; [done|by apply Permutation_app_head| |by etrans]. rewrite !app_assoc. by apply Permutation_app_tail, Permutation_app_comm.
Qed.
Lemma parked_split f l : Permutation (parked_ids (List.filter (fun kv => negb (f kv)) l) ++ parked_ids (List.filter f l)) (parked_ids l).
Proof.
  rewrite <- parked_app. apply parked_perm. induction l as [|kv l IH]; [done|]. simpl. destruct (f kv); simpl; [|by constructor].
  rewrite <- Permutation_middle. by constructor.
Qed.
Lemma batched_perm hand hand' a : Permutation hand hand' -> batched hand a -> batched hand' a.
Proof.
  intros P [B1 B2 B3 B4 B5]. split; try done.
  - by rewrite <- P.
  - intros id. rewrite <- P. apply B3.
  - intros id e. rewrite <- P. apply B4.
Qed.
(** Requests change between batches and the hand. *)
Lemma batched_exchange l hand hand' a : SMap.sorted l -> (forall k m p, (k, m) ∈ l -> p ∈ m -> Json.Serialize (ps_values (pe_parameters p)) = k.2.2) ->
  Permutation (parked_ids l ++ hand') (parked_ids (as_batches a) ++ hand) -> batched hand a -> batched hand' (on_batches (fun _ => l) a).
Proof.
  intros Hs Hl P [B1 B2 B3 B4 B5]. split; simpl; [done| | | |done].
  - by rewrite P.
  - intros id. rewrite P. apply B3.
  - intros id e. rewrite P. apply B4.
Qed.
Lemma filter_alike f a hand : batched hand a -> forall k m p, (k, m) ∈ List.filter f (as_batches a) -> p ∈ m -> Json.Serialize (ps_values (pe_parameters p)) = k.2.2.
Proof. intros B k m p [Hin _]%list_elem_of_In%filter_In. apply (ba_alike _ _ B). by apply list_elem_of_In. Qed.
Lemma parked_erase k l : SMap.sorted l -> Permutation (parked_ids (SMap.erase k l) ++ map pe_id (default [] (SMap.find k l))) (parked_ids l).
Proof.
  intros Hs. destruct (SMap.find k l) as [m|] eqn:E.
  - destruct (erase_present k m l Hs E) as (l1 & l2 & -> & -> & _). rewrite !parked_app. unfold parked_ids at 4. simpl. fold (parked_ids l2).
    rewrite <- app_assoc. apply Permutation_app_head, Permutation_app_comm.
  - simpl. rewrite app_nil_r. unfold SMap.erase. apply parked_perm. apply SMap.find_None in E. clear Hs. induction l as [|[k0 m] l IH]; [done|]. simpl in *.
    rewrite bool_decide_eq_false_2 by (intros ->; apply E; by left). simpl. constructor. apply IH. naive_solver.
Qed.
Lemma parked_set k m l : SMap.sorted l -> Permutation (parked_ids (SMap.set k m l) ++ map pe_id (default [] (SMap.find k l))) (parked_ids l ++ map pe_id m).
Proof.
  intros Hs. destruct (SMap.find k l) as [m0|] eqn:E.
  - destruct (set_present k m0 m l Hs E) as (l1 & l2 & -> & ->). rewrite !parked_app. unfold parked_ids at 2 4. simpl. fold (parked_ids l2). rewrite <- !app_assoc.
    apply Permutation_app_head. etrans; [apply Permutation_app_comm|]. rewrite (Permutation_app_comm (parked_ids l2)). by rewrite <- app_assoc.
  - simpl. rewrite app_nil_r. rewrite (parked_perm _ _ (set_absent k m l E)). apply Permutation_app_comm.
Qed.

(** A request is accepted. *)
Lemma batched_accept e a b : en_submitted e = None -> SMap.find (as_next_request a) (as_in_flight a) = None -> batched [] a ->
  as_batches b = as_batches a -> as_next_request b = as_next_request a + 1 -> as_in_flight b = (SMap.emplace (as_next_request a) e (as_in_flight a)).1 ->
  batched [as_next_request a] b.
Proof.
  intros He Hf [B1 B2 B3 B4 B5] E1 E2 E3. rewrite app_nil_r in *. split; rewrite ?E1, ?E2, ?E3; try done.
  - apply NoDup_app. split; [done|]. split; [|by apply NoDup_singleton]. intros id Hid ->%list_elem_of_singleton. apply B3 in Hid. lia.
  - intros id [Hid| ->%list_elem_of_singleton]%elem_of_app; [apply B3 in Hid|]; lia.
  - intros id e1. unfold SMap.emplace. rewrite Hf. simpl. rewrite SMap.find_set, elem_of_app, list_elem_of_singleton. case_decide as D.
    + intros [= <-]. split; [by right|done].
    + intros H. rewrite (B4 _ _ H). split; [by left|]. intros [?| ->]; done.
Qed.
Lemma enqueue_batched now args n a : 0 <= as_next_request a -> as_next_request a + 1 < 2 ^ 64 -> SMap.find (as_next_request a) (as_in_flight a) = None ->
  batched [] a -> batched (map pe_id (enqueue address now args n a).1.2) (enqueue address now args n a).2.
Proof.
  intros H0 H1 Hf B. pose proof (Word.u64_small (as_next_request a + 1) ltac:(split; lia)) as Hu. unfold enqueue. set (e := new_entry _ _ _ _ _). set (key := batch_key _ _).
  set (b := on_counters _ _). assert (Bb : batched [as_next_request a] b) by (by apply (batched_accept e a)). set (old := default [] (SMap.find key (as_batches b))).
  destruct (_ && _ && _ && _); [|exact Bb].
  pose proof (ba_sorted _ _ Bb) as Hs. destruct (_ <=? _); simpl.
  - apply (batched_exchange _ [as_next_request a]); [by apply SMap.erase_sorted|by eapply filter_alike| |exact Bb]. rewrite map_app, app_assoc. simpl.
    apply Permutation_app_tail. by apply parked_erase.
  - apply (batched_exchange _ [as_next_request a]); [by apply SMap.set_sorted| | |exact Bb].
    + intros k m p Hin Hp. apply list_elem_of_In in Hin. destruct (decide (k = key)) as [->|Hne].
      * apply SMap.sorted_In_find in Hin; [|by apply SMap.set_sorted]. rewrite SMap.find_set_eq in Hin. injection Hin as <-.
        apply elem_of_app in Hp as [Hp| ->%list_elem_of_singleton]; [|done]. unfold old in Hp. destruct (SMap.find key (as_batches b)) as [m0|] eqn:E; [|by apply not_elem_of_nil in Hp].
        apply SMap.find_In, list_elem_of_In in E. by eapply (ba_alike _ _ Bb).
      * apply SMap.sorted_In_find in Hin; [|by apply SMap.set_sorted]. rewrite SMap.find_set_ne in Hin by done. apply SMap.find_In, list_elem_of_In in Hin. by eapply (ba_alike _ _ Bb).
    + rewrite app_nil_r. match goal with |- context [SMap.set key ?m _] => pose proof (parked_set key m (as_batches b) Hs) as P end. fold old in P. rewrite map_app, app_assoc in P.
      apply (Permutation_app_inv_r (map pe_id old)). etrans; [exact P|]. simpl. rewrite <- !app_assoc. apply Permutation_app_head, Permutation_app_comm.
Qed.

Lemma flush_due_batched now (s : W * AsyncRuntime * X) any s' : FlushDueBatches op_submit now s = Some (any, s') -> batched [] s.1.2 ->
  batched [] s'.1.2 /\ as_batches s'.1.2 = List.filter (fun kv => negb (existsb (fun p => pe_due p <=? now) kv.2)) (as_batches s.1.2).
Proof.
  destruct s as [[w a] x]. unfold FlushDueBatches. simpl. set (due := List.filter _ (as_batches a)). set (rest := List.filter (fun kv => negb _) (as_batches a)).
  destruct (loop _ _ _) as [s1|] eqn:E; [|done]. intros [= _ <-] B.
  assert (B1 : batched (parked_ids due) (on_batches (fun _ => rest) a)).
  { apply (batched_exchange _ []); [eapply sorted_sublist; [apply filter_keys_sublist|apply B]|by eapply filter_alike| |done]. rewrite app_nil_r. apply parked_split. }
  assert (L : forall l s s', loop (fun kv : BatchKey * list Pending => FlushBatch op_submit now kv.2) l s = Some s' ->
    as_batches s'.1.2 = as_batches s.1.2 /\ (batched (parked_ids l) s.1.2 -> batched [] s'.1.2)).
  { clear E B B1 s1. induction l as [|[k m] l IH]; intros s s'; cbn [loop]; [by intros [= <-]|]. destruct (FlushBatch _ _ _ _) as [s1|] eqn:E; [|done]. cbn [mbind option_bind]. intros H.
    apply IH in H as [H1 H2]. apply (flush_batched _ _ (parked_ids l)) in E as [E1 E2]. split; [congruence|]. intros B. by apply H2, E2. }
  apply L in E as [E1 E2]. split; [by apply E2|done].
Qed.

(** A session leaves with its requests. *)
Lemma parked_filter g l : parked_ids (List.filter (fun kv => negb (bool_decide (kv.2 = [])))
    (map (fun kv : BatchKey * list Pending => (kv.1, List.filter (fun p => g (pe_id p)) kv.2)) l)) = List.filter g (parked_ids l).
Proof.
  induction l as [|[k m] l IH]; [done|]. unfold parked_ids in *. simpl. rewrite List.filter_app.
  assert (E : map pe_id (List.filter (fun p => g (pe_id p)) m) = List.filter g (map pe_id m)).
  { clear. induction m as [|p m IH]; [done|]. simpl. destruct (g (pe_id p)); simpl; by rewrite IH. }
  rewrite <- E. case_bool_decide as D; simpl; [by rewrite D|]. by rewrite IH.
Qed.
Lemma forget_batched session k (a : AsyncRuntime) (x : X) : booked address a x -> batched [] a -> batched [] (forget session k a).
Proof.
  clear op_submit current_ingress. intros Bk [B1 B2 B3 B4 B5]. rewrite app_nil_r in *. set (g := fun id => negb (belongs session a id)).
  assert (Hp : parked_ids (as_batches (forget session k a)) = List.filter g (parked_ids (as_batches a))) by exact (parked_filter g (as_batches a)).
  assert (Hin : forall id, id ∈ parked_ids (as_batches (forget session k a)) <-> id ∈ parked_ids (as_batches a) /\ g id = true).
  { intros id. by rewrite Hp, !list_elem_of_In, filter_In. }
  split; rewrite ?app_nil_r.
  - simpl. eapply sorted_sublist; [apply filter_keys_sublist|]. unfold SMap.sorted in *. change (@fmap list _ ?A ?B fst) with (@map A B fst). rewrite map_map. exact B1.
  - rewrite Hp. apply NoDup_ListNoDup, List.NoDup_filter. by apply NoDup_ListNoDup.
  - intros id [Hid _]%Hin. by apply B3.
  - intros id e He. rewrite Hin. simpl in He. apply SMap.find_In, filter_In in He as [He Hs]. apply SMap.sorted_In_find in He; [|apply Bk]. rewrite (B4 _ _ He).
    unfold g, belongs. rewrite He. simpl in Hs. rewrite Hs. tauto.
  - simpl. intros k' m p [Hk _]%list_elem_of_In%filter_In. apply in_map_iff in Hk as ([k0 m0] & [= <- <-] & Hk). intros [Hm _]%list_elem_of_In%filter_In. apply (B5 k0 m0); by apply list_elem_of_In.
Qed.
Lemma detach_batched now session a (x : X) a' x' : booked address a x -> DetachSession now session a x = Some (a', x') -> batched [] a -> batched [] a'.
Proof.
  intros Bk. unfold DetachSession. destruct (SMap.find _ _) as [se|]; [|by intros [= <- _]]. intros H B. apply (forget_batched session (se_sink se) a x Bk) in B.
  pose proof (preimage (fun s : AsyncRuntime * X => s.1) rests _) as P.
  assert (D : forall e s s', drop_entry now e s = Some s' -> rests s.1 s'.1) by (intros e [b y] s'; unfold drop_entry; destruct (finish _ _ _ _); [|done]; intros [= <-]; by apply rests_same).
  apply (loop_preorder _ _ _ D) in H. by apply (batched_rests _ _ _ H).
Qed.

(** ** Histories *)

Lemma next_fresh (a : AsyncRuntime) (x : X) : booked address a x -> SMap.find (as_next_request a) (as_in_flight a) = None.
Proof.
  intros B. apply SMap.find_None. intros (kv & E & Hin)%in_map_iff. pose proof (bk_entries _ _ _ B) as F. rewrite Forall_forall in F.
  apply list_elem_of_In in Hin. destruct (F _ Hin) as (_ & H & _). lia.
Qed.
Lemma operates_batched s s' : operates op_submit address current_ingress s s' -> booked address s.1.2 s.2 -> batched [] s.1.2 -> batched [] s'.1.2.
Proof.
  intros H Bk B. destruct H as [session batching w a x|now session w a x a' x' H|now args w a x id s Ha Hn Hlt H|now later any s s' H|k ev w a x|w a x x' _]; simpl in *.
  - apply (batched_rests _ a); [|done]. by apply rests_same.
  - by eapply detach_batched.
  - unfold Submit in H. pose proof (enqueue_batched now args (node_at (sa_node args) (on_node Node.BeginAsync (sa_node args) x)) a (proj1 (bk_next _ _ _ Bk)) Hlt (next_fresh _ _ Bk) B) as B1.
    destruct (enqueue _ _ _ _ _) as [[id' ready] a1]. simpl in B1. destruct ready as [|p l]; [injection H as _ <-; by apply (batched_rests _ a1); [apply rests_same|]|].
    destruct (FlushBatch _ _ _ _) as [s1|] eqn:E; [|done]. injection H as _ <-. apply (flush_batched _ _ []) in E as [_ E]. apply E. by rewrite app_nil_r.
  - apply pump_rests in H as (any1 & s1 & E & R). apply (batched_rests _ _ _ R). by eapply flush_due_batched.
  - apply (batched_rests _ a); [|done]. apply rests_tables; [apply sink_push_tables|apply sink_push_batches].
  - done.
Qed.
Lemma history_batched s s' : starts s -> rtc (operates op_submit address current_ingress) s s' -> batched [] s'.1.2.
Proof.
  intros [[o Ho] Hi] H. assert (B : booked address s.1.2 s.2 /\ batched [] s.1.2).
  { rewrite Ho. split; [by apply make_booked|]. split; simpl; try done; [apply SSorted_nil|apply NoDup_nil_2|intros id Hid|intros k l p Hk]; by apply not_elem_of_nil in Hid || apply not_elem_of_nil in Hk. }
  clear Ho Hi. induction H as [|s1 s2 s3 H _ IH]; [apply B|]. apply IH. destruct B as [B1 B2]. split; [by eapply operates_booked|by eapply operates_batched].
Qed.

(** C23: a request waits in at most one place of one batch, and it does exactly
    as long as it has not been handed to its operator: batching neither loses
    nor repeats a submission. The requests of one batch carry the same
    parameters. *)
Theorem batched_once s s' : starts s -> rtc (operates op_submit address current_ingress) s s' ->
  NoDup (parked_ids (as_batches s'.1.2)) /\
  (forall id e, SMap.find id (as_in_flight s'.1.2) = Some e -> en_submitted e = None <-> id ∈ parked_ids (as_batches s'.1.2)) /\
  (forall k l p q, (k, l) ∈ as_batches s'.1.2 -> p ∈ l -> q ∈ l -> Json.Serialize (ps_values (pe_parameters p)) = Json.Serialize (ps_values (pe_parameters q))).
Proof.
  intros Hs H. destruct (history_batched _ _ Hs H) as [_ B1 _ B2 B3]. rewrite app_nil_r in *. split; [done|]. split; [done|].
  intros k l p q Hk Hp Hq. by rewrite (B3 _ _ _ Hk Hp), (B3 _ _ _ Hk Hq).
Qed.

Lemma pump_delivers now later s any s' : Pump op_submit address current_ingress now later s = Some (any, s') -> tidy s.1.2 ->
  forall k id rest, order k (as_reorder s'.1.2) = id :: rest ->
    SMap.contains k (as_blocked s'.1.2) = true \/ exists e, SMap.find id (as_in_flight s'.1.2) = Some e /\ en_done e = false.
Proof.
  intros H T. assert (P : exists a4 x4 p5, tidy a4 /\ DeliverReady address current_ingress later a4 x4 = Some (p5, s'.1.2, s'.2)).
  { revert H. unfold Pump. destruct (FlushDueBatches _ _ _) as [[p1 [[w a] x]]|] eqn:E1; [|done]. simpl. apply flush_due_leads with (address := address) in E1.
    destruct (RetryBlockedOutputs _ _) as [[[p2 a2] x2]|] eqn:E2; [|done]. simpl. apply retry_leads with (address := address) in E2.
    destruct (DrainCompletions _ _ _ _ _) as [[[p3 a3] x3]|] eqn:E3; [|done]. simpl. apply drain_leads in E3.
    pose proof (expire_leads address later a3 x3) as E4. destruct (ExpireDeadlines later a3) as [p4 a4]. simpl in E4.
    destruct (DeliverReady _ _ _ _ _) as [[[p5 a5] x5]|] eqn:E5; [|done]. intros [= _ <-]. exists a4, x3, p5. split; [|done].
    assert (L : forall b c : AsyncRuntime * X, leads address b c -> tidy b.1 -> tidy c.1) by (intros b c L Tb; by eapply moves_tidy; [apply L|]).
    by apply (L _ _ E4), (L _ _ E3), (L _ _ E2), (L _ _ E1). }
  destruct P as (a4 & x4 & p5 & T4 & D). by eapply deliver_ready_moves in D as [_ D].
Qed.

(** C24: in every reachable state a round of the consumer returns, and it leaves
    nothing behind that was ready: no request that remains in a batch was due,
    and what each node and version waits for next is either not complete yet
    or behind an output that found no room. *)
Theorem Pump_settles (good : X -> Prop) `{!HostReturns X good} s s' now later : starts s -> rtc (operates op_submit address current_ingress) s s' -> good s'.2 ->
  exists any s2, Pump op_submit address current_ingress now later s' = Some (any, s2) /\
    (forall k l p, (k, l) ∈ as_batches s2.1.2 -> p ∈ l -> now < pe_due p) /\
    (forall k id rest, order k (as_reorder s2.1.2) = id :: rest ->
      SMap.contains k (as_blocked s2.1.2) = true \/ exists e, SMap.find id (as_in_flight s2.1.2) = Some e /\ en_done e = false).
Proof.
  intros Hs H G. pose proof (history_booked _ _ _ _ _ Hs H) as Bk. pose proof (history_batched _ _ Hs H) as B.
  destruct (pump_returns op_submit address current_ingress good now later s' (conj Bk G)) as (any & s2 & E & _). exists any, s2. split; [done|].
  split; [|by eapply pump_delivers, bk_tidy].
  apply pump_rests in E as (any1 & s1 & F & [R _]). eapply flush_due_batched in F as [_ F]; [|done]. rewrite R, F.
  intros k l p [_ D]%list_elem_of_In%filter_In Hp%list_elem_of_In. apply negb_true_iff in D. apply not_true_iff_false in D. simpl in D.
  destruct (Z.leb_spec (pe_due p) now) as [L|L]; [|done]. destruct D. apply existsb_exists. exists p. split; [done|]. by apply Z.leb_le.
Qed.

End batches.

(** ** A run with a batch *)

Section one.
Variables (o : AsyncOptions) (x x1 : Scheduler) (w w1 : nat) (a1 : AsyncRuntime) (args : SubmitArgs) (id : Z).
Lemma one_request : acceptable args (a0 o) x -> Submit silent Z.of_nat 0 args (w, a0 o, on_node Node.BeginAsync (sa_node args) x) = Some (id, (w1, a1, x1)) ->
  rtc (operates silent Z.of_nat (fun _ => 0)) (w, make_async o, x) (w1, a1, x1).
Proof. intros (A1 & A2 & A3) H. eapply rtc_l; [apply (op_attach _ _ _ 1 true)|]. eapply rtc_l; [by eapply op_accept, H|]. constructor. Qed.
End one.

Lemma no_retired (s : Scheduler) : sc_retired s = [] -> forallb (fun r => (r <? List.length (h_nodes (sc_heap s)))%nat) (sc_live s) = true -> sound s.
Proof.
  intros H L. split; intros r Hr.
  - rewrite H in Hr. destruct Hr as (v & Hv & _). by apply not_elem_of_nil in Hv.
  - rewrite forallb_forall in L. apply lookup_lt_is_Some, Nat.ltb_lt, L. by apply list_elem_of_In.
Qed.
Definition batch_session : Scheduler := (begun true (model_pipe plain) 1).2.
Lemma batch_run : exists id w1 a1 x1,
  Submit silent Z.of_nat 0 (request 5 batch_session) (0%nat, a0 (async_defaults true), on_node Node.BeginAsync 1 batch_session) = Some (id, (w1, a1, x1)) /\
  parked_ids (as_batches a1) = [1] /\ sc_retired x1 = [] /\
  forallb (fun r => (r <? List.length (h_nodes (sc_heap x1)))%nat) (sc_live x1) = true /\ acceptable (request 5 batch_session) (a0 (async_defaults true)) batch_session.
Proof.
  do 4 eexists. do 4 (split; [vm_compute; reflexivity|]). apply (bool_decide_unpack _); vm_compute; exact I.
Qed.
Lemma batch_starts : starts (0%nat, make_async (async_defaults true), batch_session).
Proof. split; [exact (ex_intro _ (async_defaults true) eq_refl)|]. apply idle_nodes. by vm_compute. Qed.
Lemma batch_history : exists s : state, rtc (operates silent Z.of_nat (fun _ => 0)) (0%nat, make_async (async_defaults true), batch_session) s /\
  parked_ids (as_batches s.1.2) = [1] /\ sound s.2.
Proof.
  destruct batch_run as (id & w1 & a1 & x1 & H & Hp & Hr & Hl & A). exists (w1, a1, x1). split; [exact (one_request _ _ _ _ _ _ _ _ A H)|].
  split; [exact Hp|exact (no_retired _ Hr Hl)].
Qed.

Lemma batched_once_witness : exists s : state, parked_ids (as_batches s.1.2) = [1] /\
  NoDup (parked_ids (as_batches s.1.2)) /\
  (forall id e, SMap.find id (as_in_flight s.1.2) = Some e -> en_submitted e = None <-> id ∈ parked_ids (as_batches s.1.2)) /\
  (forall k l p q, (k, l) ∈ as_batches s.1.2 -> p ∈ l -> q ∈ l -> Json.Serialize (ps_values (pe_parameters p)) = Json.Serialize (ps_values (pe_parameters q))).
Proof.
  destruct batch_history as (s & R & Hp & _). exists s. split; [exact Hp|].
  exact (batched_once silent Z.of_nat (fun _ => 0) (0%nat, make_async (async_defaults true), batch_session) s batch_starts R).
Defined.
Lemma Pump_settles_witness : exists (s : state) any s2, parked_ids (as_batches s.1.2) = [1] /\
  Pump silent Z.of_nat (fun _ => 0) 10000000 10000000 s = Some (any, s2) /\
  (forall k l p, (k, l) ∈ as_batches s2.1.2 -> p ∈ l -> 10000000 < pe_due p) /\
  (forall k id rest, order k (as_reorder s2.1.2) = id :: rest ->
    SMap.contains k (as_blocked s2.1.2) = true \/ exists e, SMap.find id (as_in_flight s2.1.2) = Some e /\ en_done e = false).
Proof.
  destruct batch_history as (s & R & Hp & Hr).
  destruct (Pump_settles silent Z.of_nat (fun _ => 0) sound (0%nat, make_async (async_defaults true), batch_session) s 10000000 10000000 batch_starts R Hr) as (any & s2 & H).
  exists s, any, s2. split; [exact Hp|exact H].
Defined.
