(* ===== verification/AuditLog.v ===== *)
(** The audit log (audit_log.h, audit_log.cpp): the redaction of digests, the
    records with their JSON and filters, and the bounded ring. The wall clock
    is an argument; the classification of characters is that of the C locale. *)

From stdpp Require Import base numbers list strings option.
From Stdlib Require Import ZArith Lia Ascii String.
From S2P Require Import Prelude Types Double Json Text Operations.

Local Open Scope string_scope.
Local Open Scope Z_scope.
Local Open Scope ge_scope.

(** ** Redaction *)

Definition between (lo hi c : ascii) : bool := (N_of_ascii lo <=? N_of_ascii c)%N && (N_of_ascii c <=? N_of_ascii hi)%N.
(** [std::tolower] and [std::isalnum] *)
Definition tolower (c : ascii) : ascii := if between "A" "Z" c then ascii_of_N (N_of_ascii c + 32) else c.
Definition isalnum (c : ascii) : bool := between "a" "z" c || between "A" "Z" c || between "0" "9" c.

Definition kNeedles : list string := ["key"; "token"; "secret"; "password"; "passwd"; "credential"; "auth"; "cookie"; "signature"].
Definition IsSensitiveKey (key : string) : bool := existsb (fun n => mentions n (map_text tolower key)) kNeedles.

Definition RedactUrl (url : string) : string :=
  match split_sub "://" url with
  | None => url
  | Some (scheme, rest) =>
      let rest := (split_any (fun c => Ascii.eqb c "?" || Ascii.eqb c "#") rest).1 in
      let '(authority, path) := split_any (fun c => Ascii.eqb c "/") rest in
      scheme ++ "://" ++ (match split_last "@" authority with Some (_, host) => "***@" ++ host | None => authority end) ++ path
  end.

Definition scheme_char (c : ascii) : bool := isalnum c || Ascii.eqb c "+" || Ascii.eqb c "-" || Ascii.eqb c ".".
Definition LooksLikeUrl (s : string) : bool :=
  match split_sub "://" s with
  | None => false
  | Some (p, _) => negb (Str.empty p) && (String.length p <=? 16)%nat && all scheme_char p
  end.

(** [out.emplace] in key order leaves the members where they are. *)
Fixpoint RedactImpl (max_string max_array : nat) (depth : Z) (v : json) : json :=
  if 32 <? depth then JString "..."
  else
    match v with
    | JString s =>
        if LooksLikeUrl s then JString (RedactUrl s)
        else if (max_string <? String.length s)%nat
        then JString ("<" ++ Dec.to_string (Z.of_nat (String.length s)) ++ " chars: " ++ prefix_of (max_string / 4) s ++ "...>")
        else v
    | JArray l =>
        JArray (firstn max_array (map (RedactImpl max_string max_array (depth + 1)) l) ++
          (if (max_array <? List.length l)%nat then [JString ("<+" ++ Dec.to_string (Z.of_nat (List.length l - max_array)) ++ " more>")] else []))%list
    | JObject m =>
        JObject (map (fun kv => (kv.1, if IsSensitiveKey kv.1 then JString "***" else RedactImpl max_string max_array (depth + 1) kv.2)) m)
    | _ => v
    end.
Definition Redact (v : json) : json := RedactImpl 256 32 0 v.

(** ** Records *)

Record AuditRecord : Type := MkAuditRecord {
  ar_id : Z;
  ar_timestamp : Z;
  ar_caller : CallerContext;
  ar_operation : string;
  ar_target : string;
  ar_session : Z;
  ar_operation_id : option Z;
  ar_topology : option Z;
  ar_parameter : option Z;
  ar_result : ge_status_code;
  ar_message : string;
  ar_digest : json;
}.
Definition stamped (id timestamp : Z) (digest : json) (r : AuditRecord) : AuditRecord :=
  MkAuditRecord id timestamp (ar_caller r) (ar_operation r) (ar_target r) (ar_session r) (ar_operation_id r) (ar_topology r) (ar_parameter r)
    (ar_result r) (ar_message r) digest.

Definition field (k : string) (v : json) (o : list (string * json)) : list (string * json) := SMap.set k v o.
Definition field_if (b : bool) (k : string) (v : json) (o : list (string * json)) : list (string * json) := if b then SMap.set k v o else o.
Definition field_opt (k : string) (v : option Z) (o : list (string * json)) : list (string * json) :=
  match v with Some z => SMap.set k (Json.of_u64 z) o | None => o end.
Definition AuditRecordJson (r : AuditRecord) : json :=
  let o := field "audit_id" (Json.of_u64 (ar_id r)) [] in
  let o := field "timestamp_ns" (JInteger (ar_timestamp r)) o in
  let o := field_if (negb (Str.empty (caller_id (ar_caller r)))) "caller_id" (JString (caller_id (ar_caller r))) o in
  let o := field_if (negb (Str.empty (request_id (ar_caller r)))) "request_id" (JString (request_id (ar_caller r))) o in
  let o := field "operation" (JString (ar_operation r)) o in
  let o := field "target" (JString (ar_target r)) o in
  let o := field_if (negb (ar_session r =? 0)) "session_id" (Json.of_u64 (ar_session r)) o in
  let o := field_opt "operation_id" (ar_operation_id r) o in
  let o := field_opt "topology_version" (ar_topology r) o in
  let o := field_opt "parameter_version" (ar_parameter r) o in
  let o := field "result" (JString (StatusOps.CodeName (ar_result r))) o in
  let o := field_if (negb (Str.empty (ar_message r))) "message" (JString (ar_message r)) o in
  let o := match ar_digest r with JObject (_ :: _) => field "digest" (ar_digest r) o | _ => o end in
  JObject o.

Record AuditFilter : Type := MkAuditFilter {
  af_session : option Z;
  af_operation : option string;
  af_caller : option string;
  af_request : option string;
  af_failures_only : bool;
  af_since : Z;
  af_after : Z;
  af_limit : Z;
}.
Definition everything : AuditFilter := MkAuditFilter None None None None false 0 0 0.
Definition not_negative (what : string) (v : option Z) : Result unit :=
  match v with
  | Some n => if n <? 0 then Error (StatusOps.InvalidArgument (what ++ " must be >= 0")) else Value tt
  | None => Value tt
  end.
Definition AuditFilterFromJson (v : json) : Result AuditFilter :=
  match v with
  | JNull => Value everything
  | JObject _ =>
      let? _ := not_negative "session_id" (Json.GetInteger "session_id" v) in
      let? _ := not_negative "after_audit_id" (Json.GetInteger "after_audit_id" v) in
      let? _ := not_negative "limit" (Json.GetInteger "limit" v) in
      Value (MkAuditFilter (Json.GetInteger "session_id" v) (Json.GetString "operation" v) (Json.GetString "caller_id" v) (Json.GetString "request_id" v)
               (default false (Json.GetBool "failures_only" v)) (default 0 (Json.GetInteger "since_ns" v))
               (default 0 (Json.GetInteger "after_audit_id" v)) (default 0 (Json.GetInteger "limit" v)))
  | _ => Error (StatusOps.InvalidArgument "audit filter must be an object")
  end.

(** ** The log *)

(** [al_sink]: a sink is set. *)
Record AuditLog : Type := MkAuditLog { al_capacity : nat; al_ring : list AuditRecord; al_next : Z; al_dropped : Z; al_sink : bool }.

Module Audit.

Definition make (capacity : nat) : AuditLog := MkAuditLog (Nat.max 1 capacity) [] 1 0 false.
Definition SetSink (sink : bool) (l : AuditLog) : AuditLog := MkAuditLog (al_capacity l) (al_ring l) (al_next l) (al_dropped l) sink.

(** [while (ring_.size() > capacity_)]; the number of records taken off. *)
Fixpoint trim (capacity : nat) (ring : list AuditRecord) : list AuditRecord * Z :=
  match ring with
  | [] => ([], 0)
  | _ :: ring' => if (capacity <? List.length ring)%nat then let '(r, n) := trim capacity ring' in (r, n + 1) else (ring, 0)
  end.
(** The new log and what the sink is called with. *)
Definition Append (now : Z) (record : AuditRecord) (l : AuditLog) : AuditLog * option AuditRecord :=
  let record := stamped (al_next l) (if ar_timestamp record =? 0 then now else ar_timestamp record) (Redact (ar_digest record)) record in
  let '(ring, dropped) := trim (al_capacity l) (al_ring l ++ [record])%list in
  (MkAuditLog (al_capacity l) ring (Word.u64 (al_next l + 1)) (Word.u64 (al_dropped l + dropped)) (al_sink l),
   if al_sink l then Some record else None).

Definition wanted {A} `{!EqDecision A} (o : option A) (x : A) : bool := match o with Some y => bool_decide (x = y) | None => true end.
Definition selects (f : AuditFilter) (r : AuditRecord) : bool :=
  negb (ar_id r <=? af_after f) && negb (ar_timestamp r <? af_since f) && wanted (af_session f) (ar_session r) &&
  wanted (af_operation f) (ar_operation r) && wanted (af_caller f) (caller_id (ar_caller r)) && wanted (af_request f) (request_id (ar_caller r)) &&
  negb (af_failures_only f && bool_decide (ar_result r = GE_STATUS_OK)).
(** The loop of [Query]; [out] is what it has found. *)
Fixpoint query (f : AuditFilter) (ring : list AuditRecord) (out : list AuditRecord) : list AuditRecord :=
  match ring with
  | [] => out
  | r :: ring' =>
      if selects f r then
        let out := (out ++ [r])%list in
        if negb (af_limit f =? 0) && (af_limit f <=? Z.of_nat (List.length out)) then out else query f ring' out
      else query f ring' out
  end.
Definition Query (f : AuditFilter) (l : AuditLog) : list AuditRecord := query f (al_ring l) [].
Definition size (l : AuditLog) : Z := Z.of_nat (List.length (al_ring l)).
Definition last_audit_id (l : AuditLog) : Z := Word.u64 (al_next l - 1).
Definition QueryJson (f : AuditFilter) (l : AuditLog) : json :=
  JObject (field "dropped" (Json.of_u64 (al_dropped l)) (field "last_audit_id" (Json.of_u64 (last_audit_id l))
    (field "records" (JArray (map AuditRecordJson (Query f l))) []))).

End Audit.
