(* ===== verification/AuditProofs.v ===== *)
(** The audit log keeps secrets out of its digests, keeps the newest records,
    and can be read page by page without missing one. *)

From stdpp Require Import base numbers list strings option sorting.
From Stdlib Require Import ZArith Lia Ascii String.
From S2P Require Import Prelude Types Double Json Text Operations AuditLog.

Local Open Scope string_scope.
Local Open Scope Z_scope.

(** ** Redaction *)

(** A URL by its parts; [u_info] is what stands before the host. *)
Record Url : Type := MkUrl { u_scheme : string; u_info : option string; u_host : string; u_path : string; u_tail : string }.
Definition url_text (u : Url) : string :=
  u_scheme u ++ "://" ++ (match u_info u with Some i => i ++ "@" | None => "" end) ++ u_host u ++ u_path u ++ u_tail u.

Definition is_tail (c : ascii) : bool := Ascii.eqb c "?" || Ascii.eqb c "#".
Definition is_slash (c : ascii) : bool := Ascii.eqb c "/".
Definition plain_char (c : ascii) : bool := negb (is_tail c) && negb (is_slash c).
Definition begins (f : ascii -> bool) (s : string) : bool := match s with EmptyString => true | String c _ => f c end.
Definition url_ok (u : Url) : bool :=
  negb (Str.empty (u_scheme u)) && (String.length (u_scheme u) <=? 16)%nat && all scheme_char (u_scheme u) &&
  all plain_char (default "" (u_info u)) &&
  all (fun c => plain_char c && negb (Ascii.eqb c "@")) (u_host u) &&
  begins is_slash (u_path u) && all (fun c => negb (is_tail c)) (u_path u) && begins is_tail (u_tail u).
(** The same place, asked by somebody else or with another query. *)
Definition same_place (u u' : Url) : Prop :=
  u_scheme u = u_scheme u' /\ u_host u = u_host u' /\ u_path u = u_path u' /\ has (u_info u) = has (u_info u').

(** Documents that differ only in what must not be recorded: the values of
    sensitive keys, user names and passwords of URLs, and their queries. *)
Inductive alike : json -> json -> Prop :=
| alike_same v : alike v v
| alike_url u u' : url_ok u = true -> url_ok u' = true -> same_place u u' -> alike (JString (url_text u)) (JString (url_text u'))
| alike_array l l' : Forall2 alike l l' -> alike (JArray l) (JArray l')
| alike_object m m' : Forall2 (fun kv kv' => kv.1 = kv'.1 /\ (IsSensitiveKey kv.1 = true \/ alike kv.2 kv'.2)) m m' -> alike (JObject m) (JObject m').

Lemma scheme_no_colon s : all scheme_char s = true -> all (fun x => negb (Ascii.eqb x ":")) s = true.
Proof. apply all_impl. intros c H. by destruct (Ascii.eqb_spec c ":") as [->|]. Qed.
Lemma begins_spec f b : begins f b = true -> forall c t, b = String c t -> f c = true.
Proof. intros H c t ->. exact H. Qed.
Lemma url_split u : url_ok u = true -> split_sub "://" (url_text u) =
  Some (u_scheme u, (match u_info u with Some i => i ++ "@" | None => "" end) ++ u_host u ++ u_path u ++ u_tail u).
Proof.
  unfold url_ok. rewrite !andb_true_iff. intros [[[[[[[_ _] H] _] _] _] _] _]. unfold url_text. apply split_sub_app. by apply scheme_no_colon.
Qed.
Lemma url_looks u : url_ok u = true -> LooksLikeUrl (url_text u) = true.
Proof. intros H. unfold LooksLikeUrl. rewrite url_split by done. unfold url_ok in H. rewrite !andb_true_iff in *. naive_solver. Qed.
Lemma url_redacted u : url_ok u = true -> RedactUrl (url_text u) =
  u_scheme u ++ "://" ++ ((match u_info u with Some _ => "***@" | None => "" end) ++ u_host u) ++ u_path u.
Proof.
  intros H. unfold RedactUrl. rewrite url_split by done. unfold url_ok in H. rewrite !andb_true_iff in H. destruct H as [[[[[[_ _] Hi] Hh] Hp] Hq] Ht].
  set (auth := (match u_info u with Some i => i ++ "@" | None => "" end) ++ u_host u).
  assert (Ha : all plain_char auth = true).
  { unfold auth. rewrite all_app. apply andb_true_iff. split; [|eapply all_impl; [|exact Hh]; simpl; by intros c [? _]%andb_true_iff].
    destruct (u_info u) as [i|]; [|done]. rewrite all_app. simpl in Hi. by rewrite Hi. }
  rewrite <- Str.app_assoc. fold auth. rewrite <- Str.app_assoc.
  rewrite split_any_app; [cbn [fst]| |by apply begins_spec].
  2: { rewrite all_app. apply andb_true_iff. split; [|done]. eapply all_impl; [|exact Ha]. by intros c [? _]%andb_true_iff. }
  rewrite split_any_app; [|by eapply all_impl; [|exact Ha]; intros c [_ ?]%andb_true_iff|by apply begins_spec].
  assert (Hn : all (fun c => negb (Ascii.eqb c "@")) (u_host u) = true) by (eapply all_impl; [|exact Hh]; simpl; by intros c [_ ?]%andb_true_iff).
  unfold auth. destruct (u_info u) as [i|].
  - rewrite Str.app_assoc. change ("@" ++ u_host u) with (String "@" (u_host u)). by rewrite split_last_app.
  - rewrite Str.app_nil_l. by rewrite split_last_None.
Qed.

Lemma redact_alike ms ma v : forall d w, alike v w -> RedactImpl ms ma d v = RedactImpl ms ma d w.
Proof.
  induction v as [|b|z|x|s|l IH|m IH] using json_ind'; intros d w H; inversion H as [v0|u u' Hu Hu' Hp|l0 l' Hl|m0 m' Hm]; subst; try done.
  - cbn [RedactImpl]. destruct (32 <? d); [done|]. rewrite !url_looks, !url_redacted by done. destruct Hp as (-> & -> & -> & Hi).
    by destruct (u_info u), (u_info u').
  - cbn [RedactImpl]. destruct (32 <? d); [done|]. rewrite (Forall2_length _ _ _ Hl).
    replace (map (RedactImpl ms ma (d + 1)) l') with (map (RedactImpl ms ma (d + 1)) l); [done|]. clear H.
    induction Hl as [|x y l l' Hx _ IHl]; [done|]. apply Forall_cons in IH as [Hi IH]. simpl. by rewrite (Hi _ _ Hx), IHl.
  - cbn [RedactImpl]. destruct (32 <? d); [done|]. f_equal. clear H. induction Hm as [|x y l l' [Hk Hx] _ IHl]; [done|]. apply Forall_cons in IH as [Hi IH]. simpl.
    rewrite IHl by done. rewrite <- Hk. destruct (IsSensitiveKey x.1); [done|]. destruct Hx as [Hx|Hx]; [done|]. by rewrite (Hi _ _ Hx).
Qed.

(** C28: redaction keeps secrets: two digests that differ only in the values of
    sensitive keys, at any depth, and in the user information and the queries
    of URLs, are redacted to the same document, so nothing of these can be
    read off the log. *)
Theorem Redact_hides v w : alike v w -> Redact v = Redact w.
Proof. apply redact_alike. Qed.

Definition stream_url (info tail : string) : string := url_text (MkUrl "rtsp" (Some info) "camera:554" "/live" tail).
Definition stream_digest (info tail token : string) : json :=
  JObject [("API_Token", JString token); ("inputs", JArray [JString (stream_url info tail); JInteger 1])].
Lemma Redact_hides_witness : Redact (stream_digest "admin:pw@1" "?k=1" "abc") = Redact (stream_digest "guest" "#top" "xyz") /\
  Json.Serialize (JArray [JString (stream_url "admin:pw@1" "?k=1")]) <> Json.Serialize (JArray [JString (stream_url "guest" "#top")]).
Proof.
  split; [|by vm_compute]. apply (Redact_hides (stream_digest "admin:pw@1" "?k=1" "abc") (stream_digest "guest" "#top" "xyz")).
  apply alike_object. constructor; [split; [done|left; by vm_compute]|]. constructor; [|constructor]. split; [done|]. right. apply alike_array.
  constructor; [|constructor; [apply alike_same|constructor]]. by apply alike_url.
Defined.

(** ** The ring *)

Import Audit.

Inductive call : Type := CallAppend (now : Z) (r : AuditRecord) | CallSetSink (sink : bool).
Definition does (l : AuditLog) (c : call) : AuditLog :=
  match c with CallAppend now r => (Append now r l).1 | CallSetSink b => SetSink b l end.
Definition run (cs : list call) (l : AuditLog) : AuditLog := fold_left does cs l.
(** What the appends of a history recorded, numbered from [n]. *)
Fixpoint recorded (n : Z) (cs : list call) : list AuditRecord :=
  match cs with
  | [] => []
  | CallAppend now r :: cs' =>
      stamped n (if ar_timestamp r =? 0 then now else ar_timestamp r) (Redact (ar_digest r)) r :: recorded (n + 1) cs'
  | CallSetSink _ :: cs' => recorded n cs'
  end.

Lemma trim_spec c ring : trim c ring = (drop (List.length ring - c) ring, Z.of_nat (List.length ring - c)).
Proof.
  induction ring as [|r ring IH]; [done|]. cbn [trim]. destruct (Nat.ltb_spec c (List.length (r :: ring))) as [L|L].
  - rewrite IH. simpl in L. replace (List.length (r :: ring) - c)%nat with (S (List.length ring - c)) by (simpl; lia). simpl. f_equal. lia.
  - by replace (List.length (r :: ring) - c)%nat with 0%nat by lia.
Qed.
(** [l] holds the newest of [all]. *)
Record holds (all : list AuditRecord) (l : AuditLog) : Prop := {
  ho_room : (1 <= al_capacity l)%nat;
  ho_ring : al_ring l = drop (List.length all - al_capacity l) all;
  ho_next : al_next l = Z.of_nat (List.length all) + 1;
  ho_dropped : al_dropped l = Z.of_nat (List.length all - al_capacity l);
}.
Lemma append_holds now r all l : holds all l -> Z.of_nat (List.length all) + 2 < 2 ^ 64 ->
  holds (all ++ recorded (al_next l) [CallAppend now r]) (Append now r l).1.
Proof.
  intros [H0 H1 H2 H3] B. unfold Append. cbn [recorded]. set (rec := stamped _ _ _ r). rewrite trim_spec. split; simpl; [done|..].
  - rewrite H1, !length_app, length_drop. cbn [List.length]. destruct (decide (List.length all <= al_capacity l)%nat) as [L|L].
    + replace (List.length all - al_capacity l)%nat with 0%nat by lia. rewrite drop_0. f_equal. lia.
    + rewrite !drop_app_le by (rewrite ?length_drop; lia). rewrite drop_drop. do 2 f_equal. lia.
  - rewrite H2, length_app. simpl. rewrite Word.u64_small; [lia|]. unfold Word.is_u64. lia.
  - rewrite H1, H3, !length_app, length_drop. cbn [List.length]. rewrite Word.u64_small; [lia|]. unfold Word.is_u64. lia.
Qed.
Lemma run_holds cs : forall all l, holds all l -> Z.of_nat (List.length all + List.length cs) + 2 <= 2 ^ 64 ->
  holds (all ++ recorded (Z.of_nat (List.length all) + 1) cs) (run cs l) /\ al_capacity (run cs l) = al_capacity l.
Proof.
  induction cs as [|[now r|b] cs IH]; intros all l H B; cbn [run fold_left recorded does].
  - by rewrite app_nil_r.
  - pose proof (append_holds now r all l H) as H'. simpl in B. destruct (IH _ _ (H' ltac:(lia))) as [I1 I2]; [rewrite length_app; simpl; lia|].
    rewrite (ho_next _ _ H) in I1. rewrite <- app_assoc, length_app in I1. cbn [recorded List.length app] in I1.
    replace (Z.of_nat (List.length all + 1) + 1) with (Z.of_nat (List.length all) + 1 + 1) in I1 by lia. split; [exact I1|].
    unfold run in I2. rewrite I2. unfold Append. by destruct (trim _ _).
  - simpl in B. destruct (IH all (SetSink b l)) as [I1 I2]; [by destruct H|lia|]. by split.
Qed.
Lemma make_holds capacity : holds [] (make capacity).
Proof. split; simpl; [lia|done..]. Qed.
Lemma recorded_ids cs : forall n, map ar_id (recorded n cs) = map (fun i => n + Z.of_nat i) (seq 0 (List.length (recorded n cs))).
Proof.
  induction cs as [|[now r|b] cs IH]; intros n; simpl; [done| |apply IH]. rewrite Z.add_0_r. f_equal. rewrite IH, <- seq_shift, map_map.
  apply map_ext. intros i. lia.
Qed.

(** C31: the log is a window on the newest records. After any calls it holds
    the last ones appended, in order and never more than its capacity; every
    record has the number of its append; and what was dropped and what is held
    add up to the last number given out. *)
Theorem log_window capacity cs : Z.of_nat (List.length cs) + 2 <= 2 ^ 64 ->
  let l := run cs (make capacity) in let all := recorded 1 cs in
  al_ring l = drop (List.length all - Nat.max 1 capacity) all /\ (List.length (al_ring l) <= Nat.max 1 capacity)%nat /\
  map ar_id all = map (fun i => 1 + Z.of_nat i) (seq 0 (List.length all)) /\
  al_dropped l + size l = last_audit_id l /\ last_audit_id l = Z.of_nat (List.length all).
Proof.
  intros B l all. destruct (run_holds cs [] _ (make_holds capacity)) as [[H0 H1 H2 H3] H4]; [simpl; lia|]. simpl in H1, H2, H3, H4.
  change (Z.of_nat 0 + 1) with 1 in *. fold all l in H1, H2, H3. fold l in H4. rewrite H4 in *. assert (Hn : (List.length all <= List.length cs)%nat).
  { unfold all. generalize 1. clear. induction cs as [|[now r|b] cs IH]; intros n; simpl; [done|specialize (IH (n + 1)); lia|specialize (IH n); lia]. }
  unfold size, last_audit_id. rewrite H1, H2, H3, length_drop. replace (Z.of_nat (List.length all) + 1 - 1) with (Z.of_nat (List.length all)) by lia.
  rewrite Word.u64_small by (unfold Word.is_u64; lia). repeat split; [lia|apply recorded_ids|lia].
Qed.
Definition sample_record : AuditRecord := MkAuditRecord 0 0 (MkCaller "c" "r") "session.create" "session:1" 1 None None None GE_STATUS_OK "" (JObject []).
Definition sample_calls : list call := [CallAppend 5 sample_record; CallSetSink true; CallAppend 6 sample_record; CallAppend 7 sample_record].
Lemma log_window_witness : let l := run sample_calls (make 2) in let all := recorded 1 sample_calls in
  al_ring l = drop (List.length all - Nat.max 1 2) all /\ (List.length (al_ring l) <= Nat.max 1 2)%nat /\
  map ar_id all = map (fun i => 1 + Z.of_nat i) (seq 0 (List.length all)) /\
  al_dropped l + size l = last_audit_id l /\ last_audit_id l = Z.of_nat (List.length all).
Proof. apply (log_window 2 sample_calls). vm_compute. discriminate. Defined.

(** ** Queries *)

Lemma query_spec f ring : forall out, 0 <= af_limit f -> (af_limit f = 0 \/ Z.of_nat (List.length out) < af_limit f) ->
  query f ring out = (out ++ (if af_limit f =? 0 then List.filter (selects f) ring
                              else take (Z.to_nat (af_limit f) - List.length out) (List.filter (selects f) ring)))%list.
Proof.
  induction ring as [|r ring IH]; intros out H0 Ho; cbn [query List.filter].
  - destruct (_ =? _); [|rewrite take_nil]; by rewrite app_nil_r.
  - destruct (selects f r); [|by apply IH]. destruct (Z.eqb_spec (af_limit f) 0) as [E|E]; cbn [negb andb].
    { rewrite IH by (rewrite ?length_app; simpl; lia). by rewrite <- app_assoc. }
    destruct Ho as [?|Ho]; [done|]. destruct (Z.leb_spec (af_limit f) (Z.of_nat (List.length (out ++ [r])%list))) as [L|L]; rewrite length_app in L; cbn [List.length] in L.
    + replace (Z.to_nat (af_limit f) - List.length out)%nat with 1%nat by lia. done.
    + rewrite IH by (rewrite ?length_app; simpl; lia). rewrite length_app, <- app_assoc. cbn [List.length].
      replace (Z.to_nat (af_limit f) - List.length out)%nat with (S (Z.to_nat (af_limit f) - (List.length out + 1))) by lia. done.
Qed.

Definition after_id (id : Z) (f : AuditFilter) : AuditFilter :=
  MkAuditFilter (af_session f) (af_operation f) (af_caller f) (af_request f) (af_failures_only f) (af_since f) id (af_limit f).
(** A client that reads page by page, with the last number it saw as cursor. *)
Fixpoint pages (fuel : nat) (f : AuditFilter) (l : AuditLog) : list (list AuditRecord) :=
  match fuel with
  | O => []
  | S fuel =>
      match last (Query f l) with
      | None => []
      | Some r => Query f l :: pages fuel (after_id (ar_id r) f) l
      end
  end.

Definition ordered (l : AuditLog) : Prop := StronglySorted (fun a b => ar_id a < ar_id b) (al_ring l).

Lemma filter_sorted {A} (R : relation A) f l : StronglySorted R l -> StronglySorted R (List.filter f l).
Proof.
  induction 1 as [|x l _ IH F]; simpl; [constructor|]. destruct (f x); [|done]. constructor; [done|].
  apply List.Forall_forall. intros y [Hy _]%filter_In. rewrite List.Forall_forall in F. by apply F.
Qed.
Lemma selects_after f id r : af_after f <= id -> selects (after_id id f) r = selects f r && (id <? ar_id r).
Proof.
  intros H. unfold selects, after_id. simpl. destruct (Z.leb_spec (ar_id r) id), (Z.leb_spec (ar_id r) (af_after f)), (Z.ltb_spec id (ar_id r)); try lia; simpl;
    by rewrite ?andb_true_r, ?andb_false_r.
Qed.
Lemma filter_after f id ring : af_after f <= id -> List.filter (selects (after_id id f)) ring = List.filter (fun r => id <? ar_id r) (List.filter (selects f) ring).
Proof.
  intros H. induction ring as [|r ring IH]; [done|]. simpl. rewrite selects_after by done. destruct (selects f r); simpl; [|done]. by rewrite IH.
Qed.
Lemma filter_beyond x a b : StronglySorted (fun a b => ar_id a < ar_id b) (a ++ x :: b)%list ->
  List.filter (fun r => ar_id x <? ar_id r) (a ++ x :: b)%list = b.
Proof.
  induction a as [|y a IH]; simpl; intros H; apply StronglySorted_inv in H as [H F]; rewrite List.Forall_forall in F.
  - rewrite Z.ltb_irrefl. apply forallb_filter_id, forallb_forall. intros r Hr. by apply Z.ltb_lt, F.
  - specialize (F x (in_elt _ _ _)). destruct (Z.ltb_spec (ar_id x) (ar_id y)); [lia|]. by apply IH.
Qed.

Lemma query_page f l : 0 <= af_limit f -> exists n, Query f l = take n (List.filter (selects f) (al_ring l)) /\ (0 < n)%nat.
Proof.
  intros H. unfold Query. rewrite query_spec; [|done|simpl; lia]. cbn [app List.length]. destruct (Z.eqb_spec (af_limit f) 0) as [E|E].
  - exists (S (List.length (List.filter (selects f) (al_ring l)))). split; [|lia]. by rewrite take_ge by lia.
  - exists (Z.to_nat (af_limit f) - 0)%nat. split; [done|lia].
Qed.
Lemma pages_spec fuel : forall f l, ordered l -> 0 <= af_limit f -> (List.length (List.filter (selects f) (al_ring l)) < fuel)%nat ->
  List.concat (pages fuel f l) = List.filter (selects f) (al_ring l) /\ pages (S fuel) f l = pages fuel f l.
Proof.
  induction fuel as [|fuel IH]; intros f l Ho Hl Hf; [lia|]. destruct (query_page f l Hl) as (n & Hq & Hn).
  set (m := List.filter (selects f) (al_ring l)) in *. cbn [pages].
  destruct (last (Query f l)) as [x|] eqn:E.
  2: { apply last_None in E. rewrite E in Hq. destruct m as [|y m'] eqn:Em; [done|]. by destruct n; [lia|]. }
  apply last_Some in E as [p Hp]. assert (Hm : m = (p ++ x :: drop n m)%list).
  { rewrite <- (take_drop n m) at 1. rewrite <- Hq, Hp, <- app_assoc. done. }
  assert (Hx : In x m) by (rewrite Hm; apply in_elt). apply filter_In in Hx as [_ Hs].
  assert (Ha : af_after f <= ar_id x).
  { unfold selects in Hs. rewrite !andb_true_iff in Hs. destruct Hs as [[[[[[Hs _] _] _] _] _] _]. apply negb_true_iff, Z.leb_gt in Hs. lia. }
  assert (Hr : List.filter (selects (after_id (ar_id x) f)) (al_ring l) = drop n m).
  { rewrite filter_after by done. fold m. rewrite Hm at 1. apply filter_beyond. rewrite <- Hm. by apply filter_sorted. }
  destruct (IH (after_id (ar_id x) f) l Ho Hl) as [I1 I2].
  { rewrite Hr. rewrite Hm in Hf. rewrite length_app in Hf. simpl in Hf. lia. }
  split.
  - simpl. rewrite I1, Hr, Hq. apply take_drop.
  - f_equal. exact I2.
Qed.

Lemma window_ordered capacity cs : Z.of_nat (List.length cs) + 2 <= 2 ^ 64 -> ordered (run cs (make capacity)).
Proof.
  intros B. destruct (run_holds cs [] _ (make_holds capacity)) as [[_ H1 _ _] _]; [simpl; lia|]. unfold ordered. rewrite H1. simpl. clear.
  generalize (Z.of_nat 0 + 1). intros n. generalize (List.length (recorded n cs) - al_capacity (run cs (make capacity)))%nat. intros k.
  assert (S : StronglySorted (fun a b => ar_id a < ar_id b) (recorded n cs)).
  { revert n. induction cs as [|[now r|b] cs IH]; intros n; simpl; [constructor| |apply IH]. constructor; [apply IH|].
    apply List.Forall_forall. intros y Hy. apply (in_map ar_id) in Hy. rewrite recorded_ids in Hy. apply in_map_iff in Hy as (i & <- & _). simpl. lia. }
  rewrite <- (take_drop k (recorded n cs)) in S. revert S. generalize (take k (recorded n cs)). intros l. induction l as [|x l IH]; simpl; [done|].
  intros [S _]%StronglySorted_inv. by apply IH.
Qed.

(** A client that reads the log page by page, asking each time for the
    records after the last one it saw, gets every record that its filter
    selects exactly once and in order, whatever the size of the pages, and
    comes to an end. *)
Theorem pages_complete capacity cs f : Z.of_nat (List.length cs) + 2 <= 2 ^ 64 -> 0 <= af_limit f ->
  let l := run cs (make capacity) in let fuel := S (List.length (al_ring l)) in
  List.concat (pages fuel f l) = List.filter (selects f) (al_ring l) /\ pages (S fuel) f l = pages fuel f l.
Proof.
  intros B Hl l fuel. apply pages_spec; [by apply window_ordered|done|]. unfold fuel. pose proof (filter_length_le (selects f) (al_ring l)). lia.
Qed.
Lemma pages_complete_witness : let f := MkAuditFilter (Some 1) None None None false 0 0 2 in let l := run sample_calls (make 8) in
  map (fun p => map ar_id p) (pages 4 f l) = [[1; 2]; [3]] /\ List.concat (pages 4 f l) = List.filter (selects f) (al_ring l).
Proof.
  split; [by vm_compute|]. apply (pages_complete 8 sample_calls (MkAuditFilter (Some 1) None None None false 0 0 2)); vm_compute; discriminate.
Defined.
