(* ===== verification/EventBus.v ===== *)
(** The event bus (event_bus.h, event_bus.cpp): events with their JSON, filters,
    and the bus: every section under the mutex is a function, and the threads
    that publish, subscribe, cancel and observe interleave them. *)

From stdpp Require Import base numbers list strings option relations.
From Stdlib Require Import ZArith Lia Ascii String.
From S2P Require Import Prelude Types Double Json JsonParser.

Local Open Scope string_scope.
Local Open Scope Z_scope.
Local Open Scope ge_scope.

(** ** Events *)

Inductive EventKind : Type := kDataPlane | kObservation.
Record Event : Type := MkEvent {
  ev_id : Z;
  ev_kind : EventKind;
  ev_type : string;
  ev_severity : Severity;
  ev_session : Z;
  ev_node : Z;
  ev_timestamp : Z;
  ev_seq : option Z;
  ev_pts : option Z;
  ev_detail : json;
}.

Definition SeverityName (s : Severity) : string :=
  match s with kDebug => "debug" | kInfo => "info" | kWarning => "warning" | kError => "error" end.
Definition ParseSeverity (s : string) : option Severity :=
  if String.eqb s "debug" then Some kDebug
  else if String.eqb s "info" then Some kInfo
  else if String.eqb s "warning" then Some kWarning
  else if String.eqb s "error" then Some kError
  else None.
Definition severity_value (s : Severity) : Z := match s with kDebug => 0 | kInfo => 1 | kWarning => 2 | kError => 3 end.

Definition EventJson (e : Event) : json :=
  let o := SMap.set "event_id" (Json.of_u64 (ev_id e)) [] in
  let o := SMap.set "kind" (JString match ev_kind e with kDataPlane => "data_plane" | kObservation => "observation" end) o in
  let o := SMap.set "type" (JString (ev_type e)) o in
  let o := SMap.set "severity" (JString (SeverityName (ev_severity e))) o in
  let o := SMap.set "session_id" (Json.of_u64 (ev_session e)) o in
  let o := SMap.set "source_node_id" (Json.of_u64 (ev_node e)) o in
  let o := SMap.set "timestamp_ns" (JInteger (ev_timestamp e)) o in
  let o := match ev_seq e with Some s => SMap.set "seq" (Json.of_u64 s) o | None => o end in
  let o := match ev_pts e with Some s => SMap.set "pts_ns" (JInteger s) o | None => o end in
  JObject (SMap.set "detail" (ev_detail e) o).

(** ** Filters *)

(** [ef_types] is a [std::set]. *)
Record EventFilter : Type := MkEventFilter { ef_types : list (string * unit); ef_min_severity : option Severity; ef_session : option Z }.
Definition any_event : EventFilter := MkEventFilter [] None None.

Definition invalid {A} (m : string) : Result A := Error (StatusOps.InvalidArgument m).
Fixpoint filter_types (l : list json) (types : list (string * unit)) : Result (list (string * unit)) :=
  match l with
  | [] => Value types
  | JString t :: l' => filter_types l' (SMap.emplace t tt types).1
  | _ :: _ => invalid "filter.types entries must be strings"
  end.
Definition filter_field (key : string) (value : json) (f : EventFilter) : Result EventFilter :=
  if String.eqb key "types" then
    match value with
    | JArray l => let? types := filter_types l (ef_types f) in Value (MkEventFilter types (ef_min_severity f) (ef_session f))
    | _ => invalid "filter.types must be an array"
    end
  else if String.eqb key "min_severity" then
    match value with
    | JString s => match ParseSeverity s with
                   | Some sev => Value (MkEventFilter (ef_types f) (Some sev) (ef_session f))
                   | None => invalid ("unknown severity '" ++ s ++ "'")
                   end
    | _ => invalid "filter.min_severity must be a string"
    end
  else if String.eqb key "session_id" then
    match value with
    | JInteger z => Value (MkEventFilter (ef_types f) (ef_min_severity f) (Some (Word.u64 z)))
    | _ => invalid "filter.session_id must be an integer"
    end
  else invalid ("unknown filter field '" ++ key ++ "'").
Fixpoint filter_fields (m : list (string * json)) (f : EventFilter) : Result EventFilter :=
  match m with
  | [] => Value f
  | (k, v) :: m' => let? f := filter_field k v f in filter_fields m' f
  end.
Definition ParseFilter (text : string) : Result EventFilter :=
  if Str.empty text then Value any_event
  else
    match ParseJson text with
    | inr e => invalid ("invalid filter JSON: " ++ e)
    | inl (JObject m) => filter_fields m any_event
    | inl _ => invalid "filter must be a JSON object"
    end.

Definition Matches (f : EventFilter) (e : Event) : bool :=
  (bool_decide (ef_types f = []) || SMap.contains (ev_type e) (ef_types f)) &&
  match ef_min_severity f with Some m => severity_value m <=? severity_value (ev_severity e) | None => true end &&
  match ef_session f with Some s => s =? ev_session e | None => true end.

(** ** The bus *)

(** The last four are a record of the past: what had been published before it
    was made, the events offered that the filter accepts, those queued, and
    those the handler was called with. *)
Record Subscription : Type := MkSubscription {
  sb_id : Z;
  sb_filter : EventFilter;
  sb_queue : list Event;
  sb_scheduled : bool;
  sb_cancelled : bool;
  sb_dropped : Z;
  sb_since : nat;
  sb_matched : list Event;
  sb_accepted : list Event;
  sb_handled : list Event;
}.
(** [eb_heap] holds all subscriptions ever made; [eb_subscriptions] and
    [eb_ready] refer to it. [eb_log] is a record of the events published. *)
Record EventBus : Type := MkBus {
  eb_capacity : nat;
  eb_heap : list Subscription;
  eb_subscriptions : list (Z * nat);
  eb_ready : list nat;
  eb_stopped : bool;
  eb_next_id : Z;
  eb_next_event : Z;
  eb_published : Z;
  eb_delivered : Z;
  eb_dropped : Z;
  eb_running : Z;
  eb_log : list Event;
}.

Module Bus.

Definition make (capacity : nat) : EventBus := MkBus capacity [] [] [] false 1 1 0 0 0 0 [].

Definition with_heap (h : list Subscription) (ready : list nat) (b : EventBus) : EventBus :=
  MkBus (eb_capacity b) h (eb_subscriptions b) ready (eb_stopped b) (eb_next_id b) (eb_next_event b) (eb_published b) (eb_delivered b) (eb_dropped b) (eb_running b) (eb_log b).
Definition with_counts (published delivered dropped running : Z) (b : EventBus) : EventBus :=
  MkBus (eb_capacity b) (eb_heap b) (eb_subscriptions b) (eb_ready b) (eb_stopped b) (eb_next_id b) (eb_next_event b) published delivered dropped running (eb_log b).
Definition with_table (t : list (Z * nat)) (next_id next_event : Z) (b : EventBus) : EventBus :=
  MkBus (eb_capacity b) (eb_heap b) t (eb_ready b) (eb_stopped b) next_id next_event (eb_published b) (eb_delivered b) (eb_dropped b) (eb_running b) (eb_log b).

(** [Publish] before it takes the lock. *)
Definition Stamp (now : Z) (e : Event) (b : EventBus) : Event * EventBus :=
  let '(id, b) := if ev_id e =? 0 then (eb_next_event b, with_table (eb_subscriptions b) (eb_next_id b) (Word.u64 (eb_next_event b + 1)) b) else (ev_id e, b) in
  (MkEvent id (ev_kind e) (ev_type e) (ev_severity e) (ev_session e) (ev_node e) (if ev_timestamp e =? 0 then now else ev_timestamp e)
     (ev_seq e) (ev_pts e) (ev_detail e), b).
(** One subscription of the loop. *)
Definition offer (e : Event) (b : EventBus) (r : nat) : EventBus :=
  match eb_heap b !! r with
  | None => b
  | Some s =>
      if sb_cancelled s || negb (Matches (sb_filter s) e) then b
      else if (eb_capacity b <=? List.length (sb_queue s))%nat then
        let s' := MkSubscription (sb_id s) (sb_filter s) (sb_queue s) (sb_scheduled s) (sb_cancelled s) (Word.u64 (sb_dropped s + 1)) (sb_since s)
                    (sb_matched s ++ [e]) (sb_accepted s) (sb_handled s) in
        with_counts (eb_published b) (eb_delivered b) (Word.u64 (eb_dropped b + 1)) (eb_running b) (with_heap (<[r := s']> (eb_heap b)) (eb_ready b) b)
      else
        let s' := MkSubscription (sb_id s) (sb_filter s) (sb_queue s ++ [e]) true (sb_cancelled s) (sb_dropped s) (sb_since s)
                    (sb_matched s ++ [e]) (sb_accepted s ++ [e]) (sb_handled s) in
        with_heap (<[r := s']> (eb_heap b)) (if sb_scheduled s then eb_ready b else (eb_ready b ++ [r])%list) b
  end.
Definition log_event (e : Event) (b : EventBus) : EventBus :=
  MkBus (eb_capacity b) (eb_heap b) (eb_subscriptions b) (eb_ready b) (eb_stopped b) (eb_next_id b) (eb_next_event b) (Word.u64 (eb_published b + 1))
    (eb_delivered b) (eb_dropped b) (eb_running b) (eb_log b ++ [e]).
Definition Publish (e : Event) (b : EventBus) : EventBus := fold_left (offer e) (map snd (eb_subscriptions b)) (log_event e b).

Definition Subscribe (f : EventFilter) (b : EventBus) : Z * EventBus :=
  let id := eb_next_id b in
  let r := List.length (eb_heap b) in
  let s := MkSubscription id f [] false false 0 (List.length (eb_log b)) [] [] [] in
  (id, with_table (SMap.set id r (eb_subscriptions b)) (Word.u64 (id + 1)) (eb_next_event b) (with_heap (eb_heap b ++ [s]) (eb_ready b) b)).

(** [Cancel] up to the wait; the subscription to wait for. *)
Definition Cancel (id : Z) (b : EventBus) : option nat * EventBus :=
  match SMap.find id (eb_subscriptions b) with
  | None => (None, b)
  | Some r =>
      let cancelled s := MkSubscription (sb_id s) (sb_filter s) [] (sb_scheduled s) true (sb_dropped s) (sb_since s) (sb_matched s) (sb_accepted s) (sb_handled s) in
      let heap := match eb_heap b !! r with Some s => <[r := cancelled s]> (eb_heap b) | None => eb_heap b end in
      (Some r, with_table (SMap.erase id (eb_subscriptions b)) (eb_next_id b) (eb_next_event b) (with_heap heap (eb_ready b) b))
  end.
Definition is_scheduled (r : nat) (b : EventBus) : bool := match eb_heap b !! r with Some s => sb_scheduled s | None => false end.

(** What [Flush] waits for. *)
Definition flushed (b : EventBus) : bool :=
  (eb_running b =? 0) && bool_decide (eb_ready b = []) &&
  forallb (fun kv : Z * nat => match eb_heap b !! kv.2 with Some s => negb (sb_scheduled s) && bool_decide (sb_queue s = []) | None => true end) (eb_subscriptions b).

Definition stats (b : EventBus) : Z * Z * Z := (eb_published b, eb_delivered b, eb_dropped b).
Definition dropped (id : Z) (b : EventBus) : Z :=
  match SMap.find id (eb_subscriptions b) with Some r => match eb_heap b !! r with Some s => sb_dropped s | None => 0 end | None => 0 end.

(** [Worker]: taking a subscription, and coming back from [Drain]. *)
Definition take_ready (b : EventBus) : option (nat * EventBus) :=
  if eb_stopped b then None
  else match eb_ready b with
       | [] => None
       | r :: rest => Some (r, with_counts (eb_published b) (eb_delivered b) (eb_dropped b) (Word.u32 (eb_running b + 1)) (with_heap (eb_heap b) rest b))
       end.
Definition leave (b : EventBus) : EventBus := with_counts (eb_published b) (eb_delivered b) (eb_dropped b) (Word.u32 (eb_running b - 1)) b.
(** [Drain]: the next event, or the end; then the count after the handler. *)
Definition next_event (r : nat) (b : EventBus) : option (option Event * EventBus) :=
  match eb_heap b !! r with
  | None => None
  | Some s =>
      match (if sb_cancelled s then [] else sb_queue s) with
      | [] => Some (None, with_heap (<[r := MkSubscription (sb_id s) (sb_filter s) (sb_queue s) false (sb_cancelled s) (sb_dropped s) (sb_since s)
                                              (sb_matched s) (sb_accepted s) (sb_handled s)]> (eb_heap b)) (eb_ready b) b)
      | e :: q => Some (Some e, with_heap (<[r := MkSubscription (sb_id s) (sb_filter s) q (sb_scheduled s) (sb_cancelled s) (sb_dropped s) (sb_since s)
                                                  (sb_matched s) (sb_accepted s) (sb_handled s ++ [e])]> (eb_heap b)) (eb_ready b) b)
      end
  end.
Definition delivered (b : EventBus) : EventBus := with_counts (eb_published b) (Word.u64 (eb_delivered b + 1)) (eb_dropped b) (eb_running b) b.
(** The destructor before it joins the workers. *)
Definition shutdown (b : EventBus) : EventBus :=
  MkBus (eb_capacity b) (eb_heap b) (eb_subscriptions b) [] true (eb_next_id b) (eb_next_event b) (eb_published b) (eb_delivered b) (eb_dropped b) (eb_running b) (eb_log b).

End Bus.

(** ** Threads *)

(** An observer thread: waiting, in [Drain] before the lock, in a handler,
    back from [Drain], and gone. *)
Inductive observer : Type := OWait | ODrain (r : nat) | OHandler (r : nat) (e : Event) | OLeave | OGone.
(** [w_stamped]: events on their way to the lock; [w_cancelling]: calls of
    [Cancel] that wait; [w_cancelled]: subscriptions whose [Cancel] has waited
    and returned. *)
Record world : Type := MkWorld {
  w_bus : EventBus;
  w_observers : list observer;
  w_stamped : list Event;
  w_cancelling : list nat;
  w_cancelled : list nat;
}.

Import Bus.
(** The calls may come from any thread, handlers included; [self] is the test
    of [Cancel] for a call from an observer thread. *)
Inductive step : relation world :=
| s_stamp now e b os l c d : step (MkWorld b os l c d) (MkWorld (Stamp now e b).2 os (l ++ [(Stamp now e b).1]) c d)
| s_publish e b os l1 l2 c d : step (MkWorld b os (l1 ++ e :: l2) c d) (MkWorld (Publish e b) os (l1 ++ l2) c d)
| s_subscribe f b os l c d : step (MkWorld b os l c d) (MkWorld (Subscribe f b).2 os l c d)
| s_cancel id (self : bool) b os l c d :
    step (MkWorld b os l c d) (MkWorld (Cancel id b).2 os l (match (Cancel id b).1 with Some r => if self then c else r :: c | None => c end) d)
| s_cancelled r b os l c1 c2 d : is_scheduled r b = false -> step (MkWorld b os l (c1 ++ r :: c2) d) (MkWorld b os l (c1 ++ c2) (r :: d))
| s_take i r b b' os l c d : os !! i = Some OWait -> take_ready b = Some (r, b') -> step (MkWorld b os l c d) (MkWorld b' (<[i := ODrain r]> os) l c d)
| s_event i r e b b' os l c d : os !! i = Some (ODrain r) -> next_event r b = Some (Some e, b') ->
    step (MkWorld b os l c d) (MkWorld b' (<[i := OHandler r e]> os) l c d)
| s_handled i r e b os l c d : os !! i = Some (OHandler r e) -> step (MkWorld b os l c d) (MkWorld (delivered b) (<[i := ODrain r]> os) l c d)
| s_empty i r b b' os l c d : os !! i = Some (ODrain r) -> next_event r b = Some (None, b') -> step (MkWorld b os l c d) (MkWorld b' (<[i := OLeave]> os) l c d)
| s_leave i b os l c d : os !! i = Some OLeave -> step (MkWorld b os l c d) (MkWorld (leave b) (<[i := OWait]> os) l c d)
| s_shutdown b os l c d : step (MkWorld b os l c d) (MkWorld (shutdown b) os l c d)
| s_gone i b os l c d : os !! i = Some OWait -> eb_stopped b = true -> step (MkWorld b os l c d) (MkWorld b (<[i := OGone]> os) l c d).

Definition start (capacity observers : nat) : world := MkWorld (make capacity) (replicate observers OWait) [] [] [].
