(* ===== verification/EventBusProofs.v ===== *)
(** The event bus delivers: whatever the threads do, each subscription gets
    what it accepted, in order, one handler at a time, and nothing after a
    [Cancel] that waited. *)

From stdpp Require Import base numbers list strings option relations.
From Stdlib Require Import ZArith Lia Ascii String.
From S2P Require Import Prelude Types Double Json EventBus.

Local Open Scope Z_scope.
Import Bus.

(** ** The invariant *)

Definition in_ready (r : nat) (x : nat) : bool := bool_decide (x = r).
Definition in_hand (r : nat) (o : observer) : bool := match o with ODrain x | OHandler x _ => bool_decide (x = r) | _ => false end.
Definition handling (o : observer) : bool := match o with OHandler _ _ => true | _ => false end.
Definition active (o : observer) : bool := match o with ODrain _ | OHandler _ _ | OLeave => true | _ => false end.
(** The drain tasks of a subscription, queued and running. *)
Definition tasks (b : EventBus) (os : list observer) (r : nat) : nat := (count (in_ready r) (eb_ready b) + count (in_hand r) os)%nat.

(** A subscription with [n] drain tasks. *)
Record sound (capacity : nat) (stopped : bool) (n : nat) (s : Subscription) : Prop := {
  so_one : (n <= 1)%nat;
  so_scheduled : n = 1%nat -> sb_scheduled s = true;
  so_task : stopped = false -> sb_scheduled s = true -> n = 1%nat;
  so_pending : sb_queue s <> [] -> sb_scheduled s = true;
  so_room : (List.length (sb_queue s) <= capacity)%nat;
  so_order : if sb_cancelled s then sb_queue s = [] /\ sb_handled s `prefix_of` sb_accepted s else sb_accepted s = (sb_handled s ++ sb_queue s)%list;
  so_accepted : sb_accepted s `sublist_of` sb_matched s;
  so_dropped : sb_dropped s = Word.u64 (Z.of_nat (List.length (sb_matched s)) - Z.of_nat (List.length (sb_accepted s)));
}.
Definition total_handled (h : list Subscription) : nat := list_sum (map (fun s => List.length (sb_handled s)) h).

(** [d]: the cancelled subscriptions, and whether a [Cancel] has waited. *)
Record bus_ok (b : EventBus) (os : list observer) (d : list (nat * bool)) : Prop := {
  bo_sound : forall r s, eb_heap b !! r = Some s -> sound (eb_capacity b) (eb_stopped b) (tasks b os r) s;
  bo_fresh : forall r, (List.length (eb_heap b) <= r)%nat -> tasks b os r = 0%nat;
  bo_table : forall id r, (id, r) ∈ eb_subscriptions b -> (r < List.length (eb_heap b))%nat;
  bo_running : eb_running b = Word.u32 (Z.of_nat (count active os));
  bo_delivered : eb_delivered b = Word.u64 (Z.of_nat (total_handled (eb_heap b)) - Z.of_nat (count handling os));
  bo_cancelled : forall r w, (r, w) ∈ d -> exists s, eb_heap b !! r = Some s /\ sb_cancelled s = true /\ (w = true -> sb_scheduled s = false);
}.
Definition cancels (w : world) : list (nat * bool) := (map (fun r => (r, false)) (w_cancelling w) ++ map (fun r => (r, true)) (w_cancelled w))%list.
Definition world_ok (w : world) : Prop := bus_ok (w_bus w) (w_observers w) (cancels w).

(** ** Changes of one subscription *)

Lemma total_insert h r s s' : h !! r = Some s ->
  (total_handled (<[r := s']> h) + List.length (sb_handled s))%nat = (total_handled h + List.length (sb_handled s'))%nat.
Proof.
  unfold total_handled. revert r. induction h as [|x h IH]; intros [|r] H; simpl in *; try done.
  - injection H as ->. lia.
  - specialize (IH r H). lia.
Qed.
(** A subscription that was cancelled, and waited for, stays so. *)
Definition follows (s s' : Subscription) : Prop :=
  (sb_cancelled s = true -> sb_cancelled s' = true) /\ (sb_cancelled s = true -> sb_scheduled s = false -> sb_scheduled s' = false).
Lemma changes r s s' b b' os os' d : bus_ok b os d -> eb_heap b !! r = Some s -> eb_heap b' = <[r := s']> (eb_heap b) ->
  eb_capacity b' = eb_capacity b -> eb_stopped b' = eb_stopped b -> incl (eb_subscriptions b') (eb_subscriptions b) -> follows s s' ->
  (forall x, x <> r -> tasks b' os' x = tasks b os x) -> sound (eb_capacity b) (eb_stopped b) (tasks b' os' r) s' ->
  eb_running b' = Word.u32 (Z.of_nat (count active os')) ->
  eb_delivered b' = Word.u64 (Z.of_nat (total_handled (eb_heap b')) - Z.of_nat (count handling os')) -> bus_ok b' os' d.
Proof.
  intros [B1 B2 B3 _ _ B6] Hr Hh Hc Hst Hsub [F1 F2] Ht Hs Hrun Hdel. pose proof (lookup_lt_Some _ _ _ Hr) as Hlt. split; try done.
  - intros x sx. rewrite Hh, Hc, Hst. destruct (decide (x = r)) as [->|Hx].
    + rewrite list_lookup_insert_eq by done. by intros [= <-].
    + rewrite list_lookup_insert_ne, Ht by done. apply B1.
  - intros x. rewrite Hh, length_insert. intros L. rewrite Ht by lia. by apply B2.
  - intros id x Hin. rewrite Hh, length_insert. apply (B3 id), list_elem_of_In, Hsub, list_elem_of_In, Hin.
  - intros x w Hx. destruct (B6 x w Hx) as (sx & E1 & E2 & E3). rewrite Hh. destruct (decide (x = r)) as [->|Hn].
    + rewrite list_lookup_insert_eq by done. rewrite Hr in E1. injection E1 as ->. exists s'. naive_solver.
    + rewrite list_lookup_insert_ne by done. by exists sx.
Qed.
(** A section that leaves the subscriptions alone. *)
Lemma bus_aside b b' os os' d : bus_ok b os d -> eb_heap b' = eb_heap b -> eb_capacity b' = eb_capacity b -> eb_stopped b' = eb_stopped b ->
  eb_subscriptions b' = eb_subscriptions b -> (forall x, tasks b' os' x = tasks b os x) -> eb_running b' = Word.u32 (Z.of_nat (count active os')) ->
  eb_delivered b' = Word.u64 (Z.of_nat (total_handled (eb_heap b)) - Z.of_nat (count handling os')) -> bus_ok b' os' d.
Proof.
  intros [B1 B2 B3 _ _ B6] Hh Hc Hst Hsub Ht Hrun Hdel. split; rewrite ?Hh, ?Hc, ?Hst, ?Hsub; try done; [intros r s E|intros r L]; rewrite Ht; [by apply B1|by apply B2].
Qed.

(** ** The sections *)

Lemma ready_ne x r : x <> r -> in_ready x r = false.
Proof. intros H. unfold in_ready. by case_bool_decide. Qed.
Lemma ready_eq r : in_ready r r = true.
Proof. unfold in_ready. by case_bool_decide. Qed.
Lemma hand_ne x o r : in_hand r o = true -> x <> r -> in_hand x o = false.
Proof. destruct o; simpl; try done; do 2 case_bool_decide; congruence. Qed.
Lemma same_delivered r s s' b os d : bus_ok b os d -> eb_heap b !! r = Some s -> sb_handled s' = sb_handled s ->
  eb_delivered b = Word.u64 (Z.of_nat (total_handled (<[r := s']> (eb_heap b))) - Z.of_nat (count handling os)).
Proof. intros B E H. rewrite (bo_delivered _ _ _ B). do 2 f_equal. pose proof (total_insert _ r s s' E) as T. rewrite H in T. lia. Qed.

Lemma accept_sound cap stopped n s e : sound cap stopped n s -> sb_cancelled s = false -> (List.length (sb_queue s) < cap)%nat ->
  sound cap stopped (if sb_scheduled s then n else 1%nat) (MkSubscription (sb_id s) (sb_filter s) (sb_queue s ++ [e]) true (sb_cancelled s) (sb_dropped s) (sb_since s)
    (sb_matched s ++ [e]) (sb_accepted s ++ [e]) (sb_handled s)).
Proof.
  intros [S1 S2 S3 S4 S5 S6 S7 S8] C L. rewrite C in S6. split; simpl; try done.
  - by destruct (sb_scheduled s).
  - destruct (sb_scheduled s); [by apply S3|done].
  - rewrite length_app. simpl. lia.
  - by rewrite C, S6, app_assoc.
  - by apply sublist_app.
  - rewrite S8, !length_app. simpl. f_equal. lia.
Qed.
Lemma offer_ok e b r os d : bus_ok b os d -> bus_ok (offer e b r) os d.
Proof.
  intros B. unfold offer. destruct (eb_heap b !! r) as [s|] eqn:E; [|done]. destruct (sb_cancelled s) eqn:C; [done|]. cbn [orb].
  destruct (Matches _ e); [|done]. cbn [negb]. destruct (bo_sound _ _ _ B r s E) as [S1 S2 S3 S4 S5 S6 S7 S8]. rewrite C in S6.
  destruct (Nat.leb_spec (eb_capacity b) (List.length (sb_queue s))) as [L|L].
  - eapply (changes r s); [done|exact E|done..|apply incl_refl| |done| |apply B|by apply (same_delivered r s _ b os d)].
    + split; simpl; congruence.
    + split; try done; simpl; [by apply sublist_inserts_r|]. rewrite S8, length_app, Word.u64_plus. simpl. f_equal. lia.
  - assert (T : forall x, tasks (with_heap (<[r := s]> (eb_heap b)) (if sb_scheduled s then eb_ready b else (eb_ready b ++ [r])%list) b) os x =
      (tasks b os x + if sb_scheduled s then 0 else Nat.b2n (in_ready x r))%nat).
    { intros x. unfold tasks. simpl. destruct (sb_scheduled s); [lia|]. rewrite count_snoc. lia. }
    eapply (changes r s); [done|exact E|done..|apply incl_refl| | | |apply B|by apply (same_delivered r s _ b os d)].
    + split; simpl; congruence.
    + intros x Hx. etrans; [apply T|]. rewrite ready_ne by done. destruct (sb_scheduled s); simpl; lia.
    + assert (N : (tasks b os r + (if sb_scheduled s then 0 else Nat.b2n (in_ready r r)) = if sb_scheduled s then tasks b os r else 1)%nat).
      { rewrite ready_eq. destruct (sb_scheduled s); simpl; [lia|]. destruct (decide (tasks b os r = 1%nat)) as [D|D]; [by apply S2 in D|lia]. }
      pose proof (accept_sound _ _ _ _ e (bo_sound _ _ _ B r s E) C L) as A. rewrite <- N, <- T, C in A. exact A.
Qed.
Lemma publish_ok e b os d : bus_ok b os d -> bus_ok (Publish e b) os d.
Proof.
  intros B. unfold Publish. assert (B1 : bus_ok (log_event e b) os d) by (by eapply bus_aside; [exact B|try done; apply B..]).
  revert B1. generalize (log_event e b). clear B. intros b1.
  generalize (map snd (eb_subscriptions b)). intros l. revert b1. induction l as [|r l IH]; intros b1 B; [done|]. simpl. by apply IH, offer_ok.
Qed.

Lemma set_member {V} (k : Z) (v : V) m kv : In kv (SMap.set k v m) -> kv = (k, v) \/ In kv m.
Proof. induction m as [|[k' v'] m IH]; simpl; [naive_solver|]. repeat case_match; simpl; naive_solver. Qed.
Lemma subscribe_ok f b os d : bus_ok b os d -> bus_ok (Subscribe f b).2 os d.
Proof.
  intros [B1 B2 B3 B4 B5 B6]. unfold Subscribe. set (s := MkSubscription _ f _ _ _ _ _ _ _ _). split; simpl; try done.
  - intros r s'. destruct (decide (r = List.length (eb_heap b))) as [->|Hr].
    + rewrite lookup_app_r, Nat.sub_diag by lia. intros [= <-]. change (tasks _ os ?r) with (tasks b os r). rewrite B2 by lia.
      split; simpl; try done; lia.
    + intros E. assert (r < List.length (eb_heap b))%nat. { apply lookup_lt_Some in E. rewrite length_app in E. simpl in E. lia. }
      rewrite lookup_app_l in E by done. by apply B1.
  - intros r. rewrite length_app. simpl. intros L. apply B2. lia.
  - intros id r Hin. rewrite length_app. simpl. apply list_elem_of_In, set_member in Hin. destruct Hin as [[= _ ->]|Hin]; [lia|]. apply list_elem_of_In, B3 in Hin. lia.
  - rewrite B5. unfold total_handled. rewrite map_app, list_sum_app. simpl. do 2 f_equal. lia.
  - intros r w Hr. destruct (B6 r w Hr) as (s' & E & ?). exists s'. split; [|done]. by apply lookup_app_l_Some.
Qed.
Lemma cancel_sound cap stopped n s : sound cap stopped n s ->
  sound cap stopped n (MkSubscription (sb_id s) (sb_filter s) [] (sb_scheduled s) true (sb_dropped s) (sb_since s) (sb_matched s) (sb_accepted s) (sb_handled s)).
Proof.
  intros [S1 S2 S3 S4 S5 S6 S7 S8]. split; simpl; try done; [lia|]. split; [done|]. destruct (sb_cancelled s); [apply S6|]. rewrite S6. by eexists.
Qed.
Lemma cancel_ok id b os d : bus_ok b os d -> bus_ok (Cancel id b).2 os d /\
  forall r, (Cancel id b).1 = Some r -> exists s, eb_heap (Cancel id b).2 !! r = Some s /\ sb_cancelled s = true.
Proof.
  intros B. unfold Cancel. destruct (SMap.find _ _) as [r|] eqn:E; [|done]. apply SMap.find_In, list_elem_of_In, (bo_table _ _ _ B), lookup_lt_is_Some in E as [s E].
  rewrite E. split.
  - eapply (changes r s); [exact B|exact E|done..|apply incl_filter| |done|by apply cancel_sound, (bo_sound _ _ _ B)|apply B|by apply (same_delivered r s _ b os d)]. by split.
  - simpl. intros ? [= <-]. rewrite list_lookup_insert_eq by (by eapply lookup_lt_Some). by eexists.
Qed.

Lemma hand_moves i o o' os b : os !! i = Some o -> (forall r, in_hand r o' = in_hand r o) -> forall r, tasks b (<[i := o']> os) r = tasks b os r.
Proof. intros H E r. unfold tasks. pose proof (count_insert (in_hand r) os i o o' H) as C. rewrite E in C. lia. Qed.
Lemma take_ok i r b b' os d : os !! i = Some OWait -> take_ready b = Some (r, b') -> bus_ok b os d -> bus_ok b' (<[i := ODrain r]> os) d.
Proof.
  intros Hi H B. unfold take_ready in H. destruct (eb_stopped b); [done|]. destruct (eb_ready b) as [|x rest] eqn:E; [done|]. injection H as <- <-.
  eapply bus_aside; [exact B|done..| | |].
  - intros y. unfold tasks. simpl. rewrite E. simpl. pose proof (count_insert (in_hand y) os i OWait (ODrain x) Hi) as C. simpl in C.
    unfold in_ready at 2. lia.
  - simpl. rewrite (bo_running _ _ _ B), Word.u32_plus. f_equal. pose proof (count_insert active os i _ (ODrain x) Hi). simpl in *. lia.
  - simpl. rewrite (bo_delivered _ _ _ B). pose proof (count_insert handling os i _ (ODrain x) Hi). simpl in *. do 2 f_equal. lia.
Qed.
Lemma event_ok i r e b b' os d : os !! i = Some (ODrain r) -> next_event r b = Some (Some e, b') -> bus_ok b os d -> bus_ok b' (<[i := OHandler r e]> os) d.
Proof.
  intros Hi H B. unfold next_event in H. destruct (eb_heap b !! r) as [s|] eqn:E; [|done]. destruct (sb_cancelled s) eqn:C; [done|].
  destruct (sb_queue s) as [|x q] eqn:Q; [done|]. injection H as <- <-. destruct (bo_sound _ _ _ B r s E) as [S1 S2 S3 S4 S5 S6 S7 S8]. rewrite C in S6.
  eapply (changes r s); [exact B|exact E|done..|apply incl_refl| | | | |].
  - split; simpl; congruence.
  - intros y _. by apply (hand_moves i (ODrain r) _ os b).
  - replace (tasks _ _ r) with (tasks b os r) by (symmetry; by apply (hand_moves i (ODrain r) _ os b)). rewrite Q in *. split; simpl; try done; [by intros _; apply S4|simpl in *; lia|].
    by rewrite S6, <- app_assoc.
  - simpl. rewrite (bo_running _ _ _ B). do 2 f_equal. pose proof (count_insert active os i _ (OHandler r x) Hi). simpl in *. lia.
  - simpl. rewrite (bo_delivered _ _ _ B). f_equal. pose proof (count_insert handling os i _ (OHandler r x) Hi).
    pose proof (total_insert _ r s (MkSubscription (sb_id s) (sb_filter s) q (sb_scheduled s) false (sb_dropped s) (sb_since s) (sb_matched s) (sb_accepted s) (sb_handled s ++ [x])) E) as T.
    simpl in *. rewrite length_app in T. simpl in T. lia.
Qed.

Lemma handled_ok i r e b os d : os !! i = Some (OHandler r e) -> bus_ok b os d -> bus_ok (delivered b) (<[i := ODrain r]> os) d.
Proof.
  intros Hi B. eapply bus_aside; [exact B|done..| | |].
  - intros y. by apply (hand_moves i (OHandler r e) _ os b).
  - simpl. rewrite (bo_running _ _ _ B). do 2 f_equal. pose proof (count_insert active os i _ (ODrain r) Hi). simpl in *. lia.
  - simpl. rewrite (bo_delivered _ _ _ B), Word.u64_plus. f_equal. pose proof (count_insert handling os i _ (ODrain r) Hi). simpl in *. lia.
Qed.
Lemma empty_ok i r b b' os d : os !! i = Some (ODrain r) -> next_event r b = Some (None, b') -> bus_ok b os d -> bus_ok b' (<[i := OLeave]> os) d.
Proof.
  intros Hi H B. unfold next_event in H. destruct (eb_heap b !! r) as [s|] eqn:E; [|done]. destruct (bo_sound _ _ _ B r s E) as [S1 S2 S3 S4 S5 S6 S7 S8].
  assert (Q : sb_queue s = [] /\ b' = with_heap (<[r := MkSubscription (sb_id s) (sb_filter s) (sb_queue s) false (sb_cancelled s) (sb_dropped s) (sb_since s)
    (sb_matched s) (sb_accepted s) (sb_handled s)]> (eb_heap b)) (eb_ready b) b).
  { destruct (sb_cancelled s); [injection H as <-; by destruct S6|]. destruct (sb_queue s); [by injection H as <-|done]. }
  destruct Q as [Q ->]. clear H. assert (C : forall x, (tasks b (<[i := OLeave]> os) x + Nat.b2n (bool_decide (r = x)) = tasks b os x)%nat).
  { intros x. unfold tasks. pose proof (count_insert (in_hand x) os i _ OLeave Hi). simpl in *. lia. }
  eapply (changes r s); [exact B|exact E|done..|apply incl_refl| | | | |].
  - split; simpl; done.
  - intros x Hx. specialize (C x). rewrite bool_decide_eq_false_2 in C by done. change (tasks b (<[i := OLeave]> os) x = tasks b os x). simpl in C. lia.
  - specialize (C r). rewrite bool_decide_eq_true_2 in C by done. simpl in C.
    replace (tasks _ _ r) with 0%nat by (change (0 = tasks b (<[i := OLeave]> os) r)%nat; lia). split; simpl; try done; try lia; by rewrite ?Q.
  - simpl. rewrite (bo_running _ _ _ B). do 2 f_equal. pose proof (count_insert active os i _ OLeave Hi). simpl in *. lia.
  - assert (count handling (<[i := OLeave]> os) = count handling os) as -> by (pose proof (count_insert handling os i _ OLeave Hi); simpl in *; lia).
    by apply (same_delivered r s _ b os d).
Qed.
Lemma leave_ok i b os d : os !! i = Some OLeave -> bus_ok b os d -> bus_ok (leave b) (<[i := OWait]> os) d.
Proof.
  intros Hi B. eapply bus_aside; [exact B|done..| | |].
  - intros y. by apply (hand_moves i OLeave _ os b).
  - simpl. rewrite (bo_running _ _ _ B). rewrite <- Z.add_opp_r, Word.u32_plus. f_equal. pose proof (count_insert active os i _ OWait Hi). simpl in *. lia.
  - simpl. rewrite (bo_delivered _ _ _ B). do 2 f_equal. pose proof (count_insert handling os i _ OWait Hi). simpl in *. lia.
Qed.
Lemma shutdown_ok b os d : bus_ok b os d -> bus_ok (shutdown b) os d.
Proof.
  intros [B1 B2 B3 B4 B5 B6]. assert (T : forall r, (tasks (shutdown b) os r <= tasks b os r)%nat) by (intros r; unfold tasks; simpl; lia). split; try done.
  - intros r s E. specialize (T r). destruct (B1 r s E) as [S1 S2 S3 S4 S5 S6 S7 S8]. split; try done; [lia|]. intros N. apply S2. lia.
  - intros r L. specialize (T r). specialize (B2 r L). lia.
Qed.
Lemma gone_ok i b os d : os !! i = Some OWait -> bus_ok b os d -> bus_ok b (<[i := OGone]> os) d.
Proof.
  intros Hi B. eapply bus_aside; [exact B|done..| | |].
  - by apply (hand_moves i OWait).
  - rewrite (bo_running _ _ _ B). do 2 f_equal. pose proof (count_insert active os i _ OGone Hi). simpl in *. lia.
  - rewrite (bo_delivered _ _ _ B). do 2 f_equal. pose proof (count_insert handling os i _ OGone Hi). simpl in *. lia.
Qed.

(** ** Histories *)

Lemma stamp_ok now e b os d : bus_ok b os d -> bus_ok (Stamp now e b).2 os d.
Proof. intros B. unfold Stamp. destruct (ev_id e =? 0); [|done]. eapply bus_aside; [exact B|try done; apply B..]. Qed.
Lemma bus_ok_cancels b os d d' : (forall r w, (r, w) ∈ d' -> (r, w) ∈ d \/ exists s, eb_heap b !! r = Some s /\ sb_cancelled s = true /\ (w = true -> sb_scheduled s = false)) ->
  bus_ok b os d -> bus_ok b os d'.
Proof. intros H [B1 B2 B3 B4 B5 B6]. split; try done. intros r w Hr. destruct (H r w Hr) as [Hd|Hd]; [by apply B6|done]. Qed.
Lemma bus_step_ok w w' : step w w' -> world_ok w -> world_ok w'.
Proof.
  unfold world_ok. destruct 1 as [now e b os l c d|e b os l1 l2 c d|f b os l c d|id self b os l c d|r b os l c1 c2 d Hr|i r b b' os l c d Hi H|
    i r e b b' os l c d Hi H|i r e b os l c d Hi|i r b b' os l c d Hi H|i b os l c d Hi|b os l c d|i b os l c d Hi _]; unfold cancels; simpl; intros B.
  - by apply stamp_ok.
  - by apply publish_ok.
  - by apply subscribe_ok.
  - destruct (cancel_ok id _ _ _ B) as [B' Hc]. eapply bus_ok_cancels; [|exact B']. intros r w Hin. destruct (Cancel id b).1 as [x|]; [|by left]. destruct self; [by left|].
    simpl in Hin. apply elem_of_cons in Hin as [[= -> ->]|Hin]; [|by left]. right. destruct (Hc x eq_refl) as (s & E & C). by exists s.
  - eapply bus_ok_cancels; [|exact B]. intros x w. rewrite map_app. simpl. rewrite !elem_of_app, !elem_of_cons. intros [Hx|[[= -> ->]|Hx]].
    + left. rewrite map_app, !elem_of_app in *. simpl. rewrite elem_of_cons. naive_solver.
    + right. destruct (bo_cancelled _ _ _ B r false) as (s & E & C & _). { rewrite map_app, !elem_of_app. simpl. rewrite elem_of_cons. naive_solver. }
      exists s. split; [done|]. split; [done|]. intros _. unfold is_scheduled in Hr. by rewrite E in Hr.
    + left. by right.
  - by eapply take_ok.
  - by eapply event_ok.
  - by eapply handled_ok.
  - by eapply empty_ok.
  - by eapply leave_ok.
  - by apply shutdown_ok.
  - by apply gone_ok.
Qed.
Lemma count_replicate {A} (f : A -> bool) n x : f x = false -> count f (replicate n x) = 0%nat.
Proof. intros H. induction n as [|n IH]; simpl; [done|]. by rewrite H, IH. Qed.
Lemma start_ok capacity observers : world_ok (start capacity observers).
Proof.
  split; simpl; try done.
  - intros r _. unfold tasks. simpl. by apply count_replicate.
  - intros id r Hin. by apply not_elem_of_nil in Hin.
  - by rewrite count_replicate.
  - by rewrite count_replicate.
  - intros r w Hin. by apply not_elem_of_nil in Hin.
Qed.
Lemma history_ok capacity observers w : rtc step (start capacity observers) w -> world_ok w.
Proof.
  intros H. assert (O := start_ok capacity observers). revert O. generalize (start capacity observers) H. clear. intros w0 H. induction H; [done|]. eauto using bus_step_ok.
Qed.

(** ** What is offered *)

(** [s'] is [s] with the events [l] offered; it may have been cancelled. *)
Definition offered (l : list Event) (s s' : Subscription) : Prop :=
  sb_filter s' = sb_filter s /\ sb_since s' = sb_since s /\ sb_cancelled s' = sb_cancelled s /\ sb_matched s' = (sb_matched s ++ l)%list.
Definition accepts (e : Event) (s : Subscription) : list Event := if sb_cancelled s || negb (Matches (sb_filter s) e) then [] else [e].
Definition same_table (b b' : EventBus) : Prop :=
  eb_subscriptions b' = eb_subscriptions b /\ eb_next_id b' = eb_next_id b /\ eb_log b' = eb_log b /\ List.length (eb_heap b') = List.length (eb_heap b).
Lemma offer_table e b r : same_table b (offer e b r).
Proof. unfold offer. repeat case_match; try done; repeat split; simpl; by rewrite length_insert. Qed.
Lemma offer_offered e b r x s : eb_heap b !! x = Some s ->
  exists s', eb_heap (offer e b r) !! x = Some s' /\ offered (if decide (x = r) then accepts e s else []) s s'.
Proof.
  intros E. destruct (decide (x = r)) as [->|Hx].
  - unfold offer, accepts. rewrite E. pose proof (lookup_lt_Some _ _ _ E) as L. destruct (sb_cancelled s || _) eqn:C.
    + exists s. repeat split; [done|by rewrite app_nil_r].
    + case_match; simpl; rewrite list_lookup_insert_eq by done; (eexists; split; [done|]); repeat split.
  - exists s. split; [|repeat split; by rewrite app_nil_r]. unfold offer. repeat case_match; try done; simpl; by rewrite list_lookup_insert_ne.
Qed.
Lemma offers_offered e l : forall b, NoDup l -> same_table b (fold_left (offer e) l b) /\ forall x s, eb_heap b !! x = Some s ->
  exists s', eb_heap (fold_left (offer e) l b) !! x = Some s' /\ offered (if decide (x ∈ l) then accepts e s else []) s s'.
Proof.
  induction l as [|r l IH]; intros b H; simpl.
  - split; [done|]. intros x s E. exists s. split; [done|]. repeat split. by rewrite app_nil_r.
  - apply NoDup_cons in H as [Hr Hl]. destruct (IH (offer e b r) Hl) as [T I]. destruct (offer_table e b r) as (T1 & T2 & T3 & T4). split.
    { destruct T as (U1 & U2 & U3 & U4). repeat split; congruence. }
    intros x s E. destruct (offer_offered e b r x s E) as (s1 & E1 & F1 & F2 & F3 & F4). destruct (I x s1 E1) as (s2 & E2 & G1 & G2 & G3 & G4).
    exists s2. split; [done|]. repeat split; try congruence. rewrite G4, F4, <- app_assoc. f_equal.
    assert (A : accepts e s1 = accepts e s) by (unfold accepts; by rewrite F3, F1). rewrite A.
    destruct (decide (x = r)) as [->|Hx]; [rewrite decide_False, decide_True, app_nil_r by (done || by apply elem_of_cons; left); done|].
    destruct (decide (x ∈ l)); [rewrite decide_True by (by apply elem_of_cons; right)|rewrite decide_False by (rewrite elem_of_cons; tauto)]; done.
Qed.

(** The events a subscription should be offered. *)
Definition due (b : EventBus) (s : Subscription) : list Event := List.filter (Matches (sb_filter s)) (drop (sb_since s) (eb_log b)).
Record logged (b : EventBus) : Prop := {
  lg_next : eb_next_id b = Z.of_nat (List.length (eb_heap b)) + 1;
  lg_sorted : SMap.sorted (eb_subscriptions b);
  lg_ids : forall id r, (id, r) ∈ eb_subscriptions b -> id = Z.of_nat r + 1 /\ exists s, eb_heap b !! r = Some s /\ sb_cancelled s = false;
  lg_listed : forall r s, eb_heap b !! r = Some s -> sb_cancelled s = false -> (Z.of_nat r + 1, r) ∈ eb_subscriptions b;
  lg_matched : forall r s, eb_heap b !! r = Some s -> (sb_since s <= List.length (eb_log b))%nat /\
    if sb_cancelled s then sb_matched s `prefix_of` due b s else sb_matched s = due b s;
}.
Lemma logged_refs b : logged b -> NoDup (map snd (eb_subscriptions b)).
Proof.
  intros [_ L2 L3 _ _]. pose proof (SMap.sorted_keys_NoDup _ L2) as N. assert (E : (eb_subscriptions b).*1 = map (fun r => Z.of_nat r + 1) (map snd (eb_subscriptions b))).
  { rewrite map_map. apply map_ext_in. intros [id r] Hin. apply list_elem_of_In, L3 in Hin as [-> _]. done. }
  rewrite E in N. by eapply NoDup_fmap_1.
Qed.
Lemma publish_logged e b : logged b -> logged (Publish e b).
Proof.
  intros L. pose proof (logged_refs b L) as N. destruct L as [L1 L2 L3 L4 L5]. unfold Publish.
  destruct (offers_offered e (map snd (eb_subscriptions b)) (log_event e b) N) as [(T1 & T2 & T3 & T4) O]. simpl in T1, T2, T3, T4, O.
  assert (P : forall r s', eb_heap (fold_left (offer e) (map snd (eb_subscriptions b)) (log_event e b)) !! r = Some s' -> exists s, eb_heap b !! r = Some s /\
    offered (if decide (r ∈ map snd (eb_subscriptions b)) then accepts e s else []) s s').
  { intros r s' E. destruct (eb_heap b !! r) as [s|] eqn:E0; [|apply lookup_ge_None in E0; apply lookup_lt_Some in E; rewrite T4 in E; lia].
    destruct (O r s E0) as (s1 & E1 & Ho). rewrite E in E1. injection E1 as <-. by exists s. }
  split; rewrite ?T1, ?T2, ?T3, ?T4; try done.
  - intros id r Hin. destruct (L3 id r Hin) as (-> & s & E & C). split; [done|]. destruct (O r s E) as (s' & E' & (_ & _ & C' & _)). exists s'. by rewrite C'.
  - intros r s' E C. destruct (P r s' E) as (s & E0 & _ & _ & C' & _). apply (L4 r s E0). congruence.
  - intros r s' E. destruct (P r s' E) as (s & E0 & F1 & F2 & F3 & F4). destruct (L5 r s E0) as [Hs Hm]. rewrite F2, F3, F4, length_app. split; [lia|].
    unfold due in *. rewrite F1, F2, T3, drop_app_le by done. rewrite List.filter_app. destruct (sb_cancelled s) eqn:C.
    + unfold accepts. rewrite C. simpl. assert ((if decide (r ∈ map snd (eb_subscriptions b)) then [] else []) = @nil Event) as -> by (by destruct (decide _)).
      rewrite app_nil_r. by apply prefix_app_r.
    + rewrite decide_True by (apply list_elem_of_In, in_map_iff; exists (Z.of_nat r + 1, r); split; [done|]; apply list_elem_of_In; by eapply L4).
      rewrite Hm. f_equal. unfold accepts. rewrite C. simpl. by destruct (Matches (sb_filter s) e).
Qed.

Lemma logged_same b b' : same_table b b' -> (forall r s, eb_heap b !! r = Some s -> exists s', eb_heap b' !! r = Some s' /\ offered [] s s') -> logged b -> logged b'.
Proof.
  intros (T1 & T2 & T3 & T4) O [L1 L2 L3 L4 L5].
  assert (P : forall r s', eb_heap b' !! r = Some s' -> exists s, eb_heap b !! r = Some s /\ offered [] s s').
  { intros r s' E. destruct (eb_heap b !! r) as [s|] eqn:E0; [|apply lookup_ge_None in E0; apply lookup_lt_Some in E; lia].
    destruct (O r s E0) as (s1 & E1 & Ho). rewrite E in E1. injection E1 as <-. by exists s. }
  split; rewrite ?T1, ?T2, ?T3, ?T4; try done.
  - intros id r Hin. destruct (L3 id r Hin) as (-> & s & E & C). split; [done|]. destruct (O r s E) as (s' & E' & (_ & _ & C' & _)). exists s'. by rewrite C'.
  - intros r s' E C. destruct (P r s' E) as (s & E0 & _ & _ & C' & _). apply (L4 r s E0). congruence.
  - intros r s' E. destruct (P r s' E) as (s & E0 & F1 & F2 & F3 & F4). destruct (L5 r s E0) as [Hs Hm]. unfold due in *. rewrite app_nil_r in F4.
    by rewrite F1, F2, F3, F4, T3.
Qed.
Lemma offered_refl s : offered [] s s.
Proof. repeat split. by rewrite app_nil_r. Qed.
Lemma next_event_logged r b o b' : next_event r b = Some (o, b') -> logged b -> logged b'.
Proof.
  unfold next_event. destruct (eb_heap b !! r) as [s|] eqn:E; [|done]. intros H. pose proof (lookup_lt_Some _ _ _ E) as Hlt.
  assert (X : exists s', b' = with_heap (<[r := s']> (eb_heap b)) (eb_ready b) b /\ offered [] s s').
  { destruct (if sb_cancelled s then [] else sb_queue s); injection H as _ <-; (eexists; split; [done|]); repeat split; by rewrite app_nil_r. }
  destruct X as (s' & -> & O). apply logged_same; [repeat split; simpl; by rewrite length_insert|]. intros x sx Ex. simpl. destruct (decide (x = r)) as [->|Hx].
  - rewrite list_lookup_insert_eq by done. rewrite E in Ex. injection Ex as <-. by exists s'.
  - rewrite list_lookup_insert_ne by done. exists sx. split; [done|apply offered_refl].
Qed.
Lemma subscribe_logged f b : Z.of_nat (List.length (eb_heap b)) + 2 < 2 ^ 64 -> logged b -> logged (Subscribe f b).2.
Proof.
  intros B [L1 L2 L3 L4 L5]. unfold Subscribe. set (s := MkSubscription _ f _ _ _ _ _ _ _ _). split; simpl.
  - rewrite length_app, L1, Word.u64_small by (unfold Word.is_u64; lia). simpl. lia.
  - by apply SMap.set_sorted.
  - intros id r Hin. apply list_elem_of_In, set_member in Hin as [[= -> ->]|Hin].
    + split; [done|]. exists s. by rewrite lookup_app_r, Nat.sub_diag by lia.
    + apply list_elem_of_In, L3 in Hin as (-> & s' & E & C). split; [done|]. exists s'. split; [by apply lookup_app_l_Some|done].
  - intros r s' E C. rewrite L1. destruct (decide (r = List.length (eb_heap b))) as [->|Hr].
    + apply list_elem_of_In, SMap.find_In. by rewrite SMap.find_set_eq.
    + assert (r < List.length (eb_heap b))%nat by (apply lookup_lt_Some in E; rewrite length_app in E; simpl in E; lia). rewrite lookup_app_l in E by done.
      specialize (L4 r s' E C). apply list_elem_of_In, SMap.find_In. rewrite SMap.find_set_ne by lia. apply SMap.sorted_In_find; [done|]. by apply list_elem_of_In.
  - intros r s' E. destruct (decide (r = List.length (eb_heap b))) as [->|Hr].
    + rewrite lookup_app_r, Nat.sub_diag in E by lia. injection E as <-. simpl. split; [done|]. unfold due. simpl. by rewrite drop_all.
    + assert (r < List.length (eb_heap b))%nat by (apply lookup_lt_Some in E; rewrite length_app in E; simpl in E; lia). rewrite lookup_app_l in E by done. by apply (L5 r).
Qed.
Lemma cancel_logged id b : logged b -> logged (Cancel id b).2.
Proof.
  intros L. unfold Cancel. destruct (SMap.find id _) as [r|] eqn:E; [|done]. destruct L as [L1 L2 L3 L4 L5].
  apply SMap.find_In, list_elem_of_In in E. destruct (L3 id r E) as (-> & s & Es & C). rewrite Es. pose proof (lookup_lt_Some _ _ _ Es) as Hlt. split; simpl.
  - by rewrite length_insert.
  - by apply SMap.erase_sorted.
  - intros id' r' Hin. apply list_elem_of_In, filter_In in Hin as [Hin Hne]. simpl in Hne. apply list_elem_of_In in Hin. destruct (L3 id' r' Hin) as (-> & s' & Es' & C'). split; [done|].
    exists s'. split; [|done]. rewrite list_lookup_insert_ne; [done|]. intros ->. by apply negb_true_iff, bool_decide_eq_false in Hne.
  - intros r' s' Es' C'. destruct (decide (r' = r)) as [->|Hr]; [rewrite list_lookup_insert_eq in Es' by done; by injection Es' as <-|].
    rewrite list_lookup_insert_ne in Es' by done. apply list_elem_of_In, filter_In. split; [by apply list_elem_of_In, (L4 r' s')|]. simpl. apply negb_true_iff, bool_decide_eq_false. lia.
  - intros r' s' Es'. destruct (decide (r' = r)) as [->|Hr].
    + rewrite list_lookup_insert_eq in Es' by done. injection Es' as <-. simpl. destruct (L5 r s Es) as [Hs Hm]. rewrite C in Hm. split; [done|]. unfold due in *. simpl. by rewrite Hm.
    + rewrite list_lookup_insert_ne in Es' by done. by apply (L5 r').
Qed.

Lemma offers_length e l : forall b, List.length (eb_heap (fold_left (offer e) l b)) = List.length (eb_heap b).
Proof. induction l as [|r l IH]; intros b; simpl; [done|]. rewrite IH. apply offer_table. Qed.
Lemma next_event_length r b o b' : next_event r b = Some (o, b') -> List.length (eb_heap b') = List.length (eb_heap b).
Proof. unfold next_event. destruct (eb_heap b !! r); [|done]. destruct (if sb_cancelled _ then _ else _); intros [= _ <-]; simpl; apply length_insert. Qed.
Lemma step_grows w w' : step w w' -> (List.length (eb_heap (w_bus w)) <= List.length (eb_heap (w_bus w')))%nat.
Proof.
  destruct 1; simpl; try done.
  - unfold Stamp. by destruct (ev_id e =? 0).
  - unfold Publish. by rewrite offers_length.
  - rewrite length_app. lia.
  - unfold Cancel. repeat case_match; simpl; try done. by rewrite length_insert.
  - unfold take_ready in *. by repeat case_match; simplify_eq.
  - match goal with H : next_event _ _ = _ |- _ => by rewrite (next_event_length _ _ _ _ H) end.
  - match goal with H : next_event _ _ = _ |- _ => by rewrite (next_event_length _ _ _ _ H) end.
Qed.
Lemma logged_aside b b' : eb_heap b' = eb_heap b -> eb_subscriptions b' = eb_subscriptions b -> eb_next_id b' = eb_next_id b -> eb_log b' = eb_log b -> logged b -> logged b'.
Proof. intros H1 H2 H3 H4. apply logged_same; [repeat split; congruence|]. intros r s E. exists s. rewrite H1. split; [done|apply offered_refl]. Qed.
Lemma step_logged w w' : step w w' -> Z.of_nat (List.length (eb_heap (w_bus w'))) + 1 < 2 ^ 64 -> logged (w_bus w) -> logged (w_bus w').
Proof.
  destruct 1; simpl; intros B L; try done; try (by eapply logged_aside; [..|exact L]).
  - unfold Stamp. destruct (ev_id e =? 0); [|done]. by eapply logged_aside; [..|exact L].
  - by apply publish_logged.
  - apply subscribe_logged; [|done]. rewrite length_app in B. simpl in B. lia.
  - by apply cancel_logged.
  - unfold take_ready in *. repeat case_match; simplify_eq. by eapply logged_aside; [..|exact L].
  - by eapply next_event_logged.
  - by eapply next_event_logged.
Qed.
Lemma history_logged capacity observers w : rtc step (start capacity observers) w -> Z.of_nat (List.length (eb_heap (w_bus w))) + 1 < 2 ^ 64 -> logged (w_bus w).
Proof.
  intros H. assert (L : logged (w_bus (start capacity observers))).
  { split; simpl; try done; [constructor|intros id r Hin; by apply not_elem_of_nil in Hin]. }
  revert L. generalize (start capacity observers) H. clear. intros w0 H. assert (M : forall w w', rtc step w w' -> (List.length (eb_heap (w_bus w)) <= List.length (eb_heap (w_bus w')))%nat).
  { clear. intros w w' H. induction H as [|w1 w2 w3 H _ IH]; [done|]. apply step_grows in H. lia. }
  induction H as [|w1 w2 w3 H R IH]; intros L B; [done|]. apply IH; [|done]. eapply step_logged; [done| |done]. specialize (M _ _ R). lia.
Qed.

Lemma offers_capacity e l : forall b, eb_capacity (fold_left (offer e) l b) = eb_capacity b.
Proof. induction l as [|r l IH]; intros b; simpl; [done|]. rewrite IH. unfold offer. by repeat case_match. Qed.
Lemma step_fixed w w' : step w w' -> eb_capacity (w_bus w') = eb_capacity (w_bus w) /\ List.length (w_observers w') = List.length (w_observers w).
Proof.
  destruct 1; simpl; rewrite ?length_insert; try done.
  - unfold Stamp. by destruct (ev_id e =? 0).
  - unfold Publish. by rewrite offers_capacity.
  - unfold Cancel. by repeat case_match.
  - unfold take_ready in *. by repeat case_match; simplify_eq.
  - unfold next_event in *. by repeat case_match; simplify_eq.
  - unfold next_event in *. by repeat case_match; simplify_eq.
Qed.
Lemma history_fixed capacity observers w : rtc step (start capacity observers) w -> eb_capacity (w_bus w) = capacity /\ List.length (w_observers w) = observers.
Proof.
  intros H. assert (F : eb_capacity (w_bus (start capacity observers)) = capacity /\ List.length (w_observers (start capacity observers)) = observers) by (simpl; by rewrite length_replicate).
  revert F. generalize (start capacity observers) H. clear. intros w0 H. induction H as [|w1 w2 w3 H _ IH]; [done|]. intros F. apply IH. apply step_fixed in H. destruct H, F. split; congruence.
Qed.

(** ** Theorems *)

Definition runs (r : nat) (o : observer) : bool := match o with OHandler x _ => bool_decide (x = r) | _ => false end.

(** C25: an observer gets its events. Whatever threads publish, subscribe, cancel
    and observe, what was offered to a subscription that is not cancelled is
    exactly what was published since it was made and passes its filter; what
    it accepted of this is all but the counted drops; its handler has been
    called with what it accepted, in the order of publication, except for
    what is still queued, which never exceeds the capacity and has a drain
    task as long as the bus runs; and the handler never runs twice at a time. *)
Theorem events_in_order capacity observers w r s : rtc step (start capacity observers) w -> Z.of_nat (List.length (eb_heap (w_bus w))) + 1 < 2 ^ 64 ->
  eb_heap (w_bus w) !! r = Some s -> sb_cancelled s = false ->
  sb_matched s = List.filter (Matches (sb_filter s)) (drop (sb_since s) (eb_log (w_bus w))) /\
  sb_accepted s `sublist_of` sb_matched s /\
  sb_dropped s = Word.u64 (Z.of_nat (List.length (sb_matched s)) - Z.of_nat (List.length (sb_accepted s))) /\
  sb_accepted s = (sb_handled s ++ sb_queue s)%list /\ (List.length (sb_queue s) <= capacity)%nat /\
  (eb_stopped (w_bus w) = false -> sb_queue s <> [] -> r ∈ eb_ready (w_bus w) \/ exists i o, w_observers w !! i = Some o /\ in_hand r o = true) /\
  (count (runs r) (w_observers w) <= 1)%nat.
Proof.
  intros H B E C. pose proof (history_ok _ _ _ H) as O. pose proof (history_logged _ _ _ H B) as L. destruct (bo_sound _ _ _ O r s E) as [S1 S2 S3 S4 S5 S6 S7 S8].
  destruct (lg_matched _ L r s E) as [_ Hm]. rewrite C in Hm, S6. assert (Cap : eb_capacity (w_bus w) = capacity) by apply (history_fixed _ _ _ H).
  rewrite Cap in S5. repeat split; try done.
  - intros Hst Hq. specialize (S3 Hst (S4 Hq)). unfold tasks in S3. destruct (decide (0 < count (in_hand r) (w_observers w))%nat) as [P|P].
    + right. apply count_pos in P as (i & o & Ho & Hh). by exists i, o.
    + left. destruct (count_pos (in_ready r) (eb_ready (w_bus w))) as (i & x & Hx & Hr); [lia|]. unfold in_ready in Hr. apply bool_decide_eq_true in Hr as ->. by eapply list_elem_of_lookup_2.
  - etrans; [|exact S1]. unfold tasks. pose proof (count_le (runs r) (in_hand r) (w_observers w)) as Hle. specialize (Hle ltac:(by intros [])). lia.
Qed.

(** C26: a [Cancel] that waited is final: no observer thread runs the handler
    of the subscription, or holds it, in any later state. *)
Theorem cancel_final capacity observers w r : rtc step (start capacity observers) w -> r ∈ w_cancelled w ->
  forall i o, w_observers w !! i = Some o -> in_hand r o = false.
Proof.
  intros H Hr i o Ho. pose proof (history_ok _ _ _ H) as O. destruct (bo_cancelled _ _ _ O r true) as (s & E & _ & Hs).
  { unfold cancels. apply elem_of_app. right. apply list_elem_of_In, in_map_iff. exists r. split; [done|]. by apply list_elem_of_In. }
  destruct (bo_sound _ _ _ O r s E) as [S1 S2 _ _ _ _ _ _]. destruct (in_hand r o) eqn:Ho'; [|done]. pose proof (count_lookup _ _ _ _ Ho Ho') as P.
  specialize (Hs eq_refl). assert (N : tasks (w_bus w) (w_observers w) r = 1%nat) by (unfold tasks in *; lia). apply S2 in N. congruence.
Qed.

(** When the condition [Flush] waits for holds, every event accepted by a
    subscription that is not cancelled has been handled, no handler runs, and
    the count of deliveries is the number of calls of handlers, for fewer than
    2^32 observer threads. *)
Theorem flush_complete capacity observers w : rtc step (start capacity observers) w -> Z.of_nat observers < 2 ^ 32 ->
  Z.of_nat (List.length (eb_heap (w_bus w))) + 1 < 2 ^ 64 -> flushed (w_bus w) = true ->
  (forall r s, eb_heap (w_bus w) !! r = Some s -> sb_cancelled s = false -> sb_accepted s = sb_handled s) /\
  count handling (w_observers w) = 0%nat /\ eb_delivered (w_bus w) = Word.u64 (Z.of_nat (total_handled (eb_heap (w_bus w)))).
Proof.
  intros H N B F. pose proof (history_ok _ _ _ H) as O. pose proof (history_logged _ _ _ H B) as L. unfold flushed in F. rewrite !andb_true_iff in F.
  destruct F as [[F1%Z.eqb_eq F2] F3]. assert (Hz : count handling (w_observers w) = 0%nat).
  { rewrite (bo_running _ _ _ O) in F1. pose proof (count_length active (w_observers w)). rewrite (proj2 (history_fixed _ _ _ H)) in *.
    rewrite Word.u32_small in F1 by (unfold Word.is_u32; lia). pose proof (count_le handling active (w_observers w)) as Hle.
    specialize (Hle ltac:(by intros [])). lia. }
  split; [|split; [done|]; rewrite (bo_delivered _ _ _ O), Hz; f_equal; lia].
  intros r s E C. destruct (bo_sound _ _ _ O r s E) as [_ _ _ _ _ S6 _ _]. rewrite C in S6. rewrite forallb_forall in F3.
  pose proof (lg_listed _ L r s E C) as Hin. apply list_elem_of_In, F3 in Hin. simpl in Hin. rewrite E in Hin. apply andb_true_iff in Hin as [_ Hq%bool_decide_eq_true].
  by rewrite S6, Hq, app_nil_r.
Qed.

(** ** Runs *)

Definition sample_event (n : Z) : Event := MkEvent n kObservation "eos" kInfo 1 1 n None None (JObject []).
(** Two events for one subscription; the first is being handled. *)
Definition sample_bus : EventBus := Publish (sample_event 2) (Publish (sample_event 1) (Subscribe any_event (make 2)).2).
Definition taken (b : EventBus) : EventBus := match take_ready b with Some (_, b') => b' | None => b end.
Definition popped (b : EventBus) : EventBus := match next_event 0 b with Some (_, b') => b' | None => b end.
Lemma publishes n b os b' : (Stamp n (sample_event n) b) = (sample_event n, b) -> b' = Publish (sample_event n) b ->
  rtc step (MkWorld b os [] [] []) (MkWorld b' os [] [] []).
Proof.
  intros H ->. eapply rtc_l; [apply (s_stamp n (sample_event n))|]. rewrite H. eapply rtc_l; [apply (s_publish (sample_event n) b os [] [])|]. constructor.
Qed.
Lemma sample_published : rtc step (start 2 2) (MkWorld sample_bus [OWait; OWait] [] [] []).
Proof.
  eapply rtc_l; [apply (s_subscribe any_event)|]. etrans; [apply (publishes 1); [vm_compute; reflexivity|reflexivity]|].
  apply (publishes 2); [vm_compute; reflexivity|reflexivity].
Qed.
Lemma sample_handling : rtc step (start 2 2) (MkWorld (popped (taken sample_bus)) [OHandler 0 (sample_event 1); OWait] [] [] []).
Proof.
  etrans; [exact sample_published|]. eapply rtc_l; [apply (s_take 0 0 sample_bus (taken sample_bus)); vm_compute; reflexivity|].
  eapply rtc_l; [apply (s_event 0 0 (sample_event 1) _ (popped (taken sample_bus))); vm_compute; reflexivity|]. constructor.
Qed.
Definition the_sub (b : EventBus) : Subscription := default (MkSubscription 0 any_event [] false false 0 0 [] [] []) (eb_heap b !! 0%nat).

Lemma events_in_order_witness : let b := popped (taken sample_bus) in let s := the_sub b in
  sb_handled s = [sample_event 1] /\ sb_queue s = [sample_event 2] /\
  sb_matched s = List.filter (Matches (sb_filter s)) (drop (sb_since s) (eb_log b)) /\ sb_accepted s = (sb_handled s ++ sb_queue s)%list.
Proof.
  split; [vm_compute; reflexivity|]. split; [vm_compute; reflexivity|].
  destruct (events_in_order 2 2 _ 0 (the_sub (popped (taken sample_bus))) sample_handling) as (H1 & _ & _ & H2 & _); [vm_compute; reflexivity..|].
  split; [exact H1|exact H2].
Defined.

Definition cancelled_bus : EventBus := (Cancel 1 (popped (taken sample_bus))).2.
Definition ended (b : EventBus) : EventBus := match next_event 0 b with Some (_, b') => b' | None => b end.
Lemma sample_cancelled : rtc step (start 2 2) (MkWorld (ended (delivered cancelled_bus)) [OLeave; OWait] [] [] [0%nat]).
Proof.
  etrans; [exact sample_handling|]. eapply rtc_l; [apply (s_cancel 1 false)|]. fold cancelled_bus. cbn [Cancel].
  eapply rtc_l; [apply (s_handled 0 0 (sample_event 1)); reflexivity|].
  eapply rtc_l; [apply (s_empty 0 0 _ (ended (delivered cancelled_bus))); vm_compute; reflexivity|].
  eapply rtc_l; [apply (s_cancelled 0 _ _ [] [] []); vm_compute; reflexivity|]. constructor.
Qed.
Lemma cancel_final_witness : in_hand 0 OLeave = false.
Proof. apply (cancel_final 2 2 _ 0 sample_cancelled) with (i := 0%nat); [apply list_elem_of_In; by left|done]. Defined.
Lemma sample_flushed : rtc step (start 2 2) (MkWorld (leave (ended (delivered cancelled_bus))) [OWait; OWait] [] [] [0%nat]).
Proof. etrans; [exact sample_cancelled|]. eapply rtc_l; [by apply (s_leave 0)|]. constructor. Qed.
Lemma flush_complete_witness : eb_delivered (leave (ended (delivered cancelled_bus))) = 1 /\
  eb_delivered (leave (ended (delivered cancelled_bus))) = Word.u64 (Z.of_nat (total_handled (eb_heap (leave (ended (delivered cancelled_bus)))))).
Proof. split; [done|]. apply (flush_complete 2 2 _ sample_flushed); [done|by vm_compute|done]. Defined.

(** A callback of another subscription that runs on an observer thread does not
    wait: its [Cancel] returns while the handler runs on a second thread. *)
Example cancel_from_other_callback : exists w, rtc step (start 2 2) w /\ eb_subscriptions (w_bus w) = [] /\ w_cancelling w = [] /\
  w_observers w = [OHandler 0 (sample_event 1); OWait].
Proof.
  eexists. split; [etrans; [exact sample_handling|]; eapply rtc_l; [apply (s_cancel 1 true)|]; constructor|]. done.
Qed.
