(* ===== verification/GraphTemplate.v ===== *)
(** Graph templates (graph_template.h, graph_template.cpp): a skeleton graph
    whose node options hold placeholders, its declaration, the substitution of
    arguments and the validation of the skeleton. *)

From stdpp Require Import base numbers list strings option.
From Stdlib Require Import ZArith Lia Ascii String.
From S2P Require Import Prelude Types Double Json Text GraphSpec CapabilityTypes Negotiation GraphValidator.

Local Open Scope string_scope.
Local Open Scope Z_scope.
Local Open Scope ge_scope.

(** [std::set<std::string>] *)
Definition names : Type := list (string * unit).
Definition insert_name (n : string) (s : names) : names := (SMap.emplace n tt s).1.

(** ** Placeholders *)

(** The next placeholder: what stands before it, its name and what follows. *)
Definition next_placeholder (text : string) : option (string * string * string) :=
  match split_sub "${" text with
  | None => None
  | Some (before, rest) => match split_first "}" rest with Some (name, after) => Some (before, name, after) | None => None end
  end.
(** The loop; every round is shorter, so the length of the text is enough. *)
Fixpoint collect_text (fuel : nat) (text : string) (out : names) : names :=
  match fuel with
  | O => out
  | S fuel => match next_placeholder text with None => out | Some (_, name, after) => collect_text fuel after (insert_name name out) end
  end.
Fixpoint CollectPlaceholders (v : json) (out : names) : names :=
  match v with
  | JString s => collect_text (S (String.length s)) s out
  | JArray l => (fix go (l : list json) (out : names) : names := match l with [] => out | x :: l' => go l' (CollectPlaceholders x out) end) l out
  | JObject m => (fix go (m : list (string * json)) (out : names) : names := match m with [] => out | (_, x) :: m' => go m' (CollectPlaceholders x out) end) m out
  | _ => out
  end.

(** ** Substitution *)

Definition AsText (v : json) (name : string) : Result string :=
  match v with
  | JString s => Value s
  | JInteger z => Value (Dec.to_string z)
  | JBool b => Value (if b then "true" else "false")
  | JNumber d => Value (Json.Serialize (JNumber d))
  | _ => Error (StatusOps.InvalidArgument ("parameter '" ++ name ++ "' is embedded in a string and must be a scalar, got " ++ Json.Serialize v))
  end.

Section substitute.
Context (args : list (string * json)).

Definition Lookup (name : string) : Result json :=
  match SMap.find name args with
  | Some v => Value v
  | None => Error (StatusOps.InvalidArgument ("no value for template parameter '" ++ name ++ "'"))
  end.
(** A text that is one placeholder: its name. *)
Definition whole (text : string) : option string :=
  match strip "${" text with
  | None => None
  | Some rest => match split_first "}" rest with
                 | Some (name, EmptyString) => if Str.empty name || mentions "${" rest then None else Some name
                 | _ => None
                 end
  end.
Fixpoint replace_text (fuel : nat) (text out : string) : Result string :=
  match fuel with
  | O => Value out
  | S fuel =>
      match next_placeholder text with
      | None => Value (out ++ text)
      | Some (before, name, after) =>
          let? value := Lookup name in
          let? piece := AsText value name in
          replace_text fuel after (out ++ before ++ piece)
      end
  end.
Definition ApplyString (text : string) : Result json :=
  match whole text with
  | Some name => Lookup name
  | None => let? s := replace_text (S (String.length text)) text "" in Value (JString s)
  end.
Fixpoint Apply (v : json) : Result json :=
  match v with
  | JString s => ApplyString s
  | JArray l =>
      let? l' := (fix go (l : list json) : Result (list json) :=
                    match l with [] => Value [] | x :: l' => let? y := Apply x in let? ys := go l' in Value (y :: ys) end) l in
      Value (JArray l')
  | JObject m =>
      let? m' := (fix go (m : list (string * json)) : Result (list (string * json)) :=
                    match m with [] => Value [] | (k, x) :: m' => let? y := Apply x in let? ys := go m' in Value ((k, y) :: ys) end) m in
      Value (JObject m')
  | _ => Value v
  end.

End substitute.

(** ** Templates *)

Record TemplateParameter : Type := MkTemplateParameter { tp_name : string; tp_required : bool; tp_default : json; tp_description : string }.
Record GraphTemplate : Type := MkTemplate {
  gt_skeleton : GraphSpec;
  gt_parameters : list TemplateParameter;
  gt_validated : option ValidatedGraph;
  gt_generation : Z;
}.

Definition used_names (g : GraphSpec) : names := fold_left (fun s n => CollectPlaceholders (ns_options n) s) (nodes_ g) [].
Definition bad {A} (m : string) : Result A := Error (StatusOps.InvalidArgument m).
Fixpoint declare (l : list TemplateParameter) (declared : names) : Result names :=
  match l with
  | [] => Value declared
  | p :: l' =>
      if Str.empty (tp_name p) then bad "template parameter with empty name"
      else if SMap.contains (tp_name p) declared then bad ("template parameter '" ++ tp_name p ++ "' declared twice")
      else if negb (tp_required p) && Json.is_null (tp_default p) then bad ("optional template parameter '" ++ tp_name p ++ "' needs a default value")
      else declare l' (insert_name (tp_name p) declared)
  end.
(** The first of [l] that is not in [s]. *)
Definition first_missing (l s : names) : option string := List.find (fun n => negb (SMap.contains n s)) (map fst l).
Definition Create (skeleton : GraphSpec) (parameters : list TemplateParameter) : Result GraphTemplate :=
  let used := used_names skeleton in
  let? declared := declare parameters [] in
  match first_missing used declared with
  | Some n => bad ("template uses undeclared parameter '" ++ n ++ "'")
  | None =>
      match first_missing declared used with
      | Some n => bad ("template declares unused parameter '" ++ n ++ "'")
      | None => Value (MkTemplate skeleton parameters None 0)
      end
  end.

(** [args.emplace] of the members of an object in key order is the object. *)
Fixpoint check_arguments (parameters : list TemplateParameter) (m : list (string * json)) : Result unit :=
  match m with
  | [] => Value tt
  | (k, _) :: m' =>
      if existsb (fun p => bool_decide (tp_name p = k)) parameters then check_arguments parameters m'
      else bad ("argument '" ++ k ++ "' does not name a template parameter")
  end.
Fixpoint add_defaults (parameters : list TemplateParameter) (args : list (string * json)) : Result (list (string * json)) :=
  match parameters with
  | [] => Value args
  | p :: l =>
      if SMap.contains (tp_name p) args then add_defaults l args
      else if tp_required p then bad ("missing required template parameter '" ++ tp_name p ++ "'")
      else add_defaults l (SMap.emplace (tp_name p) (tp_default p) args).1
  end.
(** [spec.FindNode(id)->options = v] *)
Fixpoint set_options (id : string) (v : json) (l : list NodeSpec) : list NodeSpec :=
  match l with
  | [] => []
  | n :: l' => if bool_decide (ns_id n = id) then MkNodeSpec (ns_id n) (ns_op n) (ns_executor n) (ns_parallelism n) v (ns_labels n) :: l'
               else n :: set_options id v l'
  end.
Fixpoint substitute_nodes (args : list (string * json)) (l : list NodeSpec) (spec : GraphSpec) : Result GraphSpec :=
  match l with
  | [] => Value spec
  | n :: l' =>
      match Apply args (ns_options n) with
      | Error s => bad ("node '" ++ ns_id n ++ "': " ++ message s)
      | Value v => substitute_nodes args l' (GraphOps.with_nodes (set_options (ns_id n) v (nodes_ spec)) spec)
      end
  end.
Definition with_name (n : string) (g : GraphSpec) : GraphSpec :=
  MkGraphSpec n (description_ g) (options_ g) (allow_unknown_fields_ g) (nodes_ g) (edges_ g).
Definition Instantiate (t : GraphTemplate) (arguments : json) (instance_name : string) : Result GraphSpec :=
  match arguments with
  | JObject m =>
      let? _ := check_arguments (gt_parameters t) m in
      let? args := add_defaults (gt_parameters t) m in
      let spec := gt_skeleton t in
      let spec := if Str.empty instance_name then spec else with_name (name_ spec ++ "#" ++ instance_name) spec in
      substitute_nodes args (nodes_ (gt_skeleton t)) spec
  | _ => bad "template arguments must be a JSON object"
  end.

Section validate.
Context (resolver : OperatorKey -> option CapabilityDescriptor) (iterate : list NodeInfo -> list NodeInfo).

(** A new validator with its own negotiator, called with the default options. *)
Definition no_preferences : PreferenceSet := MkPreferenceSet [] None None None.
Definition Prevalidate (generation : Z) (t : GraphTemplate) : Status * GraphTemplate :=
  match (Validate resolver iterate (gt_skeleton t) no_preferences false Negotiator.empty).1.1 with
  | Error s => (s, t)
  | Value v => (StatusOps.Ok, MkTemplate (gt_skeleton t) (gt_parameters t) (Some v) generation)
  end.

End validate.

Definition validated_for (generation : Z) (t : GraphTemplate) : bool := has (gt_validated t) && (gt_generation t =? generation).
