(* ===== verification/GraphTemplateProofs.v ===== *)
(** Templates: what [Create] accepts can be instantiated, and an instance needs
    no validation of its own. *)

From stdpp Require Import base numbers list strings option.
From Stdlib Require Import ZArith Lia Ascii String.
From S2P Require Import Prelude Types Double Json Text GraphSpec CapabilityTypes Negotiation GraphValidator ValidatorProofs AsyncSamples GraphTemplate.

Local Open Scope string_scope.
Local Open Scope Z_scope.
Local Open Scope ge_scope.

(** ** Validation does not read options *)

Definition bare (n : NodeSpec) : NodeSpec := MkNodeSpec (ns_id n) (ns_op n) (ns_executor n) (ns_parallelism n) JNull (ns_labels n).
Definition bare_info (i : NodeInfo) : NodeInfo := MkNodeInfo (bare (ni_spec i)) (ni_cap i) (ni_index i).
(** Graphs that differ in their name and the options of their nodes only. *)
Definition same_shape (g g' : GraphSpec) : Prop := map bare (nodes_ g) = map bare (nodes_ g') /\ edges_ g = edges_ g'.
Definition same_infos (l l' : list NodeInfo) : Prop := map bare_info l = map bare_info l'.

Lemma bare_fields n n' : bare n = bare n' -> ns_id n = ns_id n' /\ ns_op n = ns_op n' /\ ns_executor n = ns_executor n' /\ ns_parallelism n = ns_parallelism n'.
Proof. unfold bare. by intros [= -> -> -> -> _]. Qed.
Lemma find_bare id l : bare_info <$> find_info id l = find_info id (map bare_info l).
Proof. induction l as [|i l IH]; simpl; [done|]. by case_bool_decide. Qed.
Lemma find_same id l l' : same_infos l l' -> bare_info <$> find_info id l = bare_info <$> find_info id l'.
Proof. intros H. by rewrite !find_bare, H. Qed.
Lemma has_same id l l' : same_infos l l' -> has (find_info id l) = has (find_info id l').
Proof. intros H. pose proof (find_same id l l' H) as E. by destruct (find_info id l), (find_info id l'). Qed.
Lemma ids_same l l' : map bare l = map bare l' -> map ns_id l = map ns_id l'.
Proof.
  revert l'. induction l as [|n l IH]; intros [|n' l'] H; try done. simpl in *. injection H as H1 H2. f_equal; [done|by apply IH].
Qed.

Section same.
Context (resolver : OperatorKey -> option CapabilityDescriptor).

Lemma check_nodes_same ff l : forall l' i nodes nodes' issues, map bare l = map bare l' -> same_infos nodes nodes' ->
  let '(n1, i1, s1) := check_nodes resolver ff i l nodes issues in let '(n2, i2, s2) := check_nodes resolver ff i l' nodes' issues in
  same_infos n1 n2 /\ i1 = i2 /\ s1 = s2.
Proof.
  induction l as [|n l IH]; intros [|n' l'] i nodes nodes' issues H S; try done. cbn [map] in H. injection H as H1 H2 H3 H4 H5 H6. cbn [check_nodes].
  rewrite <- H1, (has_same _ _ _ S). destruct (has (find_info (ns_id n) nodes')); [by apply IH|]. rewrite <- H2.
  assert (N : forall cap, node_issues n cap = node_issues n' cap) by (intros cap; unfold node_issues; by rewrite H1, H2, H3, H4).
  rewrite N. assert (S' : same_infos (nodes ++ [MkNodeInfo n (resolver (ns_op n)) i]) (nodes' ++ [MkNodeInfo n' (resolver (ns_op n)) i])).
  { unfold same_infos. rewrite !map_app, S. simpl. unfold bare_info. simpl. unfold bare. by rewrite H1, H2, H3, H4, H5. }
  destruct (stop ff _); [done|]. by apply IH.
Qed.
Lemma port_same f r l l' : same_infos l l' -> port_of f r l = port_of f r l'.
Proof.
  intros H. unfold port_of. pose proof (find_same (node_id r) l l' H) as E.
  destruct (find_info (node_id r) l) as [[n c k]|], (find_info (node_id r) l') as [[n' c' k']|]; simpl in E; try done. unfold bare_info in E. simpl in E.
  by injection E as _ _ _ _ _ -> _.
Qed.
Lemma scan_same l l' e s : same_infos l l' -> scan_edge l e s = scan_edge l' e s.
Proof.
  intros H. unfold scan_edge, edge_issues, output_port, input_port. by rewrite !(port_same _ _ _ _ H), !(has_same _ _ _ H).
Qed.
Lemma check_edges_same ff l l' es : same_infos l l' -> forall s, check_edges ff l es s = check_edges ff l' es s.
Proof. intros H. induction es as [|e es IH]; intros s; [done|]. cbn [check_edges]. rewrite (scan_same _ _ _ _ H). destruct (stop _ _); [done|]. apply IH. Qed.
Lemma port_issues_same s i i' : bare_info i = bare_info i' -> port_issues s i = port_issues s i'.
Proof. unfold bare_info. intros [= H _ _ _ _ C _]. unfold port_issues. by rewrite H, C. Qed.

Lemma pop_ext idx idx' l : (forall id, idx id = idx' id) -> pop_ready idx l = pop_ready idx' l.
Proof. intros H. induction l as [|x l IH]; simpl; [done|]. rewrite IH. destruct (pop_ready idx' l) as [[y rest]|]; [|done]. by rewrite !H. Qed.
Lemma kahn_ext idx idx' fuel ls : (forall id, idx id = idx' id) -> forall degrees ready order, kahn fuel idx ls degrees ready order = kahn fuel idx' ls degrees ready order.
Proof.
  intros H. induction fuel as [|fuel IH]; intros degrees ready order; simpl; [done|]. rewrite (pop_ext _ _ _ H). destruct (pop_ready idx' ready) as [[id r]|]; [|done].
  destruct (fold_left _ _ _). apply IH.
Qed.
Lemma index_same l l' id : same_infos l l' -> index_of l id = index_of l' id.
Proof.
  intros H. unfold index_of. pose proof (find_same id l l' H) as E. destruct (find_info id l), (find_info id l'); simpl in E; try done. unfold bare_info in E. by injection E as _ _ _ _ _ _ ->.
Qed.
Lemma links_same l l' es : same_infos l l' -> links l es = links l' es.
Proof. intros H. unfold links. f_equal. apply filter_ext. intros e. unfold forward. by rewrite !(has_same _ _ _ H). Qed.
Lemma topological_same l l' g g' : same_infos l l' -> same_shape g g' -> topological l g = topological l' g'.
Proof.
  intros H [G1%ids_same G2]. unfold topological. rewrite G1, G2, (links_same l l') by done. apply kahn_ext. intros id. by apply index_same.
Qed.
Lemma negotiate_same l l' pref u n : same_infos l l' -> negotiate_use l pref u n = negotiate_use l' pref u n.
Proof.
  intros H. assert (V : forall id, version_of l id = version_of l' id /\ op_of l id = op_of l' id).
  { intros id. unfold version_of, op_of. pose proof (find_same id l l' H) as E. destruct (find_info id l) as [[x c k]|], (find_info id l') as [[x' c' k']|]; simpl in E; try done.
    unfold bare_info, bare in E. simpl in E. injection E as _ Ho _ _ _ -> _. by rewrite <- ?Ho. }
  assert (P : forall e, in_port_of l e = in_port_of l' e) by (intros e; unfold in_port_of, input_port; by rewrite (port_same _ _ _ _ H)).
  unfold negotiate_use. destruct (ou_consumers u) as [|e [|e' es]]; [done|by rewrite !(proj1 (V _)), !(proj2 (V _)), P|].
  rewrite (proj1 (V _)). f_equal. apply map_ext. intros x. by rewrite P, (proj1 (V _)).
Qed.
Lemma negotiate_all_same ff l l' pref us : same_infos l l' -> forall c, negotiate_all ff l pref us c = negotiate_all ff l' pref us c.
Proof.
  intros H. induction us as [|[k u] us IH]; intros c; simpl; [done|]. rewrite (negotiate_same _ _ _ _ _ H). destruct (negotiate_use l' _ _ _) as [[s|v] n]; rewrite ?IH; done.
Qed.

Context (iterate : list NodeInfo -> list NodeInfo) (iterate_permutation : forall l, Permutation (iterate l) l).
Lemma ports_clear s l : List.concat (map (port_issues s) (iterate l)) = [] <-> Forall (fun i => port_issues s i = []) l.
Proof.
  rewrite <- (iterate_permutation l) at 2. induction (iterate l) as [|i m IH]; simpl; [split; [constructor|done]|].
  rewrite List.Forall_cons_iff, <- IH. split; [by intros [? ?]%app_eq_nil|by intros [-> ->]].
Qed.

(** What validates keeps validating, with the same outcome, whatever the name
    of the graph and the options of its nodes. *)
Lemma validate_same g g' pref ff n v issues n' : same_shape g g' ->
  Validate resolver iterate g pref ff n = (Value v, issues, n') -> Validate resolver iterate g' pref ff n = (Value v, issues, n').
Proof.
  intros S. pose proof S as [S1 S2]. unfold Validate. cbv zeta. fold (no_nodes g) (no_nodes g').
  destruct (check_nodes _ _ _ (nodes_ g) _ _) as [[nodes iss] st] eqn:En. destruct st; [failed|].
  destruct (check_edges _ _ _ _) as [s st] eqn:Ee. destruct st; [failed|].
  destruct (stop _ _) eqn:Es; [failed|]. destruct (topological _ _) as [[degrees order]|] eqn:Et; [|done].
  destruct (_ ++ cycle_issues _ _ _)%list eqn:Ei; [|failed]. apply app_eq_nil in Ei as [Ei Ec]. apply app_eq_nil in Ei as [Ei Ep].
  pose proof Ee as Ee'. apply check_edges_clean in Ee' as (_ & E0 & _); [|done]. simpl in E0. subst iss.
  pose proof (check_nodes_clean _ _ _ _ _ _ _ _ En) as (E0 & _).
  assert (E1 : no_nodes g' = []) by (unfold no_nodes in *; by destruct (nodes_ g), (nodes_ g')).
  pose proof (check_nodes_same ff (nodes_ g) (nodes_ g') 0 [] [] [] S1 eq_refl) as C. rewrite E0 in En. rewrite En in C. rewrite E1.
  destruct (check_nodes _ _ _ (nodes_ g') _ _) as [[nodes' iss'] st']. destruct C as (C & <- & <-).
  rewrite <- S2, <- (check_edges_same ff nodes nodes' _ C), Ee. rewrite Ei in *. simpl.
  assert (Ep' : List.concat (map (port_issues s) (iterate nodes')) = []).
  { apply ports_clear. apply ports_clear in Ep. clear -C Ep. revert nodes' C. induction Ep as [|i l Hi _ IH]; intros [|i' l'] C; try done. unfold same_infos in C. cbn [map] in C.
    assert (C1 : bare_info i = bare_info i' /\ map bare_info l = map bare_info l') by (split; congruence). destruct C1 as [C1 C2].
    constructor; [by rewrite <- (port_issues_same s i i')|by apply IH]. }
  rewrite Ep'. rewrite <- (topological_same nodes nodes' g g' C S), Et.
  assert (Ec' : cycle_issues g' degrees order = []).
  { unfold cycle_issues in *. apply ids_same in S1. by rewrite <- S1, <- (length_map ns_id (nodes_ g')), <- S1, length_map. }
  rewrite Ec'. simpl. rewrite <- (negotiate_all_same _ _ _ _ _ C). destruct (negotiate_all _ _ _ _ _) as [c st]. destruct (co_issues c); [|failed].
  replace (stop ff []) with false by (unfold stop; by rewrite andb_false_r). unfold sources_of, sinks_of. by rewrite (ids_same _ _ S1), S2.
Qed.
End same.

(** ** Substitution *)

Lemma first_shorter c s a b : split_first c s = Some (a, b) -> (String.length b < String.length s)%nat.
Proof. intros [-> _]%split_first_Some. rewrite text_length. simpl. lia. Qed.
Lemma next_shorter text before name after : next_placeholder text = Some (before, name, after) -> (String.length after < String.length text)%nat.
Proof.
  unfold next_placeholder. destruct (split_sub _ _) as [[b rest]|] eqn:E; [|done]. destruct (split_first _ _) as [[n a]|] eqn:F; [|done]. intros [= <- <- <-].
  apply split_sub_Some in E as ->. apply first_shorter in F. rewrite !text_length. simpl. lia.
Qed.
(** The names of the placeholders of a text, and of a document. *)
Fixpoint text_names (fuel : nat) (text : string) : list string :=
  match fuel with
  | O => []
  | S fuel => match next_placeholder text with None => [] | Some (_, name, after) => name :: text_names fuel after end
  end.
Fixpoint doc_names (v : json) : list string :=
  match v with
  | JString s => text_names (S (String.length s)) s
  | JArray l => List.concat (map doc_names l)
  | JObject m => List.concat (map (fun kv => doc_names kv.2) m)
  | _ => []
  end.
Lemma insert_contains n x s : SMap.contains n (insert_name x s) = bool_decide (n = x) || SMap.contains n s.
Proof.
  unfold insert_name, SMap.emplace, SMap.contains. destruct (SMap.find x s) as [[]|] eqn:E; simpl; [|rewrite SMap.find_set]; repeat case_decide; repeat case_bool_decide; subst; try done.
  by rewrite E.
Qed.
Lemma collect_text_contains n fuel : forall text s, SMap.contains n (collect_text fuel text s) = bool_decide (n ∈ text_names fuel text) || SMap.contains n s.
Proof.
  induction fuel as [|fuel IH]; intros text s; cbn [collect_text text_names]; [by rewrite ?bool_decide_eq_false_2 by apply not_elem_of_nil|].
  destruct (next_placeholder text) as [[[b x] a]|]; [|by rewrite ?bool_decide_eq_false_2 by apply not_elem_of_nil].
  rewrite IH, insert_contains. rewrite orb_assoc. f_equal. repeat case_bool_decide; rewrite elem_of_cons in *; tauto || done.
Qed.
Lemma bool_app (n : string) l k : bool_decide (n ∈ (l ++ k)%list) = bool_decide (n ∈ l) || bool_decide (n ∈ k).
Proof. repeat case_bool_decide; rewrite elem_of_app in *; tauto || done. Qed.
Lemma collect_contains n v : forall s, SMap.contains n (CollectPlaceholders v s) = bool_decide (n ∈ doc_names v) || SMap.contains n s.
Proof.
  induction v as [|b|z|d|t|l IH|m IH] using json_ind'; intros s; cbn [CollectPlaceholders doc_names]; try (by rewrite ?bool_decide_eq_false_2 by apply not_elem_of_nil).
  - apply collect_text_contains.
  - revert s. induction IH as [|x l Hx _ IHl]; intros s; simpl; [by rewrite ?bool_decide_eq_false_2 by apply not_elem_of_nil|]. rewrite IHl, Hx, bool_app.
    by destruct (bool_decide (n ∈ doc_names x)), (bool_decide _).
  - revert s. induction IH as [|[k x] l Hx _ IHl]; intros s; simpl; [by rewrite ?bool_decide_eq_false_2 by apply not_elem_of_nil|]. simpl in Hx. rewrite IHl, Hx, bool_app.
    by destruct (bool_decide (n ∈ doc_names x)), (bool_decide _).
Qed.
Lemma used_contains n g : SMap.contains n (used_names g) = true <-> exists x, x ∈ nodes_ g /\ n ∈ doc_names (ns_options x).
Proof.
  unfold used_names. assert (H : forall l s, SMap.contains n (fold_left (fun s x => CollectPlaceholders (ns_options x) s) l s) = true <->
    (exists x, x ∈ l /\ n ∈ doc_names (ns_options x)) \/ SMap.contains n s = true).
  { induction l as [|x l IH]; intros s; simpl; [split; [by right|intros [(x & Hx & _)|?]; [by apply not_elem_of_nil in Hx|done]]|].
    rewrite IH, collect_contains, orb_true_iff, bool_decide_eq_true. setoid_rewrite elem_of_cons. naive_solver. }
  rewrite H. split; [|by left]. by intros [?|].
Qed.

Definition scalar (v : json) : bool := match v with JString _ | JInteger _ | JBool _ | JNumber _ => true | _ => false end.
Lemma as_text v n : scalar v = true -> exists s, AsText v n = Value s.
Proof. destruct v; try done; intros _; by eexists. Qed.

(** The text with every placeholder replaced by the text of its argument. *)
Inductive renders (args : list (string * json)) : string -> string -> Prop :=
| renders_end text : next_placeholder text = None -> renders args text text
| renders_next text before name after v piece out : next_placeholder text = Some (before, name, after) -> SMap.find name args = Some v -> AsText v name = Value piece ->
    renders args after out -> renders args text (before ++ piece ++ out).

Section arguments.
Context (args : list (string * json)).
Definition supplied (n : string) : Prop := exists v, SMap.find n args = Some v /\ scalar v = true.

Lemma replace_renders fuel : forall text out, (String.length text < fuel)%nat -> (forall n, n ∈ text_names fuel text -> supplied n) ->
  exists s, replace_text args fuel text out = Value (out ++ s) /\ renders args text s.
Proof.
  induction fuel as [|fuel IH]; intros text out L H; [lia|]. cbn [replace_text text_names] in *. destruct (next_placeholder text) as [[[b n] a]|] eqn:E; [|by exists text; split; [|constructor]].
  destruct (H n) as (v & Hv & Sv); [by apply elem_of_cons; left|]. destruct (as_text v n Sv) as [p Hp]. unfold Lookup. rewrite Hv. cbn [ResultOps.bind]. rewrite Hp. cbn [ResultOps.bind].
  pose proof (next_shorter _ _ _ _ E) as Hs. destruct (IH a (out ++ b ++ p)) as (s & -> & R); [lia|intros x Hx; apply H; by apply elem_of_cons; right|].
  exists (b ++ p ++ s). split; [by rewrite !Str.app_assoc|]. by eapply renders_next.
Qed.
Lemma whole_next text n : whole text = Some n -> next_placeholder text = Some ("", n, "").
Proof.
  unfold whole, next_placeholder. destruct (strip "${" text) as [rest|] eqn:E; [|done]. destruct (split_first "}" rest) as [[x [|c t]]|] eqn:F; try done.
  destruct (Str.empty x || _); [done|]. intros [= <-]. apply strip_Some in E as ->. change ("${" ++ rest) with ("" ++ "${" ++ rest).
  rewrite split_sub_app by done. by rewrite F.
Qed.
Lemma apply_total v : (forall n, n ∈ doc_names v -> supplied n) -> exists w, Apply args v = Value w.
Proof.
  induction v as [|b|z|d|t|l IH|m IH] using json_ind'; intros H; cbn [Apply]; try (by eexists).
  - unfold ApplyString. destruct (whole t) as [n|] eqn:W.
    + destruct (H n) as (v & Hv & _). { cbn [doc_names text_names]. rewrite (whole_next _ _ W). by apply elem_of_cons; left. }
      unfold Lookup. rewrite Hv. by eexists.
    + destruct (replace_renders (S (String.length t)) t "" ltac:(lia) H) as (s & -> & _). by eexists.
  - assert (G : exists l', (fix go (l : list json) : Result (list json) :=
                    match l with [] => Value [] | x :: l' => let? y := Apply args x in let? ys := go l' in Value (y :: ys) end) l = Value l').
    { cbn [doc_names] in H. induction IH as [|x l Hx _ IHl]; [by eexists|]. cbn [map List.concat] in H. destruct Hx as [y Hy]; [intros n Hn; apply H, elem_of_app; by left|].
      destruct IHl as [l' Hl]; [intros n Hn; apply H, elem_of_app; by right|]. rewrite Hy. cbn [ResultOps.bind]. rewrite Hl. by eexists. }
    destruct G as [l' ->]. by eexists.
  - assert (G : exists m', (fix go (m : list (string * json)) : Result (list (string * json)) :=
                    match m with [] => Value [] | (k, x) :: m' => let? y := Apply args x in let? ys := go m' in Value ((k, y) :: ys) end) m = Value m').
    { cbn [doc_names] in H. induction IH as [|[k x] l Hx _ IHl]; [by eexists|]. cbn [map List.concat snd] in H, Hx. destruct Hx as [y Hy]; [intros n Hn; apply H, elem_of_app; by left|].
      destruct IHl as [l' Hl]; [intros n Hn; apply H, elem_of_app; by right|]. rewrite Hy. cbn [ResultOps.bind]. rewrite Hl. by eexists. }
    destruct G as [m' ->]. by eexists.
Qed.
End arguments.

(** ** Instances *)

Lemma set_options_bare id v l : map bare (set_options id v l) = map bare l.
Proof. induction l as [|n l IH]; simpl; [done|]. case_bool_decide; simpl; [done|]. by rewrite IH. Qed.
Lemma substitute_shape args l : forall spec spec', substitute_nodes args l spec = Value spec' -> same_shape spec spec'.
Proof.
  induction l as [|n l IH]; intros spec spec'; simpl; [by intros [= <-]|]. destruct (Apply args (ns_options n)) as [v|s]; [|done]. intros H. apply IH in H as [H1 H2].
  simpl in H1, H2. rewrite set_options_bare in H1. by split.
Qed.
Lemma instance_shape t arguments name spec : Instantiate t arguments name = Value spec -> same_shape (gt_skeleton t) spec.
Proof.
  unfold Instantiate. destruct arguments as [| | | | | |m]; try done. destruct (check_arguments _ _); [|done]. cbn [ResultOps.bind]. destruct (add_defaults _ _) as [args|]; [|done].
  cbn [ResultOps.bind]. intros H. apply substitute_shape in H. by destruct (Str.empty name).
Qed.
Lemma of_status_error {A} s e : ResultOps.of_status (A := A) s = Error e -> StatusOps.ok e = false.
Proof. unfold ResultOps.of_status. destruct (StatusOps.ok s) eqn:E; by intros [= <-]. Qed.
Lemma validate_error resolver iterate g pref ff n e : (Validate resolver iterate g pref ff n).1.1 = Error e -> StatusOps.ok e = false.
Proof.
  unfold Validate. cbv zeta. destruct (check_nodes _ _ _ _ _ _) as [[nodes iss] []]; [apply of_status_error|].
  destruct (check_edges _ _ _ _) as [s []]; [apply of_status_error|]. destruct (stop _ _); [apply of_status_error|].
  destruct (topological _ _) as [[degrees order]|]; [|by intros [= <-]]. destruct (_ ++ _)%list; [|apply of_status_error].
  destruct (negotiate_all _ _ _ _ _) as [c st]. by destruct (co_issues c); [|apply of_status_error].
Qed.

(** C29: validating a template once is enough. After a successful
    [Prevalidate] the validation of every instance, whatever its arguments and
    its name, would return exactly the graph that was kept: the order, the
    sources and sinks and every negotiated contract; so skipping it is sound.
    The walk of an unordered map visits every node once. *)
Theorem instances_validated resolver iterate generation t st t' arguments name spec :
  (forall l, Permutation (iterate l) l) -> Prevalidate resolver iterate generation t = (st, t') -> StatusOps.ok st = true ->
  Instantiate t' arguments name = Value spec ->
  exists v, gt_validated t' = Some v /\ validated_for generation t' = true /\ (Validate resolver iterate spec no_preferences false Negotiator.empty).1.1 = Value v.
Proof.
  intros Hi. unfold Prevalidate. destruct (Validate resolver iterate (gt_skeleton t) no_preferences false Negotiator.empty) as [[[v|e] issues] n'] eqn:E; simpl.
  - intros [= <- <-] _ H. exists v. split; [done|]. split; [unfold validated_for; simpl; by rewrite Z.eqb_refl|]. apply instance_shape in H.
    by rewrite (validate_same resolver iterate Hi _ _ _ _ _ _ _ _ H E).
  - intros [= <- <-] Hok. assert (Hn : StatusOps.ok e = false) by (eapply (validate_error resolver iterate); by rewrite E). congruence.
Qed.

Lemma contains_emplace n k v (m : list (string * json)) : SMap.contains n (SMap.emplace k v m).1 = bool_decide (n = k) || SMap.contains n m.
Proof.
  unfold SMap.emplace, SMap.contains. destruct (SMap.find k m) as [x|] eqn:E; simpl; [|rewrite SMap.find_set]; repeat case_decide; repeat case_bool_decide; subst; try done.
  by rewrite E.
Qed.
Lemma find_emplace_inv n k v (m : list (string * json)) x : SMap.find n (SMap.emplace k v m).1 = Some x -> x = v \/ SMap.find n m = Some x.
Proof. unfold SMap.emplace. destruct (SMap.find k m); simpl; [by right|]. rewrite SMap.find_set. case_decide; [intros [= <-]; by left|by right]. Qed.
Lemma check_known ps m : check_arguments ps m = Value tt <-> forall k, k ∈ m.*1 -> exists p, p ∈ ps /\ tp_name p = k.
Proof.
  induction m as [|[k v] m IH]; simpl; [split; [intros _ k Hk; by apply not_elem_of_nil in Hk|done]|].
  destruct (existsb _ ps) eqn:E.
  - rewrite IH. apply existsb_exists in E as (p & Hp & Hk%bool_decide_eq_true). setoid_rewrite elem_of_cons. split; [|naive_solver]. intros H x [->|Hx]; [|by apply H].
    exists p. split; [by apply list_elem_of_In|done].
  - split; [done|]. intros H. destruct (H k) as (p & Hp & Hk); [by apply elem_of_cons; left|]. apply not_true_iff_false in E. destruct E. apply existsb_exists. exists p.
    split; [by apply list_elem_of_In|by apply bool_decide_eq_true].
Qed.
Lemma defaults_ok ps : forall m, (forall p, p ∈ ps -> tp_required p = true -> SMap.contains (tp_name p) m = true) ->
  exists args, add_defaults ps m = Value args /\ (forall p, p ∈ ps -> SMap.contains (tp_name p) args = true) /\ (forall n, SMap.contains n m = true -> SMap.contains n args = true) /\
    (forall n v, SMap.find n args = Some v -> SMap.find n m = Some v \/ exists p, p ∈ ps /\ tp_required p = false /\ v = tp_default p).
Proof.
  induction ps as [|p ps IH]; intros m H; simpl; [exists m; repeat split; [intros p Hp; by apply not_elem_of_nil in Hp|done|by left]|].
  setoid_rewrite elem_of_cons. destruct (SMap.contains (tp_name p) m) eqn:C.
  - destruct (IH m) as (args & E & A1 & A2 & A3); [intros q Hq; apply H; by apply elem_of_cons; right|]. exists args. split; [done|]. split; [|split; [done|]].
    + intros q [->|Hq]; [by apply A2|by apply A1].
    + intros n v Hn. destruct (A3 n v Hn) as [?|(q & ? & ?)]; [by left|right; exists q; naive_solver].
  - destruct (tp_required p) eqn:R; [rewrite (H p) in C; [done|by apply elem_of_cons; left|done]|].
    destruct (IH (SMap.emplace (tp_name p) (tp_default p) m).1) as (args & E & A1 & A2 & A3).
    { intros q Hq Rq. rewrite contains_emplace, orb_true_iff. right. apply H; [by apply elem_of_cons; right|done]. }
    exists args. split; [done|]. assert (A2' : forall n, n = tp_name p \/ SMap.contains n m = true -> SMap.contains n args = true).
    { intros n Hn. apply A2. rewrite contains_emplace, orb_true_iff, bool_decide_eq_true. done. }
    split; [intros q [->|Hq]; [apply A2'; by left|by apply A1]|]. split; [intros n Hn; apply A2'; by right|].
    intros n v Hn. destruct (A3 n v Hn) as [Hf|(q & ? & ?)]; [|right; exists q; naive_solver]. apply find_emplace_inv in Hf as [->|Hf]; [right; by exists p; eauto|by left].
Qed.
Lemma defaults_required ps : forall m args, add_defaults ps m = Value args -> NoDup (map tp_name ps) -> forall p, p ∈ ps -> tp_required p = true -> SMap.contains (tp_name p) m = true.
Proof.
  induction ps as [|q ps IH]; intros m args H N p Hp R; [by apply not_elem_of_nil in Hp|]. simpl in *. apply list.NoDup_cons in N as [N1 N2]. apply elem_of_cons in Hp as [->|Hp].
  - destruct (SMap.contains (tp_name q) m); [done|]. by rewrite R in H.
  - destruct (SMap.contains (tp_name q) m) eqn:C; [by eapply IH|]. destruct (tp_required q); [done|]. pose proof (IH _ _ H N2 p Hp R) as I.
    rewrite contains_emplace in I. apply orb_true_iff in I as [I%bool_decide_eq_true|I]; [|done]. destruct N1. rewrite <- I. apply list_elem_of_In, in_map, list_elem_of_In, Hp.
Qed.
Lemma declare_names ps : forall s s', declare ps s = Value s' -> NoDup (map tp_name ps) /\ (forall p, p ∈ ps -> SMap.contains (tp_name p) s = false) /\
  forall n, SMap.contains n s' = true <-> n ∈ map tp_name ps \/ SMap.contains n s = true.
Proof.
  induction ps as [|p ps IH]; intros s s'; simpl.
  - intros [= <-]. split; [constructor|]. split; [intros p Hp; by apply not_elem_of_nil in Hp|]. intros n. split; [by right|]. intros [Hn|]; [by apply not_elem_of_nil in Hn|done].
  - destruct (Str.empty _); [done|]. destruct (SMap.contains (tp_name p) s) eqn:C; [done|]. destruct (negb _ && _); [done|]. intros H. apply IH in H as (N & F & H).
    setoid_rewrite elem_of_cons. setoid_rewrite insert_contains in H. setoid_rewrite insert_contains in F. split; [|split].
    + apply list.NoDup_cons. split; [|done]. intros (q & E & Hq)%list_elem_of_In%in_map_iff. apply list_elem_of_In, F in Hq. rewrite E, bool_decide_eq_true_2 in Hq by done. done.
    + intros q [->|Hq]; [done|]. apply F in Hq. by apply orb_false_iff in Hq as [_ Hq].
    + intros n. rewrite H, orb_true_iff, bool_decide_eq_true. tauto.
Qed.
Lemma first_missing_None (l s : names) : first_missing l s = None -> forall n, SMap.contains n l = true -> SMap.contains n s = true.
Proof.
  unfold first_missing. intros H n Hn. unfold SMap.contains in Hn at 1. destruct (SMap.find n l) as [[]|] eqn:E; [|done]. apply SMap.find_In in E.
  eapply find_none in H; [|by apply (in_map fst) in E; exact E]. by apply negb_false_iff in H.
Qed.
Lemma create_inv g ps t : Create g ps = Value t -> t = MkTemplate g ps None 0 /\ NoDup (map tp_name ps) /\
  forall x n, x ∈ nodes_ g -> n ∈ doc_names (ns_options x) -> n ∈ map tp_name ps.
Proof.
  unfold Create. destruct (declare ps []) as [s|] eqn:D; [|done]. cbn [ResultOps.bind]. apply declare_names in D as (N & _ & D).
  destruct (first_missing (used_names g) s) eqn:M; [done|]. destruct (first_missing s _); [done|]. intros [= <-]. split; [done|]. split; [done|].
  intros x n Hx Hn. pose proof (first_missing_None _ _ M n) as I. rewrite used_contains, D in I. destruct I as [I|I]; [by exists x|done|done].
Qed.
Lemma substitute_total args l : (forall x n, x ∈ l -> n ∈ doc_names (ns_options x) -> supplied args n) -> forall spec, exists spec', substitute_nodes args l spec = Value spec'.
Proof.
  induction l as [|x l IH]; intros H spec; simpl; [by eexists|]. destruct (apply_total args (ns_options x)) as [v ->]; [intros n; apply H; by apply elem_of_cons; left|].
  apply IH. intros y n Hy. apply H. by apply elem_of_cons; right.
Qed.

(** The checks of [Create] are the right ones: a template it accepts can be
    instantiated with scalar arguments exactly when they name declared
    parameters only and give every required one; no placeholder is left
    without a value, and the instance has the nodes and edges of the skeleton. *)
Theorem Create_suffices g ps t m name : Create g ps = Value t -> Forall (fun kv => scalar kv.2 = true) m ->
  Forall (fun p => tp_required p = true \/ scalar (tp_default p) = true) ps ->
  ((forall k, k ∈ m.*1 -> exists p, p ∈ ps /\ tp_name p = k) /\ (forall p, p ∈ ps -> tp_required p = true -> SMap.contains (tp_name p) m = true) <->
   exists spec, Instantiate t (JObject m) name = Value spec) /\
  forall spec, Instantiate t (JObject m) name = Value spec -> same_shape g spec.
Proof.
  intros C Sm Sp. apply create_inv in C as (-> & N & U). split; [|intros spec; apply (instance_shape (MkTemplate g ps None 0))].
  rewrite <- check_known. unfold Instantiate. cbn [gt_parameters gt_skeleton]. split.
  - intros [-> R]. cbn [ResultOps.bind]. destruct (defaults_ok ps m R) as (args & -> & A1 & _ & A3). cbn [ResultOps.bind]. apply substitute_total.
    intros x n Hx Hn. apply (U x n Hx) in Hn. apply list_elem_of_In, in_map_iff in Hn as (p & <- & Hp%list_elem_of_In). specialize (A1 p Hp). unfold SMap.contains in A1.
    destruct (SMap.find (tp_name p) args) as [v|] eqn:E; [|done]. exists v. split; [done|]. destruct (A3 _ _ E) as [Hf|(q & Hq & Rq & ->)].
    + apply SMap.find_In in Hf. rewrite List.Forall_forall in Sm. by apply (Sm _ Hf).
    + rewrite List.Forall_forall in Sp. apply list_elem_of_In in Hq. destruct (Sp q Hq); [congruence|done].
  - intros [spec H]. destruct (check_arguments ps m) as [[]|]; [|done]. cbn [ResultOps.bind] in H. destruct (add_defaults ps m) as [args|] eqn:A; [|done].
    split; [done|]. by eapply defaults_required.
Qed.

(** ** A template *)

Definition text_options : json := JObject [("path", JString "${dir}/out_${n}.mp4"); ("rate", JString "${rate}")].
Definition text_parameters : list TemplateParameter :=
  [MkTemplateParameter "dir" true JNull ""; MkTemplateParameter "n" true JNull ""; MkTemplateParameter "rate" false (JInteger 25) ""].
Definition text_arguments : list (string * json) := [("dir", JString "/tmp"); ("n", JInteger 7)].
Definition text_template : GraphTemplate := MkTemplate (model_pipe text_options) text_parameters None 0.
Definition model_options (g : GraphSpec) : option json := ns_options <$> GraphOps.FindNode "m" g.

Example text_instance : (match Instantiate text_template (JObject text_arguments) "7" with Value g => (name_ g, model_options g) | Error _ => ("", None) end) =
  ("pipe#7", Some (JObject [("path", JString "/tmp/out_7.mp4"); ("rate", JInteger 25)])).
Proof. by vm_compute. Qed.

Lemma Create_suffices_witness : exists spec, Instantiate text_template (JObject text_arguments) "7" = Value spec.
Proof.
  apply (Create_suffices (model_pipe text_options) text_parameters text_template text_arguments "7"); [by vm_compute|by repeat constructor| |].
  - constructor; [by left|]. constructor; [by left|]. constructor; [by right|constructor].
  - split.
    + intros k. change (text_arguments.*1) with ["dir"; "n"]. rewrite !elem_of_cons. intros [->|[->|Hk]]; [eexists; split; [apply elem_of_cons; by left|done]| |by apply not_elem_of_nil in Hk].
      eexists. split; [apply elem_of_cons; right; apply elem_of_cons; by left|done].
    + intros p. unfold text_parameters. rewrite !elem_of_cons. intros [->|[->|[->|Hp]]]; [done..|by apply not_elem_of_nil in Hp].
Defined.
Lemma text_prevalidated : exists t, Prevalidate model_resolver (fun l => l) 3 text_template = (StatusOps.Ok, t) /\
  (exists spec, Instantiate t (JObject text_arguments) "7" = Value spec).
Proof. eexists. split; [vm_compute; reflexivity|]. eexists. vm_compute. reflexivity. Qed.
Lemma instances_validated_witness : exists t spec v, Instantiate t (JObject text_arguments) "7" = Value spec /\
  gt_validated t = Some v /\ (Validate model_resolver (fun l => l) spec no_preferences false Negotiator.empty).1.1 = Value v.
Proof.
  destruct text_prevalidated as (t & Hp & spec & Hi). exists t, spec.
  destruct (instances_validated model_resolver (fun l => l) 3 text_template StatusOps.Ok t (JObject text_arguments) "7" spec (fun l => Permutation_refl l) Hp eq_refl Hi) as (v & H1 & _ & H2).
  exists v. split; [exact Hi|]. split; [exact H1|exact H2].
Defined.
