(* ===== verification/FlowLimiter.v ===== *)
(** The flow limiter (flow_limiter.cpp), an operator that admits frames up to a
    bound and counts completions from a feedback edge. Its calls are scripts of
    the scheduler's model, so it runs there as any operator does; every emit
    may be answered with any status. The clock is read once per call. *)

From stdpp Require Import base numbers list strings option.
From Stdlib Require Import ZArith Lia Ascii String.
From S2P Require Import Prelude Types Double Json GraphSpec CapabilityTypes Packet EdgeChannel InputBinding NodeRuntime RuntimeTopology Coordinator Scheduler SchedulerInvoke.

Local Open Scope string_scope.
Local Open Scope Z_scope.

Inductive OnLimit : Type := kDrop | kHold.
Record InFlight : Type := MkInFlight { if_pts : Z; if_seq : Z; if_since : Z }.
(** A moved-from entry of [fl_held] is [None]. *)
Record FlowLimiter : Type := MkFlowLimiter {
  fl_external_id : string;
  fl_max_in_flight : Z;
  fl_max_held : Z;
  fl_on_limit : OnLimit;
  fl_timeout_ms : Z;
  fl_in_flight : list InFlight;
  fl_held : list PacketRef;
  fl_dropped : Z;
  fl_timeouts : Z;
}.

Definition Prefix (external_id : string) : string := "node '" ++ external_id ++ "': ".
Definition Open (external_id : string) (options : json) : Result FlowLimiter :=
  let wrong m := Error (StatusOps.InvalidArgument (Prefix external_id ++ m)) in
  let max_in_flight := default 1 (Json.GetInteger "max_in_flight" options) in
  if max_in_flight <? 1 then wrong "max_in_flight must be >= 1"
  else
    let on_limit := default "drop" (Json.GetString "on_limit" options) in
    match (if String.eqb on_limit "drop" then Some kDrop else if String.eqb on_limit "hold" then Some kHold else None) with
    | None => wrong ("on_limit must be " ++ Json.quoted "drop" ++ " or " ++ Json.quoted "hold")
    | Some on_limit =>
        let max_held := default max_in_flight (Json.GetInteger "max_held" options) in
        if max_held <? 1 then wrong "max_held must be >= 1"
        else
          let timeout_ms := default 0 (Json.GetInteger "timeout_ms" options) in
          if timeout_ms <? 0 then wrong "timeout_ms must be >= 0"
          else Value (MkFlowLimiter external_id max_in_flight max_held on_limit timeout_ms [] [] 0 0)
    end.

Definition with_in_flight (l : list InFlight) (f : FlowLimiter) : FlowLimiter :=
  MkFlowLimiter (fl_external_id f) (fl_max_in_flight f) (fl_max_held f) (fl_on_limit f) (fl_timeout_ms f) l (fl_held f) (fl_dropped f) (fl_timeouts f).
Definition with_held (l : list PacketRef) (f : FlowLimiter) : FlowLimiter :=
  MkFlowLimiter (fl_external_id f) (fl_max_in_flight f) (fl_max_held f) (fl_on_limit f) (fl_timeout_ms f) (fl_in_flight f) l (fl_dropped f) (fl_timeouts f).
Definition with_max (m : Z) (f : FlowLimiter) : FlowLimiter :=
  MkFlowLimiter (fl_external_id f) m (fl_max_held f) (fl_on_limit f) (fl_timeout_ms f) (fl_in_flight f) (fl_held f) (fl_dropped f) (fl_timeouts f).
Definition with_counts (dropped timeouts : Z) (f : FlowLimiter) : FlowLimiter :=
  MkFlowLimiter (fl_external_id f) (fl_max_in_flight f) (fl_max_held f) (fl_on_limit f) (fl_timeout_ms f) (fl_in_flight f) (fl_held f) dropped timeouts.

Definition flow := FlowLimiter -> script FlowLimiter.

(** [Admit], then [next]; a null packet would be dereferenced. *)
Definition Admit (now : Z) (p : PacketRef) (f : FlowLimiter) (next : flow) : script FlowLimiter :=
  match p with
  | None => Returns (Error (StatusOps.Internal "null packet")) f
  | Some packet =>
      let entry := MkInFlight (pts_ns (header packet)) (seq (header packet)) now in
      Emits "out" packet (fun st =>
        if negb (StatusOps.ok st) && negb (bool_decide (code st = GE_STATUS_WOULD_BLOCK)) then Returns (Error st) f
        else next (with_in_flight (fl_in_flight f ++ [entry]) f))
  end.
(** Admitting the oldest held packet: it is moved out, then taken off. *)
Definition admit_held (now : Z) (p : PacketRef) (rest : list PacketRef) (f : FlowLimiter) (next : flow) : script FlowLimiter :=
  Admit now p (with_held (None :: rest) f) (fun f => next (with_held rest f)).
(** The loop of a flush, over what is held. *)
Fixpoint flush_held (now : Z) (held : list PacketRef) (f : FlowLimiter) (next : flow) : script FlowLimiter :=
  match held with
  | [] => next f
  | p :: rest => admit_held now p rest f (fun f => flush_held now rest f next)
  end.
Fixpoint ReleaseHeld (now : Z) (held : list PacketRef) (f : FlowLimiter) (next : flow) : script FlowLimiter :=
  match held with
  | [] => next f
  | p :: rest =>
      if Z.of_nat (List.length (fl_in_flight f)) <? fl_max_in_flight f then admit_held now p rest f (fun f => ReleaseHeld now rest f next)
      else next f
  end.

Fixpoint release_until (pts : Z) (l : list InFlight) : list InFlight :=
  match l with
  | [] => []
  | e :: l' => if if_pts e <=? pts then release_until pts l' else l
  end.
Definition Release (finished : Packet) (f : FlowLimiter) : FlowLimiter :=
  let pts := pts_ns (header finished) in
  with_in_flight (if pts =? 0 then tail (fl_in_flight f) else release_until pts (fl_in_flight f)) f.

Definition kEventFlowLimiterDrop : string := "flow_limiter.drop".
Definition kEventFlowLimiterTimeout : string := "flow_limiter.timeout".
(** The loop of [ReclaimTimedOut] over what is in flight. *)
Fixpoint reclaim (now : Z) (l : list InFlight) (f : FlowLimiter) (next : flow) : script FlowLimiter :=
  match l with
  | [] => next f
  | e :: l' =>
      if Word.i64 (fl_timeout_ms f * 1000000) <? now - if_since e then
        Publishes kEventFlowLimiterTimeout kWarning
          (Json.obj [("pts_ns", JInteger (if_pts e)); ("seq", JInteger (Word.i64 (if_seq e))); ("age_ms", JInteger (Z.quot (now - if_since e) 1000000))])
          (reclaim now l' (with_in_flight l' (with_counts (fl_dropped f) (Word.u64 (fl_timeouts f + 1)) f)) next)
      else next f
  end.
Definition ReclaimTimedOut (now : Z) (f : FlowLimiter) (next : flow) : script FlowLimiter :=
  if fl_timeout_ms f <=? 0 then next f else reclaim now (fl_in_flight f) f next.

Definition Drop (p : Packet) (f : FlowLimiter) (next : flow) : script FlowLimiter :=
  Publishes kEventFlowLimiterDrop kDebug
    (Json.obj [("seq", JInteger (Word.i64 (seq (header p)))); ("pts_ns", JInteger (pts_ns (header p)));
               ("in_flight", JInteger (Z.of_nat (List.length (fl_in_flight f))))])
    (next (with_counts (Word.u64 (fl_dropped f + 1)) (fl_timeouts f) f)).

(** The inputs of a call with their ports; none is null. *)
Definition inputs_of (req : ProcessRequest) : list (string * Packet) := omap (fun pp : string * PacketRef => (fun p => (pp.1, p)) <$> pp.2) (zip (pq_ports req) (pq_inputs req)).
Definition is_data (port : string) (pp : string * Packet) : bool := String.eqb pp.1 port && negb (PacketOps.is_event pp.2).
Definition judge (now : Z) (p : Packet) (f : FlowLimiter) (next : flow) : script FlowLimiter :=
  if Z.of_nat (List.length (fl_in_flight f)) <? fl_max_in_flight f then Admit now (Some p) f next
  else
    match fl_on_limit f with
    | kDrop => Drop p f next
    | kHold =>
        if Z.of_nat (List.length (fl_held f)) <? fl_max_held f then next (with_held (fl_held f ++ [Some p]) f)
        else match fl_held f with
             | Some oldest :: rest => Drop oldest f (fun f => next (with_held (rest ++ [Some p]) f))
             | _ => Returns (Error (StatusOps.Internal "null packet")) f
             end
    end.
Fixpoint judge_all (now : Z) (l : list (string * Packet)) (f : FlowLimiter) : script FlowLimiter :=
  match l with
  | [] => Returns (Value kContinue) f
  | pp :: l' => if is_data "in" pp then judge now pp.2 f (fun f => judge_all now l' f) else judge_all now l' f
  end.

Definition Process (now : Z) (req : ProcessRequest) (f : FlowLimiter) : script FlowLimiter :=
  let f := match Json.GetInteger "max_in_flight" (pq_parameters req) with Some m => if 1 <=? m then with_max m f else f | None => f end in
  ReclaimTimedOut now f (fun f =>
    if negb (Z.land (pq_flags req) GE_PROCESS_FLAG_FLUSH =? 0) then flush_held now (fl_held f) f (fun f => Returns (Value kContinue) f)
    else
      let f := fold_left (fun f pp => if is_data "finished" pp then Release pp.2 f else f) (inputs_of req) f in
      ReleaseHeld now (fl_held f) f (fun f => judge_all now (inputs_of req) f)).

Definition Close (f : FlowLimiter) : FlowLimiter := with_held [] (with_in_flight [] f).
