(* ===== verification/FlowLimiterProofs.v ===== *)
(** The flow limiter keeps its bounds, loses no frame without counting it and
    passes frames on in the order they came. *)

From stdpp Require Import base numbers list strings option.
From Stdlib Require Import ZArith Lia Ascii String.
From S2P Require Import Prelude Types Double Json GraphSpec CapabilityTypes Packet EdgeChannel InputBinding NodeRuntime RuntimeTopology Coordinator Scheduler SchedulerInvoke FlowLimiter.

Local Open Scope string_scope.
Local Open Scope Z_scope.

(** ** Executions of a script *)

(** Whatever statuses the emits get: the packets emitted, the result and the
    state that is left. *)
Inductive executes {W} : script W -> list Packet -> Result ProcessResult -> W -> Prop :=
| ex_returns r w : executes (Returns r w) [] r w
| ex_emits port p next st l r w : executes (next st) l r w -> executes (Emits port p next) (p :: l) r w
| ex_publishes type severity detail next l r w : executes next l r w -> executes (Publishes type severity detail next) l r w.

(** The scheduler's runs are executions. *)
Lemma run_script_executes {W} now (x : script W) : forall k s, exists l, executes x l (run_script now k x s).1.1 (run_script now k x s).1.2.
Proof.
  induction x as [r w|port p next IH|type sev detail next IH]; intros k s; cbn [run_script].
  - exists []. constructor.
  - destruct (SinkEmit now k port p s) as [[st k'] s']. destruct (IH st k' s') as [l H]. exists (p :: l). by econstructor.
  - destruct (SinkPublish k type sev detail s) as [k' s']. destruct (IH k' s') as [l H]. exists l. by econstructor.
Qed.

Definition succeeds (x : script FlowLimiter) (l : list Packet) (f : FlowLimiter) : Prop := exists v, executes x l (Value v) f.

Definition more (n : nat) (f f' : FlowLimiter) : Prop :=
  List.length (fl_in_flight f') = (List.length (fl_in_flight f) + n)%nat /\ fl_max_in_flight f' = fl_max_in_flight f /\ fl_max_held f' = fl_max_held f /\
  fl_on_limit f' = fl_on_limit f /\ fl_dropped f' = fl_dropped f.

Lemma admit_inv now p f next l w : succeeds (Admit now p f next) l w -> exists packet l' f', p = Some packet /\ l = packet :: l' /\
  more 1 f f' /\ fl_held f' = fl_held f /\ succeeds (next f') l' w.
Proof.
  intros [v H]. unfold Admit in H. destruct p as [packet|]; [|by inversion H]. inversion H as [|? ? ? st l' ? ? Hn|]; subst.
  destruct (negb _ && negb _); [by inversion Hn|]. exists packet, l'. eexists. split; [done|]. split; [done|]. split; [|split; [|by exists v]]; [|done].
  repeat split. simpl. by rewrite length_app.
Qed.
Lemma admit_held_inv now p rest f next l w : succeeds (admit_held now p rest f next) l w -> exists packet l' f', p = Some packet /\ l = packet :: l' /\
  more 1 f f' /\ fl_held f' = rest /\ succeeds (next f') l' w.
Proof.
  intros H. apply admit_inv in H as (packet & l' & f' & -> & -> & (M1 & M2 & M3 & M4 & M5) & _ & H). exists packet, l', (with_held rest f'). by repeat split.
Qed.
Lemma more_trans n m f1 f2 f3 : more n f1 f2 -> more m f2 f3 -> more (n + m) f1 f3.
Proof. intros (A1 & A2 & A3 & A4 & A5) (B1 & B2 & B3 & B4 & B5). repeat split; try congruence. lia. Qed.
Lemma more_refl f : more 0 f f.
Proof. repeat split. lia. Qed.

Lemma flush_inv now held : forall f next l w, fl_held f = held -> succeeds (flush_held now held f next) l w -> exists ps l' f', held = map Some ps /\ l = (ps ++ l')%list /\
  more (List.length ps) f f' /\ fl_held f' = [] /\ succeeds (next f') l' w.
Proof.
  induction held as [|p held IH]; intros f next l w Hf H; cbn [flush_held] in H.
  - exists [], l, f. split; [done|]. split; [done|]. split; [apply more_refl|done].
  - apply admit_held_inv in H as (packet & l1 & f1 & -> & -> & M1 & H1 & H). apply IH in H as (ps & l' & f' & -> & -> & M2 & H2 & H); [|done].
    exists (packet :: ps), l', f'. split; [done|]. split; [done|]. split; [exact (more_trans _ _ _ _ _ M1 M2)|done].
Qed.
Lemma release_inv now held : forall f next l w, fl_held f = held -> succeeds (ReleaseHeld now held f next) l w -> exists ps rest l' f', held = (map Some ps ++ rest)%list /\
  l = (ps ++ l')%list /\ more (List.length ps) f f' /\ fl_held f' = rest /\
  (ps = [] \/ Z.of_nat (List.length (fl_in_flight f')) <= fl_max_in_flight f') /\
  (rest = [] \/ fl_max_in_flight f' <= Z.of_nat (List.length (fl_in_flight f'))) /\ succeeds (next f') l' w.
Proof.
  induction held as [|p held IH]; intros f next l w Hf H; cbn [ReleaseHeld] in H; [exists [], [], l, f; split; [done|]; split; [done|]; split; [apply more_refl|]; split; [done|]; split; [by left|]; split; [by left|done]|].
  destruct (Z.ltb_spec (Z.of_nat (List.length (fl_in_flight f))) (fl_max_in_flight f)) as [L|L].
  - apply admit_held_inv in H as (packet & l1 & f1 & -> & -> & M1 & H1 & H). apply IH in H as (ps & rest & l' & f' & -> & -> & M2 & H2 & B & R & H); [|done].
    exists (packet :: ps), rest, l', f'. pose proof (more_trans _ _ _ _ _ M1 M2) as M. split; [done|]. split; [done|]. split; [exact M|]. split; [done|]. split; [|done]. right.
    destruct B as [->|B]; [|done]. destruct M as (M & Mx & _). simpl in M. lia.
  - exists [], (p :: held), l, f. split; [done|]. split; [done|]. split; [apply more_refl|]. split; [done|]. split; [by left|]. split; [by right|done].
Qed.
Lemma reclaim_inv now r : forall f next l w, fl_in_flight f = r -> succeeds (reclaim now r f next) l w -> exists f', (List.length (fl_in_flight f') <= List.length r)%nat /\
  fl_max_in_flight f' = fl_max_in_flight f /\ fl_max_held f' = fl_max_held f /\ fl_on_limit f' = fl_on_limit f /\ fl_dropped f' = fl_dropped f /\ fl_held f' = fl_held f /\
  succeeds (next f') l w.
Proof.
  induction r as [|e r IH]; intros f next l w Hf H; cbn [reclaim] in H; [exists f; rewrite Hf; done|].
  destruct (_ <? _); [|exists f; rewrite Hf; done]. destruct H as [v H]. inversion H as [| |? ? ? ? ? ? ? Hn]; subst.
  destruct (IH (with_in_flight r (with_counts (fl_dropped f) (Word.u64 (fl_timeouts f + 1)) f)) next l w eq_refl) as (f' & A1 & A2 & A3 & A4 & A5 & A6 & A7); [by exists v|].
  exists f'. simpl in *. repeat split; try congruence. lia.
Qed.
Lemma drop_inv p f next l w : succeeds (Drop p f next) l w -> succeeds (next (with_counts (Word.u64 (fl_dropped f + 1)) (fl_timeouts f) f)) l w.
Proof. intros [v H]. inversion H; subst. by exists v. Qed.

(** ** The invariant *)

Record kept (arrived emitted : list Packet) (f : FlowLimiter) : Prop := {
  kp_frames : exists held, fl_held f = map Some held /\ (emitted ++ held)%list `sublist_of` arrived /\ Z.of_nat (List.length held) <= fl_max_held f /\
    fl_dropped f = Word.u64 (Z.of_nat (List.length arrived) - Z.of_nat (List.length emitted) - Z.of_nat (List.length held));
  kp_max_held : 1 <= fl_max_held f;
  kp_drop : fl_on_limit f = kDrop -> fl_held f = [];
}.
(** Held frames go before new ones. *)
Definition settled (f : FlowLimiter) : Prop := fl_held f = [] \/ fl_max_in_flight f <= Z.of_nat (List.length (fl_in_flight f)).
Definition room (f : FlowLimiter) : Z := Z.max (fl_max_in_flight f) (Z.of_nat (List.length (fl_in_flight f))).

Lemma kept_same a e f f' : fl_held f' = fl_held f -> fl_max_held f' = fl_max_held f -> fl_on_limit f' = fl_on_limit f -> fl_dropped f' = fl_dropped f -> kept a e f -> kept a e f'.
Proof. intros H1 H2 H3 H4 [K1 K2 K3]. split; rewrite ?H1, ?H2, ?H3, ?H4; done. Qed.

Lemma judge_inv now p a e f next l w : kept a e f -> settled f -> succeeds (judge now p f next) l w ->
  exists l1 l2 f', l = (l1 ++ l2)%list /\ kept (a ++ [p]) (e ++ l1) f' /\ settled f' /\ fl_max_in_flight f' = fl_max_in_flight f /\ room f' <= room f /\ succeeds (next f') l2 w.
Proof.
  intros [(hs & H1 & H2 & H3 & H4) K2 K3] S H. unfold judge in H. destruct (Z.ltb_spec (Z.of_nat (List.length (fl_in_flight f))) (fl_max_in_flight f)) as [L|L].
  - apply admit_inv in H as (packet & l' & f' & [= <-] & -> & (M1 & M2 & M3 & M4 & M5) & Hh & H). destruct S as [S|S]; [|lia].
    exists [p], l', f'. split; [done|]. split; [|split; [left; congruence|split; [done|split; [unfold room; lia|done]]]].
    rewrite S in H1. destruct hs; [|done]. rewrite app_nil_r in H2. split; [|by rewrite M3|by intros _; rewrite Hh]. exists []. rewrite Hh, S, M3, M5, app_nil_r.
    split; [done|]. split; [by apply sublist_app|]. split; [simpl; lia|]. rewrite H4, !length_app. simpl. f_equal. lia.
  - destruct (fl_on_limit f) eqn:O.
    + apply drop_inv in H. exists [], l. eexists. split; [done|]. split; [|split; [|split; [|split; [|exact H]]]]; try done. rewrite app_nil_r. split; simpl; [|done|by rewrite O].
      exists hs. split; [done|]. split; [by apply sublist_inserts_r|]. split; [done|]. rewrite H4, Word.u64_plus, length_app. simpl. f_equal. lia.
    + destruct (Z.ltb_spec (Z.of_nat (List.length (fl_held f))) (fl_max_held f)) as [B|B].
      * exists [], l. eexists. split; [done|]. split; [|split; [|split; [|split; [|exact H]]]]; try done; [|by right]. rewrite app_nil_r. split; simpl; [|done|by rewrite O].
        exists (hs ++ [p])%list. rewrite H1, map_app, app_assoc. split; [done|]. split; [by apply sublist_app|]. rewrite H1, length_map in B. rewrite !length_app. simpl.
        split; [lia|]. rewrite H4. f_equal. lia.
      * rewrite H1 in H. destruct hs as [|o rest]; simpl in H; [by destruct H as [v H]; inversion H|]. apply drop_inv in H. exists [], l. eexists. split; [done|].
        split; [|split; [|split; [|split; [|exact H]]]]; try done; [|by right]. rewrite app_nil_r. split; simpl; [|done|by rewrite O].
        exists (rest ++ [p])%list. rewrite map_app. split; [done|]. split; [|rewrite !length_app; simpl in *; split; [lia|rewrite H4, Word.u64_plus; f_equal; lia]].
        rewrite app_assoc. apply sublist_app; [|done]. etrans; [|exact H2]. apply sublist_app; [done|]. by apply sublist_cons.
Qed.
Definition frames (l : list (string * Packet)) : list Packet := map snd (List.filter (is_data "in") l).
Lemma judge_all_inv now l : forall a e f em w, kept a e f -> settled f -> succeeds (judge_all now l f) em w ->
  kept (a ++ frames l) (e ++ em) w /\ fl_max_in_flight w = fl_max_in_flight f /\ room w <= room f.
Proof.
  unfold frames. induction l as [|pp l IH]; intros a e f em w K S H; cbn [judge_all] in H.
  - destruct H as [v H]. inversion H; subst. simpl. by rewrite !app_nil_r.
  - simpl. destruct (is_data "in" pp); [|by apply IH]. apply (judge_inv now pp.2 a e) in H as (l1 & l2 & f' & -> & K' & S' & Mx & R & H); [|done..].
    apply (IH _ _ _ _ _ K' S') in H as (K'' & Mx' & R'). rewrite <- !app_assoc in K''. split; [done|]. split; [congruence|lia].
Qed.
Lemma release_until_le pts l : (List.length (release_until pts l) <= List.length l)%nat.
Proof. induction l as [|x l IH]; simpl; [done|]. destruct (_ <=? _); simpl; lia. Qed.
Lemma release_keeps l : forall f, let f' := fold_left (fun f pp => if is_data "finished" pp then Release pp.2 f else f) l f in
  fl_held f' = fl_held f /\ fl_max_held f' = fl_max_held f /\ fl_on_limit f' = fl_on_limit f /\ fl_dropped f' = fl_dropped f /\ fl_max_in_flight f' = fl_max_in_flight f /\
  (List.length (fl_in_flight f') <= List.length (fl_in_flight f))%nat.
Proof.
  induction l as [|pp l IH]; intros f; simpl; [repeat split; lia|]. specialize (IH (if is_data "finished" pp then Release pp.2 f else f)). simpl in IH.
  destruct IH as (I1 & I2 & I3 & I4 & I5 & I6). rewrite I1, I2, I3, I4, I5. destruct (is_data "finished" pp); [|done]. repeat split. etrans; [exact I6|]. unfold Release. simpl.
  destruct (_ =? _); [|apply release_until_le]. destruct (fl_in_flight f); simpl; lia.
Qed.

Definition is_flush (req : ProcessRequest) : bool := negb (Z.land (pq_flags req) GE_PROCESS_FLAG_FLUSH =? 0).
(** The frames a call brings; a flush brings none. *)
Definition arrivals (req : ProcessRequest) : list Packet := if is_flush req then [] else frames (inputs_of req).
(** The bound in force after a call. *)
Definition limit_after (req : ProcessRequest) (m : Z) : Z :=
  match Json.GetInteger "max_in_flight" (pq_parameters req) with Some x => if 1 <=? x then x else m | None => m end.

Lemma process_inv now req a e f l w : kept a e f -> succeeds (Process now req f) l w ->
  kept (a ++ arrivals req) (e ++ l) w /\ fl_max_in_flight w = limit_after req (fl_max_in_flight f) /\
  (is_flush req = false -> Z.of_nat (List.length (fl_in_flight w)) <= Z.max (fl_max_in_flight w) (Z.of_nat (List.length (fl_in_flight f)))).
Proof.
  intros K H. unfold Process in H. set (f0 := match Json.GetInteger _ _ with Some m => _ | None => f end) in H.
  assert (F0 : kept a e f0 /\ fl_max_in_flight f0 = limit_after req (fl_max_in_flight f) /\ fl_in_flight f0 = fl_in_flight f).
  { unfold f0, limit_after. destruct (Json.GetInteger _ _) as [m|]; [|done]. destruct (1 <=? m); [|done]. split; [by eapply kept_same; [..|exact K]|done]. }
  clearbody f0. destruct F0 as (K0 & M0 & I0). assert (R : exists f1, kept a e f1 /\ fl_max_in_flight f1 = fl_max_in_flight f0 /\
    (List.length (fl_in_flight f1) <= List.length (fl_in_flight f))%nat /\
    succeeds (if is_flush req then flush_held now (fl_held f1) f1 (fun f => Returns (Value kContinue) f)
      else let f := fold_left (fun f pp => if is_data "finished" pp then Release pp.2 f else f) (inputs_of req) f1 in
           ReleaseHeld now (fl_held f) f (fun f => judge_all now (inputs_of req) f)) l w).
  { unfold ReclaimTimedOut in H. destruct (fl_timeout_ms f0 <=? 0); [exists f0; rewrite I0; done|].
    apply reclaim_inv in H as (f1 & A1 & A2 & A3 & A4 & A5 & A6 & H); [|done]. exists f1. rewrite I0 in A1. split; [by eapply kept_same; [..|exact K0]|done]. }
  clear H. destruct R as (f1 & K1 & M1 & L1 & H). unfold arrivals. destruct (is_flush req) eqn:Fl.
  - apply flush_inv in H as (ps & l' & f' & Hh & -> & (N1 & N2 & N3 & N4 & N5) & Hn & [v H]); [|done]. inversion H; subst. rewrite !app_nil_r. split; [|split; [congruence|done]].
    destruct K1 as [(hs & H1 & H2 & H3 & H4) K2 K3]. rewrite Hh in H1. apply (inj (map Some)) in H1 as ->. split; [|by rewrite N3|by intros _].
    exists []. rewrite Hn, app_nil_r, N3, N5, H4, length_app. split; [done|]. split; [done|]. split; [simpl; lia|]. simpl. f_equal. lia.
  - cbn zeta in H. set (f2 := fold_left _ _ f1) in H. destruct (release_keeps (inputs_of req) f1) as (G1 & G2 & G3 & G4 & G5 & G6). fold f2 in G1, G2, G3, G4, G5, G6.
    assert (K2 : kept a e f2) by (by eapply kept_same; [..|exact K1]). clearbody f2.
    apply release_inv in H as (ps & rest & l' & f3 & Hh & -> & (N1 & N2 & N3 & N4 & N5) & Hn & B & S & H); [|done].
    assert (K3 : kept a (e ++ ps) f3).
    { destruct K2 as [(hs & H1 & H2 & H3 & H4) K2 K3]. rewrite Hh in H1. symmetry in H1. apply map_eq_app in H1 as (h1 & h2 & -> & E1 & E2). apply (inj (map Some)) in E1 as ->.
      split; [|by rewrite N3|intros O; rewrite N4 in O; specialize (K3 O); rewrite Hh in K3; by apply app_eq_nil in K3 as [_ ->]]. exists h2. rewrite Hn, N3, N5, <- app_assoc. rewrite !length_app in *.
      split; [done|]. split; [done|]. split; [lia|]. rewrite H4. f_equal. lia. }
    assert (S3 : settled f3) by (unfold settled; by rewrite Hn). apply (judge_all_inv now _ _ _ _ _ _ K3 S3) in H as (K4 & M4 & R4).
    rewrite <- app_assoc in K4. split; [done|]. split; [congruence|]. intros _. unfold room in R4. destruct B as [->|B]; simpl in N1; lia.
Qed.

(** ** Histories *)

(** Calls that returned, with all that was emitted. *)
Inductive history (f0 : FlowLimiter) : list ProcessRequest -> list Packet -> FlowLimiter -> Prop :=
| hi_start : history f0 [] [] f0
| hi_call now req reqs em l f f' : history f0 reqs em f -> succeeds (Process now req f) l f' -> history f0 (reqs ++ [req]) (em ++ l) f'.
Definition all_arrivals (reqs : list ProcessRequest) : list Packet := List.concat (map arrivals reqs).

Lemma open_kept id options f : Open id options = Value f -> kept [] [] f /\ fl_in_flight f = [] /\ 1 <= fl_max_in_flight f.
Proof.
  unfold Open. destruct (Z.ltb_spec (default 1 (Json.GetInteger "max_in_flight" options)) 1) as [L|L]; [done|].
  destruct (if String.eqb _ _ then _ else _) as [o|]; [|done]. destruct (_ <? 1) eqn:L'; [done|]. apply Z.ltb_ge in L'.
  destruct (_ <? 0); [done|]. intros [= <-]. split; [|done]. split; simpl; [|lia|done]. exists []. repeat split; simpl; lia || done.
Qed.
Lemma history_kept f0 reqs em f : history f0 reqs em f -> kept [] [] f0 -> kept (all_arrivals reqs) em f.
Proof.
  intros H K. induction H as [|now req reqs em l f f' _ IH H]; [done|]. unfold all_arrivals. rewrite map_app, concat_app. simpl. rewrite app_nil_r. by eapply process_inv.
Qed.

(** C27: the limiter accounts for every frame. After any calls that returned,
    whatever was answered to its emits, the frames it passed on followed by
    the frames it holds are, in order, frames that arrived, none twice; the
    frames that are missing are exactly the counted drops; and it never holds
    more than [max_held], none when it drops. *)
Theorem frames_accounted id options f0 reqs em f : Open id options = Value f0 -> history f0 reqs em f ->
  exists held, fl_held f = map Some held /\ (em ++ held)%list `sublist_of` all_arrivals reqs /\
    fl_dropped f = Word.u64 (Z.of_nat (List.length (all_arrivals reqs)) - Z.of_nat (List.length em) - Z.of_nat (List.length held)) /\
    Z.of_nat (List.length held) <= fl_max_held f /\ (fl_on_limit f = kDrop -> held = []).
Proof.
  intros O H. apply open_kept in O as (K & _ & _). destruct (history_kept _ _ _ _ H K) as [(hs & H1 & H2 & H3 & H4) K2 K3]. exists hs. repeat split; try done.
  intros D. specialize (K3 D). rewrite H1 in K3. by destruct hs.
Qed.

(** C32: before the input ends, the limiter never has more frames in flight than
    the largest bound it was ever given, whether by its options or by hot
    updates. *)
Theorem in_flight_bounded id options f0 reqs em f m : Open id options = Value f0 -> history f0 reqs em f ->
  Forall (fun req => is_flush req = false /\ forall x, Json.GetInteger "max_in_flight" (pq_parameters req) = Some x -> x <= m) reqs -> fl_max_in_flight f0 <= m ->
  Z.of_nat (List.length (fl_in_flight f)) <= m.
Proof.
  intros O H. apply open_kept in O as (K & I & P). intros F M. cut (Z.of_nat (List.length (fl_in_flight f)) <= m /\ fl_max_in_flight f <= m); [naive_solver|].
  induction H as [|now req reqs em l f f' H0 IH H]; [rewrite I; simpl; lia|].
  apply Forall_app in F as [F1 F2]. destruct (IH F1) as [L X]. apply List.Forall_cons_iff in F2 as [[F2 F3] _].
  apply (process_inv now req _ _ _ _ _ (history_kept _ _ _ _ H0 K)) in H as (_ & Mx & B). specialize (B F2).
  assert (fl_max_in_flight f' <= m). { rewrite Mx. unfold limit_after. destruct (Json.GetInteger _ _) as [x|]; [|done]. destruct (1 <=? x); [by apply F3|done]. }
  split; [lia|done].
Qed.

(** ** A run *)

Definition frame_at (n : Z) : Packet := MkPacket (MkPacketHeader n n n 0 0 0 1) None None 0.
Definition hold_one : json := JObject [("max_held", JInteger 1); ("on_limit", JString "hold")].
Definition brings (port : string) (n : Z) : ProcessRequest := MkProcessRequest 1 1 1 0 [port] [Some (frame_at n)] JNull.
Definition limiter (flying : list InFlight) (held : list Z) (dropped : Z) : FlowLimiter :=
  MkFlowLimiter "l" 1 1 kHold 0 flying (map (fun n => Some (frame_at n)) held) dropped 0.
Definition flying (n : Z) : InFlight := MkInFlight n n 0.
(** Three frames at a bound of one, then a completion: the first is passed on,
    the second is held and dropped for the third, which goes out next. *)
Lemma limiter_run : history (limiter [] [] 0) [brings "in" 1; brings "in" 2; brings "in" 3; brings "finished" 1] [frame_at 1; frame_at 3] (limiter [flying 3] [] 1).
Proof.
  change [frame_at 1; frame_at 3] with (((([] ++ [frame_at 1]) ++ []) ++ []) ++ [frame_at 3])%list.
  apply (hi_call _ 0 (brings "finished" 1) [brings "in" 1; brings "in" 2; brings "in" 3] _ _ (limiter [flying 1] [3] 1)).
  - apply (hi_call _ 0 (brings "in" 3) [brings "in" 1; brings "in" 2] _ _ (limiter [flying 1] [2] 0)).
    + apply (hi_call _ 0 (brings "in" 2) [brings "in" 1] _ _ (limiter [flying 1] [] 0)).
      * apply (hi_call _ 0 (brings "in" 1) [] _ _ (limiter [] [] 0)); [constructor|]. eexists. apply (ex_emits _ _ _ StatusOps.Ok). apply ex_returns.
      * eexists. apply ex_returns.
    + eexists. apply ex_publishes. apply ex_returns.
  - eexists. apply (ex_emits _ _ _ StatusOps.Ok). apply ex_returns.
Qed.
Lemma frames_accounted_witness : fl_dropped (limiter [flying 3] [] 1) = Word.u64 (3 - 2 - 0).
Proof.
  destruct (frames_accounted "l" hold_one (limiter [] [] 0) _ _ _ eq_refl limiter_run) as (held & H1 & _ & H2 & _). simpl in H1. destruct held; [|done]. exact H2.
Defined.
Lemma in_flight_bounded_witness : Z.of_nat (List.length (fl_in_flight (limiter [flying 3] [] 1))) <= 1.
Proof. apply (in_flight_bounded "l" hold_one (limiter [] [] 0) _ _ _ 1 eq_refl limiter_run); [by repeat constructor|done]. Defined.
