(* ===== verification/PluginManifest.v ===== *)
(** Plugin manifests (plugin_manifest.h, plugin_manifest.cpp): the rule for
    relative paths, the parser and the writer. *)

From stdpp Require Import base numbers list strings.
From Stdlib Require Import ZArith Ascii String.
From S2P Require Import Prelude Types Double Json JsonParser JsonReader GraphJson CapabilityJson Text.

Local Open Scope string_scope.
Local Open Scope Z_scope.
Local Open Scope ge_scope.

Import Reader Read.

(** ** Paths *)

Definition is_slash (c : ascii) : bool := Ascii.eqb c "/" || Ascii.eqb c "\".
(** The texts between the separators, which the loop of the source takes one
    by one: an empty one too at both ends and between two separators. *)
Fixpoint parts (sep : ascii -> bool) (s : string) : list string :=
  match s with
  | EmptyString => [""]
  | String c t =>
      if sep c then "" :: parts sep t
      else match parts sep t with p :: ps => String c p :: ps | [] => [] end
  end.
Definition plain_part (p : string) : bool := negb (bool_decide (p = "") || bool_decide (p = ".") || bool_decide (p = "..")).
Definition second_char (s : string) : option ascii := match s with String _ (String c _) => Some c | _ => None end.
Definition IsSafeRelativePath (path : string) : bool :=
  match path with
  | EmptyString => false
  | String c _ =>
      if is_slash c then false
      else if bool_decide (second_char path = Some ":"%char) then false
      else forallb plain_part (parts is_slash path)
  end.

(** ** The manifest *)

Record PluginDependency : Type := MkPluginDependency { pd_name : string; pd_version : string }.
Record AbiVersion : Type := MkAbiVersion { abi_major : Z; abi_minor : Z }.
Record PluginManifest : Type := MkPluginManifest {
  pm_plugin_id : string;
  pm_library : string;
  pm_abi : AbiVersion;
  pm_build_fingerprint : string;
  pm_dependencies : list PluginDependency;
  pm_resources : list string;
  pm_operators : list OperatorKey;
  pm_max_inference_ms : option Z;
  pm_no_owned_threads : bool;
  pm_allow_unknown_fields : bool;
}.
Definition plugin_schema_id : string := "ge.dev/schema/plugin/v1".

Definition ParseAbi (v : json) (allow_unknown : bool) : Result AbiVersion :=
  run (
    let@ major := RequireInteger "major" in
    let@ minor := RequireInteger "minor" in
    if (major <? 0) || (minor <? 0) then error "abi versions must be non-negative"
    else
      let@ _ := Finish in
      ret (MkAbiVersion (Word.u32 major) (Word.u32 minor))) (cap_reader v "abi" allow_unknown).
Definition ParseDependency (allow_unknown : bool) (d : json) (path : string) : Result PluginDependency :=
  if negb (Json.is_object d) then ManifestInvalid (path ++ " must be an object")
  else run (
    let@ name := RequireString "name" in
    let@ version := RequireString "version" in
    let@ _ := Finish in
    ret (MkPluginDependency name version)) (cap_reader d path allow_unknown).
Fixpoint parse_operators (ops seen : list string) : Reader (list OperatorKey) :=
  match ops with
  | [] => ret []
  | op :: ops' =>
      match OperatorKeyOps.Parse op with
      | None => error ("invalid operator key '" ++ op ++ "'")
      | Some key =>
          if bool_decide (op ∈ seen) then error ("duplicate operator '" ++ op ++ "'")
          else let@ keys := parse_operators ops' (op :: seen) in ret (key :: keys)
      end
  end.

Definition ParseManifest (doc : json) : Result PluginManifest :=
  let? allow_unknown := CheckDocumentHeader doc "PluginManifest" 1 plugin_schema_id GE_STATUS_PLUGIN_MANIFEST_INVALID in
  run (
    let@ _ := MarkHeaderSeen in
    let@ plugin_id := RequireString "plugin_id" in
    if Str.empty plugin_id then error "plugin_id must not be empty" else
    let@ library := RequireString "library" in
    if negb (IsSafeRelativePath library) then error ("library '" ++ library ++ "' must be a safe relative path") else
    let@ abi := Get "abi" in
    let@ version := match abi with
                    | None => Missing "abi"
                    | Some v => if negb (Json.is_object v) then WrongType "abi" "object" else lift (ParseAbi v allow_unknown)
                    end in
    let@ build_fingerprint := RequireString "build_fingerprint" in
    if Str.empty build_fingerprint then error "build_fingerprint must not be empty" else
    let@ deps := Get "dependencies" in
    let@ dependencies := match deps with
                         | None => ret []
                         | Some (JArray l) => lift (parse_items (ParseDependency allow_unknown) "dependencies" 0 l)
                         | Some _ => WrongType "dependencies" "array"
                         end in
    let@ resources := StringArray "resources" false [] in
    match List.find (fun res => negb (IsSafeRelativePath res)) resources with
    | Some res => error ("resource '" ++ res ++ "' must be a safe relative path")
    | None =>
        let@ ops := StringArray "operators" true [] in
        if negb (has (head ops)) then error "operators must not be empty" else
        let@ operators := parse_operators ops [] in
        let@ mi := OptionalInteger "max_inference_ms" in
        if (match mi with Some z => z <=? 0 | None => false end) then error "max_inference_ms must be > 0" else
        let@ no_owned_threads := RequireBool "no_owned_threads" in
        if negb no_owned_threads then error "no_owned_threads must be true" else
        let@ _ := Finish in
        ret (MkPluginManifest plugin_id library version build_fingerprint dependencies resources operators
               (Word.u64 <$> mi) no_owned_threads allow_unknown)
    end) (cap_reader doc "PluginManifest" allow_unknown).
Definition ParseManifestText (text : string) : Result PluginManifest :=
  match ParseJson text with
  | inl v => ParseManifest v
  | inr e => ManifestInvalid ("invalid manifest JSON: " ++ e)
  end.

Definition AbiJson (a : AbiVersion) : json :=
  Json.obj [("major", JInteger (abi_major a)); ("minor", JInteger (abi_minor a))].
Definition DependencyJson (d : PluginDependency) : json :=
  Json.obj [("name", JString (pd_name d)); ("version", JString (pd_version d))].
Definition ManifestJson (m : PluginManifest) : json :=
  Json.obj (
    header "PluginManifest" plugin_schema_id (pm_allow_unknown_fields m) ++
    [("plugin_id", JString (pm_plugin_id m)); ("library", JString (pm_library m)); ("abi", AbiJson (pm_abi m));
     ("build_fingerprint", JString (pm_build_fingerprint m))] ++
    when (has (head (pm_dependencies m))) "dependencies" (JArray (map DependencyJson (pm_dependencies m))) ++
    when (has (head (pm_resources m))) "resources" (string_array (pm_resources m)) ++
    [("operators", string_array (map OperatorKeyOps.ToString (pm_operators m)))] ++
    maybe "max_inference_ms" (fun z => JInteger (Word.i64 z)) (pm_max_inference_ms m) ++
    [("no_owned_threads", JBool (pm_no_owned_threads m))])%list.
Definition SerializeManifest (m : PluginManifest) : string := Json.Serialize (ManifestJson m).
