(* ===== verification/PluginManifestProofs.v ===== *)
(** What a manifest that was read promises: its values are within their
    types, its paths stay in the directory of the plugin, and it survives its
    JSON form. *)

From stdpp Require Import base numbers list strings sorting.
From Stdlib Require Import ZArith Lia Ascii String.
From S2P Require Import Prelude Types Text Double Json JsonParser JsonProofs JsonRoundTrip JsonReader GraphJson GraphJsonProofs CapabilityJson CapabilityJsonProofs PluginManifest.

Local Open Scope string_scope.
Local Open Scope Z_scope.
Local Open Scope ge_scope.

Import Reader Read.

(** ** Paths *)

(** How a path is walked from a directory, given as the names from the root
    to it, by a system whose separators are [sep]: an absolute one starts at
    the root, empty names and dots stay, two dots go up. *)
Definition enter (dir : list string) (p : string) : list string :=
  if bool_decide (p = "") || bool_decide (p = ".") then dir
  else if bool_decide (p = "..") then removelast dir
  else (dir ++ [p])%list.
Definition walk (sep : ascii -> bool) (dir : list string) (path : string) : list string :=
  fold_left enter (parts sep path) (match path with String c _ => if sep c then [] else dir | EmptyString => dir end).

Lemma parts_nonempty sep s : exists p ps, parts sep s = p :: ps.
Proof. induction s as [|c s (p & ps & IH)]; simpl; [eauto|]. destruct (sep c); [eauto|]. rewrite IH. eauto. Qed.

(** With fewer separators, a part without any is a part still. *)
Lemma parts_finer (sep fine : ascii -> bool) s : (forall c, sep c = true -> fine c = true) ->
  (forall p ps q qs, parts sep s = p :: ps -> parts fine s = q :: qs ->
    (Text.all (fun c => negb (fine c)) p = true -> p = q) /\
    (forall x, Text.all (fun c => negb (fine c)) x = true -> x ∈ ps -> x ∈ qs)).
Proof.
  intros Hs. induction s as [|c s IH]; intros p ps q qs; simpl.
  { intros [= <- <-] [= <- <-]. done. }
  destruct (parts_nonempty sep s) as (p' & ps' & Ep), (parts_nonempty fine s) as (q' & qs' & Eq).
  destruct (IH _ _ _ _ Ep Eq) as [H1 H2]. rewrite Ep, Eq. specialize (Hs c). destruct (sep c).
  - rewrite Hs by done. intros [= <- <-] [= <- <-]. split; [done|]. intros x Hx [->|Hin]%elem_of_cons; rewrite elem_of_cons; auto.
  - destruct (fine c) eqn:Ef; intros [= <- <-] [= <- <-].
    + split; [simpl; by rewrite Ef|]. intros x Hx Hin. rewrite elem_of_cons. auto.
    + split; [|done]. simpl. rewrite Ef. intros H. by rewrite H1.
Qed.

Lemma plain_parts (sep : ascii -> bool) s : (forall c, sep c = true -> is_slash c = true) ->
  forallb plain_part (parts is_slash s) = true -> Forall (fun p => plain_part p = true) (parts sep s).
Proof.
  intros Hs Hp. destruct (parts_nonempty sep s) as (p & ps & Ep), (parts_nonempty is_slash s) as (q & qs & Eq).
  destruct (parts_finer sep is_slash s Hs _ _ _ _ Ep Eq) as [H1 H2]. rewrite Ep. apply Forall_forall. intros x Hx.
  assert (Hq : forall x, x ∈ q :: qs -> plain_part x = true).
  { intros y Hy. rewrite list_elem_of_In in Hy. rewrite Eq in Hp. by apply (proj1 (forallb_forall _ _) Hp). }
  destruct (plain_part x) eqn:E; [done|].
  assert (Ha : Text.all (fun c => negb (is_slash c)) x = true).
  { unfold plain_part in E. repeat case_bool_decide; subst; try done. }
  rewrite <- E. apply Hq. apply elem_of_cons in Hx as [->|Hx]; [rewrite (H1 Ha); by constructor|]. constructor 2. auto.
Qed.

Lemma enter_plain l : forall dir, Forall (fun p => plain_part p = true) l -> fold_left enter l dir = (dir ++ l)%list.
Proof.
  induction l as [|p l IH]; intros dir Hl; simpl; [by rewrite app_nil_r|]. apply List.Forall_cons_iff in Hl as [Hp Hl].
  rewrite IH by done. unfold enter. unfold plain_part in Hp. repeat case_bool_decide; try done; simpl. by rewrite <- app_assoc.
Qed.

(** A safe path stays below the directory it is walked from, whichever of the
    two slashes separate names. *)
Definition stays (path : string) : Prop :=
  forall sep dir, (forall c, sep c = true -> is_slash c = true) ->
  exists below, below <> [] /\ walk sep dir path = (dir ++ below)%list.

Lemma safe_stays path : IsSafeRelativePath path = true -> stays path.
Proof.
  unfold IsSafeRelativePath, walk. destruct path as [|c s]; [done|]. destruct (is_slash c) eqn:Ec; [done|].
  case_bool_decide; [done|]. intros Hp sep dir Hs. exists (parts sep (String c s)). split.
  { by destruct (parts_nonempty sep (String c s)) as (? & ? & ->). }
  unfold walk. destruct (sep c) eqn:Es; [by rewrite (Hs c Es) in Ec|]. apply enter_plain. by apply plain_parts.
Qed.

(** ** Inverting a reader *)

Lemma bind_inv {A B} (m : Reader A) (f : A -> Reader B) r b r' :
  bind m f r = Value (b, r') -> exists a r1, m r = Value (a, r1) /\ f a r1 = Value (b, r').
Proof. unfold bind. destruct (m r) as [[a r1]|]; [|done]. eauto. Qed.
Lemma run_inv {A} (m : Reader A) r a : run m r = Value a -> exists r', m r = Value (a, r').
Proof. unfold run. destruct (m r) as [[a' r']|]; [|done]. intros [= ->]. eauto. Qed.
Lemma lift_inv {A} (x : Result A) r a r' : lift x r = Value (a, r') -> x = Value a.
Proof. unfold lift. by destruct x; [intros [= -> _]|]. Qed.
Lemma RequireInteger_inv k r z r' :
  RequireInteger k r = Value (z, r') -> Json.Find k (value_ r) = Some (JInteger z).
Proof. intros (o & r1 & [= <- <-] & H)%bind_inv. destruct (Json.Find k (value_ r)) as [[]|]; try done. by injection H as -> _. Qed.
Lemma OptionalInteger_inv k r o r' :
  OptionalInteger k r = Value (o, r') -> Json.Find k (value_ r) = JInteger <$> o.
Proof.
  intros (v & r1 & [= <- <-] & H)%bind_inv. destruct (Json.Find k (value_ r)) as [[]|]; try done; by injection H as <- _.
Qed.

(** The value a reader looks at is always the same. *)
Definition keeps {A} (m : Reader A) : Prop := forall r a r', m r = Value (a, r') -> value_ r' = value_ r.

Lemma keeps_ret {A} (a : A) : keeps (ret a).
Proof. by intros r b r' [= _ <-]. Qed.
Lemma keeps_lift {A} (x : Result A) : keeps (lift x).
Proof. intros r a r'. unfold lift. by destruct x; [intros [= _ <-]|]. Qed.
Lemma keeps_error {A} m : keeps (@error A m).
Proof. done. Qed.
Lemma keeps_Missing {A} k : keeps (@Missing A k).
Proof. done. Qed.
Lemma keeps_WrongType {A} k e : keeps (@WrongType A k e).
Proof. done. Qed.
Lemma keeps_path : keeps path.
Proof. by intros r a r' [= _ <-]. Qed.
Lemma keeps_Get k : keeps (Get k).
Proof. by intros r a r' [= _ <-]. Qed.
Lemma keeps_bind {A B} (m : Reader A) (f : A -> Reader B) : keeps m -> (forall a, keeps (f a)) -> keeps (bind m f).
Proof. intros Hm Hf r b r' (a & r1 & E1 & E2)%bind_inv. by rewrite (Hf _ _ _ _ E2), (Hm _ _ _ E1). Qed.
Create HintDb reader.
#[export] Hint Resolve keeps_ret keeps_lift keeps_error keeps_Missing keeps_WrongType keeps_path keeps_Get keeps_bind : reader.
(** A reader made of these, with a case on what was read in between. *)
Ltac keeping :=
  repeat first [progress (intros; auto with reader) | apply keeps_bind | match goal with |- keeps (match ?x with _ => _ end) => destruct x end].

Lemma keeps_RequireString k : keeps (RequireString k).
Proof. unfold RequireString. keeping. Qed.
Lemma keeps_RequireBool k : keeps (RequireBool k).
Proof. unfold RequireBool. keeping. Qed.
Lemma keeps_OptionalInteger k : keeps (OptionalInteger k).
Proof. unfold OptionalInteger. keeping. Qed.
Lemma keeps_StringArray k b d : keeps (StringArray k b d).
Proof. unfold StringArray, OptionalStringArray. keeping. Qed.
Lemma keeps_MarkHeaderSeen : keeps MarkHeaderSeen.
Proof. unfold MarkHeaderSeen. keeping. Qed.
Lemma keeps_parse_operators ops : forall seen, keeps (parse_operators ops seen).
Proof. induction ops as [|op ops IH]; intros seen; simpl; keeping. Qed.
#[export] Hint Resolve keeps_RequireString keeps_RequireBool keeps_OptionalInteger keeps_StringArray keeps_MarkHeaderSeen
  keeps_parse_operators : reader.

(** ** What was read *)

Record manifest_ok (m : PluginManifest) : Prop := {
  mo_id : Str.empty (pm_plugin_id m) = false;
  mo_library : IsSafeRelativePath (pm_library m) = true;
  mo_major : Word.is_u32 (abi_major (pm_abi m));
  mo_minor : Word.is_u32 (abi_minor (pm_abi m));
  mo_fingerprint : Str.empty (pm_build_fingerprint m) = false;
  mo_resources : Forall (fun res => IsSafeRelativePath res = true) (pm_resources m);
  mo_some : pm_operators m <> [];
  mo_operators : Forall (fun k => OperatorKeyOps.wf k = true) (pm_operators m);
  mo_distinct : NoDup (pm_operators m);
  mo_inference : from_option_P (fun z => 0 < z < 2 ^ 63) (pm_max_inference_ms m);
  mo_threads : pm_no_owned_threads m = true;
}.

Lemma parse_operators_spec ops : forall seen r keys r', parse_operators ops seen r = Value (keys, r') ->
  ops = map OperatorKeyOps.ToString keys /\ Forall (fun k => OperatorKeyOps.wf k = true) keys /\
  NoDup ops /\ Forall (fun op => op ∉ seen) ops.
Proof.
  induction ops as [|op ops IH]; intros seen r keys r'; simpl.
  { intros [= <- _]. by repeat constructor. }
  destruct (OperatorKeyOps.Parse op) as [k|] eqn:Ek; [|done]. apply OperatorKey_Parse_iff in Ek as [Hk Ek].
  case_bool_decide as Hin; [done|]. intros (ks & r1 & H & [= <- _])%bind_inv.
  apply IH in H as (-> & Hw & Hn & Hs). cbn [map]. rewrite <- Ek. rewrite List.Forall_forall in Hs. repeat split.
  - by constructor.
  - apply list.NoDup_cons. split; [|done]. rewrite list_elem_of_In. intros Hi. apply (Hs _ Hi). by constructor.
  - constructor; [done|]. apply List.Forall_forall. intros x Hx Hi. apply (Hs _ Hx). by constructor 2.
Qed.

Lemma find_integer n k doc z : json_wf any_num n doc -> Json.Find k doc = Some (JInteger z) -> Word.is_i64 z.
Proof.
  intros Hw. destruct Hw as [| | | | | |n m Hs Hm]; try done. unfold Json.Find. intros Hf. apply SMap.find_In in Hf.
  rewrite List.Forall_forall in Hm. apply Hm in Hf. simpl in Hf. by inversion Hf.
Qed.

Lemma ParseAbi_typed v au a : ParseAbi v au = Value a -> Word.is_u32 (abi_major a) /\ Word.is_u32 (abi_minor a).
Proof.
  intros (r1 & H)%run_inv. apply bind_inv in H as (ma & r2 & _ & H). apply bind_inv in H as (mi & r3 & _ & H).
  destruct (_ || _); [done|]. apply bind_inv in H as (u & r4 & _ & [= <- _]). split; apply Word.u32_range.
Qed.

(** The next reader of a sequence that ended well, a check it passed, and the
    value a later reader looks at. *)
Tactic Notation "next_read" hyp(H) ident(x) ident(E) := apply bind_inv in H as (x & ? & E & H); cbv beta iota in H.
Ltac passed H := match type of H with (if ?b then _ else _) _ = _ => destruct b eqn:?; [done|] end.
Ltac same_value :=
  repeat match goal with
  | E : ?m ?r = Value (_, ?r') |- context [value_ ?r'] =>
      let K := fresh in assert (K : keeps m) by keeping; rewrite (K _ _ _ E); clear K
  end.

Lemma ParseManifest_ok n doc m : json_wf any_num n doc -> ParseManifest doc = Value m -> manifest_ok m.
Proof.
  intros Hw. unfold ParseManifest. destruct (CheckDocumentHeader _ _ _ _ _) as [au|]; [|done]. simpl. intros (r1 & H)%run_inv.
  next_read H u E0. next_read H ident E1. passed H. next_read H lib E2. passed H. next_read H abi E3. next_read H version E4.
  next_read H fp E5. passed H. next_read H deps E6. next_read H dl E7. next_read H res E8.
  destruct (List.find _ res) eqn:Er; [done|]. next_read H ops E9. passed H. next_read H keys E10. next_read H mi E11.
  passed H. next_read H threads E12. passed H. next_read H u' E13. injection H as <- _.
  assert (Hmi : Json.Find "max_inference_ms" doc = JInteger <$> mi).
  { rewrite <- (OptionalInteger_inv _ _ _ _ E11). same_value. done. }
  assert (Ha : Word.is_u32 (abi_major version) /\ Word.is_u32 (abi_minor version)).
  { destruct abi as [v|]; [|done]. destruct (negb (Json.is_object v)); [done|]. apply lift_inv in E4. by apply ParseAbi_typed in E4. }
  apply parse_operators_spec in E10 as (-> & Hk & Hn & _).
  constructor; simpl; try done; try tauto.
  - by apply negb_false_iff.
  - apply List.Forall_forall. intros y Hy. by apply negb_false_iff, (List.find_none _ _ Er).
  - by intros ->.
  - by apply NoDup_fmap_1 in Hn.
  - destruct mi as [z|]; [|done]. apply (find_integer _ _ _ _ Hw) in Hmi. simpl. unfold Word.is_i64 in Hmi.
    rewrite Word.u64_small by (unfold Word.is_u64; lia). lia.
  - by destruct threads.
Qed.

(** ** The round trip *)

Lemma Abi_reads a au : Word.is_u32 (abi_major a) -> Word.is_u32 (abi_minor a) -> ParseAbi (AbiJson a) au = Value a.
Proof.
  intros H1 H2. unfold ParseAbi, AbiJson, cap_reader. read RequireInteger_ok. read RequireInteger_ok.
  unfold Word.is_u32 in *. rewrite !(proj2 (Z.ltb_ge _ _)) by lia. cbv beta iota delta [orb]. finish. returns a.
  rewrite !Word.u32_small by done. by destruct a.
Qed.

Lemma Dependency_reads au d p : ParseDependency au (DependencyJson d) p = Value d.
Proof.
  unfold ParseDependency, DependencyJson, cap_reader. change (negb (Json.is_object (Json.obj _))) with false. cbv iota.
  read RequireString_ok. read RequireString_ok. finish. returns d. by destruct d.
Qed.

Lemma operators_read keys : forall seen r,
  Forall (fun k => OperatorKeyOps.wf k = true) keys -> NoDup (map OperatorKeyOps.ToString keys) ->
  Forall (fun op => op ∉ seen) (map OperatorKeyOps.ToString keys) ->
  parse_operators (map OperatorKeyOps.ToString keys) seen r = Value (keys, r).
Proof.
  induction keys as [|k keys IH]; intros seen r Hw Hn Hs; simpl; [done|]. cbn [map] in Hn, Hs.
  apply List.Forall_cons_iff in Hw as [Hk Hw], Hs as [Hs1 Hs]. apply list.NoDup_cons in Hn as [Hk' Hn].
  rewrite (proj2 (OperatorKey_Parse_iff _ k) (conj Hk eq_refl)), bool_decide_eq_false_2 by done.
  erewrite bind_ok; [done|]. apply IH; [done..|]. apply List.Forall_forall. intros x Hx [->|Hi]%elem_of_cons.
  - by apply Hk', list_elem_of_In.
  - rewrite List.Forall_forall in Hs. by apply (Hs x).
Qed.

Lemma keys_distinct keys : Forall (fun k => OperatorKeyOps.wf k = true) keys -> NoDup keys -> NoDup (map OperatorKeyOps.ToString keys).
Proof.
  intros Hw Hn. induction Hn as [|k keys Hk _ IH]; cbn [map]; [constructor|]. apply List.Forall_cons_iff in Hw as [Hk1 Hw].
  apply list.NoDup_cons. split; [|auto]. rewrite list_elem_of_In. intros (k' & E & Hi)%in_map_iff. apply Hk.
  rewrite List.Forall_forall in Hw. pose proof (proj2 (OperatorKey_Parse_iff _ k') (conj (Hw _ Hi) eq_refl)) as H1.
  rewrite E, (proj2 (OperatorKey_Parse_iff _ k) (conj Hk1 eq_refl)) in H1. injection H1 as ->. by apply list_elem_of_In.
Qed.

Lemma RequireBool_ok k r b : Json.Find k (value_ r) = Some (JBool b) -> RequireBool k r = Value (b, see k r).
Proof. intros E. unfold RequireBool, bind, Get. by rewrite E. Qed.

Lemma Manifest_reads m : manifest_ok m -> ParseManifest (ManifestJson m) = Value m.
Proof.
  intros [Hid Hlib Hma Hmi Hfp Hres Hsome Hw Hn Hinf Ht]. unfold ParseManifest, ManifestJson, header, cap_reader.
  rewrite header_ok by find_field. cbn [ResultOps.bind]. header_seen. read RequireString_ok. rewrite Hid.
  read RequireString_ok. rewrite Hlib. change (negb true) with false. cbv iota. read Get_ok. chose (pm_abi m).
  { change (Json.is_object (AbiJson _)) with true. cbv iota. apply lift_ok. by apply Abi_reads. }
  read RequireString_ok. rewrite Hfp. read Get_ok. chose (pm_dependencies m).
  { destruct (pm_dependencies m) as [|d l] eqn:E; [done|]. rewrite <- E. replace (has (head (pm_dependencies m))) with true by by rewrite E.
    apply lift_ok. apply (parse_items_reads _ _ (fun _ => True)); [intros; apply Dependency_reads|]. by apply List.Forall_forall. }
  step; [|apply StringArray_when; find_field]. cbv beta.
  replace (if has (head (pm_resources m)) then pm_resources m else []) with (pm_resources m) by by destruct (pm_resources m).
  destruct (List.find _ _) as [res|] eqn:Er.
  { apply List.find_some in Er as [Hin Hneg]. rewrite List.Forall_forall in Hres. by rewrite (Hres _ Hin) in Hneg. }
  step; [|apply (StringArray_ok _ _ _ _ (map OperatorKeyOps.ToString (pm_operators m))); find_field]. cbv beta.
  replace (negb (has (head (map OperatorKeyOps.ToString (pm_operators m))))) with false by by destruct (pm_operators m).
  chose (pm_operators m). { apply operators_read; [done|by apply keys_distinct|]. apply List.Forall_forall. intros x _. apply not_elem_of_nil. }
  step; [|apply (OptionalInteger_ok _ _ (Word.i64 <$> pm_max_inference_ms m)); find_field; by destruct (pm_max_inference_ms m)].
  cbv beta. replace (match Word.i64 <$> pm_max_inference_ms m with Some z => z <=? 0 | None => false end) with false.
  2: { destruct (pm_max_inference_ms m) as [z|]; [|done]. simpl in *. rewrite Word.i64_small by (unfold Word.is_i64; lia).
       symmetry. apply Z.leb_gt. lia. }
  read RequireBool_ok. rewrite Ht. change (negb true) with false. cbv iota. finish. returns m. destruct m as [id lib abi fp deps res ops mi th au]. simpl in *. f_equal; [|done].
  destruct mi as [z|]; [|done]. simpl in *. by rewrite u64_i64 by (unfold Word.is_u64; lia).
Qed.

Lemma Manifest_printable m : manifest_ok m -> printable 256 (ManifestJson m).
Proof.
  intros [_ _ Hma Hmi _ _ _ _ _ Hinf _]. unfold ManifestJson, header, AbiJson. unfold Word.is_u32 in *. fields.
  - unfold Word.is_i64. lia.
  - unfold Word.is_i64. lia.
  - unfold Word.is_i64. lia.
  - apply (printable_map _ _ (fun _ => True)); [|by apply List.Forall_forall].
    intros d _. unfold DependencyJson. fields.
  - apply Word.i64_range.
Qed.

Lemma ParseManifestText_inv text m : ParseManifestText text = Value m -> manifest_ok m.
Proof.
  unfold ParseManifestText. destruct (ParseJson text) as [v|] eqn:E; [|done]. apply ParseJson_wf in E. by apply (ParseManifest_ok 256).
Qed.

(** C30: a manifest that was read from a text is within its types: the plugin id
    and the fingerprint are not empty, both ABI versions are 32-bit numbers, at
    least one operator is declared, each with a well-formed key and none twice,
    the inference bound is positive and below 2^63, and the plugin promises not
    to own threads. Its library and its resources lie strictly below the
    directory they are looked up from, whether the system separates names by a
    slash, by a backslash or by both: no path climbs out or starts elsewhere. *)
Theorem ParseManifest_typed text m :
  ParseManifestText text = Value m -> manifest_ok m /\ stays (pm_library m) /\ Forall stays (pm_resources m).
Proof.
  intros H%ParseManifestText_inv. split_and!; [done|apply safe_stays, H|].
  eapply Forall_impl; [apply H|]. apply safe_stays.
Qed.

(** A manifest that was read survives being written: the text of it reads as
    the same manifest. *)
Theorem ParseManifest_Serialize text m :
  ParseManifestText text = Value m -> ParseManifestText (SerializeManifest m) = Value m.
Proof.
  intros H%ParseManifestText_inv. unfold ParseManifestText, SerializeManifest.
  rewrite parse_serialized by by apply Manifest_printable. by apply Manifest_reads.
Qed.

Definition sample_manifest : PluginManifest :=
  MkPluginManifest "vision" "lib/libvision.so" (MkAbiVersion 1 2) "gcc-13" [MkPluginDependency "cuda" "12"] ["models/a.onnx"]
    [MkOperatorKey "detect" "1.0"; MkOperatorKey "track" "1.0"] (Some 40) true false.

Lemma ParseManifest_typed_witness :
  ParseManifestText (SerializeManifest sample_manifest) = Value sample_manifest /\ stays "lib/libvision.so".
Proof.
  assert (H : ParseManifestText (SerializeManifest sample_manifest) = Value sample_manifest) by (vm_compute; reflexivity).
  split; [exact H|]. apply (ParseManifest_typed _ _ H).
Defined.

(** The ABI versions are cast to 32 bits without a check of their range: a
    manifest that asks for ABI 4294967297 is read as one for ABI 1. *)
Example large_abi_truncated :
  ParseManifestText (SerializeManifest (MkPluginManifest "p" "l.so" (MkAbiVersion (2 ^ 32 + 1) 0) "f" [] []
    [MkOperatorKey "o" "1"] None true false)) =
  Value (MkPluginManifest "p" "l.so" (MkAbiVersion 1 0) "f" [] [] [MkOperatorKey "o" "1"] None true false).
Proof. vm_compute. reflexivity. Qed.
